(* ===== verification/_CoqProject ===== *)
-Q . S2P
Prelude.v
Common.v
Decimal.v
HeapPage.v
HeapPageView.v
HeapPageSpec.v
HeapPageUpdate.v
HeapPageContract.v
BaseFile.v
Catalog.v
BufferFrame.v
MemPool.v
InMemPool.v
BufferPool.v
BufferPoolLaws.v
Reopen.v
HeapFile.v
HeapFileSpec.v
HeapFileContract.v
StorageSpec.v
HeapStore.v
HeapStorePool.v
MemStore.v
MemStoreSpec.v
MemStoreContract.v
Ordering.v
Field.v
FieldCodec.v
SqlAst.v
FieldContract.v
Tuple.v
ByteCode.v
Expr.v
ExprCorrect.v
OpIterator.v
OpBasic.v
OpJoin.v
OpJoinLaws.v
OpSort.v
OpAggregate.v
OpAggregateCorrect.v
OpRun.v
PhysicalPlan.v
DbCatalog.v
Registrar.v
Statistics.v
OpMutate.v
OpDyn.v
PlanToOp.v
PlanSem.v
PlanRel.v
PlanCorrect.v
Executor.v
HeapQuery.v
Mutator.v
MutatorCorrect.v
TreeIndex.v
TreeNode.v
TreeShape.v
TreeStore.v
TreeCorrect.v
TreeContract.v
IndexManager.v
Logical.v
Translate.v
Optimizer.v
LogicalSem.v
LogicalCorrect.v
LogicalProject.v
SqlSem.v
TranslateFrom.v
TranslateCorrect.v
LogicalPhysical.v
OptimizerCorrect.v
CostModel.v
Server.v
ServerCorrect.v
Protocol.v
QueryExamples.v
ServerExamples.v
