(* ===== verification/Prelude.v ===== *)
(** * CrustyDB: verification development

    CrustyDB is a relational database server. This library models its storage engine, its
    indexes, its query engine, its server and its client, from the bytes of a page to the
    text of a command and the bytes of its response, and proves what each layer promises to
    the one above it. Paths are relative to [src/src/]
    of the repository.

    ** How the code is modelled

    A function of the source is a function here, with its name where that is possible. A
    computation returns or panics ([outcome], [Ret] and [Panic], below); an error the source
    returns is a value of [result]. Arithmetic is that of a debug build: an overflow, a slice
    out of range, [unwrap] of nothing and a failed [assert!] are panics. Integers are [Z]
    with their range written out; bytes are [byte]. Mutable state is passed explicitly. A
    latch that is not granted to a blocking call is a panic too, except in the module [RwLatch] of [BufferFrame.v], where
    threads are interleaved: every other file runs one operation at a time, as one thread
    sees the system. Traits are classes of operations, and what callers rely on is a class of
    laws next to it; clients are proved against the laws, implementations prove them.

    ** The parts

    - Pages. [Common.v] (ids and errors), [HeapPage.v] (the fixed header of a page, slotted
      pages, [heapstore/src/page.rs], [heap_page.rs]). [HeapPageView.v] gives a page its
      logical view and its invariant and treats compaction, [HeapPageSpec.v] and
      [HeapPageUpdate.v] the effect of every operation, [HeapPageContract.v] the refinement: any sequence of
      operations on a fresh page answers as a map from slot ids to values, with the free
      space and its holes, which say exactly when a value is refused.
    - Files. [Decimal.v] (names of files), [BaseFile.v] and [Catalog.v] ([base_file.rs],
      [container_file_catalog.rs]) over the system calls, the class [Posix] and its laws.
    - Latches. The module [RwLatch] of [BufferFrame.v] ([common/src/rwlatch.rs]) is a step
      relation over atomic accesses of any number of threads: mutual exclusion, and that the
      counter is exact.
    - Memory pools. [BufferFrame.v] (frames and guards), [MemPool.v] (the trait and its laws),
      [InMemPool.v] and [BufferPool.v] with [BufferPoolLaws.v] (both pools keep the laws);
      [Reopen.v]: what is flushed is found by a pool opened later.
    - Heap files and storage managers. [HeapFile.v] over any pool, with [HeapFileSpec.v] and
      [HeapFileContract.v]; [StorageSpec.v] (the storage interface and
      its laws: a map from containers to maps from value ids to bytes), [HeapStore.v] and
      [HeapStorePool.v] (the heap store, alone and over the buffer pool), [MemStore.v],
      [MemStoreSpec.v] and [MemStoreContract.v] (the in-memory storage manager with saving
      and loading). Both refine the storage interface; they differ in their answers to
      deleting and updating what is not stored and to creating a container twice, which is the
      parameter [lenient] of [store_step].
    - Indexes. [TreeIndex.v] ([index/src/tree.rs], B+trees over any pool); [TreeNode.v] (nodes
      as pages), [TreeShape.v] (nodes as an ordered tree with chained leaves), [TreeStore.v]
      (nodes in the pool, splits), [TreeCorrect.v] and [TreeContract.v]: with distinct keys an
      index is a map from keys to record ids, and an operation fails only for want of a frame
      in the pool or of room in a full leaf ([index_fault]); an example shows that with equal
      keys it is no map.
      [IndexManager.v] ([index/src/index_manager.rs]): an index created over a table holds the
      entries of its rows.
    - Values. [Ordering.v], [Field.v], [FieldCodec.v], [FieldContract.v],
      [Tuple.v] ([common/src/datatypes.rs], [tuple.rs] and the converters):
      the order of fields, exact arithmetic or a panic, bytes and text that read back.
    - Expressions. [ByteCode.v], [Expr.v], [ExprCorrect.v] ([common/src/query/expr.rs],
      [bytecode_expr.rs]): compiled expressions compute what evaluation gives.
    - Operators ([queryexe/src/opiterator/]). [OpIterator.v] is the interface with its laws;
      [OpBasic.v], [OpJoin.v], [OpSort.v], [OpAggregate.v], [OpMutate.v] are the operators,
      [OpJoinLaws.v], [OpAggregateCorrect.v] and [OpRun.v]
      what they return; [OpDyn.v] makes trees of them.
    - Plans. [PhysicalPlan.v], [DbCatalog.v], [PlanToOp.v] (the planner,
      [queryexe/src/query/planner.rs]); [PlanSem.v] is the reference semantics of plans,
      [PlanRel.v] and [PlanCorrect.v] show that planned operators return it. [Executor.v]
      runs plans; it and [HeapQuery.v] give the laws of scans for the two storage
      managers, and [HeapQuery.v] composes the query engine with the storage engine.
    - Logical plans. [Logical.v] ([common/src/query/logical_expr/]) with the constructors
      that optimize as they build; [LogicalSem.v] is the reference semantics,
      [LogicalCorrect.v] (selections and joins) and [LogicalProject.v] (computed columns and
      projections) show that the rewrites keep it, and [LogicalPhysical.v] that the
      translation to physical plans does, up to the answer of the query.
    - Insertion of rows. [Mutator.v] and [MutatorCorrect.v] ([queryexe/src/mutator/mod.rs],
      [import_tuples] of [executor.rs]); [ServerCorrect.v] has what an INSERT stores and
      records in the statistics.
    - Optimizer and statistics. [Optimizer.v] and [OptimizerCorrect.v] ([optimizer/src/]: the
      memo and the search over any cost model return a cheapest candidate, which means what
      the query means); [Statistics.v] ([queryexe/src/stats/]: samples and estimates, in
      binary64); [CostModel.v] ([optimizer/src/cost/cardinality_cost_model.rs]).
    - SQL. [SqlAst.v] has the part of the parser's syntax tree that the code reads;
      [Translate.v] ([queryexe/src/query/translate_and_validate.rs],
      [common/src/query/origin_expr.rs]) is the translation to logical plans; [SqlSem.v] is a
      reference interpreter of SELECT on the rows of the tables, and [TranslateFrom.v] and
      [TranslateCorrect.v] show that the translated plan means its answer, for queries that use
      no index ([scans_only]), and that the rewriting to index scans keeps the meaning of a
      WHERE clause.
    - Server. [Registrar.v] ([common/src/query/query_registrar.rs]); [Server.v]
      ([server/src/conductor.rs], [database_state.rs], [server_state.rs], [handler.rs],
      [sql_parser.rs], [common/src/commands.rs]) runs statements and commands on databases;
      [ServerCorrect.v] composes all the layers: the answer of a SELECT, cached results,
      insertions and imports, and two databases over one store.
    - Connections. [Protocol.v] ([cli-crusty/src/lib.rs], [server/src/server.rs]): texts of
      commands, the client and the loop of the server over streams of bytes.
    - [QueryExamples.v] and [ServerExamples.v] run queries and sessions on concrete
      databases, where the theorems are applied.

    ** What the theorems show

    Refinement: pages are maps from slots to values, heap files and storage managers maps from
    ids to values, indexes maps from keys to record ids, query execution is the reference
    semantics of plans, the rewrites of logical plans are equivalences for it, the translation
    of SQL means what the reference interpreter of SQL computes, and the server answers a
    SELECT with it; a script that a client sends gets the responses of the server, whatever
    the network does to their bytes. Safety and
    invariants: mutual exclusion of latches, well-formed pages, ordered trees, page counts and
    ids that are not given twice, and samples that are rows of their table. Round trips: fields,
    decimals as text, texts of commands, saving and loading of containers and of statistics,
    flushing and reopening of a pool. Termination: every theorem about a run says that it
    returns, with the fuel it needs; the cost model returns on what the optimizer asks, and
    imports and conversations end. Some theorems state where the code does not do
    what its comments say: equal keys in an index, rows with two offences in an INSERT, joins
    whose condition names the right side first, the order of projected columns, cross joins,
    cleared caches, empty values, writers that meet a scan, deletions that cached results do
    not see, databases that share containers, tables that were not created, filters on
    computed columns, and commands longer than the buffer of the server.

    ** Fuel and bounds

    Loops whose end is not structural have fuel. Scans of a page and of a file take at most
    65536 rounds per page ([HeapFile.v], [IndexManager.v]). Walks in an index take at most as
    many rounds as the container has pages; a tree of the 2^32 pages a container can have is
    less than 32 levels high, so that an insertion makes at most 34 pages, which is what the
    bounds on page ids in [TreeContract.v] allow for. Operators are run with a bound on the
    depth of the tree and the rounds of their loops; the theorems say that there is a bound
    such that every greater one gives the same answer. The translation of SQL has the depth of
    nested queries as fuel, and chains of origins of columns a bound of their own; the import
    of a CSV file takes one round more than it has records, and a connection one more than it
    has requests. Retries of latches in [RwLatch] are steps of the relation and not bounded.

    ** What is not modelled

    - Libraries outside of the sources are parameters with the laws the code relies on: CBOR
      ([TupleCodec], [NodeCodec], [Cbor] and the serializer of the in-memory storage manager),
      JSON, the splitting of CSV files, the calendar ([format_date], [parse_date]), random
      numbers, the logarithm of the cost model, the tables of Unicode, the hash of database
      names, the file system ([Posix], for calls that succeed), and the SQL parser, of which
      [SqlAst.v] has the syntax tree.
    - Counters of statistics builds, logging, values in the messages of errors, and the
      printing, hashing and comparing of plans.
    - Concurrency other than that of latches: locks that serialize an operation (of indexes,
      of the catalog) are not seen by one operation at a time. Memory orderings of the latch
      are taken as sequentially consistent.
    - [common/src/physical/small_string.rs]: raw memory behind pointers, which the server
      creates and shuts down and nothing else uses.
    - [server/]: threads, workers (which are given no jobs), listening sockets, configuration
      and the engine for tests; a command of one client runs to its end before the next.
      [cli-crusty/]: the editor of command lines. Sockets that fail.
    - Queries with subqueries, aggregates, derived tables or outer joins: their translation
      and the rewrites of [hoist.rs] and [flatmap.rs] are modelled; the theorems about SQL are
      about one SELECT from joined tables, and those about rewrites about plans without
      subqueries. *)

From stdpp Require Export base list numbers option sets.
From coqutil Require Export Byte Word.LittleEndianList.
From stdpp Require Import sorting.
From Stdlib Require Export ZArith Lia.

Open Scope Z_scope.

(** ** Outcomes: running code either returns or panics *)

(** A Rust computation returns a value or panics (slice out of range, arithmetic
    overflow in a checked build, [unwrap] of [None], an explicit [panic!]). *)
Inductive outcome (A : Type) : Type :=
| Ret (a : A)
| Panic.
Arguments Ret {A} a.
Arguments Panic {A}.

#[global] Instance outcome_ret : MRet outcome := λ A a, Ret a.
#[global] Instance outcome_bind : MBind outcome :=
  λ A B f m, match m with Ret a => f a | Panic => Panic end.
#[global] Instance outcome_fmap : FMap outcome :=
  λ A B f m, match m with Ret a => Ret (f a) | Panic => Panic end.

(** [assert!]-like guard, [unwrap] and [expect]. *)
Definition guard_or_panic (b : bool) : outcome unit := if b then Ret tt else Panic.
Definition unwrap {A} (o : option A) : outcome A :=
  match o with Some a => Ret a | None => Panic end.

(** [Result]: error paths are values. *)
Inductive result (E A : Type) : Type :=
| Ok (a : A)
| Err (e : E).
Arguments Ok {E A} a.
Arguments Err {E A} e.

(** [ok_or_else]: an absent value becomes an error. *)
Definition ok_or {E A} (o : option A) (e : E) : result E A :=
  match o with Some a => Ok a | None => Err e end.

(** [Result::unwrap]. *)
Definition result_unwrap {E A} (r : result E A) : outcome A :=
  match r with Ok a => Ret a | Err _ => Panic end.

Lemma bind_Ret {A B} (a : A) (f : A → outcome B) : (Ret a ≫= f) = f a.
Proof. done. Qed.

Lemma bind_Ret_inv {A B} (m : outcome A) (f : A → outcome B) b :
  (m ≫= f) = Ret b → ∃ a, m = Ret a ∧ f a = Ret b.
Proof. destruct m; simpl; [eauto | discriminate]. Qed.

(** ** Code with state and errors *)

(** The state is kept when an error is returned. *)
Definition SE (St Er A : Type) : Type := St → outcome (St * result Er A).

#[global] Instance SE_ret {St Er} : MRet (SE St Er) := λ A x st, Ret (st, Ok x).
#[global] Instance SE_bind {St Er} : MBind (SE St Er) := λ A B k m st,
  '(st, r) ← m st;
  match r with Ok x => k x st | Err e => Ret (st, Err e) end.

Section StateErrors.
Context {St Er : Type}.

Definition throw {A} (e : Er) : SE St Er A := λ st, Ret (st, Err e).
(** Code that does not touch the state. *)
Definition lift {A} (o : outcome A) : SE St Er A := λ st, x ← o; Ret (st, Ok x).
(** The [?] operator on a result. *)
Definition try_ {A} (r : result Er A) : SE St Er A := λ st, Ret (st, r).
(** [ok_or], with the [?] operator. *)
Definition some_or {A} (o : option A) (e : Er) : SE St Er A := try_ (ok_or o e).
(** The error as a value, for code that handles it. *)
Definition attempt {A} (m : SE St Er A) : SE St Er (result Er A) := λ st, '(st, r) ← m st; Ret (st, Ok r).
(** [unwrap]. *)
Definition expect {A} (m : SE St Er A) : SE St Er A := λ st,
  '(st, r) ← m st; match r with Ok x => Ret (st, Ok x) | Err _ => Panic end.

(** A [for] loop that carries a value. *)
Fixpoint loop {A B} (f : B → A → SE St Er B) (b : B) (l : list A) : SE St Er B :=
  match l with
  | [] => mret b
  | x :: l => b ← f b x; loop f b l
  end.

Lemma se_bind_Ok {A B} (m : SE St Er A) (k : A → SE St Er B) st st' x :
  m st = Ret (st', Ok x) → (m ≫= k) st = k x st'.
Proof. intros E. unfold mbind, SE_bind. by rewrite E. Qed.

Lemma loop_cons {A B} (f : B → A → SE St Er B) b x l st st' b' :
  f b x st = Ret (st', Ok b') → loop f b (x :: l) st = loop f b' l st'.
Proof. intros E. cbn [loop]. exact (se_bind_Ok _ (λ b, loop f b l) _ _ _ E). Qed.
End StateErrors.

(** ** Machine integers *)

(** Checked arithmetic at width [w]: the value, or a panic on overflow. *)
Definition checked (w : Z) (z : Z) : outcome Z :=
  if (0 <=? z) && (z <? 2 ^ w) then Ret z else Panic.
(** The [as] cast to an unsigned type of width [w]. *)
Definition cast (w : Z) (z : Z) : Z := z mod 2 ^ w.

Abbreviation u16_add a b := (checked 16 (a + b)).
Abbreviation u16_sub a b := (checked 16 (a - b)).
Abbreviation u32_add a b := (checked 32 (a + b)).
Abbreviation usize_sub a b := (checked 64 (a - b)).
Abbreviation as_u16 z := (cast 16 z).
Abbreviation as_u32 z := (cast 32 z).

Lemma checked_ok w z : 0 ≤ z < 2 ^ w → checked w z = Ret z.
Proof.
  intros H. unfold checked.
  rewrite (proj2 (Z.leb_le 0 z)), (proj2 (Z.ltb_lt z (2 ^ w))) by lia. done.
Qed.

Lemma checked_inv w z z' : checked w z = Ret z' → z' = z ∧ 0 ≤ z < 2 ^ w.
Proof.
  unfold checked. destruct (0 <=? z) eqn:H1, (z <? 2 ^ w) eqn:H2; simpl; try discriminate.
  intros [= <-]. apply Z.leb_le in H1. apply Z.ltb_lt in H2. done.
Qed.

Lemma checked_neg w z : z < 0 → checked w z = Panic.
Proof. intros H. unfold checked. rewrite (proj2 (Z.leb_gt 0 z)) by lia. done. Qed.

Lemma cast_small w z : 0 ≤ z < 2 ^ w → cast w z = z.
Proof. apply Z.mod_small. Qed.

(** ** Lengths *)

(** [len()] of a slice or a [Vec], as a [usize]. *)
Definition zlen {A} (l : list A) : Z := Z.of_nat (length l).

Create HintDb len.
#[export] Hint Rewrite @length_app @length_take @length_drop @length_fmap @length_replicate
  @length_insert @length_cons @length_nil length_le_split : len.

(** Goals about the lengths of list expressions. *)
Ltac len :=
  unfold zlen in *; simpl length in *; autorewrite with len in *; simpl length in *; lia.

Lemma zlen_nonneg {A} (l : list A) : 0 ≤ zlen l.
Proof. len. Qed.

Lemma filter_perm {A} (f : A → bool) (l k : list A) : l ≡ₚ k → List.filter f l ≡ₚ List.filter f k.
Proof.
  induction 1 as [|x l k _ IH|x y l|l k p _ IH1 _ IH2]; cbn; [done| | |by rewrite IH1].
  - destruct (f x); by rewrite IH.
  - destruct (f x), (f y); try done. apply Permutation_swap.
Qed.

Lemma zlen_app {A} (l k : list A) : zlen (l ++ k) = zlen l + zlen k.
Proof. unfold zlen. rewrite length_app. lia. Qed.

Lemma zlen_cons {A} (x : A) (l : list A) : zlen (x :: l) = zlen l + 1.
Proof. unfold zlen. simpl. lia. Qed.

Lemma zlen_replicate {A} n (x : A) : zlen (replicate n x) = Z.of_nat n.
Proof. unfold zlen. by rewrite length_replicate. Qed.

(** ** Byte buffers *)

(** The [n] bytes from offset [off] on, and the buffer with [bs] written there. *)
Definition sub (d : list byte) (off n : Z) : list byte :=
  take (Z.to_nat n) (drop (Z.to_nat off) d).
Definition splice (d : list byte) (off : Z) (bs : list byte) : list byte :=
  take (Z.to_nat off) d ++ bs ++ drop (Z.to_nat off + length bs) d.

(** [&d[a..b]]: panics when the range is not inside the buffer. *)
Definition slice (d : list byte) (a b : Z) : outcome (list byte) :=
  if (0 <=? a) && (a <=? b) && (b <=? zlen d) then Ret (sub d a (b - a)) else Panic.

(** [d[a..b].copy_from_slice(bs)]: panics when the range is not inside the buffer
    or the lengths differ. *)
Definition copy_from_slice (d : list byte) (a b : Z) (bs : list byte) : outcome (list byte) :=
  if (0 <=? a) && (a <=? b) && (b <=? zlen d) && (b - a =? zlen bs)
  then Ret (splice d a bs) else Panic.

(** Little-endian [u16] and [u32] fields of a buffer: [from_le_bytes(d[a..a+2])]
    and [d[a..a+2].copy_from_slice(&v.to_le_bytes())]. *)
Definition read_u16 (d : list byte) (a : Z) : outcome Z :=
  bs ← slice d a (a + 2); Ret (le_combine bs).
Definition write_u16 (d : list byte) (a v : Z) : outcome (list byte) :=
  copy_from_slice d a (a + 2) (le_split 2 v).
Definition read_u32 (d : list byte) (a : Z) : outcome Z :=
  bs ← slice d a (a + 4); Ret (le_combine bs).
Definition write_u32 (d : list byte) (a v : Z) : outcome (list byte) :=
  copy_from_slice d a (a + 4) (le_split 4 v).

(** The values the reads return when they are in range. *)
Definition u16_at (d : list byte) (a : Z) : Z := le_combine (sub d a 2).
Definition u32_at (d : list byte) (a : Z) : Z := le_combine (sub d a 4).

Lemma zlen_splice d off bs :
  0 ≤ off → off + zlen bs ≤ zlen d → zlen (splice d off bs) = zlen d.
Proof. intros. unfold splice. len. Qed.

Lemma zlen_sub d off n : 0 ≤ off → 0 ≤ n → off + n ≤ zlen d → zlen (sub d off n) = n.
Proof. intros. unfold sub. len. Qed.

Lemma length_sub d off n :
  0 ≤ off → 0 ≤ n → off + n ≤ zlen d → length (sub d off n) = Z.to_nat n.
Proof. intros. unfold sub. len. Qed.

Lemma sub_splice_same d off bs :
  0 ≤ off → off + zlen bs ≤ zlen d → sub (splice d off bs) off (zlen bs) = bs.
Proof.
  intros. unfold sub, splice. rewrite drop_app_length' by len.
  apply take_app_length'. len.
Qed.

Lemma sub_splice_left d off bs a n :
  0 ≤ a → 0 ≤ n → a + n ≤ off → off + zlen bs ≤ zlen d →
  sub (splice d off bs) a n = sub d a n.
Proof.
  intros. unfold sub, splice.
  rewrite drop_app_le by len. rewrite take_app_le by len.
  rewrite skipn_firstn_comm, take_take. f_equal. len.
Qed.

Lemma sub_splice_right d off bs a n :
  0 ≤ off → off + zlen bs ≤ a → 0 ≤ n → off + zlen bs ≤ zlen d →
  sub (splice d off bs) a n = sub d a n.
Proof.
  intros. unfold sub, splice.
  rewrite drop_app_ge by len. rewrite drop_app_ge by len.
  rewrite drop_drop. f_equal. f_equal. len.
Qed.

(** Reading a range disjoint from the one written. *)
Lemma sub_splice_disjoint d off bs a n :
  0 ≤ off → 0 ≤ a → 0 ≤ n → off + zlen bs ≤ zlen d →
  a + n ≤ off ∨ off + zlen bs ≤ a →
  sub (splice d off bs) a n = sub d a n.
Proof. intros ???? [?|?]; [apply sub_splice_left | apply sub_splice_right]; lia. Qed.

Lemma slice_ok d a b : 0 ≤ a ≤ b → b ≤ zlen d → slice d a b = Ret (sub d a (b - a)).
Proof.
  intros. unfold slice.
  rewrite !(proj2 (Z.leb_le _ _)) by lia. done.
Qed.

(** A slice that is one of the segments of a concatenation. *)
Lemma slice_mid l1 l2 l3 a b :
  a = zlen l1 → b = a + zlen l2 → slice (l1 ++ l2 ++ l3) a b = Ret l2.
Proof.
  intros -> ->. rewrite slice_ok by len. f_equal. unfold sub.
  rewrite drop_app_length' by len. apply take_app_length'. len.
Qed.

(** Writing one of the segments of a concatenation. *)
Lemma copy_from_slice_mid l1 l2 l3 bs a b :
  a = zlen l1 → b = a + zlen l2 → zlen bs = zlen l2 →
  copy_from_slice (l1 ++ l2 ++ l3) a b bs = Ret (l1 ++ bs ++ l3).
Proof.
  intros -> -> ?. unfold copy_from_slice.
  rewrite !(proj2 (Z.leb_le _ _)) by len. rewrite (proj2 (Z.eqb_eq _ _)) by lia. simpl.
  f_equal. unfold splice. rewrite take_app_length' by len.
  rewrite drop_app_ge by len. rewrite drop_app_length' by len. done.
Qed.

Lemma copy_from_slice_ok d a b bs :
  0 ≤ a → b = a + zlen bs → b ≤ zlen d → copy_from_slice d a b bs = Ret (splice d a bs).
Proof.
  intros ? -> ?. pose proof (zlen_nonneg bs). unfold copy_from_slice.
  rewrite !(proj2 (Z.leb_le _ _)) by lia. rewrite (proj2 (Z.eqb_eq _ _)) by lia. done.
Qed.

Lemma read_u16_ok d a : 0 ≤ a → a + 2 ≤ zlen d → read_u16 d a = Ret (u16_at d a).
Proof.
  intros. unfold read_u16, u16_at. rewrite slice_ok by lia. simpl.
  by replace (a + 2 - a) with 2 by lia.
Qed.

Lemma write_u16_ok d a v :
  0 ≤ a → a + 2 ≤ zlen d → write_u16 d a v = Ret (splice d a (le_split 2 v)).
Proof. intros. apply copy_from_slice_ok; len. Qed.

Lemma read_u32_ok d a : 0 ≤ a → a + 4 ≤ zlen d → read_u32 d a = Ret (u32_at d a).
Proof.
  intros. unfold read_u32, u32_at. rewrite slice_ok by lia. simpl.
  by replace (a + 4 - a) with 4 by lia.
Qed.

Lemma write_u32_ok d a v :
  0 ≤ a → a + 4 ≤ zlen d → write_u32 d a v = Ret (splice d a (le_split 4 v)).
Proof. intros. apply copy_from_slice_ok; len. Qed.

Lemma le_combine_lt bs n : (length bs ≤ n)%nat → 0 ≤ le_combine bs < 2 ^ (8 * Z.of_nat n).
Proof.
  intros. pose proof (le_combine_bound bs).
  assert (2 ^ (8 * Z.of_nat (length bs)) ≤ 2 ^ (8 * Z.of_nat n)); [|lia].
  apply Z.pow_le_mono_r; lia.
Qed.

Lemma u16_at_bound d a : 0 ≤ u16_at d a < 65536.
Proof. apply (le_combine_lt _ 2). unfold sub. rewrite length_take. lia. Qed.

Lemma u32_at_bound d a : 0 ≤ u32_at d a < 2 ^ 32.
Proof. apply (le_combine_lt _ 4). unfold sub. rewrite length_take. lia. Qed.

Lemma u16_at_same d a v :
  0 ≤ a → a + 2 ≤ zlen d → 0 ≤ v < 65536 → u16_at (splice d a (le_split 2 v)) a = v.
Proof.
  intros. unfold u16_at.
  replace 2 with (zlen (le_split 2 v)) at 2 by len.
  rewrite sub_splice_same by len. rewrite le_combine_split. by apply Z.mod_small.
Qed.

Lemma u32_at_same d a v :
  0 ≤ a → a + 4 ≤ zlen d → 0 ≤ v < 2 ^ 32 → u32_at (splice d a (le_split 4 v)) a = v.
Proof.
  intros. unfold u32_at.
  replace 4 with (zlen (le_split 4 v)) at 2 by len.
  rewrite sub_splice_same by len. rewrite le_combine_split. by apply Z.mod_small.
Qed.

Lemma u16_at_disjoint d off bs a :
  0 ≤ off → 0 ≤ a → off + zlen bs ≤ zlen d → a + 2 ≤ off ∨ off + zlen bs ≤ a →
  u16_at (splice d off bs) a = u16_at d a.
Proof. intros. unfold u16_at. rewrite sub_splice_disjoint by lia. done. Qed.

Lemma u32_at_disjoint d off bs a :
  0 ≤ off → 0 ≤ a → off + zlen bs ≤ zlen d → a + 4 ≤ off ∨ off + zlen bs ≤ a →
  u32_at (splice d off bs) a = u32_at d a.
Proof. intros. unfold u32_at. rewrite sub_splice_disjoint by lia. done. Qed.

(** [d[i]] and [d[a..b].fill(x)]. *)
Definition index (d : list byte) (i : Z) : outcome byte :=
  if (0 <=? i) && (i <? zlen d) then unwrap (d !! Z.to_nat i) else Panic.
Definition fill (d : list byte) (a b : Z) (x : byte) : outcome (list byte) :=
  copy_from_slice d a b (replicate (Z.to_nat (b - a)) x).

Lemma index_head b d : index ([b] ++ d) 0 = Ret b.
Proof.
  unfold index. cbn [app]. rewrite (proj2 (Z.ltb_lt _ _)) by (pose proof (zlen_nonneg d); len). done.
Qed.

Lemma fill_ok d a b x :
  0 ≤ a ≤ b → b ≤ zlen d →
  fill d a b x = Ret (splice d a (replicate (Z.to_nat (b - a)) x)).
Proof. intros. apply copy_from_slice_ok; len. Qed.

(** ** Loops *)

(** [for x in l { s = body(s, x)?; }] with panics propagated. *)
Fixpoint foldM {S A} (body : S → A → outcome S) (s : S) (l : list A) : outcome S :=
  match l with
  | [] => Ret s
  | x :: l => s' ← body s x; foldM body s' l
  end.

(** The invariant rule of [foldM]: an invariant on the elements done so far that
    every iteration re-establishes, without panicking, holds at the end. *)
Lemma foldM_inv {S A} (body : S → A → outcome S) (P : list A → S → Prop) l s :
  P [] s →
  (∀ l1 x l2 s, l = l1 ++ x :: l2 → P l1 s →
     ∃ s', body s x = Ret s' ∧ P (l1 ++ [x]) s') →
  ∃ s', foldM body s l = Ret s' ∧ P l s'.
Proof.
  intros H0 Hstep.
  assert (∀ l2 l1 s, l = l1 ++ l2 → P l1 s → ∃ s', foldM body s l2 = Ret s' ∧ P l s') as G.
  { induction l2 as [|x l2 IH]; intros l1 s1 -> HP; simpl.
    - exists s1. by rewrite app_nil_r in *.
    - destruct (Hstep l1 x l2 s1 eq_refl HP) as (s' & -> & HP'). simpl.
      apply (IH (l1 ++ [x])); [by rewrite <-app_assoc | done]. }
  by apply (G l []).
Qed.

(** [0..n]. *)
Definition range (n : Z) : list Z := Z.of_nat <$> seq 0 (Z.to_nat n).

Lemma elem_of_range n i : i ∈ range n ↔ 0 ≤ i < n.
Proof.
  unfold range. rewrite list_elem_of_fmap. setoid_rewrite elem_of_seq. split.
  - intros (k & -> & ?). lia.
  - intros. exists (Z.to_nat i). lia.
Qed.

Lemma NoDup_range n : NoDup (range n).
Proof. apply NoDup_fmap_2; [intros ???; lia | apply NoDup_seq]. Qed.

Lemma range_S n : 0 ≤ n → range (n + 1) = range n ++ [n].
Proof.
  intros. unfold range. replace (Z.to_nat (n + 1)) with (S (Z.to_nat n)) by lia.
  rewrite seq_S, fmap_app. simpl. do 2 f_equal. lia.
Qed.

Lemma elem_of_fst {A B} (a : A) (b : B) l : (a, b) ∈ l → a ∈ l.*1.
Proof. intros. apply list_elem_of_fmap. by exists (a, b). Qed.

(** ** Stable sort *)

(** [sort_by] and [sort_by_key] are stable sorts: equal keys keep their order.
    [insert_by x l] puts [x] in front of the first element not below it. *)
Fixpoint insert_by {A} (leb : A → A → bool) (x : A) (l : list A) : list A :=
  match l with
  | [] => [x]
  | y :: l' => if leb x y then x :: l else y :: insert_by leb x l'
  end.
Definition sort_by {A} (leb : A → A → bool) (l : list A) : list A :=
  foldr (insert_by leb) [] l.

Lemma insert_by_Permutation {A} (leb : A → A → bool) x l : insert_by leb x l ≡ₚ x :: l.
Proof.
  induction l as [|y l IH]; simpl; [done|].
  destruct (leb x y); [done|]. rewrite IH. apply Permutation_swap.
Qed.

Lemma sort_by_Permutation {A} (leb : A → A → bool) l : sort_by leb l ≡ₚ l.
Proof.
  induction l as [|x l IH]; simpl; [done|]. by rewrite insert_by_Permutation, IH.
Qed.

Section Sorting.
Context {A : Type} (leb : A → A → bool).
Context (leb_total : ∀ x y, leb x y = false → leb y x = true).
Context (leb_trans : ∀ x y z, leb x y = true → leb y z = true → leb x z = true).

Lemma insert_by_sorted x l :
  StronglySorted (λ a b, leb a b = true) l →
  StronglySorted (λ a b, leb a b = true) (insert_by leb x l).
Proof.
  induction 1 as [|y l Hs IH Hy]; simpl; [by repeat constructor|].
  destruct (leb x y) eqn:E.
  - constructor; [by constructor|]. constructor; [done|].
    eapply Forall_impl; [exact Hy|]. eauto.
  - constructor; [done|]. rewrite insert_by_Permutation. constructor; auto.
Qed.

Lemma sort_by_sorted l : StronglySorted (λ a b, leb a b = true) (sort_by leb l).
Proof. induction l; simpl; [constructor | by apply insert_by_sorted]. Qed.

(** Stability: the elements equivalent to [k] keep their order. *)
Lemma insert_by_filter_equiv x l k :
  List.filter (λ a, leb a k && leb k a) (insert_by leb x l) =
  List.filter (λ a, leb a k && leb k a) (x :: l).
Proof.
  induction l as [|y l IH]; simpl; [done|].
  destruct (leb x y) eqn:E; [done|]. cbn [List.filter]. rewrite IH. simpl.
  destruct (leb x k && leb k x) eqn:Ex, (leb y k && leb k y) eqn:Ey; try done.
  apply andb_true_iff in Ex as [Hxk _], Ey as [_ Hky].
  rewrite (leb_trans _ _ _ Hxk Hky) in E. discriminate.
Qed.

Lemma sort_by_stable l k :
  List.filter (λ a, leb a k && leb k a) (sort_by leb l) =
  List.filter (λ a, leb a k && leb k a) l.
Proof.
  induction l as [|x l IH]; simpl; [done|].
  rewrite insert_by_filter_equiv. simpl. by rewrite IH.
Qed.
End Sorting.

Lemma StronglySorted_weaken {A} (R S : A → A → Prop) (l : list A) :
  (∀ a b, R a b → S a b) → StronglySorted R l → StronglySorted S l.
Proof. intros Hi. induction 1; constructor; [done|]. eapply Forall_impl; eauto. Qed.

Lemma NoDup_omap_inj {A B} (f : A → option B) l :
  (∀ x y b, f x = Some b → f y = Some b → x = y) → NoDup l → NoDup (omap f l).
Proof.
  intros Hf. induction 1 as [|x l Hx _ IH]; simpl; [constructor|].
  destruct (f x) as [b|] eqn:E; [|done]. constructor; [|done].
  intros (y & Hy & Ey)%list_elem_of_omap. destruct Hx. by rewrite (Hf x y b E Ey).
Qed.
