(* ===== verification/Common.v ===== *)
(** * Identifiers and errors

    Models [common/src/ids.rs] (value ids and their three byte encodings, page
    keys, log sequence numbers) and the error type of [common/src/error.rs]. *)

From S2P Require Import Prelude.
From stdpp Require Import strings.
Open Scope Z_scope.

(** ** Errors ([error.rs]) *)

(** Payload strings are kept: callers build them with [format!], of which the
    model keeps the literal part. *)
Inductive CrustyError :=
| IOError (s : string)
| SerializationError (s : string)
| CrustyErr (s : string)
| ValidationError (s : string)
| ExecutionError (s : string)
| TransactionNotActive
| InvalidMutationError (s : string)
| TransactionRollback (tid : Z)
| StorageError
| ContainerDoesNotExist
| InvalidOperation.

Definition c_err (s : string) : CrustyError := CrustyErr s.

(** ** Identifiers ([ids.rs]) *)

Record ValueId := mkValueId {
  container_id : Z;            (* u16 *)
  segment_id : option Z;       (* u8 *)
  page_id : option Z;          (* u32 *)
  slot_id : option Z           (* u16 *)
}.

#[global] Instance ValueId_eq_dec : EqDecision ValueId.
Proof. solve_decision. Defined.

#[global] Instance ValueId_countable : countable.Countable ValueId.
Proof.
  refine (countable.inj_countable'
    (λ v, (container_id v, segment_id v, page_id v, slot_id v))
    (λ '(c, s, p, l), mkValueId c s p l) _).
  by intros [].
Defined.

Record ContainerPageId := mkContainerPageId { c_id : Z; cp_page_id : Z }.

#[global] Instance ContainerPageId_eq_dec : EqDecision ContainerPageId.
Proof. solve_decision. Defined.

#[global] Instance ContainerPageId_countable : countable.Countable ContainerPageId.
Proof.
  refine (countable.inj_countable'
    (λ k, (c_id k, cp_page_id k)) (λ '(c, p), mkContainerPageId c p) _).
  by intros [].
Defined.

Record Lsn := mkLsn { lsn_page_id : Z; lsn_slot_id : Z }.

(** The derived [PartialOrd] of [Lsn]: lexicographic on the fields. *)
Definition Lsn_gt (a b : Lsn) : bool :=
  (lsn_page_id b <? lsn_page_id a) ||
  ((lsn_page_id a =? lsn_page_id b) && (lsn_slot_id b <? lsn_slot_id a)).

Module ValueIds.

Definition new (c : Z) : ValueId := mkValueId c None None None.
Definition new_page (c p : Z) : ValueId := mkValueId c None (Some p) None.
Definition new_slot (c p s : Z) : ValueId := mkValueId c None (Some p) (Some s).

Definition flag (o : option Z) (bit : Z) : Z := if o then bit else 0.
Definition opt_bytes (n : nat) (o : option Z) : list byte :=
  match o with Some z => le_split n z | None => [] end.

Definition to_bytes (v : ValueId) : list byte :=
  let bit_flag :=
    Z.lor (Z.lor (Z.lor 8 (flag (segment_id v) 4)) (flag (page_id v) 2)) (flag (slot_id v) 1) in
  [byte.of_Z bit_flag] ++ le_split 2 (container_id v) ++
  opt_bytes 1 (segment_id v) ++ opt_bytes 4 (page_id v) ++ opt_bytes 2 (slot_id v).

(** A little-endian field of [n] bytes read when [bit] of the flag is set, with
    the offset advanced past it. *)
Definition read_opt (data : list byte) (bit_flag bit : Z) (n : nat) (offset : Z) :
  outcome (option Z * Z) :=
  if Z.land bit_flag bit =? 0 then Ret (None, offset)
  else
    let offset := offset + Z.of_nat n in
    bs ← slice data (offset - Z.of_nat n) offset;
    Ret (Some (le_combine bs), offset).

Definition from_bytes (data : list byte) : outcome ValueId :=
  b ← index data 0;
  let bit_flag := byte.unsigned b in
  c ← slice data 1 3;
  '(seg, offset) ← read_opt data bit_flag 4 1 3;
  '(pid, offset) ← read_opt data bit_flag 2 4 offset;
  '(sid, offset) ← read_opt data bit_flag 1 2 offset;
  Ret (mkValueId (le_combine c) seg pid sid).

(** The 10-byte form: the optional fields packed from offset 3, the rest zero. *)
Definition to_fixed_bytes (v : ValueId) : outcome (list byte) :=
  let vb := replicate 10 Byte.x00 in
  vb ← copy_from_slice vb 1 3 (le_split 2 (container_id v));
  _ ← guard_or_panic (negb (bool_decide (is_Some (segment_id v))));
  '(vb, bit_flag, offset) ←
    match page_id v with
    | Some p => vb ← copy_from_slice vb (3 + 4 - 4) (3 + 4) (le_split 4 p);
                Ret (vb, Z.lor 8 2, 3 + 4)
    | None => Ret (vb, 8, 3)
    end;
  '(vb, bit_flag) ←
    match slot_id v with
    | Some s => vb ← copy_from_slice vb (offset + 2 - 2) (offset + 2) (le_split 2 s);
                Ret (vb, Z.lor bit_flag 1)
    | None => Ret (vb, bit_flag)
    end;
  copy_from_slice vb 0 1 [byte.of_Z bit_flag].

(** Container and page only, in a fixed 7 bytes. *)
Definition to_cp_bytes (v : ValueId) : list byte :=
  [byte.of_Z (Z.lor 8 (flag (page_id v) 2))] ++ le_split 2 (container_id v) ++
  le_split 4 (default 0 (page_id v)).

(** The field ranges the Rust types enforce. *)
Definition opt_in (o : option Z) (w : Z) : Prop :=
  match o with Some z => 0 ≤ z < 2 ^ w | None => True end.
Definition typed (v : ValueId) : Prop :=
  0 ≤ container_id v < 2 ^ 16 ∧ opt_in (segment_id v) 8 ∧
  opt_in (page_id v) 32 ∧ opt_in (slot_id v) 16.

Lemma read_opt_spec pre post bit_flag bit n o offset :
  offset = zlen pre → opt_in o (Z.of_nat n * 8) →
  (Z.land bit_flag bit =? 0) = negb (bool_decide (is_Some o)) →
  read_opt (pre ++ opt_bytes n o ++ post) bit_flag bit n offset =
  Ret (o, offset + zlen (opt_bytes n o)).
Proof.
  intros -> Hin Hbit. unfold read_opt. rewrite Hbit.
  destruct o as [z|]; simpl in *.
  - rewrite slice_mid by len. simpl. rewrite le_combine_split, Z.mod_small by done.
    do 2 f_equal. len.
  - do 2 f_equal. len.
Qed.

Lemma flag_bits (s p l : option Z) :
  let f := byte.unsigned (byte.of_Z
    (Z.lor (Z.lor (Z.lor 8 (flag s 4)) (flag p 2)) (flag l 1))) in
  (Z.land f 4 =? 0) = negb (bool_decide (is_Some s)) ∧
  (Z.land f 2 =? 0) = negb (bool_decide (is_Some p)) ∧
  (Z.land f 1 =? 0) = negb (bool_decide (is_Some l)).
Proof. by destruct s, p, l. Qed.

(** Any byte string laid out as flag, container, optional fields and padding is
    parsed back, whatever the padding. *)
Lemma from_bytes_layout v rest :
  typed v → from_bytes (to_bytes v ++ rest) = Ret v.
Proof.
  destruct v as [c s p l]. intros (Hc & Hs & Hp & Hl). unfold from_bytes, to_bytes.
  cbn [container_id segment_id page_id slot_id] in *.
  destruct (flag_bits s p l) as (Fs & Fp & Fl).
  set (b := byte.of_Z _) in *. set (f := byte.unsigned b) in *.
  set (cs := le_split 2 c). set (ss := opt_bytes 1 s) in *.
  set (ps := opt_bytes 4 p). set (ls := opt_bytes 2 l).
  rewrite <-!app_assoc, index_head, bind_Ret. cbv zeta. fold f.
  rewrite (slice_mid [b] cs) by (subst cs; len). rewrite bind_Ret.
  pose proof (read_opt_spec ([b] ++ cs) (ps ++ ls ++ rest) f 4 1 s 3) as R1.
  pose proof (read_opt_spec ([b] ++ cs ++ ss) (ls ++ rest) f 2 4 p (3 + zlen ss)) as R2.
  pose proof (read_opt_spec ([b] ++ cs ++ ss ++ ps) rest f 1 2 l (3 + zlen ss + zlen ps)) as R3.
  repeat rewrite <-app_assoc in R1. repeat rewrite <-app_assoc in R2. repeat rewrite <-app_assoc in R3.
  fold ss in R1. fold ps in R2. fold ls in R3.
  rewrite R1, bind_Ret by (first [done | subst cs; len]).
  rewrite R2, bind_Ret by (first [done | subst cs; len]).
  rewrite R3, bind_Ret by (first [done | subst cs; len]).
  subst cs. rewrite le_combine_split, Z.mod_small by done. done.
Qed.

Lemma le_split_2 z : ∃ b0 b1, le_split 2 z = [b0; b1].
Proof. eexists _, _. reflexivity. Qed.
Lemma le_split_4 z : ∃ b0 b1 b2 b3, le_split 4 z = [b0; b1; b2; b3].
Proof. eexists _, _, _, _. reflexivity. Qed.

(** The fixed form is the variable form padded with zeroes. *)
Lemma to_fixed_bytes_padded v :
  segment_id v = None →
  to_fixed_bytes v =
  Ret (to_bytes v ++ replicate (10 - length (to_bytes v)) Byte.x00).
Proof.
  destruct v as [c s p l]. cbn [segment_id]. intros ->.
  destruct (le_split_2 c) as (c0 & c1 & Ec). unfold to_fixed_bytes, to_bytes.
  destruct p as [p|], l as [l|];
    cbn [opt_bytes page_id slot_id container_id segment_id]; rewrite ?Ec;
    try destruct (le_split_4 p) as (p0 & p1 & p2 & p3 & ->);
    try destruct (le_split_2 l) as (l0 & l1 & ->); reflexivity.
Qed.

Lemma le_split_inj n a b :
  0 ≤ a < 2 ^ (Z.of_nat n * 8) → 0 ≤ b < 2 ^ (Z.of_nat n * 8) →
  le_split n a = le_split n b → a = b.
Proof.
  intros Ha Hb E. apply (f_equal le_combine) in E.
  rewrite !le_combine_split, !Z.mod_small in E by done. done.
Qed.

Lemma app_inj_length {A} (a b c d : list A) :
  length a = length c → a ++ b = c ++ d → a = c ∧ b = d.
Proof. intros. by apply app_inj_1. Qed.

(** Every value id whose fields are in the range of their Rust types is read
    back from its variable-length encoding. *)
Theorem to_bytes_roundtrip v : typed v → from_bytes (to_bytes v) = Ret v.
Proof. intros H. rewrite <-(app_nil_r (to_bytes v)). by apply from_bytes_layout. Qed.

(** The fixed 10-byte form exists exactly for value ids without a segment
    (a segment panics), has 10 bytes and is read back by the same parser. *)
Theorem to_fixed_bytes_roundtrip v :
  typed v →
  (segment_id v = None → ∃ vb, to_fixed_bytes v = Ret vb ∧ length vb = 10%nat ∧
     from_bytes vb = Ret v) ∧
  (is_Some (segment_id v) → to_fixed_bytes v = Panic).
Proof.
  intros Ht. split.
  - intros Hs. eexists. rewrite to_fixed_bytes_padded by done. split; [done|]. split.
    + destruct v as [c s [p|] [l|]]; simpl in Hs; subst s; reflexivity.
    + by apply from_bytes_layout.
  - intros [s Hs]. unfold to_fixed_bytes. rewrite Hs.
    destruct (le_split_2 (container_id v)) as (c0 & c1 & ->). done.
Qed.

(** The container/page form identifies exactly the container and the page. *)
Theorem to_cp_bytes_inj v w :
  typed v → typed w →
  to_cp_bytes v = to_cp_bytes w ↔ container_id v = container_id w ∧ page_id v = page_id w.
Proof.
  destruct v as [c s p l], w as [c' s' p' l']. intros (Hc & _ & Hp & _) (Hc' & _ & Hp' & _).
  cbn in Hc, Hp, Hc', Hp' |- *. split; [|by intros [-> ->]]. unfold to_cp_bytes.
  cbn [container_id page_id]. intros E.
  apply (app_inj_length [_] _ [_]) in E as [Hf E]; [|done].
  apply app_inj_length in E as [Ec Ep]; [|by rewrite !length_le_split].
  apply le_split_inj in Ec; [|done..]. split; [done|].
  destruct p as [p|], p' as [p'|]; simpl in *; try discriminate; try done.
  apply le_split_inj in Ep; [by subst|done..].
Qed.

Lemma to_bytes_roundtrip_witness :
  from_bytes (to_bytes (mkValueId 300 (Some 7) None (Some 40000))) =
  Ret (mkValueId 300 (Some 7) None (Some 40000)).
Proof. apply to_bytes_roundtrip. repeat split; simpl; lia. Defined.

Lemma to_fixed_bytes_roundtrip_witness :
  ∃ vb, to_fixed_bytes (new_slot 1 1 13) = Ret vb ∧ length vb = 10%nat ∧
     from_bytes vb = Ret (new_slot 1 1 13).
Proof.
  apply (to_fixed_bytes_roundtrip (new_slot 1 1 13)); [|done]. repeat split; simpl; lia.
Defined.

Lemma to_cp_bytes_inj_witness : to_cp_bytes (new_page 3 4) = to_cp_bytes (new_slot 3 4 2).
Proof.
  apply (to_cp_bytes_inj (new_page 3 4) (new_slot 3 4 2)); [| |done];
    repeat split; simpl; lia.
Defined.
End ValueIds.
