(* ===== verification/Decimal.v ===== *)
(** * Decimal names

    The decimal form of a container id, under which both storage managers name their
    files ([format!] and [parse] of the standard library), and that it reads back. *)

From S2P Require Import Prelude.
From stdpp Require Import strings.
From Stdlib Require Import Ascii.

Open Scope Z_scope.

Definition digit (d : Z) : ascii := ascii_of_nat (Z.to_nat (48 + d)).

Fixpoint show_digits (fuel : nat) (z : Z) (acc : string) : string :=
  match fuel with
  | O => acc
  | S fuel =>
      let acc := String (digit (z mod 10)) acc in
      if z / 10 =? 0 then acc else show_digits fuel (z / 10) acc
  end.

(** [format!("{}", c_id)]: a [u16] has at most five digits. *)
Definition show_u16 (z : Z) : string := show_digits 5 z EmptyString.

Fixpoint parse_digits (s : string) (acc : Z) : option Z :=
  match s with
  | EmptyString => Some acc
  | String a s =>
      let d := Z.of_nat (nat_of_ascii a) - 48 in
      if (0 <=? d) && (d <=? 9) then
        let acc := acc * 10 + d in
        if acc <? 2 ^ 16 then parse_digits s acc else None
      else None
  end.

(** [parse::<u16>()]: an optional plus sign, then at least one digit, no overflow. *)
Definition parse_u16 (s : string) : option Z :=
  match s with
  | EmptyString => None
  | String "+"%char EmptyString => None
  | String "+"%char s => parse_digits s 0
  | s => parse_digits s 0
  end.

Lemma digit_value d : 0 ≤ d ≤ 9 → Z.of_nat (nat_of_ascii (digit d)) - 48 = d.
Proof. intros H. unfold digit. rewrite nat_ascii_embedding by lia. lia. Qed.

Lemma parse_digit d s acc :
  0 ≤ d ≤ 9 → acc * 10 + d < 2 ^ 16 → parse_digits (String (digit d) s) acc = parse_digits s (acc * 10 + d).
Proof.
  intros Hd Hacc. cbn [parse_digits]. rewrite digit_value by done.
  rewrite (proj2 (Z.leb_le 0 d)), (proj2 (Z.leb_le d 9)), (proj2 (Z.ltb_lt _ _) Hacc) by lia. done.
Qed.

Lemma parse_show_digits fuel z acc :
  0 ≤ z < 10 ^ Z.of_nat fuel → z < 2 ^ 16 → (0 < fuel)%nat →
  parse_digits (show_digits fuel z acc) 0 = parse_digits acc z.
Proof.
  revert z acc. induction fuel as [|fuel IH]; intros z acc Hz Hw Hf; [lia|].
  cbn [show_digits]. pose proof (Z.div_mod z 10). pose proof (Z.mod_pos_bound z 10).
  rewrite Nat2Z.inj_succ, Z.pow_succ_r in Hz by lia. destruct (Z.eqb_spec (z / 10) 0).
  - rewrite parse_digit by lia. f_equal. lia.
  - destruct fuel as [|fuel]; [simpl in Hz; lia|].
    rewrite IH, parse_digit by lia. f_equal. lia.
Qed.

Lemma show_digits_head fuel z acc :
  (0 < fuel)%nat → ∃ d s, 0 ≤ d ≤ 9 ∧ show_digits fuel z acc = String (digit d) s.
Proof.
  revert z acc. induction fuel as [|fuel IH]; intros z acc Hf; [lia|]. cbn [show_digits].
  pose proof (Z.mod_pos_bound z 10).
  assert (∃ d s, 0 ≤ d ≤ 9 ∧ String (digit (z mod 10)) acc = String (digit d) s) as Hhere.
  { exists (z mod 10), acc. split; [lia|done]. }
  destruct (z / 10 =? 0); [done|]. destruct fuel; [done|]. apply IH. lia.
Qed.

Lemma parse_show_u16 z : 0 ≤ z < 2 ^ 16 → parse_u16 (show_u16 z) = Some z.
Proof.
  intros Hz. pose proof (parse_show_digits 5 z "" ltac:(lia) ltac:(lia) ltac:(lia)) as Hp.
  unfold show_u16. destruct (show_digits_head 5 z "") as (d & s & Hd & E); [lia|].
  rewrite E in Hp |- *. change (parse_digits "" z) with (Some z) in Hp. rewrite <-Hp. unfold parse_u16.
  assert (d = 0 ∨ d = 1 ∨ d = 2 ∨ d = 3 ∨ d = 4 ∨ d = 5 ∨ d = 6 ∨ d = 7 ∨ d = 8 ∨ d = 9) as Hcases by lia.
  by destruct_or! Hcases; subst d.
Qed.

Lemma show_u16_inj c c' : 0 ≤ c < 2 ^ 16 → 0 ≤ c' < 2 ^ 16 → show_u16 c = show_u16 c' → c = c'.
Proof.
  intros Hc Hc' E. apply (f_equal parse_u16) in E. rewrite !parse_show_u16 in E by done. congruence.
Qed.
