(* ===== verification/HeapPage.v ===== *)
(** * Slotted heap pages: operations

    Models the [HeapPage] implementation of [heapstore/src/heap_page.rs]. The heap
    metadata follows the fixed header; slot [i] has four bytes of metadata (offset
    and length of its value) at [24 + 4 i]; values grow downwards from the end of
    the page to the free-space pointer. A slot of length 0 is free. *)

From S2P Require Import Prelude Common.

Open Scope Z_scope.

(** ** Pages: the fixed header

    Models [heapstore/src/page.rs]: a page is an array of [PAGE_SIZE] bytes whose
    first 16 hold the page id, the log sequence number and the checksum. *)

Definition PAGE_SIZE : Z := 4096.
Definition PAGE_ID_SIZE : Z := 4.
Definition SLOT_ID_SIZE : Z := 2.
Definition CHECKSUM_SIZE : Z := 2.
Definition OFFSET_NUM_BYTES : Z := 2.
Definition LSN_PAGE_OFFSET : Z := PAGE_ID_SIZE.
Definition LSN_SLOT_OFFSET : Z := LSN_PAGE_OFFSET + PAGE_ID_SIZE.
Definition CHECKSUM_OFFSET : Z := LSN_SLOT_OFFSET + SLOT_ID_SIZE.
Definition PAGE_FIXED_HEADER_LEN : Z := 16.
Definition HEAP_PAGE_FIXED_METADATA_SIZE : Z := 8.

(** [Page { data: [u8; PAGE_SIZE] }]. *)
Abbreviation Page := (list byte).

(** The array type fixes the length. *)
Definition page_ok (p : Page) : Prop := zlen p = PAGE_SIZE.

Definition zeroes (n : Z) : list byte := replicate (Z.to_nat n) Byte.x00.

Module Pages.

Definition new (page_id : Z) : outcome Page :=
  let data := zeroes PAGE_SIZE in
  data ← copy_from_slice data 0 PAGE_ID_SIZE (le_split 4 page_id);
  data ← copy_from_slice data LSN_PAGE_OFFSET (LSN_PAGE_OFFSET + PAGE_ID_SIZE) (le_split 4 0);
  data ← copy_from_slice data LSN_SLOT_OFFSET (LSN_SLOT_OFFSET + SLOT_ID_SIZE) (le_split 2 0);
  data ← copy_from_slice data CHECKSUM_OFFSET (CHECKSUM_OFFSET + CHECKSUM_SIZE) (le_split 2 0);
  let spare_offset := CHECKSUM_OFFSET + CHECKSUM_SIZE in
  data ← copy_from_slice data spare_offset PAGE_FIXED_HEADER_LEN
           (zeroes (PAGE_FIXED_HEADER_LEN - (CHECKSUM_OFFSET + CHECKSUM_SIZE)));
  copy_from_slice data PAGE_FIXED_HEADER_LEN
    (PAGE_FIXED_HEADER_LEN + HEAP_PAGE_FIXED_METADATA_SIZE)
    (zeroes HEAP_PAGE_FIXED_METADATA_SIZE).

Definition new_empty : outcome Page := new 0.

Definition get_page_id (p : Page) : outcome Z := read_u32 p 0.
Definition set_page_id (p : Page) (page_id : Z) : outcome Page := write_u32 p 0 page_id.

Definition get_lsn (p : Page) : outcome Lsn :=
  page_id ← read_u32 p LSN_PAGE_OFFSET;
  slot_id ← read_u16 p LSN_SLOT_OFFSET;
  Ret (mkLsn page_id slot_id).

Definition set_lsn (p : Page) (lsn : Lsn) : outcome Page :=
  current ← get_lsn p;
  if Lsn_gt lsn current then
    p ← write_u32 p LSN_PAGE_OFFSET (lsn_page_id lsn);
    write_u16 p LSN_SLOT_OFFSET (lsn_slot_id lsn)
  else Ret p.

Definition get_checksum (p : Page) : outcome Z := read_u16 p CHECKSUM_OFFSET.

(** [hash64] stands for [std::hash::DefaultHasher] over the page bytes. *)
Definition set_checksum (hash64 : list byte → Z) (p : Page) : outcome Page :=
  p ← copy_from_slice p CHECKSUM_OFFSET (CHECKSUM_OFFSET + CHECKSUM_SIZE) (zeroes CHECKSUM_SIZE);
  let checksum := as_u16 (Z.land (hash64 p) 65535) in
  write_u16 p CHECKSUM_OFFSET checksum.

(** [compare_page]: the maximal runs of differing bytes that are followed by an
    equal byte, as (start, our bytes). *)
Fixpoint compare_loop (i : Z) (l : list (byte * byte))
    (in_diff : bool) (diff_start : Z) (diff_vec : list byte)
    (res : list (Z * list byte)) : list (Z * list byte) :=
  match l with
  | [] => res
  | (b1, b2) :: l =>
      if negb (Byte.eqb b1 b2) then
        compare_loop (i + 1) l true (if in_diff then diff_start else i)
          (diff_vec ++ [b1]) res
      else if in_diff then
        compare_loop (i + 1) l false diff_start [] (res ++ [(as_u16 diff_start, diff_vec)])
      else compare_loop (i + 1) l false diff_start diff_vec res
  end.

Definition compare_page (p : Page) (other_page : list byte) : outcome (list (Z * list byte)) :=
  _ ← guard_or_panic (zlen p =? zlen other_page);
  Ret (compare_loop 0 (zip p other_page) false 0 [] []).
End Pages.

Definition SLOT_METADATA_SIZE : Z := 4.
Definition NUM_SLOTS_OFFSET : Z := 0.
Definition NUM_SLOTS_SIZE : Z := 2.
Definition FREE_SPACE_PTR_OFFSET : Z := NUM_SLOTS_OFFSET + NUM_SLOTS_SIZE.
Definition FREE_SPACE_PTR_SIZE : Z := 2.
Definition DELETED_BYTES_OFFSET : Z := FREE_SPACE_PTR_OFFSET + FREE_SPACE_PTR_SIZE.
Definition DELETED_BYTES_SIZE : Z := 2.
Definition DELETED_SLOT_COUNT_OFFSET : Z := DELETED_BYTES_OFFSET + DELETED_BYTES_SIZE.
Definition DELETED_SLOT_COUNT_SIZE : Z := 2.

Module HeapPage.

(** [self[..]] goes through [Deref], which skips the fixed header. *)
Definition get_num_slots (p : Page) : outcome Z :=
  read_u16 p (PAGE_FIXED_HEADER_LEN + NUM_SLOTS_OFFSET).
Definition set_num_slots (p : Page) (num_slots : Z) : outcome Page :=
  write_u16 p (PAGE_FIXED_HEADER_LEN + NUM_SLOTS_OFFSET) num_slots.
Definition increment_num_slots (p : Page) : outcome (Page * Z) :=
  n ← get_num_slots p;
  new_count ← u16_add n 1;
  p ← set_num_slots p new_count;
  Ret (p, new_count).
Definition get_free_space_ptr (p : Page) : outcome Z :=
  read_u16 p (PAGE_FIXED_HEADER_LEN + FREE_SPACE_PTR_OFFSET).
Definition set_free_space_ptr (p : Page) (ptr : Z) : outcome Page :=
  write_u16 p (PAGE_FIXED_HEADER_LEN + FREE_SPACE_PTR_OFFSET) ptr.
Definition get_deleted_bytes (p : Page) : outcome Z :=
  read_u16 p (PAGE_FIXED_HEADER_LEN + DELETED_BYTES_OFFSET).
Definition set_deleted_bytes (p : Page) (bytes : Z) : outcome Page :=
  write_u16 p (PAGE_FIXED_HEADER_LEN + DELETED_BYTES_OFFSET) bytes.
Definition get_deleted_slot_count (p : Page) : outcome Z :=
  read_u16 p (PAGE_FIXED_HEADER_LEN + DELETED_SLOT_COUNT_OFFSET).
Definition set_deleted_slot_count (p : Page) (count : Z) : outcome Page :=
  write_u16 p (PAGE_FIXED_HEADER_LEN + DELETED_SLOT_COUNT_OFFSET) count.

Definition get_header_size (p : Page) : outcome Z :=
  n ← get_num_slots p;
  Ret (PAGE_FIXED_HEADER_LEN + HEAP_PAGE_FIXED_METADATA_SIZE + n * SLOT_METADATA_SIZE).

Definition get_free_space (p : Page) : outcome Z :=
  fsp ← get_free_space_ptr p;
  hs ← get_header_size p;
  gap ← usize_sub fsp hs;
  del ← get_deleted_bytes p;
  Ret (gap + del).

(** The [while] loop; [fuel] bounds its iterations, running out is a panic. *)
Fixpoint find_free_loop (fuel : nat) (p : Page) (offset end_ : Z) : outcome Z :=
  match fuel with
  | O => Panic
  | S fuel =>
      if offset <? end_ then
        length ← read_u16 p (offset + OFFSET_NUM_BYTES);
        if length =? 0 then Ret offset
        else find_free_loop fuel p (offset + SLOT_METADATA_SIZE) end_
      else Ret end_
  end.

Definition find_next_free_slot (p : Page) : outcome Z :=
  let start := PAGE_FIXED_HEADER_LEN + HEAP_PAGE_FIXED_METADATA_SIZE in
  end_ ← get_header_size p;
  find_free_loop (S (Z.to_nat (end_ - start))) p start end_.

(** An [isize]: -1 when the slot id is out of range. *)
Definition get_slot_metadata_offset (p : Page) (slot_id : Z) : outcome Z :=
  num_slots ← get_num_slots p;
  if num_slots <=? slot_id then Ret (-1)
  else Ret (PAGE_FIXED_HEADER_LEN + HEAP_PAGE_FIXED_METADATA_SIZE
            + slot_id * SLOT_METADATA_SIZE).

(** Offset and length stored in the slot metadata at [meta]. *)
Definition read_slot (p : Page) (meta : Z) : outcome (Z * Z) :=
  data_offset ← read_u16 p meta;
  data_length ← read_u16 p (meta + OFFSET_NUM_BYTES);
  Ret (data_offset, data_length).

(** Step 1 of compaction: one iteration collecting slot [i] when it is live. *)
Definition collect_live (p : Page) (live : list (Z * list byte)) (i : Z) :
  outcome (list (Z * list byte)) :=
  let meta_offset := PAGE_FIXED_HEADER_LEN + HEAP_PAGE_FIXED_METADATA_SIZE
                     + i * SLOT_METADATA_SIZE in
  '(data_offset, data_length) ← read_slot p meta_offset;
  if 0 <? data_length then
    bs ← slice p data_offset (data_offset + data_length);
    Ret (live ++ [(i, bs)])
  else Ret live.

(** Step 3: one iteration moving a live value below [new_fsp]. *)
Definition repack (st : Page * Z) (x : Z * list byte) : outcome (Page * Z) :=
  let '(p, new_fsp) := st in
  let '(slot_index, data) := x in
  new_fsp ← usize_sub new_fsp (zlen data);
  p ← copy_from_slice p new_fsp (new_fsp + zlen data) data;
  let meta_offset := PAGE_FIXED_HEADER_LEN + HEAP_PAGE_FIXED_METADATA_SIZE
                     + slot_index * SLOT_METADATA_SIZE in
  p ← write_u16 p meta_offset (as_u16 new_fsp);
  Ret (p, new_fsp).

Definition shorter (x y : Z * list byte) : bool := zlen (snd x) <=? zlen (snd y).

Definition compact_page (p : Page) : outcome Page :=
  num_slots ← get_num_slots p;
  live_slots ← foldM (collect_live p) [] (range num_slots);
  let live_slots := sort_by shorter live_slots in
  '(p, new_fsp) ← foldM repack (p, PAGE_SIZE) live_slots;
  p ← set_free_space_ptr p (as_u16 new_fsp);
  set_deleted_bytes p 0.

Definition write_value_at_slot (p : Page) (slot_offset : Z) (bytes : list byte) :
  outcome Page :=
  fsp ← get_free_space_ptr p;
  hs ← get_header_size p;
  gap ← usize_sub fsp hs;
  p ← (if gap <? zlen bytes then compact_page p else Ret p);
  current_fsp ← get_free_space_ptr p;
  new_fsp ← usize_sub current_fsp (zlen bytes);
  p ← copy_from_slice p new_fsp current_fsp bytes;
  p ← set_free_space_ptr p (as_u16 new_fsp);
  p ← write_u16 p slot_offset (as_u16 new_fsp);
  write_u16 p (slot_offset + OFFSET_NUM_BYTES) (as_u16 (zlen bytes)).

Definition init_heap_page (p : Page) : outcome Page :=
  set_free_space_ptr p (as_u16 PAGE_SIZE).

Definition add_value (p : Page) (bytes : list byte) : outcome (Page * option Z) :=
  slot_offset ← find_next_free_slot p;
  hs ← get_header_size p;
  let is_new_slot := hs <=? slot_offset in
  full ←
    (if is_new_slot then
       fsp ← get_free_space_ptr p;
       gap ← usize_sub fsp hs;
       if gap <? SLOT_METADATA_SIZE then Ret true
       else
         free ← get_free_space p;
         Ret (free <=? zlen bytes + SLOT_METADATA_SIZE)
     else
       free ← get_free_space p;
       Ret (free <=? zlen bytes));
  if full : bool then Ret (p, None)
  else
    p ← (if is_new_slot then
           '(p, _) ← increment_num_slots p;
           fill p slot_offset (slot_offset + SLOT_METADATA_SIZE) Byte.x00
         else
           cnt ← get_deleted_slot_count p;
           cnt ← u16_sub cnt 1;
           set_deleted_slot_count p cnt);
    rel ← usize_sub slot_offset (PAGE_FIXED_HEADER_LEN + HEAP_PAGE_FIXED_METADATA_SIZE);
    let slot_id := as_u16 (rel / SLOT_METADATA_SIZE) in
    p ← write_value_at_slot p slot_offset bytes;
    Ret (p, Some slot_id).

Definition get_value (p : Page) (slot_id : Z) : outcome (option (list byte)) :=
  offset ← get_slot_metadata_offset p slot_id;
  if offset <? 0 then Ret None
  else
    '(data_offset, data_length) ← read_slot p offset;
    if (data_length =? 0) || (PAGE_SIZE <? data_offset + data_length) then Ret None
    else
      bs ← slice p data_offset (data_offset + data_length);
      Ret (Some bs).

(** Give the region [off, off+len) back: advance the free-space pointer when it is
    the lowest value, else count it as a hole. *)
Definition reclaim (p : Page) (off len : Z) : outcome Page :=
  fsp ← get_free_space_ptr p;
  if off =? fsp then set_free_space_ptr p (as_u16 (off + len))
  else
    del ← get_deleted_bytes p;
    del ← u16_add del (as_u16 len);
    set_deleted_bytes p del.

Definition delete_value (p : Page) (slot_id : Z) : outcome (Page * option unit) :=
  offset ← get_slot_metadata_offset p slot_id;
  if offset <? 0 then Ret (p, None)
  else
    '(data_offset, data_length) ← read_slot p offset;
    if (data_length =? 0) || (PAGE_SIZE <? data_offset + data_length) then Ret (p, None)
    else
      p ← fill p data_offset (data_offset + data_length) Byte.x00;
      p ← write_u16 p (offset + OFFSET_NUM_BYTES) 0;
      p ← reclaim p data_offset data_length;
      cnt ← get_deleted_slot_count p;
      cnt ← u16_add cnt 1;
      p ← set_deleted_slot_count p cnt;
      Ret (p, Some tt).

Definition update_value (p : Page) (slot_id : Z) (bytes : list byte) :
  outcome (Page * option unit) :=
  offset ← get_slot_metadata_offset p slot_id;
  if offset <? 0 then Ret (p, None)
  else
    '(freed_ptr, freed_len) ← read_slot p offset;
    if (freed_len =? 0) || (PAGE_SIZE <? freed_ptr + freed_len) then Ret (p, None)
    else if zlen bytes <=? freed_len then
      p ← fill p freed_ptr (freed_ptr + freed_len) Byte.x00;
      p ← copy_from_slice p freed_ptr (freed_ptr + zlen bytes) bytes;
      p ← write_u16 p (offset + OFFSET_NUM_BYTES) (as_u16 (zlen bytes));
      waste ← usize_sub freed_len (zlen bytes);
      p ← (if 0 <? waste then
             del ← get_deleted_bytes p;
             del ← u16_add del (as_u16 waste);
             set_deleted_bytes p del
           else Ret p);
      Ret (p, Some tt)
    else
      free ← get_free_space p;
      if free + freed_len <=? zlen bytes then Ret (p, None)
      else
        p ← fill p freed_ptr (freed_ptr + freed_len) Byte.x00;
        p ← write_u16 p (offset + OFFSET_NUM_BYTES) 0;
        p ← reclaim p freed_ptr freed_len;
        p ← write_value_at_slot p offset bytes;
        Ret (p, Some tt).

(** [HeapPageIter]: the page and the next slot to look at. *)
Record HeapPageIter := mkIter { iter_page : Page; current_slot : Z }.

Definition iter (p : Page) : HeapPageIter := mkIter p 0.

Fixpoint next_loop (fuel : nat) (num_slots : Z) (it : HeapPageIter) :
  outcome (HeapPageIter * option (list byte * Z)) :=
  match fuel with
  | O => Panic
  | S fuel =>
      if current_slot it <? num_slots then
        let slot_id := current_slot it in
        next ← u16_add (current_slot it) 1;
        let it := mkIter (iter_page it) next in
        v ← get_value (iter_page it) slot_id;
        match v with
        | Some bytes => Ret (it, Some (bytes, slot_id))
        | None => next_loop fuel num_slots it
        end
      else Ret (it, None)
  end.

Definition next (it : HeapPageIter) : outcome (HeapPageIter * option (list byte * Z)) :=
  num_slots ← get_num_slots (iter_page it);
  next_loop (S (Z.to_nat (num_slots - current_slot it))) num_slots it.

(** Draining an iterator: [for x in page.iter()]. *)
Fixpoint drain (fuel : nat) (it : HeapPageIter) : outcome (list (list byte * Z)) :=
  match fuel with
  | O => Panic
  | S fuel =>
      '(it, x) ← next it;
      match x with
      | None => Ret []
      | Some x => rest ← drain fuel it; Ret (x :: rest)
      end
  end.

Definition iter_all (p : Page) : outcome (list (list byte * Z)) :=
  n ← get_num_slots p; drain (S (Z.to_nat n)) (iter p).
End HeapPage.
