(* ===== verification/HeapPageView.v ===== *)
(** * Slotted heap pages: the logical view

    The fields, slots and values of a page as pure functions of its bytes, the
    well-formedness invariant, and how writes to the buffer change the view. *)

From S2P Require Import Prelude Common HeapPage.

Open Scope Z_scope.

(** ** Sums over [0..n] *)

Fixpoint sum_to (n : nat) (f : Z → Z) : Z :=
  match n with O => 0 | S n => sum_to n f + f (Z.of_nat n) end.

Lemma sum_to_ext n f g :
  (∀ i, 0 ≤ i < Z.of_nat n → f i = g i) → sum_to n f = sum_to n g.
Proof.
  induction n as [|n IH]; intros H; simpl; [done|].
  rewrite IH, H by (intros; try apply H; lia). done.
Qed.

Lemma sum_to_update n f g k :
  0 ≤ k < Z.of_nat n → (∀ i, 0 ≤ i < Z.of_nat n → i ≠ k → g i = f i) →
  sum_to n g = sum_to n f - f k + g k.
Proof.
  induction n as [|n IH]; intros Hk H; simpl; [lia|].
  destruct (decide (k = Z.of_nat n)) as [->|].
  - rewrite (sum_to_ext n g f) by (intros; apply H; lia). lia.
  - rewrite IH by (try lia; intros; apply H; lia). rewrite (H (Z.of_nat n)) by lia. lia.
Qed.

Lemma sum_to_nonneg n f : (∀ i, 0 ≤ i < Z.of_nat n → 0 ≤ f i) → 0 ≤ sum_to n f.
Proof.
  induction n as [|n IH]; intros H; simpl; [lia|].
  specialize (IH ltac:(intros; apply H; lia)). specialize (H (Z.of_nat n)). lia.
Qed.

Lemma sum_to_ge n f k :
  (∀ i, 0 ≤ i < Z.of_nat n → 0 ≤ f i) → 0 ≤ k < Z.of_nat n → f k ≤ sum_to n f.
Proof.
  intros Hf Hk. set (g := λ i, if decide (i = k) then 0 else f i).
  assert (sum_to n g = sum_to n f - f k + g k) as U.
  { apply sum_to_update; [done|]. intros. unfold g. by rewrite decide_False. }
  assert (0 ≤ sum_to n g).
  { apply sum_to_nonneg. intros. unfold g. case_decide; [lia | by apply Hf]. }
  unfold g in U at 2. rewrite decide_True in U by done. lia.
Qed.

Lemma sum_to_le n f : (∀ i, f i ≤ 1) → sum_to n f ≤ Z.of_nat n.
Proof. intros H. induction n as [|n IH]; simpl; [lia|]. specialize (H (Z.of_nat n)). lia. Qed.

(** ** Writing a 16-bit field *)

Definition put_u16 (d : list byte) (a v : Z) : list byte := splice d a (le_split 2 v).

Section Put.
Context (d : list byte) (a : Z).
Context (Ha : 0 ≤ a) (Hd : a + 2 ≤ zlen d).

Lemma zlen_put v : zlen (put_u16 d a v) = zlen d.
Proof. apply zlen_splice; len. Qed.

Lemma write_u16_put v : write_u16 d a v = Ret (put_u16 d a v).
Proof. by apply write_u16_ok. Qed.

Lemma u16_put_same v : 0 ≤ v < 65536 → u16_at (put_u16 d a v) a = v.
Proof. intros. by apply u16_at_same. Qed.

Lemma u16_put_other v b :
  0 ≤ b → b + 2 ≤ a ∨ a + 2 ≤ b → u16_at (put_u16 d a v) b = u16_at d b.
Proof. intros. apply u16_at_disjoint; len. Qed.

Lemma sub_put_other v b n :
  0 ≤ b → 0 ≤ n → b + n ≤ a ∨ a + 2 ≤ b → sub (put_u16 d a v) b n = sub d b n.
Proof. intros. apply sub_splice_disjoint; len. Qed.
End Put.

Lemma sub_empty d a n : n ≤ 0 → sub d a n = [].
Proof. intros. unfold sub. by replace (Z.to_nat n) with 0%nat by lia. Qed.

(** A range inside one that two buffers share. *)
Lemma sub_sub_eq d d' a n b m :
  0 ≤ a → a ≤ b → 0 ≤ m → b + m ≤ a + n →
  sub d' a n = sub d a n → sub d' b m = sub d b m.
Proof.
  intros ? ? ? ? E. unfold sub in *.
  assert (∀ l : list byte, take (Z.to_nat m) (drop (Z.to_nat b) l) =
    take (Z.to_nat m) (drop (Z.to_nat (b - a)) (take (Z.to_nat n) (drop (Z.to_nat a) l)))) as R.
  { intros l. rewrite skipn_firstn_comm, take_take, drop_drop. f_equal; [lia|]. f_equal. lia. }
  rewrite (R d'), (R d). by rewrite E.
Qed.

Lemma u16_sub_eq d d' a n b :
  0 ≤ a → a ≤ b → b + 2 ≤ a + n → sub d' a n = sub d a n → u16_at d' b = u16_at d b.
Proof. intros. unfold u16_at. by rewrite (sub_sub_eq d d' a n) by (done || lia). Qed.

(** ** The view *)

Definition num_slots (p : Page) : Z := u16_at p 16.
Definition fsp (p : Page) : Z := u16_at p 18.
Definition del_bytes (p : Page) : Z := u16_at p 20.
Definition del_slots (p : Page) : Z := u16_at p 22.
Definition slot_meta (i : Z) : Z := 24 + i * 4.
Definition slot_off (p : Page) (i : Z) : Z := u16_at p (slot_meta i).
Definition slot_len (p : Page) (i : Z) : Z := u16_at p (slot_meta i + 2).
Definition header_size (p : Page) : Z := slot_meta (num_slots p).
Definition free_space (p : Page) : Z := fsp p - header_size p + del_bytes p.
Definition is_slot (p : Page) (i : Z) : Prop := 0 ≤ i < num_slots p.
Definition live (p : Page) (i : Z) : Prop := is_slot p i ∧ slot_len p i ≠ 0.

(** What slot [i] stores: [None] for a free slot and for a slot out of range. *)
Definition value (p : Page) (i : Z) : option (list byte) :=
  if (0 <=? i) && (i <? num_slots p) && negb (slot_len p i =? 0)
  then Some (sub p (slot_off p i) (slot_len p i)) else None.

Definition live_bytes (p : Page) : Z := sum_to (Z.to_nat (num_slots p)) (slot_len p).
Definition free_slots (p : Page) : Z :=
  sum_to (Z.to_nat (num_slots p)) (λ i, if slot_len p i =? 0 then 1 else 0).

(** The live regions lie between [lo] and the end of the page and do not overlap. *)
Record regions_ok (p : Page) (lo : Z) : Prop := {
  region_in : ∀ i, live p i → lo ≤ slot_off p i ∧ slot_off p i + slot_len p i ≤ PAGE_SIZE;
  region_disj : ∀ i j, live p i → live p j → i ≠ j →
    slot_off p i + slot_len p i ≤ slot_off p j ∨ slot_off p j + slot_len p j ≤ slot_off p i
}.

(** The space accounting: the values end at the end of the page, and what lies
    between the free-space pointer and the end is either live or counted as deleted. *)
Record layout (p : Page) : Prop := {
  ly_len : zlen p = PAGE_SIZE;
  ly_fsp : header_size p ≤ fsp p ≤ PAGE_SIZE;
  ly_regions : regions_ok p (fsp p);
  ly_bytes : live_bytes p + del_bytes p = PAGE_SIZE - fsp p
}.

(** The invariant of heap pages: the accounting, and an exact count of free slots. *)
Record wf (p : Page) : Prop := {
  wf_layout : layout p;
  wf_slots : del_slots p = free_slots p
}.

Lemma slot_len_bound p i : 0 ≤ slot_len p i < 65536.
Proof. apply u16_at_bound. Qed.
Lemma slot_off_bound p i : 0 ≤ slot_off p i < 65536.
Proof. apply u16_at_bound. Qed.
Lemma num_slots_bound p : 0 ≤ num_slots p < 65536.
Proof. apply u16_at_bound. Qed.
Lemma fsp_bound p : 0 ≤ fsp p < 65536.
Proof. apply u16_at_bound. Qed.
Lemma del_bytes_bound p : 0 ≤ del_bytes p < 65536.
Proof. apply u16_at_bound. Qed.
Lemma del_slots_bound p : 0 ≤ del_slots p < 65536.
Proof. apply u16_at_bound. Qed.

Lemma live_bytes_nonneg p : 0 ≤ live_bytes p.
Proof. apply sum_to_nonneg. intros. apply slot_len_bound. Qed.

Lemma free_slots_bound p : 0 ≤ free_slots p ≤ num_slots p.
Proof.
  pose proof (num_slots_bound p). unfold free_slots. split.
  - apply sum_to_nonneg. intros. destruct (_ =? 0); lia.
  - etrans; [apply sum_to_le|lia]. intros. simpl. destruct (_ =? 0); lia.
Qed.

Lemma value_Some p i bs :
  value p i = Some bs ↔ live p i ∧ bs = sub p (slot_off p i) (slot_len p i).
Proof.
  unfold value, live, is_slot.
  destruct (0 <=? i) eqn:E1, (i <? num_slots p) eqn:E2, (slot_len p i =? 0) eqn:E3; simpl;
    rewrite ?Z.leb_le, ?Z.leb_gt, ?Z.ltb_lt, ?Z.ltb_ge, ?Z.eqb_eq, ?Z.eqb_neq in *;
    split; try discriminate; intuition (try congruence; try lia).
Qed.

Lemma value_None p i : value p i = None ↔ ¬ live p i.
Proof.
  destruct (value p i) eqn:E.
  - apply value_Some in E as [? _]. split; [discriminate | done].
  - split; [|done]. intros _ Hl. assert (value p i = Some (sub p (slot_off p i) (slot_len p i)))
      by (apply value_Some; done). congruence.
Qed.

Lemma value_live p i : live p i → value p i = Some (sub p (slot_off p i) (slot_len p i)).
Proof. intros. by apply value_Some. Qed.

(** Slots whose metadata and stored bytes two pages share hold the same value. *)
Lemma value_eq p p' i :
  (is_slot p' i ↔ is_slot p i) → (is_slot p i → slot_len p' i = slot_len p i) →
  (live p i → sub p' (slot_off p' i) (slot_len p' i) = sub p (slot_off p i) (slot_len p i)) →
  value p' i = value p i.
Proof.
  intros Hs Hl Hv. destruct (value p i) eqn:E.
  - apply value_Some in E as [[Hi Hn] ->]. apply value_Some. split.
    + split; [by apply Hs | by rewrite Hl].
    + by rewrite Hv by done.
  - apply value_None in E. apply value_None. intros [Hi Hn]. apply E.
    apply Hs in Hi. split; [done|]. by rewrite <-Hl.
Qed.

(** ** Pages that differ in one slot *)

Section Change.
Context (p p' : Page) (k : Z).
Context (Hnum : num_slots p' = num_slots p) (Hk : is_slot p k).
Context (Hoff : ∀ i, is_slot p i → i ≠ k → slot_off p' i = slot_off p i).
Context (Hlen : ∀ i, is_slot p i → i ≠ k → slot_len p' i = slot_len p i).

Lemma live_bytes_change : live_bytes p' = live_bytes p - slot_len p k + slot_len p' k.
Proof.
  unfold live_bytes. rewrite Hnum. unfold is_slot in *.
  apply sum_to_update; [lia|]. intros. apply Hlen; lia.
Qed.

Lemma free_slots_change :
  free_slots p' = free_slots p - (if slot_len p k =? 0 then 1 else 0)
                               + (if slot_len p' k =? 0 then 1 else 0).
Proof.
  unfold free_slots. rewrite Hnum. unfold is_slot in *.
  apply (sum_to_update _ (λ i, if slot_len p i =? 0 then 1 else 0)
           (λ i, if slot_len p' i =? 0 then 1 else 0)); [lia|].
  intros. rewrite Hlen by lia. done.
Qed.

Lemma value_other i :
  i ≠ k → (live p i → sub p' (slot_off p i) (slot_len p i) = sub p (slot_off p i) (slot_len p i)) →
  value p' i = value p i.
Proof.
  intros Hi Hs. apply value_eq.
  - unfold is_slot. by rewrite Hnum.
  - intros. by apply Hlen.
  - intros Hl. rewrite Hoff, Hlen by (try apply Hl; done). by apply Hs.
Qed.

(** The regions stay apart when the changed slot is free, or its new region is
    apart from all others. *)
Lemma regions_change lo lo' :
  regions_ok p lo → (∀ i, live p i → i ≠ k → lo' ≤ slot_off p i) →
  (slot_len p' k ≠ 0 → lo' ≤ slot_off p' k ∧ slot_off p' k + slot_len p' k ≤ PAGE_SIZE ∧
     ∀ i, live p i → i ≠ k →
       slot_off p' k + slot_len p' k ≤ slot_off p i ∨ slot_off p i + slot_len p i ≤ slot_off p' k) →
  regions_ok p' lo'.
Proof.
  intros [Rin Rdisj] Hlo Hnew.
  assert (∀ i, live p' i → i ≠ k →
    live p i ∧ slot_off p' i = slot_off p i ∧ slot_len p' i = slot_len p i) as Ho.
  { unfold live, is_slot in *. intros i [Hi Hn] Hne. rewrite Hnum in Hi.
    specialize (Hlen i Hi Hne). specialize (Hoff i Hi Hne). rewrite Hlen in Hn. done. }
  split.
  - intros i Hi. destruct (decide (i = k)) as [->|Hne].
    + destruct Hi as [_ Hn]. destruct (Hnew Hn) as (? & ? & _). done.
    + destruct (Ho i Hi Hne) as (Hl & -> & ->). split; [auto|]. by apply Rin.
  - intros i j Hi Hj Hne.
    destruct (decide (i = k)) as [->|Hi'], (decide (j = k)) as [->|Hj']; [done|..].
    + destruct (Ho j Hj Hj') as (Hl & -> & ->). destruct Hi as [_ Hn].
      destruct (Hnew Hn) as (_ & _ & Hd). destruct (Hd j Hl Hj'); [by left | by right].
    + destruct (Ho i Hi Hi') as (Hl & -> & ->). destruct Hj as [_ Hn].
      destruct (Hnew Hn) as (_ & _ & Hd). destruct (Hd i Hl Hi'); [by right | by left].
    + destruct (Ho i Hi Hi') as (? & -> & ->), (Ho j Hj Hj') as (? & -> & ->). by apply Rdisj.
Qed.
End Change.

(** ** Pages with the same slots *)

(** Same slot directory and same bytes of every live value; the header counters may
    differ. *)
Record same_slots (p p' : Page) : Prop := {
  ss_num : num_slots p' = num_slots p;
  ss_off : ∀ i, is_slot p i → slot_off p' i = slot_off p i;
  ss_len : ∀ i, is_slot p i → slot_len p' i = slot_len p i;
  ss_val : ∀ i, value p' i = value p i
}.

Lemma same_slots_bytes p p' : same_slots p p' → live_bytes p' = live_bytes p.
Proof.
  intros [Hn _ Hl _]. unfold live_bytes. rewrite Hn. apply sum_to_ext. intros. apply Hl.
  pose proof (num_slots_bound p). unfold is_slot. lia.
Qed.

Lemma same_slots_free p p' : same_slots p p' → free_slots p' = free_slots p.
Proof.
  intros [Hn _ Hl _]. unfold free_slots. rewrite Hn. apply sum_to_ext. intros.
  pose proof (num_slots_bound p). rewrite Hl by (unfold is_slot; lia). done.
Qed.

Lemma same_slots_regions p p' lo : same_slots p p' → regions_ok p lo → regions_ok p' lo.
Proof.
  intros [Hn Ho Hl _] [Rin Rdisj].
  assert (∀ i, live p' i → live p i ∧ slot_off p' i = slot_off p i ∧ slot_len p' i = slot_len p i) as E.
  { unfold live, is_slot in *. intros i [Hi Hne]. rewrite Hn in Hi.
    rewrite (Hl i Hi) in Hne. auto. }
  split.
  - intros i Hi. destruct (E i Hi) as (? & -> & ->). auto.
  - intros i j Hi Hj ?. destruct (E i Hi) as (? & -> & ->), (E j Hj) as (? & -> & ->). auto.
Qed.

(** ** Slotted heap pages: field access and compaction

    The getters and setters return without panicking on any 4096-byte page, and
    [compact_page] keeps every value while moving all free space together. *)

Import HeapPage.

(** Arithmetic on offsets, with the page constants unfolded. *)
Ltac plia := unfold is_slot, header_size, slot_meta, PAGE_SIZE in *; lia.

(** ** Getters and setters *)

Section Fields.
Context (p : Page) (Hlen : zlen p = PAGE_SIZE).

Lemma get_num_slots_ok : get_num_slots p = Ret (num_slots p).
Proof. apply (read_u16_ok p 16); plia. Qed.
Lemma get_free_space_ptr_ok : get_free_space_ptr p = Ret (fsp p).
Proof. apply (read_u16_ok p 18); plia. Qed.
Lemma get_deleted_bytes_ok : get_deleted_bytes p = Ret (del_bytes p).
Proof. apply (read_u16_ok p 20); plia. Qed.
Lemma get_deleted_slot_count_ok : get_deleted_slot_count p = Ret (del_slots p).
Proof. apply (read_u16_ok p 22); plia. Qed.
Lemma set_num_slots_ok v : set_num_slots p v = Ret (put_u16 p 16 v).
Proof. apply (write_u16_ok p 16); plia. Qed.
Lemma set_free_space_ptr_ok v : set_free_space_ptr p v = Ret (put_u16 p 18 v).
Proof. apply (write_u16_ok p 18); plia. Qed.
Lemma set_deleted_bytes_ok v : set_deleted_bytes p v = Ret (put_u16 p 20 v).
Proof. apply (write_u16_ok p 20); plia. Qed.
Lemma set_deleted_slot_count_ok v : set_deleted_slot_count p v = Ret (put_u16 p 22 v).
Proof. apply (write_u16_ok p 22); plia. Qed.

Lemma get_header_size_ok : get_header_size p = Ret (header_size p).
Proof. unfold get_header_size. rewrite get_num_slots_ok. simpl. f_equal. Qed.

Lemma get_free_space_ok :
  header_size p ≤ fsp p → get_free_space p = Ret (free_space p).
Proof.
  intros. unfold get_free_space.
  rewrite get_free_space_ptr_ok, get_header_size_ok, get_deleted_bytes_ok. simpl.
  pose proof (fsp_bound p). pose proof (num_slots_bound p).
  rewrite checked_ok by plia. done.
Qed.

Lemma read_slot_ok i :
  0 ≤ i → slot_meta i + 4 ≤ PAGE_SIZE →
  read_slot p (slot_meta i) = Ret (slot_off p i, slot_len p i).
Proof.
  intros. unfold read_slot. change OFFSET_NUM_BYTES with 2.
  rewrite !read_u16_ok by plia. done.
Qed.
End Fields.

Create HintDb page.
#[export] Hint Rewrite get_num_slots_ok get_free_space_ptr_ok get_deleted_bytes_ok
  get_deleted_slot_count_ok set_num_slots_ok set_free_space_ptr_ok set_deleted_bytes_ok
  set_deleted_slot_count_ok get_header_size_ok using done : page.

(** ** Collecting the live values *)

Definition live_at (p : Page) (i : Z) : list (Z * list byte) :=
  if 0 <? slot_len p i then [(i, sub p (slot_off p i) (slot_len p i))] else [].
Definition live_list (p : Page) : list (Z * list byte) :=
  mjoin (live_at p <$> range (num_slots p)).

(** Total length of a list of values. *)
Definition total (l : list (Z * list byte)) : Z := foldr (λ x acc, zlen (snd x) + acc) 0 l.

Lemma total_app l1 l2 : total (l1 ++ l2) = total l1 + total l2.
Proof. induction l1; simpl; lia. Qed.

Lemma total_perm l1 l2 : l1 ≡ₚ l2 → total l1 = total l2.
Proof. induction 1; simpl; lia. Qed.

Lemma total_nonneg l : 0 ≤ total l.
Proof. induction l as [|x l IH]; simpl; [lia|]. pose proof (zlen_nonneg (snd x)). lia. Qed.

(** What compaction needs of a page: the live regions are inside the page, and the
    live values fit between the header and the end. *)
Record compactable (p : Page) : Prop := {
  cp_len : zlen p = PAGE_SIZE;
  cp_in : ∀ i, live p i → slot_off p i + slot_len p i ≤ PAGE_SIZE;
  cp_fit : header_size p ≤ PAGE_SIZE - live_bytes p
}.

Section Collect.
Context (p : Page) (Hc : compactable p).

Lemma compactable_header : header_size p ≤ PAGE_SIZE.
Proof. pose proof (cp_fit p Hc). pose proof (live_bytes_nonneg p). lia. Qed.

Lemma collect_live_ok acc i :
  is_slot p i → collect_live p acc i = Ret (acc ++ live_at p i).
Proof.
  intros Hi. pose proof compactable_header. unfold collect_live, live_at.
  change (_ + i * SLOT_METADATA_SIZE) with (slot_meta i).
  rewrite read_slot_ok by (try apply Hc; plia). rewrite bind_Ret.
  destruct (0 <? slot_len p i) eqn:E; [|by rewrite app_nil_r]. apply Z.ltb_lt in E.
  pose proof (slot_off_bound p i).
  assert (live p i) as Hl by (split; [done | lia]). apply (cp_in p Hc) in Hl.
  rewrite slice_ok by (rewrite ?(cp_len p Hc); lia). rewrite bind_Ret.
  do 3 f_equal. f_equal. f_equal. lia.
Qed.

Lemma collect_all_ok :
  foldM (collect_live p) [] (range (num_slots p)) = Ret (live_list p).
Proof.
  assert (∀ l acc, (∀ i, i ∈ l → is_slot p i) →
    foldM (collect_live p) acc l = Ret (acc ++ mjoin (live_at p <$> l))) as G.
  { induction l as [|i l IH]; intros acc Hl; simpl; [by rewrite app_nil_r|].
    rewrite collect_live_ok by (apply Hl; set_solver). rewrite bind_Ret.
    rewrite IH by (intros; apply Hl; set_solver). by rewrite app_assoc. }
  rewrite G; [done|]. intros i. by rewrite elem_of_range.
Qed.

Lemma elem_of_live_list i d :
  (i, d) ∈ live_list p ↔ live p i ∧ d = sub p (slot_off p i) (slot_len p i).
Proof.
  unfold live_list. rewrite list_elem_of_join. setoid_rewrite list_elem_of_fmap.
  pose proof (slot_len_bound p i).
  split.
  - intros (l & Hin & (j & -> & Hj)). apply elem_of_range in Hj. unfold live_at in Hin.
    destruct (0 <? slot_len p j) eqn:E; [|set_solver]. apply Z.ltb_lt in E.
    apply list_elem_of_singleton in Hin as [= -> ->]. repeat split; lia.
  - intros [[Hi Hn] ->]. exists (live_at p i). split.
    + unfold live_at. rewrite (proj2 (Z.ltb_lt _ _)) by lia. set_solver.
    + exists i. split; [done|]. by apply elem_of_range.
Qed.

Lemma total_live_list : total (live_list p) = live_bytes p.
Proof.
  assert (∀ k, Z.of_nat k ≤ num_slots p →
    total (mjoin (live_at p <$> (Z.of_nat <$> seq 0 k))) = sum_to k (slot_len p)) as G.
  { induction k as [|k IH]; intros Hk; [done|].
    rewrite seq_S, !fmap_app, join_app, total_app, IH by lia. simpl. f_equal.
    rewrite app_nil_r. unfold live_at. pose proof (slot_len_bound p (Z.of_nat k)).
    destruct (0 <? slot_len p (Z.of_nat k)) eqn:E; simpl.
    - apply Z.ltb_lt in E. pose proof (slot_off_bound p (Z.of_nat k)).
      assert (live p (Z.of_nat k)) as Hl by (split; [split|]; lia).
      apply (cp_in p Hc) in Hl. rewrite zlen_sub by (rewrite ?(cp_len p Hc); lia). lia.
    - apply Z.ltb_ge in E. lia. }
  pose proof (num_slots_bound p). apply G. lia.
Qed.

Lemma live_list_NoDup : NoDup (live_list p).*1.
Proof.
  assert (∀ l, NoDup l → NoDup (mjoin (live_at p <$> l)).*1 ∧
    (∀ i, i ∈ (mjoin (live_at p <$> l)).*1 → i ∈ l)) as G.
  { induction 1 as [|i l Hi Hl [IH1 IH2]]; simpl; [split; [constructor | set_solver]|].
    unfold live_at at 1 3. destruct (0 <? slot_len p i); simpl; [|set_solver].
    split; [constructor; [|done]; intros ?; apply Hi; auto | set_solver]. }
  apply G, NoDup_range.
Qed.
End Collect.

(** ** Repacking *)

(** After the values in [done] have been moved: they lie, intact and disjoint,
    between [f] and the end of the page, and nothing else of the view changed. *)
Record packed (p : Page) (done : list (Z * list byte)) (q : Page) (f : Z) : Prop := {
  pk_len : zlen q = PAGE_SIZE;
  pk_fsp : f = PAGE_SIZE - total done;
  pk_hdr : sub q 0 24 = sub p 0 24;
  pk_lens : ∀ i, is_slot p i → slot_len q i = slot_len p i;
  pk_vals : ∀ i d, (i, d) ∈ done →
    f ≤ slot_off q i ∧ slot_off q i + zlen d ≤ PAGE_SIZE ∧ sub q (slot_off q i) (zlen d) = d;
  pk_disj : ∀ i d j e, (i, d) ∈ done → (j, e) ∈ done → i ≠ j →
    slot_off q i + zlen d ≤ slot_off q j ∨ slot_off q j + zlen e ≤ slot_off q i
}.

Lemma packed_init p : zlen p = PAGE_SIZE → packed p [] p PAGE_SIZE.
Proof. intros. constructor; simpl; try done; try lia; set_solver. Qed.

Section RepackStep.
Context (p : Page) (done : list (Z * list byte)) (q : Page) (f k : Z) (d : list byte).
Context (HP : packed p done q f) (Hk : is_slot p k) (Hnew : k ∉ done.*1).
Context (Hdone : ∀ i, i ∈ done.*1 → is_slot p i) (Hfit : header_size p ≤ f - zlen d).

(** The page after one iteration: the value, then the slot's offset. *)
Let f' := f - zlen d.
Let q1 := splice q f' d.
Let q2 := put_u16 q1 (slot_meta k) f'.

Local Lemma repack_bounds : zlen q = PAGE_SIZE ∧ 0 ≤ zlen d ∧ header_size p ≤ f' ∧ f ≤ PAGE_SIZE.
Proof.
  pose proof (pk_fsp _ _ _ _ HP). pose proof (total_nonneg done). pose proof (zlen_nonneg d).
  pose proof (pk_len _ _ _ _ HP). subst f'. lia.
Qed.

Local Lemma repack_zlen : zlen q1 = PAGE_SIZE ∧ zlen q2 = PAGE_SIZE.
Proof.
  destruct repack_bounds as (Hq & ? & ? & ?). pose proof (num_slots_bound p).
  assert (zlen q1 = PAGE_SIZE) by (subst q1 f'; rewrite zlen_splice; plia).
  split; [done|]. subst q2. rewrite zlen_put; subst f'; plia.
Qed.

(** A range outside the bytes written is unchanged. *)
Local Lemma repack_sub a n :
  0 ≤ a → 0 ≤ n → a + n ≤ f' ∨ f ≤ a → a + n ≤ slot_meta k ∨ slot_meta k + 2 ≤ a →
  sub q2 a n = sub q a n.
Proof.
  intros. destruct repack_bounds as (Hq & ? & ? & ?). destruct repack_zlen.
  pose proof (num_slots_bound p). subst q2.
  rewrite sub_put_other by plia. subst q1. apply sub_splice_disjoint; subst f'; plia.
Qed.

Local Lemma repack_off i : is_slot p i → slot_off q2 i = if decide (i = k) then f' else slot_off q i.
Proof.
  intros Hi. destruct repack_bounds as (Hq & ? & ? & ?). destruct repack_zlen.
  pose proof (num_slots_bound p). case_decide as E.
  - subst i. apply u16_put_same; subst f'; plia.
  - unfold slot_off, u16_at. by rewrite repack_sub by plia.
Qed.

Local Lemma repack_vals i e :
  (i, e) ∈ done ++ [(k, d)] →
  f' ≤ slot_off q2 i ∧ slot_off q2 i + zlen e ≤ PAGE_SIZE ∧ sub q2 (slot_off q2 i) (zlen e) = e.
Proof.
  intros Hin. destruct repack_bounds as (Hq & ? & ? & ?). destruct repack_zlen.
  pose proof (num_slots_bound p). pose proof (zlen_nonneg e).
  apply elem_of_app in Hin as [Hin|Hin].
  - assert (i ∈ done.*1) as Hi by eauto using elem_of_fst.
    destruct (pk_vals _ _ _ _ HP i e Hin) as (? & ? & Hv).
    rewrite repack_off by auto. rewrite decide_False by (intros ->; done).
    rewrite repack_sub by (try (apply Hdone in Hi); plia). split; [plia|]. by split.
  - apply list_elem_of_singleton in Hin as [= -> ->].
    rewrite repack_off by done. rewrite decide_True by done.
    split; [lia|]. split; [subst f'; lia|]. subst q2. rewrite sub_put_other by plia.
    subst q1. apply sub_splice_same; subst f'; plia.
Qed.

Local Lemma repack_disj i e j g :
  (i, e) ∈ done ++ [(k, d)] → (j, g) ∈ done ++ [(k, d)] → i ≠ j →
  slot_off q2 i + zlen e ≤ slot_off q2 j ∨ slot_off q2 j + zlen g ≤ slot_off q2 i.
Proof.
  intros Hi Hj Hne. pose proof HP as [_ _ _ _ Hvals Hdisj].
  apply elem_of_app in Hi as [Hi|Hi], Hj as [Hj|Hj];
    try rewrite list_elem_of_singleton in Hi; try rewrite list_elem_of_singleton in Hj;
    simplify_eq.
  - assert (i ∈ done.*1 ∧ j ∈ done.*1) as [] by eauto using elem_of_fst.
    rewrite !repack_off by auto. rewrite !decide_False by (intros ->; done). by apply Hdisj.
  - assert (i ∈ done.*1) by eauto using elem_of_fst.
    rewrite !repack_off by auto. rewrite decide_False, decide_True by done.
    destruct (Hvals i e Hi). subst f'. lia.
  - assert (j ∈ done.*1) by eauto using elem_of_fst.
    rewrite !repack_off by auto. rewrite decide_True, decide_False by done.
    destruct (Hvals j g Hj). subst f'. lia.
Qed.

Lemma repack_step :
  ∃ q', repack (q, f) (k, d) = Ret (q', f - zlen d) ∧
        packed p (done ++ [(k, d)]) q' (f - zlen d).
Proof.
  destruct repack_bounds as (Hq & ? & ? & ?). destruct repack_zlen.
  pose proof (num_slots_bound p). exists q2. split.
  - unfold repack. rewrite checked_ok by (subst f'; plia). rewrite bind_Ret.
    rewrite copy_from_slice_ok by (subst f'; plia). rewrite bind_Ret.
    change (_ + k * SLOT_METADATA_SIZE) with (slot_meta k).
    fold f' q1. rewrite cast_small by (subst f'; plia). rewrite write_u16_ok by plia. done.
  - constructor; try done.
    + rewrite total_app. simpl. rewrite (pk_fsp _ _ _ _ HP). lia.
    + rewrite repack_sub by plia. apply HP.
    + intros i Hi. rewrite <-(pk_lens _ _ _ _ HP) by done. unfold slot_len, u16_at.
      by rewrite repack_sub by plia.
    + exact repack_vals.
    + exact repack_disj.
Qed.
End RepackStep.

Lemma repack_all p l :
  zlen p = PAGE_SIZE → NoDup l.*1 → (∀ i, i ∈ l.*1 → is_slot p i) →
  header_size p ≤ PAGE_SIZE - total l →
  ∃ q f, foldM repack (p, PAGE_SIZE) l = Ret (q, f) ∧ packed p l q f.
Proof.
  intros Hlen Hnd Hin Hfit.
  destruct (foldM_inv repack (λ done '(q, f), packed p done q f) l (p, PAGE_SIZE))
    as ((q & f) & ? & ?); [by apply packed_init| |eauto].
  intros l1 [k d] l2 [q f] -> HP. rewrite fmap_app in Hnd, Hin. simpl in *.
  rewrite total_app in Hfit. simpl in Hfit.
  pose proof (total_nonneg l2). pose proof (pk_fsp _ _ _ _ HP).
  apply NoDup_app in Hnd as (_ & Hnd & _).
  destruct (repack_step p l1 q f k d) as (q' & ? & ?); [done|..].
  - apply Hin. set_solver.
  - intros Hk. by apply (Hnd k Hk), elem_of_cons; left.
  - intros i Hi. apply Hin. set_solver.
  - lia.
  - by exists (q', f - zlen d).
Qed.

(** ** Compaction *)

(** What [compact_page] does to a page: the header bytes, the slots, their lengths
    and values stay; the free space is all in front of the values. *)
Record compacted (p p' : Page) : Prop := {
  ct_len : zlen p' = PAGE_SIZE;
  ct_hdr : sub p' 0 16 = sub p 0 16;
  ct_num : num_slots p' = num_slots p;
  ct_dels : del_slots p' = del_slots p;
  ct_lens : ∀ i, is_slot p i → slot_len p' i = slot_len p i;
  ct_fsp : fsp p' = PAGE_SIZE - live_bytes p;
  ct_del : del_bytes p' = 0;
  ct_value : ∀ i, value p' i = value p i;
  ct_regions : regions_ok p' (fsp p')
}.

Section Finish.
Context (p : Page) (l : list (Z * list byte)) (q : Page) (f : Z).
Context (Hc : compactable p) (HP : packed p l q f).
Context (Hin : ∀ i d, (i, d) ∈ l ↔ live p i ∧ d = sub p (slot_off p i) (slot_len p i)).
Context (Htot : total l = live_bytes p).

Let q2 := put_u16 (put_u16 q 18 f) 20 0.

Local Lemma finish_f : f = PAGE_SIZE - live_bytes p ∧ 0 ≤ f ≤ PAGE_SIZE.
Proof.
  rewrite (pk_fsp _ _ _ _ HP), Htot. pose proof (live_bytes_nonneg p).
  pose proof (cp_fit p Hc). pose proof (num_slots_bound p). split; plia.
Qed.

Local Lemma finish_zlen : zlen q2 = PAGE_SIZE.
Proof. pose proof (pk_len _ _ _ _ HP). subst q2. rewrite !zlen_put; rewrite ?zlen_put; plia. Qed.

Local Lemma finish_sub a n :
  0 ≤ a → 0 ≤ n → a + n ≤ 18 ∨ 22 ≤ a → sub q2 a n = sub q a n.
Proof.
  intros. pose proof (pk_len _ _ _ _ HP). subst q2.
  rewrite !sub_put_other by (rewrite ?zlen_put; plia). done.
Qed.

Local Lemma finish_num : num_slots q2 = num_slots p.
Proof.
  unfold num_slots, u16_at. rewrite finish_sub by lia. f_equal.
  apply (sub_sub_eq _ _ 0 24); [lia..|apply HP].
Qed.

Local Lemma finish_slots i : is_slot p i → slot_len q2 i = slot_len p i ∧ slot_off q2 i = slot_off q i.
Proof.
  intros Hi. rewrite <-(pk_lens _ _ _ _ HP) by done. unfold slot_len, slot_off, u16_at.
  by rewrite !finish_sub by plia.
Qed.

Local Lemma finish_vals i :
  live p i → f ≤ slot_off q i ∧ slot_off q i + slot_len p i ≤ PAGE_SIZE ∧
  sub q (slot_off q i) (slot_len p i) = sub p (slot_off p i) (slot_len p i).
Proof.
  intros Hi. pose proof (pk_vals _ _ _ _ HP i _ (proj2 (Hin i _) (conj Hi eq_refl))) as Hv.
  pose proof (cp_in p Hc i Hi). pose proof (slot_off_bound p i). pose proof (slot_len_bound p i).
  by rewrite zlen_sub in Hv by (rewrite ?(cp_len p Hc); lia).
Qed.

Local Lemma finish_regions : regions_ok q2 f.
Proof.
  assert (∀ i, live q2 i → live p i) as Hlive.
  { unfold live, is_slot. intros i [Hi Hn]. rewrite finish_num in Hi. split; [done|].
    by rewrite <-(proj1 (finish_slots i Hi)). }
  split.
  - intros i Hi%Hlive. destruct (finish_slots i (proj1 Hi)) as [-> ->].
    destruct (finish_vals i Hi) as (? & ? & _). done.
  - intros i j Hi%Hlive Hj%Hlive Hne.
    destruct (finish_slots i (proj1 Hi)) as [-> ->], (finish_slots j (proj1 Hj)) as [-> ->].
    pose proof (pk_disj _ _ _ _ HP i _ j _ (proj2 (Hin i _) (conj Hi eq_refl))
      (proj2 (Hin j _) (conj Hj eq_refl)) Hne) as Hd.
    pose proof (cp_in p Hc i Hi). pose proof (slot_off_bound p i). pose proof (slot_len_bound p i).
    pose proof (cp_in p Hc j Hj). pose proof (slot_off_bound p j). pose proof (slot_len_bound p j).
    by rewrite !zlen_sub in Hd by (rewrite ?(cp_len p Hc); lia).
Qed.

Lemma finish_compacted : compacted p q2.
Proof.
  destruct finish_f as [Hf ?]. pose proof (pk_len _ _ _ _ HP).
  assert (fsp q2 = f) as Hfsp.
  { unfold fsp. subst q2. rewrite u16_put_other, u16_put_same by (rewrite ?zlen_put; plia). done. }
  constructor.
  - apply finish_zlen.
  - rewrite finish_sub by lia. apply (sub_sub_eq _ _ 0 24); [lia..|apply HP].
  - apply finish_num.
  - unfold del_slots, u16_at. rewrite finish_sub by lia. f_equal.
    apply (sub_sub_eq _ _ 0 24); [lia..|apply HP].
  - intros. by apply finish_slots.
  - by rewrite Hfsp.
  - unfold del_bytes. subst q2. apply u16_put_same; rewrite ?zlen_put; plia.
  - intros i. apply value_eq; [unfold is_slot; by rewrite finish_num | apply finish_slots|].
    intros Hi. destruct (finish_slots i (proj1 Hi)) as [-> ->].
    destruct (finish_vals i Hi) as (? & ? & <-). pose proof (slot_len_bound p i).
    pose proof (num_slots_bound p). pose proof (cp_fit p Hc). rewrite finish_sub by plia. done.
  - rewrite Hfsp. apply finish_regions.
Qed.
End Finish.

Lemma compact_page_ok p :
  compactable p → ∃ p', compact_page p = Ret p' ∧ compacted p p'.
Proof.
  intros Hc. pose proof (cp_len p Hc) as Hlen.
  pose proof (sort_by_Permutation shorter (live_list p)) as Hperm.
  assert (∀ i d, (i, d) ∈ sort_by shorter (live_list p) ↔
    live p i ∧ d = sub p (slot_off p i) (slot_len p i)) as Hin.
  { intros i d. rewrite Hperm. by apply elem_of_live_list. }
  assert (total (sort_by shorter (live_list p)) = live_bytes p) as Htot.
  { by rewrite (total_perm _ _ Hperm), total_live_list. }
  destruct (repack_all p (sort_by shorter (live_list p))) as (q & f & Hfold & HP).
  - done.
  - rewrite Hperm. by apply live_list_NoDup.
  - intros i Hi. apply list_elem_of_fmap in Hi as ([j d] & -> & Hj). by apply Hin in Hj as [[]].
  - rewrite Htot. apply Hc.
  - eexists. split; [|by eapply finish_compacted].
    destruct (finish_f _ _ _ _ Hc HP Htot) as [_ ?]. pose proof (pk_len _ _ _ _ HP).
    unfold compact_page. autorewrite with page. rewrite bind_Ret.
    rewrite collect_all_ok by done. rewrite bind_Ret. cbv zeta. rewrite Hfold, bind_Ret.
    rewrite cast_small by plia. autorewrite with page. rewrite bind_Ret.
    assert (zlen (put_u16 q 18 f) = PAGE_SIZE) by (rewrite zlen_put; plia).
    by autorewrite with page.
Qed.
