(* ===== verification/HeapPageSpec.v ===== *)
(** * Slotted heap pages: correctness

    Every operation of [heap_page.rs] keeps the page invariant, never panics on a
    well-formed page, and acts on the slots as a map from slot ids to values. *)

From S2P Require Import Prelude Common HeapPage HeapPageView.

Open Scope Z_scope.
Import HeapPage.

(** ** Header fields *)

Lemma header_size_bound p : 24 ≤ header_size p.
Proof. pose proof (num_slots_bound p). plia. Qed.

Lemma layout_fsp_bound p : layout p → 24 ≤ fsp p ∧ header_size p ≤ fsp p ≤ PAGE_SIZE.
Proof. intros [_ ? _ _]. pose proof (header_size_bound p). lia. Qed.

(** Writing one of the counters after [num_slots]. *)
Lemma put_header p a v lo :
  zlen p = PAGE_SIZE → a = 18 ∨ a = 20 ∨ a = 22 → header_size p ≤ PAGE_SIZE →
  regions_ok p lo → 24 ≤ lo →
  same_slots p (put_u16 p a v) ∧ zlen (put_u16 p a v) = PAGE_SIZE ∧
  sub (put_u16 p a v) 0 16 = sub p 0 16.
Proof.
  intros Hlen Ha Hh [Rin _] Hlo.
  assert (zlen (put_u16 p a v) = PAGE_SIZE) by (rewrite zlen_put; plia).
  assert (num_slots (put_u16 p a v) = num_slots p) as Hn by (apply u16_put_other; plia).
  assert (∀ i, is_slot p i → slot_off (put_u16 p a v) i = slot_off p i) as Ho
    by (intros; apply u16_put_other; plia).
  assert (∀ i, is_slot p i → slot_len (put_u16 p a v) i = slot_len p i) as Hl
    by (intros; apply u16_put_other; plia).
  split; [split; try done|split; [done|apply sub_put_other; plia]].
  intros i. apply value_eq; [unfold is_slot; by rewrite Hn | apply Hl |].
  intros Hi. rewrite Ho, Hl by apply Hi. destruct (Rin i Hi). pose proof (slot_len_bound p i).
  apply sub_put_other; plia.
Qed.

Lemma layout_compactable p : layout p → compactable p.
Proof.
  intros [Hlen Hf [Rin _] Hb]. split; [done| |].
  - intros i Hi. by apply Rin.
  - pose proof (del_bytes_bound p). lia.
Qed.

(** Compaction keeps the accounting, and makes all free space contiguous. *)
Lemma compacted_layout p p' :
  layout p → compacted p p' →
  layout p' ∧ free_space p' = free_space p ∧ fsp p' - header_size p' = free_space p ∧
  free_slots p' = free_slots p.
Proof.
  intros [Hlen Hf Hr Hb] [Hlen' _ Hn _ Hl Hf' Hd' _ Hr'].
  assert (live_bytes p' = live_bytes p) as E.
  { unfold live_bytes. rewrite Hn. apply sum_to_ext. intros. apply Hl.
    pose proof (num_slots_bound p). plia. }
  assert (header_size p' = header_size p) as Eh by (unfold header_size; by rewrite Hn).
  pose proof (live_bytes_nonneg p). pose proof (del_bytes_bound p). unfold free_space. split.
  - split; [done| |done|lia]. lia.
  - rewrite Eh, Hd', Hf'. split; [lia|]. split; [lia|].
    unfold free_slots. rewrite Hn. apply sum_to_ext. intros.
    pose proof (num_slots_bound p). rewrite Hl by plia. done.
Qed.

(** ** Storing a value in a free slot *)

(** The effect of storing [bytes] in the free slot [k]. *)
Record stored (p p' : Page) (k : Z) (bytes : list byte) : Prop := {
  st_layout : layout p';
  st_hdr : sub p' 0 16 = sub p 0 16;
  st_num : num_slots p' = num_slots p;
  st_dels : del_slots p' = del_slots p;
  st_free : free_slots p' = free_slots p - 1;
  st_space : free_space p' = free_space p - zlen bytes;
  st_value : value p' k = Some bytes;
  st_other : ∀ i, i ≠ k → value p' i = value p i;
  st_del : del_bytes p' ≤ del_bytes p
}.

Section Place.
Context (p : Page) (k : Z) (bytes : list byte).
Context (Hly : layout p) (Hk : is_slot p k) (Hfree : slot_len p k = 0).
Context (Hpos : 0 < zlen bytes) (Hgap : zlen bytes ≤ fsp p - header_size p).

Let f' := fsp p - zlen bytes.
Let q1 := splice p f' bytes.
Let q2 := put_u16 q1 18 f'.
Let q3 := put_u16 q2 (slot_meta k) f'.
Let q4 := put_u16 q3 (slot_meta k + 2) (zlen bytes).

Local Lemma place_zlen :
  zlen q1 = PAGE_SIZE ∧ zlen q2 = PAGE_SIZE ∧ zlen q3 = PAGE_SIZE ∧ zlen q4 = PAGE_SIZE.
Proof.
  pose proof (layout_fsp_bound p Hly). pose proof (ly_len p Hly).
  assert (zlen q1 = PAGE_SIZE) by (subst q1 f'; rewrite zlen_splice; plia).
  assert (zlen q2 = PAGE_SIZE) by (subst q2; rewrite zlen_put; plia).
  assert (zlen q3 = PAGE_SIZE) by (subst q3; rewrite zlen_put; plia).
  split; [done|]. split; [done|]. split; [done|]. subst q4. rewrite zlen_put; plia.
Qed.

Local Lemma place_sub a n :
  0 ≤ a → 0 ≤ n → a + n ≤ f' ∨ fsp p ≤ a → a + n ≤ 18 ∨ 20 ≤ a →
  a + n ≤ slot_meta k ∨ slot_meta k + 4 ≤ a → sub q4 a n = sub p a n.
Proof.
  intros. pose proof (layout_fsp_bound p Hly). pose proof (ly_len p Hly).
  destruct place_zlen as (? & ? & ? & ?). subst q4 q3 q2 q1 f'.
  rewrite !sub_put_other by plia. apply sub_splice_disjoint; plia.
Qed.

Local Lemma place_fields :
  num_slots q4 = num_slots p ∧ del_slots q4 = del_slots p ∧ del_bytes q4 = del_bytes p ∧
  fsp q4 = f' ∧ slot_off q4 k = f' ∧ slot_len q4 k = zlen bytes.
Proof.
  pose proof (layout_fsp_bound p Hly). pose proof (ly_len p Hly).
  destruct place_zlen as (? & ? & ? & ?).
  unfold num_slots, del_slots, del_bytes, u16_at. rewrite !place_sub by (subst f'; plia).
  repeat split.
  - unfold fsp. subst q4 q3. rewrite !u16_put_other by plia. apply u16_put_same; subst f'; plia.
  - unfold slot_off. subst q4. rewrite u16_put_other by plia. apply u16_put_same; subst f'; plia.
  - apply u16_put_same; plia.
Qed.

Local Lemma place_slots i :
  is_slot p i → i ≠ k → slot_off q4 i = slot_off p i ∧ slot_len q4 i = slot_len p i.
Proof.
  intros. pose proof (layout_fsp_bound p Hly). unfold slot_off, slot_len, u16_at.
  rewrite !place_sub by (subst f'; plia). done.
Qed.

Local Lemma place_value : value q4 k = Some bytes.
Proof.
  destruct place_fields as (Hn & _ & _ & _ & Ho & Hl). apply value_Some. split.
  - split; [unfold is_slot; by rewrite Hn | lia].
  - rewrite Ho, Hl. pose proof (layout_fsp_bound p Hly). pose proof (ly_len p Hly).
    destruct place_zlen as (? & ? & ? & ?). subst q4 q3 q2.
    rewrite !sub_put_other by (subst f'; plia). symmetry. apply sub_splice_same; subst f'; plia.
Qed.

Lemma place_stored : stored p q4 k bytes.
Proof.
  destruct place_fields as (Hn & Hds & Hdb & Hf & Ho & Hl).
  pose proof (layout_fsp_bound p Hly). pose proof Hly as [Hlen Hb Hr Hsum].
  assert (header_size q4 = header_size p) as Eh by (unfold header_size; by rewrite Hn).
  pose proof (live_bytes_change p q4 k Hn Hk (λ i Hi Hne, proj2 (place_slots i Hi Hne))) as El.
  pose proof (free_slots_change p q4 k Hn Hk (λ i Hi Hne, proj2 (place_slots i Hi Hne))) as Ef.
  rewrite Hl, Hfree in El, Ef. rewrite (proj2 (Z.eqb_neq (zlen bytes) 0)) in Ef by lia.
  constructor; try done.
  - constructor; [apply place_zlen| |rewrite Hf|].
    + rewrite Eh, Hf. subst f'. lia.
    + apply (regions_change p q4 k Hn) with (lo := fsp p); try apply place_slots; [done| |].
      * intros i Hi _. destruct (region_in _ _ Hr i Hi). subst f'. lia.
      * intros _. rewrite Ho, Hl. split; [lia|]. split; [subst f'; lia|].
        intros i Hi _. destruct (region_in _ _ Hr i Hi). subst f'. lia.
    + rewrite Hdb, Hf, El. subst f'. lia.
  - apply place_sub; subst f'; plia.
  - rewrite Ef. simpl. lia.
  - unfold free_space. rewrite Eh, Hf, Hdb. subst f'. lia.
  - apply place_value.
  - intros i Hne. apply (value_other p q4 k Hn); try apply place_slots; [done|].
    intros Hi. destruct (region_in _ _ Hr i Hi). pose proof (slot_len_bound p i).
    apply place_sub; subst f'; plia.
  - by rewrite Hdb.
Qed.
End Place.

Lemma write_value_at_slot_ok p k bytes :
  layout p → is_slot p k → slot_len p k = 0 → 0 < zlen bytes ≤ free_space p →
  ∃ p', write_value_at_slot p (slot_meta k) bytes = Ret p' ∧ stored p p' k bytes.
Proof.
  intros Hly Hk Hfree Hspace. pose proof (ly_len p Hly). pose proof (layout_fsp_bound p Hly).
  assert (∃ p1, (if fsp p - header_size p <? zlen bytes then compact_page p else Ret p) = Ret p1 ∧
    layout p1 ∧ sub p1 0 16 = sub p 0 16 ∧ num_slots p1 = num_slots p ∧ slot_len p1 k = 0 ∧
    del_slots p1 = del_slots p ∧ free_slots p1 = free_slots p ∧ free_space p1 = free_space p ∧
    (∀ i, value p1 i = value p i) ∧ zlen bytes ≤ fsp p1 - header_size p1 ∧
    del_bytes p1 ≤ del_bytes p)
    as (p1 & E1 & Hly1 & Hh1 & Hn1 & Hk1 & Hd1 & Hf1 & Hs1 & Hv1 & Hg1 & Hb1).
  { destruct (_ <? _) eqn:Hgap.
    - destruct (compact_page_ok p (layout_compactable p Hly)) as (p1 & E & Hc).
      destruct (compacted_layout p p1 Hly Hc) as (? & ? & ? & ?). pose proof Hc as [].
      exists p1. pose proof (del_bytes_bound p). split_and!; try done; [by rewrite ct_lens | lia..].
    - apply Z.ltb_ge in Hgap. exists p. done. }
  pose proof (ly_len p1 Hly1). pose proof (layout_fsp_bound p1 Hly1).
  unfold write_value_at_slot. autorewrite with page. rewrite !bind_Ret.
  rewrite checked_ok by plia. rewrite bind_Ret, E1, bind_Ret.
  autorewrite with page. rewrite bind_Ret, checked_ok, bind_Ret by plia.
  rewrite copy_from_slice_ok, bind_Ret by plia.
  destruct (place_zlen p1 k bytes) as (? & ? & ? & ?); try (done || lia);
    [by unfold is_slot; rewrite Hn1|].
  unfold is_slot in Hk. rewrite !cast_small by plia. autorewrite with page. rewrite bind_Ret.
  rewrite write_u16_put, bind_Ret by plia. change OFFSET_NUM_BYTES with 2.
  rewrite write_u16_put by plia.
  eexists. split; [done|].
  destruct (place_stored p1 k bytes) as [? Ha ? Hb ? ? ? Hc ?]; try (done || lia);
    [unfold is_slot; by rewrite Hn1|].
  constructor; try done; try congruence; try lia.
  intros i Hi. by rewrite Hc.
Qed.

(** ** Finding a slot *)

(** [k] is the lowest free slot, or one past the last slot when none is free. *)
Definition lowest_free (p : Page) (k : Z) : Prop :=
  0 ≤ k ≤ num_slots p ∧ (∀ j, 0 ≤ j < k → slot_len p j ≠ 0) ∧
  (k < num_slots p → slot_len p k = 0).

Lemma find_free_loop_ok p fuel j :
  zlen p = PAGE_SIZE → header_size p ≤ PAGE_SIZE → 0 ≤ j ≤ num_slots p →
  num_slots p - j < Z.of_nat fuel → (∀ i, 0 ≤ i < j → slot_len p i ≠ 0) →
  ∃ k, find_free_loop fuel p (slot_meta j) (header_size p) = Ret (slot_meta k) ∧ lowest_free p k.
Proof.
  intros Hlen Hh. revert j. induction fuel as [|fuel IH]; intros j Hj Hfuel Hbefore; [lia|].
  simpl. destruct (slot_meta j <? header_size p) eqn:E.
  - apply Z.ltb_lt in E. change OFFSET_NUM_BYTES with 2. rewrite read_u16_ok, bind_Ret by plia.
    change (u16_at p (slot_meta j + 2)) with (slot_len p j).
    destruct (slot_len p j =? 0) eqn:E0.
    + apply Z.eqb_eq in E0. exists j. done.
    + apply Z.eqb_neq in E0. replace (slot_meta j + SLOT_METADATA_SIZE) with (slot_meta (j + 1))
        by (unfold slot_meta, SLOT_METADATA_SIZE; lia).
      apply IH; [plia|lia|]. intros i Hi. destruct (decide (i = j)) as [->|]; [done|].
      apply Hbefore. lia.
  - apply Z.ltb_ge in E. exists (num_slots p). split; [done|].
    assert (j = num_slots p) as -> by plia. unfold lowest_free. split_and!; [lia..|done|lia].
Qed.

Lemma find_next_free_slot_ok p :
  layout p → ∃ k, find_next_free_slot p = Ret (slot_meta k) ∧ lowest_free p k.
Proof.
  intros Hly. pose proof (ly_len p Hly). pose proof (layout_fsp_bound p Hly).
  pose proof (num_slots_bound p). unfold find_next_free_slot. autorewrite with page.
  rewrite bind_Ret. change (PAGE_FIXED_HEADER_LEN + HEAP_PAGE_FIXED_METADATA_SIZE) with (slot_meta 0).
  apply find_free_loop_ok; [done|plia|lia|plia|lia].
Qed.

(** ** Adding a slot *)

Section NewSlot.
Context (p : Page) (Hly : layout p) (Hgap : 4 ≤ fsp p - header_size p).

Let n := num_slots p.
Let q1 := put_u16 p 16 (n + 1).
Let q2 := splice q1 (slot_meta n) (replicate (Z.to_nat 4) Byte.x00).

Local Lemma new_slot_zlen : zlen q1 = PAGE_SIZE ∧ zlen q2 = PAGE_SIZE.
Proof.
  pose proof (ly_len p Hly). pose proof (layout_fsp_bound p Hly). pose proof (num_slots_bound p).
  assert (zlen q1 = PAGE_SIZE) by (subst q1; rewrite zlen_put; plia).
  split; [done|]. subst q2. rewrite zlen_splice; rewrite ?zlen_replicate; subst n; plia.
Qed.

Local Lemma new_slot_sub a k :
  0 ≤ a → 0 ≤ k → a + k ≤ 16 ∨ 18 ≤ a → a + k ≤ slot_meta n ∨ slot_meta n + 4 ≤ a →
  sub q2 a k = sub p a k.
Proof.
  intros. pose proof (ly_len p Hly). pose proof (layout_fsp_bound p Hly).
  pose proof (num_slots_bound p). destruct new_slot_zlen. subst q2.
  rewrite sub_splice_disjoint by (rewrite ?zlen_replicate; subst n; plia).
  subst q1. apply sub_put_other; subst n; plia.
Qed.

Local Lemma new_slot_num : num_slots q2 = n + 1.
Proof.
  pose proof (ly_len p Hly). pose proof (layout_fsp_bound p Hly). pose proof (num_slots_bound p).
  destruct new_slot_zlen. unfold num_slots. subst q2.
  rewrite u16_at_disjoint by (rewrite ?zlen_replicate; subst n; plia).
  subst q1. apply u16_put_same; subst n; plia.
Qed.

Local Lemma new_slot_len : slot_len q2 n = 0.
Proof.
  pose proof (ly_len p Hly). pose proof (layout_fsp_bound p Hly). pose proof (num_slots_bound p).
  destruct new_slot_zlen as [Hz _]. unfold slot_len, u16_at.
  assert (sub q2 (slot_meta n) 4 = replicate 4 Byte.x00) as E.
  { subst q2. apply (sub_splice_same q1 (slot_meta n) (replicate (Z.to_nat 4) Byte.x00));
      rewrite ?zlen_replicate; subst n; plia. }
  assert (sub q2 (slot_meta n + 2) 2 = drop 2 (sub q2 (slot_meta n) 4)) as ->.
  { unfold sub. rewrite skipn_firstn_comm, drop_drop. f_equal. f_equal. subst n. plia. }
  by rewrite E.
Qed.

Local Lemma new_slot_old i : is_slot p i → slot_off q2 i = slot_off p i ∧ slot_len q2 i = slot_len p i.
Proof.
  intros. pose proof (layout_fsp_bound p Hly). unfold slot_off, slot_len, u16_at.
  rewrite !new_slot_sub by (subst n; plia). done.
Qed.

Local Lemma new_slot_value i : value q2 i = value p i.
Proof.
  pose proof (layout_fsp_bound p Hly) as Hf. pose proof (num_slots_bound p).
  destruct (decide (i = n)) as [->|Hne].
  - rewrite (proj2 (value_None p n)) by (unfold live, is_slot; lia).
    apply value_None. intros [_ Hn]. by rewrite new_slot_len in Hn.
  - apply value_eq.
    + unfold is_slot. rewrite new_slot_num. subst n. lia.
    + intros. by apply new_slot_old.
    + intros Hi. destruct (new_slot_old i (proj1 Hi)) as [-> ->].
      destruct (region_in _ _ (ly_regions p Hly) i Hi). pose proof (slot_len_bound p i).
      apply new_slot_sub; subst n; plia.
Qed.

Local Lemma new_slot_sums : live_bytes q2 = live_bytes p ∧ free_slots q2 = free_slots p + 1.
Proof.
  pose proof (num_slots_bound p). unfold live_bytes, free_slots. rewrite new_slot_num.
  replace (Z.to_nat (n + 1)) with (S (Z.to_nat n)) by lia. simpl.
  rewrite Z2Nat.id by lia. rewrite new_slot_len. split.
  - rewrite (sum_to_ext _ _ (slot_len p)); [subst n; lia|].
    intros. apply new_slot_old. subst n. unfold is_slot. lia.
  - f_equal. apply sum_to_ext. intros i Hi.
    assert (is_slot p i) as Hs by (subst n; unfold is_slot; lia).
    by rewrite (proj2 (new_slot_old i Hs)).
Qed.

Lemma new_slot_ok :
  layout q2 ∧ sub q2 0 16 = sub p 0 16 ∧ num_slots q2 = num_slots p + 1 ∧
  slot_len q2 (num_slots p) = 0 ∧ del_slots q2 = del_slots p ∧
  free_slots q2 = free_slots p + 1 ∧ free_space q2 = free_space p - 4 ∧
  (∀ i, value q2 i = value p i) ∧ del_bytes q2 = del_bytes p.
Proof.
  pose proof (layout_fsp_bound p Hly) as Hf. pose proof (num_slots_bound p).
  destruct new_slot_sums as [El Ef]. pose proof Hly as [Hlen Hb [Rin Rdisj] Hs].
  assert (fsp q2 = fsp p ∧ del_bytes q2 = del_bytes p ∧ del_slots q2 = del_slots p) as (E1 & E2 & E3).
  { unfold fsp, del_bytes, del_slots, u16_at. rewrite !new_slot_sub by (subst n; plia). done. }
  assert (header_size q2 = header_size p + 4) as Eh
    by (unfold header_size; rewrite new_slot_num; subst n; plia).
  assert (∀ i, live q2 i → live p i ∧ slot_off q2 i = slot_off p i ∧ slot_len q2 i = slot_len p i) as HL.
  { intros i Hi. assert (is_slot p i) as Hs'.
    { destruct Hi as [Hi Hn]. unfold is_slot in *. rewrite new_slot_num in Hi.
      destruct (decide (i = n)) as [->|]; [by rewrite new_slot_len in Hn|]. subst n. lia. }
    destruct (new_slot_old i Hs') as [? E]. split; [|done]. split; [done|].
    rewrite <-E. apply Hi. }
  split_and!; try done.
  - constructor.
    + apply new_slot_zlen.
    + lia.
    + rewrite E1. split.
      * intros i Hi. destruct (HL i Hi) as (? & -> & ->). auto.
      * intros i j Hi Hj ?. destruct (HL i Hi) as (? & -> & ->), (HL j Hj) as (? & -> & ->). auto.
    + lia.
  - apply new_slot_sub; subst n; plia.
  - apply new_slot_num.
  - apply new_slot_len.
  - unfold free_space. lia.
  - apply new_slot_value.
Qed.
End NewSlot.

(** Setting the count of free slots. *)
Lemma put_del_slots p v :
  layout p → 0 ≤ v < 65536 →
  layout (put_u16 p 22 v) ∧ del_slots (put_u16 p 22 v) = v ∧ same_slots p (put_u16 p 22 v) ∧
  free_slots (put_u16 p 22 v) = free_slots p ∧ free_space (put_u16 p 22 v) = free_space p ∧
  sub (put_u16 p 22 v) 0 16 = sub p 0 16 ∧ del_bytes (put_u16 p 22 v) = del_bytes p.
Proof.
  intros Hly Hv. pose proof (layout_fsp_bound p Hly). pose proof Hly as [Hlen Hf Hr Hb].
  destruct (put_header p 22 v (fsp p)) as (Hss & Hz & Hh); [done|auto|plia|done|lia|].
  set (q := put_u16 p 22 v) in *.
  assert (fsp q = fsp p ∧ del_bytes q = del_bytes p) as [E1 E2]
    by (split; apply u16_put_other; plia).
  pose proof (same_slots_bytes _ _ Hss). pose proof (same_slots_free _ _ Hss).
  assert (header_size q = header_size p) by (unfold header_size; by rewrite (ss_num _ _ Hss)).
  split_and!; try done.
  - constructor; [done|lia| |lia]. rewrite E1. by apply (same_slots_regions p).
  - apply u16_put_same; plia.
  - unfold free_space. lia.
Qed.

(** ** Insertion *)

(** Space an insertion into slot [k] takes: a new slot also needs its metadata. *)
Definition space_needed (p : Page) (k : Z) (bytes : list byte) : Z :=
  zlen bytes + (if k =? num_slots p then SLOT_METADATA_SIZE else 0).

(** The insertion is refused: not enough free space, or no room to grow the header. *)
Definition no_room (p : Page) (k : Z) (bytes : list byte) : Prop :=
  free_space p ≤ space_needed p k bytes ∨
  (k = num_slots p ∧ fsp p - header_size p < SLOT_METADATA_SIZE).

(** The effect of an accepted insertion of [bytes] into slot [k]. *)
Record added (p p' : Page) (k : Z) (bytes : list byte) : Prop := {
  ad_wf : wf p';
  ad_hdr : sub p' 0 16 = sub p 0 16;
  ad_num : num_slots p' = Z.max (num_slots p) (k + 1);
  ad_space : free_space p' = free_space p - space_needed p k bytes;
  ad_value : value p' k = Some bytes;
  ad_other : ∀ i, i ≠ k → value p' i = value p i;
  ad_del : del_bytes p' ≤ del_bytes p
}.

Lemma free_slot_counted p k :
  wf p → is_slot p k → slot_len p k = 0 → 1 ≤ del_slots p.
Proof.
  intros [_ ->] Hk H0. unfold free_slots.
  pose proof (sum_to_ge (Z.to_nat (num_slots p)) (λ i, if slot_len p i =? 0 then 1 else 0) k) as G.
  simpl in G. rewrite H0 in G. apply G; [|unfold is_slot in Hk; lia].
  intros i _; simpl; destruct (slot_len p i =? 0); lia.
Qed.

Lemma slot_id_of_meta k : 0 ≤ k < 65536 →
  as_u16 ((slot_meta k - (PAGE_FIXED_HEADER_LEN + HEAP_PAGE_FIXED_METADATA_SIZE)) / SLOT_METADATA_SIZE) = k.
Proof.
  intros. change (PAGE_FIXED_HEADER_LEN + HEAP_PAGE_FIXED_METADATA_SIZE) with 24.
  unfold slot_meta, SLOT_METADATA_SIZE.
  replace (24 + k * 4 - 24) with (k * 4) by lia. rewrite Z.div_mul by lia. by apply cast_small.
Qed.

(** The bookkeeping before the write: a free slot [k] in a page whose accounting is
    intact, with [k] not counted as deleted. *)
Lemma add_value_prepare p k bytes :
  wf p → lowest_free p k → 0 < zlen bytes → ¬ no_room p k bytes →
  ∃ q,
    (if header_size p <=? slot_meta k then
       '(p, _) ← increment_num_slots p;
       fill p (slot_meta k) (slot_meta k + SLOT_METADATA_SIZE) Byte.x00
     else
       cnt ← get_deleted_slot_count p;
       cnt ← u16_sub cnt 1;
       set_deleted_slot_count p cnt) = Ret q ∧
    layout q ∧ is_slot q k ∧ slot_len q k = 0 ∧ del_slots q = free_slots q - 1 ∧
    sub q 0 16 = sub p 0 16 ∧ num_slots q = Z.max (num_slots p) (k + 1) ∧
    free_space q = free_space p - space_needed p k bytes + zlen bytes ∧
    (∀ i, value q i = value p i) ∧ del_bytes q = del_bytes p.
Proof.
  intros Hwf (Hk & Hbefore & Hfree) Hpos Hroom. pose proof Hwf as [Hly Hds].
  pose proof (ly_len p Hly). pose proof (layout_fsp_bound p Hly). pose proof (num_slots_bound p).
  unfold no_room, space_needed in *. destruct (header_size p <=? slot_meta k) eqn:Enew.
  - apply Z.leb_le in Enew. assert (k = num_slots p) as -> by plia.
    rewrite (proj2 (Z.eqb_eq _ _)) in * by done.
    assert (4 ≤ fsp p - header_size p) as Hgap by (unfold SLOT_METADATA_SIZE in *; lia).
    destruct (new_slot_ok p Hly Hgap) as (? & ? & ? & ? & ? & ? & ? & ? & ?).
    destruct (new_slot_zlen p Hly Hgap) as [? _].
    unfold increment_num_slots. autorewrite with page. rewrite bind_Ret.
    rewrite checked_ok by plia. rewrite bind_Ret. autorewrite with page. rewrite !bind_Ret.
    rewrite fill_ok by (unfold SLOT_METADATA_SIZE; plia).
    replace (slot_meta (num_slots p) + SLOT_METADATA_SIZE - slot_meta (num_slots p)) with 4
      by (unfold SLOT_METADATA_SIZE; lia).
    eexists. split; [done|]. split_and!; try done; unfold is_slot, SLOT_METADATA_SIZE in *; lia.
  - apply Z.leb_gt in Enew. assert (is_slot p k) as Hs by plia.
    rewrite (proj2 (Z.eqb_neq k (num_slots p))) in * by plia.
    specialize (Hfree ltac:(plia)). pose proof (free_slot_counted p k Hwf Hs Hfree).
    pose proof (del_slots_bound p).
    autorewrite with page. rewrite bind_Ret, checked_ok, bind_Ret by lia. autorewrite with page.
    destruct (put_del_slots p (del_slots p - 1)) as (? & ? & [Hn _ Hl Hv] & ? & ? & ? & ?); [done|lia|].
    eexists. split; [done|]. split_and!; try done; try lia.
    + unfold is_slot. by rewrite Hn.
    + by rewrite Hl.
    + plia.
Qed.

(** The test that makes [add_value] refuse. *)
Definition full (p : Page) (k : Z) (bytes : list byte) : bool :=
  (free_space p <=? space_needed p k bytes) ||
  ((k =? num_slots p) && (fsp p - header_size p <? SLOT_METADATA_SIZE)).

Lemma full_spec p k bytes : reflect (no_room p k bytes) (full p k bytes).
Proof.
  apply iff_reflect. unfold full, no_room.
  rewrite orb_true_iff, andb_true_iff, Z.leb_le, Z.eqb_eq, Z.ltb_lt. done.
Qed.

Lemma add_value_full p k bytes :
  layout p → lowest_free p k →
  (if header_size p <=? slot_meta k then
     fsp ← get_free_space_ptr p;
     gap ← usize_sub fsp (header_size p);
     if gap <? SLOT_METADATA_SIZE then Ret true
     else
       free ← get_free_space p;
       Ret (free <=? zlen bytes + SLOT_METADATA_SIZE)
   else
     free ← get_free_space p;
     Ret (free <=? zlen bytes)) = Ret (full p k bytes).
Proof.
  intros Hly [Hk _]. pose proof (ly_len p Hly). pose proof (layout_fsp_bound p Hly).
  rewrite get_free_space_ok by (done || lia). autorewrite with page. rewrite !bind_Ret.
  rewrite checked_ok by plia. rewrite bind_Ret. unfold full, space_needed.
  assert (header_size p <=? slot_meta k = (k =? num_slots p)) as ->.
  { destruct (Z.eqb_spec k (num_slots p)); [apply Z.leb_le|apply Z.leb_gt]; plia. }
  destruct (k =? num_slots p); rewrite ?Z.add_0_r, ?orb_false_r; [|done].
  destruct (_ <? SLOT_METADATA_SIZE); simpl; by rewrite ?orb_true_r, ?orb_false_r.
Qed.

(** [add_value] picks the lowest free slot id; it refuses when there is no room, and
    stores the value otherwise. *)
Lemma add_value_ok p bytes :
  wf p → bytes ≠ [] →
  ∃ k, lowest_free p k ∧
    ((no_room p k bytes ∧ add_value p bytes = Ret (p, None)) ∨
     (¬ no_room p k bytes ∧
      ∃ p', add_value p bytes = Ret (p', Some k) ∧ added p p' k bytes)).
Proof.
  intros Hwf Hne. pose proof Hwf as [Hly Hds].
  assert (0 < zlen bytes) as Hpos by (destruct bytes; [done | unfold zlen; simpl; lia]).
  pose proof (ly_len p Hly). pose proof (layout_fsp_bound p Hly). pose proof (num_slots_bound p).
  destruct (find_next_free_slot_ok p Hly) as (k & Ek & Hk). exists k. split; [done|].
  assert (slot_meta k <? header_size p = negb (k =? num_slots p)) as Enew.
  { destruct Hk as [Hk _]. destruct (Z.eqb_spec k (num_slots p)); simpl;
      [apply Z.ltb_ge | apply Z.ltb_lt]; plia. }
  assert (∀ A (f : Z → outcome A),
    usize_sub (slot_meta k) (PAGE_FIXED_HEADER_LEN + HEAP_PAGE_FIXED_METADATA_SIZE) ≫= f =
    f (slot_meta k - (PAGE_FIXED_HEADER_LEN + HEAP_PAGE_FIXED_METADATA_SIZE))) as Erel.
  { intros A f. destruct Hk as [? _]. rewrite checked_ok; [done|].
    change (PAGE_FIXED_HEADER_LEN + HEAP_PAGE_FIXED_METADATA_SIZE) with 24. plia. }
  unfold add_value. rewrite Ek, bind_Ret, get_header_size_ok, bind_Ret by done. cbv zeta.
  rewrite (add_value_full p k bytes Hly Hk), bind_Ret.
  destruct (full_spec p k bytes) as [Hroom|Hroom]; [left; done|right; split; [done|]].
  destruct (add_value_prepare p k bytes Hwf Hk Hpos Hroom)
    as (q & Eq & Hlq & Hsq & Hz0 & Hdel & Hhdr & Hnum & Hspace & Hval & Hdb).
  rewrite Eq, bind_Ret, Erel, slot_id_of_meta by (destruct Hk; plia).
  destruct (write_value_at_slot_ok q k bytes Hlq Hsq Hz0) as (p' & E & []).
  { unfold no_room in Hroom. lia. }
  rewrite E, bind_Ret. exists p'. split; [done|]. constructor; try congruence.
  - constructor; [done|lia].
  - lia.
  - intros i Hi. by rewrite st_other0.
Qed.
