(* ===== verification/HeapPageUpdate.v ===== *)
(** * Slotted heap pages: lookup, deletion, update and iteration

    The remaining operations of [heap_page.rs] as map operations on the slots of a
    well-formed page. *)

From Stdlib Require Import Sorted.
From S2P Require Import Prelude Common HeapPage HeapPageView HeapPageSpec.

Open Scope Z_scope.
Import HeapPage.

(** ** Lookup *)

Lemma get_slot_metadata_offset_ok p i :
  layout p → 0 ≤ i < 65536 →
  get_slot_metadata_offset p i = Ret (if i <? num_slots p then slot_meta i else -1).
Proof.
  intros Hly Hi. pose proof (ly_len p Hly). unfold get_slot_metadata_offset.
  autorewrite with page. rewrite bind_Ret. rewrite Z.leb_antisym.
  destruct (i <? num_slots p); done.
Qed.

(** A live region passes the bounds check of the lookups. *)
Lemma live_in_page p i :
  layout p → live p i →
  24 ≤ slot_off p i ∧ 0 < slot_len p i ∧ slot_off p i + slot_len p i ≤ PAGE_SIZE ∧
  slot_len p i ≤ live_bytes p.
Proof.
  intros Hly Hi. pose proof (layout_fsp_bound p Hly).
  destruct (region_in _ _ (ly_regions p Hly) i Hi). pose proof (slot_len_bound p i).
  destruct Hi as [Hi Hn]. split_and!; try lia.
  unfold live_bytes. apply (sum_to_ge _ (slot_len p)); [intros; apply slot_len_bound | plia].
Qed.

Lemma value_zlen p i v : layout p → value p i = Some v → live p i ∧ zlen v = slot_len p i.
Proof.
  intros Hly E. apply value_Some in E as [Hl ->]. split; [done|].
  pose proof (live_in_page p i Hly Hl). pose proof (ly_len p Hly). apply zlen_sub; lia.
Qed.

(** The common prologue of [get_value], [delete_value] and [update_value]: out-of-range
    and free slots are refused, for live ones the body runs on the stored region. *)
Lemma with_slot_ok {A} p i (none : outcome A) (body : Z → Z → Z → outcome A) :
  layout p → 0 ≤ i < 65536 →
  (offset ← get_slot_metadata_offset p i;
   if offset <? 0 then none
   else
     '(o, l) ← read_slot p offset;
     if (l =? 0) || (PAGE_SIZE <? o + l) then none else body offset o l) =
  match value p i with
  | None => none
  | Some _ => body (slot_meta i) (slot_off p i) (slot_len p i)
  end.
Proof.
  intros Hly Hi. rewrite get_slot_metadata_offset_ok, bind_Ret by done.
  pose proof (ly_len p Hly). pose proof (layout_fsp_bound p Hly). pose proof (slot_len_bound p i).
  destruct (value p i) eqn:E.
  - apply value_Some in E as [Hl _]. pose proof (live_in_page p i Hly Hl) as (? & ? & ? & _).
    destruct Hl as [Hs ?]. rewrite (proj2 (Z.ltb_lt i (num_slots p))) by plia.
    rewrite (proj2 (Z.ltb_ge _ _)) by plia. rewrite read_slot_ok by (done || plia).
    rewrite bind_Ret, (proj2 (Z.eqb_neq _ _)), (proj2 (Z.ltb_ge _ _)) by lia. done.
  - apply value_None in E. destruct (i <? num_slots p) eqn:Ei; [|done]. apply Z.ltb_lt in Ei.
    rewrite (proj2 (Z.ltb_ge _ _)) by plia. rewrite read_slot_ok by (done || plia). rewrite bind_Ret.
    rewrite (proj2 (Z.eqb_eq (slot_len p i) 0)); [done|].
    destruct (decide (slot_len p i = 0)); [done|]. destruct E. split; [plia|done].
Qed.

Lemma get_value_ok p i : layout p → 0 ≤ i < 65536 → get_value p i = Ret (value p i).
Proof.
  intros Hly Hi. unfold get_value. erewrite (with_slot_ok p i (Ret None)) by done. cbv beta.
  destruct (value p i) eqn:E; [|done]. apply value_Some in E as [Hl ->].
  pose proof (live_in_page p i Hly Hl) as (? & ? & ? & _). pose proof (ly_len p Hly).
  rewrite slice_ok by lia. rewrite bind_Ret. by replace (_ + _ - _) with (slot_len p i) by lia.
Qed.

(** ** Giving a region back *)

(** The effect of emptying the live slot [k]. *)
Record freed (p p' : Page) (k : Z) : Prop := {
  fr_layout : layout p';
  fr_hdr : sub p' 0 16 = sub p 0 16;
  fr_num : num_slots p' = num_slots p;
  fr_len : slot_len p' k = 0;
  fr_dels : del_slots p' = del_slots p;
  fr_free : free_slots p' = free_slots p + 1;
  fr_space : free_space p' = free_space p + slot_len p k;
  fr_other : ∀ i, i ≠ k → value p' i = value p i;
  fr_holes : del_bytes p' ≤ del_bytes p + slot_len p k
}.

Section Free.
Context (p : Page) (k : Z) (Hly : layout p) (Hk : live p k).

Let o := slot_off p k.
Let l := slot_len p k.
Let q1 := splice p o (replicate (Z.to_nat (o + l - o)) Byte.x00).
Let q2 := put_u16 q1 (slot_meta k + 2) 0.

Local Ltac facts :=
  pose proof (ly_len p Hly); pose proof (layout_fsp_bound p Hly);
  pose proof (live_in_page p k Hly Hk) as (? & ? & ? & ?);
  pose proof (region_in _ _ (ly_regions p Hly) k Hk); pose proof (proj1 Hk);
  assert (zlen (replicate (Z.to_nat (o + l - o)) Byte.x00) = l)
    by (rewrite zlen_replicate; subst o l; lia).

Local Lemma free_zlen : zlen q1 = PAGE_SIZE ∧ zlen q2 = PAGE_SIZE.
Proof.
  facts. assert (zlen q1 = PAGE_SIZE) by (subst q1; rewrite zlen_splice; subst o l; plia).
  split; [done|]. subst q2. rewrite zlen_put; plia.
Qed.

Local Lemma free_sub a n :
  0 ≤ a → 0 ≤ n → a + n ≤ o ∨ o + l ≤ a → a + n ≤ slot_meta k + 2 ∨ slot_meta k + 4 ≤ a →
  sub q2 a n = sub p a n.
Proof.
  intros. facts. destruct free_zlen. subst q2. rewrite sub_put_other by plia.
  subst q1. apply sub_splice_disjoint; subst o l; plia.
Qed.

Local Lemma free_slots_same i :
  is_slot p i → slot_off q2 i = slot_off p i ∧ (i ≠ k → slot_len q2 i = slot_len p i).
Proof.
  intros. facts. unfold slot_off, slot_len, u16_at.
  split; [|intros]; rewrite free_sub by (subst o l; plia); done.
Qed.

Local Lemma free_len : slot_len q2 k = 0.
Proof. facts. destruct free_zlen. apply u16_put_same; plia. Qed.

Local Lemma free_others i : live p i → i ≠ k →
  sub q2 (slot_off p i) (slot_len p i) = sub p (slot_off p i) (slot_len p i).
Proof.
  intros Hi Hne. facts. destruct (region_in _ _ (ly_regions p Hly) i Hi).
  pose proof (slot_len_bound p i).
  destruct (region_disj _ _ (ly_regions p Hly) i k Hi Hk Hne); apply free_sub; subst o l; plia.
Qed.

(** The slots after emptying, before the space is accounted for. *)
Local Lemma free_slots_view :
  num_slots q2 = num_slots p ∧ fsp q2 = fsp p ∧ del_bytes q2 = del_bytes p ∧
  del_slots q2 = del_slots p ∧ sub q2 0 16 = sub p 0 16 ∧
  live_bytes q2 = live_bytes p - l ∧ free_slots q2 = free_slots p + 1 ∧
  (∀ i, i ≠ k → value q2 i = value p i).
Proof.
  facts. pose proof free_len as E0.
  assert (num_slots q2 = num_slots p) as Hn
    by (unfold num_slots, u16_at; by rewrite free_sub by (subst o l; plia)).
  assert (∀ i, is_slot p i → i ≠ k → slot_off q2 i = slot_off p i) as Ho
    by (intros; by apply free_slots_same).
  assert (∀ i, is_slot p i → i ≠ k → slot_len q2 i = slot_len p i) as Hl
    by (intros; by apply free_slots_same).
  unfold fsp, del_bytes, del_slots, u16_at. rewrite !free_sub by (subst o l; plia).
  split_and!; try done.
  - rewrite (live_bytes_change p q2 k), E0 by done. subst l. lia.
  - rewrite (free_slots_change p q2 k), E0 by done. simpl.
    rewrite (proj2 (Z.eqb_neq (slot_len p k) 0)) by lia. lia.
  - intros i Hne. apply (value_other p q2 k); try done. intros. by apply free_others.
Qed.

Local Lemma free_regions lo :
  (∀ i, live p i → i ≠ k → lo ≤ slot_off p i) → regions_ok q2 lo.
Proof.
  intros. facts. apply (regions_change p q2 k) with (lo := fsp p); try done.
  - apply free_slots_view.
  - intros. by apply free_slots_same.
  - intros. by apply free_slots_same.
  - apply Hly.
  - by rewrite free_len.
Qed.

Local Lemma reclaim_ok : ∃ p', reclaim q2 o l = Ret p' ∧ freed p p' k.
Proof.
  facts. destruct free_zlen as [_ Hz].
  destruct free_slots_view as (Hn & Hf & Hdb & Hds & Hh & Hlb & Hfs & Hv).
  pose proof (del_bytes_bound p). pose proof (live_bytes_nonneg q2). pose proof (ly_bytes p Hly).
  assert (header_size q2 = header_size p) as Hhs by (unfold header_size; by rewrite Hn).
  assert (∃ a v lo, reclaim q2 o l = Ret (put_u16 q2 a v) ∧ regions_ok q2 lo ∧
    0 ≤ v < 65536 ∧ fsp p ≤ lo ∧
    (a = 18 ∧ v = lo ∧ o = fsp p ∧ lo = o + l ∨ a = 20 ∧ v = del_bytes p + l ∧ lo = fsp p))
    as (a & v & lo & -> & Hr & Hv' & Hlo & Ha).
  { unfold reclaim. autorewrite with page. rewrite bind_Ret, Hf.
    destruct (o =? fsp p) eqn:E.
    - apply Z.eqb_eq in E. exists 18, (o + l), (o + l).
      rewrite cast_small by (subst o l; plia). split_and!; try (subst o l; plia); [done|].
      apply free_regions. intros i Hi Hne.
      destruct (region_in _ _ (ly_regions p Hly) i Hi). destruct (live_in_page p i Hly Hi).
      destruct (region_disj _ _ (ly_regions p Hly) i k Hi Hk Hne); subst o l; lia.
    - exists 20, (del_bytes p + l), (fsp p). rewrite bind_Ret, Hdb.
      rewrite cast_small by (subst o l; plia). rewrite checked_ok by (subst o l; plia).
      rewrite bind_Ret. split_and!; try (subst o l; plia); [by apply set_deleted_bytes_ok|].
      apply free_regions. intros i Hi _. by apply (region_in _ _ (ly_regions p Hly)). }
  destruct (put_header q2 a v lo) as (Hss & Hz' & Hh'); [done|lia|lia|done|lia|].
  eexists. split; [done|]. set (q3 := put_u16 q2 a v) in *.
  assert (fsp q3 = lo ∧ del_bytes q3 = del_bytes p + (if a =? 20 then l else 0)) as [Ef Ed].
  { destruct Ha as [(-> & -> & _)|(-> & -> & ->)]; subst q3; split.
    - apply u16_put_same; plia.
    - rewrite Z.add_0_r, <-Hdb. apply u16_put_other; plia.
    - rewrite <-Hf. apply u16_put_other; plia.
    - change (20 =? 20) with true; cbv iota; apply u16_put_same; plia. }
  assert (del_slots q3 = del_slots p) as Eds
    by (subst q3; unfold del_slots; rewrite u16_put_other by plia; done).
  pose proof (same_slots_bytes _ _ Hss). pose proof (same_slots_free _ _ Hss).
  pose proof Hss as [Hn' _ Hl' Hv3].
  assert (header_size q3 = header_size p) as Eh by (unfold header_size; by rewrite Hn', Hn).
  assert (a = 18 ∧ (a =? 20) = false ∧ lo = fsp p + l ∨ a = 20 ∧ (a =? 20) = true ∧ lo = fsp p) as Ha'
    by (destruct Ha as [(-> & ?)|(-> & ?)]; [left|right]; split_and!; try done; lia).
  constructor; try congruence.
  - constructor; [done| | |].
    + subst o l. lia.
    + rewrite Ef. by apply (same_slots_regions q2).
    + destruct (a =? 20); lia.
  - rewrite Hl' by (unfold is_slot in *; by rewrite Hn). apply free_len.
  - unfold free_space. subst l. destruct (a =? 20); lia.
  - intros. rewrite Hv3. by apply Hv.
  - rewrite Ed. subst l. destruct (a =? 20); lia.
Qed.

Lemma free_slot_ok {A} (cont : Page → outcome A) :
  ∃ p', (p ← fill p o (o + l) Byte.x00;
         p ← write_u16 p (slot_meta k + OFFSET_NUM_BYTES) 0;
         p ← reclaim p o l; cont p) = cont p' ∧ freed p p' k.
Proof.
  facts. destruct free_zlen. destruct reclaim_ok as (p' & E & Hf). exists p'. split; [|done].
  rewrite fill_ok, bind_Ret by (subst o l; lia). change OFFSET_NUM_BYTES with 2.
  rewrite write_u16_put, bind_Ret by (fold q1; plia). fold q1. fold q2. by rewrite E, bind_Ret.
Qed.
End Free.

(** ** Deletion *)

(** Nothing but the value of slot [k] changed, and the free space by [delta]; the holes
    between the values grew at most by the old value. *)
Record changed (p p' : Page) (k : Z) (v : option (list byte)) (delta : Z) : Prop := {
  ch_wf : wf p';
  ch_hdr : sub p' 0 16 = sub p 0 16;
  ch_num : num_slots p' = num_slots p;
  ch_space : free_space p' = free_space p + delta;
  ch_value : value p' k = v;
  ch_other : ∀ i, i ≠ k → value p' i = value p i;
  ch_holes : del_bytes p' ≤ del_bytes p + slot_len p k
}.

Lemma delete_value_ok p i :
  wf p → 0 ≤ i < 65536 →
  match value p i with
  | None => delete_value p i = Ret (p, None)
  | Some v => ∃ p', delete_value p i = Ret (p', Some tt) ∧ changed p p' i None (zlen v)
  end.
Proof.
  intros [Hly Hds] Hi. unfold delete_value.
  erewrite (with_slot_ok p i (Ret (p, None))) by done. cbv beta.
  destruct (value p i) as [v|] eqn:E; [|done].
  destruct (value_zlen p i v Hly E) as [Hl ->].
  match goal with |- context [p1 ← fill _ _ _ _; p2 ← write_u16 p1 _ _; p3 ← reclaim p2 _ _; @?K p3] =>
    destruct (free_slot_ok p i Hly Hl K) as (q & -> & [Hlq ? Hn Hz0 ? Hf ? Ho]) end.
  pose proof (ly_len q Hlq). pose proof (num_slots_bound p). pose proof (free_slots_bound q).
  autorewrite with page. rewrite bind_Ret, checked_ok, bind_Ret by lia.
  autorewrite with page. rewrite bind_Ret.
  destruct (put_del_slots q (del_slots q + 1)) as (? & ? & [Hn' _ _ Hv] & ? & ? & ? & ?); [done|lia|].
  eexists. split; [done|]. constructor; try congruence; try lia.
  - constructor; [done|lia].
  - rewrite Hv. apply value_None. by intros [_ ?].
  - intros. rewrite Hv. by apply Ho.
Qed.

(** ** Update *)

Section Shrink.
Context (p : Page) (k : Z) (bytes : list byte) (Hly : layout p) (Hk : live p k).
Context (Hpos : 0 < zlen bytes) (Hfit : zlen bytes ≤ slot_len p k).

Let o := slot_off p k.
Let l := slot_len p k.
Let q0 := splice p o (replicate (Z.to_nat (o + l - o)) Byte.x00).
Let q1 := splice q0 o bytes.
Let q2 := put_u16 q1 (slot_meta k + 2) (zlen bytes).

Local Ltac facts :=
  pose proof (ly_len p Hly); pose proof (layout_fsp_bound p Hly);
  pose proof (live_in_page p k Hly Hk) as (? & ? & ? & ?);
  pose proof (region_in _ _ (ly_regions p Hly) k Hk); pose proof (proj1 Hk);
  pose proof (slot_len_bound p k);
  assert (zlen (replicate (Z.to_nat (o + l - o)) Byte.x00) = l)
    by (rewrite zlen_replicate; subst o l; lia).

Local Lemma shrink_zlen : zlen q0 = PAGE_SIZE ∧ zlen q1 = PAGE_SIZE ∧ zlen q2 = PAGE_SIZE.
Proof.
  facts. assert (zlen q0 = PAGE_SIZE) by (subst q0; rewrite zlen_splice; subst o l; plia).
  assert (zlen q1 = PAGE_SIZE) by (subst q1; rewrite zlen_splice; subst o l; plia).
  split_and!; [done..|]. subst q2. rewrite zlen_put; plia.
Qed.

Local Lemma shrink_sub a n :
  0 ≤ a → 0 ≤ n → a + n ≤ o ∨ o + l ≤ a → a + n ≤ slot_meta k + 2 ∨ slot_meta k + 4 ≤ a →
  sub q2 a n = sub p a n.
Proof.
  intros. facts. destruct shrink_zlen as (? & ? & ?). subst q2. rewrite sub_put_other by plia.
  subst q1. rewrite sub_splice_disjoint by (subst o l; plia).
  subst q0. apply sub_splice_disjoint; subst o l; plia.
Qed.

Local Lemma shrink_slot :
  slot_off q2 k = o ∧ slot_len q2 k = zlen bytes ∧ sub q2 o (zlen bytes) = bytes.
Proof.
  facts. destruct shrink_zlen as (? & ? & ?). split_and!.
  - unfold slot_off, u16_at. rewrite shrink_sub by (subst o l; plia). done.
  - apply u16_put_same; plia.
  - subst q2. rewrite sub_put_other by (subst o l; plia). apply sub_splice_same; subst o l; plia.
Qed.

Local Lemma shrink_others i : is_slot p i → i ≠ k →
  slot_off q2 i = slot_off p i ∧ slot_len q2 i = slot_len p i.
Proof.
  intros. facts. unfold slot_off, slot_len, u16_at. rewrite !shrink_sub by (subst o l; plia). done.
Qed.

Local Lemma shrink_view :
  num_slots q2 = num_slots p ∧ fsp q2 = fsp p ∧ del_bytes q2 = del_bytes p ∧
  del_slots q2 = del_slots p ∧ sub q2 0 16 = sub p 0 16 ∧
  live_bytes q2 = live_bytes p - l + zlen bytes ∧ free_slots q2 = free_slots p ∧
  value q2 k = Some bytes ∧ (∀ i, i ≠ k → value q2 i = value p i) ∧ regions_ok q2 (fsp p).
Proof.
  facts. destruct shrink_slot as (Ho & Hl & Hs).
  assert (num_slots q2 = num_slots p) as Hn
    by (unfold num_slots, u16_at; by rewrite shrink_sub by (subst o l; plia)).
  assert (∀ i, is_slot p i → i ≠ k → slot_off q2 i = slot_off p i) as Ho'
    by (intros; by apply shrink_others).
  assert (∀ i, is_slot p i → i ≠ k → slot_len q2 i = slot_len p i) as Hl'
    by (intros; by apply shrink_others).
  unfold fsp, del_bytes, del_slots, u16_at. rewrite !shrink_sub by (subst o l; plia).
  split_and!; try done.
  - rewrite (live_bytes_change p q2 k), Hl by done. subst l. lia.
  - rewrite (free_slots_change p q2 k), Hl by done.
    rewrite !(proj2 (Z.eqb_neq _ 0)) by lia. lia.
  - apply value_Some. split; [split; [unfold is_slot in *; by rewrite Hn | lia]|].
    by rewrite Ho, Hl, Hs.
  - intros i Hne. apply (value_other p q2 k); try done. intros Hi.
    destruct (region_in _ _ (ly_regions p Hly) i Hi). pose proof (slot_len_bound p i).
    destruct (region_disj _ _ (ly_regions p Hly) i k Hi Hk Hne); apply shrink_sub; subst o l; plia.
  - fold (u16_at p 18). fold (fsp p). apply (regions_change p q2 k) with (lo := fsp p); try done; [apply Hly| |].
    + intros i Hi _. by apply (region_in _ _ (ly_regions p Hly)).
    + intros _. rewrite Ho, Hl. split_and!; [subst o l; lia..|]. intros i Hi Hne.
      destruct (region_disj _ _ (ly_regions p Hly) i k Hi Hk Hne); subst o l; lia.
Qed.

(** The bytes no longer used count as deleted. *)
Local Lemma shrink_waste :
  ∃ q3, (if 0 <? l - zlen bytes then
           del ← get_deleted_bytes q2;
           del ← u16_add del (as_u16 (l - zlen bytes));
           set_deleted_bytes q2 del
         else Ret q2) = Ret q3 ∧ zlen q3 = PAGE_SIZE ∧ same_slots q2 q3 ∧
    sub q3 0 16 = sub q2 0 16 ∧ fsp q3 = fsp q2 ∧ del_slots q3 = del_slots q2 ∧
    del_bytes q3 = del_bytes p + (l - zlen bytes).
Proof.
  facts. destruct shrink_zlen as (? & ? & ?).
  destruct shrink_view as (Hn & Hf & Hdb & _ & _ & Hlb & _ & _ & _ & Hr).
  pose proof (del_bytes_bound p). pose proof (ly_bytes p Hly). pose proof (live_bytes_nonneg q2).
  assert (header_size q2 = header_size p) as Hhs by (unfold header_size; by rewrite Hn).
  set (d := del_bytes p + (l - zlen bytes)).
  destruct (0 <? l - zlen bytes) eqn:E.
  - apply Z.ltb_lt in E. rewrite cast_small by (subst l; lia). autorewrite with page.
    rewrite bind_Ret, Hdb, checked_ok, bind_Ret by (subst l; plia). fold d.
    destruct (put_header q2 20 d (fsp p)) as (? & ? & ?); [done|auto|lia|done|lia|].
    eexists. split; [by apply set_deleted_bytes_ok|]. split_and!; try done.
    + apply u16_put_other; plia.
    + apply u16_put_other; plia.
    + apply u16_put_same; subst d l; plia.
  - apply Z.ltb_ge in E. exists q2. split_and!; try done; subst d l; lia.
Qed.

(** Overwriting in place. *)
Lemma shrink_ok :
  del_slots p = free_slots p →
  ∃ p', (p ← fill p o (o + l) Byte.x00;
         p ← copy_from_slice p o (o + zlen bytes) bytes;
         p ← write_u16 p (slot_meta k + OFFSET_NUM_BYTES) (as_u16 (zlen bytes));
         waste ← usize_sub l (zlen bytes);
         p ← (if 0 <? waste then
                del ← get_deleted_bytes p;
                del ← u16_add del (as_u16 waste);
                set_deleted_bytes p del
              else Ret p);
         Ret (p, Some tt)) = Ret (p', Some tt) ∧
    changed p p' k (Some bytes) (l - zlen bytes).
Proof.
  intros Hwf. facts. destruct shrink_zlen as (? & ? & ?).
  destruct shrink_view as (Hn & Hf & Hdb & Hds & Hh & Hlb & Hfs & Hv & Hvo & Hr).
  rewrite fill_ok, bind_Ret by (subst o l; lia). fold q0.
  rewrite copy_from_slice_ok, bind_Ret by (subst o l; lia). fold q1. change OFFSET_NUM_BYTES with 2.
  rewrite cast_small by plia. rewrite write_u16_put, bind_Ret by plia. fold q2.
  rewrite checked_ok, bind_Ret by (subst l; plia).
  destruct shrink_waste as (q3 & -> & Hz3 & Hss & Hh3 & Hf3 & Hds3 & Hdb3).
  rewrite bind_Ret. exists q3. split; [done|]. pose proof (ly_bytes p Hly).
  pose proof (same_slots_bytes _ _ Hss). pose proof (same_slots_free _ _ Hss).
  pose proof Hss as [Hn3 _ _ Hv3].
  assert (header_size q3 = header_size p) as Hhs3 by (unfold header_size; by rewrite Hn3, Hn).
  constructor; try congruence.
  - constructor; [|congruence]. constructor; [done|lia| |lia].
    rewrite Hf3, Hf. by apply (same_slots_regions q2).
  - unfold free_space. lia.
  - intros. rewrite Hv3. by apply Hvo.
  - rewrite Hdb3. subst l. lia.
Qed.
End Shrink.

Lemma update_value_ok p i bytes :
  wf p → 0 ≤ i < 65536 → bytes ≠ [] →
  match value p i with
  | None => update_value p i bytes = Ret (p, None)
  | Some v =>
      if (zlen bytes <=? zlen v) || (zlen bytes <? free_space p + zlen v) then
        ∃ p', update_value p i bytes = Ret (p', Some tt) ∧
              changed p p' i (Some bytes) (zlen v - zlen bytes)
      else update_value p i bytes = Ret (p, None)
  end.
Proof.
  intros [Hly Hds] Hi Hne. pose proof (ly_len p Hly). pose proof (layout_fsp_bound p Hly).
  assert (0 < zlen bytes) as Hpos by (destruct bytes; [done | unfold zlen; simpl; lia]).
  unfold update_value. erewrite (with_slot_ok p i (Ret (p, None))) by done. cbv beta.
  destruct (value p i) as [v|] eqn:E; [|done].
  destruct (value_zlen p i v Hly E) as [Hl ->].
  destruct (zlen bytes <=? slot_len p i) eqn:Efit.
  - apply Z.leb_le in Efit. by apply shrink_ok.
  - apply Z.leb_gt in Efit. rewrite get_free_space_ok, bind_Ret by (done || lia).
    rewrite Z.leb_antisym. simpl. destruct (_ <? _) eqn:Eroom; [|done]. apply Z.ltb_lt in Eroom. simpl.
    match goal with |- context [p1 ← fill _ _ _ _; p2 ← write_u16 p1 _ _; p3 ← reclaim p2 _ _; @?K p3] =>
      destruct (free_slot_ok p i Hly Hl K) as (q & -> & [Hlq ? Hn Hz0 ? Hf ? Ho]) end.
    destruct (write_value_at_slot_ok q i bytes) as (p' & -> & []); try done; [|lia|].
    { destruct Hl. unfold is_slot in *. by rewrite Hn. }
    exists p'. split; [done|]. constructor; try congruence; try lia.
    + constructor; [done|lia].
    + intros j Hj. by rewrite st_other, Ho.
Qed.

(** ** Iteration *)

(** The values of the slots from [c] on, in slot order. *)
Definition entries (p : Page) (c : Z) : list (list byte * Z) :=
  omap (λ i, v ← value p i; Some (v, i)) (seqZ c (num_slots p - c)).

Lemma entries_end p : entries p (num_slots p) = [].
Proof. unfold entries. by rewrite Z.sub_diag. Qed.

Lemma entries_step p c :
  c < num_slots p →
  entries p c = match value p c with Some v => (v, c) :: entries p (c + 1) | None => entries p (c + 1) end.
Proof.
  intros. unfold entries. rewrite seqZ_cons by lia. cbn [omap list_omap].
  replace (Z.succ c) with (c + 1) by lia.
  replace (Z.pred (num_slots p - c)) with (num_slots p - (c + 1)) by lia.
  by destruct (value p c).
Qed.

Lemma elem_of_entries p v i : (v, i) ∈ entries p 0 ↔ value p i = Some v.
Proof.
  unfold entries. rewrite list_elem_of_omap. split.
  - intros (j & _ & E). destruct (value p j) eqn:Ev; simplify_eq/=. done.
  - intros E. exists i. rewrite E. split; [|done]. apply value_Some in E as [[] _].
    rewrite elem_of_seqZ. plia.
Qed.

Lemma entries_sorted p c :
  0 ≤ c ≤ num_slots p →
  StronglySorted Z.lt (entries p c).*2 ∧ Forall (λ i, c ≤ i) (entries p c).*2.
Proof.
  intros Hc. remember (Z.to_nat (num_slots p - c)) as n eqn:En. revert c Hc En.
  induction n as [|n IH]; intros c Hc En.
  - assert (c = num_slots p) as -> by lia. rewrite entries_end. by repeat constructor.
  - destruct (IH (c + 1)) as [Hs Hf]; [lia..|]. rewrite entries_step by lia.
    assert (∀ d, d ≤ c + 1 → Forall (λ i, d ≤ i) (entries p (c + 1)).*2) as Hd
      by (intros; eapply Forall_impl; [done|simpl; lia]).
    destruct (value p c); [|split; [done|apply Hd; lia]]. split; constructor; simpl; try done; try lia.
    + eapply Forall_impl; [apply (Hd (c + 1)); lia|simpl; lia].
    + apply Hd. lia.
Qed.

Section Iterate.
Context (p : Page) (Hly : layout p).

Lemma next_loop_ok fuel c :
  0 ≤ c ≤ num_slots p → num_slots p - c < Z.of_nat fuel →
  ∃ c' r, next_loop fuel (num_slots p) (mkIter p c) = Ret (mkIter p c', r) ∧
    match r with
    | Some x => c < c' ≤ num_slots p ∧ entries p c = x :: entries p c'
    | None => c' = num_slots p ∧ entries p c = []
    end.
Proof.
  pose proof (num_slots_bound p). revert c.
  induction fuel as [|fuel IH]; intros c Hc Hf; [lia|]. cbn [next_loop current_slot iter_page].
  destruct (c <? num_slots p) eqn:E.
  - apply Z.ltb_lt in E. rewrite checked_ok, bind_Ret by lia. cbv zeta. cbn [iter_page].
    rewrite get_value_ok, bind_Ret by (done || lia). rewrite entries_step by done.
    destruct (value p c) as [v|].
    + exists (c + 1), (Some (v, c)). split; [done|]. split; [lia|done].
    + destruct (IH (c + 1)) as (c' & r & -> & Hr); [lia..|]. exists c', r. split; [done|].
      destruct r; intuition lia.
  - apply Z.ltb_ge in E. assert (c = num_slots p) as -> by lia.
    exists (num_slots p), None. by rewrite entries_end.
Qed.

Lemma drain_ok fuel c :
  0 ≤ c ≤ num_slots p → num_slots p - c < Z.of_nat fuel →
  drain fuel (mkIter p c) = Ret (entries p c).
Proof.
  pose proof (ly_len p Hly). revert c.
  induction fuel as [|fuel IH]; intros c Hc Hf; [lia|]. cbn [drain]. unfold next.
  cbn [current_slot iter_page]. rewrite get_num_slots_ok, bind_Ret by done.
  destruct (next_loop_ok (S (Z.to_nat (num_slots p - c))) c) as (c' & r & -> & Hr); [lia..|].
  rewrite bind_Ret. destruct r as [x|].
  - destruct Hr as [? ->]. rewrite IH by lia. done.
  - by destruct Hr as [_ ->].
Qed.
End Iterate.

Lemma iter_all_ok p : layout p → iter_all p = Ret (entries p 0).
Proof.
  intros Hly. pose proof (num_slots_bound p). unfold iter_all, iter.
  rewrite get_num_slots_ok, bind_Ret by apply Hly. apply drain_ok; [done|lia..].
Qed.
