(* ===== verification/HeapPageContract.v ===== *)
(** * Slotted heap pages: the contract

    What a heap page promises to the heap file, stated on the operations of
    [heap_page.rs] alone: the behaviour of each of them in terms of what [get_value]
    returns afterwards, and a refinement theorem for every sequence of operations on a
    fresh page against a map from slot ids to values. *)

From Stdlib Require Import Sorted.
From stdpp Require Import gmap.
From S2P Require Import Prelude Common HeapPage HeapPageView HeapPageSpec.
From S2P Require Import HeapPageUpdate.

Open Scope Z_scope.
Import HeapPage.

(** ** Fresh pages *)

(** Initialisation only sets the free-space pointer: it relies on a zeroed header. *)
Lemma init_heap_page_ok p :
  zlen p = PAGE_SIZE → num_slots p = 0 → del_bytes p = 0 → del_slots p = 0 →
  ∃ p', init_heap_page p = Ret p' ∧ wf p' ∧ num_slots p' = 0 ∧ fsp p' = PAGE_SIZE ∧
    free_space p' = 4072 ∧ sub p' 0 16 = sub p 0 16.
Proof.
  intros Hlen Hn Hd Hs. unfold init_heap_page. rewrite set_free_space_ptr_ok by done.
  eexists. split; [done|]. set (q := put_u16 p 18 (as_u16 PAGE_SIZE)).
  assert (zlen q = PAGE_SIZE) by (subst q; rewrite zlen_put; plia).
  assert (num_slots q = 0 ∧ del_bytes q = 0 ∧ del_slots q = 0) as (En & Ed & Es).
  { subst q. unfold num_slots, del_bytes, del_slots in *. rewrite !u16_put_other by plia. done. }
  assert (fsp q = PAGE_SIZE) as Ef by (apply u16_put_same; plia).
  assert (∀ i, ¬ live q i) as Hl by (unfold live, is_slot; lia).
  split_and!; [|done|done| |apply sub_put_other; plia].
  - constructor; [constructor|].
    + done.
    + rewrite Ef. unfold header_size. rewrite En. done.
    + split; intros; exfalso; by eapply Hl.
    + unfold live_bytes. rewrite En, Ed, Ef. done.
    + unfold free_slots. by rewrite En.
  - unfold free_space, header_size. by rewrite Ef, En, Ed.
Qed.

Lemma new_ok id : Pages.new id = Ret (le_split 4 id ++ zeroes 4092).
Proof.
  pose proof (length_le_split 4 id) as E. unfold Pages.new.
  revert E. generalize (le_split 4 id) as l. intros l E.
  do 4 (destruct l as [|? l]; [done|]). destruct l; [|done]. vm_compute. reflexivity.
Qed.

(** Formatting a page that is zeroes but for its id. *)
Lemma init_blank id :
  ∃ p, init_heap_page (le_split 4 id ++ zeroes 4092) = Ret p ∧ wf p ∧ num_slots p = 0 ∧
    fsp p = PAGE_SIZE ∧ free_space p = 4072 ∧ sub p 0 16 = le_split 4 id ++ zeroes 12.
Proof.
  pose proof (length_le_split 4 id) as E. revert E. generalize (le_split 4 id) as l. intros l E.
  do 4 (destruct l as [|? l]; [done|]). destruct l; [|done].
  destruct (init_heap_page_ok ([b; b0; b1; b2] ++ zeroes 4092)) as (p & ? & ? & ? & ? & ? & Eh);
    [by vm_compute..|].
  exists p. split_and!; try done.
Qed.

(** [HeapPage::init_heap_page] on [Page::new(id)]. *)
Definition fresh (id : Z) : outcome Page := p ← Pages.new id; init_heap_page p.

Lemma fresh_ok id :
  ∃ p, fresh id = Ret p ∧ wf p ∧ num_slots p = 0 ∧ fsp p = PAGE_SIZE ∧
    free_space p = 4072 ∧ sub p 0 16 = le_split 4 id ++ zeroes 12.
Proof. unfold fresh. rewrite new_ok, bind_Ret. apply init_blank. Qed.

(** The first insertion into a fresh page: refused exactly when the value has 4068
    bytes or more. *)
Lemma fresh_room p k bytes :
  num_slots p = 0 → fsp p = PAGE_SIZE → free_space p = 4072 → lowest_free p k →
  k = 0 ∧ (no_room p k bytes ↔ 4068 ≤ zlen bytes).
Proof.
  intros Hn Hf Hsp [Hk _]. assert (k = 0) as -> by lia. split; [done|].
  unfold no_room, space_needed, header_size, slot_meta. rewrite Hn, Hsp, Hf. simpl.
  unfold SLOT_METADATA_SIZE, PAGE_SIZE. lia.
Qed.

(** ** Each operation in terms of the others *)

(** C30: on a well-formed page and a non-empty value, [add_value] never panics. It
    refuses, leaving the page as it was, when the value (and the metadata of a slot
    it has to add) takes all of [get_free_space] or more, or when a new slot is needed
    and the header cannot grow. Otherwise it returns the lowest free slot id, from
    which [get_value] then reads the value back while all other slots read as before;
    the page stays well-formed and its free space shrinks by exactly what was taken. *)
Theorem add_value_correct p bytes :
  wf p → bytes ≠ [] →
  ∃ k free, lowest_free p k ∧ get_free_space p = Ret free ∧
    ((no_room p k bytes ∧ add_value p bytes = Ret (p, None)) ∨
     (¬ no_room p k bytes ∧ ∃ p', add_value p bytes = Ret (p', Some k) ∧ wf p' ∧
        get_value p k = Ret None ∧ get_value p' k = Ret (Some bytes) ∧
        (∀ j, 0 ≤ j < 65536 → j ≠ k → get_value p' j = get_value p j) ∧
        get_free_space p' = Ret (free - space_needed p k bytes))).
Proof.
  intros Hwf Hne. pose proof (wf_layout p Hwf) as Hly. pose proof (layout_fsp_bound p Hly).
  destruct (add_value_ok p bytes Hwf Hne) as (k & Hk & Hcase). exists k, (free_space p).
  split; [done|]. split; [apply get_free_space_ok; [apply Hly|lia]|].
  destruct Hcase as [?|(Hroom & p' & E & [Hwf' ? Hn Hsp Hv Ho])]; [by left|].
  right. split; [done|]. exists p'. pose proof (wf_layout p' Hwf') as Hly'.
  pose proof (layout_fsp_bound p' Hly'). pose proof (num_slots_bound p').
  destruct Hk as (? & _ & Hfree). split_and!; try done.
  - rewrite get_value_ok by (done || lia). f_equal. apply value_None.
    intros [? Hl]. apply Hl, Hfree. plia.
  - rewrite get_value_ok by (done || lia). by rewrite Hv.
  - intros. rewrite !get_value_ok by done. by rewrite Ho.
  - rewrite get_free_space_ok by (try apply Hly'; lia). by rewrite Hsp.
Qed.

(** On a well-formed page [delete_value] of a slot [get_value] finds makes
    [get_value] return [None] for it and gives its bytes back to the free space; of any
    other slot id it returns [None] and leaves the page as it was. No other slot reads
    differently, it never panics, and the page stays well-formed. *)
Theorem delete_value_correct p i :
  wf p → 0 ≤ i < 65536 →
  ∃ r free, get_value p i = Ret r ∧ get_free_space p = Ret free ∧
    match r with
    | None => delete_value p i = Ret (p, None)
    | Some v => ∃ p', delete_value p i = Ret (p', Some tt) ∧ wf p' ∧
        get_value p' i = Ret None ∧
        (∀ j, 0 ≤ j < 65536 → j ≠ i → get_value p' j = get_value p j) ∧
        get_free_space p' = Ret (free + zlen v)
    end.
Proof.
  intros Hwf Hi. pose proof (wf_layout p Hwf) as Hly. pose proof (layout_fsp_bound p Hly).
  exists (value p i), (free_space p). split; [by apply get_value_ok|].
  split; [apply get_free_space_ok; [apply Hly|lia]|].
  pose proof (delete_value_ok p i Hwf Hi) as Hd. destruct (value p i) as [v|]; [|done].
  destruct Hd as (p' & E & [Hwf' ? Hn Hsp Hv Ho]). exists p'.
  pose proof (wf_layout p' Hwf') as Hly'. pose proof (layout_fsp_bound p' Hly').
  split_and!; try done.
  - rewrite get_value_ok by done. by rewrite Hv.
  - intros. rewrite !get_value_ok by done. by rewrite Ho.
  - rewrite get_free_space_ok by (try apply Hly'; lia). by rewrite Hsp.
Qed.

(** On a well-formed page and a non-empty value, [update_value] of a live slot
    stores the value there when it is no longer than the old one or fits in the free
    space once the old one is given back; when it does not fit, or the slot is not
    live, it returns [None] and leaves the page as it was. No other slot reads
    differently, it never panics, and the page stays well-formed. *)
Theorem update_value_correct p i bytes :
  wf p → 0 ≤ i < 65536 → bytes ≠ [] →
  ∃ r free, get_value p i = Ret r ∧ get_free_space p = Ret free ∧
    match r with
    | None => update_value p i bytes = Ret (p, None)
    | Some v =>
        if (zlen bytes <=? zlen v) || (zlen bytes <? free + zlen v) then
          ∃ p', update_value p i bytes = Ret (p', Some tt) ∧ wf p' ∧
            get_value p' i = Ret (Some bytes) ∧
            (∀ j, 0 ≤ j < 65536 → j ≠ i → get_value p' j = get_value p j) ∧
            get_free_space p' = Ret (free + zlen v - zlen bytes)
        else update_value p i bytes = Ret (p, None)
    end.
Proof.
  intros Hwf Hi Hne. pose proof (wf_layout p Hwf) as Hly. pose proof (layout_fsp_bound p Hly).
  exists (value p i), (free_space p). split; [by apply get_value_ok|].
  split; [apply get_free_space_ok; [apply Hly|lia]|].
  pose proof (update_value_ok p i bytes Hwf Hi Hne) as Hu. destruct (value p i) as [v|]; [|done].
  destruct (_ || _); [|done].
  destruct Hu as (p' & E & [Hwf' ? Hn Hsp Hv Ho]). exists p'.
  pose proof (wf_layout p' Hwf') as Hly'. pose proof (layout_fsp_bound p' Hly').
  split_and!; try done.
  - rewrite get_value_ok by done. by rewrite Hv.
  - intros. rewrite !get_value_ok by done. by rewrite Ho.
  - rewrite get_free_space_ok by (try apply Hly'; lia). rewrite Hsp. f_equal. lia.
Qed.

(** Iterating over a well-formed page terminates and yields exactly the slots that
    [get_value] finds, each once, in increasing slot order, with its bytes. *)
Theorem iter_correct p :
  wf p →
  ∃ l, iter_all p = Ret l ∧ StronglySorted Z.lt l.*2 ∧
    ∀ v i, (v, i) ∈ l ↔ 0 ≤ i < 65536 ∧ get_value p i = Ret (Some v).
Proof.
  intros [Hly _]. exists (entries p 0). pose proof (num_slots_bound p). split_and!.
  - by apply iter_all_ok.
  - apply entries_sorted. lia.
  - intros v i. rewrite elem_of_entries. split.
    + intros E. assert (0 ≤ i < 65536) by (apply value_Some in E as [[] _]; plia).
      by rewrite get_value_ok, E.
    + intros [? E]. rewrite get_value_ok in E by done. congruence.
Qed.

(** ** Refinement: sequences of operations *)

(** The abstract page: a map from slot ids to values, the number of slots ever used, the
    free space, and how much of it is in holes between the values, which deletions leave
    and compaction closes. *)
Record slot_map := mkSlots { sm_map : gmap Z (list byte); sm_count : Z; sm_space : Z; sm_holes : Z }.

Inductive page_op :=
  | OpAdd (bytes : list byte)
  | OpGet (slot : Z)
  | OpDelete (slot : Z)
  | OpUpdate (slot : Z) (bytes : list byte).

Inductive page_res :=
  | ResSlot (r : option Z)
  | ResBytes (r : option (list byte))
  | ResUnit (r : option unit).

(** Slot ids are [u16]; values are not empty. *)
Definition op_ok (op : page_op) : Prop :=
  match op with
  | OpAdd bytes => bytes ≠ []
  | OpGet i | OpDelete i => 0 ≤ i < 65536
  | OpUpdate i bytes => 0 ≤ i < 65536 ∧ bytes ≠ []
  end.

Definition run_op (p : Page) (op : page_op) : outcome (Page * page_res) :=
  match op with
  | OpAdd bytes => '(p, r) ← add_value p bytes; Ret (p, ResSlot r)
  | OpGet i => r ← get_value p i; Ret (p, ResBytes r)
  | OpDelete i => '(p, r) ← delete_value p i; Ret (p, ResUnit r)
  | OpUpdate i bytes => '(p, r) ← update_value p i bytes; Ret (p, ResUnit r)
  end.

Fixpoint run_ops (p : Page) (ops : list page_op) : outcome (Page * list page_res) :=
  match ops with
  | [] => Ret (p, [])
  | op :: ops =>
      '(p, r) ← run_op p op;
      '(p, rs) ← run_ops p ops;
      Ret (p, r :: rs)
  end.

(** The lowest slot id not in use. *)
Definition next_slot (s : slot_map) (k : Z) : Prop :=
  0 ≤ k ≤ sm_count s ∧ sm_map s !! k = None ∧ ∀ j, 0 ≤ j < k → is_Some (sm_map s !! j).

Definition need (s : slot_map) (k : Z) (bytes : list byte) : Z :=
  zlen bytes + (if k =? sm_count s then 4 else 0).

(** The value cannot be added in slot [k]: it takes all of the free space or more, or it
    needs a new slot and the holes leave less than the size of its metadata between the
    header and the values. *)
Definition refused (s : slot_map) (k : Z) (bytes : list byte) : Prop :=
  sm_space s ≤ need s k bytes ∨ k = sm_count s ∧ sm_space s - sm_holes s < 4.

(** What each operation may answer, and the abstract page afterwards. The answers are
    determined by the abstract page; only how much of the space that is given back becomes
    a hole depends on where the value was. *)
Inductive spec_step (s : slot_map) : page_op → page_res → slot_map → Prop :=
  | spec_add bytes k h :
      next_slot s k → ¬ refused s k bytes → 0 ≤ h ≤ sm_holes s →
      spec_step s (OpAdd bytes) (ResSlot (Some k))
        (mkSlots (<[k := bytes]> (sm_map s)) (sm_count s `max` (k + 1)) (sm_space s - need s k bytes) h)
  | spec_add_full bytes k :
      next_slot s k → refused s k bytes →
      spec_step s (OpAdd bytes) (ResSlot None) s
  | spec_get i :
      spec_step s (OpGet i) (ResBytes (sm_map s !! i)) s
  | spec_delete i v h :
      sm_map s !! i = Some v → 0 ≤ h ≤ sm_holes s + zlen v →
      spec_step s (OpDelete i) (ResUnit (Some tt))
        (mkSlots (delete i (sm_map s)) (sm_count s) (sm_space s + zlen v) h)
  | spec_delete_none i :
      sm_map s !! i = None →
      spec_step s (OpDelete i) (ResUnit None) s
  | spec_update i v bytes h :
      sm_map s !! i = Some v →
      zlen bytes ≤ zlen v ∨ zlen bytes < sm_space s + zlen v → 0 ≤ h ≤ sm_holes s + zlen v →
      spec_step s (OpUpdate i bytes) (ResUnit (Some tt))
        (mkSlots (<[i := bytes]> (sm_map s)) (sm_count s) (sm_space s + zlen v - zlen bytes) h)
  | spec_update_full i v bytes :
      sm_map s !! i = Some v → zlen v < zlen bytes → sm_space s + zlen v ≤ zlen bytes →
      spec_step s (OpUpdate i bytes) (ResUnit None) s
  | spec_update_none i bytes :
      sm_map s !! i = None →
      spec_step s (OpUpdate i bytes) (ResUnit None) s.

Inductive spec_run : slot_map → list page_op → list page_res → slot_map → Prop :=
  | spec_nil s : spec_run s [] [] s
  | spec_cons s s' s'' op ops r rs :
      spec_step s op r s' → spec_run s' ops rs s'' → spec_run s (op :: ops) (r :: rs) s''.

(** A page represents an abstract page. *)
Record represents (p : Page) (s : slot_map) : Prop := {
  rep_wf : wf p;
  rep_map : ∀ i, value p i = sm_map s !! i;
  rep_count : num_slots p = sm_count s;
  rep_space : free_space p = sm_space s;
  rep_holes : del_bytes p = sm_holes s
}.

Lemma rep_next_slot p s k : represents p s → lowest_free p k → next_slot s k.
Proof.
  intros [_ Hm Hc _ _] (Hk & Hbefore & Hfree). rewrite Hc in Hk. split; [done|]. split.
  - rewrite <-Hm. apply value_None. intros [? Hl]. apply Hl, Hfree. plia.
  - intros j Hj. rewrite <-Hm. rewrite value_live; [done|]. split; [plia|by apply Hbefore].
Qed.

Lemma rep_need p s k bytes : represents p s → space_needed p k bytes = need s k bytes.
Proof. intros [_ _ Hc _ _]. unfold space_needed, need. by rewrite Hc. Qed.

Lemma rep_refused p s k bytes : represents p s → no_room p k bytes ↔ refused s k bytes.
Proof.
  intros Hr. pose proof Hr as [_ _ Hc Hs Hh]. unfold no_room, refused. rewrite (rep_need p s), Hs, <-Hc, <-Hs, <-Hh by done.
  unfold free_space, SLOT_METADATA_SIZE. intuition lia.
Qed.

(** What a change of one slot does to the abstract page. *)
Lemma rep_changed p s p' k v delta :
  represents p s → changed p p' k v delta →
  represents p' (mkSlots (partial_alter (λ _, v) k (sm_map s)) (sm_count s) (sm_space s + delta) (del_bytes p')).
Proof.
  intros [_ Hm Hc Hs _] [? _ Hn Hsp Hv Ho _]. split; simpl; [done| |congruence|congruence|done].
  intros i. destruct (decide (i = k)) as [->|Hne].
  - by rewrite lookup_partial_alter_eq.
  - rewrite lookup_partial_alter_ne by done. by rewrite Ho.
Qed.

Lemma rep_holes_bound p s p' k v delta old :
  represents p s → changed p p' k v delta → sm_map s !! k = Some old → 0 ≤ del_bytes p' ≤ sm_holes s + zlen old.
Proof.
  intros [Hwf Hm _ _ Hh] [_ _ _ _ _ _ Hb] Hk. rewrite <-Hm in Hk.
  destruct (value_zlen p k old (wf_layout p Hwf) Hk) as [_ ->]. pose proof (del_bytes_bound p'). lia.
Qed.

Lemma run_op_refines p s op :
  represents p s → op_ok op →
  ∃ p' r s', run_op p op = Ret (p', r) ∧ spec_step s op r s' ∧ represents p' s'.
Proof.
  intros Hr Hop. pose proof Hr as [Hwf Hm Hc Hs Hh]. destruct op as [bytes|i|i|i bytes]; simpl in *.
  - destruct (add_value_ok p bytes Hwf Hop) as (k & Hk & [(Hfull & ->)|(Hroom & p' & -> & Ha)]).
    + exists p, (ResSlot None), s. split; [done|]. split; [|done].
      apply (spec_add_full _ _ k); [by eapply rep_next_slot|].
      by apply (rep_refused p).
    + destruct Ha as [? _ Hn Hsp Hv Ho Hd]. eexists p', (ResSlot (Some k)), _. split; [done|].
      rewrite (rep_need p s) in Hsp by done. pose proof (del_bytes_bound p').
      split; [apply (spec_add _ _ k (del_bytes p')); [by eapply rep_next_slot|by rewrite <-(rep_refused p)|lia]|].
      * split; simpl; [done| |congruence|congruence|done]. intros i.
        destruct (decide (i = k)) as [->|]; [by rewrite lookup_insert_eq|].
        by rewrite lookup_insert_ne, Ho.
  - exists p, (ResBytes (sm_map s !! i)), s. rewrite get_value_ok, Hm by (done || apply Hwf).
    split; [done|]. split; [constructor|done].
  - pose proof (delete_value_ok p i Hwf Hop) as Hd. rewrite Hm in Hd.
    destruct (sm_map s !! i) as [v|] eqn:E.
    + destruct Hd as (p' & -> & Hch). eexists p', _, _. split; [done|].
      split; [apply (spec_delete _ _ v); [done|by eapply rep_holes_bound]|]. by apply (rep_changed p s p' i None).
    + rewrite Hd. eexists p, _, s. split; [done|]. split; [by constructor|done].
  - destruct Hop as [Hi Hne]. pose proof (update_value_ok p i bytes Hwf Hi Hne) as Hu.
    rewrite Hm in Hu. destruct (sm_map s !! i) as [v|] eqn:E.
    + rewrite Hs in Hu. destruct (_ || _) eqn:Efit.
      * rewrite orb_true_iff, Z.leb_le, Z.ltb_lt in Efit. destruct Hu as (p' & -> & Hch).
        eexists p', _, _. split; [done|]. split; [apply (spec_update _ _ v); [done..|by eapply rep_holes_bound]|].
        rewrite <-Z.add_sub_assoc. by apply (rep_changed p s p' i (Some bytes)).
      * rewrite orb_false_iff, Z.leb_gt, Z.ltb_ge in Efit. rewrite Hu.
        eexists p, _, s. split; [done|]. split; [apply (spec_update_full _ _ v); tauto|done].
    + rewrite Hu. eexists p, _, s. split; [done|]. split; [by constructor|done].
Qed.

(** C4: any sequence of insertions, lookups, deletions and updates (with non-empty
    values and [u16] slot ids) run on a freshly initialised page completes without a
    panic, and its answers are those of a map from slot ids to values that starts empty
    with 4072 free bytes, none of them in holes: every value reads back until it is updated
    or deleted, a new value gets the lowest unused slot id, and operations are refused
    exactly when the space is missing: an insertion when the value and the metadata of a
    new slot take all of it or more, or when the holes that deletions and updates left
    keep the header from growing; an update when the value does not fit in the space once
    the old one is given back. *)
Theorem page_refines_map id ops :
  Forall op_ok ops →
  ∃ p p' rs s, fresh id = Ret p ∧ run_ops p ops = Ret (p', rs) ∧
    spec_run (mkSlots ∅ 0 4072 0) ops rs s ∧ represents p' s.
Proof.
  intros Hops. destruct (fresh_ok id) as (p & -> & Hwf & Hn & Hf & Hsp & _).
  assert (represents p (mkSlots ∅ 0 4072 0)) as Hr.
  { split; simpl; try done; cycle 1.
    { unfold free_space, header_size in Hsp. rewrite Hf, Hn in Hsp. unfold PAGE_SIZE in Hsp. plia. }
    intros i. rewrite lookup_empty. apply value_None.
    intros [? _]. plia. }
  exists p. clear Hwf Hn Hf Hsp. revert p Hr. generalize (mkSlots ∅ 0 4072 0) as s.
  induction Hops as [|op ops Hop _ IH]; intros s p Hr; simpl.
  - eexists p, [], s. split; [done|]. split; [done|]. split; [constructor|done].
  - destruct (run_op_refines p s op Hr Hop) as (p1 & r & s1 & E1 & Hstep & Hr1).
    destruct (IH s1 p1 Hr1) as (p2 & rs & s2 & _ & E2 & Hrun & Hr2).
    exists p2, (r :: rs), s2. split; [done|]. rewrite E1, bind_Ret, E2, bind_Ret.
    split; [done|]. split; [by econstructor|done].
Qed.

(** ** Concrete pages *)

Definition empty_page : Page := match fresh 7 with Ret p => p | Panic => [] end.
Definition one_value : list byte := [Byte.x0a; Byte.x0b; Byte.x0c].
Definition sample_page : Page :=
  match add_value empty_page one_value with Ret (p, _) => p | Panic => [] end.

Lemma empty_page_wf : wf empty_page.
Proof. unfold empty_page. destruct (fresh_ok 7) as (p & -> & ? & _). done. Qed.

Lemma sample_page_wf : wf sample_page.
Proof.
  unfold sample_page. pose proof empty_page_wf.
  destruct (add_value_ok empty_page one_value) as (k & _ & [[_ ->]|(_ & p & -> & [])]); done.
Qed.

Lemma add_value_correct_witness :
  ∃ k p', add_value sample_page one_value = Ret (p', Some k) ∧ wf p' ∧
          get_value p' k = Ret (Some one_value).
Proof.
  destruct (add_value_correct sample_page one_value) as (k & free & _ & _ & Hc);
    [apply sample_page_wf|done|].
  destruct Hc as [[_ E]|(_ & p' & E & Hwf & _ & Hv & _)].
  - exfalso. revert E. vm_compute. discriminate.
  - exists k, p'. exact (conj E (conj Hwf Hv)).
Defined.

Lemma delete_value_correct_witness :
  ∃ p', delete_value sample_page 0 = Ret (p', Some tt) ∧ wf p' ∧ get_value p' 0 = Ret None.
Proof.
  destruct (delete_value_correct sample_page 0) as (r & free & E & _ & Hc);
    [apply sample_page_wf|lia|].
  destruct r as [v|]; [|exfalso; revert E; vm_compute; discriminate].
  destruct Hc as (p' & Ed & Hwf & Hv & _). exists p'. exact (conj Ed (conj Hwf Hv)).
Defined.

Lemma update_value_correct_witness :
  ∃ p', update_value sample_page 0 (one_value ++ one_value) = Ret (p', Some tt) ∧ wf p' ∧
        get_value p' 0 = Ret (Some (one_value ++ one_value)).
Proof.
  destruct (update_value_correct sample_page 0 (one_value ++ one_value)) as (r & free & E & Ef & Hc);
    [apply sample_page_wf|lia|done|].
  destruct r as [v|]; [|exfalso; revert E; vm_compute; discriminate].
  assert (free = 4065) as -> by (revert Ef; vm_compute; congruence).
  destruct (_ || _) eqn:Efit.
  - destruct Hc as (p' & Eu & Hwf & Hv & _). exists p'. exact (conj Eu (conj Hwf Hv)).
  - apply orb_false_iff in Efit as [_ Efit]. apply Z.ltb_ge in Efit. pose proof (zlen_nonneg v).
    change (zlen (one_value ++ one_value)) with 6 in Efit. lia.
Defined.

Lemma iter_correct_witness :
  ∃ l, iter_all sample_page = Ret l ∧ (one_value, 0) ∈ l.
Proof.
  destruct (iter_correct sample_page sample_page_wf) as (l & E & _ & Hl).
  exists l. split; [exact E|]. apply Hl. split; [lia|]. by vm_compute.
Defined.

Lemma page_refines_map_witness :
  ∃ p rs, (q ← fresh 3; run_ops q [OpAdd one_value; OpGet 0; OpDelete 0; OpGet 0]) = Ret (p, rs) ∧
          rs = [ResSlot (Some 0); ResBytes (Some one_value); ResUnit (Some tt); ResBytes None].
Proof.
  destruct (page_refines_map 3 [OpAdd one_value; OpGet 0; OpDelete 0; OpGet 0])
    as (p & p' & rs & s & Ep & Er & _).
  - repeat constructor; simpl; (done || lia).
  - exists p', rs. assert ((q ← fresh 3; run_ops q [OpAdd one_value; OpGet 0; OpDelete 0; OpGet 0]) = Ret (p', rs))
      as E by (rewrite Ep, bind_Ret; exact Er).
    split; [exact E|]. clear Ep Er. revert E. vm_compute. congruence.
Defined.

(** ** Where the invariant is needed *)

(** An empty value breaks the invariant. It is accepted, takes a slot that still
    counts as free, and the next insertion reuses that slot and underflows the count of
    deleted slots: a panic with overflow checks. *)
Theorem add_empty_value_breaks :
  ∃ p, add_value empty_page [] = Ret (p, Some 0) ∧ ¬ wf p ∧
    get_value p 0 = Ret None ∧ add_value p one_value = Panic.
Proof.
  eexists. split; [by vm_compute|]. split; [|split; by vm_compute].
  intros [_ E]. revert E. vm_compute. discriminate.
Qed.

(** [init_heap_page] does not clear a page that was in use: the values of its
    former life are still found. *)
Theorem init_keeps_old_values :
  (p ← init_heap_page sample_page; get_value p 0) = Ret (Some one_value).
Proof. by vm_compute. Qed.
