(* ===== verification/BaseFile.v ===== *)
(** * Base files

    Models [heapstore/src/base_file.rs]: pages of a container in a file of the operating
    system, page [i] at offset [i * PAGE_SIZE]. The system calls are the class [Posix];
    what the code relies on of them (for calls that succeed) is [PosixLaws]. The read and
    write counters, compiled in with the [stat] feature only, are left out. *)

From S2P Require Import Prelude Common HeapPage HeapPageView.
From stdpp Require Import strings.

Open Scope Z_scope.

(** ** The operating system *)

(** [fstat] gives the size of the file, or nothing on failure; [pread] the bytes read and
    the return value; [pwrite] the return value. *)
Class Posix (F : Type) := {
  os_new : F;
  os_fstat : F → option Z;
  os_pread : F → Z → Z → list byte * Z;
  os_pwrite : F → list byte → Z → F * Z;
  os_fsync : F → Z
}.

(** Writing at an offset past the end fills the gap with zeroes. *)
Definition overwrite (d : list byte) (off : Z) (bs : list byte) : list byte :=
  splice (d ++ zeroes (off - zlen d)) off bs.

Class PosixLaws (F : Type) `{Posix F} := {
  content : F → list byte;
  content_new : content os_new = [];
  fstat_content f : os_fstat f = Some (zlen (content f));
  pread_content f n off :
    0 ≤ off → 0 ≤ n → off + n ≤ zlen (content f) → os_pread f n off = (sub (content f) off n, n);
  pwrite_content f bs off :
    0 ≤ off → ∃ f', os_pwrite f bs off = (f', zlen bs) ∧ content f' = overwrite (content f) off bs
}.

(** ** The file *)

(** [last_os_error] as the pool reports it. *)
Definition last_os_error : string := "os error".

Module BaseFile.
Section Ops.
Context `{Posix F}.

Definition num_pages (f : F) : Z :=
  match os_fstat f with
  | None => 0
  | Some st_size => st_size / PAGE_SIZE
  end.

Definition prefetch_page (f : F) (page_id : Z) : result string unit := Ok tt.

(** The buffer the page is read into is returned with the answer: a short read leaves
    what it read there. *)
Definition read_page (f : F) (page_id : Z) (page : Page) : outcome (Page * result string unit) :=
  _ ← guard_or_panic (page_id <? as_u32 (num_pages f));
  let offset := page_id * PAGE_SIZE in
  let '(bytes, ret) := os_pread f PAGE_SIZE offset in
  let page := splice page 0 bytes in
  if negb (ret =? PAGE_SIZE) then Ret (page, Err last_os_error)
  else
    id ← Pages.get_page_id page;
    _ ← guard_or_panic (id =? page_id);
    Ret (page, Ok tt).

Definition write_page (f : F) (page_id : Z) (page : Page) : outcome (F * result string unit) :=
  id ← Pages.get_page_id page;
  _ ← guard_or_panic (id =? page_id);
  let offset := page_id * PAGE_SIZE in
  let '(f, ret) := os_pwrite f page offset in
  if negb (ret =? PAGE_SIZE) then Ret (f, Err last_os_error) else Ret (f, Ok tt).

Definition flush (direct : bool) (f : F) : result string unit :=
  if direct then Ok tt
  else if negb (os_fsync f =? 0) then Err last_os_error
  else Ok tt.

End Ops.
End BaseFile.

(** ** What the file holds *)

Section Spec.
Context `{Laws : PosixLaws F}.
Implicit Type f : F.

(** Whole pages only. *)
Definition file_wf f : Prop := zlen (content f) = BaseFile.num_pages f * PAGE_SIZE.
Definition disk_page f (i : Z) : Page := sub (content f) (i * PAGE_SIZE) PAGE_SIZE.

Lemma num_pages_content f : BaseFile.num_pages f = zlen (content f) / PAGE_SIZE.
Proof. unfold BaseFile.num_pages. by rewrite fstat_content. Qed.

Lemma file_wf_intro f n : zlen (content f) = n * PAGE_SIZE → BaseFile.num_pages f = n ∧ file_wf f.
Proof.
  intros E. assert (BaseFile.num_pages f = n) as En.
  { rewrite num_pages_content, E. by apply Z.div_mul. }
  split; [done|]. unfold file_wf. by rewrite En.
Qed.

Lemma new_file_wf : file_wf os_new ∧ BaseFile.num_pages os_new = 0.
Proof. destruct (file_wf_intro os_new 0); [by rewrite content_new|done]. Qed.

(** Overwriting page [i] of a buffer of [n] pages. *)
Lemma overwrite_page d n i p :
  zlen d = n * PAGE_SIZE → 0 ≤ i → zlen p = PAGE_SIZE →
  zlen (overwrite d (i * PAGE_SIZE) p) = Z.max n (i + 1) * PAGE_SIZE ∧
  sub (overwrite d (i * PAGE_SIZE) p) (i * PAGE_SIZE) PAGE_SIZE = p ∧
  ∀ j, 0 ≤ j < n → j ≠ i →
    sub (overwrite d (i * PAGE_SIZE) p) (j * PAGE_SIZE) PAGE_SIZE = sub d (j * PAGE_SIZE) PAGE_SIZE.
Proof.
  intros Hd Hi Hp. pose proof (zlen_nonneg d) as Hn. unfold overwrite, splice.
  set (d' := d ++ zeroes (i * PAGE_SIZE - zlen d)).
  assert (zlen d' = Z.max (zlen d) (i * PAGE_SIZE)) as Hd'.
  { subst d'. unfold zeroes. unfold zlen in *. rewrite length_app, length_replicate. lia. }
  unfold PAGE_SIZE in *. split_and!.
  - unfold zlen in *. rewrite !length_app, length_take, length_drop. lia.
  - unfold sub. rewrite drop_app_length'; [|unfold zlen in *; rewrite length_take; lia].
    apply take_app_length'. unfold zlen in *. lia.
  - intros j Hj Hne. unfold sub. destruct (decide (j < i)).
    + rewrite drop_app_le, take_app_le by (unfold zlen in *; rewrite ?length_drop, ?length_take; lia).
      rewrite skipn_firstn_comm, take_take. subst d'. rewrite drop_app_le by (unfold zlen in *; lia).
      rewrite take_app_le by (unfold zlen in *; rewrite length_drop; lia). f_equal. lia.
    + assert (d' = d) as -> by (subst d'; unfold zeroes; replace (Z.to_nat _) with 0%nat by lia; apply app_nil_r).
      rewrite app_assoc, drop_app_ge by (unfold zlen in *; rewrite length_app, length_take; lia).
      rewrite drop_drop. do 2 f_equal. unfold zlen in *. rewrite length_app, length_take. lia.
Qed.

Lemma write_page_ok f i p :
  file_wf f → 0 ≤ i → zlen p = PAGE_SIZE → u32_at p 0 = i →
  ∃ f', BaseFile.write_page f i p = Ret (f', Ok tt) ∧ file_wf f' ∧
    BaseFile.num_pages f' = Z.max (BaseFile.num_pages f) (i + 1) ∧ disk_page f' i = p ∧
    ∀ j, 0 ≤ j < BaseFile.num_pages f → j ≠ i → disk_page f' j = disk_page f j.
Proof.
  intros Hwf Hi Hp Hid. unfold BaseFile.write_page, Pages.get_page_id.
  rewrite read_u32_ok, Hid, bind_Ret, Z.eqb_refl by (unfold PAGE_SIZE in *; lia). simpl guard_or_panic.
  rewrite bind_Ret. destruct (pwrite_content f p (i * PAGE_SIZE)) as (f' & -> & Hc); [unfold PAGE_SIZE; lia|].
  rewrite Hp. simpl. destruct (overwrite_page (content f) (BaseFile.num_pages f) i p) as (Hl & Hh & Ho); [done..|].
  rewrite <-Hc in Hl, Hh. setoid_rewrite <-Hc in Ho. destruct (file_wf_intro f' _ Hl) as [En Hwf'].
  exists f'. by rewrite En.
Qed.

(** A page that fills its buffer replaces it. *)
Lemma splice_whole (d p : list byte) : zlen p = zlen d → splice d 0 p = p.
Proof. intros E. unfold splice. simpl. rewrite drop_ge; [apply app_nil_r|]. unfold zlen in *. lia. Qed.

Lemma read_page_ok f i buf :
  file_wf f → 0 ≤ i < BaseFile.num_pages f → BaseFile.num_pages f < 2 ^ 32 →
  zlen buf = PAGE_SIZE → u32_at (disk_page f i) 0 = i →
  BaseFile.read_page f i buf = Ret (disk_page f i, Ok tt).
Proof.
  intros Hwf Hi Hmax Hbuf Hid. unfold BaseFile.read_page.
  rewrite cast_small, (proj2 (Z.ltb_lt _ _)) by lia. simpl guard_or_panic. rewrite bind_Ret.
  assert (i * PAGE_SIZE + PAGE_SIZE ≤ zlen (content f)) as Hin.
  { rewrite Hwf. unfold PAGE_SIZE. lia. }
  rewrite pread_content by (unfold PAGE_SIZE in *; lia). rewrite Z.eqb_refl. simpl negb.
  assert (zlen (disk_page f i) = PAGE_SIZE) as Hl by (apply zlen_sub; unfold PAGE_SIZE in *; lia).
  change (sub (content f) (i * PAGE_SIZE) PAGE_SIZE) with (disk_page f i).
  rewrite splice_whole by lia.
  unfold Pages.get_page_id. rewrite read_u32_ok, Hid, bind_Ret, Z.eqb_refl by (unfold PAGE_SIZE in *; lia). done.
Qed.

(** A read that succeeds was of a page of the file. *)
Lemma read_page_inv f j buf q :
  file_wf f → BaseFile.num_pages f < 2 ^ 32 → 0 ≤ j → zlen buf = PAGE_SIZE →
  BaseFile.read_page f j buf = Ret (q, Ok tt) →
  j < BaseFile.num_pages f ∧ q = disk_page f j ∧ u32_at q 0 = j.
Proof.
  intros Hwf Hmax Hj Hbuf Hr. assert (0 ≤ BaseFile.num_pages f) as Hn.
  { rewrite num_pages_content. apply Z.div_pos; [apply zlen_nonneg|done]. }
  assert (j < BaseFile.num_pages f) as Hlt.
  { unfold BaseFile.read_page in Hr. rewrite cast_small in Hr by lia.
    destruct (Z.ltb_spec j (BaseFile.num_pages f)); [done|]. done. }
  assert (i_in : j * PAGE_SIZE + PAGE_SIZE ≤ zlen (content f)) by (rewrite Hwf; unfold PAGE_SIZE; lia).
  unfold BaseFile.read_page in Hr. rewrite cast_small, (proj2 (Z.ltb_lt _ _)) in Hr by lia.
  simpl guard_or_panic in Hr. rewrite bind_Ret, pread_content, Z.eqb_refl in Hr by (unfold PAGE_SIZE in *; lia).
  simpl negb in Hr. change (sub (content f) (j * PAGE_SIZE) PAGE_SIZE) with (disk_page f j) in Hr.
  assert (zlen (disk_page f j) = PAGE_SIZE) as Hl by (apply zlen_sub; unfold PAGE_SIZE in *; lia).
  rewrite splice_whole in Hr by lia. unfold Pages.get_page_id in Hr.
  rewrite read_u32_ok, bind_Ret in Hr by (unfold PAGE_SIZE in *; lia).
  destruct (Z.eqb_spec (u32_at (disk_page f j) 0) j) as [E|]; simpl in Hr; [|done].
  injection Hr as <-. done.
Qed.

(** A page written to a file reads back, and every other page of the file that read
    back before still does, whatever buffer it is read into. *)
Theorem base_file_roundtrip f i p :
  file_wf f → 0 ≤ i → Z.max (BaseFile.num_pages f) (i + 1) < 2 ^ 32 →
  zlen p = PAGE_SIZE → u32_at p 0 = i →
  ∃ f', BaseFile.write_page f i p = Ret (f', Ok tt) ∧ file_wf f' ∧
    BaseFile.num_pages f' = Z.max (BaseFile.num_pages f) (i + 1) ∧
    ∀ buf, zlen buf = PAGE_SIZE →
      BaseFile.read_page f' i buf = Ret (p, Ok tt) ∧
      ∀ j q, 0 ≤ j → j ≠ i → BaseFile.read_page f j buf = Ret (q, Ok tt) →
        BaseFile.read_page f' j buf = Ret (q, Ok tt).
Proof.
  intros Hwf Hi Hmax Hp Hid. destruct (write_page_ok f i p Hwf Hi Hp Hid) as (f' & -> & Hwf' & En & Hh & Ho).
  exists f'. split_and!; [done|done|done|]. intros buf Hbuf. split.
  - rewrite <-Hh. apply read_page_ok; [done|lia|lia|done|by rewrite Hh].
  - intros j q Hj Hne Hr. destruct (read_page_inv f j buf q) as (Hlt & -> & Hq); [done|lia|lia|done|done|].
    rewrite <-(Ho j) by (lia || done). apply read_page_ok; [done|lia|lia|done|by rewrite Ho by (lia || done)].
Qed.

End Spec.

(** ** Files as byte lists *)

#[global] Instance bytes_posix : Posix (list byte) := {
  os_new := [];
  os_fstat f := Some (zlen f);
  os_pread f n off := let bs := sub f off n in (bs, zlen bs);
  os_pwrite f bs off := (overwrite f off bs, zlen bs);
  os_fsync f := 0
}.

#[global] Instance bytes_posix_laws : PosixLaws (list byte).
Proof.
  refine {| content f := f |}; [done|done| |].
  - intros f n off ? ? ?. simpl. by rewrite zlen_sub.
  - intros f bs off ?. by eexists.
Defined.

Lemma base_file_roundtrip_witness :
  ∃ f', BaseFile.write_page ([] : list byte) 0 (zeroes 4096) = Ret (f', Ok tt) ∧
    BaseFile.read_page f' 0 (zeroes 4096) = Ret (zeroes 4096, Ok tt).
Proof.
  destruct (base_file_roundtrip ([] : list byte) 0 (zeroes 4096)) as (f' & E & _ & _ & Hr);
    [done|lia|by vm_compute|by vm_compute|by vm_compute|].
  exists f'. exact (conj E (proj1 (Hr (zeroes 4096) eq_refl))).
Defined.
