(* ===== verification/Catalog.v ===== *)
(** * The container catalog

    Models [heapstore/src/container_file_catalog.rs]: the containers of a directory, one
    file each, opened on first use, with the page count the buffer pool draws new page
    ids from. *)

From S2P Require Import Prelude Common Decimal HeapPage HeapPageView BaseFile.
From stdpp Require Import gmap strings.

Open Scope Z_scope.

(** An open base file: its path in the directory, and whether it bypasses the cache. The
    bytes are in the directory, which all open files share. *)
Record OpenFile := mkOpenFile { bf_path : string; direct : bool }.

Record Container := mkContainer { page_count : Z; is_temp : bool; base_file : OpenFile }.

Record ContainerFileCatalog (F : Type) := mkCatalog {
  remove_dir_on_drop : bool;
  base_dir : gmap string F;
  cfc_containers : gmap Z Container
}.
Arguments mkCatalog {F} _ _ _.
Arguments remove_dir_on_drop {F} _.
Arguments base_dir {F} _.
Arguments cfc_containers {F} _.

Module Cfc.
Section Ops.
Context `{Posix F}.
Abbreviation catalog := (ContainerFileCatalog F).
Implicit Type t : catalog.

Definition set_dir t (dir : gmap string F) : catalog :=
  mkCatalog (remove_dir_on_drop t) dir (cfc_containers t).
Definition set_containers t (cs : gmap Z Container) : catalog :=
  mkCatalog (remove_dir_on_drop t) (base_dir t) cs.

(** [BaseFile::new]: opens the file named after the container, creating it if needed. *)
Definition open_file (dir : gmap string F) (c : Z) : gmap string F * OpenFile :=
  let path := show_u16 c in
  (match dir !! path with Some _ => dir | None => <[path := os_new]> dir end,
   mkOpenFile path true).

(** ** Containers *)

Definition num_pages_of (dir : gmap string F) (bf : OpenFile) : outcome Z :=
  f ← unwrap (dir !! bf_path bf); checked 32 (BaseFile.num_pages f).

Definition new_container (dir : gmap string F) (bf : OpenFile) : outcome Container :=
  n ← num_pages_of dir bf; Ret (mkContainer n false bf).
Definition new_temp (dir : gmap string F) (bf : OpenFile) : outcome Container :=
  n ← num_pages_of dir bf; Ret (mkContainer n true bf).

Definition set_temp t (c : Z) (b : bool) : outcome catalog :=
  ct ← unwrap (cfc_containers t !! c);
  Ret (set_containers t (<[c := mkContainer (page_count ct) b (base_file ct)]> (cfc_containers t))).

Definition num_pages (ct : Container) : Z := page_count ct.
Definition num_pages_in_disk t (ct : Container) : outcome Z := num_pages_of (base_dir t) (base_file ct).

(** [fetch_add]: the old count; the addition wraps. *)
Definition inc_page_count t (c count : Z) : outcome (catalog * Z) :=
  ct ← unwrap (cfc_containers t !! c);
  Ret (set_containers t
         (<[c := mkContainer (cast 32 (page_count ct + as_u32 count)) (is_temp ct) (base_file ct)]>
            (cfc_containers t)), page_count ct).

Definition read_page t (ct : Container) (page_id : Z) (page : Page) :
  outcome (Page * result string unit) :=
  f ← unwrap (base_dir t !! bf_path (base_file ct));
  BaseFile.read_page f page_id page.

Definition write_page t (ct : Container) (page_id : Z) (page : Page) :
  outcome (catalog * result string unit) :=
  if negb (is_temp ct) then
    f ← unwrap (base_dir t !! bf_path (base_file ct));
    '(f, r) ← BaseFile.write_page f page_id page;
    Ret (set_dir t (<[bf_path (base_file ct) := f]> (base_dir t)), r)
  else Ret (t, Ok tt).

Definition flush t (ct : Container) : outcome (result string unit) :=
  f ← unwrap (base_dir t !! bf_path (base_file ct));
  Ret (BaseFile.flush (direct (base_file ct)) f).

(** ** The catalog *)

(** [new]: a container for every file of the directory; [names] are the files as
    [read_dir] lists them. *)
Definition load_entry (acc : outcome catalog) (name : string) : outcome catalog :=
  t ← acc;
  c ← unwrap (parse_u16 name);
  let '(dir, bf) := open_file (base_dir t) c in
  ct ← new_container dir bf;
  Ret (mkCatalog (remove_dir_on_drop t) dir (<[c := ct]> (cfc_containers t))).

Definition new (dir : gmap string F) (names : list string) (remove : bool) : outcome catalog :=
  foldl load_entry (Ret (mkCatalog remove dir ∅)) names.

Definition container_ids t : list Z := (map_to_list (cfc_containers t)).*1.

Definition get_container t (c : Z) : outcome (catalog * Container) :=
  match cfc_containers t !! c with
  | Some ct => Ret (t, ct)
  | None =>
      let '(dir, bf) := open_file (base_dir t) c in
      ct ← new_container dir bf;
      Ret (mkCatalog (remove_dir_on_drop t) dir (<[c := ct]> (cfc_containers t)), ct)
  end.

Definition get_container_page_count t (c : Z) : option Z :=
  num_pages <$> cfc_containers t !! c.

Definition register_container t (c : Z) (temp : bool) : outcome catalog :=
  match cfc_containers t !! c with
  | Some _ => Ret t
  | None =>
      let '(dir, bf) := open_file (base_dir t) c in
      ct ← (if temp then new_temp dir bf else new_container dir bf);
      Ret (mkCatalog (remove_dir_on_drop t) dir (<[c := ct]> (cfc_containers t)))
  end.

Fixpoint flush_list t (cts : list Container) : outcome (result string unit) :=
  match cts with
  | [] => Ret (Ok tt)
  | ct :: cts =>
      r ← flush t ct;
      match r with Err e => Ret (Err e) | Ok _ => flush_list t cts end
  end.
Definition flush_all t : outcome (result string unit) :=
  flush_list t (map_to_list (cfc_containers t)).*2.

Definition remove_all t : catalog := mkCatalog (remove_dir_on_drop t) ∅ ∅.

Definition iter t : list (Z * Container) := map_to_list (cfc_containers t).

End Ops.
End Cfc.

(** ** The invariant *)

Section Spec.
Context `{Laws : PosixLaws F}.
Implicit Type t : ContainerFileCatalog F.

(** Every container has its file open under its own name, of whole pages, no more than the
    page count; container ids are 16 bits wide. *)
Record container_ok t (c : Z) (ct : Container) : Prop := {
  co_id : 0 ≤ c < 2 ^ 16;
  co_path : base_file ct = mkOpenFile (show_u16 c) true;
  co_file : ∃ f, base_dir t !! show_u16 c = Some f ∧ file_wf f ∧ BaseFile.num_pages f ≤ page_count ct;
  co_count : 0 ≤ page_count ct < 2 ^ 32
}.

(** The files of the directory are those of the containers. *)
Record cfc_inv t : Prop := {
  ci_container c ct : cfc_containers t !! c = Some ct → container_ok t c ct;
  ci_file s f : base_dir t !! s = Some f →
    file_wf f ∧ BaseFile.num_pages f < 2 ^ 32 ∧
    ∃ c ct, s = show_u16 c ∧ cfc_containers t !! c = Some ct
}.

(** A container that is not open has no file. *)
Lemma cfc_no_file t c :
  cfc_inv t → 0 ≤ c < 2 ^ 16 → cfc_containers t !! c = None → base_dir t !! show_u16 c = None.
Proof.
  intros Hi Hc Hn. destruct (base_dir t !! show_u16 c) as [f|] eqn:E; [|done].
  destruct (ci_file t Hi _ _ E) as (_ & _ & c' & ct & Es & Ec).
  apply show_u16_inj in Es as <-; [congruence|done|]. apply (ci_container t Hi c' ct Ec).
Qed.

Lemma num_pages_nonneg (f : F) : 0 ≤ BaseFile.num_pages f.
Proof. rewrite num_pages_content. apply Z.div_pos; [apply zlen_nonneg|done]. Qed.

(** A container that was not open gets a new, empty file. *)
Lemma get_container_ok t c :
  cfc_inv t → 0 ≤ c < 2 ^ 16 →
  ∃ t' ct, Cfc.get_container t c = Ret (t', ct) ∧ cfc_inv t' ∧ cfc_containers t' !! c = Some ct ∧
    (∀ s g, base_dir t !! s = Some g → base_dir t' !! s = Some g) ∧
    (∀ d, d ≠ c → cfc_containers t' !! d = cfc_containers t !! d) ∧
    match cfc_containers t !! c with
    | Some ct0 => t' = t ∧ ct = ct0
    | None => page_count ct = 0
    end ∧
    remove_dir_on_drop t' = remove_dir_on_drop t.
Proof.
  intros Hi Hc. unfold Cfc.get_container. destruct (cfc_containers t !! c) as [ct|] eqn:E.
  { exists t, ct. done. }
  pose proof (cfc_no_file t c Hi Hc E) as Hno. unfold Cfc.open_file. rewrite Hno.
  destruct new_file_wf as [Hwf Hn]. unfold Cfc.new_container, Cfc.num_pages_of. simpl.
  rewrite lookup_insert_eq. simpl. rewrite Hn. simpl. eexists _, _. split_and!; try done; simpl.
  - destruct Hi as [Hcs Hfs]. split; simpl.
    + intros d ct [[<- <-]|[? Hd]]%lookup_insert_Some.
      * split; simpl; [done|done| |lia]. exists os_new. rewrite lookup_insert_eq, Hn. done.
      * destruct (Hcs d ct Hd) as [? ? (g & Hg & ?) ?]. split; [done|done| |done]. exists g.
        simpl. rewrite lookup_insert_ne; [done|]. intros Es. apply show_u16_inj in Es; done.
    + intros s g [[<- <-]|[? Hs]]%lookup_insert_Some.
      * rewrite Hn. split_and!; [done|lia|]. eexists c, _. by rewrite lookup_insert_eq.
      * destruct (Hfs s g Hs) as (? & ? & d & ct & -> & Hd). split_and!; [done|done|].
        exists d, ct. rewrite lookup_insert_ne; [done|]. congruence.
  - by rewrite lookup_insert_eq.
  - intros s g Hs. rewrite lookup_insert_ne; [done|congruence].
  - intros d ?. by rewrite lookup_insert_ne.
Qed.

Lemma cfc_flush_all_ok t : cfc_inv t → Cfc.flush_all t = Ret (Ok tt).
Proof.
  intros [Hcs _]. unfold Cfc.flush_all.
  assert (∀ ct, ct ∈ (map_to_list (cfc_containers t)).*2 → ∃ c, container_ok t c ct) as Hall.
  { intros ct ([c ct'] & -> & Hin)%list_elem_of_fmap. exists c. by apply Hcs, elem_of_map_to_list. }
  revert Hall. generalize (map_to_list (cfc_containers t)).*2 as l.
  induction l as [|ct l IH]; intros Hall; [done|]. simpl.
  destruct (Hall ct) as (c & [_ Hp (f & Hf & _) _]); [left|].
  unfold Cfc.flush. rewrite Hp. simpl. rewrite Hf. simpl. apply IH. intros ct' ?. apply Hall. by right.
Qed.

(** Writing a page of an open, persistent container. *)
Lemma container_write_ok t c ct i p :
  cfc_inv t → cfc_containers t !! c = Some ct → is_temp ct = false →
  0 ≤ i < page_count ct → zlen p = PAGE_SIZE → u32_at p 0 = i →
  ∃ t' f f', Cfc.write_page t ct i p = Ret (t', Ok tt) ∧ cfc_inv t' ∧
    cfc_containers t' = cfc_containers t ∧ remove_dir_on_drop t' = remove_dir_on_drop t ∧
    base_dir t !! show_u16 c = Some f ∧ base_dir t' = <[show_u16 c := f']> (base_dir t) ∧
    disk_page f' i = p ∧ BaseFile.num_pages f' = Z.max (BaseFile.num_pages f) (i + 1) ∧
    (∀ j, 0 ≤ j < BaseFile.num_pages f → j ≠ i → disk_page f' j = disk_page f j).
Proof.
  intros [Hcs Hfs] E Ht Hi Hp Hid. pose proof (Hcs c ct E) as [Hc Hpath (f & Hf & Hwf & Hn) Hcount].
  unfold Cfc.write_page. rewrite Ht, Hpath. simpl. rewrite Hf. simpl.
  destruct (write_page_ok f i p) as (f' & -> & Hwf' & En & Hh & Ho); [done|lia|done|done|]. simpl.
  eexists _, f, f'. split_and!; try done. split; simpl.
  - intros d ctd Hd. destruct (Hcs d ctd Hd) as [? ? (g & Hg & ? & ?) ?]. split; try done.
    destruct (decide (d = c)) as [->|Hne].
    + exists f'. simpl. rewrite lookup_insert_eq. assert (ctd = ct) as -> by congruence.
      split_and!; [done|done|]. rewrite En. lia.
    + exists g. simpl. rewrite lookup_insert_ne; [done|]. intros Hs. by apply show_u16_inj in Hs.
  - intros s g [[<- <-]|[? Hs]]%lookup_insert_Some; [|by eapply Hfs].
    split_and!; [done|rewrite En; lia|]. by exists c, ct.
Qed.

Lemma inc_page_count_ok t c ct :
  cfc_inv t → cfc_containers t !! c = Some ct → page_count ct + 1 < 2 ^ 32 →
  ∃ t', Cfc.inc_page_count t c 1 = Ret (t', page_count ct) ∧ cfc_inv t' ∧
    base_dir t' = base_dir t ∧ remove_dir_on_drop t' = remove_dir_on_drop t ∧
    cfc_containers t' =
      <[c := mkContainer (page_count ct + 1) (is_temp ct) (base_file ct)]> (cfc_containers t).
Proof.
  intros Hi E Hmax. pose proof (co_count _ _ _ (ci_container t Hi c ct E)) as Hn.
  unfold Cfc.inc_page_count. rewrite E. simpl. rewrite (cast_small 32 1), cast_small by lia.
  eexists. split_and!; try done. destruct Hi as [Hcs Hfs]. split; simpl.
  - intros d ctd [[<- <-]|[? Hd]]%lookup_insert_Some.
    + destruct (Hcs c ct E) as [? ? (f & ? & ? & ?) ?]. split; simpl; try done; try lia.
      exists f. split_and!; [done|done|lia].
    + by destruct (Hcs d ctd Hd); split.
  - intros s f Hs. destruct (Hfs s f Hs) as (? & ? & d & ctd & -> & Hd). split_and!; [done|done|].
    destruct (decide (d = c)) as [->|]; eexists _, _; (split; [done|]).
    + by rewrite lookup_insert_eq.
    + by rewrite lookup_insert_ne.
Qed.

End Spec.
