(* ===== verification/BufferFrame.v ===== *)
(** * Buffer frames

    Models [buffer_pool/eviction_policy.rs] and [buffer_pool/buffer_frame.rs]: a frame
    holds one page with its latch, dirty flag, key and eviction score; guards are given
    out when the latch is granted and give it back when dropped. A guard is the index of
    its frame in the pool, with the flag that tells its [Drop] to leave the latch alone.
    Operations run to completion one after the other here: a latch that is not granted to
    a blocking call never will be, which the model does not distinguish from a panic. *)

From stdpp Require Import relations.
From S2P Require Import Prelude Common HeapPage.

Open Scope Z_scope.

(** ** Read-write latches

    Models [common/src/rwlatch.rs]. The latch is one atomic [i16] counter: the number of
    shared holders, or -1 for an exclusive holder. Every acquiring operation is a loop
    that loads the counter, decides what to do with the value it saw, and tries a
    compare-and-exchange. The decisions are one function per operation; the loops run
    interleaved, one atomic access at a time, in a step relation over any number of
    threads. *)

(** What a loop does with the loaded value: give up and return [false], spin, or try to
    exchange it for a new one. *)
Inductive attempt := GiveUp | Spin | Cas (new : Z).

Definition i16_ok (z : Z) : bool := (-32768 <=? z) && (z <=? 32767).

Module RwLatch.

(** [expected + 1] is an [i16] addition: [None] is an overflow panic. *)
Definition shared (expected : Z) : option attempt :=
  if 0 <=? expected then
    if i16_ok (expected + 1) then Some (Cas (expected + 1)) else None
  else Some Spin.

Definition try_shared (expected : Z) : option attempt :=
  if expected <? 0 then Some GiveUp
  else if i16_ok (expected + 1) then Some (Cas (expected + 1)) else None.

Definition exclusive (expected : Z) : option attempt :=
  if expected =? 0 then Some (Cas (-1)) else Some Spin.

Definition try_exclusive (expected : Z) : option attempt :=
  if negb (expected =? 0) then Some GiveUp else Some (Cas (-1)).

Definition upgrade (expected : Z) : option attempt :=
  if expected =? 1 then Some (Cas (-1)) else Some Spin.

Definition try_upgrade (expected : Z) : option attempt :=
  if negb (expected =? 1) then Some GiveUp else Some (Cas (-1)).

Definition downgrade (expected : Z) : option attempt :=
  if expected =? -1 then Some (Cas 1) else Some Spin.

(** [fetch_sub(1)] wraps around on an [i16]; [store(0)]. *)
Definition release_shared (cnt : Z) : Z := (cnt - 1 + 32768) mod 65536 - 32768.
Definition release_exclusive (cnt : Z) : Z := 0.

Definition is_locked (cnt : Z) : bool := negb (cnt =? 0).
Definition is_shared (cnt : Z) : bool := 0 <? cnt.
Definition is_exclusive (cnt : Z) : bool := cnt <? 0.

Definition default : Z := 0.

(** A loop run with no other thread in between: it returns, spins forever (no result),
    or panics. *)
Definition run_alone (op : Z → option attempt) (cnt : Z) : outcome (Z * bool) :=
  match op cnt with
  | Some GiveUp => Ret (cnt, false)
  | Some (Cas new) => Ret (new, true)
  | Some Spin | None => Panic
  end.
End RwLatch.

(** ** Threads *)

(** The acquiring operations, with the decision each of them makes. *)
Inductive latch_op :=
  | OpShared | OpTryShared | OpExclusive | OpTryExclusive | OpUpgrade | OpTryUpgrade | OpDowngrade.

Definition decide_op (op : latch_op) : Z → option attempt :=
  match op with
  | OpShared => RwLatch.shared
  | OpTryShared => RwLatch.try_shared
  | OpExclusive => RwLatch.exclusive
  | OpTryExclusive => RwLatch.try_exclusive
  | OpUpgrade => RwLatch.upgrade
  | OpTryUpgrade => RwLatch.try_upgrade
  | OpDowngrade => RwLatch.downgrade
  end.

(** What a guard holds. *)
Inductive mode := Free | Reader | Writer.

Global Instance mode_eq_dec : EqDecision mode.
Proof. solve_decision. Defined.

(** The mode an operation starts from and the one it ends in, as the guards use it. *)
Definition op_from (op : latch_op) : mode :=
  match op with
  | OpShared | OpTryShared | OpExclusive | OpTryExclusive => Free
  | OpUpgrade | OpTryUpgrade => Reader
  | OpDowngrade => Writer
  end.
Definition op_to (op : latch_op) : mode :=
  match op with
  | OpShared | OpTryShared | OpDowngrade => Reader
  | OpExclusive | OpTryExclusive | OpUpgrade | OpTryUpgrade => Writer
  end.

(** A thread: at rest in a mode, about to load, or about to exchange a loaded value.
    A panicked thread keeps what it held. *)
Inductive thread :=
  | Rest (m : mode)
  | AtLoad (op : latch_op)
  | AtCas (op : latch_op) (expected new : Z)
  | Dead (m : mode).

Definition holds (t : thread) : mode :=
  match t with
  | Rest m | Dead m => m
  | AtLoad op | AtCas op _ _ => op_from op
  end.

Record system := mkSys { cnt : Z; threads : list thread }.

(** One atomic access of one thread. *)
Inductive thread_step : Z → thread → Z → thread → Prop :=
  | step_start c op : thread_step c (Rest (op_from op)) c (AtLoad op)
  | step_load_cas c op new :
      decide_op op c = Some (Cas new) → thread_step c (AtLoad op) c (AtCas op c new)
  | step_load_spin c op :
      decide_op op c = Some Spin → thread_step c (AtLoad op) c (AtLoad op)
  | step_load_fail c op :
      decide_op op c = Some GiveUp → thread_step c (AtLoad op) c (Rest (op_from op))
  | step_load_panic c op :
      decide_op op c = None → thread_step c (AtLoad op) c (Dead (op_from op))
  | step_cas c op new :
      thread_step c (AtCas op c new) new (Rest (op_to op))
  | step_cas_retry c op e new :
      e ≠ c → thread_step c (AtCas op e new) c (AtLoad op)
  | step_release_shared c :
      thread_step c (Rest Reader) (RwLatch.release_shared c) (Rest Free)
  | step_release_exclusive c :
      thread_step c (Rest Writer) (RwLatch.release_exclusive c) (Rest Free).

Inductive sys_step : system → system → Prop :=
  | sys_step_thread s i t c' t' :
      threads s !! i = Some t → thread_step (cnt s) t c' t' →
      sys_step s (mkSys c' (<[i := t']> (threads s))).

(** All threads start without the latch. *)
Definition initial (n : nat) : system := mkSys RwLatch.default (replicate n (Rest Free)).

Definition reachable (n : nat) (s : system) : Prop := rtc sys_step (initial n) s.

(** ** The counter counts the holders *)

Definition holders (m : mode) (l : list thread) : Z :=
  foldr (λ t acc, (if decide (holds t = m) then 1 else 0) + acc) 0 l.

(** A pending exchange was decided on the value it expects. *)
Definition pending_ok (t : thread) : Prop :=
  match t with AtCas op e new => decide_op op e = Some (Cas new) | _ => True end.

(** Either no writer and the counter is the number of readers, or one writer, no
    reader and the counter is -1. *)
Record latch_inv (s : system) : Prop := {
  inv_count :
    (holders Writer (threads s) = 0 ∧ cnt s = holders Reader (threads s) ∧ cnt s ≤ 32767) ∨
    (holders Writer (threads s) = 1 ∧ holders Reader (threads s) = 0 ∧ cnt s = -1);
  inv_pending : Forall pending_ok (threads s)
}.

Lemma holders_insert m l i t t' :
  l !! i = Some t →
  holders m (<[i := t']> l) =
    holders m l - (if decide (holds t = m) then 1 else 0) + (if decide (holds t' = m) then 1 else 0).
Proof.
  revert i. induction l as [|x l IH]; intros [|i] Hi; simplify_eq/=; [lia|].
  rewrite (IH i) by done. lia.
Qed.

Lemma holders_nonneg m l : 0 ≤ holders m l.
Proof. induction l; simpl; [lia|]. case_decide; lia. Qed.

Lemma holders_pos m l i t : l !! i = Some t → holds t = m → 1 ≤ holders m l.
Proof.
  revert i. induction l as [|x l IH]; intros [|i] Hi Ht; simplify_eq/=.
  - rewrite decide_True by done. pose proof (holders_nonneg (holds t) l). lia.
  - specialize (IH i Hi eq_refl). case_decide; lia.
Qed.

Lemma holders_ex m l : 1 ≤ holders m l → ∃ i t, l !! i = Some t ∧ holds t = m.
Proof.
  induction l as [|x l IH]; simpl; [lia|]. case_decide.
  - intros _. by exists 0%nat, x.
  - intros H1. destruct IH as (i & t & ? & ?); [lia|]. by exists (S i), t.
Qed.

Lemma holders_two m l i j t u :
  m ≠ Free → i ≠ j → l !! i = Some t → l !! j = Some u → holds t = m → holds u = m →
  2 ≤ holders m l.
Proof.
  intros Hm Hij Hi Hj Ht Hu. pose proof (holders_insert m l i t (Rest Free) Hi) as E.
  assert (1 ≤ holders m (<[i := Rest Free]> l)) as Hp.
  { apply (holders_pos m _ j u); [|done]. by rewrite list_lookup_insert_ne. }
  rewrite (decide_True (P := holds t = m)) in E by done.
  rewrite (decide_False (P := holds (Rest Free) = m)) in E by (simpl; congruence). lia.
Qed.

(** Each operation exchanges the counter as its change of mode requires. *)
Lemma decide_cas op c new :
  decide_op op c = Some (Cas new) →
  match op_from op, op_to op with
  | Free, Reader => 0 ≤ c < 32767 ∧ new = c + 1
  | Free, Writer => c = 0 ∧ new = -1
  | Reader, Writer => c = 1 ∧ new = -1
  | Writer, Reader => c = -1 ∧ new = 1
  | _, _ => False
  end.
Proof.
  unfold decide_op, RwLatch.shared, RwLatch.try_shared, RwLatch.exclusive, RwLatch.try_exclusive,
    RwLatch.upgrade, RwLatch.try_upgrade, RwLatch.downgrade, i16_ok.
  destruct op; simpl; intros H; repeat case_match; simplify_eq/=;
    rewrite ?andb_true_iff, ?negb_true_iff, ?negb_false_iff, ?Z.leb_le, ?Z.ltb_ge, ?Z.eqb_eq in *; lia.
Qed.

Lemma initial_inv n : latch_inv (initial n).
Proof.
  assert (∀ m, m ≠ Free → holders m (replicate n (Rest Free)) = 0) as H.
  { intros m Hm. induction n; simpl; [done|]. rewrite decide_False by done. lia. }
  split; simpl.
  - left. rewrite !H by done. done.
  - by apply Forall_replicate.
Qed.

Lemma thread_step_inv s i t c' t' :
  latch_inv s → threads s !! i = Some t → thread_step (cnt s) t c' t' →
  latch_inv (mkSys c' (<[i := t']> (threads s))).
Proof.
  intros [Hc Hp] Hi Hstep.
  pose proof (holders_insert Reader _ i t t' Hi) as ER.
  pose proof (holders_insert Writer _ i t t' Hi) as EW.
  pose proof (holders_nonneg Reader (threads s)). pose proof (holders_nonneg Writer (threads s)).
  pose proof (holders_pos Reader (threads s) i t Hi) as PR.
  pose proof (holders_pos Writer (threads s) i t Hi) as PW.
  assert (pending_ok t) as Ht by (rewrite Forall_lookup in Hp; by eapply Hp).
  split; simpl; [|apply Forall_insert; [done|]; by inversion Hstep; subst].
  rewrite ER, EW. clear ER EW.
  inversion Hstep; subst; simpl in *; try (destruct op; simpl in *; lia).
  - apply decide_cas in Ht.
    destruct (op_from op), (op_to op); simpl in *; try done;
      try specialize (PR eq_refl); try specialize (PW eq_refl); lia.
  - specialize (PR eq_refl). unfold RwLatch.release_shared.
    rewrite Z.mod_small by lia. left. lia.
  - specialize (PW eq_refl). unfold RwLatch.release_exclusive. left. lia.
Qed.

Lemma reachable_inv n s : reachable n s → latch_inv s.
Proof.
  intros Hr. unfold reachable in Hr. remember (initial n) as s0 eqn:E0.
  assert (latch_inv s0) as H0 by (subst; apply initial_inv). clear E0.
  induction Hr as [|s1 s2 s3 Hstep _ IH]; [done|]. apply IH.
  inversion Hstep; subst. by eapply thread_step_inv.
Qed.

(** C6: mutual exclusion, for any number of threads and every interleaving of the
    latch's atomic accesses: while a thread holds the latch exclusively no other thread
    holds it in any mode. *)
Theorem mutual_exclusion n s i j t u :
  reachable n s → threads s !! i = Some t → threads s !! j = Some u → i ≠ j →
  holds t = Writer → holds u = Free.
Proof.
  intros Hr Hi Hj Hij Ht. apply reachable_inv in Hr as [Hc _].
  pose proof (holders_pos Writer _ i t Hi Ht).
  destruct (holds u) eqn:Hu; [done| |].
  - pose proof (holders_pos Reader _ j u Hj Hu). lia.
  - pose proof (holders_two Writer _ i j t u ltac:(done) Hij Hi Hj Ht Hu). lia.
Qed.

(** The counter is exact in every reachable state: -1 when there is a writer, the
    number of readers otherwise; so [is_locked], [is_shared] and [is_exclusive] tell
    whether and how the latch is held. *)
Theorem counter_exact n s :
  reachable n s →
  cnt s = (if decide (holders Writer (threads s) = 0) then holders Reader (threads s) else -1) ∧
  (RwLatch.is_exclusive (cnt s) = true ↔ ∃ i t, threads s !! i = Some t ∧ holds t = Writer) ∧
  (RwLatch.is_shared (cnt s) = true ↔ ∃ i t, threads s !! i = Some t ∧ holds t = Reader).
Proof.
  intros Hr. apply reachable_inv in Hr as [Hc _]. unfold RwLatch.is_exclusive, RwLatch.is_shared.
  rewrite Z.ltb_lt, Z.ltb_lt.
  pose proof (holders_nonneg Reader (threads s)).
  split_and!; [case_decide; lia|split|split].
  - intros. apply holders_ex. lia.
  - intros (i & t & Hi & Ht). pose proof (holders_pos Writer _ i t Hi Ht). lia.
  - intros. apply holders_ex. lia.
  - intros (i & t & Hi & Ht). pose proof (holders_pos Reader _ i t Hi Ht). lia.
Qed.

(** An acquisition cannot be starved by an unheld latch: in every reachable state
    in which no thread holds the latch, a thread that starts acquiring it (shared or
    exclusive, blocking or not) obtains it in its next three accesses if no other thread
    intervenes. *)
Theorem acquire_when_unheld n s i op :
  reachable n s → (∀ j t, threads s !! j = Some t → holds t = Free) →
  threads s !! i = Some (Rest Free) → op_from op = Free →
  ∃ s', nsteps sys_step 3 s s' ∧ threads s' !! i = Some (Rest (op_to op)) ∧
        ∀ j, j ≠ i → threads s' !! j = threads s !! j.
Proof.
  intros Hr Hfree Hi Hop. apply reachable_inv in Hr as [Hc _].
  assert (∀ m, m ≠ Free → holders m (threads s) = 0) as H0.
  { intros m Hm. pose proof (holders_nonneg m (threads s)).
    destruct (decide (1 ≤ holders m (threads s))) as [H1|]; [|lia].
    destruct (holders_ex _ _ H1) as (j & t & Hj & Ht). apply Hfree in Hj. congruence. }
  rewrite !H0 in Hc by done. assert (cnt s = 0) as E0 by lia.
  assert (∃ new, decide_op op 0 = Some (Cas new)) as [new Hnew]
    by (destruct op; try discriminate Hop; by eexists).
  destruct s as [c l]. simpl in *. subst c. set (l1 := <[i := AtLoad op]> l).
  assert (∀ t, (<[i := t]> l) !! i = Some t) as Hl.
  { intros. apply list_lookup_insert_eq. by eapply lookup_lt_Some. }
  exists (mkSys new (<[i := Rest (op_to op)]> l)). split; [|split].
  - apply (nsteps_l _ _ _ (mkSys 0 l1)).
    { apply (sys_step_thread (mkSys 0 l) i (Rest Free)); [done|]. rewrite <-Hop. constructor. }
    apply (nsteps_l _ _ _ (mkSys 0 (<[i := AtCas op 0 new]> l))).
    { rewrite <-(list_insert_insert_eq l i (AtCas op 0 new) (AtLoad op)).
      apply (sys_step_thread (mkSys 0 l1) i (AtLoad op)); [apply Hl|by constructor]. }
    apply (nsteps_l _ _ _ (mkSys new (<[i := Rest (op_to op)]> l))); [|constructor].
    rewrite <-(list_insert_insert_eq l i (Rest (op_to op)) (AtCas op 0 new)).
    apply (sys_step_thread (mkSys 0 (<[i := AtCas op 0 new]> l)) i (AtCas op 0 new));
      [apply Hl|constructor].
  - apply Hl.
  - intros j Hj. simpl. by rewrite list_lookup_insert_ne.
Qed.

(** ** Witnesses *)

(** Two threads, the first of which has taken the latch exclusively. *)
Definition one_writer : system := mkSys (-1) [Rest Writer; Rest Free].

Lemma one_writer_reachable : reachable 2 one_writer.
Proof.
  apply (rtc_l _ _ (mkSys 0 [AtLoad OpExclusive; Rest Free])).
  { apply (sys_step_thread (initial 2) 0 (Rest Free)); [done|]. apply (step_start 0 OpExclusive). }
  apply (rtc_l _ _ (mkSys 0 [AtCas OpExclusive 0 (-1); Rest Free])).
  { apply (sys_step_thread (mkSys 0 [AtLoad OpExclusive; Rest Free]) 0 (AtLoad OpExclusive));
      [done|by constructor]. }
  apply rtc_once. apply (sys_step_thread
    (mkSys 0 [AtCas OpExclusive 0 (-1); Rest Free]) 0 (AtCas OpExclusive 0 (-1))); [done|].
  apply (step_cas 0 OpExclusive).
Qed.

Lemma mutual_exclusion_witness : reachable 2 one_writer ∧ holds (Rest Free) = Free.
Proof.
  split; [apply one_writer_reachable|].
  apply (mutual_exclusion 2 one_writer 0 1 (Rest Writer) (Rest Free));
    [apply one_writer_reachable|done..].
Defined.

Lemma counter_exact_witness : RwLatch.is_exclusive (cnt one_writer) = true.
Proof.
  apply (proj1 (proj2 (counter_exact 2 one_writer one_writer_reachable))).
  by exists 0%nat, (Rest Writer).
Defined.

Lemma acquire_when_unheld_witness :
  ∃ s', nsteps sys_step 3 (initial 2) s' ∧ threads s' !! 1%nat = Some (Rest Writer).
Proof.
  destruct (acquire_when_unheld 2 (initial 2) 1 OpExclusive) as (s' & H1 & H2 & _).
  - apply rtc_refl.
  - intros [|[|j]] t Ht; by simplify_eq/=.
  - done.
  - done.
  - by exists s'.
Defined.

(** ** Eviction scores *)

Definition INITIAL_COUNTER : Z := 1.

(** The static counter, and how many numbers were drawn from the random generator. *)
Record lru_env := mkLru { lru_counter : Z; rng_pos : nat }.

Module LRUEvictionPolicy.
Definition new : Z := INITIAL_COUNTER.
Definition score (evict_info : Z) : Z := evict_info.

(** [next_u64] is the generator: the value of its n-th draw. *)
Definition update (next_u64 : nat → Z) (env : lru_env) (evict_info : Z) : lru_env * Z :=
  if next_u64 (rng_pos env) mod 10 =? 0 then
    (mkLru (cast 64 (lru_counter env + 1)) (S (rng_pos env)), Z.max evict_info (lru_counter env))
  else (mkLru (lru_counter env) (S (rng_pos env)), evict_info).

Definition reset (evict_info : Z) : Z := INITIAL_COUNTER.
End LRUEvictionPolicy.

(** ** Frames *)

Record BufferFrame := mkFrame {
  frame_id : Z;
  latch : Z;
  is_dirty : bool;
  evict_info : Z;
  key : option ContainerPageId;
  page : Page
}.

Definition set_latch (f : BufferFrame) (l : Z) : BufferFrame :=
  mkFrame (frame_id f) l (is_dirty f) (evict_info f) (key f) (page f).
Definition set_dirty (f : BufferFrame) (d : bool) : BufferFrame :=
  mkFrame (frame_id f) (latch f) d (evict_info f) (key f) (page f).
Definition set_evict (f : BufferFrame) (e : Z) : BufferFrame :=
  mkFrame (frame_id f) (latch f) (is_dirty f) e (key f) (page f).
Definition set_key (f : BufferFrame) (k : option ContainerPageId) : BufferFrame :=
  mkFrame (frame_id f) (latch f) (is_dirty f) (evict_info f) k (page f).
Definition set_page (f : BufferFrame) (p : Page) : BufferFrame :=
  mkFrame (frame_id f) (latch f) (is_dirty f) (evict_info f) (key f) p.

(** [frame_id] of a key: a hint, [u32::MAX] when unknown. *)
Record PageFrameId := mkPageFrameId { p_key : ContainerPageId; pf_frame_id : Z }.

Module Frame.
Definition new (frame_id : Z) : outcome BufferFrame :=
  p ← Pages.new_empty;
  Ret (mkFrame frame_id RwLatch.default false LRUEvictionPolicy.new None p).

(** The latch loops, each running with no other thread in between. *)
Definition read (f : BufferFrame) : outcome BufferFrame :=
  '(l, _) ← RwLatch.run_alone RwLatch.shared (latch f); Ret (set_latch f l).

Definition try_read (f : BufferFrame) : outcome (BufferFrame * bool) :=
  '(l, ok) ← RwLatch.run_alone RwLatch.try_shared (latch f); Ret (set_latch f l, ok).

Definition write (f : BufferFrame) (make_dirty : bool) : outcome BufferFrame :=
  '(l, _) ← RwLatch.run_alone RwLatch.exclusive (latch f);
  let f := set_latch f l in
  Ret (if make_dirty then set_dirty f true else f).

Definition try_write (f : BufferFrame) (make_dirty : bool) : outcome (BufferFrame * bool) :=
  '(l, ok) ← RwLatch.run_alone RwLatch.try_exclusive (latch f);
  let f := set_latch f l in
  Ret (if ok && make_dirty then set_dirty f true else f, ok).

(** [FrameReadGuard::try_upgrade]: on success the read guard's drop is disarmed. *)
Definition try_upgrade (f : BufferFrame) (make_dirty : bool) : outcome (BufferFrame * bool) :=
  '(l, ok) ← RwLatch.run_alone RwLatch.try_upgrade (latch f);
  let f := set_latch f l in
  Ret (if ok && make_dirty then set_dirty f true else f, ok).

(** [FrameWriteGuard::downgrade]. *)
Definition downgrade (f : BufferFrame) : outcome BufferFrame :=
  '(l, _) ← RwLatch.run_alone RwLatch.downgrade (latch f); Ret (set_latch f l).

(** [Drop] of the guards. *)
Definition drop_read (f : BufferFrame) (upgraded : bool) : BufferFrame :=
  if upgraded then f else set_latch f (RwLatch.release_shared (latch f)).
Definition drop_write (f : BufferFrame) (downgraded : bool) : BufferFrame :=
  if downgraded then f else set_latch f (RwLatch.release_exclusive (latch f)).

Definition page_frame_id (f : BufferFrame) : option PageFrameId :=
  (λ k, mkPageFrameId k (frame_id f)) <$> key f.

(** [FrameWriteGuard::clear]. *)
Definition clear (f : BufferFrame) : BufferFrame :=
  let f := set_dirty f false in
  let f := set_evict f (LRUEvictionPolicy.reset (evict_info f)) in
  set_key f None.
End Frame.

(** ** What the latch grants *)

Lemma try_read_granted f :
  0 ≤ latch f < 32767 → Frame.try_read f = Ret (set_latch f (latch f + 1), true).
Proof.
  intros H. unfold Frame.try_read, RwLatch.run_alone, RwLatch.try_shared, i16_ok.
  rewrite (proj2 (Z.ltb_ge _ _)), !(proj2 (Z.leb_le _ _)) by lia. done.
Qed.

Lemma try_read_refused f :
  latch f < 0 → Frame.try_read f = Ret (set_latch f (latch f), false).
Proof.
  intros H. unfold Frame.try_read, RwLatch.run_alone, RwLatch.try_shared.
  rewrite (proj2 (Z.ltb_lt _ _)) by lia. done.
Qed.

Lemma try_write_granted f d :
  latch f = 0 →
  Frame.try_write f d = Ret (if d then set_dirty (set_latch f (-1)) true else set_latch f (-1), true).
Proof.
  intros H. unfold Frame.try_write, RwLatch.run_alone, RwLatch.try_exclusive. rewrite H. done.
Qed.

Lemma try_write_refused f d :
  latch f ≠ 0 → Frame.try_write f d = Ret (set_latch f (latch f), false).
Proof.
  intros H. unfold Frame.try_write, RwLatch.run_alone, RwLatch.try_exclusive.
  rewrite (proj2 (Z.eqb_neq _ _)) by done. done.
Qed.

Lemma set_latch_id f : set_latch f (latch f) = f.
Proof. by destruct f. Qed.

#[global] Arguments Frame.new : simpl never.
#[global] Arguments Pages.set_page_id : simpl never.
