(* ===== verification/MemPool.v ===== *)
(** * Memory pools: the interface

    Models [buffer_pool/mem_pool_trait.rs]: page frame ids with their byte encoding, the
    [MemPool] trait as a class of state-passing operations, and what users of a pool rely
    on as a class of laws over an abstract view: for each page of the pool the frame it
    is in, its bytes and its latch. *)

From S2P Require Import Prelude Common HeapPage BufferFrame.
From stdpp Require Import gmap strings.

Open Scope Z_scope.

Inductive MemPoolStatus :=
  | BaseFileNotFound
  | BaseFileError (s : string)
  | PageNotFound
  | FrameReadLatchGrantFailed
  | FrameWriteLatchGrantFailed
  | CannotEvictPage.

(** ** Page frame ids *)

(** Big-endian bytes. *)
Definition be_bytes (n : nat) (z : Z) : list byte := rev (le_split n z).
Definition be_value (bs : list byte) : Z := le_combine (rev bs).

Lemma be_value_bytes n z : 0 ≤ z < 2 ^ (8 * Z.of_nat n) → be_value (be_bytes n z) = z.
Proof.
  intros. unfold be_value, be_bytes. rewrite rev_involutive, le_combine_split.
  apply Z.mod_small. by replace (Z.of_nat n * 8) with (8 * Z.of_nat n) by lia.
Qed.

Lemma zlen_be_bytes n z : zlen (be_bytes n z) = Z.of_nat n.
Proof. unfold zlen, be_bytes. by rewrite length_rev, length_le_split. Qed.

Definition U32_MAX : Z := 4294967295.

Module PageFrameIds.
Definition new (c page_id : Z) : PageFrameId :=
  mkPageFrameId (mkContainerPageId c page_id) U32_MAX.
Definition new_with_frame_id (c page_id frame_id : Z) : PageFrameId :=
  mkPageFrameId (mkContainerPageId c page_id) frame_id.
Definition set_frame_id (k : PageFrameId) (frame_id : Z) : PageFrameId :=
  mkPageFrameId (p_key k) frame_id.

Definition to_bytes (k : PageFrameId) : list byte :=
  be_bytes 2 (c_id (p_key k)) ++ be_bytes 4 (cp_page_id (p_key k)) ++ be_bytes 4 (pf_frame_id k).

Definition from_bytes (bytes : list byte) : outcome PageFrameId :=
  c ← slice bytes 0 2;
  p ← slice bytes 2 6;
  f ← slice bytes 6 10;
  Ret (mkPageFrameId (mkContainerPageId (be_value c) (be_value p)) (be_value f)).
End PageFrameIds.

(** Page frame ids survive their byte encoding. *)
Theorem page_frame_id_roundtrip k :
  0 ≤ c_id (p_key k) < 65536 → 0 ≤ cp_page_id (p_key k) < 2 ^ 32 → 0 ≤ pf_frame_id k < 2 ^ 32 →
  PageFrameIds.from_bytes (PageFrameIds.to_bytes k) = Ret k.
Proof.
  intros Hc Hp Hf. unfold PageFrameIds.from_bytes, PageFrameIds.to_bytes.
  set (b1 := be_bytes 2 _). set (b2 := be_bytes 4 (cp_page_id _)). set (b3 := be_bytes 4 (pf_frame_id _)).
  assert (zlen b1 = 2 ∧ zlen b2 = 4 ∧ zlen b3 = 4) as (? & ? & ?)
    by (subst b1 b2 b3; rewrite !zlen_be_bytes; done).
  assert (slice (b1 ++ b2 ++ b3) 0 2 = Ret b1) as -> by (apply (slice_mid []); len). rewrite bind_Ret.
  rewrite (slice_mid b1 b2 b3 2 6) by len. rewrite bind_Ret.
  replace (b1 ++ b2 ++ b3) with ((b1 ++ b2) ++ b3 ++ []) by (by rewrite app_nil_r, app_assoc).
  rewrite (slice_mid (b1 ++ b2) b3 [] 6 10) by len. rewrite bind_Ret.
  subst b1 b2 b3. rewrite !be_value_bytes by (simpl; lia). by destruct k as [[] ?].
Qed.

Lemma page_frame_id_roundtrip_witness :
  PageFrameIds.from_bytes (PageFrameIds.to_bytes (PageFrameIds.new 3 70000)) =
    Ret (PageFrameIds.new 3 70000).
Proof. apply page_frame_id_roundtrip; vm_compute; split; congruence. Defined.

(** ** The trait *)

(** A guard is the index of the frame it latches. *)
Abbreviation frame_guard := nat.

Class MemPool (P : Type) := {
  mp_create_container : P → Z → bool → outcome (P * result MemPoolStatus unit);
  mp_drop_container : P → Z → outcome (P * result MemPoolStatus unit);
  mp_create_new_page_for_write : P → Z → outcome (P * result MemPoolStatus frame_guard);
  mp_create_new_pages_for_write : P → Z → Z → outcome (P * result MemPoolStatus (list frame_guard));
  mp_is_in_mem : P → PageFrameId → outcome (P * bool);
  mp_get_max_page_id : P → Z → option Z;
  mp_get_page_ids_in_mem : P → Z → list PageFrameId;
  mp_get_page_for_write : P → PageFrameId → outcome (P * result MemPoolStatus frame_guard);
  mp_get_page_for_read : P → PageFrameId → outcome (P * result MemPoolStatus frame_guard);
  mp_flush_all : P → outcome (P * result MemPoolStatus unit);
  mp_flush_all_and_reset : P → outcome (P * result MemPoolStatus unit);
  mp_clear_dirty_flags : P → outcome (P * result MemPoolStatus unit);
  mp_reset : P → outcome (P * result MemPoolStatus unit);
  (** the frames the guards point to *)
  mp_frame : P → frame_guard → option BufferFrame;
  mp_set_frame : P → frame_guard → BufferFrame → P
}.

(** ** Using guards *)

Section Guards.
Context `{MemPool P}.

(** [Deref] and [DerefMut] of the guards, and their [Drop]. *)
Definition deref (m : P) (g : frame_guard) : outcome Page :=
  f ← unwrap (mp_frame m g); Ret (page f).
Definition deref_mut (m : P) (g : frame_guard) (p : Page) : outcome P :=
  f ← unwrap (mp_frame m g); Ret (mp_set_frame m g (set_page f p)).
Definition drop_read (m : P) (g : frame_guard) : outcome P :=
  f ← unwrap (mp_frame m g); Ret (mp_set_frame m g (Frame.drop_read f false)).
Definition drop_write (m : P) (g : frame_guard) : outcome P :=
  f ← unwrap (mp_frame m g); Ret (mp_set_frame m g (Frame.drop_write f false)).
End Guards.

(** ** The laws *)

(** What the pool holds for a page: its frame, its bytes and its latch counter. *)
Record entry := mkEntry { e_guard : frame_guard; e_page : Page; e_latch : Z }.

(** The entry of [k] became [e]; nothing else is seen to change. *)
Record view_update {P} (view : P → ContainerPageId → option entry) (max : P → Z → option Z)
  (room : P → Prop) (m m' : P) (k : ContainerPageId) (e : entry) : Prop := {
  vu_here : view m' k = Some e;
  vu_else : ∀ j, j ≠ k → view m' j = view m j;
  vu_max : ∀ c, max m' c = max m c;
  vu_room : room m ↔ room m'
}.

(** A page as the pool creates it: zeroes but for the page id. *)
Definition blank_page (id : Z) : Page := le_split 4 id ++ zeroes 4092.

Class MemPoolLaws (P : Type) `{MemPool P} := {
  mp_inv : P → Prop;
  mp_view : P → ContainerPageId → option entry;
  (** the pool has a frame for one more page *)
  mp_can_create : P → Prop;

  mp_view_page m k e :
    mp_inv m → mp_view m k = Some e → zlen (e_page e) = PAGE_SIZE ∧ -1 ≤ e_latch e;

  (** a guard reads the bytes of its page *)
  mp_deref m k e :
    mp_inv m → mp_view m k = Some e → deref m (e_guard e) = Ret (e_page e);

  (** a read latch is granted unless the page is being written *)
  mp_read_ok m k e :
    mp_inv m → mp_view m k = Some e → 0 ≤ e_latch e < 32767 →
    ∃ m', mp_get_page_for_read m (mkPageFrameId k U32_MAX) = Ret (m', Ok (e_guard e)) ∧ mp_inv m' ∧
      view_update mp_view mp_get_max_page_id mp_can_create m m' k (mkEntry (e_guard e) (e_page e) (e_latch e + 1));

  (** a write latch is granted when nobody uses the page *)
  mp_write_ok m k e :
    mp_inv m → mp_view m k = Some e → e_latch e = 0 →
    ∃ m', mp_get_page_for_write m (mkPageFrameId k U32_MAX) = Ret (m', Ok (e_guard e)) ∧ mp_inv m' ∧
      view_update mp_view mp_get_max_page_id mp_can_create m m' k (mkEntry (e_guard e) (e_page e) (-1));

  (** and refused when somebody does *)
  mp_write_busy m k e :
    mp_inv m → mp_view m k = Some e → e_latch e ≠ 0 →
    ∃ m', mp_get_page_for_write m (mkPageFrameId k U32_MAX) =
            Ret (m', Err FrameWriteLatchGrantFailed);

  mp_deref_mut m k e p :
    mp_inv m → mp_view m k = Some e → e_latch e = -1 → zlen p = PAGE_SIZE →
    u32_at p 0 = u32_at (e_page e) 0 →
    ∃ m', deref_mut m (e_guard e) p = Ret m' ∧ mp_inv m' ∧
      view_update mp_view mp_get_max_page_id mp_can_create m m' k (mkEntry (e_guard e) p (-1));

  mp_drop_write m k e :
    mp_inv m → mp_view m k = Some e → e_latch e = -1 →
    ∃ m', drop_write m (e_guard e) = Ret m' ∧ mp_inv m' ∧
      view_update mp_view mp_get_max_page_id mp_can_create m m' k (mkEntry (e_guard e) (e_page e) 0);

  mp_drop_read m k e :
    mp_inv m → mp_view m k = Some e → 0 < e_latch e ≤ 32767 →
    ∃ m', drop_read m (e_guard e) = Ret m' ∧ mp_inv m' ∧
      view_update mp_view mp_get_max_page_id mp_can_create m m' k (mkEntry (e_guard e) (e_page e) (e_latch e - 1));

  (** a new page is blank, gets the next page id of its container and is write-latched;
      or there is no frame for it and nothing changes *)
  mp_create m c :
    mp_inv m → 0 ≤ c < 2 ^ 16 → default 0 (mp_get_max_page_id m c) < U32_MAX →
    ∃ m' r, mp_create_new_page_for_write m c = Ret (m', r) ∧ mp_inv m' ∧
      match r with
      | Err _ =>
          ¬ mp_can_create m ∧ ¬ mp_can_create m' ∧ (∀ k, mp_view m' k = mp_view m k) ∧
          (∀ d, mp_get_max_page_id m' d = mp_get_max_page_id m d)
      | Ok g =>
          let id := default 0 (mp_get_max_page_id m c) in
          let k := mkContainerPageId c id in
          0 ≤ id ∧ mp_view m k = None ∧
          mp_view m' k = Some (mkEntry g (blank_page id) (-1)) ∧
          (∀ j, j ≠ k → mp_view m' j = mp_view m j) ∧
          mp_get_max_page_id m' c = Some (id + 1) ∧
          (∀ d, d ≠ c → mp_get_max_page_id m' d = mp_get_max_page_id m d)
      end
}.
