(* ===== verification/InMemPool.v ===== *)
(** * The in-memory pool

    Models [buffer_pool/in_mem_pool.rs]: every page has a frame of its own, frames are
    never reused. The pool satisfies the laws of memory pools. *)

From S2P Require Import Prelude Common HeapPage HeapPageView BufferFrame MemPool.
From stdpp Require Import gmap.

Open Scope Z_scope.

Record InMemPool := mkInMem {
  im_latch : Z;
  im_frames : list BufferFrame;
  im_page_to_frame : gmap ContainerPageId nat;
  im_container_page_count : gmap Z Z
}.

Module InMem.

Definition new : InMemPool := mkInMem RwLatch.default [] ∅ ∅.

Definition shared (m : InMemPool) : outcome InMemPool :=
  '(l, _) ← RwLatch.run_alone RwLatch.shared (im_latch m);
  Ret (mkInMem l (im_frames m) (im_page_to_frame m) (im_container_page_count m)).
Definition exclusive (m : InMemPool) : outcome InMemPool :=
  '(l, _) ← RwLatch.run_alone RwLatch.exclusive (im_latch m);
  Ret (mkInMem l (im_frames m) (im_page_to_frame m) (im_container_page_count m)).
Definition release_shared (m : InMemPool) : InMemPool :=
  mkInMem (RwLatch.release_shared (im_latch m)) (im_frames m) (im_page_to_frame m)
    (im_container_page_count m).
Definition release_exclusive (m : InMemPool) : InMemPool :=
  mkInMem (RwLatch.release_exclusive (im_latch m)) (im_frames m) (im_page_to_frame m)
    (im_container_page_count m).

Definition set_frame (m : InMemPool) (i : frame_guard) (f : BufferFrame) : InMemPool :=
  mkInMem (im_latch m) (<[i := f]> (im_frames m)) (im_page_to_frame m) (im_container_page_count m).

Definition create_container (m : InMemPool) (c : Z) (is_temp : bool) :
  outcome (InMemPool * result MemPoolStatus unit) := Ret (m, Ok tt).
Definition drop_container (m : InMemPool) (c : Z) :
  outcome (InMemPool * result MemPoolStatus unit) := Ret (m, Ok tt).

(** Reserve [n] page ids of a container: the first of them and the new counts. *)
Definition take_page_ids (counts : gmap Z Z) (c n : Z) : outcome (Z * gmap Z Z) :=
  match counts !! c with
  | Some page_id => next ← u32_add page_id (as_u32 n); Ret (page_id, <[c := next]> counts)
  | None => Ret (0, <[c := as_u32 n]> counts)
  end.

(** [frames.push(Box::new(BufferFrame::new(..)))] and its entry in the page table. *)
Definition push_frame (m : InMemPool) (k : ContainerPageId) : outcome (InMemPool * frame_guard) :=
  let frame_index := length (im_frames m) in
  frame ← Frame.new (as_u32 (Z.of_nat frame_index));
  Ret (mkInMem (im_latch m) (im_frames m ++ [frame])
         (<[k := frame_index]> (im_page_to_frame m)) (im_container_page_count m), frame_index).

(** [set_page_id] and [*page_id_mut() = Some(key)] through a write guard. *)
Definition init_frame (m : InMemPool) (g : frame_guard) (k : ContainerPageId) : outcome InMemPool :=
  f ← unwrap (im_frames m !! g);
  p ← Pages.set_page_id (page f) (cp_page_id k);
  Ret (set_frame m g (set_key (set_page f p) (Some k))).

Definition write_guard (m : InMemPool) (g : frame_guard) : outcome InMemPool :=
  f ← unwrap (im_frames m !! g);
  f ← Frame.write f true;
  Ret (set_frame m g f).

Definition create_new_page_for_write (m : InMemPool) (c : Z) :
  outcome (InMemPool * result MemPoolStatus frame_guard) :=
  m ← exclusive m;
  '(page_id, counts) ← take_page_ids (im_container_page_count m) c 1;
  let m := mkInMem (im_latch m) (im_frames m) (im_page_to_frame m) counts in
  let page_key := mkContainerPageId c page_id in
  '(m, g) ← push_frame m page_key;
  m ← write_guard m g;
  let m := release_exclusive m in
  m ← init_frame m g page_key;
  Ret (m, Ok g).

Definition create_new_pages_for_write (m : InMemPool) (c num_pages : Z) :
  outcome (InMemPool * result MemPoolStatus (list frame_guard)) :=
  m ← exclusive m;
  '(start_page_id, counts) ← take_page_ids (im_container_page_count m) c num_pages;
  let m := mkInMem (im_latch m) (im_frames m) (im_page_to_frame m) counts in
  m ← foldM (λ m i,
        page_id ← u32_add start_page_id (as_u32 i);
        '(m, _) ← push_frame m (mkContainerPageId c page_id);
        Ret m) m (range num_pages);
  '(m, guards) ← foldM (λ '(m, guards) i,
        page_id ← u32_add start_page_id (as_u32 i);
        let page_key := mkContainerPageId c page_id in
        g ← unwrap (im_page_to_frame m !! page_key);
        m ← write_guard m g;
        m ← init_frame m g page_key;
        Ret (m, guards ++ [g])) (m, []) (range num_pages);
  Ret (release_exclusive m, Ok guards).

Definition is_in_mem (m : InMemPool) (key : PageFrameId) : outcome (InMemPool * bool) :=
  m ← shared m;
  let is_cached := bool_decide (is_Some (im_page_to_frame m !! p_key key)) in
  Ret (release_shared m, is_cached).

Definition get_max_page_id (m : InMemPool) (c : Z) : option Z := im_container_page_count m !! c.

Definition get_page_ids_in_mem (m : InMemPool) (c : Z) : list PageFrameId :=
  map (λ '(k, i), PageFrameIds.new_with_frame_id c (cp_page_id k) (as_u32 (Z.of_nat i)))
    (filter (λ e, c_id (fst e) = c) (map_to_list (im_page_to_frame m))).

Definition get_page_for_write (m : InMemPool) (key : PageFrameId) :
  outcome (InMemPool * result MemPoolStatus frame_guard) :=
  m ← shared m;
  match im_page_to_frame m !! p_key key with
  | None => Ret (release_shared m, Err PageNotFound)
  | Some i =>
      f ← unwrap (im_frames m !! i);
      '(f, ok) ← Frame.try_write f true;
      let m := release_shared (set_frame m i f) in
      Ret (m, if ok : bool then Ok i else Err FrameWriteLatchGrantFailed)
  end.

Definition get_page_for_read (m : InMemPool) (key : PageFrameId) :
  outcome (InMemPool * result MemPoolStatus frame_guard) :=
  m ← shared m;
  match im_page_to_frame m !! p_key key with
  | None => Ret (release_shared m, Err PageNotFound)
  | Some i =>
      f ← unwrap (im_frames m !! i);
      '(f, ok) ← Frame.try_read f;
      let m := release_shared (set_frame m i f) in
      Ret (m, if ok : bool then Ok i else Err FrameReadLatchGrantFailed)
  end.

Definition reset (m : InMemPool) : outcome (InMemPool * result MemPoolStatus unit) :=
  m ← exclusive m;
  Ret (release_exclusive (mkInMem (im_latch m) [] ∅ ∅), Ok tt).

Definition flush_all (m : InMemPool) : outcome (InMemPool * result MemPoolStatus unit) :=
  Ret (m, Ok tt).
Definition flush_all_and_reset (m : InMemPool) : outcome (InMemPool * result MemPoolStatus unit) :=
  Ret (m, Ok tt).
Definition clear_dirty_flags (m : InMemPool) : outcome (InMemPool * result MemPoolStatus unit) :=
  Ret (m, Ok tt).
End InMem.

#[global] Instance InMem_MemPool : MemPool InMemPool := {|
  mp_create_container := InMem.create_container;
  mp_drop_container := InMem.drop_container;
  mp_create_new_page_for_write := InMem.create_new_page_for_write;
  mp_create_new_pages_for_write := InMem.create_new_pages_for_write;
  mp_is_in_mem := InMem.is_in_mem;
  mp_get_max_page_id := InMem.get_max_page_id;
  mp_get_page_ids_in_mem := InMem.get_page_ids_in_mem;
  mp_get_page_for_write := InMem.get_page_for_write;
  mp_get_page_for_read := InMem.get_page_for_read;
  mp_flush_all := InMem.flush_all;
  mp_flush_all_and_reset := InMem.flush_all_and_reset;
  mp_clear_dirty_flags := InMem.clear_dirty_flags;
  mp_reset := InMem.reset;
  mp_frame := λ m g, im_frames m !! g;
  mp_set_frame := InMem.set_frame
|}.

(** ** The laws hold *)

Definition im_view (m : InMemPool) (k : ContainerPageId) : option entry :=
  i ← im_page_to_frame m !! k;
  f ← im_frames m !! i;
  Some (mkEntry i (page f) (latch f)).

(** A frame that holds the page of [k]. *)
Definition frame_of (k : ContainerPageId) (f : BufferFrame) : Prop :=
  key f = Some k ∧ zlen (page f) = PAGE_SIZE ∧ -1 ≤ latch f ≤ 32767.

Record im_inv (m : InMemPool) : Prop := {
  im_unlatched : im_latch m = 0;
  im_mapped k i : im_page_to_frame m !! k = Some i → ∃ f, im_frames m !! i = Some f ∧ frame_of k f;
  im_counted k i : im_page_to_frame m !! k = Some i →
    ∃ n, im_container_page_count m !! c_id k = Some n ∧ cp_page_id k < n;
  im_count_pos c n : im_container_page_count m !! c = Some n → 0 ≤ n
}.

Lemma im_view_inv m k e :
  im_inv m → im_view m k = Some e →
  ∃ f, im_page_to_frame m !! k = Some (e_guard e) ∧ im_frames m !! e_guard e = Some f ∧
    frame_of k f ∧ e = mkEntry (e_guard e) (page f) (latch f).
Proof.
  intros Hi Hv. unfold im_view in Hv.
  destruct (im_page_to_frame m !! k) as [i|] eqn:E; [|done]. simpl in Hv.
  destruct (im_mapped m Hi k i E) as (f & Ef & Hf). rewrite Ef in Hv. simpl in Hv. simplify_eq/=.
  by exists f.
Qed.

(** Replacing the frame of [k] by another one for [k]. *)
Lemma im_set_frame m k i f f' :
  im_inv m → im_page_to_frame m !! k = Some i → im_frames m !! i = Some f → frame_of k f' →
  im_inv (InMem.set_frame m i f') ∧
  view_update im_view InMem.get_max_page_id (λ _, True) m (InMem.set_frame m i f') k
    (mkEntry i (page f') (latch f')).
Proof.
  intros Hi Hk Hf Hf'. assert (i < length (im_frames m))%nat as Hlt by by eapply lookup_lt_Some.
  assert (∀ j i', im_page_to_frame m !! j = Some i' → i' = i → j = k) as Hinj.
  { intros j i' Hj ->. destruct (im_mapped m Hi j i Hj) as (g & Eg & [Ek _]).
    destruct (im_mapped m Hi k i Hk) as (g' & Eg' & [Ek' _]). congruence. }
  split; [split; simpl; try apply Hi|split; simpl].
  - intros j i' Hj. destruct (decide (i' = i)) as [->|Hne].
    + rewrite (Hinj j i Hj eq_refl). exists f'. by rewrite list_lookup_insert_eq.
    + rewrite list_lookup_insert_ne by done. by apply (im_mapped m Hi).
  - unfold im_view. simpl. rewrite Hk. simpl. by rewrite list_lookup_insert_eq.
  - intros j Hj. unfold im_view. simpl. destruct (im_page_to_frame m !! j) as [i'|] eqn:E; [|done].
    simpl. rewrite list_lookup_insert_ne; [done|]. intros ->. by apply Hj, (Hinj j i').
  - done.
  - done.
Qed.

(** Taking the pool's latch and giving it back around an access to one frame. *)
Lemma im_shared m : im_inv m →
  InMem.shared m = Ret (mkInMem 1 (im_frames m) (im_page_to_frame m) (im_container_page_count m)).
Proof. intros Hi. unfold InMem.shared. by rewrite (im_unlatched m Hi). Qed.

Lemma im_release m l i f :
  l = 1 → im_inv m →
  InMem.release_shared (InMem.set_frame
    (mkInMem l (im_frames m) (im_page_to_frame m) (im_container_page_count m)) i f) =
  InMem.set_frame m i f.
Proof.
  intros -> Hi. unfold InMem.release_shared, InMem.set_frame. simpl.
  by rewrite (im_unlatched m Hi).
Qed.

Lemma im_get_page_for_read m k i f f' ok :
  im_inv m → im_page_to_frame m !! k = Some i → im_frames m !! i = Some f →
  Frame.try_read f = Ret (f', ok) →
  InMem.get_page_for_read m (mkPageFrameId k U32_MAX) =
    Ret (InMem.set_frame m i f', if ok then Ok i else Err FrameReadLatchGrantFailed).
Proof.
  intros Hi Hk Hf Ht. unfold InMem.get_page_for_read. rewrite im_shared, bind_Ret by done. simpl.
  rewrite Hk, Hf. simpl. rewrite Ht. simpl. by rewrite im_release.
Qed.

Lemma im_get_page_for_write m k i f f' ok :
  im_inv m → im_page_to_frame m !! k = Some i → im_frames m !! i = Some f →
  Frame.try_write f true = Ret (f', ok) →
  InMem.get_page_for_write m (mkPageFrameId k U32_MAX) =
    Ret (InMem.set_frame m i f', if ok then Ok i else Err FrameWriteLatchGrantFailed).
Proof.
  intros Hi Hk Hf Ht. unfold InMem.get_page_for_write. rewrite im_shared, bind_Ret by done. simpl.
  rewrite Hk, Hf. simpl. rewrite Ht. simpl. by rewrite im_release.
Qed.

Lemma new_frame_ok n : Frame.new n = Ret (mkFrame n 0 false 1 None (blank_page 0)).
Proof. unfold Frame.new, Pages.new_empty. by vm_compute Pages.new. Qed.

Lemma zlen_blank id : zlen (blank_page id) = PAGE_SIZE.
Proof. unfold blank_page, zlen, zeroes. rewrite length_app, length_le_split, length_replicate. done. Qed.

(** Writing the id into a blank page. *)
Lemma set_page_id_blank id id' : Pages.set_page_id (blank_page id) id' = Ret (blank_page id').
Proof.
  unfold Pages.set_page_id. rewrite write_u32_ok.
  - by f_equal.
  - done.
  - by rewrite zlen_blank.
Qed.

Section Create.
Context (m : InMemPool) (c : Z) (Hi : im_inv m).
Context (Hmax : default 0 (im_container_page_count m !! c) < U32_MAX).

Let id := default 0 (im_container_page_count m !! c).
Let k := mkContainerPageId c id.
Let g := length (im_frames m).
Let counts := <[c := id + 1]> (im_container_page_count m).
Let f := mkFrame (as_u32 (Z.of_nat g)) (-1) true 1 (Some k) (blank_page id).
Let m' := mkInMem 0 (im_frames m ++ [f]) (<[k := g]> (im_page_to_frame m)) counts.

Local Lemma im_id_pos : 0 ≤ id.
Proof.
  subst id. destruct (im_container_page_count m !! c) eqn:E; simpl; [|lia].
  by apply (im_count_pos m Hi c).
Qed.

Local Lemma im_take : InMem.take_page_ids (im_container_page_count m) c 1 = Ret (id, counts).
Proof.
  pose proof im_id_pos. unfold InMem.take_page_ids. subst counts id.
  destruct (im_container_page_count m !! c) as [n|]; simpl in *; [|done].
  unfold U32_MAX in Hmax. rewrite (cast_small 32 1) by lia. by rewrite checked_ok by lia.
Qed.

Local Lemma im_create_run : InMem.create_new_page_for_write m c = Ret (m', Ok g).
Proof.
  unfold InMem.create_new_page_for_write, InMem.exclusive. rewrite (im_unlatched m Hi).
  change (RwLatch.run_alone RwLatch.exclusive 0) with (Ret (-1, true)). rewrite !bind_Ret.
  cbn [im_container_page_count]. rewrite im_take, bind_Ret.
  unfold InMem.push_frame. rewrite new_frame_ok. rewrite !bind_Ret.
  unfold InMem.write_guard. cbn [im_frames]. rewrite list_lookup_middle by done.
  cbn [unwrap]. rewrite bind_Ret. unfold Frame.write. cbn [latch].
  change (RwLatch.run_alone RwLatch.exclusive 0) with (Ret (-1, true)). rewrite !bind_Ret.
  unfold InMem.init_frame, InMem.release_exclusive, InMem.set_frame, set_dirty, set_latch.
  cbn [im_latch im_frames im_page_to_frame im_container_page_count].
  rewrite insert_app_r_alt, Nat.sub_diag by done. cbn [insert list_insert].
  rewrite list_lookup_middle by done. cbn [unwrap]. rewrite bind_Ret. cbn [page].
  rewrite set_page_id_blank, !bind_Ret.
  by rewrite insert_app_r_alt, Nat.sub_diag by done.
Qed.

Local Lemma im_create_new : im_page_to_frame m !! k = None.
Proof.
  destruct (im_page_to_frame m !! k) as [i|] eqn:E; [|done].
  destruct (im_counted m Hi k i E) as (n & En & Hn). simpl in *. subst id. rewrite En in *.
  simpl in *. lia.
Qed.

Local Lemma im_create_inv : im_inv m'.
Proof.
  pose proof im_id_pos. split; simpl.
  - done.
  - intros j i [[<- <-]|[Hne Hj]]%lookup_insert_Some.
    + exists f. rewrite list_lookup_middle by done. split; [done|]. split; [done|].
      split; [apply zlen_blank|simpl; lia].
    + destruct (im_mapped m Hi j i Hj) as (f' & Ef' & Hf'). exists f'. split; [|done].
      rewrite lookup_app_l; [done|]. by eapply lookup_lt_Some.
  - intros j i [[<- <-]|[Hne Hj]]%lookup_insert_Some.
    + exists (id + 1). simpl. subst counts. rewrite lookup_insert_eq. split; [done|lia].
    + destruct (im_counted m Hi j i Hj) as (n & En & Hn). subst counts.
      destruct (decide (c_id j = c)) as [E|Hc].
      * exists (id + 1). rewrite E, lookup_insert_eq. split; [done|].
        rewrite E in En. subst id. rewrite En. simpl. lia.
      * exists n. by rewrite lookup_insert_ne.
  - intros d n [[<- <-]|[_ Hd]]%lookup_insert_Some; [lia|]. by apply (im_count_pos m Hi d).
Qed.

Lemma im_create :
  ∃ m2 r, InMem.create_new_page_for_write m c = Ret (m2, r) ∧ im_inv m2 ∧
    match r with
    | Err _ =>
        ¬ True ∧ ¬ True ∧ (∀ k, im_view m2 k = im_view m k) ∧
        (∀ d, InMem.get_max_page_id m2 d = InMem.get_max_page_id m d)
    | Ok g => 0 ≤ id ∧ im_view m k = None ∧
        im_view m2 k = Some (mkEntry g (blank_page id) (-1)) ∧
        (∀ j, j ≠ k → im_view m2 j = im_view m j) ∧
        InMem.get_max_page_id m2 c = Some (id + 1) ∧
        (∀ d, d ≠ c → InMem.get_max_page_id m2 d = InMem.get_max_page_id m d)
    end.
Proof.
  exists m', (Ok g). split; [apply im_create_run|]. split; [apply im_create_inv|].
  unfold im_view, InMem.get_max_page_id. simpl. rewrite im_create_new, lookup_insert_eq. simpl.
  rewrite list_lookup_middle by done. split_and!; try done.
  - apply im_id_pos.
  - intros j Hj. rewrite lookup_insert_ne by done.
    destruct (im_page_to_frame m !! j) as [i|] eqn:E; [|done]. simpl.
    destruct (im_mapped m Hi j i E) as (f' & Ef' & _).
    rewrite lookup_app_l; [done|]. by eapply lookup_lt_Some.
  - subst counts. apply lookup_insert_eq.
  - intros. subst counts. by rewrite lookup_insert_ne.
Qed.
End Create.

#[global, refine] Instance InMem_laws : MemPoolLaws InMemPool := {|
  mp_inv := im_inv;
  mp_view := im_view;
  mp_can_create := λ _, True
|}.
Proof.
  - intros m k e Hi Hv. destruct (im_view_inv m k e Hi Hv) as (f & _ & _ & (_ & ? & ?) & ->).
    simpl. split; [done|lia].
  - intros m k e Hi Hv. destruct (im_view_inv m k e Hi Hv) as (f & _ & Hf & _ & ->).
    unfold deref. simpl. by rewrite Hf.
  - intros m k e Hi Hv Hl. destruct (im_view_inv m k e Hi Hv) as (f & Hk & Hf & (? & ? & ?) & E).
    rewrite E in *. simpl in *.
    destruct (im_set_frame m k (e_guard e) f (set_latch f (latch f + 1))) as [? ?]; try done.
    { split; [done|]. simpl. split; [done|lia]. }
    eexists. split; [exact (im_get_page_for_read m k _ f _ true Hi Hk Hf (try_read_granted f Hl))|]. done.
  - intros m k e Hi Hv Hl. destruct (im_view_inv m k e Hi Hv) as (f & Hk & Hf & (? & ? & ?) & E).
    rewrite E in *. simpl in *.
    destruct (im_set_frame m k (e_guard e) f (set_dirty (set_latch f (-1)) true)) as [? ?]; try done.
    eexists. split; [exact (im_get_page_for_write m k _ f _ true Hi Hk Hf (try_write_granted f true Hl))|]. done.
  - intros m k e Hi Hv Hl. destruct (im_view_inv m k e Hi Hv) as (f & Hk & Hf & (? & ? & ?) & E).
    rewrite E in Hl. simpl in Hl.
    eexists. exact (im_get_page_for_write m k _ f _ false Hi Hk Hf (try_write_refused f true Hl)).
  - intros m k e p Hi Hv Hl Hp _. destruct (im_view_inv m k e Hi Hv) as (f & Hk & Hf & (? & ? & ?) & E).
    rewrite E in *. simpl in *. unfold deref_mut. simpl. rewrite Hf. simpl.
    destruct (im_set_frame m k (e_guard e) f (set_page f p)) as [? ?]; try done.
    eexists. split; [done|]. simpl in *. by rewrite Hl in *.
  - intros m k e Hi Hv Hl. destruct (im_view_inv m k e Hi Hv) as (f & Hk & Hf & (? & ? & ?) & E).
    rewrite E in *. simpl in *. unfold drop_write. simpl. rewrite Hf. simpl.
    destruct (im_set_frame m k (e_guard e) f (Frame.drop_write f false)) as [? ?]; try done.
    by eexists.
  - intros m k e Hi Hv Hl. destruct (im_view_inv m k e Hi Hv) as (f & Hk & Hf & (? & ? & ?) & E).
    rewrite E in *. simpl in *. unfold drop_read. simpl. rewrite Hf. simpl.
    assert (RwLatch.release_shared (latch f) = latch f - 1) as Er
      by (unfold RwLatch.release_shared; rewrite Z.mod_small; lia).
    destruct (im_set_frame m k (e_guard e) f (Frame.drop_read f false)) as [? ?]; try done.
    { split; [done|]. simpl. rewrite Er. split; [done|lia]. }
    eexists. split; [done|]. simpl in *. by rewrite Er in *.
  - intros m c Hi _ Hmax. by apply im_create.
Defined.
