(* ===== verification/BufferPool.v ===== *)
(** * The buffer pool

    Models [buffer_pool/buffer_pool.rs]: a fixed number of frames, a map from page keys to
    frames, a queue of frames that are hoped to be free, and the container files behind
    them. The statistics (compiled in with the [stat] feature only) are left out; the
    random numbers of the eviction policy are the parameter [next_u64]. *)

From S2P Require Import Prelude Common HeapPage HeapPageView BaseFile Catalog BufferFrame.

From S2P Require Import MemPool.
From stdpp Require Import gmap strings.

Open Scope Z_scope.

(** ** The page table *)

Module PageToFrame.
Abbreviation table := (gmap Z (gmap Z nat)).

Definition new : table := ∅.

Definition get (t : table) (k : ContainerPageId) : option nat :=
  m ← t !! c_id k; m !! cp_page_id k.

Definition contains_key (t : table) (k : ContainerPageId) : bool :=
  bool_decide (is_Some (get t k)).

Definition get_page_frame_ids (t : table) (c : Z) : list PageFrameId :=
  match t !! c with
  | None => []
  | Some m =>
      (λ e, PageFrameIds.new_with_frame_id c (fst e) (as_u32 (Z.of_nat (snd e)))) <$> map_to_list m
  end.

Definition insert (t : table) (k : ContainerPageId) (frame_id : nat) : outcome table :=
  let m := default ∅ (t !! c_id k) in
  match m !! cp_page_id k with
  | Some _ => Panic
  | None => Ret (<[c_id k := <[cp_page_id k := frame_id]> m]> t)
  end.

Definition remove (t : table) (k : ContainerPageId) : table * option nat :=
  match t !! c_id k with
  | None => (t, None)
  | Some m => (<[c_id k := delete (cp_page_id k) m]> t, m !! cp_page_id k)
  end.

Definition clear (t : table) : table := ∅.

Definition iter_container (t : table) (c : Z) : list (Z * nat) :=
  match t !! c with None => [] | Some m => map_to_list m end.

End PageToFrame.

(** ** The pool *)

Record BufferPool (F : Type) := mkPool {
  cfc : ContainerFileCatalog F;
  bp_latch : Z;
  eviction_hints : list nat;
  frames : list BufferFrame;
  page_to_frame : PageToFrame.table;
  lru : lru_env
}.
Arguments mkPool {F} _ _ _ _ _ _.
Arguments cfc {F} _.
Arguments bp_latch {F} _.
Arguments eviction_hints {F} _.
Arguments frames {F} _.
Arguments page_to_frame {F} _.
Arguments lru {F} _.

Module Bp.
Section Ops.
Context `{Posix F} (next_u64 : nat → Z).
Abbreviation pool := (BufferPool F).
Implicit Type m : pool.

Definition set_cfc m (t : ContainerFileCatalog F) : pool :=
  mkPool t (bp_latch m) (eviction_hints m) (frames m) (page_to_frame m) (lru m).
Definition set_pool_latch m (l : Z) : pool :=
  mkPool (cfc m) l (eviction_hints m) (frames m) (page_to_frame m) (lru m).
Definition set_hints m (h : list nat) : pool :=
  mkPool (cfc m) (bp_latch m) h (frames m) (page_to_frame m) (lru m).
Definition set_frames m (fs : list BufferFrame) : pool :=
  mkPool (cfc m) (bp_latch m) (eviction_hints m) fs (page_to_frame m) (lru m).
Definition set_table m (t : PageToFrame.table) : pool :=
  mkPool (cfc m) (bp_latch m) (eviction_hints m) (frames m) t (lru m).
Definition set_lru m (e : lru_env) : pool :=
  mkPool (cfc m) (bp_latch m) (eviction_hints m) (frames m) (page_to_frame m) e.

Definition set_frame m (g : frame_guard) (f : BufferFrame) : pool :=
  set_frames m (<[g := f]> (frames m)).
Definition with_frame m (g : frame_guard) (k : BufferFrame → BufferFrame) : outcome pool :=
  f ← unwrap (frames m !! g); Ret (set_frame m g (k f)).

(** [BufferFrame::new] for each index. *)
Fixpoint new_frames (n : nat) (from : Z) : outcome (list BufferFrame) :=
  match n with
  | O => Ret []
  | S n => f ← Frame.new (as_u32 from); fs ← new_frames n (from + 1); Ret (f :: fs)
  end.

Definition new (num_frames : nat) (container_manager : ContainerFileCatalog F) (env : lru_env) :
  outcome pool :=
  fs ← new_frames num_frames 0;
  Ret (mkPool container_manager RwLatch.default (seq 0 num_frames) fs PageToFrame.new env).

Definition shared m : outcome pool :=
  '(l, _) ← RwLatch.run_alone RwLatch.shared (bp_latch m); Ret (set_pool_latch m l).
Definition exclusive m : outcome pool :=
  '(l, _) ← RwLatch.run_alone RwLatch.exclusive (bp_latch m); Ret (set_pool_latch m l).
Definition release_shared m : pool := set_pool_latch m (RwLatch.release_shared (bp_latch m)).
Definition release_exclusive m : pool := set_pool_latch m (RwLatch.release_exclusive (bp_latch m)).

(** [guard.evict_info().update()]. *)
Definition update_evict m (g : frame_guard) : outcome pool :=
  f ← unwrap (frames m !! g);
  let '(env, e) := LRUEvictionPolicy.update next_u64 (lru m) (evict_info f) in
  Ret (set_lru (set_frame m g (set_evict f e)) env).

(** ** Victims *)

Definition choose_eviction_candidate m : outcome (pool * option frame_guard) := Ret (m, None).

(** The loop over the hints: pops until a frame can be latched. *)
Fixpoint pop_hint (hints : list nat) (fs : list BufferFrame) :
  outcome (list nat * list BufferFrame * option frame_guard) :=
  match hints with
  | [] => Ret ([], fs, None)
  | victim :: hints =>
      f ← unwrap (fs !! victim);
      '(f, ok) ← Frame.try_write f false;
      let fs := <[victim := f]> fs in
      if ok : bool then Ret (hints, fs, Some victim) else pop_hint hints fs
  end.

Definition choose_victim m : outcome (pool * option frame_guard) :=
  '(hints, fs, v) ← pop_hint (eviction_hints m) (frames m);
  let m := set_frames (set_hints m hints) fs in
  match v with
  | Some g => Ret (m, Some g)
  | None => choose_eviction_candidate m
  end.

Fixpoint pop_hints (hints : list nat) (fs : list BufferFrame) (num_victims : nat)
    (victims : list frame_guard) : outcome (list nat * list BufferFrame * list frame_guard) :=
  match hints with
  | [] => Ret ([], fs, victims)
  | victim :: hints =>
      f ← unwrap (fs !! victim);
      '(f, ok) ← Frame.try_write f false;
      let fs := <[victim := f]> fs in
      if ok : bool then
        let victims := victims ++ [victim] in
        if (length victims =? num_victims)%nat then Ret (hints, fs, victims)
        else pop_hints hints fs num_victims victims
      else pop_hints hints fs num_victims victims
  end.

(** The loop that asks for eviction candidates; each round adds a victim or stops. *)
Fixpoint evict_more (fuel : nat) m (num_victims : nat) (victims : list frame_guard) :
  outcome (pool * list frame_guard) :=
  match fuel with
  | O => Ret (m, victims)
  | S fuel =>
      if (length victims <? num_victims)%nat then
        '(m, v) ← choose_eviction_candidate m;
        match v with
        | Some victim => evict_more fuel m num_victims (victims ++ [victim])
        | None => Ret (m, victims)
        end
      else Ret (m, victims)
  end.

Definition choose_victims m (num_victims : nat) : outcome (pool * list frame_guard) :=
  let num_victims := (length (frames m) `min` num_victims)%nat in
  '(hints, fs, victims) ← pop_hints (eviction_hints m) (frames m) num_victims [];
  let m := set_frames (set_hints m hints) fs in
  if (0 <? num_victims)%nat && (length victims =? num_victims)%nat then Ret (m, victims)
  else evict_more (S num_victims) m num_victims victims.

Definition io_result (r : result string unit) : result MemPoolStatus unit :=
  match r with Ok _ => Ok tt | Err e => Err (BaseFileError e) end.

Definition write_victim_to_disk_if_dirty_w m (victim : frame_guard) :
  outcome (pool * result MemPoolStatus unit) :=
  f ← unwrap (frames m !! victim);
  match key f with
  | None => Ret (m, Ok tt)
  | Some k =>
      if is_dirty f then
        let m := set_frame m victim (set_dirty f false) in
        '(t, ct) ← Cfc.get_container (cfc m) (c_id k);
        '(t, r) ← Cfc.write_page t ct (cp_page_id k) (page f);
        Ret (set_cfc m t, io_result r)
      else Ret (m, Ok tt)
  end.

(** The same through a read guard. *)
Definition write_victim_to_disk_if_dirty_r m (victim : frame_guard) :
  outcome (pool * result MemPoolStatus unit) := write_victim_to_disk_if_dirty_w m victim.

(** ** Containers *)

Definition create_container m (c : Z) (temp : bool) : outcome (pool * result MemPoolStatus unit) :=
  t ← Cfc.register_container (cfc m) c temp; Ret (set_cfc m t, Ok tt).

Definition drop_container m (c : Z) : outcome (pool * result MemPoolStatus unit) :=
  '(t, _) ← Cfc.get_container (cfc m) c;
  t ← Cfc.set_temp t c true;
  m ← shared (set_cfc m t);
  let m := set_hints m (eviction_hints m ++ (PageToFrame.iter_container (page_to_frame m) c).*2) in
  Ret (release_shared m, Ok tt).

(** ** New pages *)

(** The old mapping of a victim is removed; it must be there. *)
Definition unmap_victim m (victim : frame_guard) : outcome pool :=
  f ← unwrap (frames m !! victim);
  match key f with
  | None => Ret m
  | Some old_key =>
      let '(t, i) := PageToFrame.remove (page_to_frame m) old_key in
      _ ← unwrap i; Ret (set_table m t)
  end.

Definition map_page m (k : ContainerPageId) (victim : frame_guard) : outcome pool :=
  f ← unwrap (frames m !! victim);
  t ← PageToFrame.insert (page_to_frame m) k (Z.to_nat (frame_id f));
  Ret (set_table m t).

(** [set_page_id], [page_id_mut().replace(key)] and the dirty flag of a new page. *)
Definition init_victim m (victim : frame_guard) (k : ContainerPageId) : outcome pool :=
  f ← unwrap (frames m !! victim);
  p ← Pages.set_page_id (page f) (cp_page_id k);
  Ret (set_frame m victim (set_dirty (set_key (set_page f p) (Some k)) true)).

Definition create_new_page_for_write m (c : Z) :
  outcome (pool * result MemPoolStatus frame_guard) :=
  '(m, v) ← choose_victim m;
  match v with
  | None => Ret (m, Err CannotEvictPage)
  | Some victim =>
      '(m, res) ← write_victim_to_disk_if_dirty_w m victim;
      match res with
      | Err e => m ← with_frame m victim (λ f, Frame.drop_write f false); Ret (m, Err e)
      | Ok _ =>
          m ← exclusive m;
          m ← unmap_victim m victim;
          '(t, _) ← Cfc.get_container (cfc m) c;
          '(t, page_id) ← Cfc.inc_page_count t c 1;
          let m := set_cfc m t in
          let page_key := mkContainerPageId c page_id in
          m ← map_page m page_key victim;
          let m := release_exclusive m in
          m ← init_victim m victim page_key;
          Ret (m, Ok victim)
      end
  end.

(** Guards that go out of scope. *)
Definition drop_victims m (victims : list frame_guard) : outcome pool :=
  foldM (λ m v, with_frame m v (λ f, Frame.drop_write f false)) m victims.

Fixpoint write_victims m (victims : list frame_guard) : outcome (pool * result MemPoolStatus unit) :=
  match victims with
  | [] => Ret (m, Ok tt)
  | v :: victims =>
      '(m, r) ← write_victim_to_disk_if_dirty_w m v;
      match r with Err e => Ret (m, Err e) | Ok _ => write_victims m victims end
  end.

Definition create_new_pages_for_write m (c num_pages : Z) :
  outcome (pool * result MemPoolStatus (list frame_guard)) :=
  _ ← guard_or_panic (0 <? num_pages);
  '(m, victims) ← choose_victims m (Z.to_nat num_pages);
  match victims with
  | [] => Ret (m, Err CannotEvictPage)
  | _ =>
      '(m, r) ← write_victims m victims;
      match r with
      | Err e => m ← drop_victims m victims; Ret (m, Err e)
      | Ok _ =>
          m ← exclusive m;
          m ← foldM unmap_victim m victims;
          '(t, _) ← Cfc.get_container (cfc m) c;
          '(t, start_page_id) ← Cfc.inc_page_count t c num_pages;
          let m := set_cfc m t in
          m ← foldM (λ m iv,
                page_id ← u32_add start_page_id (as_u32 iv.1);
                map_page m (mkContainerPageId c page_id) iv.2) m
              (take (Z.to_nat num_pages) (zip (range (zlen victims)) victims));
          let m := release_exclusive m in
          m ← foldM (λ m iv,
                page_id ← u32_add start_page_id (as_u32 iv.1);
                init_victim m iv.2 (mkContainerPageId c page_id)) m
              (zip (range (zlen victims)) victims);
          Ret (m, Ok victims)
      end
  end.

(** ** Existing pages *)

Definition is_in_mem m (k : PageFrameId) : outcome (pool * bool) :=
  '(m, hit) ←
    (if Z.to_nat (pf_frame_id k) <? length (frames m) then
       f ← unwrap (frames m !! Z.to_nat (pf_frame_id k));
       '(f, ok) ← Frame.try_read f;
       let m := set_frame m (Z.to_nat (pf_frame_id k)) f in
       if ok : bool then
         let hit := bool_decide (key f = Some (p_key k)) in
         let m := set_frame m (Z.to_nat (pf_frame_id k)) (Frame.drop_read f false) in
         Ret (m, hit)
       else Ret (m, false)
     else Ret (m, false))%nat;
  if hit : bool then Ret (m, true)
  else
    m ← shared m;
    let res := PageToFrame.contains_key (page_to_frame m) (p_key k) in
    Ret (release_shared m, res).

Definition get_max_page_id m (c : Z) : option Z := Cfc.get_container_page_count (cfc m) c.

Definition get_page_ids_in_mem m (c : Z) : list PageFrameId :=
  PageToFrame.get_page_frame_ids (page_to_frame m) c.

(** A clean, write-latched frame for a page that is not in memory. *)
Definition clean_victim m : outcome (pool * option frame_guard) :=
  '(m, v) ← choose_victim m;
  match v with
  | None => Ret (m, None)
  | Some victim =>
      '(m, r) ← write_victim_to_disk_if_dirty_w m victim;
      _ ← result_unwrap r;
      f ← unwrap (frames m !! victim);
      _ ← guard_or_panic (negb (is_dirty f));
      Ret (m, Some victim)
  end.

(** The page is read from its file into the victim, whose mapping is already in place; on
    failure the guard is dropped. *)
Definition load_victim m (victim : frame_guard) (k : ContainerPageId) :
  outcome (pool * result MemPoolStatus unit) :=
  '(t, ct) ← Cfc.get_container (cfc m) (c_id k);
  let m := set_cfc m t in
  f ← unwrap (frames m !! victim);
  '(p, r) ← Cfc.read_page t ct (cp_page_id k) (page f);
  let m := set_frame m victim (set_page f p) in
  match r with
  | Err e =>
      m ← with_frame m victim (λ f, Frame.drop_write f false);
      Ret (m, Err (BaseFileError e))
  | Ok _ =>
      m ← with_frame m victim (λ f, set_evict (set_key f (Some k)) (LRUEvictionPolicy.reset (evict_info f)));
      m ← update_evict m victim;
      Ret (m, Ok tt)
  end.

Definition get_page_for_write m (k : PageFrameId) : outcome (pool * result MemPoolStatus frame_guard) :=
  m ← shared m;
  match PageToFrame.get (page_to_frame m) (p_key k) with
  | Some index =>
      f ← unwrap (frames m !! index);
      '(f, ok) ← Frame.try_write f true;
      let m := release_shared (set_frame m index f) in
      if ok : bool then m ← update_evict m index; Ret (m, Ok index)
      else Ret (m, Err FrameWriteLatchGrantFailed)
  | None =>
      '(m, v) ← clean_victim (release_shared m);
      match v with
      | None => Ret (m, Err CannotEvictPage)
      | Some victim =>
          m ← exclusive m;
          match PageToFrame.get (page_to_frame m) (p_key k) with
          | Some index =>
              f ← unwrap (frames m !! index);
              '(f, ok) ← Frame.try_write f true;
              let m := release_exclusive (set_frame m index f) in
              let m := set_hints m (eviction_hints m ++ [index]) in
              m ← with_frame m victim (λ f, Frame.drop_write f false);
              if ok : bool then m ← update_evict m index; Ret (m, Ok index)
              else Ret (m, Err FrameWriteLatchGrantFailed)
          | None =>
              m ← unmap_victim m victim;
              m ← map_page m (p_key k) victim;
              '(m, r) ← load_victim (release_exclusive m) victim (p_key k);
              match r with
              | Err e => Ret (m, Err e)
              | Ok _ => m ← with_frame m victim (λ f, set_dirty f true); Ret (m, Ok victim)
              end
          end
      end
  end.

Definition get_page_for_read m (k : PageFrameId) : outcome (pool * result MemPoolStatus frame_guard) :=
  m ← shared m;
  match PageToFrame.get (page_to_frame m) (p_key k) with
  | Some index =>
      f ← unwrap (frames m !! index);
      '(f, ok) ← Frame.try_read f;
      let m := release_shared (set_frame m index f) in
      if ok : bool then m ← update_evict m index; Ret (m, Ok index)
      else Ret (m, Err FrameReadLatchGrantFailed)
  | None =>
      '(m, v) ← clean_victim (release_shared m);
      match v with
      | None => Ret (m, Err CannotEvictPage)
      | Some victim =>
          m ← exclusive m;
          match PageToFrame.get (page_to_frame m) (p_key k) with
          | Some index =>
              f ← unwrap (frames m !! index);
              '(f, ok) ← Frame.try_read f;
              let m := release_exclusive (set_frame m index f) in
              let m := set_hints m (eviction_hints m ++ [index]) in
              m ← with_frame m victim (λ f, Frame.drop_write f false);
              if ok : bool then m ← update_evict m index; Ret (m, Ok index)
              else Ret (m, Err FrameReadLatchGrantFailed)
          | None =>
              m ← unmap_victim m victim;
              m ← map_page m (p_key k) victim;
              '(m, r) ← load_victim (release_exclusive m) victim (p_key k);
              match r with
              | Err e => Ret (m, Err e)
              | Ok _ =>
                  f ← unwrap (frames m !! victim);
                  f ← Frame.downgrade f;
                  Ret (set_frame m victim f, Ok victim)
              end
          end
      end
  end.

(** ** Whole-pool operations *)

(** The spin loop around [try_read] or [try_write]: with nobody else running, a frame that
    is not granted at once never is. *)
Definition spin_read m (g : frame_guard) : outcome pool :=
  f ← unwrap (frames m !! g);
  '(f, ok) ← Frame.try_read f;
  _ ← guard_or_panic ok;
  Ret (set_frame m g f).
Definition spin_write m (g : frame_guard) : outcome pool :=
  f ← unwrap (frames m !! g);
  '(f, ok) ← Frame.try_write f false;
  _ ← guard_or_panic ok;
  Ret (set_frame m g f).

(** [cfc.flush_all] at the end of the whole-pool operations. *)
Definition sync_files m : outcome (result MemPoolStatus unit) :=
  r ← Cfc.flush_all (cfc m); Ret (io_result r).

Fixpoint flush_frames m (gs : list frame_guard) : outcome (pool * result MemPoolStatus unit) :=
  match gs with
  | [] => Ret (m, Ok tt)
  | g :: gs =>
      m ← spin_read m g;
      '(m, r) ← write_victim_to_disk_if_dirty_r m g;
      m ← with_frame m g (λ f, Frame.drop_read f false);
      match r with Err e => Ret (m, Err e) | Ok _ => flush_frames m gs end
  end.

Definition flush_all m : outcome (pool * result MemPoolStatus unit) :=
  m ← shared m;
  '(m, r) ← flush_frames m (seq 0 (length (frames m)));
  match r with
  | Err e => Ret (release_shared m, Err e)
  | Ok _ => r ← sync_files m; Ret (release_shared m, r)
  end.

Definition clear_frames m (gs : list frame_guard) : outcome pool :=
  foldM (λ m g,
    m ← spin_write m g;
    with_frame m g (λ f, Frame.drop_write (Frame.clear f) false)) m gs.

(** The end of [reset] and [flush_all_and_reset]. *)
Definition finish_reset m : outcome (pool * result MemPoolStatus unit) :=
  r ← sync_files m;
  match r with
  | Err e => Ret (release_exclusive m, Err e)
  | Ok _ =>
      let m := set_table m (PageToFrame.clear (page_to_frame m)) in
      let m := set_hints m (seq 0 (length (frames m))) in
      Ret (release_exclusive m, Ok tt)
  end.

Definition reset m : outcome (pool * result MemPoolStatus unit) :=
  m ← exclusive m;
  m ← clear_frames m (seq 0 (length (frames m)));
  finish_reset m.

Fixpoint flush_clear_frames m (gs : list frame_guard) : outcome (pool * result MemPoolStatus unit) :=
  match gs with
  | [] => Ret (m, Ok tt)
  | g :: gs =>
      m ← spin_write m g;
      '(m, r) ← write_victim_to_disk_if_dirty_w m g;
      match r with
      | Err e => m ← with_frame m g (λ f, Frame.drop_write f false); Ret (m, Err e)
      | Ok _ =>
          m ← with_frame m g (λ f, Frame.drop_write (Frame.clear f) false);
          flush_clear_frames m gs
      end
  end.

Definition flush_all_and_reset m : outcome (pool * result MemPoolStatus unit) :=
  m ← exclusive m;
  '(m, r) ← flush_clear_frames m (seq 0 (length (frames m)));
  match r with
  | Err e => Ret (release_exclusive m, Err e)
  | Ok _ => finish_reset m
  end.

Definition clear_dirty_flags m : outcome (pool * result MemPoolStatus unit) :=
  m ← exclusive m;
  m ← foldM (λ m g,
        m ← spin_write m g;
        with_frame m g (λ f, Frame.drop_write (set_dirty f false) false)) m (seq 0 (length (frames m)));
  r ← sync_files m;
  Ret (release_exclusive m, r).

(** [Drop]: the pages of a directory that stays are written out. *)
Definition drop m : outcome pool :=
  if remove_dir_on_drop (cfc m) then Ret m
  else '(m, r) ← flush_all_and_reset m; _ ← result_unwrap r; Ret m.

End Ops.
End Bp.

(** The pool as a memory pool, for a given source of random numbers. *)
Definition Bp_MemPool `{Posix F} (next_u64 : nat → Z) : MemPool (BufferPool F) := {|
  mp_create_container := Bp.create_container;
  mp_drop_container := Bp.drop_container;
  mp_create_new_page_for_write := Bp.create_new_page_for_write;
  mp_create_new_pages_for_write := Bp.create_new_pages_for_write;
  mp_is_in_mem := Bp.is_in_mem;
  mp_get_max_page_id := Bp.get_max_page_id;
  mp_get_page_ids_in_mem := Bp.get_page_ids_in_mem;
  mp_get_page_for_write := Bp.get_page_for_write next_u64;
  mp_get_page_for_read := Bp.get_page_for_read next_u64;
  mp_flush_all := Bp.flush_all;
  mp_flush_all_and_reset := Bp.flush_all_and_reset;
  mp_clear_dirty_flags := Bp.clear_dirty_flags;
  mp_reset := Bp.reset;
  mp_frame m g := frames m !! g;
  mp_set_frame := Bp.set_frame
|}.
