(* ===== verification/BufferPoolLaws.v ===== *)
(** * The buffer pool satisfies the pool laws

    As long as the frames queued as eviction hints are unused frames, which holds for a
    fresh pool and is kept by creating, reading and writing pages that are in memory, the
    buffer pool behaves as a memory pool that can create a page while the queue is not
    empty. The view covers the pages in memory. *)

From S2P Require Import Prelude Common Decimal HeapPage HeapPageView BaseFile Catalog.
From S2P Require Import BufferFrame.

From S2P Require Import MemPool InMemPool BufferPool.
From stdpp Require Import gmap strings.

Open Scope Z_scope.

(** ** The page table *)

Lemma ptf_insert t k i :
  PageToFrame.get t k = None →
  ∃ t', PageToFrame.insert t k i = Ret t' ∧ PageToFrame.get t' k = Some i ∧
    ∀ j, j ≠ k → PageToFrame.get t' j = PageToFrame.get t j.
Proof.
  destruct k as [c p]. unfold PageToFrame.get, PageToFrame.insert. simpl. intros Hn.
  assert (default ∅ (t !! c) !! p = None) as E.
  { destruct (t !! c) as [tm|]; simpl in *; [done|apply lookup_empty]. }
  rewrite E. eexists. split; [done|]. split; [by rewrite lookup_insert_eq; simpl; rewrite lookup_insert_eq|].
  intros [d q] Hne. simpl. destruct (decide (d = c)) as [->|].
  - rewrite lookup_insert_eq. simpl. rewrite lookup_insert_ne by congruence.
    destruct (t !! c); simpl; [done|apply lookup_empty].
  - by rewrite lookup_insert_ne by done.
Qed.

(** ** The invariant *)

(** A frame that was never used. *)
Definition free_frame (f : BufferFrame) : Prop :=
  key f = None ∧ latch f = 0 ∧ page f = blank_page 0 ∧ is_dirty f = false.

Section Laws.
Context `{Laws : PosixLaws F} (next_u64 : nat → Z).
#[local] Hint Extern 0 (MemPool (BufferPool F)) => exact (Bp_MemPool next_u64) : typeclass_instances.
Implicit Type m : BufferPool F.

(** The bytes of page [k] are in its file. *)
Definition on_disk (t : ContainerFileCatalog F) (k : ContainerPageId) (p : Page) : Prop :=
  ∃ ff, base_dir t !! show_u16 (c_id k) = Some ff ∧ cp_page_id k < BaseFile.num_pages ff ∧
    disk_page ff (cp_page_id k) = p.

(** A frame that is being written is dirty, and one that is not dirty agrees with the file,
    unless the container is temporary. *)
Definition frame_synced (t : ContainerFileCatalog F) (k : ContainerPageId) (f : BufferFrame) : Prop :=
  (latch f = -1 → is_dirty f = true) ∧
  (is_dirty f = false →
   ∀ ct, cfc_containers t !! c_id k = Some ct → is_temp ct = false → on_disk t k (page f)).

(** The state between operations has [l = 0]; whole-pool operations hold the latch. *)
Record bp_inv_at (l : Z) m : Prop := {
  bi_latch : bp_latch m = l;
  bi_cfc : cfc_inv (cfc m);
  bi_ids i f : frames m !! i = Some f → frame_id f = Z.of_nat i;
  bi_mapped k i : PageToFrame.get (page_to_frame m) k = Some i →
    ∃ f, frames m !! i = Some f ∧ frame_of k f ∧ u32_at (page f) 0 = cp_page_id k ∧
      frame_synced (cfc m) k f;
  bi_keyed i f k : frames m !! i = Some f → key f = Some k →
    PageToFrame.get (page_to_frame m) k = Some i;
  bi_counted k i : PageToFrame.get (page_to_frame m) k = Some i →
    ∃ ct, cfc_containers (cfc m) !! c_id k = Some ct ∧ 0 ≤ cp_page_id k < page_count ct;
  bi_nodup : NoDup (eviction_hints m);
  bi_hints i : i ∈ eviction_hints m → ∃ f, frames m !! i = Some f ∧ free_frame f
}.
Arguments bi_latch {_} _ _.
Arguments bi_cfc {_} _ _.
Arguments bi_ids {_} _ _.
Arguments bi_mapped {_} _ _.
Arguments bi_keyed {_} _ _.
Arguments bi_counted {_} _ _.
Arguments bi_nodup {_} _ _.
Arguments bi_hints {_} _ _.
Abbreviation bp_inv := (bp_inv_at 0).

Definition bp_view m (k : ContainerPageId) : option entry :=
  i ← PageToFrame.get (page_to_frame m) k;
  f ← frames m !! i;
  Some (mkEntry i (page f) (latch f)).

Definition bp_can_create m : Prop := eviction_hints m ≠ [].

Lemma bp_view_inv l m k e :
  bp_inv_at l m → bp_view m k = Some e →
  ∃ f, PageToFrame.get (page_to_frame m) k = Some (e_guard e) ∧ frames m !! e_guard e = Some f ∧
    frame_of k f ∧ (u32_at (page f) 0 = cp_page_id k ∧ frame_synced (cfc m) k f) ∧
    e = mkEntry (e_guard e) (page f) (latch f).
Proof.
  intros Hi Hv. unfold bp_view in Hv. destruct (PageToFrame.get _ k) as [i|] eqn:E; [|done].
  destruct (bi_mapped m Hi k i E) as (f & Ef & Hf & Hid & Hs). simpl in Hv. rewrite Ef in Hv.
  injection Hv as <-. by exists f.
Qed.

Lemma bp_view_mapped m k i f :
  PageToFrame.get (page_to_frame m) k = Some i → frames m !! i = Some f →
  bp_view m k = Some (mkEntry i (page f) (latch f)).
Proof. intros Hk Hf. unfold bp_view. by rewrite Hk; simpl; rewrite Hf. Qed.

(** Changing the frame of page [k]. *)
Lemma bp_set l l' m m' k i f f' :
  bp_inv_at l m → PageToFrame.get (page_to_frame m) k = Some i → frames m !! i = Some f →
  frame_of k f' → frame_id f' = frame_id f → u32_at (page f') 0 = cp_page_id k →
  frame_synced (cfc m) k f' →
  bp_latch m' = l' → cfc m' = cfc m → eviction_hints m' = eviction_hints m →
  page_to_frame m' = page_to_frame m → frames m' = <[i := f']> (frames m) →
  bp_inv_at l' m' ∧
  view_update bp_view Bp.get_max_page_id bp_can_create m m' k (mkEntry i (page f') (latch f')).
Proof.
  intros Hi Hk Hf Hof Hfid Hid Hs El Ec Eh Et Ef.
  assert (frames m' !! i = Some f') as Hf' by (rewrite Ef; apply list_lookup_insert_eq; by eapply lookup_lt_Some).
  assert (key f = Some k) as Hkey by (destruct (bi_mapped m Hi k i Hk) as (? & ? & (? & _) & _); congruence).
  assert (∀ j x, j ≠ k → PageToFrame.get (page_to_frame m) j = Some x → x ≠ i) as Hother.
  { intros j x Hj Hx ->. destruct (bi_mapped m Hi j i Hx) as (? & ? & (? & _) & _). congruence. }
  assert (∀ x, x ≠ i → frames m' !! x = frames m !! x) as Helse
    by (intros; rewrite Ef; by apply list_lookup_insert_ne).
  split; split.
  - done.
  - rewrite Ec. apply Hi.
  - intros x g Hx. destruct (decide (x = i)) as [->|].
    + assert (g = f') as -> by congruence. rewrite Hfid. by apply (bi_ids m Hi).
    + rewrite Helse in Hx by done. by apply (bi_ids m Hi).
  - intros j x. rewrite Et. intros Hx. destruct (decide (j = k)) as [->|].
    + assert (x = i) as -> by congruence. exists f'. by rewrite Ec.
    + rewrite Helse, Ec by (by eapply Hother). by apply (bi_mapped m Hi).
  - intros x g j Hx Hj. rewrite Et. destruct (decide (x = i)) as [->|].
    + assert (g = f') as -> by congruence. destruct Hof as [? _]. congruence.
    + rewrite Helse in Hx by done. by eapply (bi_keyed m Hi).
  - intros j x. rewrite Et, Ec. apply (bi_counted m Hi).
  - rewrite Eh. apply Hi.
  - intros x Hx. rewrite Eh in Hx. destruct (bi_hints m Hi x Hx) as (g & Hg & Hfree).
    exists g. rewrite Helse; [done|]. intros ->. destruct Hfree as [? _]. congruence.
  - apply bp_view_mapped; [by rewrite Et|done].
  - intros j Hj. unfold bp_view. rewrite Et. destruct (PageToFrame.get _ j) as [x|] eqn:Ex; [|done].
    simpl. by rewrite Helse by (by eapply Hother).
  - intros c. unfold Bp.get_max_page_id. by rewrite Ec.
  - unfold bp_can_create. by rewrite Eh.
Qed.

(** [update_evict] touches the eviction score of its frame and the clock. *)
Lemma update_evict_ok m i f :
  frames m !! i = Some f →
  ∃ e env, Bp.update_evict next_u64 m i =
    Ret (Bp.set_lru (Bp.set_frame m i (set_evict f e)) env).
Proof.
  intros Hf. unfold Bp.update_evict. rewrite Hf. simpl. destruct (LRUEvictionPolicy.update _ _ _). eauto.
Qed.

Lemma bp_shared m : bp_inv m → Bp.shared m = Ret (Bp.set_pool_latch m 1).
Proof. intros Hi. unfold Bp.shared. by rewrite (bi_latch m Hi). Qed.

Lemma bp_exclusive m : bp_latch m = 0 → Bp.exclusive m = Ret (Bp.set_pool_latch m (-1)).
Proof. intros E. unfold Bp.exclusive. by rewrite E. Qed.

(** The fast paths of [get_page_for_read] and [get_page_for_write]. *)
Lemma bp_get_page_for_read m k i f f' :
  bp_inv m → PageToFrame.get (page_to_frame m) k = Some i → frames m !! i = Some f →
  Frame.try_read f = Ret (f', true) →
  ∃ e env, Bp.get_page_for_read next_u64 m (mkPageFrameId k U32_MAX) =
    Ret (Bp.set_lru (Bp.set_frame (Bp.set_frame m i f') i (set_evict f' e)) env, Ok i).
Proof.
  intros Hi Hk Hf Ht. unfold Bp.get_page_for_read. rewrite bp_shared by done. simpl.
  rewrite Hk, Hf. simpl. rewrite Ht. simpl.
  edestruct (update_evict_ok (Bp.release_shared (Bp.set_frame (Bp.set_pool_latch m 1) i f')) i f') as (e & env & ->).
  { simpl. apply list_lookup_insert_eq. by eapply lookup_lt_Some. }
  exists e, env. simpl. pose proof (bi_latch m Hi) as El. destruct m; simpl in *. by rewrite El.
Qed.

Lemma bp_get_page_for_write m k i f f' ok :
  bp_inv m → PageToFrame.get (page_to_frame m) k = Some i → frames m !! i = Some f →
  Frame.try_write f true = Ret (f', ok) →
  if ok then ∃ e env, Bp.get_page_for_write next_u64 m (mkPageFrameId k U32_MAX) =
    Ret (Bp.set_lru (Bp.set_frame (Bp.set_frame m i f') i (set_evict f' e)) env, Ok i)
  else ∃ m', Bp.get_page_for_write next_u64 m (mkPageFrameId k U32_MAX) =
    Ret (m', Err FrameWriteLatchGrantFailed).
Proof.
  intros Hi Hk Hf Ht. unfold Bp.get_page_for_write. rewrite bp_shared by done. simpl.
  rewrite Hk, Hf. simpl. rewrite Ht. simpl. destruct ok; [|by eexists].
  edestruct (update_evict_ok (Bp.release_shared (Bp.set_frame (Bp.set_pool_latch m 1) i f')) i f') as (e & env & ->).
  { simpl. apply list_lookup_insert_eq. by eapply lookup_lt_Some. }
  exists e, env. simpl. pose proof (bi_latch m Hi) as El. destruct m; simpl in *. by rewrite El.
Qed.

(** ** New pages *)

Lemma bp_choose_free m i hs :
  bp_inv m → eviction_hints m = i :: hs →
  ∃ f, frames m !! i = Some f ∧ free_frame f ∧
    Bp.choose_victim m =
      Ret (Bp.set_frames (Bp.set_hints m hs) (<[i := set_latch f (-1)]> (frames m)), Some i).
Proof.
  intros Hi Eh. destruct (bi_hints m Hi i) as (f & Hf & Hfree); [rewrite Eh; left|].
  exists f. split; [done|]. split; [done|]. unfold Bp.choose_victim. rewrite Eh. simpl. rewrite Hf. simpl.
  rewrite try_write_granted by apply Hfree. done.
Qed.

(** The state after the frame [i], free before, was given to the page [k]. *)
Lemma bp_inv_grow m m' i hs f f' k ct :
  bp_inv m → eviction_hints m = i :: hs → frames m !! i = Some f → free_frame f →
  PageToFrame.get (page_to_frame m) k = None →
  bp_latch m' = 0 → cfc_inv (cfc m') →
  (∀ d ctd, cfc_containers (cfc m) !! d = Some ctd →
     ∃ ctd', cfc_containers (cfc m') !! d = Some ctd' ∧ page_count ctd ≤ page_count ctd' ∧
       is_temp ctd' = is_temp ctd) →
  (∀ s ff, base_dir (cfc m) !! s = Some ff → base_dir (cfc m') !! s = Some ff) →
  cfc_containers (cfc m') !! c_id k = Some ct → 0 ≤ cp_page_id k < page_count ct →
  eviction_hints m' = hs → frames m' = <[i := f']> (frames m) →
  frame_of k f' → frame_id f' = frame_id f → u32_at (page f') 0 = cp_page_id k →
  frame_synced (cfc m') k f' →
  PageToFrame.get (page_to_frame m') k = Some i →
  (∀ j, j ≠ k → PageToFrame.get (page_to_frame m') j = PageToFrame.get (page_to_frame m) j) →
  bp_inv m'.
Proof.
  intros Hi Eh Hf Hfree Hn El Hcfc Hcs Hdir Hct Hp Eh' Ef Hof Hfid Hid Hdirty Hk Helse.
  assert (frames m' !! i = Some f') as Hf' by (rewrite Ef; apply list_lookup_insert_eq; by eapply lookup_lt_Some).
  assert (∀ x, x ≠ i → frames m' !! x = frames m !! x) as Hx
    by (intros; rewrite Ef; by apply list_lookup_insert_ne).
  assert (∀ j x, PageToFrame.get (page_to_frame m) j = Some x → x ≠ i) as Hused.
  { intros j x Hj ->. destruct (bi_mapped m Hi j i Hj) as (g & Hg & (? & _) & _).
    destruct Hfree as [? _]. congruence. }
  pose proof (bi_nodup m Hi) as Hnd. rewrite Eh in Hnd. apply NoDup_cons in Hnd as [Hnot Hnd].
  split; [done|done| | | | | |].
  - intros x g Hg. destruct (decide (x = i)) as [->|].
    + assert (g = f') as -> by congruence. rewrite Hfid. by apply (bi_ids m Hi).
    + rewrite Hx in Hg by done. by apply (bi_ids m Hi).
  - intros j x Hj. destruct (decide (j = k)) as [->|].
    + assert (x = i) as -> by congruence. by exists f'.
    + rewrite Helse in Hj by done. rewrite Hx by (by eapply Hused).
      destruct (bi_mapped m Hi j x Hj) as (g & ? & ? & ? & Hs1 & Hs2). exists g. split_and!; try done.
      split; [done|]. intros Hd ctd' Hctd' Ht. destruct (bi_counted m Hi j x Hj) as (ctd & Hctd & _).
      destruct (Hcs _ _ Hctd) as (? & E & _ & Et). assert (ctd' = x0) as -> by congruence.
      destruct (Hs2 Hd ctd Hctd) as (ff & ? & ?); [congruence|]. exists ff. auto.
  - intros x g j Hg Hj. destruct (decide (x = i)) as [->|].
    + destruct Hof as [? _]. congruence.
    + rewrite Hx in Hg by done. pose proof (bi_keyed m Hi x g j Hg Hj) as Hj'.
      rewrite Helse; [done|]. congruence.
  - intros j x Hj. destruct (decide (j = k)) as [->|]; [eauto|]. rewrite Helse in Hj by done.
    destruct (bi_counted m Hi j x Hj) as (ctd & Hd & ?). destruct (Hcs _ _ Hd) as (ctd' & ? & ? & _).
    exists ctd'. split; [done|lia].
  - by rewrite Eh'.
  - intros x Hin. rewrite Eh' in Hin. rewrite Hx by (intros ->; done). apply (bi_hints m Hi).
    rewrite Eh. by right.
Qed.

Lemma u32_at_blank id : 0 ≤ id < 2 ^ 32 → u32_at (blank_page id) 0 = id.
Proof.
  intros Hid. unfold u32_at, blank_page, sub. simpl Z.to_nat. rewrite drop_0.
  rewrite take_app_length' by (by rewrite length_le_split). rewrite le_combine_split.
  apply Z.mod_small. change (Z.of_nat 4 * 8) with 32. done.
Qed.

(** The catalog after page ids of container [c] were drawn. *)
Lemma bp_draw_id m c :
  bp_inv m → 0 ≤ c < 2 ^ 16 → default 0 (Bp.get_max_page_id m c) < U32_MAX →
  let id := default 0 (Bp.get_max_page_id m c) in
  0 ≤ id < 2 ^ 32 ∧ PageToFrame.get (page_to_frame m) (mkContainerPageId c id) = None ∧
  ∃ t1 ct t2 ct', Cfc.get_container (cfc m) c = Ret (t1, ct) ∧ Cfc.inc_page_count t1 c 1 = Ret (t2, id) ∧
    cfc_inv t2 ∧ cfc_containers t2 !! c = Some ct' ∧ page_count ct' = id + 1 ∧
    (∀ ct0, cfc_containers (cfc m) !! c = Some ct0 → is_temp ct' = is_temp ct0) ∧
    (∀ s ff, base_dir (cfc m) !! s = Some ff → base_dir t2 !! s = Some ff) ∧
    ∀ d, d ≠ c → cfc_containers t2 !! d = cfc_containers (cfc m) !! d.
Proof.
  intros Hi Hc Hmax id.
  destruct (get_container_ok (cfc m) c (bi_cfc m Hi) Hc) as (t1 & ct & E1 & Ht1 & Hct & Hdir & Hother & Hcase & _).
  assert (page_count ct = id) as Eid.
  { subst id. unfold Bp.get_max_page_id, Cfc.get_container_page_count.
    destruct (cfc_containers (cfc m) !! c) as [ct0|]; [by destruct Hcase as [_ ->]|done]. }
  pose proof (co_count _ _ _ (ci_container t1 Ht1 c ct Hct)) as Hcount. fold id in Hmax. unfold U32_MAX in Hmax.
  destruct (inc_page_count_ok t1 c ct Ht1 Hct) as (t2 & E2 & Ht2 & Edir & _ & Ecs); [lia|].
  split_and!; [lia|lia| |].
  - destruct (PageToFrame.get _ _) as [x|] eqn:Ex; [|done].
    destruct (bi_counted m Hi _ x Ex) as (ct0 & E0 & ?). simpl in *. rewrite E0 in Hcase.
    destruct Hcase as [_ ->]. lia.
  - eexists t1, ct, t2, _. rewrite Eid in E2. split_and!; try done.
    + by rewrite Ecs, lookup_insert_eq.
    + simpl. lia.
    + intros ct0 E0. rewrite E0 in Hcase. by destruct Hcase as [_ ->].
    + intros s ff Hs. rewrite Edir. auto.
    + intros d Hd. by rewrite Ecs, lookup_insert_ne, Hother.
Qed.

Lemma bp_create_run m c i hs f t1 ct t2 id tab :
  bp_inv m → frames m !! i = Some f → free_frame f →
  Bp.choose_victim m =
    Ret (Bp.set_frames (Bp.set_hints m hs) (<[i := set_latch f (-1)]> (frames m)), Some i) →
  Cfc.get_container (cfc m) c = Ret (t1, ct) → Cfc.inc_page_count t1 c 1 = Ret (t2, id) →
  PageToFrame.insert (page_to_frame m) (mkContainerPageId c id) i = Ret tab →
  Bp.create_new_page_for_write m c =
    Ret (mkPool t2 0 hs
           (<[i := mkFrame (frame_id f) (-1) true (evict_info f) (Some (mkContainerPageId c id))
                     (blank_page id)]> (frames m)) tab (lru m), Ok i).
Proof.
  intros Hi Hf (Hk & _ & Hp & _) Hv Hg Hinc Hins. unfold Bp.create_new_page_for_write. rewrite Hv, bind_Ret.
  set (f1 := set_latch f (-1)). set (m1 := Bp.set_frames _ _).
  assert (∀ fs, length fs = length (frames m) → (<[i := f1]> fs) !! i = Some f1) as Hins1.
  { intros fs El. apply list_lookup_insert_eq. rewrite El. by eapply lookup_lt_Some. }
  assert (frames m1 !! i = Some f1) as Hf1 by by apply Hins1.
  assert (Bp.write_victim_to_disk_if_dirty_w m1 i = Ret (m1, Ok tt)) as ->.
  { unfold Bp.write_victim_to_disk_if_dirty_w. rewrite Hf1. simpl. by rewrite Hk. }
  rewrite bind_Ret, (bp_exclusive m1 (bi_latch m Hi)), bind_Ret.
  assert (Bp.unmap_victim (Bp.set_pool_latch m1 (-1)) i = Ret (Bp.set_pool_latch m1 (-1))) as ->.
  { unfold Bp.unmap_victim. cbn [Bp.set_pool_latch frames]. rewrite Hf1. cbn [unwrap]. by rewrite bind_Ret; simpl; rewrite Hk. }
  rewrite bind_Ret. change (cfc (Bp.set_pool_latch m1 (-1))) with (cfc m).
  rewrite Hg, bind_Ret, Hinc, bind_Ret. unfold Bp.map_page.
  change (frames (Bp.set_cfc (Bp.set_pool_latch m1 (-1)) t2)) with (frames m1).
  change (page_to_frame (Bp.set_cfc (Bp.set_pool_latch m1 (-1)) t2)) with (page_to_frame m).
  rewrite Hf1. cbn [unwrap]. rewrite bind_Ret. change (frame_id f1) with (frame_id f).
  rewrite (bi_ids m Hi i f Hf), Nat2Z.id, Hins, !bind_Ret. unfold Bp.init_victim.
  change (frames (Bp.release_exclusive _)) with (frames m1). rewrite Hf1. cbn [unwrap].
  rewrite bind_Ret. change (page f1) with (page f). rewrite Hp. cbn [cp_page_id]. rewrite set_page_id_blank, !bind_Ret.
  unfold Bp.set_frame. change (frames (Bp.release_exclusive _)) with (<[i := f1]> (frames m)).
  rewrite list_insert_insert_eq.
  by rewrite <-(bi_ids m Hi i f Hf).
Qed.

Lemma bp_create m c :
  bp_inv m → 0 ≤ c < 2 ^ 16 → default 0 (Bp.get_max_page_id m c) < U32_MAX →
  ∃ m' r, Bp.create_new_page_for_write m c = Ret (m', r) ∧ bp_inv m' ∧
    match r with
    | Err _ =>
        ¬ bp_can_create m ∧ ¬ bp_can_create m' ∧ (∀ k, bp_view m' k = bp_view m k) ∧
        (∀ d, Bp.get_max_page_id m' d = Bp.get_max_page_id m d)
    | Ok g =>
        let id := default 0 (Bp.get_max_page_id m c) in
        let k := mkContainerPageId c id in
        0 ≤ id ∧ bp_view m k = None ∧
        bp_view m' k = Some (mkEntry g (blank_page id) (-1)) ∧
        (∀ j, j ≠ k → bp_view m' j = bp_view m j) ∧
        Bp.get_max_page_id m' c = Some (id + 1) ∧
        (∀ d, d ≠ c → Bp.get_max_page_id m' d = Bp.get_max_page_id m d)
    end.
Proof.
  intros Hi Hc Hmax. destruct (eviction_hints m) as [|i hs] eqn:Eh.
  { exists m, (Err CannotEvictPage). unfold Bp.create_new_page_for_write, Bp.choose_victim. rewrite Eh. simpl.
    split; [by destruct m; simpl in *; subst|]. split; [done|]. unfold bp_can_create. rewrite Eh. split; [by intros []|]. split; [by intros []|done]. }
  destruct (bp_choose_free m i hs Hi Eh) as (f & Hf & Hfree & Hv).
  destruct (bp_draw_id m c Hi Hc Hmax) as (Hid & Hnew & t1 & ct & t2 & ct' & Eg & Ei & Ht2 & Hct & Hcount & Htemp & Hdir & Hother).
  set (id := default 0 (Bp.get_max_page_id m c)) in *. set (k := mkContainerPageId c id) in *.
  destruct (ptf_insert (page_to_frame m) k i Hnew) as (tab & Etab & Hk & Helse).
  eexists _, _. split; [by eapply bp_create_run|].
  set (f' := mkFrame _ _ _ _ _ _). set (m' := mkPool _ _ _ _ _ _).
  assert (frames m' !! i = Some f') as Hf' by (apply list_lookup_insert_eq; by eapply lookup_lt_Some).
  split; [|split_and!].
  - eapply (bp_inv_grow m m' i hs f f' k ct'); try done.
    + intros d ctd Hd. destruct (decide (d = c)) as [->|]; [|exists ctd; simpl; by rewrite Hother].
      exists ct'. split; [done|]. split; [|by apply Htemp]. rewrite Hcount. subst id. unfold Bp.get_max_page_id, Cfc.get_container_page_count.
      rewrite Hd. simpl. unfold Cfc.num_pages. lia.
    + simpl. lia.
    + by apply u32_at_blank.
  - lia.
  - unfold bp_view. fold k. by rewrite Hnew.
  - fold k. by rewrite (bp_view_mapped m' k i f').
  - intros j Hj. unfold bp_view. simpl. rewrite Helse by done.
    destruct (PageToFrame.get (page_to_frame m) j) as [x|] eqn:Ex; [|done]. simpl.
    rewrite list_lookup_insert_ne; [done|]. intros <-.
    destruct (bi_mapped m Hi j i Ex) as (? & ? & (? & _) & _). destruct Hfree as [? _]. congruence.
  - unfold Bp.get_max_page_id, Cfc.get_container_page_count. simpl. rewrite Hct. simpl.
    unfold Cfc.num_pages. by rewrite Hcount.
  - intros d Hd. unfold Bp.get_max_page_id, Cfc.get_container_page_count. simpl. by rewrite Hother.
Qed.

(** ** The laws *)

#[refine] Instance Bp_laws : @MemPoolLaws (BufferPool F) (Bp_MemPool next_u64) := {|
  mp_inv := bp_inv;
  mp_view := bp_view;
  mp_can_create := bp_can_create
|}.
Proof.
  - intros m k e Hi Hv. destruct (bp_view_inv _ m k e Hi Hv) as (f & _ & _ & (_ & ? & ?) & _ & ->).
    simpl. split; [done|lia].
  - intros m k e Hi Hv. destruct (bp_view_inv _ m k e Hi Hv) as (f & _ & Hf & _ & _ & ->).
    unfold deref. simpl. by rewrite Hf.
  - intros m k e Hi Hv Hl. destruct (bp_view_inv _ m k e Hi Hv) as (f & Hk & Hf & (? & ? & ?) & (Hid & Hs1 & Hs2) & E).
    rewrite E in *. simpl in *.
    destruct (bp_get_page_for_read m k _ f _ Hi Hk Hf (try_read_granted f Hl)) as (ev & env & Er).
    eexists. split; [exact Er|]. eapply (bp_set _ _ _ _ _ _ _ (set_evict (set_latch f (latch f + 1)) ev)); try done.
    + split; [done|]. simpl. split; [done|lia].
    + split; [simpl; lia|done].
    + apply (bi_latch m Hi).
    + simpl. by rewrite list_insert_insert_eq.
  - intros m k e Hi Hv Hl. destruct (bp_view_inv _ m k e Hi Hv) as (f & Hk & Hf & (? & ? & ?) & (Hid & Hs1 & Hs2) & E).
    rewrite E in *. simpl in *.
    destruct (bp_get_page_for_write m k _ f _ _ Hi Hk Hf (try_write_granted f true Hl)) as (ev & env & Er).
    eexists. split; [exact Er|].
    eapply (bp_set _ _ _ _ _ _ _ (set_evict (set_dirty (set_latch f (-1)) true) ev)); try done.
    + apply (bi_latch m Hi).
    + simpl. by rewrite list_insert_insert_eq.
  - intros m k e Hi Hv Hl. destruct (bp_view_inv _ m k e Hi Hv) as (f & Hk & Hf & (? & ? & ?) & (Hid & Hs1 & Hs2) & E).
    rewrite E in Hl. simpl in Hl.
    exact (bp_get_page_for_write m k _ f _ _ Hi Hk Hf (try_write_refused f true Hl)).
  - intros m k e p Hi Hv Hl Hp Hpid. destruct (bp_view_inv _ m k e Hi Hv) as (f & Hk & Hf & (? & ? & ?) & (Hid & Hs1 & Hs2) & E).
    rewrite E in *. simpl in *. unfold deref_mut. simpl. rewrite Hf. simpl. eexists. split; [done|].
    rewrite <-Hl. eapply (bp_set _ _ _ _ _ _ _ (set_page f p)); try done; [by rewrite <-Hid| |apply (bi_latch m Hi)].
    split; [done|]. simpl. by rewrite Hs1.
  - intros m k e Hi Hv Hl. destruct (bp_view_inv _ m k e Hi Hv) as (f & Hk & Hf & (? & ? & ?) & (Hid & Hs1 & Hs2) & E).
    rewrite E in *. simpl in *. unfold drop_write. simpl. rewrite Hf. simpl. eexists. split; [done|].
    eapply (bp_set _ _ _ _ _ _ _ (Frame.drop_write f false)); try done. apply (bi_latch m Hi).
  - intros m k e Hi Hv Hl. destruct (bp_view_inv _ m k e Hi Hv) as (f & Hk & Hf & (? & ? & ?) & (Hid & Hs1 & Hs2) & E).
    rewrite E in *. simpl in *. unfold drop_read. simpl. rewrite Hf. simpl. eexists. split; [done|].
    assert (RwLatch.release_shared (latch f) = latch f - 1) as Er
      by (unfold RwLatch.release_shared; rewrite Z.mod_small; lia).
    rewrite <-Er. eapply (bp_set _ _ _ _ _ _ _ (Frame.drop_read f false)); try done; [| |apply (bi_latch m Hi)].
    + split; [done|]. simpl. rewrite Er. split; [done|lia].
    + split; [simpl; lia|done].
  - intros m c Hi Hc Hmax. by apply bp_create.
Defined.

End Laws.

Abbreviation bp_inv := (bp_inv_at 0).
Arguments bi_latch {F H Laws l} _ _.
Arguments bi_cfc {F H Laws l} _ _.
Arguments bi_ids {F H Laws l} _ _.
Arguments bi_mapped {F H Laws l} _ _.
Arguments bi_keyed {F H Laws l} _ _.
Arguments bi_counted {F H Laws l} _ _.
Arguments bi_nodup {F H Laws l} _ _.
Arguments bi_hints {F H Laws l} _ _.
