(* ===== verification/Reopen.v ===== *)
(** * Reopening a directory

    Opening the catalog and a buffer pool on an existing directory, and reading pages from
    disk into free frames; with flushing, what a pool held is found again. *)

From stdpp Require Import gmap strings.
From S2P Require Import Prelude Common Decimal HeapPage HeapPageView BaseFile Catalog.
From S2P Require Import BufferFrame.

From S2P Require Import MemPool InMemPool BufferPool BufferPoolLaws.

Open Scope Z_scope.

(** ** Flushing and reopening the buffer pool

    [flush_all] writes every page of the pool to its file; a pool opened later on the same
    directory reads the same bytes. What [reset], which does not write, loses and leaves
    behind. *)

Section Flush.
Context `{Laws : PosixLaws F}.
Implicit Type m : BufferPool F.
Implicit Type t : ContainerFileCatalog F.

(** ** Writing one frame *)

(** Writing page [k] of an open container leaves the other pages on disk where they are. *)
Lemma on_disk_write t c ct i p j q :
  cfc_inv t → cfc_containers t !! c = Some ct → is_temp ct = false →
  0 ≤ i < page_count ct → zlen p = PAGE_SIZE → u32_at p 0 = i →
  0 ≤ c_id j < 2 ^ 16 → 0 ≤ cp_page_id j → j ≠ mkContainerPageId c i → on_disk t j q →
  ∀ t', Cfc.write_page t ct i p = Ret (t', Ok tt) → on_disk t' j q.
Proof.
  intros Hi Hct Ht Hp Hlen Hid Hj Hjp Hne (ff & Hff & Hlt & Hq) t' Hw.
  destruct (container_write_ok t c ct i p Hi Hct Ht Hp Hlen Hid)
    as (t'' & f & f' & Hw' & _ & _ & _ & Hf & Hdir & _ & Hn & Hother).
  rewrite Hw' in Hw. injection Hw as <-. unfold on_disk. rewrite Hdir.
  destruct (decide (c_id j = c)) as [Ec|Hc].
  - rewrite Ec in *. exists f'. rewrite lookup_insert_eq. assert (ff = f) as -> by congruence.
    split_and!; [done|lia|]. rewrite Hother; [done|lia|]. intros Ei. apply Hne.
    destruct j; simpl in *; congruence.
  - exists ff. rewrite lookup_insert_ne; [done|]. intros Es. apply Hc. symmetry.
    apply show_u16_inj; [|done|done]. apply (ci_container t Hi c ct Hct).
Qed.

(** The frame [i] of page [k] is no longer dirty: its bytes are on disk, and what was there
    of the other pages still is. *)
Lemma bp_inv_cleaned l m m' k i f :
  bp_inv_at l m → PageToFrame.get (page_to_frame m) k = Some i → frames m !! i = Some f →
  0 ≤ latch f → cfc_inv (cfc m') → cfc_containers (cfc m') = cfc_containers (cfc m) →
  (∀ ct, cfc_containers (cfc m) !! c_id k = Some ct → is_temp ct = false → on_disk (cfc m') k (page f)) →
  (∀ j q x, j ≠ k → PageToFrame.get (page_to_frame m) j = Some x → on_disk (cfc m) j q → on_disk (cfc m') j q) →
  bp_latch m' = l → eviction_hints m' = eviction_hints m → page_to_frame m' = page_to_frame m →
  frames m' = <[i := set_dirty f false]> (frames m) →
  bp_inv_at l m'.
Proof.
  intros Hi Hk Hf Hl Hcfc Ecs Hdisk Hkeep El Eh Et Ef.
  destruct (bi_mapped m Hi k i Hk) as (f0 & Hf0 & Hof & Hid & _). assert (f0 = f) as -> by congruence.
  assert (frames m' !! i = Some (set_dirty f false)) as Hf'
    by (rewrite Ef; apply list_lookup_insert_eq; by eapply lookup_lt_Some).
  assert (∀ x, x ≠ i → frames m' !! x = frames m !! x) as Hx
    by (intros; rewrite Ef; by apply list_lookup_insert_ne).
  split; [done|done| | | | | |].
  - intros x g Hg. destruct (decide (x = i)) as [->|].
    + assert (g = set_dirty f false) as -> by congruence. simpl. by apply (bi_ids m Hi).
    + rewrite Hx in Hg by done. by apply (bi_ids m Hi).
  - intros j x. rewrite Et. intros Hj. destruct (decide (j = k)) as [->|].
    + assert (x = i) as -> by congruence. exists (set_dirty f false). do 3 (split; [done|]).
      split; [simpl; lia|]. rewrite Ecs. intros _. apply Hdisk.
    + destruct (bi_mapped m Hi j x Hj) as (g & Hg & Hof' & Hid' & Hs1 & Hs2). exists g.
      split; [rewrite Hx; [done|]|]. { intros ->. destruct Hof as [? _], Hof' as [? _]. congruence. }
      do 2 (split; [done|]). split; [done|]. rewrite Ecs. intros Hd ct Hct Ht. eapply Hkeep; eauto.
  - intros x g j Hg Hj. rewrite Et. destruct (decide (x = i)) as [->|].
    + assert (g = set_dirty f false) as -> by congruence. by apply (bi_keyed m Hi i f).
    + rewrite Hx in Hg by done. by apply (bi_keyed m Hi x g).
  - intros j x. rewrite Et, Ecs. apply (bi_counted m Hi).
  - rewrite Eh. apply Hi.
  - intros x. rewrite Eh. intros Hin. destruct (bi_hints m Hi x Hin) as (g & Hg & Hfree). exists g.
    rewrite Hx; [done|]. intros ->. destruct Hof as [? _], Hfree as [? _]. congruence.
Qed.

(** What flushing leaves of a frame. *)
Definition cleaned (f : BufferFrame) : BufferFrame :=
  match key f with Some _ => set_dirty f false | None => f end.

(** Only the dirty flag of frame [g] and the files differ. *)
Record flushed_one m m' (g : frame_guard) (f : BufferFrame) : Prop := {
  fl_frames : frames m' = <[g := cleaned f]> (frames m);
  fl_table : page_to_frame m' = page_to_frame m;
  fl_containers : cfc_containers (cfc m') = cfc_containers (cfc m)
}.

(** The frame, read-latched, was written if it was dirty. *)
Lemma write_victim_ok l m m1 g f f1 :
  bp_inv_at l m → frames m !! g = Some f → 0 ≤ latch f →
  m1 = Bp.set_frame m g f1 → key f1 = key f → is_dirty f1 = is_dirty f → page f1 = page f →
  ∃ t', Bp.write_victim_to_disk_if_dirty_r m1 g =
      Ret (Bp.set_cfc (Bp.set_frame m g (cleaned f1)) t', Ok tt) ∧
    cfc_inv t' ∧ cfc_containers t' = cfc_containers (cfc m) ∧ (key f = None → t' = cfc m) ∧
    ∀ k, key f = Some k →
      (∀ ct, cfc_containers (cfc m) !! c_id k = Some ct → is_temp ct = false → on_disk t' k (page f)) ∧
      (∀ j q x, j ≠ k → PageToFrame.get (page_to_frame m) j = Some x → on_disk (cfc m) j q → on_disk t' j q).
Proof.
  intros Hi Hf Hl -> Ek Ed Ep.
  unfold Bp.write_victim_to_disk_if_dirty_r, Bp.write_victim_to_disk_if_dirty_w.
  assert (frames (Bp.set_frame m g f1) !! g = Some f1) as ->
    by (apply list_lookup_insert_eq; by eapply lookup_lt_Some).
  cbn [unwrap]. rewrite bind_Ret. unfold cleaned. rewrite Ek, Ed.
  destruct (key f) as [k|] eqn:Hk.
  2: { exists (cfc m). split; [by destruct m|]. split; [apply Hi|]. done. }
  pose proof (bi_keyed m Hi g f k Hf Hk) as Hm.
  destruct (bi_mapped m Hi k g Hm) as (f0 & Hf0 & (_ & Hlen & _) & Hid & _ & Hs). assert (f0 = f) as -> by congruence.
  destruct (bi_counted m Hi k g Hm) as (ct & Hct & Hcount).
  destruct (is_dirty f) eqn:Hd.
  2: { exists (cfc m). assert (set_dirty f1 false = f1) as -> by (destruct f1; simpl in *; by rewrite Ed).
       split; [by destruct m|]. split; [apply Hi|]. do 2 (split; [done|]). intros ? [= <-].
       split; [by apply Hs|done]. }
  unfold Bp.set_frame at 1. simpl cfc. unfold Cfc.get_container. rewrite Hct, bind_Ret, Ep.
  destruct (is_temp ct) eqn:Ht.
  - unfold Cfc.write_page. rewrite Ht. simpl. exists (cfc m). unfold Bp.set_frame, Bp.set_frames, Bp.set_cfc.
    simpl. rewrite list_insert_insert_eq. split; [done|]. split; [apply Hi|]. do 2 (split; [done|]).
    intros ? [= <-]. split; [congruence|done].
  - destruct (container_write_ok (cfc m) (c_id k) ct (cp_page_id k) (page f) (bi_cfc m Hi) Hct Ht)
      as (t' & ff & ff' & Hw & Ht' & Ecs & _ & Hff & Hdir & Hpage & Hn & _); [lia|done|done|].
    rewrite Hw, bind_Ret. exists t'. unfold Bp.set_frame, Bp.set_frames, Bp.set_cfc. simpl.
    rewrite list_insert_insert_eq. do 4 (split; [done|]). intros ? [= <-]. split.
    + intros _ _ _. exists ff'. rewrite Hdir, lookup_insert_eq. split_and!; [done|lia|done].
    + intros j q x Hne Hj Hq. destruct (bi_counted m Hi j x Hj) as (ctj & Hctj & Hjp).
      eapply (on_disk_write (cfc m) (c_id k) ct (cp_page_id k) (page f)); try done; try lia.
      * apply (bi_cfc m Hi).
      * apply (ci_container _ (bi_cfc m Hi) _ _ Hctj).
      * by destruct k.
Qed.

Lemma flush_step l m g f gs :
  bp_inv_at l m → frames m !! g = Some f → 0 ≤ latch f < 32767 →
  ∃ m', Bp.flush_frames m (g :: gs) = Bp.flush_frames m' gs ∧ bp_inv_at l m' ∧ flushed_one m m' g f.
Proof.
  intros Hi Hf Hl. cbn [Bp.flush_frames]. unfold Bp.spin_read. rewrite Hf. cbn [unwrap]. rewrite bind_Ret.
  rewrite try_read_granted by done. rewrite bind_Ret. cbn [guard_or_panic]. rewrite !bind_Ret.
  set (f1 := set_latch f (latch f + 1)).
  destruct (write_victim_ok l m (Bp.set_frame m g f1) g f f1 Hi Hf) as (t' & -> & Ht' & Ecs & Hnone & Hdisk);
    [lia|done|done|done|done|].
  rewrite bind_Ret. unfold Bp.with_frame.
  assert (frames (Bp.set_cfc (Bp.set_frame m g (cleaned f1)) t') !! g = Some (cleaned f1)) as ->
    by (apply list_lookup_insert_eq; by eapply lookup_lt_Some).
  cbn [unwrap]. rewrite !bind_Ret. eexists. split; [done|].
  assert (Frame.drop_read (cleaned f1) false = cleaned f) as ->.
  { unfold cleaned, Frame.drop_read, RwLatch.release_shared. subst f1. destruct f as [i l0 d ev [k|] p]; simpl in *;
      unfold set_latch, set_dirty; simpl; f_equal; rewrite Z.mod_small; lia. }
  set (m' := Bp.set_frame _ _ _).
  assert (frames m' = <[g := cleaned f]> (frames m)) as Ef by (simpl; apply list_insert_insert_eq).
  split; [|by split].
  destruct (key f) as [k|] eqn:Hk; unfold cleaned in Ef; rewrite Hk in Ef.
  - destruct (Hdisk k eq_refl) as [Hd1 Hd2].
    eapply (bp_inv_cleaned l m m' k g f); try done; try lia; [by apply (bi_keyed m Hi g f)|by apply (bi_latch m Hi)].
  - rewrite list_insert_id in Ef by done. assert (m' = m) as ->; [|done].
    subst m'. rewrite Hnone by done. unfold Bp.set_frame, Bp.set_frames, Bp.set_cfc in *. simpl in *.
    rewrite Ef. by destruct m.
Qed.

(** Flushing a list of frames cleans exactly these. *)
Lemma flush_frames_ok l gs m :
  bp_inv_at l m → (∀ i f, frames m !! i = Some f → 0 ≤ latch f < 32767) →
  (∀ g, g ∈ gs → is_Some (frames m !! g)) →
  ∃ m', Bp.flush_frames m gs = Ret (m', Ok tt) ∧ bp_inv_at l m' ∧
    page_to_frame m' = page_to_frame m ∧ cfc_containers (cfc m') = cfc_containers (cfc m) ∧
    ∀ i, frames m' !! i = if decide (i ∈ gs) then cleaned <$> frames m !! i else frames m !! i.
Proof.
  revert m. induction gs as [|g gs IH]; intros m Hi Hl Hgs.
  { exists m. split_and!; try done. }
  destruct (Hgs g) as [f Hf]; [left|].
  destruct (flush_step l m g f gs Hi Hf) as (m1 & -> & Hi1 & [Ef Et Ec]); [by eapply Hl|].
  assert (∀ i, frames m1 !! i = if decide (i = g) then cleaned <$> frames m !! i else frames m !! i) as Hfr.
  { intros i. rewrite Ef. case_decide; subst.
    - rewrite Hf, list_lookup_insert_eq; [done|]. by eapply lookup_lt_Some.
    - by rewrite list_lookup_insert_ne. }
  assert (∀ x, latch (cleaned x) = latch x) as Hcl by (intros x; unfold cleaned; by destruct (key x)).
  assert (∀ x, cleaned (cleaned x) = cleaned x) as Hcc by (intros [? ? ? ? [?|] ?]; done).
  destruct (IH m1 Hi1) as (m2 & -> & Hi2 & Et2 & Ec2 & Hfr2).
  { intros i x. rewrite Hfr. case_decide; [|by apply Hl]. intros (y & Hy & ->)%fmap_Some.
    rewrite Hcl. by eapply Hl. }
  { intros i Hin. rewrite Hfr. case_decide; [apply fmap_is_Some|]; apply Hgs; by right. }
  exists m2. rewrite Et2, Ec2. split_and!; try done. intros i. rewrite Hfr2, Hfr.
  destruct (decide (i ∈ gs)) as [Hin|Hin], (decide (i = g)) as [Hig|Hig],
    (decide (i ∈ g :: gs)) as [Hc|Hc]; try done; rewrite elem_of_cons in Hc; try tauto.
  destruct (frames m !! i); [|done]. simpl. by rewrite Hcc.
Qed.

(** No frame is being written, nor has too many readers. *)
Definition quiet m : Prop := ∀ i f, frames m !! i = Some f → 0 ≤ latch f < 32767.

Lemma bp_flush_all_ok m :
  bp_inv m → quiet m →
  ∃ m', Bp.flush_all m = Ret (m', Ok tt) ∧ bp_inv m' ∧ (∀ k, bp_view m' k = bp_view m k) ∧
    cfc_containers (cfc m') = cfc_containers (cfc m) ∧
    ∀ k e ct, bp_view m k = Some e → cfc_containers (cfc m) !! c_id k = Some ct → is_temp ct = false →
      on_disk (cfc m') k (e_page e).
Proof.
  intros Hi Hq. unfold Bp.flush_all, Bp.shared. rewrite (bi_latch m Hi).
  change (RwLatch.run_alone RwLatch.shared 0) with (Ret (1, true)). rewrite !bind_Ret.
  assert (bp_inv_at 1 (Bp.set_pool_latch m 1)) as Hi1 by (destruct Hi; by constructor).
  destruct (flush_frames_ok 1 (seq 0 (length (frames m))) (Bp.set_pool_latch m 1) Hi1 Hq)
    as (m1 & Efl & Hi2 & Et & Ec & Hfr).
  { intros g [_ Hg]%elem_of_seq. by apply lookup_lt_is_Some. }
  change (frames (Bp.set_pool_latch m 1)) with (frames m) in *. rewrite Efl, bind_Ret.
  unfold Bp.sync_files. rewrite (cfc_flush_all_ok _ (bi_cfc m1 Hi2)). rewrite !bind_Ret.
  assert (∀ i, frames m1 !! i = cleaned <$> frames m !! i) as Hfr1.
  { intros i. rewrite Hfr. case_decide as Hin; [done|]. destruct (frames m !! i) eqn:E; [|done].
    apply lookup_lt_Some in E. destruct Hin. apply elem_of_seq. lia. }
  assert (∀ k, bp_view m1 k = bp_view m k) as Hview.
  { intros k. unfold bp_view. rewrite Et. simpl. destruct (PageToFrame.get _ k) as [i|]; [|done]. simpl.
    rewrite Hfr1. destruct (frames m !! i) as [f|]; [|done]. simpl. unfold cleaned. by destruct (key f). }
  eexists. split; [done|]. split; [|split_and!].
  - destruct Hi2 as [El]. split; try done. simpl. by rewrite El.
  - done.
  - done.
  - intros k e ct Hv Hct Ht. rewrite <-Hview in Hv.
    destruct (bp_view_inv 1 m1 k e Hi2 Hv) as (f & Hk & Hf & (Hkey & _) & (_ & _ & Hs) & ->). simpl.
    apply (Hs) with ct; [|by rewrite Ec|done]. rewrite Hfr1 in Hf.
    apply fmap_Some in Hf as (f0 & _ & ->). unfold cleaned in *. destruct (key f0) eqn:E; [done|congruence].
Qed.

End Flush.

Section Reopen.
Context `{Laws : PosixLaws F} (next_u64 : nat → Z).
Implicit Type m : BufferPool F.
Implicit Type t : ContainerFileCatalog F.

(** ** The catalog *)

(** A container as [Container::new] makes it from its file. *)
Definition fresh_container (dir : gmap string F) (c : Z) (ct : Container) : Prop :=
  0 ≤ c < 2 ^ 16 ∧ ∃ f, dir !! show_u16 c = Some f ∧
    ct = mkContainer (BaseFile.num_pages f) false (mkOpenFile (show_u16 c) true).

Lemma load_entries dir b names cs :
  (∀ s, s ∈ names → ∃ c f, s = show_u16 c ∧ 0 ≤ c < 2 ^ 16 ∧ dir !! s = Some f ∧
     BaseFile.num_pages f < 2 ^ 32) →
  (∀ c ct, cs !! c = Some ct → fresh_container dir c ct) →
  ∃ cs', foldl Cfc.load_entry (Ret (mkCatalog b dir cs)) names = Ret (mkCatalog b dir cs') ∧
    (∀ c ct, cs' !! c = Some ct → fresh_container dir c ct) ∧
    (∀ c, 0 ≤ c < 2 ^ 16 → show_u16 c ∈ names ∨ is_Some (cs !! c) → is_Some (cs' !! c)).
Proof.
  revert cs. induction names as [|s names IH]; intros cs Hn Hcs.
  { exists cs. split_and!; [done|done|]. intros c _ [?%not_elem_of_nil|?]; done. }
  destruct (Hn s) as (c & f & -> & Hc & Hf & Hmax); [left|]. cbn [foldl].
  assert (Cfc.load_entry (Ret (mkCatalog b dir cs)) (show_u16 c) =
    Ret (mkCatalog b dir (<[c := mkContainer (BaseFile.num_pages f) false (mkOpenFile (show_u16 c) true)]> cs))) as ->.
  { unfold Cfc.load_entry. rewrite bind_Ret, parse_show_u16 by done. cbn [unwrap]. rewrite bind_Ret.
    unfold Cfc.open_file, Cfc.new_container, Cfc.num_pages_of. simpl. rewrite Hf. simpl. rewrite Hf. simpl.
    rewrite checked_ok; [done|]. pose proof (num_pages_nonneg f). lia. }
  destruct (IH (<[c := mkContainer (BaseFile.num_pages f) false (mkOpenFile (show_u16 c) true)]> cs))
    as (cs' & -> & Hfresh & Hin).
  - intros s Hs. apply Hn. by right.
  - intros d ct [[<- <-]|[_ Hd]]%lookup_insert_Some; [|by apply Hcs]. split; [done|]. by exists f.
  - exists cs'. split_and!; [done|done|]. intros d Hd Hcase. apply Hin; [done|].
    destruct (decide (d = c)) as [->|Hne]; [right; by rewrite lookup_insert_eq|].
    rewrite lookup_insert_ne by done. destruct Hcase as [[Es|?]%elem_of_cons|?]; [|by left|by right].
    apply show_u16_inj in Es; done.
Qed.

(** The catalog of a directory that a catalog wrote, in whatever order it is listed. *)
Lemma reopen_catalog t names b :
  cfc_inv t → (∀ s, s ∈ names ↔ is_Some (base_dir t !! s)) →
  ∃ t', Cfc.new (base_dir t) names b = Ret t' ∧ cfc_inv t' ∧ base_dir t' = base_dir t ∧
    ∀ c ct, cfc_containers t' !! c = Some ct → is_temp ct = false.
Proof.
  intros Hi Hnames. destruct (load_entries (base_dir t) b names ∅) as (cs & E & Hfresh & Hin).
  - intros s [f Hf]%Hnames. destruct (ci_file t Hi s f Hf) as (_ & Hmax & c & ct & -> & Hct).
    exists c, f. split_and!; try done; apply (ci_container t Hi c ct Hct).
  - intros c ct ?%lookup_empty_Some. done.
  - exists (mkCatalog b (base_dir t) cs). split; [done|]. split; [|split; [done|]].
    + split; simpl.
      * intros c ct Hct. destruct (Hfresh c ct Hct) as (Hc & f & Hf & ->).
        destruct (ci_file t Hi _ f Hf) as (Hwf & Hmax & _). pose proof (num_pages_nonneg f).
        split; simpl; [done|done| |lia]. exists f. split_and!; [done|done|lia].
      * intros s f Hf. destruct (ci_file t Hi s f Hf) as (Hwf & Hmax & c & ct & -> & Hct).
        pose proof (co_id _ _ _ (ci_container t Hi c ct Hct)) as Hc. do 2 (split; [done|]).
        destruct (Hin c Hc) as [ct' Hct']; [|by exists c, ct']. left. apply Hnames. by rewrite Hf.
    + intros c ct Hct. by destruct (Hfresh c ct Hct) as (_ & f & _ & ->).
Qed.

(** ** A new pool *)

Lemma new_frames_ok n from :
  0 ≤ from → from + Z.of_nat n ≤ 2 ^ 32 →
  ∃ fs, Bp.new_frames n from = Ret fs ∧ length fs = n ∧
    ∀ i f, fs !! i = Some f → free_frame f ∧ frame_id f = from + Z.of_nat i.
Proof.
  revert from. induction n as [|n IH]; intros from Hf Hn.
  { exists []. split_and!; [done|done|]. intros i f. by rewrite lookup_nil. }
  destruct (IH (from + 1)) as (fs & E & Hlen & Hfs); [lia|lia|]. cbn [Bp.new_frames].
  rewrite new_frame_ok, bind_Ret, E, bind_Ret. eexists. split; [done|]. split; [simpl; by rewrite Hlen|].
  intros [|i] f; simpl.
  - intros [= <-]. simpl. rewrite cast_small by lia. split; [done|lia].
  - intros Hi. destruct (Hfs i f Hi) as [? ->]. split; [done|lia].
Qed.

Lemma new_pool_ok n t env :
  cfc_inv t → Z.of_nat n ≤ 2 ^ 32 →
  ∃ m, Bp.new n t env = Ret m ∧ bp_inv m ∧ cfc m = t ∧ eviction_hints m = seq 0 n ∧
    (∀ k, PageToFrame.get (page_to_frame m) k = None) ∧ quiet m.
Proof.
  intros Ht Hn. destruct (new_frames_ok n 0) as (fs & E & Hlen & Hfs); [lia|lia|].
  unfold Bp.new. rewrite E, bind_Ret. eexists. split; [done|].
  assert (∀ k, PageToFrame.get PageToFrame.new k = None) as Hnone.
  { intros k. unfold PageToFrame.get, PageToFrame.new. by rewrite lookup_empty. }
  split_and!; try done.
  - split; cbn [bp_latch cfc frames page_to_frame eviction_hints]; try done.
    + intros i f Hi. by destruct (Hfs i f Hi) as [_ ->].
    + intros i f k Hi Hk. destruct (Hfs i f Hi) as [[? _] _]. congruence.
    + apply NoDup_seq.
    + intros i [_ Hi]%elem_of_seq. simpl in Hi. rewrite <-Hlen in Hi.
      apply lookup_lt_is_Some in Hi as [f Hf]. exists f. split; [done|]. by apply (Hfs i).
  - intros i f Hi. simpl in Hi. destruct (Hfs i f Hi) as [(_ & -> & _) _]. lia.
Qed.

(** ** Page faults *)

(** A page on disk belongs to an open container, whose file it is read from. *)
Lemma disk_read t k p buf :
  cfc_inv t → 0 ≤ c_id k < 2 ^ 16 → 0 ≤ cp_page_id k → on_disk t k p →
  u32_at p 0 = cp_page_id k → zlen buf = PAGE_SIZE →
  ∃ ct, cfc_containers t !! c_id k = Some ct ∧ Cfc.get_container t (c_id k) = Ret (t, ct) ∧
    cp_page_id k < page_count ct ∧
    Cfc.read_page t ct (cp_page_id k) buf = Ret (p, Ok tt).
Proof.
  intros Hi Hc Hp (f & Hf & Hlt & Hpage) Hid Hbuf.
  destruct (ci_file t Hi _ f Hf) as (Hwf & Hmax & c' & ct & Es & Hct).
  assert (c' = c_id k) as ->. { symmetry. apply show_u16_inj; [done|apply (ci_container t Hi c' ct Hct)|done]. }
  destruct (ci_container t Hi _ ct Hct) as [_ Hpath (f' & Hf' & _ & Hle) _].
  assert (f' = f) as -> by congruence. exists ct. split_and!; [done| |lia|].
  - unfold Cfc.get_container. by rewrite Hct.
  - unfold Cfc.read_page. rewrite Hpath. simpl. rewrite Hf. simpl. rewrite <-Hpage.
    apply read_page_ok; [done|lia|done|done|by rewrite Hpage].
Qed.

Lemma set_frame_twice m i f g : Bp.set_frame (Bp.set_frame m i f) i g = Bp.set_frame m i g.
Proof. unfold Bp.set_frame, Bp.set_frames. simpl. by rewrite list_insert_insert_eq. Qed.

Lemma with_frame_set m i f g :
  is_Some (frames m !! i) → Bp.with_frame (Bp.set_frame m i f) i g = Ret (Bp.set_frame m i (g f)).
Proof.
  intros Hi%lookup_lt_is_Some. unfold Bp.with_frame. cbn [Bp.set_frame Bp.set_frames frames].
  rewrite list_lookup_insert_eq by done. cbn [unwrap]. rewrite bind_Ret. f_equal. apply set_frame_twice.
Qed.

Lemma load_victim_ok m i k f ct p :
  frames m !! i = Some f → Cfc.get_container (cfc m) (c_id k) = Ret (cfc m, ct) →
  Cfc.read_page (cfc m) ct (cp_page_id k) (page f) = Ret (p, Ok tt) →
  ∃ e env, Bp.load_victim next_u64 m i k =
    Ret (Bp.set_lru (Bp.set_frame m i (set_evict (set_key (set_page f p) (Some k)) e)) env, Ok tt).
Proof.
  intros Hf Hg Hr. unfold Bp.load_victim. rewrite Hg, bind_Ret.
  assert (Bp.set_cfc m (cfc m) = m) as -> by by destruct m.
  rewrite Hf. cbn [unwrap]. rewrite bind_Ret, Hr, bind_Ret, with_frame_set, bind_Ret by by rewrite Hf.
  edestruct (update_evict_ok next_u64 (Bp.set_frame m i
    (set_evict (set_key (set_page f p) (Some k)) (LRUEvictionPolicy.reset (evict_info (set_page f p)))))
    i) as (e & env & ->).
  { apply list_lookup_insert_eq. by eapply lookup_lt_Some. }
  exists e, env. rewrite bind_Ret, set_frame_twice. done.
Qed.

Lemma clean_victim_free m m1 i f :
  free_frame f → Bp.choose_victim m = Ret (m1, Some i) → frames m1 !! i = Some (set_latch f (-1)) →
  Bp.clean_victim m = Ret (m1, Some i).
Proof.
  intros (Hk & _ & _ & Hd) Hv Hf. unfold Bp.clean_victim. rewrite Hv, bind_Ret.
  unfold Bp.write_victim_to_disk_if_dirty_w. rewrite Hf. cbn [unwrap].
  rewrite bind_Ret. cbn [set_latch key]. rewrite Hk, bind_Ret. cbn [result_unwrap]. rewrite bind_Ret, Hf. cbn [unwrap].
  rewrite bind_Ret. cbn [set_latch is_dirty]. by rewrite Hd.
Qed.

Lemma page_fault_run m k i hs f ct p tab :
  bp_inv m → PageToFrame.get (page_to_frame m) k = None → frames m !! i = Some f → free_frame f →
  Bp.choose_victim m =
    Ret (Bp.set_frames (Bp.set_hints m hs) (<[i := set_latch f (-1)]> (frames m)), Some i) →
  Cfc.get_container (cfc m) (c_id k) = Ret (cfc m, ct) →
  Cfc.read_page (cfc m) ct (cp_page_id k) (page f) = Ret (p, Ok tt) →
  PageToFrame.insert (page_to_frame m) k i = Ret tab →
  ∃ e env, Bp.get_page_for_read next_u64 m (mkPageFrameId k U32_MAX) =
    Ret (mkPool (cfc m) 0 hs (<[i := mkFrame (Z.of_nat i) 1 false e (Some k) p]> (frames m)) tab env, Ok i).
Proof.
  intros Hi Hnew Hf Hfree Hv Hg Hr Hins. unfold Bp.get_page_for_read.
  rewrite bp_shared, bind_Ret by done. cbn [p_key].
  change (page_to_frame (Bp.set_pool_latch m 1)) with (page_to_frame m). rewrite Hnew.
  assert (Bp.release_shared (Bp.set_pool_latch m 1) = m) as ->.
  { pose proof (bi_latch m Hi) as El. destruct m. simpl in *. by rewrite El. }
  set (f1 := set_latch f (-1)). set (m1 := Bp.set_frames _ _) in Hv.
  assert (frames m1 !! i = Some f1) as Hf1 by (apply list_lookup_insert_eq; by eapply lookup_lt_Some).
  rewrite (clean_victim_free m m1 i f Hfree Hv Hf1). destruct Hfree as (Hk & Hl & Hp & Hd).
  rewrite bind_Ret, (bp_exclusive m1 (bi_latch m Hi)), bind_Ret.
  change (page_to_frame (Bp.set_pool_latch m1 (-1))) with (page_to_frame m). rewrite Hnew.
  unfold Bp.unmap_victim. change (frames (Bp.set_pool_latch m1 (-1))) with (frames m1). rewrite Hf1.
  cbn [unwrap]. rewrite bind_Ret. change (key f1) with (key f). rewrite Hk, bind_Ret.
  unfold Bp.map_page. change (frames (Bp.set_pool_latch m1 (-1))) with (frames m1). rewrite Hf1.
  cbn [unwrap]. rewrite bind_Ret. change (frame_id f1) with (frame_id f).
  rewrite (bi_ids m Hi i f Hf), Nat2Z.id.
  change (page_to_frame (Bp.set_pool_latch m1 (-1))) with (page_to_frame m). rewrite Hins, !bind_Ret.
  set (m2 := Bp.release_exclusive _).
  destruct (load_victim_ok m2 i k f1 ct p Hf1 Hg Hr) as (e & env & ->). rewrite bind_Ret.
  cbn [Bp.set_lru Bp.set_frame Bp.set_frames frames].
  rewrite list_lookup_insert_eq by exact (lookup_lt_Some (frames m1) i f1 Hf1).
  cbn [unwrap]. rewrite bind_Ret. exists e, env. unfold Frame.downgrade. simpl.
  rewrite <-(bi_ids m Hi i f Hf). unfold Bp.set_frame, Bp.set_frames. simpl.
  rewrite !list_insert_insert_eq. by destruct f as [? ? [] ? ? ?].
Qed.

(** Reading a page that is on disk but not in memory takes a free frame; the pool then
    holds the bytes of the page, read-latched, and what it held before. *)
Lemma page_fault_ok m k p :
  bp_inv m → bp_can_create m → PageToFrame.get (page_to_frame m) k = None →
  0 ≤ c_id k < 2 ^ 16 → 0 ≤ cp_page_id k → on_disk (cfc m) k p →
  zlen p = PAGE_SIZE → u32_at p 0 = cp_page_id k →
  ∃ m' i, Bp.get_page_for_read next_u64 m (mkPageFrameId k U32_MAX) = Ret (m', Ok i) ∧ bp_inv m' ∧
    bp_view m' k = Some (mkEntry i p 1) ∧ (∀ j, j ≠ k → bp_view m' j = bp_view m j) ∧ cfc m' = cfc m.
Proof.
  intros Hi Hcan Hnew Hc Hp Hdisk Hlen Hid. unfold bp_can_create in Hcan.
  destruct (eviction_hints m) as [|i hs] eqn:Eh; [done|].
  destruct (bp_choose_free m i hs Hi Eh) as (f & Hf & Hfree & Hv).
  destruct (disk_read (cfc m) k p (page f) (bi_cfc m Hi) Hc Hp Hdisk Hid) as (ct & Hct & Hg & Hcount & Hr).
  { destruct Hfree as (_ & _ & -> & _). apply zlen_blank. }
  destruct (ptf_insert (page_to_frame m) k i Hnew) as (tab & Etab & Hk & Helse).
  destruct (page_fault_run m k i hs f ct p tab Hi Hnew Hf Hfree Hv Hg Hr Etab) as (e & env & E).
  eexists _, i. split; [exact E|]. set (f' := mkFrame _ _ _ _ _ _). set (m' := mkPool _ _ _ _ _ _).
  assert (frames m' !! i = Some f') as Hf' by (apply list_lookup_insert_eq; by eapply lookup_lt_Some).
  split_and!.
  - eapply (bp_inv_grow m m' i hs f f' k ct); try done.
    + apply (bi_cfc m Hi).
    + intros d ctd Hd. exists ctd. split_and!; [done|lia|done].
    + by rewrite (bi_ids m Hi i f Hf).
  - by rewrite (bp_view_mapped m' k i f').
  - intros j Hj. unfold bp_view. simpl. rewrite Helse by done.
    destruct (PageToFrame.get (page_to_frame m) j) as [x|] eqn:Ex; [|done]. simpl.
    rewrite list_lookup_insert_ne; [done|]. intros <-.
    destruct (bi_mapped m Hi j i Ex) as (? & ? & (? & _) & _). destruct Hfree as [? _]. congruence.
  - done.
Qed.

(** C12: What a buffer pool holds survives flushing it and opening another pool on the same
    directory: for every page in memory that belongs to a container that is not
    temporary, a read through the new pool gives the bytes it had. Requires that no page
    is being written, and says that flushing and reopening return. *)
Theorem flush_then_reopen m names b n env :
  bp_inv m → quiet m → (0 < n)%nat → Z.of_nat n ≤ 2 ^ 32 →
  ∃ m', Bp.flush_all m = Ret (m', Ok tt) ∧
    ((∀ s, s ∈ names ↔ is_Some (base_dir (cfc m') !! s)) →
     ∃ t m2, Cfc.new (base_dir (cfc m')) names b = Ret t ∧ Bp.new n t env = Ret m2 ∧
       ∀ k e ct, bp_view m k = Some e → cfc_containers (cfc m) !! c_id k = Some ct → is_temp ct = false →
         ∃ m3 g, Bp.get_page_for_read next_u64 m2 (mkPageFrameId k U32_MAX) = Ret (m3, Ok g) ∧
           page <$> frames m3 !! g = Some (e_page e)).
Proof.
  intros Hi Hq Hn Hmax. destruct (bp_flush_all_ok m Hi Hq) as (m' & -> & Hi' & Hview & Ecs & Hdisk).
  exists m'. split; [done|]. intros Hnames.
  destruct (reopen_catalog (cfc m') names b (bi_cfc m' Hi') Hnames) as (t & Et & Ht & Edir & _).
  destruct (new_pool_ok n t env Ht Hmax) as (m2 & Em & Hi2 & Ec2 & Eh2 & Hnone & _).
  exists t, m2. split; [done|]. split; [done|]. intros k e ct Hv Hct Htemp.
  pose proof (Hdisk k e ct Hv Hct Htemp) as Hd.
  destruct (bp_view_inv 0 m k e Hi Hv) as (f & Hk & Hf & (_ & Hlen & _) & (Hid & _) & Ee).
  destruct (bi_counted m Hi k _ Hk) as (ct' & Hct' & Hcount).
  destruct (page_fault_ok m2 k (e_page e)) as (m3 & g & E & Hi3 & Hv3 & _ & _); try done; try lia.
  - unfold bp_can_create. rewrite Eh2. destruct n; [lia|done].
  - apply (ci_container _ (bi_cfc m Hi) _ _ Hct).
  - unfold on_disk in *. by rewrite Ec2, Edir.
  - by rewrite Ee.
  - by rewrite Ee.
  - exists m3, g. split; [done|].
    destruct (bp_view_inv 0 m3 k _ Hi3 Hv3) as (f3 & _ & Hf3 & _ & _ & [= ->]). simpl in Hf3. by rewrite Hf3.
Qed.

End Reopen.
