(* ===== verification/HeapFile.v ===== *)
(** * Heap files: operations

    Models [heapstore/src/heap_file.rs], generic in the memory pool. Page 0 of a
    container is a header page that is never formatted; values live on pages 1 and up.
    Guards are dropped where the source drops them: at the end of the block that holds
    them, or, for the iterator, when it moves to another page. *)

From S2P Require Import Prelude Common HeapPage BufferFrame MemPool.
From stdpp Require Import strings.

Open Scope Z_scope.

Module HeapFile.
Section Ops.
Context `{MemPool P}.

(** A heap file is its container id; the pool is the shared state. *)
Definition get_page_for_read (m : P) (c page_id : Z) : outcome (P * frame_guard) :=
  '(m, r) ← mp_get_page_for_read m (PageFrameIds.new c page_id);
  g ← result_unwrap r;
  Ret (m, g).

Definition get_page_for_write (m : P) (c page_id : Z) : outcome (P * frame_guard) :=
  '(m, r) ← mp_get_page_for_write m (PageFrameIds.new c page_id);
  g ← result_unwrap r;
  Ret (m, g).

Definition new (m : P) (c : Z) : outcome (P * result CrustyError Z) :=
  '(m, r) ← mp_create_new_page_for_write m c;
  match r with
  | Err _ => Ret (m, Err (c_err "create_new_page_for_write"))
  | Ok g => m ← drop_write m g; Ret (m, Ok c)
  end.

Definition load (m : P) (c : Z) : P * result CrustyError Z := (m, Ok c).

Definition num_pages (m : P) (c : Z) : Z := default 0 (mp_get_max_page_id m c).

Definition get_val (m : P) (c page_id slot_id : Z) :
  outcome (P * result CrustyError (list byte)) :=
  if num_pages m c <=? page_id then Ret (m, Err (c_err "Page not found"))
  else
    '(m, g) ← get_page_for_read m c page_id;
    p ← deref m g;
    v ← HeapPage.get_value p slot_id;
    m ← drop_read m g;
    Ret (m, ok_or v (c_err "Value not found")).

Definition delete_val (m : P) (c page_id slot_id : Z) : outcome (P * result CrustyError unit) :=
  if num_pages m c <=? page_id then Ret (m, Err (c_err "Page not found"))
  else
    '(m, g) ← get_page_for_write m c page_id;
    p ← deref m g;
    '(p, r) ← HeapPage.delete_value p slot_id;
    m ← deref_mut m g p;
    m ← drop_write m g;
    Ret (m, ok_or r (c_err "Value not found or already deleted")).

(** The scan of the existing data pages: stops at the first page with room. *)
Fixpoint add_scan (m : P) (c : Z) (pages : list Z) (val : list byte) :
  outcome (P * option ValueId) :=
  match pages with
  | [] => Ret (m, None)
  | page_id :: pages =>
      '(m, g) ← get_page_for_write m c page_id;
      p ← deref m g;
      '(p, r) ← HeapPage.add_value p val;
      m ← deref_mut m g p;
      m ← drop_write m g;
      match r with
      | Some slot_id => Ret (m, Some (ValueIds.new_slot c page_id slot_id))
      | None => add_scan m c pages val
      end
  end.

Definition add_val (m : P) (c : Z) (val : list byte) : outcome (P * result CrustyError ValueId) :=
  '(m, found) ← add_scan m c (seqZ 1 (num_pages m c - 1)) val;
  match found with
  | Some id => Ret (m, Ok id)
  | None =>
      '(m, r) ← mp_create_new_page_for_write m c;
      match r with
      | Err _ => Ret (m, Err (c_err "create_new_page_for_write"))
      | Ok g =>
          p ← deref m g;
          p ← HeapPage.init_heap_page p;
          page_id ← Pages.get_page_id p;
          '(p, r) ← HeapPage.add_value p val;
          m ← deref_mut m g p;
          m ← drop_write m g;
          match r with
          | None => Ret (m, Err (c_err "Value too large to fit in a single page"))
          | Some slot_id => Ret (m, Ok (ValueIds.new_slot c page_id slot_id))
          end
      end
  end.

Definition update_val (m : P) (c page_id slot_id : Z) (val : list byte) :
  outcome (P * result CrustyError ValueId) :=
  if num_pages m c <=? page_id then Ret (m, Err (c_err "Page not found"))
  else
    '(m, g) ← get_page_for_write m c page_id;
    p ← deref m g;
    '(p, r) ← HeapPage.update_value p slot_id val;
    m ← deref_mut m g p;
    match r with
    | Some _ =>
        m ← drop_write m g;
        Ret (m, Ok (ValueIds.new_slot c page_id slot_id))
    | None =>
        p ← deref m g;
        v ← HeapPage.get_value p slot_id;
        match v with
        | None =>
            m ← drop_write m g;
            Ret (m, Err (c_err "Update failed: slot not found"))
        | Some _ =>
            '(p, r) ← HeapPage.delete_value p slot_id;
            m ← deref_mut m g p;
            m ← drop_write m g;
            match r with
            | None => Ret (m, Err (c_err "Delete failed during update fallback"))
            | Some _ => add_val m c val
            end
        end
    end.

Fixpoint add_vals (m : P) (c : Z) (vals : list (list byte)) :
  outcome (P * result CrustyError (list ValueId)) :=
  match vals with
  | [] => Ret (m, Ok [])
  | val :: vals =>
      '(m, r) ← add_val m c val;
      match r with
      | Err e => Ret (m, Err e)
      | Ok id =>
          '(m, r) ← add_vals m c vals;
          Ret (m, match r with Ok ids => Ok (id :: ids) | Err e => Err e end)
      end
  end.

(** ** Iteration *)

Record HeapFileIter := mkFileIter {
  it_file : Z;
  initialized : bool;
  finished : bool;
  first_page : Z;
  current_page_id : Z;
  current_slot_id : Z;
  current_page : option frame_guard
}.

Definition new_from (c page_id slot_id : Z) : HeapFileIter :=
  mkFileIter c false false page_id page_id slot_id None.
Definition iter (c : Z) : HeapFileIter := new_from c 1 0.
Definition iter_from (c page_id slot_id : Z) : HeapFileIter := new_from c page_id slot_id.

Definition initialize (m : P) (it : HeapFileIter) : outcome (P * HeapFileIter) :=
  if initialized it then Ret (m, it)
  else if first_page it <? num_pages m (it_file it) then
    '(m, g) ← get_page_for_read m (it_file it) (first_page it);
    Ret (m, mkFileIter (it_file it) true (finished it) (first_page it) (current_page_id it)
              (current_slot_id it) (Some g))
  else
    Ret (m, mkFileIter (it_file it) true true (first_page it) (current_page_id it)
              (current_slot_id it) (current_page it)).

(** The loop of [next]: [fuel] bounds its iterations. *)
Fixpoint next_loop (fuel : nat) (m : P) (it : HeapFileIter) :
  outcome (P * HeapFileIter * option (list byte * ValueId)) :=
  match fuel with
  | O => Panic
  | S fuel =>
      match current_page it with
      | None => Ret (m, it, None)
      | Some g =>
          p ← deref m g;
          num_slots ← HeapPage.get_num_slots p;
          if current_slot_id it <? num_slots then
            let slot_id := current_slot_id it in
            next_slot ← u16_add (current_slot_id it) 1;
            let it := mkFileIter (it_file it) (initialized it) (finished it) (first_page it)
                        (current_page_id it) next_slot (current_page it) in
            v ← HeapPage.get_value p slot_id;
            match v with
            | Some val =>
                Ret (m, it, Some (val, ValueIds.new_slot (it_file it) (current_page_id it) slot_id))
            | None => next_loop fuel m it
            end
          else
            m ← drop_read m g;
            next_page ← u32_add (current_page_id it) 1;
            if num_pages m (it_file it) <=? next_page then
              Ret (m, mkFileIter (it_file it) (initialized it) true (first_page it) next_page 0 None,
                   None)
            else
              '(m, g) ← get_page_for_read m (it_file it) next_page;
              next_loop fuel m
                (mkFileIter (it_file it) (initialized it) (finished it) (first_page it) next_page 0
                   (Some g))
      end
  end.

(** Every iteration consumes a slot or a page. *)
Definition next_fuel (m : P) (it : HeapFileIter) : nat :=
  Z.to_nat ((num_pages m (it_file it) - current_page_id it + 1) * 65537).

Definition next (m : P) (it : HeapFileIter) :
  outcome (P * HeapFileIter * option (list byte * ValueId)) :=
  '(m, it) ← (if initialized it then Ret (m, it) else initialize m it);
  if finished it then Ret (m, it, None) else next_loop (next_fuel m it) m it.

(** Running an iterator to its end. *)
Fixpoint drain (fuel : nat) (m : P) (it : HeapFileIter) :
  outcome (P * list (list byte * ValueId)) :=
  match fuel with
  | O => Panic
  | S fuel =>
      '(m, it, x) ← next m it;
      match x with
      | None => Ret (m, [])
      | Some x => '(m, xs) ← drain fuel m it; Ret (m, x :: xs)
      end
  end.
End Ops.
End HeapFile.
