(* ===== verification/HeapFileSpec.v ===== *)
(** * Heap files: correctness over any memory pool

    Proved against the laws of [MemPoolLaws]: a heap file is a map from page and slot
    ids to values, and its operations read, add, replace and remove one entry of it. *)

From S2P Require Import Prelude Common HeapPage HeapPageView HeapPageSpec.
From S2P Require Import HeapPageUpdate HeapPageContract BufferFrame MemPool HeapFile.
From stdpp Require Import strings.

Open Scope Z_scope.

(** The elements of a range before one of its elements come first in it. *)
Lemma seqZ_before a n l1 i l2 j :
  seqZ a n = l1 ++ i :: l2 → a ≤ j < i → j ∈ l1.
Proof.
  intros E Hj. assert (seqZ a n !! length l1 = Some i) as Hi by (rewrite E; by apply list_lookup_middle).
  apply lookup_seqZ in Hi as [-> Hlt].
  assert (seqZ a n !! Z.to_nat (j - a) = Some j) as Hl by (apply lookup_seqZ; lia).
  rewrite E, lookup_app_l in Hl by lia. by eapply list_elem_of_lookup_2.
Qed.

Section File.
Context `{Laws : MemPoolLaws P}.

Abbreviation page_key c i := (mkContainerPageId c i) (only parsing).

(** A data page at rest: formatted, not latched, and carrying its own id. *)
Definition data_page (i : Z) (e : entry) : Prop :=
  e_latch e = 0 ∧ wf (e_page e) ∧ u32_at (e_page e) 0 = i.

(** A heap file at rest: the unformatted header page and the data pages. *)
Record file_ok (m : P) (c : Z) : Prop := {
  fo_inv : mp_inv m;
  fo_id : 0 ≤ c < 2 ^ 16;
  fo_count : 1 ≤ HeapFile.num_pages m c ≤ U32_MAX;
  fo_header : ∃ e, mp_view m (page_key c 0) = Some e ∧ e_latch e = 0 ∧ num_slots (e_page e) = 0;
  fo_data i : 1 ≤ i < HeapFile.num_pages m c →
    ∃ e, mp_view m (page_key c i) = Some e ∧ data_page i e
}.

(** What the file stores under a page and a slot id. *)
Definition file_value (m : P) (c page_id slot_id : Z) : option (list byte) :=
  if (0 <=? page_id) && (page_id <? HeapFile.num_pages m c) then
    e ← mp_view m (page_key c page_id); value (e_page e) slot_id
  else None.

(** Other containers are not touched. *)
Definition elsewhere (m m' : P) (c : Z) : Prop :=
  (∀ k, c_id k ≠ c → mp_view m' k = mp_view m k) ∧
  (∀ d, d ≠ c → mp_get_max_page_id m' d = mp_get_max_page_id m d).

(** Nothing is seen to change. *)
Definition same_pool (m m' : P) : Prop :=
  (∀ k, mp_view m' k = mp_view m k) ∧ (∀ c, mp_get_max_page_id m' c = mp_get_max_page_id m c) ∧
  (mp_can_create m ↔ mp_can_create m').

Lemma view_update_trans m m1 m2 k e1 e2 :
  view_update mp_view mp_get_max_page_id mp_can_create m m1 k e1 →
  view_update mp_view mp_get_max_page_id mp_can_create m1 m2 k e2 →
  view_update mp_view mp_get_max_page_id mp_can_create m m2 k e2.
Proof.
  intros [_ H1 M1 R1] [H2 H3 M2 R2]. split; [done| | |tauto].
  - intros j Hj. by rewrite H3, H1.
  - intros c. by rewrite M2.
Qed.

Lemma view_update_same m m' k e :
  mp_view m k = Some e → view_update mp_view mp_get_max_page_id mp_can_create m m' k e → same_pool m m'.
Proof.
  intros Hk [H1 H2 H3 H4]. split; [|split; [done|apply H4]]. intros j. destruct (decide (j = k)) as [->|]; [congruence|auto].
Qed.

(** An unlatched page given back as it was. *)
Lemma view_update_back m m' k e :
  mp_view m k = Some e → e_latch e = 0 →
  view_update mp_view mp_get_max_page_id mp_can_create m m' k (mkEntry (e_guard e) (e_page e) 0) → same_pool m m'.
Proof.
  intros Hk Hl U. apply (view_update_same m m' k e); [done|]. destruct e as [g p l]; simpl in *. by subst l.
Qed.

Lemma same_pool_num_pages m m' c :
  same_pool m m' → HeapFile.num_pages m' c = HeapFile.num_pages m c.
Proof. intros (_ & E & _). unfold HeapFile.num_pages. by rewrite E. Qed.

Lemma same_pool_file m m' c : same_pool m m' → mp_inv m' → file_ok m c → file_ok m' c.
Proof.
  intros E Hi [_ Hc Hn Hh Hd]. pose proof (same_pool_num_pages m m' c E) as En. destruct E as [Ev _].
  split; [done|done|by rewrite En|by setoid_rewrite Ev|].
  intros i. rewrite En, Ev. apply Hd.
Qed.

Lemma same_pool_value m m' c i s :
  same_pool m m' → file_value m' c i s = file_value m c i s.
Proof.
  intros E. unfold file_value. rewrite (same_pool_num_pages m m') by done. destruct E as [-> _]. done.
Qed.

Lemma same_pool_elsewhere m m' c : same_pool m m' → elsewhere m m' c.
Proof. intros (E1 & E2 & _). split; auto. Qed.

(** The page behind an id of the file. *)
Lemma file_page m c i :
  file_ok m c → 0 ≤ i < HeapFile.num_pages m c →
  ∃ e, mp_view m (page_key c i) = Some e ∧ e_latch e = 0 ∧ zlen (e_page e) = PAGE_SIZE ∧
    (∀ s, file_value m c i s = value (e_page e) s) ∧
    ((i = 0 ∧ num_slots (e_page e) = 0) ∨ (0 < i ∧ data_page i e)).
Proof.
  intros Hf Hi. assert (∃ e, mp_view m (page_key c i) = Some e ∧ e_latch e = 0 ∧
    ((i = 0 ∧ num_slots (e_page e) = 0) ∨ (0 < i ∧ data_page i e))) as (e & Ev & El & Hcase).
  { destruct (decide (i = 0)) as [->|].
    - destruct (fo_header m c Hf) as (e & Ev & El & En). exists e. auto.
    - destruct (fo_data m c Hf i) as (e & Ev & Hd); [lia|]. exists e. split; [done|].
      split; [apply Hd|]. right. split; [lia|done]. }
  exists e. split_and!; try done.
  - by eapply mp_view_page; [apply Hf|].
  - intros s. unfold file_value. rewrite (proj2 (Z.leb_le _ _)), (proj2 (Z.ltb_lt _ _)) by lia.
    simpl. by rewrite Ev.
Qed.

Lemma file_value_range m c i s v :
  file_value m c i s = Some v → 0 ≤ i < HeapFile.num_pages m c.
Proof.
  unfold file_value. destruct (0 <=? i) eqn:E1, (i <? _) eqn:E2; simpl; try done.
  rewrite Z.leb_le, Z.ltb_lt in *. lia.
Qed.

(** Reading any page of the file finds what the slot stores, also on the header page. *)
Lemma page_get_value p i e s :
  zlen (e_page e) = PAGE_SIZE → 0 ≤ s < 65536 → p = e_page e →
  ((i = 0 ∧ num_slots (e_page e) = 0) ∨ (0 < i ∧ data_page i e)) →
  HeapPage.get_value p s = Ret (value (e_page e) s).
Proof.
  intros Hlen Hs -> [[_ Hn]|[_ (_ & Hwf & _)]]; [|apply get_value_ok; [apply Hwf|done]].
  unfold HeapPage.get_value, HeapPage.get_slot_metadata_offset.
  rewrite get_num_slots_ok, Hn by done. rewrite bind_Ret.
  rewrite (proj2 (Z.leb_le _ _)) by lia. rewrite bind_Ret. simpl. f_equal. symmetry.
  apply value_None. intros [? _]. unfold is_slot in *. lia.
Qed.

(** ** Lookup *)

(** Latching a page at rest for reading, looking at it and letting go. *)
Lemma read_session {A} m c i e (look : Page → outcome A) a :
  file_ok m c → mp_view m (page_key c i) = Some e → e_latch e = 0 → look (e_page e) = Ret a →
  ∃ m', mp_inv m' ∧ same_pool m m' ∧
    ∀ B (k : P → A → outcome B),
      ('(m, g) ← HeapFile.get_page_for_read m c i;
       p ← deref m g; v ← look p; m ← drop_read m g; k m v) = k m' a.
Proof.
  intros Hf Hv Hl Ha. pose proof (fo_inv m c Hf) as Hi.
  destruct (mp_read_ok m _ e Hi Hv) as (m1 & E1 & Hi1 & U1); [lia|].
  pose proof (mp_deref m1 _ _ Hi1 (vu_here _ _ _ _ _ _ _ U1)) as D1.
  destruct (mp_drop_read m1 _ _ Hi1 (vu_here _ _ _ _ _ _ _ U1)) as (m2 & E2 & Hi2 & U2);
    [simpl; lia|]. simpl in *.
  exists m2. split; [done|]. split.
  - apply (view_update_same _ _ (page_key c i) e); [done|]. destruct e as [g p l]; simpl in *.
    replace (l + 1 - 1) with l in U2 by lia. by eapply view_update_trans.
  - intros B k. unfold HeapFile.get_page_for_read, PageFrameIds.new. rewrite E1. simpl.
    rewrite D1. simpl. rewrite Ha. simpl. by rewrite E2.
Qed.

(** What [get_val] answers. *)
Definition get_answer (m : P) (c page_id slot_id : Z) : result CrustyError (list byte) :=
  if HeapFile.num_pages m c <=? page_id then Err (c_err "Page not found")
  else ok_or (file_value m c page_id slot_id) (c_err "Value not found").

Lemma get_val_ok m c i s :
  file_ok m c → 0 ≤ i → 0 ≤ s < 65536 →
  ∃ m', HeapFile.get_val m c i s = Ret (m', get_answer m c i s) ∧ file_ok m' c ∧ same_pool m m'.
Proof.
  intros Hf Hi Hs. unfold HeapFile.get_val, get_answer.
  destruct (HeapFile.num_pages m c <=? i) eqn:E.
  { exists m. split; [done|]. split; [done|by split]. }
  apply Z.leb_gt in E. destruct (file_page m c i Hf) as (e & Ev & El & Hlen & Hval & Hc); [lia|].
  destruct (read_session m c i e (λ p, HeapPage.get_value p s) (value (e_page e) s))
    as (m' & Hi' & Hsame & Hrun); try done; [by eapply page_get_value|].
  exists m'. split; [|split; [by eapply same_pool_file|done]].
  rewrite Hrun. by rewrite Hval.
Qed.

(** ** Changing one page *)

(** Latching a page at rest for writing. *)
Lemma write_open m c i e :
  file_ok m c → mp_view m (page_key c i) = Some e → e_latch e = 0 →
  ∃ m', HeapFile.get_page_for_write m c i = Ret (m', e_guard e) ∧ mp_inv m' ∧
    deref m' (e_guard e) = Ret (e_page e) ∧
    view_update mp_view mp_get_max_page_id mp_can_create m m' (page_key c i)
      (mkEntry (e_guard e) (e_page e) (-1)).
Proof.
  intros Hf Hv Hl. pose proof (fo_inv m c Hf) as Hi.
  destruct (mp_write_ok m _ e Hi Hv Hl) as (m1 & E1 & Hi1 & U1).
  exists m1. split_and!; try done.
  - unfold HeapFile.get_page_for_write, PageFrameIds.new. by rewrite E1.
  - apply (mp_deref m1 _ _ Hi1 (vu_here _ _ _ _ _ _ _ U1)).
Qed.

(** Storing a page through a write guard, and letting go. *)
Lemma write_close m1 m c i g p p' :
  mp_inv m1 → view_update mp_view mp_get_max_page_id mp_can_create m m1 (page_key c i) (mkEntry g p (-1)) →
  zlen p' = PAGE_SIZE → sub p' 0 16 = sub p 0 16 →
  ∃ m2 m', deref_mut m1 g p' = Ret m2 ∧ drop_write m2 g = Ret m' ∧ mp_inv m2 ∧ mp_inv m' ∧
    deref m2 g = Ret p' ∧
    view_update mp_view mp_get_max_page_id mp_can_create m m2 (page_key c i) (mkEntry g p' (-1)) ∧
    view_update mp_view mp_get_max_page_id mp_can_create m m' (page_key c i) (mkEntry g p' 0).
Proof.
  intros Hi1 U1 Hlen Hhdr.
  destruct (mp_deref_mut m1 _ _ p' Hi1 (vu_here _ _ _ _ _ _ _ U1)) as (m2 & E2 & Hi2 & U2);
    [done|done| |]. { simpl. unfold u32_at. by rewrite (sub_sub_eq p p' 0 16) by (done || lia). }
  destruct (mp_drop_write m2 _ _ Hi2 (vu_here _ _ _ _ _ _ _ U2)) as (m3 & E3 & Hi3 & U3); [done|].
  simpl in *. exists m2, m3. split_and!; try done.
  - apply (mp_deref m2 _ _ Hi2 (vu_here _ _ _ _ _ _ _ U2)).
  - by eapply view_update_trans.
  - eapply view_update_trans; [|done]. by eapply view_update_trans.
Qed.

(** The file after its page [i] became [p']. *)
Lemma page_updated m m' c i g p' :
  file_ok m c → 0 ≤ i < HeapFile.num_pages m c → mp_inv m' →
  view_update mp_view mp_get_max_page_id mp_can_create m m' (page_key c i) (mkEntry g p' 0) →
  ((i = 0 ∧ num_slots p' = 0) ∨ (0 < i ∧ wf p' ∧ u32_at p' 0 = i)) →
  file_ok m' c ∧ HeapFile.num_pages m' c = HeapFile.num_pages m c ∧ elsewhere m m' c ∧
  (∀ s, file_value m' c i s = value p' s) ∧
  (∀ j s, j ≠ i → file_value m' c j s = file_value m c j s).
Proof.
  intros Hf Hi Hinv [Hhere Helse Hmax _] Hp.
  assert (HeapFile.num_pages m' c = HeapFile.num_pages m c) as En
    by (unfold HeapFile.num_pages; by rewrite Hmax).
  assert (∀ j, j ≠ i → mp_view m' (page_key c j) = mp_view m (page_key c j)) as Hj
    by (intros; apply Helse; congruence).
  split_and!; try done.
  - split; [done|apply Hf|rewrite En; apply Hf| |].
    + destruct (decide (i = 0)) as [->|].
      * eexists. split; [done|]. simpl. split; [done|]. by destruct Hp as [[_ ?]|[? _]]; [|lia].
      * rewrite Hj by lia. apply Hf.
    + intros j. rewrite En. intros Hjr. destruct (decide (j = i)) as [->|].
      * eexists. split; [done|]. split; [done|]. simpl. by destruct Hp as [[? _]|[_ ?]]; [lia|].
      * rewrite Hj by done. by apply Hf.
  - split; [intros k Hk; apply Helse; intros ->; done|intros; apply Hmax].
  - intros s. unfold file_value. rewrite En, (proj2 (Z.leb_le _ _)), (proj2 (Z.ltb_lt _ _)) by lia.
    simpl. by rewrite Hhere.
  - intros j s Hne. unfold file_value. rewrite En, Hj by done. done.
Qed.

(** ** Deletion *)

(** A page without slots refuses every slot id. *)
Lemma slotless_page p s v :
  zlen p = PAGE_SIZE → num_slots p = 0 → 0 ≤ s →
  HeapPage.get_value p s = Ret None ∧ HeapPage.delete_value p s = Ret (p, None) ∧
  HeapPage.update_value p s v = Ret (p, None) ∧ value p s = None.
Proof.
  intros Hlen Hn Hs.
  assert (HeapPage.get_slot_metadata_offset p s = Ret (-1)) as E.
  { unfold HeapPage.get_slot_metadata_offset. rewrite get_num_slots_ok, Hn by done.
    rewrite bind_Ret. by rewrite (proj2 (Z.leb_le _ _)) by lia. }
  unfold HeapPage.get_value, HeapPage.delete_value, HeapPage.update_value. rewrite E, !bind_Ret.
  split_and!; try done. apply value_None. intros [? _]. unfold is_slot in *. lia.
Qed.

(** One entry of the file changed; other containers did not. *)
Record file_changed (m m' : P) (c i s : Z) (v : option (list byte)) : Prop := {
  fc_ok : file_ok m' c;
  fc_else : elsewhere m m' c;
  fc_here : file_value m' c i s = v;
  fc_other : ∀ j t, (j, t) ≠ (i, s) → file_value m' c j t = file_value m c j t
}.

(** A change of one slot of a data page is a change of one entry of the file. *)
Lemma slot_changed m m' c i s g e p' v :
  file_ok m c → 0 < i < HeapFile.num_pages m c → mp_inv m' →
  mp_view m (page_key c i) = Some e → data_page i e →
  view_update mp_view mp_get_max_page_id mp_can_create m m' (page_key c i) (mkEntry g p' 0) →
  wf p' → sub p' 0 16 = sub (e_page e) 0 16 → value p' s = v →
  (∀ t, t ≠ s → value p' t = value (e_page e) t) →
  file_changed m m' c i s v ∧ HeapFile.num_pages m' c = HeapFile.num_pages m c.
Proof.
  intros Hf Hi Hinv Hv (_ & _ & Hid) U Hwf Hhdr Hs Ho.
  destruct (page_updated m m' c i g p') as (Hf' & En & Hel & Hhere & Hother); try done; [lia| |].
  { right. split; [lia|]. split; [done|]. unfold u32_at in *.
    by rewrite (sub_sub_eq (e_page e) p' 0 16) by (done || lia). }
  split; [|done]. split; try done.
  - by rewrite Hhere.
  - intros j t Hne. destruct (decide (j = i)) as [->|]; [|by apply Hother].
    rewrite Hhere, Ho by congruence. unfold file_value.
    rewrite (proj2 (Z.leb_le _ _)), (proj2 (Z.ltb_lt _ _)) by lia. simpl. by rewrite Hv.
Qed.

(** The page of the file, or its header, as a page operation sees it. *)
Abbreviation page_kind i e :=
  ((i = 0 ∧ num_slots (e_page e) = 0) ∨ (0 < i ∧ data_page i e)).

Lemma page_delete i e s :
  zlen (e_page e) = PAGE_SIZE → 0 ≤ s < 65536 → page_kind i e →
  ∃ p' r, HeapPage.delete_value (e_page e) s = Ret (p', r) ∧ zlen p' = PAGE_SIZE ∧
    sub p' 0 16 = sub (e_page e) 0 16 ∧
    match value (e_page e) s with
    | Some v => r = Some tt ∧ 0 < i ∧ data_page i e ∧ changed (e_page e) p' s None (zlen v)
    | None => r = None ∧ p' = e_page e
    end.
Proof.
  intros Hlen Hs [[-> Hn]|[Hpos Hd]].
  - destruct (slotless_page (e_page e) s [] Hlen Hn) as (_ & -> & _ & ->); [lia|].
    by exists (e_page e), None.
  - pose proof (delete_value_ok (e_page e) s (proj1 (proj2 Hd)) Hs) as Hdel.
    destruct (value (e_page e) s) as [v|].
    + destruct Hdel as (p' & -> & Hch). exists p', (Some tt). split; [done|].
      pose proof Hch as [[Hly _] Hh _ _ _ _]. split; [apply Hly|]. done.
    + rewrite Hdel. by exists (e_page e), None.
Qed.

Lemma delete_val_ok m c i s :
  file_ok m c → 0 ≤ i → 0 ≤ s < 65536 →
  ∃ m' r, HeapFile.delete_val m c i s = Ret (m', r) ∧
    match file_value m c i s with
    | Some v => r = Ok tt ∧ file_changed m m' c i s None ∧
                HeapFile.num_pages m' c = HeapFile.num_pages m c
    | None => (∃ e, r = Err e) ∧ file_ok m' c ∧ same_pool m m'
    end.
Proof.
  intros Hf Hi Hs. unfold HeapFile.delete_val.
  destruct (HeapFile.num_pages m c <=? i) eqn:E.
  { apply Z.leb_le in E. destruct (file_value m c i s) eqn:Ev.
    - apply file_value_range in Ev. lia.
    - eexists m, _. split; [done|]. split; [by eexists|]. by split. }
  apply Z.leb_gt in E. destruct (file_page m c i Hf) as (e & Ev & El & Hlen & Hval & Hc); [lia|].
  rewrite Hval. destruct (write_open m c i e Hf Ev El) as (m1 & E1 & Hi1 & D1 & U1).
  rewrite E1. simpl. rewrite D1. simpl.
  destruct (page_delete i e s Hlen Hs Hc) as (p' & r & Ed & Hlen' & Hhdr & Hcase).
  rewrite Ed. simpl.
  destruct (write_close m1 m c i _ _ p' Hi1 U1 Hlen' Hhdr) as (m2 & m' & E2 & E3 & _ & Hi' & _ & _ & U).
  rewrite E2. simpl. rewrite E3. simpl. eexists m', _. split; [done|].
  destruct (value (e_page e) s) as [v|].
  - destruct Hcase as (-> & Hpos & Hd & [Hwf _ _ _ Hv Ho]). split; [done|].
    by eapply slot_changed; [|lia|..].
  - destruct Hcase as [-> ->]. split; [by eexists|].
    assert (same_pool m m') as Hsame by by eapply view_update_back.
    split; [by eapply same_pool_file|done].
Qed.

(** ** Insertion *)

(** The page has no room for the value. *)
Definition page_full (m : P) (c i : Z) (val : list byte) : Prop :=
  ∃ e k, mp_view m (page_key c i) = Some e ∧ lowest_free (e_page e) k ∧ no_room (e_page e) k val.

(** The new entry of an insertion. *)
Record file_added (m m' : P) (c i s : Z) (val : list byte) : Prop := {
  fa_slot : 0 ≤ s < 65536;
  fa_fresh : file_value m c i s = None;
  fa_changed : file_changed m m' c i s (Some val)
}.

Lemma lowest_free_None p k : lowest_free p k → value p k = None.
Proof.
  intros (Hk & _ & Hfree). apply value_None. intros [Hs Hl]. apply Hl, Hfree.
  unfold is_slot in Hs. lia.
Qed.

Lemma add_page m c i val :
  file_ok m c → 1 ≤ i < HeapFile.num_pages m c → val ≠ [] →
  ∃ m' r,
    (∀ B (k : P → option Z → outcome B),
      ('(m, g) ← HeapFile.get_page_for_write m c i;
       p ← deref m g;
       '(p, r) ← HeapPage.add_value p val;
       m ← deref_mut m g p;
       m ← drop_write m g; k m r) = k m' r) ∧
    HeapFile.num_pages m' c = HeapFile.num_pages m c ∧
    match r with
    | Some s => file_added m m' c i s val
    | None => file_ok m' c ∧ same_pool m m' ∧ page_full m c i val
    end.
Proof.
  intros Hf Hi Hne. destruct (fo_data m c Hf i Hi) as (e & Ev & Hd).
  pose proof Hd as (El & Hwf & Hid).
  destruct (write_open m c i e Hf Ev El) as (m1 & E1 & Hi1 & D1 & U1).
  destruct (add_value_ok (e_page e) val Hwf Hne) as (k & Hk & Hcase).
  assert (∃ p' r, HeapPage.add_value (e_page e) val = Ret (p', r) ∧ zlen p' = PAGE_SIZE ∧
    sub p' 0 16 = sub (e_page e) 0 16 ∧
    match r with
    | Some s => s = k ∧ added (e_page e) p' k val
    | None => p' = e_page e ∧ no_room (e_page e) k val
    end) as (p' & r & Ea & Hlen & Hhdr & Hr).
  { destruct Hcase as [[Hno ->]|(_ & p' & -> & Ha)].
    - exists (e_page e), None. split_and!; try done. apply Hwf.
    - exists p', (Some k). pose proof Ha as [[Hly _] Hh _ _ _ _]. split_and!; try done. apply Hly. }
  destruct (write_close m1 m c i _ _ p' Hi1 U1 Hlen Hhdr) as (m2 & m' & E2 & E3 & _ & Hi' & _ & _ & U).
  exists m', r. split.
  { intros B cont. rewrite E1. simpl. rewrite D1. simpl. rewrite Ea. simpl. rewrite E2. simpl.
    by rewrite E3. }
  destruct r as [s|].
  - destruct Hr as [-> [Hwf' _ Hn _ Hv Ho]].
    destruct (slot_changed m m' c i k (e_guard e) e p' (Some val)) as [Hch En]; try done; [lia|].
    split; [done|]. split; [|by destruct (file_page m c i Hf) as (e' & Ev' & _ & _ & -> & _);
      [lia|]; assert (e' = e) as -> by congruence; apply lowest_free_None|done].
    pose proof (num_slots_bound p'). destruct Hk as (? & _). lia.
  - destruct Hr as [-> Hno]. assert (same_pool m m') as Hsame by by eapply view_update_back.
    split; [by apply same_pool_num_pages|]. split; [by eapply same_pool_file|]. split; [done|].
    by exists e, k.
Qed.

Lemma same_pool_trans m m1 m2 : same_pool m m1 → same_pool m1 m2 → same_pool m m2.
Proof.
  intros (A1 & B1 & C1) (A2 & B2 & C2). split; [intros; by rewrite A2|].
  split; [intros; by rewrite B2|tauto].
Qed.

Lemma same_pool_full m m' c i val : same_pool m m' → page_full m' c i val → page_full m c i val.
Proof. intros [E _] (e & k & Ev & Hk). exists e, k. by rewrite <-E. Qed.

Lemma same_pool_added m m1 m2 c i s val :
  same_pool m m1 → file_added m1 m2 c i s val → file_added m m2 c i s val.
Proof.
  intros Hsame [Hs Hn [Hok [E1 E2] Hh Ho]]. pose proof Hsame as (S1 & S2 & _).
  split; [done|by rewrite <-(same_pool_value m m1)|]. split; try done.
  - split; intros; [by rewrite E1|by rewrite E2].
  - intros. rewrite Ho by done. by apply same_pool_value.
Qed.

(** The scan stops at the first page with room. *)
Lemma add_scan_ok m c l val :
  file_ok m c → (∀ i, i ∈ l → 1 ≤ i < HeapFile.num_pages m c) → val ≠ [] →
  ∃ m' r, HeapFile.add_scan m c l val = Ret (m', r) ∧
    HeapFile.num_pages m' c = HeapFile.num_pages m c ∧
    match r with
    | Some id => ∃ l1 l2 i s, id = ValueIds.new_slot c i s ∧ l = l1 ++ i :: l2 ∧
        file_added m m' c i s val ∧ (∀ j, j ∈ l1 → page_full m c j val)
    | None => file_ok m' c ∧ same_pool m m' ∧ (∀ j, j ∈ l → page_full m c j val)
    end.
Proof.
  revert m. induction l as [|i l IH]; intros m Hf Hl Hne; simpl.
  { exists m, None. split; [done|]. split; [done|]. split; [done|]. split; [by split|].
    intros j Hj. by apply elem_of_nil in Hj. }
  destruct (add_page m c i val Hf) as (m1 & r & Hrun & En & Hr); [apply Hl; set_solver|done|].
  rewrite Hrun. destruct r as [s|].
  { eexists m1, _. split; [done|]. split; [done|]. exists [], l, i, s. split_and!; try done.
    intros j Hj. by apply elem_of_nil in Hj. }
  destruct Hr as (Hf1 & Hsame & Hfull).
  destruct (IH m1 Hf1) as (m2 & r & -> & En2 & Hr2); [|done|].
  { rewrite En. intros. apply Hl. set_solver. }
  exists m2, r. split; [done|]. split; [congruence|]. destruct r as [id|].
  - destruct Hr2 as (l1 & l2 & i' & s & -> & -> & Ha & Hb). exists (i :: l1), l2, i', s.
    split_and!; try done; [by eapply same_pool_added|].
    intros j [->|Hj]%elem_of_cons; [done|]. by eapply same_pool_full, Hb.
  - destruct Hr2 as (Hf2 & Hs2 & Hb). split; [done|]. split; [by eapply same_pool_trans|].
    intros j [->|Hj]%elem_of_cons; [done|]. by eapply same_pool_full, Hb.
Qed.

Lemma u32_blank id p :
  0 ≤ id < 2 ^ 32 → sub p 0 16 = le_split 4 id ++ zeroes 12 → u32_at p 0 = id.
Proof.
  intros Hid Hp. unfold u32_at.
  assert (sub p 0 4 = take 4 (sub p 0 16)) as -> by (unfold sub; by rewrite take_take).
  rewrite Hp, take_app_length', le_combine_split by (by rewrite length_le_split). by apply Z.mod_small.
Qed.

Lemma sub_blank id : sub (blank_page id) 0 16 = le_split 4 id ++ zeroes 12.
Proof.
  unfold blank_page. pose proof (length_le_split 4 id) as E. revert E.
  generalize (le_split 4 id) as l. intros l E.
  do 4 (destruct l as [|? l]; [done|]). destruct l; [|done]. done.
Qed.

(** The file after page [num_pages] was appended. *)
Lemma page_appended m m' c g p :
  file_ok m c → mp_inv m' → HeapFile.num_pages m c < U32_MAX →
  let n := HeapFile.num_pages m c in
  mp_view m' (page_key c n) = Some (mkEntry g p 0) → wf p → u32_at p 0 = n →
  (∀ j, j ≠ page_key c n → mp_view m' j = mp_view m j) →
  mp_get_max_page_id m' c = Some (n + 1) →
  (∀ d, d ≠ c → mp_get_max_page_id m' d = mp_get_max_page_id m d) →
  file_ok m' c ∧ elsewhere m m' c ∧ (∀ s, file_value m' c n s = value p s) ∧
  (∀ j s, j ≠ n → file_value m' c j s = file_value m c j s).
Proof.
  intros Hf Hi Hmax n Hn Hwf Hid Helse Hcount Hother. pose proof (fo_count m c Hf) as Hc.
  assert (HeapFile.num_pages m' c = n + 1) as En by (unfold HeapFile.num_pages; by rewrite Hcount).
  assert (∀ j, j ≠ n → mp_view m' (page_key c j) = mp_view m (page_key c j)) as Hj
    by (intros; apply Helse; congruence).
  split_and!.
  - split; [done|apply Hf|subst n; lia| |].
    + rewrite Hj by (subst n; lia). apply Hf.
    + intros i Hir. destruct (decide (i = n)) as [->|].
      * eexists. split; [done|]. done.
      * rewrite Hj by done. apply Hf. subst n. lia.
  - split; [|done]. intros k Hk. apply Helse. intros ->. by apply Hk.
  - intros s. unfold file_value. rewrite En, (proj2 (Z.leb_le _ _)), (proj2 (Z.ltb_lt _ _)) by (subst n; lia).
    simpl. by rewrite Hn.
  - intros j s Hne. unfold file_value. rewrite En, Hj by done. subst n.
    destruct (0 <=? j), (Z.ltb_spec j (HeapFile.num_pages m c + 1)),
      (Z.ltb_spec j (HeapFile.num_pages m c)); simpl; try done; lia.
Qed.

(** Formatting a blank page and inserting a first value. *)
Lemma fresh_add id val :
  0 ≤ id < 2 ^ 32 → val ≠ [] →
  ∃ p0 p r, HeapPage.init_heap_page (blank_page id) = Ret p0 ∧ Pages.get_page_id p0 = Ret id ∧
    HeapPage.add_value p0 val = Ret (p, r) ∧ wf p ∧ u32_at p 0 = id ∧
    match r with
    | None => 4068 ≤ zlen val ∧ ∀ s, value p s = None
    | Some k => k = 0 ∧ zlen val < 4068 ∧ value p 0 = Some val ∧ ∀ s, s ≠ 0 → value p s = None
    end.
Proof.
  intros Hid Hne. unfold blank_page.
  destruct (init_blank id) as (p0 & E0 & Hwf0 & Hn0 & Hf0 & Hs0 & Hh0).
  assert (∀ s, value p0 s = None) as Hnone
    by (intros s; apply value_None; intros [? _]; unfold is_slot in *; lia).
  destruct (add_value_ok p0 val Hwf0 Hne) as (k & Hk & Hcase).
  destruct (fresh_room p0 k val Hn0 Hf0 Hs0 Hk) as [-> Hroom].
  assert (Pages.get_page_id p0 = Ret id) as Eid.
  { unfold Pages.get_page_id. rewrite read_u32_ok, (u32_blank id) by
      (try rewrite (ly_len p0) by apply Hwf0; done). done. }
  destruct Hcase as [[Hno Ea]|(Hno & p & Ea & [Hwf Hh _ _ Hv Ho _])].
  - exists p0, p0, None. split_and!; try done; [by apply u32_blank|by apply Hroom].
  - exists p0, p, (Some 0). split_and!; try done.
    { apply u32_blank; [done|]. by rewrite Hh. }
    { apply Z.nle_gt. intros ?. by apply Hno, Hroom. }
    intros s Hs. by rewrite Ho.
Qed.

(** Storing the first contents of a page just created. *)
Lemma create_close m m1 c g p :
  file_ok m c → HeapFile.num_pages m c < U32_MAX → mp_inv m1 →
  let n := HeapFile.num_pages m c in
  mp_view m1 (page_key c n) = Some (mkEntry g (blank_page n) (-1)) →
  (∀ j, j ≠ page_key c n → mp_view m1 j = mp_view m j) →
  mp_get_max_page_id m1 c = Some (n + 1) →
  (∀ d, d ≠ c → mp_get_max_page_id m1 d = mp_get_max_page_id m d) →
  wf p → u32_at p 0 = n →
  ∃ m2 m', deref_mut m1 g p = Ret m2 ∧ drop_write m2 g = Ret m' ∧
    file_ok m' c ∧ elsewhere m m' c ∧ (∀ s, file_value m' c n s = value p s) ∧
    (∀ j s, j ≠ n → file_value m' c j s = file_value m c j s).
Proof.
  intros Hf Hmax Hi1 n Hv1 Helse1 Hcount1 Hother1 Hwf Hid. pose proof (fo_count m c Hf).
  destruct (mp_deref_mut m1 _ _ p Hi1 Hv1) as (m2 & E2 & Hi2 & [H2 Helse2 Hmax2 _]);
    [done|apply Hwf| |].
  { simpl. rewrite Hid. symmetry. apply u32_blank; [unfold U32_MAX in *; lia|apply sub_blank]. }
  destruct (mp_drop_write m2 _ _ Hi2 H2) as (m3 & E3 & Hi3 & [H3 Helse3 Hmax3 _]); [done|].
  simpl in *. exists m2, m3. split; [done|]. split; [done|].
  apply (page_appended m m3 c g p); try done.
  - intros j Hj. by rewrite Helse3, Helse2, Helse1.
  - by rewrite Hmax3, Hmax2.
  - intros d Hd. by rewrite Hmax3, Hmax2, Hother1.
Qed.

(** Why an insertion can fail: the value is too large for a page, or the pool has no
    frame for a new page. *)
Definition cannot_add (m : P) (val : list byte) : Prop := 4068 ≤ zlen val ∨ ¬ mp_can_create m.

(** Allocating and filling a new page. *)
Lemma add_new_page m c val :
  file_ok m c → HeapFile.num_pages m c < U32_MAX → val ≠ [] →
  ∃ m' r,
    ('(m, r) ← mp_create_new_page_for_write m c;
     match r with
     | Err _ => Ret (m, Err (c_err "create_new_page_for_write"))
     | Ok g =>
         p ← deref m g;
         p ← HeapPage.init_heap_page p;
         page_id ← Pages.get_page_id p;
         '(p, r) ← HeapPage.add_value p val;
         m ← deref_mut m g p;
         m ← drop_write m g;
         match r with
         | None => Ret (m, Err (c_err "Value too large to fit in a single page"))
         | Some slot_id => Ret (m, Ok (ValueIds.new_slot c page_id slot_id))
         end
     end) = Ret (m', r) ∧ file_ok m' c ∧
    match r with
    | Ok id => id = ValueIds.new_slot c (HeapFile.num_pages m c) 0 ∧ zlen val < 4068 ∧
        file_added m m' c (HeapFile.num_pages m c) 0 val
    | Err e => elsewhere m m' c ∧ (∀ j s, file_value m' c j s = file_value m c j s) ∧
        cannot_add m val
    end.
Proof.
  intros Hf Hmax Hne. pose proof (fo_count m c Hf) as Hc.
  destruct (mp_create m c (fo_inv m c Hf) (fo_id m c Hf) Hmax) as (m1 & r & Ec & Hi1 & Hr).
  rewrite Ec, bind_Ret. destruct r as [g|st].
  2: { destruct Hr as (Hno & Hno1 & Hv & Hm). eexists m1, _. split; [done|].
       assert (same_pool m m1) as Hsame by by split_and!.
       split; [by eapply same_pool_file|]. split; [by apply same_pool_elsewhere|].
       split; [intros; by apply same_pool_value|]. by right. }
  destruct Hr as (Hid & _ & Hv1 & Helse1 & Hcount1 & Hother1).
  change (default 0 (mp_get_max_page_id m c)) with (HeapFile.num_pages m c) in *.
  pose proof (mp_deref m1 _ _ Hi1 Hv1) as D1. simpl in D1. rewrite D1, bind_Ret.
  destruct (fresh_add (HeapFile.num_pages m c) val) as (p0 & p & r & -> & E0 & Ea & Hwf & Hidp & Hr);
    [unfold U32_MAX in *; lia|done|]. rewrite bind_Ret, E0, bind_Ret, Ea, bind_Ret.
  destruct (create_close m m1 c g p Hf Hmax Hi1 Hv1 Helse1 Hcount1 Hother1 Hwf Hidp)
    as (m2 & m3 & E2 & E3 & Hf3 & Hel & Hnew & Hold). rewrite E2. simpl. rewrite E3. simpl.
  assert (∀ s, file_value m c (HeapFile.num_pages m c) s = None) as Hout.
  { intros s. destruct (file_value m c _ s) eqn:E; [|done]. apply file_value_range in E. lia. }
  destruct r as [k|].
  - destruct Hr as (-> & Hsmall & Hv & Ho). eexists m3, _. do 4 (split; [done|]).
    split; [done|apply Hout|]. split; try done; [by rewrite Hnew|].
    intros j t Hjt. destruct (decide (j = HeapFile.num_pages m c)) as [->|]; [|by apply Hold].
    by rewrite Hnew, Ho, Hout by congruence.
  - destruct Hr as [Hbig Hnone]. eexists m3, _. do 3 (split; [done|]). split; [|by left].
    intros j s. destruct (decide (j = HeapFile.num_pages m c)) as [->|]; [|by apply Hold].
    by rewrite Hnew, Hout.
Qed.

Lemma add_val_ok m c val :
  file_ok m c → HeapFile.num_pages m c < U32_MAX → val ≠ [] →
  ∃ m' r, HeapFile.add_val m c val = Ret (m', r) ∧
    match r with
    | Ok id => ∃ i s, id = ValueIds.new_slot c i s ∧ 1 ≤ i ∧ file_added m m' c i s val ∧
        (∀ j, 1 ≤ j < i → page_full m c j val)
    | Err _ => file_ok m' c ∧ elsewhere m m' c ∧
        (∀ j s, file_value m' c j s = file_value m c j s) ∧
        (∀ j, 1 ≤ j < HeapFile.num_pages m c → page_full m c j val) ∧ cannot_add m val
    end.
Proof.
  intros Hf Hmax Hne. pose proof (fo_count m c Hf) as Hc. unfold HeapFile.add_val.
  destruct (add_scan_ok m c (seqZ 1 (HeapFile.num_pages m c - 1)) val Hf)
    as (m1 & r & -> & En & Hr); [intros i; rewrite elem_of_seqZ; lia|done|].
  rewrite bind_Ret. destruct r as [id|].
  - destruct Hr as (l1 & l2 & i & s & -> & Hl & Ha & Hfull). eexists m1, _. split; [done|].
    assert (i ∈ seqZ 1 (HeapFile.num_pages m c - 1)) as Hi by (rewrite Hl; set_solver).
    rewrite elem_of_seqZ in Hi. exists i, s. split_and!; try done; [lia|].
    intros j Hj. apply Hfull. eapply seqZ_before; [by rewrite <-Hl|lia].
  - destruct Hr as (Hf1 & Hsame & Hfull).
    destruct (add_new_page m1 c val Hf1) as (m2 & r & -> & Hf2 & Hr2); [lia|done|].
    exists m2, r. split; [done|].
    assert (∀ j, 1 ≤ j < HeapFile.num_pages m c → page_full m c j val) as Hall
      by (intros; apply Hfull; rewrite elem_of_seqZ; lia).
    destruct r as [id|e].
    + destruct Hr2 as (-> & _ & Ha). rewrite En in *. eexists _, 0. split; [done|].
      split; [lia|]. split; [by eapply same_pool_added|done].
    + destruct Hr2 as ([E1 E2] & Hv & Hwhy). pose proof Hsame as (S1 & S2 & _).
      split_and!; try done.
      * split; intros; [by rewrite E1|by rewrite E2].
      * intros. rewrite Hv. by apply same_pool_value.
      * destruct Hwhy as [?|Hno]; [by left|right]. intros Hroom. by apply Hno, Hsame.
Qed.

(** ** Update *)

(** The entry under [(i, s)] was replaced by [val], now under [(i', s')]. *)
Record file_moved (m m' : P) (c i s i' s' : Z) (val : list byte) : Prop := {
  fm_ok : file_ok m' c;
  fm_else : elsewhere m m' c;
  fm_new : file_value m' c i' s' = Some val;
  fm_slot : 0 ≤ s' < 65536;
  fm_old : (i', s') ≠ (i, s) → file_value m' c i s = None ∧ file_value m c i' s' = None;
  fm_other : ∀ j t, (j, t) ≠ (i, s) → (j, t) ≠ (i', s') → file_value m' c j t = file_value m c j t
}.

(** What updating the entry under [(i, s)] may do. *)
Definition update_outcome (m m' : P) (c i s : Z) (val : list byte) (r : result CrustyError ValueId) : Prop :=
  match file_value m c i s, r with
  | None, r => (∃ e, r = Err e) ∧ file_ok m' c ∧ same_pool m m'
  | Some _, Ok id => ∃ i' s', id = ValueIds.new_slot c i' s' ∧ 0 ≤ i' ∧ file_moved m m' c i s i' s' val
  | Some _, Err _ => file_changed m m' c i s None ∧ cannot_add m val
  end.

(** Deleting the old value and inserting the new one elsewhere. *)
Lemma update_elsewhere m m1 c i s val old :
  file_changed m m1 c i s None → HeapFile.num_pages m1 c < U32_MAX → val ≠ [] →
  file_value m c i s = Some old → (mp_can_create m → mp_can_create m1) →
  ∃ m' r, HeapFile.add_val m1 c val = Ret (m', r) ∧ update_outcome m m' c i s val r.
Proof.
  intros [Hf1 [E1 E2] Hh1 Ho1] Hmax Hne Hold Hroom.
  destruct (add_val_ok m1 c val Hf1 Hmax Hne) as (m2 & r & Er & Hr).
  exists m2, r. split; [done|]. unfold update_outcome. rewrite Hold. destruct r as [id|e].
  - destruct Hr as (i' & s' & -> & Hi' & [Hs' Hfresh [Hf2 [E3 E4] Hh2 Ho2]] & _).
    exists i', s'. split; [done|]. split; [lia|]. split; try done.
    + split; intros; [by rewrite E3, E1|by rewrite E4, E2].
    + intros Hmoved. split; [by rewrite Ho2|by rewrite <-Ho1].
    + intros. by rewrite Ho2, Ho1.
  - destruct Hr as (Hf2 & [E3 E4] & Hv & _ & Hwhy).
    split; [|destruct Hwhy as [?|Hno]; [by left|right; intros ?; by apply Hno, Hroom]]. split; try done.
    + split; intros; [by rewrite E3, E1|by rewrite E4, E2].
    + by rewrite Hv.
    + intros. by rewrite Hv, Ho1.
Qed.

(** Updating in place on a data page. *)
Lemma update_in_place m m' c i s g e p' val old :
  file_ok m c → 0 < i < HeapFile.num_pages m c → 0 ≤ s < 65536 → mp_inv m' →
  mp_view m (page_key c i) = Some e → data_page i e →
  view_update mp_view mp_get_max_page_id mp_can_create m m' (page_key c i) (mkEntry g p' 0) →
  changed (e_page e) p' s (Some val) (zlen old - zlen val) → file_value m c i s = Some old →
  update_outcome m m' c i s val (Ok (ValueIds.new_slot c i s)).
Proof.
  intros Hf Hi Hs Hinv Ev Hd U [Hwf Hh _ _ Hv Ho] Hold. unfold update_outcome. rewrite Hold.
  destruct (slot_changed m m' c i s g e p' (Some val)) as [[Hf' Hel Hhere Hother] _]; try done.
  exists i, s. split; [done|]. split; [lia|]. split; try done. auto.
Qed.

Lemma page_update i e s val :
  zlen (e_page e) = PAGE_SIZE → 0 ≤ s < 65536 → val ≠ [] → page_kind i e →
  ∃ p' r, HeapPage.update_value (e_page e) s val = Ret (p', r) ∧ zlen p' = PAGE_SIZE ∧
    sub p' 0 16 = sub (e_page e) 0 16 ∧
    ((r = None ∧ p' = e_page e) ∨
     (∃ old, r = Some tt ∧ 0 < i ∧ data_page i e ∧ value (e_page e) s = Some old ∧
        changed (e_page e) p' s (Some val) (zlen old - zlen val))).
Proof.
  intros Hlen Hs Hne [[-> Hn]|[Hpos Hd]].
  - destruct (slotless_page (e_page e) s val Hlen Hn) as (_ & _ & -> & _); [lia|].
    exists (e_page e), None. split_and!; try done. by left.
  - pose proof (update_value_ok (e_page e) s val (proj1 (proj2 Hd)) Hs Hne) as Hup.
    destruct (value (e_page e) s) as [v|]; [destruct (_ || _)|].
    + destruct Hup as (p' & -> & Hch). exists p', (Some tt). split; [done|].
      pose proof Hch as [[Hly _] Hh _ _ _ _]. split; [apply Hly|]. split; [done|]. right. by exists v.
    + rewrite Hup. exists (e_page e), None. split_and!; try done. by left.
    + rewrite Hup. exists (e_page e), None. split_and!; try done. by left.
Qed.

Lemma update_val_ok m c i s val :
  file_ok m c → HeapFile.num_pages m c < U32_MAX → 0 ≤ i → 0 ≤ s < 65536 → val ≠ [] →
  ∃ m' r, HeapFile.update_val m c i s val = Ret (m', r) ∧ update_outcome m m' c i s val r.
Proof.
  intros Hf Hmax Hi Hs Hne. unfold HeapFile.update_val.
  destruct (HeapFile.num_pages m c <=? i) eqn:E.
  { apply Z.leb_le in E. eexists m, _. split; [done|]. unfold update_outcome.
    destruct (file_value m c i s) eqn:Ev; [apply file_value_range in Ev; lia|].
    split; [by eexists|]. by split. }
  apply Z.leb_gt in E. destruct (file_page m c i Hf) as (e & Ev & El & Hlen & Hval & Hc); [lia|].
  destruct (write_open m c i e Hf Ev El) as (m1 & E1 & Hi1 & D1 & U1).
  rewrite E1, bind_Ret, D1, bind_Ret.
  destruct (page_update i e s val Hlen Hs Hne Hc) as (p' & r & Eu & Hlen' & Hhdr & Hcase).
  rewrite Eu, bind_Ret.
  destruct (write_close m1 m c i _ _ p' Hi1 U1 Hlen' Hhdr)
    as (m2 & m' & E2 & E3 & Hi2 & Hi' & D2 & U2 & U). rewrite E2, bind_Ret.
  destruct Hcase as [[-> ->]|(old & -> & Hpos & Hd & Hold & Hch)].
  2: { rewrite E3, bind_Ret. eexists m', _. split; [done|].
       eapply update_in_place; try done. by rewrite Hval. }
  rewrite D2, bind_Ret, (page_get_value _ i e s), bind_Ret by done.
  destruct (value (e_page e) s) as [old|] eqn:Hold.
  2: { rewrite E3, bind_Ret. eexists m', _. split; [done|]. unfold update_outcome.
       rewrite Hval, Hold. split; [by eexists|].
       assert (same_pool m m') as Hsame by by eapply view_update_back.
       split; [by eapply same_pool_file|done]. }
  destruct Hc as [[-> Hn]|[Hpos Hd]].
  { destruct (slotless_page (e_page e) s val Hlen Hn) as (_ & _ & _ & ?); [lia|congruence]. }
  pose proof (delete_value_ok (e_page e) s (proj1 (proj2 Hd)) Hs) as Hdel. rewrite Hold in Hdel.
  destruct Hdel as (p2 & -> & Hch). rewrite bind_Ret. pose proof Hch as [Hwf2 Hh2 _ _ Hv2 Ho2].
  destruct (write_close m2 m c i _ _ p2 Hi2 U2) as (m3 & m4 & E4 & E5 & _ & Hi4 & _ & _ & U4);
    [apply Hwf2|done|]. rewrite E4, bind_Ret, E5, bind_Ret.
  destruct (slot_changed m m4 c i s (e_guard e) e p2 None) as [Hch4 En4]; try done.
  apply (update_elsewhere m m4 c i s val old); try done; [lia|by rewrite Hval|apply U4].
Qed.
End File.
