(* ===== verification/HeapFileContract.v ===== *)
(** * Heap files: the contract

    What a heap file promises to the storage manager, over any memory pool that satisfies
    the laws, and its operations run on the in-memory pool. *)

From stdpp Require Import gmap strings.
From S2P Require Import Prelude Common HeapPage HeapPageView HeapPageSpec HeapPageUpdate.
From S2P Require Import HeapPageContract.
From S2P Require Import BufferFrame MemPool InMemPool HeapFile HeapFileSpec.

Open Scope Z_scope.

(** ** Heap files: creation and scans

    Creating a heap file, and iterating over one: the iterator holds a read latch on the
    page it is at, and yields every stored value once, in page and slot order. *)

Lemma entries_past p k : num_slots p ≤ k → entries p k = [].
Proof. intros. unfold entries. by rewrite seqZ_nil by lia. Qed.

Section Scan.
Context `{Laws : MemPoolLaws P}.
Context (m : P) (c : Z) (Hf : file_ok m c).

Let n := HeapFile.num_pages m c.

(** The values of page [i] from slot [k] on, and of all pages from [i] on. *)
Definition page_rest (i k : Z) : list (list byte * ValueId) :=
  match mp_view m (mkContainerPageId c i) with
  | Some e => map (λ x, (x.1, ValueIds.new_slot c i x.2)) (entries (e_page e) k)
  | None => []
  end.
Definition pages_from (i : Z) : list (list byte * ValueId) :=
  mjoin (map (λ j, page_rest j 0) (seqZ i (HeapFile.num_pages m c - i))).
Definition file_rest (i k : Z) : list (list byte * ValueId) := page_rest i k ++ pages_from (i + 1).

Lemma pages_from_step i : i < n → pages_from i = page_rest i 0 ++ pages_from (i + 1).
Proof.
  intros Hi. unfold pages_from. rewrite seqZ_cons by (subst n; lia). simpl.
  by replace (Z.pred (HeapFile.num_pages m c - i)) with (HeapFile.num_pages m c - (i + 1)) by lia.
Qed.

Lemma pages_from_end i : n ≤ i → pages_from i = [].
Proof. intros. unfold pages_from. by rewrite seqZ_nil by (subst n; lia). Qed.

(** The pool while the iterator holds page [i] in frame [g]. *)
Definition latched (m1 : P) (i : Z) (g : frame_guard) : Prop :=
  mp_inv m1 ∧ ∃ e, mp_view m (mkContainerPageId c i) = Some e ∧ e_guard e = g ∧
    view_update mp_view mp_get_max_page_id mp_can_create m m1 (mkContainerPageId c i) (mkEntry g (e_page e) 1).

(** An iterator that stands at slot [k] of page [i]. *)
Definition stands (m1 : P) (it : HeapFile.HeapFileIter) (i k : Z) : Prop :=
  1 ≤ i < n ∧ 0 ≤ k < 65536 ∧
  ∃ g fp, latched m1 i g ∧ it = HeapFile.mkFileIter c true false fp i k (Some g).

Lemma latch_page m1 i :
  mp_inv m1 → same_pool m m1 → 1 ≤ i < n →
  ∃ m2 g, HeapFile.get_page_for_read m1 c i = Ret (m2, g) ∧ latched m2 i g.
Proof.
  intros Hi1 (Hv & Hm & Hroom) Hi. destruct (fo_data m c Hf i Hi) as (e & Ev & Hd & _).
  destruct (mp_read_ok m1 (mkContainerPageId c i) e Hi1) as (m2 & E2 & Hi2 & [U1 U2 U3 U4]);
    [by rewrite Hv|lia|].
  exists m2, (e_guard e). unfold HeapFile.get_page_for_read, PageFrameIds.new. rewrite E2. simpl.
  split; [done|]. split; [done|]. exists e. split; [done|]. split; [done|].
  split; [by rewrite U1, Hd|intros; by rewrite U2|intros; by rewrite U3|tauto].
Qed.

(** Looking at the latched page, and letting go of it. *)
Lemma latched_page m1 i g :
  1 ≤ i < n → latched m1 i g →
  ∃ e m2, mp_view m (mkContainerPageId c i) = Some e ∧ wf (e_page e) ∧
    deref m1 g = Ret (e_page e) ∧ drop_read m1 g = Ret m2 ∧ mp_inv m2 ∧ same_pool m m2 ∧
    HeapFile.num_pages m1 c = n.
Proof.
  intros Hi (Hi1 & e & Ev & <- & U1).
  destruct (fo_data m c Hf i Hi) as (e' & Ev' & Hd & Hwf & _). assert (e' = e) as -> by congruence.
  pose proof (mp_deref m1 _ _ Hi1 (vu_here _ _ _ _ _ _ _ U1)) as D1.
  destruct (mp_drop_read m1 _ _ Hi1 (vu_here _ _ _ _ _ _ _ U1)) as (m2 & E2 & Hi2 & U2);
    [simpl; lia|]. simpl in *. exists e, m2. split_and!; try done.
  - eapply (view_update_back m m2); try done. by eapply view_update_trans.
  - unfold HeapFile.num_pages. subst n. by rewrite (vu_max _ _ _ _ _ _ _ U1).
Qed.

Lemma page_rest_step e i k :
  mp_view m (mkContainerPageId c i) = Some e → k < num_slots (e_page e) →
  page_rest i k = match value (e_page e) k with
                  | Some v => (v, ValueIds.new_slot c i k) :: page_rest i (k + 1)
                  | None => page_rest i (k + 1)
                  end.
Proof. intros Ev Hk. unfold page_rest. rewrite Ev, entries_step by done. by destruct (value _ k). Qed.

Lemma page_rest_past e i k :
  mp_view m (mkContainerPageId c i) = Some e → num_slots (e_page e) ≤ k → page_rest i k = [].
Proof. intros Ev Hk. unfold page_rest. by rewrite Ev, entries_past. Qed.

Lemma file_rest_page i : i < n → file_rest i 0 = pages_from i.
Proof. intros. unfold file_rest. by rewrite (pages_from_step i). Qed.

(** The loop yields the next value, or ends with all latches given back. *)
Lemma scan_loop_ok fuel m1 it i k :
  stands m1 it i k → (n - i) * 65537 - k < Z.of_nat fuel →
  ∃ m2 it' x, HeapFile.next_loop fuel m1 it = Ret (m2, it', x) ∧
    match x with
    | Some y => ∃ i' k', stands m2 it' i' k' ∧ file_rest i k = y :: file_rest i' k'
    | None => file_rest i k = [] ∧ HeapFile.finished it' = true ∧ HeapFile.initialized it' = true ∧
              mp_inv m2 ∧ same_pool m m2
    end.
Proof.
  assert (1 ≤ n ≤ U32_MAX) as Hn by apply (fo_count m c Hf). revert m1 it i k.
  induction fuel as [|fuel IH]; intros m1 it i k (Hi & Hk & g & fp & Hl & ->) Hfuel; [lia|].
  destruct (latched_page m1 i g Hi Hl) as (e & m2 & Ev & Hwf & D1 & E2 & Hi2 & Hsame & En).
  pose proof (num_slots_bound (e_page e)). cbn [HeapFile.next_loop HeapFile.current_page].
  rewrite D1, bind_Ret, get_num_slots_ok, bind_Ret by apply Hwf. cbn [HeapFile.current_slot_id].
  destruct (k <? num_slots (e_page e)) eqn:Ek.
  - apply Z.ltb_lt in Ek. rewrite checked_ok, bind_Ret by lia. cbv zeta.
    rewrite get_value_ok, bind_Ret by (apply Hwf || done).
    unfold file_rest. rewrite (page_rest_step e) by done.
    assert (stands m1 (HeapFile.mkFileIter c true false fp i (k + 1) (Some g)) i (k + 1)) as Hst
      by (split; [done|]; split; [lia|]; by exists g, fp).
    destruct (value (e_page e) k) as [v|].
    + eexists m1, _, (Some _). split; [done|]. exists i, (k + 1). split; [done|]. done.
    + apply IH; [done|lia].
  - apply Z.ltb_ge in Ek. rewrite E2, bind_Ret. cbn [HeapFile.current_page_id].
    unfold U32_MAX in *. rewrite checked_ok, bind_Ret by lia.
    cbn [HeapFile.it_file]. rewrite (same_pool_num_pages m m2) by done. fold n.
    assert (file_rest i k = pages_from (i + 1)) as ->
      by (unfold file_rest; by rewrite (page_rest_past e)).
    destruct (n <=? i + 1) eqn:Ee.
    + apply Z.leb_le in Ee. eexists m2, _, None. split; [done|]. by rewrite pages_from_end.
    + apply Z.leb_gt in Ee. destruct (latch_page m2 (i + 1)) as (m3 & g' & E3 & Hl3); [done..|lia|].
      rewrite E3, bind_Ret.
      destruct (IH m3 (HeapFile.mkFileIter c true false fp (i + 1) 0 (Some g')) (i + 1) 0)
        as (m4 & it' & x & E4 & Hx); [split; [lia|]; split; [lia|]; by exists g', fp|lia|].
      exists m4, it', x. split; [done|]. by rewrite <-file_rest_page by lia.
Qed.

Lemma scan_next_ok m1 it i k :
  stands m1 it i k →
  ∃ m2 it' x, HeapFile.next m1 it = Ret (m2, it', x) ∧
    match x with
    | Some y => ∃ i' k', stands m2 it' i' k' ∧ file_rest i k = y :: file_rest i' k'
    | None => file_rest i k = [] ∧ HeapFile.finished it' = true ∧ HeapFile.initialized it' = true ∧
              mp_inv m2 ∧ same_pool m m2
    end.
Proof.
  intros Hst. pose proof Hst as (Hi & Hk & g & fp & Hl & ->).
  destruct (latched_page m1 i g Hi Hl) as (_ & _ & _ & _ & _ & _ & _ & _ & En).
  unfold HeapFile.next. cbn [HeapFile.initialized HeapFile.finished]. rewrite bind_Ret.
  cbn [HeapFile.finished]. apply scan_loop_ok; [done|]. unfold HeapFile.next_fuel.
  cbn [HeapFile.it_file HeapFile.current_page_id]. rewrite En. lia.
Qed.

Lemma scan_drain_ok fuel m1 it i k :
  stands m1 it i k → (length (file_rest i k) < fuel)%nat →
  ∃ m2, HeapFile.drain fuel m1 it = Ret (m2, file_rest i k) ∧ mp_inv m2 ∧ same_pool m m2.
Proof.
  revert m1 it i k. induction fuel as [|fuel IH]; intros m1 it i k Hst Hfuel; [lia|].
  destruct (scan_next_ok m1 it i k Hst) as (m2 & it' & x & E & Hx). cbn [HeapFile.drain].
  rewrite E, bind_Ret. destruct x as [y|].
  - destruct Hx as (i' & k' & Hst' & Er). rewrite Er in *. simpl in Hfuel.
    destruct (IH m2 it' i' k' Hst') as (m3 & -> & ? & ?); [lia|]. rewrite bind_Ret. by exists m3.
  - destruct Hx as (-> & _ & _ & ? & ?). by exists m2.
Qed.

(** Starting at any data page and slot. *)
Lemma iter_from_ok fuel i k :
  1 ≤ i → 0 ≤ k < 65536 → (length (file_rest i k) < fuel)%nat →
  ∃ m2, HeapFile.drain fuel m (HeapFile.iter_from c i k) =
          Ret (m2, if i <? n then file_rest i k else []) ∧ mp_inv m2 ∧ same_pool m m2.
Proof.
  intros Hi Hk Hfuel. destruct fuel as [|fuel]; [lia|]. cbn [HeapFile.drain].
  unfold HeapFile.next, HeapFile.iter_from, HeapFile.new_from, HeapFile.initialize.
  cbn [HeapFile.initialized HeapFile.first_page HeapFile.it_file]. fold n.
  destruct (i <? n) eqn:E.
  - apply Z.ltb_lt in E. destruct (latch_page m i) as (m2 & g & E2 & Hl); [apply Hf|by split|lia|].
    rewrite E2, !bind_Ret.
    assert (stands m2 (HeapFile.mkFileIter c true false i i k (Some g)) i k) as Hst
      by (split; [lia|]; split; [lia|]; by exists g, i).
    destruct (scan_drain_ok (S fuel) _ _ _ _ Hst Hfuel) as (m3 & E3 & ? & ?).
    exists m3. split; [|done]. rewrite <-E3. done.
  - rewrite !bind_Ret. cbn [HeapFile.finished]. rewrite bind_Ret. exists m. split; [done|].
    split; [apply Hf|by split].
Qed.
End Scan.

Section Contract.
Context `{Laws : MemPoolLaws P}.

(** Creating a file in a container without pages. *)
Lemma new_file_ok m c :
  mp_inv m → 0 ≤ c < 2 ^ 16 → HeapFile.num_pages m c = 0 →
  ∃ m' r, HeapFile.new m c = Ret (m', r) ∧
    match r with
    | Ok c' => c' = c ∧ file_ok m' c ∧ elsewhere m m' c ∧ (∀ i s, file_value m' c i s = None)
    | Err _ => ¬ mp_can_create m
    end.
Proof.
  intros Hi Hc Hn. unfold HeapFile.new.
  destruct (mp_create m c Hi Hc) as (m1 & r & -> & Hi1 & Hr).
  { change (default 0 (mp_get_max_page_id m c)) with (HeapFile.num_pages m c). by rewrite Hn. }
  rewrite bind_Ret. destruct r as [g|e]; [|destruct Hr as [? _]; by eexists m1, _].
  change (default 0 (mp_get_max_page_id m c)) with (HeapFile.num_pages m c) in Hr. rewrite Hn in Hr.
  destruct Hr as (_ & _ & Hv1 & Helse1 & Hcount1 & Hother1).
  destruct (mp_drop_write m1 _ _ Hi1 Hv1) as (m2 & E2 & Hi2 & [H2 Helse2 Hmax2 _]); [done|].
  simpl in *. rewrite E2. simpl. eexists m2, _. split; [done|]. split; [done|].
  assert (HeapFile.num_pages m2 c = 1) as En
    by (unfold HeapFile.num_pages; by rewrite Hmax2, Hcount1).
  assert (num_slots (blank_page 0) = 0) as Hs by by vm_compute.
  split; [|split].
  - split; [done|done|by rewrite En| |intros i; rewrite En; lia].
    eexists. split; [done|]. split; [done|]. done.
  - split; [intros k Hk|intros d Hd; by rewrite Hmax2, Hother1].
    rewrite Helse2, Helse1; [done|intros ->; done..].
  - intros i s. unfold file_value. rewrite En. destruct (_ && _) eqn:E; [|done].
    rewrite andb_true_iff, Z.leb_le, Z.ltb_lt in E. assert (i = 0) as -> by lia. rewrite H2. simpl.
    apply value_None. intros [[? ?] _]. lia.
Qed.

(** Nothing is stored on the header page. *)
Lemma header_value m c s : file_ok m c → file_value m c 0 s = None.
Proof.
  intros Hf. pose proof (fo_count m c Hf).
  destruct (file_page m c 0 Hf) as (e & _ & _ & _ & -> & [[_ Hn]|[? _]]); [lia| |lia].
  apply value_None. intros [? _]. unfold is_slot in *. lia.
Qed.

(** What a scan of all data pages yields. *)
Lemma elem_of_page_rest m c i v id :
  file_ok m c → 1 ≤ i < HeapFile.num_pages m c →
  (v, id) ∈ page_rest m c i 0 ↔ ∃ s, id = ValueIds.new_slot c i s ∧ file_value m c i s = Some v.
Proof.
  intros Hf Hi. destruct (file_page m c i Hf) as (e & Ev & _ & _ & Hval & _); [lia|].
  unfold page_rest. rewrite Ev, list_elem_of_fmap. split.
  - intros ([v' s] & [= -> ->] & Hin). exists s. split; [done|]. by rewrite Hval, <-elem_of_entries.
  - intros (s & -> & Hs). exists (v, s). split; [done|]. by rewrite elem_of_entries, <-Hval.
Qed.

Lemma elem_of_pages_from m c v id :
  file_ok m c →
  (v, id) ∈ pages_from m c 1 ↔ ∃ i s, id = ValueIds.new_slot c i s ∧ file_value m c i s = Some v.
Proof.
  intros Hf. unfold pages_from. rewrite list_elem_of_join. setoid_rewrite list_elem_of_fmap.
  setoid_rewrite elem_of_seqZ. split.
  - intros (l & Hin & i & -> & Hi). apply elem_of_page_rest in Hin as (s & ? & ?); [eauto|done|lia].
  - intros (i & s & -> & Hv). pose proof (file_value_range _ _ _ _ _ Hv).
    assert (i ≠ 0) by (intros ->; by rewrite header_value in Hv).
    exists (page_rest m c i 0). split; [|exists i; split; [done|lia]].
    apply elem_of_page_rest; [done|lia|eauto].
Qed.

(** No id is yielded twice. *)
Lemma NoDup_pages_from m c : NoDup (pages_from m c 1).*2.
Proof.
  unfold pages_from. generalize (NoDup_seqZ 1 (HeapFile.num_pages m c - 1)).
  generalize (seqZ 1 (HeapFile.num_pages m c - 1)) as l.
  induction l as [|i l IH]; intros Hl; simpl; [constructor|]. apply NoDup_cons in Hl as [Hi Hl].
  rewrite fmap_app. apply NoDup_app. split_and!.
  - unfold page_rest. destruct (mp_view m _) as [e|]; [|constructor].
    destruct (entries_sorted (e_page e) 0) as [Hs _]; [pose proof (num_slots_bound (e_page e)); lia|].
    rewrite <-list_fmap_compose. simpl.
    assert ((λ x : list byte * Z, ValueIds.new_slot c i x.2) <$> entries (e_page e) 0 =
            ValueIds.new_slot c i <$> (entries (e_page e) 0).*2) as E
      by by rewrite <-list_fmap_compose.
    unfold compose. simpl. rewrite E. apply NoDup_fmap_2; [by intros ? ? [= ->]|].
    clear E. induction Hs as [|x xs _ IHs Hx]; constructor; [|done].
    rewrite Forall_forall in Hx. intros Hin. apply Hx in Hin. lia.
  - intros id Hin Hin'. apply list_elem_of_fmap in Hin as ([v id1] & -> & Hin).
    apply list_elem_of_fmap in Hin' as ([v' id2] & Eid & Hin'). simpl in Eid. subst id2.
    apply list_elem_of_join in Hin' as (l' & Hin' & Hl').
    apply list_elem_of_fmap in Hl' as (j & -> & Hj).
    unfold page_rest in Hin, Hin'. destruct (mp_view m (mkContainerPageId c i)); [|by apply elem_of_nil in Hin].
    destruct (mp_view m (mkContainerPageId c j)); [|by apply elem_of_nil in Hin'].
    apply list_elem_of_fmap in Hin as (x & Ex & _). apply list_elem_of_fmap in Hin' as (y & Ey & _).
    simplify_eq/=. done.
  - by apply IH.
Qed.

Lemma file_value_slot m c i s v : file_ok m c → file_value m c i s = Some v → 0 ≤ s < 65536.
Proof.
  intros Hf Hv. pose proof (file_value_range _ _ _ _ _ Hv) as Hi.
  destruct (file_page m c i Hf Hi) as (e & _ & _ & _ & Hval & _). rewrite Hval in Hv.
  apply value_Some in Hv as [[? _] _]. pose proof (num_slots_bound (e_page e)). unfold is_slot in *. lia.
Qed.

(** [get_val] finds [v] under a page and a slot id. *)
Definition finds (m : P) (c i s : Z) (v : list byte) : Prop :=
  ∃ m', HeapFile.get_val m c i s = Ret (m', Ok v).

Lemma finds_value m c i s v :
  file_ok m c → 0 ≤ i → 0 ≤ s < 65536 → finds m c i s v ↔ file_value m c i s = Some v.
Proof.
  intros Hf Hi Hs. unfold finds. destruct (get_val_ok m c i s Hf Hi Hs) as (m1 & E & _ & _).
  rewrite E. unfold get_answer. split.
  - intros (m' & [= -> Ea]). destruct (_ <=? _); [done|]. by destruct (file_value m c i s); simplify_eq/=.
  - intros Hv. exists m1. rewrite Hv. pose proof (file_value_range _ _ _ _ _ Hv).
    by rewrite (proj2 (Z.leb_gt _ _)) by lia.
Qed.

(** Inserting into a heap file at rest never panics. When the value has fewer than
    4068 bytes and the pool has a frame for a new page, it is stored on the first data page with
    room (a new page when there is none) under an id that was not in use; [get_val]
    then returns it, and for every other id what it returned before. *)
Theorem heap_file_add m c val :
  file_ok m c → HeapFile.num_pages m c < U32_MAX → val ≠ [] → zlen val < 4068 →
  mp_can_create m →
  ∃ m' i s, HeapFile.add_val m c val = Ret (m', Ok (ValueIds.new_slot c i s)) ∧ file_ok m' c ∧
    1 ≤ i ∧ 0 ≤ s < 65536 ∧ finds m' c i s val ∧ (∀ v, ¬ finds m c i s v) ∧
    (∀ j, 1 ≤ j < i → page_full m c j val) ∧
    (∀ j t v, 0 ≤ j → 0 ≤ t < 65536 → (j, t) ≠ (i, s) → finds m' c j t v ↔ finds m c j t v).
Proof.
  intros Hf Hmax Hne Hlen Hcan.
  destruct (add_val_ok m c val Hf Hmax Hne) as (m' & r & -> & Hr). destruct r as [id|e].
  - destruct Hr as (i & s & -> & Hi & [Hs Hfresh [Hf' _ Hh Ho]] & Hfull).
    exists m', i, s. split_and!; try done; try lia.
    + by apply finds_value; [|lia|..].
    + intros v. rewrite finds_value by (done || lia). congruence.
    + intros j t v Hj Ht Hne'. rewrite !finds_value by done. by rewrite Ho.
  - destruct Hr as (_ & _ & _ & _ & [?|Hno]); [lia|by destruct Hno].
Qed.

(** Deleting from a heap file at rest never panics: an id that [get_val] finds is no
    longer found, an id it does not find is refused with an error and nothing changes;
    every other id is found as before. *)
Theorem heap_file_delete m c i s :
  file_ok m c → 0 ≤ i → 0 ≤ s < 65536 →
  ∃ m' r, HeapFile.delete_val m c i s = Ret (m', r) ∧ file_ok m' c ∧
    (r = Ok tt ↔ ∃ v, finds m c i s v) ∧ (∀ v, ¬ finds m' c i s v) ∧
    (∀ j t v, 0 ≤ j → 0 ≤ t < 65536 → (j, t) ≠ (i, s) → finds m' c j t v ↔ finds m c j t v).
Proof.
  intros Hf Hi Hs. destruct (delete_val_ok m c i s Hf Hi Hs) as (m' & r & -> & Hr).
  exists m', r. split; [done|].
  assert (∀ v, finds m c i s v ↔ file_value m c i s = Some v) as Hfind
    by (intros; by apply finds_value).
  setoid_rewrite Hfind. destruct (file_value m c i s) as [v|] eqn:Ev.
  - destruct Hr as (-> & [Hf' _ Hh Ho] & _). split_and!; try done.
    + split; [by exists v|done].
    + intros w. rewrite finds_value by done. congruence.
    + intros j t w Hj Ht Hne. rewrite !finds_value by done. by rewrite Ho.
  - destruct Hr as ([e ->] & Hf' & Hsame). split_and!; try done.
    + split; [done|]. by intros [? ?].
    + intros w. rewrite finds_value, (same_pool_value m m') by done. congruence.
    + intros j t w Hj Ht Hne. rewrite !finds_value, (same_pool_value m m') by done. done.
Qed.

(** C20: updating a value of a heap file at rest, to a value of 1 to 4067 bytes, succeeds
    while the pool has a frame for a new page and the file has page ids left: afterwards
    [get_val] finds the new value under the id returned; if that id is new it was not in use,
    and the old one is no longer found; every other id is found as before. *)
Theorem heap_file_update m c i s old val :
  file_ok m c → HeapFile.num_pages m c < U32_MAX → 0 ≤ i → 0 ≤ s < 65536 → val ≠ [] →
  finds m c i s old → zlen val < 4068 →
  mp_can_create m →
  ∃ m' i' s', HeapFile.update_val m c i s val = Ret (m', Ok (ValueIds.new_slot c i' s')) ∧
    file_ok m' c ∧ finds m' c i' s' val ∧
    ((i', s') ≠ (i, s) → ∀ v, ¬ finds m' c i s v ∧ ¬ finds m c i' s' v) ∧
    (∀ j t v, 0 ≤ j → 0 ≤ t < 65536 → (j, t) ≠ (i, s) → (j, t) ≠ (i', s') →
       finds m' c j t v ↔ finds m c j t v).
Proof.
  intros Hf Hmax Hi Hs Hne Hold Hlen Hcan. apply finds_value in Hold; [|done..].
  destruct (update_val_ok m c i s val Hf Hmax Hi Hs Hne) as (m' & r & -> & Hr).
  unfold update_outcome in Hr. rewrite Hold in Hr. destruct r as [id|e].
  - destruct Hr as (i' & s' & -> & Hi' & [Hf' _ Hnew Hs' Hmoved Ho]).
    exists m', i', s'. split; [done|]. split; [done|]. split; [by apply finds_value|]. split.
    + intros Hmv v. destruct (Hmoved Hmv). rewrite !finds_value by done. split; congruence.
    + intros j t v Hj Ht H1 H2. rewrite !finds_value by done. by rewrite Ho.
  - destruct Hr as [_ [?|Hno]]; [lia|by destruct Hno].
Qed.

(** C21: scanning a heap file at rest terminates and yields every value that [get_val]
    finds, with its id, exactly once, and nothing else; all latches are given back. *)
Theorem heap_file_scan m c :
  file_ok m c →
  ∃ l, NoDup l.*2 ∧
    (∀ v id, (v, id) ∈ l ↔ ∃ i s, 0 ≤ i ∧ 0 ≤ s < 65536 ∧ id = ValueIds.new_slot c i s ∧ finds m c i s v) ∧
    ∀ fuel, (length l < fuel)%nat →
      ∃ m', HeapFile.drain fuel m (HeapFile.iter c) = Ret (m', l) ∧ file_ok m' c ∧ same_pool m m'.
Proof.
  intros Hf. exists (pages_from m c 1). split; [apply NoDup_pages_from|]. split.
  - intros v id. rewrite elem_of_pages_from by done. split.
    + intros (i & s & -> & Hv). pose proof (file_value_range _ _ _ _ _ Hv).
      pose proof (file_value_slot _ _ _ _ _ Hf Hv). exists i, s. split_and!; try lia; [done|].
      apply finds_value; (done || lia).
    + intros (i & s & Hi & Hs & -> & Hv). apply finds_value in Hv; [|done..]. eauto.
  - intros fuel Hfuel. pose proof (fo_count m c Hf).
    destruct (decide (1 < HeapFile.num_pages m c)) as [H1|H1].
    + destruct (iter_from_ok m c Hf fuel 1 0) as (m' & E & ? & ?); [lia..| |].
      { by rewrite file_rest_page. }
      rewrite (proj2 (Z.ltb_lt _ _)), file_rest_page in E by done.
      exists m'. split; [done|]. split; [by eapply same_pool_file|done].
    + destruct fuel as [|fuel]; [lia|]. rewrite pages_from_end by lia. exists m.
      split; [|split; [done|by split]]. cbn [HeapFile.drain].
      unfold HeapFile.next, HeapFile.iter, HeapFile.new_from, HeapFile.initialize.
      cbn [HeapFile.initialized HeapFile.first_page HeapFile.it_file].
      by rewrite (proj2 (Z.ltb_ge _ _)) by lia.
Qed.

(** While an iterator stands on a page, every attempt to change that page panics:
    the iterator holds a read latch on it, and the latch refused to the writer is
    unwrapped. *)
Theorem scan_blocks_writers m c m1 it i k s val :
  file_ok m c → stands m c m1 it i k →
  HeapFile.delete_val m1 c i s = Panic ∧ HeapFile.update_val m1 c i s val = Panic.
Proof.
  intros Hf (Hi & Hk & g & fp & Hl & ->). pose proof Hl as (Hi1 & e & Ev & <- & U).
  destruct (latched_page m c Hf m1 i (e_guard e) Hi Hl) as (_ & _ & _ & _ & _ & _ & _ & _ & En).
  destruct (mp_write_busy m1 _ _ Hi1 (vu_here _ _ _ _ _ _ _ U)) as (m2 & Eb); [done|].
  unfold HeapFile.delete_val, HeapFile.update_val, HeapFile.get_page_for_write, PageFrameIds.new.
  rewrite En, (proj2 (Z.leb_gt _ _)), Eb by lia. done.
Qed.
End Contract.

(** ** A concrete file *)

Definition pool_after {A} (r : outcome (InMemPool * A)) : InMemPool :=
  match r with Ret (m, _) => m | Panic => InMem.new end.

(** Container 4 with a heap file, without and with a value. *)
Definition empty_file : InMemPool := pool_after (HeapFile.new InMem.new 4).
Definition one_file : InMemPool := pool_after (HeapFile.add_val empty_file 4 one_value).

Lemma new_pool_inv : im_inv InMem.new.
Proof. split; simpl; try done; intros; simplify_map_eq. Qed.

Lemma empty_file_ok : file_ok empty_file 4.
Proof.
  unfold empty_file. destruct (new_file_ok InMem.new 4) as (m & r & E & Hr); [apply new_pool_inv|lia|done|].
  rewrite E. simpl. destruct r as [id|e]; [apply Hr|]. exfalso. revert E. vm_compute. discriminate.
Qed.

Lemma one_file_ok : file_ok one_file 4.
Proof.
  unfold one_file. destruct (add_val_ok empty_file 4 one_value) as (m & r & -> & Hr);
    [apply empty_file_ok|by vm_compute|done|].
  simpl. destruct r as [id|e]; [|apply Hr]. destruct Hr as (i & s & _ & _ & [_ _ [? _ _ _]] & _). done.
Qed.

Lemma one_file_finds : finds one_file 4 1 0 one_value.
Proof. eexists. vm_compute. reflexivity. Qed.

Lemma heap_file_add_witness :
  ∃ m' i s, HeapFile.add_val one_file 4 one_value = Ret (m', Ok (ValueIds.new_slot 4 i s)) ∧
    finds m' 4 i s one_value.
Proof.
  destruct (heap_file_add one_file 4 one_value) as (m' & i & s & E & _ & _ & _ & Hv & _);
    [apply one_file_ok|by vm_compute|done|by vm_compute|done|].
  exists m', i, s. exact (conj E Hv).
Defined.

Lemma heap_file_delete_witness :
  ∃ m' r, HeapFile.delete_val one_file 4 1 0 = Ret (m', r) ∧ r = Ok tt.
Proof.
  destruct (heap_file_delete one_file 4 1 0) as (m' & r & E & _ & Hr & _); [apply one_file_ok|lia|lia|].
  exists m', r. refine (conj E (proj2 Hr _)). exists one_value. apply one_file_finds.
Defined.

Lemma heap_file_update_witness :
  ∃ m' i s, HeapFile.update_val one_file 4 1 0 (one_value ++ one_value) =
              Ret (m', Ok (ValueIds.new_slot 4 i s)) ∧ finds m' 4 i s (one_value ++ one_value).
Proof.
  destruct (heap_file_update one_file 4 1 0 one_value (one_value ++ one_value))
    as (m' & i & s & E & _ & Hv & _);
    [apply one_file_ok|by vm_compute|lia|lia|done|apply one_file_finds|by vm_compute
    |done|].
  exists m', i, s. exact (conj E Hv).
Defined.

Lemma heap_file_scan_witness :
  ∃ l, (one_value, ValueIds.new_slot 4 1 0) ∈ l ∧
    ∀ fuel, (length l < fuel)%nat →
      ∃ m', HeapFile.drain fuel one_file (HeapFile.iter 4) = Ret (m', l).
Proof.
  destruct (heap_file_scan one_file 4 one_file_ok) as (l & _ & Hin & Hrun). exists l. split.
  - apply Hin. exists 1, 0. refine (conj _ (conj _ (conj eq_refl one_file_finds))); lia.
  - intros fuel Hfuel. destruct (Hrun fuel Hfuel) as (m' & E & _). by exists m'.
Defined.

Lemma scan_blocks_writers_witness :
  ∃ m1, HeapFile.delete_val m1 4 1 0 = @Panic (InMemPool * result CrustyError unit).
Proof.
  destruct (latch_page one_file 4 one_file_ok one_file 1) as (m1 & g & _ & Hl);
    [apply one_file_ok|by split|by vm_compute|].
  exists m1. apply (scan_blocks_writers one_file 4 m1
    (HeapFile.mkFileIter 4 true false 1 1 0 (Some g)) 1 0 0 one_value); [apply one_file_ok|].
  split; [by vm_compute|]. split; [lia|]. by exists g, 1.
Defined.

(** An update whose value cannot be stored anywhere loses the old value: the update
    fails with an error, and the id is no longer found. *)
Theorem update_can_lose_value :
  ∃ e, (r ← HeapFile.update_val one_file 4 1 0 (replicate 4068 Byte.x01);
        let '(m, res) := r in
        '(_, found) ← HeapFile.get_val m 4 1 0; Ret (res, found)) =
    Ret (Err e, Err (c_err "Value not found")).
Proof. eexists. by vm_compute. Qed.
