(* ===== verification/StorageSpec.v ===== *)
(** * Storage managers: the interface

    Models the value operations of [common/src/traits/storage_trait.rs] as a class, and
    what the query layer relies on as a class of laws: a storage manager refines a map
    from container ids to maps from value ids to bytes. The two storage managers of the
    system ([memstore], [heapstore]) are instances; theorems about any storage manager
    are proved here from the laws alone. *)

From S2P Require Import Prelude Common.
From stdpp Require Import gmap.

Open Scope Z_scope.

Class StorageTrait (SM : Type) := {
  st_insert_value : SM → Z → list byte → outcome (SM * ValueId);
  st_delete_value : SM → ValueId → outcome (SM * result CrustyError unit);
  st_update_value : SM → list byte → ValueId → outcome (SM * result CrustyError ValueId);
  st_get_value : SM → ValueId → outcome (SM * result CrustyError (list byte));
  st_create_table : SM → Z → outcome (SM * result CrustyError unit)
}.

Inductive st_op :=
  | StInsert (c : Z) (v : list byte)
  | StDelete (id : ValueId)
  | StUpdate (v : list byte) (id : ValueId)
  | StGet (id : ValueId)
  | StCreate (c : Z).

Inductive st_res :=
  | RId (id : ValueId)
  | RDone (r : result CrustyError unit)
  | RMoved (r : result CrustyError ValueId)
  | RBytes (r : result CrustyError (list byte)).

Definition run_st `{StorageTrait SM} (s : SM) (op : st_op) : outcome (SM * st_res) :=
  match op with
  | StInsert c v => '(s, id) ← st_insert_value s c v; Ret (s, RId id)
  | StDelete id => '(s, r) ← st_delete_value s id; Ret (s, RDone r)
  | StUpdate v id => '(s, r) ← st_update_value s v id; Ret (s, RMoved r)
  | StGet id => '(s, r) ← st_get_value s id; Ret (s, RBytes r)
  | StCreate c => '(s, r) ← st_create_table s c; Ret (s, RDone r)
  end.

(** ** The abstract store *)

Abbreviation store := (gmap Z (gmap ValueId (list byte))).

Definition stored (a : store) (id : ValueId) : option (list byte) :=
  vals ← a !! container_id id; vals !! id.

(** Whether the store tolerates what is not as expected in a container it has. The trait
    documents that deleting an id that is not found is [Ok]; of the two storage managers only
    the in-memory one does so, and only for ids of its containers. They also differ in what
    updating such an id and creating an existing table is: an insertion and nothing, or
    errors. *)
Definition tolerated (lenient : bool) (a : store) (c : Z) : bool := lenient && bool_decide (is_Some (a !! c)).

Definition is_ok {E A} (r : result E A) : bool := match r with Ok _ => true | Err _ => false end.

(** What each operation answers. *)
Inductive store_step (lenient : bool) (a : store) : st_op → st_res → store → Prop :=
  | step_insert c v vals id :
      a !! c = Some vals → vals !! id = None → container_id id = c →
      store_step lenient a (StInsert c v) (RId id) (<[c := <[id := v]> vals]> a)
  | step_delete id vals v :
      a !! container_id id = Some vals → vals !! id = Some v →
      store_step lenient a (StDelete id) (RDone (Ok tt)) (<[container_id id := delete id vals]> a)
  | step_delete_missing id r :
      stored a id = None → is_ok r = tolerated lenient a (container_id id) → store_step lenient a (StDelete id) (RDone r) a
  | step_update v id vals old id' :
      a !! container_id id = Some vals → vals !! id = Some old →
      container_id id' = container_id id → id' = id ∨ vals !! id' = None →
      store_step lenient a (StUpdate v id) (RMoved (Ok id'))
        (<[container_id id := <[id' := v]> (delete id vals)]> a)
  | step_update_missing v id e :
      stored a id = None → tolerated lenient a (container_id id) = false →
      store_step lenient a (StUpdate v id) (RMoved (Err e)) a
  | step_update_inserts v id vals id' :
      lenient = true → a !! container_id id = Some vals → vals !! id = None →
      container_id id' = container_id id → vals !! id' = None →
      store_step lenient a (StUpdate v id) (RMoved (Ok id')) (<[container_id id := <[id' := v]> vals]> a)
  | step_get id v :
      stored a id = Some v → store_step lenient a (StGet id) (RBytes (Ok v)) a
  | step_get_missing id e :
      stored a id = None → store_step lenient a (StGet id) (RBytes (Err e)) a
  | step_create c :
      a !! c = None → store_step lenient a (StCreate c) (RDone (Ok tt)) (<[c := ∅]> a)
  | step_create_exists c vals r :
      a !! c = Some vals → is_ok r = lenient → store_step lenient a (StCreate c) (RDone r) a.

(** The laws: from a state that represents an abstract store, an operation that the
    storage manager is ready for returns, and its answer is one the abstract store
    allows. *)
Class StorageLaws (SM : Type) `{StorageTrait SM} := {
  st_lenient : bool;
  st_rep : SM → store → Prop;
  st_ready : SM → st_op → Prop;
  st_refines s a op :
    st_rep s a → st_ready s op →
    ∃ s' r a', run_st s op = Ret (s', r) ∧ store_step st_lenient a op r a' ∧ st_rep s' a'
}.

(** ** Clients *)

(** A client run: every operation is one the storage manager is ready for. *)
Inductive st_run `{StorageLaws SM} : SM → list st_op → SM → Prop :=
  | st_run_nil s : st_run s [] s
  | st_run_cons s s' s'' op r ops :
      st_ready s op → run_st s op = Ret (s', r) → st_run s' ops s'' → st_run s (op :: ops) s''.

(** Operations that take an id away from the store. *)
Definition touches (id : ValueId) (op : st_op) : bool :=
  match op with
  | StDelete id' | StUpdate _ id' => bool_decide (id' = id)
  | _ => false
  end.

Lemma stored_insert_eq a c vals id v :
  container_id id = c → stored (<[c := <[id := v]> vals]> a) id = Some v.
Proof. intros <-. unfold stored. rewrite lookup_insert_eq. simpl. apply lookup_insert_eq. Qed.

(** A store that changed in one container, there only in entries other than [id]. *)
Lemma stored_other a c vals vals' id :
  a !! c = Some vals → (container_id id = c → vals' !! id = vals !! id) →
  stored (<[c := vals']> a) id = stored a id.
Proof.
  intros Hc Hid. unfold stored. destruct (decide (container_id id = c)) as [<-|Hne].
  - rewrite lookup_insert_eq, Hc. simpl. by apply Hid.
  - by rewrite lookup_insert_ne by done.
Qed.

(** What is stored stays until it is deleted or updated. *)
Lemma store_step_keeps lenient a op r a' id v :
  store_step lenient a op r a' → touches id op = false → stored a id = Some v → stored a' id = Some v.
Proof.
  intros Hstep Ht Hv. assert (∀ vals, a !! container_id id = Some vals → vals !! id = Some v) as Hin.
  { intros vals E. unfold stored in Hv. by rewrite E in Hv. }
  inversion Hstep; subst; simpl in Ht; rewrite ?bool_decide_eq_false in Ht; try done;
    try (erewrite stored_other; [done..|]).
  - intros E. apply lookup_insert_ne. intros ->. by rewrite (Hin vals) in H0.
  - intros _. by apply lookup_delete_ne.
  - intros E. rewrite E in Hin. rewrite lookup_insert_ne, lookup_delete_ne; [done|done|].
    intros ->. destruct H2 as [->|H2]; [done|]. by rewrite (Hin vals H) in H2.
  - intros E. rewrite E in Hin. apply lookup_insert_ne. intros ->. by rewrite (Hin vals H0) in H3.
  - unfold stored in *. rewrite lookup_insert_ne; [done|]. intros ->. by rewrite H in Hv.
Qed.

Lemma run_st_step `{StorageLaws SM} s a op s' r :
  st_rep s a → st_ready s op → run_st s op = Ret (s', r) →
  ∃ a', store_step st_lenient a op r a' ∧ st_rep s' a'.
Proof.
  intros Hrep Hready E. destruct (st_refines s a op Hrep Hready) as (s'' & r' & a' & E' & Hst & Hr).
  rewrite E' in E. injection E as -> ->. eauto.
Qed.

(** Every client run is matched by a run of the abstract store, which keeps what the
    client does not touch. *)
Lemma st_run_keeps `{StorageLaws SM} s ops s' a id v :
  st_run s ops s' → Forall (λ op, touches id op = false) ops →
  st_rep s a → stored a id = Some v → ∃ a', st_rep s' a' ∧ stored a' id = Some v.
Proof.
  intros Hrun. revert a. induction Hrun as [|s s' s'' op r ops Hready E _ IH]; intros a Hall Hrep Hv.
  - eauto.
  - apply Forall_cons in Hall as [Hop Hops].
    destruct (run_st_step s a op s' r Hrep Hready E) as (a' & Hst & Hrep').
    apply (IH a' Hops Hrep'). by eapply store_step_keeps.
Qed.

Lemma st_get_stored `{StorageLaws SM} s a id v :
  st_rep s a → st_ready s (StGet id) → stored a id = Some v →
  ∃ s', st_get_value s id = Ret (s', Ok v).
Proof.
  intros Hrep Hready Hv.
  destruct (st_refines s a (StGet id) Hrep Hready) as (s' & r & a' & E & Hst & _).
  simpl in E. destruct (st_get_value s id) as [[s'' r']|]; [|done].
  injection E as -> <-. inversion Hst; subst; [|congruence].
  exists s'. do 3 f_equal. congruence.
Qed.

(** Whatever storage manager is used, a value a client inserted is what a later read
    of the returned id gives, after any run of inserts, reads, table creations, and
    deletes and updates of other ids. *)
Theorem read_your_writes `{StorageLaws SM} (s s1 s2 : SM) a c v id ops :
  st_rep s a → st_ready s (StInsert c v) →
  st_insert_value s c v = Ret (s1, id) →
  st_run s1 ops s2 → Forall (λ op, touches id op = false) ops →
  st_ready s2 (StGet id) →
  ∃ s3, st_get_value s2 id = Ret (s3, Ok v).
Proof.
  intros Hrep Hready E Hrun Hops Hget.
  destruct (run_st_step s a (StInsert c v) s1 (RId id)) as (a1 & Hst & Hrep1); [done..|by simpl; rewrite E|].
  inversion Hst as [? ? vals ? Hc Hid Hcid| | | | | | | | |]; subst.
  destruct (st_run_keeps s1 ops s2 _ id v Hrun Hops Hrep1) as (a2 & Hrep2 & Hv2).
  { by apply stored_insert_eq. }
  by apply (st_get_stored s2 a2).
Qed.
