(* ===== verification/HeapStore.v ===== *)
(** * The heap storage manager

    Models [heapstore/src/storage_manager.rs], generic in the memory pool, and proves that
    it implements the storage interface over any pool that satisfies the pool laws. *)

From S2P Require Import Prelude Common HeapPage HeapPageView HeapPageContract BufferFrame.

From S2P Require Import MemPool InMemPool HeapFile HeapFileSpec HeapFileContract.
From S2P Require Import StorageSpec.
From stdpp Require Import gmap strings.

Open Scope Z_scope.

(** The heap files by container id; a heap file is its container id and the shared pool. *)
Record HeapStore (P : Type) := mkHeapStore { bp : P; cid_heapfile_map : gmap Z Z }.
Arguments mkHeapStore {P} _ _.
Arguments bp {P} _.
Arguments cid_heapfile_map {P} _.

Module Hs.
Section Ops.
Context `{MemPool P}.
Implicit Type s : HeapStore P.

Definition set_bp s (m : P) : HeapStore P := mkHeapStore m (cid_heapfile_map s).

Definition get_heapfile s (c : Z) : result CrustyError Z :=
  ok_or (cid_heapfile_map s !! c) (c_err "Container not found").

Definition get_num_pages s (c : Z) : Z :=
  match get_heapfile s c with Ok hf => HeapFile.num_pages (bp s) hf | Err _ => 0 end.

(** [new]: one heap file per container the catalog knows. *)
Definition new (m : P) (container_ids : list Z) : outcome (HeapStore P) :=
  foldl (λ acc c,
    s ← acc;
    let '(m, r) := HeapFile.load (bp s) c in
    hf ← result_unwrap r;
    Ret (mkHeapStore m (<[c := hf]> (cid_heapfile_map s)))) (Ret (mkHeapStore m ∅)) container_ids.

Definition new_test_sm (m : P) : HeapStore P := mkHeapStore m ∅.

Definition insert_value s (c : Z) (value : list byte) : outcome (HeapStore P * ValueId) :=
  hf ← result_unwrap (get_heapfile s c);
  '(m, r) ← HeapFile.add_val (bp s) hf value;
  id ← result_unwrap r;
  Ret (set_bp s m, id).

Definition insert_values s (c : Z) (values : list (list byte)) :
  outcome (HeapStore P * list ValueId) :=
  hf ← result_unwrap (get_heapfile s c);
  '(m, r) ← HeapFile.add_vals (bp s) hf values;
  ids ← result_unwrap r;
  Ret (set_bp s m, ids).

(** The three lookups [get_value], [update_value] and [delete_value] start with: [?] makes
    the first failure the answer. *)
Definition locate s (id : ValueId) : result CrustyError (Z * Z * Z) :=
  match page_id id with
  | None => Err (c_err "Need page id")
  | Some page_id =>
      match slot_id id with
      | None => Err (c_err "Need slot id")
      | Some slot_id =>
          match get_heapfile s (container_id id) with
          | Err e => Err e
          | Ok hf => Ok (hf, page_id, slot_id)
          end
      end
  end.

Definition delete_value s (id : ValueId) : outcome (HeapStore P * result CrustyError unit) :=
  match locate s id with
  | Err e => Ret (s, Err e)
  | Ok (hf, page_id, slot_id) =>
      '(m, r) ← HeapFile.delete_val (bp s) hf page_id slot_id; Ret (set_bp s m, r)
  end.

Definition update_value s (value : list byte) (id : ValueId) :
  outcome (HeapStore P * result CrustyError ValueId) :=
  match locate s id with
  | Err e => Ret (s, Err e)
  | Ok (hf, page_id, slot_id) =>
      '(m, r) ← HeapFile.update_val (bp s) hf page_id slot_id value; Ret (set_bp s m, r)
  end.

Definition get_value s (id : ValueId) : outcome (HeapStore P * result CrustyError (list byte)) :=
  match locate s id with
  | Err e => Ret (s, Err e)
  | Ok (hf, page_id, slot_id) =>
      '(m, r) ← HeapFile.get_val (bp s) hf page_id slot_id; Ret (set_bp s m, r)
  end.

Definition create_container s (c : Z) : outcome (HeapStore P * result CrustyError unit) :=
  match cid_heapfile_map s !! c with
  | Some _ => Ret (s, Err (c_err "Container already exists"))
  | None =>
      '(m, r) ← HeapFile.new (bp s) c;
      match r with
      | Err e => Ret (set_bp s m, Err e)
      | Ok hf => Ret (mkHeapStore m (<[c := hf]> (cid_heapfile_map s)), Ok tt)
      end
  end.

Definition create_table s (c : Z) : outcome (HeapStore P * result CrustyError unit) :=
  create_container s c.

Definition remove_container s (c : Z) : outcome (HeapStore P * result CrustyError unit) := Panic.

Definition get_iterator s (c : Z) : outcome HeapFile.HeapFileIter :=
  hf ← result_unwrap (get_heapfile s c); Ret (HeapFile.iter hf).

Definition get_iterator_from s (c : Z) (start : ValueId) : outcome HeapFile.HeapFileIter :=
  _ ← guard_or_panic (container_id start =? c);
  page_id ← unwrap (page_id start);
  slot_id ← unwrap (slot_id start);
  hf ← result_unwrap (get_heapfile s c);
  Ret (HeapFile.iter_from hf page_id slot_id).

(** [remove_all] empties the catalog that the pool shares. *)
Definition reset (remove_all : P → P) s : outcome (HeapStore P * result CrustyError unit) :=
  '(m, r) ← mp_reset (bp s);
  _ ← result_unwrap r;
  Ret (mkHeapStore (remove_all m) ∅, Ok tt).

Definition clear_cache s : outcome (HeapStore P) :=
  '(m, r) ← mp_reset (bp s); _ ← result_unwrap r; Ret (set_bp s m).

Definition shutdown s : outcome (HeapStore P) :=
  '(m, r) ← mp_flush_all (bp s); _ ← result_unwrap r; Ret (set_bp s m).

End Ops.
End Hs.

#[global] Instance Hs_storage `{MemPool P} : StorageTrait (HeapStore P) := {
  st_insert_value := Hs.insert_value;
  st_delete_value := Hs.delete_value;
  st_update_value := Hs.update_value;
  st_get_value := Hs.get_value;
  st_create_table := Hs.create_table
}.

Section Refinement.
Context `{Laws : MemPoolLaws P}.
Implicit Type s : HeapStore P.

(** A heap file of another container is not affected. *)
Lemma elsewhere_num_pages m m' c d :
  elsewhere m m' c → d ≠ c → HeapFile.num_pages m' d = HeapFile.num_pages m d.
Proof. intros [_ H1] Hd. unfold HeapFile.num_pages. by rewrite H1. Qed.

Lemma elsewhere_value m m' c d i t :
  elsewhere m m' c → d ≠ c → file_value m' d i t = file_value m d i t.
Proof.
  intros He Hd. unfold file_value. rewrite (elsewhere_num_pages m m' c d He Hd).
  destruct He as [-> _]; done.
Qed.

Lemma elsewhere_file m m' c d :
  elsewhere m m' c → d ≠ c → mp_inv m' → file_ok m d → file_ok m' d.
Proof.
  intros He Hd Hi [_ Hid Hn Hh Hp]. pose proof (elsewhere_num_pages m m' c d He Hd) as En.
  destruct He as [Hv _]. split; [done|done|by rewrite En| |].
  - destruct Hh as (e & ? & ?). exists e. by rewrite Hv.
  - intros i Hr. rewrite En in Hr. destruct (Hp i Hr) as (e & ? & ?). exists e. by rewrite Hv.
Qed.

(** What a container of the storage manager stores, as a map. *)
Definition holds (m : P) (c : Z) (vals : gmap ValueId (list byte)) : Prop :=
  ∀ id v, vals !! id = Some v ↔
    ∃ i t, id = ValueIds.new_slot c i t ∧ file_value m c i t = Some v.

Record hs_rep s (a : store) : Prop := {
  hr_inv : mp_inv (bp s);
  hr_dom c : is_Some (a !! c) ↔ is_Some (cid_heapfile_map s !! c);
  hr_file c hf : cid_heapfile_map s !! c = Some hf → hf = c ∧ file_ok (bp s) c;
  hr_free c : cid_heapfile_map s !! c = None → HeapFile.num_pages (bp s) c = 0;
  hr_holds c vals : a !! c = Some vals → holds (bp s) c vals
}.

(** A value that the heap files can store, with the pool ready for one more page. *)
Definition hs_room s (c : Z) (v : list byte) : Prop :=
  v ≠ [] ∧ zlen v < 4068 ∧ mp_can_create (bp s) ∧ HeapFile.num_pages (bp s) c < U32_MAX.

(** Ids carry no segment and are in the range of their types. *)
Definition hs_id (id : ValueId) : Prop := segment_id id = None ∧ ValueIds.typed id.

Definition hs_ready s (op : st_op) : Prop :=
  match op with
  | StInsert c v => is_Some (cid_heapfile_map s !! c) ∧ hs_room s c v
  | StDelete id => hs_id id
  | StUpdate v id => hs_id id ∧ hs_room s (container_id id) v
  | StGet id => hs_id id
  | StCreate c => 0 ≤ c < 2 ^ 16 ∧ mp_can_create (bp s)
  end.

(** ** Preservation *)

Lemma hs_rep_same s a m' :
  hs_rep s a → mp_inv m' → same_pool (bp s) m' → hs_rep (Hs.set_bp s m') a.
Proof.
  intros [Hi Hd Hf Hn Hh] Hi' Hsame. split; simpl; [done|done| | |].
  - intros c hf E. destruct (Hf c hf E) as [-> ?]. split; [done|by eapply same_pool_file].
  - intros c E. by rewrite (same_pool_num_pages (bp s) m'), Hn.
  - intros c vals E id v. rewrite (Hh c vals E id v). by setoid_rewrite (same_pool_value _ _ _ _ _ Hsame).
Qed.

(** A new or changed heap file [c]; the other containers are as before. *)
Lemma hs_rep_write s a m' c vals :
  hs_rep s a → elsewhere (bp s) m' c → file_ok m' c → holds m' c vals →
  hs_rep (mkHeapStore m' (<[c := c]> (cid_heapfile_map s))) (<[c := vals]> a).
Proof.
  intros [Hi Hd Hf Hn Hh] He Hf' Hv. pose proof (fo_inv m' c Hf') as Hi'.
  split; simpl; [done| | | |].
  - intros d. destruct (decide (d = c)) as [->|].
    + by rewrite !lookup_insert_eq.
    + by rewrite !lookup_insert_ne by done.
  - intros d hf [[<- <-]|[? E]]%lookup_insert_Some; [done|]. destruct (Hf d hf E) as [-> ?].
    split; [done|by eapply elsewhere_file].
  - intros d [? E]%lookup_insert_None. rewrite (elsewhere_num_pages (bp s) m' c) by done. by apply Hn.
  - intros d vs [[<- <-]|[Hne E]]%lookup_insert_Some; [done|]. intros id v. rewrite (Hh d vs E id v).
    by setoid_rewrite (λ i t, elsewhere_value (bp s) m' c d i t He (not_eq_sym Hne)).
Qed.

Lemma hs_rep_set s a m' c vals :
  hs_rep s a → is_Some (cid_heapfile_map s !! c) →
  elsewhere (bp s) m' c → file_ok m' c → holds m' c vals →
  hs_rep (Hs.set_bp s m') (<[c := vals]> a).
Proof.
  intros Hr [hf E] He Hf Hh. destruct (hr_file s a Hr c hf E) as [-> _].
  unfold Hs.set_bp. rewrite <-(insert_id _ _ _ E). by apply hs_rep_write.
Qed.

(** How the maps of a container follow its heap file. *)
Lemma holds_slot m c vals i t :
  holds m c vals → vals !! ValueIds.new_slot c i t = file_value m c i t.
Proof.
  intros Hh. apply option_eq. intros v. rewrite (Hh _ v). split; [|eauto].
  by intros (i' & t' & [= <- <-] & ?).
Qed.

Lemma holds_changed m m' c vals i t v :
  holds m c vals → file_changed m m' c i t v →
  holds m' c (partial_alter (λ _, v) (ValueIds.new_slot c i t) vals).
Proof.
  intros Hh [_ _ Hhere Hother] id w. destruct (decide (id = ValueIds.new_slot c i t)) as [->|Hne].
  - rewrite lookup_partial_alter_eq, <-Hhere. split; [eauto|]. by intros (i' & t' & [= <- <-] & ?).
  - rewrite lookup_partial_alter_ne, (Hh id w) by done.
    split; intros (i' & t' & -> & E); exists i', t'; (split; [done|]); revert E;
      rewrite Hother; try done; intros [= -> ->]; done.
Qed.

Lemma holds_moved m m' c vals i t i' t' v :
  holds m c vals → file_moved m m' c i t i' t' v →
  holds m' c (<[ValueIds.new_slot c i' t' := v]> (delete (ValueIds.new_slot c i t) vals)).
Proof.
  intros Hh [_ _ Hnew _ Hold Hother] id w. destruct (decide (id = ValueIds.new_slot c i' t')) as [->|Hne].
  { rewrite lookup_insert_eq, <-Hnew. split; [eauto|]. by intros (? & ? & [= <- <-] & ?). }
  rewrite lookup_insert_ne by done. destruct (decide (id = ValueIds.new_slot c i t)) as [->|Hne'].
  { rewrite lookup_delete_eq. split; [done|]. intros (? & ? & [= <- <-] & E).
    destruct Hold as [Hn _]; congruence. }
  rewrite lookup_delete_ne, (Hh id w) by done.
  split; intros (j & u & -> & E); exists j, u; (split; [done|]); revert E;
    rewrite Hother; try done; intros [= -> ->]; done.
Qed.

(** ** The operations *)

(** An id either names a slot of a heap file of the manager, or nothing is stored under it
    and the operations answer with an error. *)
Lemma locate_cases s a id :
  hs_rep s a → hs_id id →
  (∃ e, Hs.locate s id = Err e ∧ stored a id = None) ∨
  (∃ c i t vals, id = ValueIds.new_slot c i t ∧ 0 ≤ i ∧ 0 ≤ t < 65536 ∧
     Hs.locate s id = Ok (c, i, t) ∧ is_Some (cid_heapfile_map s !! c) ∧
     a !! c = Some vals ∧ file_ok (bp s) c ∧ holds (bp s) c vals).
Proof.
  intros Hr [Hseg (Hc & _ & Hp & Hs)]. destruct id as [c sg [i|] [t|]]; simpl in *; subst sg.
  2,3,4: left; eexists; split; [done|]; unfold stored; simpl;
    destruct (a !! c) as [vals|] eqn:Ea; [simpl|done];
    apply eq_None_not_Some; intros [v (? & ? & [=] & ?)%(hr_holds s a Hr c vals Ea)].
  unfold Hs.locate, Hs.get_heapfile, stored. simpl.
  destruct (cid_heapfile_map s !! c) as [hf|] eqn:E.
  - destruct (hr_file s a Hr c hf E) as [-> Hf].
    destruct (proj2 (hr_dom s a Hr c)) as [vals Ea]; [by rewrite E|].
    right. exists c, i, t, vals. split_and!; try done; try lia. by apply (hr_holds s a Hr).
  - left. eexists. split; [done|]. destruct (a !! c) eqn:Ea; [|done].
    destruct (proj1 (hr_dom s a Hr c)) as [? ?]; [by rewrite Ea|congruence].
Qed.

Lemma stored_slot (a : store) c i t vals m :
  a !! c = Some vals → holds m c vals → stored a (ValueIds.new_slot c i t) = file_value m c i t.
Proof. intros Ea Hh. unfold stored. simpl. rewrite Ea. simpl. by apply holds_slot. Qed.

Lemma hs_refines_insert s a c v :
  hs_rep s a → hs_ready s (StInsert c v) →
  ∃ s' r a', run_st s (StInsert c v) = Ret (s', r) ∧ store_step false a (StInsert c v) r a' ∧ hs_rep s' a'.
Proof.
  intros Hr [[hf E] (Hne & Hlen & Hcan & Hmax)]. destruct (hr_file s a Hr c hf E) as [-> Hf].
  destruct (proj2 (hr_dom s a Hr c)) as [vals Ea]; [by rewrite E|].
  cbn [run_st st_insert_value Hs_storage]. unfold Hs.insert_value, Hs.get_heapfile. rewrite E.
  destruct (add_val_ok (bp s) c v Hf Hmax Hne) as (m' & r & Em & Hm). cbn [ok_or result_unwrap].
  rewrite bind_Ret, Em, bind_Ret. destruct r as [id|e].
  - destruct Hm as (i & t & -> & _ & [_ Hfresh Hch] & _). cbn [result_unwrap]. rewrite !bind_Ret.
    pose proof (hr_holds s a Hr c vals Ea) as Hh. eexists _, _, _. split_and!; [done| |].
    + apply step_insert; [done| |done]. by rewrite (holds_slot (bp s)).
    + apply hs_rep_set; [done|by rewrite E|apply Hch|apply Hch|]. by eapply holds_changed in Hch.
  - destruct Hm as (_ & _ & _ & _ & [?|?]); [lia|done].
Qed.

Lemma hs_refines_delete s a id :
  hs_rep s a → hs_ready s (StDelete id) →
  ∃ s' r a', run_st s (StDelete id) = Ret (s', r) ∧ store_step false a (StDelete id) r a' ∧ hs_rep s' a'.
Proof.
  intros Hr Hid. cbn [run_st st_delete_value Hs_storage]. unfold Hs.delete_value.
  destruct (locate_cases s a id Hr Hid)
    as [(e & -> & Hn)|(c & i & t & vals & -> & Hi & Ht & -> & Hmap & Ea & Hf & Hh)].
  { eexists s, _, a. split_and!; [done|by apply step_delete_missing|done]. }
  destruct (delete_val_ok (bp s) c i t Hf Hi Ht) as (m' & r & -> & Hm).
  rewrite bind_Ret. destruct (file_value (bp s) c i t) as [v|] eqn:Ev.
  - destruct Hm as (-> & Hch & _). eexists _, _, _. split_and!; [done| |].
    + eapply step_delete; [done|]. by rewrite (holds_slot (bp s)).
    + apply hs_rep_set; [done|done|apply Hch|apply Hch|]. by eapply holds_changed in Hch.
  - destruct Hm as ([e ->] & Hf' & Hsame). eexists _, _, a. split_and!; [done| |].
    + apply step_delete_missing; [|done]. by rewrite (stored_slot a c i t vals (bp s)).
    + apply hs_rep_same; [done|apply Hf'|done].
Qed.

Lemma hs_refines_update s a v id :
  hs_rep s a → hs_ready s (StUpdate v id) →
  ∃ s' r a', run_st s (StUpdate v id) = Ret (s', r) ∧ store_step false a (StUpdate v id) r a' ∧ hs_rep s' a'.
Proof.
  intros Hr [Hid (Hne & Hlen & Hcan & Hmax)]. cbn [run_st st_update_value Hs_storage].
  unfold Hs.update_value. destruct (locate_cases s a id Hr Hid)
    as [(e & -> & Hn)|(c & i & t & vals & -> & Hi & Ht & -> & Hmap & Ea & Hf & Hh)].
  { eexists s, _, a. split_and!; [done|by constructor|done]. }
  destruct (update_val_ok (bp s) c i t v Hf Hmax Hi Ht Hne) as (m' & r & -> & Hm).
  rewrite bind_Ret. unfold update_outcome in Hm.
  destruct (file_value (bp s) c i t) as [old|] eqn:Ev; [destruct r as [id|e]|].
  - destruct Hm as (i' & t' & -> & _ & Hmv). eexists _, _, _. split_and!; [done| |].
    + eapply step_update; [done|by rewrite (holds_slot (bp s))|done|].
      destruct (decide ((i', t') = (i, t))) as [[= -> ->]|Hd]; [by left|right].
      rewrite (holds_slot (bp s)) by done. by apply (fm_old _ _ _ _ _ _ _ _ Hmv).
    + apply hs_rep_set; [done|done|apply Hmv|apply Hmv|]. by eapply holds_moved.
  - by destruct Hm as (_ & [?|?]); [lia|].
  - destruct Hm as ([e ->] & Hf' & Hsame). eexists _, _, a. split_and!; [done| |].
    + apply step_update_missing; [|done]. by rewrite (stored_slot a c i t vals (bp s)).
    + apply hs_rep_same; [done|apply Hf'|done].
Qed.

Lemma hs_refines_get s a id :
  hs_rep s a → hs_ready s (StGet id) →
  ∃ s' r a', run_st s (StGet id) = Ret (s', r) ∧ store_step false a (StGet id) r a' ∧ hs_rep s' a'.
Proof.
  intros Hr Hid. cbn [run_st st_get_value Hs_storage]. unfold Hs.get_value.
  destruct (locate_cases s a id Hr Hid)
    as [(e & -> & Hn)|(c & i & t & vals & -> & Hi & Ht & -> & Hmap & Ea & Hf & Hh)].
  { eexists s, _, a. split_and!; [done|by constructor|done]. }
  destruct (get_val_ok (bp s) c i t Hf Hi Ht) as (m' & -> & Hf' & Hsame). rewrite !bind_Ret.
  eexists _, _, a. split_and!; [done| |by apply hs_rep_same; [|apply Hf'|]].
  pose proof (stored_slot a c i t vals (bp s) Ea Hh) as Est. unfold get_answer.
  destruct (Z.leb_spec (HeapFile.num_pages (bp s) c) i).
  - constructor. rewrite Est. destruct (file_value (bp s) c i t) eqn:Ev; [|done].
    apply file_value_range in Ev. lia.
  - by destruct (file_value (bp s) c i t); constructor.
Qed.

Lemma hs_refines_create s a c :
  hs_rep s a → hs_ready s (StCreate c) →
  ∃ s' r a', run_st s (StCreate c) = Ret (s', r) ∧ store_step false a (StCreate c) r a' ∧ hs_rep s' a'.
Proof.
  intros Hr [Hc Hcan]. cbn [run_st st_create_table Hs_storage]. unfold Hs.create_table, Hs.create_container.
  destruct (cid_heapfile_map s !! c) as [hf|] eqn:E.
  - destruct (proj2 (hr_dom s a Hr c)) as [vals Ea]; [by rewrite E|].
    eexists s, _, a. split_and!; [done|by econstructor|done].
  - destruct (new_file_ok (bp s) c (hr_inv s a Hr) Hc (hr_free s a Hr c E)) as (m' & r & -> & Hm).
    rewrite bind_Ret. destruct r as [c'|e]; [|done]. destruct Hm as (-> & Hf & He & Hnone).
    eexists _, _, _. split_and!; [done| |].
    + constructor. apply eq_None_not_Some. rewrite (hr_dom s a Hr c), E. by intros [? ?].
    + apply hs_rep_write; [done..|]. intros id v. rewrite lookup_empty. setoid_rewrite Hnone.
      split; [done|]. by intros (? & ? & _ & ?).
Qed.

Lemma hs_refines s a op :
  hs_rep s a → hs_ready s op →
  ∃ s' r a', run_st s op = Ret (s', r) ∧ store_step false a op r a' ∧ hs_rep s' a'.
Proof.
  destruct op; eauto using hs_refines_insert, hs_refines_delete, hs_refines_update,
    hs_refines_get, hs_refines_create.
Qed.

#[global] Instance Hs_laws : StorageLaws (HeapStore P) := {
  st_lenient := false;
  st_rep := hs_rep;
  st_ready := hs_ready;
  st_refines := hs_refines
}.

(** C3: The heap storage manager implements the storage interface over any memory pool
    that satisfies the pool laws. From a state that represents an abstract store, every
    operation it is ready for returns, answers what the abstract store allows, and leads to a
    state that represents its successor: insertion gives a new id, update keeps the id or
    moves the value to a new one, and deleting, updating or reading an id that stores nothing,
    or creating a container that exists, is an error and changes nothing. It is ready to
    insert into an existing container, and to insert and update non-empty values below 4068
    bytes while the pool has a frame for a new page and the container page ids; to create a
    container while the pool has a frame; and to delete and read always; the ids have no
    segment and are in the range of their types. *)
Theorem heapstore_refines_storage s (a : store) op :
  st_rep s a → st_ready s op →
  ∃ s' r a', run_st s op = Ret (s', r) ∧ store_step false a op r a' ∧ st_rep s' a'.
Proof. apply hs_refines. Qed.

End Refinement.
