(* ===== verification/HeapStorePool.v ===== *)
(** * The storage engine: heap store over the buffer pool

    What the buffer pool promises to heap files, and the heap storage manager run on the
    buffer pool: the refinement of the storage interface applies, and what clearing the
    cache and resetting do to stored values. *)

From S2P Require Import Prelude Common Decimal HeapPage HeapPageView HeapPageContract.
From S2P Require Import BaseFile Catalog.
From S2P Require Import BufferFrame MemPool InMemPool BufferPool BufferPoolLaws.
From S2P Require Import Reopen.
From S2P Require Import HeapFile HeapFileSpec HeapFileContract StorageSpec.
From S2P Require Import HeapStore.
From stdpp Require Import gmap strings.

Open Scope Z_scope.

Section Pool.
Context `{Laws : PosixLaws F} (next_u64 : nat → Z).
Implicit Type m : BufferPool F.

(** Creating a page in a buffer pool that has a free frame left returns a write-latched
    frame with a blank page that carries the next page id of its container; the page
    count grows by one, and all other pages of the pool are as before. *)
Theorem buffer_pool_create m c :
  bp_inv m → bp_can_create m → 0 ≤ c < 2 ^ 16 → default 0 (Bp.get_max_page_id m c) < U32_MAX →
  let id := default 0 (Bp.get_max_page_id m c) in
  ∃ m' g, Bp.create_new_page_for_write m c = Ret (m', Ok g) ∧ bp_inv m' ∧
    bp_view m (mkContainerPageId c id) = None ∧
    bp_view m' (mkContainerPageId c id) = Some (mkEntry g (blank_page id) (-1)) ∧
    (∀ j, j ≠ mkContainerPageId c id → bp_view m' j = bp_view m j) ∧
    Bp.get_max_page_id m' c = Some (id + 1) ∧
    (∀ d, d ≠ c → Bp.get_max_page_id m' d = Bp.get_max_page_id m d).
Proof.
  intros Hi Hcan Hc Hmax id. destruct (bp_create m c Hi Hc Hmax) as (m' & [g|e] & E & Hi' & Hr).
  - destruct Hr as (_ & ? & ? & ? & ? & ?). by exists m', g.
  - by destruct Hr as [Hno _].
Qed.

(** Reading a page that is on disk but not in memory, with a free frame left, returns a
    read-latched frame that holds the bytes of the file; the other pages of the pool, and
    the files, are as before. *)
Theorem buffer_pool_page_fault m k p :
  bp_inv m → bp_can_create m → bp_view m k = None →
  0 ≤ c_id k < 2 ^ 16 → 0 ≤ cp_page_id k → on_disk (cfc m) k p →
  zlen p = PAGE_SIZE → u32_at p 0 = cp_page_id k →
  ∃ m' g, Bp.get_page_for_read next_u64 m (mkPageFrameId k U32_MAX) = Ret (m', Ok g) ∧ bp_inv m' ∧
    bp_view m' k = Some (mkEntry g p 1) ∧ (∀ j, j ≠ k → bp_view m' j = bp_view m j) ∧ cfc m' = cfc m.
Proof.
  intros Hi Hcan Hv. apply page_fault_ok; [done|done|]. unfold bp_view in Hv.
  destruct (PageToFrame.get (page_to_frame m) k) as [i|] eqn:E; [|done].
  destruct (bi_mapped m Hi k i E) as (f & Hf & _). simpl in Hv. by rewrite Hf in Hv.
Qed.

(** Once the queue of hints is empty, the pool neither creates a page nor brings one
    in from disk, whether or not its frames are in use: nothing is ever evicted. *)
Theorem buffer_pool_never_evicts m c k :
  bp_inv m → eviction_hints m = [] → bp_view m k = None →
  Bp.create_new_page_for_write m c = Ret (m, Err CannotEvictPage) ∧
  Bp.get_page_for_read next_u64 m (mkPageFrameId k U32_MAX) = Ret (m, Err CannotEvictPage) ∧
  Bp.get_page_for_write next_u64 m (mkPageFrameId k U32_MAX) = Ret (m, Err CannotEvictPage).
Proof.
  intros Hi Eh Hv. assert (PageToFrame.get (page_to_frame m) k = None) as Hk.
  { unfold bp_view in Hv. destruct (PageToFrame.get (page_to_frame m) k) as [i|] eqn:E; [|done].
    destruct (bi_mapped m Hi k i E) as (f & Hf & _). simpl in Hv. by rewrite Hf in Hv. }
  pose proof (bi_latch m Hi) as El.
  assert (Bp.choose_victim m = Ret (m, None)) as Ev.
  { unfold Bp.choose_victim. rewrite Eh. simpl. destruct m; simpl in *. by subst. }
  assert (Bp.release_shared (Bp.set_pool_latch m 1) = m) as Erel.
  { destruct m. simpl in *. by rewrite El. }
  unfold Bp.create_new_page_for_write, Bp.get_page_for_read, Bp.get_page_for_write.
  rewrite !bp_shared, Ev by done. rewrite !bind_Ret. cbn [p_key].
  change (page_to_frame (Bp.set_pool_latch m 1)) with (page_to_frame m). rewrite Hk, Erel.
  unfold Bp.clean_victim. by rewrite Ev.
Qed.

End Pool.

(** ** A storage manager on a buffer pool of eight frames *)

(** Files are byte lists; the random number generator always answers 1. *)
Definition rng (_ : nat) : Z := 1.
#[local] Existing Instance Bp_laws.
#[local] Hint Extern 0 (MemPool (BufferPool (list byte))) => exact (Bp_MemPool rng) : typeclass_instances.

Definition no_files : ContainerFileCatalog (list byte) := mkCatalog false ∅ ∅.
Definition pool_or {A} (d : BufferPool (list byte)) (r : outcome (BufferPool (list byte) * A)) :
  BufferPool (list byte) := match r with Ret (m, _) => m | Panic => d end.
Definition spare_pool : BufferPool (list byte) := mkPool no_files 0 [] [] ∅ (mkLru 2 0).
Definition eight_frames : BufferPool (list byte) :=
  match Bp.new 8 no_files (mkLru 2 0) with Ret m => m | Panic => spare_pool end.

Lemma no_files_inv : cfc_inv no_files.
Proof. split; simpl; intros *; by rewrite lookup_empty. Qed.

Lemma eight_frames_ok :
  bp_inv eight_frames ∧ eviction_hints eight_frames = seq 0 8 ∧
  (∀ k, PageToFrame.get (page_to_frame eight_frames) k = None) ∧ cfc eight_frames = no_files.
Proof.
  unfold eight_frames. destruct (new_pool_ok 8 no_files (mkLru 2 0)) as (m & -> & ? & ? & ? & ? & _);
    [apply no_files_inv|lia|done].
Qed.

(** A heap file in container 4. *)
Definition pool_file : BufferPool (list byte) := pool_or spare_pool (HeapFile.new eight_frames 4).

Lemma pool_file_ok :
  file_ok pool_file 4 ∧ elsewhere eight_frames pool_file 4 ∧ (∀ i s, file_value pool_file 4 i s = None).
Proof.
  destruct eight_frames_ok as (Hi & Hh & _ & Hc). unfold pool_file.
  assert (HeapFile.num_pages eight_frames 4 = 0) as Hn.
  { unfold HeapFile.num_pages. cbn [mp_get_max_page_id Bp_MemPool]. unfold Bp.get_max_page_id.
    by rewrite Hc. }
  assert (bp_can_create eight_frames) as Hcan by (unfold bp_can_create; by rewrite Hh).
  destruct (new_file_ok eight_frames 4) as (m & r & E & Hr); [exact Hi|lia|exact Hn|]. rewrite E. cbn [pool_or].
  destruct r as [id|e]; [|by destruct Hr]. destruct Hr as (_ & Hf & He & Hv). exact (conj Hf (conj He Hv)).
Qed.

(** A storage manager with an empty table 4. *)
Definition pool_hs : HeapStore (BufferPool (list byte)) := mkHeapStore pool_file {[ 4 := 4 ]}.

Lemma pool_hs_rep : st_rep pool_hs {[ 4 := ∅ ]}.
Proof.
  destruct eight_frames_ok as (Hi & _ & Hnone & Hc). destruct pool_file_ok as (Hf & He & Hn).
  apply (hs_rep_write (Hs.new_test_sm eight_frames) ∅ pool_file 4 ∅); [|exact He|exact Hf|].
  - split; cbn [Hs.new_test_sm cid_heapfile_map bp].
    + exact Hi.
    + intros c. rewrite !lookup_empty. by split; intros [].
    + intros c hf E. by rewrite lookup_empty in E.
    + intros c _. unfold HeapFile.num_pages. cbn [mp_get_max_page_id Bp_MemPool].
      unfold Bp.get_max_page_id. by rewrite Hc.
    + intros c vals E. by rewrite lookup_empty in E.
  - intros id v. rewrite lookup_empty. setoid_rewrite Hn. split; [done|]. by intros (? & ? & _ & ?).
Qed.

Lemma heapstore_refines_storage_witness :
  ∃ s' r a', run_st pool_hs (StInsert 4 one_value) = Ret (s', r) ∧
    store_step false {[ 4 := ∅ ]} (StInsert 4 one_value) r a' ∧ st_rep s' a'.
Proof.
  apply (heapstore_refines_storage pool_hs {[ 4 := ∅ ]} (StInsert 4 one_value)).
  - apply pool_hs_rep.
  - refine (conj (ex_intro _ 4 eq_refl) (conj _ (conj _ (conj _ _)))); by vm_compute.
Defined.

Lemma buffer_pool_create_witness :
  ∃ m' g, Bp.create_new_page_for_write eight_frames 4 = Ret (m', Ok g) ∧ bp_inv m' ∧
    bp_view m' (mkContainerPageId 4 0) = Some (mkEntry g (blank_page 0) (-1)).
Proof.
  destruct eight_frames_ok as (Hi & Hh & _ & _).
  destruct (buffer_pool_create eight_frames 4) as (m' & g & E & Hi' & _ & Hv & _);
    [exact Hi|unfold bp_can_create; by rewrite Hh|lia|by vm_compute|].
  exists m', g. exact (conj E (conj Hi' Hv)).
Defined.

(** A directory with one page in the file of container 4, and a pool opened on it. *)
Definition one_page_dir : ContainerFileCatalog (list byte) :=
  mkCatalog false {[ show_u16 4 := blank_page 0 ]} {[ 4 := mkContainer 1 false (mkOpenFile (show_u16 4) true) ]}.

Lemma one_page_dir_inv : cfc_inv one_page_dir.
Proof.
  assert (file_wf (blank_page 0) ∧ BaseFile.num_pages (blank_page 0) = 1) as [Hwf Hn]
    by (destruct (file_wf_intro (blank_page 0) 1); [by vm_compute|done]).
  split; simpl.
  - intros c ct [<- <-]%lookup_singleton_Some. split; simpl; [lia|done| |lia].
    exists (blank_page 0). rewrite Hn. split_and!; [by apply lookup_singleton_eq|done|lia].
  - intros s f [<- <-]%lookup_singleton_Some. rewrite Hn. split_and!; [done|lia|].
    exists 4, (mkContainer 1 false (mkOpenFile (show_u16 4) true)). by rewrite lookup_singleton_eq.
Qed.

Lemma buffer_pool_page_fault_witness :
  ∃ m m' g, Bp.new 8 one_page_dir (mkLru 2 0) = Ret m ∧
    Bp.get_page_for_read rng m (mkPageFrameId (mkContainerPageId 4 0) U32_MAX) = Ret (m', Ok g) ∧
    bp_view m' (mkContainerPageId 4 0) = Some (mkEntry g (blank_page 0) 1).
Proof.
  destruct (new_pool_ok 8 one_page_dir (mkLru 2 0)) as (m & Em & Hi & Hc & Hh & Hnone & _);
    [apply one_page_dir_inv|lia|].
  destruct (buffer_pool_page_fault rng m (mkContainerPageId 4 0) (blank_page 0))
    as (m' & g & E & _ & Hv & _).
  - exact Hi.
  - unfold bp_can_create. by rewrite Hh.
  - unfold bp_view. by rewrite Hnone.
  - simpl. lia.
  - simpl. lia.
  - exists (blank_page 0). rewrite Hc. simpl. split_and!; [by apply lookup_singleton_eq|by vm_compute|by vm_compute].
  - apply zlen_blank.
  - by vm_compute.
  - exists m, m', g. exact (conj Em (conj E Hv)).
Defined.

(** A pool of one frame, used by the header page of a heap file and not latched. *)
Definition one_frame : BufferPool (list byte) :=
  match Bp.new 1 no_files (mkLru 2 0) with
  | Ret m => pool_or spare_pool (HeapFile.new m 4)
  | Panic => spare_pool
  end.

Lemma one_frame_inv : bp_inv one_frame.
Proof.
  unfold one_frame. destruct (new_pool_ok 1 no_files (mkLru 2 0)) as (m & -> & Hi & Hc & Hh & _);
    [apply no_files_inv|lia|].
  assert (HeapFile.num_pages m 4 = 0) as Hn.
  { unfold HeapFile.num_pages. cbn [mp_get_max_page_id Bp_MemPool]. unfold Bp.get_max_page_id. by rewrite Hc. }
  destruct (new_file_ok m 4) as (m' & r & E & Hr); [exact Hi|lia|exact Hn|]. rewrite E. cbn [pool_or].
  destruct r as [id|e]; [|destruct Hr; unfold mp_can_create; simpl; unfold bp_can_create; by rewrite Hh].
  destruct Hr as (_ & Hf & _). exact (fo_inv _ _ Hf).
Qed.

Lemma buffer_pool_never_evicts_witness :
  latch <$> frames one_frame !! 0%nat = Some 0 ∧
  Bp.create_new_page_for_write one_frame 4 = Ret (one_frame, Err CannotEvictPage).
Proof.
  split; [by vm_compute|].
  apply (buffer_pool_never_evicts rng one_frame 4 (mkContainerPageId 4 5));
    [exact one_frame_inv|by vm_compute|by vm_compute].
Defined.

Lemma pool_file_quiet : quiet pool_file.
Proof.
  assert (Forall (λ f, latch f = 0) (frames pool_file)) as H.
  { assert (frames pool_file = frames pool_file) as E by done. revert E.
    generalize (frames pool_file) at 1 3. intros fs ->. vm_compute. repeat constructor. }
  intros i f Hf. rewrite Forall_forall in H. rewrite (H f); [lia|]. by eapply list_elem_of_lookup_2.
Qed.

Lemma flush_then_reopen_witness :
  ∃ m' t m2 m3 g, Bp.flush_all pool_file = Ret (m', Ok tt) ∧
    Cfc.new (base_dir (cfc m')) [show_u16 4] true = Ret t ∧ Bp.new 2 t (mkLru 2 0) = Ret m2 ∧
    Bp.get_page_for_read rng m2 (mkPageFrameId (mkContainerPageId 4 0) U32_MAX) = Ret (m3, Ok g) ∧
    page <$> frames m3 !! g = Some (blank_page 0).
Proof.
  destruct pool_file_ok as (Hf & _).
  destruct (flush_then_reopen rng pool_file [show_u16 4] true 2 (mkLru 2 0)) as (m' & E & Hre);
    [exact (fo_inv _ _ Hf)|apply pool_file_quiet|lia|lia|].
  assert (m' = pool_or spare_pool (Bp.flush_all pool_file)) as Em by (by rewrite E).
  assert (base_dir (cfc m') = {[ show_u16 4 := blank_page 0 ]}) as Ed by (rewrite Em; by vm_compute).
  destruct Hre as (t & m2 & Et & Em2 & Hread).
  { intros s. rewrite Ed. split.
    - intros ->%list_elem_of_singleton. by rewrite lookup_singleton_eq.
    - intros [f [<- _]%lookup_singleton_Some]. left. }
  destruct (Hread (mkContainerPageId 4 0) (mkEntry 0 (blank_page 0) 0)
    (mkContainer 1 false (mkOpenFile (show_u16 4) true))) as (m3 & g & E3 & Hp);
    [by vm_compute|by vm_compute|done|].
  exists m', t, m2, m3, g. exact (conj E (conj Et (conj Em2 (conj E3 Hp)))).
Defined.

(** ** Clearing the cache and resetting *)

(** Clearing the cache of the heap storage manager loses what was not shut down before:
    a value inserted into a table is gone, and reading it panics; after [shutdown], the
    same read after the same clearing finds it. *)
Theorem clear_cache_loses_values :
  ('(s, id) ← Hs.insert_value pool_hs 4 one_value;
   s ← Hs.clear_cache s;
   '(_, r) ← Hs.get_value s id; Ret r) = Panic ∧
  ('(s, id) ← Hs.insert_value pool_hs 4 one_value;
   s ← Hs.shutdown s;
   s ← Hs.clear_cache s;
   '(_, r) ← Hs.get_value s id; Ret r) = Ret (Ok one_value).
Proof. split; by vm_compute. Qed.

Definition remove_files (m : BufferPool (list byte)) : BufferPool (list byte) :=
  Bp.set_cfc m (Cfc.remove_all (cfc m)).

(** Resetting the heap storage manager does not empty the pages it reuses: after a
    reset and the creation of the table anew, one insert makes two ids readable, of which
    the first was deleted by the reset. *)
Theorem reset_leaks_values :
  ∃ v, ('(s, _) ← Hs.insert_value pool_hs 4 one_value;
        '(s, _) ← Hs.reset remove_files s;
        '(s, _) ← Hs.create_table s 4;
        '(s, id) ← Hs.insert_value s 4 [Byte.x01];
        '(_, r) ← Hs.get_value s (ValueIds.new_slot 4 1 0); Ret (id, r)) =
       Ret (ValueIds.new_slot 4 1 1, Ok v).
Proof. eexists. by vm_compute. Qed.
