(* ===== verification/MemStore.v ===== *)
(** * The in-memory storage manager

    Models [memstore/src/storage_manager.rs]: containers are hash maps from value ids to
    bytes, each behind an [Arc] that iterators share, with the last id handed out per
    container, and persistence of the containers in one file each on shutdown. *)

From S2P Require Import Prelude Common Decimal.
From stdpp Require Import gmap strings.

Open Scope Z_scope.

Abbreviation ContainerMap := (gmap ValueId (list byte)).

(** The [Arc]s of the container maps are indices into [cells]: an iterator keeps the
    index, so that it sees later writes, and keeps a map whose container is removed. *)
Record StorageManager := mkStorageManager {
  containers : gmap Z nat;
  cells : list ContainerMap;
  last_insert : gmap Z ValueId;
  storage_dir : option string;
  container_names : gmap string Z
}.

Record ValueIterator := mkValueIterator {
  tracker : ValueId;
  it_max : Z;
  table_map : nat;
  current : Z
}.

(** A directory: the files by stem and extension. *)
Abbreviation file_name := (string * option string)%type.
Abbreviation directory := (gmap file_name (list byte)).

(** ** Iterators *)

Module ValIter.

Definition new (table_map : nat) (c max : Z) : ValueIterator :=
  mkValueIterator (mkValueId c None None (Some 0)) max table_map 0.

Definition advance (it : ValueIterator) : outcome ValueIterator :=
  slot ← unwrap (slot_id (tracker it));
  slot ← u16_add slot 1;
  cur ← u16_add (current it) 1;
  let t := tracker it in
  Ret (mkValueIterator (mkValueId (container_id t) (segment_id t) (page_id t) (Some slot))
    (it_max it) (table_map it) cur).

(** The loop of [next]; each round advances [current] towards [max]. *)
Fixpoint next_loop (fuel : nat) (cs : list ContainerMap) (it : ValueIterator) :
  outcome (ValueIterator * option (list byte * ValueId)) :=
  match fuel with
  | O => Panic
  | S fuel =>
      if current it <=? it_max it then
        map ← unwrap (cs !! table_map it);
        match map !! tracker it with
        | Some res => it ← advance it; Ret (it, Some (res, tracker it))
        | None => it ← advance it; next_loop fuel cs it
        end
      else Ret (it, None)
  end.

Definition next_fuel (it : ValueIterator) : nat := Z.to_nat (it_max it - current it + 2).
Definition next (s : StorageManager) (it : ValueIterator) :
  outcome (ValueIterator * option (list byte * ValueId)) := next_loop (next_fuel it) (cells s) it.

(** A [for] loop over the iterator, with nothing written meanwhile. *)
Fixpoint drain (fuel : nat) (s : StorageManager) (it : ValueIterator) :
  outcome (list (list byte * ValueId)) :=
  match fuel with
  | O => Panic
  | S fuel =>
      '(it, item) ← next s it;
      match item with
      | Some x => rest ← drain fuel s it; Ret (x :: rest)
      | None => Ret []
      end
  end.

End ValIter.

(** ** The storage manager *)

Module Ms.

Definition set_cell (s : StorageManager) (l : nat) (vals : ContainerMap) : StorageManager :=
  mkStorageManager (containers s) (<[l := vals]> (cells s)) (last_insert s) (storage_dir s)
    (container_names s).

Definition new_test_sm : StorageManager := mkStorageManager ∅ [] ∅ None ∅.

Definition insert_value (s : StorageManager) (c : Z) (value : list byte) :
  outcome (StorageManager * ValueId) :=
  l ← unwrap (containers s !! c);
  vals ← unwrap (cells s !! l);
  next_slot ← match last_insert s !! c with
              | None => Ret 0
              | Some id => slot ← unwrap (slot_id id); u16_add slot 1
              end;
  let rid := mkValueId c None None (Some next_slot) in
  Ret (mkStorageManager (containers s) (<[l := <[rid := value]> vals]> (cells s))
         (<[c := rid]> (last_insert s)) (storage_dir s) (container_names s), rid).

Fixpoint insert_values (s : StorageManager) (c : Z) (values : list (list byte)) :
  outcome (StorageManager * list ValueId) :=
  match values with
  | [] => Ret (s, [])
  | x :: values =>
      '(s, id) ← insert_value s c x;
      '(s, ids) ← insert_values s c values;
      Ret (s, id :: ids)
  end.

Definition delete_value (s : StorageManager) (id : ValueId) :
  outcome (StorageManager * result CrustyError unit) :=
  match containers s !! container_id id with
  | Some l =>
      table_map ← unwrap (cells s !! l);
      match table_map !! id with
      | Some _ => Ret (set_cell s l (delete id table_map), Ok tt)
      | None => Ret (s, Ok tt)
      end
  | None => Ret (s, Err (CrustyErr "File ID not found for recordID"))
  end.

Definition update_value (s : StorageManager) (value : list byte) (id : ValueId) :
  outcome (StorageManager * result CrustyError ValueId) :=
  '(s, r) ← delete_value s id;
  match r with
  | Err e => Ret (s, Err e)
  | Ok _ => '(s, id') ← insert_value s (container_id id) value; Ret (s, Ok id')
  end.

Definition create_container (s : StorageManager) (c : Z) (name : option string)
    (dependencies : option (list Z)) : outcome (StorageManager * result CrustyError unit) :=
  match name ≫= (λ n, container_names s !! n) with
  | Some _ => Ret (s, Err (ExecutionError "Container with name already exists"))
  | None =>
      let names := match name with
                   | Some n => <[n := c]> (container_names s)
                   | None => container_names s
                   end in
      match dependencies with
      | Some _ => Panic
      | None =>
          match containers s !! c with
          | Some _ =>
              Ret (mkStorageManager (containers s) (cells s) (last_insert s) (storage_dir s) names,
                   Ok tt)
          | None =>
              Ret (mkStorageManager (<[c := length (cells s)]> (containers s)) (cells s ++ [∅])
                     (last_insert s) (storage_dir s) names, Ok tt)
          end
      end
  end.

Definition create_table (s : StorageManager) (c : Z) :
  outcome (StorageManager * result CrustyError unit) := create_container s c None None.

Definition remove_container (s : StorageManager) (c : Z) : StorageManager * result CrustyError unit :=
  match containers s !! c with
  | None => (s, Ok tt)
  | Some _ =>
      (mkStorageManager (delete c (containers s)) (cells s) (last_insert s) (storage_dir s)
         (container_names s), Ok tt)
  end.

Definition get_iterator (s : StorageManager) (c : Z) : outcome ValueIterator :=
  table_map ← unwrap (containers s !! c);
  let last := default (ValueIds.new c) (last_insert s !! c) in
  Ret (ValIter.new table_map c (default 0 (slot_id last))).

Definition get_iterator_from (s : StorageManager) (c : Z) (start : ValueId) :
  outcome ValueIterator := Panic.

Definition get_value (s : StorageManager) (id : ValueId) : outcome (result CrustyError (list byte)) :=
  match containers s !! container_id id with
  | Some l =>
      map ← unwrap (cells s !! l);
      Ret (ok_or (map !! id) (ExecutionError "Record ID not found"))
  | None => Ret (Err (ExecutionError "File ID not found"))
  end.

(** The maps themselves survive in the [Arc]s of running iterators. *)
Definition reset (s : StorageManager) : StorageManager * result CrustyError unit :=
  (mkStorageManager ∅ (cells s) ∅ (storage_dir s) ∅, Ok tt).

Definition clear_cache (s : StorageManager) : StorageManager := s.

Section persistence.

(** [serde_cbor] writing and reading one container; the file system is taken not to
    fail. *)
Context (to_writer : ContainerMap → list byte) (from_reader : list byte → option ContainerMap).

Definition persist_one (s : StorageManager) (dir : outcome directory) (cl : Z * nat) :
  outcome directory :=
  dir ← dir;
  vals ← unwrap (cells s !! cl.2);
  Ret (<[(show_u16 cl.1, Some "ms"%string) := to_writer vals]> dir).

Definition shutdown (s : StorageManager) (dir : directory) : outcome directory :=
  match storage_dir s with
  | Some _ => foldl (persist_one s) (Ret dir) (map_to_list (containers s))
  | None => Ret dir
  end.

(** The largest slot among the keys of a container, as [load] looks for it. *)
Definition max_step (acc : outcome ValueId) (key : ValueId) : outcome ValueId :=
  max_val ← acc;
  match slot_id key with
  | Some slot =>
      m ← unwrap (slot_id max_val);
      Ret (if m <? slot then key else max_val)
  | None => Ret max_val
  end.
Definition max_key (cid : Z) (keys : list ValueId) : outcome ValueId :=
  foldl max_step (Ret (mkValueId cid None None (Some 0))) keys.

Definition load_one (s : outcome StorageManager) (entry : file_name * list byte) :
  outcome StorageManager :=
  s ← s;
  container ← unwrap (from_reader entry.2);
  cid ← unwrap (parse_u16 entry.1.1);
  max_val ← max_key cid (map_to_list container).*1;
  Ret (mkStorageManager (<[cid := length (cells s)]> (containers s)) (cells s ++ [container])
         (<[cid := max_val]> (last_insert s)) (storage_dir s) (container_names s)).

Definition is_ms (ext : option string) : outcome bool :=
  ext ← unwrap ext; Ret (String.eqb ext "ms").

Fixpoint ms_entries (entries : list (file_name * list byte)) :
  outcome (list (file_name * list byte)) :=
  match entries with
  | [] => Ret []
  | e :: entries =>
      b ← is_ms e.1.2;
      rest ← ms_entries entries;
      Ret (if b : bool then e :: rest else rest)
  end.

(** [entries] is the directory as [read_dir] lists it, in any order. *)
Definition load (dir : string) (entries : list (file_name * list byte)) : outcome StorageManager :=
  entries ← ms_entries entries;
  foldl load_one (Ret (mkStorageManager ∅ [] ∅ (Some dir) ∅)) entries.

(** [new]: load from the directory when there is one, a fresh manager otherwise. *)
Definition new (dir : string) (on_disk : option (list (file_name * list byte))) :
  outcome StorageManager :=
  match on_disk with
  | Some entries => load dir entries
  | None => Ret (mkStorageManager ∅ [] ∅ (Some dir) ∅)
  end.

End persistence.

End Ms.
