(* ===== verification/MemStoreSpec.v ===== *)
(** * The in-memory storage manager: correctness

    The invariant of [MemStore], the behaviour of each operation on it, the refinement of
    the storage interface, scans, and persistence. *)

From S2P Require Import Prelude Common Decimal StorageSpec MemStore.
From stdpp Require Import gmap strings.

Open Scope Z_scope.

Definition key (c sl : Z) : ValueId := mkValueId c None None (Some sl).

Definition contents (s : StorageManager) (c : Z) : option ContainerMap :=
  l ← containers s !! c; cells s !! l.

(** The slot the next insert into [c] takes. *)
Definition next_slot (s : StorageManager) (c : Z) : Z :=
  match last_insert s !! c with
  | Some id => default 0 (slot_id id) + 1
  | None => 0
  end.

Record ms_inv (s : StorageManager) : Prop := {
  inv_cell c l : containers s !! c = Some l → is_Some (cells s !! l);
  inv_inj c c' l : containers s !! c = Some l → containers s !! c' = Some l → c = c';
  inv_last c last : last_insert s !! c = Some last → ∃ sl, last = key c sl ∧ 0 ≤ sl < 2 ^ 16;
  inv_keys c vals id v :
    contents s c = Some vals → vals !! id = Some v →
    ∃ sl, id = key c sl ∧ 0 ≤ sl < next_slot s c
}.

Lemma contents_Some s c vals :
  contents s c = Some vals ↔ ∃ l, containers s !! c = Some l ∧ cells s !! l = Some vals.
Proof. unfold contents. rewrite bind_Some. done. Qed.

Lemma contents_None s c : ms_inv s → contents s c = None → containers s !! c = None.
Proof.
  intros Hi Hc. destruct (containers s !! c) as [l|] eqn:E; [|done].
  destruct (inv_cell s Hi c l E) as [vals Hv].
  unfold contents in Hc. by rewrite E in Hc; simpl in Hc; rewrite Hv in Hc.
Qed.

Lemma next_slot_range s c : ms_inv s → 0 ≤ next_slot s c ≤ 2 ^ 16.
Proof.
  intros Hi. unfold next_slot. destruct (last_insert s !! c) as [id|] eqn:E; [|lia].
  destruct (inv_last s Hi c id E) as (sl & -> & ?). simpl. lia.
Qed.

(** A key past the last one is free. *)
Lemma fresh_key s c vals sl :
  ms_inv s → contents s c = Some vals → next_slot s c ≤ sl → vals !! key c sl = None.
Proof.
  intros Hi Hc Hsl. destruct (vals !! key c sl) as [v|] eqn:E; [|done].
  destruct (inv_keys s Hi c vals _ v Hc E) as (sl' & [= <-] & ?). lia.
Qed.

(** Writing the cell of one container changes that container only. *)
Lemma contents_write s s' c l vals :
  ms_inv s → containers s !! c = Some l →
  containers s' = containers s → cells s' = <[l := vals]> (cells s) →
  ∀ c', contents s' c' = if decide (c' = c) then Some vals else contents s c'.
Proof.
  intros Hi Hl Hcs Hce c'. unfold contents. rewrite Hcs, Hce.
  destruct (decide (c' = c)) as [->|Hne].
  - rewrite Hl. simpl. apply list_lookup_insert_eq, lookup_lt_is_Some, (inv_cell s Hi c l Hl).
  - destruct (containers s !! c') as [l'|] eqn:E; [|done]. simpl.
    apply list_lookup_insert_ne. intros <-. by destruct Hne; apply (inv_inj s Hi c' c l).
Qed.

(** The invariant of a state in which one container was rewritten. *)
Lemma ms_inv_write s s' c l vals :
  ms_inv s → containers s !! c = Some l →
  containers s' = containers s → cells s' = <[l := vals]> (cells s) →
  (∀ c' last, last_insert s' !! c' = Some last → ∃ sl, last = key c' sl ∧ 0 ≤ sl < 2 ^ 16) →
  (∀ c', next_slot s c' ≤ next_slot s' c') →
  (∀ id v, vals !! id = Some v → ∃ sl, id = key c sl ∧ 0 ≤ sl < next_slot s' c) →
  ms_inv s'.
Proof.
  intros Hi Hl Hcs Hce Hlast Hnext Hkeys.
  pose proof (contents_write s s' c l vals Hi Hl Hcs Hce) as Hcont. constructor.
  - intros c' l' E. rewrite Hcs in E. destruct (inv_cell s Hi c' l' E) as [vals' Hv].
    rewrite Hce, lookup_lt_is_Some, length_insert. by apply lookup_lt_Some in Hv.
  - rewrite Hcs. apply (inv_inj s Hi).
  - done.
  - intros c' vals' id v. rewrite Hcont. destruct (decide (c' = c)) as [->|].
    + intros [= ->]. apply Hkeys.
    + intros Hc Hid. destruct (inv_keys s Hi c' vals' id v Hc Hid) as (sl & -> & ?).
      exists sl. specialize (Hnext c'). split; [done|lia].
Qed.

(** ** The operations *)

Lemma new_test_sm_inv : ms_inv Ms.new_test_sm.
Proof.
  constructor; unfold contents; simpl; intros *; rewrite ?lookup_empty; try done.
Qed.

Lemma next_slot_insert s c sl c' cs ce d n :
  next_slot (mkStorageManager cs ce (<[c := key c sl]> (last_insert s)) d n) c' =
  if decide (c' = c) then sl + 1 else next_slot s c'.
Proof.
  unfold next_slot. simpl. destruct (decide (c' = c)) as [->|].
  - by rewrite lookup_insert_eq.
  - by rewrite lookup_insert_ne by done.
Qed.

Lemma ms_insert_value_ok s c vals v :
  ms_inv s → contents s c = Some vals → next_slot s c < 2 ^ 16 →
  ∃ s', Ms.insert_value s c v = Ret (s', key c (next_slot s c)) ∧ ms_inv s' ∧
    (∀ c', contents s' c' =
      if decide (c' = c) then Some (<[key c (next_slot s c) := v]> vals) else contents s c') ∧
    (∀ c', next_slot s' c' = if decide (c' = c) then next_slot s c + 1 else next_slot s c').
Proof.
  intros Hi Hc Hroom. pose proof (next_slot_range s c Hi) as Hrange.
  apply contents_Some in Hc as (l & Hl & Hvals). unfold Ms.insert_value.
  rewrite Hl. simpl. rewrite Hvals. simpl.
  assert ((match last_insert s !! c with
           | Some id => slot ← unwrap (slot_id id); u16_add slot 1
           | None => Ret 0 end) = Ret (next_slot s c)) as ->.
  { unfold next_slot in *. destruct (last_insert s !! c) as [id|] eqn:E; [|done].
    destruct (inv_last s Hi c id E) as (sl & -> & ?). change (sl + 1 < 2 ^ 16) in Hroom.
    apply (checked_ok 16 (sl + 1)). lia. }
  rewrite bind_Ret. change (mkValueId c None None (Some (next_slot s c))) with (key c (next_slot s c)).
  eexists. split_and!; [done| |intros c'; by eapply contents_write|intros; apply next_slot_insert].
  eapply ms_inv_write; [done|done|done|done| | |]; simpl.
  - intros c' last. destruct (decide (c' = c)) as [->|].
    + rewrite lookup_insert_eq. intros [= <-]. eauto with lia.
    + rewrite lookup_insert_ne by done. apply (inv_last s Hi).
  - intros c'. rewrite next_slot_insert. case_decide; subst; lia.
  - intros id w. rewrite next_slot_insert, decide_True by done. intros [[<- <-]|[? Hid]]%lookup_insert_Some.
    + exists (next_slot s c). split; [done|lia].
    + destruct (inv_keys s Hi c vals id w) as (sl & -> & ?); [apply contents_Some; eauto|done|].
      exists sl. split; [done|lia].
Qed.

Lemma ms_delete_value_ok s id :
  ms_inv s →
  ∃ s' r, Ms.delete_value s id = Ret (s', r) ∧ ms_inv s' ∧
    (∀ c', next_slot s' c' = next_slot s c') ∧
    match contents s (container_id id) with
    | None => s' = s ∧ r = Err (CrustyErr "File ID not found for recordID")
    | Some vals => r = Ok tt ∧
        ∀ c', contents s' c' =
          if decide (c' = container_id id) then Some (delete id vals) else contents s c'
    end.
Proof.
  intros Hi. destruct (contents s (container_id id)) as [vals|] eqn:Hc.
  2: { unfold Ms.delete_value. rewrite (contents_None s _ Hi Hc). by eexists _, _. }
  pose proof Hc as (l & Hl & Hvals)%contents_Some. unfold Ms.delete_value. rewrite Hl. simpl.
  rewrite Hvals. simpl. destruct (vals !! id) as [v|] eqn:E; eexists _, _; (split; [done|]).
  - split_and!; [|done|done|].
    + eapply ms_inv_write; [done|done|done|done| | |]; simpl; [by apply (inv_last s Hi)|done|].
      intros id' w [? ?]%lookup_delete_Some. by apply (inv_keys s Hi _ vals _ w).
    + intros c'. by eapply contents_write.
  - split_and!; [done|done|done|]. intros c'. case_decide; [|done]. subst.
    by rewrite Hc, delete_id.
Qed.

(** A new cell for container [c]. *)
Lemma contents_add s s' c vals :
  ms_inv s → containers s' = <[c := length (cells s)]> (containers s) →
  cells s' = cells s ++ [vals] →
  ∀ c', contents s' c' = if decide (c' = c) then Some vals else contents s c'.
Proof.
  intros Hi Hcs Hce c'. unfold contents. rewrite Hcs, Hce. case_decide; subst.
  - rewrite lookup_insert_eq. simpl. by rewrite lookup_app_r, Nat.sub_diag.
  - rewrite lookup_insert_ne by done. destruct (containers s !! c') as [l|] eqn:El; [|done].
    apply lookup_app_l, lookup_lt_is_Some, (inv_cell s Hi c' l El).
Qed.

Lemma ms_inv_add s s' c vals :
  ms_inv s → containers s' = <[c := length (cells s)]> (containers s) →
  cells s' = cells s ++ [vals] →
  (∀ c' last, last_insert s' !! c' = Some last → ∃ sl, last = key c' sl ∧ 0 ≤ sl < 2 ^ 16) →
  (∀ c', c' ≠ c → next_slot s c' ≤ next_slot s' c') →
  (∀ id v, vals !! id = Some v → ∃ sl, id = key c sl ∧ 0 ≤ sl < next_slot s' c) →
  ms_inv s'.
Proof.
  intros Hi Hcs Hce Hlast Hnext Hkeys. pose proof (contents_add s s' c vals Hi Hcs Hce) as Hcont.
  assert (∀ c' l, containers s !! c' = Some l → (l < length (cells s))%nat) as Hlt.
  { intros c' l E. by apply lookup_lt_is_Some, (inv_cell s Hi c'). }
  constructor.
  - rewrite Hcs, Hce. intros c' l [[<- <-]|[? El]]%lookup_insert_Some;
      rewrite lookup_lt_is_Some, length_app; simpl; [lia|]. apply Hlt in El. lia.
  - rewrite Hcs. intros c1 c2 l [[<- <-]|[? E1]]%lookup_insert_Some [[<- Hl]|[? E2]]%lookup_insert_Some; try done.
    + apply Hlt in E2. lia.
    + apply Hlt in E1. lia.
    + by apply (inv_inj s Hi c1 c2 l).
  - done.
  - intros c' vals' id v. rewrite Hcont. case_decide; subst; [by intros [= <-]; apply Hkeys|].
    intros Hc Hid. destruct (inv_keys s Hi c' vals' id v Hc Hid) as (sl & -> & ?).
    exists sl. specialize (Hnext c'). split; [done|]. lia.
Qed.

Lemma create_table_ok s c :
  ms_inv s →
  ∃ s', Ms.create_table s c = Ret (s', Ok tt) ∧ ms_inv s' ∧
    (∀ c', next_slot s' c' = next_slot s c') ∧
    ∀ c', contents s' c' =
      if decide (c' = c) then Some (default ∅ (contents s c)) else contents s c'.
Proof.
  intros Hi. unfold Ms.create_table, Ms.create_container. simpl.
  destruct (containers s !! c) as [l|] eqn:E; eexists; (split; [done|]).
  - destruct (inv_cell s Hi c l E) as [vals Hv].
    assert (contents s c = Some vals) as Hc by (apply contents_Some; eauto).
    split_and!; [by destruct s, Hi; constructor|done|].
    intros c'. case_decide; subst; [by rewrite Hc; destruct s|by destruct s].
  - assert (contents s c = None) as -> by (unfold contents; by rewrite E).
    split_and!; [|done|intros c'; by eapply contents_add].
    eapply ms_inv_add; [done|done|done| |done|by intros id v ?%lookup_empty_Some]. apply (inv_last s Hi).
Qed.

Lemma ms_get_value_ok s id :
  ms_inv s →
  Ms.get_value s id = Ret (match contents s (container_id id) with
                           | Some vals => ok_or (vals !! id) (ExecutionError "Record ID not found")
                           | None => Err (ExecutionError "File ID not found")
                           end).
Proof.
  intros Hi. unfold Ms.get_value. destruct (contents s (container_id id)) as [vals|] eqn:Hc.
  - apply contents_Some in Hc as (l & -> & Hv). simpl. by rewrite Hv.
  - by rewrite (contents_None s _ Hi Hc).
Qed.

Lemma remove_container_ok s c :
  ms_inv s →
  ms_inv (Ms.remove_container s c).1 ∧
  ∀ c', contents (Ms.remove_container s c).1 c' = if decide (c' = c) then None else contents s c'.
Proof.
  intros Hi. unfold Ms.remove_container. destruct (containers s !! c) as [l|] eqn:E; simpl.
  - assert (∀ c', contents (mkStorageManager (delete c (containers s)) (cells s) (last_insert s)
      (storage_dir s) (container_names s)) c' = if decide (c' = c) then None else contents s c') as Hcont.
    { intros c'. unfold contents. simpl. case_decide; subst; [by rewrite lookup_delete_eq|].
      by rewrite lookup_delete_ne. }
    split; [|done]. constructor.
    + simpl. intros c' l' [_ El]%lookup_delete_Some. apply (inv_cell s Hi c' l' El).
    + simpl. intros c1 c2 l' [_ E1]%lookup_delete_Some [_ E2]%lookup_delete_Some. by apply (inv_inj s Hi c1 c2 l').
    + apply (inv_last s Hi).
    + intros c' vals id v. rewrite Hcont. case_decide; [done|]. apply (inv_keys s Hi).
  - split; [done|]. intros c'. case_decide; [|done]. subst. unfold contents. by rewrite E.
Qed.

(** ** Refinement of the storage interface *)

#[global] Instance Ms_storage : StorageTrait StorageManager := {
  st_insert_value := Ms.insert_value;
  st_delete_value := Ms.delete_value;
  st_update_value := Ms.update_value;
  st_get_value s id := r ← Ms.get_value s id; Ret (s, r);
  st_create_table := Ms.create_table
}.

Definition ms_rep (s : StorageManager) (a : store) : Prop :=
  ms_inv s ∧ ∀ c, a !! c = contents s c.

(** An insert needs its container, and a slot number that fits in 16 bits. *)
Definition ms_ready (s : StorageManager) (op : st_op) : Prop :=
  match op with
  | StInsert c _ => is_Some (contents s c) ∧ next_slot s c < 2 ^ 16
  | StUpdate _ id => is_Some (contents s (container_id id)) → next_slot s (container_id id) < 2 ^ 16
  | _ => True
  end.

(** The contents after writing one container are the abstract store after the same write. *)
Lemma ms_rep_write s' (a : store) s c vals :
  (∀ c, a !! c = contents s c) → ms_inv s' →
  (∀ c', contents s' c' = if decide (c' = c) then Some vals else contents s c') →
  ms_rep s' (<[c := vals]> a).
Proof.
  intros Ha Hi Hc. split; [done|]. intros c'. rewrite Hc. case_decide; subst.
  - apply lookup_insert_eq.
  - by rewrite lookup_insert_ne by done.
Qed.

Lemma ms_refines_update s a v id :
  ms_rep s a → ms_ready s (StUpdate v id) →
  ∃ s' r a', run_st s (StUpdate v id) = Ret (s', r) ∧ store_step true a (StUpdate v id) r a' ∧ ms_rep s' a'.
Proof.
  intros [Hi Ha] Hready. cbn [run_st st_update_value Ms_storage].
  unfold Ms.update_value. destruct (ms_delete_value_ok s id Hi) as (s1 & r & -> & Hi1 & Hn1 & Hcase).
  simpl. destruct (contents s (container_id id)) as [vals|] eqn:Hc.
  + destruct Hcase as [-> Hcont1]. set (c := container_id id) in *.
    assert (next_slot s1 c < 2 ^ 16) as Hroom by (rewrite Hn1; by apply Hready).
    destruct (ms_insert_value_ok s1 c (delete id vals) v Hi1) as (s2 & -> & Hi2 & Hcont2 & _).
    { by rewrite Hcont1, decide_True. } { done. }
    assert (vals !! key c (next_slot s1 c) = None) as Hfresh.
    { rewrite Hn1. by eapply (fresh_key s). }
    assert (ms_rep s2 (<[c := <[key c (next_slot s1 c) := v]> (delete id vals)]> a)) as Hrep.
    { eapply ms_rep_write; [done|done|]. intros c'. rewrite Hcont2, Hcont1. by case_decide. }
    eexists s2, _, _. split_and!; [done| |exact Hrep].
    destruct (vals !! id) as [old|] eqn:Hid.
    * econstructor; [by rewrite Ha|done|done|by right].
    * rewrite (delete_id vals) by done. by apply step_update_inserts; [|rewrite Ha|..].
  + destruct Hcase as [-> ->]. eexists s, _, a. split_and!; [done| |done].
    apply step_update_missing; unfold stored, tolerated; by rewrite Ha, Hc.
Qed.

Lemma ms_refines s a op :
  ms_rep s a → ms_ready s op →
  ∃ s' r a', run_st s op = Ret (s', r) ∧ store_step true a op r a' ∧ ms_rep s' a'.
Proof.
  intros Hrep Hready. pose proof Hrep as [Hi Ha]. destruct op as [c v|id|v id|id|c]; cbn [run_st st_insert_value
    st_delete_value st_get_value st_create_table Ms_storage].
  - destruct Hready as [[vals Hc] Hroom].
    destruct (ms_insert_value_ok s c vals v Hi Hc Hroom) as (s' & -> & Hi' & Hcont & _).
    eexists s', _, _. split_and!; [done| |by eapply ms_rep_write].
    apply step_insert; [by rewrite Ha|by apply (fresh_key s)|done].
  - destruct (ms_delete_value_ok s id Hi) as (s' & r & -> & Hi' & _ & Hcase).
    destruct (contents s (container_id id)) as [vals|] eqn:Hc.
    + destruct Hcase as [-> Hcont]. destruct (vals !! id) as [v|] eqn:Hid.
      * eexists s', _, _. split_and!; [done| |by eapply ms_rep_write].
        econstructor; [by rewrite Ha|done].
      * eexists s', _, a. split_and!; [done|apply step_delete_missing; unfold stored, tolerated; by rewrite Ha, Hc|].
        split; [done|]. intros c'. rewrite Hcont, Ha. case_decide; [|done]. subst.
        by rewrite Hc, delete_id.
    + destruct Hcase as [-> ->]. eexists s, _, a. split_and!; [done| |done].
      apply step_delete_missing; unfold stored, tolerated; by rewrite Ha, Hc.
  - by apply ms_refines_update.
  - rewrite ms_get_value_ok by done. eexists s, _, a. split_and!; [done| |done]. simpl.
    destruct (contents s (container_id id)) as [vals|] eqn:Hc; [destruct (vals !! id) as [v|] eqn:Hid|];
      constructor; unfold stored; rewrite Ha, Hc; done.
  - destruct (create_table_ok s c Hi) as (s' & -> & Hi' & _ & Hcont).
    destruct (contents s c) as [vals|] eqn:Hc.
    + eexists s', _, a. split_and!; [done|eapply step_create_exists; [by rewrite Ha|done]|]. split; [done|].
      intros c'. rewrite Hcont, Ha. case_decide; [|done]. by subst.
    + eexists s', _, _. split_and!; [done|constructor; by rewrite Ha|by eapply ms_rep_write].
Qed.

#[global] Instance Ms_laws : StorageLaws StorageManager := {
  st_lenient := true;
  st_rep := ms_rep;
  st_ready := ms_ready;
  st_refines := ms_refines
}.

(** C31: The in-memory storage manager implements the storage interface. From a state that
    represents an abstract store, inserting (into an existing container that has not handed
    out its 65536 slots), deleting, updating, reading and creating a table return, answer
    what the abstract store allows, and lead to a state that represents its successor.
    Within an existing container, deleting an id that stores nothing is fine and updating it
    inserts the value under a new id; creating a container that exists is fine; elsewhere
    both are errors. *)
Theorem memstore_refines_storage (s : StorageManager) (a : store) op :
  st_rep s a → st_ready s op →
  ∃ s' r a', run_st s op = Ret (s', r) ∧ store_step true a op r a' ∧ st_rep s' a'.
Proof. apply ms_refines. Qed.
