(* ===== verification/MemStoreContract.v ===== *)
(** * The in-memory storage manager: scans and persistence

    What an iterator over a container yields, and that the containers survive a shutdown
    and a reload. *)

From S2P Require Import Prelude Common Decimal StorageSpec MemStore MemStoreSpec.
From stdpp Require Import gmap strings.
From Stdlib Require Import Strings.Byte.

Open Scope Z_scope.

(** ** Scans *)

(** What a scan from slot [lo] up to slot [hi] yields: the values in slot order, each with
    the id one past its own. *)
Definition scan_item (c : Z) (vals : ContainerMap) (sl : Z) : option (list byte * ValueId) :=
  (λ v, (v, key c (sl + 1))) <$> vals !! key c sl.
Definition scan_items (c : Z) (vals : ContainerMap) (lo hi : Z) : list (list byte * ValueId) :=
  omap (scan_item c vals) (seqZ lo (hi + 1 - lo)).

Definition scan_at (c hi : Z) (l : nat) (cur : Z) : ValueIterator :=
  mkValueIterator (key c cur) hi l cur.

Lemma scan_items_step c vals lo hi :
  lo ≤ hi →
  scan_items c vals lo hi =
  match scan_item c vals lo with
  | Some x => x :: scan_items c vals (lo + 1) hi
  | None => scan_items c vals (lo + 1) hi
  end.
Proof.
  intros H. unfold scan_items at 1. rewrite seqZ_cons by lia. cbn [omap list_omap].
  replace (Z.succ lo) with (lo + 1) by lia.
  replace (Z.pred (hi + 1 - lo)) with (hi + 1 - (lo + 1)) by lia. done.
Qed.

Lemma scan_items_end c vals lo hi : hi < lo → scan_items c vals lo hi = [].
Proof. intros H. unfold scan_items. by rewrite seqZ_nil by lia. Qed.

Lemma advance_ok c hi l cur :
  0 ≤ cur → cur + 1 < 2 ^ 16 → ValIter.advance (scan_at c hi l cur) = Ret (scan_at c hi l (cur + 1)).
Proof.
  intros ? ?. unfold ValIter.advance. cbn [scan_at tracker slot_id key unwrap current].
  rewrite bind_Ret, !checked_ok by lia. done.
Qed.

Lemma ms_next_loop_ok c hi l vals cs fuel cur :
  cs !! l = Some vals → 0 ≤ cur ≤ hi + 1 → hi + 1 < 2 ^ 16 → hi + 1 - cur < Z.of_nat fuel →
  match scan_items c vals cur hi with
  | [] => ValIter.next_loop fuel cs (scan_at c hi l cur) = Ret (scan_at c hi l (hi + 1), None)
  | x :: rest => ∃ cur',
      ValIter.next_loop fuel cs (scan_at c hi l cur) = Ret (scan_at c hi l cur', Some x) ∧
      cur < cur' ≤ hi + 1 ∧ scan_items c vals cur' hi = rest
  end.
Proof.
  intros Hl. revert cur. induction fuel as [|fuel IH]; intros cur Hcur Hhi Hfuel; [lia|].
  cbn [ValIter.next_loop]. change (it_max (scan_at c hi l cur)) with hi.
  change (current (scan_at c hi l cur)) with cur. change (table_map (scan_at c hi l cur)) with l.
  change (tracker (scan_at c hi l cur)) with (key c cur).
  destruct (Z.leb_spec cur hi).
  - rewrite scan_items_step, Hl by done. simpl unwrap. rewrite bind_Ret. unfold scan_item.
    rewrite advance_ok by lia.
    destruct (vals !! key c cur) as [v|] eqn:E; cbn [fmap option_fmap option_map].
    + exists (cur + 1). split_and!; [done|lia|lia|done].
    + rewrite bind_Ret. specialize (IH (cur + 1)).
      destruct (scan_items c vals (cur + 1) hi) as [|x rest].
      * apply IH; lia.
      * destruct IH as (cur' & ? & ? & ?); [lia..|]. exists cur'. split_and!; [done|lia|lia|done].
  - rewrite scan_items_end by lia. by replace cur with (hi + 1) by lia.
Qed.

Lemma ms_drain_ok s c hi l vals fuel cur :
  cells s !! l = Some vals → 0 ≤ cur ≤ hi + 1 → hi + 1 < 2 ^ 16 →
  (length (scan_items c vals cur hi) < fuel)%nat →
  ValIter.drain fuel s (scan_at c hi l cur) = Ret (scan_items c vals cur hi).
Proof.
  intros Hl. revert cur. induction fuel as [|fuel IH]; intros cur Hcur Hhi Hfuel; [lia|].
  cbn [ValIter.drain]. unfold ValIter.next, ValIter.next_fuel.
  change (it_max (scan_at c hi l cur)) with hi. change (current (scan_at c hi l cur)) with cur.
  pose proof (ms_next_loop_ok c hi l vals (cells s) (Z.to_nat (hi - cur + 2)) cur Hl) as Hn.
  destruct (scan_items c vals cur hi) as [|x rest].
  - rewrite Hn by lia. done.
  - destruct Hn as (cur' & -> & ? & Hrest); [lia..|]. rewrite bind_Ret. simpl in Hfuel.
    rewrite IH; [by rewrite Hrest|lia|lia|rewrite Hrest; lia].
Qed.

Lemma get_iterator_ok s c l vals :
  ms_inv s → containers s !! c = Some l → cells s !! l = Some vals →
  ∃ hi, Ms.get_iterator s c = Ret (scan_at c hi l 0) ∧ 0 ≤ hi ∧ hi = Z.max 0 (next_slot s c - 1).
Proof.
  intros Hi Hl Hv. unfold Ms.get_iterator. rewrite Hl. simpl unwrap. rewrite bind_Ret.
  unfold next_slot. destruct (last_insert s !! c) as [id|] eqn:E; simpl.
  - destruct (inv_last s Hi c id E) as (sl & -> & ?). simpl. exists sl. split_and!; [done|lia|lia].
  - exists 0. split_and!; [done|lia|lia].
Qed.

(** The values of a container are those of its slots in order. *)
Lemma slots_permutation s c vals :
  ms_inv s → contents s c = Some vals →
  (scan_items c vals 0 (Z.max 0 (next_slot s c - 1))).*1 ≡ₚ (map_to_list vals).*2.
Proof.
  intros Hi Hc. set (hi := Z.max 0 (next_slot s c - 1)).
  assert (map_to_list vals ≡ₚ
    omap (λ sl, (λ v, (key c sl, v)) <$> vals !! key c sl) (seqZ 0 (hi + 1 - 0))) as Hp.
  { apply NoDup_Permutation; [apply NoDup_map_to_list| |].
    - apply NoDup_omap_inj; [|apply NoDup_seqZ]. intros i j [k v] Hi' Hj'.
      apply fmap_Some in Hi' as (? & _ & [= -> ->]). by apply fmap_Some in Hj' as (? & _ & [= ->]).
    - intros [id v]. rewrite elem_of_map_to_list, list_elem_of_omap. split.
      + intros Hid. destruct (inv_keys s Hi c vals id v Hc Hid) as (sl & -> & ?).
        exists sl. rewrite elem_of_seqZ, Hid. split; [lia|done].
      + intros (sl & _ & (w & Hw & [= -> ->])%fmap_Some). done. }
  rewrite Hp. unfold scan_items. clear Hp.
  induction (seqZ 0 (hi + 1 - 0)) as [|sl sls IH]; [done|]. simpl. unfold scan_item at 1.
  destruct (vals !! key c sl); simpl; [by constructor|done].
Qed.

(** A scan of a container of the in-memory storage manager ends and yields each stored
    value exactly once, for a container that has handed out fewer than 65536 slots. *)
Theorem memstore_scan_values (s : StorageManager) c vals :
  ms_inv s → contents s c = Some vals → next_slot s c < 2 ^ 16 →
  ∃ it items, Ms.get_iterator s c = Ret it ∧ ValIter.drain (S (size vals)) s it = Ret items ∧
    items.*1 ≡ₚ (map_to_list vals).*2.
Proof.
  intros Hi Hc Hroom. pose proof (next_slot_range s c Hi) as Hr.
  pose proof (slots_permutation s c vals Hi Hc) as Hp.
  apply contents_Some in Hc as (l & Hl & Hv).
  destruct (get_iterator_ok s c l vals Hi Hl Hv) as (hi & Hit & Hhi & ->).
  eexists _, _. split_and!; [done| |exact Hp]. apply ms_drain_ok; [done|lia|lia|].
  apply Permutation_length in Hp. rewrite !length_fmap in Hp.
  rewrite Hp, length_map_to_list. lia.
Qed.

(** The ids a scan of the in-memory storage manager yields are off by one: the first
    item of a scan of a container with values in slots 0 and 1 pairs the value of slot 0
    with the id of slot 1, so that reading the id gives the other value. *)
Theorem memstore_scan_ids_shifted (s : StorageManager) c vals v0 v1 :
  ms_inv s → contents s c = Some vals → next_slot s c < 2 ^ 16 →
  vals !! key c 0 = Some v0 → vals !! key c 1 = Some v1 →
  ∃ it it' id, Ms.get_iterator s c = Ret it ∧ ValIter.next s it = Ret (it', Some (v0, id)) ∧
    Ms.get_value s id = Ret (Ok v1).
Proof.
  intros Hi Hc Hroom H0 H1. destruct (inv_keys s Hi c vals _ _ Hc H1) as (? & [= <-] & Hs).
  pose proof Hc as (l & Hl & Hv)%contents_Some.
  destruct (get_iterator_ok s c l vals Hi Hl Hv) as (hi & Hit & Hhi & Ehi).
  exists (scan_at c hi l 0), (scan_at c hi l 1), (key c 1). split_and!; [done| |].
  - unfold ValIter.next, ValIter.next_fuel. simpl it_max. simpl current.
    replace (Z.to_nat (hi - 0 + 2)) with (S (Z.to_nat (hi + 1))) by lia.
    cbn [ValIter.next_loop]. simpl it_max. simpl current. simpl table_map.
    rewrite (proj2 (Z.leb_le 0 hi)), Hv by lia. simpl unwrap. rewrite bind_Ret. simpl tracker.
    rewrite H0, (advance_ok c hi l 0) by lia. done.
  - rewrite ms_get_value_ok by done. simpl. by rewrite Hc, H1.
Qed.

(** ** Persistence *)

Definition ms_file (c : Z) : file_name := (show_u16 c, Some "ms"%string).

Lemma ms_file_inj c c' : 0 ≤ c < 2 ^ 16 → 0 ≤ c' < 2 ^ 16 → ms_file c = ms_file c' → c = c'.
Proof.
  intros Hc Hc' [= E]. by apply show_u16_inj.
Qed.

(** The keys of a container as [load] relies on them. *)
Definition keys_ok (c : Z) (vals : ContainerMap) : Prop :=
  ∀ id v, vals !! id = Some v → ∃ sl, id = key c sl ∧ 0 ≤ sl < 2 ^ 16.

Lemma ms_inv_keys_ok s c vals : ms_inv s → contents s c = Some vals → keys_ok c vals.
Proof.
  intros Hi Hc id v Hid. destruct (inv_keys s Hi c vals id v Hc Hid) as (sl & -> & ?).
  pose proof (next_slot_range s c Hi). exists sl. split; [done|lia].
Qed.

Lemma max_key_ok c keys m0 :
  (∀ id, id ∈ keys → ∃ sl, id = key c sl ∧ 0 ≤ sl < 2 ^ 16) → 0 ≤ m0 < 2 ^ 16 →
  ∃ m, foldl Ms.max_step (Ret (key c m0)) keys = Ret (key c m) ∧ m0 ≤ m < 2 ^ 16 ∧
    ∀ sl, key c sl ∈ keys → sl ≤ m.
Proof.
  revert m0. induction keys as [|id keys IH]; intros m0 Hk Hm0.
  - exists m0. split_and!; [done|lia|lia|]. by intros sl ?%not_elem_of_nil.
  - destruct (Hk id) as (sl & -> & Hsl); [left|]. cbn [foldl].
    assert (Ms.max_step (Ret (key c m0)) (key c sl) = Ret (key c (Z.max m0 sl))) as ->.
    { unfold Ms.max_step. simpl. destruct (Z.ltb_spec m0 sl); do 2 f_equal; lia. }
    destruct (IH (Z.max m0 sl)) as (m & -> & Hm & Hmax); [|lia|].
    { intros id ?. apply Hk. by right. }
    exists m. split_and!; [done|lia|lia|]. intros sl' [[= ->]|?]%elem_of_cons; [lia|by apply Hmax].
Qed.

Section persistence.
Context (to_writer : ContainerMap → list byte) (from_reader : list byte → option ContainerMap).
Context (cbor_roundtrip : ∀ vals, from_reader (to_writer vals) = Some vals).

Abbreviation shutdown := (Ms.shutdown to_writer).
Abbreviation load := (Ms.load from_reader).

Definition ids_in_range (s : StorageManager) : Prop :=
  ∀ c, is_Some (contents s c) → 0 ≤ c < 2 ^ 16.

(** Writing the containers of [l] one after the other. *)
Lemma persist_ok s l dir :
  (∀ c i, (c, i) ∈ l → 0 ≤ c < 2 ^ 16 ∧ is_Some (cells s !! i)) → NoDup l.*1 →
  ∃ dir', foldl (Ms.persist_one to_writer s) (Ret dir) l = Ret dir' ∧
    (∀ c i vals, (c, i) ∈ l → cells s !! i = Some vals → dir' !! ms_file c = Some (to_writer vals)) ∧
    (∀ f, (∀ c, f = ms_file c → c ∉ l.*1) → dir' !! f = dir !! f).
Proof.
  revert dir. induction l as [|[c i] l IH]; intros dir Hl Hnd.
  - exists dir. split_and!; [done| |done]. by intros c i vals ?%not_elem_of_nil.
  - destruct (Hl c i) as [Hc [vals Hi]]; [left|]. cbn [foldl]. apply NoDup_cons in Hnd as [Hc' Hnd].
    unfold Ms.persist_one at 2. simpl. rewrite Hi. simpl. change (show_u16 c, Some "ms"%string) with (ms_file c).
    destruct (IH (<[ms_file c := to_writer vals]> dir)) as (dir' & -> & Hin & Hout); [|done|].
    { intros c' i' ?. apply Hl. by right. }
    exists dir'. split_and!; [done| |].
    + intros c1 i1 vals1 [[= -> ->]|H1]%elem_of_cons Hv1; [|by eapply Hin].
      rewrite Hi in Hv1. injection Hv1 as <-. rewrite Hout; [apply lookup_insert_eq|].
      intros c2 E Hc2. apply list_elem_of_fmap in Hc2 as ([c3 i2] & -> & H2).
      destruct (Hl c3 i2) as [Hr _]; [by right|]. apply ms_file_inj in E as ->; [|done..].
      destruct Hc'. apply list_elem_of_fmap. by exists (c3, i2).
    + intros f Hf. rewrite Hout.
      2: { intros c' E ?. apply (Hf c' E). by right. }
      apply lookup_insert_ne. intros <-. apply (Hf c eq_refl). left.
Qed.

Lemma containers_in_range s c l :
  ms_inv s → ids_in_range s → containers s !! c = Some l → 0 ≤ c < 2 ^ 16.
Proof.
  intros Hi Hr E. apply Hr. destruct (inv_cell s Hi c l E) as [vals ?].
  exists vals. apply contents_Some. eauto.
Qed.

(** After [shutdown] into an empty directory, the files are those of the containers. *)
Lemma shutdown_ok s d :
  ms_inv s → ids_in_range s → storage_dir s = Some d →
  ∃ dir, shutdown s ∅ = Ret dir ∧
    (∀ c vals, contents s c = Some vals → dir !! ms_file c = Some (to_writer vals)) ∧
    (∀ f b, dir !! f = Some b →
       ∃ c vals, 0 ≤ c < 2 ^ 16 ∧ contents s c = Some vals ∧ f = ms_file c ∧ b = to_writer vals).
Proof.
  intros Hi Hr Hd. unfold Ms.shutdown. rewrite Hd.
  destruct (persist_ok s (map_to_list (containers s)) ∅) as (dir & -> & Hin & Hout).
  { intros c i E%elem_of_map_to_list. split; [by eapply containers_in_range|by eapply (inv_cell s)]. }
  { apply NoDup_fst_map_to_list. }
  exists dir. split_and!; [done| |].
  - intros c vals (l & Hl & Hv)%contents_Some. eapply Hin; [by apply elem_of_map_to_list|done].
  - intros f b Hf.
    destruct (decide (Exists (λ c, f = ms_file c) (map_to_list (containers s)).*1)) as [He|Hne].
    + apply Exists_exists in He as (c & ([? l] & -> & Hl)%list_elem_of_fmap & ->). simpl in *.
      apply elem_of_map_to_list in Hl. destruct (inv_cell s Hi _ l Hl) as [vals Hv].
      exists z, vals. rewrite (Hin z l vals) in Hf; [|by apply elem_of_map_to_list|done].
      split_and!; [by eapply containers_in_range|by eapply containers_in_range
        |apply contents_Some; eauto|done|congruence].
    + rewrite Hout in Hf; [by apply lookup_empty_Some in Hf|].
      intros c -> Hc. apply Hne, Exists_exists. eauto.
Qed.

(** Reading one file back. *)
Lemma load_one_ok s c vals :
  ms_inv s → 0 ≤ c < 2 ^ 16 → keys_ok c vals →
  ∃ s', Ms.load_one from_reader (Ret s) (ms_file c, to_writer vals) = Ret s' ∧ ms_inv s' ∧
    ∀ c', contents s' c' = if decide (c' = c) then Some vals else contents s c'.
Proof.
  intros Hi Hc Hk. unfold Ms.load_one. simpl. rewrite cbor_roundtrip. simpl.
  rewrite parse_show_u16 by done. simpl. unfold Ms.max_key.
  change (mkValueId c None None (Some 0)) with (key c 0).
  destruct (max_key_ok c (map_to_list vals).*1 0) as (m & -> & Hm & Hmax); [|lia|].
  { intros id ([? v] & -> & Hv)%list_elem_of_fmap. by apply (Hk _ v), elem_of_map_to_list. }
  eexists. split_and!; [done| |intros c'; by eapply contents_add].
  eapply ms_inv_add; [done|done|done| | |].
  - simpl. intros c' last [[<- <-]|[? E]]%lookup_insert_Some; [|by apply (inv_last s Hi)].
    exists m. split; [done|lia].
  - intros c' ?. rewrite next_slot_insert, decide_False by done. done.
  - intros id v Hid. rewrite next_slot_insert, decide_True by done.
    destruct (Hk id v Hid) as (sl & -> & ?). exists sl. split; [done|].
    enough (sl ≤ m) by lia. apply Hmax, list_elem_of_fmap.
    exists (key c sl, v). by rewrite elem_of_map_to_list.
Qed.

(** The entries of a directory [shutdown] wrote. *)
Definition saved (entries : list (file_name * list byte)) : Prop :=
  ∀ f b, (f, b) ∈ entries →
    ∃ c vals, 0 ≤ c < 2 ^ 16 ∧ keys_ok c vals ∧ f = ms_file c ∧ b = to_writer vals.

Lemma load_entries_ok entries s :
  ms_inv s → saved entries → NoDup entries.*1 →
  ∃ s', foldl (Ms.load_one from_reader) (Ret s) entries = Ret s' ∧ ms_inv s' ∧
    (∀ c vals, 0 ≤ c < 2 ^ 16 → (ms_file c, to_writer vals) ∈ entries → contents s' c = Some vals) ∧
    (∀ c, (0 ≤ c < 2 ^ 16 → ms_file c ∉ entries.*1) → contents s' c = contents s c).
Proof.
  revert s. induction entries as [|[f b] entries IH]; intros s Hi Hs Hnd.
  - exists s. split_and!; [done|done| |done]. by intros c vals _ ?%not_elem_of_nil.
  - apply NoDup_cons in Hnd as [Hf Hnd]. destruct (Hs f b) as (c & vals & Hc & Hk & -> & ->); [left|].
    cbn [foldl]. destruct (load_one_ok s c vals Hi Hc Hk) as (s1 & -> & Hi1 & Hcont).
    destruct (IH s1 Hi1) as (s2 & -> & Hi2 & Hin & Hout); [|done|].
    { intros f b ?. apply Hs. by right. }
    exists s2. split_and!; [done|done| |].
    + intros c' vals' Hc' [[= Hs1 Hs2]|?]%elem_of_cons; [|by apply Hin].
      assert (c' = c) as -> by (apply ms_file_inj; unfold ms_file; congruence).
      assert (Some vals' = Some vals) as [= ->] by (rewrite <-!cbor_roundtrip; by f_equal).
      rewrite Hout, Hcont, decide_True by done. done.
    + intros c' Hc'. rewrite Hout by (intros ? ?; apply Hc'; [done|by right]).
      rewrite Hcont, decide_False; [done|]. intros ->. apply Hc'; [done|left].
Qed.

Lemma ms_entries_saved entries : saved entries → Ms.ms_entries entries = Ret entries.
Proof.
  induction entries as [|[f b] entries IH]; intros Hs; [done|]. cbn [Ms.ms_entries].
  destruct (Hs f b) as (c & vals & _ & _ & -> & _); [left|]. simpl.
  rewrite IH; [done|]. intros ? ? ?. apply Hs. by right.
Qed.

Lemma reload_ok s d :
  ms_inv s → ids_in_range s → storage_dir s = Some d →
  ∃ dir, shutdown s ∅ = Ret dir ∧
    ∀ entries, entries ≡ₚ map_to_list dir →
    ∃ s', load d entries = Ret s' ∧ ms_inv s' ∧ ∀ c, contents s' c = contents s c.
Proof.
  intros Hi Hr Hd. destruct (shutdown_ok s d Hi Hr Hd) as (dir & -> & Hin & Hfiles).
  exists dir. split; [done|]. intros entries Hp.
  assert (saved entries) as Hs.
  { intros f b Hf. rewrite Hp in Hf. apply elem_of_map_to_list, Hfiles in Hf as (c & vals & ? & ? & -> & ->).
    exists c, vals. split_and!; [lia|lia|by eapply ms_inv_keys_ok|done|done]. }
  unfold Ms.load. rewrite ms_entries_saved, bind_Ret by done.
  destruct (load_entries_ok entries (mkStorageManager ∅ [] ∅ (Some d) ∅)) as (s' & -> & Hi' & Hget & Hnone).
  { constructor; unfold contents; simpl; intros *; rewrite ?lookup_empty; done. } { done. }
  { rewrite Hp. apply NoDup_fst_map_to_list. }
  exists s'. split_and!; [done|done|]. intros c. destruct (contents s c) as [vals|] eqn:Hc.
  - apply Hget; [by apply Hr|]. rewrite Hp. by apply elem_of_map_to_list, Hin.
  - rewrite Hnone; [unfold contents; simpl; by rewrite lookup_empty|].
    intros Hcr ([f b] & Ef & He)%list_elem_of_fmap. simpl in Ef. subst f.
    rewrite Hp in He. apply elem_of_map_to_list, Hfiles in He as (c' & vals & ? & Hc' & E & _).
    apply ms_file_inj in E as ->; [|done|done]. congruence.
Qed.

(** What the in-memory storage manager holds survives a shutdown and a reload, whatever
    order the directory is listed in: the reloaded manager represents the same abstract
    store, given that the serializer reads back what it wrote. *)
Theorem memstore_reload (s : StorageManager) (a : store) d :
  st_rep s a → ids_in_range s → storage_dir s = Some d →
  ∃ dir, shutdown s ∅ = Ret dir ∧
    ∀ entries, entries ≡ₚ map_to_list dir → ∃ s', load d entries = Ret s' ∧ st_rep s' a.
Proof.
  intros [Hi Ha] Hr Hd. destruct (reload_ok s d Hi Hr Hd) as (dir & Hdir & Hload).
  exists dir. split; [done|]. intros entries Hp.
  destruct (Hload entries Hp) as (s' & Hs' & Hi' & Hc). exists s'. split; [done|]. split; [done|].
  intros c. by rewrite Ha, Hc.
Qed.

(** A container that was saved and is then removed comes back on the next reload with
    its values: [remove_container] leaves its file, and [shutdown] only writes files. *)
Theorem removed_container_returns (s : StorageManager) d c vals v id :
  ms_inv s → ids_in_range s → storage_dir s = Some d →
  containers s = {[ c := 0%nat ]} → contents s c = Some vals → vals !! id = Some v →
  ∃ dir s1 s2 s3,
    shutdown s ∅ = Ret dir ∧ s1 = (Ms.remove_container s c).1 ∧
    Ms.get_value s1 id = Ret (Err (ExecutionError "File ID not found")) ∧
    shutdown s1 dir = Ret s2 ∧ load d (map_to_list s2) = Ret s3 ∧ Ms.get_value s3 id = Ret (Ok v).
Proof.
  intros Hi Hr Hd Hone Hc Hid. destruct (inv_keys s Hi c vals id v Hc Hid) as (sl & -> & _).
  destruct (reload_ok s d Hi Hr Hd) as (dir & Hdir & Hload).
  destruct (Hload (map_to_list dir)) as (s3 & Hs3 & Hi3 & Hc3); [done|].
  destruct (remove_container_ok s c Hi) as [Hi1 Hc1].
  exists dir, (Ms.remove_container s c).1, dir, s3. split_and!; [done|done| | |done|].
  - rewrite ms_get_value_ok by done. simpl. by rewrite Hc1, decide_True.
  - unfold Ms.remove_container. rewrite Hone, lookup_singleton_eq. unfold Ms.shutdown. simpl.
    rewrite Hd, delete_singleton_eq. done.
  - rewrite ms_get_value_ok by done. simpl. by rewrite Hc3, Hc, Hid.
Qed.

End persistence.

(** ** Examples *)

(** A serializer for the examples: the binary digits of the encoding of the map. *)
#[local] Instance byte_eq_decision : EqDecision Init.Byte.byte := Strings.Byte.byte_eq_dec.
#[local] Instance byte_countable : countable.Countable Init.Byte.byte.
Proof.
  refine (countable.inj_countable' byte.unsigned byte.of_Z _). apply byte.of_Z_unsigned.
Defined.

Fixpoint pos_bytes (p : positive) : list byte :=
  match p with
  | xH => []
  | xO p => Byte.x00 :: pos_bytes p
  | xI p => Byte.x01 :: pos_bytes p
  end.
Fixpoint bytes_pos (bs : list byte) : positive :=
  match bs with
  | [] => xH
  | Byte.x00 :: bs => xO (bytes_pos bs)
  | _ :: bs => xI (bytes_pos bs)
  end.
Definition example_write (vals : ContainerMap) : list byte := pos_bytes (countable.encode vals).
Definition example_read (bs : list byte) : option ContainerMap := countable.decode (bytes_pos bs).

Lemma example_roundtrip vals : example_read (example_write vals) = Some vals.
Proof.
  unfold example_read, example_write.
  assert (∀ p, bytes_pos (pos_bytes p) = p) as -> by (induction p as [p IH|p IH|]; simpl; congruence).
  apply countable.decode_encode.
Qed.

(** Container 4 with two values, saved in [db]. *)
Definition two_values : ContainerMap := {[ key 4 0 := [Byte.x01]; key 4 1 := [Byte.x02] ]}.
Definition two_sm : StorageManager :=
  mkStorageManager {[ 4 := 0%nat ]} [two_values] {[ 4 := key 4 1 ]} (Some "db"%string) ∅.

Lemma two_sm_contents c : contents two_sm c = if decide (c = 4) then Some two_values else None.
Proof.
  unfold contents. simpl. case_decide; subst; [done|]. by rewrite lookup_singleton_ne by done.
Qed.

Lemma two_sm_inv : ms_inv two_sm.
Proof.
  constructor.
  - simpl containers. intros c l [<- <-]%lookup_singleton_Some. by eexists.
  - simpl containers. by intros c c' l [<- <-]%lookup_singleton_Some [<- _]%lookup_singleton_Some.
  - simpl last_insert. intros c last [<- <-]%lookup_singleton_Some. exists 1. split; [done|lia].
  - intros c vals id v. rewrite two_sm_contents. case_decide; [|done]. intros [= <-]. subst.
    change (next_slot two_sm 4) with 2. unfold two_values.
    intros [[<- _]|[_ [<- _]%lookup_singleton_Some]]%lookup_insert_Some;
      eexists; (split; [done|lia]).
Qed.

Lemma two_sm_range : ids_in_range two_sm.
Proof. intros c [vals H]. rewrite two_sm_contents in H. case_decide; [lia|done]. Qed.

Lemma two_sm_rep : st_rep two_sm {[ 4 := two_values ]}.
Proof.
  split; [apply two_sm_inv|]. intros c. rewrite two_sm_contents.
  case_decide; subst; [done|]. by rewrite lookup_singleton_ne.
Qed.

Lemma two_sm_ready v : st_ready two_sm (StInsert 4 v).
Proof. split; [by eexists|]. change (2 < 2 ^ 16). lia. Qed.

Lemma memstore_refines_storage_witness :
  ∃ s' r a', run_st two_sm (StInsert 4 [Byte.x03]) = Ret (s', r) ∧
    store_step true {[ 4 := two_values ]} (StInsert 4 [Byte.x03]) r a' ∧ st_rep s' a'.
Proof.
  apply (memstore_refines_storage two_sm _ (StInsert 4 [Byte.x03])).
  - apply two_sm_rep.
  - apply two_sm_ready.
Defined.

Lemma memstore_scan_values_witness :
  ∃ it items, Ms.get_iterator two_sm 4 = Ret it ∧
    ValIter.drain (S (size two_values)) two_sm it = Ret items ∧
    items.*1 ≡ₚ (map_to_list two_values).*2.
Proof.
  apply (memstore_scan_values two_sm 4 two_values);
    [apply two_sm_inv|done|change (2 < 2 ^ 16); lia].
Defined.

Lemma memstore_scan_ids_shifted_witness :
  ∃ it it' id, Ms.get_iterator two_sm 4 = Ret it ∧
    ValIter.next two_sm it = Ret (it', Some ([Byte.x01], id)) ∧
    Ms.get_value two_sm id = Ret (Ok [Byte.x02]).
Proof.
  apply (memstore_scan_ids_shifted two_sm 4 two_values);
    [apply two_sm_inv|done|change (2 < 2 ^ 16); lia|done|done].
Defined.

Lemma memstore_reload_witness :
  ∃ dir, Ms.shutdown example_write two_sm ∅ = Ret dir ∧
    ∀ entries, entries ≡ₚ map_to_list dir →
    ∃ s', Ms.load example_read "db" entries = Ret s' ∧ st_rep s' {[ 4 := two_values ]}.
Proof.
  apply (memstore_reload example_write example_read example_roundtrip two_sm {[ 4 := two_values ]} "db");
    [apply two_sm_rep|apply two_sm_range|done].
Defined.

Lemma removed_container_returns_witness :
  ∃ dir s1 s2 s3,
    Ms.shutdown example_write two_sm ∅ = Ret dir ∧ s1 = (Ms.remove_container two_sm 4).1 ∧
    Ms.get_value s1 (key 4 0) = Ret (Err (ExecutionError "File ID not found")) ∧
    Ms.shutdown example_write s1 dir = Ret s2 ∧
    Ms.load example_read "db" (map_to_list s2) = Ret s3 ∧
    Ms.get_value s3 (key 4 0) = Ret (Ok [Byte.x01]).
Proof.
  apply (removed_container_returns example_write example_read example_roundtrip two_sm "db" 4 two_values);
    [apply two_sm_inv|apply two_sm_range|done..].
Defined.

(** The in-memory storage manager as the storage of a client that inserts a value, deletes
    another one, and reads its own back. *)
Lemma read_your_writes_witness :
  ∃ s1 s2 s3, st_insert_value two_sm 4 [Byte.x03] = Ret (s1, key 4 2) ∧
    st_run s1 [StDelete (key 4 0)] s2 ∧
    st_get_value s2 (key 4 2) = Ret (s3, Ok [Byte.x03]).
Proof.
  pose (r1 := st_insert_value two_sm 4 [Byte.x03]).
  assert (∃ s1, r1 = Ret (s1, key 4 2)) as [s1 E1] by (eexists; reflexivity).
  assert (∃ s2, run_st s1 (StDelete (key 4 0)) = Ret (s2, RDone (Ok tt))) as [s2 E2].
  { injection E1 as <-. eexists. reflexivity. }
  assert (st_run s1 [StDelete (key 4 0)] s2) as Hrun.
  { eapply st_run_cons; [exact I|exact E2|apply st_run_nil]. }
  destruct (read_your_writes two_sm s1 s2 {[ 4 := two_values ]} 4 [Byte.x03] (key 4 2)
    [StDelete (key 4 0)] two_sm_rep (two_sm_ready _) E1 Hrun) as [s3 E3].
  { constructor; [reflexivity|constructor]. } { exact I. }
  exists s1, s2, s3. exact (conj E1 (conj Hrun E3)).
Defined.
