(* ===== verification/Ordering.v ===== *)
(** * Total orders

    The [Ord] trait of the standard library as a class: a three-way comparison that is a
    total order whose equality is [=]. The instances are the comparisons that
    [#[derive(PartialOrd, Ord)]] builds from those of its parts: integers, bytes,
    booleans, pairs and sequences (lexicographic). *)

From S2P Require Import Prelude.

Open Scope Z_scope.

(** [Ord::cmp] and the laws its documentation asks of an implementation. *)
Class OrdLaws {A : Type} (cmp : A → A → comparison) : Prop := {
  cmp_eq : ∀ a b, cmp a b = Eq → a = b;
  cmp_refl : ∀ a, cmp a a = Eq;
  cmp_opp : ∀ a b, cmp b a = CompOpp (cmp a b);
  cmp_trans : ∀ a b c, cmp a b = Lt → cmp b c = Lt → cmp a c = Lt
}.

(** [Ordering::then]: the second comparison decides when the first does not. *)
Definition cmp_then (c d : comparison) : comparison :=
  match c with Eq => d | _ => c end.

(** Lexicographic comparison of sequences ([Vec] and [String]). *)
Fixpoint cmp_list {A} (cmp : A → A → comparison) (l k : list A) : comparison :=
  match l, k with
  | [], [] => Eq
  | [], _ :: _ => Lt
  | _ :: _, [] => Gt
  | x :: l, y :: k => cmp_then (cmp x y) (cmp_list cmp l k)
  end.

(** Comparison of optional values ([None] is least). *)
Definition cmp_option {A} (cmp : A → A → comparison) (a b : option A) : comparison :=
  match a, b with
  | None, None => Eq
  | None, Some _ => Lt
  | Some _, None => Gt
  | Some a, Some b => cmp a b
  end.

Definition cmp_byte (a b : byte) : comparison := byte.unsigned a ?= byte.unsigned b.
Definition cmp_bool (a b : bool) : comparison :=
  match a, b with false, true => Lt | true, false => Gt | _, _ => Eq end.

(** A comparison through an injective key. *)
Lemma ord_laws_key {A B} (f : A → B) (cmp : B → B → comparison) :
  OrdLaws cmp → (∀ a b, f a = f b → a = b) → OrdLaws (λ a b, cmp (f a) (f b)).
Proof.
  intros H Hf. constructor.
  - intros a b E. by apply Hf, cmp_eq.
  - intros a. apply cmp_refl.
  - intros a b. apply cmp_opp.
  - intros a b c. apply cmp_trans.
Qed.

#[global] Instance Z_ord_laws : OrdLaws Z.compare.
Proof.
  constructor.
  - apply Z.compare_eq.
  - apply Z.compare_refl.
  - apply Z.compare_antisym.
  - intros a b c. rewrite !Z.compare_lt_iff. lia.
Qed.

#[global] Instance byte_ord_laws : OrdLaws cmp_byte.
Proof.
  apply (ord_laws_key byte.unsigned Z.compare _).
  intros a b E. rewrite <-(byte.of_Z_unsigned a), <-(byte.of_Z_unsigned b). by rewrite E.
Qed.

#[global] Instance bool_ord_laws : OrdLaws cmp_bool.
Proof.
  constructor; [by intros [] [] | by intros [] | by intros [] [] | by intros [] [] []].
Qed.

#[global] Instance option_ord_laws {A} (cmp : A → A → comparison) `{!OrdLaws cmp} :
  OrdLaws (cmp_option cmp).
Proof.
  constructor.
  - intros [a|] [b|]; simpl; try done. intros E. by rewrite (cmp_eq (cmp := cmp) a b E).
  - intros [a|]; simpl; [apply (cmp_refl (cmp := cmp))|done].
  - intros [a|] [b|]; simpl; try done. apply (cmp_opp (cmp := cmp)).
  - intros [a|] [b|] [c|]; simpl; try done. apply (cmp_trans (cmp := cmp)).
Qed.

Lemma cmp_then_Lt c d : cmp_then c d = Lt → c = Lt ∨ c = Eq ∧ d = Lt.
Proof. destruct c; simpl; auto; discriminate. Qed.

#[global] Instance list_ord_laws {A} (cmp : A → A → comparison) `{!OrdLaws cmp} :
  OrdLaws (cmp_list cmp).
Proof.
  constructor.
  - induction a as [|x l IH]; intros [|y k]; simpl; try discriminate; [done|].
    destruct (cmp x y) eqn:E; simpl; try discriminate. intros Hl.
    by rewrite (cmp_eq x y E), (IH k Hl).
  - induction a as [|x l IH]; simpl; [done|]. by rewrite cmp_refl.
  - induction a as [|x l IH]; intros [|y k]; simpl; try done.
    rewrite (cmp_opp x y), (IH k). by destruct (cmp x y).
  - induction a as [|x l IH]; intros [|y k] [|z m]; simpl; try done.
    intros [E1|[E1 E1']]%cmp_then_Lt [E2|[E2 E2']]%cmp_then_Lt.
    + by rewrite (cmp_trans _ _ _ E1 E2).
    + apply cmp_eq in E2 as ->. by rewrite E1.
    + apply cmp_eq in E1 as ->. by rewrite E2.
    + apply cmp_eq in E1 as ->. rewrite E2. simpl. by apply (IH k).
Qed.

(** ** The relational operators a comparison gives *)

Section Operators.
Context {A : Type} (cmp : A → A → comparison) `{!OrdLaws cmp}.

Definition cmp_le (a b : A) : bool := match cmp a b with Gt => false | _ => true end.
Definition cmp_lt (a b : A) : bool := match cmp a b with Lt => true | _ => false end.
Definition cmp_ge (a b : A) : bool := match cmp a b with Lt => false | _ => true end.
Definition cmp_gt (a b : A) : bool := match cmp a b with Gt => true | _ => false end.

(** [std::cmp::max] returns its second argument when the two are equal, [min] its first. *)
Definition cmp_max (a b : A) : A := match cmp a b with Gt => a | _ => b end.
Definition cmp_min (a b : A) : A := match cmp a b with Gt => b | _ => a end.

Lemma cmp_Gt_Lt a b : cmp a b = Gt ↔ cmp b a = Lt.
Proof. rewrite (cmp_opp (cmp := cmp) a b). destruct (cmp a b); simpl; split; congruence. Qed.

Lemma cmp_le_total a b : cmp_le a b = false → cmp_le b a = true.
Proof. unfold cmp_le. rewrite (cmp_opp (cmp := cmp) a b). by destruct (cmp a b). Qed.

Lemma cmp_le_refl a : cmp_le a a = true.
Proof. unfold cmp_le. by rewrite (cmp_refl (cmp := cmp)). Qed.

Lemma cmp_le_trans a b c : cmp_le a b = true → cmp_le b c = true → cmp_le a c = true.
Proof.
  unfold cmp_le. destruct (cmp a b) eqn:E1; intros; try discriminate.
  - apply (cmp_eq (cmp := cmp)) in E1 as ->. done.
  - destruct (cmp b c) eqn:E2; try discriminate.
    + apply (cmp_eq (cmp := cmp)) in E2 as ->. by rewrite E1.
    + by rewrite (cmp_trans (cmp := cmp) _ _ _ E1 E2).
Qed.

Lemma cmp_le_antisym a b : cmp_le a b = true → cmp_le b a = true → a = b.
Proof.
  unfold cmp_le. rewrite (cmp_opp (cmp := cmp) a b). destruct (cmp a b) eqn:E; simpl; try done.
  intros. by apply (cmp_eq (cmp := cmp)).
Qed.

Lemma cmp_lt_le a b : cmp_lt a b = negb (cmp_le b a).
Proof. unfold cmp_lt, cmp_le. rewrite (cmp_opp (cmp := cmp) a b). by destruct (cmp a b). Qed.

Lemma cmp_ge_le a b : cmp_ge a b = cmp_le b a.
Proof. unfold cmp_ge, cmp_le. rewrite (cmp_opp (cmp := cmp) a b). by destruct (cmp a b). Qed.

Lemma cmp_gt_lt a b : cmp_gt a b = cmp_lt b a.
Proof. unfold cmp_gt, cmp_lt. rewrite (cmp_opp (cmp := cmp) a b). by destruct (cmp a b). Qed.

Lemma cmp_max_spec a b :
  (cmp_max a b = a ∨ cmp_max a b = b) ∧ cmp_le a (cmp_max a b) = true ∧ cmp_le b (cmp_max a b) = true.
Proof.
  unfold cmp_max. destruct (cmp a b) eqn:E; split_and!; eauto using cmp_le_refl; unfold cmp_le.
  - by rewrite E.
  - by rewrite E.
  - by rewrite (cmp_opp (cmp := cmp) a b), E.
Qed.

Lemma cmp_min_spec a b :
  (cmp_min a b = a ∨ cmp_min a b = b) ∧ cmp_le (cmp_min a b) a = true ∧ cmp_le (cmp_min a b) b = true.
Proof.
  unfold cmp_min. destruct (cmp a b) eqn:E; split_and!; eauto using cmp_le_refl; unfold cmp_le.
  - by rewrite E.
  - by rewrite E.
  - by rewrite (cmp_opp (cmp := cmp) a b), E.
Qed.
End Operators.
