(* ===== verification/Field.v ===== *)
(** * Data types and fields

    Models [common/src/datatypes.rs]: the data types of columns, field values with
    their arithmetic, their order, their byte encoding, and reading and printing them.
    Also the attributes and schemas of [common/src/attribute.rs] and
    [common/src/table.rs]. Dates are read and printed by an external calendar library,
    which is a parameter. *)

From Stdlib Require Import SpecFloat.
From stdpp Require Import strings.
From S2P Require Import Prelude Common Ordering.

Open Scope Z_scope.

(** ** Double-precision numbers

    The operations on [f64] that the arithmetic of fields uses, over the IEEE 754
    numbers of the standard library (53 bits of precision, largest exponent 1024,
    rounding to nearest even). *)

(** The values of [i64]; arithmetic on them panics when it leaves the range. *)
Definition in_i64 (z : Z) : bool := (- 2 ^ 63 <=? z) && (z <? 2 ^ 63).
Definition i64 (z : Z) : outcome Z := if in_i64 z then Ret z else Panic.

Lemma i64_ok z : - 2 ^ 63 ≤ z < 2 ^ 63 → i64 z = Ret z.
Proof.
  intros H. unfold i64, in_i64. rewrite (proj2 (Z.leb_le _ _)), (proj2 (Z.ltb_lt _ _)) by lia. done.
Qed.

Lemma i64_inv z z' : i64 z = Ret z' → z' = z ∧ - 2 ^ 63 ≤ z < 2 ^ 63.
Proof.
  unfold i64, in_i64. destruct (Z.leb_spec (- 2 ^ 63) z), (Z.ltb_spec z (2 ^ 63)); simpl; intros; simplify_eq.
  lia.
Qed.

Module F64.

(** [z as f64]. *)
Definition of_Z (z : Z) : spec_float := binary_normalize 53 1024 z 0 false.

Definition div : spec_float → spec_float → spec_float := SFdiv 53 1024.
Definition mul : spec_float → spec_float → spec_float := SFmul 53 1024.

Definition with_sign (s : bool) (z : Z) : Z := if s then - z else z.

(** [f64::round]: to the nearest integer, halves away from zero. *)
Definition round (x : spec_float) : spec_float :=
  match x with
  | S754_finite s m e =>
      if e <? 0
      then binary_normalize 53 1024 (with_sign s ((Zpos m + 2 ^ (- e - 1)) / 2 ^ (- e))) 0 s
      else x
  | _ => x
  end.

(** [x as i64]: towards zero, saturating, and zero for a NaN. *)
Definition as_i64 (x : spec_float) : Z :=
  match x with
  | S754_zero _ | S754_nan => 0
  | S754_infinity s => if s then - 2 ^ 63 else 2 ^ 63 - 1
  | S754_finite s m e =>
      let z := with_sign s (if e <? 0 then Zpos m / 2 ^ (- e) else Zpos m * 2 ^ e) in
      Z.max (- 2 ^ 63) (Z.min (2 ^ 63 - 1) z)
  end.

Lemma as_i64_range x : - 2 ^ 63 ≤ as_i64 x < 2 ^ 63.
Proof. destruct x; simpl; try destruct s; lia. Qed.

End F64.

(** The bytes of a string literal. *)
Definition str (s : string) : list byte := String.list_byte_of_string s.

Definition null_string : list byte := str "NULL".
Definition default_decimal_precision : Z := 10.
Definition default_decimal_scale : Z := 4.

Inductive DataType :=
  | TBigInt
  | TInt
  | TSmallInt
  | TChar (n : Z)              (* u8 *)
  | TString
  | TDecimal (p s : Z)         (* u32, u32 *)
  | TDate
  | TBool
  | TNull.

#[global] Instance DataType_eq_dec : EqDecision DataType.
Proof. solve_decision. Defined.

Inductive Field :=
  | BigInt (i : Z)             (* i64 *)
  | Int (i : Z)                (* i32 *)
  | SmallInt (i : Z)           (* i16 *)
  | Char (n : Z) (s : list byte)     (* u8 *)
  | FString (s : list byte)
  | Decimal (whole scale : Z)  (* i64, u32 *)
  | Date (days : Z)            (* i64 *)
  | FBool (b : bool)
  | Null.

#[global] Instance byte_eq_decision : EqDecision byte := Strings.Byte.byte_eq_dec.

#[global] Instance Field_eq_dec : EqDecision Field.
Proof. solve_decision. Defined.

(** ** Attributes and schemas *)

Inductive Constraint :=
  | CNone
  | PrimaryKey
  | Unique
  | NotNull
  | UniqueNotNull
  | ForeignKey (c : Z)
  | NotNullFKey (c : Z).

#[global] Instance Constraint_eq_dec : EqDecision Constraint.
Proof. solve_decision. Defined.

Record Attribute := mkAttribute {
  att_name : list byte;
  dtype : DataType;
  constraint : Constraint
}.

Definition Attribute_new (n : list byte) (d : DataType) : Attribute := mkAttribute n d CNone.
Definition Attribute_new_pk (n : list byte) (d : DataType) : Attribute := mkAttribute n d PrimaryKey.

Record TableSchema := mkTableSchema { attributes : list Attribute }.

Module Schema.

Definition new (l : list Attribute) : TableSchema := mkTableSchema l.
Definition from_vecs (names : list (list byte)) (dtypes : list DataType) : TableSchema :=
  new (zip_with Attribute_new names dtypes).
Definition get_attribute (s : TableSchema) (i : Z) : option Attribute :=
  if i <? 0 then None else attributes s !! Z.to_nat i.

Fixpoint index_of (n : list byte) (i : Z) (l : list Attribute) : option Z :=
  match l with
  | [] => None
  | a :: l => if bool_decide (att_name a = n) then Some i else index_of n (i + 1) l
  end.
Definition get_field_index (s : TableSchema) (n : list byte) : option Z :=
  index_of n 0 (attributes s).

Definition get_pks (s : TableSchema) : list Attribute :=
  List.filter (λ a, bool_decide (constraint a = PrimaryKey)) (attributes s).
Definition contains (s : TableSchema) (n : list byte) : bool :=
  existsb (λ a, bool_decide (att_name a = n)) (attributes s).
Definition merge (s t : TableSchema) : TableSchema := new (attributes s ++ attributes t).
Definition size (s : TableSchema) : Z := zlen (attributes s).

End Schema.

(** ** Types and sizes *)

Definition type_of (f : Field) : DataType :=
  match f with
  | BigInt _ => TBigInt
  | Int _ => TInt
  | SmallInt _ => TSmallInt
  | Char i _ => TChar i
  | FString _ => TString
  | Decimal p s => TDecimal (as_u32 p) s
  | Date _ => TDate
  | FBool _ => TBool
  | Null => TNull
  end.

Definition type_size (t : DataType) : option Z :=
  match t with
  | TBigInt => Some 8
  | TInt => Some 4
  | TSmallInt => Some 2
  | TChar i => Some i
  | TString => None
  | TDecimal _ _ => Some 12
  | TDate => Some 8
  | TBool => Some 1
  | TNull => Some 1
  end.

Definition field_size (f : Field) : Z :=
  match f with
  | BigInt _ => 8
  | Int _ => 4
  | SmallInt _ => 2
  | Char i _ => i
  | FString s => zlen s
  | Date _ => 8
  | Decimal _ _ => 12
  | FBool _ => 1
  | Null => 1
  end.

(** ** The derived order: by constructor, then by the arguments *)

Definition field_tag (f : Field) : Z :=
  match f with
  | BigInt _ => 0 | Int _ => 1 | SmallInt _ => 2 | Char _ _ => 3 | FString _ => 4
  | Decimal _ _ => 5 | Date _ => 6 | FBool _ => 7 | Null => 8
  end.

Definition field_cmp (f g : Field) : comparison :=
  match f, g with
  | BigInt a, BigInt b | Int a, Int b | SmallInt a, SmallInt b | Date a, Date b => a ?= b
  | Char n s, Char m t => cmp_then (n ?= m) (cmp_list cmp_byte s t)
  | FString s, FString t => cmp_list cmp_byte s t
  | Decimal w s, Decimal x t => cmp_then (w ?= x) (s ?= t)
  | FBool a, FBool b => cmp_bool a b
  | Null, Null => Eq
  | _, _ => field_tag f ?= field_tag g
  end.

(** ** Logic and arithmetic *)

Definition from_bool (b : bool) : Field := FBool b.

Definition field_and (f g : Field) : outcome Field :=
  match f, g with FBool a, FBool b => Ret (FBool (a && b)) | _, _ => Panic end.
Definition field_or (f g : Field) : outcome Field :=
  match f, g with FBool a, FBool b => Ret (FBool (a || b)) | _, _ => Panic end.

(** [10i64.pow(n)], where [n] is the checked difference of scales it is called with. *)
Definition pow10 (n : Z) : outcome Z := _ ← checked 32 n; i64 (10 ^ n).

(** [a * 10i64.pow(n)]. *)
Definition scale_up (a n : Z) : outcome Z := p ← pow10 n; i64 (a * p).

Definition field_add (f g : Field) : outcome (result CrustyError Field) :=
  match f, g with
  | BigInt a, BigInt b => r ← i64 (a + b); Ret (Ok (BigInt r))
  | Decimal a s_l, Decimal b s_r =>
      let res_scale := if s_r <? s_l then s_l else s_r in
      a ← scale_up a (res_scale - s_l);
      b ← scale_up b (res_scale - s_r);
      r ← i64 (a + b); Ret (Ok (Decimal r res_scale))
  | BigInt a, Decimal b s_r => a ← scale_up a s_r; r ← i64 (a + b); Ret (Ok (Decimal r s_r))
  | Decimal a s_l, BigInt b => b ← scale_up b s_l; r ← i64 (a + b); Ret (Ok (Decimal r s_l))
  | _, _ => Panic
  end.

Definition field_sub (f g : Field) : outcome (result CrustyError Field) :=
  match f, g with
  | BigInt a, BigInt b => r ← i64 (a - b); Ret (Ok (BigInt r))
  | Decimal a s_l, Decimal b s_r =>
      let res_scale := if s_r <? s_l then s_l else s_r in
      a ← scale_up a (res_scale - s_l);
      b ← scale_up b (res_scale - s_r);
      r ← i64 (a - b); Ret (Ok (Decimal r res_scale))
  | BigInt a, Decimal b s_r => a ← scale_up a s_r; r ← i64 (a - b); Ret (Ok (Decimal r s_r))
  | Decimal a s_l, BigInt b => b ← scale_up b s_l; r ← i64 (a - b); Ret (Ok (Decimal r s_l))
  | _, _ => Ret (Err (c_err "Expected int or decimal"))
  end.

Definition field_mul (f g : Field) : outcome (result CrustyError Field) :=
  match f, g with
  | BigInt a, BigInt b => r ← i64 (a * b); Ret (Ok (BigInt r))
  | Decimal a s_l, Decimal b s_r =>
      let larger_scale := Z.max s_l s_r in
      let smaller_scale := Z.min s_l s_r in
      res ← i64 (a * b);
      p ← pow10 smaller_scale;
      let num := F64.as_i64 (F64.round (F64.div (F64.of_Z res) (F64.of_Z p))) in
      Ret (Ok (Decimal num larger_scale))
  | BigInt a, Decimal b s_r => r ← i64 (a * b); Ret (Ok (Decimal r s_r))
  | Decimal a s_l, BigInt b => r ← i64 (a * b); Ret (Ok (Decimal r s_l))
  | _, _ => Ret (Err (c_err "Expected int or decimal"))
  end.

Definition div_decimal (a s_l b s_r : Z) : outcome (result CrustyError Field) :=
  if b =? 0 then Ret (Err (c_err "Division by zero"))
  else
    let larger_scale := Z.max s_l s_r in
    alpha ← u32_add (larger_scale - s_l) s_r;
    res ← scale_up a alpha;
    let num := F64.as_i64 (F64.round (F64.div (F64.of_Z res) (F64.of_Z b))) in
    Ret (Ok (Decimal num larger_scale)).

Definition field_div (f g : Field) : outcome (result CrustyError Field) :=
  match f, g with
  | BigInt a, BigInt b =>
      if b =? 0 then Ret (Err (c_err "Division by zero"))
      else r ← i64 (Z.quot a b); Ret (Ok (BigInt r))
  | Decimal a s_l, Decimal b s_r => div_decimal a s_l b s_r
  | BigInt a, Decimal b s_r => div_decimal a 0 b s_r
  | Decimal a s_l, BigInt b => div_decimal a s_l b 0
  | _, _ => Ret (Err (c_err "Expected int or decimal"))
  end.

(** [f_decimal]: a double as a decimal of the default scale. *)
Definition f_decimal (f : spec_float) : Field :=
  Decimal (F64.as_i64 (F64.mul f (F64.of_Z (10 ^ default_decimal_scale)))) default_decimal_scale.

Definition unwrap_bool_field (f : Field) : outcome bool :=
  match f with FBool b => Ret b | _ => Panic end.
Definition unwrap_int_field (f : Field) : outcome Z :=
  match f with BigInt i => Ret i | _ => Panic end.
Definition unwrap_string_field (f : Field) : outcome (list byte) :=
  match f with FString s => Ret s | _ => Panic end.

(** ** Comparison operators ([query/operation.rs]) *)

Inductive BinaryOp :=
  | OpAdd | OpSub | OpMul | OpDiv | OpEq | OpNeq | OpLt | OpGt | OpLe | OpGe | OpAnd | OpOr.

#[global] Instance BinaryOp_eq_dec : EqDecision BinaryOp.
Proof. solve_decision. Defined.

Definition compare_fields (op : BinaryOp) (left right : Field) : outcome bool :=
  match op with
  | OpEq => Ret (bool_decide (left = right))
  | OpNeq => Ret (negb (bool_decide (left = right)))
  | OpGt => Ret (cmp_gt field_cmp left right)
  | OpGe => Ret (cmp_ge field_cmp left right)
  | OpLt => Ret (cmp_lt field_cmp left right)
  | OpLe => Ret (cmp_le field_cmp left right)
  | OpAnd => f ← field_and left right; unwrap_bool_field f
  | OpOr => f ← field_or left right; unwrap_bool_field f
  | _ => Panic
  end.
