(* ===== verification/FieldCodec.v ===== *)
(** * Encoding, printing and reading fields

    Models [Field::to_bytes], [Field::from_bytes], the [from_str] family and the
    [Display] implementation of [common/src/datatypes.rs], with the parts of the
    standard library they use: UTF-8 validation, and reading and printing integers. *)

From S2P Require Import Prelude Common Ordering Field.
From stdpp Require Import strings.

Open Scope Z_scope.

(** ** UTF-8 *)

(** [b] lies in the range of bytes from [lo] to [hi]. *)
Definition byte_in (lo hi : Z) (b : byte) : bool :=
  (lo <=? byte.unsigned b) && (byte.unsigned b <=? hi).
Definition tail_byte : byte → bool := byte_in 128 191.

(** [String::from_utf8] accepts the well-formed byte sequences of the Unicode standard. *)
Fixpoint utf8_valid (bs : list byte) : bool :=
  match bs with
  | [] => true
  | b1 :: t1 =>
      if byte_in 0 127 b1 then utf8_valid t1 else
      match t1 with
      | [] => false
      | b2 :: t2 =>
          if byte_in 194 223 b1 then tail_byte b2 && utf8_valid t2 else
          match t2 with
          | [] => false
          | b3 :: t3 =>
              if byte_in 224 239 b1 then
                (if byte_in 224 224 b1 then byte_in 160 191 b2
                 else if byte_in 237 237 b1 then byte_in 128 159 b2
                 else tail_byte b2) && tail_byte b3 && utf8_valid t3
              else
              match t3 with
              | [] => false
              | b4 :: t4 =>
                  byte_in 240 244 b1 &&
                  (if byte_in 240 240 b1 then byte_in 144 191 b2
                   else if byte_in 244 244 b1 then byte_in 128 143 b2
                   else tail_byte b2) && tail_byte b3 && tail_byte b4 && utf8_valid t4
              end
          end
      end
  end.

(** ** Two's complement *)

(** The signed value of the low [w] bits of [z]. *)
Definition signed (w z : Z) : Z := (z + 2 ^ (w - 1)) mod 2 ^ w - 2 ^ (w - 1).

(** [to_le_bytes] and [from_le_bytes] of a signed integer of [n] bytes. *)
Definition int_to_le (n : nat) (z : Z) : list byte := le_split n z.
Definition int_from_le (bs : list byte) : Z := signed (8 * zlen bs) (le_combine bs).

(** ** Bytes *)

Definition to_bytes (f : Field) : outcome (list byte) :=
  match f with
  | BigInt x => Ret (int_to_le 8 x)
  | Int x => Ret (int_to_le 4 x)
  | SmallInt x => Ret (int_to_le 2 x)
  | Char i s =>
      let bytes := replicate (Z.to_nat (i * 4)) Byte.x00 in
      _ ← guard_or_panic (negb (i <? zlen s));
      copy_from_slice bytes 0 (zlen s) s
  | FString s => Ret (le_split 4 (as_u32 (zlen s)) ++ s)
  | Date x => Ret (int_to_le 8 x)
  | Decimal whole scale => Ret (int_to_le 8 whole ++ le_split 4 scale)
  | FBool b => Ret (if b then [Byte.x01] else [Byte.x00])
  | Null => Ret [Byte.x00]
  end.

(** [bytes.try_into()] into an array of [n] bytes. *)
Definition array_of (n : Z) (bs : list byte) (e : string) : result CrustyError (list byte) :=
  if zlen bs =? n then Ok bs else Err (CrustyErr e).

Definition string_of (bs : list byte) : result CrustyError (list byte) :=
  if utf8_valid bs then Ok bs else Err (CrustyErr "Failed to convert bytes to string.").

(** [r.map(f)]. *)
Definition result_map {E A B} (f : A → B) (r : result E A) : result E B :=
  match r with Ok a => Ok (f a) | Err e => Err e end.

Definition from_bytes (bytes : list byte) (t : DataType) : outcome (result CrustyError Field) :=
  match t with
  | TBigInt =>
      Ret (result_map (λ bs, BigInt (int_from_le bs))
             (array_of 8 bytes "Failed to convert bytes to i64."))
  | TInt =>
      Ret (result_map (λ bs, Int (int_from_le bs))
             (array_of 4 bytes "Failed to convert bytes to i32."))
  | TSmallInt =>
      Ret (result_map (λ bs, SmallInt (int_from_le bs))
             (array_of 2 bytes "Failed to convert bytes to i16."))
  | TChar i => bs ← slice bytes 0 i; Ret (result_map (Char i) (string_of bs))
  | TString =>
      l ← slice bytes 0 4;
      let s_len := le_combine l in
      bs ← slice bytes 4 (4 + s_len);
      Ret (result_map FString (string_of bs))
  | TDate =>
      Ret (result_map (λ bs, Date (int_from_le bs))
             (array_of 8 bytes "Failed to convert bytes to u32."))
  | TDecimal _ _ =>
      whole ← slice bytes 0 8;
      scale ← slice bytes 8 12;
      Ret (Ok (Decimal (int_from_le whole) (le_combine scale)))
  | TBool => b ← index bytes 0; Ret (Ok (FBool (byte.unsigned b =? 1)))
  | TNull =>
      b ← index bytes 0;
      Ret (if byte.unsigned b =? 0 then Ok Null else Err (CrustyErr "Invalid null field"))
  end.

(** ** Integers as text *)

Definition digit_byte (d : Z) : byte := byte.of_Z (48 + d).

(** The value of a digit. *)
Definition digit_of (b : byte) : option Z :=
  if byte_in 48 57 b then Some (byte.unsigned b - 48) else None.

Fixpoint parse_nat (bs : list byte) (acc : Z) : option Z :=
  match bs with
  | [] => Some acc
  | b :: bs => d ← digit_of b; parse_nat bs (acc * 10 + d)
  end.

(** [parse::<T>()] for a signed integer type with values from [lo] to [hi]: an optional
    sign, then at least one digit; no overflow. *)
Definition parse_int (lo hi : Z) (bs : list byte) : option Z :=
  let body (neg : bool) (ds : list byte) :=
    match ds with
    | [] => None
    | _ =>
        n ← parse_nat ds 0;
        let z := if neg then - n else n in
        if (lo <=? z) && (z <=? hi) then Some z else None
    end in
  match bs with
  | b :: ds =>
      if bool_decide (b = Byte.x2b) then body false ds
      else if bool_decide (b = Byte.x2d) then body true ds
      else body false bs
  | [] => None
  end.

Definition parse_i64 : list byte → option Z := parse_int (- 2 ^ 63) (2 ^ 63 - 1).
Definition parse_i32 : list byte → option Z := parse_int (- 2 ^ 31) (2 ^ 31 - 1).
Definition parse_i16 : list byte → option Z := parse_int (- 2 ^ 15) (2 ^ 15 - 1).

(** The digits of [z], at most [fuel] of them. *)
Fixpoint show_nat (fuel : nat) (z : Z) : list byte :=
  match fuel with
  | O => []
  | S fuel => (if z <? 10 then [] else show_nat fuel (z / 10)) ++ [digit_byte (z mod 10)]
  end.

(** [to_string] of an integer of at most 64 bits (at most 19 digits). *)
Definition show_int (z : Z) : list byte :=
  if z <? 0 then Byte.x2d :: show_nat 20 (- z) else show_nat 20 z.

(** [split('.')]. *)
Fixpoint split_dot (bs : list byte) : list (list byte) :=
  match bs with
  | [] => [[]]
  | b :: bs =>
      if bool_decide (b = Byte.x2e) then [] :: split_dot bs
      else match split_dot bs with
           | p :: ps => (b :: p) :: ps
           | [] => [[b]]
           end
  end.

(** ** Reading fields *)

Definition parse_int_from_str (parse : list byte → option Z) (input : list byte) :
  result CrustyError Z := ok_or (parse input) (ValidationError "Invalid int field {}").

Definition from_str_to_decimal (field : list byte) (p s : Z) : outcome (result CrustyError Field) :=
  let invalid := ValidationError "Invalid decimal field {}" in
  let parts := split_dot field in
  if 2 <? zlen parts then Ret (Err invalid) else
  part0 ← unwrap (parts !! 0%nat);
  match parse_i64 part0 with
  | None => Ret (Err invalid)
  | Some integer =>
      a ← i64 (Z.abs integer);
      bound ← pow10 (p - s);
      if bound <=? a then
        Ret (Err (ValidationError "Invalid decimal field precision {}. Expected {} found {}")) else
      let finish (adjusted_fractional : Z) : outcome (result CrustyError Field) :=
        i ← scale_up integer s;
        w ← i64 (if integer <? 0 then i - adjusted_fractional else i + adjusted_fractional);
        Ret (Ok (Decimal w s)) in
      match parts !! 1%nat with
      | None => finish 0
      | Some part1 =>
          match parse_i64 part1 with
          | None => Ret (Err invalid)
          | Some fractional =>
              limit ← (if fractional <? 0 then Ret 0 else pow10 s);
              if (fractional <? 0) || (limit <=? fractional) then
                Ret (Err (ValidationError "Invalid decimal field scale {}. Expected {} found {}")) else
              f ← scale_up fractional (s - as_u32 (zlen part1));
              finish f
          end
      end
  end.

Definition from_str_to_char (field : list byte) (length : Z) : result CrustyError Field :=
  if length <? zlen field then Err (ValidationError "Invalid char field {}")
  else Ok (Char length field).
Definition from_str_to_string (field : list byte) : result CrustyError Field := Ok (FString field).
Definition from_str_to_bool (field : list byte) : result CrustyError Field :=
  if bool_decide (field = str "true") then Ok (FBool true)
  else if bool_decide (field = str "false") then Ok (FBool false)
  else Err (ValidationError "Invalid bool field {}").
Definition from_str_to_null (field : list byte) : result CrustyError Field :=
  if bool_decide (field = null_string) then Ok Null
  else Err (ValidationError "Invalid null field {}").

(** [Field::from_str] and [Display], over the calendar: [parse_date] gives the days from
    1970-01-01 to a date written [%Y-%m-%d], [format_date] writes such a date. *)
Section Calendar.
Context (parse_date : list byte → option Z) (format_date : Z → list byte).

Definition from_str_to_date (field : list byte) : result CrustyError Field :=
  match parse_date field with
  | Some days => Ok (Date days)
  | None => Err (ValidationError "Invalid date field {}")
  end.

Definition from_str (field : list byte) (attr : Attribute) : outcome (result CrustyError Field) :=
  if bool_decide (field = null_string) then Ret (from_str_to_null field) else
  match dtype attr with
  | TInt => Ret (result_map Int (parse_int_from_str parse_i32 field))
  | TBigInt => Ret (result_map BigInt (parse_int_from_str parse_i64 field))
  | TSmallInt => Ret (result_map SmallInt (parse_int_from_str parse_i16 field))
  | TChar i => Ret (from_str_to_char field i)
  | TString => Ret (from_str_to_string field)
  | TDecimal p s => from_str_to_decimal field p s
  | TDate => Ret (from_str_to_date field)
  | TBool => Ret (from_str_to_bool field)
  | TNull => Ret (from_str_to_null field)
  end.

Definition display (f : Field) : list byte :=
  match f with
  | BigInt i | Int i | SmallInt i => show_int i
  | Char _ s => s
  | FString s => s
  | Date i => format_date i
  | Decimal whole scale =>
      let s := show_int whole in
      let padding := if zlen s <=? scale then scale + 1 - zlen s else 0 in
      let padded_s := replicate (Z.to_nat padding) (digit_byte 0) ++ s in
      let decimal_pos := Z.to_nat (zlen padded_s - scale) in
      take decimal_pos padded_s ++ [Byte.x2e] ++ drop decimal_pos padded_s
  | FBool b => str (if b then "true" else "false")
  | Null => null_string
  end.
End Calendar.
