(* ===== verification/SqlAst.v ===== *)
(** * Syntax trees of SQL

    What the code tells apart of the syntax trees of the SQL parser, a library
    ([sqlparser::ast]): constructors the code does not handle are one constructor [Other...],
    and fields it does not look at are left out. A name is its text. *)

From S2P Require Import Prelude Field.

Open Scope Z_scope.

Abbreviation Ident := (list byte).
Abbreviation ObjectName := (list Ident).

Inductive SqlValue :=
  | Number (val : list byte) (long : bool)
  | DoubleQuotedString (val : list byte)
  | SingleQuotedString (val : list byte)
  | SqlBoolean (b : bool)
  | SqlNull
  | OtherValue.

Inductive BinaryOperator :=
  | SqlPlus | SqlMinus | SqlMultiply | SqlDivide
  | SqlGt | SqlLt | SqlGtEq | SqlLtEq | SqlEq | SqlNotEq | SqlAnd | SqlOr
  | OtherOperator.

Inductive ExactNumberInfo := NoNumberInfo | Precision (p : Z) | PrecisionAndScale (p s : Z).

Inductive SqlDataType :=
  | SqlInt | SqlInteger | SqlVarchar | SqlChar | SqlDate
  | SqlDecimal (info : ExactNumberInfo)
  | OtherDataType.

(** The name of an alias, and the alias as the library prints it (with quotes, and with the
    columns of the alias if it has any). *)
Record TableAlias := mkAlias { alias_name : Ident; alias_display : list byte }.

Inductive SqlExpr :=
  | Identifier (ident : Ident)
  | CompoundIdentifier (idents : list Ident)
  | BinaryOpExpr (left : SqlExpr) (op : BinaryOperator) (right : SqlExpr)
  | ExprValue (value : SqlValue)
  | ExistsExpr (subquery : SqlQuery) (negated : bool)
  | TypedString (data_type : SqlDataType) (value : list byte)
  | NestedExpr (expr : SqlExpr)
  | FunctionExpr (name : ObjectName) (args : list FunctionArg)
  | OtherExpr
(** Named and unnamed arguments are treated alike. *)
with FunctionArg := ArgExpr (expr : SqlExpr) | ArgQualifiedWildcard | ArgWildcard
with SqlQuery := mkSqlQuery (body : SetExpr) (order_by : list SqlExpr) (limit : option SqlExpr)
with SetExpr := SelectBody (select : SqlSelect) | ValuesBody (rows : list (list SqlExpr)) | OtherBody
with SqlSelect :=
  mkSelect (distinct : bool) (projection : list SelectItem) (from : list TableWithJoins)
    (selection : option SqlExpr) (group_by : GroupByExpr) (having : option SqlExpr)
with SelectItem := UnnamedExpr (expr : SqlExpr) | ExprWithAlias (expr : SqlExpr) (alias : Ident) | Wildcard | OtherItem
with GroupByExpr := GroupByAll | GroupByExpressions (exprs : list SqlExpr)
with TableWithJoins := mkTableWithJoins (relation : TableFactor) (joins : list SqlJoin)
with SqlJoin := mkSqlJoin (relation : TableFactor) (join_operator : JoinOperator)
with TableFactor :=
  | TableRef (name : ObjectName) (alias : option TableAlias)
  | Derived (subquery : SqlQuery) (alias : option TableAlias)
  | OtherFactor
(** The operators with an ON clause; those with USING and the like are other. *)
with JoinOperator :=
  | InnerOn (cond : SqlExpr) | LeftOuterOn (cond : SqlExpr) | RightOuterOn (cond : SqlExpr) | FullOuterOn (cond : SqlExpr)
  | CrossJoinOp | OtherJoin.

(** ** Statements *)

(** A name with the quotes it was written with; such names are compared with their quotes. *)
Record QuotedIdent := mkQuotedIdent { id_value : Ident; quote_style : option byte }.
#[global] Instance QuotedIdent_eq_dec : EqDecision QuotedIdent.
Proof. solve_decision. Defined.

Inductive ColumnOption := PrimaryKeyOption | OtherOption.
Record ColumnDef := mkColumnDef { cd_name : QuotedIdent; cd_data_type : SqlDataType; cd_options : list ColumnOption }.
Inductive TableConstraint := PrimaryKeyConstraint (columns : list QuotedIdent) | OtherConstraint.

(** [UPDATE ... SET id = value]. *)
Record Assignment := mkAssignment { asg_id : list Ident; asg_value : SqlExpr }.

Inductive Statement :=
  | SCreateTable (name : ObjectName) (columns : list ColumnDef) (constraints : list TableConstraint)
  | SQuery (query : SqlQuery)
  | SInsert (table_name : ObjectName) (columns : list Ident) (source : option SqlQuery)
  | SCreateIndex (name : option ObjectName) (table_name : ObjectName) (columns : list SqlExpr) (unique if_not_exists : bool)
  | SDelete (from : list TableWithJoins) (selection : option SqlExpr)
  | SUpdate (table : TableWithJoins) (assignments : list Assignment) (selection : option SqlExpr)
  | OtherStatement.
