(* ===== verification/FieldContract.v ===== *)
(** * Fields: what holds of them

    The derived order of fields is total; encoding a field and reading it back gives
    the field (a [Char] padded to its length); addition and subtraction of integers and
    decimals are exact whenever they return; printing a decimal and reading it back
    gives the decimal, except between -1 and 0 where the text cannot be read. *)

From stdpp Require Import strings.
From S2P Require Import Prelude Common Ordering Field FieldCodec.

Open Scope Z_scope.

(** ** The order *)

(** A sequence of integers with the order of the field. *)
Definition field_key (f : Field) : list Z :=
  field_tag f ::
  match f with
  | BigInt i | Int i | SmallInt i | Date i => [i]
  | Char n s => n :: (byte.unsigned <$> s)
  | FString s => byte.unsigned <$> s
  | Decimal w s => [w; s]
  | FBool b => [if b then 1 else 0]
  | Null => []
  end.

#[global] Instance unsigned_inj : Inj (=) (=) byte.unsigned.
Proof. intros a b E. by rewrite <-(byte.of_Z_unsigned a), <-(byte.of_Z_unsigned b), E. Qed.

Lemma cmp_bytes_key s t :
  cmp_list cmp_byte s t = cmp_list Z.compare (byte.unsigned <$> s) (byte.unsigned <$> t).
Proof. revert t. induction s as [|a s IH]; intros [|b t]; simpl; [done..|]. by rewrite IH. Qed.

Lemma field_cmp_key f g : field_cmp f g = cmp_list Z.compare (field_key f) (field_key g).
Proof.
  destruct f, g; try done; unfold field_cmp, field_key; cbn [field_tag cmp_list];
    rewrite ?Z.compare_refl; cbn [cmp_then cmp_list]; rewrite ?cmp_bytes_key; try done.
  - by destruct (_ ?= _).
  - by destruct (_ ?= _).
  - by destruct (_ ?= _).
  - by destruct (whole ?= whole0), (scale ?= scale0).
  - by destruct (_ ?= _).
  - by destruct b, b0.
Qed.

Lemma field_key_inj f g : field_key f = field_key g → f = g.
Proof. intros E. destruct f, g; simplify_eq/=; try done. by destruct b, b0. Qed.

#[global] Instance field_ord_laws : OrdLaws field_cmp.
Proof.
  destruct (ord_laws_key field_key (cmp_list Z.compare) _ field_key_inj) as [H1 H2 H3 H4].
  constructor; intros *; rewrite !field_cmp_key; eauto.
Qed.

(** ** Encoding *)

Lemma utf8_valid_app s t : utf8_valid s = true → utf8_valid t = true → utf8_valid (s ++ t) = true.
Proof.
  intros Hs Ht. remember (length s) as n eqn:Hn. revert s Hn Hs.
  induction (lt_wf n) as [n _ IH]. intros s -> Hs.
  assert (∀ s', (length s' < length s)%nat → utf8_valid s' = true → utf8_valid (s' ++ t) = true) as IH'.
  { intros s' ?. by apply (IH (length s')). }
  destruct s as [|b1 t1]; [done|]. cbn [app utf8_valid] in *.
  destruct (byte_in 0 127 b1); [apply IH'; simpl; [lia|done]|].
  destruct t1 as [|b2 t2]; [done|]. cbn [app utf8_valid] in *.
  destruct (byte_in 194 223 b1).
  { destruct (tail_byte b2); [|done]. simpl in *. apply IH'; simpl; [lia|done]. }
  destruct t2 as [|b3 t3]; [done|]. cbn [app] in *.
  destruct (byte_in 224 239 b1).
  { apply andb_true_iff in Hs as [-> Hs]. simpl. apply IH'; simpl; [lia|done]. }
  destruct t3 as [|b4 t4]; [done|]. cbn [app] in *.
  apply andb_true_iff in Hs as [-> Hs]. simpl. apply IH'; simpl; [lia|done].
Qed.

Lemma utf8_valid_zeros n : utf8_valid (replicate n Byte.x00) = true.
Proof. induction n; [done|]. simpl. done. Qed.

(** Fields with payloads in the range of their Rust types. *)
Definition field_ok (f : Field) : Prop :=
  match f with
  | BigInt i | Date i => - 2 ^ 63 ≤ i < 2 ^ 63
  | Int i => - 2 ^ 31 ≤ i < 2 ^ 31
  | SmallInt i => - 2 ^ 15 ≤ i < 2 ^ 15
  | Char n s => 0 ≤ n < 2 ^ 8 ∧ utf8_valid s = true
  | FString s => zlen s < 2 ^ 32 ∧ utf8_valid s = true
  | Decimal w s => - 2 ^ 63 ≤ w < 2 ^ 63 ∧ 0 ≤ s < 2 ^ 32
  | FBool _ | Null => True
  end.

(** What reading the bytes of a field gives: a [Char] comes back filled up with NUL
    characters to its length. *)
Definition padded (f : Field) : Field :=
  match f with
  | Char n s => Char n (s ++ replicate (Z.to_nat (n - zlen s)) Byte.x00)
  | _ => f
  end.

Lemma int_le_roundtrip n z :
  (0 < n)%nat → - 2 ^ (8 * Z.of_nat n - 1) ≤ z < 2 ^ (8 * Z.of_nat n - 1) →
  int_from_le (int_to_le n z) = z.
Proof.
  intros Hn Hz. unfold int_from_le, int_to_le, signed, zlen.
  rewrite length_le_split, le_combine_split.
  assert (2 ^ (8 * Z.of_nat n) = 2 * 2 ^ (8 * Z.of_nat n - 1)) as E.
  { rewrite <-Z.pow_succ_r by lia. f_equal. lia. }
  rewrite (Z.mul_comm (Z.of_nat n) 8), Zplus_mod_idemp_l, Z.mod_small; lia.
Qed.

Lemma array_of_ok n bs e : zlen bs = n → array_of n bs e = Ok bs.
Proof. intros <-. unfold array_of. by rewrite Z.eqb_refl. Qed.

Lemma slice_front l1 l2 b : b = zlen l1 → slice (l1 ++ l2) 0 b = Ret l1.
Proof. intros ->. by apply (slice_mid [] l1 l2). Qed.

Lemma slice_back l1 l2 a b :
  a = zlen l1 → b = zlen l1 + zlen l2 → slice (l1 ++ l2) a b = Ret l2.
Proof. intros -> ->. rewrite <-(app_nil_r l2) at 1. by apply (slice_mid l1 l2 []). Qed.

Lemma char_bytes n s :
  zlen s ≤ n → to_bytes (Char n s) =
    Ret (s ++ replicate (Z.to_nat (n - zlen s)) Byte.x00 ++ replicate (Z.to_nat (3 * n)) Byte.x00).
Proof.
  intros Hs. pose proof (zlen_nonneg s). unfold to_bytes.
  rewrite (proj2 (Z.ltb_ge _ _)) by lia. simpl. rewrite <-replicate_add.
  rewrite copy_from_slice_ok by (rewrite ?zlen_replicate; lia). f_equal. unfold splice.
  rewrite take_0, drop_replicate. simpl. do 2 f_equal. unfold zlen in *. lia.
Qed.

Lemma from_char_bytes n s l :
  0 ≤ n → zlen s = n → utf8_valid s = true → from_bytes (s ++ l) (TChar n) = Ret (Ok (Char n s)).
Proof.
  intros ? <- Hv. simpl. rewrite slice_front by done. simpl. unfold string_of. by rewrite Hv.
Qed.

Lemma int_bytes n z (c : Z → Field) e :
  (0 < n)%nat → - 2 ^ (8 * Z.of_nat n - 1) ≤ z < 2 ^ (8 * Z.of_nat n - 1) →
  result_map (λ bs, c (int_from_le bs)) (array_of (Z.of_nat n) (int_to_le n z) e) = Ok (c z).
Proof.
  intros Hn Hz. rewrite array_of_ok by (unfold int_to_le; len). simpl. by rewrite int_le_roundtrip.
Qed.

Lemma decimal_bytes w s :
  - 2 ^ 63 ≤ w < 2 ^ 63 → 0 ≤ s < 2 ^ 32 →
  from_bytes (int_to_le 8 w ++ le_split 4 s) (TDecimal (as_u32 w) s) = Ret (Ok (Decimal w s)).
Proof.
  intros Hw Hs. unfold from_bytes. rewrite slice_front, bind_Ret by done.
  rewrite slice_back, bind_Ret by done.
  rewrite int_le_roundtrip by (simpl; lia). rewrite le_combine_split, Z.mod_small by (simpl; lia). done.
Qed.

Lemma string_bytes s :
  zlen s < 2 ^ 32 → utf8_valid s = true →
  from_bytes (le_split 4 (as_u32 (zlen s)) ++ s) TString = Ret (Ok (FString s)).
Proof.
  intros Hs Hv. pose proof (zlen_nonneg s). unfold from_bytes.
  rewrite slice_front, bind_Ret by done. cbv zeta.
  rewrite cast_small, le_combine_split, Z.mod_small by (simpl; lia).
  rewrite slice_back, bind_Ret by done.
  unfold string_of. by rewrite Hv.
Qed.

Lemma field_bytes_ok f :
  field_ok f → (∀ n s, f = Char n s → zlen s ≤ n) →
  ∃ bs, to_bytes f = Ret bs ∧ from_bytes bs (type_of f) = Ret (Ok (padded f)).
Proof.
  intros Hf Hc. destruct f; simpl in Hf.
  - eexists. split; [done|]. unfold from_bytes, type_of. by rewrite (int_bytes 8) by (simpl; lia).
  - eexists. split; [done|]. unfold from_bytes, type_of. by rewrite (int_bytes 4) by (simpl; lia).
  - eexists. split; [done|]. unfold from_bytes, type_of. by rewrite (int_bytes 2) by (simpl; lia).
  - destruct Hf as [Hn Hv]. specialize (Hc n s eq_refl). rewrite char_bytes by done.
    eexists. split; [done|]. rewrite app_assoc. apply from_char_bytes; [lia | | ].
    + pose proof (zlen_nonneg s). len.
    + apply utf8_valid_app; [done|apply utf8_valid_zeros].
  - destruct Hf as [Hl Hv]. eexists. split; [done|]. by apply string_bytes.
  - destruct Hf as [Hw Hs]. eexists. split; [done|]. by apply decimal_bytes.
  - eexists. split; [done|]. unfold from_bytes, type_of. by rewrite (int_bytes 8) by (simpl; lia).
  - by destruct b; eexists.
  - by eexists.
Qed.

(** C28: A field within the range of its type is read back from its bytes, under the type
    [DataType::from] gives it; a [Char] comes back filled up with NUL characters. A [Char]
    with a text longer than its length panics. *)
Theorem field_bytes_roundtrip f :
  field_ok f →
  match to_bytes f with
  | Ret bs => from_bytes bs (type_of f) = Ret (Ok (padded f))
  | Panic => ∃ n s, f = Char n s ∧ n < zlen s
  end.
Proof.
  intros Hf. assert ((∃ n s, f = Char n s ∧ n < zlen s) ∨ (∀ n s, f = Char n s → zlen s ≤ n)) as [Hl|Hs].
  { destruct f; try (right; congruence). destruct (Z.le_gt_cases (zlen s) n); [right|left]; [|by eauto].
    by intros ?? [= <- <-]. }
  - destruct Hl as (n & s & -> & Hs). simpl. rewrite (proj2 (Z.ltb_lt _ _) Hs). simpl. eauto.
  - destruct (field_bytes_ok f Hf Hs) as (bs & -> & E). done.
Qed.

Lemma field_bytes_roundtrip_witness :
  match to_bytes (Char 3 (str "ab")) with
  | Ret bs => from_bytes bs (type_of (Char 3 (str "ab"))) = Ret (Ok (padded (Char 3 (str "ab"))))
  | Panic => ∃ n s, Char 3 (str "ab") = Char n s ∧ n < zlen s
  end.
Proof. apply field_bytes_roundtrip. split; [lia|reflexivity]. Defined.

(** ** Arithmetic *)

(** The number a field stands for, as a multiple of [10 ^ - s]. *)
Definition units (s : Z) (f : Field) : option Z :=
  match f with
  | BigInt a => Some (a * 10 ^ s)
  | Decimal w t => Some (w * 10 ^ (s - t))
  | _ => None
  end.
Definition scale_of (f : Field) : Z := match f with Decimal _ s => s | _ => 0 end.

(** A number of that many units, as the type of a result of [f] and [g]. *)
Definition of_units (f g : Field) (s r : Z) : Field :=
  match f, g with BigInt _, BigInt _ => BigInt r | _, _ => Decimal r s end.

Lemma pow10_ok n : 0 ≤ n ≤ 18 → pow10 n = Ret (10 ^ n).
Proof.
  intros Hn. unfold pow10. rewrite checked_ok by lia. simpl. apply i64_ok.
  assert (10 ^ n ≤ 10 ^ 18) by (apply Z.pow_le_mono_r; lia).
  pose proof (Z.pow_pos_nonneg 10 n). lia.
Qed.

Lemma scale_up_ok a n : 0 ≤ n ≤ 18 → scale_up a n = i64 (a * 10 ^ n).
Proof. intros Hn. unfold scale_up. by rewrite pow10_ok. Qed.

Lemma i64_idem a : field_ok (BigInt a) → i64 (a * 10 ^ 0) = Ret a.
Proof. intros H. simpl in H. rewrite Z.mul_1_r. by apply i64_ok. Qed.

(** The shared shape of addition and subtraction. *)
Lemma field_arith_ok (op : Z → Z → Z) (f g : Field) (u v : Z) (res : outcome (result CrustyError Field)) :
  let s := Z.max (scale_of f) (scale_of g) in
  field_ok f → field_ok g → s ≤ 18 → units s f = Some u → units s g = Some v →
  res = match f, g with
        | BigInt a, BigInt b => r ← i64 (op a b); Ret (Ok (BigInt r))
        | Decimal a s_l, Decimal b s_r =>
            let res_scale := if s_r <? s_l then s_l else s_r in
            a ← scale_up a (res_scale - s_l);
            b ← scale_up b (res_scale - s_r);
            r ← i64 (op a b); Ret (Ok (Decimal r res_scale))
        | BigInt a, Decimal b s_r => a ← scale_up a s_r; r ← i64 (op a b); Ret (Ok (Decimal r s_r))
        | Decimal a s_l, BigInt b => b ← scale_up b s_l; r ← i64 (op a b); Ret (Ok (Decimal r s_l))
        | _, _ => Panic
        end →
  res = (u ← i64 u; v ← i64 v; r ← i64 (op u v); Ret (Ok (of_units f g s r))).
Proof.
  intros s Hf Hg Hs Hu Hv ->. subst s.
  destruct f as [a| | | | |a s_l| | |]; try discriminate;
    destruct g as [b| | | | |b s_r| | |]; try discriminate; simpl scale_of in *;
    cbn [units] in Hu, Hv; injection Hu as <-; injection Hv as <-; cbn [of_units].
  - rewrite Z.max_id, !i64_idem by done. done.
  - destruct Hg as [Hb Hs_r]. rewrite Z.max_r in * by lia.
    rewrite Z.sub_diag, (i64_idem b Hb), scale_up_ok by lia. done.
  - destruct Hf as [Ha Hs_l]. rewrite Z.max_l in * by lia.
    rewrite Z.sub_diag, (i64_idem a Ha), scale_up_ok by lia. by destruct (i64 (b * _)).
  - destruct Hf as [Ha Hs_l], Hg as [Hb Hs_r]. cbv zeta.
    replace (if s_r <? s_l then s_l else s_r) with (Z.max s_l s_r) by (destruct (Z.ltb_spec s_r s_l); lia).
    by rewrite !scale_up_ok by lia.
Qed.

(** C29: Adding or subtracting integers and decimals of at most 18 decimal places is exact:
    the result is the sum or difference of the numbers the operands stand for, at the
    larger of their scales; the operation panics exactly when an operand at that scale, or
    the result, leaves the range of 64-bit integers. *)
Theorem decimal_arith_exact f g u v :
  let s := Z.max (scale_of f) (scale_of g) in
  field_ok f → field_ok g → s ≤ 18 → units s f = Some u → units s g = Some v →
  field_add f g = (u ← i64 u; v ← i64 v; r ← i64 (u + v); Ret (Ok (of_units f g s r))) ∧
  field_sub f g = (u ← i64 u; v ← i64 v; r ← i64 (u - v); Ret (Ok (of_units f g s r))).
Proof.
  intros s Hf Hg Hs Hu Hv. split.
  - apply (field_arith_ok Z.add); try done.
  - apply (field_arith_ok Z.sub); try done. destruct f, g; discriminate || done.
Qed.

Lemma decimal_arith_exact_witness :
  field_add (Decimal 15 1) (BigInt 2) = Ret (Ok (Decimal 35 1)) ∧
  field_sub (Decimal 15 1) (Decimal 125 2) = Ret (Ok (Decimal 25 2)).
Proof.
  split.
  - rewrite (proj1 (decimal_arith_exact (Decimal 15 1) (BigInt 2) 15 20 ltac:(simpl; lia)
      ltac:(simpl; lia) ltac:(simpl; lia) eq_refl eq_refl)). reflexivity.
  - rewrite (proj2 (decimal_arith_exact (Decimal 15 1) (Decimal 125 2) 150 125 ltac:(simpl; lia)
      ltac:(simpl; lia) ltac:(simpl; lia) eq_refl eq_refl)). reflexivity.
Defined.

(** ** Fields as text

    Printing a decimal with [Display] and reading it with [from_str_to_decimal]: the
    number comes back when it is not negative or at most -1; between -1 and 0 the printed
    text cannot be read. Integers come back always. *)

(** ** Digits *)

(** The last [n] digits of [z], with leading zeros. *)
Fixpoint digits (n : nat) (z : Z) : list byte :=
  match n with
  | O => []
  | S n => digits n (z / 10) ++ [digit_byte (z mod 10)]
  end.

Lemma length_digits n z : length (digits n z) = n.
Proof. revert z. induction n; intros z; simpl; [done|]. rewrite length_app, IHn. simpl. lia. Qed.

Lemma unsigned_digit d : 0 ≤ d ≤ 9 → byte.unsigned (digit_byte d) = 48 + d.
Proof. intros. unfold digit_byte. rewrite byte.unsigned_of_Z. apply Z.mod_small. lia. Qed.

Lemma digit_of_digit d : 0 ≤ d ≤ 9 → digit_of (digit_byte d) = Some d.
Proof.
  intros Hd. unfold digit_of, byte_in. rewrite unsigned_digit by done.
  rewrite !(proj2 (Z.leb_le _ _)) by lia. simpl. f_equal. lia.
Qed.

Lemma digit_not b d : (byte.unsigned b <? 48) = true → 0 ≤ d ≤ 9 → digit_byte d ≠ b.
Proof. intros Hb Hd <-. rewrite unsigned_digit in Hb by done. lia. Qed.

Lemma digits_Forall (P : byte → Prop) n z :
  (∀ d, 0 ≤ d ≤ 9 → P (digit_byte d)) → Forall P (digits n z).
Proof.
  intros HP. revert z. induction n as [|n IH]; intros z; simpl; [constructor|].
  apply Forall_app. split; [done|]. constructor; [|constructor]. apply HP.
  pose proof (Z.mod_pos_bound z 10). lia.
Qed.

Lemma digits_split n m z : digits (n + m) z = digits n (z / 10 ^ Z.of_nat m) ++ digits m z.
Proof.
  revert z. induction m as [|m IH]; intros z.
  - rewrite Nat.add_0_r, app_nil_r. simpl. by rewrite Z.div_1_r.
  - rewrite Nat.add_succ_r. cbn [digits]. rewrite IH, <-app_assoc. do 2 f_equal.
    rewrite Z.div_div by lia. f_equal. rewrite Nat2Z.inj_succ, Z.pow_succ_r by lia. lia.
Qed.

Lemma digits_zero n : digits n 0 = replicate n (digit_byte 0).
Proof.
  induction n as [|n IH]; [done|]. cbn [digits]. change (0 / 10) with 0. rewrite IH.
  change [digit_byte (0 mod 10)] with (replicate 1 (digit_byte 0)). rewrite <-replicate_add.
  f_equal. lia.
Qed.

Lemma digits_mod n z : digits n (z mod 10 ^ Z.of_nat n) = digits n z.
Proof.
  revert z. induction n as [|n IH]; intros z; [done|]. cbn [digits].
  rewrite Nat2Z.inj_succ, Z.pow_succ_r by lia. pose proof (Z.pow_pos_nonneg 10 (Z.of_nat n)).
  rewrite Z.rem_mul_r by lia. f_equal.
  - rewrite (Z.mul_comm 10), Z.div_add by lia. rewrite (Z.div_small (z mod 10)) by (apply Z.mod_pos_bound; lia).
    simpl. apply IH.
  - rewrite (Z.mul_comm 10), Z_mod_plus_full. do 2 f_equal. by rewrite Z.mod_mod by lia.
Qed.

Lemma parse_nat_app n z t acc :
  0 ≤ z < 10 ^ Z.of_nat n → parse_nat (digits n z ++ t) acc = parse_nat t (acc * 10 ^ Z.of_nat n + z).
Proof.
  revert z t acc. induction n as [|n IH]; intros z t acc Hz.
  - simpl in *. f_equal. lia.
  - rewrite Nat2Z.inj_succ, Z.pow_succ_r in * by lia. cbn [digits]. rewrite <-app_assoc, IH.
    + cbn [parse_nat app]. pose proof (Z.mod_pos_bound z 10). rewrite digit_of_digit by lia. simpl.
      f_equal. pose proof (Z.div_mod z 10). lia.
    + split; [apply Z.div_pos; lia|]. apply Z.div_lt_upper_bound; lia.
Qed.

Lemma parse_nat_digits n z : 0 ≤ z < 10 ^ Z.of_nat n → parse_nat (digits n z) 0 = Some z.
Proof. intros Hz. rewrite <-(app_nil_r (digits n z)), parse_nat_app by done. simpl. f_equal. Qed.

(** The number of digits [to_string] writes. *)
Lemma show_nat_digits fuel z :
  0 ≤ z < 10 ^ Z.of_nat fuel → (0 < fuel)%nat →
  ∃ n, show_nat fuel z = digits (S n) z ∧ z < 10 ^ (Z.of_nat n + 1) ∧ (n ≠ 0%nat → 10 ^ Z.of_nat n ≤ z) ∧
       (n < fuel)%nat.
Proof.
  revert z. induction fuel as [|fuel IH]; intros z Hz Hf; [lia|].
  rewrite Nat2Z.inj_succ, Z.pow_succ_r in Hz by lia. cbn [show_nat].
  destruct (Z.ltb_spec z 10).
  - exists 0%nat. split_and!; simpl; [done|lia|done|lia].
  - destruct fuel as [|fuel]; [simpl in Hz; lia|].
    destruct (IH (z / 10)) as (n & E & H1 & H2 & H3).
    { split; [apply Z.div_pos; lia|]. apply Z.div_lt_upper_bound; lia. } { lia. }
    exists (S n). rewrite E. pose proof (Z.div_mod z 10). pose proof (Z.mod_pos_bound z 10).
    rewrite Nat2Z.inj_succ, !Z.pow_add_r, !Z.pow_succ_r in * by lia. split_and!; [done|lia| |lia].
    intros _. destruct n as [|n]; [simpl; lia|]. specialize (H2 ltac:(lia)). lia.
Qed.

(** ** Reading integers *)

Lemma parse_int_digits lo hi n z :
  0 ≤ z < 10 ^ Z.of_nat n → (0 < n)%nat →
  parse_int lo hi (digits n z) = (if (lo <=? z) && (z <=? hi) then Some z else None) ∧
  parse_int lo hi (Byte.x2d :: digits n z) = (if (lo <=? - z) && (- z <=? hi) then Some (- z) else None).
Proof.
  intros Hz Hn. pose proof (parse_nat_digits n z Hz) as Hp.
  assert (∃ b l, digits n z = b :: l ∧ b ≠ Byte.x2b ∧ b ≠ Byte.x2d) as (b & l & E & Hb1 & Hb2).
  { pose proof (digits_Forall (λ b, b ≠ Byte.x2b ∧ b ≠ Byte.x2d) n z) as HF.
    pose proof (length_digits n z). destruct (digits n z) as [|b l]; [simpl in *; lia|].
    exists b, l. split; [done|].
    enough (∀ d, 0 ≤ d ≤ 9 → digit_byte d ≠ Byte.x2b ∧ digit_byte d ≠ Byte.x2d) as Hd'
      by exact (Forall_inv (HF Hd')).
    intros d Hd. by split; apply digit_not. }
  rewrite E in *. unfold parse_int.
  rewrite (bool_decide_eq_false_2 _ Hb1), (bool_decide_eq_false_2 _ Hb2). cbv zeta. rewrite Hp.
  rewrite bool_decide_eq_false_2, bool_decide_eq_true_2 by done. done.
Qed.

Lemma in_range_true lo hi z : lo ≤ z ≤ hi → (lo <=? z) && (z <=? hi) = true.
Proof. intros. rewrite !(proj2 (Z.leb_le _ _)) by lia. done. Qed.

(** The printed form of a 64-bit integer. *)
Lemma show_int_digits z :
  field_ok (BigInt z) → ∃ n, show_int z = (if z <? 0 then [Byte.x2d] else []) ++ digits (S n) (Z.abs z) ∧
    0 ≤ Z.abs z < 10 ^ Z.of_nat (S n) ∧ (n ≠ 0%nat → 10 ^ Z.of_nat n ≤ Z.abs z).
Proof.
  intros Hz. simpl in Hz. destruct (show_nat_digits 20 (Z.abs z)) as (n & E & H1 & H2 & _).
  { change (10 ^ Z.of_nat 20) with (10 ^ 20). lia. } { lia. }
  exists n. split; [|split; [|done]].
  - unfold show_int. rewrite <-E.
    destruct (Z.ltb_spec z 0); [rewrite Z.abs_neq by lia|rewrite Z.abs_eq by lia]; done.
  - rewrite Nat2Z.inj_succ. unfold Z.succ. lia.
Qed.

(** Every 64-bit integer reads back from its printed form. *)
Theorem int_text_roundtrip z : field_ok (BigInt z) → parse_i64 (show_int z) = Some z.
Proof.
  intros Hz. destruct (show_int_digits z Hz) as (n & -> & H1 & _). simpl in Hz. unfold parse_i64.
  destruct (parse_int_digits (- 2 ^ 63) (2 ^ 63 - 1) (S n) (Z.abs z) H1 ltac:(lia)) as [Hp Hm].
  destruct (Z.ltb_spec z 0).
  - cbn [app]. rewrite Hm, in_range_true by lia. f_equal. lia.
  - cbn [app]. rewrite Hp, in_range_true by lia. f_equal. lia.
Qed.

Lemma int_text_roundtrip_witness : parse_i64 (show_int (-42)) = Some (-42).
Proof. apply int_text_roundtrip. simpl. lia. Defined.

(** ** Decimals *)

Lemma split_dot_app l r :
  Forall (λ b, b ≠ Byte.x2e) l → Forall (λ b, b ≠ Byte.x2e) r →
  split_dot (l ++ Byte.x2e :: r) = [l; r] ∧ split_dot l = [l].
Proof.
  intros Hl Hr. assert (∀ k, Forall (λ b, b ≠ Byte.x2e) k → split_dot k = [k]) as Hk.
  { induction 1 as [|b k Hb _ IH]; [done|]. cbn [split_dot].
    by rewrite (bool_decide_eq_false_2 _ Hb), IH. }
  split; [|by apply Hk]. induction Hl as [|b l Hb _ IH]; cbn [app split_dot].
  - rewrite bool_decide_eq_true_2 by done. by rewrite (Hk r Hr).
  - by rewrite (bool_decide_eq_false_2 _ Hb), IH.
Qed.

Lemma digits_no_dot n z : Forall (λ b, b ≠ Byte.x2e) (digits n z).
Proof. apply digits_Forall. intros d. by apply digit_not. Qed.

(** Reading a decimal whose text has the two parts [i] and [s] digits of [f]. *)
Lemma read_decimal (i : list byte) integer f p s :
  0 < s ≤ 18 → 0 ≤ p - s ≤ 18 → Forall (λ b, b ≠ Byte.x2e) i → parse_i64 i = Some integer →
  Z.abs integer < 10 ^ (p - s) → 0 ≤ f < 10 ^ s →
  let w := integer * 10 ^ s + (if integer <? 0 then - f else f) in
  field_ok (BigInt w) → field_ok (BigInt (integer * 10 ^ s)) →
  from_str_to_decimal (i ++ Byte.x2e :: digits (Z.to_nat s) f) p s = Ret (Ok (Decimal w s)).
Proof.
  intros Hs Hp Hi Hpi Hint Hf w Hw Hsc. unfold from_str_to_decimal.
  rewrite (proj1 (split_dot_app i _ Hi (digits_no_dot _ _))). cbv zeta.
  change (2 <? zlen [i; digits (Z.to_nat s) f]) with false. cbv iota. cbn [lookup list_lookup unwrap].
  rewrite bind_Ret, Hpi.
  assert (10 ^ (p - s) ≤ 10 ^ 18) by (apply Z.pow_le_mono_r; lia).
  assert (10 ^ s ≤ 10 ^ 18) by (apply Z.pow_le_mono_r; lia).
  rewrite i64_ok by lia. rewrite bind_Ret, (pow10_ok (p - s)), bind_Ret by lia.
  rewrite (proj2 (Z.leb_gt _ _)) by lia.
  unfold parse_i64 at 1.
  rewrite (proj1 (parse_int_digits (- 2 ^ 63) (2 ^ 63 - 1) (Z.to_nat s) f
    ltac:(rewrite Z2Nat.id by lia; lia) ltac:(lia))), in_range_true by lia.
  rewrite (proj2 (Z.ltb_ge f 0)), (pow10_ok s), bind_Ret by lia. rewrite (proj2 (Z.leb_gt _ _)) by lia. simpl orb.
  cbv iota. unfold zlen. rewrite length_digits, cast_small by lia.
  rewrite (scale_up_ok f), Z2Nat.id, Z.sub_diag, (i64_ok (f * 10 ^ 0)), bind_Ret, Z.mul_1_r by lia.
  rewrite scale_up_ok, (i64_ok (integer * 10 ^ s)), bind_Ret by (exact Hsc || lia).
  replace (if integer <? 0 then _ else _) with w by (unfold w; destruct (integer <? 0); lia).
  rewrite (i64_ok w) by exact Hw. done.
Qed.

(** ** The printed form of a decimal *)

Section Printing.
Context (format_date : Z → list byte).

Lemma insert_dot l r n s :
  s = zlen r → n = Z.to_nat (zlen (l ++ r) - s) →
  take n (l ++ r) ++ [Byte.x2e] ++ drop n (l ++ r) = l ++ Byte.x2e :: r.
Proof. intros -> ->. rewrite take_app_length', drop_app_length' by len. done. Qed.

Lemma pad_digits n k z : 0 ≤ z < 10 ^ Z.of_nat n → replicate k (digit_byte 0) ++ digits n z = digits (k + n) z.
Proof. intros Hz. by rewrite digits_split, Z.div_small, digits_zero. Qed.

Lemma display_nonneg w s :
  field_ok (BigInt w) → 0 ≤ w → 0 < s → ∃ m,
    display format_date (Decimal w s) = digits (S m) (w / 10 ^ s) ++ Byte.x2e :: digits (Z.to_nat s) w ∧
    0 ≤ w / 10 ^ s < 10 ^ Z.of_nat (S m).
Proof.
  intros Hw Hpos Hs. destruct (show_int_digits w Hw) as (n & E & Hn & _).
  rewrite Z.abs_eq in * by lia. rewrite (proj2 (Z.ltb_ge w 0)) in E by lia. cbn [app] in E.
  unfold display. rewrite E. cbv zeta.
  set (pad := if _ <=? s then _ else 0).
  assert (0 ≤ pad ∧ s < pad + Z.of_nat (S n)) as [Hp1 Hp2].
  { unfold pad, zlen. rewrite length_digits. destruct (Z.leb_spec (Z.of_nat (S n)) s); lia. }
  rewrite pad_digits by done.
  exists (Z.to_nat pad + n - Z.to_nat s)%nat.
  replace (Z.to_nat pad + S n)%nat with (S (Z.to_nat pad + n - Z.to_nat s) + Z.to_nat s)%nat by lia.
  rewrite digits_split, Z2Nat.id by lia. split.
  - apply (insert_dot _ _ _ s); [unfold zlen; rewrite length_digits; lia|done].
  - split; [apply Z.div_pos; lia|]. apply Z.div_lt_upper_bound; [lia|].
    rewrite <-Z.pow_add_r by lia. eapply Z.lt_le_trans; [apply Hn|]. apply Z.pow_le_mono_r; lia.
Qed.

Lemma display_neg w s :
  field_ok (BigInt w) → w ≤ - 10 ^ s → 0 < s → ∃ m,
    display format_date (Decimal w s) =
      (Byte.x2d :: digits (S m) (- w / 10 ^ s)) ++ Byte.x2e :: digits (Z.to_nat s) (- w) ∧
    0 ≤ - w / 10 ^ s < 10 ^ Z.of_nat (S m).
Proof.
  intros Hw Hneg Hs. pose proof (Z.pow_pos_nonneg 10 s). destruct (show_int_digits w Hw) as (n & E & Hn & _).
  rewrite Z.abs_neq in * by lia. rewrite (proj2 (Z.ltb_lt w 0)) in E by lia. cbn [app] in E.
  assert (s < Z.of_nat (S n)) as Hlen.
  { apply (Z.pow_lt_mono_r_iff 10); lia. }
  unfold display. rewrite E. cbv zeta.
  rewrite (proj2 (Z.leb_gt _ s)) by (unfold zlen; cbn [length]; rewrite length_digits; lia).
  change (Z.to_nat 0) with 0%nat. cbn [replicate app].
  exists (n - Z.to_nat s)%nat.
  replace (digits (S n) (- w)) with (digits (S (n - Z.to_nat s)) (- w / 10 ^ s) ++ digits (Z.to_nat s) (- w)).
  - split.
    + apply (insert_dot (Byte.x2d :: _) _ _ s); [unfold zlen; rewrite length_digits; lia|done].
    + split; [apply Z.div_pos; lia|]. apply Z.div_lt_upper_bound; [lia|].
      rewrite <-Z.pow_add_r by lia. eapply Z.lt_le_trans; [apply Hn|]. apply Z.pow_le_mono_r; lia.
  - replace (10 ^ s) with (10 ^ Z.of_nat (Z.to_nat s)) by (f_equal; lia).
    rewrite <-digits_split. f_equal. lia.
Qed.

Lemma parse_nat_bad l b r acc :
  (∀ acc, parse_nat (b :: r) acc = None) → Forall (λ c, is_Some (digit_of c)) l →
  parse_nat (l ++ b :: r) acc = None.
Proof.
  intros Hb Hl. revert acc. induction Hl as [|c l [d Hd] _ IH]; intros acc; [by apply Hb|].
  cbn [app parse_nat]. rewrite Hd. simpl. apply IH.
Qed.
End Printing.

Section Reading.
Context (format_date : Z → list byte).

Lemma decimal_parts w s : 0 < s → w = w / 10 ^ s * 10 ^ s + w mod 10 ^ s ∧ 0 ≤ w mod 10 ^ s < 10 ^ s.
Proof.
  intros Hs. pose proof (Z.pow_pos_nonneg 10 s). split; [|apply Z.mod_pos_bound; lia].
  rewrite Z.mul_comm. apply Z.div_mod. lia.
Qed.

Lemma decimal_text_nonneg p w s :
  0 < s ≤ 18 → 0 ≤ p - s ≤ 18 → field_ok (BigInt w) → 0 ≤ w < 10 ^ p →
  from_str_to_decimal (display format_date (Decimal w s)) p s = Ret (Ok (Decimal w s)).
Proof.
  intros Hs Hp Hw [Hpos Hlt]. destruct (display_nonneg format_date w s) as (m & -> & Hm); [done|lia..|].
  destruct (decimal_parts w s) as [Ew Hf]; [lia|]. simpl in Hw.
  assert (0 ≤ w / 10 ^ s) as Hi by (apply Z.div_pos; lia).
  rewrite <-(digits_mod (Z.to_nat s) w), Z2Nat.id by lia.
  rewrite (read_decimal _ (w / 10 ^ s)); try done.
  - rewrite (proj2 (Z.ltb_ge _ 0)), <-Ew by lia. done.
  - apply digits_no_dot.
  - unfold parse_i64. rewrite (proj1 (parse_int_digits _ _ _ _ Hm ltac:(lia))), in_range_true; [done|].
    split; [lia|]. pose proof (Z.pow_pos_nonneg 10 s). nia.
  - rewrite Z.abs_eq by lia. apply Z.div_lt_upper_bound; [lia|]. rewrite <-Z.pow_add_r by lia.
    replace (s + (p - s)) with p by lia. done.
  - rewrite (proj2 (Z.ltb_ge _ 0)), <-Ew by lia. done.
  - simpl. lia.
Qed.

Lemma decimal_text_neg p w s :
  0 < s ≤ 18 → 0 ≤ p - s ≤ 18 → field_ok (BigInt w) → - 10 ^ p < w ≤ - 10 ^ s →
  from_str_to_decimal (display format_date (Decimal w s)) p s = Ret (Ok (Decimal w s)).
Proof.
  intros Hs Hp Hw [Hlt Hneg]. destruct (display_neg format_date w s) as (m & -> & Hm); [done|lia..|].
  destruct (decimal_parts (- w) s) as [Ew Hf]; [lia|]. simpl in Hw. pose proof (Z.pow_pos_nonneg 10 s).
  assert (0 < - w / 10 ^ s) as Hi by (apply Z.div_str_pos; lia).
  rewrite <-(digits_mod (Z.to_nat s) (- w)), Z2Nat.id by lia.
  rewrite (read_decimal _ (- (- w / 10 ^ s))); try done.
  - rewrite (proj2 (Z.ltb_lt _ 0)) by lia. do 3 f_equal. lia.
  - constructor; [done|]. apply digits_no_dot.
  - unfold parse_i64. rewrite (proj2 (parse_int_digits _ _ _ _ Hm ltac:(lia))), in_range_true; [done|]. nia.
  - rewrite Z.abs_neq, Z.opp_involutive by lia. apply Z.div_lt_upper_bound; [lia|].
    rewrite <-Z.pow_add_r by lia. replace (s + (p - s)) with p by lia. lia.
  - rewrite (proj2 (Z.ltb_lt _ 0)) by lia. simpl. lia.
  - simpl. lia.
Qed.
(** The text of a decimal between -1 and 0: the sign ends up alone before the point, or
    behind it. *)
Lemma display_fraction w s :
  field_ok (BigInt w) → - 10 ^ s < w < 0 → 0 < s → ∃ n,
    (0 < n)%nat ∧ 0 ≤ - w < 10 ^ Z.of_nat n ∧
    (display format_date (Decimal w s) = [Byte.x2d] ++ Byte.x2e :: digits n (- w) ∨
     ∃ k, display format_date (Decimal w s) =
       digits 1 0 ++ Byte.x2e :: (replicate k (digit_byte 0) ++ Byte.x2d :: digits n (- w))).
Proof.
  intros Hw Hneg Hs. destruct (show_int_digits w Hw) as (n & E & Hn & Hn').
  rewrite Z.abs_neq in * by lia. rewrite (proj2 (Z.ltb_lt w 0)) in E by lia. cbn [app] in E.
  assert (Z.of_nat (S n) ≤ s) as Hlen.
  { destruct n as [|n]; [lia|]. specialize (Hn' ltac:(lia)).
    assert (Z.of_nat (S n) < s); [|lia]. apply (Z.pow_lt_mono_r_iff 10); lia. }
  exists (S n). split; [lia|]. split; [done|]. unfold display. rewrite E. cbv zeta.
  assert (zlen (Byte.x2d :: digits (S n) (- w)) = Z.of_nat (S n) + 1) as Hz.
  { unfold zlen. cbn [length]. rewrite length_digits. lia. }
  rewrite Hz. destruct (Z.leb_spec (Z.of_nat (S n) + 1) s).
  - right. exists (Z.to_nat (s - Z.of_nat (S n) - 1)).
    replace (Z.to_nat (s + 1 - _)) with (S (Z.to_nat (s - Z.of_nat (S n) - 1))) by lia.
    cbn [replicate]. apply (insert_dot (digits 1 0) _ _ s); [|done].
    unfold zlen in *. rewrite length_app, length_replicate. lia.
  - left. change (Z.to_nat 0) with 0%nat. cbn [replicate app].
    apply (insert_dot [Byte.x2d] _ _ s); [|done]. unfold zlen. rewrite length_digits. lia.
Qed.

Lemma parse_sign_behind_zeros k n z :
  0 ≤ z < 10 ^ Z.of_nat n → (0 < n)%nat →
  parse_i64 (replicate k (digit_byte 0) ++ Byte.x2d :: digits n z) = None ∨
  ∃ f, parse_i64 (replicate k (digit_byte 0) ++ Byte.x2d :: digits n z) = Some f ∧ f = - z.
Proof.
  intros Hz Hn. destruct k as [|k]; cbn [replicate app].
  - unfold parse_i64. rewrite (proj2 (parse_int_digits _ _ _ _ Hz Hn)). destruct (_ && _); eauto.
  - left. unfold parse_i64, parse_int. rewrite !bool_decide_eq_false_2 by (by apply digit_not).
    cbv zeta. change (digit_byte 0 :: ?l) with ([digit_byte 0] ++ l).
    rewrite app_assoc, parse_nat_bad; [done|intros acc; reflexivity|].
    apply Forall_app. split; [|apply Forall_replicate]; [constructor; [|constructor]|]; by eexists.
Qed.

Lemma decimal_text_fraction p w s :
  0 < s ≤ 18 → 0 ≤ p - s ≤ 18 → field_ok (BigInt w) → - 10 ^ s < w < 0 →
  ∃ e, from_str_to_decimal (display format_date (Decimal w s)) p s = Ret (Err e).
Proof.
  intros Hs Hp Hw Hneg.
  destruct (display_fraction w s Hw Hneg ltac:(lia)) as (n & Hn & Hz & [->|[k ->]]); unfold from_str_to_decimal.
  - rewrite (proj1 (split_dot_app [Byte.x2d] _ ltac:(by constructor) (digits_no_dot _ _))). by eexists.
  - rewrite (proj1 (split_dot_app (digits 1 0) (replicate k (digit_byte 0) ++ Byte.x2d :: digits n (- w))
      (digits_no_dot _ _) ltac:(apply Forall_app; split; [by apply Forall_replicate|];
      constructor; [done|apply digits_no_dot]))).
    cbv zeta. set (part1 := _ ++ _). change (2 <? zlen [digits 1 0; part1]) with false. cbv iota.
    cbn [lookup list_lookup unwrap]. rewrite bind_Ret. change (parse_i64 (digits 1 0)) with (Some 0).
    cbv iota. change (i64 (Z.abs 0)) with (Ret 0).
    rewrite bind_Ret, (pow10_ok (p - s)), bind_Ret by lia.
    rewrite (proj2 (Z.leb_gt _ _)) by (simpl; apply Z.pow_pos_nonneg; lia).
    destruct (parse_sign_behind_zeros k n (- w) Hz Hn) as [E|(f & E & ->)]; fold part1 in E; rewrite E.
    + by eexists.
    + rewrite Z.opp_involutive, (proj2 (Z.ltb_lt w 0)) by lia. by eexists.
Qed.

(** A decimal with 1 to 18 places and within its precision is read back from its
    printed form, when it is not negative or at most -1. Between -1 and 0 the printed form
    is not a decimal: reading it is an error. *)
Theorem decimal_text_roundtrip p w s :
  0 < s ≤ 18 → 0 ≤ p - s ≤ 18 → field_ok (BigInt w) → Z.abs w < 10 ^ p →
  if (0 <=? w) || (w <=? - 10 ^ s)
  then from_str_to_decimal (display format_date (Decimal w s)) p s = Ret (Ok (Decimal w s))
  else ∃ e, from_str_to_decimal (display format_date (Decimal w s)) p s = Ret (Err e).
Proof.
  intros Hs Hp Hw Hlt. destruct (Z.leb_spec 0 w); [apply decimal_text_nonneg; done || lia|].
  destruct (Z.leb_spec w (- 10 ^ s)); simpl; [apply decimal_text_neg; done || lia|].
  apply decimal_text_fraction; done || lia.
Qed.
End Reading.

Lemma decimal_text_roundtrip_witness :
  from_str_to_decimal (display (λ _, []) (Decimal (-1250) 2)) 10 2 = Ret (Ok (Decimal (-1250) 2)) ∧
  ∃ e, from_str_to_decimal (display (λ _, []) (Decimal (-50) 2)) 10 2 = Ret (Err e).
Proof.
  split.
  - apply (decimal_text_roundtrip (λ _, []) 10 (-1250) 2); simpl; lia.
  - apply (decimal_text_roundtrip (λ _, []) 10 (-50) 2); simpl; lia.
Defined.
