(* ===== verification/Tuple.v ===== *)
(** * Tuples

    Models [common/src/tuple.rs] and the tuple converters of [common/src/physical]
    (the four converters have the same code). The bytes of a tuple come from an external
    CBOR library, which is a class with the one law the code relies on. *)

From S2P Require Import Prelude Common Field.
From stdpp Require Import strings.

Open Scope Z_scope.

(** Access by a [usize] index: [v.get(i)] and [v[i]]. *)
Definition nth_u {A} (l : list A) (i : Z) : option A :=
  if (0 <=? i) && (i <? zlen l) then l !! Z.to_nat i else None.

Lemma nth_u_lookup {A} (l : list A) i : 0 ≤ i → nth_u l i = l !! Z.to_nat i.
Proof.
  intros Hi. unfold nth_u. rewrite (proj2 (Z.leb_le 0 i) Hi). simpl.
  destruct (Z.ltb_spec i (zlen l)); [done|]. symmetry. apply lookup_ge_None_2. len.
Qed.

Lemma nth_u_is_Some {A} (l : list A) i : 0 ≤ i < zlen l → is_Some (nth_u l i).
Proof. intros Hi. rewrite nth_u_lookup by lia. apply lookup_lt_is_Some_2. unfold zlen in Hi. lia. Qed.

Lemma nth_u_nat {A} (l : list A) n : nth_u l (Z.of_nat n) = l !! n.
Proof. rewrite nth_u_lookup by lia. by rewrite Nat2Z.id. Qed.

Record Tuple := mkTuple {
  tid : Z;                       (* u64 *)
  value_id : option ValueId;
  field_vals : list Field
}.

#[global] Instance Tuple_eq_dec : EqDecision Tuple.
Proof. solve_decision. Defined.

Module Tup.

Definition new (fs : list Field) : Tuple := mkTuple 0 None fs.
Definition get_field (t : Tuple) (i : Z) : option Field := nth_u (field_vals t) i.
Definition set_field (t : Tuple) (i : Z) (f : Field) : outcome Tuple :=
  _ ← unwrap (nth_u (field_vals t) i);
  Ret (mkTuple (tid t) (value_id t) (<[Z.to_nat i := f]> (field_vals t))).
Definition len (t : Tuple) : Z := zlen (field_vals t).
Definition is_empty (t : Tuple) : bool := len t =? 0.
Definition merge (t u : Tuple) : Tuple := new (field_vals t ++ field_vals u).
Definition with_value_id (t : Tuple) (id : option ValueId) : Tuple :=
  mkTuple (tid t) id (field_vals t).

End Tup.

(** ** Tuples as bytes *)

(** [serde_cbor::to_vec] and [from_slice]. *)
Class TupleCodec := {
  tuple_to_bytes : Tuple → list byte;
  tuple_from_bytes : list byte → outcome Tuple
}.

(** The value id is not serialized ([skip_serializing]); everything else reads back. *)
Class TupleCodecLaws `{TupleCodec} := {
  tuple_codec_roundtrip : ∀ t, tuple_from_bytes (tuple_to_bytes t) = Ret (Tup.with_value_id t None)
}.

Module TupleConverter.
Section Converter.
Context `{TupleCodec}.

Definition write_tuple (t : Tuple) (buf : list byte) (offset : Z) : outcome (list byte * option Z) :=
  let bytes := tuple_to_bytes t in
  room ← usize_sub (zlen buf) offset;
  if room <? zlen bytes then Ret (buf, None)
  else
    buf ← copy_from_slice buf offset (offset + zlen bytes) bytes;
    Ret (buf, Some (zlen bytes)).

Definition read_tuple (buf : list byte) (offset len : Z) : outcome (result CrustyError Tuple) :=
  bs ← slice buf offset (offset + len);
  t ← tuple_from_bytes bs;
  Ret (Ok t).
End Converter.
End TupleConverter.
