(* ===== verification/ByteCode.v ===== *)
(** * Byte code for expressions

    Models [common/src/query/bytecode_expr.rs]: expressions as a sequence of codes for a
    stack machine over fields, with literals in a table of their own. *)

From S2P Require Import Prelude Common Ordering Field Tuple.
From stdpp Require Import strings.

Open Scope Z_scope.

Inductive ByteCodes :=
  | PushLit | PushField
  | BAdd | BSub | BMul | BDiv
  | BEq | BNeq | BLt | BGt | BLte | BGte
  | BAnd | BOr.

(** [code as usize]. *)
Definition as_usize (c : ByteCodes) : Z :=
  match c with
  | PushLit => 0 | PushField => 1
  | BAdd => 2 | BSub => 3 | BMul => 4 | BDiv => 5
  | BEq => 6 | BNeq => 7 | BLt => 8 | BGt => 9 | BLte => 10 | BGte => 11
  | BAnd => 12 | BOr => 13
  end.

Record ByteCodeExpr := mkByteCodeExpr { bytecodes : list Z; literals : list Field }.

Module Bce.

Definition new : ByteCodeExpr := mkByteCodeExpr [] [].
Definition add_code (e : ByteCodeExpr) (code : Z) : ByteCodeExpr :=
  mkByteCodeExpr (bytecodes e ++ [code]) (literals e).
Definition add_literal (e : ByteCodeExpr) (literal : Field) : ByteCodeExpr * Z :=
  (mkByteCodeExpr (bytecodes e) (literals e ++ [literal]), zlen (literals e)).
Definition is_empty (e : ByteCodeExpr) : bool := zlen (bytecodes e) =? 0.

(** The stack: its top first. *)
Definition pop (stack : list Field) : outcome (Field * list Field) :=
  match stack with f :: stack => Ret (f, stack) | [] => Panic end.

(** The dispatch functions: from the index behind the code and the stack to the new
    index and stack. The right operand is on top. *)
Definition push_field (codes : list Z) (record : list Field) (i : Z) (stack : list Field) :
  outcome (Z * list Field) :=
  c ← unwrap (nth_u codes i); f ← unwrap (nth_u record c); Ret (i + 1, f :: stack).
Definition push_lit (codes : list Z) (lits : list Field) (i : Z) (stack : list Field) :
  outcome (Z * list Field) :=
  c ← unwrap (nth_u codes i); f ← unwrap (nth_u lits c); Ret (i + 1, f :: stack).

Definition arith (op : Field → Field → outcome (result CrustyError Field)) (i : Z)
    (stack : list Field) : outcome (Z * list Field) :=
  '(r, stack) ← pop stack; '(l, stack) ← pop stack;
  res ← op l r; f ← result_unwrap res; Ret (i, f :: stack).
Definition compare (op : Field → Field → bool) (i : Z) (stack : list Field) :
  outcome (Z * list Field) :=
  '(r, stack) ← pop stack; '(l, stack) ← pop stack; Ret (i, from_bool (op l r) :: stack).
Definition logic (op : Field → Field → outcome Field) (i : Z) (stack : list Field) :
  outcome (Z * list Field) :=
  '(r, stack) ← pop stack; '(l, stack) ← pop stack; f ← op l r; Ret (i, f :: stack).

Definition field_eqb (l r : Field) : bool := bool_decide (l = r).
Definition field_neqb (l r : Field) : bool := negb (bool_decide (l = r)).

(** [STATIC_DISPATCHER]: the functions at the index of their code. *)
Definition STATIC_DISPATCHER (codes : list Z) (lits record : list Field) :
  list (Z → list Field → outcome (Z * list Field)) :=
  [ push_lit codes lits; push_field codes record;
    arith field_add; arith field_sub; arith field_mul; arith field_div;
    compare field_eqb; compare field_neqb;
    compare (cmp_lt field_cmp); compare (cmp_gt field_cmp);
    compare (cmp_le field_cmp); compare (cmp_ge field_cmp);
    logic field_and; logic field_or ].

(** The loop of [eval], once per iteration of [fuel]. *)
Fixpoint run (fuel : nat) (codes : list Z) (lits record : list Field) (i : Z) (stack : list Field) :
  outcome (list Field) :=
  if i <? zlen codes then
    match fuel with
    | O => Panic
    | S fuel =>
        opcode ← unwrap (nth_u codes i);
        f ← unwrap (nth_u (STATIC_DISPATCHER codes lits record) opcode);
        '(i, stack) ← f (i + 1) stack;
        run fuel codes lits record i stack
    end
  else Ret stack.

(** Every iteration advances the index, so that one per code is enough. *)
Definition eval (e : ByteCodeExpr) (record : Tuple) : outcome Field :=
  _ ← guard_or_panic (negb (is_empty e));
  stack ← run (length (bytecodes e)) (bytecodes e) (literals e) (field_vals record) 0 [];
  '(f, _) ← pop stack;
  Ret f.

Definition colidx_expr (colidx : Z) : ByteCodeExpr :=
  add_code (add_code new (as_usize PushField)) colidx.

End Bce.

(** ** The machine always stops *)

Lemma dispatch_advances codes lits record opcode f i stack i' stack' :
  nth_u (Bce.STATIC_DISPATCHER codes lits record) opcode = Some f →
  f i stack = Ret (i', stack') → i ≤ i'.
Proof.
  unfold nth_u. destruct (_ && _); [|discriminate]. intros Hf.
  apply list_elem_of_lookup_2 in Hf. unfold Bce.STATIC_DISPATCHER in Hf.
  repeat (apply elem_of_cons in Hf as [->|Hf]); [..|by apply elem_of_nil in Hf];
    unfold Bce.push_lit, Bce.push_field, Bce.arith, Bce.compare, Bce.logic, Bce.pop; intros E;
    repeat (apply bind_Ret_inv in E as ([] & _ & E) || apply bind_Ret_inv in E as (? & _ & E));
    simplify_eq; lia.
Qed.

(** More iterations than there are codes left change nothing. *)
Lemma run_fuel codes lits record fuel fuel' i stack :
  (zlen codes - i ≤ Z.of_nat fuel) → (zlen codes - i ≤ Z.of_nat fuel') →
  Bce.run fuel codes lits record i stack = Bce.run fuel' codes lits record i stack.
Proof.
  revert fuel' i stack. induction fuel as [|fuel IH]; intros fuel' i stack H1 H2.
  - destruct fuel' as [|fuel']; [done|]. cbn [Bce.run]. by rewrite (proj2 (Z.ltb_ge _ _)) by lia.
  - destruct fuel' as [|fuel']; cbn [Bce.run]; destruct (Z.ltb_spec i (zlen codes)); try done; [lia|].
    destruct (unwrap (nth_u codes i)) as [opcode|]; [|done]. simpl.
    destruct (nth_u _ opcode) as [f|] eqn:Ef; [|done]. simpl.
    destruct (f (i + 1) stack) as [[i' stack']|] eqn:E; [|done]. simpl.
    pose proof (dispatch_advances _ _ _ _ _ _ _ _ _ Ef E). apply IH; lia.
Qed.
