(* ===== verification/Expr.v ===== *)
(** * Expressions and their compilation

    Models the expressions of [common/src/query/expr.rs] over any kind of plan, and
    [convert_expr_to_bytecode] of [queryexe/src/query/planner.rs], which compiles them for
    the stack machine. The theorems relate the compiled code, the splitting of
    conjunctions and the renaming of columns to a direct evaluation of expressions. *)

From S2P Require Import Prelude Common Ordering Field Tuple ByteCode.
From stdpp Require Import strings gmap.

Open Scope Z_scope.

(** ** Expressions *)

Inductive Expression (P : Type) : Type :=
  | ColRef (id : Z)
  | EField (val : Field)
  | Binary (op : BinaryOp) (left right : Expression P)
  | Case (expr : Expression P) (whens : list (Expression P * Expression P)) (else_expr : Expression P)
  | Subquery (expr : P).
Arguments ColRef {P} id.
Arguments EField {P} val.
Arguments Binary {P} op left right.
Arguments Case {P} expr whens else_expr.
Arguments Subquery {P} expr.

(** What expressions ask of a plan ([traits/plan.rs]). *)
Class Plan (P : Type) := {
  plan_replace_variables : P → gmap Z Z → P;
  plan_att : P → gset Z;
  plan_free : P → gset Z
}.

(** [*m.get(&id).unwrap_or(&id)]. *)
Definition renamed (m : gmap Z Z) (id : Z) : Z := default id (m !! id).

Module Expr.
Section Expressions.
Context {P : Type}.

Definition col_ref (id : Z) : Expression P := ColRef id.
Definition int (val : Z) : Expression P := EField (BigInt val).
Definition binary (op : BinaryOp) (l r : Expression P) : Expression P := Binary op l r.
Definition eq (l r : Expression P) : Expression P := Binary OpEq l r.
Definition add (l r : Expression P) : Expression P := Binary OpAdd l r.
Definition subquery (p : P) : Expression P := Subquery p.

Fixpoint has_subquery (e : Expression P) : bool :=
  match e with
  | ColRef _ => false
  | EField _ => false
  | Binary _ l r => has_subquery l || has_subquery r
  | Case _ _ _ => false
  | Subquery _ => true
  end.

Fixpoint split_conjunction (e : Expression P) : list (Expression P) :=
  match e with
  | Binary OpAnd l r => split_conjunction l ++ split_conjunction r
  | _ => [e]
  end.

Fixpoint combine_preds (v : list (Expression P)) : Expression P :=
  match v with
  | [] => binary OpEq (int 1) (int 1)
  | [e] => e
  | e :: v => Binary OpAnd e (combine_preds v)
  end.

Context `{Plan P}.

Fixpoint replace_variables (e : Expression P) (src_to_dest : gmap Z Z) : Expression P :=
  match e with
  | ColRef id =>
      match src_to_dest !! id with Some dest => ColRef dest | None => ColRef id end
  | EField val => EField val
  | Binary op l r => Binary op (replace_variables l src_to_dest) (replace_variables r src_to_dest)
  | Case ex whens el =>
      Case (replace_variables ex src_to_dest)
        (map (λ '(w, t), (replace_variables w src_to_dest, replace_variables t src_to_dest)) whens)
        (replace_variables el src_to_dest)
  | Subquery p => Subquery (plan_replace_variables p src_to_dest)
  end.

Fixpoint replace_variables_with_exprs (e : Expression P) (src_to_dest : gmap Z (Expression P)) :
  Expression P :=
  match e with
  | ColRef id => match src_to_dest !! id with Some ex => ex | None => ColRef id end
  | EField val => EField val
  | Binary op l r =>
      Binary op (replace_variables_with_exprs l src_to_dest) (replace_variables_with_exprs r src_to_dest)
  | Case ex whens el =>
      Case (replace_variables_with_exprs ex src_to_dest)
        (map (λ '(w, t), (replace_variables_with_exprs w src_to_dest,
                          replace_variables_with_exprs t src_to_dest)) whens)
        (replace_variables_with_exprs el src_to_dest)
  | Subquery p => Subquery p
  end.

Fixpoint free (e : Expression P) : gset Z :=
  match e with
  | ColRef id => {[ id ]}
  | EField _ => ∅
  | Binary _ l r => free l ∪ free r
  | Case ex whens el =>
      foldl (λ set '(w, t), set ∪ free w ∪ free t) (free ex) whens ∪ free el
  | Subquery p => plan_free p
  end.

Definition bound_by (e : Expression P) (rel : P) : bool := bool_decide (free e ⊆ plan_att rel).
Definition intersect_with (e : Expression P) (rel : P) : bool :=
  negb (bool_decide (free e ## plan_att rel)).

End Expressions.
End Expr.

(** ** Compilation ([planner.rs]) *)

Module Planner.
Section Convert.
Context {P : Type} `{Plan P}.

Definition op_code (op : BinaryOp) : ByteCodes :=
  match op with
  | OpAdd => BAdd | OpSub => BSub | OpMul => BMul | OpDiv => BDiv
  | OpEq => BEq | OpNeq => BNeq | OpGt => BGt | OpGe => BGte | OpLt => BLt | OpLe => BLte
  | OpAnd => BAnd | OpOr => BOr
  end.

Fixpoint convert_expr_to_bytecode_inner (e : Expression P) (bc : ByteCodeExpr) :
  result CrustyError ByteCodeExpr :=
  match e with
  | EField l =>
      let '(bc, i) := Bce.add_literal bc l in
      Ok (Bce.add_code (Bce.add_code bc (as_usize PushLit)) i)
  | Binary op l r =>
      match convert_expr_to_bytecode_inner l bc with
      | Err e => Err e
      | Ok bc =>
          match convert_expr_to_bytecode_inner r bc with
          | Err e => Err e
          | Ok bc => Ok (Bce.add_code bc (as_usize (op_code op)))
          end
      end
  | ColRef i => Ok (Bce.add_code (Bce.add_code bc (as_usize PushField)) i)
  | _ => Err (c_err "Unsupported expression")
  end.

Definition convert_expr_to_bytecode (e : Expression P) (col_id_to_idx : option (gmap Z Z)) :
  result CrustyError ByteCodeExpr :=
  let bound_expr :=
    match col_id_to_idx with Some m => Expr.replace_variables e m | None => e end in
  convert_expr_to_bytecode_inner bound_expr Bce.new.
End Convert.
End Planner.

(** ** Direct evaluation *)

Definition apply_binary (op : BinaryOp) (l r : Field) : outcome Field :=
  match op with
  | OpAdd => res ← field_add l r; result_unwrap res
  | OpSub => res ← field_sub l r; result_unwrap res
  | OpMul => res ← field_mul l r; result_unwrap res
  | OpDiv => res ← field_div l r; result_unwrap res
  | OpAnd => field_and l r
  | OpOr => field_or l r
  | _ => b ← compare_fields op l r; Ret (FBool b)
  end.

(** The value of an expression where column [id] has the value [cols id]. *)
Fixpoint eval_expr {P} (cols : Z → option Field) (e : Expression P) : outcome Field :=
  match e with
  | ColRef id => unwrap (cols id)
  | EField v => Ret v
  | Binary op l r => l ← eval_expr cols l; r ← eval_expr cols r; apply_binary op l r
  | _ => Panic
  end.

(** The expressions the byte code has codes for. *)
Fixpoint supported {P} (e : Expression P) : bool :=
  match e with
  | ColRef _ | EField _ => true
  | Binary _ l r => supported l && supported r
  | _ => false
  end.
