(* ===== verification/ExprCorrect.v ===== *)
(** * Expressions: compilation and rewriting are correct

    The stack machine computes what direct evaluation of the expression gives, panics
    included; renaming columns and splitting conjunctions preserve the value. *)

From S2P Require Import Prelude Common Ordering Field Tuple ByteCode Expr.
From stdpp Require Import strings gmap.

Open Scope Z_scope.

(** ** The machine, one code at a time *)

Section Machine.
Context (codes : list Z) (lits record : list Field).

(** The machine from index [i] on, with enough fuel. *)
Definition machine (i : Z) (stack : list Field) : outcome (list Field) :=
  Bce.run (Z.to_nat (zlen codes - i)) codes lits record i stack.

Lemma machine_step i stack opcode f :
  0 ≤ i → codes !! Z.to_nat i = Some opcode →
  nth_u (Bce.STATIC_DISPATCHER codes lits record) opcode = Some f →
  machine i stack = ('(i', stack') ← f (i + 1) stack; machine i' stack').
Proof.
  intros Hi Hc Hf. assert (i < zlen codes) as Hlt.
  { apply lookup_lt_Some in Hc. len. }
  unfold machine. replace (Z.to_nat (zlen codes - i)) with (S (Z.to_nat (zlen codes - i - 1))) by lia.
  cbn [Bce.run]. rewrite (proj2 (Z.ltb_lt _ _) Hlt), nth_u_lookup, Hc by done. simpl. rewrite Hf. simpl.
  destruct (f (i + 1) stack) as [[i' stack']|] eqn:E; [|done]. simpl.
  pose proof (dispatch_advances _ _ _ _ _ _ _ _ _ Hf E). apply run_fuel; lia.
Qed.

Lemma machine_end i stack : zlen codes ≤ i → machine i stack = Ret stack.
Proof.
  intros Hi. unfold machine. replace (Z.to_nat _) with O by lia. simpl.
  by rewrite (proj2 (Z.ltb_ge _ _)) by lia.
Qed.

Lemma machine_push_field pre post c stack :
  codes = pre ++ as_usize PushField :: c :: post →
  machine (zlen pre) stack =
    (v ← unwrap (nth_u record c); machine (zlen pre + 2) (v :: stack)).
Proof.
  intros Ec. rewrite (machine_step _ _ 1 (Bce.push_field codes record)); [|apply zlen_nonneg| |done].
  - unfold Bce.push_field. rewrite nth_u_lookup by (pose proof (zlen_nonneg pre); lia).
    replace (codes !! Z.to_nat (zlen pre + 1)) with (Some c).
    + simpl. destruct (nth_u record c); [|done]. simpl. f_equal. lia.
    + rewrite Ec, lookup_app_r by len. replace (_ - _)%nat with 1%nat by len. done.
  - rewrite Ec, lookup_app_r by len. replace (_ - _)%nat with 0%nat by len. done.
Qed.

Lemma machine_push_lit pre post c stack :
  codes = pre ++ as_usize PushLit :: c :: post →
  machine (zlen pre) stack =
    (v ← unwrap (nth_u lits c); machine (zlen pre + 2) (v :: stack)).
Proof.
  intros Ec. rewrite (machine_step _ _ 0 (Bce.push_lit codes lits)); [|apply zlen_nonneg| |done].
  - unfold Bce.push_lit. rewrite nth_u_lookup by (pose proof (zlen_nonneg pre); lia).
    replace (codes !! Z.to_nat (zlen pre + 1)) with (Some c).
    + simpl. destruct (nth_u lits c); [|done]. simpl. f_equal. lia.
    + rewrite Ec, lookup_app_r by len. replace (_ - _)%nat with 1%nat by len. done.
  - rewrite Ec, lookup_app_r by len. replace (_ - _)%nat with 0%nat by len. done.
Qed.

Lemma machine_binary pre post op l r stack :
  codes = pre ++ as_usize (Planner.op_code op) :: post →
  machine (zlen pre) (r :: l :: stack) =
    (v ← apply_binary op l r; machine (zlen pre + 1) (v :: stack)).
Proof.
  intros Ec. assert (codes !! Z.to_nat (zlen pre) = Some (as_usize (Planner.op_code op))) as Hc.
  { rewrite Ec, lookup_app_r by len. replace (_ - _)%nat with 0%nat by len. done. }
  destruct op; (rewrite (machine_step _ _ _ _ (zlen_nonneg pre) Hc eq_refl); cbn [apply_binary];
    unfold Bce.arith, Bce.compare, Bce.logic; cbn [Bce.pop mbind outcome_bind]);
    try done.
  - by destruct (field_add l r) as [[]|].
  - by destruct (field_sub l r) as [[]|].
  - by destruct (field_mul l r) as [[]|].
  - by destruct (field_div l r) as [[]|].
  - by destruct (field_and l r).
  - by destruct (field_or l r).
Qed.
End Machine.

(** ** Compilation *)

Section Compile.
Context {P : Type} `{Plan P}.

(** What the compiler adds to the code and to the literals, and what the added code does. *)
Definition compiled (e : Expression P) (bc bc' : ByteCodeExpr) : Prop :=
  ∃ C L, C ≠ [] ∧ bytecodes bc' = bytecodes bc ++ C ∧ literals bc' = literals bc ++ L ∧
    ∀ codes post lits' record stack,
      codes = bytecodes bc' ++ post →
      machine codes (literals bc' ++ lits') record (zlen (bytecodes bc)) stack =
        (v ← eval_expr (nth_u record) e;
         machine codes (literals bc' ++ lits') record (zlen (bytecodes bc')) (v :: stack)).

Lemma compile_col i bc :
  compiled (ColRef i) bc (Bce.add_code (Bce.add_code bc (as_usize PushField)) i).
Proof.
  exists [as_usize PushField; i], []. unfold Bce.add_code. cbn [bytecodes literals].
  rewrite <-app_assoc, app_nil_r. split_and!; try done. intros codes post lits' record stack Hc.
  rewrite (machine_push_field _ _ _ (bytecodes bc) post i) by (rewrite Hc, <-app_assoc; done).
  by rewrite zlen_app.
Qed.

Lemma compile_lit l bc :
  compiled (EField l) bc
    (Bce.add_code (Bce.add_code (Bce.add_literal bc l).1 (as_usize PushLit)) (zlen (literals bc))).
Proof.
  exists [as_usize PushLit; zlen (literals bc)], [l]. unfold Bce.add_code, Bce.add_literal.
  cbn [bytecodes literals fst]. rewrite <-app_assoc. split_and!; try done.
  intros codes post lits' record stack Hc.
  rewrite (machine_push_lit _ _ _ (bytecodes bc) post (zlen (literals bc)))
    by (rewrite Hc, <-app_assoc; done).
  unfold zlen at 2. rewrite nth_u_nat, <-app_assoc, lookup_app_r, Nat.sub_diag by lia. simpl.
  by rewrite zlen_app.
Qed.

Lemma compile_binary op l r bc bc1 bc2 :
  compiled l bc bc1 → compiled r bc1 bc2 →
  compiled (Binary op l r) bc (Bce.add_code bc2 (as_usize (Planner.op_code op))).
Proof.
  intros (C1 & L1 & _ & E1 & F1 & H1) (C2 & L2 & _ & E2 & F2 & H2).
  exists (C1 ++ C2 ++ [as_usize (Planner.op_code op)]), (L1 ++ L2).
  unfold Bce.add_code. cbn [bytecodes literals]. rewrite E2, E1, F2, F1, <-!app_assoc. split_and!; try done.
  { by destruct C1, C2. }
  intros codes post lits' record stack Hc. rewrite <-!app_assoc.
  specialize (H1 codes (C2 ++ [as_usize (Planner.op_code op)] ++ post) (L2 ++ lits') record stack).
  rewrite F1, E1, <-!app_assoc in H1. rewrite H1 by (rewrite Hc, <-!app_assoc; done).
  destruct (eval_expr (nth_u record) l) as [vl|] eqn:El; [|simpl; by rewrite El]. simpl. rewrite El. simpl.
  specialize (H2 codes ([as_usize (Planner.op_code op)] ++ post) lits' record (vl :: stack)).
  rewrite F2, F1, E2, E1, <-!app_assoc in H2. rewrite H2 by (rewrite Hc, <-!app_assoc; done).
  destruct (eval_expr (nth_u record) r) as [vr|]; [|done]. simpl.
  rewrite (machine_binary _ _ _ _ post op) by (rewrite Hc, <-!app_assoc; done).
  destruct (apply_binary op vl vr); [|done]. simpl. f_equal. by rewrite !zlen_app, !Z.add_assoc.
Qed.

Lemma convert_inner_ok (e : Expression P) bc :
  if supported e
  then ∃ bc', Planner.convert_expr_to_bytecode_inner e bc = Ok bc' ∧ compiled e bc bc'
  else ∃ err, Planner.convert_expr_to_bytecode_inner e bc = Err err.
Proof.
  revert bc. induction e as [id|val|op l IHl r IHr|ex IHex whens el IHel|p]; intros bc; simpl.
  - eexists. split; [done|]. apply compile_col.
  - eexists. split; [done|]. apply compile_lit.
  - specialize (IHl bc). destruct (supported l); simpl; [|by destruct IHl as [err ->]; eauto].
    destruct IHl as (bc1 & -> & H1). specialize (IHr bc1).
    destruct (supported r); simpl; [|by destruct IHr as [err ->]; eauto].
    destruct IHr as (bc2 & -> & H2). eauto using compile_binary.
  - eauto.
  - eauto.
Qed.

(** Running the code of an expression on its own. *)
Lemma eval_compiled e bc t :
  compiled e Bce.new bc → Bce.eval bc t = eval_expr (nth_u (field_vals t)) e.
Proof.
  intros (C & L & HC & E & F & HM). cbn in E, F. unfold Bce.eval, Bce.is_empty.
  rewrite (proj2 (Z.eqb_neq _ _)) by (rewrite E; destruct C; [done|len]). simpl.
  specialize (HM (bytecodes bc) [] [] (field_vals t) []).
  rewrite !app_nil_r in HM. specialize (HM eq_refl). unfold machine in HM at 1.
  change (zlen (bytecodes Bce.new)) with 0 in HM. rewrite Z.sub_0_r in HM. unfold zlen in HM at 1.
  rewrite Nat2Z.id in HM. rewrite HM.
  destruct (eval_expr (nth_u (field_vals t)) e); [|done]. simpl. by rewrite machine_end.
Qed.

(** ** Renaming *)

Lemma eval_replace (cols : Z → option Field) (e : Expression P) m :
  supported e = true →
  eval_expr cols (Expr.replace_variables e m) = eval_expr (λ id, cols (renamed m id)) e.
Proof.
  induction e as [id|val|op l IHl r IHr|ex IHex whens el IHel|p]; simpl; intros Hs; try done.
  - unfold renamed. by destruct (m !! id).
  - apply andb_true_iff in Hs as [Hl Hr]. by rewrite IHl, IHr.
Qed.

Lemma supported_replace (e : Expression P) m : supported (Expr.replace_variables e m) = supported e.
Proof.
  induction e as [id|val|op l IHl r IHr|ex IHex whens el IHel|p]; simpl; try done.
  - by destruct (m !! id).
  - by rewrite IHl, IHr.
Qed.

Lemma eval_expr_ext (c1 c2 : Z → option Field) (e : Expression P) :
  (∀ id, c1 id = c2 id) → eval_expr c1 e = eval_expr c2 e.
Proof.
  intros Hc. induction e as [id|val|op l IHl r IHr|ex IHex whens el IHel|p]; simpl; try done.
  - by rewrite Hc.
  - by rewrite IHl, IHr.
Qed.

(** The value of an expression depends on its free columns only. *)
Lemma eval_expr_free (c1 c2 : Z → option Field) (e : Expression P) :
  (∀ id, id ∈ Expr.free e → c1 id = c2 id) → eval_expr c1 e = eval_expr c2 e.
Proof.
  induction e as [id|val|op l IHl r IHr|ex IHex whens el IHel|p]; simpl; intros Hc; try done.
  - rewrite Hc by set_solver. done.
  - rewrite IHl, IHr; set_solver.
Qed.

(** The column values a compiled expression sees under a map from column ids to indexes. *)
Definition bound_cols (m : option (gmap Z Z)) (t : Tuple) (id : Z) : option Field :=
  nth_u (field_vals t) (match m with Some m => renamed m id | None => id end).

Lemma convert_ok (e : Expression P) m :
  if supported e
  then ∃ bc, Planner.convert_expr_to_bytecode e m = Ok bc ∧
         ∀ t, Bce.eval bc t = eval_expr (bound_cols m t) e
  else ∃ err, Planner.convert_expr_to_bytecode e m = Err err.
Proof.
  unfold Planner.convert_expr_to_bytecode. destruct m as [m|].
  - pose proof (convert_inner_ok (Expr.replace_variables e m) Bce.new) as Hc.
    rewrite supported_replace in Hc. destruct (supported e) eqn:Es; [|done].
    destruct Hc as (bc & E & HC). exists bc. split; [done|]. intros t.
    rewrite (eval_compiled _ _ t HC), eval_replace by done. done.
  - pose proof (convert_inner_ok e Bce.new) as Hc. destruct (supported e); [|done].
    destruct Hc as (bc & E & HC). exists bc. split; [done|]. intros t. by rewrite (eval_compiled _ _ t HC).
Qed.

(** C18: Compiling an expression for the stack machine succeeds exactly for the expressions
    made of columns, literals and binary operators, and the code computes on every tuple what
    direct evaluation of the expression gives, panics included. CASE expressions and
    subqueries, and expressions that contain them, are refused with an error. *)
Theorem bytecode_correct (e : Expression P) (m : option (gmap Z Z)) :
  match Planner.convert_expr_to_bytecode e m with
  | Ok bc => supported e = true ∧ ∀ t, Bce.eval bc t = eval_expr (bound_cols m t) e
  | Err _ => supported e = false
  end.
Proof.
  pose proof (convert_ok e m) as Hc. destruct (supported e).
  - by destruct Hc as (bc & -> & Hc).
  - by destruct Hc as (err & ->).
Qed.

(** ** Conjunctions *)

(** [e] evaluates to a boolean, which is the conjunction of those of [es]. *)
Definition all_true (cols : Z → option Field) (es : list (Expression P)) (b : bool) : Prop :=
  ∃ bs, Forall2 (λ e b, eval_expr cols e = Ret (FBool b)) es bs ∧ b = forallb id bs.

Lemma all_true_app cols es1 es2 b1 b2 :
  all_true cols es1 b1 → all_true cols es2 b2 → all_true cols (es1 ++ es2) (b1 && b2).
Proof.
  intros (bs1 & H1 & ->) (bs2 & H2 & ->). exists (bs1 ++ bs2). split; [by apply Forall2_app|].
  by rewrite forallb_app.
Qed.

Lemma split_conjunction_ok cols (e : Expression P) b :
  eval_expr cols e = Ret (FBool b) → all_true cols (Expr.split_conjunction e) b.
Proof.
  revert b.
  assert (∀ e b, eval_expr cols e = Ret (FBool b) → all_true cols [e] b) as Hone.
  { intros e' b E. exists [b]. split; [by repeat constructor|]. simpl. by destruct b. }
  induction e as [id|val|op l IHl r IHr|ex IHex whens el IHel|p]; intros b E; try by apply Hone.
  destruct op; try by apply Hone. simpl in E |- *.
  apply bind_Ret_inv in E as (vl & El & E). apply bind_Ret_inv in E as (vr & Er & E).
  destruct vl as [| | | | | | |bl|]; try done. destruct vr as [| | | | | | |br|]; try done.
  injection E as <-. apply all_true_app; auto.
Qed.

Lemma combine_preds_ok cols (es : list (Expression P)) b :
  all_true cols es b → eval_expr cols (Expr.combine_preds es) = Ret (FBool b).
Proof.
  intros (bs & HF & ->). induction HF as [|e b es bs He HF IH]; [done|].
  destruct HF as [|e' b' es bs He' HF]; simpl in *.
  - rewrite He. by destruct b.
  - rewrite He, IH. done.
Qed.

(** Splitting a predicate into its conjuncts and combining them again preserves its
    value: when the predicate evaluates to a boolean, so does every conjunct, the boolean
    is their conjunction, and so is the value of the recombined predicate. *)
Theorem conjunction_roundtrip cols (e : Expression P) b :
  eval_expr cols e = Ret (FBool b) →
  (∃ bs, Forall2 (λ c b, eval_expr cols c = Ret (FBool b)) (Expr.split_conjunction e) bs ∧
         b = forallb id bs) ∧
  eval_expr cols (Expr.combine_preds (Expr.split_conjunction e)) = Ret (FBool b).
Proof.
  intros E. pose proof (split_conjunction_ok cols e b E) as Hs. split; [exact Hs|].
  by apply combine_preds_ok.
Qed.
End Compile.
