(* ===== verification/OpIterator.v ===== *)
(** * Operators: the interface

    Models the [OpIterator] trait of [queryexe/src/opiterator/mod.rs] and the part of the
    storage interface scans use (iterators over a container). The laws say what operators
    promise to each other: which tuples an operator gives, one per call of [next], and
    that they come again after a [rewind] that was announced.

    Scans hold resources of the storage manager (the heap store latches the page an
    iterator stands on), so that the laws speak of the list of live iterators: every
    operator owns some of them and leaves all others as they are. *)

From S2P Require Import Prelude Common Field Tuple ByteCode.

Open Scope Z_scope.

(** A stored record with its id. *)
Abbreviation item := (list byte * ValueId)%type.

(** ** Iterators of a storage manager *)

(** [get_iterator], [get_iterator_from], [Iterator::next] and [drop]. *)
Class ScanTrait (SM : Type) := {
  scan_iter : Type;
  sc_get_iterator : SM → Z → outcome scan_iter;
  sc_get_iterator_from : SM → Z → ValueId → outcome scan_iter;
  sc_next : SM → scan_iter → outcome (SM * scan_iter * option item);
  sc_drop : SM → scan_iter → outcome SM
}.

(** The live iterators, each with what it still yields. *)
Abbreviation resources SM := (list (scan_iter (SM := SM) * list item)).

(** The laws, where a scan of container [c] yields [tbl c]. [sc_view s l]: the iterators
    of [l] are live in state [s]. Iterators do not disturb each other; [sc_fits n] says that
    [n] of them may be live at a time (a page latch counts its holders). *)
Class ScanLaws (SM : Type) `{ScanTrait SM} (tbl : Z → option (list item)) := {
  sc_view : SM → resources SM → Prop;
  sc_fits : nat → Prop;
  sc_fits_le n n' : (n ≤ n')%nat → sc_fits n' → sc_fits n;
  sc_view_perm s l l' : l ≡ₚ l' → sc_view s l → sc_view s l';
  sc_get_ok s l c items :
    tbl c = Some items → sc_view s l → sc_fits (S (length l)) →
    ∃ it, sc_get_iterator s c = Ret it ∧ sc_view s ((it, items) :: l);
  sc_next_ok s l it items :
    sc_view s ((it, items) :: l) →
    ∃ s' it', sc_next s it = Ret (s', it', head items) ∧ sc_view s' ((it', tail items) :: l);
  sc_drop_ok s l it items :
    sc_view s ((it, items) :: l) → ∃ s', sc_drop s it = Ret s' ∧ sc_view s' l
}.

(** ** Operators *)

Class OpIterator (SM C : Type) := {
  configure : bool → C → C;
  open : SM → C → outcome (SM * C * result CrustyError unit);
  next : SM → C → outcome (SM * C * result CrustyError (option Tuple));
  close : SM → C → outcome (SM * C * result CrustyError unit);
  rewind : SM → C → outcome (SM * C * result CrustyError unit);
  get_schema : C → TableSchema
}.

(** The [?] operator: an error ends the function, in the state reached. *)
Definition or_return {SM C A B} (s : SM) (c : C) (r : result CrustyError A)
    (k : A → outcome (SM * C * result CrustyError B)) : outcome (SM * C * result CrustyError B) :=
  match r with Ok a => k a | Err e => Ret (s, c, Err e) end.

Notation "'let?' x := r 'at' s , c 'in' k" := (or_return s c r (λ x, k))
  (at level 200, x pattern, r at level 100, s at level 100, c at level 100, k at level 200,
   format "'let?'  x  :=  r  'at'  s ,  c  'in' '//' k").

(** What an operator promises about its tuples.
    - [built c all]: as constructed; it will give [all];
    - [configured c w all]: configured, and not open; [w] tells whether rewinds may follow;
    - [live c w all rest res]: open, with [rest] of [all] still to come, owning [res];
    - [closed c]: closed again.
    The last number is how many iterators the operator owns at most. *)
Record op_contract (SM C : Type) `{ScanTrait SM} := {
  built : C → list Tuple → nat → Prop;
  configured : C → bool → list Tuple → nat → Prop;
  live : C → bool → list Tuple → list Tuple → resources SM → nat → Prop;
  closed : C → Prop
}.
Arguments built {SM C _} _ _ _ _.
Arguments configured {SM C _} _ _ _ _ _.
Arguments live {SM C _} _ _ _ _ _ _ _.
Arguments closed {SM C _} _ _.

(** Next to the iterators of [fr] there is room for [n], and for one more while a scan
    starts again. *)
Definition room `{ScanLaws SM tbl} (fr : resources SM) (n : nat) : Prop := sc_fits (S (length fr + n)).

Class OpLaws (SM C : Type) {scan : ScanTrait SM} {ops : OpIterator SM C}
    {tbl} {laws : ScanLaws SM tbl} (K : op_contract SM C) : Prop := {
  live_owns c w all rest res n : live K c w all rest res n → (length res ≤ n)%nat;
  configure_ok c all n w : built K c all n → configured K (configure w c) w all n;
  open_ok s c w all n fr :
    configured K c w all n → sc_view s fr → room fr n →
    ∃ s' c' res, open s c = Ret (s', c', Ok tt) ∧ live K c' w all all res n ∧ sc_view s' (res ++ fr);
  next_ok s c w all rest res n fr :
    live K c w all rest res n → sc_view s (res ++ fr) → room fr n →
    ∃ s' c' res', next s c = Ret (s', c', Ok (head rest)) ∧
      live K c' w all (tail rest) res' n ∧ sc_view s' (res' ++ fr);
  rewind_ok s c all rest res n fr :
    live K c true all rest res n → sc_view s (res ++ fr) → room fr n →
    ∃ s' c' res', rewind s c = Ret (s', c', Ok tt) ∧
      live K c' true all all res' n ∧ sc_view s' (res' ++ fr);
  close_ok s c w all rest res n fr :
    live K c w all rest res n → sc_view s (res ++ fr) →
    ∃ s' c', close s c = Ret (s', c', Ok tt) ∧ closed K c' ∧ sc_view s' fr;
  close_again s c fr :
    closed K c → sc_view s fr → ∃ s' c', close s c = Ret (s', c', Ok tt) ∧ closed K c' ∧ sc_view s' fr
}.

(** There is room next to the iterators of another operator, from [Hroom]. *)
Ltac owns := repeat match goal with
  | H : live ?K ?c ?w ?a ?r ?res ?n |- _ =>
      lazymatch goal with
      | _ : (length res ≤ n)%nat |- _ => fail
      | _ => pose proof (live_owns _ _ _ _ _ _ H)
      end
  end.
Ltac fits := match goal with
  | Hroom : room _ _ |- room _ _ =>
      owns; refine (sc_fits_le _ _ _ Hroom); rewrite ?length_app; lia
  end.

(** ** Loops over a child *)

Section Drain.
Context {SM C : Type} `{OpIterator SM C}.

(** [while let Some(t) = child.next()? { v.push(t) }]. *)
Fixpoint drain (fuel : nat) (s : SM) (c : C) : outcome (SM * C * result CrustyError (list Tuple)) :=
  match fuel with
  | O => Panic
  | S fuel =>
      '(s, c, r) ← next s c;
      let? t := r at s, c in
      match t with
      | None => Ret (s, c, Ok [])
      | Some t =>
          '(s, c, r) ← drain fuel s c;
          let? ts := r at s, c in Ret (s, c, Ok (t :: ts))
      end
  end.
End Drain.

Lemma drain_child `{OpLaws SM C} fuel s c w all rest res n fr :
  live K c w all rest res n → sc_view s (res ++ fr) → room fr n → (length rest < fuel)%nat →
  ∃ s' c' res', drain fuel s c = Ret (s', c', Ok rest) ∧
    live K c' w all [] res' n ∧ sc_view s' (res' ++ fr).
Proof.
  revert s c rest res. induction fuel as [|fuel IH]; intros s c rest res Hl Hv Hroom Hf; [lia|].
  cbn [drain]. destruct (next_ok _ _ _ _ _ _ _ _ Hl Hv Hroom) as (s1 & c1 & res1 & -> & Hl1 & Hv1).
  rewrite bind_Ret. cbn [or_return]. destruct rest as [|t rest]; cbn [head] in *.
  - eauto 10.
  - destruct (IH _ _ _ _ Hl1 Hv1 Hroom) as (s2 & c2 & res2 & -> & Hl2 & Hv2); [simpl in *; lia|].
    eauto 10.
Qed.

(** ** Expressions of operators *)

(** The value of a predicate, when it is a boolean. *)
Definition holds (p : ByteCodeExpr) (t : Tuple) : option bool :=
  match Bce.eval p t with Ret (FBool b) => Some b | _ => None end.

(** The value of an expression, when it does not panic. *)
Definition value (e : ByteCodeExpr) (t : Tuple) : option Field :=
  match Bce.eval e t with Ret f => Some f | Panic => None end.

(** [exprs.iter().map(|e| e.eval(t)).collect()]. *)
Fixpoint eval_all (es : list ByteCodeExpr) (t : Tuple) : outcome (list Field) :=
  match es with
  | [] => Ret []
  | e :: es => f ← Bce.eval e t; fs ← eval_all es t; Ret (f :: fs)
  end.

Definition values (es : list ByteCodeExpr) (t : Tuple) : option (list Field) :=
  match eval_all es t with Ret fs => Some fs | Panic => None end.

Lemma value_eval e t f : value e t = Some f → Bce.eval e t = Ret f.
Proof. unfold value. destruct (Bce.eval e t); congruence. Qed.

Lemma values_Some es t fs : values es t = Some fs → eval_all es t = Ret fs.
Proof. unfold values. destruct (eval_all es t); congruence. Qed.

Lemma holds_Some p t b : holds p t = Some b → Bce.eval p t = Ret (FBool b).
Proof. unfold holds. destruct (Bce.eval p t) as [[]|]; congruence. Qed.
