(* ===== verification/OpBasic.v ===== *)
(** * Operators: tuple lists, scans, selection and projection

    Models [TupleIterator], [SeqScan], [Filter] and [Project] of
    [queryexe/src/opiterator], each over any child, and shows that they keep the contract
    of operators: a scan gives the decoded records of its container, a filter the tuples
    that satisfy its predicate, a projection the tuple of the values of its expressions. *)

From stdpp Require Import strings.
From S2P Require Import Prelude Common Field Tuple ByteCode OpIterator.

Open Scope Z_scope.

(** ** Tuple lists *)

Record TupleIterator := mkTupleIterator {
  ti_schema : TableSchema;
  ti_tuples : list Tuple;
  ti_will_rewind : bool;
  ti_open : bool;
  ti_index : Z
}.

Module TupleIter.

(** The tuples are kept in reverse order. *)
Definition new (tuples : list Tuple) (schema : TableSchema) : TupleIterator :=
  let tuples := reverse tuples in
  mkTupleIterator schema tuples true false (zlen tuples).

Section Ops.
Context {SM : Type}.

Definition configure (w : bool) (o : TupleIterator) : TupleIterator :=
  mkTupleIterator (ti_schema o) (ti_tuples o) w (ti_open o) (ti_index o).

Definition open (s : SM) (o : TupleIterator) : outcome (SM * TupleIterator * result CrustyError unit) :=
  Ret (s, mkTupleIterator (ti_schema o) (ti_tuples o) (ti_will_rewind o) true (ti_index o), Ok tt).

(** [Vec::pop]. *)
Definition pop_back (l : list Tuple) : list Tuple * option Tuple :=
  (take (length l - 1) l, last l).

Definition next (s : SM) (o : TupleIterator) :
  outcome (SM * TupleIterator * result CrustyError (option Tuple)) :=
  _ ← guard_or_panic (ti_open o);
  if ti_will_rewind o then
    if ti_index o =? 0 then Ret (s, o, Ok None)
    else
      let i := ti_index o - 1 in
      Ret (s, mkTupleIterator (ti_schema o) (ti_tuples o) (ti_will_rewind o) (ti_open o) i,
           Ok (nth_u (ti_tuples o) i))
  else
    let '(ts, t) := pop_back (ti_tuples o) in
    Ret (s, mkTupleIterator (ti_schema o) ts (ti_will_rewind o) (ti_open o) (ti_index o), Ok t).

Definition close (s : SM) (o : TupleIterator) : outcome (SM * TupleIterator * result CrustyError unit) :=
  Ret (s, mkTupleIterator (ti_schema o) (ti_tuples o) (ti_will_rewind o) false 0, Ok tt).

Definition rewind (s : SM) (o : TupleIterator) : outcome (SM * TupleIterator * result CrustyError unit) :=
  _ ← guard_or_panic (ti_open o);
  _ ← guard_or_panic (ti_will_rewind o);
  Ret (s, mkTupleIterator (ti_schema o) (ti_tuples o) (ti_will_rewind o) (ti_open o) (zlen (ti_tuples o)),
       Ok tt).
End Ops.
End TupleIter.

#[global] Instance TupleIterator_ops SM : OpIterator SM TupleIterator := {
  configure := TupleIter.configure;
  open := TupleIter.open;
  next := TupleIter.next;
  close := TupleIter.close;
  rewind := TupleIter.rewind;
  get_schema := ti_schema
}.

(** ** Scans *)

Record SeqScan (SM : Type) `{ScanTrait SM} := mkSeqScan {
  ss_schema : TableSchema;
  ss_container_id : Z;
  ss_filter : option ByteCodeExpr;
  ss_projection : option (list ByteCodeExpr);
  ss_open : bool;
  ss_index : option ValueId;
  ss_file_iter : option scan_iter
}.
Arguments mkSeqScan {SM _} _ _ _ _ _ _ _.
Arguments ss_schema {SM _} _.
Arguments ss_container_id {SM _} _.
Arguments ss_filter {SM _} _.
Arguments ss_projection {SM _} _.
Arguments ss_open {SM _} _.
Arguments ss_index {SM _} _.
Arguments ss_file_iter {SM _} _.

Module Seq.
Section Ops.
Context {SM : Type} `{ScanTrait SM} `{TupleCodec}.

Definition new (schema : TableSchema) (c : Z) (filter : option ByteCodeExpr)
    (projection : option (list ByteCodeExpr)) : SeqScan SM :=
  mkSeqScan schema c filter projection false None None.

Definition set (o : SeqScan SM) (op : bool) (index : option ValueId) (it : option scan_iter) : SeqScan SM :=
  mkSeqScan (ss_schema o) (ss_container_id o) (ss_filter o) (ss_projection o) op index it.

(** Overwriting [file_iter] drops the iterator it held. *)
Definition drop_old (s : SM) (o : SeqScan SM) : outcome SM :=
  match ss_file_iter o with Some it => sc_drop s it | None => Ret s end.

Definition configure (w : bool) (o : SeqScan SM) : SeqScan SM := o.

Definition open (s : SM) (o : SeqScan SM) : outcome (SM * SeqScan SM * result CrustyError unit) :=
  if negb (ss_open o) then
    it ← match ss_index o with
         | Some index => sc_get_iterator_from s (ss_container_id o) index
         | None => sc_get_iterator s (ss_container_id o)
         end;
    s ← drop_old s o;
    Ret (s, set o true (ss_index o) (Some it), Ok tt)
  else Ret (s, set o true (ss_index o) (ss_file_iter o), Ok tt).

(** The filter of the scan, on a tuple. *)
Definition passes (o : SeqScan SM) (tuple : Tuple) : outcome bool :=
  match ss_filter o with
  | Some p => f ← Bce.eval p tuple; unwrap_bool_field f
  | None => Ret true
  end.

(** What becomes of a record: skipped, or given as a tuple. *)
Definition tuple_of (o : SeqScan SM) (x : item) : outcome (option Tuple) :=
  t ← tuple_from_bytes x.1;
  let tuple := Tup.with_value_id t (Some x.2) in
  keep ← passes o tuple;
  if (keep : bool) then
    match ss_projection o with
    | Some projection =>
        fs ← eval_all projection tuple;
        Ret (Some (Tup.with_value_id (Tup.new fs) (value_id tuple)))
    | None => Ret (Some tuple)
    end
  else Ret None.

(** The [for] loop of [next], at most [fuel] records. *)
Fixpoint next_loop (fuel : nat) (s : SM) (o : SeqScan SM) (it : scan_iter) :
  outcome (SM * SeqScan SM * result CrustyError (option Tuple)) :=
  match fuel with
  | O => Panic
  | S fuel =>
      '(s, it, x) ← sc_next s it;
      match x with
      | None => Ret (s, set o (ss_open o) (ss_index o) (Some it), Ok None)
      | Some x =>
          let o := set o (ss_open o) (Some x.2) (Some it) in
          t ← tuple_of o x;
          match t with
          | Some t => Ret (s, o, Ok (Some t))
          | None => next_loop fuel s o it
          end
      end
  end.

Definition next (fuel : nat) (s : SM) (o : SeqScan SM) :
  outcome (SM * SeqScan SM * result CrustyError (option Tuple)) :=
  _ ← guard_or_panic (ss_open o);
  it ← unwrap (ss_file_iter o);
  next_loop fuel s o it.

Definition close (s : SM) (o : SeqScan SM) : outcome (SM * SeqScan SM * result CrustyError unit) :=
  s ← drop_old s o;
  Ret (s, set o false None None, Ok tt).

Definition rewind (s : SM) (o : SeqScan SM) : outcome (SM * SeqScan SM * result CrustyError unit) :=
  _ ← guard_or_panic (ss_open o);
  it ← sc_get_iterator s (ss_container_id o);
  s ← drop_old s o;
  Ret (s, set o (ss_open o) None (Some it), Ok tt).
End Ops.
End Seq.

Definition SeqScan_ops SM `{ScanTrait SM} `{TupleCodec} (fuel : nat) : OpIterator SM (SeqScan SM) := {|
  configure := Seq.configure;
  open := Seq.open;
  next := Seq.next fuel;
  close := Seq.close;
  rewind := Seq.rewind;
  get_schema := ss_schema
|}.

(** ** Selection *)

Record Filter (C : Type) := mkFilter {
  fi_schema : TableSchema;
  fi_predicate : ByteCodeExpr;
  fi_child : C;
  fi_open : bool
}.
Arguments mkFilter {C} _ _ _ _.
Arguments fi_schema {C} _.
Arguments fi_predicate {C} _.
Arguments fi_child {C} _.
Arguments fi_open {C} _.

Module Filt.
Section Ops.
Context {SM C : Type} {ops : OpIterator SM C}.

Definition new (predicate : ByteCodeExpr) (schema : TableSchema) (child : C) : Filter C :=
  mkFilter schema predicate child false.

Definition set (o : Filter C) (c : C) (op : bool) : Filter C :=
  mkFilter (fi_schema o) (fi_predicate o) c op.

Definition configure (w : bool) (o : Filter C) : Filter C :=
  set o (OpIterator.configure (SM := SM) w (fi_child o)) (fi_open o).

Definition open (s : SM) (o : Filter C) : outcome (SM * Filter C * result CrustyError unit) :=
  if negb (fi_open o) then
    '(s, c, r) ← OpIterator.open s (fi_child o);
    let? _ := r at s, set o c (fi_open o) in
    Ret (s, set o c true, Ok tt)
  else Ret (s, o, Ok tt).

(** The [while] loop of [next], at most [fuel] tuples of the child. *)
Fixpoint next_loop (fuel : nat) (s : SM) (o : Filter C) :
  outcome (SM * Filter C * result CrustyError (option Tuple)) :=
  match fuel with
  | O => Panic
  | S fuel =>
      '(s, c, r) ← OpIterator.next s (fi_child o);
      let o := set o c (fi_open o) in
      let? t := r at s, o in
      match t with
      | None => Ret (s, o, Ok None)
      | Some t =>
          f ← Bce.eval (fi_predicate o) t;
          match f with
          | FBool b => if b then Ret (s, o, Ok (Some t)) else next_loop fuel s o
          | _ => Ret (s, o, Err (c_err "Predicate did not evaluate to a boolean"))
          end
      end
  end.

Definition next (fuel : nat) (s : SM) (o : Filter C) :
  outcome (SM * Filter C * result CrustyError (option Tuple)) :=
  _ ← guard_or_panic (fi_open o);
  next_loop fuel s o.

Definition close (s : SM) (o : Filter C) : outcome (SM * Filter C * result CrustyError unit) :=
  '(s, c, r) ← OpIterator.close s (fi_child o);
  let? _ := r at s, set o c (fi_open o) in
  Ret (s, set o c false, Ok tt).

Definition rewind (s : SM) (o : Filter C) : outcome (SM * Filter C * result CrustyError unit) :=
  _ ← guard_or_panic (fi_open o);
  '(s, c, r) ← OpIterator.rewind s (fi_child o);
  let o := set o c (fi_open o) in
  let? _ := r at s, o in
  Ret (s, o, Ok tt).
End Ops.
End Filt.

Definition Filter_ops {SM C} (ops : OpIterator SM C) (fuel : nat) : OpIterator SM (Filter C) := {|
  configure := Filt.configure;
  open := Filt.open;
  next := Filt.next fuel;
  close := Filt.close;
  rewind := Filt.rewind;
  get_schema := fi_schema
|}.

(** ** Projection *)

Record Project (C : Type) := mkProject {
  pr_schema : TableSchema;
  pr_fields : list ByteCodeExpr;
  pr_child : C;
  pr_open : bool
}.
Arguments mkProject {C} _ _ _ _.
Arguments pr_schema {C} _.
Arguments pr_fields {C} _.
Arguments pr_child {C} _.
Arguments pr_open {C} _.

Module Proj.
Section Ops.
Context {SM C : Type} {ops : OpIterator SM C}.

Definition new (fields : list ByteCodeExpr) (schema : TableSchema) (child : C) : Project C :=
  mkProject schema fields child false.

Definition set (o : Project C) (c : C) (op : bool) : Project C :=
  mkProject (pr_schema o) (pr_fields o) c op.

Definition configure (w : bool) (o : Project C) : Project C :=
  set o (OpIterator.configure (SM := SM) w (pr_child o)) (pr_open o).

Definition open (s : SM) (o : Project C) : outcome (SM * Project C * result CrustyError unit) :=
  if negb (pr_open o) then
    '(s, c, r) ← OpIterator.open s (pr_child o);
    let? _ := r at s, set o c (pr_open o) in
    Ret (s, set o c true, Ok tt)
  else Ret (s, set o (pr_child o) true, Ok tt).

Definition next (s : SM) (o : Project C) : outcome (SM * Project C * result CrustyError (option Tuple)) :=
  _ ← guard_or_panic (pr_open o);
  '(s, c, r) ← OpIterator.next s (pr_child o);
  let o := set o c (pr_open o) in
  let? t := r at s, o in
  match t with
  | Some tuple => fs ← eval_all (pr_fields o) tuple; Ret (s, o, Ok (Some (Tup.new fs)))
  | None => Ret (s, o, Ok None)
  end.

Definition close (s : SM) (o : Project C) : outcome (SM * Project C * result CrustyError unit) :=
  '(s, c, r) ← OpIterator.close s (pr_child o);
  let? _ := r at s, set o c (pr_open o) in
  Ret (s, set o c false, Ok tt).

Definition rewind (s : SM) (o : Project C) : outcome (SM * Project C * result CrustyError unit) :=
  _ ← guard_or_panic (pr_open o);
  '(s, c, r) ← OpIterator.rewind s (pr_child o);
  let o := set o c (pr_open o) in
  let? _ := r at s, o in
  Ret (s, o, Ok tt).
End Ops.
End Proj.

Definition Project_ops {SM C} (ops : OpIterator SM C) : OpIterator SM (Project C) := {|
  configure := Proj.configure;
  open := Proj.open;
  next := Proj.next;
  close := Proj.close;
  rewind := Proj.rewind;
  get_schema := pr_schema
|}.

(** ** Tuple lists, scans, selection and projection keep the operator contract *)

Section Laws.
Context {SM : Type} {scan : ScanTrait SM} {tbl : Z → option (list item)} {scan_laws : ScanLaws SM tbl}.
Context {codec : TupleCodec}.

(** ** Tuple lists *)

Definition TupleIterator_contract : op_contract SM TupleIterator := {|
  built o all n := ti_open o = false ∧ ti_tuples o = reverse all ∧ ti_index o = zlen all;
  configured o w all n :=
    ti_open o = false ∧ ti_tuples o = reverse all ∧ ti_index o = zlen all ∧ ti_will_rewind o = w;
  live o w all rest res n :=
    ti_open o = true ∧ ti_will_rewind o = w ∧ res = [] ∧ (∃ done, all = done ++ rest) ∧
    if w then ti_tuples o = reverse all ∧ ti_index o = zlen rest else ti_tuples o = reverse rest;
  closed o := ti_open o = false
|}.

Lemma nth_u_reverse (done rest : list Tuple) t :
  nth_u (reverse (done ++ t :: rest)) (zlen (t :: rest) - 1) = Some t.
Proof.
  rewrite reverse_app, reverse_cons, nth_u_lookup by len.
  rewrite lookup_app_l by (rewrite length_app, length_reverse; len).
  rewrite lookup_app_r by (rewrite length_reverse; len).
  rewrite length_reverse. replace (_ - _)%nat with 0%nat by len. done.
Qed.

Lemma pop_back_reverse (t : Tuple) rest :
  TupleIter.pop_back (reverse (t :: rest)) = (reverse rest, Some t).
Proof.
  unfold TupleIter.pop_back. rewrite reverse_cons, last_snoc, length_app. simpl.
  rewrite Nat.add_sub, take_app_length. done.
Qed.

Lemma tuple_iter_next s o w all rest res n fr :
  live TupleIterator_contract o w all rest res n → sc_view s (res ++ fr) →
  ∃ s' o' res', next s o = Ret (s', o', Ok (head rest)) ∧
    live TupleIterator_contract o' w all (tail rest) res' n ∧ sc_view s' (res' ++ fr).
Proof.
  intros (Ho & Hw & -> & [done ->] & Hd) Hv. cbn. unfold TupleIter.next. rewrite Ho, Hw. cbn [guard_or_panic]. rewrite bind_Ret.
  destruct w.
  - destruct Hd as [Ht Hi]. rewrite Hi. destruct rest as [|t rest].
    + eexists _, _, []. split; [done|]. split; [|done]. split_and!; eauto.
    + rewrite (proj2 (Z.eqb_neq _ _)) by len. rewrite Ht, nth_u_reverse.
      eexists _, _, []. split; [done|]. split; [|done]. cbn.
      split_and!; try done; [|len]. exists (done ++ [t]). by rewrite <-app_assoc.
  - rewrite Hd. destruct rest as [|t rest].
    + eexists _, _, []. split; [done|]. split; [|done]. split_and!; eauto.
    + rewrite pop_back_reverse. eexists _, _, []. split; [done|]. split; [|done].
      split_and!; try done. exists (done ++ [t]). by rewrite <-app_assoc.
Qed.

#[global] Instance TupleIterator_laws : OpLaws SM TupleIterator TupleIterator_contract.
Proof.
  constructor.
  - intros o w all rest res n (_ & _ & -> & _). simpl. lia.
  - intros o all n w (? & ? & ?). cbn. done.
  - intros s o w all n fr (Ho & Ht & Hi & Hw) Hv _. eexists _, _, []. split; [done|]. cbn. split; [|done].
    split_and!; try done; [by exists []|]. by destruct w.
  - intros s o w all rest res n fr Hl Hv _. by eapply tuple_iter_next.
  - intros s o all rest res n fr (Ho & Hw & -> & Hd & Ht & Hi) Hv _. cbn. unfold TupleIter.rewind.
    rewrite Ho, Hw. eexists _, _, []. split; [done|]. cbn. split; [|done].
    split_and!; try done; [by exists []|]. rewrite Ht. unfold zlen. by rewrite length_reverse.
  - intros s o w all rest res n fr (_ & _ & -> & _) Hv. by eexists _, _.
  - intros s o fr _ Hv. by eexists _, _.
Qed.

(** ** Scans *)

(** The tuples a scan makes of records, when no record makes it panic. *)
Fixpoint scan_tuples (o : SeqScan SM) (items : list item) : option (list Tuple) :=
  match items with
  | [] => Some []
  | x :: items =>
      match Seq.tuple_of o x with
      | Ret t => ts ← scan_tuples o items; Some (match t with Some t => t :: ts | None => ts end)
      | Panic => None
      end
  end.

(** Scans with the same filter and projection make the same tuples. *)
Lemma scan_tuples_set o op index it items :
  scan_tuples (Seq.set o op index it) items = scan_tuples o items.
Proof. induction items as [|x items IH]; simpl; [done|]. by rewrite IH. Qed.

Definition SeqScan_contract (fuel : nat) : op_contract SM (SeqScan SM) :=
  let ready (o : SeqScan SM) all n :=
    (1 ≤ n)%nat ∧ ss_open o = false ∧ ss_index o = None ∧ ss_file_iter o = None ∧
    ∃ items, tbl (ss_container_id o) = Some items ∧ scan_tuples o items = Some all ∧
      (length items < fuel)%nat in {|
  built := ready;
  configured o w := ready o;
  live o w all rest res n :=
    (1 ≤ n)%nat ∧ ss_open o = true ∧ ∃ items items' it,
      tbl (ss_container_id o) = Some items ∧ scan_tuples o items = Some all ∧
      (length items < fuel)%nat ∧ (length items' < fuel)%nat ∧
      ss_file_iter o = Some it ∧ res = [(it, items')] ∧ scan_tuples o items' = Some rest;
  closed o := ss_file_iter o = None
|}.

Lemma seq_next_loop fuel fuel0 s o it items items' all rest n fr :
  (1 ≤ n)%nat → ss_open o = true → tbl (ss_container_id o) = Some items → scan_tuples o items = Some all →
  (length items < fuel0)%nat → (length items' < fuel)%nat → (length items' < fuel0)%nat →
  scan_tuples o items' = Some rest → sc_view s ((it, items') :: fr) →
  ∃ s' o' res', Seq.next_loop fuel s o it = Ret (s', o', Ok (head rest)) ∧
    live (SeqScan_contract fuel0) o' true all (tail rest) res' n ∧ sc_view s' (res' ++ fr).
Proof.
  revert s o it items'. induction fuel as [|fuel IH]; intros s o it items' Hn Ho Hi Ha Hf0 Hf Hf' Hr Hv; [lia|].
  cbn [Seq.next_loop]. destruct (sc_next_ok _ _ _ _ Hv) as (s1 & it1 & -> & Hv1). rewrite bind_Ret.
  destruct items' as [|x items']; simpl in Hr.
  - injection Hr as <-. eexists _, _, [(it1, [])]. split; [done|]. split; [|done]. cbn.
    split; [done|]. split; [done|]. exists items, [], it1. rewrite scan_tuples_set. split_and!; eauto.
  - destruct (Seq.tuple_of o x) as [t|] eqn:Et; [|done]. cbn [head].
    change (Seq.tuple_of (Seq.set o _ _ _) x) with (Seq.tuple_of o x). rewrite Et, bind_Ret.
    destruct (scan_tuples o items') as [ts|] eqn:Ets; [|done]. simpl in Hr. injection Hr as <-.
    destruct t as [t|].
    + eexists _, _, [(it1, items')]. split; [done|]. split; [|done]. cbn. split; [done|]. split; [done|].
      exists items, items', it1. rewrite !scan_tuples_set. simpl in *. split_and!; eauto; lia.
    + simpl in *. apply (IH s1 (Seq.set o _ _ _) it1 items'); try done; try lia; by rewrite scan_tuples_set.
Qed.

Lemma SeqScan_laws fuel : OpLaws SM (SeqScan SM) (ops := SeqScan_ops SM fuel) (SeqScan_contract fuel).
Proof.
  constructor.
  - intros o w all rest res n (Hn & _ & items & items' & it & _ & _ & _ & _ & _ & -> & _). done.
  - intros o all n w H. exact H.
  - intros s o w all n fr (Hn & Ho & Hix & Hf & items & Hi & Ha & Hl) Hv Hroom. cbn. unfold Seq.open, Seq.drop_old.
    rewrite Ho, Hix, Hf. simpl negb. cbv iota.
    destruct (sc_get_ok s fr _ _ Hi Hv) as (it & -> & Hv'); [refine (sc_fits_le _ _ _ Hroom); lia|]. rewrite bind_Ret. simpl.
    eexists _, _, [(it, items)]. split; [done|]. split; [|done]. cbn. split; [done|]. split; [done|].
    exists items, items, it. rewrite scan_tuples_set. split_and!; done.
  - intros s o w all rest res n fr (Hn & Ho & items & items' & it & Hi & Ha & Hl & Hl' & Hf & -> & Hr) Hv _.
    cbn. unfold Seq.next. rewrite Ho, Hf. simpl. eapply seq_next_loop; eauto.
  - intros s o all rest res n fr (Hn & Ho & items & items' & it & Hi & Ha & Hl & Hl' & Hf & -> & Hr) Hv Hroom.
    cbn. unfold Seq.rewind, Seq.drop_old. rewrite Ho, Hf. simpl.
    destruct (sc_get_ok s _ _ _ Hi Hv) as (it' & -> & Hv'); [refine (sc_fits_le _ _ _ Hroom); simpl; lia|]. simpl.
    destruct (sc_drop_ok s ((it', items) :: fr) it items') as (s1 & -> & Hv1).
    { eapply sc_view_perm; [|exact Hv']. apply Permutation_swap. }
    simpl. eexists _, _, [(it', items)]. split; [done|]. split; [|done]. cbn. split; [done|]. split; [done|].
    exists items, items, it'. rewrite scan_tuples_set. split_and!; done.
  - intros s o w all rest res n fr (Hn & Ho & items & items' & it & Hi & Ha & Hl & Hl' & Hf & -> & Hr) Hv.
    cbn. unfold Seq.close, Seq.drop_old. rewrite Hf.
    destruct (sc_drop_ok s _ _ _ Hv) as (s1 & -> & Hv1). simpl. by eexists _, _.
  - intros s o fr Hc Hv. cbn. unfold Seq.close, Seq.drop_old. rewrite Hc. by eexists _, _.
Qed.

(** ** Selection *)

(** The tuples that satisfy a predicate, when it is a boolean on every tuple. *)
Fixpoint select (p : ByteCodeExpr) (l : list Tuple) : option (list Tuple) :=
  match l with
  | [] => Some []
  | t :: l => b ← holds p t; r ← select p l; Some (if (b : bool) then t :: r else r)
  end.

Definition Filter_contract {C} (K : op_contract SM C) (fuel : nat) : op_contract SM (Filter C) := {|
  built o all n := fi_open o = false ∧ ∃ call, built K (fi_child o) call n ∧
    select (fi_predicate o) call = Some all ∧ (length call < fuel)%nat;
  configured o w all n := fi_open o = false ∧ ∃ call, configured K (fi_child o) w call n ∧
    select (fi_predicate o) call = Some all ∧ (length call < fuel)%nat;
  live o w all rest res n := fi_open o = true ∧ ∃ call crest, live K (fi_child o) w call crest res n ∧
    select (fi_predicate o) call = Some all ∧ (length call < fuel)%nat ∧
    select (fi_predicate o) crest = Some rest ∧ (length crest < fuel)%nat;
  closed o := closed K (fi_child o)
|}.

Section Child.
Context {C : Type} {ops : OpIterator SM C} (K : op_contract SM C) {laws : OpLaws SM C K}.

Lemma filter_next_loop fuel fuel0 s o w call crest all rest res n fr :
  fi_open o = true → live K (fi_child o) w call crest res n →
  select (fi_predicate o) call = Some all → (length call < fuel0)%nat →
  select (fi_predicate o) crest = Some rest → (length crest < fuel0)%nat → (length crest < fuel)%nat →
  sc_view s (res ++ fr) → room fr n →
  ∃ s' o' res', Filt.next_loop fuel s o = Ret (s', o', Ok (head rest)) ∧
    live (Filter_contract K fuel0) o' w all (tail rest) res' n ∧ sc_view s' (res' ++ fr).
Proof.
  revert s o crest res. induction fuel as [|fuel IH]; intros s o crest res Ho Hl Ha Hf0 Hr Hf1 Hf Hv Hroom; [lia|].
  cbn [Filt.next_loop]. destruct (next_ok _ _ _ _ _ _ _ _ Hl Hv Hroom) as (s1 & c1 & res1 & -> & Hl1 & Hv1).
  rewrite bind_Ret. cbn [or_return]. destruct crest as [|t crest]; simpl in Hr.
  - injection Hr as <-. eexists _, _, res1. split; [done|]. split; [|done]. split; [done|].
    exists call, []. simpl in *. split_and!; eauto; lia.
  - destruct (holds (fi_predicate o) t) as [b|] eqn:Eb; [|done]. apply holds_Some in Eb.
    simpl in Hr. destruct (select (fi_predicate o) crest) as [r|] eqn:Er; [|done]. simpl in Hr.
    injection Hr as <-. cbn [head]. change (fi_predicate (Filt.set o _ _)) with (fi_predicate o).
    rewrite Eb, bind_Ret. destruct b.
    + eexists _, _, res1. split; [done|]. split; [|done]. split; [done|].
      exists call, crest. simpl in *. split_and!; eauto; lia.
    + simpl in *. apply (IH s1 (Filt.set o c1 (fi_open o)) crest res1); try done; lia.
Qed.

Lemma Filter_laws fuel : OpLaws SM (Filter C) (ops := Filter_ops ops fuel) (Filter_contract K fuel).
Proof.
  constructor.
  - intros o w all rest res n (_ & call & crest & Hl & _). by eapply live_owns.
  - intros o all n w (Ho & call & Hb & Hs & Hf). split; [done|]. exists call.
    split_and!; [by apply configure_ok|done|done].
  - intros s o w all n fr (Ho & call & Hb & Hs & Hf) Hv Hroom. cbn. unfold Filt.open. rewrite Ho. simpl negb.
    destruct (open_ok _ _ _ _ _ _ Hb Hv Hroom) as (s1 & c1 & res & -> & Hl & Hv1). simpl.
    eexists _, _, res. split; [done|]. split; [|done]. split; [done|]. eauto 10.
  - intros s o w all rest res n fr (Ho & call & crest & Hl & Ha & Hf & Hr & Hf') Hv Hroom.
    cbn. unfold Filt.next. rewrite Ho. simpl. eapply filter_next_loop; eauto.
  - intros s o all rest res n fr (Ho & call & crest & Hl & Ha & Hf & Hr & Hf') Hv Hroom.
    cbn. unfold Filt.rewind. rewrite Ho. simpl.
    destruct (rewind_ok _ _ _ _ _ _ _ Hl Hv Hroom) as (s1 & c1 & res1 & -> & Hl1 & Hv1). simpl.
    eexists _, _, res1. split; [done|]. split; [|done]. split; [done|]. eauto 10.
  - intros s o w all rest res n fr (Ho & call & crest & Hl & Ha & Hf & Hr & Hf') Hv.
    cbn. unfold Filt.close. destruct (close_ok _ _ _ _ _ _ _ _ Hl Hv) as (s1 & c1 & -> & Hv1). simpl.
    by eexists _, _.
  - intros s o fr Hc Hv. cbn in Hc |- *. unfold Filt.close.
    destruct (close_again _ _ _ Hc Hv) as (s1 & c1 & -> & Hv1). simpl. by eexists _, _.
Qed.
End Child.

(** ** Projection *)

(** The projected tuples, when no expression panics. *)
Fixpoint project (es : list ByteCodeExpr) (l : list Tuple) : option (list Tuple) :=
  match l with
  | [] => Some []
  | t :: l => fs ← values es t; r ← project es l; Some (Tup.new fs :: r)
  end.

Definition Project_contract {C} (K : op_contract SM C) : op_contract SM (Project C) := {|
  built o all n := pr_open o = false ∧ ∃ call, built K (pr_child o) call n ∧
    project (pr_fields o) call = Some all;
  configured o w all n := pr_open o = false ∧ ∃ call, configured K (pr_child o) w call n ∧
    project (pr_fields o) call = Some all;
  live o w all rest res n := pr_open o = true ∧ ∃ call crest, live K (pr_child o) w call crest res n ∧
    project (pr_fields o) call = Some all ∧ project (pr_fields o) crest = Some rest;
  closed o := closed K (pr_child o)
|}.

Lemma project_head es l r :
  project es l = Some r → project es (tail l) = Some (tail r) ∧
  match head l with
  | Some t => ∃ fs, eval_all es t = Ret fs ∧ head r = Some (Tup.new fs)
  | None => head r = None
  end.
Proof.
  destruct l as [|t l]; simpl; [by intros [= <-]|].
  destruct (values es t) as [fs|] eqn:E; [|done]. destruct (project es l); [|done]. simpl.
  intros [= <-]. apply values_Some in E. eauto.
Qed.

Section ProjectChild.
Context {C : Type} {ops : OpIterator SM C} (K : op_contract SM C) {laws : OpLaws SM C K}.

Lemma Project_laws : OpLaws SM (Project C) (ops := Project_ops ops) (Project_contract K).
Proof.
  constructor.
  - intros o w all rest res n (_ & call & crest & Hl & _). by eapply live_owns.
  - intros o all n w (Ho & call & Hb & Hs). split; [done|]. exists call. split; [by apply configure_ok|done].
  - intros s o w all n fr (Ho & call & Hb & Hs) Hv Hroom. cbn. unfold Proj.open. rewrite Ho. simpl negb.
    destruct (open_ok _ _ _ _ _ _ Hb Hv Hroom) as (s1 & c1 & res & -> & Hl & Hv1). simpl.
    eexists _, _, res. split; [done|]. split; [|done]. split; [done|]. eauto 10.
  - intros s o w all rest res n fr (Ho & call & crest & Hl & Ha & Hr) Hv Hroom.
    cbn. unfold Proj.next. rewrite Ho. simpl.
    destruct (next_ok _ _ _ _ _ _ _ _ Hl Hv Hroom) as (s1 & c1 & res1 & -> & Hl1 & Hv1). simpl.
    apply project_head in Hr as [Ht Hh].
    assert (live (Project_contract K) (Proj.set o c1 true) w all (tail rest) res1 n) as Hlive.
    { split; [done|]. eauto 10. }
    destruct (head crest) as [t|].
    + destruct Hh as (fs & -> & ->). eexists _, _, res1. split; [done|]. by split.
    + rewrite Hh. eexists _, _, res1. split; [done|]. by split.
  - intros s o all rest res n fr (Ho & call & crest & Hl & Ha & Hr) Hv Hroom.
    cbn. unfold Proj.rewind. rewrite Ho. simpl.
    destruct (rewind_ok _ _ _ _ _ _ _ Hl Hv Hroom) as (s1 & c1 & res1 & -> & Hl1 & Hv1). simpl.
    eexists _, _, res1. split; [done|]. split; [|done]. split; [done|]. eauto 10.
  - intros s o w all rest res n fr (Ho & call & crest & Hl & Ha & Hr) Hv.
    cbn. unfold Proj.close. destruct (close_ok _ _ _ _ _ _ _ _ Hl Hv) as (s1 & c1 & -> & Hv1). simpl.
    by eexists _, _.
  - intros s o fr Hc Hv. cbn in Hc |- *. unfold Proj.close.
    destruct (close_again _ _ _ Hc Hv) as (s1 & c1 & -> & Hv1). simpl. by eexists _, _.
Qed.
End ProjectChild.
End Laws.
