(* ===== verification/OpJoin.v ===== *)
(** * Operators: joins

    Models [CrossJoin], [NestedLoopJoin] and [HashEqJoin] of
    [queryexe/src/opiterator], each over any two children. *)

From S2P Require Import Prelude Common Ordering Field FieldContract Tuple ByteCode OpIterator.
From stdpp Require Import strings gmap.

Open Scope Z_scope.

(** ** Fields as keys of hash maps *)

(** The field of a key. *)
Definition field_of_key (k : list Z) : option Field :=
  match k with
  | [0; i] => Some (BigInt i)
  | [1; i] => Some (Int i)
  | [2; i] => Some (SmallInt i)
  | 3 :: n :: s => Some (Char n (byte.of_Z <$> s))
  | 4 :: s => Some (FString (byte.of_Z <$> s))
  | [5; w; s] => Some (Decimal w s)
  | [6; d] => Some (Date d)
  | [7; b] => Some (FBool (b =? 1))
  | [8] => Some Null
  | _ => None
  end.

Lemma field_of_key_key f : field_of_key (field_key f) = Some f.
Proof.
  destruct f; simpl; try done.
  - do 2 f_equal. rewrite <-list_fmap_compose. rewrite (list_fmap_ext _ id); [apply list_fmap_id|].
    intros ???. apply byte.of_Z_unsigned.
  - do 2 f_equal. rewrite <-list_fmap_compose. rewrite (list_fmap_ext _ id); [apply list_fmap_id|].
    intros ???. apply byte.of_Z_unsigned.
  - by destruct b.
Qed.

#[global] Instance Field_countable : countable.Countable Field.
Proof. exact (countable.inj_countable field_key field_of_key field_of_key_key). Defined.

(** ** Cross join *)

Record CrossJoin (CL CR : Type) := mkCrossJoin {
  cj_schema : TableSchema;
  cj_left : CL;
  cj_right : CR;
  cj_open : bool;
  cj_current : option Tuple
}.
Arguments mkCrossJoin {CL CR} _ _ _ _ _.
Arguments cj_schema {CL CR} _.
Arguments cj_left {CL CR} _.
Arguments cj_right {CL CR} _.
Arguments cj_open {CL CR} _.
Arguments cj_current {CL CR} _.

Module Cross.
Section Ops.
Context {SM CL CR : Type} {lops : OpIterator SM CL} {rops : OpIterator SM CR}.
Abbreviation T := (CrossJoin CL CR).

Definition new (schema : TableSchema) (l : CL) (r : CR) : T := mkCrossJoin schema l r false None.

Definition set_left (o : T) (l : CL) : T :=
  mkCrossJoin (cj_schema o) l (cj_right o) (cj_open o) (cj_current o).
Definition set_right (o : T) (r : CR) : T :=
  mkCrossJoin (cj_schema o) (cj_left o) r (cj_open o) (cj_current o).
Definition set_current (o : T) (t : option Tuple) : T :=
  mkCrossJoin (cj_schema o) (cj_left o) (cj_right o) (cj_open o) t.
Definition set_open (o : T) (b : bool) : T :=
  mkCrossJoin (cj_schema o) (cj_left o) (cj_right o) b (cj_current o).

(** The right child is always rewound. *)
Definition configure (w : bool) (o : T) : T :=
  set_right (set_left o (OpIterator.configure (SM := SM) w (cj_left o)))
    (OpIterator.configure (SM := SM) true (cj_right o)).

(** [self.current_tuple = self.left_child.next()?]. *)
Definition advance (s : SM) (o : T) : outcome (SM * T * result CrustyError unit) :=
  '(s, l, r) ← OpIterator.next s (cj_left o);
  let o := set_left o l in
  let? t := r at s, o in
  Ret (s, set_current o t, Ok tt).

Definition open (s : SM) (o : T) : outcome (SM * T * result CrustyError unit) :=
  if negb (cj_open o) then
    '(s, l, r) ← OpIterator.open s (cj_left o);
    let o := set_left o l in
    let? _ := r at s, o in
    '(s, c, r) ← OpIterator.open s (cj_right o);
    let o := set_right o c in
    let? _ := r at s, o in
    '(s, o, r) ← advance s o;
    let? _ := r at s, o in
    Ret (s, set_open o true, Ok tt)
  else Ret (s, o, Ok tt).

(** The loop of [next]; every round but the last takes a tuple of the left child. *)
Fixpoint next_loop (fuel : nat) (s : SM) (o : T) : outcome (SM * T * result CrustyError (option Tuple)) :=
  match fuel with
  | O => Panic
  | S fuel =>
      match cj_current o with
      | None => Ret (s, o, Ok None)
      | Some left_tuple =>
          '(s, c, r) ← OpIterator.next s (cj_right o);
          let o := set_right o c in
          let? t := r at s, o in
          match t with
          | Some right_tuple => Ret (s, o, Ok (Some (Tup.merge left_tuple right_tuple)))
          | None =>
              '(s, c, r) ← OpIterator.rewind s (cj_right o);
              let o := set_right o c in
              let? _ := r at s, o in
              '(s, o, r) ← advance s o;
              let? _ := r at s, o in
              next_loop fuel s o
          end
      end
  end.

Definition next (fuel : nat) (s : SM) (o : T) : outcome (SM * T * result CrustyError (option Tuple)) :=
  _ ← guard_or_panic (cj_open o);
  next_loop fuel s o.

Definition close (s : SM) (o : T) : outcome (SM * T * result CrustyError unit) :=
  '(s, l, r) ← OpIterator.close s (cj_left o);
  let o := set_left o l in
  let? _ := r at s, o in
  '(s, c, r) ← OpIterator.close s (cj_right o);
  let o := set_right o c in
  let? _ := r at s, o in
  Ret (s, set_open o false, Ok tt).

Definition rewind (s : SM) (o : T) : outcome (SM * T * result CrustyError unit) :=
  '(s, l, r) ← OpIterator.rewind s (cj_left o);
  let o := set_left o l in
  let? _ := r at s, o in
  '(s, c, r) ← OpIterator.rewind s (cj_right o);
  let o := set_right o c in
  let? _ := r at s, o in
  '(s, o, r) ← advance s o;
  let? _ := r at s, o in
  Ret (s, o, Ok tt).
End Ops.
End Cross.

Definition CrossJoin_ops {SM CL CR} (lops : OpIterator SM CL) (rops : OpIterator SM CR) (fuel : nat) :
  OpIterator SM (CrossJoin CL CR) := {|
  configure := Cross.configure;
  open := Cross.open;
  next := Cross.next fuel;
  close := Cross.close;
  rewind := Cross.rewind;
  get_schema := cj_schema
|}.

(** ** Nested loop join *)

Record NestedLoopJoin (CL CR : Type) := mkNestedLoopJoin {
  nl_schema : TableSchema;
  nl_op : BinaryOp;
  nl_left_expr : ByteCodeExpr;
  nl_right_expr : ByteCodeExpr;
  nl_left : CL;
  nl_right : CR;
  nl_open : bool;
  nl_current : option Tuple
}.
Arguments mkNestedLoopJoin {CL CR} _ _ _ _ _ _ _ _.
Arguments nl_schema {CL CR} _.
Arguments nl_op {CL CR} _.
Arguments nl_left_expr {CL CR} _.
Arguments nl_right_expr {CL CR} _.
Arguments nl_left {CL CR} _.
Arguments nl_right {CL CR} _.
Arguments nl_open {CL CR} _.
Arguments nl_current {CL CR} _.

Module Nested.
Section Ops.
Context {SM CL CR : Type} {lops : OpIterator SM CL} {rops : OpIterator SM CR}.
Abbreviation T := (NestedLoopJoin CL CR).

Definition new (op : BinaryOp) (le re : ByteCodeExpr) (l : CL) (r : CR) (schema : TableSchema) : T :=
  mkNestedLoopJoin schema op le re l r false None.

Definition set (o : T) (l : CL) (r : CR) (op : bool) (t : option Tuple) : T :=
  mkNestedLoopJoin (nl_schema o) (nl_op o) (nl_left_expr o) (nl_right_expr o) l r op t.
Definition set_left (o : T) (l : CL) : T := set o l (nl_right o) (nl_open o) (nl_current o).
Definition set_right (o : T) (r : CR) : T := set o (nl_left o) r (nl_open o) (nl_current o).
Definition set_current (o : T) (t : option Tuple) : T :=
  set o (nl_left o) (nl_right o) (nl_open o) t.
Definition set_open (o : T) (b : bool) : T := set o (nl_left o) (nl_right o) b (nl_current o).

Definition configure (w : bool) (o : T) : T :=
  set_right (set_left o (OpIterator.configure (SM := SM) w (nl_left o)))
    (OpIterator.configure (SM := SM) true (nl_right o)).

Definition advance (s : SM) (o : T) : outcome (SM * T * result CrustyError unit) :=
  '(s, l, r) ← OpIterator.next s (nl_left o);
  let o := set_left o l in
  let? t := r at s, o in
  Ret (s, set_current o t, Ok tt).

Definition open (s : SM) (o : T) : outcome (SM * T * result CrustyError unit) :=
  if negb (nl_open o) then
    '(s, l, r) ← OpIterator.open s (nl_left o);
    let o := set_left o l in
    let? _ := r at s, o in
    '(s, c, r) ← OpIterator.open s (nl_right o);
    let o := set_right o c in
    let? _ := r at s, o in
    '(s, o, r) ← advance s o;
    let? _ := r at s, o in
    Ret (s, set_open o true, Ok tt)
  else Ret (s, o, Ok tt).

(** The join condition on a pair of tuples. *)
Definition matches (o : T) (left_tuple right_tuple : Tuple) : outcome bool :=
  left_val ← Bce.eval (nl_left_expr o) left_tuple;
  right_val ← Bce.eval (nl_right_expr o) right_tuple;
  compare_fields (nl_op o) left_val right_val.

(** The loop of [next]; every round takes a tuple of one of the children. *)
Fixpoint next_loop (fuel : nat) (s : SM) (o : T) : outcome (SM * T * result CrustyError (option Tuple)) :=
  match fuel with
  | O => Panic
  | S fuel =>
      match nl_current o with
      | None => Ret (s, o, Ok None)
      | Some left_tuple =>
          '(s, c, r) ← OpIterator.next s (nl_right o);
          let o := set_right o c in
          let? t := r at s, o in
          match t with
          | Some right_tuple =>
              b ← matches o left_tuple right_tuple;
              if (b : bool) then Ret (s, o, Ok (Some (Tup.merge left_tuple right_tuple)))
              else next_loop fuel s o
          | None =>
              '(s, c, r) ← OpIterator.rewind s (nl_right o);
              let o := set_right o c in
              let? _ := r at s, o in
              '(s, o, r) ← advance s o;
              let? _ := r at s, o in
              next_loop fuel s o
          end
      end
  end.

Definition next (fuel : nat) (s : SM) (o : T) : outcome (SM * T * result CrustyError (option Tuple)) :=
  _ ← guard_or_panic (nl_open o);
  next_loop fuel s o.

Definition close (s : SM) (o : T) : outcome (SM * T * result CrustyError unit) :=
  '(s, l, r) ← OpIterator.close s (nl_left o);
  let o := set_left o l in
  let? _ := r at s, o in
  '(s, c, r) ← OpIterator.close s (nl_right o);
  let o := set_right o c in
  let? _ := r at s, o in
  Ret (s, set_open o false, Ok tt).

Definition rewind (s : SM) (o : T) : outcome (SM * T * result CrustyError unit) :=
  _ ← guard_or_panic (nl_open o);
  '(s, l, r) ← OpIterator.rewind s (nl_left o);
  let o := set_left o l in
  let? _ := r at s, o in
  '(s, c, r) ← OpIterator.rewind s (nl_right o);
  let o := set_right o c in
  let? _ := r at s, o in
  '(s, o, r) ← advance s o;
  let? _ := r at s, o in
  Ret (s, o, Ok tt).
End Ops.
End Nested.

Definition NestedLoopJoin_ops {SM CL CR} (lops : OpIterator SM CL) (rops : OpIterator SM CR)
    (fuel : nat) : OpIterator SM (NestedLoopJoin CL CR) := {|
  configure := Nested.configure;
  open := Nested.open;
  next := Nested.next fuel;
  close := Nested.close;
  rewind := Nested.rewind;
  get_schema := nl_schema
|}.

(** ** Hash join *)

Record HashEqJoin (CL CR : Type) := mkHashEqJoin {
  hj_schema : TableSchema;
  hj_left_expr : ByteCodeExpr;
  hj_right_expr : ByteCodeExpr;
  hj_left : CL;
  hj_right : CR;
  hj_open : bool;
  hj_join_map : gmap Field (list Tuple);
  hj_current : option Tuple;
  hj_idx : Z
}.
Arguments mkHashEqJoin {CL CR} _ _ _ _ _ _ _ _ _.
Arguments hj_schema {CL CR} _.
Arguments hj_left_expr {CL CR} _.
Arguments hj_right_expr {CL CR} _.
Arguments hj_left {CL CR} _.
Arguments hj_right {CL CR} _.
Arguments hj_open {CL CR} _.
Arguments hj_join_map {CL CR} _.
Arguments hj_current {CL CR} _.
Arguments hj_idx {CL CR} _.

Module HashEq.
Section Ops.
Context {SM CL CR : Type} {lops : OpIterator SM CL} {rops : OpIterator SM CR}.
Abbreviation T := (HashEqJoin CL CR).

Definition new (schema : TableSchema) (le re : ByteCodeExpr) (l : CL) (r : CR) : T :=
  mkHashEqJoin schema le re l r false ∅ None 0.

Definition set (o : T) (l : CL) (r : CR) (op : bool) (m : gmap Field (list Tuple)) (t : option Tuple)
    (idx : Z) : T :=
  mkHashEqJoin (hj_schema o) (hj_left_expr o) (hj_right_expr o) l r op m t idx.
Definition set_left (o : T) (l : CL) : T :=
  set o l (hj_right o) (hj_open o) (hj_join_map o) (hj_current o) (hj_idx o).
Definition set_right (o : T) (r : CR) : T :=
  set o (hj_left o) r (hj_open o) (hj_join_map o) (hj_current o) (hj_idx o).
Definition set_map (o : T) (m : gmap Field (list Tuple)) : T :=
  set o (hj_left o) (hj_right o) (hj_open o) m (hj_current o) (hj_idx o).
Definition set_current (o : T) (t : option Tuple) (idx : Z) : T :=
  set o (hj_left o) (hj_right o) (hj_open o) (hj_join_map o) t idx.
Definition set_open (o : T) (b : bool) : T :=
  set o (hj_left o) (hj_right o) b (hj_join_map o) (hj_current o) (hj_idx o).

(** The left child is never rewound. *)
Definition configure (w : bool) (o : T) : T :=
  set_right (set_left o (OpIterator.configure (SM := SM) false (hj_left o)))
    (OpIterator.configure (SM := SM) w (hj_right o)).

(** [self.join_map.entry(key).or_default().push(t)]. *)
Definition add_to_bucket (m : gmap Field (list Tuple)) (key : Field) (t : Tuple) :
  gmap Field (list Tuple) := <[key := default [] (m !! key) ++ [t]]> m.

(** The loop of [open] over the left child. *)
Fixpoint build (fuel : nat) (s : SM) (o : T) : outcome (SM * T * result CrustyError unit) :=
  match fuel with
  | O => Panic
  | S fuel =>
      '(s, l, r) ← OpIterator.next s (hj_left o);
      let o := set_left o l in
      let? t := r at s, o in
      match t with
      | None => Ret (s, o, Ok tt)
      | Some t =>
          key ← Bce.eval (hj_left_expr o) t;
          build fuel s (set_map o (add_to_bucket (hj_join_map o) key t))
      end
  end.

(** [self.current_tuple = self.right_child.next()?; self.current_idx = 0]. *)
Definition advance (s : SM) (o : T) : outcome (SM * T * result CrustyError unit) :=
  '(s, c, r) ← OpIterator.next s (hj_right o);
  let o := set_right o c in
  let? t := r at s, o in
  Ret (s, set_current o t 0, Ok tt).

Definition open (fuel : nat) (s : SM) (o : T) : outcome (SM * T * result CrustyError unit) :=
  if negb (hj_open o) then
    '(s, l, r) ← OpIterator.open s (hj_left o);
    let o := set_left o l in
    let? _ := r at s, o in
    '(s, o, r) ← build fuel s o;
    let? _ := r at s, o in
    '(s, c, r) ← OpIterator.open s (hj_right o);
    let o := set_right o c in
    let? _ := r at s, o in
    '(s, o, r) ← advance s o;
    let? _ := r at s, o in
    Ret (s, set_open o true, Ok tt)
  else Ret (s, o, Ok tt).

(** The next tuple of the bucket of [right_tuple], if there is one left. *)
Definition bucket_next (o : T) (right_tuple : Tuple) : outcome (option Tuple) :=
  right_key ← Bce.eval (hj_right_expr o) right_tuple;
  Ret (bucket ← hj_join_map o !! right_key; nth_u bucket (hj_idx o)).

(** The loop of [next]; every round but the last takes a tuple of the right child. *)
Fixpoint next_loop (fuel : nat) (s : SM) (o : T) : outcome (SM * T * result CrustyError (option Tuple)) :=
  match fuel with
  | O => Panic
  | S fuel =>
      match hj_current o with
      | None => Ret (s, o, Ok None)
      | Some right_tuple =>
          l ← bucket_next o right_tuple;
          match l with
          | Some left_tuple =>
              Ret (s, set_current o (hj_current o) (hj_idx o + 1),
                   Ok (Some (Tup.merge left_tuple right_tuple)))
          | None =>
              '(s, o, r) ← advance s o;
              let? _ := r at s, o in
              next_loop fuel s o
          end
      end
  end.

Definition next (fuel : nat) (s : SM) (o : T) : outcome (SM * T * result CrustyError (option Tuple)) :=
  _ ← guard_or_panic (hj_open o);
  next_loop fuel s o.

Definition close (s : SM) (o : T) : outcome (SM * T * result CrustyError unit) :=
  '(s, l, r) ← OpIterator.close s (hj_left o);
  let o := set_left o l in
  let? _ := r at s, o in
  '(s, c, r) ← OpIterator.close s (hj_right o);
  let o := set_right o c in
  let? _ := r at s, o in
  Ret (s, set o (hj_left o) (hj_right o) false ∅ None 0, Ok tt).

Definition rewind (s : SM) (o : T) : outcome (SM * T * result CrustyError unit) :=
  _ ← guard_or_panic (hj_open o);
  '(s, c, r) ← OpIterator.rewind s (hj_right o);
  let o := set_right o c in
  let? _ := r at s, o in
  '(s, o, r) ← advance s o;
  let? _ := r at s, o in
  Ret (s, o, Ok tt).
End Ops.
End HashEq.

Definition HashEqJoin_ops {SM CL CR} (lops : OpIterator SM CL) (rops : OpIterator SM CR)
    (fuel : nat) : OpIterator SM (HashEqJoin CL CR) := {|
  configure := HashEq.configure;
  open := HashEq.open fuel;
  next := HashEq.next fuel;
  close := HashEq.close;
  rewind := HashEq.rewind;
  get_schema := hj_schema
|}.
