(* ===== verification/OpJoinLaws.v ===== *)
(** * Joins keep the operator contract

    A cross join gives the merged tuples of all pairs, a nested loop join those that
    satisfy its condition, a hash join those with equal keys. *)

From S2P Require Import Prelude Common Ordering Field FieldContract Tuple ByteCode OpIterator.
From S2P Require Import OpJoin.
From stdpp Require Import gmap.

Open Scope Z_scope.

(** Runs the model past a call that returned. *)
Ltac step := cbn [mbind outcome_bind or_return]; simpl cj_right; simpl cj_left;
  simpl nl_right; simpl nl_left; simpl hj_right; simpl hj_left.

Section Laws.
Context {SM : Type} {scan : ScanTrait SM} {tbl : Z → option (list item)} {scan_laws : ScanLaws SM tbl}.
Context {CL CR : Type} {lops : OpIterator SM CL} {rops : OpIterator SM CR}.
Context (KL : op_contract SM CL) (KR : op_contract SM CR).
Context {llaws : OpLaws SM CL KL} {rlaws : OpLaws SM CR KR}.

(** Two children own disjoint resources; each sees those of the other as not its own. *)
Lemma view_left s (rl rr fr : resources SM) : sc_view s ((rl ++ rr) ++ fr) → sc_view s (rl ++ rr ++ fr).
Proof. by rewrite app_assoc. Qed.

Lemma view_swap s (rl rr fr : resources SM) : sc_view s (rl ++ rr ++ fr) → sc_view s (rr ++ rl ++ fr).
Proof. apply sc_view_perm. rewrite !app_assoc. f_equiv. apply Permutation_app_comm. Qed.

Lemma view_both s (rl rr fr : resources SM) : sc_view s (rl ++ rr ++ fr) → sc_view s ((rl ++ rr) ++ fr).
Proof. by rewrite <-app_assoc. Qed.

(** ** Cross join *)

Definition product (L R : list Tuple) : list Tuple := L ≫= λ l, Tup.merge l <$> R.

(** What is left when the current left tuple is [cur] and the right child has [rrest] left. *)
Definition product_rest (cur : option Tuple) (lrest R rrest : list Tuple) : list Tuple :=
  match cur with
  | Some l => (Tup.merge l <$> rrest) ++ product lrest R
  | None => []
  end.

Lemma product_start L R : product_rest (head L) (tail L) R R = product L R.
Proof. by destruct L. Qed.

Definition CrossJoin_contract (fuel : nat) : op_contract SM (CrossJoin CL CR) := {|
  built o all n := cj_open o = false ∧ ∃ L R n1 n2, n = (n1 + n2)%nat ∧
    built KL (cj_left o) L n1 ∧ built KR (cj_right o) R n2 ∧
    all = product L R ∧ (S (length L) < fuel)%nat;
  configured o w all n := cj_open o = false ∧ ∃ L R n1 n2, n = (n1 + n2)%nat ∧
    configured KL (cj_left o) w L n1 ∧ configured KR (cj_right o) true R n2 ∧
    all = product L R ∧ (S (length L) < fuel)%nat;
  live o w all rest res n := cj_open o = true ∧ ∃ L R lrest rrest rl rr n1 n2, n = (n1 + n2)%nat ∧
    live KL (cj_left o) w L lrest rl n1 ∧ live KR (cj_right o) true R rrest rr n2 ∧ res = rl ++ rr ∧
    all = product L R ∧ (S (length L) < fuel)%nat ∧ (S (length lrest) < fuel)%nat ∧
    rest = product_rest (cj_current o) lrest R rrest;
  closed o := closed KL (cj_left o) ∧ closed KR (cj_right o)
|}.

(** Taking the next tuple of the left child. *)
Lemma cross_advance s (o : CrossJoin CL CR) w L lrest rl n fr :
  live KL (cj_left o) w L lrest rl n → sc_view s (rl ++ fr) → room fr n →
  ∃ s' l rl', Cross.advance s o = Ret (s', Cross.set_current (Cross.set_left o l) (head lrest), Ok tt) ∧
    live KL l w L (tail lrest) rl' n ∧ sc_view s' (rl' ++ fr).
Proof.
  intros Hl Hv Hroom. unfold Cross.advance.
  destruct (next_ok _ _ _ _ _ _ _ _ Hl Hv Hroom) as (s1 & l1 & rl1 & -> & Hl1 & Hv1). eauto 10.
Qed.

Lemma cross_next_loop fuel fuel0 s (o : CrossJoin CL CR) w L R lrest rrest rl rr n1 n2 fr :
  cj_open o = true → live KL (cj_left o) w L lrest rl n1 → live KR (cj_right o) true R rrest rr n2 →
  (S (length L) < fuel0)%nat → (S (length lrest) < fuel0)%nat → (S (length lrest) < fuel)%nat →
  sc_view s ((rl ++ rr) ++ fr) → room fr (n1 + n2) →
  let rest := product_rest (cj_current o) lrest R rrest in
  ∃ s' o' res', Cross.next_loop fuel s o = Ret (s', o', Ok (head rest)) ∧
    live (CrossJoin_contract fuel0) o' w (product L R) (tail rest) res' (n1 + n2) ∧ sc_view s' (res' ++ fr).
Proof.
  revert s o lrest rrest rl rr.
  induction fuel as [|fuel IH]; intros s o lrest rrest rl rr Ho Hl Hr Hf0 Hf1 Hf Hv Hroom rest; [lia|].
  cbn [Cross.next_loop]. subst rest. destruct (cj_current o) as [cur|] eqn:Ec; cbn [product_rest].
  - apply view_left, view_swap in Hv.
    destruct (next_ok _ _ _ _ _ _ _ _ Hr Hv) as (s1 & r1 & rr1 & -> & Hr1 & Hv1); [fits|]. step.
    destruct rrest as [|t rrest]; cbn [head].
    + destruct (rewind_ok _ _ _ _ _ _ _ Hr1 Hv1) as (s2 & r2 & rr2 & -> & Hr2 & Hv2); [fits|].
      step. apply view_swap in Hv2.
      destruct (cross_advance s2 (Cross.set_right (Cross.set_right o r1) r2) w L lrest rl _ _ Hl Hv2)
        as (s3 & l3 & rl3 & -> & Hl3 & Hv3); [fits|].
      step. cbn [fmap list_fmap app]. rewrite <-(product_start lrest R).
      destruct lrest as [|l lrest].
      * destruct fuel as [|fuel]; [lia|]. eexists _, _, (rl3 ++ rr2). split; [done|].
        split; [|by apply view_both]. split; [done|]. exists L, R, [], R, rl3, rr2, n1, n2. split_and!; done || simpl; lia.
      * apply (IH s3 (Cross.set_current _ (Some l)) lrest R rl3 rr2); try done; try (simpl in *; lia).
        by apply view_both.
    + eexists _, _, (rl ++ rr1). split; [done|]. split; [|by apply view_both, view_swap].
      split; [done|]. exists L, R, lrest, rrest, rl, rr1, n1, n2. cbn [cj_left cj_right cj_current Cross.set_right].
      rewrite Ec. split_and!; done || lia.
  - eexists _, _, (rl ++ rr). split; [done|]. split; [|done]. split; [done|].
    exists L, R, lrest, rrest, rl, rr, n1, n2. rewrite Ec. split_and!; done || lia.
Qed.

Lemma CrossJoin_laws fuel :
  OpLaws SM (CrossJoin CL CR) (ops := CrossJoin_ops lops rops fuel) (CrossJoin_contract fuel).
Proof.
  constructor.
  - intros o w all rest res n (_ & L & R & lrest & rrest & rl & rr & n1 & n2 & -> & Hl & Hr & -> & _). owns. rewrite length_app. lia.
  - intros o all n w (Ho & L & R & n1 & n2 & -> & HL & HR & -> & Hf). split; [done|]. exists L, R, n1, n2.
    split_and!; [done|by apply configure_ok|by apply configure_ok|done|done].
  - intros s o w all n fr (Ho & L & R & n1 & n2 & -> & HL & HR & -> & Hf) Hv Hroom. cbn. unfold Cross.open. rewrite Ho. simpl negb.
    destruct (open_ok _ _ _ _ _ _ HL Hv) as (s1 & l1 & rl & -> & Hl1 & Hv1); [fits|]. step.
    destruct (open_ok _ _ _ _ _ _ HR Hv1) as (s2 & r2 & rr & -> & Hr2 & Hv2); [fits|]. step.
    destruct (cross_advance s2 (Cross.set_right (Cross.set_left o l1) r2) w L L rl _ _ Hl1
      (view_swap _ _ _ _ Hv2)) as (s3 & l3 & rl3 & -> & Hl3 & Hv3); [fits|]. step.
    eexists _, _, (rl3 ++ rr). split; [done|]. split; [|by apply view_both].
    split; [done|]. exists L, R, (tail L), R, rl3, rr, n1, n2. split_and!; try done; [destruct L; simpl in *; lia|].
    symmetry. apply product_start.
  - intros s o w all rest res n fr (Ho & L & R & lrest & rrest & rl & rr & n1 & n2 & -> & Hl & Hr & -> & -> & Hf & Hf' & ->) Hv Hroom.
    cbn. unfold Cross.next. rewrite Ho. cbn [guard_or_panic mbind outcome_bind].
    eapply cross_next_loop; eauto.
  - intros s o all rest res n fr (Ho & L & R & lrest & rrest & rl & rr & n1 & n2 & -> & Hl & Hr & -> & -> & Hf & Hf' & ->) Hv Hroom.
    cbn. unfold Cross.rewind. apply view_left in Hv.
    destruct (rewind_ok _ _ _ _ _ _ _ Hl Hv) as (s1 & l1 & rl1 & -> & Hl1 & Hv1); [fits|]. step.
    destruct (rewind_ok _ _ _ _ _ _ _ Hr (view_swap _ _ _ _ Hv1)) as (s2 & r2 & rr2 & -> & Hr2 & Hv2); [fits|].
    step.
    destruct (cross_advance s2 (Cross.set_right (Cross.set_left o l1) r2) true L L rl1 _ _ Hl1
      (view_swap _ _ _ _ Hv2)) as (s3 & l3 & rl3 & -> & Hl3 & Hv3); [fits|]. step.
    eexists _, _, (rl3 ++ rr2). split; [done|]. split; [|by apply view_both].
    split; [done|]. exists L, R, (tail L), R, rl3, rr2, n1, n2. split_and!; try done; [destruct L; simpl in *; lia|].
    symmetry. apply product_start.
  - intros s o w all rest res n fr (Ho & L & R & lrest & rrest & rl & rr & n1 & n2 & -> & Hl & Hr & -> & -> & Hf & Hf' & ->) Hv.
    cbn. unfold Cross.close. apply view_left in Hv.
    destruct (close_ok _ _ _ _ _ _ _ _ Hl Hv) as (s1 & l1 & -> & Hc1 & Hv1). step.
    destruct (close_ok _ _ _ _ _ _ _ _ Hr Hv1) as (s2 & r2 & -> & Hc2 & Hv2). step.
    by eexists _, _.
  - intros s o fr [Hcl Hcr] Hv. cbn. unfold Cross.close.
    destruct (close_again _ _ _ Hcl Hv) as (s1 & l1 & -> & Hc1 & Hv1). step.
    destruct (close_again _ _ _ Hcr Hv1) as (s2 & r2 & -> & Hc2 & Hv2). step.
    by eexists _, _.
Qed.

(** ** Nested loop join *)

Section Theta.
Context (m : Tuple → Tuple → option bool).

(** The pairs of one left tuple, and of all, that satisfy the condition, when it returns
    on all pairs. *)
Fixpoint join_row (l : Tuple) (R : list Tuple) : option (list Tuple) :=
  match R with
  | [] => Some []
  | r :: R => b ← m l r; ts ← join_row l R; Some (if (b : bool) then Tup.merge l r :: ts else ts)
  end.
Fixpoint join (L R : list Tuple) : option (list Tuple) :=
  match L with
  | [] => Some []
  | l :: L => xs ← join_row l R; ys ← join L R; Some (xs ++ ys)
  end.

Definition join_rest (cur : option Tuple) (lrest R rrest : list Tuple) : option (list Tuple) :=
  match cur with
  | Some l => xs ← join_row l rrest; ys ← join lrest R; Some (xs ++ ys)
  | None => Some []
  end.

Lemma join_start L R : join_rest (head L) (tail L) R R = join L R.
Proof. by destruct L. Qed.
End Theta.

(** The condition of a nested loop join, when it returns. *)
Definition meets (o : NestedLoopJoin CL CR) (l r : Tuple) : option bool :=
  match Nested.matches o l r with Ret b => Some b | Panic => None end.

(** The rounds of the loop of [next] up to its end. *)
Definition rounds (lrest R rrest : list Tuple) : nat :=
  (length rrest + S (length lrest) * S (length R) + 1)%nat.

Definition NestedLoopJoin_contract (fuel : nat) : op_contract SM (NestedLoopJoin CL CR) := {|
  built o all n := nl_open o = false ∧ ∃ L R n1 n2, n = (n1 + n2)%nat ∧
    built KL (nl_left o) L n1 ∧ built KR (nl_right o) R n2 ∧
    join (meets o) L R = Some all ∧ (rounds L R R < fuel)%nat;
  configured o w all n := nl_open o = false ∧ ∃ L R n1 n2, n = (n1 + n2)%nat ∧
    configured KL (nl_left o) w L n1 ∧ configured KR (nl_right o) true R n2 ∧
    join (meets o) L R = Some all ∧ (rounds L R R < fuel)%nat;
  live o w all rest res n := nl_open o = true ∧ ∃ L R lrest rrest rl rr n1 n2, n = (n1 + n2)%nat ∧
    live KL (nl_left o) w L lrest rl n1 ∧ live KR (nl_right o) true R rrest rr n2 ∧ res = rl ++ rr ∧
    join (meets o) L R = Some all ∧ (rounds L R R < fuel)%nat ∧ (rounds lrest R rrest < fuel)%nat ∧
    join_rest (meets o) (nl_current o) lrest R rrest = Some rest;
  closed o := closed KL (nl_left o) ∧ closed KR (nl_right o)
|}.

Lemma nested_advance s (o : NestedLoopJoin CL CR) w L lrest rl n fr :
  live KL (nl_left o) w L lrest rl n → sc_view s (rl ++ fr) → room fr n →
  ∃ s' l rl', Nested.advance s o = Ret (s', Nested.set_current (Nested.set_left o l) (head lrest), Ok tt) ∧
    live KL l w L (tail lrest) rl' n ∧ sc_view s' (rl' ++ fr).
Proof.
  intros Hl Hv Hroom. unfold Nested.advance.
  destruct (next_ok _ _ _ _ _ _ _ _ Hl Hv Hroom) as (s1 & l1 & rl1 & -> & Hl1 & Hv1). eauto 10.
Qed.

Lemma rounds_tail L R : (rounds (tail L) R R ≤ rounds L R R)%nat.
Proof. unfold rounds. destruct L; simpl; lia. Qed.

Lemma nested_next_loop fuel fuel0 s (o : NestedLoopJoin CL CR) w L R lrest rrest rl rr all rest n1 n2 fr :
  nl_open o = true → live KL (nl_left o) w L lrest rl n1 → live KR (nl_right o) true R rrest rr n2 →
  join (meets o) L R = Some all → (rounds L R R < fuel0)%nat → (rounds lrest R rrest < fuel0)%nat →
  join_rest (meets o) (nl_current o) lrest R rrest = Some rest → (rounds lrest R rrest < fuel)%nat →
  sc_view s ((rl ++ rr) ++ fr) → room fr (n1 + n2) →
  ∃ s' o' res', Nested.next_loop fuel s o = Ret (s', o', Ok (head rest)) ∧
    live (NestedLoopJoin_contract fuel0) o' w all (tail rest) res' (n1 + n2) ∧ sc_view s' (res' ++ fr).
Proof.
  revert s o lrest rrest rl rr rest.
  induction fuel as [|fuel IH]; intros s o lrest rrest rl rr rest Ho Hl Hr Ha Hf0 Hf1 Hj Hf Hv Hroom; [lia|].
  cbn [Nested.next_loop]. destruct (nl_current o) as [cur|] eqn:Ec; cbn [join_rest] in Hj.
  - apply view_left, view_swap in Hv.
    destruct (next_ok _ _ _ _ _ _ _ _ Hr Hv) as (s1 & r1 & rr1 & -> & Hr1 & Hv1); [fits|]. step.
    destruct rrest as [|t rrest]; cbn [head].
    + destruct (rewind_ok _ _ _ _ _ _ _ Hr1 Hv1) as (s2 & r2 & rr2 & -> & Hr2 & Hv2); [fits|]. step.
      destruct (nested_advance s2 (Nested.set_right (Nested.set_right o r1) r2) w L lrest rl _ _ Hl
        (view_swap _ _ _ _ Hv2)) as (s3 & l3 & rl3 & -> & Hl3 & Hv3); [fits|]. step.
      simpl in Hj. rewrite <-(join_start (meets o) lrest R) in Hj.
      assert (rounds [] R R ≤ rounds L R R)%nat by (unfold rounds; simpl; lia).
      destruct lrest as [|l lrest].
      * destruct fuel as [|fuel]; [unfold rounds in *; simpl in *; lia|]. simpl in Hj. injection Hj as <-.
        eexists _, _, (rl3 ++ rr2). split; [done|]. split; [|by apply view_both].
        split; [done|]. exists L, R, [], R, rl3, rr2, n1, n2. split_and!; try done; lia.
      * apply (IH s3 (Nested.set_current _ (Some l)) lrest R rl3 rr2); try done;
          [unfold rounds in *; simpl in *; lia| |unfold rounds in *; simpl in *; lia|by apply view_both].
        change (join_rest (meets o) (Some l) lrest R R = Some rest). rewrite <-Hj.
        simpl. destruct (join_row (meets o) l R); [|done]. simpl. by destruct (join (meets o) lrest R).
    + cbn [join_row] in Hj. destruct (meets o cur t) as [b|] eqn:Em; [|done].
      assert (Nested.matches (Nested.set_right o r1) cur t = Ret b) as ->.
      { unfold meets in Em. change (Nested.matches (Nested.set_right o r1) cur t) with (Nested.matches o cur t).
        destruct (Nested.matches o cur t); congruence. }
      step. simpl in Hj. destruct (join_row (meets o) cur rrest) as [xs|] eqn:Ex; [|done]. simpl in Hj.
      destruct (join (meets o) lrest R) as [ys|] eqn:Ey; [|done]. simpl in Hj.
      assert (join_rest (meets (Nested.set_right o r1)) (Some cur) lrest R rrest = Some (xs ++ ys)) as Hj'.
      { change (join_rest (meets o) (Some cur) lrest R rrest = Some (xs ++ ys)). simpl. by rewrite Ex, Ey. }
      destruct b; simplify_eq.
      * eexists _, _, (rl ++ rr1). split; [done|]. split; [|by apply view_both, view_swap].
        split; [done|]. exists L, R, lrest, rrest, rl, rr1, n1, n2.
        split_and!; try done; [unfold rounds in *; simpl in *; lia|]. simpl. by rewrite Ec.
      * apply (IH s1 (Nested.set_right o r1) lrest rrest rl rr1); try done;
          [unfold rounds in *; simpl in *; lia| |unfold rounds in *; simpl in *; lia|by apply view_both, view_swap].
        simpl nl_current. by rewrite Ec.
  - injection Hj as <-. eexists _, _, (rl ++ rr). split; [done|]. split; [|done]. split; [done|].
    exists L, R, lrest, rrest, rl, rr, n1, n2. rewrite Ec. split_and!; done || lia.
Qed.

Lemma NestedLoopJoin_laws fuel :
  OpLaws SM (NestedLoopJoin CL CR) (ops := NestedLoopJoin_ops lops rops fuel) (NestedLoopJoin_contract fuel).
Proof.
  constructor.
  - intros o w all rest res n (_ & L & R & lrest & rrest & rl & rr & n1 & n2 & -> & Hl & Hr & -> & _). owns. rewrite length_app. lia.
  - intros o all n w (Ho & L & R & n1 & n2 & -> & HL & HR & Ha & Hf). split; [done|]. exists L, R, n1, n2.
    split_and!; [done|by apply configure_ok|by apply configure_ok|done|done].
  - intros s o w all n fr (Ho & L & R & n1 & n2 & -> & HL & HR & Ha & Hf) Hv Hroom. cbn. unfold Nested.open. rewrite Ho. simpl negb.
    destruct (open_ok _ _ _ _ _ _ HL Hv) as (s1 & l1 & rl & -> & Hl1 & Hv1); [fits|]. step.
    destruct (open_ok _ _ _ _ _ _ HR Hv1) as (s2 & r2 & rr & -> & Hr2 & Hv2); [fits|]. step.
    destruct (nested_advance s2 (Nested.set_right (Nested.set_left o l1) r2) w L L rl _ _ Hl1
      (view_swap _ _ _ _ Hv2)) as (s3 & l3 & rl3 & -> & Hl3 & Hv3); [fits|]. step.
    pose proof (rounds_tail L R). eexists _, _, (rl3 ++ rr). split; [done|]. split; [|by apply view_both].
    split; [done|]. exists L, R, (tail L), R, rl3, rr, n1, n2. split_and!; try done; [lia|].
    rewrite <-Ha. apply join_start.
  - intros s o w all rest res n fr (Ho & L & R & lrest & rrest & rl & rr & n1 & n2 & -> & Hl & Hr & -> & Ha & Hf & Hf' & Hj) Hv Hroom.
    cbn. unfold Nested.next. rewrite Ho. cbn [guard_or_panic mbind outcome_bind].
    eapply nested_next_loop; eauto.
  - intros s o all rest res n fr (Ho & L & R & lrest & rrest & rl & rr & n1 & n2 & -> & Hl & Hr & -> & Ha & Hf & Hf' & Hj) Hv Hroom.
    cbn. unfold Nested.rewind. rewrite Ho. apply view_left in Hv. cbn [guard_or_panic].
    destruct (rewind_ok _ _ _ _ _ _ _ Hl Hv) as (s1 & l1 & rl1 & E1 & Hl1 & Hv1); [fits|]. step. rewrite E1. step.
    destruct (rewind_ok _ _ _ _ _ _ _ Hr (view_swap _ _ _ _ Hv1)) as (s2 & r2 & rr2 & -> & Hr2 & Hv2); [fits|]. step.
    destruct (nested_advance s2 (Nested.set_right (Nested.set_left o l1) r2) true L L rl1 _ _ Hl1
      (view_swap _ _ _ _ Hv2)) as (s3 & l3 & rl3 & -> & Hl3 & Hv3); [fits|]. step.
    pose proof (rounds_tail L R). eexists _, _, (rl3 ++ rr2). split; [done|]. split; [|by apply view_both].
    split; [done|]. exists L, R, (tail L), R, rl3, rr2, n1, n2. split_and!; try done; [lia|].
    rewrite <-Ha. apply join_start.
  - intros s o w all rest res n fr (Ho & L & R & lrest & rrest & rl & rr & n1 & n2 & -> & Hl & Hr & -> & Ha & Hf & Hf' & Hj) Hv.
    cbn. unfold Nested.close. apply view_left in Hv.
    destruct (close_ok _ _ _ _ _ _ _ _ Hl Hv) as (s1 & l1 & -> & Hc1 & Hv1). step.
    destruct (close_ok _ _ _ _ _ _ _ _ Hr Hv1) as (s2 & r2 & -> & Hc2 & Hv2). step.
    by eexists _, _.
  - intros s o fr [Hcl Hcr] Hv. cbn. unfold Nested.close.
    destruct (close_again _ _ _ Hcl Hv) as (s1 & l1 & -> & Hc1 & Hv1). step.
    destruct (close_again _ _ _ Hcr Hv1) as (s2 & r2 & -> & Hc2 & Hv2). step.
    by eexists _, _.
Qed.

(** ** Hash join *)

(** The left tuples with their keys, and those with one key. *)
Fixpoint keyed (e : ByteCodeExpr) (L : list Tuple) : option (list (Field * Tuple)) :=
  match L with
  | [] => Some []
  | l :: L => k ← value e l; kl ← keyed e L; Some ((k, l) :: kl)
  end.
Definition bucket (kl : list (Field * Tuple)) (k : Field) : list Tuple :=
  (List.filter (λ p, bool_decide (p.1 = k)) kl).*2.

(** The pairs in the order of the hash join: by right tuple, then by left tuple. *)
Fixpoint hash_rows (kl : list (Field * Tuple)) (e : ByteCodeExpr) (R : list Tuple) : option (list Tuple) :=
  match R with
  | [] => Some []
  | r :: R =>
      k ← value e r; ts ← hash_rows kl e R;
      Some (((λ l, Tup.merge l r) <$> bucket kl k) ++ ts)
  end.

Definition hash_rest (kl : list (Field * Tuple)) (e : ByteCodeExpr) (cur : option Tuple) (idx : Z)
    (rrest : list Tuple) : option (list Tuple) :=
  match cur with
  | Some r =>
      k ← value e r; ts ← hash_rows kl e rrest;
      Some (((λ l, Tup.merge l r) <$> drop (Z.to_nat idx) (bucket kl k)) ++ ts)
  | None => Some []
  end.

Lemma hash_start kl e R : hash_rest kl e (head R) 0 (tail R) = hash_rows kl e R.
Proof. by destruct R. Qed.

(** The map holds the buckets of [kl]. *)
Definition holds_buckets (m : gmap Field (list Tuple)) (kl : list (Field * Tuple)) : Prop :=
  ∀ k, default [] (m !! k) = bucket kl k.

Lemma holds_buckets_snoc m kl k t :
  holds_buckets m kl → holds_buckets (HashEq.add_to_bucket m k t) (kl ++ [(k, t)]).
Proof.
  intros Hm k'. unfold HashEq.add_to_bucket, bucket. rewrite List.filter_app, fmap_app. simpl.
  destruct (decide (k = k')) as [<-|Hne].
  - rewrite lookup_insert_eq, bool_decide_eq_true_2 by done. simpl. by rewrite Hm.
  - rewrite lookup_insert_ne, bool_decide_eq_false_2 by done. simpl. by rewrite app_nil_r, Hm.
Qed.

Definition HashEqJoin_contract (fuel : nat) : op_contract SM (HashEqJoin CL CR) := {|
  built o all n := hj_open o = false ∧ hj_join_map o = ∅ ∧ ∃ L R kl n1 n2, n = (n1 + n2)%nat ∧
    built KL (hj_left o) L n1 ∧ built KR (hj_right o) R n2 ∧ keyed (hj_left_expr o) L = Some kl ∧
    hash_rows kl (hj_right_expr o) R = Some all ∧ (length L < fuel)%nat ∧ (S (length R) < fuel)%nat;
  configured o w all n := hj_open o = false ∧ hj_join_map o = ∅ ∧ ∃ L R kl n1 n2, n = (n1 + n2)%nat ∧
    configured KL (hj_left o) false L n1 ∧ configured KR (hj_right o) w R n2 ∧
    keyed (hj_left_expr o) L = Some kl ∧ hash_rows kl (hj_right_expr o) R = Some all ∧
    (length L < fuel)%nat ∧ (S (length R) < fuel)%nat;
  live o w all rest res n := hj_open o = true ∧ ∃ L R kl rrest rl rr n1 n2, n = (n1 + n2)%nat ∧
    live KL (hj_left o) false L [] rl n1 ∧ live KR (hj_right o) w R rrest rr n2 ∧ res = rl ++ rr ∧
    holds_buckets (hj_join_map o) kl ∧ hash_rows kl (hj_right_expr o) R = Some all ∧
    (S (length R) < fuel)%nat ∧ (S (length rrest) < fuel)%nat ∧ 0 ≤ hj_idx o ∧
    hash_rest kl (hj_right_expr o) (hj_current o) (hj_idx o) rrest = Some rest;
  closed o := closed KL (hj_left o) ∧ closed KR (hj_right o)
|}.

Lemma hash_advance s (o : HashEqJoin CL CR) w R rrest rr n fr :
  live KR (hj_right o) w R rrest rr n → sc_view s (rr ++ fr) → room fr n →
  ∃ s' r rr', HashEq.advance s o = Ret (s', HashEq.set_current (HashEq.set_right o r) (head rrest) 0, Ok tt) ∧
    live KR r w R (tail rrest) rr' n ∧ sc_view s' (rr' ++ fr).
Proof.
  intros Hl Hv Hroom. unfold HashEq.advance.
  destruct (next_ok _ _ _ _ _ _ _ _ Hl Hv Hroom) as (s1 & l1 & rl1 & -> & Hl1 & Hv1). eauto 10.
Qed.

Lemma hash_build fuel s (o : HashEqJoin CL CR) L lrest rl done kl n fr :
  live KL (hj_left o) false L lrest rl n → holds_buckets (hj_join_map o) done →
  keyed (hj_left_expr o) lrest = Some kl → (length lrest < fuel)%nat → sc_view s (rl ++ fr) → room fr n →
  ∃ s' l m rl', HashEq.build fuel s o = Ret (s', HashEq.set_map (HashEq.set_left o l) m, Ok tt) ∧
    live KL l false L [] rl' n ∧ holds_buckets m (done ++ kl) ∧ sc_view s' (rl' ++ fr).
Proof.
  revert s o lrest rl done kl. induction fuel as [|fuel IH]; intros s o lrest rl done kl Hl Hm Hk Hf Hv Hroom; [lia|].
  cbn [HashEq.build]. destruct (next_ok _ _ _ _ _ _ _ _ Hl Hv Hroom) as (s1 & l1 & rl1 & -> & Hl1 & Hv1). step.
  destruct lrest as [|t lrest]; simpl in Hk.
  - injection Hk as <-. rewrite app_nil_r. eexists s1, l1, (hj_join_map o), rl1. done.
  - destruct (value (hj_left_expr o) t) as [k|] eqn:Ek; [|done]. apply value_eval in Ek. simpl in Hk.
    destruct (keyed (hj_left_expr o) lrest) as [kl'|] eqn:Ekl; [|done]. injection Hk as <-. simpl in Hf.
    cbn [head]. change (hj_left_expr (HashEq.set_left o l1)) with (hj_left_expr o). rewrite Ek. step.
    destruct (IH s1 (HashEq.set_map (HashEq.set_left o l1) (HashEq.add_to_bucket (hj_join_map o) k t))
      lrest rl1 (done ++ [(k, t)]) kl') as (s' & l' & m' & rl' & E & H1 & H2 & H3); try done; [|lia|].
    + by apply holds_buckets_snoc.
    + rewrite <-app_assoc in H2. eexists s', l', m', rl'. by split.
Qed.

(** The bucket of the current right tuple from the current index on. *)
Lemma bucket_next_ok (o : HashEqJoin CL CR) kl r k :
  holds_buckets (hj_join_map o) kl → 0 ≤ hj_idx o → value (hj_right_expr o) r = Some k →
  HashEq.bucket_next o r = Ret (head (drop (Z.to_nat (hj_idx o)) (bucket kl k))).
Proof.
  intros Hm Hi Hk. apply value_eval in Hk. unfold HashEq.bucket_next. rewrite Hk. step. f_equal.
  rewrite <-Hm, head_lookup, lookup_drop, Nat.add_0_r.
  destruct (hj_join_map o !! k); simpl; [by apply nth_u_lookup|done].
Qed.

Lemma hash_next_loop fuel fuel0 s (o : HashEqJoin CL CR) w L R kl rrest rl rr all rest n1 n2 fr :
  hj_open o = true → live KL (hj_left o) false L [] rl n1 → live KR (hj_right o) w R rrest rr n2 →
  holds_buckets (hj_join_map o) kl → hash_rows kl (hj_right_expr o) R = Some all →
  (S (length R) < fuel0)%nat → (S (length rrest) < fuel0)%nat → (S (length rrest) < fuel)%nat → 0 ≤ hj_idx o →
  hash_rest kl (hj_right_expr o) (hj_current o) (hj_idx o) rrest = Some rest →
  sc_view s ((rl ++ rr) ++ fr) → room fr (n1 + n2) →
  ∃ s' o' res', HashEq.next_loop fuel s o = Ret (s', o', Ok (head rest)) ∧
    live (HashEqJoin_contract fuel0) o' w all (tail rest) res' (n1 + n2) ∧ sc_view s' (res' ++ fr).
Proof.
  revert s o rrest rr rest.
  induction fuel as [|fuel IH]; intros s o rrest rr rest Ho Hl Hr Hm Ha Hf0 Hf1 Hf Hi Hj Hv Hroom; [lia|].
  cbn [HashEq.next_loop]. destruct (hj_current o) as [cur|] eqn:Ec; cbn [hash_rest] in Hj.
  - destruct (value (hj_right_expr o) cur) as [k|] eqn:Ek; [|done]. simpl in Hj.
    destruct (hash_rows kl (hj_right_expr o) rrest) as [ts|] eqn:Ets; [|done]. simpl in Hj.
    rewrite (bucket_next_ok o kl cur k Hm Hi Ek). step.
    destruct (drop (Z.to_nat (hj_idx o)) (bucket kl k)) as [|l bk] eqn:Eb; injection Hj as <-; cbn [head].
    + apply view_left, view_swap in Hv.
      destruct (hash_advance s o w R rrest rr _ _ Hr Hv) as (s1 & r1 & rr1 & -> & Hr1 & Hv1); [fits|]. step.
      rewrite <-(hash_start kl (hj_right_expr o) rrest) in Ets. destruct rrest as [|r rrest].
      * destruct fuel as [|fuel]; [lia|]. injection Ets as <-. eexists _, _, (rl ++ rr1). split; [done|].
        split; [|by apply view_both, view_swap]. split; [done|].
        exists L, R, kl, [], rl, rr1, n1, n2. split_and!; done || simpl in *; lia.
      * apply (IH s1 (HashEq.set_current (HashEq.set_right o r1) (Some r) 0) rrest rr1); try done;
          try (simpl in *; lia). by apply view_both, view_swap.
    + eexists _, _, (rl ++ rr). split; [done|]. split; [|done]. split; [done|].
      exists L, R, kl, rrest, rl, rr, n1, n2. cbn [hj_current hj_idx HashEq.set_current HashEq.set hj_right_expr
        hj_left hj_right hj_join_map]. split_and!; try done; [lia|].
      cbn [hash_rest tail]. rewrite Ek. simpl. rewrite Ets. simpl. do 2 f_equal.
      replace (Z.to_nat (hj_idx o + 1)) with (Z.to_nat (hj_idx o) + 1)%nat by lia.
      by rewrite <-drop_drop, Eb.
  - injection Hj as <-. eexists _, _, (rl ++ rr). split; [done|]. split; [|done]. split; [done|].
    exists L, R, kl, rrest, rl, rr, n1, n2. rewrite Ec. split_and!; done || lia.
Qed.

Lemma HashEqJoin_laws fuel :
  OpLaws SM (HashEqJoin CL CR) (ops := HashEqJoin_ops lops rops fuel) (HashEqJoin_contract fuel).
Proof.
  constructor.
  - intros o w all rest res n (_ & L & R & kl & rrest & rl & rr & n1 & n2 & -> & Hl & Hr & -> & _). owns. rewrite length_app. lia.
  - intros o all n w (Ho & Hm & L & R & kl & n1 & n2 & -> & HL & HR & Hk & Ha & HfL & HfR). split; [done|]. split; [done|].
    exists L, R, kl, n1, n2. split_and!; [done|by apply configure_ok|by apply configure_ok|done..].
  - intros s o w all n fr (Ho & Hm & L & R & kl & n1 & n2 & -> & HL & HR & Hk & Ha & HfL & HfR) Hv Hroom.
    cbn. unfold HashEq.open. rewrite Ho. simpl negb.
    destruct (open_ok _ _ _ _ _ _ HL Hv) as (s1 & l1 & rl & -> & Hl1 & Hv1); [fits|]. step.
    destruct (hash_build fuel s1 (HashEq.set_left o l1) L L rl [] kl _ fr Hl1) as (s2 & l2 & m & rl2 & -> & Hl2 & Hm2 & Hv2);
      try done; [intros k; simpl; by rewrite Hm|fits|].
    step. destruct (open_ok _ _ _ _ _ _ HR Hv2) as (s3 & r3 & rr & -> & Hr3 & Hv3); [fits|]. step.
    destruct (hash_advance s3 (HashEq.set_right (HashEq.set_map (HashEq.set_left (HashEq.set_left o l1) l2) m) r3)
      w R R rr _ _ Hr3 Hv3) as (s4 & r4 & rr4 & -> & Hr4 & Hv4); [fits|]. step.
    eexists _, _, (rl2 ++ rr4). split; [done|]. split; [|by apply view_both, view_swap].
    split; [done|]. exists L, R, kl, (tail R), rl2, rr4, n1, n2.
    split_and!; try done; [destruct R; simpl in *; lia|]. rewrite <-Ha. apply hash_start.
  - intros s o w all rest res n fr
      (Ho & L & R & kl & rrest & rl & rr & n1 & n2 & -> & Hl & Hr & -> & Hm & Ha & Hf & Hf' & Hi & Hj) Hv Hroom.
    cbn. unfold HashEq.next. rewrite Ho. cbn [guard_or_panic mbind outcome_bind].
    eapply hash_next_loop; eauto.
  - intros s o all rest res n fr
      (Ho & L & R & kl & rrest & rl & rr & n1 & n2 & -> & Hl & Hr & -> & Hm & Ha & Hf & Hf' & Hi & Hj) Hv Hroom.
    cbn. unfold HashEq.rewind. rewrite Ho. apply view_left, view_swap in Hv. cbn [guard_or_panic]. step.
    destruct (rewind_ok _ _ _ _ _ _ _ Hr Hv) as (s1 & r1 & rr1 & -> & Hr1 & Hv1); [fits|]. step.
    destruct (hash_advance s1 (HashEq.set_right o r1) true R R rr1 _ _ Hr1 Hv1) as (s2 & r2 & rr2 & -> & Hr2 & Hv2); [fits|].
    step. eexists _, _, (rl ++ rr2). split; [done|]. split; [|by apply view_both, view_swap].
    split; [done|]. exists L, R, kl, (tail R), rl, rr2, n1, n2.
    split_and!; try done; [destruct R; simpl in *; lia|]. rewrite <-Ha. apply hash_start.
  - intros s o w all rest res n fr
      (Ho & L & R & kl & rrest & rl & rr & n1 & n2 & -> & Hl & Hr & -> & Hm & Ha & Hf & Hf' & Hi & Hj) Hv.
    cbn. unfold HashEq.close. apply view_left in Hv.
    destruct (close_ok _ _ _ _ _ _ _ _ Hl Hv) as (s1 & l1 & -> & Hc1 & Hv1). step.
    destruct (close_ok _ _ _ _ _ _ _ _ Hr Hv1) as (s2 & r2 & -> & Hc2 & Hv2). step.
    by eexists _, _.
  - intros s o fr [Hcl Hcr] Hv. cbn. unfold HashEq.close.
    destruct (close_again _ _ _ Hcl Hv) as (s1 & l1 & -> & Hc1 & Hv1). step.
    destruct (close_again _ _ _ Hcr Hv1) as (s2 & r2 & -> & Hc2 & Hv2). step.
    by eexists _, _.
Qed.
End Laws.
