(* ===== verification/OpSort.v ===== *)
(** * Operators: sorting and merging

    Models [Sort] of [queryexe/src/opiterator/sort.rs] over any child: the tuples of the
    child with their keys are sorted in reverse, and given from the back. Models
    [SortMergeJoin] of [sort_merge_join.rs] over any two children. Both keep the laws of
    operators; what they give is stated in [OpRun.v]. *)

From S2P Require Import Prelude Common Ordering Field FieldContract Tuple ByteCode OpIterator.
From S2P Require Import OpBasic.
From stdpp Require Import strings sorting.

Open Scope Z_scope.

Record Sort (C : Type) := mkSort {
  so_schema : TableSchema;
  so_fields : list (ByteCodeExpr * bool);
  so_child : C;
  so_will_rewind : bool;
  so_open : bool;
  so_data : list (list Field * Tuple);
  so_index : Z
}.
Arguments mkSort {C} _ _ _ _ _ _ _.
Arguments so_schema {C} _.
Arguments so_fields {C} _.
Arguments so_child {C} _.
Arguments so_will_rewind {C} _.
Arguments so_open {C} _.
Arguments so_data {C} _.
Arguments so_index {C} _.

(** The comparison of sort keys, key by key in the given directions. The keys have one
    value per direction, since they are made by evaluating one expression for each. *)
Fixpoint compare_keys (l r : list Field) (ascs : list bool) : comparison :=
  match ascs with
  | [] => Eq
  | asc :: ascs =>
      cmp_then
        (if (asc : bool) then cmp_option field_cmp (head l) (head r)
         else cmp_option field_cmp (head r) (head l))
        (compare_keys (tail l) (tail r) ascs)
  end.

Module Sorting.
Section Ops.
Context {SM C : Type} {ops : OpIterator SM C}.

Definition new (fields : list (ByteCodeExpr * bool)) (schema : TableSchema) (child : C) : Sort C :=
  mkSort schema fields child true false [] 0.

Definition set (o : Sort C) (c : C) (op : bool) (data : list (list Field * Tuple)) (i : Z) : Sort C :=
  mkSort (so_schema o) (so_fields o) c (so_will_rewind o) op data i.
Definition set_child (o : Sort C) (c : C) : Sort C := set o c (so_open o) (so_data o) (so_index o).

Definition configure (w : bool) (o : Sort C) : Sort C :=
  mkSort (so_schema o) (so_fields o) (OpIterator.configure (SM := SM) false (so_child o)) w (so_open o)
    (so_data o) (so_index o).

(** The loop of [open] over the child. *)
Fixpoint collect (fuel : nat) (s : SM) (o : Sort C) : outcome (SM * Sort C * result CrustyError unit) :=
  match fuel with
  | O => Panic
  | S fuel =>
      '(s, c, r) ← OpIterator.next s (so_child o);
      let o := set_child o c in
      let? t := r at s, o in
      match t with
      | None => Ret (s, o, Ok tt)
      | Some tuple =>
          sort_key ← eval_all (so_fields o).*1 tuple;
          collect fuel s (set o (so_child o) (so_open o) (so_data o ++ [(sort_key, tuple)]) (so_index o))
      end
  end.

(** Before or equal, in the reverse of the wanted order. *)
Definition rev_le (fields : list (ByteCodeExpr * bool)) (a b : list Field * Tuple) : bool :=
  match compare_keys a.1 b.1 (negb <$> fields.*2) with Gt => false | _ => true end.

Definition open (fuel : nat) (s : SM) (o : Sort C) : outcome (SM * Sort C * result CrustyError unit) :=
  if negb (so_open o) then
    '(s, c, r) ← OpIterator.open s (so_child o);
    let o := set_child o c in
    let? _ := r at s, o in
    '(s, o, r) ← collect fuel s o;
    let? _ := r at s, o in
    '(s, c, r) ← OpIterator.close s (so_child o);
    let o := set_child o c in
    let? _ := r at s, o in
    let data := sort_by (rev_le (so_fields o)) (so_data o) in
    Ret (s, set o (so_child o) true data (zlen data), Ok tt)
  else Ret (s, o, Ok tt).

Definition next (s : SM) (o : Sort C) : outcome (SM * Sort C * result CrustyError (option Tuple)) :=
  _ ← guard_or_panic (so_open o);
  if so_will_rewind o then
    if so_index o =? 0 then Ret (s, o, Ok None)
    else
      let i := so_index o - 1 in
      Ret (s, set o (so_child o) (so_open o) (so_data o) i, Ok (snd <$> nth_u (so_data o) i))
  else
    Ret (s, set o (so_child o) (so_open o) (take (length (so_data o) - 1) (so_data o)) (so_index o),
         Ok (snd <$> last (so_data o))).

Definition close (s : SM) (o : Sort C) : outcome (SM * Sort C * result CrustyError unit) :=
  '(s, c, r) ← OpIterator.close s (so_child o);
  let o := set_child o c in
  let? _ := r at s, o in
  Ret (s, set o (so_child o) false [] 0, Ok tt).

Definition rewind (s : SM) (o : Sort C) : outcome (SM * Sort C * result CrustyError unit) :=
  _ ← guard_or_panic (so_open o);
  _ ← guard_or_panic (so_will_rewind o);
  Ret (s, set o (so_child o) (so_open o) (so_data o) (zlen (so_data o)), Ok tt).
End Ops.
End Sorting.

Definition Sort_ops {SM C} (ops : OpIterator SM C) (fuel : nat) : OpIterator SM (Sort C) := {|
  configure := Sorting.configure;
  open := Sorting.open fuel;
  next := Sorting.next;
  close := Sorting.close;
  rewind := Sorting.rewind;
  get_schema := so_schema
|}.

(** ** The contract *)

(** The tuples with their keys, when no key panics. *)
Fixpoint with_keys (es : list ByteCodeExpr) (l : list Tuple) : option (list (list Field * Tuple)) :=
  match l with
  | [] => Some []
  | t :: l => k ← values es t; kl ← with_keys es l; Some ((k, t) :: kl)
  end.

Section Laws.
Context {SM : Type} {scan : ScanTrait SM} {tbl : Z → option (list item)} {scan_laws : ScanLaws SM tbl}.
Context {C : Type} {ops : OpIterator SM C} (K : op_contract SM C) {laws : OpLaws SM C K}.

(** What a sort gives for the tuples of its child. *)
Definition sorted_output (fields : list (ByteCodeExpr * bool)) (l : list Tuple) : option (list Tuple) :=
  kl ← with_keys fields.*1 l; Some (reverse (sort_by (Sorting.rev_le fields) kl).*2).

Definition Sort_contract (fuel : nat) : op_contract SM (Sort C) := {|
  built o all n := so_open o = false ∧ so_data o = [] ∧ ∃ call, built K (so_child o) call n ∧
    sorted_output (so_fields o) call = Some all ∧ (length call < fuel)%nat;
  configured o w all n := so_open o = false ∧ so_data o = [] ∧ so_will_rewind o = w ∧ ∃ call,
    configured K (so_child o) false call n ∧
    sorted_output (so_fields o) call = Some all ∧ (length call < fuel)%nat;
  live o w all rest res n := so_open o = true ∧ so_will_rewind o = w ∧ res = [] ∧ closed K (so_child o) ∧
    (∃ done, all = done ++ rest) ∧
    if w then (so_data o).*2 = reverse all ∧ so_index o = zlen rest else (so_data o).*2 = reverse rest;
  closed o := closed K (so_child o)
|}.

Lemma sort_collect fuel s (o : Sort C) call crest kl res n fr :
  live K (so_child o) false call crest res n → with_keys (so_fields o).*1 crest = Some kl →
  (length crest < fuel)%nat → sc_view s (res ++ fr) → room fr n →
  ∃ s' c res', Sorting.collect fuel s o =
      Ret (s', Sorting.set o c (so_open o) (so_data o ++ kl) (so_index o), Ok tt) ∧
    live K c false call [] res' n ∧ sc_view s' (res' ++ fr).
Proof.
  revert s o crest kl res. induction fuel as [|fuel IH]; intros s o crest kl res Hl Hk Hf Hv Hroom; [lia|].
  cbn [Sorting.collect]. destruct (next_ok _ _ _ _ _ _ _ _ Hl Hv Hroom) as (s1 & c1 & res1 & -> & Hl1 & Hv1).
  cbn [mbind outcome_bind or_return]. destruct crest as [|t crest]; simpl in Hk.
  - injection Hk as <-. rewrite app_nil_r. by eexists s1, c1, res1.
  - destruct (values (so_fields o).*1 t) as [k|] eqn:Ek; [|done]. apply values_Some in Ek. simpl in Hk.
    destruct (with_keys (so_fields o).*1 crest) as [kl'|] eqn:Ekl; [|done]. injection Hk as <-. simpl in Hf.
    cbn [head]. change (so_fields (Sorting.set_child o c1)) with (so_fields o). rewrite Ek.
    cbn [mbind outcome_bind].
    destruct (IH s1 (Sorting.set (Sorting.set_child o c1) c1 (so_open o) (so_data o ++ [(k, t)]) (so_index o))
      crest kl' res1) as (s' & c' & res' & E & H1 & H2); try done; [lia|].
    exists s', c', res'. split; [|done]. cbn in E. rewrite <-app_assoc in E. exact E.
Qed.

Lemma nth_reverse_snd (l : list (list Field * Tuple)) done t rest :
  l.*2 = reverse (done ++ t :: rest) → snd <$> nth_u l (zlen (t :: rest) - 1) = Some t.
Proof.
  intros E. rewrite nth_u_lookup by len. rewrite <-list_lookup_fmap, E, reverse_app, reverse_cons.
  rewrite lookup_app_l by (rewrite length_app, length_reverse; len).
  rewrite lookup_app_r by (rewrite length_reverse; len).
  rewrite length_reverse. replace (_ - _)%nat with 0%nat by len. done.
Qed.

Lemma pop_reverse_snd (l : list (list Field * Tuple)) t rest :
  l.*2 = reverse (t :: rest) → snd <$> last l = Some t ∧ (take (length l - 1) l).*2 = reverse rest.
Proof.
  intros E. rewrite <-fmap_last, fmap_take, E, reverse_cons, last_snoc. split; [done|].
  apply (f_equal length) in E. rewrite length_fmap in E. rewrite E, length_reverse. simpl.
  rewrite Nat.sub_0_r, take_app_length' by (by rewrite length_reverse). done.
Qed.

Lemma sort_next s o w all rest res n fr fuel :
  live (Sort_contract fuel) o w all rest res n → sc_view s (res ++ fr) →
  ∃ s' o' res', Sorting.next s o = Ret (s', o', Ok (head rest)) ∧
    live (Sort_contract fuel) o' w all (tail rest) res' n ∧ sc_view s' (res' ++ fr).
Proof.
  intros (Ho & Hw & -> & Hc & [done ->] & Hd) Hv. unfold Sorting.next. rewrite Ho, Hw.
  cbn [guard_or_panic mbind outcome_bind]. destruct w.
  - destruct Hd as [Ht Hi]. rewrite Hi. destruct rest as [|t rest].
    + eexists _, _, []. split; [done|]. split; [|done]. split_and!; eauto.
    + rewrite (proj2 (Z.eqb_neq _ _)) by len. rewrite (nth_reverse_snd _ _ _ _ Ht).
      eexists _, _, []. split; [done|]. split; [|done]. cbn.
      split_and!; try done; [|len]. exists (done ++ [t]). by rewrite <-app_assoc.
  - destruct rest as [|t rest].
    + apply fmap_nil_inv in Hd. rewrite Hd. eexists _, _, []. split; [done|]. split; [|done]. split_and!; eauto.
    + apply pop_reverse_snd in Hd as [-> Hd]. eexists _, _, []. split; [done|]. split; [|done].
      split_and!; try done. exists (done ++ [t]). by rewrite <-app_assoc.
Qed.

Lemma Sort_laws fuel : OpLaws SM (Sort C) (ops := Sort_ops ops fuel) (Sort_contract fuel).
Proof.
  constructor.
  - intros o w all rest res n (_ & _ & -> & _). simpl. lia.
  - intros o all n w (Ho & Hd & call & Hb & Hs & Hf). split_and!; try done. exists call.
    split_and!; [by apply configure_ok|done|done].
  - intros s o w all n fr (Ho & Hd & Hw & call & Hb & Hs & Hf) Hv Hroom. cbn. unfold Sorting.open. rewrite Ho.
    unfold sorted_output in Hs. destruct (with_keys (so_fields o).*1 call) as [kl|] eqn:Ek; [|done].
    injection Hs as <-. cbn [negb].
    destruct (open_ok _ _ _ _ _ _ Hb Hv Hroom) as (s1 & c1 & res & -> & Hl & Hv1). cbn [mbind outcome_bind or_return].
    destruct (sort_collect fuel s1 (Sorting.set_child o c1) call call kl res n fr) as (s2 & c2 & res2 & -> & Hl2 & Hv2);
      try done. cbn [mbind outcome_bind or_return]. simpl so_child.
    destruct (close_ok _ _ _ _ _ _ _ _ Hl2 Hv2) as (s3 & c3 & -> & Hc3 & Hv3). cbn [mbind outcome_bind or_return].
    eexists _, _, []. split; [done|]. split; [|done]. cbn. rewrite Hd. simpl.
    split_and!; try done; [by exists []|]. rewrite !reverse_involutive.
    destruct w; [|done]. split; [done|]. unfold zlen. by rewrite length_reverse, length_fmap.
  - intros s o w all rest res n fr Hl Hv _. exact (sort_next s o w all rest res n fr fuel Hl Hv).
  - intros s o all rest res n fr (Ho & Hw & -> & Hc & Hd & Ht & Hi) Hv _. cbn. unfold Sorting.rewind.
    rewrite Ho, Hw. eexists _, _, []. split; [done|]. split; [|done]. cbn.
    split_and!; try done; [by exists []|]. apply (f_equal length) in Ht. unfold zlen.
    by rewrite length_fmap, length_reverse in Ht; rewrite Ht.
  - intros s o w all rest res n fr (_ & _ & -> & Hc & _) Hv. cbn. unfold Sorting.close.
    destruct (close_again _ _ _ Hc Hv) as (s1 & c1 & -> & Hc1 & Hv1). cbn [mbind outcome_bind or_return].
    by eexists _, _.
  - intros s o fr Hc Hv. cbn in Hc |- *. unfold Sorting.close.
    destruct (close_again _ _ _ Hc Hv) as (s1 & c1 & -> & Hc1 & Hv1). cbn [mbind outcome_bind or_return].
    by eexists _, _.
Qed.
End Laws.

(** ** What sorting gives *)

Lemma compare_keys_negb l r ascs : compare_keys l r (negb <$> ascs) = compare_keys r l ascs.
Proof.
  revert l r. induction ascs as [|asc ascs IH]; intros l r; simpl; [done|]. rewrite IH. by destruct asc.
Qed.

Lemma compare_keys_opp l r ascs : compare_keys r l ascs = CompOpp (compare_keys l r ascs).
Proof.
  revert l r. induction ascs as [|asc ascs IH]; intros l r; simpl; [done|]. rewrite (IH (tail l)).
  rewrite (cmp_opp (cmp := cmp_option field_cmp) (head l) (head r)).
  by destruct asc, (cmp_option field_cmp (head l) (head r)).
Qed.

Definition keys_le (ascs : list bool) (l r : list Field) : bool :=
  match compare_keys l r ascs with Gt => false | _ => true end.

Lemma keys_le_total ascs l r : keys_le ascs l r = false → keys_le ascs r l = true.
Proof. unfold keys_le. rewrite (compare_keys_opp l r). by destruct (compare_keys l r ascs). Qed.

(** One direction of one key, as an order. *)
Lemma directed_ord (asc : bool) :
  OrdLaws (λ x y, if asc then cmp_option field_cmp x y else cmp_option field_cmp y x).
Proof.
  destruct asc; [apply _|]. constructor.
  - intros a b E. by rewrite (cmp_eq (cmp := cmp_option field_cmp) b a E).
  - intros a. apply (cmp_refl (cmp := cmp_option field_cmp)).
  - intros a b. apply (cmp_opp (cmp := cmp_option field_cmp)).
  - intros a b c H1 H2. by apply (cmp_trans (cmp := cmp_option field_cmp) c b a).
Qed.

Lemma keys_le_trans ascs l m r : keys_le ascs l m = true → keys_le ascs m r = true → keys_le ascs l r = true.
Proof.
  unfold keys_le. revert l m r. induction ascs as [|asc ascs IH]; intros l m r; simpl; [done|].
  set (d := λ x y, if asc then cmp_option field_cmp x y else cmp_option field_cmp y x).
  assert (OrdLaws d) as Hd by apply directed_ord.
  change (if asc then cmp_option field_cmp (head l) (head m) else _) with (d (head l) (head m)).
  change (if asc then cmp_option field_cmp (head m) (head r) else _) with (d (head m) (head r)).
  change (if asc then cmp_option field_cmp (head l) (head r) else _) with (d (head l) (head r)).
  destruct (d (head l) (head m)) eqn:E1; simpl; try done.
  - apply (cmp_eq (cmp := d)) in E1. rewrite E1. destruct (d (head m) (head r)); simpl; try done. apply IH.
  - intros _. destruct (d (head m) (head r)) eqn:E2; simpl; try done.
    + apply (cmp_eq (cmp := d)) in E2. rewrite <-E2, E1. done.
    + by rewrite (cmp_trans (cmp := d) _ _ _ E1 E2).
Qed.

Lemma StronglySorted_reverse {A} (R : A → A → Prop) l :
  StronglySorted R l → StronglySorted (flip R) (reverse l).
Proof.
  induction 1 as [|x l Hs IH Hx]; [constructor|]. rewrite reverse_cons.
  apply StronglySorted_app_2; [|done|by repeat constructor].
  intros y z Hy ->%list_elem_of_singleton. rewrite elem_of_reverse in Hy.
  by eapply Forall_forall in Hx.
Qed.

Lemma with_keys_ok es l kl :
  with_keys es l = Some kl → kl.*2 = l ∧ Forall (λ p, values es p.2 = Some p.1) kl.
Proof.
  revert kl. induction l as [|t l IH]; simpl; intros kl E; [by simplify_eq|].
  destruct (values es t) as [k|] eqn:Ek; [|done]. simpl in E.
  destruct (with_keys es l) as [kl'|]; [|done]. injection E as <-.
  destruct (IH kl' eq_refl) as [E' HF].
  split; [by rewrite fmap_cons, E'|by constructor].
Qed.

Lemma sorted_output_ok fields l out :
  sorted_output fields l = Some out →
  out ≡ₚ l ∧
  StronglySorted (λ t u, ∃ kt ku, values fields.*1 t = Some kt ∧ values fields.*1 u = Some ku ∧
    compare_keys kt ku fields.*2 ≠ Gt) out.
Proof.
  unfold sorted_output. destruct (with_keys fields.*1 l) as [kl|] eqn:Ek; [|done]. intros [= <-].
  apply with_keys_ok in Ek as [El Hk]. split.
  - rewrite reverse_Permutation, sort_by_Permutation. by rewrite El.
  - rewrite <-fmap_reverse.
    assert (StronglySorted (λ a b, Sorting.rev_le fields a b = true) (sort_by (Sorting.rev_le fields) kl)) as Hs.
    { apply sort_by_sorted; intros *; unfold Sorting.rev_le; rewrite !compare_keys_negb.
      - apply keys_le_total.
      - intros H1 H2. exact (keys_le_trans _ _ _ _ H2 H1). }
    apply StronglySorted_reverse in Hs.
    assert (Forall (λ p, values fields.*1 p.2 = Some p.1) (reverse (sort_by (Sorting.rev_le fields) kl))) as Hk'.
    { by rewrite reverse_Permutation, sort_by_Permutation. }
    clear Hk. rename Hk' into Hk.
    induction Hs as [|a m Hs IH Ha]; [constructor|]. apply Forall_cons in Hk as [Hka Hkm].
    simpl. constructor; [by apply IH|]. apply Forall_fmap. rewrite Forall_forall in Ha, Hkm |- *.
    intros b Hb. specialize (Ha b Hb). unfold flip, Sorting.rev_le in Ha.
    rewrite compare_keys_negb in Ha. exists a.1, b.1. split_and!; [done|by apply Hkm|].
    by destruct (compare_keys a.1 b.1 fields.*2).
Qed.

(** ** Sort-merge join

    Models [SortMergeJoin] of [queryexe/src/opiterator/sort_merge_join.rs]: both inputs are
    read and sorted when the join is opened, and [next] steps through the ranges of equal
    keys. *)

(** The ranges of equal keys, from [first] to [end], and the pair of tuples that is next. *)
Record Ranges := mkRanges { l_first : Z; r_first : Z; l_end : Z; r_end : Z; l_cursor : Z; r_cursor : Z }.
Definition no_ranges : Ranges := mkRanges 0 0 0 0 0 0.

Record SortMergeJoin (CL CR : Type) := mkSortMergeJoin {
  smj_schema : TableSchema;
  smj_left_expr : list (ByteCodeExpr * bool);
  smj_right_expr : list (ByteCodeExpr * bool);
  smj_left : CL;
  smj_right : CR;
  smj_will_rewind : bool;
  smj_open : bool;
  left_child_read : bool;
  right_child_read : bool;
  left_sorted_data : list (list Field * Tuple);
  right_sorted_data : list (list Field * Tuple);
  smj_ranges : Ranges
}.
Arguments mkSortMergeJoin {CL CR} _ _ _ _ _ _ _ _ _ _ _ _.
Arguments smj_schema {CL CR} _.
Arguments smj_left_expr {CL CR} _.
Arguments smj_right_expr {CL CR} _.
Arguments smj_left {CL CR} _.
Arguments smj_right {CL CR} _.
Arguments smj_will_rewind {CL CR} _.
Arguments smj_open {CL CR} _.
Arguments left_child_read {CL CR} _.
Arguments right_child_read {CL CR} _.
Arguments left_sorted_data {CL CR} _.
Arguments right_sorted_data {CL CR} _.
Arguments smj_ranges {CL CR} _.

Module SortMerge.

(** One side: the tuples of a child with their keys, after those in [data]. *)
Fixpoint collect {SM C} {ops : OpIterator SM C} (fuel : nat) (s : SM) (c : C) (exprs : list (ByteCodeExpr * bool))
    (data : list (list Field * Tuple)) : outcome (SM * C * list (list Field * Tuple) * result CrustyError unit) :=
  match fuel with
  | O => Panic
  | S fuel =>
      '(s, c, r) ← OpIterator.next s c;
      match r with
      | Err e => Ret (s, c, data, Err e)
      | Ok None => Ret (s, c, data, Ok tt)
      | Ok (Some tuple) => sort_key ← eval_all exprs.*1 tuple; collect fuel s c exprs (data ++ [(sort_key, tuple)])
      end
  end.

(** Before or equal, in the order of the keys. *)
Definition key_le (exprs : list (ByteCodeExpr * bool)) (a b : list Field * Tuple) : bool :=
  match compare_keys a.1 b.1 exprs.*2 with Gt => false | _ => true end.

(** Opens, reads, closes and sorts one side, unless it has been read; the last but one result
    tells whether it has been read. *)
Definition read_side {SM C} {ops : OpIterator SM C} (fuel : nat) (s : SM) (c : C) (exprs : list (ByteCodeExpr * bool)) (child_read : bool)
    (data : list (list Field * Tuple)) : outcome (SM * C * list (list Field * Tuple) * bool * result CrustyError unit) :=
  if child_read then Ret (s, c, data, true, Ok tt)
  else
    '(s, c, r) ← OpIterator.open s c;
    match r with
    | Err e => Ret (s, c, data, false, Err e)
    | Ok _ =>
        '(s, c, data, r) ← collect fuel s c exprs data;
        match r with
        | Err e => Ret (s, c, data, false, Err e)
        | Ok _ =>
            '(s, c, r) ← OpIterator.close s c;
            match r with
            | Err e => Ret (s, c, data, false, Err e)
            | Ok _ => Ret (s, c, sort_by (key_le exprs) data, true, Ok tt)
            end
        end
    end.

(** The end of the run of keys equal to [key] from [i] on. *)
Fixpoint run_end (fuel : nat) (data : list (list Field * Tuple)) (key : list Field) (ascs : list bool) (i : Z) : outcome Z :=
  if i <? zlen data then
    match fuel with
    | O => Panic
    | S fuel =>
        x ← unwrap (nth_u data i);
        match compare_keys key x.1 ascs with Eq => run_end fuel data key ascs (i + 1) | _ => Ret i end
    end
  else Ret i.

(** The next ranges of equal keys, when there are some. *)
Fixpoint find_ranges (fuel : nat) (L R : list (list Field * Tuple)) (ascs : list bool) (rg : Ranges) : outcome Ranges :=
  if (l_first rg <? zlen L) && (r_first rg <? zlen R) then
    match fuel with
    | O => Panic
    | S fuel =>
        l ← unwrap (nth_u L (l_first rg));
        r ← unwrap (nth_u R (r_first rg));
        match compare_keys l.1 r.1 ascs with
        | Lt => find_ranges fuel L R ascs (mkRanges (l_first rg + 1) (r_first rg) (l_end rg) (r_end rg) (l_cursor rg) (r_cursor rg))
        | Gt => find_ranges fuel L R ascs (mkRanges (l_first rg) (r_first rg + 1) (l_end rg) (r_end rg) (l_cursor rg) (r_cursor rg))
        | Eq =>
            temp_left ← run_end (length L) L l.1 ascs (l_first rg);
            temp_right ← run_end (length R) R r.1 ascs (r_first rg);
            Ret (mkRanges (l_first rg) (r_first rg) temp_left temp_right (l_first rg) (r_first rg))
        end
    end
  else Ret rg.

(** [drain(..n)]. *)
Definition drain_front (data : list (list Field * Tuple)) (n : Z) : outcome (list (list Field * Tuple)) :=
  _ ← guard_or_panic (n <=? zlen data); Ret (drop (Z.to_nat n) data).

Section Ops.
Context {SM CL CR : Type} {lops : OpIterator SM CL} {rops : OpIterator SM CR}.
Abbreviation T := (SortMergeJoin CL CR).

Definition new (schema : TableSchema) (left_expr right_expr : list (ByteCodeExpr * bool)) (l : CL) (r : CR) : result CrustyError T :=
  if negb (zlen left_expr =? zlen right_expr) then Err (c_err "SMJ: Left and right expressions must have the same length")
  else if zlen left_expr =? 0 then Err (c_err "SMJ: Join predicate cannot be empty")
  else Ok (mkSortMergeJoin schema left_expr right_expr l r true false false false [] [] no_ranges).

Definition set_left (o : T) (l : CL) (child_read : bool) (data : list (list Field * Tuple)) : T :=
  mkSortMergeJoin (smj_schema o) (smj_left_expr o) (smj_right_expr o) l (smj_right o) (smj_will_rewind o) (smj_open o) child_read
    (right_child_read o) data (right_sorted_data o) (smj_ranges o).
Definition set_right (o : T) (r : CR) (child_read : bool) (data : list (list Field * Tuple)) : T :=
  mkSortMergeJoin (smj_schema o) (smj_left_expr o) (smj_right_expr o) (smj_left o) r (smj_will_rewind o) (smj_open o) (left_child_read o)
    child_read (left_sorted_data o) data (smj_ranges o).
Definition set (o : T) (op : bool) (L R : list (list Field * Tuple)) (rg : Ranges) : T :=
  mkSortMergeJoin (smj_schema o) (smj_left_expr o) (smj_right_expr o) (smj_left o) (smj_right o) (smj_will_rewind o) op
    (left_child_read o) (right_child_read o) L R rg.

Definition configure (w : bool) (o : T) : T :=
  mkSortMergeJoin (smj_schema o) (smj_left_expr o) (smj_right_expr o) (OpIterator.configure (SM := SM) false (smj_left o))
    (OpIterator.configure (SM := SM) false (smj_right o)) w (smj_open o) (left_child_read o) (right_child_read o)
    (left_sorted_data o) (right_sorted_data o) (smj_ranges o).

Definition open (fuel : nat) (s : SM) (o : T) : outcome (SM * T * result CrustyError unit) :=
  if negb (smj_open o) then
    '(s, l, data, b, r) ← read_side fuel s (smj_left o) (smj_left_expr o) (left_child_read o) (left_sorted_data o);
    let o := set_left o l b data in
    let? _ := r at s, o in
    '(s, c, data, b, r) ← read_side fuel s (smj_right o) (smj_right_expr o) (right_child_read o) (right_sorted_data o);
    let o := set_right o c b data in
    let? _ := r at s, o in
    Ret (s, set o true (left_sorted_data o) (right_sorted_data o) (smj_ranges o), Ok tt)
  else Ret (s, o, Ok tt).

(** The pair at the cursors, and the cursors after it. *)
Definition take_pair (L R : list (list Field * Tuple)) (rg : Ranges) : outcome (Tuple * Ranges) :=
  l ← unwrap (nth_u L (l_cursor rg));
  r ← unwrap (nth_u R (r_cursor rg));
  Ret (Tup.merge l.2 r.2,
    if r_cursor rg + 1 =? r_end rg then mkRanges (l_first rg) (r_first rg) (l_end rg) (r_end rg) (l_cursor rg + 1) (r_first rg)
    else mkRanges (l_first rg) (r_first rg) (l_end rg) (r_end rg) (l_cursor rg) (r_cursor rg + 1)).

Definition in_ranges (rg : Ranges) : bool :=
  (l_first rg <=? l_cursor rg) && (l_cursor rg <? l_end rg) && (r_first rg <=? r_cursor rg) && (r_cursor rg <? r_end rg).

Fixpoint next_loop (fuel : nat) (o : T) : outcome (T * result CrustyError (option Tuple)) :=
  match fuel with
  | O => Panic
  | S fuel =>
      let '(L, R, rg) := (left_sorted_data o, right_sorted_data o, smj_ranges o) in
      if in_ranges rg then
        '(t, rg) ← take_pair L R rg; Ret (set o (smj_open o) L R rg, Ok (Some t))
      else
        '(L, R, rg) ← (if smj_will_rewind o then Ret (L, R, mkRanges (l_end rg) (r_end rg) (l_end rg) (r_end rg) (l_end rg) (r_end rg))
          else L ← drain_front L (l_end rg); R ← drain_front R (r_end rg); Ret (L, R, no_ranges));
        rg ← find_ranges (length L + length R) L R (smj_left_expr o).*2 rg;
        let o := set o (smj_open o) L R rg in
        if (l_first rg =? zlen L) || (r_first rg =? zlen R) then Ret (o, Ok None) else next_loop fuel o
  end.

(** Ranges that are found are not empty, so that the second round returns. *)
Definition next (s : SM) (o : T) : outcome (SM * T * result CrustyError (option Tuple)) :=
  _ ← guard_or_panic (smj_open o);
  '(o, r) ← next_loop 2 o;
  Ret (s, o, r).

(** The ends and cursors are kept, and so is that the children have been read. *)
Definition close (s : SM) (o : T) : outcome (SM * T * result CrustyError unit) :=
  let rg := smj_ranges o in
  Ret (s, set o false [] [] (mkRanges 0 0 (l_end rg) (r_end rg) (l_cursor rg) (r_cursor rg)), Ok tt).

Definition rewind (s : SM) (o : T) : outcome (SM * T * result CrustyError unit) :=
  _ ← guard_or_panic (smj_open o);
  Ret (s, set o (smj_open o) (left_sorted_data o) (right_sorted_data o) no_ranges, Ok tt).
End Ops.
End SortMerge.

Definition SortMergeJoin_ops {SM CL CR} (lops : OpIterator SM CL) (rops : OpIterator SM CR) (fuel : nat) :
  OpIterator SM (SortMergeJoin CL CR) := {|
  configure := SortMerge.configure;
  open := SortMerge.open fuel;
  next := SortMerge.next;
  close := SortMerge.close;
  rewind := SortMerge.rewind;
  get_schema := smj_schema
|}.

(** ** What the sort-merge join gives *)

Lemma compare_keys_eq l r ascs : compare_keys l r ascs = Eq →
  (∀ z, compare_keys l z ascs = compare_keys r z ascs) ∧ (∀ z, compare_keys z l ascs = compare_keys z r ascs).
Proof.
  revert l r. induction ascs as [|asc ascs IH]; intros l r E; [done|]. cbn [compare_keys] in *.
  assert (head l = head r ∧ compare_keys (tail l) (tail r) ascs = Eq) as [Hh Ht].
  { set (d := λ x y, if asc then cmp_option field_cmp x y else cmp_option field_cmp y x).
    assert (OrdLaws d) as Hd by apply directed_ord. change (if asc then _ else _) with (d (head l) (head r)) in E.
    destruct (d (head l) (head r)) eqn:E1; try done. by apply (cmp_eq (cmp := d)) in E1. }
  destruct (IH _ _ Ht) as [H1 H2]. split; intros z; by rewrite Hh, ?H1, ?H2.
Qed.

Section Merge.
Context (ascs : list bool).
Abbreviation keyed_tuple := (list Field * Tuple)%type.
Implicit Types (x y : keyed_tuple) (A B L R g h : list keyed_tuple).

Definition cmp x y : comparison := compare_keys x.1 y.1 ascs.
Definition sorted A : Prop := StronglySorted (λ x y, cmp x y ≠ Gt) A.
Definition is_eq (c : comparison) : bool := match c with Eq => true | _ => false end.

(** The pairs with equal keys, and all pairs. *)
Definition rows A B : list Tuple := A ≫= λ x, (λ y, Tup.merge x.2 y.2) <$> List.filter (λ y, is_eq (cmp x y)) B.
Definition full A B : list Tuple := A ≫= λ x, (λ y, Tup.merge x.2 y.2) <$> B.

Lemma cmp_opp_keys x y : cmp y x = CompOpp (cmp x y).
Proof. apply compare_keys_opp. Qed.

Lemma keys_lt_le x y z : cmp x y = Lt → cmp y z ≠ Gt → cmp x z = Lt.
Proof.
  intros H1 H2. destruct (cmp x z) eqn:E; [|done|]; exfalso.
  - destruct (compare_keys_eq _ _ _ E) as [_ Hz]. apply H2. unfold cmp. rewrite <-(Hz y.1), (compare_keys_opp x.1 y.1). unfold cmp in H1. by rewrite H1.
  - assert (keys_le ascs x.1 z.1 = true) as Ht; [|unfold keys_le in Ht; unfold cmp in E; by rewrite E in Ht].
    apply (keys_le_trans ascs x.1 y.1 z.1); unfold keys_le; unfold cmp in *; [by rewrite H1|by destruct (compare_keys y.1 z.1 ascs)].
Qed.

Lemma no_partners x B : Forall (λ y, cmp x y ≠ Eq) B → List.filter (λ y, is_eq (cmp x y)) B = [].
Proof. induction 1 as [|y B Hy _ IH]; [done|]. cbn [List.filter]. rewrite IH. by destruct (cmp x y). Qed.

Lemma all_partners x B : Forall (λ y, cmp x y = Eq) B → List.filter (λ y, is_eq (cmp x y)) B = B.
Proof. induction 1 as [|y B Hy _ IH]; [done|]. cbn [List.filter]. by rewrite IH, Hy. Qed.


Lemma rows_cons x A B : rows (x :: A) B = ((λ y, Tup.merge x.2 y.2) <$> List.filter (λ y, is_eq (cmp x y)) B) ++ rows A B.
Proof. done. Qed.

Lemma sorted_ge x A : sorted (x :: A) → Forall (λ z, cmp x z ≠ Gt) (x :: A).
Proof.
  intros Hs. apply StronglySorted_inv in Hs as [_ Hx]. constructor; [|done]. pose proof (cmp_opp_keys x x). destruct (cmp x x); done.
Qed.

(** The smaller of two first keys has no partner. *)
Lemma rows_lt x y A B : sorted (y :: B) → cmp x y = Lt → rows (x :: A) (y :: B) = rows A (y :: B).
Proof.
  intros Hs E. rewrite rows_cons, no_partners; [done|]. eapply Forall_impl; [by apply sorted_ge|]. intros z Hz.
  by rewrite (keys_lt_le x y z).
Qed.

Lemma rows_drop y A B : Forall (λ x, cmp x y ≠ Eq) A → rows A (y :: B) = rows A B.
Proof.
  induction 1 as [|x A Hx _ IH]; [done|]. rewrite !rows_cons, IH. cbn [List.filter]. by destruct (cmp x y).
Qed.

Lemma rows_gt x y A B : sorted (x :: A) → cmp x y = Gt → rows (x :: A) (y :: B) = rows (x :: A) B.
Proof.
  intros Hs E. apply rows_drop. eapply Forall_impl; [by apply sorted_ge|]. intros z Hz Hzy.
  assert (cmp y z = Lt) as Hlt by (apply (keys_lt_le y x z); [|done]; by rewrite (cmp_opp_keys x y), E).
  by rewrite (cmp_opp_keys z y), Hzy in Hlt.
Qed.

Lemma rows_app A B C : rows (A ++ B) C = rows A C ++ rows B C.
Proof. apply bind_app. Qed.

Lemma rows_run x g h B : Forall (λ z, cmp x z = Eq) g → Forall (λ z, cmp x z = Eq) h → Forall (λ z, cmp x z = Lt) B →
  rows g (h ++ B) = full g h.
Proof.
  intros Hg Hh HB. induction Hg as [|z g Hz _ IH]; [done|]. rewrite rows_cons, IH.
  destruct (compare_keys_eq _ _ _ Hz) as [He _]. rewrite List.filter_app, all_partners, no_partners, app_nil_r; [done| |].
  - eapply Forall_impl; [exact HB|]. intros b Hb. unfold cmp in *. by rewrite <-He, Hb.
  - eapply Forall_impl; [exact Hh|]. intros b Hb. unfold cmp in *. by rewrite <-He.
Qed.

Lemma rows_after x A h B : Forall (λ z, cmp x z = Eq) h → Forall (λ z, cmp x z = Lt) A → rows A (h ++ B) = rows A B.
Proof.
  intros Hh HA. induction Hh as [|y h Hy _ IH]; [done|]. cbn [app]. rewrite rows_drop; [done|].
  eapply Forall_impl; [exact HA|]. intros a Ha Hay. destruct (compare_keys_eq _ _ _ Hay) as [_ He].
  unfold cmp in *. by rewrite He, Hy in Ha.
Qed.

(** The runs of the first key are joined with each other, and what follows with what follows. *)
Lemma rows_runs x g A h B : Forall (λ z, cmp x z = Eq) g → Forall (λ z, cmp x z = Eq) h →
  Forall (λ z, cmp x z = Lt) A → Forall (λ z, cmp x z = Lt) B → rows (g ++ A) (h ++ B) = full g h ++ rows A B.
Proof. intros Hg Hh HA HB. by rewrite rows_app, (rows_run x), (rows_after x). Qed.

Lemma rows_nil_r A : rows A [] = [].
Proof. induction A as [|x A IH]; [done|]. by rewrite rows_cons, IH. Qed.

Lemma sorted_app_r A B : sorted (A ++ B) → sorted B.
Proof. apply StronglySorted_app_1_r. Qed.

Lemma nth_app (P : list keyed_tuple) x A i : i = zlen P → nth_u (P ++ x :: A) i = Some x.
Proof. intros ->. rewrite nth_u_lookup by len. unfold zlen. rewrite Nat2Z.id. by apply list_lookup_middle. Qed.

Lemma run_end_ok fuel x P A : sorted A → Forall (λ z, cmp x z ≠ Gt) A → (length A ≤ fuel)%nat →
  ∃ g A', A = g ++ A' ∧ SortMerge.run_end fuel (P ++ A) x.1 ascs (zlen P) = Ret (zlen P + zlen g) ∧
    Forall (λ z, cmp x z = Eq) g ∧ Forall (λ z, cmp x z = Lt) A'.
Proof.
  revert P A. induction fuel as [|fuel IH]; intros P A Hs Hge Hf.
  { destruct A; [|simpl in Hf; lia]. exists [], []. split; [done|]. split; [|done]. cbn [SortMerge.run_end].
    rewrite (proj2 (Z.ltb_ge _ _)) by len. f_equal. len. }
  destruct A as [|y A].
  { exists [], []. split; [done|]. split; [|done]. cbn [SortMerge.run_end]. rewrite (proj2 (Z.ltb_ge _ _)) by len. f_equal. len. }
  cbn [SortMerge.run_end]. rewrite (proj2 (Z.ltb_lt _ _)) by len. rewrite (nth_app P y A) by done. cbn [unwrap mbind outcome_bind].
  change (compare_keys x.1 y.1 ascs) with (cmp x y). pose proof (sorted_ge y A Hs) as Hy. apply Forall_cons in Hge as [Hxy Hge].
  destruct (cmp x y) eqn:E; [| |done].
  - destruct (IH (P ++ [y]) A) as (g & A' & -> & Er & Hg & HA); [by apply (sorted_app_r [y])|done|simpl in Hf; lia|].
    exists (y :: g), A'. split; [done|]. rewrite <-app_assoc in Er. cbn [app] in Er. replace (zlen P + 1) with (zlen (P ++ [y])) by len.
    rewrite Er. split; [f_equal; len|]. split; [by constructor|done].
  - exists [], (y :: A). split; [done|]. split; [f_equal; len|]. split; [done|].
    eapply Forall_impl; [exact Hy|]. intros z Hz. by apply (keys_lt_le x y z).
Qed.

(** The search for the next ranges from the ends [P] and [Q] of what has been joined. *)
Lemma find_ranges_ok fuel P Q A B rg : sorted A → sorted B → (length A + length B ≤ fuel)%nat →
  l_first rg = zlen P → r_first rg = zlen Q →
  ∃ rg', SortMerge.find_ranges fuel (P ++ A) (Q ++ B) ascs rg = Ret rg' ∧
    ((rows A B = [] ∧ (l_first rg' = zlen (P ++ A) ∨ r_first rg' = zlen (Q ++ B)) ∧ l_end rg' = l_end rg ∧ r_end rg' = r_end rg ∧
      l_cursor rg' = l_cursor rg ∧ r_cursor rg' = r_cursor rg) ∨
     ∃ P' Q' g h A' B', P ++ A = P' ++ g ++ A' ∧ Q ++ B = Q' ++ h ++ B' ∧ g ≠ [] ∧ h ≠ [] ∧
       rg' = mkRanges (zlen P') (zlen Q') (zlen P' + zlen g) (zlen Q' + zlen h) (zlen P') (zlen Q') ∧
       rows A B = full g h ++ rows A' B' ∧ sorted A' ∧ sorted B').
Proof.
  revert P Q A B rg. induction fuel as [|fuel IH]; intros P Q A B rg HA HB Hf Hl Hr.
  { destruct A; [|simpl in Hf; lia]. exists rg. cbn [SortMerge.find_ranges]. rewrite (proj2 (Z.ltb_ge (l_first rg) _)) by len.
    split; [done|]. left. split; [done|]. split; [left; len|done]. }
  destruct A as [|x A].
  { exists rg. cbn [SortMerge.find_ranges]. rewrite (proj2 (Z.ltb_ge (l_first rg) _)) by len. split; [done|]. left. split; [done|].
    split; [left; len|done]. }
  destruct B as [|y B].
  { exists rg. cbn [SortMerge.find_ranges]. rewrite (proj2 (Z.ltb_ge (r_first rg) _)), andb_false_r by len. split; [done|]. left.
    split; [apply rows_nil_r|]. split; [right; len|done]. }
  cbn [SortMerge.find_ranges]. rewrite !(proj2 (Z.ltb_lt _ _)) by len. rewrite (nth_app P x A), (nth_app Q y B) by done.
  cbn [unwrap mbind outcome_bind andb]. change (compare_keys x.1 y.1 ascs) with (cmp x y). destruct (cmp x y) eqn:E.
  - rewrite Hl, Hr. destruct (run_end_ok (length (P ++ x :: A)) x P (x :: A)) as (g & A' & EA & -> & Hg & HA'); [done|by apply sorted_ge|rewrite length_app; lia|].
    destruct (run_end_ok (length (Q ++ y :: B)) y Q (y :: B)) as (h & B' & EB & -> & Hh & HB'); [done|by apply sorted_ge|rewrite length_app; lia|].
    eexists. split; [done|]. right. exists P, Q, g, h, A', B'. destruct (compare_keys_eq _ _ _ E) as [He _].
    split_and!; [by rewrite EA|by rewrite EB| | |done| | |].
    + destruct g; [|done]. simpl in EA. subst A'. apply Forall_cons in HA' as [Hx _]. pose proof (cmp_opp_keys x x) as Ho. by rewrite Hx in Ho.
    + destruct h; [|done]. simpl in EB. subst B'. apply Forall_cons in HB' as [Hy _]. pose proof (cmp_opp_keys y y) as Ho. by rewrite Hy in Ho.
    + rewrite EA, EB. apply (rows_runs x); [done| |done|]; (eapply Forall_impl; [eassumption|]); intros z Hz; unfold cmp in *; by rewrite He.
    + apply (sorted_app_r g). by rewrite <-EA.
    + apply (sorted_app_r h). by rewrite <-EB.
  - destruct (IH (P ++ [x]) Q A (y :: B) (mkRanges (l_first rg + 1) (r_first rg) (l_end rg) (r_end rg) (l_cursor rg) (r_cursor rg)))
      as (rg' & Er & Hres); [by apply (sorted_app_r [x])|done|simpl in *; lia|simpl; len|done|].
    rewrite <-app_assoc in Er, Hres. exists rg'. split; [exact Er|]. by rewrite (rows_lt x y A B HB E).
  - destruct (IH P (Q ++ [y]) (x :: A) B (mkRanges (l_first rg) (r_first rg + 1) (l_end rg) (r_end rg) (l_cursor rg) (r_cursor rg)))
      as (rg' & Er & Hres); [done|by apply (sorted_app_r [y])|simpl in *; lia|done|simpl; len|].
    rewrite <-app_assoc in Er, Hres. exists rg'. split; [exact Er|]. by rewrite (rows_gt x y A B HA E).
Qed.

(** Between ranges: what is left is joined from their ends on. *)
Definition idle L R (rg : Ranges) (rest : list Tuple) : Prop :=
  SortMerge.in_ranges rg = false ∧ ∃ P Q A B, L = P ++ A ∧ R = Q ++ B ∧ l_end rg = zlen P ∧ r_end rg = zlen Q ∧
    sorted A ∧ sorted B ∧ rest = rows A B.

(** Within ranges [d ++ x :: g] and [e ++ y :: h], before the pair of [x] and [y]. *)
Definition active L R (rg : Ranges) (rest : list Tuple) : Prop :=
  ∃ P d x g A Q e y h B, L = P ++ d ++ x :: g ++ A ∧ R = Q ++ e ++ y :: h ++ B ∧
    rg = mkRanges (zlen P) (zlen Q) (zlen P + zlen d + zlen (x :: g)) (zlen Q + zlen e + zlen (y :: h)) (zlen P + zlen d) (zlen Q + zlen e) ∧
    sorted A ∧ sorted B ∧ rest = ((λ z, Tup.merge x.2 z.2) <$> y :: h) ++ full g (e ++ y :: h) ++ rows A B.

Lemma take_pair_ok L R rg rest : active L R rg rest →
  ∃ t rg' rest', SortMerge.in_ranges rg = true ∧ SortMerge.take_pair L R rg = Ret (t, rg') ∧ rest = t :: rest' ∧
    (idle L R rg' rest' ∨ active L R rg' rest').
Proof.
  intros (P & d & x & g & A & Q & e & y & h & B & -> & -> & -> & HA & HB & ->). eexists _, _, _.
  split. { unfold SortMerge.in_ranges. simpl l_first; simpl l_cursor; simpl l_end; simpl r_first; simpl r_cursor; simpl r_end.
    rewrite !(proj2 (Z.leb_le _ _)), !(proj2 (Z.ltb_lt _ _)) by len. done. }
  split. { unfold SortMerge.take_pair. cbn [l_cursor r_cursor]. rewrite (app_assoc P d), (app_assoc Q e).
    rewrite (nth_app (P ++ d)), (nth_app (Q ++ e)) by len. done. }
  split; [done|]. cbn [l_first r_first l_end r_end l_cursor r_cursor]. destruct h as [|z h].
  - rewrite (proj2 (Z.eqb_eq _ _)) by len. destruct g as [|w g].
    + left. split. { unfold SortMerge.in_ranges. cbn [l_cursor l_end]. rewrite (proj2 (Z.ltb_ge _ (_ + zlen [x]))), andb_false_r by len. done. }
      exists (P ++ d ++ [x]), (Q ++ e ++ [y]), A, B. rewrite <-!app_assoc. cbn [l_end r_end app]. split_and!; try done; len.
    + right. exists P, (d ++ [x]), w, g, A, Q. destruct e as [|u e].
      * exists [], y, [], B. rewrite <-!app_assoc. cbn [app]. split_and!; try done. f_equal; len.
      * exists [], u, (e ++ [y]), B. rewrite <-!app_assoc. cbn [app]. split_and!; try done; [f_equal; len|].
        change (full (w :: g) ?X) with (((λ y, Tup.merge w.2 y.2) <$> X) ++ full g X). by rewrite <-app_assoc.
  - rewrite (proj2 (Z.eqb_neq _ _)) by len. right. exists P, d, x, g, A, Q, (e ++ [y]), z, h, B. rewrite <-!app_assoc. cbn [app].
    split_and!; try done. f_equal; len.
Qed.
End Merge.

Section MergeLaws.
Context {SM : Type} {scan : ScanTrait SM} {tbl : Z → option (list item)} {scan_laws : ScanLaws SM tbl}.
Context {CL CR : Type} {lops : OpIterator SM CL} {rops : OpIterator SM CR}.
Context (KL : op_contract SM CL) (KR : op_contract SM CR) {llaws : OpLaws SM CL KL} {rlaws : OpLaws SM CR KR}.

Abbreviation directions o := ((smj_left_expr o).*2).
Definition merging (o : SortMergeJoin CL CR) (rest : list Tuple) : Prop :=
  idle (directions o) (left_sorted_data o) (right_sorted_data o) (smj_ranges o) rest ∨
  active (directions o) (left_sorted_data o) (right_sorted_data o) (smj_ranges o) rest.

Lemma next_loop_active fuel (o : SortMergeJoin CL CR) rest :
  active (directions o) (left_sorted_data o) (right_sorted_data o) (smj_ranges o) rest →
  ∃ rg, SortMerge.next_loop (S fuel) o =
      Ret (SortMerge.set o (smj_open o) (left_sorted_data o) (right_sorted_data o) rg, Ok (head rest)) ∧
    merging (SortMerge.set o (smj_open o) (left_sorted_data o) (right_sorted_data o) rg) (tail rest).
Proof.
  intros Ha. destruct (take_pair_ok _ _ _ _ _ Ha) as (t & rg & rest' & Hin & Ht & -> & Hm). exists rg. cbn [SortMerge.next_loop].
  rewrite Hin, Ht. done.
Qed.

(** The data from which the search starts. *)
Lemma next_loop_idle (o : SortMergeJoin CL CR) rest :
  idle (directions o) (left_sorted_data o) (right_sorted_data o) (smj_ranges o) rest →
  ∃ L R rg, SortMerge.next_loop 2 o = Ret (SortMerge.set o (smj_open o) L R rg, Ok (head rest)) ∧
    merging (SortMerge.set o (smj_open o) L R rg) (tail rest) ∧
    (smj_will_rewind o = true → L = left_sorted_data o ∧ R = right_sorted_data o).
Proof.
  intros (Hin & P & Q & A & B & EL & ER & Hle & Hre & HA & HB & ->). remember 1%nat as one. cbn [SortMerge.next_loop]. rewrite Hin.
  assert (∃ P' Q', (if smj_will_rewind o
      then Ret (left_sorted_data o, right_sorted_data o,
        mkRanges (l_end (smj_ranges o)) (r_end (smj_ranges o)) (l_end (smj_ranges o)) (r_end (smj_ranges o)) (l_end (smj_ranges o)) (r_end (smj_ranges o)))
      else L ← SortMerge.drain_front (left_sorted_data o) (l_end (smj_ranges o));
           R ← SortMerge.drain_front (right_sorted_data o) (r_end (smj_ranges o)); Ret (L, R, no_ranges)) =
      Ret (P' ++ A, Q' ++ B, mkRanges (zlen P') (zlen Q') (zlen P') (zlen Q') (zlen P') (zlen Q')) ∧
      (smj_will_rewind o = true → P' ++ A = left_sorted_data o ∧ Q' ++ B = right_sorted_data o)) as (P' & Q' & -> & Hw).
  { destruct (smj_will_rewind o).
    - exists P, Q. by rewrite EL, ER, Hle, Hre.
    - exists [], []. rewrite EL, ER, Hle, Hre. unfold SortMerge.drain_front. rewrite !(proj2 (Z.leb_le _ _)) by len.
      cbn [guard_or_panic mbind outcome_bind]. unfold zlen. rewrite !Nat2Z.id, !drop_app_length. done. }
  cbn [mbind outcome_bind].
  destruct (find_ranges_ok (directions o) (length (P' ++ A) + length (Q' ++ B)) P' Q' A B
    (mkRanges (zlen P') (zlen Q') (zlen P') (zlen Q') (zlen P') (zlen Q'))) as (rg & -> & Hres); [done|done|rewrite !length_app; lia|done|done|].
  cbn [mbind outcome_bind]. exists (P' ++ A), (Q' ++ B). destruct Hres as [(Hnil & Hend & E1 & E2 & E3 & E4)|Hfound].
  - exists rg. assert ((l_first rg =? zlen (P' ++ A)) || (r_first rg =? zlen (Q' ++ B)) = true) as ->.
    { destruct Hend as [->| ->]; rewrite Z.eqb_refl; [done|]. by rewrite orb_true_r. }
    rewrite Hnil. split; [done|]. split; [|done]. left. cbn in E1, E2, E3, E4. split.
    { unfold SortMerge.in_ranges. cbn [smj_ranges SortMerge.set]. rewrite E1, E3, Z.ltb_irrefl, andb_false_r. done. }
    exists P', Q', A, B. split_and!; done.
  - destruct Hfound as (P2 & Q2 & g & h & A' & B' & EA & EB & Hg & Hh & -> & -> & HA' & HB').
    destruct g as [|x g]; [done|]. destruct h as [|y h]; [done|]. rewrite EA, EB. cbn [l_first r_first].
    rewrite (proj2 (Z.eqb_neq (zlen P2) _)), (proj2 (Z.eqb_neq (zlen Q2) _)) by len. cbn [orb]. subst one.
    destruct (next_loop_active 0 (SortMerge.set o (smj_open o) (P2 ++ (x :: g) ++ A') (Q2 ++ (y :: h) ++ B')
      (mkRanges (zlen P2) (zlen Q2) (zlen P2 + zlen (x :: g)) (zlen Q2 + zlen (y :: h)) (zlen P2) (zlen Q2)))
      (full (x :: g) (y :: h) ++ rows (directions o) A' B')) as (rg & E & Hm).
    { exists P2, [], x, g, A', Q2, [], y, h, B'. cbn [app]. split_and!; try done.
      { change (zlen []) with 0. by rewrite !Z.add_0_r. }
      change (full (x :: g) ?X) with (((λ y, Tup.merge x.2 y.2) <$> X) ++ full g X). by rewrite <-app_assoc. }
    exists rg. split; [exact E|]. split; [exact Hm|]. by rewrite <-EA, <-EB.
Qed.

(** The sorted input of one side. *)
Definition sorted_side (exprs : list (ByteCodeExpr * bool)) (l : list Tuple) : option (list (list Field * Tuple)) :=
  kl ← with_keys exprs.*1 l; Some (sort_by (SortMerge.key_le exprs) kl).

Lemma sorted_side_sorted exprs l kl : sorted_side exprs l = Some kl → sorted exprs.*2 kl.
Proof.
  intros E. apply bind_Some in E as (kl' & _ & [= <-]).
  eapply StronglySorted_weaken; [|apply (sort_by_sorted (SortMerge.key_le exprs))].
  - intros x y. unfold SortMerge.key_le, cmp. by destruct (compare_keys x.1 y.1 exprs.*2).
  - intros x y. apply keys_le_total.
  - intros x y z. apply keys_le_trans.
Qed.

Definition SortMergeJoin_contract (fuel : nat) : op_contract SM (SortMergeJoin CL CR) := {|
  built o all n := smj_open o = false ∧ left_child_read o = false ∧ right_child_read o = false ∧ left_sorted_data o = [] ∧
    right_sorted_data o = [] ∧ smj_ranges o = no_ranges ∧ directions o = (smj_right_expr o).*2 ∧
    ∃ L R kl kr n1 n2, built KL (smj_left o) L n1 ∧ built KR (smj_right o) R n2 ∧ (n1 ≤ n)%nat ∧ (n2 ≤ n)%nat ∧
      sorted_side (smj_left_expr o) L = Some kl ∧ sorted_side (smj_right_expr o) R = Some kr ∧
      (length L < fuel)%nat ∧ (length R < fuel)%nat ∧ all = rows (directions o) kl kr;
  configured o w all n := smj_open o = false ∧ left_child_read o = false ∧ right_child_read o = false ∧ left_sorted_data o = [] ∧
    right_sorted_data o = [] ∧ smj_ranges o = no_ranges ∧ directions o = (smj_right_expr o).*2 ∧ smj_will_rewind o = w ∧
    ∃ L R kl kr n1 n2, configured KL (smj_left o) false L n1 ∧ configured KR (smj_right o) false R n2 ∧ (n1 ≤ n)%nat ∧ (n2 ≤ n)%nat ∧
      sorted_side (smj_left_expr o) L = Some kl ∧ sorted_side (smj_right_expr o) R = Some kr ∧
      (length L < fuel)%nat ∧ (length R < fuel)%nat ∧ all = rows (directions o) kl kr;
  live o w all rest res n := smj_open o = true ∧ smj_will_rewind o = w ∧ res = [] ∧ merging o rest ∧
    (w = true → sorted (directions o) (left_sorted_data o) ∧ sorted (directions o) (right_sorted_data o) ∧
       all = rows (directions o) (left_sorted_data o) (right_sorted_data o));
  closed o := True
|}.

Lemma read_side_ok {C} {ops : OpIterator SM C} (K : op_contract SM C) {laws : OpLaws SM C K} fuel s c exprs l kl n fr :
  configured K c false l n → sorted_side exprs l = Some kl → (length l < fuel)%nat → sc_view s fr → room fr n →
  ∃ s' c', SortMerge.read_side fuel s c exprs false [] = Ret (s', c', kl, true, Ok tt) ∧ sc_view s' fr.
Proof.
  intros Hc Hk Hf Hv Hroom. unfold SortMerge.read_side. apply bind_Some in Hk as (kl' & Hk & [= <-]).
  destruct (open_ok _ _ _ _ _ _ Hc Hv Hroom) as (s1 & c1 & res & -> & Hl & Hv1). cbn [mbind outcome_bind].
  assert (∀ fuel s c res rest kr data, live K c false l rest res n → with_keys exprs.*1 rest = Some kr → (length rest < fuel)%nat →
    sc_view s (res ++ fr) → ∃ s' c' res', SortMerge.collect fuel s c exprs data = Ret (s', c', data ++ kr, Ok tt) ∧
      live K c' false l [] res' n ∧ sc_view s' (res' ++ fr)) as Hcol.
  { clear - Hroom laws. induction fuel as [|fuel IH]; intros s c res rest kr data Hl Hk Hf Hv; [lia|]. cbn [SortMerge.collect].
    destruct (next_ok _ _ _ _ _ _ _ _ Hl Hv Hroom) as (s1 & c1 & res1 & -> & Hl1 & Hv1). cbn [mbind outcome_bind].
    destruct rest as [|t rest]; cbn [head].
    - injection Hk as <-. rewrite app_nil_r. by eexists _, _, _.
    - cbn [with_keys] in Hk. apply bind_Some in Hk as (k & Ek & Hk). apply bind_Some in Hk as (kr' & Ekr & [= <-]).
      rewrite (values_Some _ _ _ Ek). cbn [mbind outcome_bind].
      destruct (IH s1 c1 res1 rest kr' (data ++ [(k, t)])) as (s' & c' & res' & -> & H'); [done|done|simpl in Hf; lia|done|].
      exists s', c', res'. by rewrite <-app_assoc. }
  destruct (Hcol fuel s1 c1 res l kl' [] Hl Hk Hf Hv1) as (s2 & c2 & res2 & -> & Hl2 & Hv2). cbn [mbind outcome_bind app].
  destruct (close_ok _ _ _ _ _ _ _ _ Hl2 Hv2) as (s3 & c3 & -> & _ & Hv3). by eexists _, _.
Qed.

Lemma merging_start (o : SortMergeJoin CL CR) : smj_ranges o = no_ranges →
  sorted (directions o) (left_sorted_data o) → sorted (directions o) (right_sorted_data o) →
  merging o (rows (directions o) (left_sorted_data o) (right_sorted_data o)).
Proof. intros Er HL HR. left. rewrite Er. split; [done|]. by exists [], [], (left_sorted_data o), (right_sorted_data o). Qed.

Lemma room_le fr n n' : (n' ≤ n)%nat → room fr n → room fr n'.
Proof. intros Hn. apply sc_fits_le. lia. Qed.

Lemma smj_open_ok fuel s o w all n fr :
  configured (SortMergeJoin_contract fuel) o w all n → sc_view s fr → room fr n →
  ∃ s' o', SortMerge.open fuel s o = Ret (s', o', Ok tt) ∧ live (SortMergeJoin_contract fuel) o' w all all [] n ∧ sc_view s' fr.
Proof.
  intros (Ho & Hlr & Hrr & Hld & Hrd & Hrg & Hdir & Hw & L & R & kl & kr & n1 & n2 & HL & HR & Hn1 & Hn2 & Hkl & Hkr & HfL & HfR & ->) Hv Hroom.
  unfold SortMerge.open. rewrite Ho, Hlr, Hld. cbn [negb].
  destruct (read_side_ok KL fuel s (smj_left o) (smj_left_expr o) L kl n1 fr) as (s1 & l1 & -> & Hv1); [done..|by eapply room_le|].
  cbn [mbind outcome_bind or_return]. cbn [smj_right smj_right_expr right_child_read right_sorted_data SortMerge.set_left]. rewrite Hrr, Hrd.
  destruct (read_side_ok KR fuel s1 (smj_right o) (smj_right_expr o) R kr n2 fr) as (s2 & r2 & -> & Hv2); [done..|by eapply room_le|].
  cbn [mbind outcome_bind or_return]. eexists _, _. split; [done|]. split; [|done].
  pose proof (sorted_side_sorted _ _ _ Hkl) as Hsl. pose proof (sorted_side_sorted _ _ _ Hkr) as Hsr. rewrite <-Hdir in Hsr.
  cbn. split_and!; try done. by apply (merging_start (SortMerge.set (SortMerge.set_right (SortMerge.set_left o l1 true kl) r2 true kr) true kl kr (smj_ranges o))).
Qed.

Lemma smj_next_ok fuel s o w all rest res n fr :
  live (SortMergeJoin_contract fuel) o w all rest res n → sc_view s (res ++ fr) →
  ∃ s' o' res', SortMerge.next s o = Ret (s', o', Ok (head rest)) ∧ live (SortMergeJoin_contract fuel) o' w all (tail rest) res' n ∧
    sc_view s' (res' ++ fr).
Proof.
  intros (Ho & Hw & -> & Hm & Hall) Hv. unfold SortMerge.next. rewrite Ho. cbn [guard_or_panic mbind outcome_bind].
  assert (∃ L R rg, SortMerge.next_loop 2 o = Ret (SortMerge.set o (smj_open o) L R rg, Ok (head rest)) ∧
    merging (SortMerge.set o (smj_open o) L R rg) (tail rest) ∧
    (smj_will_rewind o = true → L = left_sorted_data o ∧ R = right_sorted_data o)) as (L & R & rg & -> & Hm' & HLR).
  { destruct Hm as [Hi|Ha]; [by apply next_loop_idle|]. destruct (next_loop_active 1 o rest Ha) as (rg & E & Hm'). by eexists _, _, rg. }
  cbn [mbind outcome_bind]. eexists _, _, []. split; [done|]. split; [|done]. cbn. split_and!; try done.
  intros Hwt. rewrite <-Hw in Hwt. destruct (HLR Hwt) as [-> ->]. apply Hall. by rewrite <-Hw.
Qed.

Lemma SortMergeJoin_laws fuel : OpLaws SM (SortMergeJoin CL CR) (ops := SortMergeJoin_ops lops rops fuel) (SortMergeJoin_contract fuel).
Proof.
  constructor.
  - intros o w all rest res n (_ & _ & -> & _). simpl. lia.
  - intros o all n w (Ho & Hlr & Hrr & Hld & Hrd & Hrg & Hdir & L & R & kl & kr & n1 & n2 & HL & HR & Hrest). cbn. split_and!; try done.
    exists L, R, kl, kr, n1, n2. split; [by apply configure_ok|]. split; [by apply configure_ok|done].
  - intros s o w all n fr Hc Hv Hroom. destruct (smj_open_ok fuel s o w all n fr Hc Hv Hroom) as (s' & o' & E & Hl & Hv').
    by exists s', o', [].
  - intros s o w all rest res n fr Hl Hv _. exact (smj_next_ok fuel s o w all rest res n fr Hl Hv).
  - intros s o all rest res n fr (Ho & Hw & -> & Hm & Hall) Hv _. cbn. unfold SortMerge.rewind. rewrite Ho.
    destruct (Hall eq_refl) as (HL & HR & ->). eexists _, _, []. split; [done|]. split; [|done]. cbn. split_and!; try done.
    by apply (merging_start (SortMerge.set o true (left_sorted_data o) (right_sorted_data o) no_ranges)).
  - intros s o w all rest res n fr (_ & _ & -> & _) Hv. cbn. by eexists _, _.
  - intros s o fr _ Hv. cbn. by eexists _, _.
Qed.

Lemma empty_never_returns n (o : SortMergeJoin CL CR) :
  smj_will_rewind o = true → left_sorted_data o = [] → right_sorted_data o = [] → 0 < l_end (smj_ranges o) → 0 < r_end (smj_ranges o) →
  SortMerge.next_loop n o = Panic.
Proof.
  revert o. induction n as [|n IH]; intros o Hw HL HR Hle Hre; [done|]. cbn [SortMerge.next_loop]. rewrite HL, HR, Hw.
  destruct (SortMerge.in_ranges _).
  { unfold SortMerge.take_pair. replace (nth_u [] (l_cursor (smj_ranges o))) with (@None (list Field * Tuple)); [reflexivity|].
    unfold nth_u. by case_match. }
  cbn [mbind outcome_bind length Nat.add SortMerge.find_ranges l_first r_first].
  change (zlen []) with 0. rewrite (proj2 (Z.ltb_ge (l_end _) 0)) by lia. cbn [andb mbind outcome_bind l_first r_first].
  rewrite !(proj2 (Z.eqb_neq _ 0)) by lia. cbn [orb]. by apply IH.
Qed.

(** A join that is opened again after it was closed does not return: its data is gone, the
    children count as read, and the ends of the ranges it stopped at are beyond the data, so
    that no round of the loop of [next] comes to an end of it. *)
Theorem reopened_join_hangs fuel s (o : SortMergeJoin CL CR) :
  left_child_read o = true → right_child_read o = true → smj_will_rewind o = true → 0 < l_end (smj_ranges o) → 0 < r_end (smj_ranges o) →
  ∃ o1 o2, SortMerge.close s o = Ret (s, o1, Ok tt) ∧ SortMerge.open fuel s o1 = Ret (s, o2, Ok tt) ∧
    ∀ n, SortMerge.next_loop n o2 = Panic.
Proof.
  intros Hl Hr Hw Hle Hre. eexists _, _. split; [done|]. unfold SortMerge.open, SortMerge.read_side. cbn. rewrite Hl. cbn. rewrite Hr. cbn.
  split; [done|]. intros n.
  apply empty_never_returns; done.
Qed.
End MergeLaws.
