(* ===== verification/OpAggregate.v ===== *)
(** * Operators: aggregation

    Models [Aggregate] of [queryexe/src/opiterator/aggregate.rs] over any child: groups in
    a hash map from the group-by values to the count and the accumulated values, given in
    the order of the group-by values. *)

From S2P Require Import Prelude Common Ordering Field FieldContract Tuple ByteCode.
From S2P Require Import OpIterator OpJoin.
From stdpp Require Import strings gmap sorting.

Open Scope Z_scope.

(** [query/operation.rs]. *)
Inductive AggOp := Avg | Count | Max | Min | Sum.

#[global] Instance AggOp_eq_dec : EqDecision AggOp.
Proof. solve_decision. Defined.

Definition AggOp_name (op : AggOp) : list byte :=
  str match op with
      | Avg => "AVG" | Count => "COUNT" | Max => "MAX" | Min => "MIN" | Sum => "SUM"
      end.

Definition AggOp_to_attr (op : AggOp) (src : Attribute) : Attribute :=
  let new_name := AggOp_name op ++ str "(" ++ att_name src ++ str ")" in
  match op with
  | Avg =>
      match dtype src with
      | TDecimal _ _ => Attribute_new new_name (dtype src)
      | _ => Attribute_new new_name (TDecimal default_decimal_precision default_decimal_scale)
      end
  | Count => Attribute_new new_name TBigInt
  | _ => Attribute_new new_name (dtype src)
  end.

(** Per group: the count and the accumulated values. *)
Abbreviation group := (Z * list Field)%type.
Abbreviation accumulator := (gmap (list Field) group).

Record Aggregate (C : Type) := mkAggregate {
  ag_schema : TableSchema;
  ag_groupby_expr : list ByteCodeExpr;
  ag_agg_expr : list ByteCodeExpr;
  ag_ops : list AggOp;
  ag_child : C;
  ag_will_rewind : bool;
  ag_open : bool;
  ag_acc : accumulator;
  ag_acc_iter : list Tuple;
  ag_index : Z
}.
Arguments mkAggregate {C} _ _ _ _ _ _ _ _ _ _.
Arguments ag_schema {C} _.
Arguments ag_groupby_expr {C} _.
Arguments ag_agg_expr {C} _.
Arguments ag_ops {C} _.
Arguments ag_child {C} _.
Arguments ag_will_rewind {C} _.
Arguments ag_open {C} _.
Arguments ag_acc {C} _.
Arguments ag_acc_iter {C} _.
Arguments ag_index {C} _.

Module Agg.

Definition merge_fields (op : AggOp) (field_val acc : Field) : outcome (result CrustyError Field) :=
  match op with
  | Count => field_add acc (BigInt 1)
  | Max => Ret (Ok (cmp_max field_cmp acc field_val))
  | Min => Ret (Ok (cmp_min field_cmp acc field_val))
  | Sum => field_add acc field_val
  | Avg => field_add acc field_val
  end.

(** [for (i, op) in ops.iter().enumerate()]: value [i] into accumulated value [i]. *)
Fixpoint merge_all (ops : list AggOp) (vals accs : list Field) : outcome (list Field) :=
  match ops with
  | [] => Ret accs
  | op :: ops =>
      match vals, accs with
      | v :: vals, a :: accs =>
          r ← merge_fields op v a; a ← result_unwrap r;
          accs ← merge_all ops vals accs;
          Ret (a :: accs)
      | _, _ => Panic
      end
  end.

(** The accumulated values of a new group. *)
Definition init_group (ops : list AggOp) (vals : list Field) : list Field :=
  zip_with (λ op v, match op with Count => BigInt 1 | _ => v end) ops vals.

(** A group with one more tuple, whose values are [vals]. *)
Definition add_to_group (ops : list AggOp) (g : option group) (vals : list Field) : outcome group :=
  match g with
  | Some (n, accs) => accs ← merge_all ops vals accs; Ret (n + 1, accs)
  | None => Ret (1, init_group ops vals)
  end.

Definition merge_tuple_into_group (gb ae : list ByteCodeExpr) (ops : list AggOp) (acc : accumulator)
    (tuple : Tuple) : outcome accumulator :=
  group_key ← eval_all gb tuple;
  agg_vals ← eval_all ae tuple;
  g ← add_to_group ops (acc !! group_key) agg_vals;
  Ret (<[group_key := g]> acc).

(** The final value of an accumulated one. *)
Definition finish_field (n : Z) (op : AggOp) (val : Field) : outcome Field :=
  match op with
  | Avg =>
      match val with
      | BigInt v | Int v | SmallInt v => Ret (f_decimal (F64.div (F64.of_Z v) (F64.of_Z n)))
      | _ => Panic
      end
  | _ => Ret val
  end.

Fixpoint finish_fields (n : Z) (ops : list AggOp) (vals : list Field) : outcome (list Field) :=
  match ops, vals with
  | op :: ops, v :: vals => f ← finish_field n op v; fs ← finish_fields n ops vals; Ret (f :: fs)
  | _, _ => Ret []
  end.

(** The entries in the order of their keys, one tuple each. *)
Definition key_le (a b : list Field * group) : bool := cmp_le (cmp_list field_cmp) a.1 b.1.

Fixpoint finish (ops : list AggOp) (entries : list (list Field * group)) : outcome (list Tuple) :=
  match entries with
  | [] => Ret []
  | (k, (n, vals)) :: entries =>
      fs ← finish_fields n ops vals; ts ← finish ops entries; Ret (Tup.new (k ++ fs) :: ts)
  end.

(** All the work of [open], on the tuples of the child. *)
Definition aggregate (gb ae : list ByteCodeExpr) (ops : list AggOp) (l : list Tuple) :
  outcome (list Tuple) :=
  acc ← foldM (merge_tuple_into_group gb ae ops) ∅ l;
  finish ops (sort_by key_le (map_to_list acc)).

Section Ops.
Context {SM C : Type} {ops : OpIterator SM C}.

Definition new (gb ae : list ByteCodeExpr) (aops : list AggOp) (schema : TableSchema) (child : C) :
  outcome (Aggregate C) :=
  _ ← guard_or_panic (zlen aops =? zlen ae);
  Ret (mkAggregate schema gb ae aops child true false ∅ [] 0).

Definition set (o : Aggregate C) (c : C) (op : bool) (acc : accumulator) (it : list Tuple) (i : Z) :
  Aggregate C :=
  mkAggregate (ag_schema o) (ag_groupby_expr o) (ag_agg_expr o) (ag_ops o) c (ag_will_rewind o) op acc it i.
Definition set_child (o : Aggregate C) (c : C) : Aggregate C :=
  set o c (ag_open o) (ag_acc o) (ag_acc_iter o) (ag_index o).

Definition configure (w : bool) (o : Aggregate C) : Aggregate C :=
  mkAggregate (ag_schema o) (ag_groupby_expr o) (ag_agg_expr o) (ag_ops o)
    (OpIterator.configure (SM := SM) false (ag_child o)) w (ag_open o) (ag_acc o) (ag_acc_iter o) (ag_index o).

(** The loop of [open] over the child. *)
Fixpoint collect (fuel : nat) (s : SM) (o : Aggregate C) :
  outcome (SM * Aggregate C * result CrustyError unit) :=
  match fuel with
  | O => Panic
  | S fuel =>
      '(s, c, r) ← OpIterator.next s (ag_child o);
      let o := set_child o c in
      let? t := r at s, o in
      match t with
      | None => Ret (s, o, Ok tt)
      | Some t =>
          acc ← merge_tuple_into_group (ag_groupby_expr o) (ag_agg_expr o) (ag_ops o) (ag_acc o) t;
          collect fuel s (set o (ag_child o) (ag_open o) acc (ag_acc_iter o) (ag_index o))
      end
  end.

Definition open (fuel : nat) (s : SM) (o : Aggregate C) :
  outcome (SM * Aggregate C * result CrustyError unit) :=
  if negb (ag_open o) then
    '(s, c, r) ← OpIterator.open s (ag_child o);
    let o := set_child o c in
    let? _ := r at s, o in
    '(s, o, r) ← collect fuel s o;
    let? _ := r at s, o in
    let entries := sort_by key_le (map_to_list (ag_acc o)) in
    ts ← finish (ag_ops o) entries;
    Ret (s, set o (ag_child o) true (ag_acc o) (ag_acc_iter o ++ ts) 0, Ok tt)
  else Ret (s, o, Ok tt).

Definition next (s : SM) (o : Aggregate C) : outcome (SM * Aggregate C * result CrustyError (option Tuple)) :=
  _ ← guard_or_panic (ag_open o);
  match nth_u (ag_acc_iter o) (ag_index o) with
  | Some t =>
      Ret (s, set o (ag_child o) (ag_open o) (ag_acc o) (ag_acc_iter o) (ag_index o + 1), Ok (Some t))
  | None => Ret (s, o, Ok None)
  end.

Definition close (s : SM) (o : Aggregate C) : outcome (SM * Aggregate C * result CrustyError unit) :=
  '(s, c, r) ← OpIterator.close s (ag_child o);
  let o := set_child o c in
  let? _ := r at s, o in
  Ret (s, set o (ag_child o) false ∅ [] 0, Ok tt).

Definition rewind (s : SM) (o : Aggregate C) : outcome (SM * Aggregate C * result CrustyError unit) :=
  _ ← guard_or_panic (ag_open o);
  _ ← guard_or_panic (ag_will_rewind o);
  Ret (s, set o (ag_child o) (ag_open o) (ag_acc o) (ag_acc_iter o) 0, Ok tt).
End Ops.
End Agg.

Definition Aggregate_ops {SM C} (ops : OpIterator SM C) (fuel : nat) : OpIterator SM (Aggregate C) := {|
  configure := Agg.configure;
  open := Agg.open fuel;
  next := Agg.next;
  close := Agg.close;
  rewind := Agg.rewind;
  get_schema := ag_schema
|}.

(** ** The contract *)

Section Laws.
Context {SM : Type} {scan : ScanTrait SM} {tbl : Z → option (list item)} {scan_laws : ScanLaws SM tbl}.
Context {C : Type} {ops : OpIterator SM C} (K : op_contract SM C) {laws : OpLaws SM C K}.

Definition Aggregate_contract (fuel : nat) : op_contract SM (Aggregate C) :=
  let gives (o : Aggregate C) call all :=
    Agg.aggregate (ag_groupby_expr o) (ag_agg_expr o) (ag_ops o) call = Ret all ∧ (length call < fuel)%nat in {|
  built o all n := ag_open o = false ∧ ag_acc o = ∅ ∧ ag_acc_iter o = [] ∧
    ∃ call, built K (ag_child o) call n ∧ gives o call all;
  configured o w all n := ag_open o = false ∧ ag_acc o = ∅ ∧ ag_acc_iter o = [] ∧ ag_will_rewind o = w ∧
    ∃ call, configured K (ag_child o) false call n ∧ gives o call all;
  live o w all rest res n := ag_open o = true ∧ ag_will_rewind o = w ∧ ag_acc_iter o = all ∧
    0 ≤ ag_index o ∧ rest = drop (Z.to_nat (ag_index o)) all ∧
    ∃ call, live K (ag_child o) false call [] res n;
  closed o := closed K (ag_child o)
|}.

Lemma agg_collect fuel s (o : Aggregate C) call crest acc res n fr :
  live K (ag_child o) false call crest res n →
  foldM (Agg.merge_tuple_into_group (ag_groupby_expr o) (ag_agg_expr o) (ag_ops o)) (ag_acc o) crest = Ret acc →
  (length crest < fuel)%nat → sc_view s (res ++ fr) → room fr n →
  ∃ s' c res', Agg.collect fuel s o =
      Ret (s', Agg.set o c (ag_open o) acc (ag_acc_iter o) (ag_index o), Ok tt) ∧
    live K c false call [] res' n ∧ sc_view s' (res' ++ fr).
Proof.
  revert s o crest res. induction fuel as [|fuel IH]; intros s o crest res Hl Hk Hf Hv Hroom; [lia|].
  cbn [Agg.collect]. destruct (next_ok _ _ _ _ _ _ _ _ Hl Hv Hroom) as (s1 & c1 & res1 & -> & Hl1 & Hv1).
  cbn [mbind outcome_bind or_return]. destruct crest as [|t crest]; cbn [foldM] in Hk.
  - injection Hk as <-. by eexists s1, c1, res1.
  - apply bind_Ret_inv in Hk as (acc' & E & Hk). cbn [head].
    change (Agg.merge_tuple_into_group (ag_groupby_expr (Agg.set_child o c1)) _ _ _ t) with
      (Agg.merge_tuple_into_group (ag_groupby_expr o) (ag_agg_expr o) (ag_ops o) (ag_acc o) t).
    rewrite E. cbn [mbind outcome_bind].
    destruct (IH s1 (Agg.set (Agg.set_child o c1) c1 (ag_open o) acc' (ag_acc_iter o) (ag_index o))
      crest res1) as (s' & c' & res' & E' & H1 & H2); try done; [simpl in *; lia|].
    by exists s', c', res'.
Qed.

Lemma agg_open fuel s o w all n fr :
  configured (Aggregate_contract fuel) o w all n → sc_view s fr → room fr n →
  ∃ s' o' res, Agg.open fuel s o = Ret (s', o', Ok tt) ∧
    live (Aggregate_contract fuel) o' w all all res n ∧ sc_view s' (res ++ fr).
Proof.
  intros (Ho & Ha & Hi & Hw & call & Hb & Hg & Hf) Hv Hroom. unfold Agg.open. rewrite Ho. cbn [negb].
  unfold Agg.aggregate in Hg. apply bind_Ret_inv in Hg as (acc & Hacc & Hfin).
  destruct (open_ok _ _ _ _ _ _ Hb Hv Hroom) as (s1 & c1 & res & -> & Hl & Hv1). cbn [mbind outcome_bind or_return].
  destruct (agg_collect fuel s1 (Agg.set_child o c1) call call acc res n fr) as (s2 & c2 & res2 & -> & Hl2 & Hv2);
    try done. { cbn. by rewrite Ha. }
  cbn [mbind outcome_bind or_return].
  change (ag_acc (Agg.set _ _ _ acc _ _)) with acc. change (ag_ops (Agg.set _ _ _ _ _ _)) with (ag_ops o).
  rewrite Hfin. cbn [mbind outcome_bind]. eexists _, _, res2. split; [done|]. split; [|done]. cbn. rewrite Hi.
  split_and!; try done. by exists call.
Qed.

Lemma agg_next fuel s o w all rest res n fr :
  live (Aggregate_contract fuel) o w all rest res n → sc_view s (res ++ fr) →
  ∃ s' o' res', Agg.next s o = Ret (s', o', Ok (head rest)) ∧
    live (Aggregate_contract fuel) o' w all (tail rest) res' n ∧ sc_view s' (res' ++ fr).
Proof.
  intros (Ho & Hw & Ha & Hi & -> & call & Hl) Hv. unfold Agg.next. rewrite Ho. cbn [guard_or_panic mbind outcome_bind].
  rewrite nth_u_lookup, Ha, head_lookup, lookup_drop, Nat.add_0_r by done.
  destruct (all !! Z.to_nat (ag_index o)) as [t|] eqn:E.
  - eexists _, _, res. split; [done|]. split; [|done]. cbn. split_and!; try done; [lia| |by exists call].
    replace (Z.to_nat (ag_index o + 1)) with (S (Z.to_nat (ag_index o))) by lia.
    by rewrite (drop_S _ _ _ E).
  - eexists _, _, res. split; [done|]. split; [|done]. cbn. split_and!; try done; [|by exists call].
    apply lookup_ge_None in E. by rewrite drop_ge.
Qed.

Lemma Aggregate_laws fuel : OpLaws SM (Aggregate C) (ops := Aggregate_ops ops fuel) (Aggregate_contract fuel).
Proof.
  constructor.
  - intros o w all rest res n (_ & _ & _ & _ & _ & call & Hl). by eapply live_owns.
  - intros o all n w (Ho & Ha & Hi & call & Hb & Hg). split_and!; try done. exists call.
    split; [by apply configure_ok|done].
  - intros s o w all n fr Hc Hv Hroom. by apply (agg_open fuel).
  - intros s o w all rest res n fr Hl Hv _. exact (agg_next fuel s o w all rest res n fr Hl Hv).
  - intros s o all rest res n fr (Ho & Hw & Ha & Hi & -> & call & Hl) Hv _. cbn. unfold Agg.rewind.
    rewrite Ho, Hw. eexists _, _, res. split; [done|]. split; [|done]. cbn. split_and!; try done. by exists call.
  - intros s o w all rest res n fr (_ & _ & _ & _ & _ & call & Hl) Hv. cbn. unfold Agg.close.
    destruct (close_ok _ _ _ _ _ _ _ _ Hl Hv) as (s1 & c1 & -> & Hc1 & Hv1). cbn [mbind outcome_bind or_return].
    by eexists _, _.
  - intros s o fr Hc Hv. cbn in Hc |- *. unfold Agg.close.
    destruct (close_again _ _ _ Hc Hv) as (s1 & c1 & -> & Hc1 & Hv1). cbn [mbind outcome_bind or_return].
    by eexists _, _.
Qed.
End Laws.
