(* ===== verification/OpAggregateCorrect.v ===== *)
(** * Aggregation computes the aggregates of the groups *)

From S2P Require Import Prelude Common Ordering Field FieldContract Tuple ByteCode.
From S2P Require Import OpIterator OpJoin OpAggregate.
From stdpp Require Import strings gmap sorting.

Open Scope Z_scope.

(** ** One column *)

(** Folding one aggregate over the values of a column, the first of which starts it. *)
Definition fold_step (op : AggOp) (a v : Field) : outcome Field :=
  r ← Agg.merge_fields op v a; result_unwrap r.
Definition fold_start (op : AggOp) (v : Field) : Field :=
  match op with Count => BigInt 1 | _ => v end.
Definition fold_column (op : AggOp) (vs : list Field) : outcome Field :=
  match vs with
  | [] => Panic
  | v :: vs => foldM (fold_step op) (fold_start op v) vs
  end.

Lemma fold_step_add op a z :
  op = Sum ∨ op = Avg → field_ok (BigInt (a + z)) → fold_step op (BigInt a) (BigInt z) = Ret (BigInt (a + z)).
Proof. intros [->| ->] H; simpl in H; unfold fold_step; cbn [Agg.merge_fields field_add]; by rewrite i64_ok. Qed.

Lemma fold_step_count a v : field_ok (BigInt (a + 1)) → fold_step Count (BigInt a) v = Ret (BigInt (a + 1)).
Proof. intros H. simpl in H. unfold fold_step. cbn [Agg.merge_fields field_add]. by rewrite i64_ok. Qed.

Lemma fold_count n vs :
  0 ≤ n → n + zlen vs < 2 ^ 63 → foldM (fold_step Count) (BigInt n) vs = Ret (BigInt (n + zlen vs)).
Proof.
  revert n. induction vs as [|v vs IH]; intros n Hn Hl; cbn [foldM].
  - do 2 f_equal. len.
  - pose proof (zlen_nonneg vs). rewrite fold_step_count by (simpl; len). rewrite bind_Ret. rewrite IH by len. do 2 f_equal. len.
Qed.

Lemma fold_max a vs :
  ∃ m, foldM (fold_step Max) a vs = Ret m ∧ m ∈ a :: vs ∧
    Forall (λ v, cmp_le field_cmp v m = true) (a :: vs).
Proof.
  revert a. induction vs as [|v vs IH]; intros a; cbn [foldM].
  - exists a. split_and!; [done|left|]. repeat constructor. apply cmp_le_refl; apply _.
  - change (fold_step Max a v) with (Ret (cmp_max field_cmp a v)). rewrite bind_Ret.
    destruct (IH (cmp_max field_cmp a v)) as (m & -> & Hin & Hle).
    destruct (cmp_max_spec field_cmp a v) as (Hor & Ha & Hv). apply Forall_cons in Hle as [Hm Hle].
    exists m. split; [done|]. split.
    + apply elem_of_cons in Hin as [->|Hin]; [destruct Hor as [->| ->]; set_solver|set_solver].
    + constructor; [|constructor; [|done]]; by eapply cmp_le_trans; [apply _| |done].
Qed.

Lemma fold_min a vs :
  ∃ m, foldM (fold_step Min) a vs = Ret m ∧ m ∈ a :: vs ∧
    Forall (λ v, cmp_le field_cmp m v = true) (a :: vs).
Proof.
  revert a. induction vs as [|v vs IH]; intros a; cbn [foldM].
  - exists a. split_and!; [done|left|]. repeat constructor. apply cmp_le_refl; apply _.
  - change (fold_step Min a v) with (Ret (cmp_min field_cmp a v)). rewrite bind_Ret.
    destruct (IH (cmp_min field_cmp a v)) as (m & -> & Hin & Hle).
    destruct (cmp_min_spec field_cmp a v) as (Hor & Ha & Hv). apply Forall_cons in Hle as [Hm Hle].
    exists m. split; [done|]. split.
    + apply elem_of_cons in Hin as [->|Hin]; [destruct Hor as [->| ->]; set_solver|set_solver].
    + constructor; [|constructor; [|done]]; by eapply cmp_le_trans; [apply _|done|].
Qed.

(** Sums of integers, with every partial sum in range. *)
Fixpoint sums_fit (a : Z) (zs : list Z) : Prop :=
  - 2 ^ 63 ≤ a < 2 ^ 63 ∧ match zs with [] => True | z :: zs => sums_fit (a + z) zs end.

Definition total (zs : list Z) : Z := foldr Z.add 0 zs.

Lemma fold_sum a zs :
  sums_fit a zs → foldM (fold_step Sum) (BigInt a) (BigInt <$> zs) = Ret (BigInt (a + total zs)).
Proof.
  revert a. induction zs as [|z zs IH]; intros a Hf; cbn [foldM fmap list_fmap].
  - do 2 f_equal. cbn. lia.
  - destruct Hf as [Ha Hf]. rewrite fold_step_add by (auto; destruct zs; apply Hf).
    rewrite bind_Ret. rewrite IH by done. do 2 f_equal. unfold total. simpl. lia.
Qed.

(** What the aggregates compute on the values of a group: COUNT their number, MAX a
    largest and MIN a smallest of them, SUM their sum, when the values are integers and no
    partial sum overflows. *)
Theorem aggregate_meaning v vs :
  (zlen vs + 1 < 2 ^ 63 → fold_column Count (v :: vs) = Ret (BigInt (zlen vs + 1))) ∧
  (∃ m, fold_column Max (v :: vs) = Ret m ∧ m ∈ v :: vs ∧
     Forall (λ x, cmp_le field_cmp x m = true) (v :: vs)) ∧
  (∃ m, fold_column Min (v :: vs) = Ret m ∧ m ∈ v :: vs ∧
     Forall (λ x, cmp_le field_cmp m x = true) (v :: vs)) ∧
  (∀ z zs, v :: vs = BigInt <$> z :: zs → sums_fit z zs →
     fold_column Sum (v :: vs) = Ret (BigInt (total (z :: zs)))).
Proof.
  split_and!.
  - intros Hl. unfold fold_column, fold_start. rewrite fold_count by lia. do 2 f_equal. lia.
  - apply fold_max.
  - apply fold_min.
  - intros z zs E Hf. injection E as -> ->. unfold fold_column, fold_start. by apply fold_sum.
Qed.

(** ** One group *)

(** A group after the tuples with the aggregated values [vss]. *)
Definition group_fold (ops : list AggOp) (g : option group) (vss : list (list Field)) :
  outcome (option group) :=
  foldM (λ g vals, g ← Agg.add_to_group ops g vals; Ret (Some g)) g vss.

Definition column (i : nat) (vss : list (list Field)) : list Field := omap (.!! i) vss.

Lemma merge_all_column ops vals accs accs' i op a v :
  Agg.merge_all ops vals accs = Ret accs' → ops !! i = Some op → vals !! i = Some v →
  accs !! i = Some a → ∃ a', accs' !! i = Some a' ∧ fold_step op a v = Ret a'.
Proof.
  revert vals accs accs' i. induction ops as [|o ops IH]; intros vals accs accs' i E Ho Hv Ha; [done|].
  destruct vals as [|v' vals]; [done|]. destruct accs as [|a' accs]; [done|]. cbn [Agg.merge_all] in E.
  apply bind_Ret_inv in E as (r & E1 & E). apply bind_Ret_inv in E as (a1 & E2 & E).
  apply bind_Ret_inv in E as (accs1 & E3 & [= <-]). destruct i as [|i]; simpl in *.
  - simplify_eq. exists a1. split; [done|]. unfold fold_step. rewrite E1. done.
  - by eapply IH.
Qed.

Lemma merge_all_length ops vals accs accs' :
  Agg.merge_all ops vals accs = Ret accs' → length accs' = length accs.
Proof.
  revert vals accs accs'. induction ops as [|o ops IH]; intros vals accs accs' E; simpl in E; [by simplify_eq|].
  destruct vals as [|v vals]; [done|]. destruct accs as [|a accs]; [done|].
  apply bind_Ret_inv in E as (r & _ & E). apply bind_Ret_inv in E as (a1 & _ & E).
  apply bind_Ret_inv in E as (accs1 & E3 & [= <-]). simpl. f_equal. by eapply IH.
Qed.

(** The columns of a group, from a state with accumulated values on. *)
Lemma group_fold_columns ops n accs vss n' accs' i op a :
  group_fold ops (Some (n, accs)) vss = Ret (Some (n', accs')) →
  Forall (λ vals, length vals = length ops) vss → ops !! i = Some op → accs !! i = Some a →
  n' = n + zlen vss ∧ ∃ a', accs' !! i = Some a' ∧ foldM (fold_step op) a (column i vss) = Ret a'.
Proof.
  revert n accs a. induction vss as [|vals vss IH]; intros n accs a E HF Ho Ha.
  - cbn in E. simplify_eq. split; [len|]. by exists a.
  - apply Forall_cons in HF as [Hl HF]. unfold group_fold in E. cbn [foldM] in E.
    apply bind_Ret_inv in E as (g & Eg & E). apply bind_Ret_inv in Eg as ([n1 accs1] & Eg & [= <-]).
    cbn [Agg.add_to_group] in Eg. apply bind_Ret_inv in Eg as (accs2 & Em & [= <- <-]).
    destruct (lookup_lt_is_Some_2 vals i) as [v Hv].
    { rewrite Hl. by eapply lookup_lt_Some. }
    destruct (merge_all_column _ _ _ _ _ _ _ _ Em Ho Hv Ha) as (a1 & Ha1 & Es).
    destruct (IH (n + 1) accs2 a1 E HF Ho Ha1) as (-> & a' & Ha' & Ef).
    split; [len|]. exists a'. split; [done|]. unfold column. cbn [omap list_omap]. rewrite Hv. cbn [foldM].
    by rewrite Es.
Qed.

Lemma group_fold_length ops vss g n accs :
  group_fold ops g vss = Ret (Some (n, accs)) → Forall (λ vals, length vals = length ops) vss →
  match g with Some (_, l) => length l = length ops | None => True end → length accs = length ops.
Proof.
  revert g. induction vss as [|vals vss IH]; intros g E HF Hg.
  - cbn in E. by simplify_eq.
  - apply Forall_cons in HF as [Hl HF]. unfold group_fold in E. cbn [foldM] in E.
    apply bind_Ret_inv in E as (g' & Eg & E). apply bind_Ret_inv in Eg as ([n1 accs1] & Eg & [= <-]).
    apply (IH _ E HF). destruct g as [[n0 l]|]; cbn [Agg.add_to_group] in Eg.
    + apply bind_Ret_inv in Eg as (accs2 & Em & [= <- <-]). by rewrite (merge_all_length _ _ _ _ Em).
    + injection Eg as <- <-. unfold Agg.init_group. rewrite length_zip_with. lia.
Qed.

(** The group of the tuples [vss]: their number, and the aggregates of their columns. *)
Lemma group_fold_ok ops vss n accs :
  group_fold ops None vss = Ret (Some (n, accs)) → Forall (λ vals, length vals = length ops) vss →
  n = zlen vss ∧ ∀ i op, ops !! i = Some op →
    ∃ a, accs !! i = Some a ∧ fold_column op (column i vss) = Ret a.
Proof.
  destruct vss as [|vals vss]; [done|]. intros E [Hl HF]%Forall_cons. unfold group_fold in E.
  cbn [foldM Agg.add_to_group] in E. rewrite !bind_Ret in E.
  assert (∀ i op, ops !! i = Some op → ∃ v, vals !! i = Some v ∧
    Agg.init_group ops vals !! i = Some (fold_start op v)) as Hinit.
  { intros i op Ho. destruct (lookup_lt_is_Some_2 vals i) as [v Hv].
    { rewrite Hl. by eapply lookup_lt_Some. }
    exists v. split; [done|]. unfold Agg.init_group. by rewrite lookup_zip_with, Ho, Hv. }
  assert (n = zlen (vals :: vss)) as Hn.
  { clear Hinit. revert E. unfold zlen. cbn [length]. generalize (Agg.init_group ops vals). intros l E.
    replace (Z.of_nat (S (length vss))) with (1 + zlen vss) by len.
    revert l E. generalize 1. clear HF. induction vss as [|v vss IH]; intros m l E.
    - cbn in E. simplify_eq. len.
    - cbn [foldM Agg.add_to_group] in E. apply bind_Ret_inv in E as (g & Eg & E).
      apply bind_Ret_inv in Eg as (g' & Eg & [= <-]). apply bind_Ret_inv in Eg as (l' & _ & [= <-]).
      rewrite (IH _ _ E). len. }
  split; [done|]. intros i op Ho. destruct (Hinit i op Ho) as (v & Hv & Hi).
  destruct (group_fold_columns _ _ _ _ _ _ _ _ _ E HF Ho Hi) as (_ & a & Ha & Ef).
  exists a. split; [done|]. unfold column. cbn [omap list_omap]. by rewrite Hv.
Qed.

(** ** All groups *)

(** The aggregated values of the tuples with key [k]. *)
Definition group_vals (gb ae : list ByteCodeExpr) (k : list Field) (l : list Tuple) : list (list Field) :=
  omap (λ t, kt ← values gb t; vt ← values ae t; if decide (kt = k) then Some vt else None) l.

Lemma eval_all_length es t fs : eval_all es t = Ret fs → length fs = length es.
Proof.
  revert fs. induction es as [|e es IH]; intros fs E; simpl in E; [by simplify_eq|].
  apply bind_Ret_inv in E as (f & _ & E). apply bind_Ret_inv in E as (fs' & E & [= <-]). simpl. f_equal. auto.
Qed.

Lemma values_Ret es t fs : eval_all es t = Ret fs → values es t = Some fs.
Proof. unfold values. by intros ->. Qed.

Lemma group_vals_length gb ae k l : Forall (λ vals, length vals = length ae) (group_vals gb ae k l).
Proof.
  apply Forall_forall. intros vals (t & _ & E)%list_elem_of_omap.
  destruct (values gb t); [|done]. simpl in E. destruct (values ae t) eqn:Ev; [|done]. simpl in E.
  case_decide; [|done]. injection E as <-. apply values_Some in Ev. by eapply eval_all_length.
Qed.

Lemma acc_groups gb ae ops l acc0 acc k :
  foldM (Agg.merge_tuple_into_group gb ae ops) acc0 l = Ret acc →
  group_fold ops (acc0 !! k) (group_vals gb ae k l) = Ret (acc !! k) ∧
  (∀ t, t ∈ l → is_Some (values gb t)).
Proof.
  revert acc0. induction l as [|t l IH]; intros acc0 E; cbn [foldM] in E.
  - injection E as <-. split; [done|]. intros t Ht. by apply elem_of_nil in Ht.
  - apply bind_Ret_inv in E as (acc1 & E1 & E). unfold Agg.merge_tuple_into_group in E1.
    apply bind_Ret_inv in E1 as (kt & Ek & E1). apply bind_Ret_inv in E1 as (vt & Ev & E1).
    apply bind_Ret_inv in E1 as (g & Eg & [= <-]). apply values_Ret in Ek, Ev.
    destruct (IH _ E) as [Hg Hl]. split.
    + unfold group_vals in *. cbn [omap list_omap]. rewrite Ek, Ev. simpl. destruct (decide (kt = k)) as [->|Hne].
      * rewrite lookup_insert_eq in Hg. unfold group_fold in *. cbn [foldM]. rewrite Eg. done.
      * by rewrite lookup_insert_ne in Hg.
    + intros t' [->|Ht']%elem_of_cons; [by rewrite Ek|by apply Hl].
Qed.

Lemma finish_fields_ok n ops vals fs :
  Agg.finish_fields n ops vals = Ret fs → length vals = length ops →
  length fs = length ops ∧ ∀ i op v, ops !! i = Some op → vals !! i = Some v →
    ∃ f, fs !! i = Some f ∧ Agg.finish_field n op v = Ret f.
Proof.
  revert vals fs. induction ops as [|o ops IH]; intros [|v vals] fs E Hl; simpl in *; try done.
  - by injection E as <-.
  - apply bind_Ret_inv in E as (f & Ef & E). apply bind_Ret_inv in E as (fs' & E & [= <-]).
    destruct (IH vals fs' E) as [Hl' Hi]; [lia|]. simpl. split; [lia|].
    intros [|i] op w; simpl; [|by apply Hi]. intros [= <-] [= <-]. eauto.
Qed.

Lemma finish_ok ops entries out :
  Agg.finish ops entries = Ret out →
  Forall2 (λ '(k, (n, vals)) t, ∃ fs, Agg.finish_fields n ops vals = Ret fs ∧ t = Tup.new (k ++ fs)) entries out.
Proof.
  revert out. induction entries as [|[k [n vals]] entries IH]; intros out E; simpl in E.
  - injection E as <-. constructor.
  - apply bind_Ret_inv in E as (fs & Ef & E). apply bind_Ret_inv in E as (ts & E & [= <-]).
    constructor; [by exists fs|]. by apply IH.
Qed.

(** The entries by key, without repetition. *)
Lemma acc_entries_sorted (acc : accumulator) :
  StronglySorted (λ a b, cmp_list field_cmp a b = Lt) (sort_by Agg.key_le (map_to_list acc)).*1.
Proof.
  assert (StronglySorted (λ a b, Agg.key_le a b = true) (sort_by Agg.key_le (map_to_list acc))) as Hs.
  { apply sort_by_sorted; intros *; unfold Agg.key_le.
    - apply cmp_le_total; apply _.
    - apply cmp_le_trans; apply _. }
  assert (NoDup (sort_by Agg.key_le (map_to_list acc)).*1) as Hn.
  { rewrite sort_by_Permutation. apply NoDup_fst_map_to_list. }
  induction Hs as [|a m Hs IH Ha]; [constructor|]. cbn in Hn |- *. apply NoDup_cons in Hn as [Hn1 Hn2].
  constructor; [by apply IH|]. apply Forall_fmap. rewrite Forall_forall in Ha |- *. intros b Hb. simpl.
  specialize (Ha b Hb). unfold Agg.key_le, cmp_le in Ha.
  destruct (cmp_list field_cmp a.1 b.1) eqn:E; try done. apply (cmp_eq (cmp := cmp_list field_cmp)) in E.
  destruct Hn1. apply list_elem_of_fmap. eauto.
Qed.

Lemma group_exists ops gb ae k l acc :
  foldM (Agg.merge_tuple_into_group gb ae ops) ∅ l = Ret acc →
  is_Some (acc !! k) ↔ ∃ t, t ∈ l ∧ values gb t = Some k.
Proof.
  assert (∀ acc0, foldM (Agg.merge_tuple_into_group gb ae ops) acc0 l = Ret acc →
    is_Some (acc !! k) ↔ is_Some (acc0 !! k) ∨ ∃ t, t ∈ l ∧ values gb t = Some k) as G.
  { induction l as [|t l IH]; intros acc0 E; cbn [foldM] in E.
    - injection E as <-. split; [by left|]. intros [?|(t & Ht & _)]; [done|]. by apply elem_of_nil in Ht.
    - apply bind_Ret_inv in E as (acc1 & E1 & E). unfold Agg.merge_tuple_into_group in E1.
      apply bind_Ret_inv in E1 as (kt & Ek & E1). apply bind_Ret_inv in E1 as (vt & Ev & E1).
      apply bind_Ret_inv in E1 as (g & Eg & [= <-]). apply values_Ret in Ek.
      rewrite (IH _ E). rewrite lookup_insert_is_Some. setoid_rewrite elem_of_cons.
      split.
      + intros [[->|[_ H0]]|(t' & Ht' & E')]; [right|left|right]; eauto.
      + intros [H0|(t' & [->|Ht'] & E')].
        * left. destruct (decide (kt = k)); [by left|by right].
        * left. left. congruence.
        * right. eauto. }
  intros E. rewrite (G ∅ E), lookup_empty. split; [intros [[? ?]|?]; done|by right].
Qed.

Lemma aggregate_ok gb ae ops l out :
  length ae = length ops → Agg.aggregate gb ae ops l = Ret out →
  ∃ ks, StronglySorted (λ a b, cmp_list field_cmp a b = Lt) ks ∧
    (∀ k, k ∈ ks ↔ ∃ t, t ∈ l ∧ values gb t = Some k) ∧
    Forall2 (λ k t, ∃ fs, t = Tup.new (k ++ fs) ∧ length fs = length ops ∧
      ∀ i op, ops !! i = Some op → ∃ a f,
        fold_column op (column i (group_vals gb ae k l)) = Ret a ∧
        Agg.finish_field (zlen (group_vals gb ae k l)) op a = Ret f ∧ fs !! i = Some f) ks out.
Proof.
  intros Hlen E. unfold Agg.aggregate in E. apply bind_Ret_inv in E as (acc & Eacc & E).
  set (entries := sort_by Agg.key_le (map_to_list acc)) in *. exists entries.*1. split_and!.
  - apply acc_entries_sorted.
  - intros k. rewrite <-(group_exists ops gb ae k l acc Eacc). unfold entries.
    rewrite sort_by_Permutation, list_elem_of_fmap. split.
    + intros ([k' g] & -> & Hk%elem_of_map_to_list). by exists g.
    + intros [g Hg]. exists (k, g). split; [done|]. by apply elem_of_map_to_list.
  - apply finish_ok in E. apply Forall2_fmap_l.
    assert (Forall (λ e, acc !! e.1 = Some e.2) entries) as HF.
    { unfold entries. rewrite sort_by_Permutation. apply Forall_forall.
      intros [k g] Hk%elem_of_map_to_list. done. }
    clearbody entries. induction E as [|[k [n vals]] t entries out (fs & Ef & ->) _ IH]; [constructor|].
    apply Forall_cons in HF as [Hk HF]. constructor; [|by apply IH]. simpl in *.
    destruct (acc_groups gb ae ops l ∅ acc k Eacc) as [Hg _]. rewrite lookup_empty, Hk in Hg.
    pose proof (group_vals_length gb ae k l) as Hgl. rewrite Hlen in Hgl.
    destruct (group_fold_ok ops _ n vals Hg Hgl) as [-> Hcol].
    destruct (finish_fields_ok _ _ _ _ Ef) as [Hfl Hfin].
    { by eapply group_fold_length. }
    exists fs. split_and!; [done|done|]. intros i op Ho. destruct (Hcol i op Ho) as (a & Ha & Efold).
    destruct (Hfin i op a Ho Ha) as (f & Hf & Efin). eauto 10.
Qed.
