(* ===== verification/OpRun.v ===== *)
(** * What operators give when they run

    Runs an operator as the executor does, from [configure] to the last tuple, and states
    what sorting, aggregation and the joins give for any children that keep the operator
    laws. *)

From stdpp Require Import strings gmap sorting.
From S2P Require Import Prelude Common Ordering Field FieldContract Tuple ByteCode OpIterator.
From S2P Require Import OpBasic.
From S2P Require Import OpJoin OpJoinLaws OpSort OpAggregate OpAggregateCorrect.

Open Scope Z_scope.

(** ** The joins agree

    On the same inputs a hash join gives the same tuples as a nested loop join on equality
    of the keys, in another order; and a nested loop join gives those of the cross join
    that satisfy its condition. *)

(** The condition of an equality join on keys [le] and [re], when the keys do not panic. *)
Definition keys_equal (le re : ByteCodeExpr) (l r : Tuple) : option bool :=
  kl ← value le l; kr ← value re r; Some (bool_decide (kl = kr)).

Lemma keyed_inv e L kl :
  keyed e L = Some kl → kl.*2 = L ∧ Forall (λ p, value e p.2 = Some p.1) kl.
Proof.
  revert kl. induction L as [|l L IH]; simpl; intros kl E; [by simplify_eq|].
  destruct (value e l) as [k|] eqn:Ek; [|done]. simpl in E.
  destruct (keyed e L) as [kl'|]; [|done]. injection E as <-.
  destruct (IH kl' eq_refl) as [E' HF]. split; [by rewrite fmap_cons, E'|by constructor].
Qed.

(** Joining the keyed left tuples with one more right tuple. *)
Lemma join_cons_right le re kl r kr R ts :
  Forall (λ p, value le p.2 = Some p.1) kl → value re r = Some kr →
  join (keys_equal le re) kl.*2 R = Some ts →
  ∃ ts', join (keys_equal le re) kl.*2 (r :: R) = Some ts' ∧
    ts' ≡ₚ ((λ l, Tup.merge l r) <$> bucket kl kr) ++ ts.
Proof.
  intros Hk Hr. revert ts. induction Hk as [|[k l] kl Hl _ IH]; intros ts E.
  - injection E as <-. by exists [].
  - rewrite fmap_cons in E |- *. cbn [join join_row snd] in E |- *. simpl in Hl. destruct (join_row (keys_equal le re) l R) as [xs|] eqn:Ex; [|done]. simpl in E.
    destruct (join (keys_equal le re) kl.*2 R) as [ys|]; [|done]. simpl in E. injection E as <-.
    destruct (IH ys eq_refl) as (ts' & -> & Hp).
    assert (keys_equal le re l r = Some (bool_decide (k = kr))) as ->.
    { unfold keys_equal. by rewrite Hl, Hr. }
    cbn [mbind option_bind]. eexists. split; [done|].
    unfold bucket in *. simpl. destruct (bool_decide (k = kr)); simpl.
    + rewrite Hp. solve_Permutation.
    + rewrite Hp. solve_Permutation.
Qed.

Lemma hash_join_permutes le re kl R out :
  Forall (λ p, value le p.2 = Some p.1) kl → hash_rows kl re R = Some out →
  ∃ ts, join (keys_equal le re) kl.*2 R = Some ts ∧ ts ≡ₚ out.
Proof.
  intros Hk. revert out. induction R as [|r R IH]; intros out E; simpl in E.
  - injection E as <-. clear Hk. induction kl as [|p kl IH]; [by exists []|].
    destruct IH as (ts & E & Hp). exists ts. split; [|done]. rewrite fmap_cons. cbn [join join_row mbind option_bind]. by rewrite E.
  - destruct (value re r) as [kr|] eqn:Hr; [|done]. simpl in E.
    destruct (hash_rows kl re R) as [out'|]; [|done]. injection E as <-.
    destruct (IH out' eq_refl) as (ts & E & Hp).
    destruct (join_cons_right le re kl r kr R ts Hk Hr E) as (ts' & E' & Hp').
    exists ts'. split; [done|]. by rewrite Hp', Hp.
Qed.

Lemma hash_join_rows le re L R kl out :
  keyed le L = Some kl → hash_rows kl re R = Some out →
  ∃ ts, join (keys_equal le re) L R = Some ts ∧ ts ≡ₚ out.
Proof.
  intros Hk Hh. apply keyed_inv in Hk as [<- Hk]. by apply hash_join_permutes.
Qed.

(** The condition of a nested loop join on equality is equality of the keys. *)
Lemma meets_keys_equal {CL CR} (o : NestedLoopJoin CL CR) l r :
  nl_op o = OpEq → meets o l r = keys_equal (nl_left_expr o) (nl_right_expr o) l r.
Proof.
  intros Ho. unfold meets, Nested.matches, keys_equal, value. rewrite Ho.
  destruct (Bce.eval (nl_left_expr o) l) as [kl|]; [|done].
  by destruct (Bce.eval (nl_right_expr o) r) as [kr|].
Qed.

(** Open an operator and take its tuples until it has no more. *)
Definition run_all {SM C} (ops : OpIterator SM C) (fuel : nat) (s : SM) (o : C) : outcome (result CrustyError (list Tuple)) :=
  '(s, o, r) ← open s (configure (SM := SM) false o);
  match r with
  | Err e => Ret (Err e)
  | Ok _ => '(_, _, r) ← drain fuel s o; Ret r
  end.

(** ** The pairs of a sort-merge join *)

(** The pairs of tuples with equal keys. *)
Definition equi_pairs (les res : list ByteCodeExpr) (L R : list Tuple) : list Tuple :=
  L ≫= λ l, (λ r, Tup.merge l r) <$> List.filter (λ r, bool_decide (values les l = values res r)) R.

Lemma compare_keys_same l r ascs : length l = length ascs → length r = length ascs → is_eq (compare_keys l r ascs) = bool_decide (l = r).
Proof.
  revert l r. induction ascs as [|asc ascs IH]; intros [|x l] [|y r] Hl Hr; try done. cbn [compare_keys head tail].
  set (d := λ x y, if asc then cmp_option field_cmp x y else cmp_option field_cmp y x). assert (OrdLaws d) as Hd by apply directed_ord.
  change (if asc then _ else _) with (d (Some x) (Some y)). simpl in Hl, Hr. destruct (d (Some x) (Some y)) eqn:E; simpl.
  - apply (cmp_eq (cmp := d)) in E as [= ->]. rewrite (IH l r) by lia. apply bool_decide_ext. split; [by intros ->|by intros [= ->]].
  - rewrite bool_decide_eq_false_2; [done|]. intros [= -> ->]. by rewrite (cmp_refl (cmp := d)) in E.
  - rewrite bool_decide_eq_false_2; [done|]. intros [= -> ->]. by rewrite (cmp_refl (cmp := d)) in E.
Qed.

Lemma values_length es t fs : values es t = Some fs → length fs = length es.
Proof.
  intros E. apply values_Some in E. revert fs E. induction es as [|e es IH]; intros fs E; cbn [eval_all] in E; [by injection E as <-|].
  destruct (Bce.eval e t); [|done]. cbn [mbind outcome_bind] in E. destruct (eval_all es t); [|done]. injection E as <-. simpl. by rewrite (IH _ eq_refl).
Qed.

Lemma rows_permutes ascs A A' B B' : A ≡ₚ A' → B ≡ₚ B' → rows ascs A B ≡ₚ rows ascs A' B'.
Proof.
  intros HA HB. unfold rows. rewrite HA. clear A HA. induction A' as [|x A IH]; [done|]. rewrite !bind_cons, IH. f_equiv. f_equiv.
  clear IH. induction HB as [|y B B' _ IH|y z B|B B' B'' _ IH1 _ IH2]; [done| | |by etrans]; cbn [List.filter].
  - destruct (is_eq (cmp ascs x y)); by rewrite IH.
  - destruct (is_eq (cmp ascs x y)), (is_eq (cmp ascs x z)); [apply perm_swap|done..].
Qed.

Lemma rows_equi (les res : list (ByteCodeExpr * bool)) kl kr : les.*2 = res.*2 →
  Forall (λ p, values les.*1 p.2 = Some p.1) kl → Forall (λ p, values res.*1 p.2 = Some p.1) kr →
  rows les.*2 kl kr = equi_pairs les.*1 res.*1 kl.*2 kr.*2.
Proof.
  intros Hd Hl Hr. unfold rows, equi_pairs. induction Hl as [|x kl Hx _ IH]; [done|]. rewrite fmap_cons, !bind_cons, IH. f_equal.
  clear IH. induction Hr as [|y kr Hy _ IH]; [done|]. rewrite fmap_cons. cbn [List.filter].
  assert (is_eq (cmp les.*2 x y) = bool_decide (values les.*1 x.2 = values res.*1 y.2)) as ->.
  { unfold cmp. rewrite compare_keys_same.
    - apply bool_decide_ext. rewrite Hx, Hy. split; [by intros ->|by intros [= ->]].
    - rewrite (values_length _ _ _ Hx). by rewrite !length_fmap.
    - rewrite Hd, (values_length _ _ _ Hy). by rewrite !length_fmap. }
  destruct (bool_decide _); [|done]. cbn [fmap list_fmap]. by rewrite IH.
Qed.

Section Run.
Context {SM : Type} {scan : ScanTrait SM} {tbl : Z → option (list item)} {scan_laws : ScanLaws SM tbl}.

Lemma run_all_ok {C} {ops : OpIterator SM C} (K : op_contract SM C) {laws : OpLaws SM C K} fuel s o all n :
  built K o all n → sc_view s [] → sc_fits (S n) → (length all < fuel)%nat →
  run_all ops fuel s o = Ret (Ok all).
Proof.
  intros Hb Hv Hfit Hf. unfold run_all.
  destruct (open_ok _ _ false all n [] (configure_ok o all n false Hb) Hv Hfit) as (s1 & o1 & res1 & -> & Hl1 & Hv1).
  rewrite bind_Ret. destruct (drain_child fuel s1 o1 false all all res1 n [] Hl1 Hv1 Hfit Hf) as (s2 & o2 & res2 & -> & _ & _).
  done.
Qed.

(** ** Sort and aggregation *)

Section Unary.
Context {C : Type} {ops : OpIterator SM C} (K : op_contract SM C) {laws : OpLaws SM C K}.
Context (s : SM) (child : C) (input : list Tuple) (n : nat).
Context (Hchild : built K child input n) (Hview : sc_view s []) (Hfit : sc_fits (S n)).

(** A sort whose keys can be evaluated on the tuples of its child returns those tuples,
    each once, in the order of their keys: no tuple comes before one whose key is smaller
    in the requested directions. *)
Theorem sort_sorts fields schema :
  Forall (λ t, is_Some (values fields.*1 t)) input →
  ∃ out k0, (∀ fuel, (k0 ≤ fuel)%nat →
      run_all (Sort_ops ops fuel) fuel s (Sorting.new fields schema child) = Ret (Ok out)) ∧
    out ≡ₚ input ∧
    StronglySorted (λ t u, ∃ kt ku, values fields.*1 t = Some kt ∧ values fields.*1 u = Some ku ∧
      compare_keys kt ku fields.*2 ≠ Gt) out.
Proof.
  intros Hkeys. assert (is_Some (sorted_output fields input)) as [out Hout].
  { clear Hchild. unfold sorted_output. assert (is_Some (with_keys fields.*1 input)) as [kl ->]; [|by eexists].
    induction Hkeys as [|t l [k Hk] _ [kl IH]]; [by eexists|]. cbn [with_keys]. rewrite Hk, IH. by eexists. }
  destruct (sorted_output_ok fields input out Hout) as [Hp Hs].
  exists out, (S (length input)). split; [|done]. intros fuel Hf.
  apply (run_all_ok (Sort_contract K fuel) (laws := Sort_laws K fuel) _ _ _ _ n); [|done|done|].
  - split; [done|]. split; [done|]. exists input. split; [exact Hchild|]. split; [exact Hout|lia].
  - rewrite Hp. lia.
Qed.

(** C22: An aggregation that does not panic returns one tuple per distinct group-by value, in
    ascending order. The tuple of a group is the group-by value followed by one field per
    aggregate, which is the aggregate folded over that column of the tuples of the group,
    and for AVG divided by their number. *)
Theorem aggregate_groups gb ae aops schema out :
  length ae = length aops → Agg.aggregate gb ae aops input = Ret out →
  (∃ o k0, Agg.new gb ae aops schema child = Ret o ∧ ∀ fuel, (k0 ≤ fuel)%nat →
     run_all (Aggregate_ops ops fuel) fuel s o = Ret (Ok out)) ∧
  ∃ ks, StronglySorted (λ a b, cmp_list field_cmp a b = Lt) ks ∧
    (∀ k, k ∈ ks ↔ ∃ t, t ∈ input ∧ values gb t = Some k) ∧
    Forall2 (λ k t, ∃ fs, t = Tup.new (k ++ fs) ∧ length fs = length aops ∧
      ∀ i op, aops !! i = Some op → ∃ a f,
        fold_column op (column i (group_vals gb ae k input)) = Ret a ∧
        Agg.finish_field (zlen (group_vals gb ae k input)) op a = Ret f ∧ fs !! i = Some f) ks out.
Proof.
  intros Hlen Hagg. split; [|by apply aggregate_ok].
  eexists _, (S (length input + length out)). unfold Agg.new. rewrite (proj2 (Z.eqb_eq _ _)) by (unfold zlen; lia).
  split; [done|]. intros fuel Hf.
  apply (run_all_ok (Aggregate_contract K fuel) (laws := Aggregate_laws K fuel) _ _ _ _ n); [|done|done|lia].
  split_and!; try done. exists input. split; [exact Hchild|]. split; [exact Hagg|lia].
Qed.
End Unary.

(** ** Joins *)

Lemma join_ext m m' L R : (∀ l r, m l r = m' l r) → join m L R = join m' L R.
Proof.
  intros Hm. induction L as [|l L IH]; [done|]. cbn [join]. rewrite IH. f_equal.
  clear IH. induction R as [|r R IH]; [done|]. cbn [join_row]. by rewrite Hm, IH.
Qed.

Section Joins.
Context {CL CR : Type} {lops : OpIterator SM CL} {rops : OpIterator SM CR}.
Context (KL : op_contract SM CL) (KR : op_contract SM CR).
Context {llaws : OpLaws SM CL KL} {rlaws : OpLaws SM CR KR}.

(** C19: A hash join and a nested loop join on equality are equivalent: over children whose
    keys can be evaluated, both run to their end and return the same tuples with the same
    multiplicities. *)
Theorem hash_join_equiv_nested_loop s l r L R n1 n2 le re schema :
  built KL l L n1 → built KR r R n2 → sc_view s [] → sc_fits (S (n1 + n2)) →
  Forall (λ t, is_Some (value le t)) L → Forall (λ t, is_Some (value re t)) R →
  ∃ ts us k0, ts ≡ₚ us ∧ ∀ fuel, (k0 ≤ fuel)%nat →
    run_all (HashEqJoin_ops lops rops fuel) fuel s (HashEq.new schema le re l r) = Ret (Ok ts) ∧
    run_all (NestedLoopJoin_ops lops rops fuel) fuel s (Nested.new OpEq le re l r schema) = Ret (Ok us).
Proof.
  intros Hl Hr Hv Hfit HL HR.
  assert (is_Some (keyed le L)) as [kl Hkl].
  { clear Hl. induction HL as [|t L [k Hk] _ [kl IH]]; [by eexists|]. cbn [keyed]. rewrite Hk, IH. by eexists. }
  assert (is_Some (hash_rows kl re R)) as [ts Hts].
  { clear Hr. induction HR as [|t R [k Hk] _ [ts IH]]; [by eexists|]. cbn [hash_rows]. rewrite Hk, IH. by eexists. }
  destruct (hash_join_rows le re L R kl ts Hkl Hts) as (us & Hus & Hp).
  exists ts, us, (S (rounds L R R + length ts)). split; [done|]. intros fuel Hf.
  assert (length L < fuel ∧ S (length R) < fuel)%nat as [HfL HfR] by (unfold rounds in Hf; nia). split.
  - apply (run_all_ok (HashEqJoin_contract KL KR fuel) (laws := HashEqJoin_laws KL KR fuel) _ _ _ _ (n1 + n2)); [|done|done|lia].
    split; [done|]. split; [done|]. exists L, R, kl, n1, n2. done.
  - apply (run_all_ok (NestedLoopJoin_contract KL KR fuel) (laws := NestedLoopJoin_laws KL KR fuel) _ _ _ _ (n1 + n2));
      [|done|done|rewrite Hp; lia].
    split; [done|]. exists L, R, n1, n2. split_and!; [done|done|done| |lia].
    rewrite <-Hus. apply join_ext. intros. by apply meets_keys_equal.
Qed.

(** A sort-merge join over children whose keys can be evaluated, with the same directions on
    both sides, runs to its end and returns the pairs of tuples with equal keys, each once. *)
Theorem merge_join_pairs s l r L R n1 n2 les res schema :
  built KL l L n1 → built KR r R n2 → sc_view s [] → sc_fits (S (n1 + n2)) → les ≠ [] → les.*2 = res.*2 →
  Forall (λ t, is_Some (values les.*1 t)) L → Forall (λ t, is_Some (values res.*1 t)) R →
  ∃ o ts k0, SortMerge.new schema les res l r = Ok o ∧ ts ≡ₚ equi_pairs les.*1 res.*1 L R ∧ ∀ fuel, (k0 ≤ fuel)%nat →
    run_all (SortMergeJoin_ops lops rops fuel) fuel s o = Ret (Ok ts).
Proof.
  intros Hl Hr Hv Hfit Hne Hdir HL HR.
  assert (∀ es M, Forall (λ t, is_Some (values es t)) M → is_Some (with_keys es M)) as Hkeys.
  { intros es M. induction 1 as [|t M [k Hk] _ [kl IH]]; [by eexists|]. cbn [with_keys]. rewrite Hk, IH. by eexists. }
  destruct (Hkeys _ _ HL) as [kl Hkl]. destruct (Hkeys _ _ HR) as [kr Hkr].
  set (ts := rows les.*2 (sort_by (SortMerge.key_le les) kl) (sort_by (SortMerge.key_le res) kr)).
  assert (length les = length res) as Hlen by (apply (f_equal length) in Hdir; by rewrite !length_fmap in Hdir).
  eexists _, ts, (S (length L + length R + length ts)). unfold SortMerge.new. rewrite (proj2 (Z.eqb_eq (zlen les) _)) by (unfold zlen; lia).
  cbn [negb]. rewrite (proj2 (Z.eqb_neq (zlen les) 0)) by (destruct les; [done|]; len). split; [done|]. split.
  - apply with_keys_ok in Hkl as [<- Hkl]. apply with_keys_ok in Hkr as [<- Hkr]. rewrite <-rows_equi by done.
    apply rows_permutes; apply sort_by_Permutation.
  - intros fuel Hf.
    apply (run_all_ok (SortMergeJoin_contract KL KR fuel) (laws := SortMergeJoin_laws KL KR fuel) _ _ _ _ (n1 + n2)); [|done|done|lia].
    cbn. split_and!; try done. exists L, R, (sort_by (SortMerge.key_le les) kl), (sort_by (SortMerge.key_le res) kr), n1, n2.
    unfold sorted_side. rewrite Hkl, Hkr. split_and!; try done; lia.
Qed.
End Joins.
End Run.
