(* ===== verification/PhysicalPlan.v ===== *)
(** * Physical plans

    Models [PhysicalRelExpr] of [common/src/query/physical_expr/physical_rel_expr.rs] with
    its implementation of the [Plan] trait: renaming of columns, the columns a plan needs
    from outside ([free]) and the columns it has ([att]). Plans and expressions contain
    each other (subqueries). A [HashMap] is iterated in the order of [map_to_list]; the
    order is unspecified in the source.

    The second part is a table of the catalog as the planner sees it. *)

From S2P Require Import Prelude Common Field Tuple ByteCode Expr OpAggregate.
From stdpp Require Import strings gmap.

Open Scope Z_scope.

Inductive JoinType := Inner | LeftOuter | RightOuter | FullOuter | CrossType.

#[global] Instance JoinType_eq_dec : EqDecision JoinType.
Proof. solve_decision. Defined.

(** [TupleAssignments]. *)
Abbreviation TupleAssignments := (list (Z * Field)).

Inductive PhysicalRelExpr : Type :=
  | PScan (cid : Z) (table_name : list byte) (column_names : list Z) (tree_hash : option Z)
  | PIndexScan (cid : Z) (table_name : list byte) (column_names : list Z) (index_id : Z)
      (key_values : list (Expression PhysicalRelExpr)) (tree_hash : option Z)
  | PDelete (table_id : Z) (src : PhysicalRelExpr)
  | PUpdate (table_id : Z) (src : PhysicalRelExpr) (assignments : TupleAssignments)
  | PSelect (src : PhysicalRelExpr) (predicates : list (Expression PhysicalRelExpr)) (tree_hash : option Z)
  | PCrossJoin (join_type : JoinType) (left right : PhysicalRelExpr)
      (predicates : list (Expression PhysicalRelExpr)) (tree_hash : option Z)
  | PNestedLoopJoin (join_type : JoinType) (left right : PhysicalRelExpr)
      (predicates : list (Expression PhysicalRelExpr)) (tree_hash : option Z)
  | PHashJoin (join_type : JoinType) (left right : PhysicalRelExpr)
      (predicates : list (Expression PhysicalRelExpr)) (tree_hash : option Z)
  | PSortMergeJoin (join_type : JoinType) (left right : PhysicalRelExpr)
      (predicates : list (Expression PhysicalRelExpr)) (tree_hash : option Z)
  | PProject (src : PhysicalRelExpr) (cols : list Z) (tree_hash : option Z)
  | PSort (src : PhysicalRelExpr) (cols : list (Z * bool * bool)) (tree_hash : option Z)
  | PHashAggregate (src : PhysicalRelExpr) (group_by : list Z) (aggrs : list (Z * (Z * AggOp)))
      (tree_hash : option Z)
  | PMap (input : PhysicalRelExpr) (exprs : list (Z * Expression PhysicalRelExpr)) (tree_hash : option Z)
  | PFlatMap (input func : PhysicalRelExpr) (tree_hash : option Z)
  | PRename (src : PhysicalRelExpr) (src_to_dest : gmap Z Z) (tree_hash : option Z).

Module Phys.

(** [m.into_iter().map(..).collect()] on a [HashMap]: both columns renamed. *)
Definition rename_map (m : gmap Z Z) (src_to_dest : gmap Z Z) : gmap Z Z :=
  foldl (λ acc '(src, dest), <[renamed src_to_dest src := renamed src_to_dest dest]> acc) ∅ (map_to_list m).

(** The columns after a renaming: each source removed, its destination added. *)
Definition rename_set (set : gset Z) (m : gmap Z Z) : gset Z :=
  foldl (λ set '(src, dest), (set ∖ {[src]}) ∪ {[dest]}) set (map_to_list m).

Fixpoint att (p : PhysicalRelExpr) : gset Z :=
  match p with
  | PScan _ _ column_names _ => list_to_set column_names
  | PIndexScan _ _ column_names _ _ _ => list_to_set column_names
  | PDelete _ src => att src
  | PUpdate _ src _ => att src
  | PSelect src _ _ => att src
  | PCrossJoin _ l r _ _ | PNestedLoopJoin _ l r _ _
  | PHashJoin _ l r _ _ | PSortMergeJoin _ l r _ _ => att l ∪ att r
  | PProject _ cols _ => list_to_set cols
  | PSort src _ _ => att src
  | PHashAggregate _ group_by aggrs _ => list_to_set group_by ∪ list_to_set aggrs.*1
  | PMap input exprs _ => att input ∪ list_to_set exprs.*1
  | PFlatMap input func _ => att input ∪ att func
  | PRename src src_to_dest _ => rename_set (att src) src_to_dest
  end.

Fixpoint free (p : PhysicalRelExpr) : gset Z :=
  let plan := {| plan_replace_variables := λ p _, p; plan_att := att; plan_free := free |} in
  let frees := λ set es, foldl (λ set e, set ∪ Expr.free (H := plan) e) set es in
  match p with
  | PScan _ _ _ _ => ∅
  | PIndexScan _ _ _ _ key_values _ => frees ∅ key_values
  | PDelete _ src => free src
  | PUpdate _ src _ => free src
  | PSelect src predicates _ => frees (free src) predicates ∖ att src
  | PCrossJoin _ l r predicates _ | PNestedLoopJoin _ l r predicates _
  | PHashJoin _ l r predicates _ | PSortMergeJoin _ l r predicates _ =>
      frees (free l ∪ free r) predicates ∖ (att l ∪ att r)
  | PProject src cols _ => (free src ∪ list_to_set cols) ∖ att src
  | PSort src cols _ => (free src ∪ list_to_set cols.*1.*1) ∖ att src
  | PHashAggregate src group_by aggrs _ =>
      (free src ∪ list_to_set group_by ∪ list_to_set aggrs.*2.*1) ∖ att src
  | PMap input exprs _ => foldl (λ set e, set ∪ Expr.free (H := plan) e.2) (free input) exprs ∖ att input
  | PFlatMap input func _ => (free input ∪ free func) ∖ att input
  | PRename src _ _ => free src
  end.

Fixpoint replace_variables (p : PhysicalRelExpr) (m : gmap Z Z) : PhysicalRelExpr :=
  let plan := {| plan_replace_variables := replace_variables; plan_att := att; plan_free := free |} in
  let rexpr := λ e, Expr.replace_variables (H := plan) e m in
  match p with
  | PScan cid name cols h => PScan cid name (renamed m <$> cols) h
  | PIndexScan cid name cols index_id key_values h =>
      PIndexScan cid name (renamed m <$> cols) index_id key_values h
  | PDelete table_id src => PDelete table_id (replace_variables src m)
  | PUpdate table_id src assignments => PUpdate table_id (replace_variables src m) assignments
  | PSelect src predicates h => PSelect (replace_variables src m) (map rexpr predicates) h
  | PCrossJoin jt l r predicates h =>
      PCrossJoin jt (replace_variables l m) (replace_variables r m) (map rexpr predicates) h
  | PNestedLoopJoin jt l r predicates h =>
      PNestedLoopJoin jt (replace_variables l m) (replace_variables r m) (map rexpr predicates) h
  | PHashJoin jt l r predicates h =>
      PHashJoin jt (replace_variables l m) (replace_variables r m) (map rexpr predicates) h
  | PSortMergeJoin jt l r predicates h =>
      PSortMergeJoin jt (replace_variables l m) (replace_variables r m) (map rexpr predicates) h
  | PProject src cols h => PProject (replace_variables src m) (renamed m <$> cols) h
  | PSort src cols h =>
      PSort (replace_variables src m) ((λ '(id, asc, nulls_first), (renamed m id, asc, nulls_first)) <$> cols) h
  | PHashAggregate src group_by aggrs h =>
      PHashAggregate (replace_variables src m) (renamed m <$> group_by)
        ((λ '(id, (src_id, op)), (renamed m id, (renamed m src_id, op))) <$> aggrs) h
  | PMap input exprs h =>
      PMap (replace_variables input m) (map (λ '(id, e), (renamed m id, rexpr e)) exprs) h
  | PFlatMap input func h => PFlatMap (replace_variables input m) (replace_variables func m) h
  | PRename src column_mappings h => PRename (replace_variables src m) (rename_map column_mappings m) h
  end.

(** The tables a plan reads. *)
Fixpoint get_tables_involved (p : PhysicalRelExpr) : list Z :=
  match p with
  | PScan cid _ _ _ | PIndexScan cid _ _ _ _ _ => [cid]
  | PSelect src _ _ | PProject src _ _ | PSort src _ _ | PHashAggregate src _ _ _ | PMap src _ _
  | PDelete _ src | PUpdate _ src _ | PRename src _ _ => get_tables_involved src
  | PCrossJoin _ l r _ _ | PNestedLoopJoin _ l r _ _ | PHashJoin _ l r _ _ | PSortMergeJoin _ l r _ _ =>
      get_tables_involved l ++ get_tables_involved r
  | PFlatMap input func _ => get_tables_involved input ++ get_tables_involved func
  end.

End Phys.

#[global] Instance Phys_plan : Plan PhysicalRelExpr := {|
  plan_replace_variables := Phys.replace_variables;
  plan_att := Phys.att;
  plan_free := Phys.free
|}.
