(* ===== verification/DbCatalog.v ===== *)
(** * The catalog of a database

    Models [common/src/catalog.rs], the table and index descriptions of
    [common/src/table.rs] and the column id generator of
    [common/src/physical/col_id_generator.rs]. Locks are taken for the length of one
    operation, so that every operation is one step.

    The theorems: container ids are never given twice, and a name keeps its id; the
    temporary column ids of different tables do not overlap, and read back. *)

From S2P Require Import Prelude Common Field.
From stdpp Require Import strings gmap.

Open Scope Z_scope.

#[global] Instance byte_countable : Countable byte.
Proof.
  refine (inj_countable' (λ b, Byte.to_N b) (λ n, default Byte.x00 (Byte.of_N n)) _).
  intros b. by rewrite Byte.of_to_N.
Defined.

Record TableInfo := mkTableInfo { ti_c_id : Z; ti_name : list byte; ti_table_schema : TableSchema }.

Record IndexInfo := mkIndexInfo {
  ii_index_id : Z;
  ii_name : list byte;
  ii_table_id : Z;
  ii_columns : list Z;
  ii_unique : bool
}.

Definition MAX_COLUMNS : Z := 100.

(** ** Column ids *)

Definition get_temp_col_id (table_index column_index : Z) : outcome Z :=
  checked 64 (table_index * MAX_COLUMNS + column_index).
Definition get_table_index_from_temp_col_id (col_id : Z) : Z := cast 16 (col_id / MAX_COLUMNS).
Definition get_column_index_from_temp_col_id (col_id : Z) : Z := col_id mod MAX_COLUMNS.

Definition STARTING_COL_ID : Z := 10000.

Module ColIdGenerator.
Definition new : Z := STARTING_COL_ID.
(** [fetch_add] on an atomic wraps around. *)
Definition next (current_id : Z) : Z * Z := (cast 64 (current_id + 1), current_id).
End ColIdGenerator.

(** ** Container ids *)

Record ContainerIdGenerator := mkContainerIdGenerator {
  next_id : Z;                          (* u16 *)
  table_to_id : gmap (list byte) Z
}.

Module ContainerIds.

Definition new : ContainerIdGenerator := mkContainerIdGenerator 0 ∅.

Definition get_table_id (g : ContainerIdGenerator) (name : list byte) : outcome (ContainerIdGenerator * Z) :=
  match table_to_id g !! name with
  | Some c_id => Ret (g, c_id)
  | None =>
      let c_id := next_id g in
      n ← checked 16 (next_id g + 1);
      Ret (mkContainerIdGenerator n (<[name := c_id]> (table_to_id g)), c_id)
  end.

Definition get_table_id_if_exists (g : ContainerIdGenerator) (name : list byte) : option Z :=
  table_to_id g !! name.

End ContainerIds.

(** ** The catalog *)

Record Catalog := mkDbCatalog {
  container_id_generator : ContainerIdGenerator;
  cat_tables : gmap Z TableInfo;
  cat_indexes : gmap (list byte) IndexInfo
}.

Module Cat.

Definition new : Catalog := mkDbCatalog ContainerIds.new ∅ ∅.

Definition get_table_id (c : Catalog) (name : list byte) : outcome (Catalog * Z) :=
  '(g, id) ← ContainerIds.get_table_id (container_id_generator c) name;
  Ret (mkDbCatalog g (cat_tables c) (cat_indexes c), id).

Definition add_table (c : Catalog) (info : TableInfo) : Catalog * option unit :=
  match cat_tables c !! ti_c_id info with
  | Some _ => (c, None)
  | None =>
      (mkDbCatalog (container_id_generator c) (<[ti_c_id info := info]> (cat_tables c)) (cat_indexes c), Some tt)
  end.

Definition get_table (c : Catalog) (c_id : Z) : option TableInfo := cat_tables c !! c_id.

(** In the order of the hash map, which is unspecified. *)
Definition get_table_names (c : Catalog) : list (list byte) := ti_name <$> (map_to_list (cat_tables c)).*2.

Definition get_table_schema (c : Catalog) (c_id : Z) : option TableSchema :=
  ti_table_schema <$> cat_tables c !! c_id.

Definition is_valid_table (c : Catalog) (c_id : Z) : bool := bool_decide (is_Some (cat_tables c !! c_id)).

Definition get_table_id_if_exists (c : Catalog) (name : list byte) : option Z :=
  ContainerIds.get_table_id_if_exists (container_id_generator c) name.

Definition is_valid_table_from_string (c : Catalog) (name : list byte) : bool :=
  bool_decide (is_Some (get_table_id_if_exists c name)).

Definition is_valid_column (c : Catalog) (c_id : Z) (column_name : list byte) : bool :=
  match cat_tables c !! c_id with
  | Some info => Schema.contains (ti_table_schema info) column_name
  | None => false
  end.

(** The columns from position [i] on, with their temporary ids. *)
Fixpoint cols_from (c_id i : Z) (l : list Attribute) : outcome (list (list byte * Z)) :=
  match l with
  | [] => Ret []
  | a :: l => id ← get_temp_col_id c_id i; rest ← cols_from c_id (i + 1) l; Ret ((att_name a, id) :: rest)
  end.

Definition get_cols (c : Catalog) (table_name : list byte) : outcome (list (list byte * Z)) :=
  c_id ← unwrap (get_table_id_if_exists c table_name);
  schema ← unwrap (get_table_schema c c_id);
  cols_from c_id 0 (attributes schema).

Definition add_index (c : Catalog) (info : IndexInfo) : Catalog * option unit :=
  match cat_indexes c !! ii_name info with
  | Some _ => (c, None)
  | None =>
      (mkDbCatalog (container_id_generator c) (cat_tables c) (<[ii_name info := info]> (cat_indexes c)), Some tt)
  end.

Definition is_valid_index_name (c : Catalog) (name : list byte) : bool :=
  bool_decide (is_Some (cat_indexes c !! name)).

Definition get_indexes_for_table (c : Catalog) (table_id : Z) : list IndexInfo :=
  filter (λ info, ii_table_id info = table_id) (map_to_list (cat_indexes c)).*2.

End Cat.

(** ** Ids are given once *)

Record ids_ok (g : ContainerIdGenerator) : Prop := {
  ids_below name id : table_to_id g !! name = Some id → 0 ≤ id < next_id g;
  ids_inj n1 n2 id : table_to_id g !! n1 = Some id → table_to_id g !! n2 = Some id → n1 = n2;
  ids_next : 0 ≤ next_id g
}.

Lemma ids_ok_new : ids_ok ContainerIds.new.
Proof. split; [intros ? ?|intros ? ? ?|done]; simpl; rewrite lookup_empty; discriminate. Qed.

Lemma get_table_id_ok g name g' id :
  ids_ok g → ContainerIds.get_table_id g name = Ret (g', id) →
  ids_ok g' ∧ table_to_id g' !! name = Some id ∧ table_to_id g ⊆ table_to_id g'.
Proof.
  intros Hok E. unfold ContainerIds.get_table_id in E.
  destruct (table_to_id g !! name) as [id0|] eqn:Hn; [by injection E as <- <-|].
  destruct (checked 16 (next_id g + 1)) as [n|] eqn:En; [|discriminate].
  apply checked_inv in En as [-> En]. injection E as <- <-. simpl.
  split_and!; [|apply lookup_insert_eq|by apply insert_subseteq].
  split; simpl; [..|lia].
  - intros n i. rewrite lookup_insert_Some. intros [[_ <-]|[_ Hi]].
    + pose proof (ids_next g Hok). lia.
    + pose proof (ids_below g Hok n i Hi). lia.
  - intros n1 n2 i. rewrite !lookup_insert_Some.
    intros [[<- <-]|[_ H1]] [[<- E2]|[_ H2]]; [done|..].
    + pose proof (ids_below g Hok n2 _ H2). lia.
    + subst. pose proof (ids_below g Hok n1 _ H1). lia.
    + by apply (ids_inj g Hok _ _ i).
Qed.

(** A history of requests, with the ids they were answered. *)
Fixpoint requests (c : Catalog) (names : list (list byte)) : outcome (Catalog * list Z) :=
  match names with
  | [] => Ret (c, [])
  | n :: names => '(c, id) ← Cat.get_table_id c n; '(c, ids) ← requests c names; Ret (c, id :: ids)
  end.

Lemma requests_ok c names c' ids :
  ids_ok (container_id_generator c) → requests c names = Ret (c', ids) →
  ids_ok (container_id_generator c') ∧
  table_to_id (container_id_generator c) ⊆ table_to_id (container_id_generator c') ∧
  Forall2 (λ n id, table_to_id (container_id_generator c') !! n = Some id) names ids.
Proof.
  revert c ids. induction names as [|n names IH]; intros c ids Hok E; simpl in E.
  { injection E as <- <-. by split_and!. }
  unfold Cat.get_table_id in E.
  destruct (ContainerIds.get_table_id _ n) as [[g id]|] eqn:E1; [|discriminate]. simpl in E.
  destruct (requests _ names) as [[c2 ids2]|] eqn:E2; [|discriminate]. injection E as <- <-.
  destruct (get_table_id_ok _ _ _ _ Hok E1) as (Hg & Hn & Hsub).
  destruct (IH _ _ (Hg : ids_ok (container_id_generator (mkDbCatalog g _ _))) E2) as (Hok2 & Hsub2 & Hall). simpl in *.
  split_and!; [done|by trans (table_to_id g)|]. constructor; [|done].
  by apply (lookup_weaken _ _ _ _ Hn).
Qed.

(** Container ids are given once: in any history of requests for the ids of table and
    index names in a fresh catalog, two requests are answered with the same id exactly
    when they were made for the same name. *)
Theorem container_ids_unique names c ids i j n1 n2 id1 id2 :
  requests Cat.new names = Ret (c, ids) →
  names !! i = Some n1 → ids !! i = Some id1 → names !! j = Some n2 → ids !! j = Some id2 →
  id1 = id2 ↔ n1 = n2.
Proof.
  intros E Hn1 Hi1 Hn2 Hi2.
  destruct (requests_ok Cat.new _ _ _ ids_ok_new E) as (Hok & _ & Hall).
  pose proof (Forall2_lookup_lr _ _ _ _ _ _ Hall Hn1 Hi1) as H1.
  pose proof (Forall2_lookup_lr _ _ _ _ _ _ Hall Hn2 Hi2) as H2. simpl in *.
  split; [intros ->; by apply (ids_inj _ Hok _ _ id2)|intros ->; congruence].
Qed.

Lemma container_ids_unique_witness :
  ∃ c ids, requests Cat.new [str "a"; str "b"; str "a"] = Ret (c, ids) ∧
    (ids !! 0%nat = Some 0 ∧ ids !! 2%nat = Some 0) ∧ (0 = 0 ↔ str "a" = str "a").
Proof.
  eexists _, _. split; [vm_compute; reflexivity|]. split; [done|].
  eapply (container_ids_unique [str "a"; str "b"; str "a"] _ [0; 1; 0] 0 2); vm_compute; reflexivity.
Defined.

(** ** Temporary column ids *)

Lemma temp_col_id_eq t i : 0 ≤ t < 2 ^ 16 → 0 ≤ i < MAX_COLUMNS → get_temp_col_id t i = Ret (t * 100 + i).
Proof.
  unfold MAX_COLUMNS. intros Ht Hi. unfold get_temp_col_id, MAX_COLUMNS. apply checked_ok. lia.
Qed.

(** The temporary id of a column names its table and its position. *)
Lemma temp_col_id_back t i id :
  0 ≤ t < 2 ^ 16 → 0 ≤ i < MAX_COLUMNS → get_temp_col_id t i = Ret id →
  get_table_index_from_temp_col_id id = t ∧ get_column_index_from_temp_col_id id = i.
Proof.
  intros Ht Hi. rewrite temp_col_id_eq by done. intros [= <-]. unfold MAX_COLUMNS in Hi.
  unfold get_table_index_from_temp_col_id, get_column_index_from_temp_col_id, MAX_COLUMNS, cast. split.
  - rewrite Z.div_add_l, (Z.div_small i) by lia. rewrite Z.mod_small; lia.
  - rewrite Z.add_comm, Z.mod_add, Z.mod_small; lia.
Qed.
