(* ===== verification/Registrar.v ===== *)
(** * Registered queries

    Models [common/src/query/query_registrar.rs]: queries are registered with their SQL,
    plan, result file and transaction. The files are a map from paths to contents, and
    transaction ids come from a counter of the whole process. Every map of the registrar has
    a lock of its own; a model step takes all of them. *)

From stdpp Require Import strings gmap.
From S2P Require Import Prelude Common Field Tuple ByteCode Expr OpAggregate PhysicalPlan.
From S2P Require Import DbCatalog.

Open Scope Z_scope.

Record QueryStateRegistrar := mkRegistrar {
  query_plans : gmap (list byte) PhysicalRelExpr;
  query_filenames : gmap (list byte) (list byte);
  query_watermarks : gmap (list byte) Z;
  in_progress_queries : gmap (list byte) Z;
  sql_to_query_name : gmap (list byte) (list byte);
  query_result_filenames : gmap (list byte) (list byte);
  query_tids : gmap (list byte) Z
}.

Abbreviation file_system := (gmap (list byte) (list byte)).

Definition next_txn (txn_counter : Z) : Z * Z := (cast 64 (txn_counter + 1), txn_counter).

Module Registrar.

Definition new : QueryStateRegistrar := mkRegistrar ∅ ∅ ∅ ∅ ∅ ∅ ∅.

(** A file that cannot be removed is reported and left. *)
Definition reset (r : QueryStateRegistrar) (files : file_system) :
  QueryStateRegistrar * file_system * result CrustyError unit :=
  if bool_decide (in_progress_queries r = ∅) then
    (mkRegistrar ∅ ∅ ∅ ∅ (sql_to_query_name r) (query_result_filenames r) (query_tids r),
     foldr delete files (map_to_list (query_filenames r)).*2, Ok tt)
  else (r, files, Err (CrustyErr "Queries are in progress cannot drop/reset")).

Definition register_query (r : QueryStateRegistrar) (name json_path : list byte) (plan : PhysicalRelExpr) :
  QueryStateRegistrar :=
  mkRegistrar (<[name := plan]> (query_plans r)) (<[name := json_path]> (query_filenames r))
    (<[name := 0]> (query_watermarks r)) (in_progress_queries r) (sql_to_query_name r) (query_result_filenames r)
    (query_tids r).

Definition register_query_with_result (r : QueryStateRegistrar) (name sql json_path : list byte) (plan : PhysicalRelExpr)
    (result_path : list byte) (tid : Z) : QueryStateRegistrar :=
  mkRegistrar (<[name := plan]> (query_plans r)) (<[name := json_path]> (query_filenames r))
    (<[name := 0]> (query_watermarks r)) (in_progress_queries r) (<[sql := name]> (sql_to_query_name r))
    (<[name := result_path]> (query_result_filenames r)) (<[name := tid]> (query_tids r)).

(** The transaction manager commits the transaction of the last run without an effect. *)
Definition begin_query (r : QueryStateRegistrar) (txn_counter : Z) (name : list byte) (start_timestamp : option Z)
    (end_timestamp : Z) : outcome (QueryStateRegistrar * Z * result CrustyError PhysicalRelExpr) :=
  _ ← guard_or_panic (default 0 start_timestamp <=? end_timestamp);
  if bool_decide (is_Some (in_progress_queries r !! name)) then
    Ret (r, txn_counter, Err (CrustyErr "Query {} already in progress."))
  else
    let '(txn_counter, new_tid) := next_txn txn_counter in
    let tids := <[name := new_tid]> (delete name (query_tids r)) in
    match query_plans r !! name with
    | Some plan =>
        Ret (mkRegistrar (query_plans r) (query_filenames r) (query_watermarks r)
               (<[name := end_timestamp]> (in_progress_queries r)) (sql_to_query_name r) (query_result_filenames r) tids,
             txn_counter, Ok plan)
    | None =>
        Ret (mkRegistrar (query_plans r) (query_filenames r) (query_watermarks r) (in_progress_queries r)
               (sql_to_query_name r) (query_result_filenames r) tids,
             txn_counter, Err (CrustyErr "Query {} has not been registered."))
    end.

Definition finish_query (r : QueryStateRegistrar) (name : list byte) : QueryStateRegistrar * result CrustyError unit :=
  match in_progress_queries r !! name with
  | None => (r, Err (CrustyErr "Query {} is not in progress."))
  | Some new_watermark =>
      (mkRegistrar (query_plans r) (query_filenames r) (<[name := new_watermark]> (query_watermarks r))
         (delete name (in_progress_queries r)) (sql_to_query_name r) (query_result_filenames r) (query_tids r), Ok tt)
  end.

(** The result file is removed before its entry is; a file that cannot be removed ends it. *)
Definition purge_query_with_name (r : QueryStateRegistrar) (files : file_system) (name : list byte) :
  outcome (QueryStateRegistrar * file_system * result CrustyError unit) :=
  let plans := delete name (query_plans r) in
  let filenames := delete name (query_filenames r) in
  let watermarks := delete name (query_watermarks r) in
  filename ← unwrap (query_result_filenames r !! name);
  match files !! filename with
  | None =>
      Ret (mkRegistrar plans filenames watermarks (in_progress_queries r) (sql_to_query_name r)
             (query_result_filenames r) (query_tids r), files, Err (IOError "remove_file"))
  | Some _ =>
      Ret (mkRegistrar plans filenames watermarks (in_progress_queries r)
             (filter (λ x : list byte * list byte, x.2 ≠ name) (sql_to_query_name r))
             (delete name (query_result_filenames r)) (delete name (query_tids r)), delete filename files, Ok tt)
  end.

Definition get_query_name_from_sql (r : QueryStateRegistrar) (sql : list byte) : option (list byte) := sql_to_query_name r !! sql.
Definition get_query_result_path_from_name (r : QueryStateRegistrar) (name : list byte) : option (list byte) :=
  query_result_filenames r !! name.
Definition get_touched_tables_from_name (r : QueryStateRegistrar) (name : list byte) : option (list Z) :=
  Phys.get_tables_involved <$> query_plans r !! name.
Definition get_query_tid_from_name (r : QueryStateRegistrar) (name : list byte) : option Z := query_tids r !! name.
End Registrar.
