(* ===== verification/Statistics.v ===== *)
(** * Statistics

    Models [queryexe/src/stats]: the statistics manager keeps, for every table, the number of
    records that were inserted and a sample of at most [SAMPLE_SIZE] of them, and estimates
    from the sample how many rows satisfy a predicate. Tables also have the timestamps of
    their last change.

    The numbers of the estimates are IEEE binary64 numbers, those of the Standard Library.
    The random numbers that choose the samples to replace are the parameter [random_range].
    The saved form of the manager is a value of this file, which a library writes as JSON. *)

From Stdlib Require Import SpecFloat.
From stdpp Require Import strings gmap.
From S2P Require Import Prelude Common Ordering Field FieldCodec FieldContract Tuple ByteCode.
From S2P Require Import Expr ExprCorrect.
From S2P Require Import OpAggregate PhysicalPlan DbCatalog.

Open Scope Z_scope.

(** ** [f64] *)

Abbreviation f64 := spec_float.

Module F64.
Definition of_usize (z : Z) : f64 := binary_normalize 53 1024 z 0 false.
Definition add : f64 → f64 → f64 := SFadd 53 1024.
Definition mul : f64 → f64 → f64 := SFmul 53 1024.
Definition div : f64 → f64 → f64 := SFdiv 53 1024.
Definition lt : f64 → f64 → bool := SFltb.

Definition is_nan (x : f64) : bool := match x with S754_nan => true | _ => false end.
(** [f64::max], which ignores a NaN. *)
Definition max (x y : f64) : f64 := if is_nan x then y else if is_nan y then x else if lt x y then y else x.

(** [as usize]: truncated, and within the bounds of the type. *)
Definition to_usize (x : f64) : Z :=
  match x with
  | S754_infinity false => 2 ^ 64 - 1
  | S754_finite false m e => Z.min (2 ^ 64 - 1) (Z.shiftl (Zpos m) e)
  | _ => 0
  end.
End F64.

(** ** Attributes *)

Record PerAttrStats := mkAttrStats {
  as_idx : Z;
  min_val : option Field;
  max_val : option Field;
  distinct_count : option Z;
  null_count : option Z;
  total_count : option Z
}.

Module AttrStats.
Definition new (idx : Z) : PerAttrStats := mkAttrStats idx None None None None None.

(** [Ord::min] and [Ord::max]. *)
Definition min (a b : Field) : Field := match field_cmp a b with Gt => b | _ => a end.
Definition max (a b : Field) : Field := match field_cmp a b with Gt => a | _ => b end.

(** The loop over the samples. *)
Fixpoint scan (fields : list Field) (min_val max_val : option Field) (nulls : Z) : option Field * option Field * Z :=
  match fields with
  | [] => (min_val, max_val, nulls)
  | Null :: fields => scan fields min_val max_val (nulls + 1)
  | field :: fields =>
      match min_val, max_val with
      | Some lo, Some hi => scan fields (Some (min lo field)) (Some (max hi field)) nulls
      | _, _ => scan fields (Some field) (Some field) nulls
      end
  end.

Definition update_stats (a : PerAttrStats) (samples : list Tuple) : outcome PerAttrStats :=
  fields ← unwrap (mapM (λ t, Tup.get_field t (as_idx a)) samples);
  let '(lo, hi, nulls) := scan fields None None 0 in
  Ret (mkAttrStats (as_idx a) lo hi (Some (zlen (remove_dups fields))) (Some nulls) (Some (zlen samples))).
End AttrStats.

(** ** Samples of a table *)

Record ContainerSamples := mkSamples {
  samples : list Tuple;
  record_count : Z;
  cs_schema : TableSchema;
  id_to_sample : gmap ValueId Z;
  per_attr_stats : list PerAttrStats
}.

Definition SAMPLE_SIZE : Z := 1000.

Module Samples.
Definition new (schema : TableSchema) : ContainerSamples :=
  mkSamples [] 0 schema ∅ (AttrStats.new ∘ Z.of_nat <$> seq 0 (length (attributes schema))).

Definition add_sample (c : ContainerSamples) (t : Tuple) (id : ValueId) (idx : option Z) : outcome ContainerSamples :=
  match idx with
  | Some i =>
      _ ← guard_or_panic ((0 <=? i) && (i <? zlen (samples c)));
      Ret (mkSamples (<[Z.to_nat i := t]> (samples c)) (record_count c) (cs_schema c) (<[id := i]> (id_to_sample c)) (per_attr_stats c))
  | None =>
      Ret (mkSamples (samples c ++ [t]) (record_count c) (cs_schema c) (<[id := zlen (samples c)]> (id_to_sample c)) (per_attr_stats c))
  end.

Definition increment_record_count (c : ContainerSamples) : outcome ContainerSamples :=
  n ← checked 64 (record_count c + 1);
  Ret (mkSamples (samples c) n (cs_schema c) (id_to_sample c) (per_attr_stats c)).

Definition update_attr_stats (c : ContainerSamples) (idx : option Z) : outcome ContainerSamples :=
  stats ← match idx with
          | Some i =>
              a ← unwrap (nth_u (per_attr_stats c) i);
              a ← AttrStats.update_stats a (samples c);
              Ret (<[Z.to_nat i := a]> (per_attr_stats c))
          | None => (fix go l := match l with
                                 | [] => Ret []
                                 | a :: l => a ← AttrStats.update_stats a (samples c); l ← go l; Ret (a :: l)
                                 end) (per_attr_stats c)
          end;
  Ret (mkSamples (samples c) (record_count c) (cs_schema c) (id_to_sample c) stats).

Definition get_distinct_count (c : ContainerSamples) (idx : Z) : outcome (option Z) :=
  a ← unwrap (nth_u (per_attr_stats c) idx); Ret (distinct_count a).
Definition get_distinct_prob (c : ContainerSamples) (idx : Z) : outcome (option f64) :=
  d ← get_distinct_count c idx;
  Ret (match d with Some d => Some (F64.div (F64.of_usize d) (F64.of_usize (record_count c))) | None => None end).

(** Value ids are saved as hexadecimal text, two digits a byte. *)
Definition hex_digit (n : Z) : byte := if n <? 10 then byte.of_Z (48 + n) else byte.of_Z (87 + n).
Definition hex_key (v : ValueId) : list byte :=
  b ← ValueIds.to_bytes v; [hex_digit (byte.unsigned b / 16); hex_digit (byte.unsigned b mod 16)].

(** [u8::from_str_radix] on two digits, the first of which may be a sign. *)
Definition from_hex (b : byte) : option Z :=
  let z := byte.unsigned b in
  if (48 <=? z) && (z <=? 57) then Some (z - 48)
  else if (97 <=? z) && (z <=? 102) then Some (z - 87)
  else if (65 <=? z) && (z <=? 70) then Some (z - 55) else None.
Fixpoint hex_to_bytes (hex : list byte) : outcome (list byte) :=
  match hex with
  | [] => Ret []
  | [_] => Panic
  | h :: l :: hex =>
      h ← unwrap (if bool_decide (h = Byte.x2b) then Some 0 else from_hex h); l ← unwrap (from_hex l);
      bs ← hex_to_bytes hex;
      Ret (byte.of_Z (16 * h + l) :: bs)
  end.
End Samples.

Record SerializedSamples := mkSavedSamples {
  sv_samples : list Tuple;
  sv_record_count : Z;
  sv_schema : TableSchema;
  sv_id_to_sample : gmap (list byte) Z;
  sv_attr_stats : list PerAttrStats
}.

(** A map with its keys replaced. *)
Fixpoint try_keys {K L A} `{Countable L} (f : K → outcome L) (l : list (K * A)) : outcome (gmap L A) :=
  match l with
  | [] => Ret ∅
  | (k, a) :: l => k ← f k; m ← try_keys f l; Ret (<[k := a]> m)
  end.

Definition get_serializable_container_sample (c : ContainerSamples) : SerializedSamples :=
  mkSavedSamples (samples c) (record_count c) (cs_schema c) (kmap Samples.hex_key (id_to_sample c)) (per_attr_stats c).
Definition get_deserialized_container_sample (c : SerializedSamples) : outcome ContainerSamples :=
  ids ← try_keys (λ v, bs ← Samples.hex_to_bytes v; ValueIds.from_bytes bs) (map_to_list (sv_id_to_sample c));
  Ret (mkSamples (sv_samples c) (sv_record_count c) (sv_schema c) ids (sv_attr_stats c)).

(** ** The manager *)

Record StateInfo := mkStateInfo { si_c_id : Z; valid_low : Z; valid_high : Z; incremental : bool }.

(** [rng] counts the random numbers drawn. *)
Record ReservoirStatManager := mkStats {
  st_samples : gmap Z ContainerSamples;
  states : gmap Z StateInfo;
  rng : nat
}.

Record SavedStats := mkSavedStats {
  saved_samples : gmap (list byte) SerializedSamples;
  saved_states : gmap (list byte) StateInfo
}.

Module Reservoir.
Section Ops.
Context (random_range : nat → Z).
Implicit Type s : ReservoirStatManager.

Definition set_ts s (c_id ts : Z) : ReservoirStatManager :=
  mkStats (st_samples s) (alter (λ st, mkStateInfo (si_c_id st) ts ts (incremental st)) c_id (states s)) (rng s).
Definition get_ts s (c_id : Z) : Z * Z :=
  match states s !! c_id with Some state => (valid_low state, valid_high state) | None => (0, 0) end.

Definition new : ReservoirStatManager := mkStats ∅ ∅ 0.
Definition reset s : ReservoirStatManager := mkStats ∅ ∅ (rng s).

Definition register_table s (c_id : Z) (schema : TableSchema) : ReservoirStatManager :=
  match st_samples s !! c_id with
  | None =>
      mkStats (<[c_id := Samples.new schema]> (st_samples s)) (<[c_id := mkStateInfo c_id 0 0 true]> (states s)) (rng s)
  | Some _ => s
  end.

Definition new_record s (t : Tuple) (id : ValueId) : outcome (ReservoirStatManager * result CrustyError unit) :=
  match st_samples s !! container_id id with
  | None => Ret (s, Err (CrustyErr "Container not found/registered"))
  | Some c =>
      let '(idx, rng) := if zlen (samples c) =? SAMPLE_SIZE then (Some (random_range (rng s)), S (rng s)) else (None, rng s) in
      c ← Samples.add_sample c t id idx;
      c ← Samples.increment_record_count c;
      Ret (mkStats (<[container_id id := c]> (st_samples s)) (states s) rng, Ok tt)
  end.

Definition get_container_record_count s (c_id : Z) : outcome Z :=
  c ← unwrap (st_samples s !! c_id); Ret (record_count c).

(** [collect] of the compiled predicates: the first that cannot be compiled is the error. *)
Fixpoint compile (es : list (Expression PhysicalRelExpr)) : result CrustyError (list ByteCodeExpr) :=
  match es with
  | [] => Ok []
  | e :: es =>
      match Planner.convert_expr_to_bytecode e None with
      | Err err => Err err
      | Ok bc => match compile es with Ok bcs => Ok (bc :: bcs) | Err err => Err err end
      end
  end.

(** [all], which stops at the first predicate that is not true. *)
Fixpoint all_true (bcs : list ByteCodeExpr) (t : Tuple) : outcome bool :=
  match bcs with
  | [] => Ret true
  | bc :: bcs => v ← Bce.eval bc t; if bool_decide (v = FBool true) then all_true bcs t else Ret false
  end.

Fixpoint count_matching (f : Tuple → outcome bool) (ts : list Tuple) : outcome Z :=
  match ts with
  | [] => Ret 0
  | t :: ts => b ← f t; n ← count_matching f ts; Ret (if b : bool then n + 1 else n)
  end.

Definition estimate_count_and_sel s (c_id : Z) (predicate : list (Expression PhysicalRelExpr)) :
  outcome (result CrustyError (Z * f64)) :=
  match compile predicate with
  | Err e => Ret (Err e)
  | Ok predicate =>
      match st_samples s !! c_id with
      | None => Ret (Err (CrustyErr "Container not found"))
      | Some c =>
          match samples c with
          | [] => Ret (Ok (0, F64.of_usize 0))
          | _ =>
              matching_count ← count_matching (all_true predicate) (samples c);
              let selectivity := F64.div (F64.of_usize matching_count) (F64.of_usize (zlen (samples c))) in
              Ret (Ok (F64.to_usize (F64.mul selectivity (F64.of_usize (record_count c))), selectivity))
          end
      end
  end.

(** The pair of tuples satisfies every comparison, the first that fails ends it. *)
Fixpoint joins (ops : list BinaryOp) (ls rs : list ByteCodeExpr) (l r : Tuple) : outcome bool :=
  match ops, ls, rs with
  | op :: ops, le :: ls, re :: rs =>
      lf ← Bce.eval le l; rf ← Bce.eval re r;
      b ← compare_fields op lf rf;
      if b : bool then joins ops ls rs l r else Ret false
  | _, _, _ => Ret true
  end.

Definition estimate_join_count_and_sel s (left_c_id right_c_id : Z) (join_ops : list BinaryOp)
    (left_exprs right_exprs : list (Expression PhysicalRelExpr)) : outcome (result CrustyError (Z * f64)) :=
  _ ← guard_or_panic (zlen join_ops =? zlen left_exprs);
  _ ← guard_or_panic (zlen join_ops =? zlen right_exprs);
  match compile left_exprs with
  | Err e => Ret (Err e)
  | Ok left_exprs =>
      match compile right_exprs with
      | Err e => Ret (Err e)
      | Ok right_exprs =>
          match st_samples s !! left_c_id, st_samples s !! right_c_id with
          | None, _ => Ret (Err (CrustyErr "Container 1 not found"))
          | _, None => Ret (Err (CrustyErr "Container 2 not found"))
          | Some l, Some r =>
              if (zlen (samples l) =? 0) || (zlen (samples r) =? 0) then Ret (Ok (0, F64.of_usize 0))
              else
                matching_count ←
                  (fix go ls :=
                     match ls with
                     | [] => Ret 0
                     | lt :: ls => n ← count_matching (joins join_ops left_exprs right_exprs lt) (samples r); m ← go ls; Ret (n + m)
                     end) (samples l);
                let selectivity := F64.div (F64.of_usize matching_count) (F64.of_usize (zlen (samples l) * zlen (samples r))) in
                Ret (Ok (F64.to_usize (F64.mul (F64.mul selectivity (F64.of_usize (record_count l))) (F64.of_usize (record_count r))),
                         selectivity))
          end
      end
  end.

Definition estimate_distinct_prob s (c_id col_id : Z) : outcome (ReservoirStatManager * result CrustyError f64) :=
  match st_samples s !! c_id with
  | None => Ret (s, Err (CrustyErr "Container not found"))
  | Some c =>
      if zlen (samples c) =? 0 then Ret (s, Ok (F64.of_usize 0))
      else
        prob ← Samples.get_distinct_prob c col_id;
        match prob with
        | Some prob => Ret (s, Ok prob)
        | None =>
            c ← Samples.update_attr_stats c (Some col_id);
            prob ← Samples.get_distinct_prob c col_id;
            prob ← unwrap prob;
            Ret (mkStats (<[c_id := c]> (st_samples s)) (states s) (rng s), Ok prob)
        end
  end.

(** [shutdown] saves, and [new] loads what was saved, with all tables unchanged since. *)
Definition get_serializable_stat_manager s : SavedStats :=
  mkSavedStats (kmap show_int (get_serializable_container_sample <$> st_samples s)) (kmap show_int (states s)).

Definition parse_u16 (bs : list byte) : option Z :=
  match bs with Byte.x2d :: _ => None | _ => parse_int 0 (2 ^ 16 - 1) bs end.

Definition load (saved : SavedStats) : outcome ReservoirStatManager :=
  saved_samples ← try_keys (λ k, unwrap (parse_u16 k)) (map_to_list (saved_samples saved));
  samples ← (fix go l := match l with
                         | [] => Ret ∅
                         | (k, c) :: l => c ← get_deserialized_container_sample c; m ← go l; Ret (<[k := c]> m)
                         end) (map_to_list saved_samples);
  states ← try_keys (λ k, unwrap (parse_u16 k)) (map_to_list (saved_states saved));
  Ret (mkStats samples ((λ st, mkStateInfo (si_c_id st) 0 0 (incremental st)) <$> states) 0).
End Ops.
End Reservoir.

(** ** Samples *)

Section Samples.
Context (random_range : nat → Z) (random_ok : ∀ n, 0 ≤ random_range n < SAMPLE_SIZE).

(** The records of a table, one after the other. *)
Fixpoint record_all (s : ReservoirStatManager) (rs : list (Tuple * ValueId)) : outcome (ReservoirStatManager * result CrustyError unit) :=
  match rs with
  | [] => Ret (s, Ok tt)
  | (t, id) :: rs =>
      '(s, r) ← Reservoir.new_record random_range s t id;
      match r with Ok _ => record_all s rs | Err e => Ret (s, Err e) end
  end.

(** The samples [c] of a table into which the tuples [all] were inserted. *)
Record sampled (all : list Tuple) (c : ContainerSamples) : Prop := {
  sm_count : record_count c = zlen all;
  sm_size : zlen (samples c) = Z.min (zlen all) SAMPLE_SIZE;
  sm_from : Forall (λ t, t ∈ all) (samples c);
  sm_all : zlen all ≤ SAMPLE_SIZE → samples c = all
}.

Lemma new_sampled schema : sampled [] (Samples.new schema).
Proof. by split. Qed.

Lemma new_record_sampled s t id c all :
  st_samples s !! container_id id = Some c → sampled all c → zlen all + 1 < 2 ^ 64 →
  ∃ s' c', Reservoir.new_record random_range s t id = Ret (s', Ok tt) ∧ sampled (all ++ [t]) c' ∧
    st_samples s' = <[container_id id := c']> (st_samples s) ∧ states s' = states s.
Proof.
  intros Hc [Hcount Hsize Hfrom Hall] Hb. unfold Reservoir.new_record. rewrite Hc.
  assert (∀ l, zlen (l ++ [t]) = zlen l + 1) as Hz by (intros; len).
  assert (∀ c1, record_count c1 = zlen all → Samples.increment_record_count c1 =
    Ret (mkSamples (samples c1) (zlen all + 1) (cs_schema c1) (id_to_sample c1) (per_attr_stats c1))) as Hinc.
  { intros c1 E. unfold Samples.increment_record_count. rewrite E, checked_ok; [done|]. pose proof (zlen_nonneg all). lia. }
  destruct (Z.eqb_spec (zlen (samples c)) SAMPLE_SIZE) as [Hfull|Hroom].
  - cbn [Samples.add_sample]. pose proof (random_ok (rng s)) as Hr. rewrite (proj2 (Z.leb_le _ _)), (proj2 (Z.ltb_lt _ _)) by lia.
    cbn [andb guard_or_panic mbind outcome_bind]. rewrite Hinc by done. cbn [mbind outcome_bind]. eexists _, _. split; [done|].
    split; [|done]. split; cbn [record_count samples].
    + by rewrite Hz.
    + rewrite Hz. unfold zlen in *. rewrite length_insert. lia.
    + apply Forall_insert; [eapply Forall_impl; [exact Hfrom|]; simpl; intros; apply elem_of_app; by left|apply elem_of_app; right; by left].
    + rewrite Hz. intros Hle. lia.
  - cbn [Samples.add_sample mbind outcome_bind]. rewrite Hinc by done. cbn [mbind outcome_bind]. eexists _, _. split; [done|].
    split; [|done]. assert (zlen all < SAMPLE_SIZE) as Hlt by lia. specialize (Hall ltac:(lia)). split; cbn [record_count samples].
    + by rewrite Hz.
    + rewrite !Hz. lia.
    + rewrite Hall. apply Forall_forall. intros x Hx. exact Hx.
    + by rewrite Hall.
Qed.

Lemma record_all_sampled rs s c cid all :
  Forall (λ r, container_id r.2 = cid) rs → st_samples s !! cid = Some c → sampled all c → zlen all + zlen rs < 2 ^ 64 →
  ∃ s' c', record_all s rs = Ret (s', Ok tt) ∧ sampled (all ++ rs.*1) c' ∧ st_samples s' = <[cid := c']> (st_samples s) ∧ states s' = states s.
Proof.
  revert s c all. induction rs as [|[t id] rs IH]; intros s c all HF Hc Hs Hb.
  - exists s, c. cbn. rewrite app_nil_r, insert_id by done. done.
  - apply Forall_cons in HF as [Hid HF]. cbn in Hid. subst cid.
    assert (zlen ((t, id) :: rs) = zlen rs + 1) as Hz by len. pose proof (zlen_nonneg rs).
    destruct (new_record_sampled s t id c all Hc Hs ltac:(lia)) as (s1 & c1 & E1 & Hs1 & Hm1 & Hst1).
    destruct (IH s1 c1 (all ++ [t]) HF) as (s2 & c2 & E2 & Hs2 & Hm2 & Hst2).
    + rewrite Hm1. apply lookup_insert_eq.
    + done.
    + assert (zlen (all ++ [t]) = zlen all + 1) by len. lia.
    + exists s2, c2. cbn [record_all]. rewrite E1. cbn [mbind outcome_bind]. rewrite E2. split; [done|].
      rewrite <-app_assoc in Hs2. split; [done|]. split; [|congruence]. by rewrite Hm2, Hm1, insert_insert_eq.
Qed.

(** C25: The statistics of a table. After records are inserted into a registered table, the
    count is their number, the sample holds as many of them as fit, and nothing that was not
    inserted; while they all fit, the sample is the whole table. Other tables and the
    timestamps are unchanged. *)
Theorem reservoir_samples s cid schema rs :
  st_samples s !! cid = Some (Samples.new schema) → Forall (λ r, container_id r.2 = cid) rs → zlen rs < 2 ^ 64 →
  ∃ s' c, record_all s rs = Ret (s', Ok tt) ∧ st_samples s' = <[cid := c]> (st_samples s) ∧ states s' = states s ∧
    record_count c = zlen rs ∧ zlen (samples c) = Z.min (zlen rs) SAMPLE_SIZE ∧
    Forall (λ t, t ∈ rs.*1) (samples c) ∧ (zlen rs ≤ SAMPLE_SIZE → samples c = rs.*1).
Proof.
  intros Hc HF Hb. destruct (record_all_sampled rs s _ cid [] HF Hc (new_sampled schema)) as (s' & c & E & [H1 H2 H3 H4] & Hm & Hst); [done|].
  exists s', c. assert (zlen rs.*1 = zlen rs) as Hz by len. rewrite app_nil_l, Hz in *. done.
Qed.

(** ** Estimates *)

(** The row satisfies the predicates, evaluated from left to right. *)
Fixpoint satisfies (es : list (Expression PhysicalRelExpr)) (t : Tuple) : outcome bool :=
  match es with
  | [] => Ret true
  | e :: es => v ← eval_expr (λ i, nth_u (field_vals t) i) e; if bool_decide (v = FBool true) then satisfies es t else Ret false
  end.

Lemma compile_ok es : forallb supported es = true →
  ∃ bcs, Reservoir.compile es = Ok bcs ∧ ∀ t, Reservoir.all_true bcs t = satisfies es t.
Proof.
  induction es as [|e es IH]; [by exists []|]. intros [He Hes]%andb_true_iff. destruct (IH Hes) as (bcs & Ec & Ht).
  pose proof (convert_ok e None) as Hc. rewrite He in Hc. destruct Hc as (bc & Ebc & Heval).
  exists (bc :: bcs). cbn [Reservoir.compile Reservoir.all_true satisfies]. rewrite Ebc, Ec. split; [done|]. intros t. rewrite Heval.
  unfold bound_cols. destruct (eval_expr _ e) as [v|]; [|done]. cbn. by rewrite Ht.
Qed.

Lemma count_matching_ok (f : Tuple → outcome bool) (P : Tuple → bool) ts :
  Forall (λ t, f t = Ret (P t)) ts → Reservoir.count_matching f ts = Ret (zlen (List.filter P ts)).
Proof.
  induction 1 as [|t ts Ht HF IH]; [done|]. cbn [Reservoir.count_matching List.filter]. rewrite Ht, IH. cbn. destruct (P t); [|done].
  f_equal. len.
Qed.

(** The selectivity of a predicate on a table of at most [SAMPLE_SIZE] rows is that of the
    rows of the table: the number of rows that satisfy it divided by the number of rows, rounded
    as an [f64]; the estimated count is the product with the number of rows, truncated. *)
Theorem estimate_small_table s cid schema rs es (P : Tuple → bool) :
  st_samples s !! cid = Some (Samples.new schema) → Forall (λ r, container_id r.2 = cid) rs → 0 < zlen rs ≤ SAMPLE_SIZE →
  forallb supported es = true → Forall (λ t, satisfies es t = Ret (P t)) rs.*1 →
  let sel := F64.div (F64.of_usize (zlen (List.filter P rs.*1))) (F64.of_usize (zlen rs)) in
  ∃ s', record_all s rs = Ret (s', Ok tt) ∧
    Reservoir.estimate_count_and_sel s' cid es = Ret (Ok (F64.to_usize (F64.mul sel (F64.of_usize (zlen rs))), sel)).
Proof.
  intros Hc HF Hn Hes HP sel. unfold SAMPLE_SIZE in Hn.
  destruct (record_all_sampled rs s _ cid [] HF Hc (new_sampled schema)) as (s' & c & E & [H1 H2 H3 H4] & Hm & Hst); [rewrite Z.add_0_l; lia|].
  exists s'. split; [done|]. assert (zlen rs.*1 = zlen rs) as Hz by len. rewrite app_nil_l in *. rewrite Hz in *.
  unfold Reservoir.estimate_count_and_sel. destruct (compile_ok es Hes) as (bcs & -> & Ht). rewrite Hm, lookup_insert_eq.
  rewrite H4 by (unfold SAMPLE_SIZE; lia).
  rewrite (count_matching_ok _ P) by (eapply Forall_impl; [exact HP|]; intros t Et; by rewrite Ht). cbn [mbind outcome_bind]. rewrite H1, Hz.
  destruct rs as [|r rs]; [unfold zlen in Hn; simpl in Hn; lia|done].
Qed.
End Samples.

(** ** Saving and loading *)

Section Keys.
Context {K L A : Type} `{Countable K} `{Countable L} (g : K → L) (f : L → outcome K).

Lemma try_keys_list (l : list (K * A)) :
  Forall (λ x, f (g x.1) = Ret x.1) l → try_keys f (prod_map g id <$> l) = Ret (list_to_map l).
Proof.
  induction 1 as [|[k a] l Hk HF IH]; [done|]. simpl in Hk. rewrite fmap_cons. change (prod_map g id (k, a)) with (g k, a).
  cbn [try_keys]. rewrite Hk. cbn [mbind outcome_bind]. by rewrite IH.
Qed.

(** Keys that can be read back give the map back. *)
Lemma try_keys_ok (m : gmap K A) :
  (∀ k a, m !! k = Some a → f (g k) = Ret k) → try_keys f (map_to_list (kmap (M2 := gmap L) g m)) = Ret m.
Proof.
  intros Hf. unfold kmap. set (l := prod_map g id <$> map_to_list m).
  assert (NoDup l.*1) as Hnd.
  { unfold l. rewrite <-list_fmap_compose. apply NoDup_fmap_2_strong; [|apply NoDup_map_to_list].
    intros [k a] [k' a'] Hk%elem_of_map_to_list Hk'%elem_of_map_to_list. simpl. intros Eg.
    pose proof (Hf _ _ Hk) as E1. rewrite Eg, (Hf _ _ Hk') in E1. injection E1 as ->. rewrite Hk in Hk'. by injection Hk' as ->. }
  pose proof (map_to_list_to_map (M := gmap L) l Hnd) as Hp. unfold l in Hp at 2.
  apply Permutation_map_inv in Hp as (l' & El & Hp'). rewrite El. change (map (prod_map g id) l') with (prod_map g id <$> l').
  rewrite try_keys_list.
  - f_equal. rewrite <-(list_to_map_to_list m). apply list_to_map_proper; [|done].
    by rewrite <-Hp'; apply NoDup_fst_map_to_list.
  - apply Forall_forall. intros [k a] Hx. rewrite <-Hp' in Hx. apply elem_of_map_to_list in Hx. by apply (Hf k a).
Qed.
End Keys.

Lemma parse_u16_show k : 0 ≤ k < 2 ^ 16 → Reservoir.parse_u16 (show_int k) = Some k.
Proof.
  intros Hk. destruct (show_int_digits k) as (n & -> & H1 & _); [simpl; lia|]. rewrite (proj2 (Z.ltb_ge k 0)), Z.abs_eq in * by lia. cbn [app].
  destruct (parse_int_digits 0 (2 ^ 16 - 1) (S n) k H1 ltac:(lia)) as [Hp _]. rewrite in_range_true in Hp by lia.
  assert (Forall (λ b, b ≠ Byte.x2d) (digits (S n) k)) as HF by (apply digits_Forall; intros d Hd; by apply digit_not).
  unfold Reservoir.parse_u16. destruct (digits (S n) k) as [|b l]; [done|]. apply Forall_cons in HF as [Hb _]. by destruct b.
Qed.

Lemma hex_digits b :
  byte.unsigned b / 16 < 16 ∧ Samples.from_hex (Samples.hex_digit (byte.unsigned b / 16)) = Some (byte.unsigned b / 16) ∧
  Samples.hex_digit (byte.unsigned b / 16) ≠ Byte.x2b ∧
  Samples.from_hex (Samples.hex_digit (byte.unsigned b mod 16)) = Some (byte.unsigned b mod 16) ∧
  byte.of_Z (16 * (byte.unsigned b / 16) + byte.unsigned b mod 16) = b.
Proof. by destruct b. Qed.

Lemma hex_roundtrip bs :
  Samples.hex_to_bytes (b ← bs; [Samples.hex_digit (byte.unsigned b / 16); Samples.hex_digit (byte.unsigned b mod 16)]) = Ret bs.
Proof.
  induction bs as [|b bs IH]; [done|]. cbn [mbind list_bind app Samples.hex_to_bytes]. destruct (hex_digits b) as (_ & Eh & Hp & El & Eb).
  rewrite bool_decide_eq_false_2, Eh, El by done. cbn [unwrap mbind outcome_bind].
  change (list_bind _ _ _ bs) with (b ← bs; [Samples.hex_digit (byte.unsigned b / 16); Samples.hex_digit (byte.unsigned b mod 16)]).
  rewrite IH. cbn [mbind outcome_bind]. by rewrite Eb.
Qed.

(** The ids of the samples fit their types. *)
Definition ids_typed (c : ContainerSamples) : Prop := ∀ id i, id_to_sample c !! id = Some i → ValueIds.typed id.

Lemma container_roundtrip c : ids_typed c → get_deserialized_container_sample (get_serializable_container_sample c) = Ret c.
Proof.
  intros Hc. unfold get_deserialized_container_sample, get_serializable_container_sample. cbn [sv_id_to_sample].
  rewrite try_keys_ok; [by destruct c|]. intros id i Hid. unfold Samples.hex_key. rewrite hex_roundtrip. cbn [mbind outcome_bind].
  rewrite <-(app_nil_r (ValueIds.to_bytes id)). by apply ValueIds.from_bytes_layout, (Hc id i).
Qed.

Lemma load_samples_ok (l : list (Z * ContainerSamples)) :
  Forall (λ x, ids_typed x.2) l →
  (fix go l := match l with
               | [] => Ret ∅
               | (k, c) :: l => c ← get_deserialized_container_sample c; m ← go l; Ret (<[k := c]> m)
               end) (prod_map id get_serializable_container_sample <$> l) = Ret (list_to_map l : gmap Z ContainerSamples).
Proof.
  induction 1 as [|[k c] l Hc HF IH]; [done|]. rewrite fmap_cons. change (prod_map id _ (k, c)) with (k, get_serializable_container_sample c).
  cbn. rewrite container_roundtrip by done. cbn [mbind outcome_bind]. by setoid_rewrite IH.
Qed.

(** C26: Saving and loading the statistics keeps the samples, counts and attributes of every
    table; every table counts as unchanged, with timestamps zero. *)
Theorem statistics_reload s :
  (∀ cid c, st_samples s !! cid = Some c → 0 ≤ cid < 2 ^ 16 ∧ ids_typed c) → (∀ cid st, states s !! cid = Some st → 0 ≤ cid < 2 ^ 16) →
  Reservoir.load (Reservoir.get_serializable_stat_manager s) =
    Ret (mkStats (st_samples s) ((λ st, mkStateInfo (si_c_id st) 0 0 (incremental st)) <$> states s) 0).
Proof.
  intros Hs Hst. unfold Reservoir.load, Reservoir.get_serializable_stat_manager. cbn [saved_samples saved_states].
  rewrite (try_keys_ok show_int _ (get_serializable_container_sample <$> st_samples s)); cycle 1.
  { intros k c Hk. rewrite lookup_fmap in Hk. destruct (st_samples s !! k) as [c0|] eqn:E; [|done].
    rewrite parse_u16_show by (by eapply Hs). done. }
  cbn [mbind outcome_bind].
  rewrite map_to_list_fmap. rewrite load_samples_ok; cycle 1.
  { apply Forall_forall. intros [k c] Hk%elem_of_map_to_list. by eapply Hs. }
  cbn [mbind outcome_bind]. rewrite try_keys_ok by (intros k st Hk; by rewrite parse_u16_show by (by eapply Hst)).
  cbn [mbind outcome_bind]. by rewrite list_to_map_to_list.
Qed.
