(* ===== verification/OpMutate.v ===== *)
(** * Operators on indexes, and operators that change the database

    Models [index_scan.rs], [delete.rs] and [update.rs] of [queryexe/src/opiterator], and
    the operations of [txn_manager/src/mock_tm.rs] they call. The index manager and the
    statistics are interfaces here.

    Deletions and updates first collect all rows of their child: a scan holds a latch on
    the page it stands on. *)

From S2P Require Import Prelude Common StorageSpec Field Tuple ByteCode OpIterator DbCatalog.
From S2P Require Import PhysicalPlan.
From stdpp Require Import strings gmap.

Open Scope Z_scope.

(** ** Interfaces *)

(** [IndexManager]. *)
Class IndexTrait (SM : Type) := {
  ix_search : SM → Z → list Field → outcome (SM * result CrustyError (list ValueId));
  ix_insert_entry : SM → Z → list Field → ValueId → outcome (SM * result CrustyError unit);
  ix_delete_entry : SM → Z → list Field → ValueId → outcome (SM * result CrustyError unit)
}.

(** [StateTrackerTrait]. *)
Class StateTracker (SM : Type) := {
  set_ts : SM → Z → Z → SM
}.

(** The transaction manager of the system has no effects. *)
Module MockTransactionManager.
Definition pre_update_record (t : Tuple) (id : ValueId) (tid : Z) (changes : TupleAssignments) :
  result CrustyError Tuple := Ok t.
Definition post_update_record (t : Tuple) (new_id old_id : ValueId) (tid : Z) (changes : TupleAssignments) :
  result CrustyError Tuple := Ok t.
End MockTransactionManager.

(** [extract_key], of which several modules have a copy. *)
Fixpoint extract_key (t : Tuple) (columns : list Z) : outcome (list Field) :=
  match columns with
  | [] => Ret []
  | i :: columns => f ← unwrap (Tup.get_field t i); fs ← extract_key t columns; Ret (f :: fs)
  end.

(** ** Index scans *)

Record IndexScan := mkIndexScan {
  ix_schema : TableSchema;
  ix_index_id : Z;
  ix_key : list Field;
  ix_open : bool;
  ix_matches : list ValueId;
  ix_next_idx : Z
}.

Module IdxScan.
Section Ops.
Context {SM : Type} `{StorageTrait SM} `{IndexTrait SM} `{TupleCodec}.

Definition new (schema : TableSchema) (index_id : Z) (key : list Field) : IndexScan :=
  mkIndexScan schema index_id key false [] 0.

Definition set (o : IndexScan) (op : bool) (ms : list ValueId) (i : Z) : IndexScan :=
  mkIndexScan (ix_schema o) (ix_index_id o) (ix_key o) op ms i.

Definition configure (w : bool) (o : IndexScan) : IndexScan := o.

Definition open (s : SM) (o : IndexScan) : outcome (SM * IndexScan * result CrustyError unit) :=
  if negb (ix_open o) then
    '(s, r) ← ix_search s (ix_index_id o) (ix_key o);
    let? ms := r at s, o in
    Ret (s, set o true ms 0, Ok tt)
  else Ret (s, set o true (ix_matches o) (ix_next_idx o), Ok tt).

Definition next (s : SM) (o : IndexScan) : outcome (SM * IndexScan * result CrustyError (option Tuple)) :=
  _ ← guard_or_panic (ix_open o);
  if zlen (ix_matches o) <=? ix_next_idx o then Ret (s, o, Ok None)
  else
    id ← unwrap (nth_u (ix_matches o) (ix_next_idx o));
    let o := set o (ix_open o) (ix_matches o) (ix_next_idx o + 1) in
    '(s, r) ← st_get_value s id;
    let? bytes := r at s, o in
    tuple ← tuple_from_bytes bytes;
    Ret (s, o, Ok (Some (Tup.with_value_id tuple (Some id)))).

Definition close (s : SM) (o : IndexScan) : outcome (SM * IndexScan * result CrustyError unit) :=
  Ret (s, set o false [] 0, Ok tt).

Definition rewind (s : SM) (o : IndexScan) : outcome (SM * IndexScan * result CrustyError unit) :=
  _ ← guard_or_panic (ix_open o);
  Ret (s, set o (ix_open o) (ix_matches o) 0, Ok tt).
End Ops.
End IdxScan.

#[global] Instance IndexScan_ops SM `{StorageTrait SM} `{IndexTrait SM} `{TupleCodec} : OpIterator SM IndexScan := {|
  configure := IdxScan.configure;
  open := IdxScan.open;
  next := IdxScan.next;
  close := IdxScan.close;
  rewind := IdxScan.rewind;
  get_schema := ix_schema
|}.

(** ** Deletion *)

Record Delete (C : Type) := mkDelete {
  de_schema : TableSchema;
  de_open : bool;
  de_indexes : list IndexInfo;
  de_child : C;
  de_pending : list Tuple
}.
Arguments mkDelete {C} _ _ _ _ _.
Arguments de_schema {C} _.
Arguments de_open {C} _.
Arguments de_indexes {C} _.
Arguments de_child {C} _.
Arguments de_pending {C} _.

Module Del.
Section Ops.
Context {SM C : Type} `{StorageTrait SM} `{IndexTrait SM} {ops : OpIterator SM C}.

Definition new (indexes : list IndexInfo) (child : C) : Delete C :=
  mkDelete (OpIterator.get_schema (SM := SM) child) false indexes child [].

Definition set (o : Delete C) (op : bool) (c : C) (pending : list Tuple) : Delete C :=
  mkDelete (de_schema o) op (de_indexes o) c pending.

Definition configure (w : bool) (o : Delete C) : Delete C :=
  set o (de_open o) (OpIterator.configure (SM := SM) w (de_child o)) (de_pending o).

Definition open (fuel : nat) (s : SM) (o : Delete C) : outcome (SM * Delete C * result CrustyError unit) :=
  if negb (de_open o) then
    '(s, c, r) ← OpIterator.open s (de_child o);
    let o := set o (de_open o) c (de_pending o) in
    let? _ := r at s, o in
    '(s, c, r) ← drain fuel s (de_child o);
    let o := set o (de_open o) c (de_pending o) in
    let? rows := r at s, o in
    Ret (s, set o true (de_child o) rows, Ok tt)
  else Ret (s, set o true (de_child o) (de_pending o), Ok tt).

(** [for index in &self.indexes { im.delete_entry(..)?; }] *)
Fixpoint unindex (s : SM) (o : Delete C) (indexes : list IndexInfo) (tuple : Tuple) (id : ValueId) :
  outcome (SM * result CrustyError unit) :=
  match indexes with
  | [] => Ret (s, Ok tt)
  | index :: indexes =>
      key ← extract_key tuple (ii_columns index);
      '(s, r) ← ix_delete_entry s (ii_index_id index) key id;
      match r with Err e => Ret (s, Err e) | Ok _ => unindex s o indexes tuple id end
  end.

Definition next (s : SM) (o : Delete C) : outcome (SM * Delete C * result CrustyError (option Tuple)) :=
  _ ← guard_or_panic (de_open o);
  match de_pending o with
  | tuple :: rest =>
      let o := set o (de_open o) (de_child o) rest in
      let? id := ok_or (value_id tuple) (c_err "No value id set for record. Cannot delete") at s, o in
      '(s, r) ← unindex s o (de_indexes o) tuple id;
      let? _ := r at s, o in
      '(s, r) ← st_delete_value s id;
      let? _ := r at s, o in
      Ret (s, o, Ok (Some tuple))
  | [] => Ret (s, o, Ok None)
  end.

Definition close (s : SM) (o : Delete C) : outcome (SM * Delete C * result CrustyError unit) :=
  '(s, c, r) ← OpIterator.close s (de_child o);
  let o := set o (de_open o) c (de_pending o) in
  let? _ := r at s, o in
  Ret (s, set o false c [], Ok tt).

(** [unimplemented!()]. *)
Definition rewind (s : SM) (o : Delete C) : outcome (SM * Delete C * result CrustyError unit) := Panic.
End Ops.
End Del.

Definition Delete_ops {SM C} `{StorageTrait SM} `{IndexTrait SM} (ops : OpIterator SM C) (fuel : nat) :
  OpIterator SM (Delete C) := {|
  configure := Del.configure (SM := SM);
  open := Del.open fuel;
  next := Del.next;
  close := Del.close;
  rewind := Del.rewind;
  get_schema := de_schema
|}.

(** ** Updates *)

Record Update (C : Type) := mkUpdate {
  up_schema : TableSchema;
  up_open : bool;
  up_container_id : Z;
  up_tid : Z;
  up_assignments : TupleAssignments;
  up_indexes : list IndexInfo;
  up_child : C;
  up_count : Z;
  up_pending : list Tuple
}.
Arguments mkUpdate {C} _ _ _ _ _ _ _ _ _.
Arguments up_schema {C} _.
Arguments up_open {C} _.
Arguments up_container_id {C} _.
Arguments up_tid {C} _.
Arguments up_assignments {C} _.
Arguments up_indexes {C} _.
Arguments up_child {C} _.
Arguments up_count {C} _.
Arguments up_pending {C} _.

Module Upd.
Section Ops.
Context {SM C : Type} `{StorageTrait SM} `{IndexTrait SM} `{StateTracker SM} `{TupleCodec}
  {ops : OpIterator SM C}.

Definition new (container_id tid : Z) (assignments : TupleAssignments) (indexes : list IndexInfo) (child : C) :
  Update C :=
  mkUpdate (OpIterator.get_schema (SM := SM) child) false container_id tid assignments indexes child 0 [].

Definition set (o : Update C) (op : bool) (c : C) (count : Z) (pending : list Tuple) : Update C :=
  mkUpdate (up_schema o) op (up_container_id o) (up_tid o) (up_assignments o) (up_indexes o) c count pending.

Definition configure (w : bool) (o : Update C) : Update C :=
  set o (up_open o) (OpIterator.configure (SM := SM) w (up_child o)) (up_count o) (up_pending o).

Definition open (fuel : nat) (s : SM) (o : Update C) : outcome (SM * Update C * result CrustyError unit) :=
  if negb (up_open o) then
    '(s, c, r) ← OpIterator.open s (up_child o);
    let o := set o (up_open o) c (up_count o) (up_pending o) in
    let? _ := r at s, o in
    '(s, c, r) ← drain fuel s (up_child o);
    let o := set o (up_open o) c (up_count o) (up_pending o) in
    let? rows := r at s, o in
    Ret (s, set o true (up_child o) (up_count o) rows, Ok tt)
  else Ret (s, set o true (up_child o) (up_count o) (up_pending o), Ok tt).

(** [for (field_idx, new_value) in &self.assignments { tuple.set_field(..) }] *)
Definition assign (t : Tuple) (assignments : TupleAssignments) : outcome Tuple :=
  foldM (λ t '(i, v), Tup.set_field t i v) t assignments.

(** The index entries of one row: the old ones are removed, the new ones added. *)
Fixpoint reindex (s : SM) (indexes : list IndexInfo) (old_tuple tuple : Tuple) (id new_id : ValueId) :
  outcome (SM * result CrustyError unit) :=
  match indexes with
  | [] => Ret (s, Ok tt)
  | index :: indexes =>
      old_key ← extract_key old_tuple (ii_columns index);
      new_key ← extract_key tuple (ii_columns index);
      '(s, r) ← ix_delete_entry s (ii_index_id index) old_key id;
      match r with
      | Err e => Ret (s, Err e)
      | Ok _ =>
          '(s, r) ← ix_insert_entry s (ii_index_id index) new_key new_id;
          match r with Err e => Ret (s, Err e) | Ok _ => reindex s indexes old_tuple tuple id new_id end
      end
  end.

Definition next (s : SM) (o : Update C) : outcome (SM * Update C * result CrustyError (option Tuple)) :=
  _ ← guard_or_panic (up_open o);
  match up_pending o with
  | old_tuple :: rest =>
      let o := set o (up_open o) (up_child o) (up_count o) rest in
      let? id := ok_or (value_id old_tuple) (c_err "No value id set for record. Cannot update") at s, o in
      let? tuple := MockTransactionManager.pre_update_record old_tuple id (up_tid o) (up_assignments o) at s, o in
      tuple ← assign tuple (up_assignments o);
      '(s, res) ← st_update_value s (tuple_to_bytes tuple) id;
      let? new_value_id := res at s, o in
      let? tuple :=
        MockTransactionManager.post_update_record tuple new_value_id id (up_tid o) (up_assignments o) at s, o in
      '(s, r) ← reindex s (up_indexes o) old_tuple tuple id new_value_id;
      let? _ := r at s, o in
      count ← checked 64 (up_count o + 1);
      let o := set o (up_open o) (up_child o) count (up_pending o) in
      Ret (set_ts s (container_id new_value_id) (up_tid o), o, Ok (Some tuple))
  | [] => Ret (s, o, Ok None)
  end.

Definition close (s : SM) (o : Update C) : outcome (SM * Update C * result CrustyError unit) :=
  '(s, c, r) ← OpIterator.close s (up_child o);
  let o := set o (up_open o) c (up_count o) (up_pending o) in
  let? _ := r at s, o in
  Ret (s, set o false c (up_count o) [], Ok tt).

(** [unimplemented!()]. *)
Definition rewind (s : SM) (o : Update C) : outcome (SM * Update C * result CrustyError unit) := Panic.
End Ops.
End Upd.

Definition Update_ops {SM C} `{StorageTrait SM} `{IndexTrait SM} `{StateTracker SM} `{TupleCodec}
    (ops : OpIterator SM C) (fuel : nat) : OpIterator SM (Update C) := {|
  configure := Upd.configure (SM := SM);
  open := Upd.open fuel;
  next := Upd.next;
  close := Upd.close;
  rewind := Upd.rewind;
  get_schema := up_schema
|}.
