(* ===== verification/OpDyn.v ===== *)
(** * Operator trees

    [Box<dyn OpIterator>]: the operators a plan is made of, with children of any kind. The
    operations dispatch on the operator. An operator tree of depth below [k] whose loops
    take fewer than [k] rounds is run with bound [k]; the laws of the operators give the
    laws of the trees by induction on the bound. *)

From stdpp Require Import gmap.
From S2P Require Import Prelude Common StorageSpec Field Tuple ByteCode OpIterator OpBasic.

From S2P Require Import OpJoin OpJoinLaws OpSort OpAggregate DbCatalog PhysicalPlan OpMutate.

Open Scope Z_scope.

Inductive DynOp (SM : Type) `{ScanTrait SM} : Type :=
  | DTuples (o : TupleIterator)
  | DSeqScan (o : SeqScan SM)
  | DIndexScan (o : IndexScan)
  | DFilter (o : Filter (DynOp SM))
  | DProject (o : Project (DynOp SM))
  | DCrossJoin (o : CrossJoin (DynOp SM) (DynOp SM))
  | DNestedLoopJoin (o : NestedLoopJoin (DynOp SM) (DynOp SM))
  | DHashEqJoin (o : HashEqJoin (DynOp SM) (DynOp SM))
  | DSort (o : Sort (DynOp SM))
  | DAggregate (o : Aggregate (DynOp SM))
  | DDelete (o : Delete (DynOp SM))
  | DUpdate (o : Update (DynOp SM)).
Arguments DTuples {SM _} o.
Arguments DSeqScan {SM _} o.
Arguments DIndexScan {SM _} o.
Arguments DFilter {SM _} o.
Arguments DProject {SM _} o.
Arguments DCrossJoin {SM _} o.
Arguments DNestedLoopJoin {SM _} o.
Arguments DHashEqJoin {SM _} o.
Arguments DSort {SM _} o.
Arguments DAggregate {SM _} o.
Arguments DDelete {SM _} o.
Arguments DUpdate {SM _} o.

Section Dispatch.
Context {SM : Type} `{ScanTrait SM} `{StorageTrait SM} `{IndexTrait SM} `{StateTracker SM} `{TupleCodec}.
Notation dyn := (DynOp SM).

Definition dyn_schema (o : dyn) : TableSchema :=
  match o with
  | DTuples o => ti_schema o | DSeqScan o => ss_schema o | DIndexScan o => ix_schema o
  | DFilter o => fi_schema o | DProject o => pr_schema o | DCrossJoin o => cj_schema o
  | DNestedLoopJoin o => nl_schema o | DHashEqJoin o => hj_schema o | DSort o => so_schema o
  | DAggregate o => ag_schema o | DDelete o => de_schema o | DUpdate o => up_schema o
  end.

(** The result of an operation on the operator inside the box. *)
Definition boxed {C A} (box : C → dyn) (r : outcome (SM * C * A)) : outcome (SM * dyn * A) :=
  '(s, c, a) ← r; Ret (s, box c, a).

Definition no_ops : OpIterator SM dyn := {|
  configure w o := o;
  open s o := Panic;
  next s o := Panic;
  close s o := Panic;
  rewind s o := Panic;
  get_schema := dyn_schema
|}.

(** The operations, dispatched, where [ops] are those of the children and [k] bounds loops. *)
Definition dispatch (ops : OpIterator SM dyn) (k : nat) : OpIterator SM dyn := {|
  configure w o :=
    match o with
    | DTuples o => DTuples (TupleIter.configure w o)
    | DSeqScan o => DSeqScan (Seq.configure w o)
    | DIndexScan o => DIndexScan (IdxScan.configure w o)
    | DFilter o => DFilter (Filt.configure (SM := SM) w o)
    | DProject o => DProject (Proj.configure (SM := SM) w o)
    | DCrossJoin o => DCrossJoin (Cross.configure (SM := SM) w o)
    | DNestedLoopJoin o => DNestedLoopJoin (Nested.configure (SM := SM) w o)
    | DHashEqJoin o => DHashEqJoin (HashEq.configure (SM := SM) w o)
    | DSort o => DSort (Sorting.configure (SM := SM) w o)
    | DAggregate o => DAggregate (Agg.configure (SM := SM) w o)
    | DDelete o => DDelete (Del.configure (SM := SM) w o)
    | DUpdate o => DUpdate (Upd.configure (SM := SM) w o)
    end;
  open s o :=
    match o with
    | DTuples o => boxed DTuples (TupleIter.open s o)
    | DSeqScan o => boxed DSeqScan (Seq.open s o)
    | DIndexScan o => boxed DIndexScan (IdxScan.open s o)
    | DFilter o => boxed DFilter (Filt.open s o)
    | DProject o => boxed DProject (Proj.open s o)
    | DCrossJoin o => boxed DCrossJoin (Cross.open s o)
    | DNestedLoopJoin o => boxed DNestedLoopJoin (Nested.open s o)
    | DHashEqJoin o => boxed DHashEqJoin (HashEq.open k s o)
    | DSort o => boxed DSort (Sorting.open k s o)
    | DAggregate o => boxed DAggregate (Agg.open k s o)
    | DDelete o => boxed DDelete (Del.open k s o)
    | DUpdate o => boxed DUpdate (Upd.open k s o)
    end;
  next s o :=
    match o with
    | DTuples o => boxed DTuples (TupleIter.next s o)
    | DSeqScan o => boxed DSeqScan (Seq.next k s o)
    | DIndexScan o => boxed DIndexScan (IdxScan.next s o)
    | DFilter o => boxed DFilter (Filt.next k s o)
    | DProject o => boxed DProject (Proj.next s o)
    | DCrossJoin o => boxed DCrossJoin (Cross.next k s o)
    | DNestedLoopJoin o => boxed DNestedLoopJoin (Nested.next k s o)
    | DHashEqJoin o => boxed DHashEqJoin (HashEq.next k s o)
    | DSort o => boxed DSort (Sorting.next s o)
    | DAggregate o => boxed DAggregate (Agg.next s o)
    | DDelete o => boxed DDelete (Del.next s o)
    | DUpdate o => boxed DUpdate (Upd.next s o)
    end;
  close s o :=
    match o with
    | DTuples o => boxed DTuples (TupleIter.close s o)
    | DSeqScan o => boxed DSeqScan (Seq.close s o)
    | DIndexScan o => boxed DIndexScan (IdxScan.close s o)
    | DFilter o => boxed DFilter (Filt.close s o)
    | DProject o => boxed DProject (Proj.close s o)
    | DCrossJoin o => boxed DCrossJoin (Cross.close s o)
    | DNestedLoopJoin o => boxed DNestedLoopJoin (Nested.close s o)
    | DHashEqJoin o => boxed DHashEqJoin (HashEq.close s o)
    | DSort o => boxed DSort (Sorting.close s o)
    | DAggregate o => boxed DAggregate (Agg.close s o)
    | DDelete o => boxed DDelete (Del.close s o)
    | DUpdate o => boxed DUpdate (Upd.close s o)
    end;
  rewind s o :=
    match o with
    | DTuples o => boxed DTuples (TupleIter.rewind s o)
    | DSeqScan o => boxed DSeqScan (Seq.rewind s o)
    | DIndexScan o => boxed DIndexScan (IdxScan.rewind s o)
    | DFilter o => boxed DFilter (Filt.rewind s o)
    | DProject o => boxed DProject (Proj.rewind s o)
    | DCrossJoin o => boxed DCrossJoin (Cross.rewind s o)
    | DNestedLoopJoin o => boxed DNestedLoopJoin (Nested.rewind s o)
    | DHashEqJoin o => boxed DHashEqJoin (HashEq.rewind s o)
    | DSort o => boxed DSort (Sorting.rewind s o)
    | DAggregate o => boxed DAggregate (Agg.rewind s o)
    | DDelete o => boxed DDelete (Del.rewind s o)
    | DUpdate o => boxed DUpdate (Upd.rewind s o)
    end;
  get_schema := dyn_schema
|}.

Fixpoint dyn_ops (k : nat) : OpIterator SM dyn :=
  match k with
  | O => no_ops
  | S k => dispatch (dyn_ops k) k
  end.
End Dispatch.

(** ** The contract of a tree *)

Section Laws.
Context {SM : Type} {scan : ScanTrait SM} {tbl : Z → option (list item)} {scan_laws : ScanLaws SM tbl}.
Context `{StorageTrait SM} `{IndexTrait SM} `{StateTracker SM} {codec : TupleCodec}.
Notation dyn := (DynOp SM).

(** The contracts of the operators, on the operator inside the box. Index scans are
    outside: the laws of scans say nothing of indexes; and so are the operators that
    change the database. *)
Definition by_operator (T : Type) (K : op_contract SM dyn) (k : nat)
    (f : ∀ C, op_contract SM C → C → T) (none : T) (o : dyn) : T :=
  match o with
  | DTuples o => f _ TupleIterator_contract o
  | DSeqScan o => f _ (SeqScan_contract (tbl := tbl) k) o
  | DFilter o => f _ (Filter_contract K k) o
  | DProject o => f _ (Project_contract K) o
  | DCrossJoin o => f _ (CrossJoin_contract K K k) o
  | DNestedLoopJoin o => f _ (NestedLoopJoin_contract K K k) o
  | DHashEqJoin o => f _ (HashEqJoin_contract K K k) o
  | DSort o => f _ (Sort_contract K k) o
  | DAggregate o => f _ (Aggregate_contract K k) o
  | DIndexScan _ | DDelete _ | DUpdate _ => none
  end.

Fixpoint dyn_contract (k : nat) : op_contract SM dyn :=
  match k with
  | O => {| built _ _ _ := False; configured _ _ _ _ := False; live _ _ _ _ _ _ := False; closed _ := False |}
  | S k => {|
      built := by_operator _ (dyn_contract k) k (λ C, built) (λ _ _, False);
      configured := by_operator _ (dyn_contract k) k (λ C, configured) (λ _ _ _, False);
      live := by_operator _ (dyn_contract k) k (λ C, live) (λ _ _ _ _ _, False);
      closed := by_operator _ (dyn_contract k) k (λ C, closed) False
    |}
  end.

(** A step of the operator inside the box is a step of the box. *)
Lemma boxed_Ret {C A} (box : C → dyn) r s' c' (a : A) :
  r = Ret (s', c', a) → boxed box r = Ret (s', box c', a).
Proof. by intros ->. Qed.

Ltac box E := match goal with |- ?f (?box ?o) = _ => exact (boxed_Ret box _ _ _ _ E) end.
Ltac unbox H := destruct H as (s' & c' & res' & E & ? & ?); eexists s', _, res';
  split; [box E|split; assumption].
Ltac unbox_close H := destruct H as (s' & c' & E & ? & ?); eexists s', _;
  split; [box E|split; assumption].

(** The law of the operator at hand. *)
Ltac by_law tac := match goal with L : OpLaws SM _ _ |- _ => solve [tac L] end.

Lemma dispatch_laws k :
  OpLaws SM dyn (ops := dyn_ops k) (dyn_contract k) →
  OpLaws SM dyn (ops := dyn_ops (S k)) (dyn_contract (S k)).
Proof.
  intros IH. pose proof TupleIterator_laws.
  pose proof (SeqScan_laws (tbl := tbl) k). pose proof (Filter_laws _ (laws := IH) k).
  pose proof (Project_laws _ (laws := IH)). pose proof (CrossJoin_laws _ _ (llaws := IH) (rlaws := IH) k).
  pose proof (NestedLoopJoin_laws _ _ (llaws := IH) (rlaws := IH) k).
  pose proof (HashEqJoin_laws _ _ (llaws := IH) (rlaws := IH) k).
  pose proof (Sort_laws _ (laws := IH) k). pose proof (Aggregate_laws _ (laws := IH) k).
  constructor.
  - intros [] w all rest res n Hl; try done;
      by_law ltac:(fun L => exact (live_owns (OpLaws := L) _ w all rest res n Hl)).
  - intros [] all n w Hb; try done; by_law ltac:(fun L => exact (configure_ok (OpLaws := L) _ all n w Hb)).
  - intros s [] w all n fr Hc Hv Hroom; try done;
      by_law ltac:(fun L => unbox (open_ok (OpLaws := L) s _ w all n fr Hc Hv Hroom)).
  - intros s [] w all rest res n fr Hl Hv Hroom; try done;
      by_law ltac:(fun L => unbox (next_ok (OpLaws := L) s _ w all rest res n fr Hl Hv Hroom)).
  - intros s [] all rest res n fr Hl Hv Hroom; try done;
      by_law ltac:(fun L => unbox (rewind_ok (OpLaws := L) s _ all rest res n fr Hl Hv Hroom)).
  - intros s [] w all rest res n fr Hl Hv; try done;
      by_law ltac:(fun L => unbox_close (close_ok (OpLaws := L) s _ w all rest res n fr Hl Hv)).
  - intros s [] fr Hl Hv; try done;
      by_law ltac:(fun L => unbox_close (close_again (OpLaws := L) s _ fr Hl Hv)).
Qed.

Lemma dyn_laws k : OpLaws SM dyn (ops := dyn_ops k) (dyn_contract k).
Proof. induction k as [|k IH]; [constructor; by intros|by apply dispatch_laws]. Qed.

(** ** Larger bounds *)

(** A contract that promises whatever another one does. *)
Definition includes (K K' : op_contract SM dyn) : Prop := ∀ o all n, built K o all n → built K' o all n.

Lemma by_operator_mono (K K' : op_contract SM dyn) k k' o all n :
  includes K K' → (k ≤ k')%nat →
  by_operator _ K k (λ C, built) (λ _ _, False) o all n → by_operator _ K' k' (λ C, built) (λ _ _, False) o all n.
Proof.
  intros HK Hk. destruct o; cbn; try done.
  - intros (? & ? & ? & ? & items & ? & ? & ?). split_and!; try done. exists items. split_and!; try done. lia.
  - intros (? & call & ? & ? & ?). split; [done|]. exists call. split_and!; [by apply HK|done|lia].
  - intros (? & call & ? & ?). split; [done|]. exists call. by split; [apply HK|].
  - intros (? & L & R & n1 & n2 & ? & ? & ? & ? & ?). split; [done|]. exists L, R, n1, n2.
    split_and!; [done|by apply HK|by apply HK|done|lia].
  - intros (? & L & R & n1 & n2 & ? & ? & ? & ? & ?). split; [done|]. exists L, R, n1, n2.
    split_and!; [done|by apply HK|by apply HK|done|lia].
  - intros (? & ? & L & R & kl & n1 & n2 & ? & ? & ? & ? & ? & ? & ?). split_and!; [done|done|]. exists L, R, kl, n1, n2.
    split_and!; [done|by apply HK|by apply HK|done|done|lia|lia].
  - intros (? & ? & call & ? & ? & ?). split_and!; [done|done|]. exists call.
    split_and!; [by apply HK|done|lia].
  - intros (? & ? & ? & call & ? & ? & ?). split_and!; [done..|]. exists call.
    split_and!; [by apply HK|done|lia].
Qed.

Lemma dyn_contract_mono k k' : (k ≤ k')%nat → includes (dyn_contract k) (dyn_contract k').
Proof.
  revert k'. induction k as [|k IH]; intros k' Hk o all n Hb; [done|].
  destruct k' as [|k']; [lia|]. cbn in *. eapply by_operator_mono; [| |exact Hb]; [apply IH; lia|lia].
Qed.
End Laws.
