(* ===== verification/PlanToOp.v ===== *)
(** * From physical plans to operators

    Models [physical_plan_to_op_iterator] of [queryexe/src/query/planner.rs], with the
    description of the columns of expressions it needs ([to_attr] of
    [common/src/query/expr.rs]). Next to the operator, the planner returns where in its
    tuples the columns of the plan are. *)

From stdpp Require Import strings gmap.
From S2P Require Import Prelude Common StorageSpec Field FieldCodec Tuple ByteCode Expr.
From S2P Require Import OpIterator OpBasic.
From S2P Require Import OpJoin OpSort OpAggregate DbCatalog PhysicalPlan OpMutate OpDyn.

Open Scope Z_scope.

(** [iter.map(f).collect()] where [f] may panic. *)
Fixpoint each {A B} (f : A → outcome B) (l : list A) : outcome (list B) :=
  match l with
  | [] => Ret []
  | x :: l => y ← f x; ys ← each f l; Ret (y :: ys)
  end.

(** ** Names and types of expressions *)

Definition BinaryOp_name (op : BinaryOp) : list byte :=
  str match op with
      | OpAdd => "+" | OpSub => "-" | OpMul => "*" | OpDiv => "/" | OpEq => "=" | OpNeq => "!="
      | OpLt => "<" | OpGt => ">" | OpLe => "<=" | OpGe => ">=" | OpAnd => "&&" | OpOr => "||"
      end.

Section Print.
(** Dates are printed by a library. A subquery is printed with its free columns in the
    order of a hash set. *)
Context (format_date : Z → list byte).
Context {P : Type} (print_subquery : P → Z → list byte).

Fixpoint print_inner (e : Expression P) (indent : Z) : list byte :=
  match e with
  | ColRef id => str "@" ++ show_int id
  | EField val => display format_date val
  | Binary op l r => print_inner l indent ++ BinaryOp_name op ++ print_inner r indent
  | Case ex whens el =>
      str "case " ++ print_inner ex indent ++
      flat_map (λ '(w, t), str " when " ++ print_inner w indent ++ str " then " ++ print_inner t indent) whens ++
      str " else " ++ print_inner el indent ++ str " end"
  | Subquery p => print_subquery p indent
  end.

Definition pretty_string (e : Expression P) : list byte := print_inner e 0.

Fixpoint to_attr (e : Expression P) (src_schema : TableSchema) (col_id_to_offset : gmap Z Z) : outcome Attribute :=
  match e with
  | ColRef id =>
      offset ← unwrap (col_id_to_offset !! id);
      unwrap (Schema.get_attribute src_schema offset)
  | EField val => Ret (Attribute_new (pretty_string e) (type_of val))
  | Binary op l _ =>
      left_attr ← to_attr l src_schema col_id_to_offset;
      match op with
      | OpAdd | OpSub | OpMul | OpDiv => Ret left_attr
      | _ => Ret (Attribute_new (pretty_string e) TBool)
      end
  | _ => Panic
  end.
End Print.

(** ** Column positions *)

(** Columns inserted one after the other, at positions from [i] on. *)
Fixpoint number_cols (m : gmap Z Z) (i : Z) (cols : list Z) : gmap Z Z :=
  match cols with
  | [] => m
  | id :: cols => number_cols (<[id := i]> m) (i + 1) cols
  end.

(** [for (old_id, offset) in right { left.insert(old_id, offset + size) }] *)
Definition shift_cols (m : gmap Z Z) (right : gmap Z Z) (size : Z) : gmap Z Z :=
  ((λ offset, offset + size) <$> right) ∪ m.

(** The positions of renamed columns; every column must have a new name. *)
Definition rename_cols (m : gmap Z Z) (src_to_dest : gmap Z Z) : outcome (gmap Z Z) :=
  foldM (λ acc '(old_id, offset), new_id ← unwrap (src_to_dest !! old_id); Ret (<[new_id := offset]> acc))
    ∅ (map_to_list m).

(** ** The planner *)

Section Planner.
Context {SM : Type} `{ScanTrait SM} `{StorageTrait SM} `{IndexTrait SM} `{StateTracker SM} `{TupleCodec}.
Context (format_date : Z → list byte) (print_subquery : PhysicalRelExpr → Z → list byte).
Context (catalog : Catalog) (transaction_id : Z).
Notation dyn := (DynOp SM).

Definition convert (e : Expression PhysicalRelExpr) (m : option (gmap Z Z)) : outcome ByteCodeExpr :=
  result_unwrap (Planner.convert_expr_to_bytecode e m).

(** The attributes of the columns a scan reads. *)
Definition scan_attrs (in_schema : TableSchema) (column_names : list Z) : outcome (list Attribute) :=
  each (λ n, unwrap (Schema.get_attribute in_schema (get_column_index_from_temp_col_id n))) column_names.

(** Selections on top of each other, innermost first. *)
Definition filters (schema : TableSchema) (preds : list ByteCodeExpr) (child : dyn) : dyn :=
  foldl (λ child p, DFilter (Filt.new p schema child)) child preds.

(** The sides of a join condition: which operand belongs to the left child. *)
Definition sides (left : PhysicalRelExpr) (l r : Expression PhysicalRelExpr) :
  Expression PhysicalRelExpr * Expression PhysicalRelExpr :=
  if Expr.intersect_with l left then (l, r) else (r, l).

Fixpoint physical_plan_to_op_iterator_helper (p : PhysicalRelExpr) :
  outcome (result CrustyError dyn * gmap Z Z) :=
  match p with
  | PScan cid _ column_names _ =>
      in_schema ← unwrap (Cat.get_table_schema catalog cid);
      out_schema_att ← scan_attrs in_schema column_names;
      fields ← each (λ n, convert (ColRef (get_column_index_from_temp_col_id n)) None) column_names;
      Ret (Ok (DSeqScan (Seq.new (Schema.new out_schema_att) cid None (Some fields))),
           number_cols ∅ 0 column_names)
  | PIndexScan cid _ column_names index_id key_values _ =>
      in_schema ← unwrap (Cat.get_table_schema catalog cid);
      out_schema_att ← scan_attrs in_schema column_names;
      key ← each (λ e : Expression PhysicalRelExpr, match e with EField val => Ret val | _ => Panic end) key_values;
      Ret (Ok (DIndexScan (IdxScan.new (Schema.new out_schema_att) index_id key)),
           number_cols ∅ 0 column_names)
  | PDelete table_id src =>
      '(src_iter, _) ← physical_plan_to_op_iterator_helper src;
      child ← result_unwrap src_iter;
      Ret (Ok (DDelete (Del.new (SM := SM) (ops := no_ops) (Cat.get_indexes_for_table catalog table_id) child)), ∅)
  | PUpdate table_id src assignments =>
      '(src_iter, _) ← physical_plan_to_op_iterator_helper src;
      child ← result_unwrap src_iter;
      Ret (Ok (DUpdate (Upd.new (SM := SM) (ops := no_ops) table_id transaction_id assignments
                 (Cat.get_indexes_for_table catalog table_id) child)), ∅)
  | PProject src cols _ =>
      '(src_iter, col_id_to_idx) ← physical_plan_to_op_iterator_helper src;
      child ← result_unwrap src_iter;
      indexes ← each (λ id, unwrap (col_id_to_idx !! id)) cols;
      attrs ← each (λ i, unwrap (Schema.get_attribute (dyn_schema child) i)) indexes;
      fields ← each (λ i, convert (ColRef i) (Some col_id_to_idx)) cols;
      Ret (Ok (DProject (Proj.new fields (Schema.new attrs) child)), number_cols ∅ 0 cols)
  | PRename src src_to_dest _ =>
      '(src_iter, col_id_to_idx) ← physical_plan_to_op_iterator_helper src;
      new_col_id_to_idx ← rename_cols col_id_to_idx src_to_dest;
      Ret (src_iter, new_col_id_to_idx)
  | PSelect src predicates _ =>
      '(src_iter, col_id_to_idx) ← physical_plan_to_op_iterator_helper src;
      bytecode_exprs ← each (λ e, convert e (Some col_id_to_idx)) predicates;
      child ← result_unwrap src_iter;
      Ret (Ok (filters (dyn_schema child) bytecode_exprs child), col_id_to_idx)
  | PCrossJoin _ l r predicates _ =>
      '(left_iter, left_cols) ← physical_plan_to_op_iterator_helper l;
      '(right_iter, right_cols) ← physical_plan_to_op_iterator_helper r;
      lchild ← result_unwrap left_iter;
      rchild ← result_unwrap right_iter;
      let new_schema := Schema.merge (dyn_schema lchild) (dyn_schema rchild) in
      let new_cols := shift_cols left_cols right_cols (Schema.size (dyn_schema lchild)) in
      bytecode_exprs ← each (λ e, convert e (Some new_cols)) predicates;
      Ret (Ok (filters new_schema bytecode_exprs (DCrossJoin (Cross.new new_schema lchild rchild))), new_cols)
  | PNestedLoopJoin join_type l r predicates _ =>
      _ ← guard_or_panic (bool_decide (join_type = Inner));
      '(left_iter, left_cols) ← physical_plan_to_op_iterator_helper l;
      '(right_iter, right_cols) ← physical_plan_to_op_iterator_helper r;
      lchild ← result_unwrap left_iter;
      rchild ← result_unwrap right_iter;
      let new_schema := Schema.merge (dyn_schema lchild) (dyn_schema rchild) in
      let new_cols := shift_cols left_cols right_cols (Schema.size (dyn_schema lchild)) in
      match predicates with
      | [Binary op le re] =>
          let '(left_col, right_col) := sides l le re in
          lcode ← convert left_col (Some left_cols);
          rcode ← convert right_col (Some right_cols);
          Ret (Ok (DNestedLoopJoin (Nested.new op lcode rcode lchild rchild new_schema)), new_cols)
      | _ => Panic
      end
  | PHashJoin join_type l r predicates _ =>
      _ ← guard_or_panic (bool_decide (join_type = Inner));
      '(left_iter, left_cols) ← physical_plan_to_op_iterator_helper l;
      '(right_iter, right_cols) ← physical_plan_to_op_iterator_helper r;
      lchild ← result_unwrap left_iter;
      rchild ← result_unwrap right_iter;
      let new_schema := Schema.merge (dyn_schema lchild) (dyn_schema rchild) in
      let new_cols := shift_cols left_cols right_cols (Schema.size (dyn_schema lchild)) in
      match predicates with
      | [Binary OpEq le re] =>
          let '(left_col, right_col) := sides l le re in
          lcode ← convert left_col (Some left_cols);
          rcode ← convert right_col (Some right_cols);
          Ret (Ok (DHashEqJoin (HashEq.new new_schema lcode rcode lchild rchild)), new_cols)
      | _ => Panic
      end
  | PHashAggregate src group_by aggrs _ =>
      '(src_iter, col_id_to_idx) ← physical_plan_to_op_iterator_helper src;
      child ← result_unwrap src_iter;
      let attr := λ id, offset ← unwrap (col_id_to_idx !! id);
                        unwrap (Schema.get_attribute (dyn_schema child) offset) in
      group_atts ← each attr group_by;
      agg_atts ← each (λ '(_, (id, op)), a ← attr id; Ret (AggOp_to_attr op a)) aggrs;
      group_by_exprs ← each (λ id, convert (ColRef id) (Some col_id_to_idx)) group_by;
      aggr_exprs ← each (λ '(_, (id, _)), convert (ColRef id) (Some col_id_to_idx)) aggrs;
      agg_iter ← Agg.new group_by_exprs aggr_exprs aggrs.*2.*2 (Schema.new (group_atts ++ agg_atts)) child;
      Ret (Ok (DAggregate agg_iter),
           number_cols (number_cols ∅ 0 group_by) (zlen group_by) aggrs.*1)
  | PMap input exprs _ =>
      '(src_iter, col_id_to_idx) ← physical_plan_to_op_iterator_helper input;
      child ← result_unwrap src_iter;
      let in_schema := dyn_schema child in
      old_fields ← each (λ i, convert (ColRef i) None) (range (Schema.size in_schema));
      new_fields ← each (λ e, convert e.2 (Some col_id_to_idx)) exprs;
      new_atts ← each (λ e, to_attr format_date print_subquery e.2 in_schema col_id_to_idx) exprs;
      Ret (Ok (DProject (Proj.new (old_fields ++ new_fields) (Schema.new (attributes in_schema ++ new_atts)) child)),
           number_cols col_id_to_idx (Schema.size in_schema) exprs.*1)
  | _ => Ret (Err (ExecutionError "Malformed logical plan"), ∅)
  end.

Definition physical_plan_to_op_iterator (p : PhysicalRelExpr) : outcome (result CrustyError dyn) :=
  '(r, _) ← physical_plan_to_op_iterator_helper p;
  Ret r.
End Planner.
