(* ===== verification/PlanSem.v ===== *)
(** * The meaning of physical plans

    The reference semantics of physical plans: a relation is a list of rows, and a row maps
    column ids to values, so that nothing here speaks of positions, operators or byte
    code. [sem] is undefined where an expression has no value. [cols_of] is the static
    check of a plan: it gives the columns of the plan when every column an expression
    mentions is one its input has, and every join condition is one the planner handles. *)

From stdpp Require Import strings gmap.
From S2P Require Import Prelude Common Ordering Field Tuple ByteCode Expr OpIterator.
From S2P Require Import OpAggregate DbCatalog PhysicalPlan.

Open Scope Z_scope.

Abbreviation row := (gmap Z Field).

Definition to_option {A} (o : outcome A) : option A := match o with Ret a => Some a | Panic => None end.

Definition eval_row {P} (ρ : row) (e : Expression P) : option Field :=
  to_option (eval_expr (λ id, ρ !! id) e).

Definition truth {P} (ρ : row) (e : Expression P) : option bool :=
  match eval_row ρ e with Some (FBool b) => Some b | _ => None end.

(** The row with [cols] bound to [vals], one after the other. *)
Fixpoint bind_cols (ρ : row) (cols : list Z) (vals : list Field) : row :=
  match cols, vals with
  | id :: cols, v :: vals => bind_cols (<[id := v]> ρ) cols vals
  | _, _ => ρ
  end.

(** A map with its keys renamed. *)
Definition rename_keys {V} (src_to_dest : gmap Z Z) (m : gmap Z V) : gmap Z V :=
  foldl (λ acc '(old, v), <[renamed src_to_dest old := v]> acc) ∅ (map_to_list m).

(** ** Relations *)

Fixpoint sem_select {P} (e : Expression P) (rows : list row) : option (list row) :=
  match rows with
  | [] => Some []
  | ρ :: rows => b ← truth ρ e; rs ← sem_select e rows; Some (if (b : bool) then ρ :: rs else rs)
  end.

Fixpoint sem_selects {P} (es : list (Expression P)) (rows : list row) : option (list row) :=
  match es with
  | [] => Some rows
  | e :: es => rows ← sem_select e rows; sem_selects es rows
  end.

(** The row of a pair of rows. *)
Definition both (ρl ρr : row) : row := ρr ∪ ρl.

Definition sem_product (L R : list row) : list row := L ≫= λ ρl, both ρl <$> R.

(** A join on a condition: the pairs of rows that satisfy it. *)
Fixpoint theta_row {P} (e : Expression P) (ρl : row) (R : list row) : option (list row) :=
  match R with
  | [] => Some []
  | ρr :: R =>
      b ← truth (both ρl ρr) e; rs ← theta_row e ρl R;
      Some (if (b : bool) then both ρl ρr :: rs else rs)
  end.
Fixpoint sem_theta {P} (e : Expression P) (L R : list row) : option (list row) :=
  match L with
  | [] => Some []
  | ρl :: L => xs ← theta_row e ρl R; ys ← sem_theta e L R; Some (xs ++ ys)
  end.

(** An equality join on two keys, by right row and then by left row. *)
Fixpoint keyed_rows {P} (e : Expression P) (L : list row) : option (list (Field * row)) :=
  match L with
  | [] => Some []
  | ρ :: L => k ← eval_row ρ e; kl ← keyed_rows e L; Some ((k, ρ) :: kl)
  end.
Fixpoint equi_rows {P} (kl : list (Field * row)) (e : Expression P) (R : list row) : option (list row) :=
  match R with
  | [] => Some []
  | ρr :: R =>
      k ← eval_row ρr e; rs ← equi_rows kl e R;
      Some (((λ ρl, both ρl ρr) <$> (List.filter (λ p, bool_decide (p.1 = k)) kl).*2) ++ rs)
  end.

(** Grouping: the key and the aggregated values of every row, accumulated by key. *)
Definition sem_aggregate (ops : list AggOp) (l : list (list Field * list Field)) : outcome (list Tuple) :=
  acc ← foldM (λ (acc : accumulator) '(k, vals),
                 g ← Agg.add_to_group ops (acc !! k) vals; Ret (<[k := g]> acc)) ∅ l;
  Agg.finish ops (sort_by Agg.key_le (map_to_list acc)).

(** ** Plans *)

(** Which operand of an equality is the key of the left input. *)
Definition left_key (l : PhysicalRelExpr) (a b : Expression PhysicalRelExpr) :
  Expression PhysicalRelExpr * Expression PhysicalRelExpr :=
  if Expr.intersect_with a l then (a, b) else (b, a).

Section Sem.
Context `{TupleCodec} (tbl : Z → option (list item)).

(** The row of a record that has the columns [cols]. *)
Definition scan_row (cols : list Z) (x : item) : option row :=
  t ← to_option (tuple_from_bytes x.1);
  vs ← mapM (λ id, Tup.get_field t (get_column_index_from_temp_col_id id)) cols;
  Some (bind_cols ∅ cols vs).

Fixpoint sem (p : PhysicalRelExpr) : option (list row) :=
  match p with
  | PScan cid _ cols _ => items ← tbl cid; mapM (scan_row cols) items
  | PProject src cols _ =>
      rows ← sem src; mapM (λ ρ, vs ← mapM (λ id, ρ !! id) cols; Some (bind_cols ∅ cols vs)) rows
  | PRename src m _ => rows ← sem src; Some (map (rename_keys m) rows)
  | PSelect src preds _ => rows ← sem src; sem_selects preds rows
  | PCrossJoin _ l r preds _ => L ← sem l; R ← sem r; sem_selects preds (sem_product L R)
  | PNestedLoopJoin _ l r [e] _ => L ← sem l; R ← sem r; sem_theta e L R
  | PHashJoin _ l r [Binary OpEq a b] _ =>
      L ← sem l; R ← sem r;
      let '(x, y) := left_key l a b in
      kl ← keyed_rows x L; equi_rows kl y R
  | PHashAggregate src group_by aggrs _ =>
      rows ← sem src;
      vals ← mapM (λ ρ : row, k ← mapM (λ id, ρ !! id) group_by; vs ← mapM (λ id, ρ !! id) aggrs.*2.*1; Some (k, vs)) rows;
      out ← to_option (sem_aggregate aggrs.*2.*2 vals);
      Some (map (λ t, bind_cols ∅ (group_by ++ aggrs.*1) (field_vals t)) out)
  | PMap input exprs _ =>
      rows ← sem input; mapM (λ ρ, vs ← mapM (eval_row ρ) exprs.*2; Some (bind_cols ρ exprs.*1 vs)) rows
  | _ => None
  end.
End Sem.

(** ** The static check *)

Definition comparison_op (op : BinaryOp) : bool :=
  match op with OpEq | OpNeq | OpLt | OpLe | OpGt | OpGe => true | _ => false end.
(** Operators whose operands can be exchanged. *)
Definition symmetric_op (op : BinaryOp) : bool := match op with OpEq | OpNeq => true | _ => false end.

Section Check.
Context (catalog : Catalog).

(** An expression that can be compiled, over the columns [c]. *)
Definition expr_ok (c : gset Z) (e : Expression PhysicalRelExpr) : bool :=
  supported e && bool_decide (Expr.free e ⊆ c).

(** A condition on two inputs: each operand is over one of them, and the one over the
    left input mentions it. The operands are exchanged only under a symmetric operator. *)
Definition condition_ok (l : PhysicalRelExpr) (cl cr : gset Z) (op : BinaryOp)
    (a b : Expression PhysicalRelExpr) : bool :=
  comparison_op op &&
  (if Expr.intersect_with a l then expr_ok cl a && expr_ok cr b
   else symmetric_op op && expr_ok cl b && expr_ok cr a).

Fixpoint cols_of (p : PhysicalRelExpr) : option (gset Z) :=
  match p with
  | PScan cid _ cols _ =>
      schema ← Cat.get_table_schema catalog cid;
      if forallb (λ id, get_column_index_from_temp_col_id id <? Schema.size schema) cols
      then Some (list_to_set cols) else None
  | PProject src cols _ =>
      c ← cols_of src;
      if bool_decide (Forall (λ id, id ∈ c) cols) then Some (list_to_set cols) else None
  | PRename src m _ =>
      c ← cols_of src;
      if bool_decide (Forall (λ id, is_Some (m !! id)) (elements c)) &&
         bool_decide (NoDup (renamed m <$> elements c))
      then Some (list_to_set (renamed m <$> elements c)) else None
  | PSelect src preds _ => c ← cols_of src; if forallb (expr_ok c) preds then Some c else None
  | PCrossJoin _ l r preds _ =>
      cl ← cols_of l; cr ← cols_of r;
      if forallb (expr_ok (cl ∪ cr)) preds then Some (cl ∪ cr) else None
  | PNestedLoopJoin Inner l r [Binary op a b] _ =>
      cl ← cols_of l; cr ← cols_of r;
      if bool_decide (cl ## cr) && condition_ok l cl cr op a b then Some (cl ∪ cr) else None
  | PHashJoin Inner l r [Binary OpEq a b] _ =>
      cl ← cols_of l; cr ← cols_of r;
      if condition_ok l cl cr OpEq a b then Some (cl ∪ cr) else None
  | PHashAggregate src group_by aggrs _ =>
      c ← cols_of src;
      if bool_decide (Forall (λ id, id ∈ c) group_by) && bool_decide (Forall (λ id, id ∈ c) aggrs.*2.*1)
      then Some (list_to_set (group_by ++ aggrs.*1)) else None
  | PMap input exprs _ =>
      c ← cols_of input;
      if forallb (expr_ok c) exprs.*2 then Some (c ∪ list_to_set exprs.*1) else None
  | _ => None
  end.
End Check.
