(* ===== verification/PlanRel.v ===== *)
(** * Rows as tuples

    Relates the relational operations on rows, the reference semantics of plans, to the
    operations on tuples the operators perform: a tuple represents a row when it has the
    columns of the row at the positions the planner computed. *)

From stdpp Require Import strings gmap.
From S2P Require Import Prelude Common Ordering StorageSpec Field FieldContract FieldCodec.
From S2P Require Import Tuple ByteCode Expr ExprCorrect.
From S2P Require Import OpIterator OpBasic OpJoin OpJoinLaws OpSort OpAggregate.
From S2P Require Import OpAggregateCorrect DbCatalog.
From S2P Require Import PhysicalPlan OpMutate OpDyn PlanToOp PlanSem.

Open Scope Z_scope.

(** ** Loops *)

Lemma each_ok {A B} (f : A → outcome B) l :
  Forall (λ x, ∃ y, f x = Ret y) l → ∃ ys, each f l = Ret ys ∧ Forall2 (λ x y, f x = Ret y) l ys.
Proof.
  induction 1 as [|x l [y Hy] _ (ys & E & Hys)]; [by exists []|].
  exists (y :: ys). simpl. rewrite Hy, E. by split; [|constructor].
Qed.

Lemma zlen_Forall2 {A B} (P : A → B → Prop) l k : Forall2 P l k → zlen l = zlen k.
Proof. intros HF. unfold zlen. by rewrite (Forall2_length _ _ _ HF). Qed.

Lemma nth_u_app_l {A} (l k : list A) i : i < zlen l → nth_u (l ++ k) i = nth_u l i.
Proof.
  intros Hi. destruct (Z.ltb_spec i 0); [unfold nth_u; by rewrite (proj2 (Z.leb_gt 0 i))|].
  rewrite !nth_u_lookup by done. apply lookup_app_l. len.
Qed.

Lemma nth_u_app_r {A} (l k : list A) i : 0 ≤ i → nth_u (l ++ k) (i + zlen l) = nth_u k i.
Proof.
  intros Hi. rewrite !nth_u_lookup by (pose proof (zlen_nonneg l); lia).
  rewrite lookup_app_r by len. f_equal. len.
Qed.

Lemma get_attribute_ok s i : 0 ≤ i < Schema.size s → ∃ a, Schema.get_attribute s i = Some a.
Proof.
  intros Hi. unfold Schema.get_attribute. rewrite (proj2 (Z.ltb_ge i 0)) by lia.
  apply lookup_lt_is_Some_2. unfold Schema.size in Hi. len.
Qed.

(** ** Where the columns are *)

Definition in_range (m : gmap Z Z) (n : Z) : Prop := ∀ id i, m !! id = Some i → 0 ≤ i < n.

(** The tuple fields [fs] have the columns of row [ρ] at the positions [m]. *)
Definition agrees (m : gmap Z Z) (ρ : row) (fs : list Field) : Prop :=
  ∀ id, ρ !! id = (i ← m !! id; nth_u fs i).

Definition represents (m : gmap Z Z) (n : Z) (ρ : row) (t : Tuple) : Prop :=
  agrees m ρ (field_vals t) ∧ zlen (field_vals t) = n.

Lemma number_in_range m i cols :
  0 ≤ i → in_range m i → in_range (number_cols m i cols) (i + zlen cols).
Proof.
  revert m i. induction cols as [|c cols IH]; intros m i Hi Hm; simpl.
  - by rewrite Z.add_0_r.
  - replace (i + zlen (c :: cols)) with (i + 1 + zlen cols) by len. apply IH; [lia|].
    intros id j. rewrite lookup_insert_Some. intros [[_ <-]|[_ Hj]]; [lia|]. specialize (Hm id j Hj). lia.
Qed.

Lemma number_dom m i cols : dom (number_cols m i cols) = dom m ∪ list_to_set cols.
Proof.
  revert m i. induction cols as [|c cols IH]; intros m i; simpl; [set_solver|].
  rewrite IH, dom_insert_L. set_solver.
Qed.

Lemma agrees_empty : agrees ∅ ∅ [].
Proof. intros id. by rewrite !lookup_empty. Qed.

Lemma agrees_app m ρ fs gs : in_range m (zlen fs) → agrees m ρ fs → agrees m ρ (fs ++ gs).
Proof.
  intros Hm Ha id. rewrite Ha. destruct (m !! id) as [i|] eqn:E; [|done]. simpl.
  symmetry. apply nth_u_app_l. by apply (Hm id).
Qed.

Lemma number_agrees m ρ fs cols vs :
  in_range m (zlen fs) → agrees m ρ fs → length vs = length cols →
  agrees (number_cols m (zlen fs) cols) (bind_cols ρ cols vs) (fs ++ vs).
Proof.
  revert m ρ fs vs. induction cols as [|c cols IH]; intros m ρ fs vs Hm Ha Hl; destruct vs as [|v vs]; try done.
  - by rewrite app_nil_r.
  - simpl. replace (fs ++ v :: vs) with ((fs ++ [v]) ++ vs) by (by rewrite <-app_assoc).
    replace (zlen fs + 1) with (zlen (fs ++ [v])) by len. apply IH; [| |simpl in Hl; lia].
    + intros id i. rewrite lookup_insert_Some. intros [[_ <-]|[_ Hi]]; [len|]. specialize (Hm id i Hi). len.
    + intros id. destruct (decide (id = c)) as [->|Hne].
      * rewrite !lookup_insert_eq. simpl. symmetry. exact (nth_u_app_r fs [v] 0 ltac:(lia)).
      * rewrite !lookup_insert_ne by done. by apply agrees_app.
Qed.

Lemma shift_in_range ml mr nl nr :
  in_range ml nl → in_range mr nr → 0 ≤ nl → 0 ≤ nr → in_range (shift_cols ml mr nl) (nl + nr).
Proof.
  intros Hl Hr Hnl Hnr id i. unfold shift_cols. rewrite lookup_union_Some_raw, lookup_fmap, fmap_Some.
  intros [(j & Hj & ->)|[_ Hi]]; [specialize (Hr id j Hj)|specialize (Hl id i Hi)]; lia.
Qed.

Lemma shift_dom ml mr n : dom (shift_cols ml mr n) = dom ml ∪ dom mr.
Proof. unfold shift_cols. rewrite dom_union_L, dom_fmap_L. set_solver. Qed.

Lemma agrees_both ml mr ρl ρr fl fr :
  in_range ml (zlen fl) → in_range mr (zlen fr) → agrees ml ρl fl → agrees mr ρr fr →
  agrees (shift_cols ml mr (zlen fl)) (both ρl ρr) (fl ++ fr).
Proof.
  intros Hml Hmr Hl Hr id. unfold both, shift_cols. rewrite !lookup_union, lookup_fmap, Hr.
  destruct (mr !! id) as [i|] eqn:E; simpl.
  - pose proof (Hmr id i E) as Hi. rewrite union_Some_l. simpl. rewrite nth_u_app_r by lia.
    destruct (nth_u fr i) eqn:Ei; [by rewrite union_Some_l|]. exfalso.
    rewrite nth_u_lookup in Ei by lia. apply lookup_ge_None in Ei. unfold zlen in Hi. lia.
  - rewrite !(left_id_L None _). by apply agrees_app.
Qed.

Lemma represents_both ml mr nl nr ρl ρr tl tr :
  in_range ml nl → in_range mr nr → represents ml nl ρl tl → represents mr nr ρr tr →
  represents (shift_cols ml mr nl) (nl + nr) (both ρl ρr) (Tup.merge tl tr).
Proof.
  intros Hml Hmr [Hl <-] [Hr <-]. split; [by apply agrees_both|]. simpl. len.
Qed.

(** ** Expressions *)

(** The byte code [bc] computes [e] on tuples with the columns at [m]. *)
Definition computes (m : gmap Z Z) (e : Expression PhysicalRelExpr) (bc : ByteCodeExpr) : Prop :=
  ∀ ρ t, agrees m ρ (field_vals t) → Bce.eval bc t = eval_expr (λ id, ρ !! id) e.

Lemma convert_computes m e :
  expr_ok (dom m) e = true → ∃ bc, convert e (Some m) = Ret bc ∧ computes m e bc.
Proof.
  unfold expr_ok. rewrite andb_true_iff, bool_decide_eq_true. intros [Hs Hf].
  pose proof (convert_ok e (Some m)) as Hc. rewrite Hs in Hc. destruct Hc as (bc & E & Heval).
  exists bc. unfold convert. rewrite E. split; [done|]. intros ρ t Ha. rewrite Heval.
  apply eval_expr_free. intros id Hid. unfold bound_cols. rewrite Ha.
  apply Hf, elem_of_dom in Hid as [i Hi]. unfold renamed. by rewrite Hi.
Qed.

Lemma convert_col m id i :
  m !! id = Some i → ∃ bc, convert (ColRef id) (Some m) = Ret bc ∧ computes m (ColRef id) bc.
Proof.
  intros Hi. apply convert_computes. unfold expr_ok. simpl. apply bool_decide_eq_true.
  intros j ->%elem_of_singleton. apply elem_of_dom. eauto.
Qed.

(** A reference to a position. *)
Lemma convert_pos i : ∃ bc, convert (ColRef i) None = Ret bc ∧ ∀ t, Bce.eval bc t = unwrap (nth_u (field_vals t) i).
Proof. destruct (convert_ok (ColRef (P := PhysicalRelExpr) i) None) as (bc & E & Heval). exists bc. unfold convert. by rewrite E. Qed.

Lemma computes_value m e bc ρ t :
  computes m e bc → agrees m ρ (field_vals t) → value bc t = eval_row ρ e.
Proof. intros Hc Ha. unfold value. by rewrite (Hc ρ t Ha). Qed.

Lemma computes_holds m e bc ρ t :
  computes m e bc → agrees m ρ (field_vals t) → holds bc t = truth ρ e.
Proof.
  intros Hc Ha. unfold holds, truth, eval_row. rewrite (Hc ρ t Ha).
  by destruct (eval_expr _ e) as [[]|].
Qed.

(** Columns evaluated one by one. *)
Lemma computes_cols m cols bcs ρ t :
  Forall2 (λ id bc, computes m (ColRef id) bc) cols bcs → agrees m ρ (field_vals t) →
  values bcs t = mapM (λ id, ρ !! id) cols.
Proof.
  intros HF Ha. unfold values. induction HF as [|id bc cols bcs Hc _ IH]; simpl; [done|].
  rewrite (Hc ρ t Ha). simpl. destruct (ρ !! id) as [v|]; [|done]. simpl.
  destruct (eval_all bcs t) as [vs|]; simpl in *; by rewrite <-IH.
Qed.

Lemma computes_exprs m es bcs ρ t :
  Forall2 (computes m) es bcs → agrees m ρ (field_vals t) → values bcs t = mapM (eval_row ρ) es.
Proof.
  intros HF Ha. unfold values. induction HF as [|e bc es bcs Hc _ IH]; simpl; [done|].
  rewrite <-(computes_value m e bc ρ t Hc Ha). unfold value. destruct (Bce.eval bc t) as [v|]; [|done]. simpl.
  destruct (eval_all bcs t) as [vs|]; simpl in *; by rewrite <-IH.
Qed.

Lemma values_app es fs t : values (es ++ fs) t = (xs ← values es t; ys ← values fs t; Some (xs ++ ys)).
Proof.
  unfold values. induction es as [|e es IH]; simpl; [by destruct (eval_all fs t)|].
  destruct (Bce.eval e t) as [v|]; [|done]. simpl.
  destruct (eval_all es t) as [xs|], (eval_all fs t) as [ys|], (eval_all (es ++ fs) t) as [zs|]; simpl in *;
    congruence.
Qed.

(** ** Relations *)

Lemma select_rows m n e bc rows ts rows' :
  computes m e bc → Forall2 (represents m n) rows ts → sem_select e rows = Some rows' →
  ∃ ts', select bc ts = Some ts' ∧ Forall2 (represents m n) rows' ts'.
Proof.
  intros Hc HF. revert rows'. induction HF as [|ρ t rows ts Hr _ IH]; intros rows' E; simpl in E.
  { injection E as <-. by exists []. }
  destruct (truth ρ e) as [b|] eqn:Eb; [|done]. simpl in E.
  destruct (sem_select e rows) as [rs|]; [|done]. injection E as <-.
  destruct (IH rs eq_refl) as (ts' & Es & HF'). simpl.
  rewrite (computes_holds m e bc ρ t Hc (proj1 Hr)), Eb, Es. simpl.
  eexists. split; [done|]. destruct b; [by constructor|done].
Qed.

(** A projection of every row. *)
Lemma project_rows m n m' n' es (f : row → option row) rows ts rows' :
  (∀ ρ t ρ', represents m n ρ t → f ρ = Some ρ' → ∃ fs, values es t = Some fs ∧ represents m' n' ρ' (Tup.new fs)) →
  Forall2 (represents m n) rows ts → mapM f rows = Some rows' →
  ∃ ts', project es ts = Some ts' ∧ Forall2 (represents m' n') rows' ts'.
Proof.
  intros Hf HF. revert rows'. induction HF as [|ρ t rows ts Hr _ IH]; intros rows' E; simpl in E.
  { injection E as <-. by exists []. }
  destruct (f ρ) as [ρ'|] eqn:Eρ; [|done]. simpl in E.
  destruct (mapM f rows) as [rs|]; [|done]. injection E as <-.
  destruct (IH rs eq_refl) as (ts' & Es & HF'). destruct (Hf ρ t ρ' Hr Eρ) as (fs & Ev & Hr').
  simpl. rewrite Ev, Es. eexists. split; [done|]. by constructor.
Qed.

Section Pairs.
Context (ml mr : gmap Z Z) (nl nr : Z) (Hml : in_range ml nl) (Hmr : in_range mr nr).
Notation pair_rep := (represents (shift_cols ml mr nl) (nl + nr)).

Lemma product_row ρl tl Rρ Rt :
  represents ml nl ρl tl → Forall2 (represents mr nr) Rρ Rt →
  Forall2 pair_rep (both ρl <$> Rρ) (Tup.merge tl <$> Rt).
Proof.
  intros Hl HF. induction HF; [constructor|]. rewrite !fmap_cons. constructor; [|done].
  by apply represents_both.
Qed.

Lemma product_rows Lρ Lt Rρ Rt :
  Forall2 (represents ml nl) Lρ Lt → Forall2 (represents mr nr) Rρ Rt →
  Forall2 pair_rep (sem_product Lρ Rρ) (product Lt Rt).
Proof.
  intros HL HR. induction HL as [|ρ t Lρ Lt Hr _ IH]; [constructor|].
  unfold sem_product, product in *. rewrite !bind_cons. apply Forall2_app; [by apply product_row|done].
Qed.

Lemma theta_rows (e : Expression PhysicalRelExpr) (c : Tuple → Tuple → option bool) Lρ Lt Rρ Rt rows :
  (∀ ρl ρr tl tr, represents ml nl ρl tl → represents mr nr ρr tr → c tl tr = truth (both ρl ρr) e) →
  Forall2 (represents ml nl) Lρ Lt → Forall2 (represents mr nr) Rρ Rt → sem_theta e Lρ Rρ = Some rows →
  ∃ ts, join c Lt Rt = Some ts ∧ Forall2 pair_rep rows ts.
Proof.
  intros Hc HL HR. assert (∀ ρl tl xs, represents ml nl ρl tl → theta_row e ρl Rρ = Some xs →
    ∃ ts, join_row c tl Rt = Some ts ∧ Forall2 pair_rep xs ts) as Hrow.
  { intros ρl tl xs Hl. revert xs. induction HR as [|ρr tr Rρ Rt Hr _ IH]; intros xs E; simpl in E.
    { injection E as <-. by exists []. }
    rewrite <-(Hc ρl ρr tl tr Hl Hr) in E. simpl. destruct (c tl tr) as [b|]; [|done]. simpl in E.
    destruct (theta_row e ρl Rρ) as [rs|]; [|done]. injection E as <-.
    destruct (IH rs eq_refl) as (ts & -> & HF). simpl. eexists. split; [done|].
    destruct b; [constructor; [by apply represents_both|done]|done]. }
  revert rows. induction HL as [|ρl tl Lρ Lt Hl _ IH]; intros rows E; simpl in E.
  { injection E as <-. by exists []. }
  destruct (theta_row e ρl Rρ) as [xs|] eqn:Ex; [|done]. simpl in E.
  destruct (sem_theta e Lρ Rρ) as [ys|]; [|done]. injection E as <-.
  destruct (Hrow ρl tl xs Hl Ex) as (ts1 & E1 & HF1). destruct (IH ys eq_refl) as (ts2 & E2 & HF2).
  simpl. rewrite E1, E2. eexists. split; [done|]. by apply Forall2_app.
Qed.

Lemma keyed_rows_ok (x : Expression PhysicalRelExpr) lc Lρ Lt klρ :
  computes ml x lc → Forall2 (represents ml nl) Lρ Lt → keyed_rows x Lρ = Some klρ →
  ∃ kl, keyed lc Lt = Some kl ∧ Forall2 (λ p q, p.1 = q.1 ∧ represents ml nl p.2 q.2) klρ kl.
Proof.
  intros Hc HL. revert klρ. induction HL as [|ρ t Lρ Lt Hr _ IH]; intros klρ E; simpl in E.
  { injection E as <-. by exists []. }
  simpl. rewrite (computes_value _ _ _ ρ t Hc (proj1 Hr)). destruct (eval_row ρ x) as [k|]; [|done]. simpl in E.
  destruct (keyed_rows x Lρ) as [kl'|]; [|done]. injection E as <-.
  destruct (IH kl' eq_refl) as (kl & -> & HF). eexists. split; [done|]. by constructor.
Qed.

Lemma bucket_rows klρ kl k ρr tr :
  Forall2 (λ p q, p.1 = q.1 ∧ represents ml nl p.2 q.2) klρ kl → represents mr nr ρr tr →
  Forall2 pair_rep ((λ ρl, both ρl ρr) <$> (List.filter (λ p, bool_decide (p.1 = k)) klρ).*2)
    ((λ l, Tup.merge l tr) <$> bucket kl k).
Proof.
  intros HF Hr. unfold bucket. induction HF as [|[k1 ρ] [k2 t] klρ kl [Hk Ht] _ IH]; [constructor|].
  simpl in *. subst k2. case_bool_decide; [|done]. rewrite !fmap_cons. constructor; [|done].
  by apply represents_both.
Qed.

Lemma equi_rows_ok (y : Expression PhysicalRelExpr) rc klρ kl Rρ Rt rows :
  computes mr y rc → Forall2 (λ p q, p.1 = q.1 ∧ represents ml nl p.2 q.2) klρ kl →
  Forall2 (represents mr nr) Rρ Rt → equi_rows klρ y Rρ = Some rows →
  ∃ ts, hash_rows kl rc Rt = Some ts ∧ Forall2 pair_rep rows ts.
Proof.
  intros Hc Hk HR. revert rows. induction HR as [|ρ t Rρ Rt Hr _ IH]; intros rows E; simpl in E.
  { injection E as <-. by exists []. }
  simpl. rewrite (computes_value _ _ _ ρ t Hc (proj1 Hr)). destruct (eval_row ρ y) as [k|]; [|done]. simpl in E.
  destruct (equi_rows klρ y Rρ) as [rs|]; [|done]. injection E as <-.
  destruct (IH rs eq_refl) as (ts & -> & HF). simpl. eexists. split; [done|].
  apply Forall2_app; [by apply bucket_rows|done].
Qed.
End Pairs.

(** ** Grouping *)

(** What the code evaluates of a tuple is the key and the values of the row. *)
Definition groups_as (gb ae : list ByteCodeExpr) (kv : list Field * list Field) (t : Tuple) : Prop :=
  eval_all gb t = Ret kv.1 ∧ eval_all ae t = Ret kv.2.

Lemma accumulate_rows (gb ae : list ByteCodeExpr) (ops : list AggOp) (kvs : list (list Field * list Field)) (ts : list Tuple) (acc : accumulator) :
  Forall2 (groups_as gb ae) kvs ts →
  foldM (Agg.merge_tuple_into_group gb ae ops) acc ts =
  foldM (λ (acc : accumulator) '(k, vals), g ← Agg.add_to_group ops (acc !! k) vals; Ret (<[k := g]> acc)) acc kvs.
Proof.
  intros HF. revert acc. induction HF as [|[k vs] t kvs ts [Hk Hv] _ IH]; intros acc; [done|].
  cbn [foldM]. simpl in Hk, Hv.
  assert (Agg.merge_tuple_into_group gb ae ops acc t =
    (g ← Agg.add_to_group ops (acc !! k) vs; Ret (<[k := g]> acc))) as ->.
  { unfold Agg.merge_tuple_into_group. by rewrite Hk, Hv. }
  destruct (Agg.add_to_group ops (acc !! k) vs) as [g|]; [|done]. simpl. apply IH.
Qed.

Lemma aggregate_rows gb ae ops kvs ts :
  Forall2 (groups_as gb ae) kvs ts → Agg.aggregate gb ae ops ts = sem_aggregate ops kvs.
Proof. intros HF. unfold Agg.aggregate, sem_aggregate. by rewrite (accumulate_rows _ _ _ _ _ _ HF). Qed.

(** Every group has a key of length [g] and one value per aggregate. *)
Definition group_sizes (g a : nat) (acc : accumulator) : Prop :=
  map_Forall (λ k v, length k = g ∧ length v.2 = a) acc.

Lemma add_to_group_length ops g vals g' :
  length vals = length ops → (∀ x, g = Some x → length x.2 = length ops) →
  Agg.add_to_group ops g vals = Ret g' → length g'.2 = length ops.
Proof.
  intros Hv Hg. destruct g as [[n accs]|]; simpl.
  - specialize (Hg _ eq_refl). simpl in Hg. destruct (Agg.merge_all ops vals accs) as [accs'|] eqn:E; [|done].
    intros [= <-]. simpl. apply merge_all_length in E. lia.
  - intros [= <-]. simpl. unfold Agg.init_group. rewrite length_zip_with. lia.
Qed.

Lemma accumulate_sizes ops g kvs acc acc' :
  Forall (λ kv, length kv.1 = g ∧ length kv.2 = length ops) kvs → group_sizes g (length ops) acc →
  foldM (λ (acc : accumulator) '(k, vals), g ← Agg.add_to_group ops (acc !! k) vals; Ret (<[k := g]> acc)) acc kvs
    = Ret acc' → group_sizes g (length ops) acc'.
Proof.
  intros HF. revert acc. induction HF as [|[k vs] kvs [Hk Hv] _ IH]; intros acc Hacc E; simpl in E.
  { by injection E as <-. }
  destruct (Agg.add_to_group ops (acc !! k) vs) as [x|] eqn:Ex; [|done]. simpl in *.
  apply (add_to_group_length _ _ _ _ Hv) in Ex; [|intros y Hy; by apply Hacc in Hy as [_ ?]].
  refine (IH _ _ E). by apply map_Forall_insert_2.
Qed.

Lemma finish_fields_length n ops vals fs :
  length vals = length ops → Agg.finish_fields n ops vals = Ret fs → length fs = length ops.
Proof.
  revert vals fs. induction ops as [|op ops IH]; intros [|v vals] fs Hl E; simpl in *; try done; try congruence.
  { by injection E as <-. }
  destruct (Agg.finish_field n op v); [|done]. simpl in E.
  destruct (Agg.finish_fields n ops vals) as [fs'|] eqn:E'; [|done]. injection E as <-.
  simpl. f_equal. by apply (IH vals); [lia|].
Qed.

Lemma finish_lengths ops g entries out :
  Forall (λ '(k, v), length k = g ∧ length v.2 = length ops) entries → Agg.finish ops entries = Ret out →
  Forall (λ t, length (field_vals t) = (g + length ops)%nat) out.
Proof.
  intros HF. revert out. induction HF as [|[k [n vals]] entries [Hk Hv] _ IH]; intros out E; simpl in *.
  { by injection E as <-. }
  destruct (Agg.finish_fields n ops vals) as [fs|] eqn:Ef; [|done]. simpl in E.
  destruct (Agg.finish ops entries) as [ts|]; [|done]. injection E as <-. constructor; [|by apply IH].
  simpl. rewrite length_app. apply finish_fields_length in Ef; [lia|done].
Qed.

Lemma aggregate_lengths ops g kvs out :
  Forall (λ kv, length kv.1 = g ∧ length kv.2 = length ops) kvs → sem_aggregate ops kvs = Ret out →
  Forall (λ t, length (field_vals t) = (g + length ops)%nat) out.
Proof.
  intros HF. unfold sem_aggregate. destruct (foldM _ ∅ kvs) as [acc|] eqn:E; [|done]. simpl. intros Ef.
  apply (accumulate_sizes ops g) in E; [|done|apply map_Forall_empty].
  eapply finish_lengths; [|exact Ef]. rewrite (sort_by_Permutation Agg.key_le).
  apply Forall_forall. intros [k v] Hkv%elem_of_map_to_list. exact (E k v Hkv).
Qed.

(** ** Renaming *)

Lemma foldl_insert_Some {V} (f : Z → Z) (l : list (Z * V)) (acc : gmap Z V) k v :
  NoDup (f <$> l.*1) →
  foldl (λ acc '(old, v), <[f old := v]> acc) acc l !! k = Some v ↔
  (∃ old, (old, v) ∈ l ∧ f old = k) ∨ (acc !! k = Some v ∧ k ∉ f <$> l.*1).
Proof.
  revert acc. induction l as [|[old w] l IH]; intros acc Hnd.
  - simpl. split; [intros ?; right; by split; [|apply not_elem_of_nil]|].
    intros [(? & ?%elem_of_nil & _)|[? _]]; done.
  - rewrite !fmap_cons in Hnd. apply NoDup_cons in Hnd as [Hnew Hnd]. simpl in Hnew.
    simpl foldl. rewrite IH, lookup_insert_Some, !fmap_cons, not_elem_of_cons by done. simpl fst. split.
    + intros [(o & ? & <-)|[[[<- <-]|[? ?]] ?]]; [left|left|right; by split_and!].
      * exists o. split; [by right|done].
      * exists old. split; [left|done].
    + intros [(o & [[= -> ->]|?]%elem_of_cons & <-)|[? [? ?]]].
      * right. split; [by left|done].
      * left. by exists o.
      * right. split; [right|done]. by split.
Qed.

(** No two columns of [D] get the same name. *)
Definition inj_on (f : Z → Z) (D : gset Z) : Prop := ∀ a b, a ∈ D → b ∈ D → f a = f b → a = b.

Lemma NoDup_inj_on f (D : gset Z) : NoDup (f <$> elements D) → inj_on f D.
Proof.
  intros Hnd a b Ha%elem_of_elements Hb%elem_of_elements E.
  apply list_elem_of_lookup in Ha as [i Hi], Hb as [j Hj].
  assert (i = j) as ->; [|congruence].
  apply (NoDup_lookup _ i j (f a) Hnd); rewrite list_lookup_fmap, ?Hi, ?Hj; simpl; congruence.
Qed.

Lemma keys_in_dom {V} (m : gmap Z V) k : k ∈ (map_to_list m).*1 → k ∈ dom m.
Proof. intros ([k' v] & -> & Hk%elem_of_map_to_list)%list_elem_of_fmap. apply elem_of_dom. eauto. Qed.

Lemma rename_keys_Some {V} s (m : gmap Z V) k v :
  inj_on (renamed s) (dom m) →
  rename_keys s m !! k = Some v ↔ ∃ old, m !! old = Some v ∧ renamed s old = k.
Proof.
  intros Hinj. unfold rename_keys. rewrite foldl_insert_Some.
  - setoid_rewrite elem_of_map_to_list. rewrite lookup_empty. naive_solver.
  - apply NoDup_fmap_2_strong; [|apply NoDup_fst_map_to_list].
    intros a b Ha Hb. apply Hinj; by apply keys_in_dom.
Qed.

Lemma rename_agrees s m ρ fs :
  inj_on (renamed s) (dom m) → agrees m ρ fs → agrees (rename_keys s m) (rename_keys s ρ) fs.
Proof.
  intros Hinj Ha id. assert (inj_on (renamed s) (dom ρ)) as Hinj'.
  { assert (dom ρ ⊆ dom m) as Hsub; [|intros a b Ha' Hb'; apply Hinj; by apply Hsub].
    intros i [v Hv]%elem_of_dom. rewrite Ha in Hv. destruct (m !! i) eqn:E; [|done].
    apply elem_of_dom. eauto. }
  apply option_eq. intros v. rewrite rename_keys_Some, bind_Some by done.
  setoid_rewrite (rename_keys_Some _ _ _ _ Hinj). setoid_rewrite Ha. setoid_rewrite bind_Some. naive_solver.
Qed.

Lemma rename_in_range s m n : inj_on (renamed s) (dom m) → in_range m n → in_range (rename_keys s m) n.
Proof. intros Hinj Hm id i (old & Hi & _)%rename_keys_Some; [|done]. by apply (Hm old). Qed.

Lemma rename_dom {V} s (m : gmap Z V) :
  inj_on (renamed s) (dom m) → dom (rename_keys s m) = list_to_set (renamed s <$> elements (dom m)).
Proof.
  intros Hinj. apply set_eq. intros id. rewrite elem_of_dom, elem_of_list_to_set, list_elem_of_fmap.
  unfold is_Some. setoid_rewrite (rename_keys_Some _ _ _ _ Hinj). setoid_rewrite elem_of_elements.
  setoid_rewrite elem_of_dom. unfold is_Some. naive_solver.
Qed.

Lemma rename_cols_ok m s :
  Forall (λ id, is_Some (s !! id)) (elements (dom m)) → rename_cols m s = Ret (rename_keys s m).
Proof.
  intros HF. unfold rename_cols, rename_keys.
  assert (Forall (λ p, is_Some (s !! p.1)) (map_to_list m)) as HF'.
  { apply Forall_forall. intros [k v] Hkv%elem_of_map_to_list.
    rewrite Forall_forall in HF. apply HF, elem_of_elements, elem_of_dom. eauto. }
  clear HF. generalize (∅ : gmap Z Z).
  induction HF' as [|[k v] l [d Hd] _ IH]; intros acc; simpl in *; [done|].
  unfold renamed at 2. rewrite Hd. simpl. apply IH.
Qed.
