(* ===== verification/PlanCorrect.v ===== *)
(** * Planning is correct

    The operator tree the planner makes of a plan that passes the static check gives the
    rows of the reference semantics, each as a tuple with the columns where the planner
    says they are. One lemma per kind of plan, then induction on the plan. *)

From stdpp Require Import strings gmap.
From S2P Require Import Prelude Common Ordering StorageSpec Field FieldContract FieldCodec.
From S2P Require Import Tuple ByteCode Expr ExprCorrect.
From S2P Require Import OpIterator OpBasic OpJoin OpJoinLaws OpRun OpSort.
From S2P Require Import OpAggregate OpAggregateCorrect.
From S2P Require Import DbCatalog PhysicalPlan OpMutate OpDyn PlanToOp PlanSem PlanRel.

Open Scope Z_scope.

Section Correct.
Context {SM : Type} {scan : ScanTrait SM} {tbl : Z → option (list item)} {scan_laws : ScanLaws SM tbl}.
Context `{StorageTrait SM} `{IndexTrait SM} `{StateTracker SM} {codec : TupleCodec}.
Context (format_date : Z → list byte) (print_subquery : PhysicalRelExpr → Z → list byte).
Context (catalog : Catalog) (transaction_id : Z).
Notation dyn := (DynOp SM).
Notation plan := (physical_plan_to_op_iterator_helper (SM := SM) format_date print_subquery catalog transaction_id).
Notation cols_of := (cols_of catalog).
Notation sem := (sem tbl).
Notation contract := (dyn_contract (tbl := tbl)).

(** The number of columns of an operator. *)
Definition width (o : dyn) : Z := Schema.size (dyn_schema o).

(** The number of scans of a plan. *)
Fixpoint scans (p : PhysicalRelExpr) : nat :=
  match p with
  | PCrossJoin _ l r _ _ | PNestedLoopJoin _ l r _ _ | PHashJoin _ l r _ _ => scans l + scans r
  | PProject src _ _ | PRename src _ _ | PSelect src _ _ | PHashAggregate src _ _ _ | PMap src _ _ => scans src
  | _ => 1
  end.

(** Operator [o] gives tuples for [rows], with the columns at [m]; [k] bounds its loops,
    [n] the iterators it has. *)
Definition implements (k : nat) (o : dyn) (m : gmap Z Z) (n : nat) (rows : list row) : Prop :=
  ∃ ts, built (contract k) o ts n ∧ Forall2 (represents m (width o)) rows ts.

Record planned (p : PhysicalRelExpr) (c : gset Z) (o : dyn) (m : gmap Z Z) : Prop := {
  pl_plan : plan p = Ret (Ok o, m);
  pl_dom : dom m = c;
  pl_range : in_range m (width o);
  pl_rows rows : sem p = Some rows → ∃ k, implements k o m (scans p) rows
}.

Lemma width_nonneg o : 0 ≤ width o.
Proof. apply zlen_nonneg. Qed.

(** Bounds can be raised. *)
Lemma built_raise k k' (o : dyn) ts n : (k ≤ k')%nat → built (contract k) o ts n → built (contract k') o ts n.
Proof. intros Hk. by apply dyn_contract_mono. Qed.

(** ** Selections *)

Lemma filters_schema schema bcs child : dyn_schema child = schema → dyn_schema (filters schema bcs child) = schema.
Proof. unfold filters. revert child. induction bcs as [|bc bcs IH]; intros child Hc; simpl; [done|]. by apply IH. Qed.

Lemma filters_ok schema m k es bcs child n rows rows' :
  dyn_schema child = schema → Forall2 (computes m) es bcs →
  implements k child m n rows → sem_selects es rows = Some rows' →
  ∃ k', implements k' (filters schema bcs child) m n rows'.
Proof.
  intros Hs HF. revert k child rows Hs. induction HF as [|e bc es bcs Hc _ IH]; intros k child rows Hs (ts & Hb & Hrep) E.
  { injection E as <-. exists k, ts. done. }
  simpl in E. destruct (sem_select e rows) as [rows1|] eqn:E1; [|done]. simpl in E.
  destruct (select_rows m _ e bc rows ts rows1 Hc Hrep E1) as (ts1 & Es & Hrep1).
  apply (IH (S (k + S (length ts))) (DFilter (Filt.new bc schema child)) rows1); [done| |done].
  exists ts1. split; [|unfold width in *; simpl; by rewrite Hs in Hrep1].
  cbn. split; [done|]. exists ts. split_and!; [|done|lia]. by apply (built_raise k); [lia|].
Qed.

Lemma convert_each m es :
  forallb (expr_ok (dom m)) es = true →
  ∃ bcs, each (λ e, convert e (Some m)) es = Ret bcs ∧ Forall2 (computes m) es bcs.
Proof.
  intros Hes. induction es as [|e es IH]; [by exists []|]. simpl in Hes. apply andb_true_iff in Hes as [He Hes].
  destruct (IH Hes) as (bcs & E & HF). destruct (convert_computes m e He) as (bc & Ec & Hc).
  exists (bc :: bcs). simpl. rewrite Ec, E. by split; [|constructor].
Qed.

Lemma plan_select src c o m preds h :
  planned src c o m → forallb (expr_ok c) preds = true →
  ∃ o', planned (PSelect src preds h) c o' m.
Proof.
  intros [Hp Hd Hr Hrows] Hes. rewrite <-Hd in Hes. destruct (convert_each m preds Hes) as (bcs & E & HF).
  exists (filters (dyn_schema o) bcs o). split; [| |unfold width; by rewrite filters_schema|].
  - simpl. rewrite Hp, bind_Ret, E, bind_Ret. done.
  - done.
  - simpl. intros rows' Es. destruct (sem src) as [rows|]; [|done]. simpl in Es.
    destruct (Hrows rows eq_refl) as (k & Hi). by eapply filters_ok.
Qed.

(** ** Scans *)

Lemma convert_positions ids :
  ∃ bcs, each (λ i, convert (ColRef i) None) ids = Ret bcs ∧
    ∀ t, values bcs t = mapM (λ i, nth_u (field_vals t) i) ids.
Proof.
  induction ids as [|i ids (bcs & E & Hv)]; [by exists []|].
  destruct (convert_pos i) as (bc & Ec & Hc). exists (bc :: bcs).
  cbn [each]. rewrite Ec, bind_Ret, E. split; [done|]. intros t. specialize (Hv t). unfold values in *. simpl. rewrite Hc. destruct (nth_u (field_vals t) i); [|done]. simpl.
  destruct (eval_all bcs t); simpl in *; by rewrite <-Hv.
Qed.

Lemma each_map {A B C} (f : B → outcome C) (g : A → B) l : each (λ x, f (g x)) l = each f (g <$> l).
Proof. induction l as [|x l IH]; simpl; [done|]. by rewrite IH. Qed.

Lemma mapM_map {A B C} (f : B → option C) (g : A → B) l : mapM (λ x, f (g x)) l = mapM f (g <$> l).
Proof. induction l as [|x l IH]; simpl; [done|]. by rewrite IH. Qed.

Lemma scan_rows schema cid fields cols items rows :
  (∀ t, values fields t = mapM (λ id, Tup.get_field t (get_column_index_from_temp_col_id id)) cols) →
  mapM (scan_row cols) items = Some rows →
  ∃ ts, scan_tuples (SM := SM) (Seq.new schema cid None (Some fields)) items = Some ts ∧
    Forall2 (represents (number_cols ∅ 0 cols) (zlen cols)) rows ts.
Proof.
  intros Hf. revert rows. induction items as [|x items IH]; intros rows E; simpl in E.
  { injection E as <-. by exists []. }
  destruct (scan_row cols x) as [ρ|] eqn:Ex; [|done]. simpl in E.
  destruct (mapM (scan_row cols) items) as [rs|]; [|done]. injection E as <-.
  destruct (IH rs eq_refl) as (ts & Es & HF). cbn [scan_tuples]. unfold scan_row in Ex.
  unfold Seq.tuple_of. destruct (tuple_from_bytes x.1) as [t|]; [|done]. simpl in Ex |- *.
  pose proof (Hf (Tup.with_value_id t (Some x.2))) as Hft. unfold values, Tup.get_field in Hft. simpl in Hft.
  unfold Tup.get_field in Ex. rewrite <-Hft in Ex. destruct (eval_all fields _) as [vs|]; [|done].
  injection Ex as <-. simpl. rewrite Es. simpl. eexists. split; [done|]. constructor; [|done].
  symmetry in Hft. apply length_mapM in Hft. split; simpl; [|unfold zlen; congruence].
  apply (number_agrees ∅ ∅ []); [|apply agrees_empty|congruence]. intros ? ?. by rewrite lookup_empty.
Qed.

Lemma scan_attrs_ok schema cols :
  forallb (λ id, get_column_index_from_temp_col_id id <? Schema.size schema) cols = true →
  ∃ atts, scan_attrs schema cols = Ret atts ∧ zlen atts = zlen cols.
Proof.
  intros Hc. unfold scan_attrs. destruct (each_ok (λ n, unwrap (Schema.get_attribute schema (get_column_index_from_temp_col_id n))) cols)
    as (atts & E & HF).
  - apply Forall_forall. intros id Hid. rewrite forallb_forall in Hc.
    specialize (Hc id (proj1 (list_elem_of_In _ _) Hid)). apply Z.ltb_lt in Hc.
    destruct (get_attribute_ok schema (get_column_index_from_temp_col_id id)) as [a ->]; [|by exists a].
    split; [|done]. unfold get_column_index_from_temp_col_id, MAX_COLUMNS. apply Z.mod_pos_bound. lia.
  - exists atts. split; [done|]. symmetry. by eapply zlen_Forall2.
Qed.

Lemma plan_scan cid name cols h c :
  cols_of (PScan cid name cols h) = Some c → ∃ o m, planned (PScan cid name cols h) c o m.
Proof.
  simpl. destruct (Cat.get_table_schema catalog cid) as [schema|] eqn:Es; [|done]. simpl.
  destruct (forallb _ cols) eqn:Hc; [|done]. intros [= <-].
  destruct (scan_attrs_ok schema cols Hc) as (atts & Ea & Hn).
  destruct (convert_positions (get_column_index_from_temp_col_id <$> cols)) as (fields & Ef & Hv).
  rewrite <-each_map in Ef. setoid_rewrite <-mapM_map in Hv.
  exists (DSeqScan (Seq.new (Schema.new atts) cid None (Some fields))), (number_cols ∅ 0 cols). split.
  - simpl. rewrite Es. simpl. rewrite Ea. simpl. rewrite Ef. done.
  - rewrite number_dom. set_solver.
  - unfold width. simpl. unfold Schema.size. simpl. rewrite Hn, <-(Z.add_0_l (zlen cols)).
    apply number_in_range; [done|]. intros ? ?. by rewrite lookup_empty.
  - simpl. intros rows E. destruct (tbl cid) as [items|] eqn:Et; [|done]. simpl in E.
    destruct (scan_rows (Schema.new atts) cid fields cols items rows Hv E) as (ts & Ets & HF).
    exists (S (S (length items))), ts. split.
    + cbn. split_and!; try done. exists items. split_and!; [done..|lia].
    + unfold width. simpl. unfold Schema.size. simpl. by rewrite Hn.
Qed.

(** ** Projection, renaming, computed columns *)

Lemma convert_cols m cols :
  Forall (λ id, id ∈ dom m) cols →
  ∃ bcs, each (λ i, convert (ColRef i) (Some m)) cols = Ret bcs ∧ Forall2 (λ id bc, computes m (ColRef id) bc) cols bcs.
Proof.
  induction 1 as [|id cols [i Hi]%elem_of_dom _ (bcs & E & HF)]; [by exists []|].
  destruct (convert_col m id i Hi) as (bc & Ec & Hc). exists (bc :: bcs).
  cbn [each]. rewrite Ec, bind_Ret, E. by split; [|constructor].
Qed.

(** The attributes at the positions of columns. *)
Lemma attrs_ok (o : dyn) (m : gmap Z Z) cols :
  in_range m (width o) → Forall (λ id, id ∈ dom m) cols →
  ∃ atts, each (λ id, offset ← unwrap (m !! id); unwrap (Schema.get_attribute (dyn_schema o) offset)) cols = Ret atts ∧
    zlen atts = zlen cols.
Proof.
  intros Hr HF. induction HF as [|id cols [i Hi]%elem_of_dom _ (atts & E & Hl)]; [by exists []|].
  destruct (get_attribute_ok (dyn_schema o) i (Hr id i Hi)) as [a Ea]. exists (a :: atts).
  cbn [each]. rewrite Hi. simpl unwrap. rewrite bind_Ret, Ea. simpl. rewrite E. split; [done|]. len.
Qed.

Lemma attrs_by_index (o : dyn) (m : gmap Z Z) cols atts :
  each (λ id, offset ← unwrap (m !! id); unwrap (Schema.get_attribute (dyn_schema o) offset)) cols = Ret atts →
  ∃ idx, each (λ id, unwrap (m !! id)) cols = Ret idx ∧
    each (λ i, unwrap (Schema.get_attribute (dyn_schema o) i)) idx = Ret atts.
Proof.
  revert atts. induction cols as [|id cols IH]; intros atts E; cbn [each] in E.
  { injection E as <-. by exists []. }
  destruct (m !! id) as [i|] eqn:Hi; [|done]. simpl unwrap in E. rewrite bind_Ret in E.
  destruct (Schema.get_attribute (dyn_schema o) i) as [a|] eqn:Ea; [|done]. simpl unwrap in E. rewrite bind_Ret in E.
  destruct (each _ cols) as [as'|] eqn:E'; [|done]. injection E as <-.
  destruct (IH as' eq_refl) as (idx & E1 & E2). exists (i :: idx). cbn [each]. rewrite Hi. simpl unwrap.
  rewrite bind_Ret, E1, bind_Ret. split; [done|]. cbn [each]. rewrite Ea. simpl. by rewrite E2.
Qed.

(** The new columns of a tuple are numbered from 0. *)
Lemma represents_new cols vs :
  length vs = length cols → represents (number_cols ∅ 0 cols) (zlen cols) (bind_cols ∅ cols vs) (Tup.new vs).
Proof.
  intros Hl. split; [|unfold zlen; simpl; congruence].
  apply (number_agrees ∅ ∅ []); [|apply agrees_empty|done]. intros ? ?. by rewrite lookup_empty.
Qed.

Lemma number_range_new cols : in_range (number_cols ∅ 0 cols) (zlen cols).
Proof.
  rewrite <-(Z.add_0_l (zlen cols)). apply number_in_range; [done|]. intros ? ?. by rewrite lookup_empty.
Qed.

Lemma project_ok k (o : dyn) m n rows es schema (f : row → option row) m' rows' :
  (∀ ρ t ρ', represents m (width o) ρ t → f ρ = Some ρ' →
     ∃ fs, values es t = Some fs ∧ represents m' (Schema.size schema) ρ' (Tup.new fs)) →
  implements k o m n rows → mapM f rows = Some rows' →
  ∃ k', implements k' (DProject (Proj.new es schema o)) m' n rows'.
Proof.
  intros Hf (ts & Hb & Hrep) E. destruct (project_rows _ _ _ _ es f rows ts rows' Hf Hrep E) as (ts' & Ep & HF).
  exists (S k), ts'. split; [|done]. cbn. split; [done|]. by exists ts.
Qed.

Lemma plan_project src c o m cols h :
  planned src c o m → Forall (λ id, id ∈ c) cols →
  ∃ o' m', planned (PProject src cols h) (list_to_set cols) o' m'.
Proof.
  intros [Hp Hd Hr Hrows] Hcols. rewrite <-Hd in Hcols.
  destruct (attrs_ok o m cols Hr Hcols) as (atts & Ea & Hn). destruct (attrs_by_index _ _ _ _ Ea) as (idx & E1 & E2).
  destruct (convert_cols m cols Hcols) as (bcs & Ec & HF).
  exists (DProject (Proj.new bcs (Schema.new atts) o)), (number_cols ∅ 0 cols). split.
  - simpl. rewrite Hp, bind_Ret. simpl result_unwrap. rewrite bind_Ret, E1, bind_Ret, E2, bind_Ret, Ec. done.
  - rewrite number_dom. set_solver.
  - unfold width, Schema.size. simpl. rewrite Hn. apply number_range_new.
  - simpl. intros rows' E. destruct (sem src) as [rows|]; [|done]. simpl in E.
    destruct (Hrows rows eq_refl) as (k & Hi). eapply project_ok; [|exact Hi|exact E].
    intros ρ t ρ' [Ha _] Eρ. rewrite (computes_cols m cols bcs ρ t HF Ha).
    destruct (mapM _ cols) as [vs|] eqn:Ev; [|done]. injection Eρ as <-. exists vs. split; [done|].
    unfold Schema.size. simpl. rewrite Hn. apply represents_new. symmetry. by eapply length_mapM.
Qed.

Lemma plan_rename src c o m s h :
  planned src c o m → Forall (λ id, is_Some (s !! id)) (elements c) → NoDup (renamed s <$> elements c) →
  ∃ m', planned (PRename src s h) (list_to_set (renamed s <$> elements c)) o m'.
Proof.
  intros [Hp Hd Hr Hrows] Hs Hnd. subst c. pose proof (NoDup_inj_on _ _ Hnd) as Hinj.
  exists (rename_keys s m). split.
  - simpl. rewrite Hp, bind_Ret, rename_cols_ok by done. done.
  - by apply rename_dom.
  - by apply rename_in_range.
  - simpl. intros rows' E. destruct (sem src) as [rows|]; [|done]. injection E as <-.
    destruct (Hrows rows eq_refl) as (k & ts & Hb & HF). exists k, ts. split; [done|].
    apply Forall2_fmap_l. apply (Forall2_impl _ _ _ _ HF). intros ρ t [Ha Hn]. split; [|done].
    by apply rename_agrees.
Qed.

(** All positions of a tuple, in order. *)
Lemma positions_all (fs : list Field) : mapM (λ i, nth_u fs i) (range (zlen fs)) = Some fs.
Proof.
  unfold range. rewrite <-mapM_map. unfold zlen. rewrite Nat2Z.id.
  assert (∀ k n, (n + k = length fs)%nat → mapM (λ j, nth_u fs (Z.of_nat j)) (seq n k) = Some (drop n fs)) as G.
  { induction k as [|k IH]; intros n Hn; simpl.
    - by rewrite drop_ge by lia.
    - rewrite nth_u_nat. destruct (lookup_lt_is_Some_2 fs n) as [f Hf]; [lia|]. rewrite Hf. simpl.
      rewrite (IH (S n)) by lia. simpl. by rewrite (drop_S fs f n Hf). }
  by rewrite (G (length fs) 0%nat).
Qed.

Lemma to_attrs_ok (o : dyn) m exprs :
  in_range m (width o) → forallb (expr_ok (dom m)) exprs.*2 = true →
  ∃ atts, each (λ e : Z * Expression PhysicalRelExpr, to_attr format_date print_subquery e.2 (dyn_schema o) m) exprs = Ret atts ∧
    zlen atts = zlen exprs.
Proof.
  intros Hr Hes. destruct (each_ok (λ e : Z * Expression PhysicalRelExpr, to_attr format_date print_subquery e.2 (dyn_schema o) m) exprs)
    as (atts & E & HF); [|exists atts; split; [done|]; symmetry; by eapply zlen_Forall2].
  apply Forall_forall. intros [id e] He. rewrite forallb_forall in Hes. specialize (Hes e).
  assert (expr_ok (dom m) e = true) as Hok by (apply Hes, list_elem_of_In, list_elem_of_fmap; by exists (id, e)).
  clear Hes He. simpl. unfold expr_ok in Hok. apply andb_true_iff in Hok as [Hs Hf%bool_decide_eq_true].
  induction e as [j|v|op l IHl r IHr|ex IHex whens el IHel|q]; simpl in *; try done.
  - assert (j ∈ dom m) as [i Hi]%elem_of_dom by set_solver. rewrite Hi. simpl.
    destruct (get_attribute_ok (dyn_schema o) i (Hr j i Hi)) as [a ->]. by exists a.
  - eauto.
  - apply andb_true_iff in Hs as [Hsl _]. destruct (IHl Hsl) as [a ->]; [set_solver|]. simpl. destruct op; eauto.
Qed.

Lemma plan_map src c o m exprs h :
  planned src c o m → forallb (expr_ok c) exprs.*2 = true →
  ∃ o' m', planned (PMap src exprs h) (c ∪ list_to_set exprs.*1) o' m'.
Proof.
  intros [Hp Hd Hr Hrows] Hes. subst c. destruct (to_attrs_ok o m exprs Hr Hes) as (atts & Ea & Hn).
  destruct (convert_each m exprs.*2 Hes) as (news & En & HF). rewrite <-(each_map (λ e, convert e (Some m)) snd) in En.
  destruct (convert_positions (range (width o))) as (olds & Eo & Hv).
  assert (Schema.size (Schema.new (attributes (dyn_schema o) ++ atts)) = width o + zlen exprs) as Hw
    by (unfold Schema.size, width; simpl; rewrite <-Hn; unfold Schema.size; len).
  exists (DProject (Proj.new (olds ++ news) (Schema.new (attributes (dyn_schema o) ++ atts)) o)),
    (number_cols m (width o) exprs.*1). split.
  - simpl. rewrite Hp, bind_Ret. simpl result_unwrap. rewrite bind_Ret. unfold width in Eo.
    rewrite Eo, bind_Ret, En, bind_Ret, Ea. done.
  - by rewrite number_dom.
  - unfold width at 2. simpl dyn_schema. rewrite Hw. replace (zlen exprs) with (zlen exprs.*1) by len.
    apply number_in_range; [apply width_nonneg|done].
  - simpl. intros rows' E. destruct (sem src) as [rows|]; [|done]. simpl in E.
    destruct (Hrows rows eq_refl) as (k & Hi). eapply project_ok; [|exact Hi|exact E].
    intros ρ t ρ' [Ha Hl] Eρ. destruct (mapM (eval_row ρ) exprs.*2) as [vs|] eqn:Ev; [|done]. injection Eρ as <-.
    exists (field_vals t ++ vs). rewrite values_app, Hv, (computes_exprs m _ news ρ t HF Ha), Ev, <-Hl, positions_all.
    split; [done|]. apply length_mapM in Ev. rewrite length_fmap in Ev. split.
    + simpl. apply number_agrees; [by rewrite Hl|done|by rewrite length_fmap].
    + rewrite Hw, <-Hl. simpl. unfold zlen. rewrite length_app. lia.
Qed.

(** ** Joins *)

Lemma merge_size s t : Schema.size (Schema.merge s t) = Schema.size s + Schema.size t.
Proof. unfold Schema.size, Schema.merge, Schema.new. simpl. len. Qed.

Lemma width_merge (lo ro o : dyn) :
  dyn_schema o = Schema.merge (dyn_schema lo) (dyn_schema ro) → width o = width lo + width ro.
Proof. unfold width. intros ->. apply merge_size. Qed.

Lemma cross_ok k k' (lo ro : dyn) ml mr n1 n2 L R :
  in_range ml (width lo) → in_range mr (width ro) → implements k lo ml n1 L → implements k' ro mr n2 R →
  ∃ k'', implements k'' (DCrossJoin (Cross.new (Schema.merge (dyn_schema lo) (dyn_schema ro)) lo ro))
    (shift_cols ml mr (width lo)) (n1 + n2) (sem_product L R).
Proof.
  intros Hl Hr (tl & Hbl & HL) (tr & Hbr & HR). exists (S (k + k' + S (S (length tl)))), (product tl tr). split.
  - cbn. split; [done|]. exists tl, tr, n1, n2. split_and!; [done|..|done|lia]; (eapply built_raise; [|eassumption]; lia).
  - rewrite (width_merge lo ro (DCrossJoin _)) by done. by apply product_rows.
Qed.

Lemma plan_cross jt l r cl cr lo ro ml mr preds h :
  planned l cl lo ml → planned r cr ro mr → forallb (expr_ok (cl ∪ cr)) preds = true →
  ∃ o m, planned (PCrossJoin jt l r preds h) (cl ∪ cr) o m.
Proof.
  intros [Hpl <- Hrl Hrowsl] [Hpr <- Hrr Hrowsr] Hes. rewrite <-(shift_dom ml mr (width lo)) in Hes.
  destruct (convert_each _ preds Hes) as (bcs & E & HF).
  eexists (filters (Schema.merge (dyn_schema lo) (dyn_schema ro)) bcs (DCrossJoin (Cross.new _ lo ro))), _. split.
  - simpl. rewrite Hpl, bind_Ret, Hpr, bind_Ret. simpl result_unwrap. rewrite !bind_Ret. unfold width in E. by rewrite E.
  - apply shift_dom.
  - rewrite (width_merge lo ro (filters _ _ _)) by (by apply filters_schema). apply shift_in_range; [done|done|apply width_nonneg..].
  - simpl. intros rows Es. destruct (sem l) as [L|]; [|done]. destruct (sem r) as [R|]; [|done]. simpl in Es.
    destruct (Hrowsl L eq_refl) as (k & Hl), (Hrowsr R eq_refl) as (k' & Hr).
    destruct (cross_ok k k' lo ro ml mr _ _ L R Hrl Hrr Hl Hr) as (k'' & Hi). by eapply filters_ok.
Qed.

(** An operand over one input has the same value on the row of a pair. *)
Lemma eval_left ml mr ρl ρr fl fr e :
  dom ml ## dom mr → agrees ml ρl fl → agrees mr ρr fr → expr_ok (dom ml) e = true →
  eval_expr (λ id, both ρl ρr !! id) e = eval_expr (λ id, ρl !! id) e.
Proof.
  intros Hdis Hl Hr He. apply andb_true_iff in He as [_ Hf%bool_decide_eq_true]. apply eval_expr_free.
  intros id Hid. unfold both. rewrite lookup_union_r; [done|]. rewrite Hr.
  replace (mr !! id) with (@None Z); [done|]. symmetry. apply not_elem_of_dom. set_solver.
Qed.

Lemma eval_right ml mr ρl ρr fl fr e :
  in_range mr (zlen fr) → agrees ml ρl fl → agrees mr ρr fr → expr_ok (dom mr) e = true →
  eval_expr (λ id, both ρl ρr !! id) e = eval_expr (λ id, ρr !! id) e.
Proof.
  intros Hin Hl Hr He. apply andb_true_iff in He as [_ Hf%bool_decide_eq_true]. apply eval_expr_free.
  intros id Hid. apply Hf, elem_of_dom in Hid as [i Hi]. unfold both.
  destruct (ρr !! id) as [v|] eqn:Ev; [by rewrite (lookup_union_Some_l _ _ _ _ Ev)|].
  exfalso. pose proof (Hin id i Hi). rewrite Hr, Hi in Ev. simpl in Ev. rewrite nth_u_lookup in Ev by lia.
  apply lookup_ge_None in Ev. unfold zlen in *. lia.
Qed.

Lemma compare_sym op a b : symmetric_op op = true → compare_fields op a b = compare_fields op b a.
Proof. intros Ho. destruct op; try done; simpl; do 2 f_equal; try f_equal; by apply bool_decide_ext. Qed.

Lemma truth_comparison ρ op (a b : Expression PhysicalRelExpr) :
  comparison_op op = true →
  truth ρ (Binary op a b) =
    (x ← eval_row ρ a; y ← eval_row ρ b; to_option (compare_fields op x y)).
Proof.
  intros Ho. unfold truth, eval_row. simpl. destruct (eval_expr _ a) as [x|]; [|done]. simpl.
  destruct (eval_expr _ b) as [y|]; [|done]. simpl. by destruct op.
Qed.

(** The condition the operator checks is the condition of the plan. *)
Lemma condition_meets l op a b ml mr nl nr (lo ro : dyn) schema lc rc ρl ρr tl tr :
  dom ml ## dom mr → in_range mr nr → condition_ok l (dom ml) (dom mr) op a b = true →
  computes ml (sides l a b).1 lc → computes mr (sides l a b).2 rc →
  represents ml nl ρl tl → represents mr nr ρr tr →
  meets (Nested.new op lc rc lo ro schema) tl tr = truth (both ρl ρr) (Binary op a b).
Proof.
  intros Hdis Hr Hok Hlc Hrc [Hl _] [Ha <-]. apply andb_true_iff in Hok as [Hop Hok].
  rewrite truth_comparison by done. unfold meets, Nested.matches. simpl nl_left_expr. simpl nl_right_expr. simpl nl_op.
  rewrite (Hlc ρl tl Hl), (Hrc ρr tr Ha). unfold sides, eval_row in *. destruct (Expr.intersect_with a l); simpl fst; simpl snd.
  - apply andb_true_iff in Hok as [Hx Hy].
    rewrite (eval_left ml mr ρl ρr (field_vals tl) (field_vals tr) a) by done.
    rewrite (eval_right ml mr ρl ρr (field_vals tl) (field_vals tr) b) by done.
    destruct (eval_expr _ a); [|done]. by destruct (eval_expr _ b).
  - apply andb_true_iff in Hok as [[Hsym Hx]%andb_true_iff Hy].
    rewrite (eval_left ml mr ρl ρr (field_vals tl) (field_vals tr) b) by done.
    rewrite (eval_right ml mr ρl ρr (field_vals tl) (field_vals tr) a) by done.
    destruct (eval_expr _ b) as [y|], (eval_expr _ a) as [x|]; simpl; try done. by rewrite (compare_sym op y x).
Qed.

Lemma condition_compiles l op a b (ml mr : gmap Z Z) :
  condition_ok l (dom ml) (dom mr) op a b = true →
  ∃ lc rc, convert (sides l a b).1 (Some ml) = Ret lc ∧ computes ml (sides l a b).1 lc ∧
    convert (sides l a b).2 (Some mr) = Ret rc ∧ computes mr (sides l a b).2 rc.
Proof.
  intros [_ Hok]%andb_true_iff. unfold sides. destruct (Expr.intersect_with a l).
  - apply andb_true_iff in Hok as [Hx Hy]. destruct (convert_computes ml a Hx) as (lc & ? & ?).
    destruct (convert_computes mr b Hy) as (rc & ? & ?). eauto 10.
  - apply andb_true_iff in Hok as [[_ Hx]%andb_true_iff Hy]. destruct (convert_computes ml b Hx) as (lc & ? & ?).
    destruct (convert_computes mr a Hy) as (rc & ? & ?). eauto 10.
Qed.

Lemma plan_nested l r cl cr lo ro ml mr op a b h :
  planned l cl lo ml → planned r cr ro mr → cl ## cr → condition_ok l cl cr op a b = true →
  ∃ o m, planned (PNestedLoopJoin Inner l r [Binary op a b] h) (cl ∪ cr) o m.
Proof.
  intros [Hpl <- Hrl Hrowsl] [Hpr <- Hrr Hrowsr] Hdis Hok.
  destruct (condition_compiles _ _ _ _ _ _ Hok) as (lc & rc & El & Hlc & Er & Hrc).
  eexists (DNestedLoopJoin (Nested.new op lc rc lo ro (Schema.merge (dyn_schema lo) (dyn_schema ro)))), _. split.
  - simpl. rewrite Hpl, bind_Ret, Hpr, bind_Ret. simpl result_unwrap. rewrite !bind_Ret.
    destruct (sides l a b) as [x y]. simpl in El, Er. rewrite El, bind_Ret, Er. done.
  - apply shift_dom.
  - rewrite (width_merge lo ro (DNestedLoopJoin _)) by done. apply shift_in_range; [done|done|apply width_nonneg..].
  - simpl. intros rows Es. destruct (sem l) as [L|]; [|done]. destruct (sem r) as [R|]; [|done]. simpl in Es.
    destruct (Hrowsl L eq_refl) as (k & tl & Hbl & HL), (Hrowsr R eq_refl) as (k' & tr & Hbr & HR).
    destruct (theta_rows ml mr (width lo) (width ro) Hrl Hrr (Binary op a b)
      (meets (Nested.new op lc rc lo ro (Schema.merge (dyn_schema lo) (dyn_schema ro)))) L tl R tr rows) as (ts & Ej & HF);
      [|done..|].
    { intros ρl ρr t1 t2 ? ?. by eapply (condition_meets l). }
    exists (S (k + k' + S (rounds tl tr tr))), ts. split; [|by rewrite (width_merge lo ro (DNestedLoopJoin _))].
    cbn. split; [done|]. exists tl, tr, (scans l), (scans r). split_and!; [done|..|done|lia]; (eapply built_raise; [|eassumption]; lia).
Qed.

Lemma plan_hash l r cl cr lo ro ml mr a b h :
  planned l cl lo ml → planned r cr ro mr → condition_ok l cl cr OpEq a b = true →
  ∃ o m, planned (PHashJoin Inner l r [Binary OpEq a b] h) (cl ∪ cr) o m.
Proof.
  intros [Hpl <- Hrl Hrowsl] [Hpr <- Hrr Hrowsr] Hok.
  destruct (condition_compiles _ _ _ _ _ _ Hok) as (lc & rc & El & Hlc & Er & Hrc).
  eexists (DHashEqJoin (HashEq.new (Schema.merge (dyn_schema lo) (dyn_schema ro)) lc rc lo ro)), _. split.
  - simpl. rewrite Hpl, bind_Ret, Hpr, bind_Ret. simpl result_unwrap. rewrite !bind_Ret.
    destruct (sides l a b) as [x y]. simpl in El, Er. rewrite El, bind_Ret, Er. done.
  - apply shift_dom.
  - rewrite (width_merge lo ro (DHashEqJoin _)) by done. apply shift_in_range; [done|done|apply width_nonneg..].
  - simpl. intros rows Es. destruct (sem l) as [L|]; [|done]. destruct (sem r) as [R|]; [|done]. simpl in Es.
    destruct (Hrowsl L eq_refl) as (k & tl & Hbl & HL), (Hrowsr R eq_refl) as (k' & tr & Hbr & HR).
    change (left_key l a b) with (sides l a b) in Es. destruct (sides l a b) as [x y]. simpl in Hlc, Hrc.
    destruct (keyed_rows x L) as [klρ|] eqn:Ek; [|done]. simpl in Es.
    destruct (keyed_rows_ok _ _ x lc L tl klρ Hlc HL Ek) as (kl & Ekl & Hk).
    destruct (equi_rows_ok ml mr _ _ Hrl Hrr y rc klρ kl R tr rows Hrc Hk HR Es) as (ts & Et & HF).
    exists (S (k + k' + S (length tl + S (length tr)))), ts. split; [|by rewrite (width_merge lo ro (DHashEqJoin _))].
    cbn. split_and!; [done|done|]. exists tl, tr, kl, (scans l), (scans r).
    split_and!; [done|..|done|done|lia|lia]; (eapply built_raise; [|eassumption]; lia).
Qed.

(** ** Aggregation *)

Lemma agg_attrs_ok (o : dyn) (m : gmap Z Z) (aggrs : list (Z * (Z * AggOp))) :
  in_range m (width o) → Forall (λ id, id ∈ dom m) aggrs.*2.*1 →
  ∃ atts, each (λ '(_, (id, op)), a ← (offset ← unwrap (m !! id); unwrap (Schema.get_attribute (dyn_schema o) offset));
                                  Ret (AggOp_to_attr op a)) aggrs = Ret atts ∧ zlen atts = zlen aggrs.
Proof.
  intros Hr HF. induction aggrs as [|[d [id op]] aggrs IH]; [by exists []|].
  rewrite !fmap_cons in HF. apply Forall_cons in HF as [[i Hi]%elem_of_dom HF]. destruct (IH HF) as (atts & E & Hl).
  destruct (get_attribute_ok (dyn_schema o) i (Hr _ i Hi)) as [a Ea]. exists (AggOp_to_attr op a :: atts).
  cbn [each]. simpl in Hi. rewrite Hi. simpl unwrap. rewrite bind_Ret, Ea. simpl unwrap. rewrite !bind_Ret, E. split; [done|]. len.
Qed.

Lemma agg_exprs_each (m : gmap Z Z) (aggrs : list (Z * (Z * AggOp))) :
  each (λ '(_, (id, _)), convert (ColRef id) (Some m)) aggrs = each (λ i, convert (ColRef i) (Some m)) aggrs.*2.*1.
Proof. induction aggrs as [|[d [id op]] aggrs IH]; [done|]. rewrite !fmap_cons. cbn [each]. by rewrite IH. Qed.

(** The keys and values of rows are what the code evaluates on their tuples. *)
Lemma groups_rows m n gcols acols gb ae rows ts kvs :
  Forall2 (λ id bc, computes m (ColRef id) bc) gcols gb → Forall2 (λ id bc, computes m (ColRef id) bc) acols ae →
  Forall2 (represents m n) rows ts →
  mapM (λ ρ : row, k ← mapM (λ id, ρ !! id) gcols; vs ← mapM (λ id, ρ !! id) acols; Some (k, vs)) rows = Some kvs →
  Forall2 (groups_as gb ae) kvs ts ∧ Forall (λ kv, length kv.1 = length gcols ∧ length kv.2 = length acols) kvs.
Proof.
  intros Hg Ha HF. revert kvs. induction HF as [|ρ t rows ts [Hr _] _ IH]; intros kvs E; simpl in E.
  { injection E as <-. by split. }
  destruct (mapM (λ id, ρ !! id) gcols) as [k|] eqn:Ek; [|done]. simpl in E.
  destruct (mapM (λ id, ρ !! id) acols) as [vs|] eqn:Ev; [|done]. simpl in E.
  destruct (mapM _ rows) as [kvs'|]; [|done]. injection E as <-. destruct (IH kvs' eq_refl) as [IH1 IH2].
  split; constructor; try done.
  - split; simpl; apply values_Some; [by rewrite (computes_cols m _ _ ρ t Hg Hr)|by rewrite (computes_cols m _ _ ρ t Ha Hr)].
  - split; simpl; symmetry; by eapply length_mapM.
Qed.

Lemma number_app m i xs ys : number_cols m i (xs ++ ys) = number_cols (number_cols m i xs) (i + zlen xs) ys.
Proof.
  revert m i. induction xs as [|x xs IH]; intros m i; simpl; [by rewrite Z.add_0_r|]. rewrite IH. f_equal. len.
Qed.

Lemma plan_aggregate src c o m group_by aggrs h :
  planned src c o m → Forall (λ id, id ∈ c) group_by → Forall (λ id, id ∈ c) aggrs.*2.*1 →
  ∃ o' m', planned (PHashAggregate src group_by aggrs h) (list_to_set (group_by ++ aggrs.*1)) o' m'.
Proof.
  intros [Hp <- Hr Hrows] Hg Ha.
  destruct (attrs_ok o m group_by Hr Hg) as (gatts & Eg & Hng), (agg_attrs_ok o m aggrs Hr Ha) as (aatts & Ea & Hna).
  destruct (convert_cols m group_by Hg) as (gb & Egb & Hgb), (convert_cols m aggrs.*2.*1 Ha) as (ae & Eae & Hae).
  assert (length ae = length aggrs) as Hlen by (apply Forall2_length in Hae; rewrite !length_fmap in Hae; done).
  assert (Schema.size (Schema.new (gatts ++ aatts)) = zlen (group_by ++ aggrs.*1)) as Hw
    by (unfold Schema.size; simpl; unfold zlen in *; rewrite !length_app, length_fmap; lia).
  exists (DAggregate (mkAggregate (Schema.new (gatts ++ aatts)) gb ae aggrs.*2.*2 o true false ∅ [] 0)),
    (number_cols ∅ 0 (group_by ++ aggrs.*1)). split.
  - simpl. rewrite Hp, bind_Ret. simpl result_unwrap. rewrite bind_Ret, Eg, bind_Ret, Ea, bind_Ret, Egb, bind_Ret,
      agg_exprs_each, Eae, bind_Ret. unfold Agg.new.
    rewrite (proj2 (Z.eqb_eq _ _)) by (unfold zlen; rewrite !length_fmap; lia). simpl. by rewrite number_app.
  - rewrite number_dom. set_solver.
  - unfold width. simpl dyn_schema. rewrite Hw. apply number_range_new.
  - simpl. intros rows' E. destruct (sem src) as [rows|]; [|done]. simpl in E.
    destruct (Hrows rows eq_refl) as (k & ts & Hb & HF).
    destruct (mapM _ rows) as [kvs|] eqn:Ekv; [|done]. simpl in E.
    destruct (groups_rows _ _ _ _ _ _ _ _ _ Hgb Hae HF Ekv) as [Hgr Hsz].
    destruct (sem_aggregate aggrs.*2.*2 kvs) as [out|] eqn:Eo; [|done]. injection E as <-.
    exists (S (k + S (length ts))), out. split.
    + cbn. split_and!; try done. exists ts. split_and!; [by apply (built_raise k); [lia|]| |lia].
      by rewrite (aggregate_rows _ _ _ _ _ Hgr).
    + unfold width. simpl dyn_schema. rewrite Hw. rewrite !length_fmap in Hsz.
      apply (aggregate_lengths _ (length group_by)) in Eo; [|by rewrite !length_fmap].
      apply Forall2_fmap_l, Forall_Forall2_diag. apply (Forall_impl _ _ _ Eo). intros [tid0 vid fs] Hl. simpl in Hl.
      apply (represents_new (group_by ++ aggrs.*1) fs). rewrite length_app, !length_fmap in *. lia.
Qed.

(** ** All plans *)

Lemma plan_ok p c : cols_of p = Some c → ∃ o m, planned p c o m.
Proof.
  revert c. induction p; intros c E; try done.
  - by apply plan_scan.
  - simpl in E. destruct (cols_of p) as [c0|]; [|done]. simpl in E. destruct (forallb _ _) eqn:Hes; [|done].
    injection E as <-. destruct (IHp c0 eq_refl) as (o & m & Hp).
    destruct (plan_select _ _ _ _ predicates tree_hash Hp Hes) as [o' Ho]. eauto.
  - simpl in E. destruct (cols_of p1) as [cl|]; [|done]. destruct (cols_of p2) as [cr|]; [|done]. simpl in E.
    destruct (forallb _ _) eqn:Hes; [|done]. injection E as <-.
    destruct (IHp1 cl eq_refl) as (lo & ml & Hl), (IHp2 cr eq_refl) as (ro & mr & Hr). by eapply plan_cross.
  - destruct join_type, predicates as [|[| |op a b| |] [|]]; try done. simpl in E.
    destruct (cols_of p1) as [cl|]; [|done]. destruct (cols_of p2) as [cr|]; [|done]. simpl in E.
    destruct (bool_decide _ && _) eqn:Hes; [|done]. injection E as <-.
    apply andb_true_iff in Hes as [Hd%bool_decide_eq_true Hok].
    destruct (IHp1 cl eq_refl) as (lo & ml & Hl), (IHp2 cr eq_refl) as (ro & mr & Hr). by eapply plan_nested.
  - destruct join_type, predicates as [|[| |[] a b| |] [|]]; try done. simpl in E.
    destruct (cols_of p1) as [cl|]; [|done]. destruct (cols_of p2) as [cr|]; [|done]. simpl in E.
    destruct (condition_ok _ _ _ _ _ _) eqn:Hok; [|done]. injection E as <-.
    destruct (IHp1 cl eq_refl) as (lo & ml & Hl), (IHp2 cr eq_refl) as (ro & mr & Hr). by eapply plan_hash.
  - simpl in E. destruct (cols_of p) as [c0|]; [|done]. simpl in E. case_bool_decide; [|done].
    injection E as <-. destruct (IHp c0 eq_refl) as (o & m & Hp). by eapply plan_project.
  - simpl in E. destruct (cols_of p) as [c0|]; [|done]. simpl in E.
    destruct (bool_decide _ && _) eqn:Hes; [|done]. injection E as <-.
    apply andb_true_iff in Hes as [Hg%bool_decide_eq_true Ha%bool_decide_eq_true].
    destruct (IHp c0 eq_refl) as (o & m & Hp). by eapply plan_aggregate.
  - simpl in E. destruct (cols_of p) as [c0|]; [|done]. simpl in E. destruct (forallb _ _) eqn:Hes; [|done].
    injection E as <-. destruct (IHp c0 eq_refl) as (o & m & Hp). by eapply plan_map.
  - simpl in E. destruct (cols_of p) as [c0|]; [|done]. simpl in E.
    destruct (bool_decide _ && _) eqn:Hes; [|done]. injection E as <-.
    apply andb_true_iff in Hes as [Hs%bool_decide_eq_true Hnd%bool_decide_eq_true].
    destruct (IHp c0 eq_refl) as (o & m & Hp). destruct (plan_rename _ _ _ _ _ tree_hash Hp Hs Hnd) as [m' Hm]. eauto.
Qed.
End Correct.
