(* ===== verification/Executor.v ===== *)
(** * Running plans

    Models the executor ([queryexe/src/query/executor.rs]), [run_physical_plan] of
    [server/src/conductor.rs] and the results of queries
    ([common/src/query/query_result.rs]). The theorem of the query layer: running a plan
    that passes the static check gives the rows of its reference semantics and leaves the
    storage manager with no iterator running. *)

From stdpp Require Import gmap.
From stdpp Require Import strings gmap.
From S2P Require Import Prelude Common StorageSpec MemStore MemStoreSpec MemStoreContract.
From S2P Require Import Ordering Field.
From S2P Require Import FieldCodec FieldContract Tuple ByteCode Expr ExprCorrect OpIterator.
From S2P Require Import OpBasic OpJoin.
From S2P Require Import OpJoinLaws OpSort OpAggregate OpAggregateCorrect PhysicalPlan.
From S2P Require Import DbCatalog OpMutate.
From S2P Require Import OpDyn PlanToOp PlanSem PlanRel PlanCorrect.

Open Scope Z_scope.

(** ** Scans of the in-memory storage manager

    The in-memory storage manager keeps the laws of scans: iterators do not change it, so
    that any number of them can run side by side. *)

#[global] Instance Ms_scan : ScanTrait StorageManager := {|
  scan_iter := ValueIterator;
  sc_get_iterator := Ms.get_iterator;
  sc_get_iterator_from := Ms.get_iterator_from;
  sc_next s it := '(it, x) ← ValIter.next s it; Ret (s, it, x);
  sc_drop s it := Ret s
|}.

Section Laws.
Context (s0 : StorageManager) (Hinv : ms_inv s0) (Hslots : ∀ c, next_slot s0 c < 2 ^ 16).

(** What a scan of container [c] yields. *)
Definition ms_tbl (c : Z) : option (list item) :=
  vals ← contents s0 c; Some (scan_items c vals 0 (Z.max 0 (next_slot s0 c - 1))).

(** An iterator that still yields [x.2]. *)
Definition ms_it_ok (x : ValueIterator * list item) : Prop :=
  ∃ c hi l vals cur, x.1 = scan_at c hi l cur ∧ cells s0 !! l = Some vals ∧
    0 ≤ cur ≤ hi + 1 ∧ hi + 1 < 2 ^ 16 ∧ x.2 = scan_items c vals cur hi.

Lemma ms_sc_next it items :
  ms_it_ok (it, items) →
  ∃ it', ValIter.next s0 it = Ret (it', head items) ∧ ms_it_ok (it', tail items).
Proof.
  intros (c & hi & l & vals & cur & E & Hl & Hcur & Hhi & Ei). simpl in E, Ei. subst it items.
  unfold ValIter.next, ValIter.next_fuel.
  change (it_max (scan_at c hi l cur)) with hi. change (current (scan_at c hi l cur)) with cur.
  pose proof (ms_next_loop_ok c hi l vals (cells s0) (Z.to_nat (hi - cur + 2)) cur Hl) as Hn.
  destruct (scan_items c vals cur hi) as [|x rest].
  - rewrite Hn by lia. eexists. split; [done|]. exists c, hi, l, vals, (hi + 1).
    split_and!; try done; try lia. simpl. by rewrite scan_items_end by lia.
  - destruct Hn as (cur' & -> & ? & Hrest); [lia..|]. eexists. split; [done|].
    exists c, hi, l, vals, cur'. split_and!; try done; lia.
Qed.

Lemma ms_sc_get c items :
  ms_tbl c = Some items → ∃ it, Ms.get_iterator s0 c = Ret it ∧ ms_it_ok (it, items).
Proof.
  unfold ms_tbl. destruct (contents s0 c) as [vals|] eqn:Ec; [|done]. intros [= <-].
  pose proof (next_slot_range s0 c Hinv). pose proof (Hslots c).
  apply contents_Some in Ec as (l & Hl & Hv).
  destruct (get_iterator_ok s0 c l vals Hinv Hl Hv) as (hi & Hit & Hhi & ->).
  eexists. split; [exact Hit|]. eexists c, _, l, vals, 0. split_and!; [done|done|lia|lia|lia|done].
Qed.

Definition Ms_scan_laws : ScanLaws StorageManager ms_tbl.
Proof.
  refine {| sc_view s l := s = s0 ∧ Forall ms_it_ok l; sc_fits n := True |}.
  - done.
  - intros s l l' Hp [-> HF]. by rewrite <-Hp.
  - intros s l c items Ht [-> HF] _. destruct (ms_sc_get c items Ht) as (it & E & Hok).
    exists it. split; [done|]. split; [done|]. by constructor.
  - intros s l it items [-> [Hok HF]%Forall_cons]. destruct (ms_sc_next it items Hok) as (it' & E & Hok').
    exists s0, it'. simpl. rewrite E. split; [done|]. split; [done|]. by constructor.
  - intros s l it items [-> [_ HF]%Forall_cons]. by exists s0.
Defined.
End Laws.

Record PagingInfo := mkPagingInfo { current_page : Z; total_pages : Z; has_next_page : bool; page_size : Z }.

Inductive QueryResult :=
  | MessageOnly (message : list byte)
  | Select (schema : TableSchema) (result : list Tuple) (paging_info : option PagingInfo)
  | Insert (inserted : Z) (table_name : list byte).

#[global] Instance Attribute_eq_dec : EqDecision Attribute.
Proof. solve_decision. Defined.
#[global] Instance TableSchema_eq_dec : EqDecision TableSchema.
Proof. solve_decision. Defined.

Module QueryResults.
Definition new_select_result := Select.
Definition new_message_only_result := MessageOnly.
Definition new_insert_result := Insert.
Definition get_tuples (r : QueryResult) : option (list Tuple) :=
  match r with Select _ result _ => Some result | _ => None end.
Definition get_schema (r : QueryResult) : option TableSchema :=
  match r with Select schema _ _ => Some schema | _ => None end.
Definition merge_results (r other : QueryResult) : QueryResult * result CrustyError unit :=
  match r, other with
  | Select schema1 result1 paging, Select schema2 result2 _ =>
      if bool_decide (schema1 = schema2) then (Select schema1 (result1 ++ result2) paging, Ok tt)
      else (r, Err (CrustyErr "Schema mismatch when merging results."))
  | _, _ => (r, Err (CrustyErr "Cannot merge non-select results."))
  end.
End QueryResults.

Section Execute.
Context {SM : Type} `{ScanTrait SM} `{StorageTrait SM} `{IndexTrait SM} `{StateTracker SM} `{TupleCodec}.
Notation dyn := (DynOp SM).

(** Dropping an operator drops the iterators its scans hold. *)
Fixpoint dyn_drop (s : SM) (o : dyn) : outcome SM :=
  match o with
  | DTuples _ | DIndexScan _ => Ret s
  | DSeqScan o => Seq.drop_old s o
  | DFilter o => dyn_drop s (fi_child o)
  | DProject o => dyn_drop s (pr_child o)
  | DCrossJoin o => s ← dyn_drop s (cj_left o); dyn_drop s (cj_right o)
  | DNestedLoopJoin o => s ← dyn_drop s (nl_left o); dyn_drop s (nl_right o)
  | DHashEqJoin o => s ← dyn_drop s (hj_left o); dyn_drop s (hj_right o)
  | DSort o => dyn_drop s (so_child o)
  | DAggregate o => dyn_drop s (ag_child o)
  | DDelete o => dyn_drop s (de_child o)
  | DUpdate o => dyn_drop s (up_child o)
  end.

Record Executor := mkExecutor { ex_plan : option dyn }.

Definition configure_query (e : Executor) (o : dyn) : Executor := mkExecutor (Some o).

(** An operation of the plan that fails ends the query; the plan is dropped either way. *)
Definition or_drop {A B} (r : outcome (SM * dyn * result CrustyError A))
    (k : SM → dyn → A → outcome (SM * result CrustyError B)) : outcome (SM * result CrustyError B) :=
  '(s, o, r) ← r;
  match r with
  | Ok a => k s o a
  | Err e => s ← dyn_drop s o; Ret (s, Err e)
  end.

(** [fuel] bounds the depth of the plan and the rounds of its loops. *)
Definition execute (fuel : nat) (s : SM) (e : Executor) : outcome (SM * Executor * result CrustyError QueryResult) :=
  opiterator ← unwrap (ex_plan e);
  let schema := dyn_schema opiterator in
  let ops := dyn_ops fuel in
  '(s, r) ←
    or_drop (open s (configure (SM := SM) false opiterator)) (λ s o _,
    or_drop (drain fuel s o) (λ s o res,
    or_drop (close s o) (λ s o _,
    s ← dyn_drop s o;
    Ret (s, Ok (QueryResults.new_select_result schema res None)))));
  Ret (s, mkExecutor None, r).

Context (format_date : Z → list byte) (print_subquery : PhysicalRelExpr → Z → list byte).
Context (catalog : Catalog).

(** [tid] is the id of the active transaction, or the error that there is none. *)
Definition run_physical_plan (fuel : nat) (s : SM) (e : Executor) (tid : result CrustyError Z) (p : PhysicalRelExpr) :
  outcome (SM * Executor * result CrustyError QueryResult) :=
  match tid with
  | Err err => Ret (s, e, Err err)
  | Ok tid =>
      r ← physical_plan_to_op_iterator format_date print_subquery catalog tid p;
      match r with
      | Err err => Ret (s, e, Err err)
      | Ok op_iterator => execute fuel s (configure_query e op_iterator)
      end
  end.
End Execute.
Arguments Executor SM {_}.

(** ** Correctness *)

Section Correct.
Context {SM : Type} {scan : ScanTrait SM} {tbl : Z → option (list item)} {scan_laws : ScanLaws SM tbl}.
Context `{StorageTrait SM} `{IndexTrait SM} `{StateTracker SM} {codec : TupleCodec}.
Notation dyn := (DynOp SM).

(** A closed operator holds no iterators. *)
Lemma closed_drop k (o : dyn) s : closed (dyn_contract (tbl := tbl) k) o → dyn_drop s o = Ret s.
Proof.
  revert o s. induction k as [|k IH]; intros o s Hc; [done|]. destruct o; cbn in Hc |- *; try done.
  - unfold Seq.drop_old. by rewrite Hc.
  - by apply IH.
  - by apply IH.
  - destruct Hc as [Hl Hr]. rewrite (IH _ s Hl). by apply IH.
  - destruct Hc as [Hl Hr]. rewrite (IH _ s Hl). by apply IH.
  - destruct Hc as [Hl Hr]. rewrite (IH _ s Hl). by apply IH.
  - by apply IH.
  - by apply IH.
Qed.

Lemma execute_ok k s (o : dyn) all n :
  built (dyn_contract (tbl := tbl) k) o all n → sc_view s [] → sc_fits (S n) → (length all < k)%nat →
  ∃ s', execute k s (mkExecutor (Some o)) = Ret (s', mkExecutor None, Ok (Select (dyn_schema o) all None)) ∧
    sc_view s' [].
Proof.
  intros Hb Hv Hfit Hk. pose proof (dyn_laws (tbl := tbl) k) as Hlaws. unfold execute, or_drop. simpl unwrap. rewrite bind_Ret.
  destruct (open_ok (OpLaws := Hlaws) s _ false all n [] (configure_ok (OpLaws := Hlaws) o all n false Hb) Hv Hfit)
    as (s1 & o1 & res1 & -> & Hl1 & Hv1). rewrite bind_Ret.
  destruct (drain_child (H := Hlaws) k s1 o1 false all all res1 n [] Hl1 Hv1 Hfit Hk) as (s2 & o2 & res2 & -> & Hl2 & Hv2).
  rewrite bind_Ret.
  destruct (close_ok (OpLaws := Hlaws) s2 o2 false all [] res2 n [] Hl2 Hv2) as (s3 & o3 & -> & Hc3 & Hv3).
  rewrite bind_Ret, (closed_drop k o3 s3 Hc3). by exists s3.
Qed.

Context (format_date : Z → list byte) (print_subquery : PhysicalRelExpr → Z → list byte).
Context (catalog : Catalog).

Lemma run_plan_ok (p : PhysicalRelExpr) (c : gset Z) (rows : list row) (transaction_id : Z) :
  cols_of catalog p = Some c → sem tbl p = Some rows → sc_fits (S (scans p)) →
  ∃ k0 m schema ts, dom m = c ∧ Forall2 (represents m (Schema.size schema)) rows ts ∧
    ∀ k s e, (k0 ≤ k)%nat → sc_view s [] →
    ∃ s', run_physical_plan format_date print_subquery catalog k s e (Ok transaction_id) p =
        Ret (s', mkExecutor None, Ok (Select schema ts None)) ∧ sc_view s' [].
Proof.
  intros Hc Hs Hfit.
  destruct (plan_ok format_date print_subquery catalog transaction_id (tbl := tbl) p c Hc) as (o & m & [Hp Hd Hr Hrows]).
  destruct (Hrows rows Hs) as (k0 & ts & Hb & HF).
  exists (k0 + S (length ts))%nat, m, (dyn_schema o), ts. split; [done|]. split; [done|]. intros k s e Hk Hv.
  unfold run_physical_plan, physical_plan_to_op_iterator. rewrite Hp, bind_Ret, bind_Ret.
  eapply execute_ok; [|done|exact Hfit|lia]. by eapply built_raise; [|exact Hb]; lia.
Qed.

(** C10: Queries return what they mean. A physical plan that passes the static check, and
    whose reference semantics over the stored tables is the list [rows], runs to its end
    with every sufficiently large bound on loops: it returns one tuple per row, in the
    order of the semantics, each with the values of the row in the columns of the result,
    and every scan it started is over. This holds over any storage manager whose scans
    keep the laws. *)
Theorem query_correct (p : PhysicalRelExpr) (c : gset Z) (rows : list row) (transaction_id : Z) :
  cols_of catalog p = Some c → sem tbl p = Some rows → sc_fits (S (scans p)) →
  ∃ k0 m schema ts, dom m = c ∧ Forall2 (represents m (Schema.size schema)) rows ts ∧
    ∀ k s e, (k0 ≤ k)%nat → sc_view s [] →
    ∃ s', run_physical_plan format_date print_subquery catalog k s e (Ok transaction_id) p =
        Ret (s', mkExecutor None, Ok (Select schema ts None)) ∧ sc_view s' [].
Proof. apply run_plan_ok. Qed.

(** The planner does not fail on plans that pass the static check: it makes an operator,
    and places exactly the columns of the plan, all within the tuples of the operator. *)
Theorem planner_total (p : PhysicalRelExpr) (c : gset Z) (transaction_id : Z) :
  cols_of catalog p = Some c →
  ∃ (o : dyn) m, physical_plan_to_op_iterator_helper format_date print_subquery catalog transaction_id p = Ret (Ok o, m) ∧
    dom m = c ∧ ∀ id i, m !! id = Some i → 0 ≤ i < Schema.size (dyn_schema o).
Proof.
  intros Hc. destruct (plan_ok format_date print_subquery catalog transaction_id (tbl := tbl) p c Hc) as (o & m & [Hp Hd Hr _]).
  by exists o, m.
Qed.
End Correct.

(** ** Join conditions with exchanged operands *)

(** C33: A nested loop join whose condition names the right input first is planned with its
    operands exchanged but its operator unchanged: the planner makes the same operator of
    [a < b] and of [b < a]. The rows the two conditions select are different ones. *)
Theorem nested_loop_operands_swapped
    {SM : Type} `{ScanTrait SM} `{StorageTrait SM} `{IndexTrait SM} `{StateTracker SM} `{TupleCodec}
    (format_date : Z → list byte) (print_subquery : PhysicalRelExpr → Z → list byte) (catalog : Catalog) (tid : Z)
    (l r : PhysicalRelExpr) (op : BinaryOp) (a b : Expression PhysicalRelExpr) (h : option Z) :
  Expr.intersect_with a l = false → Expr.intersect_with b l = true →
  physical_plan_to_op_iterator_helper (SM := SM) format_date print_subquery catalog tid
    (PNestedLoopJoin Inner l r [Binary op a b] h) =
  physical_plan_to_op_iterator_helper format_date print_subquery catalog tid
    (PNestedLoopJoin Inner l r [Binary op b a] h) ∧
  sem_theta (P := PhysicalRelExpr) (Binary OpLt (ColRef 1) (ColRef 0)) [{[ 0 := BigInt 5 ]}] [{[ 1 := BigInt 3 ]}] =
    Some [{[ 0 := BigInt 5; 1 := BigInt 3 ]}] ∧
  sem_theta (P := PhysicalRelExpr) (Binary OpLt (ColRef 0) (ColRef 1)) [{[ 0 := BigInt 5 ]}] [{[ 1 := BigInt 3 ]}] = Some [].
Proof.
  intros Ha Hb. split; [|split; vm_compute; reflexivity]. simpl. unfold sides. by rewrite Ha, Hb.
Qed.
