(* ===== verification/HeapQuery.v ===== *)
(** * Queries on the heap store

    The heap store is the storage manager the server runs. Queries on it return their
    reference semantics over the stored tables, and leave every stored value and every
    latch as it was. *)

From stdpp Require Import gmap.
From stdpp Require Import strings gmap.
From S2P Require Import Prelude Common HeapPage HeapPageView HeapPageSpec HeapPageUpdate.
From S2P Require Import HeapPageContract BufferFrame MemPool HeapFile HeapFileSpec.
From S2P Require Import HeapFileContract.
From S2P Require Import StorageSpec HeapStore Field Tuple ByteCode Expr OpIterator.
From S2P Require Import PhysicalPlan DbCatalog OpMutate OpDyn PlanToOp PlanSem PlanRel.
From S2P Require Import PlanCorrect Executor.

Open Scope Z_scope.

(** ** Scans of the heap store

    The heap store keeps the laws of scans: each iterator holds a read latch on the page it
    stands on, and nothing else of the pool changes, so that iterators run side by side as
    long as the latch of a page can count them. *)

#[global] Instance Hs_scan `{MemPool P} : ScanTrait (HeapStore P) := {|
  scan_iter := HeapFile.HeapFileIter;
  sc_get_iterator := Hs.get_iterator;
  sc_get_iterator_from := Hs.get_iterator_from;
  sc_next s it := '(m, it, x) ← HeapFile.next (bp s) it; Ret (Hs.set_bp s m, it, x);
  (* the guard of the current page is dropped with the iterator *)
  sc_drop s it :=
    match HeapFile.current_page it with
    | Some g => m ← drop_read (bp s) g; Ret (Hs.set_bp s m)
    | None => Ret s
    end
|}.

Section Laws.
Context `{Laws : MemPoolLaws P}.
(** The store before the scans. *)
Context (s0 : HeapStore P).
Context (Hfiles : ∀ c hf, cid_heapfile_map s0 !! c = Some hf → hf = c ∧ file_ok (bp s0) c).
Notation m0 := (bp s0).
Abbreviation running := (HeapFile.HeapFileIter * list item)%type.

(** What a scan of container [c] yields. *)
Definition hs_tbl (c : Z) : option (list item) :=
  _ ← cid_heapfile_map s0 !! c; Some (pages_from m0 c 1).

(** The page an iterator has latched. *)
Definition at_page (x : running) : option ContainerPageId :=
  match HeapFile.current_page x.1 with
  | Some _ => Some (mkContainerPageId (HeapFile.it_file x.1) (HeapFile.current_page_id x.1))
  | None => None
  end.
Definition holders (k : ContainerPageId) (l : list running) : Z :=
  zlen (List.filter (λ x, bool_decide (at_page x = Some k)) l).

(** The pool as before the scans, but for the latches of the iterators in [l]. *)
Record scanning (m : P) (l : list running) : Prop := {
  sn_inv : mp_inv m;
  sn_view k : mp_view m k = (λ e, mkEntry (e_guard e) (e_page e) (e_latch e + holders k l)) <$> mp_view m0 k;
  sn_max c : mp_get_max_page_id m c = mp_get_max_page_id m0 c;
  sn_room : mp_can_create m0 ↔ mp_can_create m
}.

(** Where an iterator is: not started, at slot [k] of page [i], or at its end. *)
Inductive position : running → Prop :=
  | at_start c : file_ok m0 c → position (HeapFile.iter c, pages_from m0 c 1)
  | at_slot c fp i k e :
      file_ok m0 c → 1 ≤ i < HeapFile.num_pages m0 c → 0 ≤ k < 65536 →
      mp_view m0 (mkContainerPageId c i) = Some e →
      position (HeapFile.mkFileIter c true false fp i k (Some (e_guard e)), file_rest m0 c i k)
  | at_end it : HeapFile.initialized it = true → HeapFile.finished it = true → HeapFile.current_page it = None →
      position (it, []).

Lemma holders_cons k x l : holders k (x :: l) = (if bool_decide (at_page x = Some k) then 1 else 0) + holders k l.
Proof. unfold holders. simpl. case_bool_decide; len. Qed.

Lemma holders_bound k l : 0 ≤ holders k l ≤ zlen l.
Proof.
  unfold holders. split; [apply zlen_nonneg|]. unfold zlen. pose proof (List.filter_length_le (λ x, bool_decide (at_page x = Some k)) l). lia.
Qed.

Lemma holders_perm k l l' : l ≡ₚ l' → holders k l = holders k l'.
Proof. induction 1; rewrite ?holders_cons in *; lia. Qed.

Lemma scanning_perm m l l' : l ≡ₚ l' → scanning m l → scanning m l'.
Proof.
  intros Hp [Hi Hv Hm Hr]. split; try done. intros k. by rewrite Hv, (holders_perm k l l' Hp).
Qed.

(** An iterator that has no page does not matter. *)
Lemma scanning_idle m x l : at_page x = None → scanning m l ↔ scanning m (x :: l).
Proof.
  intros Hx. assert (∀ k, holders k (x :: l) = holders k l) as E.
  { intros k. rewrite holders_cons, bool_decide_eq_false_2 by (rewrite Hx; done). lia. }
  split; intros [Hi Hv Hm Hr]; (split; [done| |done|done]); intros k; [rewrite E|rewrite <-E]; apply Hv.
Qed.

Lemma scanning_num_pages m l c : scanning m l → HeapFile.num_pages m c = HeapFile.num_pages m0 c.
Proof. intros [_ _ Hm _]. unfold HeapFile.num_pages. by rewrite Hm. Qed.

(** Taking and giving back the latch of a data page. *)
Lemma scanning_latch m l c i x e :
  scanning m l → file_ok m0 c → 1 ≤ i < HeapFile.num_pages m0 c → zlen l < 32767 →
  mp_view m0 (mkContainerPageId c i) = Some e → at_page x = Some (mkContainerPageId c i) →
  ∃ m', HeapFile.get_page_for_read m c i = Ret (m', e_guard e) ∧ scanning m' (x :: l).
Proof.
  intros [Hi Hv Hm Hr] Hf Hip Hl Ee Hx. destruct (fo_data m0 c Hf i Hip) as (e' & Ee' & Hd & _).
  assert (e' = e) as -> by congruence.
  pose proof (holders_bound (mkContainerPageId c i) l).
  destruct (mp_read_ok m (mkContainerPageId c i) (mkEntry (e_guard e) (e_page e) (e_latch e + holders (mkContainerPageId c i) l)) Hi)
    as (m' & E & Hi' & [U1 U2 U3 U4]); [by rewrite Hv, Ee|simpl; lia|].
  exists m'. unfold HeapFile.get_page_for_read, PageFrameIds.new. rewrite E. split; [done|]. split; [done| | |tauto].
  - intros k. rewrite holders_cons, Hx. case_bool_decide as Hk.
    + injection Hk as <-. rewrite U1, Ee. simpl. do 2 f_equal. lia.
    + rewrite U2 by congruence. by rewrite Hv.
  - intros d. by rewrite U3, Hm.
Qed.

Lemma scanning_page m l x k e :
  scanning m (x :: l) → at_page x = Some k → mp_view m0 k = Some e → e_latch e = 0 → zlen l < 32767 →
  deref m (e_guard e) = Ret (e_page e) ∧
  ∃ m', drop_read m (e_guard e) = Ret m' ∧ scanning m' l.
Proof.
  intros [Hi Hv Hm Hr] Hx Ee Hd Hl. pose proof (holders_bound k l).
  assert (mp_view m k = Some (mkEntry (e_guard e) (e_page e) (e_latch e + holders k (x :: l)))) as Em
    by (by rewrite Hv, Ee).
  split; [exact (mp_deref m k _ Hi Em)|].
  rewrite holders_cons, Hx, bool_decide_eq_true_2, Hd in Em by done.
  destruct (mp_drop_read m k _ Hi Em) as (m' & E & Hi' & [U1 U2 U3 U4]); [simpl; lia|].
  exists m'. split; [exact E|]. split; [done| | |tauto].
  - intros j. destruct (decide (j = k)) as [->|Hne].
    + rewrite U1, Ee. simpl. do 2 f_equal. lia.
    + rewrite U2, Hv by done. rewrite holders_cons, Hx, bool_decide_eq_false_2 by congruence. done.
  - intros d. by rewrite U3, Hm.
Qed.

(** The loop of [next] gives the first of what is left. *)
Lemma hs_next_loop fuel m l c fp i k e :
  file_ok m0 c → 1 ≤ i < HeapFile.num_pages m0 c → 0 ≤ k < 65536 →
  mp_view m0 (mkContainerPageId c i) = Some e → zlen l < 32767 →
  let it := HeapFile.mkFileIter c true false fp i k (Some (e_guard e)) in
  scanning m ((it, file_rest m0 c i k) :: l) →
  (HeapFile.num_pages m0 c - i) * 65537 - k < Z.of_nat fuel →
  ∃ m' it', HeapFile.next_loop fuel m it = Ret (m', it', head (file_rest m0 c i k)) ∧
    position (it', tail (file_rest m0 c i k)) ∧ scanning m' ((it', tail (file_rest m0 c i k)) :: l).
Proof.
  intros Hf. assert (1 ≤ HeapFile.num_pages m0 c ≤ U32_MAX) as Hn by apply (fo_count m0 c Hf).
  revert m i k e. induction fuel as [|fuel IH]; intros m i k e Hi Hk Ee Hl it Hs Hfuel; [lia|]. subst it.
  destruct (fo_data m0 c Hf i Hi) as (e' & Ee' & Hd & Hwf & _). assert (e' = e) as -> by congruence.
  destruct (scanning_page m l _ (mkContainerPageId c i) e Hs eq_refl Ee Hd Hl) as (D & m2 & Dr & Hs2).
  pose proof (num_slots_bound (e_page e)). cbn [HeapFile.next_loop HeapFile.current_page].
  rewrite D, bind_Ret, get_num_slots_ok, bind_Ret by apply Hwf. cbn [HeapFile.current_slot_id].
  destruct (k <? num_slots (e_page e)) eqn:Ek.
  - apply Z.ltb_lt in Ek. rewrite checked_ok, bind_Ret by lia. cbv zeta.
    rewrite get_value_ok, bind_Ret by (apply Hwf || done).
    assert (∀ rest, scanning m ((HeapFile.mkFileIter c true false fp i (k + 1) (Some (e_guard e)), rest) :: l)) as Hs'.
    { intros rest. destruct Hs as [Hi' Hv Hm Hr]. split; try done. intros j. by rewrite Hv, !holders_cons. }
    assert (file_rest m0 c i k = match HeapPageView.value (e_page e) k with
      | Some v => (v, ValueIds.new_slot c i k) :: file_rest m0 c i (k + 1)
      | None => file_rest m0 c i (k + 1) end) as ->
      by (unfold file_rest; rewrite (page_rest_step m0 c e) by done; by destruct (HeapPageView.value (e_page e) k)).
    destruct (HeapPageView.value (e_page e) k) as [v|].
    + eexists m, _. split; [done|]. split; [|apply Hs']. by apply at_slot; [..|lia|].
    + apply IH; [done|lia|done|done|apply Hs'|lia].
  - apply Z.ltb_ge in Ek. rewrite Dr, bind_Ret. cbn [HeapFile.current_page_id].
    unfold U32_MAX in *. rewrite checked_ok, bind_Ret by lia.
    cbn [HeapFile.it_file]. rewrite (scanning_num_pages m2 l) by done.
    assert (file_rest m0 c i k = pages_from m0 c (i + 1)) as ->
      by (unfold file_rest; by rewrite (page_rest_past m0 c e)).
    destruct (HeapFile.num_pages m0 c <=? i + 1) eqn:Ep.
    + apply Z.leb_le in Ep. rewrite pages_from_end by done. eexists m2, _. split; [done|].
      split; [by apply at_end|]. by apply scanning_idle.
    + apply Z.leb_gt in Ep. destruct (fo_data m0 c Hf (i + 1)) as (e1 & Ee1 & _); [lia|].
      rewrite <-(file_rest_page m0 c (i + 1)) by lia.
      destruct (scanning_latch m2 l c (i + 1)
        (HeapFile.mkFileIter c true false fp (i + 1) 0 (Some (e_guard e1)), file_rest m0 c (i + 1) 0) e1)
        as (m3 & E3 & Hs3); [done|done|lia|done|done|done|].
      rewrite E3, bind_Ret. apply IH; [lia|lia|done|done|done|lia].
Qed.

Lemma hs_next_ok m l x :
  position x → scanning m (x :: l) → zlen l < 32767 →
  ∃ m' it', HeapFile.next m x.1 = Ret (m', it', head x.2) ∧
    position (it', tail x.2) ∧ scanning m' ((it', tail x.2) :: l).
Proof.
  intros Hx Hs Hl. destruct Hx as [c Hf|c fp i k e Hf Hi Hk Ee|it Hin Hfin Hcur]; cbn [fst snd].
  - apply scanning_idle in Hs; [|done]. unfold HeapFile.next, HeapFile.iter, HeapFile.new_from, HeapFile.initialize.
    cbn [HeapFile.initialized HeapFile.first_page HeapFile.it_file]. rewrite (scanning_num_pages m l) by done.
    destruct (Z.ltb_spec 1 (HeapFile.num_pages m0 c)) as [Hn|Hn].
    + destruct (fo_data m0 c Hf 1) as (e & Ee & _); [lia|].
      destruct (scanning_latch m l c 1
        (HeapFile.mkFileIter c true false 1 1 0 (Some (e_guard e)), file_rest m0 c 1 0) e) as (m1 & E1 & Hs1);
        [done|done|lia|done|done|done|]. rewrite E1, !bind_Ret. rewrite <-(file_rest_page m0 c 1) by lia.
      cbn [HeapFile.finished]. apply hs_next_loop; [done|lia|lia|done|done|done|]. unfold HeapFile.next_fuel.
      cbn [HeapFile.it_file HeapFile.current_page_id]. rewrite (scanning_num_pages m1 _ c Hs1). lia.
    + rewrite !bind_Ret. cbn [HeapFile.finished]. rewrite pages_from_end by done. eexists m, _. split; [done|].
      split; [by apply at_end|]. by apply scanning_idle.
  - unfold HeapFile.next. cbn [HeapFile.initialized HeapFile.finished]. rewrite bind_Ret.
    cbn [HeapFile.finished]. apply hs_next_loop; [done..|]. unfold HeapFile.next_fuel.
    cbn [HeapFile.it_file HeapFile.current_page_id]. rewrite (scanning_num_pages m _ c Hs). lia.
  - unfold HeapFile.next. rewrite Hin, bind_Ret, Hfin. eexists m, it. split; [done|]. by split; [apply at_end|].
Qed.

Lemma hs_drop_ok m l x :
  position x → scanning m (x :: l) → zlen l < 32767 →
  match HeapFile.current_page x.1 with
  | Some g => ∃ m', drop_read m g = Ret m' ∧ scanning m' l
  | None => scanning m l
  end.
Proof.
  intros Hx Hs Hl. destruct Hx as [c Hf|c fp i k e Hf Hi Hk Ee|it Hin Hfin Hcur]; cbn [fst].
  - by apply scanning_idle in Hs.
  - cbn [HeapFile.current_page]. destruct (fo_data m0 c Hf i Hi) as (e' & Ee' & Hd & _).
    assert (e' = e) as -> by congruence. by apply (scanning_page m l _ (mkContainerPageId c i) e Hs eq_refl).
  - rewrite Hcur. apply scanning_idle in Hs; [done|]. unfold at_page. cbn [fst]. by rewrite Hcur.
Qed.

Definition Hs_scan_laws : ScanLaws (HeapStore P) hs_tbl.
Proof.
  refine {|
    sc_view s l := cid_heapfile_map s = cid_heapfile_map s0 ∧ zlen l ≤ 32767 ∧ scanning (bp s) l ∧ Forall position l;
    sc_fits n := Z.of_nat n ≤ 32767
  |}.
  - intros n n' ? ?. lia.
  - intros s l l' Hp (Hm & Hl & Hs & HF). split_and!; [done| |by apply (scanning_perm _ l)|by rewrite <-Hp].
    unfold zlen in *. by rewrite <-Hp.
  - intros s l c items Ht (Hm & Hl & Hs & HF) Hfit. unfold hs_tbl in Ht.
    destruct (cid_heapfile_map s0 !! c) as [hf|] eqn:Ec; [|done]. injection Ht as <-.
    destruct (Hfiles c hf Ec) as [-> Hf]. exists (HeapFile.iter c). cbn. unfold Hs.get_iterator, Hs.get_heapfile.
    rewrite Hm, Ec. split; [done|]. split_and!; [done|len| |by constructor; [apply at_start|]].
    by apply scanning_idle.
  - intros s l it items (Hm & Hl & Hs & [Hx HF]%Forall_cons).
    destruct (hs_next_ok (bp s) l (it, items) Hx Hs) as (m' & it' & E & Hx' & Hs'); [len|].
    exists (Hs.set_bp s m'), it'. cbn. cbn [fst snd] in E. rewrite E. split; [done|]. split_and!; [done|len|done|by constructor].
  - intros s l it items (Hm & Hl & Hs & [Hx HF]%Forall_cons).
    pose proof (hs_drop_ok (bp s) l (it, items) Hx Hs) as Hd. cbn [fst] in Hd. cbn.
    destruct (HeapFile.current_page it) as [g|].
    + destruct Hd as (m' & -> & Hs'); [len|]. exists (Hs.set_bp s m'). split; [done|]. split_and!; [done|len|done|done].
    + exists s. split; [done|]. split_and!; [done|len|apply Hd; len|done].
Defined.
End Laws.

Section Heap.
Context `{Laws : MemPoolLaws P} `{IndexTrait (HeapStore P)} `{StateTracker (HeapStore P)} {codec : TupleCodec}.

(** A table holds the values of the store, each with its id. *)
Lemma hs_tbl_store (s : HeapStore P) a c vals :
  hs_rep s a → a !! c = Some vals →
  ∃ items, hs_tbl s c = Some items ∧ (λ x, (x.2, x.1)) <$> items ≡ₚ map_to_list vals.
Proof.
  intros Hrep Ha. destruct (proj1 (hr_dom s a Hrep c) (ex_intro _ _ Ha)) as [hf Hc].
  destruct (hr_file s a Hrep c hf Hc) as [-> Hf]. exists (pages_from (bp s) c 1).
  unfold hs_tbl. rewrite Hc. split; [done|]. apply NoDup_Permutation.
  - apply (NoDup_fmap_1 fst). rewrite <-list_fmap_compose.
    exact (NoDup_pages_from (bp s) c).
  - apply NoDup_map_to_list.
  - intros [id v]. rewrite elem_of_map_to_list, (hr_holds s a Hrep c vals Ha id v), list_elem_of_fmap. split.
    + intros ([v' id'] & [= -> ->] & Hin). by apply elem_of_pages_from in Hin.
    + intros Hin. exists (v, id). split; [done|]. by apply elem_of_pages_from.
Qed.

Lemma scanning_same (s : HeapStore P) m : scanning s m [] → mp_inv m ∧ same_pool (bp s) m.
Proof.
  intros [Hi Hv Hm Hr]. split; [done|]. split; [|by split]. intros k. rewrite Hv.
  destruct (mp_view (bp s) k) as [[g p l]|]; [|done]. simpl. unfold holders. simpl. by rewrite Z.add_0_r.
Qed.

Context (format_date : Z → list byte) (print_subquery : PhysicalRelExpr → Z → list byte).
Context (catalog : Catalog).

(** C9: On the heap store, over any buffer pool that keeps the pool laws, a plan that passes
    the static check returns the rows of its reference semantics, where a table has the
    stored values of its container, each once and with its id. The query ends with every
    latch given back and every stored value in place. *)
Theorem heap_query_correct (s : HeapStore P) (a : store) (p : PhysicalRelExpr) (c : gset Z) (rows : list row)
    (transaction_id : Z) :
  hs_rep s a → cols_of catalog p = Some c → sem (hs_tbl s) p = Some rows → Z.of_nat (S (scans p)) ≤ 32767 →
  (∀ t vals, a !! t = Some vals →
     ∃ items, hs_tbl s t = Some items ∧ (λ x, (x.2, x.1)) <$> items ≡ₚ map_to_list vals) ∧
  ∃ k0 m schema ts, dom m = c ∧ Forall2 (represents m (Schema.size schema)) rows ts ∧
    ∀ k e, (k0 ≤ k)%nat →
    ∃ s', run_physical_plan format_date print_subquery catalog k s e (Ok transaction_id) p =
        Ret (s', mkExecutor None, Ok (Select schema ts None)) ∧ hs_rep s' a.
Proof.
  intros Hrep Hc Hs Hn. split; [intros t vals; by apply hs_tbl_store|].
  pose proof (hr_file s a Hrep) as Hfiles. pose (laws := Hs_scan_laws s Hfiles).
  destruct (run_plan_ok (scan_laws := laws) format_date print_subquery catalog p c rows transaction_id Hc Hs Hn)
    as (k0 & m & schema & ts & Hd & HF & Hrun).
  exists k0, m, schema, ts. split; [done|]. split; [done|]. intros k e Hk.
  destruct (Hrun k s e Hk) as (s' & E & Em & _ & Hsc & _).
  { split_and!; [done|done| |done]. split; [apply Hrep| |done|done].
    intros j. destruct (mp_view (bp s) j) as [[g pg l]|]; [|done]. simpl. unfold holders. simpl. by rewrite Z.add_0_r. }
  exists s'. split; [done|]. apply scanning_same in Hsc as [Hi Hsame].
  destruct s' as [m' map']. simpl in Em. subst map'. by apply (hs_rep_same s a m').
Qed.
End Heap.
