(* ===== verification/Mutator.v ===== *)
(** * Inserting rows

    Models [queryexe/src/mutator/mod.rs] and the insertion of rows by the executor
    ([import_tuples] of [queryexe/src/query/executor.rs]): SQL literals are converted to
    tuples, the tuples are checked against the schema, the valid ones are stored and
    entered into the indexes of the table.

    The rows are syntax trees of SQL. *)

From stdpp Require Import strings gmap.
From S2P Require Import Prelude Common MemPool HeapFile StorageSpec HeapStore MemStore Field.
From S2P Require Import FieldCodec Tuple OpIterator DbCatalog OpMutate SqlAst.

Open Scope Z_scope.

(** [error.rs]. *)
Inductive ConversionError :=
  | FieldConstraintError (i : Z) (msg : list byte)
  | PrimaryKeyViolation
  | UniqueViolation
  | TransactionViolation (tid : Z) (msg : list byte)
  | ParseError
  | UnsupportedType
  | NullFieldNotAllowed (i : Z)
  | WrongType.

Record ConvertedResult := mkConvertedResult {
  converted : list Tuple;
  unconverted : list (Z * list ConversionError)
}.

(** [StorageTrait::insert_values] and [StatManagerTrait::new_record]. *)
Class BulkInsert (SM : Type) := {
  insert_values : SM → Z → list (list byte) → outcome (SM * list ValueId)
}.
Class StatManager (SM : Type) := {
  new_record : SM → Tuple → ValueId → outcome (SM * result CrustyError unit)
}.

#[global] Instance Ms_bulk : BulkInsert StorageManager := {| insert_values := Ms.insert_values |}.
#[global] Instance Hs_bulk `{MemPool P} : BulkInsert (HeapStore P) := {| insert_values := Hs.insert_values |}.

Module Mutator.

(** ** Conversion *)

(** One literal of record [i]: a field, or an entry of [unconverted]. *)
Definition convert_value (i : Z) (v : SqlValue) : outcome (result (Z * list ConversionError) Field) :=
  match v with
  | Number val _ =>
      match split_dot val with
      | [_; _] =>
          r ← from_str_to_decimal val default_decimal_precision default_decimal_scale;
          Ret (match r with Ok field => Ok field | Err _ => Err (i, [ParseError]) end)
      | [_] | [] =>
          Ret (match parse_int_from_str parse_i64 val with Ok z => Ok (BigInt z) | Err _ => Err (i, [ParseError]) end)
      | _ => Ret (Err (i, [ParseError]))
      end
  | DoubleQuotedString val | SingleQuotedString val =>
      Ret (match from_str_to_string val with Ok field => Ok field | Err _ => Err (i, [ParseError]) end)
  | SqlNull => Ret (Ok Null)
  | SqlBoolean _ | OtherValue => Ret (Err (i, [UnsupportedType]))
  end.

(** The fields of record [i]; a literal that does not convert is noted and left out. *)
Fixpoint convert_record (i : Z) (es : list SqlExpr) :
  outcome (result CrustyError (list Field * list (Z * list ConversionError))) :=
  match es with
  | [] => Ret (Ok ([], []))
  | ExprValue v :: es =>
      r ← convert_value i v;
      rest ← convert_record i es;
      Ret (match rest with
           | Err e => Err e
           | Ok (fs, us) => match r with Ok f => Ok (f :: fs, us) | Err u => Ok (fs, u :: us) end
           end)
  | _ :: _ => Ret (Err (CrustyErr "Only values supported in insert"))
  end.

Fixpoint convert_rows (i : Z) (rows : list (list SqlExpr)) : outcome (result CrustyError ConvertedResult) :=
  match rows with
  | [] => Ret (Ok (mkConvertedResult [] []))
  | row :: rows =>
      r ← convert_record i row;
      match r with
      | Err e => Ret (Err e)
      | Ok (fs, us) =>
          rest ← convert_rows (i + 1) rows;
          Ret (match rest with
               | Err e => Err e
               | Ok res => Ok (mkConvertedResult (Tup.new fs :: converted res) (us ++ unconverted res))
               end)
      end
  end.

Definition convert_insert_vals (rows : list (list SqlExpr)) : outcome (result CrustyError ConvertedResult) :=
  convert_rows 0 rows.

(** ** Validation *)

Definition wrong_type (t : DataType) (f : Field) : bool :=
  match t, f with
  | TBigInt, BigInt _ | TString, FString _ | TDate, Date _ | TDecimal _ _, Decimal _ _ | TBool, FBool _ => false
  | _, _ => true
  end.

Definition forbids_null (c : Constraint) : bool :=
  match c with NotNull | UniqueNotNull | PrimaryKey | NotNullFKey _ => true | _ => false end.

(** What the inner loop pushes for field [j] of record [i]. *)
Definition check_field (i j : Z) (f : Field) (a : Attribute) : list (Z * list ConversionError) :=
  let wrong := if wrong_type (dtype a) f then [(i, [WrongType])] else [] in
  if bool_decide (f = Null) then
    if forbids_null (constraint a) then (i, [NullFieldNotAllowed j]) :: wrong else []
  else wrong.

Fixpoint check_fields (i j : Z) (fs : list Field) (atts : list Attribute) : list (Z * list ConversionError) :=
  match fs, atts with
  | f :: fs, a :: atts => check_field i j f a ++ check_fields i (j + 1) fs atts
  | _, _ => []
  end.

Fixpoint check_records (i : Z) (recs : list Tuple) (schema : TableSchema) : list (Z * list ConversionError) :=
  match recs with
  | [] => []
  | rec :: recs => check_fields i 0 (field_vals rec) (attributes schema) ++ check_records (i + 1) recs schema
  end.

(** [Vec::remove], which panics past the end. *)
Definition vec_remove {A} (l : list A) (i : Z) : outcome (list A) :=
  if (0 <=? i) && (i <? zlen l) then Ret (take (Z.to_nat i) l ++ drop (S (Z.to_nat i)) l) else Panic.

Definition validate_tuples (schema : TableSchema) (col_order : option (list Z)) (values : ConvertedResult) :
  outcome (result CrustyError ConvertedResult) :=
  match col_order with
  | Some _ => Ret (Err (CrustyErr "Col ordering not supported"))
  | None =>
      let values_to_remove := check_records 0 (converted values) schema in
      kept ← foldM (λ l (x : Z * list ConversionError), vec_remove l x.1) (converted values) (reverse values_to_remove);
      Ret (Ok (mkConvertedResult kept (unconverted values)))
  end.

(** ** Insertion *)

Section Insert.
Context {SM : Type} `{BulkInsert SM} `{StatManager SM} `{IndexTrait SM} `{StateTracker SM} `{TupleCodec}.

(** The entries of one tuple into the indexes of its table. *)
Fixpoint insert_entries (s : SM) (t : Tuple) (v : ValueId) (indexes : list IndexInfo) :
  outcome (SM * result CrustyError unit) :=
  match indexes with
  | [] => Ret (s, Ok tt)
  | index :: indexes =>
      key ← extract_key t (ii_columns index);
      '(s, r) ← ix_insert_entry s (ii_index_id index) key v;
      match r with Err e => Ret (s, Err e) | Ok _ => insert_entries s t v indexes end
  end.

Fixpoint note_tuples (s : SM) (tvs : list (Tuple * ValueId)) (indexes : list IndexInfo) :
  outcome (SM * result CrustyError unit) :=
  match tvs with
  | [] => Ret (s, Ok tt)
  | (t, v) :: tvs =>
      '(s, r) ← new_record s t v;
      match r with
      | Err e => Ret (s, Err e)
      | Ok _ =>
          '(s, r) ← insert_entries s t v indexes;
          match r with Err e => Ret (s, Err e) | Ok _ => note_tuples s tvs indexes end
      end
  end.

Definition insert_validated_tuples (s : SM) (table_id : Z) (tuples : list Tuple) (txn_id : Z)
    (indexes : list IndexInfo) : outcome (SM * result CrustyError Z) :=
  '(s, inserted) ← insert_values s table_id (tuple_to_bytes <$> tuples);
  if zlen inserted =? zlen tuples then
    '(s, r) ← note_tuples s (zip tuples inserted) indexes;
    match r with
    | Err e => Ret (s, Err e)
    | Ok _ => Ret (set_ts s table_id txn_id, Ok (zlen inserted))
    end
  else Ret (s, Err (ExecutionError "Attempting to insert {} tuples and only {} were inserted")).

(** [Executor::import_tuples]. *)
Definition import_tuples (s : SM) (values : list (list SqlExpr)) (table_id : Z) (table_schema : TableSchema)
    (txn_id : Z) (indexes : list IndexInfo) : outcome (SM * result CrustyError Z) :=
  r ← convert_insert_vals values;
  match r with
  | Err e => Ret (s, Err e)
  | Ok converted_result =>
      r ← validate_tuples table_schema None converted_result;
      match r with
      | Err e => Ret (s, Err e)
      | Ok validated =>
          match unconverted validated with
          | _ :: _ => Ret (s, Err (ValidationError "Some records were not valid: {:?}"))
          | [] => insert_validated_tuples s table_id (converted validated) txn_id indexes
          end
      end
  end.
End Insert.
End Mutator.
