(* ===== verification/MutatorCorrect.v ===== *)
(** * Inserting rows: correctness

    Validation keeps the valid records when no record has two offences; a record with two
    offences is where it goes wrong. Bulk insertion inserts values one by one in both storage
    managers, which stores each under a new id. *)

From stdpp Require Import strings gmap.
From S2P Require Import Prelude Common BufferFrame MemPool HeapFile HeapFileSpec.
From S2P Require Import StorageSpec HeapStore MemStore MemStoreSpec.
From S2P Require Import MemStoreContract Field FieldCodec Tuple OpIterator DbCatalog OpMutate.
From S2P Require Import Mutator SqlAst.

Open Scope Z_scope.

(** ** What validation keeps *)

(** The offences of one record: what validation pushes for it. *)
Definition offences (schema : TableSchema) (rec : Tuple) : nat :=
  length (Mutator.check_fields 0 0 (field_vals rec) (attributes schema)).

Lemma check_fields_length i j fs atts :
  length (Mutator.check_fields i j fs atts) = length (Mutator.check_fields 0 0 fs atts).
Proof.
  assert (∀ i j i' j', length (Mutator.check_fields i j fs atts) = length (Mutator.check_fields i' j' fs atts)); [|done].
  clear i j. revert atts. induction fs as [|f fs IH]; intros [|a atts] i j i' j'; try done. simpl.
  rewrite !length_app, (IH _ i (j + 1) i' (j' + 1)). f_equal. unfold Mutator.check_field.
  destruct (bool_decide (f = Null)), (Mutator.forbids_null (constraint a)), (Mutator.wrong_type (dtype a) f); done.
Qed.

Lemma check_fields_index i j fs atts : Forall (λ x, x.1 = i) (Mutator.check_fields i j fs atts).
Proof.
  revert j atts. induction fs as [|f fs IH]; intros j [|a atts]; try constructor.
  simpl. apply Forall_app. split; [|apply IH]. unfold Mutator.check_field.
  destruct (bool_decide (f = Null)), (Mutator.forbids_null (constraint a)), (Mutator.wrong_type (dtype a) f); repeat constructor.
Qed.

Lemma foldM_app {S A} (body : S → A → outcome S) s l l' :
  foldM body s (l ++ l') = (s ← foldM body s l; foldM body s l').
Proof. revert s. induction l as [|x l IH]; intros s; [done|]. simpl. destruct (body s x); [apply IH|done]. Qed.

Lemma vec_remove_at {A} (pre post : list A) x : Mutator.vec_remove (pre ++ x :: post) (zlen pre) = Ret (pre ++ post).
Proof.
  unfold Mutator.vec_remove. rewrite (proj2 (Z.leb_le 0 (zlen pre))), (proj2 (Z.ltb_lt _ _)) by len.
  simpl. unfold zlen. rewrite Nat2Z.id, take_app_length. f_equal. f_equal.
  by rewrite drop_app_ge, (Nat.sub_succ_l _ _ (le_n _)), Nat.sub_diag by lia.
Qed.

Lemma remove_records_ok schema recs pre :
  Forall (λ rec, (offences schema rec ≤ 1)%nat) recs →
  foldM (λ l (x : Z * list ConversionError), Mutator.vec_remove l x.1) (pre ++ recs)
    (reverse (Mutator.check_records (zlen pre) recs schema)) =
  Ret (pre ++ filter (λ rec, offences schema rec = 0%nat) recs).
Proof.
  revert pre. induction recs as [|rec recs IH]; intros pre HF; [done|]. apply Forall_cons in HF as [Hr HF].
  simpl. rewrite reverse_app, foldM_app.
  replace (pre ++ rec :: recs) with ((pre ++ [rec]) ++ recs) by by rewrite <-app_assoc.
  replace (zlen pre + 1) with (zlen (pre ++ [rec])) by (unfold zlen; rewrite length_app; simpl; lia).
  rewrite (IH (pre ++ [rec]) HF), bind_Ret, <-app_assoc, filter_cons. simpl.
  pose proof (check_fields_length (zlen pre) 0 (field_vals rec) (attributes schema)) as Hlen.
  pose proof (check_fields_index (zlen pre) 0 (field_vals rec) (attributes schema)) as Hidx.
  fold (offences schema rec) in Hlen. rewrite <-Hlen in Hr. case_decide as Hz.
  - rewrite Hz in Hlen. by apply length_zero_iff_nil in Hlen as ->.
  - destruct (Mutator.check_fields (zlen pre) 0 _ _) as [|x [|]]; [done| |simpl in Hr; lia].
    apply Forall_inv in Hidx. simpl. by rewrite Hidx, vec_remove_at.
Qed.

Lemma validate_ok (schema : TableSchema) (values : ConvertedResult) :
  Forall (λ rec, (offences schema rec ≤ 1)%nat) (converted values) →
  Mutator.validate_tuples schema None values =
  Ret (Ok (mkConvertedResult (filter (λ rec, offences schema rec = 0%nat) (converted values)) (unconverted values))).
Proof.
  intros HF. unfold Mutator.validate_tuples. pose proof (remove_records_ok schema (converted values) [] HF) as E.
  simpl in E. change (zlen []) with 0 in E. by rewrite E.
Qed.

(** When no record has two offences, validation keeps exactly the records that have
    none, in their order, and leaves the conversion failures as they were. *)
Theorem validate_keeps_valid (schema : TableSchema) (values : ConvertedResult) :
  Forall (λ rec, (offences schema rec ≤ 1)%nat) (converted values) →
  Mutator.validate_tuples schema None values =
  Ret (Ok (mkConvertedResult (filter (λ rec, offences schema rec = 0%nat) (converted values)) (unconverted values))).
Proof. apply validate_ok. Qed.

(** C34: A NULL in a column that forbids it counts twice, as a forbidden NULL and as a value of
    the wrong type, so the record is removed twice: the record that follows, valid as it is,
    goes with it, and when none follows the removal is out of range and panics. *)
Theorem validate_drops_next_record (schema : TableSchema) (a : Attribute) (rec : Tuple) us :
  attributes schema = [a] → Mutator.forbids_null (constraint a) = true → offences schema rec = 0%nat →
  Mutator.validate_tuples schema None (mkConvertedResult [Tup.new [Null]; rec] us) = Ret (Ok (mkConvertedResult [] us)) ∧
  Mutator.validate_tuples schema None (mkConvertedResult [Tup.new [Null]] us) = Panic.
Proof.
  intros Ha Hc Hr. unfold offences in Hr. rewrite Ha in Hr. unfold Mutator.validate_tuples. cbn [converted unconverted].
  assert (Mutator.check_fields 0 0 (field_vals (Tup.new [Null])) [a] = [(0, [NullFieldNotAllowed 0]); (0, [WrongType])]) as E.
  { simpl. unfold Mutator.check_field. simpl. rewrite Hc. by destruct (dtype a). }
  cbn [Mutator.check_records]. rewrite Ha, E. split; [|done].
  rewrite <-(check_fields_length (0 + 1) 0) in Hr. by apply length_zero_iff_nil in Hr as ->.
Qed.

(** ** What an import stores *)

(** Inserting values one by one. *)
Fixpoint insert_each `{StorageTrait SM} (s : SM) (c : Z) (vs : list (list byte)) : outcome (SM * list ValueId) :=
  match vs with
  | [] => Ret (s, [])
  | v :: vs =>
      '(s, id) ← st_insert_value s c v;
      '(s, ids) ← insert_each s c vs;
      Ret (s, id :: ids)
  end.

(** The storage manager is ready for each of the insertions in turn. *)
Fixpoint ready_each `{StorageLaws SM} (s : SM) (c : Z) (vs : list (list byte)) : Prop :=
  match vs with
  | [] => True
  | v :: vs => st_ready s (StInsert c v) ∧ ∀ s' id, st_insert_value s c v = Ret (s', id) → ready_each s' c vs
  end.

(** Bulk insertion into a container inserts the values one by one. *)
Class BulkLaws (SM : Type) `{StorageLaws SM} `{BulkInsert SM} := {
  bulk_each s a c vs : st_rep s a → is_Some (a !! c) → insert_values s c vs = insert_each s c vs
}.

(** [a'] has the values of [a] and, at the new ids [ids], the values [vs]. *)
Definition extended (a a' : store) (c : Z) (ids : list ValueId) (vs : list (list byte)) : Prop :=
  Forall2 (λ id v, container_id id = c ∧ stored a id = None ∧ stored a' id = Some v) ids vs ∧
  NoDup ids ∧ (∀ id v, stored a id = Some v → stored a' id = Some v) ∧
  ∀ id, stored a' id ≠ stored a id → id ∈ ids.

Lemma Forall2_impl_in {A B} (P Q : A → B → Prop) l k :
  Forall2 P l k → (∀ x y, x ∈ l → P x y → Q x y) → Forall2 Q l k.
Proof.
  induction 1 as [|x y l k Hp HF IH]; intros HQ; constructor; [apply HQ; [left|done]|].
  apply IH. intros x' y' Hin. apply HQ. by right.
Qed.

Section Rows.
Context `{Laws : StorageLaws SM}.

Lemma insert_each_ok s a c vs :
  st_rep s a → is_Some (a !! c) → ready_each s c vs →
  ∃ s' ids a', insert_each s c vs = Ret (s', ids) ∧ st_rep s' a' ∧ extended a a' c ids vs.
Proof.
  revert s a. induction vs as [|v vs IH]; intros s a Hrep Hc Hr.
  { exists s, [], a. split_and!; try done. split_and!; [constructor|constructor|done|done]. }
  destruct Hr as [Hready Hnext]. destruct (st_refines s a (StInsert c v) Hrep Hready) as (s1 & r & a1 & E & Hstep & Hrep1).
  inversion Hstep as [c' v' vals id Ha Hid Hcid E1 E2 E3| | | | | | | | |]; subst c' v' r a1. simpl in E.
  destruct (st_insert_value s c v) as [[s2 id2]|] eqn:Ei; [|done]. simpl in E. injection E as -> ->.
  destruct (IH s1 _ Hrep1) as (s3 & ids & a3 & E3 & Hrep3 & Hext); [by rewrite lookup_insert_eq|by apply (Hnext s1 id)|].
  exists s3, (id :: ids), a3. simpl. rewrite Ei, bind_Ret, E3. split_and!; [done|done|].
  destruct Hext as (HF & Hnd & Hkeep & Hnew).
  assert (∀ id', id' ≠ id → stored (<[c:=<[id:=v]> vals]> a) id' = stored a id') as Hother.
  { intros id' Hne. unfold stored. destruct (decide (container_id id' = c)) as [->|];
      [|by rewrite lookup_insert_ne]. rewrite lookup_insert_eq, Ha. simpl. by rewrite lookup_insert_ne. }
  assert (stored (<[c:=<[id:=v]> vals]> a) id = Some v) as Hid1.
  { unfold stored. rewrite Hcid, lookup_insert_eq. simpl. by rewrite lookup_insert_eq. }
  assert (stored a id = None) as Hid0 by (unfold stored; rewrite Hcid, Ha; done).
  assert (id ∉ ids) as Hni.
  { intros Hin. apply list_elem_of_lookup in Hin as [k Hk]. destruct (Forall2_lookup_l _ _ _ _ _ HF Hk) as (? & _ & _ & Hn & _).
    by rewrite Hid1 in Hn. }
  split_and!.
  - constructor; [by auto|]. eapply Forall2_impl_in; [exact HF|]. intros id' v' Hin (? & Hn & ?).
    split_and!; [done| |done]. rewrite <-Hn. symmetry. apply Hother. by intros ->.
  - by constructor.
  - intros id' v' Hs. apply Hkeep. rewrite Hother; [done|]. intros ->. by rewrite Hid0 in Hs.
  - intros id' Hd. apply elem_of_cons. destruct (decide (id' = id)) as [|Hne]; [by left|right].
    apply Hnew. by rewrite Hother.
Qed.

(** The columns of an index are columns of the tuple. *)
Definition keys_in_range (indexes : list IndexInfo) (t : Tuple) : Prop :=
  Forall (λ ix, Forall (λ i, 0 ≤ i < zlen (field_vals t)) (ii_columns ix)) indexes.

Lemma extract_key_ok t cols : Forall (λ i, 0 ≤ i < zlen (field_vals t)) cols → ∃ key, extract_key t cols = Ret key.
Proof.
  induction cols as [|i cols IH]; intros HF; [by exists []|]. apply Forall_cons in HF as [Hi HF].
  destruct (IH HF) as [key Hk]. destruct (nth_u_is_Some (field_vals t) i Hi) as [f Hf].
  exists (f :: key). simpl. unfold Tup.get_field. rewrite Hf. simpl. by rewrite Hk.
Qed.

End Rows.

(** ** The two storage managers *)

Lemma ms_bulk_each (s : StorageManager) c vs : insert_values s c vs = insert_each s c vs.
Proof.
  revert s. induction vs as [|v vs IH]; intros s; [done|]. simpl.
  destruct (Ms.insert_value s c v) as [[s' id]|]; [|done]. simpl. by rewrite <-IH.
Qed.

Lemma hs_bulk_each `{MemPoolLaws P} (s : HeapStore P) a c vs :
  hs_rep s a → is_Some (a !! c) → insert_values s c vs = insert_each s c vs.
Proof.
  intros Hrep Hc. apply (hr_dom s a Hrep) in Hc as [hf Hhf]. clear Hrep. revert s Hhf.
  induction vs as [|v vs IH]; intros s Hhf; simpl; unfold Hs.insert_values, Hs.insert_value, Hs.get_heapfile; rewrite Hhf; simpl.
  { by destruct s. }
  destruct (HeapFile.add_val (bp s) hf v) as [[m [id|e]]|]; [|done..]. simpl.
  specialize (IH (Hs.set_bp s m) Hhf). rewrite <-IH. simpl. unfold Hs.insert_values, Hs.get_heapfile. simpl. rewrite Hhf. simpl.
  by destruct (HeapFile.add_vals m hf vs) as [[m' [ids|e]]|].
Qed.

#[global] Instance Ms_bulk_laws : BulkLaws StorageManager.
Proof. split. intros s a c vs _ _. apply ms_bulk_each. Qed.
#[global] Instance Hs_bulk_laws `{MemPoolLaws P} : BulkLaws (HeapStore P).
Proof. split. intros s a c vs. apply hs_bulk_each. Qed.

(** ** Examples *)

(** A system whose statistics, indexes and timestamps keep nothing. *)
Module Quiet.
#[export] Instance stats : StatManager StorageManager := {| new_record s t v := Ret (s, Ok tt) |}.
#[export] Instance index : IndexTrait StorageManager := {|
  ix_search s i key := Ret (s, Ok []);
  ix_insert_entry s i key v := Ret (s, Ok tt);
  ix_delete_entry s i key v := Ret (s, Ok tt)
|}.
#[export] Instance tracker : StateTracker StorageManager := {| set_ts s c ts := s |}.

(** Rows of one integer, as one byte. *)
#[export] Instance codec : TupleCodec := {|
  tuple_to_bytes t := match field_vals t with
                      | BigInt z :: _ => match Byte.of_N (Z.to_N z) with Some b => [b] | None => [] end
                      | _ => []
                      end;
  tuple_from_bytes bs := Ret (Tup.new (BigInt ∘ Z.of_N ∘ Byte.to_N <$> bs))
|}.
End Quiet.

Definition one_column (c : Constraint) : TableSchema := Schema.new [mkAttribute [] TBigInt c].

Lemma validate_keeps_valid_witness :
  Mutator.validate_tuples (one_column CNone) None
    (mkConvertedResult [Tup.new [FString []]; Tup.new [BigInt 7]; Tup.new [Null]] []) =
  Ret (Ok (mkConvertedResult [Tup.new [BigInt 7]; Tup.new [Null]] [])).
Proof. apply validate_keeps_valid. repeat constructor; simpl; lia. Defined.

Lemma validate_drops_next_record_witness :
  Mutator.validate_tuples (one_column NotNull) None (mkConvertedResult [Tup.new [Null]; Tup.new [BigInt 7]] []) =
    Ret (Ok (mkConvertedResult [] [])) ∧
  Mutator.validate_tuples (one_column NotNull) None (mkConvertedResult [Tup.new [Null]] []) = Panic.
Proof. by apply (validate_drops_next_record _ (mkAttribute [] TBigInt NotNull)). Defined.
