(* ===== verification/TreeIndex.v ===== *)
(** * B+tree indexes: operations

    Models [index/src/tree.rs], generic in the memory pool. A node of the tree is a slotted
    page with one entry per slot, in no particular order: an entry that tells whether the
    node is a leaf and what its siblings are, and the entries of the node. Page 0 stores the
    page id of the root.

    The bytes of entries are CBOR, which a library reads and writes: [NodeCodec]. A guard is
    dropped where the source drops it, also on the early returns of [?]. Recursion down the
    tree and along the leaves is bounded by the number of pages of the container, which is
    enough for a tree without cycles. *)

From stdpp Require Import strings.
From S2P Require Import Prelude Common Ordering HeapPage BufferFrame MemPool Field.

Open Scope Z_scope.

Abbreviation IndexKey := (list Field).
Definition key_cmp : IndexKey → IndexKey → comparison := cmp_list field_cmp.

(** ** Entries *)

Inductive NodeEntry :=
  | NMeta (is_leaf : bool) (left_sibling right_sibling : option Z)
  | NInternal (key : option IndexKey) (child : Z)
  | NLeaf (key : IndexKey) (rid : ValueId).

Definition rid_cmp (a b : ValueId) : comparison :=
  cmp_then (container_id a ?= container_id b)
    (cmp_then (cmp_option Z.compare (page_id a) (page_id b)) (cmp_option Z.compare (slot_id a) (slot_id b))).

Abbreviation leaf_entry := (IndexKey * ValueId)%type.
Abbreviation child_entry := (option IndexKey * Z)%type.

(** The orders the entries of a node are sorted by. *)
Definition leaf_le (a b : leaf_entry) : bool :=
  match cmp_then (key_cmp a.1 b.1) (rid_cmp a.2 b.2) with Gt => false | _ => true end.
Definition child_le (a b : child_entry) : bool := cmp_le (cmp_option key_cmp) a.1 b.1.

Class NodeCodec := {
  encode : NodeEntry → result CrustyError (list byte);
  decode : list byte → result CrustyError NodeEntry
}.

(** ** Loops over the entries of a page *)

(** What a round of a loop does: go on, or leave the function with a result. *)
Inductive flow (A B : Type) := Continue (a : A) | Return (b : B).
Arguments Continue {A B} a.
Arguments Return {A B} b.

(** [for (bytes, slot_id) in page.iter()]; [fuel] bounds the rounds. *)
Fixpoint for_iter {A B} (fuel : nat) (body : A → list byte → Z → flow A B) (it : HeapPage.HeapPageIter) (acc : A) :
  outcome (flow A B) :=
  match fuel with
  | O => Panic
  | S fuel =>
      '(it, x) ← HeapPage.next it;
      match x with
      | None => Ret (Continue acc)
      | Some (bytes, slot_id) =>
          match body acc bytes slot_id with
          | Continue acc => for_iter fuel body it acc
          | Return b => Ret (Return b)
          end
      end
  end.

Definition for_entries {A B} (p : Page) (body : A → list byte → Z → flow A B) (acc : A) : outcome (flow A B) :=
  n ← HeapPage.get_num_slots p; for_iter (S (Z.to_nat n)) body (HeapPage.iter p) acc.

(** A loop that decodes every entry and leaves with the error when one does not decode. *)
Definition decoding `{NodeCodec} {A B} (body : A → NodeEntry → Z → flow A (result CrustyError B))
    (acc : A) (bytes : list byte) (slot_id : Z) : flow A (result CrustyError B) :=
  match decode bytes with
  | Err e => Return (Err e)
  | Ok entry => body acc entry slot_id
  end.

Definition after_loop {A B} (f : flow A (result CrustyError B)) (k : A → result CrustyError B) : result CrustyError B :=
  match f with Continue a => k a | Return r => r end.

Module TreeIndex.
Section Nodes.
Context `{NodeCodec}.

Definition read_is_leaf (page : Page) : outcome (result CrustyError bool) :=
  r ← for_entries page
        (decoding (λ _ entry _, match entry with NMeta is_leaf _ _ => Return (Ok is_leaf) | _ => Continue tt end)) tt;
  Ret (after_loop r (λ _, Err (c_err "index node missing meta entry"))).

Definition read_internal_entries (page : Page) : outcome (result CrustyError (list child_entry)) :=
  r ← for_entries page
        (decoding (λ entries entry _,
           match entry with NInternal key child => Continue (entries ++ [(key, child)]) | _ => Continue entries end)) [];
  Ret (after_loop r (λ entries, Ok (sort_by child_le entries))).

(** The entries of a leaf as they are found, with its siblings and the slots. *)
Definition leaf_step (acc : option Z * option Z * list leaf_entry * list Z) (entry : NodeEntry) (slot_id : Z) :
  flow (option Z * option Z * list leaf_entry * list Z) (result CrustyError (option Z * option Z * list leaf_entry * list Z)) :=
  let '(left_sibling, right_sibling, entries, slots) := acc in
  match entry with
  | NMeta _ ls rs => Continue (ls, rs, entries, slots ++ [slot_id])
  | NLeaf key rid => Continue (left_sibling, right_sibling, entries ++ [(key, rid)], slots ++ [slot_id])
  | NInternal _ _ => Return (Err (c_err "expected leaf node"))
  end.

Definition read_leaf_entries (page : Page) : outcome (result CrustyError (option Z * option Z * list leaf_entry)) :=
  r ← for_entries page (decoding leaf_step) (None, None, [], []);
  Ret (match after_loop r Ok with
       | Ok (left_sibling, right_sibling, entries, _) => Ok (left_sibling, right_sibling, sort_by leaf_le entries)
       | Err e => Err e
       end).

(** Ties go to the last matching entry. *)
Fixpoint find_child_from (result : Z) (entries : list child_entry) (key : IndexKey) : Z :=
  match entries with
  | [] => result
  | (None, child) :: entries => find_child_from child entries key
  | (Some k, child) :: entries => if cmp_le key_cmp k key then find_child_from child entries key else result
  end.

Definition find_child (entries : list child_entry) (key : IndexKey) : outcome Z :=
  first ← unwrap (head entries);
  Ret (find_child_from first.2 entries key).

(** [entries.last().map(|(k, _)| k == key).unwrap_or(false)] *)
Definition last_matches (entries : list leaf_entry) (key : IndexKey) : bool :=
  match last entries with Some (k, _) => bool_decide (k = key) | None => false end.

(** Deleting the values of the slots one by one. *)
Fixpoint delete_slots (page : Page) (slots : list Z) : outcome Page :=
  match slots with
  | [] => Ret page
  | slot_id :: slots => '(page, _) ← HeapPage.delete_value page slot_id; delete_slots page slots
  end.

Definition drain_leaf (page : Page) : outcome (Page * result CrustyError (option Z * option Z * list leaf_entry)) :=
  r ← for_entries page (decoding leaf_step) (None, None, [], []);
  match after_loop r Ok with
  | Ok (left_sibling, right_sibling, entries, slots) =>
      page ← delete_slots page slots; Ret (page, Ok (left_sibling, right_sibling, entries))
  | Err e => Ret (page, Err e)
  end.

Definition drain_internal (page : Page) : outcome (Page * result CrustyError (list child_entry)) :=
  r ← for_entries page
        (decoding (λ '(entries, slots) entry slot_id,
           match entry with
           | NInternal key child => Continue (entries ++ [(key, child)], slots ++ [slot_id])
           | _ => Continue (entries, slots ++ [slot_id])
           end)) ([], []);
  match after_loop r Ok with
  | Ok (entries, slots) => page ← delete_slots page slots; Ret (page, Ok (sort_by child_le entries))
  | Err e => Ret (page, Err e)
  end.
End Nodes.

Section Pool.
Context `{MemPool P} `{NodeCodec}.

(** [?] on a result. *)
Definition try {A B} (r : outcome (P * result CrustyError A)) (k : P → A → outcome (P * result CrustyError B)) :
  outcome (P * result CrustyError B) :=
  '(m, r) ← r;
  match r with Ok a => k m a | Err e => Ret (m, Err e) end.

(** The same while [guards] are held for writing, or [g] for reading: an early return drops
    them, the last one first. *)
Fixpoint drop_all (m : P) (guards : list frame_guard) : outcome P :=
  match guards with [] => Ret m | g :: guards => m ← drop_write m g; drop_all m guards end.
Definition try_holding {A B} (guards : list frame_guard) (r : outcome (P * result CrustyError A))
    (k : P → A → outcome (P * result CrustyError B)) : outcome (P * result CrustyError B) :=
  '(m, r) ← r;
  match r with Ok a => k m a | Err e => m ← drop_all m guards; Ret (m, Err e) end.

Definition get_page_for_read (m : P) (c page_id : Z) : outcome (P * result CrustyError frame_guard) :=
  '(m, r) ← mp_get_page_for_read m (PageFrameIds.new c page_id);
  Ret (m, match r with Ok g => Ok g | Err _ => Err (c_err "index page read error") end).

Definition get_page_for_write (m : P) (c page_id : Z) : outcome (P * result CrustyError frame_guard) :=
  '(m, r) ← mp_get_page_for_write m (PageFrameIds.new c page_id);
  Ret (m, match r with Ok g => Ok g | Err _ => Err (c_err "index page write error") end).

Definition create_page (m : P) (c : Z) : outcome (P * result CrustyError frame_guard) :=
  '(m, r) ← mp_create_new_page_for_write m c;
  Ret (m, match r with Ok g => Ok g | Err _ => Err (c_err "create_new_page_for_write") end).

(** A block that latches a page for reading, looks at it and lets it go. *)
Definition reading {A} (m : P) (c page_id : Z) (look : Page → outcome (result CrustyError A)) :
  outcome (P * result CrustyError A) :=
  try (get_page_for_read m c page_id) (λ m g,
  p ← deref m g;
  a ← look p;
  m ← drop_read m g;
  Ret (m, a)).

(** Changing the page of a write guard. *)
Definition modify {A} (m : P) (g : frame_guard) (f : Page → outcome (Page * A)) : outcome (P * A) :=
  p ← deref m g;
  '(p, a) ← f p;
  m ← deref_mut m g p;
  Ret (m, a).

Definition init_page (m : P) (g : frame_guard) : outcome P :=
  '(m, _) ← modify m g (λ p, p ← HeapPage.init_heap_page p; Ret (p, tt)); Ret m.

(** Encoding an entry and adding it; whether it fits is not looked at. *)
Definition add_entry (m : P) (g : frame_guard) (entry : NodeEntry) : outcome (P * result CrustyError unit) :=
  match encode entry with
  | Err e => Ret (m, Err e)
  | Ok bytes => '(m, _) ← modify m g (λ p, HeapPage.add_value p bytes); Ret (m, Ok tt)
  end.

Fixpoint add_entries (m : P) (g : frame_guard) (entries : list NodeEntry) : outcome (P * result CrustyError unit) :=
  match entries with
  | [] => Ret (m, Ok tt)
  | entry :: entries => try (add_entry m g entry) (λ m _, add_entries m g entries)
  end.

Definition page_id_of (m : P) (g : frame_guard) : outcome Z := p ← deref m g; Pages.get_page_id p.

(** A tree is the id of its container; the pool is the shared state. *)
Definition new (m : P) (c : Z) : outcome (P * result CrustyError Z) :=
  try (create_page m c) (λ m header,
  m ← init_page m header;
  try_holding [header] (create_page m c) (λ m root,
  m ← init_page m root;
  try_holding [root; header] (add_entry m root (NMeta true None None)) (λ m _,
  root_id ← page_id_of m root;
  m ← drop_write m root;
  '(m, _) ← modify m header (λ p, HeapPage.add_value p (le_split 4 root_id));
  m ← drop_write m header;
  Ret (m, Ok c)))).

Definition load (c : Z) : Z := c.

Definition get_root_page_id (m : P) (c : Z) : outcome (P * result CrustyError Z) :=
  reading m c 0 (λ p,
    v ← HeapPage.get_value p 0;
    Ret (match v with
         | None => Err (c_err "index header missing root pointer")
         | Some bytes => if zlen bytes =? 4 then Ok (le_combine bytes) else Err (c_err "corrupt index header")
         end)).

Definition set_root_page_id (m : P) (c new_root : Z) : outcome (P * result CrustyError unit) :=
  try (get_page_for_write m c 0) (λ m g,
  '(m, r) ← modify m g (λ p, HeapPage.update_value p 0 (le_split 4 new_root));
  m ← drop_write m g;
  Ret (m, ok_or r (c_err "failed to update index root pointer"))).

Definition set_leaf_left_sibling (m : P) (c leaf_id : Z) (new_left : option Z) : outcome (P * result CrustyError unit) :=
  try (get_page_for_write m c leaf_id) (λ m g,
  p ← deref m g;
  r ← for_entries p
        (decoding (λ _ entry slot_id,
           match entry with
           | NMeta is_leaf _ right_sibling => Return (Ok (slot_id, is_leaf, right_sibling))
           | _ => Continue tt
           end)) tt;
  match after_loop r (λ _, Err (c_err "index node missing meta entry")) with
  | Err e => m ← drop_write m g; Ret (m, Err e)
  | Ok (slot_id, is_leaf, right_sibling) =>
      match encode (NMeta is_leaf new_left right_sibling) with
      | Err e => m ← drop_write m g; Ret (m, Err e)
      | Ok new_meta =>
          '(m, r) ← modify m g (λ p, HeapPage.update_value p slot_id new_meta);
          m ← drop_write m g;
          Ret (m, ok_or r (c_err "failed to re-thread leaf sibling pointer"))
      end
  end).

(** The pages of the container bound the depth of the tree and the length of its leaves. *)
Definition fuel (m : P) (c : Z) : nat := S (Z.to_nat (default 0 (mp_get_max_page_id m c))).

(** [Some child] when the page is an internal node: the child to follow. *)
Definition read_child (key : IndexKey) (p : Page) : outcome (result CrustyError (option Z)) :=
  r ← read_is_leaf p;
  match r with
  | Err e => Ret (Err e)
  | Ok true => Ret (Ok None)
  | Ok false =>
      r ← read_internal_entries p;
      match r with
      | Err e => Ret (Err e)
      | Ok entries => child ← find_child entries key; Ret (Ok (Some child))
      end
  end.

Fixpoint find_leaf (fuel : nat) (m : P) (c page_id : Z) (key : IndexKey) : outcome (P * result CrustyError Z) :=
  match fuel with
  | O => Panic
  | S fuel =>
      try (reading m c page_id (read_child key)) (λ m child,
      match child with
      | None => Ret (m, Ok page_id)
      | Some child => find_leaf fuel m c child key
      end)
  end.

Fixpoint leftmost_run_leaf (fuel : nat) (m : P) (c current : Z) (key : IndexKey) : outcome (P * result CrustyError Z) :=
  match fuel with
  | O => Panic
  | S fuel =>
      try (reading m c current read_leaf_entries) (λ m '(left_sibling, _, _),
      match left_sibling with
      | None => Ret (m, Ok current)
      | Some prev_id =>
          try (reading m c prev_id read_leaf_entries) (λ m '(_, _, prev_entries),
          if last_matches prev_entries key then leftmost_run_leaf fuel m c prev_id key
          else Ret (m, Ok current))
      end)
  end.

(** The scan to the right; the guard of a page is dropped at the end of its round. *)
Fixpoint collect_run (fuel : nat) (m : P) (c : Z) (current : option Z) (key : IndexKey) (results : list ValueId) :
  outcome (P * result CrustyError (list ValueId)) :=
  match current with
  | None => Ret (m, Ok results)
  | Some page_id =>
      match fuel with
      | O => Panic
      | S fuel =>
          try (reading m c page_id read_leaf_entries) (λ m '(_, right_sibling, entries),
          collect_run fuel m c (if last_matches entries key then right_sibling else None) key
            (results ++ (List.filter (λ e : leaf_entry, bool_decide (e.1 = key)) entries).*2))
      end
  end.

Definition search (m : P) (c : Z) (key : IndexKey) : outcome (P * result CrustyError (list ValueId)) :=
  let n := fuel m c in
  try (get_root_page_id m c) (λ m root_id,
  try (find_leaf n m c root_id key) (λ m landed,
  try (leftmost_run_leaf n m c landed key) (λ m first,
  collect_run n m c (Some first) key []))).

(** The node of [g] is full: its entries and the new one are divided between its page and a
    new one. *)
Definition split_leaf (m : P) (c page_id : Z) (g : frame_guard) (key : IndexKey) (rid : ValueId) :
  outcome (P * result CrustyError (option (IndexKey * Z))) :=
  try_holding [g] (modify m g drain_leaf) (λ m '(left_sibling, old_right_sibling, entries),
  let entries := sort_by leaf_le (entries ++ [(key, rid)]) in
  let mid := (length entries / 2)%nat in
  let left_entries := take mid entries in
  let right_entries := drop mid entries in
  first ← unwrap (head right_entries);
  try_holding [g] (create_page m c) (λ m right,
  m ← init_page m right;
  try_holding [right; g]
    (add_entries m right
       (NMeta true (Some page_id) old_right_sibling :: map (λ e : leaf_entry, NLeaf e.1 e.2) right_entries)) (λ m _,
  right_page_id ← page_id_of m right;
  m ← drop_write m right;
  try_holding [g]
    (add_entries m g
       (NMeta true left_sibling (Some right_page_id) :: map (λ e : leaf_entry, NLeaf e.1 e.2) left_entries)) (λ m _,
  m ← drop_write m g;
  match old_right_sibling with
  | Some old_right_id =>
      try (set_leaf_left_sibling m c old_right_id (Some right_page_id)) (λ m _,
      Ret (m, Ok (Some (first.1, right_page_id))))
  | None => Ret (m, Ok (Some (first.1, right_page_id)))
  end)))).

(** A split gives the separator and the new node right of it. *)
Definition insert_into_leaf (m : P) (c page_id : Z) (key : IndexKey) (rid : ValueId) :
  outcome (P * result CrustyError (option (IndexKey * Z))) :=
  try (get_page_for_write m c page_id) (λ m g,
  match encode (NLeaf key rid) with
  | Err e => m ← drop_write m g; Ret (m, Err e)
  | Ok entry_bytes =>
      '(m, added) ← modify m g (λ p, HeapPage.add_value p entry_bytes);
      match added with
      | Some _ => m ← drop_write m g; Ret (m, Ok None)
      | None => split_leaf m c page_id g key rid
      end
  end).

Definition split_internal (m : P) (g : frame_guard) (c : Z) (sep_key : IndexKey) (new_child : Z) :
  outcome (P * result CrustyError (option (IndexKey * Z))) :=
  try_holding [g] (modify m g drain_internal) (λ m entries,
  let entries := sort_by child_le (entries ++ [(Some sep_key, new_child)]) in
  let mid := (length entries / 2)%nat in
  let left_entries := take mid entries in
  mid_entry ← unwrap (entries !! mid);
  let right_rest := drop (S mid) entries in
  match mid_entry.1 with
  | None =>
      m ← drop_write m g;
      Ret (m, Err (c_err "internal split picked the leftmost sentinel as separator"))
  | Some separator =>
      try_holding [g] (create_page m c) (λ m right,
      m ← init_page m right;
      try_holding [right; g]
        (add_entries m right
           (NMeta false None None :: NInternal None mid_entry.2 :: map (λ e : child_entry, NInternal e.1 e.2) right_rest)) (λ m _,
      right_page_id ← page_id_of m right;
      m ← drop_write m right;
      try_holding [g]
        (add_entries m g (NMeta false None None :: map (λ e : child_entry, NInternal e.1 e.2) left_entries)) (λ m _,
      m ← drop_write m g;
      Ret (m, Ok (Some (separator, right_page_id))))))
  end).

Definition insert_into_internal (m : P) (c page_id : Z) (sep_key : IndexKey) (new_child : Z) :
  outcome (P * result CrustyError (option (IndexKey * Z))) :=
  try (get_page_for_write m c page_id) (λ m g,
  match encode (NInternal (Some sep_key) new_child) with
  | Err e => m ← drop_write m g; Ret (m, Err e)
  | Ok entry_bytes =>
      '(m, added) ← modify m g (λ p, HeapPage.add_value p entry_bytes);
      match added with
      | Some _ => m ← drop_write m g; Ret (m, Ok None)
      | None => split_internal m g c sep_key new_child
      end
  end).

Fixpoint insert_recursive (fuel : nat) (m : P) (c page_id : Z) (key : IndexKey) (rid : ValueId) :
  outcome (P * result CrustyError (option (IndexKey * Z))) :=
  match fuel with
  | O => Panic
  | S fuel =>
      try (reading m c page_id read_is_leaf) (λ m is_leaf,
      if is_leaf : bool then insert_into_leaf m c page_id key rid
      else
        try (reading m c page_id (λ p,
               r ← read_internal_entries p;
               match r with
               | Err e => Ret (Err e)
               | Ok entries => child ← find_child entries key; Ret (Ok child)
               end)) (λ m child_id,
        try (insert_recursive fuel m c child_id key rid) (λ m split,
        match split with
        | Some (sep_key, new_child_id) => insert_into_internal m c page_id sep_key new_child_id
        | None => Ret (m, Ok None)
        end)))
  end.

Definition insert (m : P) (c : Z) (key : IndexKey) (rid : ValueId) : outcome (P * result CrustyError unit) :=
  try (get_root_page_id m c) (λ m root_id,
  try (insert_recursive (fuel m c) m c root_id key rid) (λ m split,
  match split with
  | None => Ret (m, Ok tt)
  | Some (sep_key, new_page_id) =>
      try (create_page m c) (λ m new_root,
      m ← init_page m new_root;
      try_holding [new_root]
        (add_entries m new_root [NMeta false None None; NInternal None root_id; NInternal (Some sep_key) new_page_id]) (λ m _,
      new_root_id ← page_id_of m new_root;
      m ← drop_write m new_root;
      set_root_page_id m c new_root_id))
  end)).

(** A round of [delete]: the slot of the entry when the leaf has it, whether the last entry
    of the leaf has the key, and the right sibling. *)
Definition look_for (key : IndexKey) (rid : ValueId) (p : Page) : outcome (result CrustyError (option Z * bool * option Z)) :=
  r ← for_entries p
        (decoding (λ _ entry slot_id,
           match entry with
           | NLeaf k r => if bool_decide (k = key) && bool_decide (r = rid) then Return (Ok (Some slot_id)) else Continue tt
           | _ => Continue tt
           end)) tt;
  match after_loop r (λ _, Ok None) with
  | Err e => Ret (Err e)
  | Ok found_slot =>
      r ← read_leaf_entries p;
      Ret (match r with
           | Err e => Err e
           | Ok (_, right_sibling, entries) => Ok (found_slot, last_matches entries key, right_sibling)
           end)
  end.

Fixpoint delete_loop (fuel : nat) (m : P) (c current : Z) (key : IndexKey) (rid : ValueId) : outcome (P * result CrustyError unit) :=
  match fuel with
  | O => Panic
  | S fuel =>
      try (reading m c current (look_for key rid)) (λ m '(found_slot, last_matches, right_sibling),
      match found_slot with
      | Some slot_id =>
          try (get_page_for_write m c current) (λ m g,
          '(m, _) ← modify m g (λ p, HeapPage.delete_value p slot_id);
          m ← drop_write m g;
          Ret (m, Ok tt))
      | None =>
          match last_matches, right_sibling with
          | true, Some next => delete_loop fuel m c next key rid
          | _, _ => Ret (m, Ok tt)
          end
      end)
  end.

Definition delete (m : P) (c : Z) (key : IndexKey) (rid : ValueId) : outcome (P * result CrustyError unit) :=
  let n := fuel m c in
  try (get_root_page_id m c) (λ m root_id,
  try (find_leaf n m c root_id key) (λ m landed,
  try (leftmost_run_leaf n m c landed key) (λ m first,
  delete_loop n m c first key rid))).
End Pool.
End TreeIndex.
