(* ===== verification/TreeNode.v ===== *)
(** * B+tree nodes as pages

    What the slotted page of a node holds, as a list of entries up to their order, and what
    reading, adding, draining and refilling do to it. The laws of the codec are hypotheses:
    an entry decodes to what was encoded, in 16 to 100 bytes (in CBOR, an entry with an
    integer key has 20 to 90). With such sizes the halves of a full node always fit their
    pages, which matters because the code does not look at whether they do. *)

From S2P Require Import Prelude Common Ordering HeapPage HeapPageView HeapPageSpec.
From S2P Require Import HeapPageUpdate HeapPageContract BufferFrame MemPool HeapFile.
From S2P Require Import HeapFileSpec.
From S2P Require Import Field FieldContract TreeIndex.
From stdpp Require Import strings sorting.

Open Scope Z_scope.

(** ** Sorting entries with distinct keys *)

Lemma NoDup_fst_eq {A B} (l : list (A * B)) k a b :
  NoDup l.*1 → (k, a) ∈ l → (k, b) ∈ l → a = b.
Proof.
  intros Hn (i & Hi)%list_elem_of_lookup (j & Hj)%list_elem_of_lookup.
  assert (i = j) as ->; [|congruence].
  eapply (NoDup_lookup _ i j k Hn); by rewrite list_lookup_fmap, ?Hi, ?Hj.
Qed.

Lemma sort_by_unique {A B} (leb : A * B → A * B → bool) l k :
  (∀ x y, leb x y = false → leb y x = true) →
  (∀ x y z, leb x y = true → leb y z = true → leb x z = true) →
  (∀ x y, leb x y = true → leb y x = true → x.1 = y.1) →
  NoDup k.*1 → StronglySorted (λ a b, leb a b = true) k → l ≡ₚ k → sort_by leb l = k.
Proof.
  intros Ht Htr Heq Hn Hs Hp.
  apply (StronglySorted_unique_strong (λ a b, leb a b = true)); [|by apply sort_by_sorted|done|].
  - intros [a x] [b y] Ha Hb H1 H2. rewrite sort_by_Permutation, Hp in Ha.
    specialize (Heq _ _ H1 H2). simpl in Heq. subst b. by rewrite (NoDup_fst_eq k a x y).
  - by rewrite sort_by_Permutation.
Qed.

#[global] Instance key_ord_laws : OrdLaws key_cmp.
Proof. unfold key_cmp. apply _. Qed.

Definition key_lt (a b : IndexKey) : Prop := key_cmp a b = Lt.
Definition child_lt (a b : option IndexKey) : Prop := cmp_option key_cmp a b = Lt.

Lemma key_lt_irrefl a : ¬ key_lt a a.
Proof. unfold key_lt. by rewrite cmp_refl. Qed.
Lemma key_lt_trans a b c : key_lt a b → key_lt b c → key_lt a c.
Proof. apply (cmp_trans (cmp := key_cmp)). Qed.
Lemma key_lt_total a b : key_lt a b ∨ a = b ∨ key_lt b a.
Proof.
  unfold key_lt. rewrite (cmp_opp (cmp := key_cmp) a b). destruct (key_cmp a b) eqn:E; simpl; auto.
  right; left. by apply (cmp_eq (cmp := key_cmp)).
Qed.

Lemma sorted_lt_NoDup {A} (R : A → A → Prop) (l : list A) :
  (∀ a, ¬ R a a) → StronglySorted R l → NoDup l.
Proof.
  intros Hi. induction 1 as [|x l _ IH Hx]; constructor; [|done].
  intros Hin. rewrite Forall_forall in Hx. by eapply Hi, Hx.
Qed.

Lemma StronglySorted_fmap {A B} (R : B → B → Prop) (f : A → B) (l : list A) :
  StronglySorted R (f <$> l) ↔ StronglySorted (λ a b, R (f a) (f b)) l.
Proof.
  induction l as [|x l IH]; [by split; constructor|]. rewrite fmap_cons. split.
  - intros [H1 H2]%StronglySorted_inv. constructor; [by apply IH|]. by rewrite Forall_fmap in H2.
  - intros [H1 H2]%StronglySorted_inv. constructor; [by apply IH|]. by rewrite Forall_fmap.
Qed.

(** The order of the entries of a leaf, as a comparison. *)
Definition rid_key (r : ValueId) : list (option Z) := [Some (container_id r); page_id r; slot_id r].
Definition leaf_cmp (a b : leaf_entry) : comparison :=
  cmp_then (key_cmp a.1 b.1) (cmp_list (cmp_option Z.compare) (rid_key a.2) (rid_key b.2)).

Lemma leaf_le_cmp a b : leaf_le a b = match leaf_cmp a b with Gt => false | _ => true end.
Proof.
  unfold leaf_le, leaf_cmp, rid_cmp, rid_key. destruct (key_cmp _ _); [|done..]. cbn [cmp_then cmp_list cmp_option].
  destruct (container_id _ ?= _); [|done..]. destruct (cmp_option _ (page_id _) _); [|done..].
  by destruct (cmp_option _ (slot_id _) _).
Qed.

Lemma leaf_le_total a b : leaf_le a b = false → leaf_le b a = true.
Proof.
  rewrite !leaf_le_cmp. unfold leaf_cmp.
  rewrite (cmp_opp (cmp := key_cmp) a.1 b.1), (cmp_opp (cmp := cmp_list (cmp_option Z.compare)) (rid_key a.2) (rid_key b.2)).
  by destruct (key_cmp _ _), (cmp_list _ _ _).
Qed.

Lemma leaf_le_trans a b c : leaf_le a b = true → leaf_le b c = true → leaf_le a c = true.
Proof.
  rewrite !leaf_le_cmp. unfold leaf_cmp.
  destruct (key_cmp a.1 b.1) eqn:E1, (key_cmp b.1 c.1) eqn:E2; cbn [cmp_then]; try done.
  - apply (cmp_eq (cmp := key_cmp)) in E1, E2. rewrite E1, E2, (cmp_refl (cmp := key_cmp)).
    apply (cmp_le_trans (cmp_list (cmp_option Z.compare)) (rid_key a.2) (rid_key b.2) (rid_key c.2)).
  - apply (cmp_eq (cmp := key_cmp)) in E1. by rewrite E1, E2.
  - apply (cmp_eq (cmp := key_cmp)) in E2. by rewrite <-E2, E1.
  - by rewrite (cmp_trans (cmp := key_cmp) _ _ _ E1 E2).
Qed.

Lemma leaf_le_key a b : leaf_le a b = true → leaf_le b a = true → a.1 = b.1.
Proof.
  rewrite !leaf_le_cmp. unfold leaf_cmp. rewrite (cmp_opp (cmp := key_cmp) a.1 b.1).
  destruct (key_cmp a.1 b.1) eqn:E; simpl; try done. intros _ _. by apply (cmp_eq (cmp := key_cmp)).
Qed.

Lemma sort_leaf l k :
  StronglySorted key_lt k.*1 → l ≡ₚ k → sort_by leaf_le l = k.
Proof.
  intros Hs. apply sort_by_unique;
    [exact leaf_le_total|exact leaf_le_trans|exact leaf_le_key|by eapply (sorted_lt_NoDup key_lt); [apply key_lt_irrefl|]|].
  apply (StronglySorted_fmap key_lt fst) in Hs. eapply StronglySorted_weaken; [|exact Hs].
  intros a b E. rewrite leaf_le_cmp. unfold leaf_cmp, key_lt in *. by rewrite E.
Qed.

Lemma sort_child l k :
  StronglySorted child_lt k.*1 → l ≡ₚ k → sort_by child_le l = k.
Proof.
  intros Hs. apply sort_by_unique; unfold child_le.
  - intros x y. apply cmp_le_total, _.
  - intros x y z. apply cmp_le_trans, _.
  - intros x y. apply cmp_le_antisym, _.
  - eapply (sorted_lt_NoDup child_lt); [|exact Hs]. intros a. unfold child_lt. by rewrite cmp_refl.
  - apply (StronglySorted_fmap child_lt fst) in Hs. eapply StronglySorted_weaken; [|exact Hs].
    intros a b E. unfold cmp_le, child_lt in *. by rewrite E.
Qed.

(** ** Visiting the entries of a page *)

Section Visit.
Context {A B : Type}.

Fixpoint visit {X} (body : A → X → Z → flow A B) (acc : A) (l : list (X * Z)) : flow A B :=
  match l with
  | [] => Continue acc
  | (x, i) :: l => match body acc x i with Continue acc => visit body acc l | Return b => Return b end
  end.

Lemma for_iter_ok p (body : A → list byte → Z → flow A B) fuel c acc :
  layout p → 0 ≤ c ≤ num_slots p → num_slots p - c < Z.of_nat fuel →
  for_iter fuel body (HeapPage.mkIter p c) acc = Ret (visit body acc (entries p c)).
Proof.
  intros Hly. pose proof (ly_len p Hly). revert c acc.
  induction fuel as [|fuel IH]; intros c acc Hc Hf; [lia|]. cbn [for_iter]. unfold HeapPage.next.
  cbn [HeapPage.current_slot HeapPage.iter_page]. rewrite get_num_slots_ok, bind_Ret by done.
  destruct (next_loop_ok p Hly (S (Z.to_nat (num_slots p - c))) c) as (c' & r & -> & Hr); [lia..|].
  rewrite bind_Ret. destruct r as [[v i]|].
  - destruct Hr as [? ->]. cbn [visit]. destruct (body acc v i); [|done]. apply IH; lia.
  - by destruct Hr as [_ ->].
Qed.

Lemma for_entries_ok p (body : A → list byte → Z → flow A B) acc :
  layout p → for_entries p body acc = Ret (visit body acc (entries p 0)).
Proof.
  intros Hly. pose proof (num_slots_bound p). unfold for_entries, HeapPage.iter.
  rewrite get_num_slots_ok, bind_Ret by apply Hly. apply for_iter_ok; [done|lia..].
Qed.
End Visit.

(** ** The values of a page *)

Definition contents (p : Page) : list (list byte) := (entries p 0).*1.

Lemma entries_NoDup p : NoDup (entries p 0).
Proof.
  apply (NoDup_fmap_1 snd). apply (sorted_lt_NoDup Z.lt); [lia|].
  apply entries_sorted. pose proof (num_slots_bound p). lia.
Qed.

Lemma entries_cons p p' k v :
  value p k = None → value p' k = Some v → (∀ i, i ≠ k → value p' i = value p i) →
  entries p' 0 ≡ₚ (v, k) :: entries p 0.
Proof.
  intros Hn Hv Ho. apply NoDup_Permutation; [apply entries_NoDup| |].
  - apply NoDup_cons. split; [|apply entries_NoDup]. rewrite elem_of_entries. congruence.
  - intros [w i]. rewrite elem_of_cons, !elem_of_entries. destruct (decide (i = k)) as [->|Hne].
    + rewrite Hn, Hv. naive_solver.
    + rewrite Ho by done. naive_solver.
Qed.

Lemma contents_added p p' k v :
  lowest_free p k → added p p' k v → contents p' ≡ₚ v :: contents p.
Proof.
  intros Hk []. unfold contents. rewrite (entries_cons p p' k v); [done| |done|done].
  by apply lowest_free_None.
Qed.

Lemma contents_deleted p p' k v d :
  value p k = Some v → changed p p' k None d → contents p ≡ₚ v :: contents p'.
Proof.
  intros Hv []. unfold contents. rewrite (entries_cons p' p k v); try done.
  intros i Hi. symmetry. auto.
Qed.

(** A page without the value of one slot. *)
Lemma contents_updated p p' k v w d :
  value p k = Some v → changed p p' k (Some w) d →
  ∃ l, contents p ≡ₚ v :: l ∧ contents p' ≡ₚ w :: l.
Proof.
  intros Hv [_ _ Hn _ Hw Ho].
  assert (∀ q x, value q k = Some x → ∃ l, (∀ y j, (y, j) ∈ l ↔ j ≠ k ∧ value q j = Some y) ∧ NoDup l ∧ entries q 0 ≡ₚ (x, k) :: l) as Hrest.
  { intros q x Hx. assert ((x, k) ∈ entries q 0) as (l & El)%elem_of_Permutation by by apply elem_of_entries.
    assert (NoDup ((x, k) :: l)) as [Hin Hl]%NoDup_cons by (rewrite <-El; apply entries_NoDup).
    exists l. split_and!; [|done|done]. intros y j.
    assert ((y, j) ∈ entries q 0 ↔ (y, j) = (x, k) ∨ (y, j) ∈ l) as Hiff by (rewrite El; apply elem_of_cons).
    rewrite elem_of_entries in Hiff. split.
    - intros Hy. split; [|by apply Hiff; right]. intros ->.
      destruct Hiff as [_ Hiff]. rewrite Hiff in Hx by (by right). simplify_eq. done.
    - intros [Hj Hy]. destruct Hiff as [Hiff _]. destruct (Hiff Hy); [congruence|done]. }
  destruct (Hrest p v Hv) as (l & Hl & Nl & El), (Hrest p' w Hw) as (l' & Hl' & Nl' & El').
  assert (l ≡ₚ l') as E.
  { apply NoDup_Permutation; [done..|]. intros [y j]. rewrite Hl, Hl'.
    split; intros [Hj Hy]; (split; [done|]); [by rewrite Ho|by rewrite <-Ho]. }
  exists l.*1. unfold contents. rewrite El, El', E. done.
Qed.

(** ** Nodes *)

Definition id_ok (i : Z) : Prop := 0 ≤ i < 2 ^ 32.

(** An entry with a key the codec is used for, and fields within their widths. *)
Definition rid_ok (r : ValueId) : Prop :=
  0 ≤ container_id r < 2 ^ 16 ∧ (∀ i, page_id r = Some i → id_ok i) ∧ (∀ s, slot_id r = Some s → 0 ≤ s < 2 ^ 16) ∧
  (∀ s, segment_id r = Some s → 0 ≤ s < 2 ^ 8).
Definition entry_ok (key_ok : IndexKey → Prop) (e : NodeEntry) : Prop :=
  match e with
  | NMeta _ l r => (∀ i, l = Some i → id_ok i) ∧ (∀ i, r = Some i → id_ok i)
  | NInternal k c => (∀ k', k = Some k' → key_ok k') ∧ id_ok c
  | NLeaf k r => key_ok k ∧ rid_ok r
  end.

(** What is asked of the codec: a round trip, and entries of 16 to 100 bytes. *)
Class NodeCodecLaws `{NodeCodec} (key_ok : IndexKey → Prop) : Prop :=
  codec_ok e : entry_ok key_ok e →
    ∃ bytes, encode e = Ok bytes ∧ decode bytes = Ok e ∧ 16 ≤ zlen bytes ≤ 100.

Inductive tree_node :=
  | LeafNode (left_sibling right_sibling : option Z) (es : list leaf_entry)
  | InnerNode (kids : list child_entry).

Section Nodes.
Context `{NodeCodec} (key_ok : IndexKey → Prop) `{!NodeCodecLaws key_ok}.

Definition entry_bytes (e : NodeEntry) : list byte :=
  match encode e with Ok bytes => bytes | Err _ => [] end.

Lemma entry_bytes_ok e :
  entry_ok key_ok e →
  encode e = Ok (entry_bytes e) ∧ decode (entry_bytes e) = Ok e ∧ 16 ≤ zlen (entry_bytes e) ≤ 100 ∧ entry_bytes e ≠ [].
Proof.
  intros (b & E & D & L)%codec_ok. unfold entry_bytes. rewrite E. split_and!; try done; try lia.
  intros ->. unfold zlen in L. simpl in L. lia.
Qed.

Fixpoint total_size (es : list NodeEntry) : Z :=
  match es with [] => 0 | e :: es => zlen (entry_bytes e) + total_size es end.

#[local] Instance size_proper : Proper ((≡ₚ) ==> (=)) total_size.
Proof. induction 1; simpl; lia. Qed.

Lemma size_app l k : total_size (l ++ k) = total_size l + total_size k.
Proof. induction l; simpl; lia. Qed.

Lemma size_bounds es : Forall (entry_ok key_ok) es → 16 * zlen es ≤ total_size es ≤ 100 * zlen es.
Proof.
  induction 1 as [|e es He _ IH]; [done|]. destruct (entry_bytes_ok e He) as (_ & _ & ? & _).
  cbn [total_size]. rewrite zlen_cons. lia.
Qed.

(** A page that holds exactly the entries [es]. *)
Record node_page (p : Page) (es : list NodeEntry) : Prop := {
  np_wf : wf p;
  np_has : contents p ≡ₚ map entry_bytes es;
  np_free : free_space p = 4072 - 4 * num_slots p - total_size es;
  np_slots : 20 * num_slots p ≤ 4072;
  np_ok : Forall (entry_ok key_ok) es
}.

#[local] Instance node_page_proper p : Proper ((≡ₚ) ==> iff) (node_page p).
Proof.
  assert (∀ es es', es ≡ₚ es' → node_page p es → node_page p es') as Hp.
  { intros es es' E []. constructor; try done; by rewrite <-E. }
  intros es es' E. split; by apply Hp.
Qed.

Lemma contents_length p : zlen (contents p) ≤ num_slots p.
Proof.
  unfold contents, zlen. rewrite length_fmap. pose proof (num_slots_bound p).
  trans (Z.of_nat (length (seqZ 0 (num_slots p - 0)))); [|rewrite length_seqZ; lia].
  apply Nat2Z.inj_le. unfold entries. generalize (seqZ 0 (num_slots p - 0)) as l.
  induction l as [|x l IH]; [done|]. cbn [omap list_omap]. destruct (value p x); cbn; lia.
Qed.

Lemma node_length p es : node_page p es → zlen es ≤ num_slots p.
Proof.
  intros []. pose proof (contents_length p). unfold zlen in *.
  rewrite np_has0, length_map in *. done.
Qed.

Lemma node_free_nonneg p es : node_page p es → 0 ≤ free_space p.
Proof.
  intros [[Hly _] _ _ _ _]. pose proof (layout_fsp_bound p Hly). pose proof (del_bytes_bound p).
  pose proof (ly_fsp p Hly). unfold free_space. lia.
Qed.

(** The entries in slot order. *)
Lemma node_list p es :
  node_page p es → ∃ l, entries p 0 = (λ x : NodeEntry * Z, (entry_bytes x.1, x.2)) <$> l ∧ l.*1 ≡ₚ es.
Proof.
  intros []. apply Permutation_map_inv in np_has0 as (es' & E & Hp).
  unfold contents in E.
  assert (∃ l : list (NodeEntry * Z), entries p 0 = (λ x, (entry_bytes x.1, x.2)) <$> l ∧ l.*1 = es') as (l & ? & El).
  { clear Hp. revert es' E. generalize (entries p 0) as k.
    induction k as [|[b i] k IH]; intros [|e es'] E; try discriminate; [by exists []|].
    rewrite fmap_cons in E. simpl in E. simplify_eq. destruct (IH es') as (l & -> & <-); [done|]. by exists ((e, i) :: l). }
  exists l. split; [done|]. rewrite El. by symmetry.
Qed.

Lemma visit_decoding {A B} (body : A → NodeEntry → Z → flow A (result CrustyError B)) acc l :
  Forall (entry_ok key_ok) l.*1 →
  visit (decoding body) acc ((λ x : NodeEntry * Z, (entry_bytes x.1, x.2)) <$> l) = visit body acc l.
Proof.
  revert acc. induction l as [|[e i] l IH]; intros acc Hl; [done|].
  apply Forall_cons in Hl as [He Hl]. rewrite fmap_cons. cbn [visit fst snd]. unfold decoding at 1.
  destruct (entry_bytes_ok e He) as (_ & -> & _). destruct (body acc e i); [by apply IH|done].
Qed.

(** A loop over a node sees its entries in the order of the slots. *)
Lemma node_visit p es :
  node_page p es →
  ∃ l, l.*1 ≡ₚ es ∧ (∀ e i, (e, i) ∈ l → value p i = Some (entry_bytes e)) ∧
    NoDup l.*2 ∧ (∀ i, is_Some (value p i) ↔ i ∈ l.*2) ∧
    ∀ A B (body : A → NodeEntry → Z → flow A (result CrustyError B)) acc,
      for_entries p (decoding body) acc = Ret (visit body acc l).
Proof.
  intros Hp. destruct (node_list p es Hp) as (l & El & Hl). exists l. split_and!; [done| | | |].
  - intros e i Hin. apply elem_of_entries. rewrite El. apply list_elem_of_fmap. by exists (e, i).
  - assert (l.*2 = (entries p 0).*2) as ->.
    { rewrite El, <-list_fmap_compose. done. }
    apply (sorted_lt_NoDup Z.lt); [lia|]. apply entries_sorted. pose proof (num_slots_bound p). lia.
  - intros i. split.
    + intros [v Hv]. apply elem_of_entries in Hv. rewrite El in Hv.
      apply list_elem_of_fmap in Hv as ([e j] & ? & Hv). simplify_eq/=. apply list_elem_of_fmap. by exists (e, j).
    + intros ([e j] & -> & Hin)%list_elem_of_fmap. exists (entry_bytes e). apply elem_of_entries.
      rewrite El. apply list_elem_of_fmap. by exists (e, j).
  - intros A B body acc. rewrite for_entries_ok by apply Hp. rewrite El, visit_decoding; [done|].
    rewrite Hl. apply Hp.
Qed.

(** ** Adding entries *)

(** There is room for an entry of [n] bytes: a free slot and the bytes, or the bytes and
    those of a new slot in a page where nothing was deleted. *)
Definition room (p : Page) (es : list NodeEntry) (n : Z) : Prop :=
  zlen es < num_slots p ∧ n < free_space p ∨ del_bytes p = 0 ∧ n + 4 < free_space p.

Lemma node_free_slot p es k :
  node_page p es → lowest_free p k → zlen es < num_slots p → k < num_slots p.
Proof.
  intros Hp [Hk [Hall _]] Hlt. destruct (decide (k = num_slots p)) as [->|]; [|lia]. exfalso.
  assert (num_slots p ≤ zlen (contents p)) as Hge.
  { unfold contents, zlen. rewrite length_fmap.
    assert (seqZ 0 (num_slots p) ⊆ (entries p 0).*2) as Hsub.
    { intros i Hi%elem_of_seqZ. destruct (value p i) as [v|] eqn:Ev.
      - apply elem_of_entries in Ev. apply list_elem_of_fmap. by exists (v, i).
      - apply value_None in Ev. destruct Ev. split; [unfold is_slot; lia|]. apply Hall. lia. }
    apply NoDup_submseteq, submseteq_length in Hsub; [|apply NoDup_seqZ].
    rewrite length_seqZ, length_fmap in Hsub. pose proof (num_slots_bound p). lia. }
  unfold zlen in *. rewrite (np_has p es Hp), length_map in Hge. lia.
Qed.

(** An entry is added, or refused for lack of room and nothing changes. *)
Lemma node_add p es e :
  node_page p es → entry_ok key_ok e →
  ∃ p' r, HeapPage.add_value p (entry_bytes e) = Ret (p', r) ∧
    match r with
    | None => p' = p ∧ ¬ room p es (zlen (entry_bytes e))
    | Some _ =>
        node_page p' (e :: es) ∧ sub p' 0 16 = sub p 0 16 ∧ del_bytes p' ≤ del_bytes p ∧
        num_slots p ≤ num_slots p' ∧
        free_space p - zlen (entry_bytes e) - 4 ≤ free_space p' ∧
        (zlen es < num_slots p → free_space p' = free_space p - zlen (entry_bytes e))
    end.
Proof.
  intros Hp He. pose proof Hp as [Hwf Hhas Hfree Hslots Hok].
  destruct (entry_bytes_ok e He) as (_ & _ & Hlen & Hne).
  destruct (add_value_ok p (entry_bytes e) Hwf Hne) as (k & Hk & Hcase).
  destruct Hcase as [[Hno Ea]|(Hno & p' & Ea & Had)].
  - exists p, None. split; [done|]. split; [done|]. intros Hroom.
    pose proof (node_free_slot p es k Hp Hk) as Hks. destruct Hk as [Hk _].
    unfold no_room, space_needed, SLOT_METADATA_SIZE, room, free_space in *.
    destruct (Z.eqb_spec k (num_slots p)), Hroom as [[Hlt ?]|]; lia.
  - exists p', (Some k). split; [done|]. pose proof Had as [Hwf' Hhdr Hnum Hsp Hv Ho Hdel].
    pose proof (node_free_slot p es k Hp Hk) as Hks. pose proof (node_length p es Hp) as Hl.
    pose proof (size_bounds es Hok).
    assert (node_page p' (e :: es)) as Hp'.
    { pose proof Hk as [Hk' _]. constructor; [done| | | |by constructor].
      - rewrite (contents_added p p' k _ Hk Had). cbn [map]. by rewrite Hhas.
      - cbn [total_size]. rewrite Hsp, Hnum, Hfree. unfold space_needed, SLOT_METADATA_SIZE.
        destruct (Z.eqb_spec k (num_slots p)); lia.
      - rewrite Hnum. destruct (decide (k < num_slots p)); [lia|]. assert (k = num_slots p) as -> by lia.
        assert (¬ zlen es < num_slots p) by (intros Hlt; by specialize (Hks Hlt); lia).
        unfold no_room, space_needed, SLOT_METADATA_SIZE in Hno. rewrite Z.eqb_refl in Hno. lia. }
    pose proof Hk as [Hk' _].
    split_and!; [done..|lia| |]; rewrite Hsp; unfold space_needed, SLOT_METADATA_SIZE;
      destruct (Z.eqb_spec k (num_slots p)); lia.
Qed.

Definition room_for (p : Page) (es fs : list NodeEntry) : Prop :=
  zlen es + zlen fs ≤ num_slots p ∧ total_size fs < free_space p ∨
  del_bytes p = 0 ∧ total_size fs + 4 * zlen fs < free_space p.

(** With room for a list of entries, the first is added and there is room for the others. *)
Lemma node_add_first p es e fs :
  node_page p es → Forall (entry_ok key_ok) (e :: fs) → room_for p es (e :: fs) →
  ∃ p' k, HeapPage.add_value p (entry_bytes e) = Ret (p', Some k) ∧ node_page p' (e :: es) ∧
    sub p' 0 16 = sub p 0 16 ∧ room_for p' (e :: es) fs ∧ num_slots p ≤ num_slots p' ∧ del_bytes p' ≤ del_bytes p.
Proof.
  intros Hp [He Hfs]%Forall_cons Hroom. pose proof (size_bounds fs Hfs). pose proof (zlen_nonneg fs).
  unfold room_for in *. cbn [total_size] in Hroom. rewrite !zlen_cons in Hroom.
  destruct (node_add p es e Hp He) as (p1 & r & E & Hr).
  destruct r as [k|]; [|destruct Hr as [-> Hr]; destruct Hr; unfold room; lia].
  destruct Hr as (Hp1 & Hh1 & Hd1 & Hn1 & Hf1 & Hs1). pose proof (del_bytes_bound p1).
  exists p1, k. split_and!; try done. rewrite zlen_cons.
  destruct Hroom as [[]|[]]; [left|right]; [rewrite Hs1 by lia|]; lia.
Qed.

(** ** Removing and replacing entries *)

Lemma value_slot p i v : value p i = Some v → 0 ≤ i < 65536.
Proof. intros [[Hi _] _]%value_Some. pose proof (num_slots_bound p). unfold is_slot in Hi. lia. Qed.

Lemma node_delete p e es i :
  node_page p (e :: es) → value p i = Some (entry_bytes e) →
  ∃ p', HeapPage.delete_value p i = Ret (p', Some tt) ∧ node_page p' es ∧
    changed p p' i None (zlen (entry_bytes e)).
Proof.
  intros [Hwf Hhas Hfree Hslots Hok] Hv. pose proof (delete_value_ok p i Hwf (value_slot p i _ Hv)) as Hd.
  rewrite Hv in Hd. destruct Hd as (p' & E & Hc). exists p'. split; [done|]. split; [|done].
  pose proof Hc as [Hwf' _ Hn Hsp _ _]. apply Forall_cons in Hok as [_ Hok]. constructor; try done.
  - rewrite (contents_deleted p p' i _ _ Hv Hc) in Hhas. by apply Permutation_cons_inv in Hhas.
  - cbn [total_size] in Hfree. lia.
  - lia.
Qed.

Lemma node_update p e e' es i :
  node_page p (e :: es) → value p i = Some (entry_bytes e) → entry_ok key_ok e' →
  ∃ p' r, HeapPage.update_value p i (entry_bytes e') = Ret (p', r) ∧ sub p' 0 16 = sub p 0 16 ∧
    num_slots p' = num_slots p ∧
    match r with
    | None => p' = p ∧ free_space p + zlen (entry_bytes e) ≤ zlen (entry_bytes e')
    | Some _ => node_page p' (e' :: es)
    end.
Proof.
  intros [Hwf Hhas Hfree Hslots Hok] Hv He'. destruct (entry_bytes_ok e' He') as (_ & _ & _ & Hne).
  pose proof (update_value_ok p i (entry_bytes e') Hwf (value_slot p i _ Hv) Hne) as Hu. rewrite Hv in Hu.
  destruct (_ || _) eqn:Efit; cycle 1.
  { apply orb_false_iff in Efit as [_ Efit%Z.ltb_ge]. by exists p, None. }
  destruct Hu as (p' & E & Hc). exists p', (Some tt). pose proof Hc as [Hwf' Hh Hn Hsp _ _]. split; [done|]. split; [done|]. split; [done|].
  apply Forall_cons in Hok as [_ Hok]. cbn [total_size] in Hfree. constructor; [done| | | |by constructor].
  - destruct (contents_updated p p' i _ _ _ Hv Hc) as (l & E1 & E2). rewrite E1 in Hhas.
    apply Permutation_cons_inv in Hhas. rewrite E2. cbn [map]. by rewrite Hhas.
  - cbn [total_size]. lia.
  - lia.
Qed.

Lemma node_drain p es slots :
  node_page p es → NoDup slots → (∀ i, is_Some (value p i) ↔ i ∈ slots) →
  ∃ p', TreeIndex.delete_slots p slots = Ret p' ∧ node_page p' [] ∧ num_slots p' = num_slots p ∧
    sub p' 0 16 = sub p 0 16.
Proof.
  revert p es. induction slots as [|i slots IH]; intros p es Hp Hnd Hin.
  - exists p. split; [done|]. split; [|done]. destruct es as [|e es]; [done|]. exfalso.
    destruct (node_visit p _ Hp) as (l & Hl & _ & _ & Hi & _).
    destruct l as [|[e' i] l]; [by apply Permutation_nil in Hl|].
    assert (i ∈ (((e', i) :: l).*2)) as Hil by by left. apply Hi, Hin in Hil. by apply not_elem_of_nil in Hil.
  - apply NoDup_cons in Hnd as [Hi Hnd]. destruct (proj2 (Hin i)) as [v Hv]; [by left|].
    destruct (node_visit p _ Hp) as (l & Hl & Hlv & _ & Hil & _).
    assert (i ∈ l.*2) as ([e j] & Ej & Hl2)%list_elem_of_fmap by (apply Hil; by exists v).
    simpl in Ej. subst j.
    assert (e ∈ es) as (es' & Ees)%elem_of_Permutation by (rewrite <-Hl; by eapply elem_of_fst).
    rewrite Ees in Hp. destruct (node_delete p e es' i Hp (Hlv _ _ Hl2)) as (p1 & E & Hp1 & [_ Hh Hn _ Hv1 Ho]).
    destruct (IH p1 es' Hp1 Hnd) as (p' & E' & ? & ? & ?).
    { intros j. destruct (decide (j = i)) as [->|Hne].
      - rewrite Hv1. split; [by intros []|done].
      - rewrite Ho, Hin, elem_of_cons by done. naive_solver. }
    exists p'. cbn [TreeIndex.delete_slots]. rewrite E. cbn [mbind outcome_bind]. split_and!; try done; congruence.
Qed.

(** ** Reading nodes *)

(** The nodes of a tree: leaves with their siblings, and inner nodes. *)
Definition node_entries (nd : tree_node) : list NodeEntry :=
  match nd with
  | LeafNode l r es => NMeta true l r :: map (λ e : leaf_entry, NLeaf e.1 e.2) es
  | InnerNode kids => NMeta false None None :: map (λ e : child_entry, NInternal e.1 e.2) kids
  end.

Definition node_sorted (nd : tree_node) : Prop :=
  match nd with
  | LeafNode _ _ es => StronglySorted key_lt es.*1
  | InnerNode kids => StronglySorted child_lt kids.*1
  end.

Definition node_meta (nd : tree_node) : bool * option Z * option Z :=
  match nd with LeafNode l r _ => (true, l, r) | InnerNode _ => (false, None, None) end.

Definition meta_of (e : NodeEntry) : option (bool * option Z * option Z) :=
  match e with NMeta b l r => Some (b, l, r) | _ => None end.
Definition leaf_of (e : NodeEntry) : option leaf_entry :=
  match e with NLeaf k r => Some (k, r) | _ => None end.
Definition child_of (e : NodeEntry) : option child_entry :=
  match e with NInternal k c => Some (k, c) | _ => None end.

Lemma omap_map_none {A B C} (f : A → B) (g : B → option C) l : (∀ a, g (f a) = None) → omap g (map f l) = [].
Proof. intros E. induction l as [|a l IH]; [done|]. cbn. by rewrite E. Qed.

Lemma omap_map_some {A B} (f : A → B) (g : B → option A) l : (∀ a, g (f a) = Some a) → omap g (map f l) = l.
Proof. intros E. induction l as [|a l IH]; [done|]. cbn. rewrite E. cbn. by f_equal. Qed.

Lemma node_metas nd : omap meta_of (node_entries nd) = [node_meta nd].
Proof. destruct nd; cbn; by rewrite omap_map_none. Qed.
Lemma node_leaves l r es : omap leaf_of (node_entries (LeafNode l r es)) = es.
Proof. cbn. apply omap_map_some. by intros []. Qed.
Lemma node_children kids : omap child_of (node_entries (InnerNode kids)) = kids.
Proof. cbn. apply omap_map_some. by intros []. Qed.

(** Looking for the entry that describes the node. *)
Lemma visit_meta {B} (f : bool → option Z → option Z → Z → B) nd l :
  l.*1 ≡ₚ node_entries nd →
  ∃ i, let '(b, ls, rs) := node_meta nd in
    (NMeta b ls rs, i) ∈ l ∧
    visit (λ (_ : unit) e i, match e with NMeta b ls rs => Return (f b ls rs i) | _ => Continue tt end) tt l =
      Return (f b ls rs i).
Proof.
  intros Hl. assert (omap meta_of l.*1 ≡ₚ [node_meta nd]) as Hm by (rewrite Hl; by rewrite node_metas).
  clear Hl. induction l as [|[e i] l IH]; [by apply Permutation_nil in Hm|].
  rewrite fmap_cons in Hm. destruct (node_meta nd) as [[b ls] rs]. destruct e as [b' ls' rs'|k c|k r].
  - cbn in Hm. assert (Hlen := Permutation_length Hm). apply Permutation_singleton_r in Hm.
    simplify_eq. exists i. split; [by left|done].
  - destruct (IH Hm) as (j & Hj & E). exists j. split; [by right|done].
  - destruct (IH Hm) as (j & Hj & E). exists j. split; [by right|done].
Qed.

Lemma read_is_leaf_ok p nd :
  node_page p (node_entries nd) → TreeIndex.read_is_leaf p = Ret (Ok (node_meta nd).1.1).
Proof.
  intros (l & Hl & _ & _ & _ & Hrun)%node_visit. unfold TreeIndex.read_is_leaf. rewrite Hrun. cbn [mbind outcome_bind].
  destruct (visit_meta (λ b _ _ _, Ok (E := CrustyError) b) nd l Hl) as (i & E).
  destruct (node_meta nd) as [[b ls] rs]. destruct E as [_ E]. by rewrite E.
Qed.

(** The loop over a leaf. *)
Lemma visit_leaf l ls rs es ss :
  omap child_of l.*1 = [] →
  visit TreeIndex.leaf_step (ls, rs, es, ss) l =
    Continue (match last (omap meta_of l.*1) with Some (_, ls', rs') => (ls', rs') | None => (ls, rs) end,
              es ++ omap leaf_of l.*1, ss ++ l.*2).
Proof.
  revert ls rs es ss. induction l as [|[e i] l IH]; intros ls rs es ss Hc; [cbn; by rewrite !app_nil_r|].
  rewrite !fmap_cons in *. destruct e as [b' ls' rs'|k c|k r]; [|done|]; cbn [visit TreeIndex.leaf_step].
  - rewrite IH by done. change (omap meta_of (_ :: l.*1)) with ((b', ls', rs') :: omap meta_of l.*1).
    rewrite last_cons. change (omap leaf_of (_ :: l.*1)) with (omap leaf_of l.*1). rewrite <-app_assoc.
    by destruct (last (omap meta_of l.*1)) as [[[??]?]|].
  - rewrite IH by done. change (omap meta_of (_ :: l.*1)) with (omap meta_of l.*1).
    change (omap leaf_of (_ :: l.*1)) with ((k, r) :: omap leaf_of l.*1). by rewrite <-!app_assoc.
Qed.

Lemma leaf_loop l ls rs es :
  l.*1 ≡ₚ node_entries (LeafNode ls rs es) →
  ∃ es0, es0 ≡ₚ es ∧ visit TreeIndex.leaf_step (None, None, [], []) l = Continue (ls, rs, es0, l.*2).
Proof.
  intros Hl. exists (omap leaf_of l.*1). split.
  - rewrite Hl. by rewrite node_leaves.
  - rewrite visit_leaf.
    + assert (omap meta_of l.*1 ≡ₚ [(true, ls, rs)]) as ->%Permutation_singleton_r; [|done].
      rewrite Hl. by rewrite node_metas.
    + assert (omap child_of l.*1 ≡ₚ []) as ->%Permutation_nil_r; [|done].
      rewrite Hl. cbn. by rewrite omap_map_none.
Qed.

Lemma read_leaf_entries_ok p ls rs es :
  node_page p (node_entries (LeafNode ls rs es)) → StronglySorted key_lt es.*1 →
  TreeIndex.read_leaf_entries p = Ret (Ok (ls, rs, es)).
Proof.
  intros (l & Hl & _ & _ & _ & Hrun)%node_visit Hs. unfold TreeIndex.read_leaf_entries. rewrite Hrun.
  destruct (leaf_loop l ls rs es Hl) as (es0 & He & ->). cbn. by rewrite (sort_leaf es0 es).
Qed.

Lemma drain_leaf_ok p ls rs es :
  node_page p (node_entries (LeafNode ls rs es)) →
  ∃ p' es0, TreeIndex.drain_leaf p = Ret (p', Ok (ls, rs, es0)) ∧ es0 ≡ₚ es ∧
    node_page p' [] ∧ num_slots p' = num_slots p ∧ sub p' 0 16 = sub p 0 16.
Proof.
  intros Hp. destruct (node_visit p _ Hp) as (l & Hl & _ & Hnd & Hin & Hrun).
  unfold TreeIndex.drain_leaf. rewrite Hrun. destruct (leaf_loop l ls rs es Hl) as (es0 & He & ->).
  destruct (node_drain p _ l.*2 Hp Hnd Hin) as (p' & E & ? & ? & ?).
  exists p', es0. cbn. rewrite E. done.
Qed.

(** The loops over an inner node. *)
Lemma visit_children l es :
  visit (B := result CrustyError (list child_entry)) (λ entries entry _,
    match entry with NInternal key child => Continue (entries ++ [(key, child)]) | _ => Continue entries end) es l =
    Continue (es ++ omap child_of l.*1).
Proof.
  revert es. induction l as [|[e i] l IH]; intros es; [cbn; by rewrite app_nil_r|].
  rewrite fmap_cons. destruct e; cbn [visit]; rewrite IH; [done| |done].
  change (omap child_of (_ :: l.*1)) with ((key, child) :: omap child_of l.*1). by rewrite <-app_assoc.
Qed.

Lemma read_internal_entries_ok p kids :
  node_page p (node_entries (InnerNode kids)) → StronglySorted child_lt kids.*1 →
  TreeIndex.read_internal_entries p = Ret (Ok kids).
Proof.
  intros (l & Hl & _ & _ & _ & Hrun)%node_visit Hs. unfold TreeIndex.read_internal_entries.
  rewrite Hrun, visit_children. cbn [mbind outcome_bind after_loop app]. rewrite (sort_child _ kids Hs); [done|]. rewrite Hl. by rewrite node_children.
Qed.

Lemma visit_children_slots l es ss :
  visit (B := result CrustyError (list child_entry * list Z)) (λ '(entries, slots) entry slot_id,
    match entry with
    | NInternal key child => Continue (entries ++ [(key, child)], slots ++ [slot_id])
    | _ => Continue (entries, slots ++ [slot_id])
    end) (es, ss) l = Continue (es ++ omap child_of l.*1, ss ++ l.*2).
Proof.
  revert es ss. induction l as [|[e i] l IH]; intros es ss; [cbn; by rewrite !app_nil_r|].
  rewrite !fmap_cons. destruct e; cbn [visit]; rewrite IH, <-!app_assoc; [done| |done].
  by change (omap child_of (_ :: l.*1)) with ((key, child) :: omap child_of l.*1).
Qed.

Lemma drain_internal_ok p kids :
  node_page p (node_entries (InnerNode kids)) → StronglySorted child_lt kids.*1 →
  ∃ p', TreeIndex.drain_internal p = Ret (p', Ok kids) ∧
    node_page p' [] ∧ num_slots p' = num_slots p ∧ sub p' 0 16 = sub p 0 16.
Proof.
  intros Hp Hs. destruct (node_visit p _ Hp) as (l & Hl & _ & Hnd & Hin & Hrun).
  unfold TreeIndex.drain_internal. rewrite Hrun, visit_children_slots. cbn [mbind outcome_bind after_loop app].
  destruct (node_drain p _ l.*2 Hp Hnd Hin) as (p' & E & ? & ? & ?). exists p'. rewrite E. cbn [mbind outcome_bind].
  rewrite (sort_child _ kids Hs); [done|]. rewrite Hl. by rewrite node_children.
Qed.

(** Looking for an entry of a leaf. *)
Lemma visit_look_for key rid l :
  match visit (λ (_ : unit) entry slot_id,
           match entry with
           | NLeaf k r => if bool_decide (k = key) && bool_decide (r = rid) then Return (Ok (E := CrustyError) (Some slot_id)) else Continue tt
           | _ => Continue tt
           end) tt l with
  | Return r => ∃ i, r = Ok (Some i) ∧ (NLeaf key rid, i) ∈ l
  | Continue _ => NLeaf key rid ∉ l.*1
  end.
Proof.
  induction l as [|[e i] l IH]; [apply not_elem_of_nil|]. cbn [visit]. rewrite fmap_cons.
  assert (∀ e, e ≠ NLeaf key rid → match visit (λ (_ : unit) entry slot_id,
           match entry with
           | NLeaf k r => if bool_decide (k = key) && bool_decide (r = rid) then Return (Ok (E := CrustyError) (Some slot_id)) else Continue tt
           | _ => Continue tt
           end) tt l with
    | Return r => ∃ j, r = Ok (Some j) ∧ (NLeaf key rid, j) ∈ (e, i) :: l
    | Continue _ => NLeaf key rid ∉ e :: l.*1
    end) as Hskip.
  { intros e' Hne. destruct (visit _ _ _) as [|r].
    - rewrite not_elem_of_cons. done.
    - destruct IH as (j & -> & Hj). exists j. split; [done|]. by right. }
  destruct e as [? ? ?|? ?|k r]; [by apply Hskip..|].
  destruct (bool_decide_reflect (k = key)) as [->|], (bool_decide_reflect (r = rid)) as [->|]; cbn [andb];
    [exists i; split; [done|by left]|apply Hskip; congruence..].
Qed.

Lemma look_for_ok p ls rs es key rid :
  node_page p (node_entries (LeafNode ls rs es)) → StronglySorted key_lt es.*1 →
  ∃ s, TreeIndex.look_for key rid p = Ret (Ok (s, TreeIndex.last_matches es key, rs)) ∧
    match s with
    | Some i => (key, rid) ∈ es ∧ value p i = Some (entry_bytes (NLeaf key rid))
    | None => (key, rid) ∉ es
    end.
Proof.
  intros Hp Hs. destruct (node_visit p _ Hp) as (l & Hl & Hv & _ & _ & Hrun).
  assert (NLeaf key rid ∈ l.*1 ↔ (key, rid) ∈ es) as Hin.
  { rewrite Hl. cbn [node_entries]. rewrite elem_of_cons, list_elem_of_fmap. split.
    - intros [|([k r] & ? & ?)]; simplify_eq/=; done.
    - intros He. right. by exists (key, rid). }
  unfold TreeIndex.look_for. rewrite Hrun. cbn [mbind outcome_bind].
  pose proof (visit_look_for key rid l) as Hr. destruct (visit _ _ _) as [|r]; cbn [after_loop].
  - rewrite (read_leaf_entries_ok p ls rs es) by done. exists None. split; [done|]. by rewrite <-Hin.
  - destruct Hr as (i & -> & Hi). rewrite (read_leaf_entries_ok p ls rs es) by done. exists (Some i).
    split; [done|]. split; [|by apply Hv]. apply Hin. by eapply elem_of_fst.
Qed.

(** ** Splitting *)

(** The entries [o :: A] of a full node and a new one are divided in halves [A1] and [A2];
    the left half goes back to the drained page, the right half to a new one. *)
Lemma split_room p p1 o A e A1 A2 L R :
  node_page p (o :: A) → node_page p1 [] → num_slots p1 = num_slots p → entry_ok key_ok e →
  A1 ++ A2 ≡ₚ e :: A → length A1 = (length (A1 ++ A2) / 2)%nat →
  total_size L ≤ total_size A1 + 100 → zlen L = zlen A1 + 1 → total_size R ≤ total_size A2 + 184 → zlen R ≤ zlen A2 + 1 →
  room_for p1 [] L ∧ ∀ q, del_bytes q = 0 → free_space q = 4072 → room_for q [] R.
Proof.
  intros Hp Hp1 Hn He HA Hmid HL Hl HR Hr.
  pose proof (node_free_nonneg p _ Hp) as Hpos. pose proof (node_length p _ Hp) as Hlen.
  pose proof Hp as [_ _ Hfree Hslots [Ho HAok]%Forall_cons]. pose proof (np_free p1 [] Hp1) as Hfree1.
  assert (Forall (entry_ok key_ok) (A1 ++ A2)) as [H1 H2]%Forall_app by (rewrite HA; by constructor).
  pose proof (size_bounds A1 H1). pose proof (size_bounds A2 H2).
  destruct (entry_bytes_ok o Ho) as (_ & _ & ? & _), (entry_bytes_ok e He) as (_ & _ & ? & _).
  assert (total_size A1 + total_size A2 = zlen (entry_bytes e) + total_size A) as Hsum by (rewrite <-size_app, HA; done).
  assert (zlen A1 + zlen A2 = zlen A + 1) as Hcount.
  { rewrite <-zlen_app, <-(zlen_cons e). unfold zlen. by rewrite HA. }
  assert (zlen A1 = (zlen A1 + zlen A2) / 2) as Hhalf.
  { rewrite <-zlen_app. unfold zlen at 1. rewrite Hmid. unfold zlen. by rewrite Nat2Z.inj_div. }
  cbn [total_size] in *. rewrite zlen_cons in Hlen. unfold room_for. change (zlen (@nil NodeEntry)) with 0.
  pose proof (zlen_nonneg A1). pose proof (zlen_nonneg A2). pose proof (zlen_nonneg A).
  pose proof (Z.div_mod (zlen A1 + zlen A2) 2 ltac:(lia)) as Hdm.
  pose proof (Z.mod_pos_bound (zlen A1 + zlen A2) 2 ltac:(lia)). rewrite <-Hhalf in Hdm. clear Hhalf.
  split; [|intros q Hq1 Hq2; right].
  - destruct (decide (12 ≤ zlen A2)); left; lia.
  - destruct (decide (14 ≤ zlen A1)); lia.
Qed.
End Nodes.

(** ** Entries of a node in order *)

Definition leaf_insert (key : IndexKey) (rid : ValueId) (es : list leaf_entry) : list leaf_entry :=
  sort_by leaf_le ((key, rid) :: es).
Definition child_insert (key : IndexKey) (child : Z) (kids : list child_entry) : list child_entry :=
  sort_by child_le ((Some key, child) :: kids).

Lemma sorted_strict {A B} (leb : A * B → A * B → bool) (lt : A → A → Prop) l :
  (∀ x y, leb x y = true → x.1 = y.1 ∨ lt x.1 y.1) → NoDup l.*1 →
  StronglySorted (λ a b, leb a b = true) l → StronglySorted lt l.*1.
Proof.
  intros Hle Hn Hs. induction Hs as [|x l Hs IH Hx]; [constructor|]. rewrite fmap_cons in *.
  apply NoDup_cons in Hn as [Hin Hn]. constructor; [auto|]. rewrite Forall_fmap.
  rewrite Forall_forall in Hx |- *. intros y Hy. destruct (Hle x y (Hx y Hy)) as [E|]; [|done].
  destruct Hin. rewrite E. by apply list_elem_of_fmap_2.
Qed.

Lemma leaf_insert_perm key rid es : leaf_insert key rid es ≡ₚ (key, rid) :: es.
Proof. apply sort_by_Permutation. Qed.
Lemma child_insert_perm key ch kids : child_insert key ch kids ≡ₚ (Some key, ch) :: kids.
Proof. apply sort_by_Permutation. Qed.

Lemma leaf_insert_sorted key rid es :
  key ∉ es.*1 → StronglySorted key_lt es.*1 → StronglySorted key_lt (leaf_insert key rid es).*1.
Proof.
  intros Hk Hs. apply (sorted_strict leaf_le).
  - intros x y. rewrite leaf_le_cmp. unfold leaf_cmp, key_lt.
    destruct (key_cmp x.1 y.1) eqn:E; [left; by apply (cmp_eq (cmp := key_cmp))|by right|done].
  - rewrite leaf_insert_perm. cbn. apply NoDup_cons. split; [done|].
    by eapply (sorted_lt_NoDup key_lt); [apply key_lt_irrefl|].
  - apply sort_by_sorted; [exact leaf_le_total|exact leaf_le_trans].
Qed.

Lemma child_insert_sorted key ch kids :
  Some key ∉ kids.*1 → StronglySorted child_lt kids.*1 → StronglySorted child_lt (child_insert key ch kids).*1.
Proof.
  intros Hk Hs. apply (sorted_strict child_le).
  - intros x y. unfold child_le, cmp_le, child_lt.
    destruct (cmp_option key_cmp x.1 y.1) eqn:E; [left; by apply (cmp_eq (cmp := cmp_option key_cmp))|by right|done].
  - rewrite child_insert_perm. cbn. apply NoDup_cons. split; [done|].
    eapply (sorted_lt_NoDup child_lt); [|exact Hs]. intros a. unfold child_lt. by rewrite cmp_refl.
  - apply sort_by_sorted; unfold child_le; [intros x y|intros x y z];
      [apply (cmp_le_total (cmp_option key_cmp))|apply (cmp_le_trans (cmp_option key_cmp))].
Qed.
