(* ===== verification/TreeShape.v ===== *)
(** * B+trees as trees

    The shape of a tree of height [h]: the page ids of its nodes, the separators of the
    inner nodes and the entries of the leaves; when its keys are in order; and how the map
    of nodes stores it, with the leaves chained in both directions. *)

From S2P Require Import Prelude Common Ordering Field FieldContract TreeIndex TreeNode.
From stdpp Require Import strings sorting gmap.

Open Scope Z_scope.

(** ** Trees and their order *)

Fixpoint tree (h : nat) : Type :=
  match h with
  | O => Z * list leaf_entry
  | S h => Z * list (option IndexKey * tree h)
  end.

Definition root_id {h} : tree h → Z := match h with O => fst | S _ => fst end.

Fixpoint leaves {h} : tree h → list (Z * list leaf_entry) :=
  match h with
  | O => λ t, [t]
  | S h => λ t, mjoin (map (λ k, leaves k.2) t.2)
  end.

(** The page ids of the inner nodes. *)
Fixpoint inner_pages {h} : tree h → list Z :=
  match h with
  | O => λ _, []
  | S h => λ t, t.1 :: mjoin (map (λ k, inner_pages k.2) t.2)
  end.

Definition leaf_contents (ls : list (Z * list leaf_entry)) : list leaf_entry := mjoin (map snd ls).

(** Bounds: [None] is no bound. A key may equal the lower bound, a separator may not. *)
Definition in_range (lo hi : option IndexKey) (k : IndexKey) : Prop :=
  (∀ l, lo = Some l → l = k ∨ key_lt l k) ∧ (∀ u, hi = Some u → key_lt k u).
Definition sep_between (lo hi : option IndexKey) (k : IndexKey) : Prop :=
  (∀ l, lo = Some l → key_lt l k) ∧ (∀ u, hi = Some u → key_lt k u).

(** Children with their separators divide the range of their parent. *)
Fixpoint kids_ordered {X} (ordered : option IndexKey → option IndexKey → X → Prop) (lo hi : option IndexKey)
    (t : X) (rest : list (option IndexKey * X)) : Prop :=
  match rest with
  | [] => ordered lo hi t
  | (Some k, t') :: rest => sep_between lo hi k ∧ ordered lo (Some k) t ∧ kids_ordered ordered (Some k) hi t' rest
  | (None, _) :: _ => False
  end.

Fixpoint ordered {h} (lo hi : option IndexKey) : tree h → Prop :=
  match h with
  | O => λ t, StronglySorted key_lt t.2.*1 ∧ Forall (in_range lo hi) t.2.*1
  | S h => λ t, ∃ t0 rest, t.2 = (None, t0) :: rest ∧ kids_ordered ordered lo hi t0 rest
  end.

Lemma sep_between_in_range lo hi k : sep_between lo hi k → in_range lo hi k.
Proof. intros [H1 H2]. split; [|done]. intros l E. right. auto. Qed.

(** ** Lists of children *)

Section Kids.
Context {X : Type} (ord : option IndexKey → option IndexKey → X → Prop) (keys : X → list IndexKey) (idf : X → Z).
Context (ord_range : ∀ lo hi t, ord lo hi t → Forall (in_range lo hi) (keys t)).

Definition kid_keys (l : list (option IndexKey * X)) : list IndexKey := mjoin (map (λ k, keys k.2) l).
Definition kid_ids (l : list (option IndexKey * X)) : list child_entry := map (λ k, (k.1, idf k.2)) l.

Lemma in_range_lower lo lo' hi k : (∀ l, lo = Some l → key_lt l lo') → in_range (Some lo') hi k → in_range lo hi k.
Proof.
  intros Hl [H1 H2]. split; [|done]. intros l E. right.
  destruct (H1 lo' eq_refl) as [<-|]; [auto|]. eapply key_lt_trans; eauto.
Qed.

Lemma in_range_upper lo hi hi' k : (∀ u, hi = Some u → key_lt hi' u) → in_range lo (Some hi') k → in_range lo hi k.
Proof. intros Hu [H1 H2]. split; [done|]. intros u E. eapply key_lt_trans; eauto. Qed.

Lemma kids_range lo hi t rest k0 :
  kids_ordered ord lo hi t rest → Forall (in_range lo hi) (kid_keys ((k0, t) :: rest)).
Proof.
  revert lo t k0. induction rest as [|[[k|] t'] rest IH]; intros lo t k0 Ho; cbn [kids_ordered] in Ho; [|..|done].
  - unfold kid_keys. cbn. rewrite app_nil_r. by apply ord_range.
  - destruct Ho as ([Hb1 Hb2] & Ht & Ho). unfold kid_keys. cbn [map mjoin list_join snd]. apply Forall_app. split.
    + eapply Forall_impl; [by apply ord_range|]. intros x. apply in_range_upper. auto.
    + eapply Forall_impl; [by apply (IH (Some k) t' (Some k))|]. intros x. by apply in_range_lower.
Qed.

(** The separators are in order. *)
Lemma kids_sorted lo hi t rest k0 :
  kids_ordered ord lo hi t rest → k0 = None ∨ k0 = lo →
  StronglySorted child_lt (k0 :: rest.*1) ∧ Forall (λ k, ∃ s, k = Some s ∧ sep_between lo hi s) rest.*1.
Proof.
  revert lo t k0. induction rest as [|[[k|] t'] rest IH]; intros lo t k0 Ho Hk0; cbn [kids_ordered] in Ho; [|..|done].
  { split; repeat constructor. }
  destruct Ho as ([Hb1 Hb2] & Ht & Ho). destruct (IH (Some k) t' (Some k) Ho) as [Hs Hf]; [by right|].
  assert (Forall (λ o, ∃ s, o = Some s ∧ sep_between lo hi s) rest.*1) as Hf'.
  { eapply Forall_impl; [exact Hf|]. intros o (s & -> & [H1 H2]). exists s. split; [done|]. split; [|done].
    intros l E. eapply key_lt_trans; [by apply Hb1|]. by apply H1. }
  cbn [fmap list_fmap fst]. split; constructor; try done.
  - assert (∀ s, sep_between lo hi s → child_lt k0 (Some s)) as Hlt.
    { intros s [H1 _]. destruct Hk0 as [->| ->]; [done|]. destruct lo; [by apply H1|done]. }
    constructor; [by apply Hlt|]. eapply Forall_impl; [exact Hf'|]. intros o (s & -> & Hs'). by apply Hlt.
  - exists k. done.
Qed.

(** The child a key belongs to, and that other subtrees fit in its place. *)
Record picked (lo hi : option IndexKey) (k0 : option IndexKey) (key : IndexKey)
    (K1 : list (option IndexKey * X)) (k : option IndexKey) (t : X) (K2 : list (option IndexKey * X))
    (lo' hi' : option IndexKey) : Prop := {
  pk_range : in_range lo' hi' key;
  pk_ord : ord lo' hi' t;
  pk_before : Forall (λ x, key_lt x key) (kid_keys K1);
  pk_after : Forall (λ x, key_lt key x) (kid_keys K2);
  pk_one t1 : ord lo' hi' t1 → ∃ u rest, K1 ++ (k, t1) :: K2 = (k0, u) :: rest ∧ kids_ordered ord lo hi u rest;
  pk_two t1 sep t2 : sep_between lo' hi' sep → ord lo' (Some sep) t1 → ord (Some sep) hi' t2 →
    ∃ u rest, K1 ++ (k, t1) :: (Some sep, t2) :: K2 = (k0, u) :: rest ∧ kids_ordered ord lo hi u rest
}.

Lemma pick lo hi k0 t rest key :
  kids_ordered ord lo hi t rest → in_range lo hi key →
  ∃ K1 k t' K2 lo' hi', (k0, t) :: rest = K1 ++ (k, t') :: K2 ∧
    TreeIndex.find_child_from (idf t) (kid_ids rest) key = idf t' ∧ picked lo hi k0 key K1 k t' K2 lo' hi'.
Proof.
  revert lo t k0. induction rest as [|[[k|] t'] rest IH]; intros lo t k0 Ho Hin; cbn [kids_ordered] in Ho; [|..|done].
  { exists [], k0, t, [], lo, hi. split; [done|]. split; [done|]. constructor; try done.
    - intros t1 H1. by exists t1, [].
    - intros t1 sep t2 Hsep H1 H2. by exists t1, [(Some sep, t2)]. }
  destruct Ho as ([Hb1 Hb2] & Ht & Ho). cbn [kid_ids map fst snd TreeIndex.find_child_from].
  destruct (cmp_le key_cmp k key) eqn:Ele.
  - assert (in_range (Some k) hi key) as Hin'.
    { split; [|apply Hin]. intros ? [= <-]. unfold cmp_le in Ele. destruct (key_cmp k key) eqn:E; [|by right|done].
      left. by apply (cmp_eq (cmp := key_cmp)). }
    destruct (IH (Some k) t' (Some k) Ho Hin') as (K1 & k1 & t1 & K2 & lo' & hi' & E & Ef & [P1 P2 P3 P4 P5 P6]).
    exists ((k0, t) :: K1), k1, t1, K2, lo', hi'. split; [by rewrite E|]. split; [done|]. constructor; try done.
    + unfold kid_keys in *. cbn [map mjoin list_join snd]. apply Forall_app. split; [|done].
      eapply Forall_impl; [by apply (ord_range lo (Some k))|]. intros x [_ Hx]. specialize (Hx k eq_refl).
      destruct Hin' as [Hk _]. destruct (Hk k eq_refl) as [<-|]; [done|]. by eapply key_lt_trans.
    + intros x Hx. destruct (P5 x Hx) as (u & urest & Eu & Hu). exists t, ((Some k, u) :: urest). cbn. by rewrite Eu.
    + intros x sep y Hsep Hx Hy. destruct (P6 x sep y Hsep Hx Hy) as (u & urest & Eu & Hu).
      exists t, ((Some k, u) :: urest). cbn. by rewrite Eu.
  - assert (key_lt key k) as Hlt.
    { unfold cmp_le in Ele. unfold key_lt. rewrite (cmp_opp (cmp := key_cmp) k key). by destruct (key_cmp k key). }
    exists [], k0, t, ((Some k, t') :: rest), lo, (Some k). split; [done|]. split; [done|]. constructor.
    + split; [apply Hin|]. by intros ? [= <-].
    + done.
    + apply Forall_nil_2.
    + eapply Forall_impl; [by apply (kids_range (Some k) hi t' rest (Some k))|]. intros x [Hx _].
      destruct (Hx k eq_refl) as [<-|]; [done|]. by eapply key_lt_trans.
    + intros t1 H1. by exists t1, ((Some k, t') :: rest).
    + intros t1 sep t2 [Hs1 Hs2] H1 H2. specialize (Hs2 k eq_refl). exists t1, ((Some sep, t2) :: (Some k, t') :: rest).
      split; [done|]. cbn [kids_ordered]. split_and!; try done.
      * split; [done|]. intros u Eu. eapply key_lt_trans; [exact Hs2|]. auto.
      * split; [by intros ? [= <-]|done].
Qed.

(** Dividing the children at a separator. *)
Lemma kids_split lo hi t U1 sep t2 U2 :
  kids_ordered ord lo hi t (U1 ++ (Some sep, t2) :: U2) →
  sep_between lo hi sep ∧ kids_ordered ord lo (Some sep) t U1 ∧ kids_ordered ord (Some sep) hi t2 U2.
Proof.
  revert lo t. induction U1 as [|[[k|] t'] U1 IH]; intros lo t Ho; cbn [app kids_ordered] in Ho; [|..|done].
  - by destruct Ho as (? & ? & ?).
  - destruct Ho as ([Hb1 Hb2] & Ht & Ho). destruct (IH (Some k) t' Ho) as ([Hs1 Hs2] & H1 & H2).
    specialize (Hs1 k eq_refl). split; [|split; [|done]].
    + split; [|done]. intros l El. eapply key_lt_trans; [|exact Hs1]. auto.
    + cbn [kids_ordered]. split_and!; try done. split; [done|]. by intros ? [= <-].
Qed.
End Kids.

(** ** Keys of trees *)

Definition tree_keys {h} (t : tree h) : list IndexKey := (leaf_contents (leaves t)).*1.
Definition kid_leaves {h} (l : list (option IndexKey * tree h)) : list (Z * list leaf_entry) :=
  mjoin (map (λ k, leaves k.2) l).
Definition kid_pages {h} (l : list (option IndexKey * tree h)) : list Z := mjoin (map (λ k, inner_pages k.2) l).

Lemma leaf_contents_app l k : leaf_contents (l ++ k) = leaf_contents l ++ leaf_contents k.
Proof. unfold leaf_contents. rewrite map_app. apply join_app. Qed.
Lemma kid_leaves_app {h} (l k : list (option IndexKey * tree h)) : kid_leaves (l ++ k) = kid_leaves l ++ kid_leaves k.
Proof. unfold kid_leaves. rewrite map_app. apply join_app. Qed.
Lemma kid_leaves_cons {h} k t (l : list (option IndexKey * tree h)) : kid_leaves ((k, t) :: l) = leaves t ++ kid_leaves l.
Proof. done. Qed.
Lemma kid_pages_app {h} (l k : list (option IndexKey * tree h)) : kid_pages (l ++ k) = kid_pages l ++ kid_pages k.
Proof. unfold kid_pages. rewrite map_app. apply join_app. Qed.
Lemma kid_pages_cons {h} k t (l : list (option IndexKey * tree h)) : kid_pages ((k, t) :: l) = inner_pages t ++ kid_pages l.
Proof. done. Qed.

Lemma kid_keys_leaves {h} (l : list (option IndexKey * tree h)) :
  kid_keys tree_keys l = (leaf_contents (kid_leaves l)).*1.
Proof.
  induction l as [|[k t] l IH]; [done|]. rewrite kid_leaves_cons, leaf_contents_app, fmap_app, <-IH. done.
Qed.

Lemma ordered_range h lo hi (t : tree h) : ordered lo hi t → Forall (in_range lo hi) (tree_keys t).
Proof.
  revert lo hi t. induction h as [|h IH]; intros lo hi t Ho.
  - unfold tree_keys, leaf_contents. cbn. rewrite app_nil_r. apply Ho.
  - destruct t as [id kids]. destruct Ho as (t0 & rest & E & Ho). cbn [snd] in E. subst kids.
    pose proof (kids_range ordered tree_keys IH lo hi t0 rest None Ho) as Hr. by rewrite kid_keys_leaves in Hr.
Qed.

Lemma leaves_nonempty h lo hi (t : tree h) : ordered lo hi t → leaves t ≠ [].
Proof.
  revert lo hi t. induction h as [|h IH]; intros lo hi t Ho; [done|].
  destruct t as [id kids]. destruct Ho as (t0 & rest & E & Ho). cbn [snd] in E. subst kids.
  cbn [leaves snd map mjoin list_join]. assert (∃ lo hi, ordered lo hi t0) as (lo' & hi' & H0).
  { destruct rest as [|[[k|] t'] rest]; cbn [kids_ordered] in Ho; [by exists lo, hi| |done].
    exists lo, (Some k). apply Ho. }
  specialize (IH lo' hi' t0 H0). by destruct (leaves t0).
Qed.

Lemma height_pages h lo hi (t : tree h) : ordered lo hi t → (h ≤ length (inner_pages t))%nat.
Proof.
  revert lo hi t. induction h as [|h IH]; intros lo hi t Ho; [lia|].
  destruct t as [id kids]. destruct Ho as (t0 & rest & E & Ho). cbn [snd] in E. subst kids.
  cbn [inner_pages snd map mjoin list_join length fst]. rewrite length_app.
  destruct rest as [|[[k|] t'] rest]; cbn [kids_ordered] in Ho; [| |done].
  - specialize (IH _ _ _ Ho). lia.
  - destruct Ho as (_ & H0 & _). specialize (IH _ _ _ H0). lia.
Qed.

(** ** Trees in the map of nodes *)

(** The inner nodes of a tree are stored, and each has two children or more. *)
Fixpoint inner (S : gmap Z tree_node) {h} : tree h → Prop :=
  match h with
  | O => λ _, True
  | Datatypes.S h => λ t,
      (S !! t.1 = Some (InnerNode (kid_ids root_id t.2)) ∧ (2 ≤ length t.2)%nat) ∧ Forall (λ k, inner S k.2) t.2
  end.

Lemma inner_frame S S' h (t : tree h) :
  inner S t → (∀ i, i ∈ inner_pages t → S' !! i = S !! i) → inner S' t.
Proof.
  revert t. induction h as [|h IH]; intros t Hi Hs; [done|]. destruct t as [id kids]. destruct Hi as [[Hid Hlen] Hk].
  cbn [fst snd] in *. split; [split; [rewrite Hs; [done|by left]|done]|]. cbn [snd]. rewrite Forall_forall in Hk |- *.
  intros [k t] Hin. apply IH; [by apply (Hk (k, t))|]. intros i Hi. apply Hs. right. cbn [snd].
  apply list_elem_of_join. exists (inner_pages t). split; [done|]. apply list_elem_of_fmap. by exists (k, t).
Qed.

Lemma inner_kids_frame {h} S S' (l : list (option IndexKey * tree h)) :
  Forall (λ k, inner S k.2) l → (∀ i, i ∈ kid_pages l → S' !! i = S !! i) → Forall (λ k, inner S' k.2) l.
Proof.
  induction 1 as [|[k t] l Ht _ IH]; intros Hs; constructor.
  - eapply inner_frame; [exact Ht|]. intros i Hi. apply Hs. rewrite kid_pages_cons, elem_of_app. by left.
  - apply IH. intros i Hi. apply Hs. rewrite kid_pages_cons, elem_of_app. by right.
Qed.

Lemma inner_stored S h (t : tree h) i : inner S t → i ∈ inner_pages t → ∃ kids, S !! i = Some (InnerNode kids).
Proof.
  revert t. induction h as [|h IH]; intros t Hi Hin; [by apply not_elem_of_nil in Hin|].
  destruct t as [id kids]. destruct Hi as [[Hid _] Hk]. cbn [inner_pages fst snd] in *.
  apply elem_of_cons in Hin as [->|Hin]; [by eexists|].
  apply list_elem_of_join in Hin as (ps & Hin & Hps). apply list_elem_of_fmap in Hps as ([k t] & -> & Ht).
  rewrite Forall_forall in Hk. by apply (IH t); [apply (Hk (k, t))|].
Qed.

(** The leaves, chained: [l] and [r] are the leaves before and after them. *)
Definition next_leaf (ls : list (Z * list leaf_entry)) (r : option Z) : option Z :=
  match ls with [] => r | (i, _) :: _ => Some i end.
Definition last_leaf (l : option Z) (ls : list (Z * list leaf_entry)) : option Z :=
  match last ls with Some (i, _) => Some i | None => l end.

Fixpoint chain (S : gmap Z tree_node) (l : option Z) (ls : list (Z * list leaf_entry)) (r : option Z) : Prop :=
  match ls with
  | [] => True
  | (i, es) :: ls => S !! i = Some (LeafNode l (next_leaf ls r) es) ∧ chain S (Some i) ls r
  end.

Lemma chain_app S l A B r :
  chain S l (A ++ B) r ↔ chain S l A (next_leaf B r) ∧ chain S (last_leaf l A) B r.
Proof.
  revert l. induction A as [|[i es] A IH]; intros l; [by cbn; intuition|].
  cbn [app chain]. rewrite IH. assert (next_leaf (A ++ B) r = next_leaf A (next_leaf B r)) as -> by (by destruct A as [|[]]).
  assert (last_leaf l ((i, es) :: A) = last_leaf (Some i) A) as ->; [|tauto].
  unfold last_leaf. rewrite last_cons. by destruct (last A).
Qed.

Lemma chain_frame S S' l ls r :
  chain S l ls r → (∀ i, i ∈ ls.*1 → S' !! i = S !! i) → chain S' l ls r.
Proof.
  revert l. induction ls as [|[i es] ls IH]; intros l Hc Hs; [done|]. destruct Hc as [Hi Hc]. split.
  - rewrite Hs; [done|by left].
  - apply IH; [done|]. intros j Hj. apply Hs. by right.
Qed.

Lemma chain_stored S l ls r i : chain S l ls r → i ∈ ls.*1 → ∃ l' r' es, S !! i = Some (LeafNode l' r' es).
Proof.
  revert l. induction ls as [|[j es] ls IH]; intros l Hc Hi; [by apply not_elem_of_nil in Hi|].
  destruct Hc as [Hj Hc]. rewrite fmap_cons in Hi. apply elem_of_cons in Hi as [->|Hi]; [by do 3 eexists|eauto].
Qed.

(** Inner nodes are not leaves. *)
Lemma chain_inner S l ls r i nd :
  chain S l ls r → (∀ l' r' es, S !! i ≠ Some (LeafNode l' r' es)) → chain (<[i := nd]> S) l ls r.
Proof.
  intros Hc Hi. eapply chain_frame; [exact Hc|]. intros j Hj. apply lookup_insert_ne. intros ->.
  destruct (chain_stored S l ls r j Hc Hj) as (? & ? & ? & E). by eapply Hi.
Qed.

(** ** Changing a leaf *)

(** The leaf right of a leaf that was split gets a new left sibling. *)
Definition relink (r : option Z) (new : Z) (S : gmap Z tree_node) : gmap Z tree_node :=
  match r with
  | Some x =>
      match S !! x with Some (LeafNode _ r' es) => <[x := LeafNode (Some new) r' es]> S | _ => S end
  | None => S
  end.

Lemma NoDup_leaf_middle (A : list (Z * list leaf_entry)) i es B :
  NoDup (A ++ (i, es) :: B).*1 → i ∉ A.*1 ∧ i ∉ B.*1 ∧ (∀ j, j ∈ A.*1 → j ∉ B.*1).
Proof.
  rewrite fmap_app, fmap_cons. intros (_ & Hd & [Hi _]%NoDup_cons)%NoDup_app. split_and!; [|done|].
  - intros Hin. apply (Hd i Hin). by left.
  - intros j Hj Hj'. apply (Hd j Hj). by right.
Qed.

Lemma chain_set S l A i es es' B r :
  chain S l (A ++ (i, es) :: B) r → NoDup (A ++ (i, es) :: B).*1 →
  S !! i = Some (LeafNode (last_leaf l A) (next_leaf B r) es) ∧
  chain (<[i := LeafNode (last_leaf l A) (next_leaf B r) es']> S) l (A ++ (i, es') :: B) r.
Proof.
  intros [HA [Hi HB]]%chain_app (HiA & HiB & _)%NoDup_leaf_middle. split; [done|].
  apply chain_app. split; [|split].
  - eapply chain_frame; [exact HA|]. intros j Hj. apply lookup_insert_ne. by intros ->.
  - by rewrite lookup_insert_eq.
  - eapply chain_frame; [exact HB|]. intros j Hj. apply lookup_insert_ne. by intros ->.
Qed.

Lemma chain_split S A i es es1 es2 B n :
  chain S None (A ++ (i, es) :: B) None → NoDup (A ++ (i, es) :: B).*1 → S !! n = None →
  chain (relink (next_leaf B None) n
           (<[i := LeafNode (last_leaf None A) (Some n) es1]> (<[n := LeafNode (Some i) (next_leaf B None) es2]> S)))
    None (A ++ (i, es1) :: (n, es2) :: B) None.
Proof.
  intros Hc Hnd Hn. assert (n ∉ (A ++ (i, es) :: B).*1) as Hfresh.
  { intros Hin. destruct (chain_stored _ _ _ _ _ Hc Hin) as (? & ? & ? & E). by rewrite Hn in E. }
  rewrite fmap_app, fmap_cons, not_elem_of_app, not_elem_of_cons in Hfresh. destruct Hfresh as (HnA & Hni & HnB).
  destruct (NoDup_leaf_middle A i es B Hnd) as (HiA & HiB & HAB). apply chain_app in Hc as [HA [Hi HB]].
  assert (∃ S', relink (next_leaf B None) n
      (<[i := LeafNode (last_leaf None A) (Some n) es1]> (<[n := LeafNode (Some i) (next_leaf B None) es2]> S)) = S' ∧
    S' !! i = Some (LeafNode (last_leaf None A) (Some n) es1) ∧ S' !! n = Some (LeafNode (Some i) (next_leaf B None) es2) ∧
    chain S' (Some n) B None ∧ ∀ j, j ∈ A.*1 → S' !! j = S !! j) as (S' & -> & HSi & HSn & HSB & HSA).
  { destruct B as [|[x esx] B]; cbn [next_leaf relink].
    - eexists. split; [done|]. split_and!; [by rewrite lookup_insert_eq|by rewrite lookup_insert_ne, lookup_insert_eq|done|].
      intros j Hj. rewrite !lookup_insert_ne; [done|by intros ->..].
    - destruct HB as [Hx HB]. rewrite fmap_cons, not_elem_of_cons in HnB, HiB. destruct HnB as [Hnx HnB], HiB as [Hix HiB].
      rewrite !lookup_insert_ne, Hx by done. eexists. split; [done|]. split_and!.
      + by rewrite lookup_insert_ne, lookup_insert_eq.
      + rewrite lookup_insert_ne by done. rewrite lookup_insert_ne by done. by rewrite lookup_insert_eq.
      + split; [by rewrite lookup_insert_eq|]. eapply chain_frame; [exact HB|]. intros j Hj.
        rewrite fmap_app, fmap_cons in Hnd. apply NoDup_app in Hnd as (_ & _ & [_ [Hxj _]%NoDup_cons]%NoDup_cons).
        rewrite !lookup_insert_ne; [done|by intros ->..].
      + intros j Hj. specialize (HAB j Hj). rewrite fmap_cons, not_elem_of_cons in HAB.
        rewrite !lookup_insert_ne; [done|by intros ->..|]. intros ->. by destruct HAB. }
  apply chain_app. cbn [chain next_leaf]. split_and!; try done.
  by eapply chain_frame.
Qed.

(** The inner nodes are kept. *)
Lemma relink_inner r n S i kids : S !! i = Some (InnerNode kids) → relink r n S !! i = Some (InnerNode kids).
Proof.
  intros Hi. unfold relink. destruct r as [x|]; [|done]. destruct (S !! x) as [[l r' es|]|] eqn:Ex; try done.
  rewrite lookup_insert_ne; [done|]. congruence.
Qed.

(** A tree of height [h] has [2 ^ h] leaves or more. *)
Lemma inner_leaves S h (t : tree h) : inner S t → (2 ^ h ≤ length (leaves t))%nat.
Proof.
  revert t. induction h as [|h IH]; intros t Hi; [cbn; lia|]. destruct t as [id kids]. destruct Hi as [[_ Hlen] Hk].
  cbn [snd] in Hlen, Hk. change (leaves (h := Datatypes.S h) (id, kids)) with (kid_leaves kids).
  change (2 ^ Datatypes.S h)%nat with (2 ^ h + (2 ^ h + 0))%nat.
  destruct kids as [|[k1 t1] [|[k2 t2] kids]]; cbn [length] in Hlen; [lia..|].
  apply Forall_cons in Hk as [H1 [H2 _]%Forall_cons]. rewrite !kid_leaves_cons, !length_app.
  pose proof (IH t1 H1). pose proof (IH t2 H2). lia.
Qed.
