(* ===== verification/TreeStore.v ===== *)
(** * B+tree nodes in the pool

    The pages of a tree as a map from page ids to nodes, over any memory pool. [pool_at]
    says what the pool holds for the pages an operation works with while it runs, and
    [rests] that pages at rest hold the nodes of the map. The operations on one node, a
    split included, are then changes of the map. *)

From S2P Require Import Prelude Common Ordering HeapPage HeapPageView HeapPageSpec.
From S2P Require Import HeapPageUpdate HeapPageContract BufferFrame MemPool HeapFile.
From S2P Require Import HeapFileSpec.
From S2P Require Import Field FieldContract TreeIndex TreeNode TreeShape.
From stdpp Require Import strings sorting gmap.

Open Scope Z_scope.

Section Store.
Context `{Laws : MemPoolLaws P} `{NodeCodec} (key_ok : IndexKey → Prop) `{!NodeCodecLaws key_ok}.
(** The container of the tree, and the pool before an operation. *)
Context (c : Z) (Hc : 0 ≤ c < 2 ^ 16) (base : P).

Abbreviation page_key i := (mkContainerPageId c i) (only parsing).

(** The pool has the entries [V] for pages of the container, which has [n] pages; other
    containers are as before the operation. *)
Record pool_at (m : P) (V : gmap Z entry) (n : Z) : Prop := {
  pa_inv : mp_inv m;
  pa_view i e : V !! i = Some e → mp_view m (page_key i) = Some e;
  pa_count : HeapFile.num_pages m c = n;
  pa_else : elsewhere base m c
}.

Lemma pool_at_update m m' V n i e :
  pool_at m V n → mp_inv m' →
  view_update mp_view mp_get_max_page_id mp_can_create m m' (page_key i) e →
  pool_at m' (<[i := e]> V) n.
Proof.
  intros [Hi Hv Hn [He1 He2]] Hi' [U1 U2 U3 _]. constructor; [done| | |].
  - intros j e' Hj. destruct (decide (j = i)) as [->|].
    + rewrite lookup_insert_eq in Hj. by simplify_eq.
    + rewrite lookup_insert_ne in Hj by done. rewrite U2; [auto|congruence].
  - unfold HeapFile.num_pages. by rewrite U3.
  - split; [|intros d Hd; rewrite U3; auto]. intros k Hk. rewrite U2; [auto|]. intros ->. done.
Qed.

Lemma pool_read {A} m V n i g p (look : Page → outcome (result CrustyError A)) a :
  pool_at m V n → V !! i = Some (mkEntry g p 0) → look p = Ret a →
  ∃ m', TreeIndex.reading m c i look = Ret (m', a) ∧ pool_at m' V n.
Proof.
  intros Hp Hv Ha. destruct (mp_read_ok m _ _ (pa_inv _ _ _ Hp) (pa_view _ _ _ Hp _ _ Hv)) as (m1 & E1 & Hi1 & U1);
    [simpl; lia|]. simpl in *.
  pose proof (mp_deref m1 _ _ Hi1 (vu_here _ _ _ _ _ _ _ U1)) as D1.
  destruct (mp_drop_read m1 _ _ Hi1 (vu_here _ _ _ _ _ _ _ U1)) as (m2 & E2 & Hi2 & U2); [simpl; lia|].
  simpl in *. exists m2. split.
  - unfold TreeIndex.reading, TreeIndex.get_page_for_read, TreeIndex.try, PageFrameIds.new.
    rewrite E1. simpl. rewrite D1. simpl. rewrite Ha. simpl. by rewrite E2.
  - rewrite <-(insert_id V i (mkEntry g p 0)) by done.
    apply (pool_at_update m m2); [done..|]. by eapply view_update_trans.
Qed.

Lemma pool_write m V n i g p :
  pool_at m V n → V !! i = Some (mkEntry g p 0) →
  ∃ m', TreeIndex.get_page_for_write m c i = Ret (m', Ok g) ∧ pool_at m' (<[i := mkEntry g p (-1)]> V) n.
Proof.
  intros Hp Hv. destruct (mp_write_ok m _ _ (pa_inv _ _ _ Hp) (pa_view _ _ _ Hp _ _ Hv)) as (m1 & E1 & Hi1 & U1); [done|].
  exists m1. split; [|by eapply pool_at_update].
  unfold TreeIndex.get_page_for_write, PageFrameIds.new. by rewrite E1.
Qed.

Lemma pool_modify {A} m V n i g p p' (f : Page → outcome (Page * A)) a :
  pool_at m V n → V !! i = Some (mkEntry g p (-1)) → f p = Ret (p', a) →
  zlen p' = PAGE_SIZE → sub p' 0 16 = sub p 0 16 →
  ∃ m', TreeIndex.modify m g f = Ret (m', a) ∧ pool_at m' (<[i := mkEntry g p' (-1)]> V) n.
Proof.
  intros Hp Hv Hf Hlen Hh. pose proof (pa_inv _ _ _ Hp) as Hi. pose proof (pa_view _ _ _ Hp _ _ Hv) as Hv'.
  pose proof (mp_deref m _ _ Hi Hv') as D. simpl in D.
  destruct (mp_deref_mut m _ _ p' Hi Hv') as (m1 & E1 & Hi1 & U1); [done|done| |].
  { simpl. unfold u32_at. by rewrite (sub_sub_eq p p' 0 16) by (done || lia). }
  exists m1. split; [|by eapply pool_at_update]. unfold TreeIndex.modify. rewrite D. simpl in *. rewrite Hf. simpl.
  by rewrite E1.
Qed.

Lemma pool_drop m V n i g p :
  pool_at m V n → V !! i = Some (mkEntry g p (-1)) →
  ∃ m', drop_write m g = Ret m' ∧ pool_at m' (<[i := mkEntry g p 0]> V) n.
Proof.
  intros Hp Hv.
  destruct (mp_drop_write m _ _ (pa_inv _ _ _ Hp) (pa_view _ _ _ Hp _ _ Hv)) as (m1 & E1 & Hi1 & U1); [done|].
  exists m1. split; [done|by eapply pool_at_update].
Qed.

(** A new page failed with [e]: the pool had no frame for it. *)
Definition no_frame (e : CrustyError) : Prop :=
  ∃ m m', mp_inv m ∧ elsewhere base m c ∧ ¬ mp_can_create m ∧ TreeIndex.create_page m c = Ret (m', Err e).

(** A new page, formatted: an empty node that carries its id. *)
Lemma pool_create m V n :
  pool_at m V n → n < U32_MAX →
  ∃ m1 r, TreeIndex.create_page m c = Ret (m1, r) ∧
    match r with
    | Err e => no_frame e ∧ pool_at m1 V n
    | Ok g => ∃ m' p, TreeIndex.init_page m1 g = Ret m' ∧
        pool_at m' (<[n := mkEntry g p (-1)]> V) (n + 1) ∧ V !! n = None ∧ 0 ≤ n ∧
        node_page key_ok p [] ∧ del_bytes p = 0 ∧ free_space p = 4072 ∧ u32_at p 0 = n ∧ num_slots p = 0
    end.
Proof.
  intros Hp Hn. pose proof Hp as [Hi Hv Hcount [He1 He2]]. unfold HeapFile.num_pages in Hcount.
  destruct (mp_create m c Hi Hc) as (m1 & r & E & Hi1 & Hr); [lia|].
  destruct r as [g|e]; cycle 1.
  { destruct Hr as (Hcan & _ & Hv1 & Hm1).
    assert (TreeIndex.create_page m c = Ret (m1, Err (c_err "create_new_page_for_write"))) as E' by (unfold TreeIndex.create_page; by rewrite E).
    eexists m1, (Err _). split; [exact E'|]. split; [by exists m, m1|]. constructor; [done| | |].
    - intros i e' He'. rewrite Hv1. auto.
    - unfold HeapFile.num_pages. by rewrite Hm1.
    - split; intros; rewrite ?Hv1, ?Hm1; auto. }
  rewrite Hcount in Hr. destruct Hr as (Hpos & Hnone & Hnew & Hother & Hmax & Hmax').
  destruct (init_blank n) as (p & E0 & Hwf & Hn0 & Hf0 & Hs0 & Hh0).
  assert (V !! n = None) as HVn.
  { destruct (V !! n) as [e|] eqn:En; [|done]. apply Hv in En. congruence. }
  assert (pool_at m1 (<[n := mkEntry g (blank_page n) (-1)]> V) (n + 1)) as Hp1.
  { constructor; [done| | |].
    - intros j e. destruct (decide (j = n)) as [->|].
      + rewrite lookup_insert_eq. congruence.
      + rewrite lookup_insert_ne by done. rewrite Hother by congruence. auto.
    - unfold HeapFile.num_pages. by rewrite Hmax.
    - split; [|intros d Hd; rewrite Hmax'; auto]. intros k Hk. rewrite Hother; [auto|]. intros ->. done. }
  destruct (pool_modify m1 _ (n + 1) n g (blank_page n) p (λ p, p ← HeapPage.init_heap_page p; Ret (p, tt)) tt Hp1)
    as (m2 & E2 & Hp2).
  { by rewrite lookup_insert_eq. } { unfold blank_page. by rewrite E0. } { apply Hwf. } { by rewrite Hh0, sub_blank. }
  rewrite insert_insert_eq in Hp2.
  exists m1, (Ok g). split; [unfold TreeIndex.create_page; by rewrite E|]. exists m2, p.
  split; [unfold TreeIndex.init_page; by rewrite E2|]. split; [done|]. split; [done|]. split; [done|].
  split; [|split; [|split; [done|split; [|done]]]].
  - constructor; [done| |rewrite Hn0, Hs0; done|rewrite Hn0; lia|constructor].
    unfold contents. rewrite <-Hn0 at 1. by rewrite entries_end.
  - unfold free_space, header_size, slot_meta in Hs0. rewrite Hn0, Hf0 in Hs0.
    unfold PAGE_SIZE, PAGE_FIXED_HEADER_LEN, HEAP_PAGE_FIXED_METADATA_SIZE in Hs0. lia.
  - apply u32_blank; [|done]. unfold U32_MAX in Hn. lia.
Qed.

Lemma pool_add_entries m V n i g p es fs :
  pool_at m V n → V !! i = Some (mkEntry g p (-1)) → node_page key_ok p es →
  Forall (entry_ok key_ok) fs → room_for p es fs →
  ∃ m' p', TreeIndex.add_entries m g fs = Ret (m', Ok tt) ∧ pool_at m' (<[i := mkEntry g p' (-1)]> V) n ∧
    node_page key_ok p' (fs ++ es) ∧ sub p' 0 16 = sub p 0 16 ∧ num_slots p ≤ num_slots p' ∧ del_bytes p' ≤ del_bytes p.
Proof.
  revert m V p es. induction fs as [|e fs IH]; intros m V p es Hp Hv Hnp Hfs Hroom.
  { exists m, p. rewrite insert_id by done. done. }
  destruct (node_add_first key_ok p es e fs Hnp Hfs Hroom) as (p1 & k & E & Hnp1 & Hh1 & Hroom1 & Hn1 & Hd1).
  apply Forall_cons in Hfs as [He Hfs]. destruct (entry_bytes_ok key_ok e He) as (Henc & _).
  destruct (pool_modify m V n i g p p1 (λ p, HeapPage.add_value p (entry_bytes e)) (Some k) Hp Hv E)
    as (m1 & E1 & Hp1); [apply Hnp1|done|].
  destruct (IH m1 _ p1 (e :: es) Hp1) as (m' & p' & E' & Hp' & Hnp' & Hh' & Hn' & Hd'); try done.
  { by rewrite lookup_insert_eq. }
  exists m', p'. rewrite insert_insert_eq in Hp'. split_and!; try done; [| |congruence|lia|lia].
  - cbn [TreeIndex.add_entries]. unfold TreeIndex.try, TreeIndex.add_entry. rewrite Henc, E1. simpl. by rewrite E'.
  - rewrite <-app_comm_cons. eapply node_page_proper; [|exact Hnp']. apply Permutation_middle.
Qed.

Lemma pool_page_id m V n i g p l :
  pool_at m V n → V !! i = Some (mkEntry g p l) → zlen p = PAGE_SIZE → u32_at p 0 = i →
  TreeIndex.page_id_of m g = Ret i.
Proof.
  intros Hp Hv Hlen Hid. unfold TreeIndex.page_id_of.
  pose proof (mp_deref m _ _ (pa_inv _ _ _ Hp) (pa_view _ _ _ Hp _ _ Hv)) as D. simpl in D. rewrite D. simpl.
  unfold Pages.get_page_id. rewrite read_u32_ok by (rewrite ?Hlen; unfold PAGE_SIZE; lia). by rewrite Hid.
Qed.

(** ** Nodes at rest *)

(** The page [p] is at rest in [V] under the id [i]. *)
Definition unlatched (V : gmap Z entry) (i : Z) (p : Page) : Prop :=
  ∃ g, V !! i = Some (mkEntry g p 0) ∧ u32_at p 0 = i.

(** A leaf with a single slot is the first of its tree and as it was made; an inner node
    with fewer than five slots is as it was made but for entries added. *)
Definition node_used (p : Page) (nd : tree_node) : Prop :=
  match nd with
  | LeafNode l _ _ => 1 < num_slots p ∨ del_bytes p = 0 ∧ l = None
  | InnerNode _ => 5 ≤ num_slots p ∨ del_bytes p = 0
  end.

Record rests (V : gmap Z entry) (S : gmap Z tree_node) (root n : Z) : Prop := {
  rs_header : ∃ p, unlatched V 0 p ∧ wf p ∧ value p 0 = Some (le_split 4 root);
  rs_nodes i nd : S !! i = Some nd →
    1 ≤ i < n ∧ node_sorted nd ∧ ∃ p, unlatched V i p ∧ node_page key_ok p (node_entries nd) ∧ node_used p nd
}.

Lemma unlatched_other V i j e p : i ≠ j → unlatched V i p → unlatched (<[j := e]> V) i p.
Proof. intros Hne (g & Hv & Hid). exists g. by rewrite lookup_insert_ne. Qed.

(** A page is taken out of the map while it is worked on. *)
Lemma rests_take V S root n i e : 1 ≤ i → rests V S root n → rests (<[i := e]> V) (delete i S) root n.
Proof.
  intros Hi [(p & Hu & Hh) Hn]. constructor.
  - exists p. split; [|done]. apply unlatched_other; [lia|done].
  - intros j nd Hj. destruct (decide (j = i)) as [->|]; [by rewrite lookup_delete_eq in Hj|].
    rewrite lookup_delete_ne in Hj by done. destruct (Hn j nd Hj) as (? & ? & q & Hq & ?).
    split; [done|]. split; [done|]. exists q. split; [by apply unlatched_other|done].
Qed.

Lemma rests_take_again V S root n i e :
  1 ≤ i → rests V (delete i S) root n → rests (<[i := e]> V) (delete i S) root n.
Proof. intros Hi Hr. rewrite <-delete_delete_eq. by apply rests_take. Qed.

Lemma rests_put V S root n n' i g p nd :
  rests V (delete i S) root n → n ≤ n' → 1 ≤ i < n' → u32_at p 0 = i →
  node_page key_ok p (node_entries nd) → node_used p nd → node_sorted nd →
  rests (<[i := mkEntry g p 0]> V) (<[i := nd]> S) root n'.
Proof.
  intros [(q & Hu & Hh) Hn] Hle Hi Hid Hnp Hused Hs. constructor.
  - exists q. split; [|done]. apply unlatched_other; [lia|done].
  - intros j nd' Hj. destruct (decide (j = i)) as [->|].
    + rewrite lookup_insert_eq in Hj. simplify_eq. split; [done|]. split; [done|]. exists p. split; [|done].
      exists g. by rewrite lookup_insert_eq.
    + rewrite lookup_insert_ne in Hj by done. destruct (Hn j nd') as (? & ? & p' & Hp' & ?).
      { by rewrite lookup_delete_ne. }
      split; [lia|]. split; [done|]. exists p'. split; [by apply unlatched_other|done].
Qed.

(** Looking at a node. *)
Lemma node_read {A} m V S root n i nd (look : Page → outcome (result CrustyError A)) a :
  pool_at m V n → rests V S root n → S !! i = Some nd →
  (∀ p, node_page key_ok p (node_entries nd) → look p = Ret a) →
  ∃ m', TreeIndex.reading m c i look = Ret (m', a) ∧ pool_at m' V n.
Proof.
  intros Hp [_ Hn] Hi Hlook. destruct (Hn i nd Hi) as (_ & _ & p & (g & Hv & _) & Hnp & _).
  by eapply (pool_read m V n i g p); [| |apply Hlook].
Qed.

Lemma get_root_ok m V S root n :
  pool_at m V n → rests V S root n → id_ok root →
  ∃ m', TreeIndex.get_root_page_id m c = Ret (m', Ok root) ∧ pool_at m' V n.
Proof.
  intros Hp [(p & (g & Hv & _) & Hwf & Hval) _] Hroot. unfold TreeIndex.get_root_page_id.
  eapply (pool_read m V n 0 g p); [done..|]. rewrite get_value_ok by (apply Hwf || done). rewrite Hval.
  cbn [mbind outcome_bind]. replace (zlen _ =? 4) with true by (unfold zlen; by rewrite length_le_split).
  by rewrite le_combine_split, Z.mod_small.
Qed.

Lemma set_root_ok m V S root root' n :
  pool_at m V n → rests V S root n → id_ok root' →
  ∃ m' V', TreeIndex.set_root_page_id m c root' = Ret (m', Ok tt) ∧ pool_at m' V' n ∧ rests V' S root' n.
Proof.
  intros Hp [(p & (g & Hv & Hid) & Hwf & Hval) Hn] Hroot.
  destruct (pool_write m V n 0 g p Hp Hv) as (m1 & E1 & Hp1).
  pose proof (update_value_ok p 0 (le_split 4 root') Hwf) as Hu. rewrite Hval in Hu.
  assert (∀ r, zlen (le_split 4 r) = 4) as Hlen by (intros; unfold zlen; by rewrite length_le_split).
  rewrite !Hlen in Hu. destruct Hu as (p' & Eu & [Hwf' Hh' _ _ Hv' _]); [lia|done|].
  destruct (pool_modify m1 _ n 0 g p p' (λ p, HeapPage.update_value p 0 (le_split 4 root')) (Some tt) Hp1)
    as (m2 & E2 & Hp2); [by rewrite lookup_insert_eq|done|apply Hwf'|done|].
  destruct (pool_drop m2 _ n 0 g p' Hp2) as (m3 & E3 & Hp3); [by rewrite lookup_insert_eq|].
  rewrite !insert_insert_eq in Hp3. exists m3, (<[0 := mkEntry g p' 0]> V). split_and!; [|done|].
  - unfold TreeIndex.set_root_page_id, TreeIndex.try. rewrite E1. simpl. rewrite E2. simpl. by rewrite E3.
  - constructor.
    + exists p'. split; [|done]. exists g. rewrite lookup_insert_eq. split; [done|].
      unfold u32_at in *. by rewrite (sub_sub_eq p p' 0 16) by (done || lia).
    + intros i nd Hi. destruct (Hn i nd Hi) as (? & ? & q & Hq & ?). split; [done|]. split; [done|].
      exists q. split; [apply unlatched_other; [lia|done]|done].
Qed.

(** ** Leaves *)

Definition rethread_error : CrustyError := c_err "failed to re-thread leaf sibling pointer".

(** One of the leaves has no room for the longer entry that a new left sibling needs. *)
Definition full_leaf (page : Z → option entry) : Prop :=
  ∃ x g p l r es new, page x = Some (mkEntry g p 0) ∧ node_page key_ok p (node_entries (LeafNode (Some l) r es)) ∧
    free_space p + zlen (entry_bytes (NMeta true (Some l) r)) ≤ zlen (entry_bytes (NMeta true (Some new) r)).

(** Why an insertion into the tree with the pages [V] fails with [e]. *)
Definition insert_fault (V : gmap Z entry) (e : CrustyError) : Prop :=
  no_frame e ∨ e = rethread_error ∧ full_leaf (λ i, V !! i).

(** Setting the left sibling of a leaf; the entry that holds it may not fit any more. *)
Lemma set_left_ok m V S root n x l r es new :
  pool_at m V n → rests V S root n → S !! x = Some (LeafNode (Some l) r es) → id_ok new →
  ∃ m' res, TreeIndex.set_leaf_left_sibling m c x (Some new) = Ret (m', res) ∧
    match res with
    | Ok _ => ∃ V', pool_at m' V' n ∧ rests V' (<[x := LeafNode (Some new) r es]> S) root n
    | Err e => e = rethread_error ∧ (∃ V', pool_at m' V' n) ∧
        ∃ g p, V !! x = Some (mkEntry g p 0) ∧ node_page key_ok p (node_entries (LeafNode (Some l) r es)) ∧
          free_space p + zlen (entry_bytes (NMeta true (Some l) r)) ≤ zlen (entry_bytes (NMeta true (Some new) r))
    end.
Proof.
  intros Hp Hr Hx Hnew. pose proof Hr as [_ Hn]. destruct (Hn x _ Hx) as (Hxn & Hs & p & (g & Hv & Hid) & Hnp & Hused).
  destruct (pool_write m V n x g p Hp Hv) as (m1 & E1 & Hp1).
  pose proof (mp_deref m1 _ _ (pa_inv _ _ _ Hp1) (pa_view _ _ _ Hp1 _ _ (lookup_insert_eq _ _ _))) as D1. simpl in D1.
  destruct (node_visit key_ok p _ Hnp) as (ls & Hls & Hlv & _ & _ & Hrun).
  destruct (visit_meta (λ b _ rs i, Ok (E := CrustyError) (i, b, rs)) (LeafNode (Some l) r es) ls Hls) as (k & Hk & Ek).
  assert (entry_ok key_ok (NMeta true (Some new) r)) as Hmeta.
  { pose proof (np_ok key_ok _ _ Hnp) as [[_ Hr'] _]%Forall_cons. split; [|done]. intros ? [= <-]. done. }
  destruct (node_update key_ok p (NMeta true (Some l) r) (NMeta true (Some new) r) _ k Hnp (Hlv _ _ Hk) Hmeta)
    as (p' & res & Eu & Hh & Hnum & Hres).
  destruct (entry_bytes_ok key_ok _ Hmeta) as (Henc & _).
  assert (zlen p' = PAGE_SIZE) as Hz.
  { destruct res as [u|]; [apply Hres|destruct Hres as [-> _]; apply Hnp]. }
  destruct (pool_modify m1 _ n x g p p' (λ p, HeapPage.update_value p k (entry_bytes (NMeta true (Some new) r))) res Hp1)
    as (m2 & E2 & Hp2); [by rewrite lookup_insert_eq|done..|].
  destruct (pool_drop m2 _ n x g p' Hp2) as (m3 & E3 & Hp3); [by rewrite lookup_insert_eq|].
  rewrite !insert_insert_eq in Hp3.
  exists m3, (ok_or res rethread_error). split.
  - unfold TreeIndex.set_leaf_left_sibling, TreeIndex.try. rewrite E1. simpl. rewrite D1. simpl.
    rewrite Hrun. cbn [mbind outcome_bind]. rewrite Ek. simpl. rewrite Henc, E2. simpl. by rewrite E3.
  - destruct res as [[]|]; [|split; [done|]; split; [by eexists|]; exists g, p; split_and!; [done..|apply Hres]]. simpl. exists (<[x := mkEntry g p' 0]> V). split; [done|].
    rewrite <-(insert_insert_eq V x (mkEntry g p' 0) (mkEntry g p' 0)).
    eapply (rests_put _ S root n n); [by apply rests_take; [lia|]|lia|lia| |done| |done].
    + unfold u32_at in *. by rewrite (sub_sub_eq p p' 0 16) by (done || lia).
    + left. rewrite Hnum. destruct Hused as [|[_ ?]]; done.
Qed.

Definition leaf_nodes (es : list leaf_entry) : list NodeEntry := map (λ e : leaf_entry, NLeaf e.1 e.2) es.
Definition child_nodes (kids : list child_entry) : list NodeEntry := map (λ e : child_entry, NInternal e.1 e.2) kids.

#[local] Instance leaf_nodes_proper : Proper ((≡ₚ) ==> (≡ₚ)) leaf_nodes.
Proof. intros l k E. unfold leaf_nodes. by apply Permutation_map. Qed.
#[local] Instance child_nodes_proper : Proper ((≡ₚ) ==> (≡ₚ)) child_nodes.
Proof. intros l k E. unfold child_nodes. by apply Permutation_map. Qed.

(** The pages of a node being split: the drained page of [i] takes the entries [L], and a
    new page the entries [R], both over nodes that are at rest otherwise. *)
Lemma split_pages m V S root n i g p ndL ndR :
  pool_at m V n → rests V (delete i S) root n → V !! i = Some (mkEntry g p (-1)) → 1 ≤ i < n → n < U32_MAX →
  u32_at p 0 = i → node_page key_ok p [] →
  node_sorted ndL → node_sorted ndR → (∀ p', num_slots p ≤ num_slots p' → node_used p' ndL) →
  (∀ q, zlen (node_entries ndR) ≤ num_slots q → del_bytes q = 0 → node_used q ndR) →
  Forall (entry_ok key_ok) (node_entries ndL) → Forall (entry_ok key_ok) (node_entries ndR) →
  room_for p [] (node_entries ndL) →
  (∀ q, del_bytes q = 0 → free_space q = 4072 → room_for q [] (node_entries ndR)) →
  ∃ m1 r, TreeIndex.create_page m c = Ret (m1, r) ∧
    match r with
    | Err e => no_frame e ∧ pool_at m1 V n
    | Ok h => ∃ m2 m3 m4 m5 m' V', TreeIndex.init_page m1 h = Ret m2 ∧
        TreeIndex.add_entries m2 h (node_entries ndR) = Ret (m3, Ok tt) ∧ TreeIndex.page_id_of m3 h = Ret n ∧
        drop_write m3 h = Ret m4 ∧ TreeIndex.add_entries m4 g (node_entries ndL) = Ret (m5, Ok tt) ∧ drop_write m5 g = Ret m' ∧
        pool_at m' V' (n + 1) ∧ rests V' (<[i := ndL]> (<[n := ndR]> S)) root (n + 1) ∧
        ∀ x, x ≠ i → x ≠ n → V' !! x = V !! x
    end.
Proof.
  intros Hp Hr Hv Hi Hn Hid Hnp HsL HsR HpL HpR HL HR HroomL HroomR.
  destruct (pool_create m V n Hp Hn) as (m1 & r & E1 & Hr1). exists m1, r. split; [done|]. destruct r as [h|e]; [|done].
  destruct Hr1 as (m2 & q & E2 & Hp2 & HVn & _ & Hq & Hqd & Hqf & Hqid & _).
  destruct (pool_add_entries m2 _ (n + 1) n h q [] (node_entries ndR) Hp2) as (m3 & q' & E3 & Hp3 & Hq' & Hqh & _ & Hqd');
    [by rewrite lookup_insert_eq|done|exact HR|by apply HroomR|].
  rewrite insert_insert_eq in Hp3. rewrite app_nil_r in Hq'.
  assert (u32_at q' 0 = n) as Hqid' by (unfold u32_at in *; by rewrite (sub_sub_eq q q' 0 16) by (done || lia)).
  pose proof (pool_page_id m3 _ _ n h q' (-1) Hp3 ltac:(by rewrite lookup_insert_eq) ltac:(apply Hq') Hqid') as E4.
  destruct (pool_drop m3 _ (n + 1) n h q' Hp3) as (m4 & E5 & Hp4); [by rewrite lookup_insert_eq|].
  rewrite insert_insert_eq in Hp4.
  destruct (pool_add_entries m4 _ (n + 1) i g p [] (node_entries ndL) Hp4) as (m5 & p' & E6 & Hp5 & Hp' & Hph & Hpn & _);
    [rewrite lookup_insert_ne by lia; done|done|exact HL|done|]. rewrite app_nil_r in Hp'.
  destruct (pool_drop m5 _ (n + 1) i g p' Hp5) as (m6 & E7 & Hp6); [by rewrite lookup_insert_eq|].
  rewrite insert_insert_eq in Hp6. eexists m2, m3, m4, m5, m6, _. split_and!; [done..| |by intros; rewrite !lookup_insert_ne].
  assert (u32_at p' 0 = i) by (unfold u32_at in *; by rewrite (sub_sub_eq p p' 0 16) by (done || lia)).
  apply (rests_put _ _ root (n + 1)); [|lia|lia|done|done|by apply HpL|done].
  pose proof (node_length key_ok _ _ Hq'). pose proof (del_bytes_bound q').
  rewrite delete_insert_ne by lia. apply (rests_put _ _ root n); [|lia|lia|done|done|apply HpR; [done|lia]|done].
  assert (delete i S !! n = None) as Hnone.
  { destruct (delete i S !! n) eqn:En; [|done]. apply (rs_nodes _ _ _ _ Hr) in En. lia. }
  by rewrite delete_id.
Qed.

(** Dividing the sorted entries of a full leaf and the new one. *)
Lemma leaf_halves p p1 l r es key rid i n :
  let es' := leaf_insert key rid es in
  let mid := (length es' / 2)%nat in
  node_page key_ok p (node_entries (LeafNode l r es)) → node_page key_ok p1 [] → num_slots p1 = num_slots p →
  entry_ok key_ok (NLeaf key rid) → id_ok i → id_ok n →
  let L := NMeta true l (Some n) :: leaf_nodes (take mid es') in
  let R := NMeta true (Some i) r :: leaf_nodes (drop mid es') in
  Forall (entry_ok key_ok) L ∧ Forall (entry_ok key_ok) R ∧ room_for p1 [] L ∧
  ∀ q, del_bytes q = 0 → free_space q = 4072 → room_for q [] R.
Proof.
  intros es' mid Hnp Hnp1 Hnum He Hi Hn L R.
  pose proof (np_ok key_ok _ _ Hnp) as [[Hl Hr] Hes]%Forall_cons.
  assert (leaf_nodes (take mid es') ++ leaf_nodes (drop mid es') ≡ₚ NLeaf key rid :: leaf_nodes es) as Hperm.
  { unfold leaf_nodes. rewrite <-map_app, take_drop. subst es'. rewrite leaf_insert_perm. done. }
  assert (Forall (entry_ok key_ok) (leaf_nodes (take mid es') ++ leaf_nodes (drop mid es'))) as [H1 H2]%Forall_app
    by (rewrite Hperm; by constructor).
  assert (entry_ok key_ok (NMeta true l (Some n))) as HmL by (split; [done|by intros ? [= <-]]).
  assert (entry_ok key_ok (NMeta true (Some i) r)) as HmR by (split; [by intros ? [= <-]|done]).
  destruct (entry_bytes_ok key_ok _ HmL) as (_ & _ & ? & _), (entry_bytes_ok key_ok _ HmR) as (_ & _ & ? & _).
  split; [by constructor|]. split; [by constructor|].
  eapply (split_room key_ok p p1 (NMeta true l r) (leaf_nodes es) (NLeaf key rid)); try done; subst L R; cbn [total_size];
    rewrite ?zlen_cons; try lia.
  rewrite length_app. unfold leaf_nodes. rewrite !length_map, length_take, length_drop. subst mid.
  replace (_ `min` _ + _)%nat with (length es') by (pose proof (Nat.Div0.div_le_upper_bound (length es') 2 (length es')); lia).
  pose proof (Nat.Div0.div_le_upper_bound (length es') 2 (length es')). lia.
Qed.

(** A leaf that refuses an entry is not empty. *)
Lemma refused_leaf p l r es e :
  node_page key_ok p (node_entries (LeafNode l r es)) → node_used p (LeafNode l r es) → entry_ok key_ok e →
  ¬ room p (node_entries (LeafNode l r es)) (zlen (entry_bytes e)) → 1 < num_slots p ∧ es ≠ [].
Proof.
  intros Hnp Hused He Hno. destruct (entry_bytes_ok key_ok e He) as (_ & _ & ? & _).
  pose proof (node_length key_ok _ _ Hnp) as Hlen. pose proof (size_bounds key_ok _ (np_ok key_ok _ _ Hnp)) as Hsize.
  pose proof Hnp as [_ _ Hfree Hslots _]. unfold room in Hno. cbn [node_entries] in *. rewrite zlen_cons in *.
  pose proof (zlen_nonneg (leaf_nodes es)) as Hpos. unfold leaf_nodes in Hpos.
  assert (1 < num_slots p).
  { destruct Hused as [|[Hd _]]; [done|]. destruct (decide (num_slots p ≤ 1)); [|lia]. destruct Hno. right. lia. }
  split; [done|]. intros ->. cbn [map] in *. change (zlen (@nil NodeEntry)) with 0 in *. destruct Hno. left. lia.
Qed.

(** Splitting a leaf whose page is latched for writing. *)
Definition leaf_split_outcome (V : gmap Z entry) (S : gmap Z tree_node) (root n i : Z) l r es' m'
    (res : result CrustyError (option (IndexKey * Z))) : Prop :=
  match res with
  | Ok None => False
  | Ok (Some (sep, j)) =>
      j = n ∧ ∃ V' es1 rid2 es2, es' = es1 ++ (sep, rid2) :: es2 ∧ es1 ≠ [] ∧ pool_at m' V' (n + 1) ∧
        rests V' (relink r n (<[i := LeafNode l (Some n) es1]> (<[n := LeafNode (Some i) r ((sep, rid2) :: es2)]> S)))
          root (n + 1)
  | Err e => insert_fault V e ∧ ∃ V' n', pool_at m' V' n'
  end.

Lemma split_leaf_ok m V S root n i g p l r es key rid :
  pool_at m V n → rests V (delete i S) root n → V !! i = Some (mkEntry g p (-1)) → 1 ≤ i < n → u32_at p 0 = i →
  node_page key_ok p (node_entries (LeafNode l r es)) →
  StronglySorted key_lt es.*1 → key ∉ es.*1 → key_ok key → rid_ok rid → n < U32_MAX → 1 < num_slots p → es ≠ [] →
  (∀ x, r = Some x → x ≠ i ∧ ∃ l' r' es', S !! x = Some (LeafNode (Some l') r' es')) →
  ∃ m' res, TreeIndex.split_leaf m c i g key rid = Ret (m', res) ∧
    leaf_split_outcome V S root n i l r (leaf_insert key rid es) m' res.
Proof.
  intros Hp Hr Hv Hi Hid Hnp Hs Hkey Hk Hrid Hn Hslots Hne Hright.
  destruct (drain_leaf_ok key_ok p l r es Hnp) as (p1 & es0 & Ed & Hes0 & Hnp1 & Hnum & Hh).
  destruct (pool_modify m V n i g p p1 TreeIndex.drain_leaf _ Hp Hv Ed) as (m1 & E1 & Hp1); [apply Hnp1|done|].
  pose proof (leaf_insert_sorted key rid es Hkey Hs) as Hs'.
  assert (sort_by leaf_le (es0 ++ [(key, rid)]) = leaf_insert key rid es) as Esort.
  { apply sort_leaf; [done|]. rewrite leaf_insert_perm, Hes0. symmetry. apply Permutation_cons_append. }
  set (es' := leaf_insert key rid es) in *. set (mid := (length es' / 2)%nat).
  assert (length es' = Datatypes.S (length es)) as Hlen by (subst es'; by rewrite leaf_insert_perm).
  assert (0 < mid < length es')%nat as Hmid.
  { destruct es as [|x es1]; [done|]. simpl in Hlen. subst mid. split; [apply Nat.div_str_pos|apply Nat.div_lt]; lia. }
  destruct (drop mid es') as [|[sep rid2] es2] eqn:Edrop.
  { assert (length (drop mid es') = 0%nat) as Hz by by rewrite Edrop. rewrite length_drop in Hz. lia. }
  destruct (leaf_halves p p1 l r es key rid i n Hnp Hnp1 Hnum) as (HL & HR & HrL & HrR);
    [done|unfold id_ok, U32_MAX in *; lia..|]. fold es' mid in HL, HR, HrL, HrR.
  assert (StronglySorted key_lt ((take mid es').*1 ++ (drop mid es').*1)) as (_ & HsL & HsR)%StronglySorted_app
    by (rewrite <-fmap_app, take_drop; done).
  destruct (split_pages m1 _ S root n i g p1 (LeafNode l (Some n) (take mid es')) (LeafNode (Some i) r (drop mid es')) Hp1)
    as (m2 & rc & E2 & Hrc); try done.
  { apply rests_take_again; [lia|done]. } { by rewrite lookup_insert_eq. }
  { unfold u32_at in *. by rewrite (sub_sub_eq p p1 0 16) by (done || lia). }
  { intros p' Hp'. left. lia. }
  { intros q Hq _. left. rewrite Edrop in Hq. cbn [node_entries map] in Hq. rewrite !zlen_cons in Hq.
    pose proof (zlen_nonneg (leaf_nodes es2)) as Hpos. unfold leaf_nodes in Hpos. lia. }
  assert (take mid es' ≠ []) as Hleft.
  { intros Ht. assert (length (take mid es') = 0%nat) as Hz by by rewrite Ht. rewrite length_take in Hz. lia. }
  unfold TreeIndex.split_leaf, TreeIndex.try_holding. rewrite E1. cbn [mbind outcome_bind]. cbv zeta. rewrite Esort.
  fold mid. rewrite Edrop in *. cbn [head unwrap mbind outcome_bind].
  rewrite E2. cbn [mbind outcome_bind]. destruct rc as [h|e]; cycle 1.
  { destruct Hrc as [Hno Hp2]. destruct (pool_drop m2 _ n i g p1 Hp2) as (m3 & E3 & Hp3); [by rewrite lookup_insert_eq|].
    exists m3, (Err e). cbn [TreeIndex.drop_all]. rewrite E3. split; [done|]. split; [by left|]. by eexists _, _. }
  destruct Hrc as (m3 & m4 & m5 & m6 & m7 & V' & E3 & E4 & E5 & E6 & E7 & E8 & Hp8 & Hr8 & Hkeep). rewrite E3. cbn [mbind outcome_bind].
  cbn [node_entries] in E4, E7. rewrite E4. cbn [mbind outcome_bind]. rewrite E5. cbn [mbind outcome_bind].
  rewrite E6. cbn [mbind outcome_bind]. rewrite E7. cbn [mbind outcome_bind]. rewrite E8. cbn [mbind outcome_bind fst].
  assert (es' = take mid es' ++ (sep, rid2) :: es2) as Ees by (rewrite <-Edrop; by rewrite take_drop).
  destruct r as [x|].
  - destruct (Hright x eq_refl) as (Hxi & l' & r' & esx & Hx).
    pose proof (rs_nodes _ _ _ _ Hr x (LeafNode (Some l') r' esx) ltac:(by rewrite lookup_delete_ne)) as (Hxn & _).
    set (S1 := <[i := _]> (<[n := _]> S)) in Hr8.
    assert (S1 !! x = Some (LeafNode (Some l') r' esx)) as Hx1 by (subst S1; rewrite !lookup_insert_ne by lia; done).
    destruct (set_left_ok m7 V' S1 root (n + 1) x l' r' esx n Hp8 Hr8 Hx1) as (m8 & res & E9 & Hres);
      [unfold id_ok, U32_MAX in *; lia|].
    unfold TreeIndex.try. rewrite E9. cbn [mbind outcome_bind]. destruct res as [[]|e].
    + destruct Hres as (V'' & Hp9 & Hr9). eexists m8, _. split; [done|]. split; [done|].
      exists V'', (take mid es'), rid2, es2. split; [done|]. split; [done|]. split; [done|]. fold S1. unfold relink. by rewrite Hx1.
    + exists m8, (Err e). split; [done|]. destruct Hres as (-> & [V'' HV] & gx & px & Hvx & Hpx & Hfull).
      split; [|by exists V'', (n + 1)]. right. split; [done|]. exists x, gx, px, l', r', esx, n. split; [|done].
      rewrite <-Hvx, Hkeep by lia. by rewrite lookup_insert_ne.
  - eexists m7, _. split; [done|]. split; [done|]. exists V', (take mid es'), rid2, es2. done.
Qed.

(** Inserting into a leaf: the entry is added, or the leaf is split in halves. *)
Lemma insert_into_leaf_ok m V S root n i l r es key rid :
  pool_at m V n → rests V S root n → S !! i = Some (LeafNode l r es) → key ∉ es.*1 →
  key_ok key → rid_ok rid → n < U32_MAX →
  (∀ x, r = Some x → x ≠ i ∧ ∃ l' r' es', S !! x = Some (LeafNode (Some l') r' es')) →
  ∃ m' res, TreeIndex.insert_into_leaf m c i key rid = Ret (m', res) ∧
    match res with
    | Ok None => ∃ V', pool_at m' V' n ∧ rests V' (<[i := LeafNode l r (leaf_insert key rid es)]> S) root n
    | _ => leaf_split_outcome V S root n i l r (leaf_insert key rid es) m' res
    end.
Proof.
  intros Hp Hr Hi Hkey Hk Hrid Hn Hright. pose proof Hr as [_ Hnodes].
  destruct (Hnodes i _ Hi) as (Hin & Hs & p & (g & Hv & Hid) & Hnp & Hused). cbn [node_sorted] in Hs.
  assert (entry_ok key_ok (NLeaf key rid)) as He by done. destruct (entry_bytes_ok key_ok _ He) as (Henc & _).
  destruct (pool_write m V n i g p Hp Hv) as (m1 & E1 & Hp1).
  destruct (node_add key_ok p _ _ Hnp He) as (pa & res & Ea & Hres).
  assert (zlen pa = PAGE_SIZE ∧ sub pa 0 16 = sub p 0 16) as [Hz Hh].
  { destruct res; [split; apply Hres|]. destruct Hres as [-> _]. split; [apply Hnp|done]. }
  destruct (pool_modify m1 _ n i g p pa (λ p, HeapPage.add_value p (entry_bytes (NLeaf key rid))) res Hp1)
    as (m2 & E2 & Hp2); [by rewrite lookup_insert_eq|done..|]. rewrite insert_insert_eq in Hp2.
  unfold TreeIndex.insert_into_leaf, TreeIndex.try at 1. rewrite E1. cbn [mbind outcome_bind]. rewrite Henc, E2.
  cbn [mbind outcome_bind]. destruct res as [k|].
  - destruct (pool_drop m2 _ n i g pa Hp2) as (m3 & E3 & Hp3); [by rewrite lookup_insert_eq|].
    rewrite insert_insert_eq in Hp3. exists m3, (Ok None). rewrite E3. split; [done|]. eexists. split; [exact Hp3|].
    rewrite <-(insert_insert_eq V i (mkEntry g pa 0) (mkEntry g pa 0)).
    eapply (rests_put _ _ root n); [by apply rests_take; [lia|]|lia|lia| | | |by apply leaf_insert_sorted].
    + unfold u32_at in *. by rewrite (sub_sub_eq p pa 0 16) by (done || lia).
    + destruct Hres as [Hpa _]. eapply node_page_proper; [|exact Hpa]. cbn [node_entries].
      rewrite leaf_insert_perm. cbn. apply Permutation_swap.
    + left. destruct Hres as [Hpa _]. pose proof (node_length key_ok _ _ Hpa) as Hl. cbn [node_entries] in Hl.
      rewrite !zlen_cons in Hl. pose proof (zlen_nonneg (leaf_nodes es)) as Hpos. unfold leaf_nodes in Hpos. lia.
  - destruct Hres as [-> Hno]. destruct (refused_leaf p l r es _ Hnp Hused He Hno) as [Hslots Hne].
    destruct (split_leaf_ok m2 _ S root n i g p l r es key rid Hp2) as (m3 & res & E3 & Hres); try done.
    { apply rests_take; [lia|done]. } { by rewrite lookup_insert_eq. }
    exists m3, res. split; [done|]. destruct res as [[[]|]|e]; [done..|]. destruct Hres as [[Hnf|[He' (x & gx & px & ? & ? & ? & ? & Hx & Hpx)]] Hpool];
      (split; [|done]); [by left|right; split; [done|]].
    exists x, gx, px. do 4 eexists. split; [|exact Hpx]. destruct (decide (x = i)) as [->|]; [by rewrite lookup_insert_eq in Hx|].
    by rewrite lookup_insert_ne in Hx.
Qed.

(** ** Inner nodes *)

Lemma child_lt_Some a b : child_lt a b → ∃ k, b = Some k.
Proof. destruct a, b; try done; intros; by eexists. Qed.

(** The right half of an inner node begins with the child of the separator. *)
Lemma promoted_sorted k1 sep ch k2 :
  StronglySorted child_lt (k1 ++ (Some sep, ch) :: k2 : list child_entry).*1 →
  StronglySorted child_lt k1.*1 ∧ StronglySorted child_lt ((None, ch) :: k2 : list child_entry).*1.
Proof.
  rewrite fmap_app, fmap_cons. intros (_ & H1 & H2)%StronglySorted_app. split; [done|].
  apply StronglySorted_inv in H2 as [H2 H3]. rewrite fmap_cons. constructor; [done|].
  eapply Forall_impl; [exact H3|]. intros b Hb. by destruct (child_lt_Some _ _ Hb) as [k ->].
Qed.

Lemma child_halves p p1 kids key ch sep ch2 k1 k2 :
  node_page key_ok p (node_entries (InnerNode kids)) → node_page key_ok p1 [] → num_slots p1 = num_slots p →
  entry_ok key_ok (NInternal (Some key) ch) → child_insert key ch kids = k1 ++ (Some sep, ch2) :: k2 →
  length k1 = (length (child_insert key ch kids) / 2)%nat →
  let L := node_entries (InnerNode k1) in
  let R := node_entries (InnerNode ((None, ch2) :: k2)) in
  Forall (entry_ok key_ok) L ∧ Forall (entry_ok key_ok) R ∧ room_for p1 [] L ∧
  ∀ q, del_bytes q = 0 → free_space q = 4072 → room_for q [] R.
Proof.
  intros Hnp Hnp1 Hnum He Ek Hmid L R. pose proof (np_ok key_ok _ _ Hnp) as [Hm Hes]%Forall_cons.
  assert (child_nodes k1 ++ child_nodes ((Some sep, ch2) :: k2) ≡ₚ NInternal (Some key) ch :: child_nodes kids) as Hperm.
  { unfold child_nodes. rewrite <-map_app, <-Ek, child_insert_perm. done. }
  assert (Forall (entry_ok key_ok) (child_nodes k1 ++ child_nodes ((Some sep, ch2) :: k2))) as [H1 H2]%Forall_app
    by (rewrite Hperm; by constructor).
  pose proof H2 as [[Hsep Hch2] Hk2]%Forall_cons.
  assert (entry_ok key_ok (NInternal None ch2)) as Hnone by (by split).
  destruct (entry_bytes_ok key_ok _ Hm) as (_ & _ & ? & _), (entry_bytes_ok key_ok _ Hnone) as (_ & _ & ? & _).
  destruct (entry_bytes_ok key_ok (NInternal (Some sep) ch2)) as (_ & _ & ? & _); [done|].
  split; [by constructor|]. split; [by do 2 constructor|].
  eapply (split_room key_ok p p1 (NMeta false None None) (child_nodes kids) (NInternal (Some key) ch)); try done;
    subst L R; cbn [node_entries total_size child_nodes map fst snd]; rewrite ?zlen_cons; try (unfold child_nodes; lia).
  change (length (child_nodes k1) = (length (child_nodes k1 ++ child_nodes ((Some sep, ch2) :: k2)) / 2)%nat).
  unfold child_nodes. rewrite <-map_app, !length_map, <-Ek. done.
Qed.

(** An inner node that refuses an entry has four children or more. *)
Lemma refused_inner p kids e :
  node_page key_ok p (node_entries (InnerNode kids)) → node_used p (InnerNode kids) → entry_ok key_ok e →
  ¬ room p (node_entries (InnerNode kids)) (zlen (entry_bytes e)) → (4 ≤ length kids)%nat ∧ 5 ≤ num_slots p.
Proof.
  intros Hnp Hused He Hno. destruct (entry_bytes_ok key_ok e He) as (_ & _ & ? & _).
  pose proof (node_length key_ok _ _ Hnp) as Hlen. pose proof (size_bounds key_ok _ (np_ok key_ok _ _ Hnp)) as Hsize.
  pose proof Hnp as [_ _ Hfree Hslots _]. unfold room in Hno. cbn [node_entries node_used] in *. rewrite zlen_cons in *.
  assert (zlen (map (λ e : child_entry, NInternal e.1 e.2) kids) = zlen kids) as El by (unfold zlen; by rewrite length_map).
  rewrite El in *. assert (4 ≤ zlen kids) as H4; [|unfold zlen in *; lia].
  destruct (decide (zlen kids < 4)); [|lia]. destruct Hno.
  destruct Hused as [H5|Hd]; [left; lia|right; lia].
Qed.

Definition inner_split_outcome (S : gmap Z tree_node) (root n i : Z) kids' m'
    (res : result CrustyError (option (IndexKey * Z))) : Prop :=
  match res with
  | Ok (Some (sep, j)) =>
      j = n ∧ ∃ V' k1 ch2 k2, kids' = k1 ++ (Some sep, ch2) :: k2 ∧ (2 ≤ length k1)%nat ∧ k2 ≠ [] ∧ pool_at m' V' (n + 1) ∧
        rests V' (<[i := InnerNode k1]> (<[n := InnerNode ((None, ch2) :: k2)]> S)) root (n + 1)
  | Ok None => False
  | Err e => no_frame e ∧ ∃ V' n', pool_at m' V' n'
  end.

Lemma split_internal_ok m V S root n i g p kids key ch :
  pool_at m V n → rests V (delete i S) root n → V !! i = Some (mkEntry g p (-1)) → 1 ≤ i < n → u32_at p 0 = i →
  node_page key_ok p (node_entries (InnerNode kids)) → (4 ≤ length kids)%nat → 5 ≤ num_slots p →
  StronglySorted child_lt kids.*1 → Some key ∉ kids.*1 → key_ok key → id_ok ch → n < U32_MAX →
  ∃ m' res, TreeIndex.split_internal m g c key ch = Ret (m', res) ∧
    inner_split_outcome S root n i (child_insert key ch kids) m' res.
Proof.
  intros Hp Hr Hv Hi Hid Hnp Hfour Hfive Hs Hkey Hk Hch Hn.
  destruct (drain_internal_ok key_ok p kids Hnp Hs) as (p1 & Ed & Hnp1 & Hnum & Hh).
  destruct (pool_modify m V n i g p p1 TreeIndex.drain_internal _ Hp Hv Ed) as (m1 & E1 & Hp1); [apply Hnp1|done|].
  pose proof (child_insert_sorted key ch kids Hkey Hs) as Hs'.
  assert (sort_by child_le (kids ++ [(Some key, ch)]) = child_insert key ch kids) as Esort.
  { apply sort_child; [done|]. rewrite child_insert_perm. symmetry. apply Permutation_cons_append. }
  pose proof (child_halves p p1 kids key ch) as Hhalves.
  assert (length (child_insert key ch kids) = Datatypes.S (length kids)) as Hlen by (by rewrite child_insert_perm).
  set (kids' := child_insert key ch kids) in *. set (mid := (length kids' / 2)%nat).
  assert (2 ≤ mid ∧ mid + 2 ≤ length kids')%nat as Hmid.
  { subst mid. pose proof (Nat.div_mod (length kids') 2 ltac:(lia)). pose proof (Nat.mod_upper_bound (length kids') 2 ltac:(lia)). lia. }
  destruct (lookup_lt_is_Some_2 kids' mid) as [[o ch2] Emid]; [lia|].
  pose proof (take_drop_middle kids' mid _ Emid) as Ek.
  destruct o as [sep|]; last first.
  { exfalso. rewrite <-Ek, fmap_app, fmap_cons in Hs'. destruct (take mid kids') as [|x l] eqn:Et.
    - assert (length (take mid kids') = 0%nat) as Hz by by rewrite Et. rewrite length_take in Hz. lia.
    - rewrite fmap_cons in Hs'. apply StronglySorted_app in Hs' as (Hlt & _).
      destruct (child_lt_Some x.1 None) as [? ?]; [|done]. apply Hlt; by left. }
  destruct (Hhalves sep ch2 (take mid kids') (drop (Datatypes.S mid) kids') Hnp Hnp1 Hnum) as (HL & HR & HrL & HrR);
    [split; [by intros ? [= <-]|done]|done|rewrite length_take; lia|].
  rewrite <-Ek in Hs'. destruct (promoted_sorted _ _ _ _ Hs') as [HsL HsR].
  destruct (split_pages m1 _ S root n i g p1 (InnerNode (take mid kids')) (InnerNode ((None, ch2) :: drop (Datatypes.S mid) kids')) Hp1)
    as (m2 & rc & E2 & Hrc); try done.
  { apply rests_take_again; [lia|done]. } { by rewrite lookup_insert_eq. }
  { unfold u32_at in *. by rewrite (sub_sub_eq p p1 0 16) by (done || lia). }
  { intros p' Hp'. left. lia. } { intros q _ Hq. by right. }
  unfold TreeIndex.split_internal, TreeIndex.try_holding. rewrite E1. cbn [mbind outcome_bind]. cbv zeta. rewrite Esort.
  fold mid. rewrite Emid. cbn [unwrap mbind outcome_bind fst snd].
  rewrite E2. cbn [mbind outcome_bind]. destruct rc as [h|e]; cycle 1.
  { destruct Hrc as [Hno Hp2]. destruct (pool_drop m2 _ n i g p1 Hp2) as (m3 & E3 & Hp3); [by rewrite lookup_insert_eq|].
    exists m3, (Err e). cbn [TreeIndex.drop_all]. rewrite E3. split; [done|]. split; [done|]. by eexists _, _. }
  destruct Hrc as (m3 & m4 & m5 & m6 & m7 & V' & E3 & E4 & E5 & E6 & E7 & E8 & Hp8 & Hr8 & _). rewrite E3. cbn [mbind outcome_bind].
  cbn [node_entries map fst snd] in E4, E7. rewrite E4. cbn [mbind outcome_bind]. rewrite E5. cbn [mbind outcome_bind].
  rewrite E6. cbn [mbind outcome_bind]. rewrite E7. cbn [mbind outcome_bind]. rewrite E8. cbn [mbind outcome_bind].
  eexists m7, _. split; [done|]. split; [done|]. exists V', (take mid kids'), ch2, (drop (Datatypes.S mid) kids').
  split_and!; [done|rewrite length_take; lia| |done|done]. intros Ht.
  assert (length (drop (Datatypes.S mid) kids') = 0%nat) as Hz by by rewrite Ht. rewrite length_drop in Hz. lia.
Qed.

Lemma insert_into_internal_ok m V S root n i kids key ch :
  pool_at m V n → rests V S root n → S !! i = Some (InnerNode kids) → Some key ∉ kids.*1 →
  key_ok key → id_ok ch → n < U32_MAX →
  ∃ m' res, TreeIndex.insert_into_internal m c i key ch = Ret (m', res) ∧
    match res with
    | Ok None => ∃ V', pool_at m' V' n ∧ rests V' (<[i := InnerNode (child_insert key ch kids)]> S) root n
    | _ => inner_split_outcome S root n i (child_insert key ch kids) m' res
    end.
Proof.
  intros Hp Hr Hi Hkey Hk Hch Hn. pose proof Hr as [_ Hnodes].
  destruct (Hnodes i _ Hi) as (Hin & Hs & p & (g & Hv & Hid) & Hnp & Hused). cbn [node_sorted] in Hs.
  assert (entry_ok key_ok (NInternal (Some key) ch)) as He by (split; [by intros ? [= <-]|done]).
  destruct (entry_bytes_ok key_ok _ He) as (Henc & _).
  destruct (pool_write m V n i g p Hp Hv) as (m1 & E1 & Hp1).
  destruct (node_add key_ok p _ _ Hnp He) as (pa & res & Ea & Hres).
  assert (zlen pa = PAGE_SIZE ∧ sub pa 0 16 = sub p 0 16) as [Hz Hh].
  { destruct res; [split; apply Hres|]. destruct Hres as [-> _]. split; [apply Hnp|done]. }
  destruct (pool_modify m1 _ n i g p pa (λ p, HeapPage.add_value p (entry_bytes (NInternal (Some key) ch))) res Hp1)
    as (m2 & E2 & Hp2); [by rewrite lookup_insert_eq|done..|]. rewrite insert_insert_eq in Hp2.
  unfold TreeIndex.insert_into_internal, TreeIndex.try at 1. rewrite E1. cbn [mbind outcome_bind]. rewrite Henc, E2.
  cbn [mbind outcome_bind]. destruct res as [k|].
  - destruct (pool_drop m2 _ n i g pa Hp2) as (m3 & E3 & Hp3); [by rewrite lookup_insert_eq|].
    rewrite insert_insert_eq in Hp3. exists m3, (Ok None). rewrite E3. split; [done|]. eexists. split; [exact Hp3|].
    rewrite <-(insert_insert_eq V i (mkEntry g pa 0) (mkEntry g pa 0)).
    eapply (rests_put _ _ root n); [by apply rests_take; [lia|]|lia|lia| | | |by apply child_insert_sorted].
    + unfold u32_at in *. by rewrite (sub_sub_eq p pa 0 16) by (done || lia).
    + destruct Hres as [Hpa _]. eapply node_page_proper; [|exact Hpa]. cbn [node_entries].
      rewrite child_insert_perm. cbn. apply Permutation_swap.
    + destruct Hres as (_ & _ & Hdel & Hnum & _). pose proof (del_bytes_bound pa).
      cbn [node_used] in *. destruct Hused as [|]; [left|right]; lia.
  - destruct Hres as [-> Hno]. destruct (refused_inner p kids _ Hnp Hused He Hno) as [Hfour Hfive].
    destruct (split_internal_ok m2 _ S root n i g p kids key ch Hp2) as (m3 & res & E3 & Hres); try done.
    { apply rests_take; [lia|done]. } { by rewrite lookup_insert_eq. }
    exists m3, res. split; [done|]. by destruct res as [[[]|]|].
Qed.

(** ** Removing an entry of a leaf *)

Lemma delete_here_ok fuel m V S root n i l r es key rid :
  pool_at m V n → rests V S root n → S !! i = Some (LeafNode l r es) → (key, rid) ∈ es →
  ∃ m' V' es1 es2, TreeIndex.delete_loop (Datatypes.S fuel) m c i key rid = Ret (m', Ok tt) ∧
    es = es1 ++ (key, rid) :: es2 ∧ pool_at m' V' n ∧ rests V' (<[i := LeafNode l r (es1 ++ es2)]> S) root n.
Proof.
  intros Hp Hr Hi Hin. pose proof Hr as [_ Hnodes].
  destruct (Hnodes i _ Hi) as (Hin' & Hs & p & (g & Hv & Hid) & Hnp & _). cbn [node_sorted] in Hs.
  destruct (look_for_ok key_ok p l r es key rid Hnp Hs) as (s & Es & Hslot).
  destruct (pool_read m V n i g p (TreeIndex.look_for key rid) _ Hp Hv Es) as (m1 & E1 & Hp1).
  destruct s as [k|]; [|done]. destruct Hslot as [_ Hval].
  destruct (pool_write m1 V n i g p Hp1 Hv) as (m2 & E2 & Hp2).
  apply list_elem_of_split in Hin as (es1 & es2 & ->).
  assert (node_page key_ok p (NLeaf key rid :: node_entries (LeafNode l r (es1 ++ es2)))) as Hnp'.
  { eapply node_page_proper; [|exact Hnp]. cbn [node_entries]. rewrite !map_app. cbn [map fst snd].
    rewrite <-Permutation_middle. apply Permutation_swap. }
  destruct (node_delete key_ok p _ _ k Hnp' Hval) as (p' & Ed & Hnd & [Hwf Hh Hnum _ _ _]).
  destruct (pool_modify m2 _ n i g p p' (λ p, HeapPage.delete_value p k) (Some tt) Hp2) as (m3 & E3 & Hp3);
    [by rewrite lookup_insert_eq|done|apply Hwf|done|].
  destruct (pool_drop m3 _ n i g p' Hp3) as (m4 & E4 & Hp4); [by rewrite lookup_insert_eq|].
  rewrite !insert_insert_eq in Hp4. eexists m4, _, es1, es2. split_and!; [|done|exact Hp4|].
  - cbn [TreeIndex.delete_loop]. unfold TreeIndex.try. rewrite E1. cbn [mbind outcome_bind]. rewrite E2.
    cbn [mbind outcome_bind]. rewrite E3. cbn [mbind outcome_bind]. by rewrite E4.
  - rewrite <-(insert_insert_eq V i (mkEntry g p' 0) (mkEntry g p' 0)).
    eapply (rests_put _ _ root n); [by apply rests_take; [lia|]|lia|lia| |done| |].
    + unfold u32_at in *. by rewrite (sub_sub_eq p p' 0 16) by (done || lia).
    + left. pose proof (node_length key_ok _ _ Hnp') as Hl. cbn [node_entries] in Hl. rewrite !zlen_cons in Hl.
      pose proof (zlen_nonneg (leaf_nodes (es1 ++ es2))) as Hpos. unfold leaf_nodes in Hpos. lia.
    + cbn [node_sorted]. rewrite fmap_app, fmap_cons in Hs. rewrite fmap_app.
      apply StronglySorted_app in Hs as (Hlt & H1 & [H2 _]%StronglySorted_inv). apply StronglySorted_app.
      split; [|done]. intros x y Hx Hy. apply Hlt; [done|]. by right.
Qed.

Lemma delete_not_here_ok fuel m V S root n i l r es key rid :
  pool_at m V n → rests V S root n → S !! i = Some (LeafNode l r es) → (key, rid) ∉ es →
  ∃ m', pool_at m' V n ∧ TreeIndex.delete_loop (Datatypes.S fuel) m c i key rid =
    match TreeIndex.last_matches es key, r with
    | true, Some next => TreeIndex.delete_loop fuel m' c next key rid
    | _, _ => Ret (m', Ok tt)
    end.
Proof.
  intros Hp Hr Hi Hin. destruct (rs_nodes _ _ _ _ Hr i _ Hi) as (_ & Hs & p & (g & Hv & _) & Hnp & _).
  destruct (look_for_ok key_ok p l r es key rid Hnp Hs) as (s & Es & Hslot).
  destruct (pool_read m V n i g p (TreeIndex.look_for key rid) _ Hp Hv Es) as (m1 & E1 & Hp1).
  destruct s as [k|]; [by destruct Hslot|]. exists m1. split; [done|].
  cbn [TreeIndex.delete_loop]. unfold TreeIndex.try. by rewrite E1.
Qed.

(** ** A new tree *)

Lemma tree_new_ok m :
  pool_at m ∅ 0 →
  ∃ m' r, TreeIndex.new m c = Ret (m', r) ∧
    match r with
    | Ok c' => c' = c ∧ ∃ V, pool_at m' V 2 ∧ rests V {[1 := LeafNode None None []]} 1 2
    | Err e => no_frame e ∧ ∃ V n, pool_at m' V n
    end.
Proof.
  intros Hp. destruct (pool_create m _ 0 Hp) as (m1 & rg & E1 & Hrg); [done|].
  unfold TreeIndex.new, TreeIndex.try, TreeIndex.try_holding. rewrite E1. cbn [mbind outcome_bind].
  destruct rg as [g|e]; [|exists m1, (Err e); split; [done|]; destruct Hrg; split; [done|by eexists _, _]].
  destruct Hrg as (m2 & p & E2 & Hp2 & _ & _ & Hnp & Hdp & Hf & Hid & Hn). rewrite E2. cbn [mbind outcome_bind].
  destruct (pool_create m2 _ 1 Hp2) as (m3 & rh & E3 & Hrh); [done|]. rewrite E3. cbn [mbind outcome_bind].
  destruct rh as [h|e]; cycle 1.
  { destruct Hrh as [Hno Hp3]. destruct (pool_drop m3 _ 1 0 g p Hp3) as (m4 & E4 & Hp4); [by rewrite lookup_insert_eq|].
    exists m4, (Err e). cbn [TreeIndex.drop_all]. rewrite E4. split; [done|]. split; [done|]. by eexists _, _. }
  destruct Hrh as (m4 & q & E4 & Hp4 & _ & _ & Hnq & Hdq & Hfq & Hidq & _). rewrite E4. cbn [mbind outcome_bind].
  assert (Forall (entry_ok key_ok) (node_entries (LeafNode None None []))) as Hok by (repeat constructor; done).
  destruct (pool_add_entries m4 _ 2 1 h q [] (node_entries (LeafNode None None [])) Hp4) as (m5 & q' & E5 & Hp5 & Hnq' & Hh5 & _ & Hd5);
    [by rewrite lookup_insert_eq|done|done| |].
  { right. split; [done|]. rewrite Hfq. pose proof (size_bounds key_ok _ Hok).
    change (zlen (node_entries (LeafNode None None []))) with 1 in *. lia. }
  rewrite insert_insert_eq, app_nil_r in *.
  assert (u32_at q' 0 = 1) as Hidq' by (unfold u32_at in *; by rewrite (sub_sub_eq q q' 0 16) by (done || lia)).
  pose proof (pool_page_id m5 _ _ 1 h q' (-1) Hp5 ltac:(by rewrite lookup_insert_eq) ltac:(apply Hnq') Hidq') as E6.
  destruct (pool_drop m5 _ 2 1 h q' Hp5) as (m6 & E7 & Hp6); [by rewrite lookup_insert_eq|]. rewrite insert_insert_eq in Hp6.
  destruct (add_value_ok p (le_split 4 1)) as (k & Hk & Hcase); [apply Hnp|done|].
  assert (k = 0) as -> by (destruct Hk as [? _]; lia).
  destruct Hcase as [[Hno _]|(_ & p' & Ea & [Hwf' Hh' _ _ Hv' _ _])].
  { exfalso. unfold no_room, space_needed, SLOT_METADATA_SIZE in Hno. rewrite Hf in Hno. unfold free_space in Hf.
    rewrite Hdp in Hf. change (zlen (le_split 4 1)) with 4 in Hno. destruct (_ =? _); lia. }
  destruct (pool_modify m6 _ 2 0 g p p' (λ p, HeapPage.add_value p (le_split 4 1)) (Some 0) Hp6) as (m7 & E8 & Hp7);
    [by rewrite lookup_insert_ne, lookup_insert_eq by done|done|apply Hwf'|done|].
  destruct (pool_drop m7 _ 2 0 g p' Hp7) as (m8 & E9 & Hp8); [by rewrite lookup_insert_eq|]. rewrite insert_insert_eq in Hp8.
  exists m8, (Ok c). split.
  - cbn [node_entries map TreeIndex.add_entries TreeIndex.try] in E5. unfold TreeIndex.try in E5.
    destruct (TreeIndex.add_entry m4 h _) as [[m' [[]|]]|] eqn:Ee; try discriminate E5. injection E5 as ->.
    cbn [mbind outcome_bind]. rewrite E6. cbn [mbind outcome_bind]. rewrite E7. cbn [mbind outcome_bind]. rewrite E8.
    cbn [mbind outcome_bind]. by rewrite E9.
  - split; [done|]. eexists. split; [exact Hp8|]. constructor.
    + exists p'. split; [|done]. exists g. rewrite lookup_insert_eq. split; [done|].
      unfold u32_at in *. by rewrite (sub_sub_eq p p' 0 16) by (done || lia).
    + intros i nd [<- <-]%lookup_singleton_Some. split; [lia|]. split; [constructor|]. exists q'. split.
      * exists h. rewrite lookup_insert_ne, lookup_insert_eq by done. done.
      * split; [done|]. right. pose proof (del_bytes_bound q'). split; [lia|done].
Qed.

(** A new root over two nodes. *)
Lemma new_root_ok m V S root n sep j :
  pool_at m V n → rests V S root n → 1 ≤ n < U32_MAX → id_ok root → id_ok j → key_ok sep →
  ∃ m1 r, TreeIndex.create_page m c = Ret (m1, r) ∧
    match r with
    | Err e => no_frame e ∧ pool_at m1 V n
    | Ok g => ∃ m2 m3 m4 m' V', TreeIndex.init_page m1 g = Ret m2 ∧
        TreeIndex.add_entries m2 g [NMeta false None None; NInternal None root; NInternal (Some sep) j] = Ret (m3, Ok tt) ∧
        TreeIndex.page_id_of m3 g = Ret n ∧ drop_write m3 g = Ret m4 ∧
        TreeIndex.set_root_page_id m4 c n = Ret (m', Ok tt) ∧ pool_at m' V' (n + 1) ∧
        rests V' (<[n := InnerNode [(None, root); (Some sep, j)]]> S) n (n + 1)
    end.
Proof.
  intros Hp Hr [Hn1 Hn] Hroot Hj Hsep. set (nd := InnerNode [(None, root); (Some sep, j)]).
  destruct (pool_create m V n Hp Hn) as (m1 & r & E1 & Hr1). exists m1, r. split; [done|]. destruct r as [g|e]; [|done].
  destruct Hr1 as (m2 & q & E2 & Hp2 & _ & Hpos & Hnq & Hdq & Hfq & Hidq & _).
  assert (Forall (entry_ok key_ok) (node_entries nd)) as Hok.
  { constructor; [done|]. constructor; [by split|]. constructor; [split; [by intros ? [= <-]|done]|constructor]. }
  destruct (pool_add_entries m2 _ (n + 1) n g q [] (node_entries nd) Hp2) as (m3 & q' & E3 & Hp3 & Hnq' & Hh3 & _ & Hd3);
    [by rewrite lookup_insert_eq|done|done| |].
  { right. split; [done|]. rewrite Hfq. pose proof (size_bounds key_ok _ Hok). change (zlen (node_entries nd)) with 3 in *. lia. }
  rewrite insert_insert_eq, app_nil_r in *.
  assert (u32_at q' 0 = n) as Hidq' by (unfold u32_at in *; by rewrite (sub_sub_eq q q' 0 16) by (done || lia)).
  pose proof (pool_page_id m3 _ _ n g q' (-1) Hp3 ltac:(by rewrite lookup_insert_eq) ltac:(apply Hnq') Hidq') as E4.
  destruct (pool_drop m3 _ (n + 1) n g q' Hp3) as (m4 & E5 & Hp4); [by rewrite lookup_insert_eq|]. rewrite insert_insert_eq in Hp4.
  assert (rests (<[n := mkEntry g q' 0]> V) (<[n := nd]> S) root (n + 1)) as Hr4.
  { apply (rests_put _ _ root n); [|lia|lia|done|done|right; pose proof (del_bytes_bound q'); lia|by repeat constructor].
    rewrite delete_id; [done|]. destruct (S !! n) eqn:E; [|done]. apply (rs_nodes _ _ _ _ Hr) in E. lia. }
  destruct (set_root_ok m4 _ _ root n (n + 1) Hp4 Hr4) as (m5 & V' & E6 & Hp5 & Hr5); [unfold id_ok, U32_MAX in *; lia|].
  exists m2, m3, m4, m5, V'. done.
Qed.
End Store.
