(* ===== verification/TreeCorrect.v ===== *)
(** * B+tree indexes: correctness for distinct keys

    While the keys of an index are distinct, it is a finite map from keys to record ids: a
    new index is empty, [insert] adds an entry, [delete] removes one and [search] finds what
    is there, over any memory pool; an insertion fails when the pool has no frame for a new
    page, or when a leaf has no room for a longer sibling pointer. The tree in the pages
    stays ordered and its leaves stay chained; the recursions end within the fuel. *)

From S2P Require Import Prelude Common Ordering HeapPage HeapPageView HeapPageSpec.
From S2P Require Import BufferFrame MemPool HeapFile HeapFileSpec.
From S2P Require Import Field FieldContract TreeIndex TreeNode TreeShape TreeStore.
From stdpp Require Import strings sorting gmap.

Open Scope Z_scope.

Section Correct.
Context `{Laws : MemPoolLaws P} `{NodeCodec} (key_ok : IndexKey → Prop) `{!NodeCodecLaws key_ok}.
Context (c : Z) (Hc : 0 ≤ c < 2 ^ 16) (base : P).

Abbreviation pool_at := (pool_at c base).
Abbreviation rests := (rests key_ok).

(** ** Looking at nodes *)

Lemma find_child_ok {h} (t0 : tree h) rest key :
  TreeIndex.find_child (kid_ids root_id ((None, t0) :: rest)) key =
    Ret (TreeIndex.find_child_from (root_id t0) (kid_ids root_id rest) key).
Proof. done. Qed.

Lemma read_leaf_ok m V S root n i l r es :
  pool_at m V n → rests V S root n → S !! i = Some (LeafNode l r es) →
  ∃ m', TreeIndex.reading m c i TreeIndex.read_leaf_entries = Ret (m', Ok (l, r, es)) ∧ pool_at m' V n.
Proof.
  intros Hp Hr Hi. eapply (node_read key_ok c base); [done..|]. intros p Hnp.
  apply (read_leaf_entries_ok key_ok); [done|]. by destruct (rs_nodes _ _ _ _ _ Hr i _ Hi) as (_ & ? & _).
Qed.

Lemma read_kids_ok {h A} m V S root n id (t0 : tree h) rest key (f : Z → A) :
  pool_at m V n → rests V S root n → S !! id = Some (InnerNode (kid_ids root_id ((None, t0) :: rest))) →
  ∃ m', TreeIndex.reading m c id (λ p,
      r ← TreeIndex.read_internal_entries p;
      match r with
      | Err e => Ret (Err e)
      | Ok entries => child ← TreeIndex.find_child entries key; Ret (Ok (f child))
      end) = Ret (m', Ok (f (TreeIndex.find_child_from (root_id t0) (kid_ids root_id rest) key))) ∧ pool_at m' V n.
Proof.
  intros Hp Hr Hi. eapply (node_read key_ok c base); [done..|]. intros p Hnp.
  rewrite (read_internal_entries_ok key_ok p _ Hnp); [done|].
  by destruct (rs_nodes _ _ _ _ _ Hr id _ Hi) as (_ & ? & _).
Qed.

Lemma read_child_leaf p l r es key :
  node_page key_ok p (node_entries (LeafNode l r es)) → TreeIndex.read_child key p = Ret (Ok None).
Proof. intros Hnp. unfold TreeIndex.read_child. by rewrite (read_is_leaf_ok key_ok p _ Hnp). Qed.

Lemma read_child_inner {h} p (t0 : tree h) rest key :
  node_page key_ok p (node_entries (InnerNode (kid_ids root_id ((None, t0) :: rest)))) →
  StronglySorted child_lt (kid_ids root_id ((None, t0) :: rest)).*1 →
  TreeIndex.read_child key p = Ret (Ok (Some (TreeIndex.find_child_from (root_id t0) (kid_ids root_id rest) key))).
Proof.
  intros Hnp Hs. unfold TreeIndex.read_child. rewrite (read_is_leaf_ok key_ok p _ Hnp). cbn [mbind outcome_bind node_meta fst].
  by rewrite (read_internal_entries_ok key_ok p _ Hnp Hs).
Qed.

(** ** Finding the leaf of a key *)

(** The leaf [i] is where [key] belongs in [t]; entries of it can be taken out. *)
Record leaf_of_key {h} (lo hi : option IndexKey) (t : tree h) (key : IndexKey) (i : Z) (es : list leaf_entry)
    (L1 L2 : list (Z * list leaf_entry)) : Prop := {
  lk_leaves : leaves t = L1 ++ (i, es) :: L2;
  lk_before : Forall (λ k, key_lt k key) (leaf_contents L1).*1;
  lk_after : Forall (λ k, key_lt key k) (leaf_contents L2).*1;
  lk_shrink es' : StronglySorted key_lt es'.*1 → (∀ k, k ∈ es'.*1 → k ∈ es.*1) →
    ∃ t' : tree h, ordered lo hi t' ∧ leaves t' = L1 ++ (i, es') :: L2 ∧ root_id t' = root_id t ∧
      inner_pages t' = inner_pages t ∧ ∀ S', inner S' t → inner S' t'
}.

Lemma leaf_of_key_up {h} lo hi id K1 k (t : tree h) K2 key lo' hi' i es L1 L2 :
  picked ordered tree_keys lo hi None key K1 k t K2 lo' hi' →
  leaf_of_key lo' hi' t key i es L1 L2 →
  leaf_of_key (h := Datatypes.S h) lo hi (id, K1 ++ (k, t) :: K2) key i es (kid_leaves K1 ++ L1) (L2 ++ kid_leaves K2).
Proof.
  intros Hpk [Hl Hb Ha Hsh]. pose proof (pk_before _ _ _ _ _ _ _ _ _ _ _ _ Hpk) as Hbefore.
  pose proof (pk_after _ _ _ _ _ _ _ _ _ _ _ _ Hpk) as Hafter. rewrite kid_keys_leaves in Hbefore, Hafter.
  assert (∀ t0, leaves (h := Datatypes.S h) (id, K1 ++ (k, t0) :: K2) = kid_leaves K1 ++ leaves t0 ++ kid_leaves K2) as Hlv.
  { intros t0. change (kid_leaves (K1 ++ (k, t0) :: K2) = kid_leaves K1 ++ leaves t0 ++ kid_leaves K2).
    by rewrite kid_leaves_app, kid_leaves_cons. }
  assert (∀ t0, inner_pages (h := Datatypes.S h) (id, K1 ++ (k, t0) :: K2) = id :: kid_pages K1 ++ inner_pages t0 ++ kid_pages K2) as Hip.
  { intros t0. change (id :: kid_pages (K1 ++ (k, t0) :: K2) = id :: kid_pages K1 ++ inner_pages t0 ++ kid_pages K2).
    by rewrite kid_pages_app, kid_pages_cons. }
  constructor.
  - rewrite Hlv, Hl. by rewrite <-!app_assoc.
  - rewrite leaf_contents_app, fmap_app. by apply Forall_app.
  - rewrite leaf_contents_app, fmap_app. by apply Forall_app.
  - intros es' Hs' Hsub. destruct (Hsh es' Hs' Hsub) as (t' & Ho' & Hl' & Hid & Hp' & Hi').
    exists (id, K1 ++ (k, t') :: K2). split_and!.
    + destruct (pk_one _ _ _ _ _ _ _ _ _ _ _ _ Hpk t' Ho') as (u & rest & E & Ho). by exists u, rest.
    + rewrite Hlv, Hl'. by rewrite <-!app_assoc.
    + done.
    + by rewrite !Hip, Hp'.
    + intros S' [[H1 Hlen] H2]. split; cbn [fst snd] in *.
      * split; [|by rewrite length_app in *]. rewrite H1. unfold kid_ids. rewrite !map_app. cbn [map fst snd]. by rewrite Hid.
      * apply Forall_app in H2 as [H2 [H3 H4]%Forall_cons]. apply Forall_app. split; [done|]. constructor; [|done]. by apply Hi'.
Qed.

Lemma find_leaf_ok h fuel m V S root n lo hi (t : tree h) key A B :
  pool_at m V n → rests V S root n → ordered lo hi t → inner S t → in_range lo hi key →
  chain S None (A ++ leaves t ++ B) None → (h < fuel)%nat →
  ∃ m' i es L1 L2, TreeIndex.find_leaf fuel m c (root_id t) key = Ret (m', Ok i) ∧ pool_at m' V n ∧
    leaf_of_key lo hi t key i es L1 L2.
Proof.
  revert fuel m lo hi t A B. induction h as [|h IH]; intros fuel m lo hi t A B Hp Hr Ho Hi Hin Hch Hfuel;
    (destruct fuel as [|fuel]; [lia|]); destruct t as [id kids]; cbn [TreeIndex.find_leaf]; unfold TreeIndex.try.
  - cbn [leaves app] in Hch. apply chain_app in Hch as [_ [Hid _]].
    destruct (node_read key_ok c base m V S root n id _ (TreeIndex.read_child key) (Ok None) Hp Hr Hid) as (m1 & E & Hp1);
      [intros p; apply read_child_leaf|]. cbn [root_id fst]. rewrite E.
    exists m1, id, kids, [], []. split; [done|]. split; [done|]. destruct Ho as [Hs Hf]. constructor; try done.
    intros es' Hs' Hsub. exists (id, es'). split; [split; [done|]|done]. cbn [snd] in *.
    rewrite Forall_forall in Hf |- *. intros k Hk. by apply Hf, Hsub.
  - destruct Ho as (t0 & rest & Ekids & Ho). destruct Hi as [[Hid _] Hik]. cbn [fst snd] in Ekids, Hid, Hik.
    destruct (pick ordered tree_keys root_id (ordered_range h) lo hi None t0 rest key Ho Hin)
      as (K1 & k & t' & K2 & lo' & hi' & Ek & Ef & Hpk).
    rewrite Ekids in Hid. apply (λ E, eq_trans E Ek) in Ekids.
    destruct (node_read key_ok c base m V S root n id _ (TreeIndex.read_child key) (Ok (Some (root_id t'))) Hp Hr Hid) as (m1 & E & Hp1).
    { intros p Hnp. rewrite (read_child_inner p t0 rest key Hnp), Ef; [done|].
      by destruct (rs_nodes _ _ _ _ _ Hr id _ Hid) as (_ & ? & _). }
    cbn [root_id fst]. rewrite E. cbn [mbind outcome_bind]. subst kids.
    apply Forall_app in Hik as [_ [Hit _]%Forall_cons].
    assert (leaves (h := Datatypes.S h) (id, K1 ++ (k, t') :: K2) = kid_leaves K1 ++ leaves t' ++ kid_leaves K2) as Hlv.
    { change (kid_leaves (K1 ++ (k, t') :: K2) = kid_leaves K1 ++ leaves t' ++ kid_leaves K2).
      by rewrite kid_leaves_app, kid_leaves_cons. }
    rewrite Hlv in Hch.
    destruct (IH fuel m1 lo' hi' t' (A ++ kid_leaves K1) (kid_leaves K2 ++ B)) as (m' & i & es & L1 & L2 & Ef' & Hp' & Hlk);
      [done|done|apply Hpk|done|apply Hpk|rewrite <-!app_assoc in Hch; rewrite <-!app_assoc; exact Hch|lia|].
    exists m', i, es, (kid_leaves K1 ++ L1), (L2 ++ kid_leaves K2). split; [done|]. split; [done|].
    by eapply leaf_of_key_up.
Qed.

(** ** Insertion *)

(** The trees [ts] in place of [t]: stored, with pages of [t] and new ones, chained between
    the leaves [A] and [B], and with the new entry. *)
Record grown {h} (S' : gmap Z tree_node) (t : tree h) (n : Z) (A B : list (Z * list leaf_entry)) (key : IndexKey)
    (rid : ValueId) (ts : list (option IndexKey * tree h)) : Prop := {
  gr_inner : Forall (λ k, inner S' k.2) ts;
  gr_nodup : NoDup (kid_pages ts);
  gr_new i : i ∈ kid_pages ts → i ∈ inner_pages t ∨ n ≤ i;
  gr_chain : chain S' None (A ++ kid_leaves ts ++ B) None;
  gr_ids : NoDup (A ++ kid_leaves ts ++ B).*1;
  gr_entries : leaf_contents (kid_leaves ts) ≡ₚ (key, rid) :: leaf_contents (leaves t)
}.

Definition insert_outcome {h} (V : gmap Z entry) (S : gmap Z tree_node) (root n : Z) (lo hi : option IndexKey) (t : tree h)
    (A B : list (Z * list leaf_entry)) (key : IndexKey) (rid : ValueId) (m' : P)
    (res : result CrustyError (option (IndexKey * Z))) : Prop :=
  match res with
  | Err e => insert_fault key_ok c base V e ∧ ∃ V' n', pool_at m' V' n'
  | Ok o => ∃ V' S' n', pool_at m' V' n' ∧ rests V' S' root n' ∧ n ≤ n' ≤ n + Z.of_nat h + 1 ∧
      (∀ i kids, S !! i = Some (InnerNode kids) → i ∉ inner_pages t → S' !! i = S !! i) ∧
      match o with
      | None => ∃ t', root_id t' = root_id t ∧ ordered lo hi t' ∧ grown S' t n A B key rid [(None, t')]
      | Some (sep, j) => ∃ t1 t2, root_id t1 = root_id t ∧ root_id t2 = j ∧ sep_between lo hi sep ∧
          ordered lo (Some sep) t1 ∧ ordered (Some sep) hi t2 ∧ key_ok sep ∧ n ≤ j < n' ∧
          grown S' t n A B key rid [(None, t1); (Some sep, t2)]
      end
  end.

Lemma in_range_subset lo hi (l k : list IndexKey) :
  (∀ x, x ∈ k → x ∈ l) → Forall (in_range lo hi) l → Forall (in_range lo hi) k.
Proof. rewrite !Forall_forall. auto. Qed.

Lemma rests_key V S root n i l r es k rid :
  rests V S root n → S !! i = Some (LeafNode l r ((k, rid) :: es)) → key_ok k.
Proof.
  intros Hr Hi. destruct (rs_nodes _ _ _ _ _ Hr i _ Hi) as (_ & _ & p & _ & Hnp & _).
  pose proof (np_ok key_ok _ _ Hnp) as [_ [[Hk _] _]%Forall_cons]%Forall_cons. done.
Qed.

Lemma rests_kid_key V S root n i kids k :
  rests V S root n → S !! i = Some (InnerNode kids) → Some k ∈ kids.*1 → key_ok k.
Proof.
  intros Hr Hi ([o ch] & E & Hin)%list_elem_of_fmap. cbn [fst] in E. subst o.
  destruct (rs_nodes _ _ _ _ _ Hr i _ Hi) as (_ & _ & p & _ & Hnp & _).
  pose proof (np_ok key_ok _ _ Hnp) as [_ Hk]%Forall_cons. rewrite Forall_forall in Hk.
  destruct (Hk (NInternal (Some k) ch)) as [Hk' _]; [|by apply Hk'].
  apply list_elem_of_fmap. by exists (Some k, ch).
Qed.

(** The halves of a leaf have the halves of its range. *)
Lemma leaf_halves_ordered lo hi i j (es1 : list leaf_entry) sep rid2 es2 :
  es1 ≠ [] → StronglySorted key_lt (es1 ++ (sep, rid2) :: es2).*1 →
  Forall (in_range lo hi) (es1 ++ (sep, rid2) :: es2).*1 →
  sep_between lo hi sep ∧ ordered (h := 0) lo (Some sep) (i, es1) ∧ ordered (h := 0) (Some sep) hi (j, (sep, rid2) :: es2).
Proof.
  rewrite fmap_app, fmap_cons. cbn [fst]. intros Hne (Hlt & H1 & H2)%StronglySorted_app [F1 F2]%Forall_app.
  assert (∀ k, k ∈ es1.*1 → key_lt k sep) as Hlt' by (intros; apply Hlt; [done|by left]).
  pose proof H2 as [_ Hgt]%StronglySorted_inv. rewrite Forall_forall in F1, F2, Hgt.
  split_and!.
  - split; [|apply F2; by left]. intros l El. destruct es1 as [|[k r] es1]; [done|].
    assert (k ∈ ((k, r) :: es1).*1) as Hk by by left.
    destruct (F1 k Hk) as [Hl _]. destruct (Hl l El) as [->|]; [by apply Hlt'|]. eapply key_lt_trans; [done|by apply Hlt'].
  - split; [done|]. rewrite Forall_forall. intros k Hk. split; [apply F1; done|]. intros ? [= <-]. by apply Hlt'.
  - split; [done|]. rewrite Forall_forall. intros k Hk. split; [|by apply F2].
    intros ? [= <-]. cbn in Hk. apply elem_of_cons in Hk as [->|Hk]; [by left|]. right. by apply Hgt.
Qed.

Lemma insert_leaf_outcome m V S root n lo hi (t : tree 0) A B key rid :
  pool_at m V n → rests V S root n → ordered lo hi t → in_range lo hi key → key_ok key → rid_ok rid → n < U32_MAX →
  chain S None (A ++ leaves t ++ B) None → NoDup (A ++ leaves t ++ B).*1 → key ∉ tree_keys t →
  ∃ m' res, TreeIndex.insert_into_leaf m c (root_id t) key rid = Ret (m', res) ∧
    insert_outcome V S root n lo hi t A B key rid m' res.
Proof.
  destruct t as [i es]. cbn [leaves root_id fst]. intros Hp Hr [Hs Hf] Hin Hk Hrid Hn Hch Hnd Hkey. cbn [snd] in Hs, Hf.
  unfold tree_keys, leaf_contents in Hkey. cbn in Hkey. rewrite app_nil_r in Hkey.
  destruct (chain_set S None A i es (leaf_insert key rid es) B None Hch Hnd) as [Hi Hset].
  destruct (insert_into_leaf_ok key_ok c Hc base m V S root n i _ _ es key rid Hp Hr Hi) as (m' & res & E & Hres);
    try done.
  { intros x Ex. apply chain_app in Hch as [_ [_ HB]]. destruct B as [|[y esy] B]; [done|]. simplify_eq/=.
    destruct HB as [Hx _]. split; [|by do 3 eexists]. rewrite fmap_app, fmap_cons in Hnd.
    apply NoDup_app in Hnd as (_ & _ & [Hx' _]%NoDup_cons). intros ->. apply Hx'. by left. }
  exists m', res. split; [done|].
  pose proof (leaf_insert_sorted key rid es Hkey Hs) as Hs'.
  assert (Forall (in_range lo hi) (leaf_insert key rid es).*1) as Hf'.
  { eapply (in_range_subset _ _ (key :: es.*1)); [|by constructor]. intros x. by rewrite leaf_insert_perm. }
  destruct res as [[[sep j]|]|]; [| |done].
  - destruct Hres as (-> & V' & es1 & rid2 & es2 & Ees & Hne & Hp' & Hr').
    pose proof Hs' as Hs1. pose proof Hf' as Hf1. rewrite Ees in Hs1, Hf1.
    destruct (leaf_halves_ordered lo hi i n es1 sep rid2 es2 Hne Hs1 Hf1) as (Hb & Ho1 & Ho2).
    assert (S !! n = None) as Hnone.
    { destruct (S !! n) eqn:En; [|done]. apply (rs_nodes _ _ _ _ _ Hr) in En. lia. }
    pose proof (chain_split S A i es es1 ((sep, rid2) :: es2) B n Hch Hnd Hnone) as Hch'.
    eexists V', _, (n + 1). split; [exact Hp'|]. split; [exact Hr'|]. split; [lia|]. split.
    { intros x kids Hx _. apply (eq_trans (y := Some (InnerNode kids))); [|done]. apply relink_inner.
      rewrite !lookup_insert_ne; [done|congruence..]. }
    exists (i, es1), (n, (sep, rid2) :: es2). split_and!; try done; [|lia|].
    + apply chain_app in Hch' as [_ [_ [Hright _]]]. by eapply rests_key.
    + constructor; try done.
      * repeat constructor.
      * constructor.
      * intros x Hx. by apply not_elem_of_nil in Hx.
      * cbn [kid_leaves map mjoin list_join leaves snd app].
        assert ((A ++ (i, es1) :: (n, (sep, rid2) :: es2) :: B).*1 ≡ₚ n :: (A ++ (i, es) :: B).*1) as ->.
        { rewrite !fmap_app, !fmap_cons. cbn [fst]. by rewrite Permutation_swap, <-Permutation_middle. }
        apply NoDup_cons. split; [|done]. intros Hin'.
        destruct (chain_stored _ _ _ _ _ Hch Hin') as (? & ? & ? & En). congruence.
      * unfold leaf_contents. cbn [kid_leaves map mjoin list_join leaves snd app]. rewrite !app_nil_r, <-Ees.
        apply leaf_insert_perm.
  - destruct Hres as (V' & Hp' & Hr'). eexists V', _, n. split; [exact Hp'|]. split; [exact Hr'|]. split; [lia|]. split.
    { intros x kids Hx _. rewrite lookup_insert_ne; [done|congruence]. }
    exists (i, leaf_insert key rid es). split_and!; try done. constructor; try done.
    + repeat constructor.
    + constructor.
    + intros x Hx. by apply not_elem_of_nil in Hx.
    + rewrite !fmap_app in Hnd. rewrite !fmap_app. exact Hnd.
    + unfold leaf_contents. cbn [kid_leaves map mjoin list_join leaves snd app]. rewrite !app_nil_r.
      apply leaf_insert_perm.
Qed.

(** The children of a node after one of them was replaced by [ts]. *)
Record kids_grown {h} (S' : gmap Z tree_node) (id n : Z) (kids : list (option IndexKey * tree h))
    (A B : list (Z * list leaf_entry)) (key : IndexKey) (rid : ValueId) (N : list (option IndexKey * tree h)) : Prop := {
  kg_inner : Forall (λ k, inner S' k.2) N;
  kg_nodup : NoDup (kid_pages N);
  kg_new i : i ∈ kid_pages N → i ≠ id ∧ (i ∈ kid_pages kids ∨ n ≤ i);
  kg_chain : chain S' None (A ++ kid_leaves N ++ B) None;
  kg_ids : NoDup (A ++ kid_leaves N ++ B).*1;
  kg_entries : leaf_contents (kid_leaves N) ≡ₚ (key, rid) :: leaf_contents (kid_leaves kids)
}.

Lemma kids_grown_ok {h} S S' id n K1 k (t : tree h) K2 A B key rid ts :
  (∀ i nd, S !! i = Some nd → i < n) → S !! id ≠ None →
  Forall (λ k, inner S k.2) (K1 ++ (k, t) :: K2) → NoDup (id :: kid_pages (K1 ++ (k, t) :: K2)) →
  (∀ i kids, S !! i = Some (InnerNode kids) → i ∉ inner_pages t → S' !! i = S !! i) →
  grown S' t n (A ++ kid_leaves K1) (kid_leaves K2 ++ B) key rid ts →
  kids_grown S' id n (K1 ++ (k, t) :: K2) A B key rid (K1 ++ ts ++ K2).
Proof.
  intros Hlt Hid Hin [Hidn Hnd]%NoDup_cons Hframe [G1 G2 G3 G4 G5 G6].
  apply Forall_app in Hin as [Hin1 [Hint Hin2]%Forall_cons].
  rewrite kid_pages_app, kid_pages_cons in *. rewrite !not_elem_of_app in Hidn. destruct Hidn as (Hid1 & Hidt & Hid2).
  apply NoDup_app in Hnd as (Hn1 & Hd1 & (Hnt & Hdt & Hn2)%NoDup_app).
  assert (∀ l : list (option IndexKey * tree h), Forall (λ k, inner S k.2) l → ∀ i, i ∈ kid_pages l → ∃ kids, S !! i = Some (InnerNode kids)) as Hstored.
  { intros l Hl i (ps & Hi & ([k' t'] & -> & Hin)%list_elem_of_fmap)%list_elem_of_join.
    rewrite Forall_forall in Hl. apply (inner_stored S h t'); [by apply (Hl (k', t'))|done]. }
  assert (∀ i, i ∈ kid_pages ts → i ∉ kid_pages K1 ∧ i ∉ kid_pages K2 ∧ i ≠ id) as Hdisj.
  { intros i Hi. destruct (G3 i Hi) as [Hit|Hge].
    - split_and!; [|by apply Hdt|by intros ->]. intros Hi1. apply (Hd1 i Hi1). rewrite elem_of_app. by left.
    - split_and!; [intros Hi1; destruct (Hstored K1 Hin1 i Hi1) as [? E]|intros Hi2; destruct (Hstored K2 Hin2 i Hi2) as [? E]|
        intros ->; destruct (S !! id) as [nd|] eqn:E; [|done]]; apply Hlt in E; lia. }
  constructor.
  - apply Forall_app. split; [|apply Forall_app; split; [done|]].
    + eapply inner_kids_frame; [exact Hin1|]. intros i Hi. destruct (Hstored K1 Hin1 i Hi) as [kids' E].
      eapply Hframe; [exact E|]. intros Hit. apply (Hd1 i Hi). rewrite elem_of_app. by left.
    + eapply inner_kids_frame; [exact Hin2|]. intros i Hi. destruct (Hstored K2 Hin2 i Hi) as [kids' E].
      eapply Hframe; [exact E|]. intros Hit. by apply (Hdt i Hit).
  - rewrite !kid_pages_app. apply NoDup_app. split; [done|]. split.
    + intros i Hi1 [Hi|Hi]%elem_of_app; [by destruct (Hdisj i Hi) as (? & _)|].
      apply (Hd1 i Hi1). rewrite elem_of_app. by right.
    + apply NoDup_app. split; [done|]. split; [|done]. intros i Hi. by destruct (Hdisj i Hi) as (_ & ? & _).
  - intros i. rewrite !kid_pages_app, kid_pages_cons, !elem_of_app. intros [Hi|[Hi|Hi]].
    + split; [by intros ->|]. by left; left.
    + split; [by apply Hdisj|]. destruct (G3 i Hi); [left; by right; left|by right].
    + split; [by intros ->|]. left. by right; right.
  - rewrite !kid_leaves_app. rewrite <-!app_assoc in G4. rewrite <-!app_assoc. exact G4.
  - rewrite !kid_leaves_app. rewrite <-!app_assoc in G5. rewrite <-!app_assoc. exact G5.
  - rewrite !kid_leaves_app, kid_leaves_cons, !leaf_contents_app, G6. cbn [app]. by rewrite <-Permutation_middle.
Qed.

(** Only the trees matter, not the separators. *)
Lemma kids_grown_keys {h} S' id n (kids : list (option IndexKey * tree h)) A B key rid N N' :
  N.*2 = N'.*2 → kids_grown S' id n kids A B key rid N → kids_grown S' id n kids A B key rid N'.
Proof.
  intros E [K1 K2 K3 K4 K5 K6].
  assert (∀ l : list (option IndexKey * tree h), kid_pages l = mjoin (inner_pages <$> l.*2)) as Hp
    by (intros; unfold kid_pages; by rewrite <-list_fmap_compose).
  assert (∀ l : list (option IndexKey * tree h), kid_leaves l = mjoin (leaves <$> l.*2)) as Hl
    by (intros; unfold kid_leaves; by rewrite <-list_fmap_compose).
  rewrite Hp, E, <-Hp in K2. rewrite (Hl N), E, <-Hl in K4, K5, K6.
  constructor; try done.
  - assert (Forall (inner S') N.*2) as HF by by rewrite Forall_fmap. by rewrite E, Forall_fmap in HF.
  - intros i. rewrite Hp, <-E, <-Hp. apply K3.
Qed.

(** The parents of the new children. *)
Lemma grown_one {h} S' id n (kids N : list (option IndexKey * tree h)) A B key rid :
  kids_grown S' id n kids A B key rid N → S' !! id = Some (InnerNode (kid_ids root_id N)) → (2 ≤ length N)%nat →
  grown (h := Datatypes.S h) S' (id, kids) n A B key rid [(None, (id, N))].
Proof.
  intros [K1 K2 K3 K4 K5 K6] Hid Hlen.
  assert (kid_leaves (h := Datatypes.S h) [(None, (id, N))] = kid_leaves N) as El by apply app_nil_r.
  assert (kid_pages (h := Datatypes.S h) [(None, (id, N))] = id :: kid_pages N) as Ep by apply app_nil_r.
  constructor; rewrite ?El, ?Ep; try done.
  - by repeat constructor.
  - apply NoDup_cons. split; [|done]. intros Hi. by destruct (K3 id Hi).
  - intros i [->|Hi]%elem_of_cons; [left; by left|]. destruct (K3 i Hi) as [_ [|]]; [left; by right|by right].
Qed.

Lemma grown_two {h} S' id j n (kids : list (option IndexKey * tree h)) N1 sep k2 N2 A B key rid :
  kids_grown S' id n kids A B key rid (N1 ++ (k2, N2.1) :: N2.2) → id ≠ j → n ≤ j → j ∉ kid_pages (N1 ++ (k2, N2.1) :: N2.2) →
  S' !! id = Some (InnerNode (kid_ids root_id N1)) → S' !! j = Some (InnerNode (kid_ids root_id ((None, N2.1) :: N2.2))) →
  (2 ≤ length N1)%nat → N2.2 ≠ [] →
  grown (h := Datatypes.S h) S' (id, kids) n A B key rid [(None, (id, N1)); (Some sep, (j, (None, N2.1) :: N2.2))].
Proof.
  destruct N2 as [t2 N2]. cbn [fst snd]. intros [K1 K2 K3 K4 K5 K6] Hne Hnj Hj Hid Hj' Hl1 Hl2.
  assert (kid_leaves (h := Datatypes.S h) [(None, (id, N1)); (Some sep, (j, (None, t2) :: N2))] = kid_leaves (N1 ++ (k2, t2) :: N2)) as El.
  { rewrite kid_leaves_app. change (kid_leaves N1 ++ (kid_leaves ((None, t2) :: N2) ++ []) = kid_leaves N1 ++ kid_leaves ((k2, t2) :: N2)).
    by rewrite app_nil_r. }
  assert (kid_pages (h := Datatypes.S h) [(None, (id, N1)); (Some sep, (j, (None, t2) :: N2))] ≡ₚ id :: j :: kid_pages (N1 ++ (k2, t2) :: N2)) as Ep.
  { rewrite kid_pages_app.
    change (id :: kid_pages N1 ++ ((j :: kid_pages ((None, t2) :: N2)) ++ []) ≡ₚ id :: j :: kid_pages N1 ++ kid_pages ((k2, t2) :: N2)).
    rewrite app_nil_r. by rewrite <-Permutation_middle. }
  constructor; rewrite ?El; try done.
  - apply Forall_app in K1 as [K1a [K1b K1c]%Forall_cons]. constructor; [done|]. constructor; [|done].
    split; [split; [done|destruct N2; [done|cbn; lia]]|by constructor].
  - rewrite Ep. apply NoDup_cons. split; [|by apply NoDup_cons].
    rewrite not_elem_of_cons. split; [done|]. intros Hi. by destruct (K3 id Hi).
  - intros i. rewrite Ep, !elem_of_cons. intros [->|[->|Hi]]; [left; by left|by right|].
    destruct (K3 i Hi) as [_ [|]]; [left; by right|by right].
Qed.

Lemma kids_grown_insert {h} S' id n (kids : list (option IndexKey * tree h)) A B key rid N i nd :
  kids_grown S' id n kids A B key rid N → i ∉ kid_pages N → (∀ l r es, S' !! i ≠ Some (LeafNode l r es)) →
  kids_grown (<[i := nd]> S') id n kids A B key rid N.
Proof.
  intros [K1 K2 K3 K4 K5 K6] Hi Hleaf. constructor; try done; [|by apply chain_inner].
  eapply inner_kids_frame; [exact K1|]. intros x Hx. apply lookup_insert_ne. by intros ->.
Qed.

Lemma kid_ids_keys {h} (l : list (option IndexKey * tree h)) : (kid_ids root_id l).*1 = l.*1.
Proof. induction l as [|[k t] l IH]; [done|]. cbn. by f_equal. Qed.

(** The children with a new one, in order. *)
Lemma new_kids {h} lo hi K1 k (t t1 t2 : tree h) K2 sep u rest :
  K1 ++ (k, t1) :: (Some sep, t2) :: K2 = (None, u) :: rest → kids_ordered ordered lo hi u rest →
  root_id t1 = root_id t →
  Some sep ∉ (kid_ids root_id (K1 ++ (k, t) :: K2)).*1 ∧
  child_insert sep (root_id t2) (kid_ids root_id (K1 ++ (k, t) :: K2)) =
    kid_ids root_id (K1 ++ (k, t1) :: (Some sep, t2) :: K2).
Proof.
  intros E Ho Hid. destruct (kids_sorted ordered lo hi u rest None Ho) as [Hs _]; [by left|].
  assert (StronglySorted child_lt (kid_ids root_id (K1 ++ (k, t1) :: (Some sep, t2) :: K2)).*1) as Hs'
    by (rewrite E, kid_ids_keys; exact Hs).
  assert ((Some sep, root_id t2) :: kid_ids root_id (K1 ++ (k, t) :: K2) ≡ₚ
    kid_ids root_id (K1 ++ (k, t1) :: (Some sep, t2) :: K2)) as Hperm.
  { unfold kid_ids. rewrite !map_app. cbn [map fst snd]. rewrite Hid, Permutation_swap.
    by rewrite <-!Permutation_middle, Permutation_swap. }
  split; [|by apply sort_child].
  assert (NoDup ((Some sep, root_id t2) :: kid_ids root_id (K1 ++ (k, t) :: K2)).*1) as Hnd.
  { rewrite Hperm. eapply (sorted_lt_NoDup child_lt); [|exact Hs']. intros a. unfold child_lt. by rewrite cmp_refl. }
  rewrite fmap_cons in Hnd. by apply NoDup_cons in Hnd as [? _].
Qed.

(** A node divided at a separator. *)
Lemma kid_ids_split {h} (N : list (option IndexKey * tree h)) k1 sep ch k2 :
  kid_ids root_id N = k1 ++ (Some sep, ch) :: k2 →
  ∃ N1 t N2, N = N1 ++ (Some sep, t) :: N2 ∧ kid_ids root_id N1 = k1 ∧ root_id t = ch ∧ kid_ids root_id N2 = k2.
Proof.
  unfold kid_ids. intros (N1 & N' & -> & <- & E)%map_eq_app. destruct N' as [|[o t] N2]; [done|].
  cbn [map fst snd] in E. simplify_eq. by exists N1, t, N2.
Qed.

(** What is known of the children when the recursion returns to their parent. *)
Section Parent.
Context {h : nat} (S S' : gmap Z tree_node) (V V' : gmap Z entry) (root n n' : Z) (m' : P).
Context (lo hi : option IndexKey) (id : Z) (kids : list (option IndexKey * tree h)).
Context (A B : list (Z * list leaf_entry)) (key : IndexKey) (rid : ValueId).
Context (Hp : pool_at m' V' n') (Hr : rests V' S' root n') (Hn : n ≤ n' ≤ n + Z.of_nat h + 1) (Hmax : n' < U32_MAX).
Context (Hid : S' !! id = Some (InnerNode (kid_ids root_id kids))) (Htwo : (2 ≤ length kids)%nat).
Context (Hframe : ∀ i ks, S !! i = Some (InnerNode ks) → i ∉ id :: kid_pages kids → S' !! i = S !! i).

Lemma parent_kept N u rest :
  N = (None, u) :: rest → kids_ordered ordered lo hi u rest → kid_ids root_id N = kid_ids root_id kids →
  kids_grown S' id n kids A B key rid N →
  insert_outcome (h := Datatypes.S h) V S root n lo hi (id, kids) A B key rid m' (Ok None).
Proof.
  intros EN Ho Eids Hk. exists V', S', n'. split; [done|]. split; [done|]. split; [lia|]. split; [done|].
  exists (id, N). split; [done|]. split; [by exists u, rest|]. apply grown_one; [done|by rewrite Eids|].
  apply (f_equal length) in Eids. unfold kid_ids in Eids. rewrite !length_map in Eids. lia.
Qed.

Lemma parent_insert k K1 (t t1 t2 : tree h) K2 sep u rest :
  kids = K1 ++ (k, t) :: K2 → K1 ++ (k, t1) :: (Some sep, t2) :: K2 = (None, u) :: rest →
  kids_ordered ordered lo hi u rest → root_id t1 = root_id t → key_ok sep → id_ok (root_id t2) →
  kids_grown S' id n kids A B key rid (K1 ++ (k, t1) :: (Some sep, t2) :: K2) →
  ∃ m'' res, TreeIndex.insert_into_internal m' c id sep (root_id t2) = Ret (m'', res) ∧
    insert_outcome (h := Datatypes.S h) V S root n lo hi (id, kids) A B key rid m'' res.
Proof.
  intros Ekids EN Ho Ht1 Hsep Hid2 Hk. set (N := K1 ++ (k, t1) :: (Some sep, t2) :: K2) in *.
  destruct (new_kids lo hi K1 k t t1 t2 K2 sep u rest EN Ho Ht1) as [Hnew Hins]. rewrite <-Ekids in Hnew, Hins. fold N in Hins.
  assert (id ∉ kid_pages N) as HidN by (intros Hin; by destruct (kg_new _ _ _ _ _ _ _ _ _ Hk id Hin)).
  assert (S' !! n' = None) as Hnone.
  { destruct (S' !! n') eqn:E; [|done]. apply (rs_nodes _ _ _ _ _ Hr) in E. lia. }
  destruct (rs_nodes _ _ _ _ _ Hr id _ Hid) as (Hidn & _).
  destruct (insert_into_internal_ok key_ok c Hc base m' V' S' root n' id _ sep (root_id t2) Hp Hr Hid)
    as (m'' & res & E & Hres); try done.
  assert (length N = Datatypes.S (length kids)) as HlenN by (subst N; rewrite Ekids, !length_app; cbn; lia).
  exists m'', res. split; [done|]. rewrite Hins in Hres. destruct res as [[[sep' j]|]|e]; [| |destruct Hres as [Hno Hpool]; split; [by left|done]].
  - destruct Hres as (-> & V'' & k1 & ch2 & k2 & EN' & Hk1 & Hk2 & Hp' & Hr').
    destruct (kid_ids_split N k1 sep' ch2 k2 EN') as (N1 & t3 & N2 & ENN & <- & <- & <-).
    unfold kid_ids in Hk1. rewrite length_map in Hk1.
    destruct N1 as [|[o1 u1] U1]; [cbn in Hk1; lia|]. rewrite EN in ENN. cbn [app] in ENN. injection ENN as <- <- ->.
    destruct (kids_split ordered lo hi u U1 sep' t3 N2 Ho) as (Hb & Ho1 & Ho2).
    assert (key_ok sep') as Hks.
    { assert (Some sep' ∈ Some sep :: (kid_ids root_id kids).*1) as [[= ->]|Hin]%elem_of_cons; [|done|
        by apply (rests_kid_key V' S' root n' id (kid_ids root_id kids))].
      change (Some sep :: (kid_ids root_id kids).*1) with (((Some sep, root_id t2) :: kid_ids root_id kids).*1).
      rewrite <-child_insert_perm, Hins, EN'. rewrite fmap_app, fmap_cons, elem_of_app. right. by left. }
    assert (n' ∉ kid_pages N) as HnN.
    { intros (ps & Hi & ([k' t'] & -> & Hin)%list_elem_of_fmap)%list_elem_of_join.
      pose proof (kg_inner _ _ _ _ _ _ _ _ _ Hk) as HF. rewrite Forall_forall in HF.
      destruct (inner_stored S' h t' n' (HF (k', t') Hin) Hi) as [? Hx]. by rewrite Hnone in Hx. }
    eexists V'', _, (n' + 1). split; [exact Hp'|]. split; [exact Hr'|]. split; [lia|]. split.
    { intros i ks Hi Hni. pose proof (Hframe i ks Hi Hni) as Hi'. rewrite !lookup_insert_ne; [done| |].
      - intros ->. rewrite Hi, Hnone in Hi'. done.
      - intros ->. apply Hni. by left. }
    exists (id, (None, u) :: U1), (n', (None, t3) :: N2). split_and!; try done; try lia; [by exists u, U1|by exists t3, N2|].
    apply (grown_two _ id n' n kids ((None, u) :: U1) sep' (Some sep') (t3, N2)); cbn [fst snd]; try lia.
    + change ((((None, u) :: U1) ++ (Some sep', t3) :: N2)) with ((None, u) :: U1 ++ (Some sep', t3) :: N2).
      rewrite <-EN. fold N. apply kids_grown_insert; [apply kids_grown_insert; [done|done|congruence]|done|].
      intros l r es. rewrite lookup_insert_ne by lia. congruence.
    + change ((((None, u) :: U1) ++ (Some sep', t3) :: N2)) with ((None, u) :: U1 ++ (Some sep', t3) :: N2). by rewrite <-EN.
    + by rewrite lookup_insert_eq.
    + rewrite lookup_insert_ne by lia. by rewrite lookup_insert_eq.
    + by intros ->.
  - destruct Hres as (V'' & Hp' & Hr'). eexists V'', _, n'. split; [exact Hp'|]. split; [exact Hr'|]. split; [lia|]. split.
    { intros i ks Hi Hni. rewrite lookup_insert_ne; [by eapply Hframe|]. intros ->. apply Hni. by left. }
    exists (id, N). split; [done|]. split; [by exists u, rest|].
    apply grown_one; [|by rewrite lookup_insert_eq|lia]. apply kids_grown_insert; [done|done|congruence].
Qed.
End Parent.

Lemma insert_rec_ok h fuel m V S root n lo hi (t : tree h) A B key rid :
  pool_at m V n → rests V S root n → ordered lo hi t → inner S t → NoDup (inner_pages t) → in_range lo hi key →
  key_ok key → rid_ok rid → n + Z.of_nat h < U32_MAX → chain S None (A ++ leaves t ++ B) None →
  NoDup (A ++ leaves t ++ B).*1 → key ∉ tree_keys t → (h < fuel)%nat →
  ∃ m' res, TreeIndex.insert_recursive fuel m c (root_id t) key rid = Ret (m', res) ∧
    insert_outcome V S root n lo hi t A B key rid m' res.
Proof.
  revert fuel m lo hi t A B. induction h as [|h IH]; intros fuel m lo hi t A B Hp Hr Ho Hi Hnd Hin Hk Hrid Hmax Hch Hids Hkey Hfuel;
    (destruct fuel as [|fuel]; [lia|]); cbn [TreeIndex.insert_recursive]; unfold TreeIndex.try at 1.
  - assert (∃ l r, S !! root_id t = Some (LeafNode l r t.2)) as (l & r & Hid).
    { destruct t as [id es]. cbn [leaves app] in Hch. apply chain_app in Hch as [_ [Hid _]]. by do 2 eexists. }
    destruct (node_read key_ok c base m V S root n _ _ TreeIndex.read_is_leaf (Ok true) Hp Hr Hid) as (m1 & E & Hp1);
      [intros p Hnp; by rewrite (read_is_leaf_ok key_ok p _ Hnp)|]. rewrite E. cbn [mbind outcome_bind].
    apply (insert_leaf_outcome m1 V); try done. lia.
  - destruct t as [id kids]. destruct Ho as (t0 & rest & Ekids & Ho). destruct Hi as [[Hid Htwo] Hik].
    cbn [fst snd root_id inner_pages] in *. fold (kid_pages kids) in Hnd.
    change (list (option IndexKey * tree h)) in kids.
    destruct (pick ordered tree_keys root_id (ordered_range h) lo hi None t0 rest key Ho Hin)
      as (K1 & k & t' & K2 & lo' & hi' & Ek & Ef & Hpk).
    assert (kids = K1 ++ (k, t') :: K2) as Ekids' by by rewrite <-Ek.
    pose proof Hid as Hid0. rewrite Ekids in Hid0.
    destruct (node_read key_ok c base m V S root n _ _ TreeIndex.read_is_leaf (Ok false) Hp Hr Hid) as (m1 & E1 & Hp1);
      [intros p Hnp; by rewrite (read_is_leaf_ok key_ok p _ Hnp)|]. rewrite E1. cbn [mbind outcome_bind].
    destruct (read_kids_ok m1 V S root n id t0 rest key (λ ch, ch) Hp1 Hr Hid0) as (m2 & E2 & Hp2).
    unfold TreeIndex.try at 1. rewrite E2, Ef. cbn [mbind outcome_bind]. unfold TreeIndex.try at 1.
    assert (leaves (h := Datatypes.S h) (id, kids) = kid_leaves K1 ++ leaves t' ++ kid_leaves K2) as Hlv.
    { change (kid_leaves kids = kid_leaves K1 ++ leaves t' ++ kid_leaves K2). by rewrite Ekids', kid_leaves_app, kid_leaves_cons. }
    unfold tree_keys in Hkey. rewrite Hlv in Hch, Hids, Hkey. rewrite <-!app_assoc in Hch, Hids.
    rewrite !leaf_contents_app, !fmap_app, !not_elem_of_app in Hkey.
    pose proof Hik as Hik'. rewrite Ekids' in Hik'. apply Forall_app in Hik' as [_ [Hit _]%Forall_cons].
    assert (id ∉ inner_pages t' ∧ NoDup (inner_pages t')) as [Hidt Hndt].
    { rewrite Ekids', kid_pages_app, kid_pages_cons in Hnd. apply NoDup_cons in Hnd as [Hnid Hnd].
      rewrite !not_elem_of_app in Hnid. apply NoDup_app in Hnd as (_ & _ & (? & _)%NoDup_app). by destruct Hnid as (_ & ? & _). }
    destruct (IH fuel m2 lo' hi' t' (A ++ kid_leaves K1) (kid_leaves K2 ++ B)) as (m3 & res & E3 & Hres);
      try done; [apply Hpk|apply Hpk|lia|by rewrite <-app_assoc|by rewrite <-app_assoc|by destruct Hkey as (_ & ? & _)|lia|].
    rewrite E3. cbn [mbind outcome_bind]. destruct res as [o|e]; [|by exists m3, (Err e)].
    destruct Hres as (V' & S' & n' & Hp' & Hr' & Hn' & Hframe & Ho').
    assert (∀ i nd, S !! i = Some nd → i < n) as Hlt by (intros i nd E; apply (rs_nodes _ _ _ _ _ Hr) in E; lia).
    assert (S' !! id = Some (InnerNode (kid_ids root_id kids))) as Hid' by (rewrite (Hframe id _ Hid Hidt); done).
    assert (∀ ts, grown S' t' n (A ++ kid_leaves K1) (kid_leaves K2 ++ B) key rid ts →
      kids_grown S' id n kids A B key rid (K1 ++ ts ++ K2)) as Hgr.
    { intros ts Hts. rewrite Ekids'. apply (kids_grown_ok S); rewrite <-?Ekids'; try done. congruence. }
    assert (∀ i ks, S !! i = Some (InnerNode ks) → i ∉ id :: kid_pages kids → S' !! i = S !! i) as Hframe'.
    { intros i ks Hi Hni. eapply Hframe; [exact Hi|]. intros Hit'. apply Hni. right.
      rewrite Ekids', kid_pages_app, kid_pages_cons, !elem_of_app. by right; left. }
    destruct o as [[sep j]|].
    + destruct Ho' as (t1 & t2 & Et1 & <- & Hb & Ho1 & Ho2 & Hsep & Hj & Hg).
      destruct (pk_two _ _ _ _ _ _ _ _ _ _ _ _ Hpk t1 sep t2 Hb Ho1 Ho2) as (u & rest' & EN & HoN).
      apply (parent_insert S S' V V' root n n' m3 lo hi id kids A B key rid) with (k := k) (K1 := K1) (t := t') (t1 := t1) (K2 := K2) (u := u) (rest := rest'); try done; try lia.
      * pose proof (rs_nodes _ _ _ _ _ Hr id _ Hid) as (? & _). unfold id_ok, U32_MAX in *. lia.
      * eapply kids_grown_keys; [|by apply Hgr]. rewrite !fmap_app, !fmap_cons. done.
    + destruct Ho' as (t1 & Et1 & Ho1 & Hg). exists m3, (Ok None). split; [done|].
      destruct (pk_one _ _ _ _ _ _ _ _ _ _ _ _ Hpk t1 Ho1) as (u & rest' & EN & HoN).
      apply (parent_kept S S' V V' root n n' m3 lo hi id kids A B key rid) with (N := K1 ++ (k, t1) :: K2) (u := u) (rest := rest'); try done.
      * rewrite Ekids'. unfold kid_ids. rewrite !map_app. cbn [map fst snd]. by rewrite Et1.
      * eapply kids_grown_keys; [|by apply Hgr]. rewrite !fmap_app, !fmap_cons. done.
Qed.

(** ** The run of a key *)

Lemma last_matches_false (es : list leaf_entry) key :
  Forall (λ k, k ≠ key) es.*1 → TreeIndex.last_matches es key = false.
Proof.
  intros Hf. unfold TreeIndex.last_matches. destruct (last es) as [[k r]|] eqn:E; [|done].
  apply last_Some in E as [l ->]. rewrite fmap_app, Forall_app in Hf. destruct Hf as [_ [Hk _]%Forall_cons].
  by apply bool_decide_eq_false.
Qed.

Lemma filter_none (es : list leaf_entry) key :
  Forall (λ k, k ≠ key) es.*1 → List.filter (λ e : leaf_entry, bool_decide (e.1 = key)) es = [].
Proof.
  induction es as [|[k r] es IH]; [done|]. rewrite fmap_cons. intros [Hk Hf]%Forall_cons. cbn.
  rewrite bool_decide_false by done. auto.
Qed.

Lemma lt_ne_before (l : list IndexKey) key : Forall (λ k, key_lt k key) l → Forall (λ k, k ≠ key) l.
Proof. intros Hf. eapply Forall_impl; [exact Hf|]. intros k Hk ->. by apply key_lt_irrefl in Hk. Qed.
Lemma lt_ne_after (l : list IndexKey) key : Forall (λ k, key_lt key k) l → Forall (λ k, k ≠ key) l.
Proof. intros Hf. eapply Forall_impl; [exact Hf|]. intros k Hk ->. by apply key_lt_irrefl in Hk. Qed.

Section Run.
Context (V : gmap Z entry) (S : gmap Z tree_node) (root n : Z) (key : IndexKey) (i : Z) (es : list leaf_entry).
Context (L1 L2 : list (Z * list leaf_entry)).
Context (Hr : rests V S root n) (Hch : chain S None (L1 ++ (i, es) :: L2) None).
Context (Hbefore : Forall (λ k, key_lt k key) (leaf_contents L1).*1).
Context (Hafter : Forall (λ k, key_lt key k) (leaf_contents L2).*1).

(** Nothing equal to the key is left of its leaf. *)
Lemma leftmost_ok fuel m :
  pool_at m V n →
  ∃ m', TreeIndex.leftmost_run_leaf (Datatypes.S fuel) m c i key = Ret (m', Ok i) ∧ pool_at m' V n.
Proof.
  intros Hp. pose proof Hch as [H1 [Hi _]]%chain_app. cbn [TreeIndex.leftmost_run_leaf]. unfold TreeIndex.try at 1.
  destruct (read_leaf_ok m V S root n i _ _ _ Hp Hr Hi) as (m1 & E1 & Hp1). rewrite E1. cbn [mbind outcome_bind].
  unfold last_leaf. destruct (last L1) as [[prev esp]|] eqn:El; [|by exists m1].
  apply last_Some in El as [L1' E]. rewrite E in H1, Hbefore. apply chain_app in H1 as [_ [Hprev _]].
  destruct (read_leaf_ok m1 V S root n prev _ _ _ Hp1 Hr Hprev) as (m2 & E2 & Hp2). unfold TreeIndex.try. rewrite E2.
  cbn [mbind outcome_bind]. rewrite last_matches_false; [by exists m2|].
  rewrite leaf_contents_app, fmap_app, Forall_app in Hbefore. destruct Hbefore as [_ Hb]. apply lt_ne_before.
  unfold leaf_contents in Hb. cbn in Hb. by rewrite app_nil_r in Hb.
Qed.

(** The leaf after it: its siblings, and that nothing equal to the key is there. *)
Lemma next_ok y : next_leaf L2 None = Some y →
  ∃ l r esy, S !! y = Some (LeafNode l r esy) ∧ Forall (λ k, k ≠ key) esy.*1.
Proof.
  intros E. pose proof Hch as [_ [_ H2]]%chain_app. destruct L2 as [|[z esz] L2']; [done|]. cbn in E. injection E as ->.
  destruct H2 as [Hy _]. do 3 eexists. split; [exact Hy|]. apply lt_ne_after.
  change ((y, esz) :: L2') with ([(y, esz)] ++ L2') in Hafter. rewrite leaf_contents_app, fmap_app, Forall_app in Hafter.
  destruct Hafter as [Ha _]. unfold leaf_contents in Ha. cbn in Ha. by rewrite app_nil_r in Ha.
Qed.

Lemma collect_ok fuel m :
  pool_at m V n →
  ∃ m', TreeIndex.collect_run (Datatypes.S (Datatypes.S fuel)) m c (Some i) key [] =
      Ret (m', Ok (List.filter (λ e : leaf_entry, bool_decide (e.1 = key)) es).*2) ∧ pool_at m' V n.
Proof.
  intros Hp. pose proof Hch as [_ [Hi _]]%chain_app. cbn [TreeIndex.collect_run]. unfold TreeIndex.try at 1.
  destruct (read_leaf_ok m V S root n i _ _ _ Hp Hr Hi) as (m1 & E1 & Hp1). rewrite E1. cbn [mbind outcome_bind app].
  destruct (TreeIndex.last_matches es key); [|by exists m1].
  destruct (next_leaf L2 None) as [y|] eqn:Ey; [|by exists m1]. destruct (next_ok y Ey) as (l & r & esy & Hy & Hne).
  destruct (read_leaf_ok m1 V S root n y _ _ _ Hp1 Hr Hy) as (m2 & E2 & Hp2). unfold TreeIndex.try. rewrite E2.
  cbn [mbind outcome_bind]. rewrite (last_matches_false esy), (filter_none esy) by done. exists m2.
  cbn [fmap list_fmap]. rewrite app_nil_r. by destruct fuel.
Qed.

Lemma delete_absent_ok fuel m rid :
  pool_at m V n → (key, rid) ∉ es →
  ∃ m', TreeIndex.delete_loop (Datatypes.S (Datatypes.S fuel)) m c i key rid = Ret (m', Ok tt) ∧ pool_at m' V n.
Proof.
  intros Hp Hin. pose proof Hch as [_ [Hi _]]%chain_app.
  destruct (delete_not_here_ok key_ok c base (Datatypes.S fuel) m V S root n i _ _ es key rid Hp Hr Hi Hin) as (m1 & Hp1 & E).
  rewrite E. destruct (TreeIndex.last_matches es key); [|by exists m1].
  destruct (next_leaf L2 None) as [y|] eqn:Ey; [|by exists m1]. destruct (next_ok y Ey) as (l & r & esy & Hy & Hne).
  assert ((key, rid) ∉ esy) as Hin'.
  { intros Hin'. rewrite Forall_forall in Hne. apply (Hne key); [|done]. by eapply elem_of_fst. }
  destruct (delete_not_here_ok key_ok c base fuel m1 V S root n y _ _ esy key rid Hp1 Hr Hy Hin') as (m2 & Hp2 & E2).
  rewrite E2, last_matches_false by done. by exists m2.
Qed.
End Run.
End Correct.
