(* ===== verification/TreeContract.v ===== *)
(** * B+tree indexes: the contract

    The operations of [index/src/tree.rs] on an index whose keys are distinct, and what
    equal keys do to it. *)

From stdpp Require Import strings sorting gmap.
From S2P Require Import Prelude Common HeapPage HeapPageView HeapPageSpec BufferFrame.
From S2P Require Import MemPool.
From S2P Require Import InMemPool HeapFile HeapFileSpec HeapFileContract Ordering Field.
From S2P Require Import FieldContract.
From S2P Require Import TreeIndex TreeNode TreeShape TreeStore TreeCorrect.

Open Scope Z_scope.

Section Contract.
Context `{Laws : MemPoolLaws P} `{NodeCodec} (key_ok : IndexKey → Prop) `{!NodeCodecLaws key_ok}.










(** ** Search *)



(** ** Deletion *)






(** ** Insertion *)




(** ** Creation *)


(** ** Refinement *)








End Contract.

(** ** B+tree indexes: a concrete codec, and examples

    A codec of entries with one integer as key, which satisfies the laws asked of the codec,
    and the index run on it over the in-memory pool. *)

(** ** Entries as six numbers *)

Definition opt_num (o : option Z) : Z := match o with Some x => x + 1 | None => 0 end.
Definition num_opt (x : Z) : option Z := if x =? 0 then None else Some (x - 1).

Definition entry_nums (e : NodeEntry) : option (list Z) :=
  match e with
  | NMeta b l r => Some [0; if b then 1 else 0; opt_num l; opt_num r; 0; 0]
  | NInternal None c => Some [1; 0; c; 0; 0; 0]
  | NInternal (Some [BigInt k]) c => Some [1; k + 1; c; 0; 0; 0]
  | NLeaf [BigInt k] rid =>
      Some [2; k; container_id rid; opt_num (segment_id rid); opt_num (page_id rid); opt_num (slot_id rid)]
  | _ => None
  end.

Definition nums_entry (l : list Z) : option NodeEntry :=
  match l with
  | [0; b; l; r; _; _] => Some (NMeta (b =? 1) (num_opt l) (num_opt r))
  | [1; k; c; _; _; _] => Some (NInternal ((λ k, [BigInt k]) <$> num_opt k) c)
  | [2; k; c; s; p; t] => Some (NLeaf [BigInt k] (mkValueId c (num_opt s) (num_opt p) (num_opt t)))
  | _ => None
  end.

Fixpoint words (n : nat) (bs : list byte) : list Z :=
  match n with O => [] | S n => le_combine (take 8 bs) :: words n (drop 8 bs) end.

(** Six words of eight bytes and [pad] more bytes. *)
Definition num_codec (pad : nat) : NodeCodec := Build_NodeCodec
  (λ e,
     match entry_nums e with
     | Some l => Ok (mjoin (le_split 8 <$> l) ++ replicate pad Byte.x00)
     | None => Err (c_err "entry")
     end)
  (λ bs, match nums_entry (words 6 bs) with Some e => Ok e | None => Err (c_err "entry") end).

Definition num_key (k : IndexKey) : Prop := ∃ i, k = [BigInt i] ∧ 0 ≤ i < 2 ^ 63.

Lemma num_opt_num o : (∀ x, o = Some x → 0 ≤ x) → num_opt (opt_num o) = o.
Proof.
  intros Ho. destruct o as [x|]; [|done]. specialize (Ho x eq_refl). unfold num_opt, opt_num.
  destruct (Z.eqb_spec (x + 1) 0); [lia|]. f_equal. lia.
Qed.

Lemma words_split l rest :
  Forall (λ x, 0 ≤ x < 2 ^ 64) l → words (length l) (mjoin (le_split 8 <$> l) ++ rest) = l.
Proof.
  induction 1 as [|x l Hx _ IH]; [done|]. rewrite fmap_cons. cbn [length words].
  change (mjoin (le_split 8 x :: (le_split 8 <$> l))) with (le_split 8 x ++ mjoin (le_split 8 <$> l)).
  rewrite <-app_assoc, take_app_length', drop_app_length', le_combine_split by (by rewrite length_le_split).
  rewrite IH. f_equal. by apply Z.mod_small.
Qed.

Lemma opt_num_bound o n : (∀ x, o = Some x → 0 ≤ x < n) → n < 2 ^ 63 → 0 < n → 0 ≤ opt_num o < 2 ^ 64.
Proof. intros Ho Hn Hp. destruct o as [x|]; simpl; [specialize (Ho x eq_refl)|]; lia. Qed.

#[local] Ltac all_words := repeat (apply Forall_cons; split; [cbn; lia|]); apply Forall_nil_2.

(** Every entry with an integer key is six words, and comes back from them. *)
Lemma entry_nums_ok e :
  entry_ok num_key e →
  ∃ l, entry_nums e = Some l ∧ length l = 6%nat ∧ Forall (λ x, 0 ≤ x < 2 ^ 64) l ∧ nums_entry l = Some e.
Proof.
  assert (∀ o, (∀ i, o = Some i → id_ok i) → 0 ≤ opt_num o < 2 ^ 64 ∧ num_opt (opt_num o) = o) as Hid.
  { intros o Ho. split; [by apply (opt_num_bound o (2 ^ 32)); [exact Ho|..]|]. apply num_opt_num. intros x E. by apply Ho. }
  destruct e as [b l r|[k|] c|k rid]; cbn [entry_ok].
  - intros [Hl Hr]. destruct (Hid l Hl) as [Bl El], (Hid r Hr) as [Br Er].
    eexists. split; [done|]. split; [done|]. split; [destruct b; all_words|].
    cbn [nums_entry]. rewrite El, Er. by destruct b.
  - intros [Hk Hc]. destruct (Hk k eq_refl) as (i & -> & Hi). unfold id_ok in Hc.
    eexists. split; [done|]. split; [done|]. split; [all_words|].
    cbn [nums_entry]. change (i + 1) with (opt_num (Some i)). by rewrite num_opt_num by (intros ? [= <-]; lia).
  - intros [_ Hc]. unfold id_ok in Hc. eexists. split; [done|]. split; [done|].
    split; [all_words|done].
  - intros [(i & -> & Hi) (Hc & Hp & Hs & Hg)]. destruct rid as [c s p t]. cbn in Hc, Hp, Hs, Hg.
    assert (0 ≤ opt_num s < 2 ^ 64) by (by apply (opt_num_bound s (2 ^ 8))).
    assert (0 ≤ opt_num p < 2 ^ 64) by (by apply (opt_num_bound p (2 ^ 32))).
    assert (0 ≤ opt_num t < 2 ^ 64) by (by apply (opt_num_bound t (2 ^ 16))).
    eexists. split; [done|]. split; [done|]. split; [all_words|].
    cbn [nums_entry container_id segment_id page_id slot_id].
    rewrite !num_opt_num; [done|intros x E..].
    + by apply Hs. + by apply Hp. + by apply Hg.
Qed.

#[global] Instance num_codec_laws pad : (pad ≤ 52)%nat → NodeCodecLaws (H := num_codec pad) num_key.
Proof.
  intros Hpad e He. destruct (entry_nums_ok e He) as (l & El & Hl & Hb & Ed).
  pose proof (words_split l (replicate pad Byte.x00) Hb) as Ew. rewrite Hl in Ew.
  exists (mjoin (le_split 8 <$> l) ++ replicate pad Byte.x00). split; [unfold TreeIndex.encode, num_codec; by rewrite El|].
  split; [unfold TreeIndex.decode, num_codec; by rewrite Ew, Ed|]. unfold zlen. rewrite length_app, length_replicate.
  assert (∀ k : list Z, length (mjoin (le_split 8 <$> k)) = (8 * length k)%nat) as ->; [|lia].
  induction k as [|x k IH]; [done|]. rewrite fmap_cons.
  change (mjoin (le_split 8 x :: (le_split 8 <$> k))) with (le_split 8 x ++ mjoin (le_split 8 <$> k)). rewrite length_app, length_le_split, IH. cbn. lia.
Qed.

(** ** Equal keys *)

Definition rid_of (i : Z) : ValueId := mkValueId 7 None (Some 1) (Some i).

Fixpoint insert_keys `{NodeCodec} (m : InMemPool) (c : Z) (kvs : list (Z * Z)) : outcome (InMemPool * result CrustyError unit) :=
  match kvs with
  | [] => Ret (m, Ok tt)
  | (k, v) :: kvs => TreeIndex.try (TreeIndex.insert m c [BigInt k] (rid_of v)) (λ m _, insert_keys m c kvs)
  end.

Definition index_of_keys `{NodeCodec} (kvs : list (Z * Z)) : outcome (InMemPool * result CrustyError unit) :=
  TreeIndex.try (TreeIndex.new InMem.new 1) (λ m _, insert_keys m 1 kvs).

Definition search_after `{NodeCodec} (kvs : list (Z * Z)) (k : Z) : outcome (result CrustyError (list ValueId)) :=
  '(m, _) ← index_of_keys kvs; '(_, r) ← TreeIndex.search m 1 [BigInt k]; Ret r.


(** A run of equal keys that is split in two leaves, and whose first part is split again,
    hides what was inserted after it. *)
Definition run_of_42 : list (Z * Z) := [(42, 1); (42, 2); (42, 3); (50, 4); (41, 5); (40, 6)].

(** Equal keys can break an index. For example, in an index of entries of a kilobyte, with
    three equal keys, a greater one and two smaller ones inserted, every insertion succeeds and then a
    search for the greater key finds nothing: the node over the leaves has two separators
    with the same key, and the new one, of the leaf that was split off, comes last. *)
Theorem duplicate_keys_lost :
  (50, 4) ∈ run_of_42 ∧
  (∃ m, index_of_keys (H := num_codec 950) run_of_42 = Ret (m, Ok tt)) ∧
  search_after (H := num_codec 950) run_of_42 50 = Ret (Ok []).
Proof.
  split; [apply list_elem_of_In; cbn; tauto|]. split; [|vm_compute; reflexivity].
  assert (match index_of_keys (H := num_codec 950) run_of_42 with Ret (_, Ok tt) => true | _ => false end = true) as E
    by (vm_compute; reflexivity).
  destruct (index_of_keys run_of_42) as [[m [[]|]]|]; try discriminate E. by exists m.
Qed.

(** ** The contract on an index *)

#[local] Instance num_codec_0_laws : NodeCodecLaws (H := num_codec 0) num_key.
Proof. apply num_codec_laws. lia. Qed.






