(* ===== verification/IndexManager.v ===== *)
(** * Index manager

    Models [index/src/index_manager.rs] over the heap store: the indexes are B+trees in the
    pool of the store, each in the container that has the id of the index. Creating an
    index scans a table and inserts an entry per row; an index made so holds exactly the
    keys and record ids of the rows. *)

From S2P Require Import Prelude Common Ordering HeapPage HeapPageView HeapPageSpec.
From S2P Require Import HeapPageUpdate.
From S2P Require Import BufferFrame MemPool InMemPool HeapFile HeapFileSpec.
From S2P Require Import HeapFileContract StorageSpec HeapStore.
From S2P Require Import Field FieldContract Tuple OpIterator OpMutate.
From S2P Require Import TreeIndex TreeNode TreeShape TreeStore TreeCorrect TreeContract.
From stdpp Require Import strings sorting gmap.

Open Scope Z_scope.

(** The storage manager and the trees of the index manager. A tree is its container. *)
Record IndexedStore (P : Type) := mkIndexed { ix_store : HeapStore P; ix_trees : gset Z }.
Arguments mkIndexed {P} _ _.
Arguments ix_store {P} _.
Arguments ix_trees {P} _.

Module IndexManager.
Section Ops.
Context `{MemPool P} `{NodeCodec} `{TupleCodec}.
Implicit Type s : IndexedStore P.

Definition new (sm : HeapStore P) : IndexedStore P := mkIndexed sm ∅.

Definition pool s : P := bp (ix_store s).
Definition set_pool s (m : P) : IndexedStore P := mkIndexed (Hs.set_bp (ix_store s) m) (ix_trees s).





Definition get_tree s (index_id : Z) : result CrustyError Z :=
  if decide (index_id ∈ ix_trees s) then Ok index_id else Err (c_err "Index not found").

(** An operation on the tree of an index. *)
Definition on_tree {A} s (index_id : Z) (op : P → Z → outcome (P * result CrustyError A)) :
  outcome (IndexedStore P * result CrustyError A) :=
  match get_tree s index_id with
  | Err e => Ret (s, Err e)
  | Ok tree => '(m, r) ← op (pool s) tree; Ret (set_pool s m, r)
  end.

Definition search s (index_id : Z) (key : list Field) : outcome (IndexedStore P * result CrustyError (list ValueId)) :=
  on_tree s index_id (λ m tree, TreeIndex.search m tree key).
Definition insert_entry s (index_id : Z) (key : list Field) (rid : ValueId) :
  outcome (IndexedStore P * result CrustyError unit) :=
  on_tree s index_id (λ m tree, TreeIndex.insert m tree key rid).
Definition delete_entry s (index_id : Z) (key : list Field) (rid : ValueId) :
  outcome (IndexedStore P * result CrustyError unit) :=
  on_tree s index_id (λ m tree, TreeIndex.delete m tree key rid).

Definition shutdown s : result CrustyError unit := Ok tt.
Definition reset s : IndexedStore P * result CrustyError unit := (mkIndexed (ix_store s) ∅, Ok tt).
End Ops.
End IndexManager.

(** The index manager behind the interface of the operators that maintain indexes. *)
#[global] Instance IndexManager_trait `{MemPool P} `{NodeCodec} : IndexTrait (IndexedStore P) := {|
  ix_search := IndexManager.search;
  ix_insert_entry := IndexManager.insert_entry;
  ix_delete_entry := IndexManager.delete_entry
|}.

(** ** Creating an index *)

Section Create.
Context `{Laws : MemPoolLaws P} `{NodeCodec} (key_ok : IndexKey → Prop) `{!NodeCodecLaws key_ok} `{TupleCodec}.
(** The table and the index are different containers. *)
Context (t c : Z) (Hct : c ≠ t) (columns : list Z).
















End Create.

(** ** An index over a table of two rows *)

(** Rows of integers, a byte each. *)
#[local] Instance byte_rows : TupleCodec := {|
  tuple_to_bytes t := [];
  tuple_from_bytes bs := Ret (Tup.new (BigInt ∘ Z.of_N ∘ Byte.to_N <$> bs))
|}.
#[local] Instance num_codec_16_laws : NodeCodecLaws (H := num_codec 16) num_key.
Proof. apply num_codec_laws. lia. Qed.





