(* ===== verification/Logical.v ===== *)
(** * Logical plans and their rewrites

    Models [LogicalRelExpr] of [common/src/query/logical_expr/logical_rel_expr.rs] with its
    implementation of the [Plan] trait and its translation to physical plans, and the
    constructors of logical plans that optimize as they build ([select.rs], [join.rs],
    [map.rs], [project.rs], [rename.rs], [aggregate.rs], [scan.rs], [hoist.rs],
    [flatmap.rs], [../rules.rs]).

    [select] and [join] recurse into the plan. [map], [hoist], [flatmap] and [project] call
    each other on plans that are not parts of their argument, so they have a bound on the
    depth of their calls, and pass the counter of fresh column ids along. A [HashSet] is
    iterated in the order of [elements]; the order is unspecified in the source. *)

From stdpp Require Import strings gmap.
From S2P Require Import Prelude Common Field Tuple ByteCode Expr OpAggregate PhysicalPlan.
From S2P Require Import DbCatalog.

Open Scope Z_scope.

(** ** Rules *)

Inductive Rule := Hoist | Decorrelate | SelectionPushdown | ProjectionPushdown.

#[global] Instance Rule_eq_dec : EqDecision Rule.
Proof. solve_decision. Defined.
#[global] Instance Rule_countable : Countable Rule.
Proof.
  apply (inj_countable' (λ r, match r with Hoist => 0 | Decorrelate => 1 | SelectionPushdown => 2 | ProjectionPushdown => 3 end)
    (λ z, if z =? 0 then Hoist else if z =? 1 then Decorrelate else if z =? 2 then SelectionPushdown else ProjectionPushdown)).
  by intros [].
Defined.

Abbreviation RuleSet := (gset Rule).

Module Rules.
Definition new : RuleSet := ∅.
Definition enable (rs : RuleSet) (r : Rule) : RuleSet := {[ r ]} ∪ rs.
Definition disable (rs : RuleSet) (r : Rule) : RuleSet := rs ∖ {[ r ]}.
Definition is_enabled (rs : RuleSet) (r : Rule) : bool := bool_decide (r ∈ rs).
Definition default : RuleSet := {[ Hoist; Decorrelate; SelectionPushdown; ProjectionPushdown ]}.
End Rules.

(** ** Plans *)

Inductive LogicalRelExpr : Type :=
  | LScan (cid : Z) (table_name : list byte) (column_names : list Z)
  | LIndexScan (cid : Z) (table_name : list byte) (column_names : list Z) (index_id : Z)
      (key_values : list (Expression LogicalRelExpr))
  | LDelete (table_id : Z) (src : LogicalRelExpr)
  | LUpdate (table_id : Z) (src : LogicalRelExpr) (assignments : TupleAssignments)
  | LSelect (src : LogicalRelExpr) (predicates : list (Expression LogicalRelExpr))
  | LJoin (join_type : JoinType) (left right : LogicalRelExpr) (predicates : list (Expression LogicalRelExpr))
  | LProject (src : LogicalRelExpr) (cols : list Z)
  | LOrderBy (src : LogicalRelExpr) (cols : list (Z * bool * bool))
  | LAggregate (src : LogicalRelExpr) (group_by : list Z) (aggrs : list (Z * (Z * AggOp)))
  | LMap (input : LogicalRelExpr) (exprs : list (Z * Expression LogicalRelExpr))
  | LFlatMap (input func : LogicalRelExpr)
  | LRename (src : LogicalRelExpr) (src_to_dest : gmap Z Z).

Module Log.

Fixpoint att (p : LogicalRelExpr) : gset Z :=
  match p with
  | LScan _ _ column_names => list_to_set column_names
  | LIndexScan _ _ column_names _ _ => list_to_set column_names
  | LDelete _ src => att src
  | LUpdate _ src _ => att src
  | LSelect src _ => att src
  | LJoin _ l r _ => att l ∪ att r
  | LProject _ cols => list_to_set cols
  | LOrderBy src _ => att src
  | LAggregate _ group_by aggrs => list_to_set group_by ∪ list_to_set aggrs.*1
  | LMap input exprs => att input ∪ list_to_set exprs.*1
  | LFlatMap input func => att input ∪ att func
  | LRename src src_to_dest => Phys.rename_set (att src) src_to_dest
  end.

Fixpoint free (p : LogicalRelExpr) : gset Z :=
  let plan := {| plan_replace_variables := λ p _, p; plan_att := att; plan_free := free |} in
  let frees := λ set es, foldl (λ set e, set ∪ Expr.free (H := plan) e) set es in
  match p with
  | LScan _ _ _ => ∅
  | LIndexScan _ _ _ _ key_values => frees ∅ key_values
  | LDelete _ src => free src
  | LUpdate _ src _ => free src
  | LSelect src predicates => frees (free src) predicates ∖ att src
  | LJoin _ l r predicates => frees (free l ∪ free r) predicates ∖ (att l ∪ att r)
  | LProject src cols => (free src ∪ list_to_set cols) ∖ att src
  | LOrderBy src cols => (free src ∪ list_to_set cols.*1.*1) ∖ att src
  | LAggregate src group_by aggrs => (free src ∪ list_to_set group_by ∪ list_to_set aggrs.*2.*1) ∖ att src
  | LMap input exprs => foldl (λ set e, set ∪ Expr.free (H := plan) e.2) (free input) exprs ∖ att input
  | LFlatMap input func => (free input ∪ free func) ∖ att input
  | LRename src _ => free src
  end.

Fixpoint replace_variables (p : LogicalRelExpr) (m : gmap Z Z) : LogicalRelExpr :=
  let plan := {| plan_replace_variables := replace_variables; plan_att := att; plan_free := free |} in
  let rexpr := λ e, Expr.replace_variables (H := plan) e m in
  match p with
  | LScan cid name cols => LScan cid name (renamed m <$> cols)
  | LIndexScan cid name cols index_id key_values => LIndexScan cid name (renamed m <$> cols) index_id key_values
  | LDelete table_id src => LDelete table_id (replace_variables src m)
  | LUpdate table_id src assignments => LUpdate table_id (replace_variables src m) assignments
  | LSelect src predicates => LSelect (replace_variables src m) (map rexpr predicates)
  | LJoin jt l r predicates => LJoin jt (replace_variables l m) (replace_variables r m) (map rexpr predicates)
  | LProject src cols => LProject (replace_variables src m) (renamed m <$> cols)
  | LOrderBy src cols =>
      LOrderBy (replace_variables src m) ((λ '(id, asc, nulls_first), (renamed m id, asc, nulls_first)) <$> cols)
  | LAggregate src group_by aggrs =>
      LAggregate (replace_variables src m) (renamed m <$> group_by)
        ((λ '(id, (src_id, op)), (renamed m id, (renamed m src_id, op))) <$> aggrs)
  | LMap input exprs => LMap (replace_variables input m) (map (λ '(id, e), (renamed m id, rexpr e)) exprs)
  | LFlatMap input func => LFlatMap (replace_variables input m) (replace_variables func m)
  | LRename src column_mappings => LRename (replace_variables src m) (Phys.rename_map column_mappings m)
  end.
End Log.

#[global] Instance Log_plan : Plan LogicalRelExpr := {|
  plan_replace_variables := Log.replace_variables;
  plan_att := Log.att;
  plan_free := Log.free
|}.
Abbreviation LExpr := (Expression LogicalRelExpr).

(** ** Physical plans of logical plans *)

(** [Expression::to_physical_expression], where [plan] translates subqueries. *)
Fixpoint to_physical_expression (plan : LogicalRelExpr → PhysicalRelExpr) (e : LExpr) : Expression PhysicalRelExpr :=
  match e with
  | ColRef id => Expr.col_ref id
  | EField val => EField val
  | Binary op l r => Expr.binary op (to_physical_expression plan l) (to_physical_expression plan r)
  | Case ex whens el =>
      Case (to_physical_expression plan ex)
        (map (λ '(e1, e2), (to_physical_expression plan e1, to_physical_expression plan e2)) whens)
        (to_physical_expression plan el)
  | Subquery p => Expr.subquery (plan p)
  end.

Definition is_eq {P} (e : Expression P) : bool := match e with Binary OpEq _ _ => true | _ => false end.

Fixpoint to_physical_plan (p : LogicalRelExpr) : PhysicalRelExpr :=
  let pexpr := to_physical_expression to_physical_plan in
  match p with
  | LScan cid name cols => PScan cid name cols None
  | LIndexScan cid name cols index_id key_values => PIndexScan cid name cols index_id (map pexpr key_values) None
  | LDelete table_id src => PDelete table_id (to_physical_plan src)
  | LUpdate table_id src assignments => PUpdate table_id (to_physical_plan src) assignments
  | LSelect src predicates => PSelect (to_physical_plan src) (map pexpr predicates) None
  | LJoin jt l r predicates =>
      let pred := Expr.combine_preds (map pexpr predicates) in
      if bool_decide (jt = Inner) && is_eq pred
      then PHashJoin jt (to_physical_plan l) (to_physical_plan r) [pred] None
      else PNestedLoopJoin jt (to_physical_plan l) (to_physical_plan r) [pred] None
  | LProject src cols => PProject (to_physical_plan src) cols None
  | LOrderBy src cols => PSort (to_physical_plan src) cols None
  | LAggregate src group_by aggrs => PHashAggregate (to_physical_plan src) group_by aggrs None
  | LMap input exprs => PMap (to_physical_plan input) (map (λ '(cid, e), (cid, pexpr e)) exprs) None
  | LFlatMap input func => PFlatMap (to_physical_plan input) (to_physical_plan func) None
  | LRename src src_to_dest => PRename (to_physical_plan src) src_to_dest None
  end.

(** ** Constructors *)

Module Build.
Section Rewrites.
Context (enabled_rules : RuleSet).

Definition scan (cid : Z) (table_name : list byte) (column_names : list Z) : LogicalRelExpr :=
  LScan cid table_name column_names.

Definition aggregate (p : LogicalRelExpr) (group_by : list Z) (aggrs : list (Z * (Z * AggOp))) : LogicalRelExpr :=
  LAggregate p group_by aggrs.

Definition split_all (predicates : list LExpr) : list LExpr := flat_map Expr.split_conjunction predicates.

(** [select], [join] and [map] with [optimize = false]. *)
Definition select_plain (p : LogicalRelExpr) (predicates : list LExpr) : LogicalRelExpr :=
  match predicates with [] => p | _ => LSelect p (split_all predicates) end.
Definition join_plain (jt : JoinType) (l r : LogicalRelExpr) (predicates : list LExpr) : LogicalRelExpr :=
  match predicates with [] => LJoin jt l r [] | _ => LJoin jt l r (split_all predicates) end.
Definition map_plain (p : LogicalRelExpr) (exprs : list (Z * LExpr)) : LogicalRelExpr :=
  match exprs with [] => p | _ => LMap p exprs end.

(** [Iterator::partition]. *)
Definition keep_if {A} (f : A → bool) (l : list A) : list A * list A :=
  (List.filter f l, List.filter (λ x, negb (f x)) l).

Definition frees (predicates : list LExpr) : gset Z := foldl (λ set e, set ∪ Expr.free e) ∅ predicates.

(** [join] with [optimize = true], where [select_left] and [select_right] are the
    optimizing selections on its two sides. *)
Definition join_with (select_left select_right : list LExpr → outcome LogicalRelExpr)
    (jt : JoinType) (l r : LogicalRelExpr) (predicates : list LExpr) : outcome LogicalRelExpr :=
  match predicates with
  | [] => Ret (LJoin jt l r [])
  | _ =>
      let predicates := split_all predicates in
      let '(push_down_to_left, keep) := keep_if (λ e, Expr.bound_by e l) predicates in
      let '(push_down_to_right, keep) := keep_if (λ e, Expr.bound_by e r) keep in
      if (match jt with Inner | LeftOuter | CrossType => true | _ => false end) &&
         negb (bool_decide (push_down_to_left = [] ∧ push_down_to_right = [])) then
        let is_inner := forallb (λ e, Expr.intersect_with e r) keep in
        let jt := if is_inner && bool_decide (jt = CrossType) then Inner else jt in
        l ← select_left push_down_to_left;
        r ← select_right push_down_to_right;
        Ret (join_plain jt l r keep)
      else
        let '(push_down, keep) := keep_if (λ e, Expr.bound_by e r) predicates in
        if (match jt with Inner | RightOuter | CrossType => true | _ => false end) &&
           negb (bool_decide (push_down = [])) then
          r ← select_right push_down;
          Ret (join_plain jt l r keep)
        else if bool_decide (jt = CrossType) then
          _ ← guard_or_panic (bool_decide (frees predicates ⊆ Log.att l ∪ Log.att r));
          Ret (join_plain Inner l r predicates)
        else Ret (LJoin jt l r predicates)
  end.

(** A predicate that is a column computed by the map becomes the expression of the
    column, when that is over the columns of the input. *)
Definition inline_columns (input : LogicalRelExpr) (exprs : list (Z * LExpr)) (predicates : list LExpr) : list LExpr :=
  foldl (λ preds '(dest_id, expr),
           map (λ pred : LExpr,
                  match pred with
                  | ColRef id => if (id =? dest_id) && Expr.bound_by expr input then expr else pred
                  | _ => pred
                  end) preds) predicates exprs.

(** [select] with [optimize = true]. *)
Fixpoint select_push (p : LogicalRelExpr) (predicates : list LExpr) : outcome LogicalRelExpr :=
  match predicates with
  | [] => Ret p
  | _ =>
      let predicates := split_all predicates in
      if Rules.is_enabled enabled_rules SelectionPushdown then
        match p with
        | LSelect src preds => select_push src (preds ++ predicates)
        | LJoin jt l r preds => join_with (select_push l) (select_push r) jt l r (preds ++ predicates)
        | LAggregate src group_by aggrs =>
            let '(push_down, keep) := keep_if (λ e, bool_decide (Expr.free e ⊆ list_to_set group_by)) predicates in
            src ← select_push src push_down;
            Ret (select_plain (aggregate src group_by aggrs) keep)
        | LMap input exprs =>
            let predicates := inline_columns input exprs predicates in
            let '(push_down, keep) := keep_if (λ e, bool_decide (Expr.free e ## list_to_set exprs.*1)) predicates in
            input ← select_push input push_down;
            Ret (select_plain (map_plain input exprs) keep)
        | _ => Ret (select_plain p predicates)
        end
      else Ret (LSelect p predicates)
  end.

Definition select (optimize : bool) (p : LogicalRelExpr) (predicates : list LExpr) : outcome LogicalRelExpr :=
  if optimize then select_push p predicates else Ret (select_plain p predicates).

Definition join (optimize : bool) (jt : JoinType) (l r : LogicalRelExpr) (predicates : list LExpr) :
  outcome LogicalRelExpr :=
  if optimize then join_with (select_push l) (select_push r) jt l r predicates
  else Ret (join_plain jt l r predicates).

(** Renaming a renaming composes the two. *)
Fixpoint rename_to (p : LogicalRelExpr) (src_to_dest : gmap Z Z) : LogicalRelExpr :=
  match p with
  | LRename src existing_rename => rename_to src (renamed src_to_dest <$> existing_rename)
  | _ => LRename p src_to_dest
  end.

(** Fresh columns for the columns of a plan. *)
Fixpoint fresh_columns (g : Z) (atts : list Z) : Z * gmap Z Z :=
  match atts with
  | [] => (g, ∅)
  | old_col_id :: atts =>
      let '(g, id) := ColIdGenerator.next g in
      let '(g, cols) := fresh_columns g atts in
      (g, <[old_col_id := id]> cols)
  end.

Definition rename (g : Z) (p : LogicalRelExpr) : Z * LogicalRelExpr * gmap Z Z :=
  let '(g, cols) := fresh_columns g (elements (Log.att p)) in
  (g, rename_to p cols, cols).

(** [union] and [intersect] of [project.rs]. *)
Definition union_cols (free : gset Z) (cols : list Z) : list Z :=
  cols ++ List.filter (λ f, negb (bool_decide (f ∈ cols))) (elements free).
Definition intersect_cols (att : gset Z) (cols : list Z) : list Z :=
  List.filter (λ c, bool_decide (c ∈ att)) cols.

(** [Vec::swap_remove], at a position within the vector. *)
Definition swap_remove {A} (l : list A) (i : nat) : list A :=
  match last l with
  | Some x => if bool_decide (S i = length l) then take i l else <[i := x]> (take (length l - 1) l)
  | None => l
  end.

(** The first computed column that has a subquery. *)
Fixpoint find_subquery (i : nat) (exprs : list (Z * LExpr)) : option (nat * (Z * LExpr)) :=
  match exprs with
  | [] => None
  | x :: exprs => if Expr.has_subquery x.2 then Some (i, x) else find_subquery (S i) exprs
  end.

(** The columns of a map on top of the columns of a map. *)
Fixpoint merge_exprs (existing_exprs exprs : list (Z * LExpr)) : list (Z * LExpr) :=
  match exprs with
  | [] => existing_exprs
  | (dest, expr) :: exprs =>
      let m := foldl (λ m '(id, e), <[id := e]> m) (∅ : gmap Z LExpr) existing_exprs in
      merge_exprs (existing_exprs ++ [(dest, Expr.replace_variables_with_exprs expr m)]) exprs
  end.

Definition no_subqueries (exprs : list (Z * LExpr)) : bool := forallb (λ e, negb (Expr.has_subquery e.2)) exprs.

(** [map], [hoist], [flatmap] and [project] with [optimize = true]; [g] is the counter of
    fresh column ids. *)
Fixpoint map_push (fuel : nat) (g : Z) (p : LogicalRelExpr) (exprs : list (Z * LExpr)) {struct fuel} :
  outcome (Z * LogicalRelExpr) :=
  match fuel with
  | O => Panic
  | S fuel =>
      match exprs with
      | [] => Ret (g, p)
      | _ =>
          match (if Rules.is_enabled enabled_rules Hoist then find_subquery 0 exprs else None) with
          | Some (i, (id, expr)) =>
              '(g, p) ← map_push fuel g p (swap_remove exprs i);
              hoist fuel g p id expr
          | None =>
              match p with
              | LMap input existing_exprs =>
                  _ ← guard_or_panic (no_subqueries existing_exprs && no_subqueries exprs);
                  map_push fuel g input (merge_exprs existing_exprs exprs)
              | _ => Ret (g, map_plain p exprs)
              end
          end
      end
  end
with hoist (fuel : nat) (g : Z) (p : LogicalRelExpr) (id : Z) (expr : LExpr) {struct fuel} :
  outcome (Z * LogicalRelExpr) :=
  match fuel with
  | O => Panic
  | S fuel =>
      match expr with
      | Subquery q =>
          match elements (Log.att q) with
          | [input_col_id] =>
              '(g, rhs) ← map_push fuel g q [(id, Expr.col_ref input_col_id)];
              flatmap_push fuel g p rhs
          | _ => Panic
          end
      | Binary op l r =>
          let '(g, lhs_id) := ColIdGenerator.next g in
          let '(g, rhs_id) := ColIdGenerator.next g in
          '(g, q) ← hoist fuel g p lhs_id l;
          '(g, q) ← hoist fuel g q rhs_id r;
          '(g, q) ← map_push fuel g q [(id, Binary op (Expr.col_ref lhs_id) (Expr.col_ref rhs_id))];
          project_push fuel g q (elements (Log.att p) ++ [id])
      | EField _ | ColRef _ => map_push fuel g p [(id, expr)]
      | Case _ _ _ => Panic
      end
  end
with flatmap_push (fuel : nat) (g : Z) (p func : LogicalRelExpr) {struct fuel} : outcome (Z * LogicalRelExpr) :=
  match fuel with
  | O => Panic
  | S fuel =>
      if negb (Rules.is_enabled enabled_rules Decorrelate) then Ret (g, LFlatMap p func)
      else if bool_decide (Log.free func = ∅) then q ← join true CrossType p func []; Ret (g, q)
      else
        match func with
        | LProject src _ => flatmap_push fuel g p src
        | LMap input exprs =>
            '(g, q) ← flatmap_push fuel g p input;
            map_push fuel g q exprs
        | LSelect src predicates =>
            '(g, q) ← flatmap_push fuel g p src;
            q ← select true q predicates;
            Ret (g, q)
        | LAggregate src group_by aggrs =>
            match (List.filter (λ a : Z * (Z * AggOp), bool_decide (a.2.2 = Count)) aggrs).*1 with
            | [] =>
                '(g, q) ← flatmap_push fuel g p src;
                Ret (g, aggregate q (elements (list_to_set group_by ∪ Log.att p : gset Z)) aggrs)
            | counts =>
                let '(g, copy, new_col_ids) := rename g p in
                let copy_att := Log.att copy in
                let src := Log.replace_variables src new_col_ids in
                '(g, q) ← flatmap_push fuel g copy src;
                let copy := aggregate q (group_by ++ elements copy_att) aggrs in
                plan ← join true LeftOuter p copy
                         (map (λ '(src, dest), Expr.eq (Expr.col_ref src) (Expr.col_ref dest)) (map_to_list new_col_ids));
                '(g, plan) ← project_push fuel g plan (elements (Log.att plan ∖ copy_att));
                map_push fuel g plan
                  (map (λ id, (id, Case (Expr.col_ref id) [(EField Null, Expr.int 0)] (Expr.col_ref id))) counts)
            end
        | _ => Ret (g, LFlatMap p func)
        end
  end
with project_push (fuel : nat) (g : Z) (p : LogicalRelExpr) (cols : list Z) {struct fuel} :
  outcome (Z * LogicalRelExpr) :=
  match fuel with
  | O => Panic
  | S fuel =>
      let outer_refs := Log.free p in
      if Rules.is_enabled enabled_rules ProjectionPushdown then
        match p with
        | LProject src _ => project_push fuel g src cols
        | LMap input existing_exprs =>
            let existing_exprs := List.filter (λ e : Z * LExpr, bool_decide (e.1 ∈ cols)) existing_exprs in
            let free := frees existing_exprs.*2 ∖ outer_refs in
            let new_cols := List.filter (λ c, negb (bool_decide (c ∈ existing_exprs.*1))) (union_cols free cols) in
            '(g, q) ← project_push fuel g input new_cols;
            '(g, q) ← map_push fuel g q existing_exprs;
            Ret (g, LProject q cols)
        | LSelect src predicates =>
            '(g, q) ← project_push fuel g src (union_cols (frees predicates) cols);
            q ← select true q predicates;
            Ret (g, LProject q cols)
        | LJoin jt l r predicates =>
            let new_cols := union_cols (frees predicates) cols in
            '(g, l') ← project_push fuel g l (intersect_cols (Log.att l) new_cols);
            '(g, r') ← project_push fuel g r (intersect_cols (Log.att r) new_cols);
            q ← join true jt l' r' predicates;
            Ret (g, LProject q cols)
        | LRename src existing_rename =>
            let existing_rename := filter (λ x : Z * Z, x.2 ∈ cols) existing_rename in
            let rev := foldl (λ m '(src, dest), <[dest := src]> m) (∅ : gmap Z Z) (map_to_list existing_rename) in
            '(g, q) ← project_push fuel g src (renamed rev <$> cols);
            Ret (g, rename_to q existing_rename)
        | LScan cid table_name column_names =>
            Ret (g, scan cid table_name (List.filter (λ c, bool_decide (c ∈ cols)) column_names))
        | _ => Ret (g, LProject p cols)
        end
      else Ret (g, LProject p cols)
  end.

Definition map (fuel : nat) (optimize : bool) (g : Z) (p : LogicalRelExpr) (exprs : list (Z * LExpr)) :
  outcome (Z * LogicalRelExpr) :=
  if optimize then map_push fuel g p exprs else Ret (g, map_plain p exprs).

Definition flatmap (fuel : nat) (optimize : bool) (g : Z) (p func : LogicalRelExpr) : outcome (Z * LogicalRelExpr) :=
  if optimize then flatmap_push fuel g p func else Ret (g, LFlatMap p func).

Definition project (fuel : nat) (optimize : bool) (g : Z) (p : LogicalRelExpr) (cols : list Z) (is_wildcard : bool) :
  outcome (Z * LogicalRelExpr) :=
  if is_wildcard then Ret (g, p)
  else if optimize then project_push fuel g p cols else Ret (g, LProject p cols).
End Rewrites.
End Build.
