(* ===== verification/Translate.v ===== *)
(** * From SQL to logical plans

    Models [queryexe/src/query/translate_and_validate.rs] and
    [common/src/query/origin_expr.rs]: names are resolved in nested environments to column
    ids, every table gets fresh column ids, and the clauses of a query become logical plans
    by the optimizing constructors.

    The state of the translator is its environment, innermost scope first, and the counter of
    column ids; it is kept when an error is returned, because the code tries a second time
    with another scope. Error messages are left out. [fuel] bounds the constructors of plans,
    the depth of subqueries and the search for the origin of a column. What the standard
    library takes from the tables of Unicode is a parameter, as is the calendar. *)

From stdpp Require Import strings gmap.
From S2P Require Import Prelude Common Field FieldCodec Tuple ByteCode Expr OpAggregate.
From S2P Require Import PhysicalPlan.
From S2P Require Import DbCatalog Logical SqlAst.

Open Scope Z_scope.

(** ** Origins of columns *)

Inductive OriginExpression :=
  | BaseCidAndIndex (cid index : Z)
  | DerivedColRef (col_id : Z)
  | OField (val : Field)
  | OBinary (op : BinaryOp) (left right : OriginExpression)
  | OCase (expr : OriginExpression) (whens : list (OriginExpression * OriginExpression)) (else_expr : OriginExpression).

Module Origin.
(** [From<Expression<P>>]; a subquery is not supported. *)
Fixpoint of_expression {P} (e : Expression P) : outcome OriginExpression :=
  match e with
  | ColRef id => Ret (DerivedColRef id)
  | EField val => Ret (OField val)
  | Binary op l r => l ← of_expression l; r ← of_expression r; Ret (OBinary op l r)
  | Case e whens els =>
      e ← of_expression e;
      ws ← (fix go ws := match ws with
                         | [] => Ret []
                         | (w, t) :: ws =>
                             w ← of_expression w; t ← of_expression t; ws ← go ws; Ret ((w, t) :: ws)
                         end) whens;
      els ← of_expression els;
      Ret (OCase e ws els)
  | Subquery _ => Panic
  end.

(** [From<OriginExpression> for Expression<PhysicalRelExpr>]. *)
Fixpoint to_expression (o : OriginExpression) : outcome (Expression PhysicalRelExpr) :=
  match o with
  | BaseCidAndIndex _ index => Ret (ColRef index)
  | OField val => Ret (EField val)
  | OBinary op l r => l ← to_expression l; r ← to_expression r; Ret (Binary op l r)
  | OCase e whens els =>
      e ← to_expression e;
      ws ← (fix go ws := match ws with
                         | [] => Ret []
                         | (w, t) :: ws =>
                             w ← to_expression w; t ← to_expression t; ws ← go ws; Ret ((w, t) :: ws)
                         end) whens;
      els ← to_expression els;
      Ret (Case e ws els)
  | DerivedColRef _ => Panic
  end.

Fixpoint get_base_ids_and_index (o : OriginExpression) : outcome (list (Z * Z)) :=
  match o with
  | BaseCidAndIndex cid index => Ret [(cid, index)]
  | OField _ => Ret []
  | OBinary _ l r => a ← get_base_ids_and_index l; b ← get_base_ids_and_index r; Ret (a ++ b)
  | OCase e whens els =>
      a ← get_base_ids_and_index e;
      b ← (fix go ws := match ws with
                        | [] => Ret []
                        | (w, t) :: ws =>
                            x ← get_base_ids_and_index w; y ← get_base_ids_and_index t; z ← go ws; Ret (x ++ y ++ z)
                        end) whens;
      c ← get_base_ids_and_index els;
      Ret (a ++ b ++ c)
  | DerivedColRef _ => Panic
  end.
End Origin.

(** ** Names *)

Fixpoint join_dot (parts : list (list byte)) : list byte :=
  match parts with
  | [] => []
  | [p] => p
  | p :: parts => p ++ Byte.x2e :: join_dot parts
  end.
(** [format!("{}.{}", a, b)]. *)
Definition dotted (a b : list byte) : list byte := a ++ Byte.x2e :: b.

Definition get_name (name : ObjectName) : outcome (result CrustyError (list byte)) :=
  if 1 <? zlen name then Ret (Err (CrustyErr "Error no . names supported"))
  else n ← unwrap (head name); Ret (Ok n).

Definition get_table_name (name : ObjectName) : list byte := join_dot name.

Definition get_attr (dtype : SqlDataType) : result CrustyError DataType :=
  match dtype with
  | SqlInt | SqlInteger => Ok TBigInt
  | SqlVarchar => Ok TString
  | SqlChar => Ok TString
  | SqlDate => Ok TDate
  | SqlDecimal (PrecisionAndScale p s) => Ok (TDecimal (cast 32 p) (cast 32 s))
  | SqlDecimal (Precision p) => Ok (TDecimal (cast 32 p) default_decimal_scale)
  | SqlDecimal NoNumberInfo => Ok (TDecimal default_decimal_precision default_decimal_scale)
  | OtherDataType => Err (CrustyErr "Unsupported data type")
  end.

(** ** Scans at the bottom of a plan *)

Fixpoint find_scan_cid (p : LogicalRelExpr) : option Z :=
  match p with
  | LScan cid _ _ => Some cid
  | LRename src _ => find_scan_cid src
  | _ => None
  end.

Fixpoint replace_scan_with_index (p : LogicalRelExpr) (index_id : Z) (key_values : list LExpr) : LogicalRelExpr :=
  match p with
  | LScan cid table_name column_names => LIndexScan cid table_name column_names index_id key_values
  | LRename src src_to_dest => LRename (replace_scan_with_index src index_id key_values) src_to_dest
  | other => other
  end.

(** ** Environments *)

(** One [Environment]; the outer ones follow it in the list. *)
Record Scope := mkScope {
  columns : gmap (list byte) Z;
  id_to_origin : gmap Z OriginExpression
}.
Definition empty_scope : Scope := mkScope ∅ ∅.

Module Env.
Fixpoint get (env : list Scope) (name : list byte) : option Z :=
  match env with
  | [] => None
  | sc :: outer => match columns sc !! name with Some index => Some index | None => get outer name end
  end.

Fixpoint get_at (env : list Scope) (distance : nat) (name : list byte) : option Z :=
  match env with
  | [] => None
  | sc :: outer => match distance with O => columns sc !! name | S distance => get_at outer distance name end
  end.

Definition set (env : list Scope) (name : list byte) (index : Z) : list Scope :=
  match env with
  | [] => []
  | sc :: outer => mkScope (<[name := index]> (columns sc)) (id_to_origin sc) :: outer
  end.

Definition add_to_origin_map (env : list Scope) (col_id : Z) (origin : OriginExpression) : list Scope :=
  match env with
  | [] => []
  | sc :: outer => mkScope (columns sc) (<[col_id := origin]> (id_to_origin sc)) :: outer
  end.

(** In the order of the hash map, which is unspecified. *)
Definition get_names (sc : Scope) (col_id : Z) : list (list byte) :=
  (filter (λ x : list byte * Z, x.2 = col_id) (map_to_list (columns sc))).*1.

(** The column that one of the names has in the catalog, if it is [table.column]. *)
Fixpoint named_origin (catalog : Catalog) (names : list (list byte)) : outcome (option OriginExpression) :=
  match names with
  | [] => Ret None
  | name :: names =>
      match split_dot name with
      | [table_name; col_name] =>
          match Cat.get_table_id_if_exists catalog table_name with
          | Some cid =>
              table ← unwrap (Cat.get_table catalog cid);
              match Schema.get_field_index (ti_table_schema table) col_name with
              | Some i => Ret (Some (BaseCidAndIndex cid i))
              | None => named_origin catalog names
              end
          | None => named_origin catalog names
          end
      | _ => named_origin catalog names
      end
  end.

Fixpoint get_origin (fuel : nat) (catalog : Catalog) (env : list Scope) (expr : OriginExpression) :
  outcome OriginExpression :=
  match fuel with
  | O => Panic
  | S fuel =>
      match expr with
      | BaseCidAndIndex _ _ => Ret expr
      | DerivedColRef col_id =>
          match env with
          | [] => Panic
          | sc :: outer =>
              match id_to_origin sc !! col_id with
              | Some derived => get_origin fuel catalog env derived
              | None =>
                  o ← named_origin catalog (get_names sc col_id);
                  match o with
                  | Some origin => Ret origin
                  | None => get_origin fuel catalog outer expr
                  end
              end
          end
      | OField _ => Ret expr
      | OBinary op l r =>
          l ← get_origin fuel catalog env l; r ← get_origin fuel catalog env r; Ret (OBinary op l r)
      | OCase e whens els =>
          e ← get_origin fuel catalog env e;
          ws ← (fix go ws := match ws with
                             | [] => Ret []
                             | (w, t) :: ws =>
                                 w ← get_origin fuel catalog env w; t ← get_origin fuel catalog env t;
                                 ws ← go ws; Ret ((w, t) :: ws)
                             end) whens;
          els ← get_origin fuel catalog env els;
          Ret (OCase e ws els)
      end
  end.
End Env.

(** ** Text *)

(** The tables of Unicode, for characters outside of ASCII. *)
Class Unicode := {
  is_alphanumeric : list byte → bool;
  char_to_uppercase : list byte → list byte
}.

(** [str::chars], each character as its bytes. *)
Fixpoint chars (s : list byte) : list (list byte) :=
  match s with
  | [] => []
  | b :: s =>
      match chars s with
      | (c :: cs) :: rest => if tail_byte c then (b :: c :: cs) :: rest else [b] :: (c :: cs) :: rest
      | rest => [b] :: rest
      end
  end.

Definition ascii_alphanumeric (b : byte) : bool :=
  byte_in 48 57 b || byte_in 65 90 b || byte_in 97 122 b.

Definition is_valid_alias `{Unicode} (alias : list byte) : bool :=
  forallb (λ c, match c with
                | [b] => if byte_in 0 127 b then ascii_alphanumeric b || bool_decide (b = Byte.x5f) else is_alphanumeric c
                | _ => is_alphanumeric c
                end) (chars alias).

(** [str::to_uppercase]. *)
Definition to_uppercase `{Unicode} (s : list byte) : list byte :=
  flat_map (λ c, match c with
                 | [b] => if byte_in 97 122 b then [byte.of_Z (byte.unsigned b - 32)]
                          else if byte_in 0 127 b then [b] else char_to_uppercase c
                 | _ => char_to_uppercase c
                 end) (chars s).

Definition agg_op_of (name : list byte) : option AggOp :=
  if bool_decide (name = str "COUNT") then Some Count
  else if bool_decide (name = str "SUM") then Some Sum
  else if bool_decide (name = str "AVG") then Some Avg
  else if bool_decide (name = str "MIN") then Some Min
  else if bool_decide (name = str "MAX") then Some Max
  else None.

Fixpoint has_agg `{Unicode} (expr : SqlExpr) : outcome bool :=
  match expr with
  | Identifier _ | CompoundIdentifier _ | ExprValue _ | TypedString _ _ => Ret false
  | BinaryOpExpr l _ r => a ← has_agg l; if a : bool then Ret true else has_agg r
  | FunctionExpr name _ => Ret (bool_decide (is_Some (agg_op_of (to_uppercase (get_table_name name)))))
  | NestedExpr e => has_agg e
  | _ => Panic
  end.

Definition binary_op (op : BinaryOperator) : option BinaryOp :=
  match op with
  | SqlAnd => Some OpAnd
  | SqlOr => Some OpOr
  | SqlPlus => Some OpAdd
  | SqlMinus => Some OpSub
  | SqlMultiply => Some OpMul
  | SqlDivide => Some OpDiv
  | SqlEq => Some OpEq
  | SqlNotEq => Some OpNeq
  | SqlLt => Some OpLt
  | SqlGt => Some OpGt
  | SqlLtEq => Some OpLe
  | SqlGtEq => Some OpGe
  | OtherOperator => None
  end.

(** ** The translator *)

Inductive TranslatorError := ColumnNotFound | TableNotFound | InvalidSQL | UnsupportedSQL.

(** [Query]: the environment of the translator, and the plan. *)
Record Query := mkQuery { query_env : list Scope; query_plan : LogicalRelExpr }.

(** The environment and the counter of column ids. *)
Record tstate := mkTstate { env : list Scope; col_id_gen : Z }.

Abbreviation TM := (SE tstate TranslatorError).

Definition ask {A} (f : list Scope → outcome A) : TM A := λ st, x ← f (env st); Ret (st, Ok x).
Definition update_env (f : list Scope → list Scope) : TM unit := λ st,
  Ret (mkTstate (f (env st)) (col_id_gen st), Ok ()).
(** Code that only draws column ids. *)
Definition with_ids {A} (f : Z → outcome (Z * A)) : TM A := λ st,
  '(g, x) ← f (col_id_gen st); Ret (mkTstate (env st) g, Ok x).
(** [Translator::new_with_outer]: a translator with a scope of its own, that draws from the
    same counter. *)
Definition in_new_scope {A} (m : TM A) : TM A := λ st,
  '(st, r) ← m (mkTstate (empty_scope :: env st) (col_id_gen st));
  Ret (mkTstate (tail (env st)) (col_id_gen st), r).

Module Translator.
Section Translation.
Context `{Unicode} (parse_date : list byte → option Z).
Context (catalog : Catalog) (enabled_rules : RuleSet) (fuel : nat).

Definition next_id : TM Z := with_ids (λ g, Ret (ColIdGenerator.next g)).
Definition set (name : list byte) (index : Z) : TM unit := update_env (λ env, Env.set env name index).
Definition add_to_origin_map (col_id : Z) (e : LExpr) : TM unit :=
  o ← lift (Origin.of_expression e);
  update_env (λ env, Env.add_to_origin_map env col_id o).

(** The constructors of plans, with [optimize = true]. *)
Definition plan_map (p : LogicalRelExpr) (exprs : list (Z * LExpr)) : TM LogicalRelExpr :=
  with_ids (λ g, Build.map enabled_rules fuel true g p exprs).
Definition plan_flatmap (p func : LogicalRelExpr) : TM LogicalRelExpr :=
  with_ids (λ g, Build.flatmap enabled_rules fuel true g p func).
Definition plan_project (p : LogicalRelExpr) (cols : list Z) (is_wildcard : bool) : TM LogicalRelExpr :=
  with_ids (λ g, Build.project enabled_rules fuel true g p cols is_wildcard).
Definition plan_select (p : LogicalRelExpr) (predicates : list LExpr) : TM LogicalRelExpr :=
  lift (Build.select enabled_rules true p predicates).
Definition plan_join (jt : JoinType) (p q : LogicalRelExpr) (predicates : list LExpr) : TM LogicalRelExpr :=
  lift (Build.join enabled_rules true jt p q predicates).

(** The column a name stands for: [get_at] in the scope at a distance, or [get] in all. *)
Definition lookup_column (name : list byte) (distance : option nat) : TM LExpr :=
  id ← ask (λ env, Ret (match distance with Some d => Env.get_at env d name | None => Env.get env name end));
  id ← some_or id ColumnNotFound;
  mret (Expr.col_ref id).

Definition process_value (value : SqlValue) : TM LExpr :=
  match value with
  | Number num _ => n ← lift (unwrap (parse_i64 num)); mret (Expr.int n)
  | SingleQuotedString s | DoubleQuotedString s => mret (EField (FString s))
  | SqlBoolean b => mret (EField (FBool b))
  | SqlNull => mret (EField Null)
  | OtherValue => throw UnsupportedSQL
  end.

(** [map_err] with an error of kind [InvalidSQL]. *)
Definition or_invalid {A} (r : outcome (result CrustyError A)) : TM A :=
  r ← lift r;
  match r with Ok x => mret x | Err _ => throw InvalidSQL end.

Definition process_typed_string (data_type : SqlDataType) (value : list byte) : TM LExpr :=
  dtype ← lift (match get_attr data_type with Ok t => Ret t | Err _ => Panic end);
  match dtype with
  | TBigInt | TSmallInt | TInt => n ← some_or (parse_i64 value) InvalidSQL; mret (Expr.int n)
  | TChar i => f ← or_invalid (Ret (from_str_to_char value i)); mret (EField f)
  | TString => f ← or_invalid (Ret (from_str_to_string value)); mret (EField f)
  | TBool => f ← or_invalid (Ret (from_str_to_bool value)); mret (EField f)
  | TNull => mret (EField Null)
  | TDate => f ← or_invalid (Ret (from_str_to_date parse_date value)); mret (EField f)
  | TDecimal precision scale => f ← or_invalid (from_str_to_decimal value precision scale); mret (EField f)
  end.

(** [process_query] of a nested translator. *)
Context (process_subquery : SqlQuery → TM Query).

Definition process_exists (subquery : SqlQuery) (negated : bool) : TM LExpr :=
  subquery ← in_new_scope (process_subquery subquery);
  let plan := query_plan subquery in
  col_id1 ← next_id;
  let col1_expr : LExpr := Expr.int 1 in
  _ ← add_to_origin_map col_id1 col1_expr;
  plan ← plan_map plan [(col_id1, col1_expr)];
  col_id2 ← next_id;
  let plan := Build.aggregate plan [] [(col_id2, (col_id1, Count))] in
  let exists_expr : LExpr :=
    if negated then Expr.binary OpLe (Expr.col_ref col_id2) (Expr.int 0)
    else Expr.binary OpGt (Expr.col_ref col_id2) (Expr.int 0) in
  col_id3 ← next_id;
  _ ← add_to_origin_map col_id3 exists_expr;
  plan ← plan_map plan [(col_id3, exists_expr)];
  plan ← plan_project plan [col_id3] false;
  mret (Expr.subquery plan).

Fixpoint process_expr (expr : SqlExpr) (distance : option nat) : TM LExpr :=
  match expr with
  | Identifier ident => lookup_column ident distance
  | CompoundIdentifier idents => lookup_column (join_dot idents) distance
  | BinaryOpExpr l op r =>
      l ← process_expr l distance;
      r ← process_expr r distance;
      op ← some_or (binary_op op) UnsupportedSQL;
      mret (Expr.binary op l r)
  | ExprValue value => process_value value
  | ExistsExpr subquery negated => process_exists subquery negated
  | TypedString data_type value => process_typed_string data_type value
  | NestedExpr expr => process_expr expr distance
  | _ => throw UnsupportedSQL
  end.

(** *** FROM *)

Definition check_alias (alias : TableAlias) : TM unit :=
  if is_valid_alias (alias_name alias) then mret () else throw InvalidSQL.

(** The names of column [i] of a table, whose fresh id is in [new_col_ids]. *)
Definition name_column (cid : Z) (table_name : list byte) (alias : option TableAlias) (cols : list (list byte * Z))
    (new_col_ids : gmap Z Z) (i : Z) : TM unit :=
  new_col_id ← lift (unwrap (new_col_ids !! i));
  '(col_name, _) ← lift (unwrap (List.find (λ c : list byte * Z, c.2 =? i) cols));
  _ ← set col_name new_col_id;
  _ ← set (dotted table_name col_name) new_col_id;
  _ ← update_env (λ env, Env.add_to_origin_map env new_col_id
                           (BaseCidAndIndex cid (get_column_index_from_temp_col_id i)));
  match alias with
  | Some alias => _ ← check_alias alias; set (dotted (alias_display alias) col_name) new_col_id
  | None => mret ()
  end.

(** The names that column [i] has in the subquery, here. *)
Definition name_derived (subquery_scope : Scope) (alias : option TableAlias) (i : Z) : TM unit :=
  let names := Env.get_names subquery_scope i in
  _ ← loop (λ _ name, set name i) () names;
  match alias with
  | Some alias => _ ← check_alias alias; loop (λ _ name, set (dotted (alias_display alias) name) i) () names
  | None => mret ()
  end.

Definition process_table_factor (table_factor : TableFactor) : TM (LogicalRelExpr * bool) :=
  match table_factor with
  | TableRef name alias =>
      let table_name := get_table_name name in
      match Cat.get_table_id_if_exists catalog table_name with
      | Some cid =>
          cols ← lift (Cat.get_cols catalog table_name);
          let plan := Build.scan cid table_name cols.*2 in
          let att := Log.att plan in
          '(plan, new_col_ids) ← with_ids (λ g, let '(g, plan, ids) := Build.rename g plan in Ret (g, (plan, ids)));
          _ ← loop (λ _ i, name_column cid table_name alias cols new_col_ids i) () (elements att);
          mret (plan, false)
      | None => throw TableNotFound
      end
  | Derived subquery alias =>
      subquery ← in_new_scope (process_subquery subquery);
      let plan := query_plan subquery in
      scope ← lift (unwrap (head (query_env subquery)));
      _ ← loop (λ _ i, name_derived scope alias i) () (elements (Log.att plan));
      mret (plan, true)
  | OtherFactor => throw UnsupportedSQL
  end.

Definition process_join_operator (join_operator : JoinOperator) : TM (JoinType * option LExpr) :=
  match join_operator with
  | InnerOn cond => e ← process_expr cond None; mret (Inner, Some e)
  | LeftOuterOn cond => e ← process_expr cond None; mret (LeftOuter, Some e)
  | RightOuterOn cond => e ← process_expr cond None; mret (RightOuter, Some e)
  | FullOuterOn cond => e ← process_expr cond None; mret (FullOuter, Some e)
  | CrossJoinOp => mret (CrossType, None)
  | OtherJoin => throw UnsupportedSQL
  end.

Definition process_join (plan : LogicalRelExpr) (j : SqlJoin) : TM LogicalRelExpr :=
  let '(mkSqlJoin relation join_operator) := j in
  '(right_plan, is_subquery) ← process_table_factor relation;
  '(join_type, condition) ← process_join_operator join_operator;
  let conditions := option_list condition in
  if is_subquery : bool then
    match join_type with
    | LeftOuter | RightOuter | FullOuter => throw UnsupportedSQL
    | _ => plan ← plan_flatmap plan right_plan; plan_select plan conditions
    end
  else plan_join join_type plan right_plan conditions.

Definition process_table_with_joins (t : TableWithJoins) : TM (LogicalRelExpr * bool) :=
  let '(mkTableWithJoins relation joins) := t in
  '(plan, is_sbqry) ← process_table_factor relation;
  plan ← loop process_join plan joins;
  mret (plan, is_sbqry).

Definition process_from (from : list TableWithJoins) : TM LogicalRelExpr :=
  match from with
  | [] => throw InvalidSQL
  | _ =>
      join_exprs ← loop (λ l t, j ← process_table_with_joins t; mret (l ++ [j])) [] from;
      '(plan, _) ← lift (unwrap (head join_exprs));
      loop (λ plan '(join_expr, is_subquery),
              if is_subquery : bool then plan_flatmap plan join_expr
              else plan_join CrossType plan join_expr []) plan (tail join_exprs)
  end.

(** *** WHERE *)

(** [column = literal], in either order. *)
Definition column_literal (conjunct : LExpr) : option (Z * Field) :=
  match conjunct with
  | Binary OpEq (ColRef id) (EField val) => Some (id, val)
  | Binary OpEq (EField val) (ColRef id) => Some (id, val)
  | _ => None
  end.

(** The columns of table [scan_cid] that a conjunct fixes, with the value and the conjunct. *)
Fixpoint resolve (scopes : list Scope) (scan_cid : Z) (i : nat) (conjuncts : list LExpr)
    (resolved : gmap Z (Field * nat)) : outcome (gmap Z (Field * nat)) :=
  match conjuncts with
  | [] => Ret resolved
  | conjunct :: conjuncts =>
      resolved ←
        match column_literal conjunct with
        | Some (col_id, val) =>
            origin ← Env.get_origin fuel catalog scopes (DerivedColRef col_id);
            match origin with
            | BaseCidAndIndex cid index => Ret (if cid =? scan_cid then <[index := (val, i)]> resolved else resolved)
            | _ => Ret resolved
            end
        | None => Ret resolved
        end;
      resolve scopes scan_cid (S i) conjuncts resolved
  end.

(** The values of the columns of an index, and the conjuncts they come from, when all of
    them are fixed. *)
Definition index_key (resolved : gmap Z (Field * nat)) (info : IndexInfo) : option (list (Field * nat)) :=
  mapM (λ col, resolved !! col) (ii_columns info).

Fixpoint first_index (resolved : gmap Z (Field * nat)) (infos : list IndexInfo) :
  option (IndexInfo * list (Field * nat)) :=
  match infos with
  | [] => None
  | info :: infos =>
      match index_key resolved info with Some key => Some (info, key) | None => first_index resolved infos end
  end.

Definition try_index_rewrite (scopes : list Scope) (plan : LogicalRelExpr) (conjuncts : list LExpr) :
  outcome (LogicalRelExpr * list LExpr) :=
  match find_scan_cid plan with
  | None => Ret (plan, conjuncts)
  | Some scan_cid =>
      resolved ← resolve scopes scan_cid 0 conjuncts ∅;
      if bool_decide (resolved = ∅) then Ret (plan, conjuncts) else
      match first_index resolved (Cat.get_indexes_for_table catalog scan_cid) with
      | Some (info, key) =>
          let residual := (List.filter (λ x : nat * LExpr, negb (bool_decide (x.1 ∈ key.*2))) (imap pair conjuncts)).*2 in
          Ret (replace_scan_with_index plan (ii_index_id info) (EField <$> key.*1), residual)
      | None => Ret (plan, conjuncts)
      end
  end.

Definition process_where (plan : LogicalRelExpr) (where_clause : option SqlExpr) : TM LogicalRelExpr :=
  match where_clause with
  | None => mret plan
  | Some expr =>
      r ← attempt (process_expr expr (Some O));
      match r with
      | Ok (Subquery q) =>
          _ ← lift (guard_or_panic (bool_decide (size (Log.att q) = 1%nat)));
          col_id ← next_id;
          plan ← plan_map plan [(col_id, Expr.subquery q)];
          _ ← add_to_origin_map col_id (Expr.subquery q);
          plan_select plan [Expr.col_ref col_id]
      | Ok e =>
          let conjuncts := Expr.split_conjunction e in
          '(new_plan, residual) ← ask (λ scopes, try_index_rewrite scopes plan conjuncts);
          plan_select new_plan residual
      | Err ColumnNotFound =>
          e ← process_expr expr None;
          col_id ← next_id;
          _ ← add_to_origin_map col_id e;
          plan ← plan_map plan [(col_id, e)];
          plan_select plan [Expr.col_ref col_id]
      | Err e => throw e
      end
  end.

(** *** SELECT *)

(** A computed column: its id, after it has been added to the plan. *)
Definition add_column (plan : LogicalRelExpr) (e : LExpr) : TM (LogicalRelExpr * Z) :=
  col_id ← next_id;
  _ ← add_to_origin_map col_id e;
  plan ← plan_map plan [(col_id, e)];
  mret (plan, col_id).

(** An expression without aggregates: the plan with its column. *)
Definition process_plain_item (plan : LogicalRelExpr) (expr : SqlExpr) : TM (LogicalRelExpr * Z) :=
  r ← attempt (process_expr expr (Some O));
  match r with
  | Ok (ColRef id) => mret (plan, id)
  | Ok e => add_column plan e
  | Err ColumnNotFound => e ← process_expr expr None; add_column plan e
  | Err e => throw e
  end.

Abbreviation Aggrs := (list (Z * (Z * AggOp))).

(** The argument of an aggregate. *)
Definition process_aggregate (plan : LogicalRelExpr) (aggs : Aggrs) (agg_op : AggOp) (arg : FunctionArg) :
  TM (LogicalRelExpr * Aggrs * LExpr) :=
  agg_col_id ← next_id;
  match arg with
  | ArgExpr expr =>
      r ← attempt (process_expr expr (Some O));
      match r with
      | Ok e =>
          _ ← add_to_origin_map agg_col_id e;
          match e with
          | ColRef id => mret (plan, aggs ++ [(agg_col_id, (id, agg_op))], Expr.col_ref agg_col_id)
          | _ =>
              plan ← plan_map plan [(agg_col_id, e)];
              mret (plan, aggs ++ [(agg_col_id, (agg_col_id, agg_op))], Expr.col_ref agg_col_id)
          end
      | Err ColumnNotFound =>
          e ← expect (process_expr expr None);
          '(plan, col_id) ← add_column plan e;
          mret (plan, aggs ++ [(agg_col_id, (col_id, agg_op))], Expr.col_ref agg_col_id)
      | Err _ => lift Panic
      end
  | ArgQualifiedWildcard => lift Panic
  | ArgWildcard =>
      if bool_decide (agg_op = Count) then
        '(plan, col_id) ← add_column plan (Expr.int 1);
        mret (plan, aggs ++ [(agg_col_id, (col_id, agg_op))], Expr.col_ref agg_col_id)
      else lift Panic
  end.

Fixpoint process_aggregation_arguments (plan : LogicalRelExpr) (expr : SqlExpr) (aggs : Aggrs) :
  TM (LogicalRelExpr * Aggrs * LExpr) :=
  match expr with
  | Identifier _ | CompoundIdentifier _ => lift Panic
  | ExprValue _ | TypedString _ _ => e ← expect (process_expr expr (Some O)); mret (plan, aggs, e)
  | BinaryOpExpr l op r =>
      '(plan, aggs, l) ← process_aggregation_arguments plan l aggs;
      '(plan, aggs, r) ← process_aggregation_arguments plan r aggs;
      op ← lift (unwrap (binary_op op));
      mret (plan, aggs, Expr.binary op l r)
  | FunctionExpr name args =>
      agg_op ← lift (unwrap (agg_op_of (to_uppercase (get_table_name name))));
      match args with
      | [arg] => process_aggregate plan aggs agg_op arg
      | _ => lift Panic
      end
  | NestedExpr expr => process_aggregation_arguments plan expr aggs
  | _ => lift Panic
  end.

(** What the loop over the items builds: the plan, the projected columns, the aggregates and
    the columns computed from them. *)
Record items := mkItems {
  it_plan : LogicalRelExpr;
  projected_cols : list Z;
  aggregations : Aggrs;
  maps : list (Z * LExpr)
}.

Definition process_item_expr (st : items) (expr : SqlExpr) : TM (items * Z) :=
  agg ← lift (has_agg expr);
  if agg : bool then
    '(plan, aggs, e) ← process_aggregation_arguments (it_plan st) expr [];
    '(new_maps, col_id) ←
      match e with
      | ColRef id => mret (maps st, id)
      | _ => col_id ← next_id; _ ← add_to_origin_map col_id e; mret (maps st ++ [(col_id, e)], col_id)
      end;
    mret (mkItems plan (projected_cols st ++ [col_id]) (aggregations st ++ aggs) new_maps, col_id)
  else
    '(plan, col_id) ← process_plain_item (it_plan st) expr;
    mret (mkItems plan (projected_cols st ++ [col_id]) (aggregations st) (maps st), col_id).

(** The loop over the items; a wildcard ends it. *)
Fixpoint process_items (st : items) (projection : list SelectItem) : TM (items * bool) :=
  match projection with
  | [] => mret (st, false)
  | Wildcard :: _ => mret (st, true)
  | UnnamedExpr expr :: rest =>
      '(st, _) ← process_item_expr st expr;
      process_items st rest
  | ExprWithAlias expr alias :: rest =>
      '(st, col_id) ← process_item_expr st expr;
      _ ← (if is_valid_alias alias then set alias col_id else throw InvalidSQL);
      process_items st rest
  | OtherItem :: _ => throw UnsupportedSQL
  end.

Definition process_group_by (plan : LogicalRelExpr) (group_by : GroupByExpr) : TM (LogicalRelExpr * list Z) :=
  match group_by with
  | GroupByAll => throw UnsupportedSQL
  | GroupByExpressions exprs =>
      loop (λ '(plan, cols) expr,
              e ← process_expr expr None;
              '(plan, col_id) ← (match e with ColRef id => mret (plan, id) | _ => add_column plan e end);
              mret (plan, cols ++ [col_id])) (plan, []) exprs
  end.

(** [ORDER BY], [LIMIT] and [DISTINCT] are not looked at. *)
Definition process_projection (plan : LogicalRelExpr) (projection : list SelectItem) (group_by : GroupByExpr)
    (having : option SqlExpr) : TM LogicalRelExpr :=
  '(st, is_wildcard) ← process_items (mkItems plan [] [] []) projection;
  plan ←
    match aggregations st with
    | [] => mret (it_plan st)
    | aggs =>
        '(plan, group_by) ← process_group_by (it_plan st) group_by;
        process_where (Build.aggregate plan group_by aggs) having
    end;
  plan ← plan_map plan (maps st);
  plan_project plan (projected_cols st) is_wildcard.

Definition process_select (select : SqlSelect) : TM LogicalRelExpr :=
  let '(mkSelect _ projection from selection group_by having) := select in
  plan ← process_from from;
  plan ← process_where plan selection;
  process_projection plan projection group_by having.

Definition process_query_with (query : SqlQuery) : TM Query :=
  let '(mkSqlQuery body _ _) := query in
  match body with
  | SelectBody select => plan ← process_select select; scopes ← ask Ret; mret (mkQuery scopes plan)
  | _ => throw UnsupportedSQL
  end.
End Translation.

Section Statements.
Context `{Unicode} (parse_date : list byte → option Z).
Context (catalog : Catalog) (enabled_rules : RuleSet) (fuel : nat).

(** Queries nested at most [depth] deep. *)
Fixpoint process_query (depth : nat) (query : SqlQuery) : TM Query :=
  match depth with
  | O => lift Panic
  | S depth => process_query_with parse_date catalog enabled_rules fuel (process_query depth) query
  end.

(** [Translator::new], run from the counter of column ids. *)
Definition run {A} (m : TM A) (g : Z) : outcome (Z * result TranslatorError A) :=
  '(st, r) ← m (mkTstate [empty_scope] g);
  Ret (col_id_gen st, r).

Definition from_sql (sql : SqlQuery) : Z → outcome (Z * result TranslatorError Query) :=
  run (process_query fuel sql).

Let where_ := process_where parse_date catalog enabled_rules fuel (process_query fuel).
Let table_factor := process_table_factor catalog (process_query fuel).
Let expr := process_expr parse_date enabled_rules fuel (process_query fuel).

Definition from_delete (from : list TableWithJoins) (selection : option SqlExpr) :
  Z → outcome (Z * result TranslatorError Query) :=
  run (match from with
       | [mkTableWithJoins relation []] =>
           '(scan_plan, _) ← table_factor relation;
           table_id ← some_or (find_scan_cid scan_plan) UnsupportedSQL;
           filtered ← where_ scan_plan selection;
           scopes ← ask Ret;
           mret (mkQuery scopes (LDelete table_id filtered))
       | _ => throw UnsupportedSQL
       end).

(** One assignment: the position of the column, and its value. *)
Definition process_assignment (schema : TableSchema) (a : Assignment) : TM (Z * Field) :=
  match asg_id a with
  | [col_name] =>
      field_idx ← some_or (Schema.get_field_index schema col_name) ColumnNotFound;
      value ← expr (asg_value a) None;
      match value with
      | EField val => mret (field_idx, val)
      | _ => throw UnsupportedSQL
      end
  | _ => throw UnsupportedSQL
  end.

Definition from_update (table : TableWithJoins) (assignments : list Assignment) (selection : option SqlExpr) :
  Z → outcome (Z * result TranslatorError Query) :=
  run (match table with
       | mkTableWithJoins relation [] =>
           '(scan_plan, _) ← table_factor relation;
           table_id ← some_or (find_scan_cid scan_plan) UnsupportedSQL;
           schema ← some_or (Cat.get_table_schema catalog table_id) TableNotFound;
           tuple_assignments ← loop (λ l a, x ← process_assignment schema a; mret (l ++ [x])) [] assignments;
           filtered ← where_ scan_plan selection;
           scopes ← ask Ret;
           mret (mkQuery scopes (LUpdate table_id filtered tuple_assignments))
       | _ => throw UnsupportedSQL
       end).
End Statements.
End Translator.
