(* ===== verification/Optimizer.v ===== *)
(** * The optimizer

    Models [optimizer/src/memo.rs], [cascades_optimizer.rs] and [mock_optimizer.rs]. The memo
    has one group per node of the logical plan, children before parents. Resolving a group
    makes the physical candidates of its node over the resolved children, prices each with
    the cost model and keeps the cheapest. Group ids are positions in the memo; resolving and
    reconstructing go to smaller ids, which bounds them.

    The cost model is the trait [PlanCostEstimator]; its functions may panic. *)

From stdpp Require Import strings gmap.
From S2P Require Import Prelude Common Field Tuple ByteCode Expr OpAggregate PhysicalPlan.
From S2P Require Import DbCatalog Logical.

Open Scope Z_scope.

Abbreviation PExpr := (Expression PhysicalRelExpr).
Abbreviation pexpr := (to_physical_expression to_physical_plan).

(** [Cost] is [C], of which only [<] and [default] are used; [E] is the environment of the
    query, which the cost model gets to see. *)
Class PlanCostEstimator (C E : Type) := {
  cost_lt : C → C → bool;
  cost_default : C;
  cost_of : PhysicalRelExpr → list C → E → outcome C;
  cost_of_index_probe : Z → list PExpr → E → outcome C;
  cost_of_full_scan_with_filter : Z → list PExpr → outcome C
}.

(** The scan with equality predicates that an index scan is equivalent to, with the
    predicates over the columns of the scan and over the positions in the table. *)
Record ScanSelectAlt := mkAlt {
  plan_columns : list Z;
  plan_predicates : list LExpr;
  raw_predicates : list LExpr
}.

Inductive LogicalNode :=
  | NScan (cid : Z) (table_name : list byte) (column_names : list Z)
  | NIndexScan (cid : Z) (table_name : list byte) (column_names : list Z) (index_id : Z)
      (key_values : list LExpr) (scan_select_alt : option ScanSelectAlt)
  | NSelect (src : nat) (predicates : list LExpr)
  | NJoin (join_type : JoinType) (left right : nat) (predicates : list LExpr)
  | NProject (src : nat) (cols : list Z)
  | NOrderBy (src : nat) (cols : list (Z * bool * bool))
  | NAggregate (src : nat) (group_by : list Z) (aggrs : list (Z * (Z * AggOp)))
  | NMap (input : nat) (exprs : list (Z * LExpr))
  | NFlatMap (input func : nat)
  | NRename (src : nat) (src_to_dest : gmap Z Z)
  | NOpaque (plan : LogicalRelExpr).

Record MemoGroup (C : Type) := mkGroup { node : LogicalNode; winner : option (PhysicalRelExpr * C) }.
Arguments mkGroup {C} _ _.
Arguments node {C} _.
Arguments winner {C} _.

Abbreviation MemoGroups C := (list (MemoGroup C)).

Module Memo.
Section Ops.
Context {C E : Type} `{PlanCostEstimator C E}.
Implicit Type m : MemoGroups C.

Definition new : MemoGroups C := [].

Definition new_group m (n : LogicalNode) : MemoGroups C * nat := (m ++ [mkGroup n None], length m).

(** The loop over the columns of the index and the key values; [None] when a column of the
    index is not one of the scan. *)
Fixpoint key_predicates (column_names : list Z) (columns : list Z) (key_values : list LExpr) :
  option (list LExpr * list LExpr) :=
  match columns, key_values with
  | raw_idx :: columns, kv :: key_values =>
      plan_col_id ← column_names !! Z.to_nat raw_idx;
      '(plan, raw) ← key_predicates column_names columns key_values;
      Some (Binary OpEq (ColRef plan_col_id) kv :: plan, Binary OpEq (ColRef raw_idx) kv :: raw)
  | _, _ => Some ([], [])
  end.

Definition scan_select_alternative (catalog : Catalog) (cid : Z) (column_names : list Z) (index_id : Z)
    (key_values : list LExpr) : option ScanSelectAlt :=
  info ← head (filter (λ i, ii_index_id i = index_id) (Cat.get_indexes_for_table catalog cid));
  '(plan, raw) ← key_predicates column_names (ii_columns info) key_values;
  Some (mkAlt column_names plan raw).

Fixpoint add_group_inner m (plan : LogicalRelExpr) (catalog : option Catalog) : MemoGroups C * nat :=
  match plan with
  | LScan cid table_name column_names => new_group m (NScan cid table_name column_names)
  | LIndexScan cid table_name column_names index_id key_values =>
      let alt := catalog ← catalog; scan_select_alternative catalog cid column_names index_id key_values in
      new_group m (NIndexScan cid table_name column_names index_id key_values alt)
  | LSelect src predicates =>
      let '(m, src) := add_group_inner m src catalog in new_group m (NSelect src predicates)
  | LJoin join_type l r predicates =>
      let '(m, l) := add_group_inner m l catalog in
      let '(m, r) := add_group_inner m r catalog in
      new_group m (NJoin join_type l r predicates)
  | LProject src cols => let '(m, src) := add_group_inner m src catalog in new_group m (NProject src cols)
  | LOrderBy src cols => let '(m, src) := add_group_inner m src catalog in new_group m (NOrderBy src cols)
  | LAggregate src group_by aggrs =>
      let '(m, src) := add_group_inner m src catalog in new_group m (NAggregate src group_by aggrs)
  | LMap input exprs => let '(m, input) := add_group_inner m input catalog in new_group m (NMap input exprs)
  | LFlatMap input func =>
      let '(m, input) := add_group_inner m input catalog in
      let '(m, func) := add_group_inner m func catalog in
      new_group m (NFlatMap input func)
  | LRename src src_to_dest =>
      let '(m, src) := add_group_inner m src catalog in new_group m (NRename src src_to_dest)
  | LDelete _ _ | LUpdate _ _ _ => new_group m (NOpaque plan)
  end.

Definition add_group_from_plan m (plan : LogicalRelExpr) : MemoGroups C * nat := add_group_inner m plan None.
Definition add_group_from_plan_with_catalog m (plan : LogicalRelExpr) (catalog : Catalog) : MemoGroups C * nat :=
  add_group_inner m plan (Some catalog).

Fixpoint reconstruct_logical (fuel : nat) m (gid : nat) : outcome LogicalRelExpr :=
  match fuel with
  | O => Panic
  | S fuel =>
      group ← unwrap (m !! gid);
      match node group with
      | NScan cid table_name column_names => Ret (LScan cid table_name column_names)
      | NIndexScan cid table_name column_names index_id key_values _ =>
          Ret (LIndexScan cid table_name column_names index_id key_values)
      | NSelect src predicates => src ← reconstruct_logical fuel m src; Ret (LSelect src predicates)
      | NJoin join_type l r predicates =>
          l ← reconstruct_logical fuel m l; r ← reconstruct_logical fuel m r;
          Ret (LJoin join_type l r predicates)
      | NProject src cols => src ← reconstruct_logical fuel m src; Ret (LProject src cols)
      | NOrderBy src cols => src ← reconstruct_logical fuel m src; Ret (LOrderBy src cols)
      | NAggregate src group_by aggrs => src ← reconstruct_logical fuel m src; Ret (LAggregate src group_by aggrs)
      | NMap input exprs => input ← reconstruct_logical fuel m input; Ret (LMap input exprs)
      | NFlatMap input func =>
          input ← reconstruct_logical fuel m input; func ← reconstruct_logical fuel m func; Ret (LFlatMap input func)
      | NRename src src_to_dest => src ← reconstruct_logical fuel m src; Ret (LRename src src_to_dest)
      | NOpaque plan => Ret plan
      end
  end.

Definition set_winner m (gid : nat) (w : PhysicalRelExpr * C) : MemoGroups C :=
  alter (λ g, mkGroup (node g) (Some w)) gid m.

Definition logical_to_physical m (gid : nat) : outcome (MemoGroups C) :=
  plan ← reconstruct_logical (S gid) m gid;
  Ret (set_winner m gid (to_physical_plan plan, cost_default)).

Definition get_best_group_binding m (gid : nat) : outcome PhysicalRelExpr :=
  group ← unwrap (m !! gid);
  '(plan, _) ← unwrap (winner group);
  Ret plan.

(** The loop that scores the candidates. *)
Fixpoint best_candidate (env : E) (child_costs : list C) (best : option (PhysicalRelExpr * C))
    (candidates : list (PhysicalRelExpr * option C)) : outcome (option (PhysicalRelExpr * C)) :=
  match candidates with
  | [] => Ret best
  | (cand, precomputed) :: candidates =>
      cost ← match precomputed with Some cost => Ret cost | None => cost_of cand child_costs env end;
      let better := match best with Some (_, best_cost) => cost_lt cost best_cost | None => true end in
      best_candidate env child_costs (if better then Some (cand, cost) else best) candidates
  end.

(** The candidates of an index scan; with the alternative at hand, both are priced here. *)
Definition index_candidates (env : E) (cid : Z) (table_name : list byte) (column_names : list Z) (index_id : Z)
    (key_values : list LExpr) (alt : option ScanSelectAlt) : outcome (list (PhysicalRelExpr * option C)) :=
  let index_scan := PIndexScan cid table_name column_names index_id (map pexpr key_values) None in
  match alt with
  | Some alt =>
      let raw_physical_preds := map pexpr (raw_predicates alt) in
      index_cost ← cost_of_index_probe cid raw_physical_preds env;
      scan_cost ← cost_of_full_scan_with_filter cid raw_physical_preds;
      let scan := PScan cid table_name (plan_columns alt) None in
      let select := PSelect scan (map pexpr (plan_predicates alt)) None in
      Ret [(index_scan, Some index_cost); (select, Some scan_cost)]
  | None => Ret [(index_scan, None)]
  end.

Definition join_candidates (join_type : JoinType) (left right : PhysicalRelExpr) (predicates : list LExpr) :
  list (PhysicalRelExpr * option C) :=
  let combined := Expr.combine_preds (map pexpr predicates) in
  (PNestedLoopJoin join_type left right [combined] None, None) ::
  (if bool_decide (join_type = Inner) && is_eq combined
   then [(PHashJoin join_type left right [combined] None, None)] else []).

Fixpoint resolve_costed (fuel : nat) m (gid : nat) (env : E) : outcome (MemoGroups C * (PhysicalRelExpr * C)) :=
  match fuel with
  | O => Panic
  | S fuel =>
      group ← unwrap (m !! gid);
      match winner group with
      | Some w => Ret (m, w)
      | None =>
          '(m, (child_costs, candidates)) ←
            match node group with
            | NScan cid table_name column_names => Ret (m, ([], [(PScan cid table_name column_names None, None)]))
            | NIndexScan cid table_name column_names index_id key_values alt =>
                cands ← index_candidates env cid table_name column_names index_id key_values alt;
                Ret (m, ([], cands))
            | NSelect src predicates =>
                '(m, (src_phys, src_cost)) ← resolve_costed fuel m src env;
                Ret (m, ([src_cost], [(PSelect src_phys (map pexpr predicates) None, None)]))
            | NJoin join_type l r predicates =>
                '(m, (left_phys, left_cost)) ← resolve_costed fuel m l env;
                '(m, (right_phys, right_cost)) ← resolve_costed fuel m r env;
                Ret (m, ([left_cost; right_cost], join_candidates join_type left_phys right_phys predicates))
            | NProject src cols =>
                '(m, (src_phys, src_cost)) ← resolve_costed fuel m src env;
                Ret (m, ([src_cost], [(PProject src_phys cols None, None)]))
            | NOrderBy src cols =>
                '(m, (src_phys, src_cost)) ← resolve_costed fuel m src env;
                Ret (m, ([src_cost], [(PSort src_phys cols None, None)]))
            | NAggregate src group_by aggrs =>
                '(m, (src_phys, src_cost)) ← resolve_costed fuel m src env;
                Ret (m, ([src_cost], [(PHashAggregate src_phys group_by aggrs None, None)]))
            | NMap input exprs =>
                '(m, (input_phys, input_cost)) ← resolve_costed fuel m input env;
                Ret (m, ([input_cost], [(PMap input_phys (map (λ '(cid, e), (cid, pexpr e)) exprs) None, None)]))
            | NFlatMap input func =>
                '(m, (input_phys, input_cost)) ← resolve_costed fuel m input env;
                '(m, (func_phys, func_cost)) ← resolve_costed fuel m func env;
                Ret (m, ([input_cost; func_cost], [(PFlatMap input_phys func_phys None, None)]))
            | NRename src src_to_dest =>
                '(m, (src_phys, src_cost)) ← resolve_costed fuel m src env;
                Ret (m, ([src_cost], [(PRename src_phys src_to_dest None, None)]))
            | NOpaque plan => Ret (m, ([], [(to_physical_plan plan, None)]))
            end;
          best ← best_candidate env child_costs None candidates;
          w ← unwrap best;
          Ret (set_winner m gid w, w)
      end
  end.
End Ops.
End Memo.

Module CascadesOptimizer.
Definition optimize `{PlanCostEstimator C E} (catalog : Catalog) (query : LogicalRelExpr) (env : E) :
  outcome PhysicalRelExpr :=
  let '(memo, root) := Memo.add_group_from_plan_with_catalog (C := C) Memo.new query catalog in
  '(_, (plan, _)) ← Memo.resolve_costed (S root) memo root env;
  Ret plan.
End CascadesOptimizer.

Module MockOptimizer.
Definition optimize (query : LogicalRelExpr) : PhysicalRelExpr := to_physical_plan query.
End MockOptimizer.
