(* ===== verification/LogicalSem.v ===== *)
(** * The meaning of logical plans

    The reference semantics of logical plans over rows, as for physical plans. [wf] is a
    static check: the columns an expression mentions are there, the two sides of a join
    have different columns, a renaming renames every column, and the predicates are boolean
    whatever the values of the columns are ([bools] are the columns that are boolean by
    construction). *)

From stdpp Require Import strings gmap sorting.
From stdpp Require Import strings gmap.
From S2P Require Import Prelude Common Ordering Field FieldContract Tuple ByteCode Expr.
From S2P Require Import ExprCorrect.
From S2P Require Import OpIterator OpJoin OpAggregate OpAggregateCorrect PhysicalPlan.
From S2P Require Import DbCatalog PlanSem.
From S2P Require Import PlanRel Logical.

Open Scope Z_scope.

(** ** Selecting groups before or after aggregation

    Aggregating only the rows whose group-by values satisfy a condition gives the rows of
    the aggregation whose group-by values satisfy it. *)

Section Filter.
Context (ops : list AggOp) (q : list Field → bool).

Definition accumulate (acc : accumulator) (kvs : list (list Field * list Field)) : outcome accumulator :=
  foldM (λ (acc : accumulator) '(k, vals), g ← Agg.add_to_group ops (acc !! k) vals; Ret (<[k := g]> acc)) acc kvs.

(** Every group is the group of some row. *)
Lemma accumulate_keys kvs acc k : accumulate ∅ kvs = Ret acc → is_Some (acc !! k) → k ∈ kvs.*1.
Proof.
  unfold accumulate. intros E Hk.
  assert (∀ acc0, accumulate acc0 kvs = Ret acc → k ∈ kvs.*1 ∨ is_Some (acc0 !! k)) as G.
  { clear E. unfold accumulate. induction kvs as [|[k0 vs] kvs IH]; intros acc0 E; simpl in E; [injection E as <-; by right|].
    destruct (Agg.add_to_group ops (acc0 !! k0) vs) as [g|]; [|done]. simpl in E.
    destruct (IH _ E) as [?|Hi]; [left; by right|]. apply lookup_insert_is_Some in Hi as [->|[_ ?]]; [left; left|by right]. }
  destruct (G ∅ E) as [?|[? Hn]]; [done|]. by rewrite lookup_empty in Hn.
Qed.

(** The groups whose key satisfies the condition. *)
Definition kept (acc : accumulator) : accumulator := filter (λ x : list Field * group, q x.1 = true) acc.

Lemma kept_lookup acc k : kept acc !! k = if q k then acc !! k else None.
Proof.
  unfold kept. rewrite map_lookup_filter. destruct (acc !! k) as [g|]; simpl; [|by destruct (q k)].
  destruct (q k) eqn:E; case_guard; simpl in *; congruence.
Qed.

Lemma accumulate_filter acc0 kvs acc :
  accumulate acc0 kvs = Ret acc → accumulate (kept acc0) (List.filter (λ kv, q kv.1) kvs) = Ret (kept acc).
Proof.
  revert acc0. induction kvs as [|[k vs] kvs IH]; intros acc0 E; [by injection E as ->|].
  unfold accumulate in E |- *. simpl in E. destruct (Agg.add_to_group ops (acc0 !! k) vs) as [g|] eqn:Eg; [|done]. simpl in E.
  specialize (IH _ E). cbn [List.filter fst]. destruct (q k) eqn:Ek.
  - cbn [foldM]. rewrite kept_lookup, Ek, Eg, bind_Ret, bind_Ret.
    assert (kept (<[k:=g]> acc0) = <[k:=g]> (kept acc0)) as Hk by by apply map_filter_insert_True.
    rewrite Hk in IH. exact IH.
  - assert (kept (<[k:=g]> acc0) = kept acc0) as Hk by (apply map_filter_insert_not; simpl; congruence).
    rewrite Hk in IH. exact IH.
Qed.

Lemma StronglySorted_filter {A} (R : A → A → Prop) (f : A → bool) l :
  StronglySorted R l → StronglySorted R (List.filter f l).
Proof.
  induction 1 as [|x l Hs IH Hx]; [constructor|]. simpl. destruct (f x); [|done]. constructor; [done|].
  apply Forall_forall. intros y [Hy _]%list_elem_of_In%filter_In. rewrite Forall_forall in Hx. by apply Hx, list_elem_of_In.
Qed.

Lemma StronglySorted_fst {A B} (R : A → A → Prop) (l : list (A * B)) :
  StronglySorted R l.*1 → StronglySorted (λ a b, R a.1 b.1) l.
Proof.
  induction l as [|x l IH]; intros Hs; [constructor|]. rewrite fmap_cons in Hs. inversion Hs as [|? ? Hl Hx]; subst.
  constructor; [by apply IH|]. by rewrite Forall_fmap in Hx.
Qed.

Lemma entries_filter acc :
  sort_by Agg.key_le (map_to_list (kept acc)) = List.filter (λ e, q e.1) (sort_by Agg.key_le (map_to_list acc)).
Proof.
  apply (StronglySorted_unique_strong (λ a b : list Field * group, cmp_list field_cmp a.1 b.1 = Lt)).
  - intros a b _ _ H1 H2. rewrite (cmp_opp (cmp := cmp_list field_cmp)), H1 in H2. done.
  - apply (StronglySorted_fst (λ a b, cmp_list field_cmp a b = Lt)), acc_entries_sorted.
  - apply StronglySorted_filter, (StronglySorted_fst (λ a b, cmp_list field_cmp a b = Lt)), acc_entries_sorted.
  - rewrite sort_by_Permutation. apply NoDup_Permutation.
    + apply NoDup_map_to_list.
    + apply NoDup_ListNoDup, List.NoDup_filter, NoDup_ListNoDup. rewrite sort_by_Permutation. apply NoDup_map_to_list.
    + intros [k g]. rewrite elem_of_map_to_list, list_elem_of_In, filter_In, <-list_elem_of_In.
      rewrite (sort_by_Permutation Agg.key_le), elem_of_map_to_list, kept_lookup. simpl. destruct (q k); naive_solver.
Qed.

Lemma finish_filter g entries out :
  Forall (λ e, length e.1 = g) entries → Agg.finish ops entries = Ret out →
  Agg.finish ops (List.filter (λ e, q e.1) entries) = Ret (List.filter (λ t, q (take g (field_vals t))) out).
Proof.
  intros HF. revert out. induction HF as [|[k [n vals]] entries Hk _ IH]; intros out E; simpl in *; [by injection E as <-|].
  destruct (Agg.finish_fields n ops vals) as [fs|] eqn:Ef; [|done]. simpl in E.
  destruct (Agg.finish ops entries) as [ts|]; [|done]. injection E as <-. specialize (IH ts eq_refl).
  simpl. rewrite take_app_length' by done. destruct (q k); simpl; [|done]. by rewrite Ef, IH.
Qed.

Lemma aggregate_filter g kvs out :
  Forall (λ kv, length kv.1 = g) kvs → sem_aggregate ops kvs = Ret out →
  sem_aggregate ops (List.filter (λ kv, q kv.1) kvs) = Ret (List.filter (λ t, q (take g (field_vals t))) out).
Proof.
  intros HF E. unfold sem_aggregate in *. fold (accumulate ∅ kvs) in E. fold (accumulate ∅ (List.filter (λ kv, q kv.1) kvs)).
  destruct (accumulate ∅ kvs) as [acc|] eqn:Ea; [|done]. simpl in E.
  pose proof (accumulate_filter ∅ kvs acc Ea) as Ef. assert (kept ∅ = ∅) as Hk by apply map_filter_empty.
  rewrite Hk in Ef. rewrite Ef. simpl. rewrite entries_filter. apply finish_filter; [|done].
  rewrite (sort_by_Permutation Agg.key_le). apply Forall_forall. intros [k x] Hx%elem_of_map_to_list.
  assert (k ∈ kvs.*1) as ([k' vs] & -> & Hin)%list_elem_of_fmap by (apply (accumulate_keys kvs acc k Ea); by eexists).
  rewrite Forall_forall in HF. exact (HF _ Hin).
Qed.
End Filter.

(** Takes checks apart. *)
Ltac checks := repeat match goal with
  | H : _ && _ = true |- _ => apply andb_true_iff in H; destruct H
  | H : bool_decide _ = true |- _ => apply bool_decide_eq_true in H
  end.

Section Sem.
Context `{TupleCodec} (tbl : Z → option (list item)).

Fixpoint lsem (p : LogicalRelExpr) : option (list row) :=
  match p with
  | LScan cid _ cols => items ← tbl cid; mapM (scan_row cols) items
  | LSelect src preds => rows ← lsem src; sem_selects preds rows
  | LJoin (Inner | CrossType) l r preds => L ← lsem l; R ← lsem r; sem_selects preds (sem_product L R)
  | LProject src cols =>
      rows ← lsem src; mapM (λ ρ : row, vs ← mapM (λ id, ρ !! id) cols; Some (bind_cols ∅ cols vs)) rows
  | LAggregate src group_by aggrs =>
      rows ← lsem src;
      vals ← mapM (λ ρ : row, k ← mapM (λ id, ρ !! id) group_by; vs ← mapM (λ id, ρ !! id) aggrs.*2.*1; Some (k, vs)) rows;
      out ← to_option (sem_aggregate aggrs.*2.*2 vals);
      Some (map (λ t, bind_cols ∅ (group_by ++ aggrs.*1) (field_vals t)) out)
  | LMap input exprs =>
      rows ← lsem input; mapM (λ ρ : row, vs ← mapM (eval_row ρ) exprs.*2; Some (bind_cols ρ exprs.*1 vs)) rows
  | LRename src m => rows ← lsem src; Some (map (rename_keys m) rows)
  | _ => None
  end.
End Sem.

(** ** The static check *)

Definition operand (e : LExpr) : bool := match e with ColRef _ | EField _ => true | _ => false end.

(** Expressions that are boolean when the columns of [B] are. *)
Fixpoint boolean_expr (B : gset Z) (e : LExpr) : bool :=
  match e with
  | ColRef id => bool_decide (id ∈ B)
  | EField (FBool _) => true
  | Binary op l r =>
      match op with
      | OpAnd | OpOr => boolean_expr B l && boolean_expr B r
      | _ => comparison_op op && operand l && operand r
      end
  | _ => false
  end.

Fixpoint bools (p : LogicalRelExpr) : gset Z :=
  match p with
  | LSelect src _ => bools src
  | LJoin _ l r _ => bools l ∪ bools r
  | LProject src cols => bools src ∩ list_to_set cols
  | LAggregate src group_by _ => bools src ∩ list_to_set group_by
  | LMap input exprs => bools input ∪ list_to_set (List.filter (λ x, boolean_expr (bools input) x.2) exprs).*1
  | _ => ∅
  end.

(** A predicate over the columns [A], of which [B] are boolean. *)
Definition pred_in (A B : gset Z) (e : LExpr) : bool := boolean_expr B e && bool_decide (Expr.free e ⊆ A).
Definition pred_ok (p : LogicalRelExpr) : LExpr → bool := pred_in (Log.att p) (bools p).

Fixpoint wf (p : LogicalRelExpr) : bool :=
  match p with
  | LScan _ _ _ => true
  | LSelect src preds => wf src && forallb (pred_ok src) preds
  | LJoin (Inner | CrossType) l r preds =>
      wf l && wf r && bool_decide (Log.att l ## Log.att r) &&
      forallb (pred_in (Log.att l ∪ Log.att r) (bools l ∪ bools r)) preds
  | LProject src cols => wf src && bool_decide (list_to_set cols ⊆ Log.att src)
  | LAggregate src group_by aggrs =>
      wf src && bool_decide (list_to_set group_by ⊆ Log.att src) && bool_decide (NoDup (group_by ++ aggrs.*1))
  | LMap input exprs =>
      wf input && bool_decide (NoDup exprs.*1) && bool_decide (Log.att input ## list_to_set exprs.*1) &&
      forallb (λ x, supported x.2 && bool_decide (Expr.free x.2 ⊆ Log.att input)) exprs
  | LRename src m =>
      wf src && bool_decide (dom m = Log.att src) && bool_decide (NoDup (renamed m <$> elements (Log.att src))) &&
      bool_decide (Log.att p = list_to_set (renamed m <$> elements (Log.att src)))
  | _ => false
  end.

(** ** Predicates *)

Definition true_in (ρ : row) (e : LExpr) : bool := default false (truth ρ e).
Definition all_true_in (es : list LExpr) (ρ : row) : bool := forallb (true_in ρ) es.

(** The columns of [B] that [ρ] has are boolean. *)
Definition bools_in (B : gset Z) (ρ : row) : Prop := ∀ id, id ∈ B → ∃ b, ρ !! id = Some (FBool b).

Lemma truth_agree {P} `{Plan P} (ρ ρ' : row) (e : Expression P) :
  (∀ id, id ∈ Expr.free e → ρ !! id = ρ' !! id) → truth ρ e = truth ρ' e.
Proof. intros Hag. unfold truth, eval_row. by rewrite (eval_expr_free _ (λ id, ρ' !! id)). Qed.

Lemma operand_value (ρ : row) e : operand e = true → Expr.free e ⊆ dom ρ → ∃ v, eval_row ρ e = Some v.
Proof.
  destruct e as [id|v| | |]; try done; intros _ Hf; [|by eexists].
  assert (id ∈ dom ρ) as [v Hv]%elem_of_dom by (apply Hf; simpl; set_solver).
  exists v. unfold eval_row. simpl. by rewrite Hv.
Qed.

Lemma boolean_value B (ρ : row) e :
  boolean_expr B e = true → Expr.free e ⊆ dom ρ → bools_in (B ∩ Expr.free e) ρ → ∃ b, eval_row ρ e = Some (FBool b).
Proof.
  induction e as [id|v|op l IHl r IHr| |]; intros Hb Hf HB; try done.
  - simpl in *. apply bool_decide_eq_true in Hb. destruct (HB id) as [b Hv]; [set_solver|].
    exists b. unfold eval_row. simpl. by rewrite Hv.
  - destruct v; try done. by eexists.
  - simpl Expr.free in Hf, HB. destruct (decide (op = OpAnd ∨ op = OpOr)) as [Hop|Hop].
    + assert (boolean_expr B l && boolean_expr B r = true) as [Hl Hr]%andb_true_iff by (destruct Hop; by subst op).
      destruct (IHl Hl) as [x Hx]; [set_solver|intros id Hid; apply HB; set_solver|].
      destruct (IHr Hr) as [y Hy]; [set_solver|intros id Hid; apply HB; set_solver|].
      unfold eval_row in *. simpl. destruct (eval_expr _ l), (eval_expr _ r); try done. simpl in *.
      injection Hx as ->. injection Hy as ->. destruct Hop; subst op; simpl; by eexists.
    + assert (comparison_op op && operand l && operand r = true) as Hb' by (destruct op; done || naive_solver).
      apply andb_true_iff in Hb' as [[Hc Hl]%andb_true_iff Hr].
      destruct (operand_value ρ l Hl) as [x Hx]; [set_solver|]. destruct (operand_value ρ r Hr) as [y Hy]; [set_solver|].
      unfold eval_row in *. simpl. destruct (eval_expr _ l), (eval_expr _ r); try done. simpl in *.
      destruct op; try done; simpl; by eexists.
Qed.

Lemma pred_truth A B (ρ : row) e :
  pred_in A B e = true → A ⊆ dom ρ → bools_in B ρ → truth ρ e = Some (true_in ρ e).
Proof.
  intros [Hb Hf%bool_decide_eq_true]%andb_true_iff HA HB.
  destruct (boolean_value B ρ e Hb) as [b Hv]; [set_solver|intros id Hid; apply HB; set_solver|].
  unfold true_in, truth. by rewrite Hv.
Qed.

Lemma selects_filter (es : list LExpr) rows :
  Forall (λ ρ, Forall (λ e, truth ρ e = Some (true_in ρ e)) es) rows →
  sem_selects es rows = Some (List.filter (all_true_in es) rows).
Proof.
  revert rows. induction es as [|e es IH]; intros rows HF.
  { simpl. f_equal. clear HF. induction rows as [|ρ rows IHr]; [done|]. simpl. by rewrite <-IHr. }
  assert (sem_select e rows = Some (List.filter (λ ρ, true_in ρ e) rows)) as Es.
  { clear IH. induction HF as [|ρ rows [Hρ _]%Forall_cons _ IH]; [done|]. simpl. rewrite Hρ, IH. simpl.
    by destruct (true_in ρ e). }
  simpl. rewrite Es. simpl. rewrite IH.
  - f_equal. clear. induction rows as [|ρ rows IH]; [done|]. simpl. destruct (true_in ρ e); simpl; [|done].
    destruct (all_true_in es ρ); by rewrite IH.
  - clear -HF. induction HF as [|ρ rows [_ Hρ]%Forall_cons _ IH]; [constructor|]. simpl.
    destruct (true_in ρ e); [by constructor|done].
Qed.

(** Splitting conjunctions does not change what predicates select. *)
Lemma split_pred A B e :
  pred_in A B e = true →
  forallb (pred_in A B) (Expr.split_conjunction e) = true ∧
  ∀ ρ, A ⊆ dom ρ → bools_in B ρ → all_true_in (Expr.split_conjunction e) ρ = true_in ρ e.
Proof.
  assert (∀ e, pred_in A B e = true → Expr.split_conjunction e = [e] →
    forallb (pred_in A B) (Expr.split_conjunction e) = true ∧
    ∀ ρ, A ⊆ dom ρ → bools_in B ρ → all_true_in (Expr.split_conjunction e) ρ = true_in ρ e) as Hone.
  { intros e' He ->. split; [by apply andb_true_iff|]. intros. unfold all_true_in. simpl. apply andb_true_r. }
  induction e as [id|v|op l IHl r IHr| |]; intros He; try by apply Hone.
  destruct (decide (op = OpAnd)) as [->|Hop]; [|apply Hone; [done|by destruct op]].
  apply andb_true_iff in He as [[Hl Hr]%andb_true_iff Hf%bool_decide_eq_true]. simpl in Hf.
  assert (pred_in A B l = true) as Pl by (apply andb_true_iff; split; [done|apply bool_decide_eq_true; set_solver]).
  assert (pred_in A B r = true) as Pr by (apply andb_true_iff; split; [done|apply bool_decide_eq_true; set_solver]).
  destruct (IHl Pl) as [Fl Tl], (IHr Pr) as [Fr Tr]. simpl. split; [by rewrite forallb_app, Fl, Fr|].
  intros ρ HA HB. unfold all_true_in in *. rewrite forallb_app, Tl, Tr by done.
  pose proof (pred_truth A B ρ l Pl HA HB) as El. pose proof (pred_truth A B ρ r Pr HA HB) as Er.
  unfold true_in at 3. unfold truth, eval_row in *. simpl.
  destruct (eval_expr _ l) as [[]|]; try done. destruct (eval_expr _ r) as [[]|]; try done. simpl in *. congruence.
Qed.

Lemma split_all_ok A B es :
  forallb (pred_in A B) es = true →
  forallb (pred_in A B) (Build.split_all es) = true ∧
  ∀ ρ, A ⊆ dom ρ → bools_in B ρ → all_true_in (Build.split_all es) ρ = all_true_in es ρ.
Proof.
  induction es as [|e es IH]; intros Hes; [done|]. apply andb_true_iff in Hes as [He Hes].
  destruct (split_pred A B e He) as [F1 T1], (IH Hes) as [F2 T2]. unfold Build.split_all in *. simpl.
  split; [by rewrite forallb_app, F1, F2|]. intros ρ HA HB. unfold all_true_in in *. simpl.
  by rewrite forallb_app, T1, T2.
Qed.

(** ** Rows *)

Record row_ok (p : LogicalRelExpr) (ρ : row) : Prop := { row_dom : dom ρ = Log.att p; row_bools : bools_in (bools p) ρ }.

Lemma bind_cols_notin (ρ : row) cols vs id : id ∉ cols → bind_cols ρ cols vs !! id = ρ !! id.
Proof.
  revert ρ vs. induction cols as [|c cols IH]; intros ρ [|v vs] Hid; try done. simpl.
  apply not_elem_of_cons in Hid as [? ?]. rewrite IH by done. by rewrite lookup_insert_ne.
Qed.

Lemma bind_cols_in (ρ : row) cols vs i id v :
  NoDup cols → cols !! i = Some id → vs !! i = Some v → bind_cols ρ cols vs !! id = Some v.
Proof.
  revert ρ vs i. induction cols as [|c cols IH]; intros ρ [|w vs] [|i] Hnd Hi Hv; try done; apply NoDup_cons in Hnd as [Hc Hnd]; simpl in *.
  - injection Hi as ->. injection Hv as ->. rewrite bind_cols_notin by done. apply lookup_insert_eq.
  - by apply (IH _ _ i).
Qed.

Lemma bind_cols_dom (ρ : row) cols vs :
  length vs = length cols → dom (bind_cols ρ cols vs) = dom ρ ∪ list_to_set cols.
Proof.
  revert ρ vs. induction cols as [|c cols IH]; intros ρ [|v vs] Hl; try done; simpl; [set_solver|].
  rewrite IH by (simpl in Hl; lia). rewrite dom_insert_L. set_solver.
Qed.

(** Binding columns to their values in [ρ]. *)
Lemma bind_cols_of (ρ ρ0 : row) cols vs id :
  mapM (λ id, ρ !! id) cols = Some vs → id ∈ cols → bind_cols ρ0 cols vs !! id = ρ !! id.
Proof.
  revert ρ0 vs. induction cols as [|c cols IH]; intros ρ0 vs E Hid; [by apply elem_of_nil in Hid|]. simpl in E.
  destruct (ρ !! c) as [v|] eqn:Ev; [|done]. simpl in E. destruct (mapM _ cols) as [vs'|]; [|done].
  injection E as <-. simpl. destruct (decide (id ∈ cols)) as [Hin|Hni]; [by apply IH|].
  apply elem_of_cons in Hid as [->|?]; [|done]. by rewrite bind_cols_notin, lookup_insert_eq.
Qed.

Lemma both_left (ρl ρr : row) id : id ∉ dom ρr → both ρl ρr !! id = ρl !! id.
Proof. intros Hid. unfold both. by rewrite lookup_union_r by by apply not_elem_of_dom. Qed.
Lemma both_right (ρl ρr : row) id : id ∈ dom ρr → both ρl ρr !! id = ρr !! id.
Proof. intros [v Hv]%elem_of_dom. unfold both. by rewrite (lookup_union_Some_l _ _ _ _ Hv), Hv. Qed.

Lemma wf_bools p : wf p = true → bools p ⊆ Log.att p.
Proof.
  induction p as [| | | |src IH preds|jt l IHl r IHr preds|src IH cols| |src IH gb aggrs|input IH exprs| |];
    cbn [wf bools Log.att]; intros Hw; try done.
  - apply andb_true_iff in Hw as [Hw _]. auto.
  - destruct jt; try done; checks; by apply union_mono; auto.
  - intros id [_ ?]%elem_of_intersection. done.
  - intros id [_ ?]%elem_of_intersection. by apply elem_of_union_l.
  - apply andb_true_iff in Hw as [[[Hw _]%andb_true_iff _]%andb_true_iff _]. specialize (IH Hw).
    intros id [Hid|Hid%elem_of_list_to_set]%elem_of_union; [by apply elem_of_union_l, IH|].
    apply elem_of_union_r, elem_of_list_to_set. apply list_elem_of_fmap in Hid as (x & -> & Hx).
    apply list_elem_of_fmap. exists x. split; [done|]. apply list_elem_of_In in Hx. apply list_elem_of_In.
    by apply filter_In in Hx as [? _].
Qed.

Lemma Forall_filter {A} (P : A → Prop) f (l : list A) : Forall P l → Forall P (List.filter f l).
Proof. induction 1 as [|x l Hx _ IH]; simpl; [constructor|]. destruct (f x); [by constructor|done]. Qed.

Lemma selects_sub (P : row → Prop) (es : list LExpr) rows rows' :
  sem_selects es rows = Some rows' → Forall P rows → Forall P rows'.
Proof.
  revert rows. induction es as [|e es IH]; intros rows E HP; simpl in E; [by simplify_eq|].
  destruct (sem_select e rows) as [rs|] eqn:Es; [|done]. simpl in E. apply (IH rs E). clear IH E.
  revert rs Es. induction HP as [|ρ rows Hρ HP IH]; intros rs Es; simpl in Es; [by simplify_eq|].
  destruct (truth ρ e) as [b|]; [|done]. simpl in Es. destruct (sem_select e rows) as [rs'|]; [|done].
  injection Es as <-. destruct b; [constructor; [done|]|]; by apply IH.
Qed.

Lemma mapM_Forall {A B} (P : A → Prop) (Q : B → Prop) (f : A → option B) l k :
  mapM f l = Some k → Forall P l → (∀ x y, P x → f x = Some y → Q y) → Forall Q k.
Proof.
  intros E HP HQ. apply mapM_Some in E. induction E as [|x y l k Hf _ IH]; [constructor|].
  apply Forall_cons in HP as [Hx HP]. constructor; [by apply (HQ x)|by apply IH].
Qed.

Lemma product_ok l r jt preds L R :
  Log.att l ## Log.att r → bools r ⊆ Log.att r → bools l ⊆ Log.att l →
  Forall (row_ok l) L → Forall (row_ok r) R → Forall (row_ok (LJoin jt l r preds)) (sem_product L R).
Proof.
  intros Hdis Hbr Hbl HL HR. apply Forall_forall. intros ρ Hin. unfold sem_product in Hin.
  apply list_elem_of_bind in Hin as (ρl & Hin & Hl). apply list_elem_of_fmap in Hin as (ρr & -> & Hr).
  rewrite Forall_forall in HL, HR. destruct (HL ρl Hl) as [Dl Bl], (HR ρr Hr) as [Dr Br]. split; simpl.
  - unfold both. rewrite dom_union_L, Dl, Dr. set_solver.
  - intros id [Hid|Hid]%elem_of_union; [rewrite both_left by set_solver|rewrite both_right by set_solver]; auto.
Qed.

Lemma bind_cols_app (ρ : row) a b x y :
  length x = length a → bind_cols ρ (a ++ b) (x ++ y) = bind_cols (bind_cols ρ a x) b y.
Proof.
  revert ρ x. induction a as [|c a IH]; intros ρ [|v x] Hl; try done. simpl. apply IH. simpl in Hl. lia.
Qed.

(** The group-by columns of a row of an aggregation. *)
Lemma group_cols_of (ρ : row) gb ids k fs id :
  mapM (λ id, ρ !! id) gb = Some k → NoDup (gb ++ ids) → id ∈ gb → bind_cols ∅ (gb ++ ids) (k ++ fs) !! id = ρ !! id.
Proof.
  intros Hk Hnd Hid. rewrite bind_cols_app by (symmetry; by eapply length_mapM). apply NoDup_app in Hnd as (_ & Hni & _).
  rewrite bind_cols_notin by by apply Hni. by apply bind_cols_of.
Qed.

Lemma project_row_ok src cols (ρ ρ' : row) :
  row_ok src ρ → (vs ← mapM (λ id, ρ !! id) cols; Some (bind_cols ∅ cols vs)) = Some ρ' → row_ok (LProject src cols) ρ'.
Proof.
  intros [Hd Hb] E. destruct (mapM _ cols) as [vs|] eqn:Ev; [|done]. injection E as <-. split; simpl.
  - rewrite bind_cols_dom by (symmetry; by eapply length_mapM). by rewrite dom_empty_L, union_empty_l_L.
  - intros id [Hid Hc%elem_of_list_to_set]%elem_of_intersection. rewrite (bind_cols_of ρ) by done. by apply Hb.
Qed.

Lemma map_row_ok input exprs (ρ ρ' : row) :
  wf (LMap input exprs) = true → bools input ⊆ Log.att input →
  row_ok input ρ → (vs ← mapM (eval_row ρ) exprs.*2; Some (bind_cols ρ exprs.*1 vs)) = Some ρ' → row_ok (LMap input exprs) ρ'.
Proof.
  simpl. intros Hw Hsub [Hd Hb] E.
  apply andb_true_iff in Hw as [[[_ Hnd%bool_decide_eq_true]%andb_true_iff Hdis%bool_decide_eq_true]%andb_true_iff Hex].
  destruct (mapM _ exprs.*2) as [vs|] eqn:Ev; [|done]. injection E as <-.
  pose proof (length_mapM _ _ _ Ev) as Hl. split; simpl.
  - rewrite bind_cols_dom by (rewrite <-Hl, !length_fmap; done). by rewrite Hd.
  - intros id [Hid|Hid%elem_of_list_to_set]%elem_of_union.
    + rewrite bind_cols_notin; [by apply Hb|]. intros Hi. apply (Hdis id); [by apply Hsub|by apply elem_of_list_to_set].
    + apply list_elem_of_fmap in Hid as ([i x] & -> & Hx). apply list_elem_of_In, filter_In in Hx as [Hin Hx].
      rewrite forallb_forall in Hex. specialize (Hex _ Hin). apply list_elem_of_In in Hin. simpl in *. checks.
      destruct (boolean_value (bools input) ρ x) as [b Hv];
        [done|by rewrite Hd|intros ? [? _]%elem_of_intersection; by apply Hb|].
      exists b. apply list_elem_of_lookup in Hin as [n Hn]. apply (bind_cols_in ρ _ _ n); [done|by rewrite list_lookup_fmap, Hn|].
      apply mapM_Some in Ev. destruct (Forall2_lookup_l _ _ _ n x Ev) as (v & ? & ?); [by rewrite list_lookup_fmap, Hn|].
      congruence.
Qed.

(** The rows of an aggregation: the key of some row, and one value per aggregate. *)
Lemma aggregate_keys ops kvs out :
  sem_aggregate ops kvs = Ret out → Forall (λ t, ∃ k fs, t = Tup.new (k ++ fs) ∧ k ∈ kvs.*1) out.
Proof.
  unfold sem_aggregate. destruct (foldM _ ∅ kvs) as [acc|] eqn:E; [|done]. simpl. intros Ef.
  pose proof (λ k, accumulate_keys ops kvs acc k E) as Hacc.
  apply finish_ok in Ef.
  assert (Forall (λ e, e.1 ∈ kvs.*1) (sort_by Agg.key_le (map_to_list acc))) as HF.
  { rewrite (sort_by_Permutation Agg.key_le). apply Forall_forall. intros [k g] Hk%elem_of_map_to_list. apply Hacc. by eexists. }
  clear E Hacc. induction Ef as [|[k [n vals]] t entries out (fs & _ & ->) _ IH]; [constructor|].
  apply Forall_cons in HF as [Hk HF]. constructor; [by exists k, fs|by apply IH].
Qed.

Lemma aggregate_rows_ok src gb aggrs (rows : list row) vals out :
  wf (LAggregate src gb aggrs) = true → Forall (row_ok src) rows →
  mapM (λ ρ : row, k ← mapM (λ id, ρ !! id) gb; vs ← mapM (λ id, ρ !! id) aggrs.*2.*1; Some (k, vs)) rows = Some vals →
  sem_aggregate aggrs.*2.*2 vals = Ret out →
  Forall (row_ok (LAggregate src gb aggrs)) (map (λ t, bind_cols ∅ (gb ++ aggrs.*1) (field_vals t)) out).
Proof.
  simpl. intros Hw Hrows Hvals Hout.
  apply andb_true_iff in Hw as [_ Hnd%bool_decide_eq_true].
  apply mapM_Some in Hvals.
  assert (Forall (λ kv, ∃ ρ, row_ok src ρ ∧ mapM (λ id, ρ !! id) gb = Some kv.1 ∧ length kv.2 = length aggrs) vals) as HF.
  { clear Hout. induction Hvals as [|ρ kv rows vals E _ IH]; [constructor|]. apply Forall_cons in Hrows as [Hρ Hrows].
    constructor; [|by apply IH]. destruct (mapM _ gb) as [k|] eqn:Ek; [|done]. simpl in E.
    destruct (mapM _ aggrs.*2.*1) as [vs|] eqn:Evs; [|done]. injection E as <-. exists ρ. split_and!; [done|done|].
    apply length_mapM in Evs. simpl. by rewrite <-Evs, !length_fmap. }
  pose proof (aggregate_keys _ _ _ Hout) as Hkeys.
  pose proof (aggregate_lengths aggrs.*2.*2 (length gb) vals out) as Hlen. rewrite !length_fmap in Hlen.
  apply Forall_map, Forall_forall. intros t Ht. rewrite Forall_forall in Hkeys.
  destruct (Hkeys t Ht) as (k & fs & -> & Hk). apply list_elem_of_fmap in Hk as (kv & -> & Hkv).
  assert (length (field_vals (Tup.new (kv.1 ++ fs))) = (length gb + length aggrs)%nat) as Hl.
  { refine (proj1 (Forall_forall _ _) (Hlen _ Hout) _ Ht). eapply Forall_impl; [exact HF|].
    intros kv' (ρ & _ & E & ?). split; [symmetry; by eapply length_mapM|done]. }
  rewrite Forall_forall in HF. destruct (HF kv Hkv) as (ρ & [Hd Hb] & Ek & _). split.
  - rewrite bind_cols_dom by (rewrite Hl, length_app, length_fmap; done).
    by rewrite dom_empty_L, union_empty_l_L, list_to_set_app_L.
  - intros id [Hid Hg%elem_of_list_to_set]%elem_of_intersection. simpl field_vals.
    rewrite (group_cols_of ρ) by done. by apply Hb.
Qed.

Section RowsOk.
Context `{TupleCodec} (tbl : Z → option (list item)).

(** The rows of a plan have its columns, and its boolean columns are boolean. *)
Lemma lsem_ok p rows : wf p = true → lsem tbl p = Some rows → Forall (row_ok p) rows.
Proof.
  revert rows. induction p as [cid name cols| | | |src IH preds|jt l IHl r IHr preds|src IH cols| |src IH gb aggrs|input IH exprs| |src IH m];
    intros rows Hw E; try done.
  - simpl in E. destruct (tbl cid) as [items|]; [|done]. simpl in E.
    apply (mapM_Forall (λ _, True) _ _ _ _ E); [by apply Forall_true|]. intros x ρ _ Hρ. unfold scan_row in Hρ.
    destruct (to_option _) as [t|]; [|done]. simpl in Hρ. destruct (mapM _ cols) as [vs|] eqn:Ev; [|done]. injection Hρ as <-.
    split; [|intros id Hid; by apply elem_of_empty in Hid].
    rewrite bind_cols_dom by (symmetry; by eapply length_mapM). simpl. by rewrite dom_empty_L, union_empty_l_L.
  - simpl in Hw, E. checks. destruct (lsem tbl src) as [rs|]; [|done]. simpl in E.
    apply (selects_sub (row_ok (LSelect src preds)) _ _ _ E). eapply Forall_impl; [by apply IH|]. by intros ρ [].
  - assert (∃ L R, lsem tbl l = Some L ∧ lsem tbl r = Some R ∧ sem_selects preds (sem_product L R) = Some rows) as (L & R & HL & HR & Es).
    { simpl in E. destruct jt; try done; (destruct (lsem tbl l) as [L|]; [|done]; destruct (lsem tbl r) as [R|]; [|done]; by exists L, R). }
    apply (selects_sub _ _ _ _ Es). simpl in Hw.
    destruct jt; try done; checks; apply product_ok; auto using wf_bools.
  - simpl in Hw, E. checks. destruct (lsem tbl src) as [rs|]; [|done]. simpl in E.
    apply (mapM_Forall (row_ok src) _ _ _ _ E); [by apply IH|]. intros ρ ρ'. apply project_row_ok.
  - simpl in E. destruct (lsem tbl src) as [rs|] eqn:Es; [|done]. simpl in E. destruct (mapM _ rs) as [vals|] eqn:Ev; [|done]. simpl in E.
    destruct (sem_aggregate aggrs.*2.*2 vals) as [out|] eqn:Eo; [|done]. injection E as <-.
    refine (aggregate_rows_ok src gb aggrs rs vals out Hw _ Ev Eo). apply IH; [|done]. simpl in Hw. by checks.
  - simpl in E. destruct (lsem tbl input) as [rs|]; [|done]. simpl in E.
    pose proof Hw as Hw'. simpl in Hw'. apply andb_true_iff in Hw' as [[[Hi _]%andb_true_iff _]%andb_true_iff _].
    apply (mapM_Forall (row_ok input) _ _ _ _ E); [by apply IH|]. intros ρ ρ'. apply map_row_ok; [done|by apply wf_bools].
  - simpl in Hw, E. destruct (lsem tbl src) as [rs|]; [|done]. injection E as <-.
    apply andb_true_iff in Hw as [[[Hs _]%andb_true_iff Hnd%bool_decide_eq_true]%andb_true_iff Ha%bool_decide_eq_true].
    apply Forall_map. eapply Forall_impl; [by apply IH|]. intros ρ [Hd _].
    split; [|intros id Hid; by apply elem_of_empty in Hid]. simpl. rewrite Ha, rename_dom, Hd; [done|].
    rewrite Hd. by apply NoDup_inj_on.
Qed.
End RowsOk.
