(* ===== verification/LogicalCorrect.v ===== *)
(** * Selections are pushed down correctly

    The optimizing constructors [select] and [join] of logical plans return, on plans that
    pass the static check, and what they return means the selection of the rows of the
    plan, or of the pairs of rows of the joined plans, by the predicates. *)

From stdpp Require Import strings gmap sorting.
From S2P Require Import Prelude Common Ordering Field FieldContract Tuple ByteCode Expr.
From S2P Require Import ExprCorrect OpIterator OpJoin OpAggregate OpAggregateCorrect.
From S2P Require Import DbCatalog PhysicalPlan PlanSem PlanRel LogicalSem Logical.


Open Scope Z_scope.

(** ** Filters *)

Lemma filter_filter {A} (f g : A → bool) l : List.filter f (List.filter g l) = List.filter (λ x, g x && f x) l.
Proof. induction l as [|x l IH]; [done|]. simpl. destruct (g x); simpl; [|done]. by rewrite IH. Qed.

Lemma filter_ext_Forall {A} (f g : A → bool) l : Forall (λ x, f x = g x) l → List.filter f l = List.filter g l.
Proof. induction 1 as [|x l Hx _ IH]; [done|]. simpl. by rewrite Hx, IH. Qed.

Lemma all_true_in_app es es' ρ : all_true_in (es ++ es') ρ = all_true_in es ρ && all_true_in es' ρ.
Proof. apply forallb_app. Qed.

Lemma all_true_partition f es ρ :
  all_true_in es ρ = all_true_in (Build.keep_if f es).1 ρ && all_true_in (Build.keep_if f es).2 ρ.
Proof.
  unfold all_true_in. induction es as [|e es IH]; [done|]. simpl. rewrite IH. simpl.
  destruct (f e); simpl; destruct (true_in ρ e); simpl; rewrite ?andb_false_r; done.
Qed.

Lemma forallb_partition {A} (P f : A → bool) es :
  forallb P es = true → forallb P (Build.keep_if f es).1 = true ∧ forallb P (Build.keep_if f es).2 = true.
Proof.
  induction es as [|e es IH]; intros H; [done|]. simpl in *. apply andb_true_iff in H as [He H].
  destruct (IH H). destruct (f e); simpl; by rewrite ?He.
Qed.

Lemma filter_product (f fl fr fk : row → bool) L R :
  (∀ ρl ρr, ρl ∈ L → ρr ∈ R → f (both ρl ρr) = fl ρl && fr ρr && fk (both ρl ρr)) →
  List.filter f (sem_product L R) = List.filter fk (sem_product (List.filter fl L) (List.filter fr R)).
Proof.
  unfold sem_product. induction L as [|ρl L IH]; intros Hf; [done|]. cbn [mbind list_bind].
  rewrite List.filter_app. rewrite IH by (intros; apply Hf; [by right|done]).
  assert (List.filter f (both ρl <$> R) = if fl ρl then List.filter fk (both ρl <$> List.filter fr R) else []) as ->.
  { assert (∀ ρr, ρr ∈ R → f (both ρl ρr) = fl ρl && fr ρr && fk (both ρl ρr)) as Hρ by (intros; apply Hf; [left|done]).
    clear IH Hf. induction R as [|ρr R IH]; [by destruct (fl ρl)|]. rewrite fmap_cons. cbn [List.filter]. rewrite Hρ by left.
    rewrite IH by (intros; apply Hρ; by right). destruct (fl ρl), (fr ρr); simpl; done. }
  simpl. destruct (fl ρl); [|done]. cbn [mbind list_bind]. by rewrite List.filter_app.
Qed.

(** Predicates over the columns of one side of a join. *)
Lemma all_true_both_l es (ρl ρr : row) :
  Forall (λ e, Expr.free e ⊆ dom ρl) es → dom ρl ## dom ρr → all_true_in es (both ρl ρr) = all_true_in es ρl.
Proof.
  intros HF Hd. unfold all_true_in. induction HF as [|e es He _ IH]; [done|]. simpl. rewrite IH. f_equal.
  unfold true_in. f_equal. apply truth_agree. intros id Hid. apply both_left. set_solver.
Qed.

Lemma all_true_both_r es (ρl ρr : row) :
  Forall (λ e, Expr.free e ⊆ dom ρr) es → all_true_in es (both ρl ρr) = all_true_in es ρr.
Proof.
  intros HF. unfold all_true_in. induction HF as [|e es He _ IH]; [done|]. simpl. rewrite IH. f_equal.
  unfold true_in. f_equal. apply truth_agree. intros id Hid. apply both_right. set_solver.
Qed.

(** Only the columns an expression mentions matter. *)
Lemma boolean_restrict B B' e :
  boolean_expr B e = true → (∀ id, id ∈ B → id ∈ Expr.free e → id ∈ B') → boolean_expr B' e = true.
Proof.
  induction e as [id|v|op l IHl r IHr| |]; intros Hb HB; try done.
  - simpl in *. apply bool_decide_eq_true in Hb. apply bool_decide_eq_true, HB; [done|set_solver].
  - simpl in *. destruct op; try done; apply andb_true_iff in Hb as [Hl Hr]; apply andb_true_iff; split;
      [apply IHl|apply IHr|apply IHl|apply IHr]; try done; intros id ? ?; apply HB; try done; set_solver.
Qed.

Section Correct.
Context `{TupleCodec} (tbl : Z → option (list item)) (rules : RuleSet).

(** [p'] means the selection of the rows of [p] by [preds]. *)
Record select_spec (p : LogicalRelExpr) (preds : list LExpr) (p' : LogicalRelExpr) : Prop := {
  ss_wf : wf p' = true;
  ss_att : Log.att p' = Log.att p;
  ss_bools : bools p' = bools p;
  ss_sem rows : lsem tbl p = Some rows → lsem tbl p' = Some (List.filter (all_true_in preds) rows)
}.

Lemma selects_ok A B es (rows : list row) :
  forallb (pred_in A B) es = true → Forall (λ ρ, A ⊆ dom ρ ∧ bools_in B ρ) rows →
  sem_selects es rows = Some (List.filter (all_true_in es) rows).
Proof.
  intros Hes Hrows. apply selects_filter. eapply Forall_impl; [exact Hrows|]. intros ρ [HA HB].
  apply Forall_forall. intros e He. apply (pred_truth A B); try done.
  rewrite forallb_forall in Hes. by apply Hes, list_elem_of_In.
Qed.

Lemma rows_typed p (rows : list row) :
  Forall (row_ok p) rows → Forall (λ ρ, Log.att p ⊆ dom ρ ∧ bools_in (bools p) ρ) rows.
Proof. intros HF. eapply Forall_impl; [exact HF|]. intros ρ [-> ?]. done. Qed.

Lemma filter_split p es (rows : list row) :
  forallb (pred_ok p) es = true → Forall (row_ok p) rows →
  List.filter (all_true_in (Build.split_all es)) rows = List.filter (all_true_in es) rows.
Proof.
  intros Hes Hrows. destruct (split_all_ok _ _ es Hes) as [_ Ht]. apply filter_ext_Forall.
  eapply Forall_impl; [exact Hrows|]. intros ρ [Hd Hb]. apply Ht; [by rewrite Hd|done].
Qed.

Lemma lselect_spec p es : wf p = true → forallb (pred_ok p) es = true → select_spec p es (LSelect p es).
Proof.
  intros Hw Hes. split; [simpl; by rewrite Hw, Hes|done|done|]. intros rows E. simpl. rewrite E. simpl.
  apply (selects_ok _ _ _ _ Hes), rows_typed. by apply (lsem_ok tbl).
Qed.

Lemma select_spec_split p es p' :
  wf p = true → forallb (pred_ok p) es = true → select_spec p (Build.split_all es) p' → select_spec p es p'.
Proof.
  intros Hw Hes [? ? ? Hs]. split; try done. intros rows E. rewrite (Hs rows E). f_equal.
  apply (filter_split p); [done|]. by apply (lsem_ok tbl).
Qed.

Lemma select_spec_nil p : wf p = true → select_spec p [] p.
Proof.
  intros Hw. split; try done. intros rows ->. f_equal. induction rows as [|ρ rows IH]; [done|]. simpl. by rewrite <-IH.
Qed.

Lemma select_plain_spec p es : wf p = true → forallb (pred_ok p) es = true → select_spec p es (Build.select_plain p es).
Proof.
  intros Hw Hes. destruct es as [|e es]; [by apply select_spec_nil|]. apply select_spec_split; [done|done|].
  apply lselect_spec; [done|]. by apply split_all_ok.
Qed.

(** ** Joins *)

Record join_spec (l r : LogicalRelExpr) (preds : list LExpr) (p' : LogicalRelExpr) : Prop := {
  js_wf : wf p' = true;
  js_att : Log.att p' = Log.att l ∪ Log.att r;
  js_bools : bools p' = bools l ∪ bools r;
  js_sem L R : lsem tbl l = Some L → lsem tbl r = Some R →
    lsem tbl p' = Some (List.filter (all_true_in preds) (sem_product L R))
}.

Definition joinable (jt : JoinType) : bool := match jt with Inner | CrossType => true | _ => false end.
Definition pred_on (l r : LogicalRelExpr) : LExpr → bool := pred_in (Log.att l ∪ Log.att r) (bools l ∪ bools r).

Lemma product_typed l r L R :
  wf l = true → wf r = true → Log.att l ## Log.att r → lsem tbl l = Some L → lsem tbl r = Some R →
  Forall (λ ρ, Log.att l ∪ Log.att r ⊆ dom ρ ∧ bools_in (bools l ∪ bools r) ρ) (sem_product L R).
Proof.
  intros Hl Hr Hd EL ER. apply (rows_typed (LJoin Inner l r [])).
  apply product_ok; auto using wf_bools; by apply (lsem_ok tbl).
Qed.

Lemma ljoin_spec jt l r es :
  joinable jt = true → wf l = true → wf r = true → Log.att l ## Log.att r → forallb (pred_on l r) es = true →
  join_spec l r es (LJoin jt l r es).
Proof.
  intros Hj Hl Hr Hd Hes. split; [|done|done|].
  - simpl. unfold pred_on in Hes. rewrite Hl, Hr, (bool_decide_eq_true_2 _ Hd), Hes. by destruct jt.
  - intros L R EL ER. assert (lsem tbl (LJoin jt l r es) = sem_selects es (sem_product L R)) as ->.
    { simpl. rewrite EL, ER. by destruct jt. }
    apply (selects_ok _ _ _ _ Hes). by apply product_typed.
Qed.

Lemma join_spec_split l r es p' :
  wf l = true → wf r = true → Log.att l ## Log.att r → forallb (pred_on l r) es = true →
  join_spec l r (Build.split_all es) p' → join_spec l r es p'.
Proof.
  intros Hl Hr Hd Hes [? ? ? Hs]. split; try done. intros L R EL ER. rewrite (Hs L R EL ER). f_equal.
  destruct (split_all_ok _ _ es Hes) as [_ Ht]. apply filter_ext_Forall.
  eapply Forall_impl; [exact (product_typed l r L R Hl Hr Hd EL ER)|]. intros ρ [? ?]. by apply Ht.
Qed.

Lemma join_plain_spec jt l r es :
  joinable jt = true → wf l = true → wf r = true → Log.att l ## Log.att r → forallb (pred_on l r) es = true →
  join_spec l r es (Build.join_plain jt l r es).
Proof.
  intros Hj Hl Hr Hd Hes. destruct es as [|e es]; [by apply ljoin_spec|].
  apply join_spec_split; try done. apply ljoin_spec; try done. by apply split_all_ok.
Qed.

(** Predicates of a join that are over the columns of one side. *)
Lemma bound_preds l r q es :
  forallb (pred_on l r) es = true → q = l ∨ q = r → bools l ⊆ Log.att l → bools r ⊆ Log.att r → Log.att l ## Log.att r →
  forallb (pred_ok q) (Build.keep_if (λ e, Expr.bound_by e q) es).1 = true ∧
  Forall (λ e, Expr.free e ⊆ Log.att q) (Build.keep_if (λ e, Expr.bound_by e q) es).1.
Proof.
  intros Hes Hq Hbl Hbr Hd. induction es as [|e es IH]; [by split|]. simpl in Hes. apply andb_true_iff in Hes as [He Hes].
  destruct (IH Hes) as [H1 H2]. simpl. destruct (Expr.bound_by e q) eqn:Eb; [|done].
  apply bool_decide_eq_true in Eb. simpl. split; [|by constructor]. apply andb_true_iff. split; [|done].
  apply andb_true_iff in He as [Hb _]. apply andb_true_iff. split; [|by apply bool_decide_eq_true].
  apply (boolean_restrict (bools l ∪ bools r)); [done|]. intros id Hid Hf. apply Eb in Hf. simpl in Hf.
  destruct Hq; subst q; set_solver.
Qed.

Lemma join_push_spec jt l r es A B K l' r' :
  joinable jt = true → wf l = true → wf r = true → Log.att l ## Log.att r →
  Forall (λ e, Expr.free e ⊆ Log.att l) A → Forall (λ e, Expr.free e ⊆ Log.att r) B → forallb (pred_on l r) K = true →
  (∀ ρ, all_true_in es ρ = all_true_in A ρ && all_true_in B ρ && all_true_in K ρ) →
  select_spec l A l' → select_spec r B r' → join_spec l r es (Build.join_plain jt l' r' K).
Proof.
  intros Hj Hl Hr Hd HA HB HK Hes [Wl Al Bl Sl] [Wr Ar Br Sr].
  destruct (join_plain_spec jt l' r' K) as [Wj Aj Bj Sj]; try done.
  { by rewrite Al, Ar. } { unfold pred_on. by rewrite Al, Ar, Bl, Br. }
  rewrite Al, Ar in Aj. rewrite Bl, Br in Bj. split; [done|done|done|]. intros L R EL ER.
  rewrite (Sj _ _ (Sl L EL) (Sr R ER)). f_equal. symmetry. apply filter_product. intros ρl ρr Hin_l Hin_r.
  pose proof (lsem_ok tbl l L Hl EL) as FL. pose proof (lsem_ok tbl r R Hr ER) as FR. rewrite Forall_forall in FL, FR.
  destruct (FL ρl Hin_l) as [Dl _], (FR ρr Hin_r) as [Dr _].
  rewrite Hes, all_true_both_l, all_true_both_r by (rewrite ?Dl, ?Dr; done). done.
Qed.

Lemma frees_sub es A : forallb (λ e, bool_decide (Expr.free e ⊆ A)) es = true → Build.frees es ⊆ A.
Proof.
  unfold Build.frees. assert (∀ S : gset Z, S ⊆ A → forallb (λ e, bool_decide (Expr.free e ⊆ A)) es = true →
    foldl (λ set e, set ∪ Expr.free e) S es ⊆ A) as G; [|by apply G, empty_subseteq].
  induction es as [|e es IH]; intros S HS Hes; [done|]. simpl in *. apply andb_true_iff in Hes as [He%bool_decide_eq_true Hes].
  apply IH; [|done]. by apply union_least.
Qed.

Lemma join_with_ok sel_l sel_r jt l r es :
  (∀ ps, forallb (pred_ok l) ps = true → ∃ l', sel_l ps = Ret l' ∧ select_spec l ps l') →
  (∀ ps, forallb (pred_ok r) ps = true → ∃ r', sel_r ps = Ret r' ∧ select_spec r ps r') →
  joinable jt = true → wf l = true → wf r = true → Log.att l ## Log.att r → forallb (pred_on l r) es = true →
  ∃ p', Build.join_with sel_l sel_r jt l r es = Ret p' ∧ join_spec l r es p'.
Proof.
  intros Hsl Hsr Hj Hl Hr Hd Hes. destruct es as [|e0 es0]; [eexists; split; [done|by apply ljoin_spec]|].
  set (es := e0 :: es0) in *. destruct (split_all_ok _ _ es Hes) as [Hss _].
  assert (∀ p, join_spec l r (Build.split_all es) p → join_spec l r es p) as Hsplit by (intros; by apply join_spec_split).
  destruct (bound_preds l r l _ Hss) as [HpA HfA]; [by left|auto using wf_bools..|done|].
  pose proof (forallb_partition (pred_on l r) (λ e, Expr.bound_by e l) _ Hss) as [_ HK1].
  destruct (bound_preds l r r _ HK1) as [HpB HfB]; [by right|auto using wf_bools..|done|].
  pose proof (forallb_partition (pred_on l r) (λ e, Expr.bound_by e r) _ HK1) as [_ HK].
  destruct (bound_preds l r r _ Hss) as [HpC HfC]; [by right|auto using wf_bools..|done|].
  pose proof (forallb_partition (pred_on l r) (λ e, Expr.bound_by e r) _ Hss) as [_ HKC].
  pose proof (all_true_partition (λ e, Expr.bound_by e l) (Build.split_all es)) as T1.
  pose proof (all_true_partition (λ e, Expr.bound_by e r) (Build.split_all es)) as T3.
  pose proof (all_true_partition (λ e, Expr.bound_by e r) (Build.keep_if (λ e, Expr.bound_by e l) (Build.split_all es)).2) as T2.
  assert (∀ x y : outcome LogicalRelExpr, match es with [] => x | _ :: _ => y end = y) as Hm by done.
  unfold Build.join_with. rewrite Hm. set (ss := Build.split_all es) in *. clearbody ss es.
  destruct (Build.keep_if (λ e, Expr.bound_by e l) ss) as [A K1]; cbn [fst snd] in *.
  destruct (Build.keep_if (λ e, Expr.bound_by e r) K1) as [B K]; cbn [fst snd] in *.
  destruct (Build.keep_if (λ e, Expr.bound_by e r) ss) as [C KC]; cbn [fst snd] in *.
  destruct (_ && negb (bool_decide (A = [] ∧ B = []))).
  { destruct (Hsl A HpA) as (l' & -> & Sl), (Hsr B HpB) as (r' & -> & Sr). eexists. split; [done|]. apply Hsplit.
    apply (join_push_spec _ _ _ _ A B); try done; [by destruct (_ && _)|].
    intros ρ. by rewrite T1, T2, andb_assoc. }
  destruct (_ && negb (bool_decide (C = []))).
  { destruct (Hsr C HpC) as (r' & -> & Sr). eexists. split; [done|]. apply Hsplit.
    apply (join_push_spec _ _ _ _ [] C); try done. by apply select_spec_nil. }
  destruct (bool_decide (jt = CrossType)).
  - rewrite bool_decide_eq_true_2; [eexists; split; [done|]; by apply Hsplit, join_plain_spec|].
    apply frees_sub. apply forallb_forall. intros e He. rewrite forallb_forall in Hss. specialize (Hss e He).
    by apply andb_true_iff in Hss as [_ ?].
  - eexists. split; [done|]. by apply Hsplit, ljoin_spec.
Qed.

(** ** Computed columns *)

Section Map.
Context (input : LogicalRelExpr) (exprs : list (Z * LExpr)) (Hwf : wf (LMap input exprs) = true).
Let p := LMap input exprs.

(** [ρ'] is the row of the map for the row [ρ] of its input. *)
Definition computed (ρ ρ' : row) : Prop :=
  row_ok input ρ ∧ ∃ vs, mapM (eval_row ρ) exprs.*2 = Some vs ∧ ρ' = bind_cols ρ exprs.*1 vs.

Lemma map_parts :
  wf input = true ∧ NoDup exprs.*1 ∧ Log.att input ## list_to_set exprs.*1 ∧
  ∀ x, x ∈ exprs → Expr.free x.2 ⊆ Log.att input.
Proof.
  pose proof Hwf as Hw. simpl in Hw. checks. split_and!; try done. intros x Hx%list_elem_of_In.
  rewrite forallb_forall in H1. specialize (H1 x Hx). by checks.
Qed.

Lemma computed_old ρ ρ' id : computed ρ ρ' → id ∉ exprs.*1 → ρ' !! id = ρ !! id.
Proof. intros (_ & vs & _ & ->) Hid. by apply bind_cols_notin. Qed.

Lemma computed_agree ρ ρ' (e : LExpr) :
  computed ρ ρ' → Expr.free e ## list_to_set exprs.*1 → truth ρ' e = truth ρ e.
Proof.
  intros Hc Hd. apply truth_agree. intros id Hid. apply (computed_old ρ ρ' id Hc). intros Hi.
  apply (Hd id Hid). by apply elem_of_list_to_set.
Qed.

Lemma computed_new ρ ρ' dest (e : LExpr) : computed ρ ρ' → (dest, e) ∈ exprs → true_in ρ' (ColRef dest) = true_in ρ' e.
Proof.
  intros Hc Hin. destruct map_parts as (_ & Hnd & Hdis & Hfree). pose proof (Hfree _ Hin) as Hf. simpl in Hf.
  unfold true_in at 2. rewrite (computed_agree ρ ρ' e Hc) by set_solver. destruct Hc as (Hρ & vs & Hvs & ->).
  apply list_elem_of_lookup in Hin as [n Hn]. apply mapM_Some in Hvs.
  destruct (Forall2_lookup_l _ _ _ n e Hvs) as (v & Hv & He); [by rewrite list_lookup_fmap, Hn|].
  unfold true_in, truth. rewrite He. unfold eval_row. simpl.
  rewrite (bind_cols_in ρ _ _ n dest v Hnd); [done|by rewrite list_lookup_fmap, Hn|done].
Qed.

(** An expression a boolean column is computed by is boolean. *)
Lemma computed_boolean dest (e : LExpr) :
  (dest, e) ∈ exprs → pred_ok p (ColRef dest) = true → pred_ok p e = true.
Proof.
  intros Hin Hp. destruct map_parts as (Hi & Hnd & Hdis & Hfree). pose proof (Hfree _ Hin) as Hf. simpl in Hf.
  apply andb_true_iff in Hp as [Hb%bool_decide_eq_true _]. simpl in Hb.
  apply andb_true_iff. split; [|apply bool_decide_eq_true; simpl; set_solver].
  assert (dest ∈ exprs.*1) as Hd by (apply list_elem_of_fmap; by exists (dest, e)).
  apply elem_of_union in Hb as [Hb|Hb%elem_of_list_to_set].
  { apply (wf_bools _ Hi) in Hb. destruct (Hdis dest Hb). by apply elem_of_list_to_set. }
  apply list_elem_of_fmap in Hb as ([d x] & E & Hx). simpl in E. subst d.
  apply list_elem_of_In, filter_In in Hx as [Hx%list_elem_of_In Hbx]. simpl in Hbx.
  apply list_elem_of_lookup in Hin as [i Hi'], Hx as [j Hj].
  assert (i = j) as -> by (apply (NoDup_lookup _ i j dest Hnd); by rewrite list_lookup_fmap, ?Hi', ?Hj).
  assert (x = e) as -> by congruence. apply (boolean_restrict (bools input)); [done|]. simpl. set_solver.
Qed.

Lemma inline_ok es :
  forallb (pred_ok p) es = true →
  forallb (pred_ok p) (Build.inline_columns input exprs es) = true ∧
  ∀ ρ ρ', computed ρ ρ' → all_true_in (Build.inline_columns input exprs es) ρ' = all_true_in es ρ'.
Proof.
  intros Hes. unfold Build.inline_columns.
  assert (∀ xs ps, (∀ x, x ∈ xs → x ∈ exprs) → forallb (pred_ok p) ps = true →
    let ps' := foldl (λ preds '(dest_id, expr), map (λ pred : LExpr, match pred with
      | ColRef id => if (id =? dest_id) && Expr.bound_by expr input then expr else pred | _ => pred end) preds) ps xs in
    forallb (pred_ok p) ps' = true ∧ ∀ ρ ρ', computed ρ ρ' → all_true_in ps' ρ' = all_true_in ps ρ') as G; [|by apply G].
  induction xs as [|[dest e] xs IH]; intros ps Hxs Hps ps'; [done|]. subst ps'. simpl.
  assert (∀ q : LExpr, pred_ok p q = true →
    let q' := match q with ColRef id => if (id =? dest) && Expr.bound_by e input then e else q | _ => q end in
    pred_ok p q' = true ∧ ∀ ρ ρ', computed ρ ρ' → true_in ρ' q' = true_in ρ' q) as Hq.
  { intros q Hq q'. destruct q as [id| | | |]; try done. subst q'. destruct (Z.eqb_spec id dest) as [->|]; [|done]. simpl.
    destruct (Expr.bound_by e input); [|done]. split; [by apply (computed_boolean dest); [apply Hxs; left|]|].
    intros ρ ρ' Hc. symmetry. apply (computed_new ρ ρ' dest e Hc). apply Hxs. left. }
  destruct (IH (map (λ pred : LExpr, match pred with
      | ColRef id => if (id =? dest) && Expr.bound_by e input then e else pred | _ => pred end) ps)) as [H1 H2].
  { intros x Hx. apply Hxs. by right. }
  { clear IH Hxs. induction ps as [|q ps IHp]; [done|]. simpl in *. apply andb_true_iff in Hps as [Hqq Hps].
    apply andb_true_iff. split; [by apply (Hq q Hqq)|by apply IHp]. }
  split; [exact H1|]. intros ρ ρ' Hc. rewrite (H2 ρ ρ' Hc). clear -Hq Hps Hc. unfold all_true_in.
  induction ps as [|q ps IHp]; [done|]. simpl in *. apply andb_true_iff in Hps as [Hqq Hps].
  f_equal; [by apply (proj2 (Hq q Hqq) ρ ρ')|by apply IHp].
Qed.

Lemma map_rows (rs rows : list row) :
  lsem tbl input = Some rs → lsem tbl p = Some rows → Forall2 computed rs rows.
Proof.
  intros Ei Ep. simpl in Ep. rewrite Ei in Ep. simpl in Ep. destruct map_parts as (Hi & _).
  pose proof (lsem_ok tbl _ _ Hi Ei) as HF. apply mapM_Some in Ep. clear Ei. induction Ep as [|ρ ρ' rs rows E _ IH]; [constructor|].
  apply Forall_cons in HF as [Hρ HF]. constructor; [|by apply IH]. destruct (mapM _ exprs.*2) as [vs|] eqn:Ev; [|done].
  injection E as <-. split; [done|]. by exists vs.
Qed.

Definition over_input (e : LExpr) : bool := bool_decide (Expr.free e ## (list_to_set exprs.*1 : gset Z)).

Lemma push_preds es :
  forallb (pred_ok p) es = true →
  forallb (pred_ok input) (Build.keep_if over_input es).1 = true ∧
  ∀ ρ ρ', computed ρ ρ' → all_true_in (Build.keep_if over_input es).1 ρ' = all_true_in (Build.keep_if over_input es).1 ρ.
Proof.
  induction es as [|e es IH]; intros Hes; [done|]. simpl in Hes. apply andb_true_iff in Hes as [He Hes].
  destruct (IH Hes) as [H1 H2]. cbn [Build.keep_if fst List.filter] in *. destruct (over_input e) eqn:Ed; [|done].
  apply bool_decide_eq_true in Ed. apply andb_true_iff in He as [Hb Hf%bool_decide_eq_true]. simpl in Hf. split.
  - simpl. apply andb_true_iff. split; [|done]. apply andb_true_iff.
    split; [|apply bool_decide_eq_true; simpl; set_solver]. apply (boolean_restrict (bools p)); [done|].
    intros id Hid Hid'. simpl in Hid. apply elem_of_union in Hid as [?|Hid%elem_of_list_to_set]; [done|].
    destruct (Ed id Hid'). apply elem_of_list_to_set. apply list_elem_of_fmap in Hid as (x & -> & Hx).
    apply list_elem_of_In, filter_In in Hx as [Hx _]. apply list_elem_of_fmap. exists x. split; [done|by apply list_elem_of_In].
  - intros ρ ρ' Hc. unfold all_true_in in *. simpl. rewrite (H2 ρ ρ' Hc). f_equal. unfold true_in.
    by rewrite (computed_agree ρ ρ' e Hc).
Qed.

Lemma mapM_filter {A B} (f : A → option B) (g : A → bool) (g' : B → bool) l k :
  mapM f l = Some k → Forall2 (λ x y, g' y = g x) l k → mapM f (List.filter g l) = Some (List.filter g' k).
Proof.
  intros E HF. apply mapM_Some in E. induction E as [|x y l k Hf _ IH]; [done|]. apply Forall2_cons in HF as [Hg HF].
  specialize (IH HF). simpl. rewrite Hg. destruct (g x); [|done]. simpl. by rewrite Hf, IH.
Qed.

Lemma map_plain_spec es input' :
  (∀ ρ ρ', computed ρ ρ' → all_true_in es ρ' = all_true_in es ρ) →
  select_spec input es input' → select_spec p es (Build.map_plain input' exprs).
Proof.
  intros Hag [Wi Ai Bi Si].
  assert (select_spec p es (LMap input' exprs)) as [W A B S].
  { split.
    - pose proof Hwf as Hw. simpl in Hw |- *. rewrite Wi, Ai. by checks; rewrite !bool_decide_eq_true_2.
    - simpl. by rewrite Ai.
    - simpl. by rewrite Bi.
    - intros rows E. assert (∃ rs, lsem tbl input = Some rs) as [rs Ei].
      { simpl in E. destruct (lsem tbl input) as [rs|]; [by exists rs|done]. }
      pose proof (map_rows rs rows Ei E) as HF. simpl in E |- *. rewrite Ei in E. rewrite (Si rs Ei).
      apply (mapM_filter _ _ _ _ _ E). eapply Forall2_impl; [exact HF|]. apply Hag. }
  destruct exprs as [|x xs]; [|done]. unfold Build.map_plain. split; [done| | |].
  - simpl in A |- *. rewrite <-A. set_solver.
  - simpl in B |- *. rewrite <-B. set_solver.
  - intros rows E. specialize (S rows E). simpl in S. destruct (lsem tbl input') as [rs|]; [|done]. simpl in S.
    rewrite <-S. clear. induction rs as [|ρ rs IH]; [done|]. simpl in *. by rewrite <-IH.
Qed.

Lemma select_map_ok sel es :
  (∀ ps, forallb (pred_ok input) ps = true → ∃ i', sel ps = Ret i' ∧ select_spec input ps i') →
  forallb (pred_ok p) es = true →
  let inl := Build.inline_columns input exprs es in
  ∃ i', sel (Build.keep_if over_input inl).1 = Ret i' ∧
    select_spec p es (Build.select_plain (Build.map_plain i' exprs) (Build.keep_if over_input inl).2).
Proof.
  intros Hsel Hes inl. destruct (inline_ok es Hes) as [Hinl Ht]. destruct (push_preds inl Hinl) as [Hpush Hag].
  pose proof (forallb_partition (pred_ok p) over_input inl Hinl) as [_ Hkeep].
  pose proof (all_true_partition over_input inl) as Hpart.
  destruct (Hsel _ Hpush) as (i' & -> & Si). exists i'. split; [done|].
  destruct (map_plain_spec _ i' Hag Si) as [W A B S].
  destruct (select_plain_spec (Build.map_plain i' exprs) (Build.keep_if over_input inl).2) as [W' A' B' S']; [done| |].
  { unfold pred_ok. by rewrite A, B. }
  split; [done|by rewrite A', A|by rewrite B', B|]. intros rows E. rewrite (S' _ (S rows E)). f_equal.
  rewrite filter_filter. apply filter_ext_Forall.
  assert (∃ rs, lsem tbl input = Some rs) as [rs Ei].
  { simpl in E. destruct (lsem tbl input) as [rs|]; [by exists rs|done]. }
  pose proof (map_rows rs rows Ei E) as HF. apply Forall_forall. intros ρ' Hρ'. apply list_elem_of_lookup in Hρ' as [n Hn].
  destruct (Forall2_lookup_r _ _ _ _ _ HF Hn) as (ρ & _ & Hc). rewrite <-(Ht ρ ρ' Hc). symmetry. apply Hpart.
Qed.
End Map.

(** ** Aggregations *)

Section Agg.
Context (src : LogicalRelExpr) (gb : list Z) (aggrs : list (Z * (Z * AggOp))) (Hwf : wf (LAggregate src gb aggrs) = true).
Let p := LAggregate src gb aggrs.

Definition over_groups (e : LExpr) : bool := bool_decide (Expr.free e ⊆ (list_to_set gb : gset Z)).

Lemma agg_parts : wf src = true ∧ list_to_set gb ⊆ Log.att src ∧ NoDup (gb ++ aggrs.*1).
Proof. pose proof Hwf as Hw. simpl in Hw. by checks. Qed.

Lemma group_preds es :
  forallb (pred_ok p) es = true →
  forallb (pred_ok src) (Build.keep_if over_groups es).1 = true ∧
  Forall (λ e, Expr.free e ⊆ (list_to_set gb : gset Z)) (Build.keep_if over_groups es).1.
Proof.
  destruct agg_parts as (_ & Hg & _). induction es as [|e es IH]; intros Hes; [by split|]. simpl in Hes.
  apply andb_true_iff in Hes as [He Hes]. destruct (IH Hes) as [H1 H2]. cbn [Build.keep_if fst List.filter] in *.
  destruct (over_groups e) eqn:Ed; [|done]. apply bool_decide_eq_true in Ed. split; [|by constructor].
  apply andb_true_iff in He as [Hb _]. simpl. apply andb_true_iff. split; [|done]. apply andb_true_iff.
  split; [|apply bool_decide_eq_true; by trans (list_to_set gb : gset Z)].
  apply (boolean_restrict (bools p)); [done|]. simpl. intros id [? _]%elem_of_intersection _. done.
Qed.

Lemma all_true_agree es (ρ ρ' : row) :
  Forall (λ e, Expr.free e ⊆ (list_to_set gb : gset Z)) es → (∀ id, id ∈ gb → ρ !! id = ρ' !! id) →
  all_true_in es ρ = all_true_in es ρ'.
Proof.
  intros HF Hag. unfold all_true_in. induction HF as [|e es He _ IH]; [done|]. simpl. rewrite IH. f_equal.
  unfold true_in. f_equal. apply truth_agree. intros id Hid. apply Hag. apply He in Hid. by apply elem_of_list_to_set in Hid.
Qed.

(** The rows of the source with their keys and aggregated values. *)
Definition keyed_row (ρ : row) : option (list Field * list Field) :=
  k ← mapM (λ id, ρ !! id) gb; vs ← mapM (λ id, ρ !! id) aggrs.*2.*1; Some (k, vs).

Lemma keyed_row_key ρ kv : keyed_row ρ = Some kv → mapM (λ id, ρ !! id) gb = Some kv.1.
Proof.
  unfold keyed_row. destruct (mapM _ gb) as [k|]; [|done]. simpl. destruct (mapM _ aggrs.*2.*1); [|done]. by intros [= <-].
Qed.

Lemma filter_map_comm {A B} (f : B → bool) (g : A → bool) (h : A → B) l :
  Forall (λ x, f (h x) = g x) l → List.filter f (map h l) = map h (List.filter g l).
Proof. induction 1 as [|x l Hx _ IH]; [done|]. simpl. rewrite Hx, IH. by destruct (g x). Qed.

Lemma aggregate_push es src' :
  Forall (λ e, Expr.free e ⊆ (list_to_set gb : gset Z)) es →
  select_spec src es src' → select_spec p es (LAggregate src' gb aggrs).
Proof.
  intros Hf [Ws As Bs Ss]. destruct agg_parts as (Hs & Hg & Hnd). split.
  - simpl. by rewrite Ws, As, !bool_decide_eq_true_2.
  - done.
  - simpl. by rewrite Bs.
  - intros rows E. simpl in E |- *. destruct (lsem tbl src) as [rs|] eqn:Er; [|done]. simpl in E.
    change (mapM _ rs) with (mapM keyed_row rs) in E. destruct (mapM keyed_row rs) as [vals|] eqn:Ev; [|done]. simpl in E.
    destruct (sem_aggregate aggrs.*2.*2 vals) as [out|] eqn:Eo; [|done]. injection E as <-.
    set (q := λ k, all_true_in es (bind_cols ∅ gb k)). rewrite (Ss rs eq_refl). simpl.
    change (mapM _ (List.filter (all_true_in es) rs)) with (mapM keyed_row (List.filter (all_true_in es) rs)).
    pose proof Ev as HF. apply mapM_Some in HF.
    rewrite (mapM_filter keyed_row (all_true_in es) (λ kv, q kv.1) rs vals Ev); simpl.
    2: { eapply Forall2_impl; [exact HF|]. intros ρ kv Ek%keyed_row_key. apply all_true_agree; [done|].
         intros id Hid. by apply bind_cols_of. }
    assert (Forall (λ kv, ∃ ρ : row, mapM (λ id, ρ !! id) gb = Some kv.1) vals) as Hkeys.
    { clear -HF. induction HF as [|ρ kv rs vals Ek%keyed_row_key _ IH]; constructor; [by exists ρ|done]. }
    rewrite (aggregate_filter _ q (length gb) vals out); [|clear -Hkeys|done].
    2: { eapply Forall_impl; [exact Hkeys|]. intros kv [ρ Ek]. symmetry. by eapply length_mapM. }
    simpl. f_equal. symmetry. apply filter_map_comm. pose proof (aggregate_keys _ _ _ Eo) as Hout.
    eapply Forall_impl; [exact Hout|]. intros t (k & fs & -> & Hk). apply list_elem_of_fmap in Hk as (kv & -> & Hkv).
    rewrite Forall_forall in Hkeys. destruct (Hkeys kv Hkv) as [ρ Ek]. unfold q. simpl field_vals.
    rewrite take_app_length' by by eapply length_mapM. apply all_true_agree; [done|]. intros id Hid.
    rewrite (group_cols_of ρ) by done. symmetry. by apply bind_cols_of.
Qed.

Lemma select_aggregate_ok sel es :
  (∀ ps, forallb (pred_ok src) ps = true → ∃ s', sel ps = Ret s' ∧ select_spec src ps s') →
  forallb (pred_ok p) es = true →
  ∃ s', sel (Build.keep_if over_groups es).1 = Ret s' ∧
    select_spec p es (Build.select_plain (Build.aggregate s' gb aggrs) (Build.keep_if over_groups es).2).
Proof.
  intros Hsel Hes. destruct (group_preds es Hes) as [Hpush Hf].
  pose proof (forallb_partition (pred_ok p) over_groups es Hes) as [_ Hkeep].
  pose proof (all_true_partition over_groups es) as Hpart.
  destruct (Hsel _ Hpush) as (s' & -> & Ss). exists s'. split; [done|].
  destruct (aggregate_push _ s' Hf Ss) as [W A B S].
  destruct (select_plain_spec (LAggregate s' gb aggrs) (Build.keep_if over_groups es).2) as [W' A' B' S']; [done| |].
  { unfold pred_ok. by rewrite A, B. }
  unfold Build.aggregate. split; [done|by rewrite A', A|by rewrite B', B|]. intros rows E. rewrite (S' _ (S rows E)). f_equal.
  rewrite filter_filter. apply filter_ext_Forall, Forall_true. intros ρ. symmetry. apply Hpart.
Qed.
End Agg.

(** ** Selections *)

Lemma filter_preds_app es es' (rows : list row) :
  List.filter (all_true_in (es ++ es')) rows = List.filter (all_true_in es') (List.filter (all_true_in es) rows).
Proof. rewrite filter_filter. apply filter_ext_Forall, Forall_true. intros ρ. apply all_true_in_app. Qed.

Lemma select_select_ok src preds es p' :
  wf src = true → forallb (pred_ok src) preds = true →
  select_spec src (preds ++ es) p' → select_spec (LSelect src preds) es p'.
Proof.
  intros Hs Hp [W A B S]. split; [done|done|done|]. intros rows E.
  assert (∃ rs, lsem tbl src = Some rs) as [rs Er].
  { simpl in E. destruct (lsem tbl src) as [rs|]; [by exists rs|done]. }
  pose proof (ss_sem _ _ _ (lselect_spec src preds Hs Hp) rs Er) as E'. rewrite E in E'. injection E' as ->.
  by rewrite (S rs Er), filter_preds_app.
Qed.

Lemma select_join_ok jt l r preds es p' :
  joinable jt = true → wf l = true → wf r = true → Log.att l ## Log.att r → forallb (pred_on l r) preds = true →
  join_spec l r (preds ++ es) p' → select_spec (LJoin jt l r preds) es p'.
Proof.
  intros Hj Hl Hr Hd Hp [W A B S]. split; [done|done|done|]. intros rows E.
  assert (∃ L R, lsem tbl l = Some L ∧ lsem tbl r = Some R) as (L & R & EL & ER).
  { simpl in E. destruct jt; try done; (destruct (lsem tbl l) as [L|]; [|done]; destruct (lsem tbl r) as [R|]; [by exists L, R|done]). }
  pose proof (js_sem _ _ _ _ (ljoin_spec jt l r preds Hj Hl Hr Hd Hp) L R EL ER) as E'. rewrite E in E'. injection E' as ->.
  by rewrite (S L R EL ER), filter_preds_app.
Qed.

Lemma select_push_ok p es :
  wf p = true → forallb (pred_ok p) es = true →
  ∃ p', Build.select_push rules p es = Ret p' ∧ select_spec p es p'.
Proof.
  revert es. induction p as [| | | |src IH preds|jt l IHl r IHr preds| | |src IH gb aggrs|input IH exprs| |]; intros es Hw Hes;
    (destruct es as [|e0 es0]; [eexists; split; [reflexivity|by apply select_spec_nil]|]); set (es := e0 :: es0) in *;
    destruct (split_all_ok _ _ es Hes) as [Hss _]; cbn [Build.select_push]; fold es;
    (destruct (Rules.is_enabled rules SelectionPushdown);
      [|eexists; split; [reflexivity|apply select_spec_split; [done|done|by apply lselect_spec]]]);
    try (eexists; split; [reflexivity|apply select_spec_split; [done|done|by apply select_plain_spec]]).
  - simpl in Hw. apply andb_true_iff in Hw as [Hs Hp].
    destruct (IH (preds ++ Build.split_all es) Hs) as (p' & E & Sp); [rewrite forallb_app; apply andb_true_iff; by split|].
    exists p'. split; [exact E|]. apply select_spec_split; [simpl; by rewrite Hs, Hp|done|by apply select_select_ok].
  - assert (joinable jt && wf l && wf r && bool_decide (Log.att l ## Log.att r) && forallb (pred_on l r) preds = true) as Hw'
      by (simpl in Hw; destruct jt; done).
    apply andb_true_iff in Hw' as [[[[Hj Hl]%andb_true_iff Hr]%andb_true_iff Hd%bool_decide_eq_true]%andb_true_iff Hp].
    destruct (join_with_ok (Build.select_push rules l) (Build.select_push rules r) jt l r (preds ++ Build.split_all es))
      as (p' & E & Sp); try done.
    { intros ps. by apply IHl. } { intros ps. by apply IHr. } { rewrite forallb_app. apply andb_true_iff. split; [exact Hp|exact Hss]. }
    exists p'. split; [exact E|]. apply select_spec_split; [done|done|by apply select_join_ok].
  - pose proof Hw as Hw'. simpl in Hw'. apply andb_true_iff in Hw' as [[Hs _]%andb_true_iff _].
    destruct (select_aggregate_ok src gb aggrs Hw (Build.select_push rules src) (Build.split_all es) (λ ps, IH ps Hs) Hss) as (s' & E & Sp).
    eexists. split; [|apply select_spec_split; [done|done|exact Sp]].
    change ((s0 ← Build.select_push rules src (Build.keep_if (over_groups gb) (Build.split_all es)).1;
      Ret (Build.select_plain (Build.aggregate s0 gb aggrs) (Build.keep_if (over_groups gb) (Build.split_all es)).2)) =
      Ret (Build.select_plain (Build.aggregate s' gb aggrs) (Build.keep_if (over_groups gb) (Build.split_all es)).2)).
    by rewrite E.
  - pose proof Hw as Hw'. simpl in Hw'. apply andb_true_iff in Hw' as [[[Hi _]%andb_true_iff _]%andb_true_iff _].
    destruct (select_map_ok input exprs Hw (Build.select_push rules input) (Build.split_all es) (λ ps, IH ps Hi) Hss) as (i' & E & Sp).
    eexists. split; [|apply select_spec_split; [done|done|exact Sp]].
    set (inl := Build.inline_columns input exprs (Build.split_all es)) in *.
    change ((i0 ← Build.select_push rules input (Build.keep_if (over_input exprs) inl).1;
      Ret (Build.select_plain (Build.map_plain i0 exprs) (Build.keep_if (over_input exprs) inl).2)) =
      Ret (Build.select_plain (Build.map_plain i' exprs) (Build.keep_if (over_input exprs) inl).2)).
    by rewrite E.
Qed.

Lemma select_ok optimize p es :
  wf p = true → forallb (pred_ok p) es = true → ∃ p', Build.select rules optimize p es = Ret p' ∧ select_spec p es p'.
Proof.
  intros Hw Hes. destruct optimize; [by apply select_push_ok|]. eexists. split; [reflexivity|by apply select_plain_spec].
Qed.

(** C17: Selections are pushed down correctly. On a plan that passes the static check, with
    predicates that are boolean whatever the values of the columns, [select] returns, with
    any rules enabled; what it returns passes the check, has the columns of the plan, and
    means the rows of the plan that satisfy the predicates, in their order. *)
Theorem select_correct optimize p es :
  wf p = true → forallb (pred_ok p) es = true →
  ∃ p', Build.select rules optimize p es = Ret p' ∧ wf p' = true ∧ Log.att p' = Log.att p ∧
    ∀ rows, lsem tbl p = Some rows → lsem tbl p' = Some (List.filter (all_true_in es) rows).
Proof.
  intros Hw Hes. destruct (select_ok optimize p es Hw Hes) as (p' & E & [? ? ? ?]). by exists p'.
Qed.

Lemma join_ok optimize jt l r es :
  joinable jt = true → wf l = true → wf r = true → Log.att l ## Log.att r → forallb (pred_on l r) es = true →
  ∃ p', Build.join rules optimize jt l r es = Ret p' ∧ join_spec l r es p'.
Proof.
  intros Hj Hl Hr Hd Hes. destruct optimize; [|eexists; split; [reflexivity|by apply join_plain_spec]].
  apply join_with_ok; try done; intros ps Hps; by apply select_push_ok.
Qed.

(** Joins push predicates to their sides correctly. On plans that pass the static check
    and have no columns in common, [join] returns, with any rules enabled; what it returns
    means the pairs of their rows that satisfy the predicates, left row by left row. *)
Theorem join_correct optimize jt l r es :
  joinable jt = true → wf l = true → wf r = true → Log.att l ## Log.att r → forallb (pred_on l r) es = true →
  ∃ p', Build.join rules optimize jt l r es = Ret p' ∧ wf p' = true ∧ Log.att p' = Log.att l ∪ Log.att r ∧
    ∀ L R, lsem tbl l = Some L → lsem tbl r = Some R →
      lsem tbl p' = Some (List.filter (all_true_in es) (sem_product L R)).
Proof.
  intros Hj Hl Hr Hd Hes. destruct (join_ok optimize jt l r es Hj Hl Hr Hd Hes) as (p' & E & [? ? ? ?]). by exists p'.
Qed.
End Correct.
