(* ===== verification/LogicalProject.v ===== *)
(** * Renamings and projections

    The optimizing constructors [rename_to] and [project] of logical plans: renamings are
    composed, and projections are pushed down to the scans. On plans that pass the static
    check they return, and what they return means the rows with the new names, or restricted
    to the columns of the projection. *)

From stdpp Require Import strings gmap.
From S2P Require Import Prelude Common Ordering Field Tuple ByteCode Expr ExprCorrect.
From S2P Require Import OpIterator OpJoin.
From S2P Require Import OpAggregate PhysicalPlan DbCatalog PlanSem PlanRel Logical LogicalSem.
From S2P Require Import LogicalCorrect.

Open Scope Z_scope.

(** ** Computed columns

    Rows restricted to columns and rows with computed columns, and the optimizing
    constructor [map] of logical plans: maps on top of maps are merged into one. On plans
    that pass the static check it returns, and what it returns means the rows with the
    computed columns. *)

(** ** Rows *)

Definition restrict (cols : list Z) (ρ : row) : row := filter (λ kv, kv.1 ∈ cols) ρ.

Lemma restrict_in cols (ρ : row) id : id ∈ cols → restrict cols ρ !! id = ρ !! id.
Proof.
  intros Hid. apply option_eq. intros v. unfold restrict. rewrite map_lookup_filter_Some. naive_solver.
Qed.

Lemma restrict_notin cols (ρ : row) id : id ∉ cols → restrict cols ρ !! id = None.
Proof. intros Hid. unfold restrict. apply map_lookup_filter_None_2. naive_solver. Qed.

Lemma restrict_eq cols (ρ ρ' : row) : (∀ id, id ∈ cols → ρ !! id = ρ' !! id) → restrict cols ρ = restrict cols ρ'.
Proof.
  intros Hag. apply map_eq. intros id. destruct (decide (id ∈ cols)); [|by rewrite !restrict_notin].
  rewrite !restrict_in by done. by apply Hag.
Qed.

Lemma restrict_restrict a b (ρ : row) : (∀ id, id ∈ a → id ∈ b) → restrict a (restrict b ρ) = restrict a ρ.
Proof. intros Hab. apply restrict_eq. intros id Hid. by apply restrict_in, Hab. Qed.

Lemma restrict_eval cols (ρ : row) (e : LExpr) : Expr.free e ⊆ list_to_set cols → eval_row (restrict cols ρ) e = eval_row ρ e.
Proof.
  intros Hf. unfold eval_row. f_equal. apply eval_expr_free. intros id Hid%Hf%elem_of_list_to_set. by apply restrict_in.
Qed.

Lemma restrict_all_true cols (ρ : row) es :
  Forall (λ e, Expr.free e ⊆ list_to_set cols) es → all_true_in es (restrict cols ρ) = all_true_in es ρ.
Proof.
  intros HF. unfold all_true_in. induction HF as [|e es He _ IH]; [done|]. simpl. rewrite IH. f_equal.
  unfold true_in, truth. by rewrite restrict_eval.
Qed.

Lemma project_row cols (ρ : row) :
  list_to_set cols ⊆ dom ρ → (vs ← mapM (λ id, ρ !! id) cols; Some (bind_cols ∅ cols vs)) = Some (restrict cols ρ).
Proof.
  intros Hsub. assert (is_Some (mapM (λ id, ρ !! id) cols)) as [vs Hvs].
  { apply mapM_is_Some_2, Forall_forall. intros id Hid. apply elem_of_dom, Hsub. by apply elem_of_list_to_set. }
  rewrite Hvs. simpl. f_equal. apply map_eq. intros id. destruct (decide (id ∈ cols)) as [Hid|Hid].
  - by rewrite (bind_cols_of ρ), restrict_in.
  - by rewrite bind_cols_notin, restrict_notin.
Qed.

Lemma restrict_both cl cr cols (ρl ρr : row) :
  dom ρl ## dom ρr → (∀ id, id ∈ cl ↔ id ∈ cols ∧ id ∈ dom ρl) → (∀ id, id ∈ cr ↔ id ∈ cols ∧ id ∈ dom ρr) →
  both (restrict cl ρl) (restrict cr ρr) = restrict cols (both ρl ρr).
Proof.
  intros Hd Hl Hr. apply map_eq. intros id. unfold both.
  destruct (decide (id ∈ cols)) as [Hc|Hc].
  - rewrite (restrict_in cols) by done. destruct (decide (id ∈ dom ρr)) as [Hir|Hir].
    + assert (∃ v, ρr !! id = Some v) as [v Hv] by by apply elem_of_dom in Hir as [v ?]; exists v.
      rewrite (lookup_union_Some_l _ (restrict cl ρl) id v) by (rewrite restrict_in; [done|by apply Hr]).
      by rewrite (lookup_union_Some_l _ ρl id v).
    + rewrite !lookup_union_r by (try (apply restrict_notin; rewrite Hr; naive_solver); by apply not_elem_of_dom).
      destruct (decide (id ∈ dom ρl)) as [Hil|Hil]; [apply restrict_in; by apply Hl|].
      rewrite restrict_notin by (rewrite Hl; naive_solver). symmetry. by apply not_elem_of_dom.
  - rewrite (restrict_notin cols) by done. apply lookup_union_None.
    split; apply restrict_notin; rewrite ?Hl, ?Hr; naive_solver.
Qed.

(** *** Computed columns *)

Definition map_row (exprs : list (Z * LExpr)) (ρ : row) : option row :=
  vs ← mapM (eval_row ρ) exprs.*2; Some (bind_cols ρ exprs.*1 vs).

(** [ρ'] has the columns of [ρ] and the computed ones. *)
Definition has_computed (exprs : list (Z * LExpr)) (ρ ρ' : row) : Prop :=
  (∀ id e, (id, e) ∈ exprs → ∃ v, eval_row ρ e = Some v ∧ ρ' !! id = Some v) ∧
  (∀ id, id ∉ exprs.*1 → ρ' !! id = ρ !! id).

Lemma map_row_has exprs (ρ ρ' : row) : NoDup exprs.*1 → map_row exprs ρ = Some ρ' → has_computed exprs ρ ρ'.
Proof.
  intros Hnd E. unfold map_row in E. destruct (mapM _ exprs.*2) as [vs|] eqn:Ev; [|done]. injection E as <-.
  apply mapM_Some in Ev. split; [|intros id Hid; by apply bind_cols_notin].
  intros id e Hin. apply list_elem_of_lookup in Hin as [n Hn].
  destruct (Forall2_lookup_l _ _ _ n e Ev) as (v & Hv & He); [by rewrite list_lookup_fmap, Hn|].
  exists v. split; [done|]. apply (bind_cols_in ρ _ _ n); [done|by rewrite list_lookup_fmap, Hn|done].
Qed.

Lemma has_computed_fun exprs (ρ ρ1 ρ2 : row) : has_computed exprs ρ ρ1 → has_computed exprs ρ ρ2 → ρ1 = ρ2.
Proof.
  intros [C1 O1] [C2 O2]. apply map_eq. intros id. destruct (decide (id ∈ exprs.*1)) as [Hid|Hid]; [|by rewrite O1, O2].
  apply list_elem_of_fmap in Hid as ([i e] & -> & Hin). simpl.
  destruct (C1 i e Hin) as (v & ? & ?), (C2 i e Hin) as (w & ? & ?). congruence.
Qed.

Lemma map_row_total exprs (ρ : row) : (∀ x, x ∈ exprs → is_Some (eval_row ρ x.2)) → ∃ ρ', map_row exprs ρ = Some ρ'.
Proof.
  intros Hx. assert (is_Some (mapM (eval_row ρ) exprs.*2)) as [vs Hvs].
  { apply mapM_is_Some_2, Forall_forall. intros e He. apply list_elem_of_fmap in He as (x & -> & Hin). by apply Hx. }
  unfold map_row. rewrite Hvs. by eexists.
Qed.

Lemma map_row_intro exprs (ρ ρ' : row) : NoDup exprs.*1 → has_computed exprs ρ ρ' → map_row exprs ρ = Some ρ'.
Proof.
  intros Hnd Hc. destruct (map_row_total exprs ρ) as [ρ2 E].
  { intros [id e] Hin. destruct (proj1 Hc id e Hin) as (v & ? & _). by exists v. }
  rewrite E. f_equal. by apply (has_computed_fun exprs ρ); [apply map_row_has|].
Qed.

(** Only the computed columns of a projection, over the columns they need. *)
Lemma map_row_restrict exprs cols new_cols (ρ ρ' : row) :
  let ex := List.filter (λ x : Z * LExpr, bool_decide (x.1 ∈ cols)) exprs in
  NoDup exprs.*1 → NoDup ex.*1 → (∀ x, x ∈ ex → Expr.free x.2 ⊆ list_to_set new_cols) →
  (∀ id, id ∈ cols → id ∉ ex.*1 → id ∈ new_cols) →
  map_row exprs ρ = Some ρ' → ∃ ρ'', map_row ex (restrict new_cols ρ) = Some ρ'' ∧ restrict cols ρ'' = restrict cols ρ'.
Proof.
  intros ex Hnd Hnd' Hf Hc E. destruct (map_row_has _ _ _ Hnd E) as [C O].
  assert (∀ x, x ∈ ex → x ∈ exprs ∧ x.1 ∈ cols) as Hex.
  { intros x Hx%list_elem_of_In. apply filter_In in Hx as [Hx%list_elem_of_In Hb%bool_decide_eq_true]. done. }
  destruct (map_row_total ex (restrict new_cols ρ)) as [ρ2 E2].
  { intros [id e] Hin. rewrite restrict_eval by by apply Hf. destruct (Hex _ Hin) as [Hin' _].
    destruct (C id e Hin') as (v & ? & _). by exists v. }
  exists ρ2. split; [done|]. destruct (map_row_has _ _ _ Hnd' E2) as [C2 O2]. apply restrict_eq. intros id Hid.
  destruct (decide (id ∈ ex.*1)) as [Hi|Hi].
  - apply list_elem_of_fmap in Hi as ([i e] & -> & Hin). simpl. destruct (C2 i e Hin) as (v & Ev & ->).
    rewrite restrict_eval in Ev by by apply (Hf (i, e)). destruct (C i e) as (w & Ew & ->); [by apply Hex|]. congruence.
  - rewrite O2, restrict_in by auto. symmetry. apply O. intros Hi'. apply Hi.
    apply list_elem_of_fmap in Hi' as (x & -> & Hx). apply list_elem_of_fmap. exists x. split; [done|].
    apply list_elem_of_In, filter_In. split; [by apply list_elem_of_In|by apply bool_decide_eq_true].
Qed.

(** *** Maps on top of maps *)

Lemma mapM_bind {A B C} (f : A → option B) (g : B → option C) l k :
  (r ← mapM f l; mapM g r) = Some k → mapM (λ x, f x ≫= g) l = Some k.
Proof.
  revert k. induction l as [|x l IH]; intros k E; [done|]. simpl in *. destruct (f x) as [y|]; [|done]. simpl in *.
  destruct (mapM f l) as [r|]; [|done]. simpl in *. destruct (g y) as [z|]; [|done]. simpl in *.
  destruct (mapM g r) as [k'|]; [|done]. simpl in *. by rewrite (IH k').
Qed.

Lemma mapM_unbind {A B C} (f : A → option B) (g : B → option C) l k :
  mapM (λ x, f x ≫= g) l = Some k → (r ← mapM f l; mapM g r) = Some k.
Proof.
  revert k. induction l as [|x l IH]; intros k E; [done|]. simpl in *. destruct (f x) as [y|]; [|done]. simpl in *.
  destruct (g y) as [z|] eqn:Eg; [|done]. simpl in *. destruct (mapM (λ x, f x ≫= g) l) as [k'|]; [|done]. simpl in *.
  specialize (IH k' eq_refl). destruct (mapM f l) as [r|]; [|done]. simpl in *. by rewrite Eg, IH.
Qed.

Lemma mapM_mono {A B} (f g : A → option B) l k : (∀ x y, f x = Some y → g x = Some y) → mapM f l = Some k → mapM g l = Some k.
Proof.
  intros Hfg E. apply mapM_Some in E. apply mapM_Some. by eapply Forall2_impl.
Qed.

Definition computed_cols (exprs : list (Z * LExpr)) : gmap Z LExpr := foldl (λ m '(id, e), <[id := e]> m) ∅ exprs.

Lemma computed_cols_Some exprs id e : NoDup exprs.*1 → computed_cols exprs !! id = Some e ↔ (id, e) ∈ exprs.
Proof.
  intros Hnd. unfold computed_cols. rewrite (foldl_insert_Some (λ x, x)) by by rewrite list_fmap_id. rewrite lookup_empty. naive_solver.
Qed.

Lemma inline_eval acc (ρ ρ1 : row) (e : LExpr) :
  NoDup acc.*1 → has_computed acc ρ ρ1 → supported e = true →
  eval_row ρ (Expr.replace_variables_with_exprs e (computed_cols acc)) = eval_row ρ1 e.
Proof.
  intros Hnd [C O] Hs. unfold eval_row. f_equal. induction e as [id|v|op l IHl r IHr| |]; try done; simpl in *.
  - destruct (computed_cols acc !! id) as [x|] eqn:Ex.
    + apply computed_cols_Some in Ex; [|done]. destruct (C id x Ex) as (v & Ev & ->). unfold eval_row in Ev.
      destruct (eval_expr _ x); [|done]. by injection Ev as ->.
    + simpl. rewrite O; [done|]. intros Hi. apply list_elem_of_fmap in Hi as ([i x] & -> & Hx). simpl in Ex.
      apply (computed_cols_Some _ _ _ Hnd) in Hx. congruence.
  - apply andb_true_iff in Hs as [Hl Hr]. by rewrite IHl, IHr.
Qed.

Lemma map_row_cons d e exprs (ρ : row) :
  map_row ((d, e) :: exprs) ρ = (v ← eval_row ρ e; ws ← mapM (eval_row ρ) exprs.*2; Some (bind_cols (<[d := v]> ρ) exprs.*1 ws)).
Proof. unfold map_row. rewrite !fmap_cons. simpl mapM. destruct (eval_row ρ e); [|done]. simpl. by destruct (mapM _ _). Qed.

Lemma map_row_snoc acc d e v (ρ ρ1 : row) :
  map_row acc ρ = Some ρ1 → eval_row ρ e = Some v → map_row (acc ++ [(d, e)]) ρ = Some (<[d := v]> ρ1).
Proof.
  unfold map_row. intros E Ev. destruct (mapM (eval_row ρ) acc.*2) as [vs|] eqn:Evs; [|done]. injection E as <-.
  assert (mapM (eval_row ρ) (acc.*2 ++ [e]) = Some (vs ++ [v])) as Eapp.
  { apply mapM_Some. apply Forall2_app; [by apply mapM_Some|]. by repeat constructor. }
  rewrite !fmap_app. simpl. rewrite Eapp. simpl. by rewrite bind_cols_app by (rewrite <-(length_mapM _ _ _ Evs), !length_fmap; done).
Qed.

Lemma merge_row acc d e exprs (ρ ρ2 : row) :
  let e' := Expr.replace_variables_with_exprs e (computed_cols acc) in
  NoDup acc.*1 → supported e = true → (∀ x, x ∈ exprs → d ∉ Expr.free x.2) →
  map_row acc ρ ≫= map_row ((d, e) :: exprs) = Some ρ2 → map_row (acc ++ [(d, e')]) ρ ≫= map_row exprs = Some ρ2.
Proof.
  intros e' Hnd Hs Hd E. destruct (map_row acc ρ) as [ρ1|] eqn:E1; [|done]. pose proof (map_row_has _ _ _ Hnd E1) as Hc.
  pose proof (inline_eval acc ρ ρ1 e Hnd Hc Hs) as He. change (map_row ((d, e) :: exprs) ρ1 = Some ρ2) in E.
  rewrite map_row_cons in E. destruct (eval_row ρ1 e) as [v|]; [|done].
  rewrite (map_row_snoc acc d e' v ρ ρ1 E1 He). change (map_row exprs (<[d:=v]> ρ1) = Some ρ2). rewrite <-E.
  change (map_row exprs (<[d:=v]> ρ1) = (ws ← mapM (eval_row ρ1) exprs.*2; Some (bind_cols (<[d:=v]> ρ1) exprs.*1 ws))).
  unfold map_row. assert (mapM (eval_row (<[d:=v]> ρ1)) exprs.*2 = mapM (eval_row ρ1) exprs.*2) as ->; [|done].
  clear -Hd. induction exprs as [|[i x] exprs IH]; [done|]. rewrite fmap_cons. cbn [mapM snd].
  rewrite IH by (intros y Hy; apply Hd; by right). assert (eval_row (<[d:=v]> ρ1) x = eval_row ρ1 x) as ->; [|done].
  unfold eval_row. f_equal. apply eval_expr_free. intros id Hid. apply lookup_insert_ne. intros <-.
  apply (Hd (i, x)); [left|done].
Qed.

(** ** Maps *)

(** An expression of a computed column over the columns [A]. *)
Definition expr_over (A : gset Z) (e : LExpr) : Prop := supported e = true ∧ Expr.free e ⊆ A.

Lemma wf_map input exprs :
  wf (LMap input exprs) = true ↔
  wf input = true ∧ NoDup exprs.*1 ∧ Log.att input ## list_to_set exprs.*1 ∧ Forall (λ x, expr_over (Log.att input) x.2) exprs.
Proof.
  cbn [wf]. rewrite !andb_true_iff, !bool_decide_eq_true, forallb_forall, Forall_forall. unfold expr_over.
  setoid_rewrite andb_true_iff. setoid_rewrite bool_decide_eq_true. setoid_rewrite <-list_elem_of_In. naive_solver.
Qed.

Lemma inline_over A acc (e : LExpr) :
  NoDup acc.*1 → Forall (λ x, expr_over A x.2) acc → expr_over (A ∪ list_to_set acc.*1) e →
  expr_over A (Expr.replace_variables_with_exprs e (computed_cols acc)).
Proof.
  intros Hnd Hacc [Hs Hf]. unfold expr_over. induction e as [id|v|op l IHl r IHr| |]; try done; simpl in *.
  - destruct (computed_cols acc !! id) as [x|] eqn:Ex.
    + apply computed_cols_Some in Ex; [|done]. rewrite Forall_forall in Hacc. by apply (Hacc (id, x)).
    + split; [done|]. simpl. intros i Hi. apply elem_of_singleton in Hi as ->.
      assert (id ∈ A ∪ list_to_set acc.*1) as [?|Hin%elem_of_list_to_set]%elem_of_union by (apply Hf; by apply elem_of_singleton); [done|].
      apply list_elem_of_fmap in Hin as ([i x] & -> & Hx). apply (computed_cols_Some _ _ _ Hnd) in Hx. simpl in Ex. congruence.
  - apply andb_true_iff in Hs as [Hl Hr]. destruct IHl as [Sl Fl], IHr as [Sr Fr]; try done; [set_solver..|].
    rewrite Sl, Sr. split; [done|]. set_solver.
Qed.

Lemma supported_closed (e : LExpr) : supported e = true → Expr.has_subquery e = false.
Proof.
  induction e as [| |op l IHl r IHr| |]; intros Hs; try done. simpl in *. apply andb_true_iff in Hs as [? ?].
  by rewrite IHl, IHr.
Qed.

(** The height of a plan bounds the depth of the calls of the constructors. *)
Fixpoint height (p : LogicalRelExpr) : nat :=
  match p with
  | LScan _ _ _ | LIndexScan _ _ _ _ _ => 1
  | LDelete _ src | LUpdate _ src _ | LSelect src _ | LProject src _ | LOrderBy src _ | LAggregate src _ _ | LMap src _
  | LRename src _ => S (height src)
  | LJoin _ l r _ | LFlatMap l r => S (height l `max` height r)
  end.

Section Maps.
Context `{TupleCodec} (tbl : Z → option (list item)) (rules : RuleSet).

(** [p'] means the rows of [p] with the computed columns. *)
Record map_spec (p : LogicalRelExpr) (exprs : list (Z * LExpr)) (p' : LogicalRelExpr) : Prop := {
  mp_wf : wf p' = true;
  mp_att : Log.att p' = Log.att p ∪ list_to_set exprs.*1;
  mp_sem rows : lsem tbl (LMap p exprs) = Some rows → lsem tbl p' = Some rows
}.

Lemma map_plain_ok p exprs : wf (LMap p exprs) = true → map_spec p exprs (Build.map_plain p exprs).
Proof.
  intros Hw. destruct exprs as [|x exprs]; [|split; [exact Hw|done|by intros rows]]. apply wf_map in Hw as (Hp & _). split; [done|simpl; set_solver|].
  intros rows E. simpl in E. unfold Build.map_plain. destruct (lsem tbl p) as [rs|]; [|done]. rewrite <-E. simpl. clear.
  induction rs as [|ρ rs IH]; [done|]. simpl in *. by rewrite <-IH.
Qed.

Lemma merge_step input acc d e exprs :
  let acc' := acc ++ [(d, Expr.replace_variables_with_exprs e (computed_cols acc))] in
  wf (LMap (LMap input acc) ((d, e) :: exprs)) = true →
  wf (LMap (LMap input acc') exprs) = true ∧
  ∀ rows, lsem tbl (LMap (LMap input acc) ((d, e) :: exprs)) = Some rows → lsem tbl (LMap (LMap input acc') exprs) = Some rows.
Proof.
  intros acc' ((Hi & Hnd & Hdis & Hacc)%wf_map & Hnd' & Hdis' & Hex)%wf_map.
  apply NoDup_cons in Hnd' as [Hd Hnd']. apply Forall_cons in Hex as [He Hex]. simpl in He, Hdis'.
  assert (∀ x, x ∈ exprs → d ∉ Expr.free x.2) as Hfree.
  { intros x Hx Hin. rewrite Forall_forall in Hex. destruct (Hex x Hx) as [_ Hf]. apply Hf in Hin. simpl in Hin. set_solver. }
  split.
  - assert (acc'.*1 = acc.*1 ++ [d]) as Efst by (unfold acc'; by rewrite fmap_app).
    apply wf_map. split; [apply wf_map; split_and!; try done|split_and!; try done].
    + rewrite Efst. apply NoDup_app. split_and!; [done|set_solver|apply NoDup_singleton].
    + rewrite Efst, list_to_set_app_L. simpl. set_solver.
    + apply Forall_app. split; [done|]. apply Forall_singleton. by apply inline_over.
    + simpl. rewrite Efst, list_to_set_app_L. simpl. set_solver.
    + eapply Forall_impl; [exact Hex|]. intros x [Hs Hf]. split; [done|]. simpl in *. rewrite Efst, list_to_set_app_L. set_solver.
  - intros rows E. cbn [lsem] in *. destruct (lsem tbl input) as [rs|]; [|done]. apply mapM_bind in E. apply mapM_unbind.
    apply (mapM_mono _ _ _ _ (λ ρ ρ2, merge_row acc d e exprs ρ ρ2 Hnd (proj1 He) Hfree) E).
Qed.

Lemma merge_ok input acc exprs :
  wf (LMap (LMap input acc) exprs) = true →
  wf (LMap input (Build.merge_exprs acc exprs)) = true ∧ (Build.merge_exprs acc exprs).*1 = acc.*1 ++ exprs.*1 ∧
  ∀ rows, lsem tbl (LMap (LMap input acc) exprs) = Some rows → lsem tbl (LMap input (Build.merge_exprs acc exprs)) = Some rows.
Proof.
  revert acc. induction exprs as [|[d e] exprs IH]; intros acc Hw.
  - pose proof (map_plain_ok _ _ Hw) as [? ? ?]. simpl Build.merge_exprs. by rewrite app_nil_r.
  - destruct (merge_step input acc d e exprs Hw) as [Hw' Hs]. destruct (IH _ Hw') as (? & Hfst & Hs'). split_and!; [done| |auto].
    change (Build.merge_exprs acc ((d, e) :: exprs))
      with (Build.merge_exprs (acc ++ [(d, Expr.replace_variables_with_exprs e (computed_cols acc))]) exprs).
    by rewrite Hfst, fmap_app, <-app_assoc.
Qed.

Lemma find_subquery_none exprs i A : Forall (λ x, expr_over A x.2) exprs → Build.find_subquery i exprs = None.
Proof.
  intros HF. revert i. induction HF as [|x exprs [Hs _] _ IH]; intros i; [done|]. simpl.
  rewrite supported_closed by done. apply IH.
Qed.

Lemma no_subqueries_ok exprs A : Forall (λ x, expr_over A x.2) exprs → Build.no_subqueries exprs = true.
Proof.
  intros HF. unfold Build.no_subqueries. induction HF as [|x exprs [Hs _] _ IH]; [done|]. simpl. by rewrite supported_closed, IH.
Qed.

(** Maps on top of maps become one. *)
Lemma map_push_ok fuel g p exprs :
  (height p ≤ fuel)%nat → wf (LMap p exprs) = true →
  ∃ p', Build.map_push rules fuel g p exprs = Ret (g, p') ∧ map_spec p exprs p'.
Proof.
  revert p exprs. induction fuel as [|fuel IH]; intros p exprs Hh Hw; [destruct p; simpl in Hh; lia|].
  assert (Forall (λ x, expr_over (Log.att p) x.2) exprs) as Hex by by apply wf_map in Hw as (_ & _ & _ & ?).
  destruct exprs as [|x exprs]; [exists p; split; [done|exact (map_plain_ok p [] Hw)]|]. set (xs := x :: exprs) in *.
  assert ((if Rules.is_enabled rules Hoist then Build.find_subquery 0 xs else None) = None) as Hno.
  { destruct (Rules.is_enabled _ _); [|done]. by eapply find_subquery_none. }
  cbn [Build.map_push]. fold xs. rewrite Hno. assert (∀ y z : outcome (Z * LogicalRelExpr), match xs with [] => y | _ :: _ => z end = z) as Hm by done.
  rewrite Hm. clearbody xs.
  destruct p as [| | | | | | | | |input existing| |]; try (eexists; split; [reflexivity|]; by apply map_plain_ok).
  destruct (merge_ok input existing xs Hw) as (Hw' & Hfst & Hs). apply wf_map in Hw as [(_ & _ & _ & Hacc)%wf_map _].
  rewrite (no_subqueries_ok existing _ Hacc), (no_subqueries_ok xs _ Hex).
  destruct (IH input _ ltac:(simpl in Hh; lia) Hw') as (p' & E & [W A S]). exists p'. split; [exact E|].
  split; [done|rewrite A, Hfst, list_to_set_app_L; simpl; set_solver|auto].
Qed.

Lemma map_ok fuel optimize g p exprs :
  (height p ≤ fuel)%nat → wf (LMap p exprs) = true →
  ∃ p', Build.map rules fuel optimize g p exprs = Ret (g, p') ∧ map_spec p exprs p'.
Proof.
  intros Hh Hw. destruct optimize; [by apply map_push_ok|]. eexists. split; [reflexivity|]. by apply map_plain_ok.
Qed.

(** Computed columns are added correctly. On a plan that passes the static check, with
    expressions without subqueries over its columns, [map] returns when its bound is at least
    the height of the plan, and leaves the counter of columns as it was. What it returns
    passes the check and means the rows of the plan with the computed columns, also where
    it merges the map with maps below. *)
Theorem map_correct fuel optimize g p exprs :
  (height p ≤ fuel)%nat → wf (LMap p exprs) = true →
  ∃ p', Build.map rules fuel optimize g p exprs = Ret (g, p') ∧ wf p' = true ∧
    Log.att p' = Log.att p ∪ list_to_set exprs.*1 ∧
    ∀ rows, lsem tbl (LMap p exprs) = Some rows → lsem tbl p' = Some rows.
Proof.
  intros Hh Hw. destruct (map_ok fuel optimize g p exprs Hh Hw) as (p' & E & [W A S]). by exists p'.
Qed.
End Maps.

(** ** Renamings *)

Lemma elem_of_renamed m (A : gset Z) x : x ∈ (list_to_set (renamed m <$> elements A) : gset Z) ↔ ∃ a, a ∈ A ∧ renamed m a = x.
Proof. rewrite elem_of_list_to_set, list_elem_of_fmap. setoid_rewrite elem_of_elements. naive_solver. Qed.

Lemma inj_on_NoDup f (D : gset Z) : inj_on f D → NoDup (f <$> elements D).
Proof. intros Hinj. apply NoDup_fmap_2_strong; [|apply NoDup_elements]. intros a b Ha%elem_of_elements Hb%elem_of_elements. by apply Hinj. Qed.

Lemma rename_set_elem (l : list (Z * Z)) (A : gset Z) x :
  (∀ a, a ∈ l.*2 → a ∉ l.*1) →
  x ∈ foldl (λ set '(src, dest), (set ∖ {[src]}) ∪ {[dest]}) A l ↔ x ∈ l.*2 ∨ (x ∈ A ∧ x ∉ l.*1).
Proof.
  revert A. induction l as [|[s d] l IH]; intros A Hd.
  - simpl. rewrite !elem_of_nil. naive_solver.
  - simpl foldl. rewrite !fmap_cons in *. cbn [fst snd] in *. setoid_rewrite elem_of_cons in Hd. rewrite !elem_of_cons.
    rewrite IH by (intros a Ha Ha'; apply (Hd a); auto). rewrite elem_of_union, elem_of_difference, !elem_of_singleton.
    destruct (decide (x ∈ l.*1)); naive_solver.
Qed.

(** A renaming of every column to columns that are new. *)
Lemma rename_set_total m (A : gset Z) :
  dom m = A → (∀ a b, m !! a = Some b → b ∉ A) → Phys.rename_set A m = list_to_set (renamed m <$> elements A).
Proof.
  intros HA Hnew. apply set_eq. intros x. unfold Phys.rename_set.
  assert (∀ a, a ∈ (map_to_list m).*1 ↔ a ∈ A) as H1.
  { intros a. rewrite <-HA, elem_of_dom, list_elem_of_fmap. split.
    - intros ([k v] & -> & Hk%elem_of_map_to_list). by exists v.
    - intros [v Hv]. exists (a, v). split; [done|]. by apply elem_of_map_to_list. }
  assert (∀ b, b ∈ (map_to_list m).*2 ↔ ∃ a, m !! a = Some b) as H2.
  { intros b. rewrite list_elem_of_fmap. split.
    - intros ([k v] & -> & Hk%elem_of_map_to_list). by exists k.
    - intros [a Ha]. exists (a, b). split; [done|]. by apply elem_of_map_to_list. }
  rewrite rename_set_elem by (intros a [k Hk]%H2; rewrite H1; by apply (Hnew k)).
  rewrite elem_of_renamed, H1, H2. split.
  - intros [[a Ha]|[? ?]]; [|done]. exists a. split; [rewrite <-HA; apply elem_of_dom; by eexists|]. unfold renamed. by rewrite Ha.
  - intros (a & Ha & <-). left. exists a. rewrite <-HA in Ha. apply elem_of_dom in Ha as [b Hb]. unfold renamed. by rewrite Hb.
Qed.

Lemma renamed_compose m m0 a : is_Some (m0 !! a) → renamed (renamed m <$> m0) a = renamed m (renamed m0 a).
Proof. intros [c Hc]. unfold renamed. rewrite lookup_fmap, Hc. done. Qed.

Lemma rename_keys_compose m m0 (ρ : row) :
  dom m0 = dom ρ → inj_on (renamed m0) (dom ρ) → inj_on (renamed m) (list_to_set (renamed m0 <$> elements (dom ρ))) →
  rename_keys m (rename_keys m0 ρ) = rename_keys (renamed m <$> m0) ρ.
Proof.
  intros Hd Hi0 Hi. assert (∀ a, a ∈ dom ρ → renamed (renamed m <$> m0) a = renamed m (renamed m0 a)) as Hc.
  { intros a Ha. apply renamed_compose, elem_of_dom. by rewrite Hd. }
  assert (inj_on (renamed (renamed m <$> m0)) (dom ρ)) as Hi1.
  { intros a b Ha Hb. rewrite !Hc by done. intros E. apply Hi0; [done|done|]. apply Hi; [| |done]; apply elem_of_renamed; eauto. }
  apply map_eq. intros k. apply option_eq. intros v.
  rewrite rename_keys_Some by by rewrite rename_dom. setoid_rewrite (rename_keys_Some m0 ρ) ; [|done].
  rewrite rename_keys_Some by done. split.
  - intros (b & (a & Ha & <-) & <-). exists a. split; [done|]. apply Hc, elem_of_dom. by eexists.
  - intros (a & Ha & <-). exists (renamed m0 a). split; [by exists a|]. symmetry. apply Hc, elem_of_dom. by eexists.
Qed.

(** The columns below a chain of renamings. *)
Fixpoint chain (p : LogicalRelExpr) : gset Z :=
  match p with LRename src _ => Log.att src ∪ chain src | _ => ∅ end.

Section Renames.
Context `{TupleCodec} (tbl : Z → option (list item)).

(** [q'] means the rows of [q] with their columns renamed. *)
Record rename_spec (q : LogicalRelExpr) (m : gmap Z Z) (q' : LogicalRelExpr) : Prop := {
  rn_wf : wf q' = true;
  rn_att : Log.att q' = list_to_set (renamed m <$> elements (Log.att q));
  rn_chain : chain q' ⊆ Log.att q ∪ chain q;
  rn_sem rows : lsem tbl q = Some rows → lsem tbl q' = Some (map (rename_keys m) rows)
}.

Lemma wf_rename src m :
  wf (LRename src m) = true ↔ wf src = true ∧ dom m = Log.att src ∧ inj_on (renamed m) (Log.att src) ∧
    Log.att (LRename src m) = list_to_set (renamed m <$> elements (Log.att src)).
Proof.
  cbn [wf]. rewrite !andb_true_iff, !bool_decide_eq_true. split.
  - intros [[[? ?] ?%NoDup_inj_on] ?]. done.
  - intros (? & ? & ?%inj_on_NoDup & ?). done.
Qed.

Lemma lrename_ok q m :
  wf q = true → dom m = Log.att q → inj_on (renamed m) (Log.att q) → (∀ a b, m !! a = Some b → b ∉ Log.att q ∪ chain q) →
  rename_spec q m (LRename q m).
Proof.
  intros Hw Hd Hi Hn. assert (Log.att (LRename q m) = list_to_set (renamed m <$> elements (Log.att q))) as Ha.
  { apply rename_set_total; [done|]. intros a b Hab Hb. apply (Hn a b Hab). by apply elem_of_union_l. }
  split; [by apply wf_rename|done|done|]. intros rows E. simpl. by rewrite E.
Qed.

Lemma rename_to_ok q m :
  wf q = true → dom m = Log.att q → inj_on (renamed m) (Log.att q) → (∀ a b, m !! a = Some b → b ∉ Log.att q ∪ chain q) →
  rename_spec q m (Build.rename_to q m).
Proof.
  revert m. induction q as [| | | | | | | | | | |src IH m0]; intros m Hw Hd Hi Hn; try exact (lrename_ok _ m Hw Hd Hi Hn).
  apply wf_rename in Hw as (Hs & Hd0 & Hi0 & Ha0). rewrite Ha0 in Hd, Hi.
  assert (∀ a, a ∈ Log.att src → renamed (renamed m <$> m0) a = renamed m (renamed m0 a)) as Hc.
  { intros a Ha. apply renamed_compose, elem_of_dom. by rewrite Hd0. }
  destruct (IH (renamed m <$> m0) Hs) as [W A C S].
  - by rewrite dom_fmap_L.
  - intros a b Ha Hb. rewrite !Hc by done. intros E. apply Hi0; [done|done|]. apply Hi; [| |done]; apply elem_of_renamed; eauto.
  - intros a b Hab. rewrite lookup_fmap in Hab. destruct (m0 !! a) as [c|] eqn:Em0; [|done]. injection Hab as <-.
    assert (c ∈ dom m) as [b Hb]%elem_of_dom.
    { rewrite Hd. apply elem_of_renamed. exists a. split; [rewrite <-Hd0; apply elem_of_dom; by eexists|]. unfold renamed. by rewrite Em0. }
    unfold renamed. rewrite Hb. simpl. intros Hin. apply (Hn c b Hb). by apply elem_of_union_r.
  - split; [done| | |].
    + cbn [Build.rename_to]. rewrite A. apply set_eq. intros x. rewrite Ha0, !elem_of_renamed. setoid_rewrite elem_of_renamed. split.
      * intros (a & Ha & <-). exists (renamed m0 a). split; [by exists a|]. by rewrite Hc.
      * intros (b & (a & Ha & <-) & <-). exists a. by rewrite Hc.
    + cbn [Build.rename_to chain]. set_solver.
    + intros rows E. cbn [lsem] in E. destruct (lsem tbl src) as [rs|] eqn:Es; [|done]. injection E as <-. cbn [Build.rename_to].
      rewrite (S rs eq_refl). f_equal. rewrite map_map. apply map_ext_Forall. pose proof (lsem_ok tbl src rs Hs Es) as HF.
      eapply Forall_impl; [exact HF|]. intros ρ [Hρ _]. symmetry. apply rename_keys_compose; rewrite Hρ; done.
Qed.
End Renames.

(** ** Projections *)

(** Every column that occurs in a plan. *)
Fixpoint seen (p : LogicalRelExpr) : gset Z :=
  Log.att p ∪
  match p with
  | LDelete _ src | LUpdate _ src _ | LSelect src _ | LProject src _ | LOrderBy src _ | LAggregate src _ _ | LMap src _
  | LRename src _ => seen src
  | LJoin _ l r _ | LFlatMap l r => seen l ∪ seen r
  | _ => ∅
  end.

(** Renamings are to columns that do not occur below, as those of [Build.rename] are. *)
Fixpoint fresh_renames (p : LogicalRelExpr) : bool :=
  match p with
  | LSelect src _ | LProject src _ | LAggregate src _ _ | LMap src _ => fresh_renames src
  | LJoin _ l r _ => fresh_renames l && fresh_renames r
  | LRename src m => fresh_renames src && forallb (λ x, bool_decide (x.2 ∉ seen src)) (map_to_list m)
  | _ => true
  end.

Definition is_map (p : LogicalRelExpr) : bool := match p with LMap _ _ => true | _ => false end.

Lemma elem_of_frees (es : list LExpr) id : id ∈ Build.frees es ↔ ∃ e, e ∈ es ∧ id ∈ Expr.free e.
Proof.
  unfold Build.frees. assert (∀ S : gset Z, id ∈ foldl (λ set e, set ∪ Expr.free e) S es ↔ id ∈ S ∨ ∃ e, e ∈ es ∧ id ∈ Expr.free e) as G.
  { induction es as [|e es IH]; intros S; simpl.
    - split; [by left|]. intros [?|(e & He & _)]; [done|]. by apply elem_of_nil in He.
    - rewrite IH, elem_of_union. setoid_rewrite elem_of_cons. naive_solver. }
  rewrite G. split; [intros [Hin|?]; [by apply elem_of_empty in Hin|done]|by right].
Qed.

Lemma elem_of_union_cols F cols id : id ∈ Build.union_cols F cols ↔ id ∈ cols ∨ id ∈ F.
Proof.
  unfold Build.union_cols. rewrite elem_of_app.
  assert (∀ f : Z → bool, id ∈ List.filter f (elements F) ↔ id ∈ F ∧ f id = true) as ->.
  { intros f. by rewrite list_elem_of_In, filter_In, <-list_elem_of_In, elem_of_elements. }
  rewrite negb_true_iff, bool_decide_eq_false. destruct (decide (id ∈ cols)); naive_solver.
Qed.

Lemma elem_of_intersect_cols A cols id : id ∈ Build.intersect_cols A cols ↔ id ∈ cols ∧ id ∈ A.
Proof. unfold Build.intersect_cols. by rewrite list_elem_of_In, filter_In, <-list_elem_of_In, bool_decide_eq_true. Qed.

Lemma att_seen p : Log.att p ⊆ seen p.
Proof. destruct p; apply union_subseteq_l. Qed.

Section Projects.
Context `{TupleCodec} (tbl : Z → option (list item)) (rules : RuleSet).

(** [p'] means the rows of [p] restricted to [cols]. *)
Record project_spec (p : LogicalRelExpr) (cols : list Z) (p' : LogicalRelExpr) : Prop := {
  pj_wf : wf p' = true;
  pj_att : Log.att p' = list_to_set cols;
  pj_bools : bools p ∩ list_to_set cols ⊆ bools p';
  pj_chain : chain p' ⊆ seen p;
  pj_map : is_map p' = false;
  pj_sem rows : lsem tbl p = Some rows → lsem tbl p' = Some (map (restrict cols) rows)
}.

Lemma lproject_sem q cols rows :
  wf q = true → list_to_set cols ⊆ Log.att q → lsem tbl q = Some rows → lsem tbl (LProject q cols) = Some (map (restrict cols) rows).
Proof.
  intros Hw Hc E. cbn [lsem]. rewrite E. simpl. pose proof (lsem_ok tbl q rows Hw E) as HF. clear E.
  induction HF as [|ρ rows [Hρ _] _ IH]; [done|]. cbn [mapM]. rewrite project_row by by rewrite Hρ. simpl. by rewrite IH.
Qed.

(** A plan with at least the columns of the projection, projected. *)
Lemma lproject_ok p q cols :
  wf q = true → list_to_set cols ⊆ Log.att q → bools p ∩ list_to_set cols ⊆ bools q →
  (∀ rows, lsem tbl p = Some rows → ∃ qs, lsem tbl q = Some qs ∧ map (restrict cols) qs = map (restrict cols) rows) →
  project_spec p cols (LProject q cols).
Proof.
  intros Hw Hc Hb Hs. split; [cbn [wf]; rewrite Hw; by apply bool_decide_eq_true|done|simpl; set_solver|apply empty_subseteq|done|].
  intros rows E. destruct (Hs rows E) as (qs & Eq & Em). rewrite (lproject_sem q cols qs Hw Hc Eq). by rewrite Em.
Qed.

Lemma project_project src cols0 cols q :
  wf src = true → list_to_set cols0 ⊆ Log.att src → list_to_set cols ⊆ Log.att (LProject src cols0) → project_spec src cols q →
  project_spec (LProject src cols0) cols q.
Proof.
  intros Hw Hc0 Hc [Wq Aq Bq Cq Mq Sq]. split; [done|done|simpl; set_solver|simpl; set_solver|done|]. intros rows E.
  assert (∃ rs, lsem tbl src = Some rs) as [rs Es] by (simpl in E; destruct (lsem tbl src) as [rs|]; [by exists rs|done]).
  rewrite (lproject_sem src cols0 rs Hw Hc0 Es) in E. injection E as <-. rewrite (Sq rs Es). f_equal. rewrite map_map.
  apply map_ext. intros ρ. symmetry. apply restrict_restrict. intros id Hid. specialize (Hc id). simpl in Hc.
  rewrite !elem_of_list_to_set in Hc. auto.
Qed.

Lemma project_scan cid name names cols :
  list_to_set cols ⊆ Log.att (LScan cid name names) →
  project_spec (LScan cid name names) cols (LScan cid name (List.filter (λ c, bool_decide (c ∈ cols)) names)).
Proof.
  intros Hc. set (kept := List.filter _ names).
  assert (∀ id, id ∈ kept ↔ id ∈ names ∧ id ∈ cols) as Hk.
  { intros id. unfold kept. by rewrite list_elem_of_In, filter_In, <-list_elem_of_In, bool_decide_eq_true. }
  split; [done| |simpl; set_solver|apply empty_subseteq|done|].
  - apply set_eq. intros id. simpl. rewrite !elem_of_list_to_set, Hk. split; [by intros [_ ?]|]. intros Hid. split; [|done].
    specialize (Hc id). simpl in Hc. rewrite !elem_of_list_to_set in Hc. auto.
  - intros rows E. cbn [lsem] in *. destruct (tbl cid) as [items|]; [|done]. simpl in *. apply mapM_Some in E. apply mapM_Some.
    apply Forall2_fmap_r. eapply Forall2_impl; [exact E|]. intros x ρ Hρ. unfold scan_row in *.
    destruct (to_option _) as [t|]; [|done]. simpl in *. set (f := λ id, Tup.get_field t (get_column_index_from_temp_col_id id)) in *.
    destruct (mapM f names) as [vs|] eqn:Ev; [|done]. injection Hρ as <-.
    assert (∃ ws, mapM f kept = Some ws) as [ws Ew].
    { apply mapM_is_Some_2, Forall_forall. intros id [Hid _]%Hk. apply mapM_Some in Ev.
      apply list_elem_of_lookup in Hid as [i Hi]. destruct (Forall2_lookup_l _ _ _ i id Ev Hi) as (v & _ & ?). by exists v. }
    rewrite Ew. simpl. f_equal. apply map_eq. intros id.
    assert (∀ l ws, mapM f l = Some ws → id ∈ l → bind_cols ∅ l ws !! id = f id) as Hlook.
    { clear. intros l. generalize (∅ : row). induction l as [|c l IH]; intros ρ0 ws E Hid; [by apply elem_of_nil in Hid|].
      simpl in E. destruct (f c) as [v|] eqn:Ec; [|done]. simpl in E. destruct (mapM f l) as [ws'|]; [|done]. injection E as <-. simpl.
      destruct (decide (id ∈ l)); [by apply IH|]. apply elem_of_cons in Hid as [->|?]; [|done].
      by rewrite bind_cols_notin, lookup_insert_eq. }
    destruct (decide (id ∈ cols)) as [Hi|Hi].
    + rewrite restrict_in by done. destruct (decide (id ∈ names)) as [Hn|Hn]; [rewrite !Hlook; [done|done|done|done|by apply Hk]|].
      rewrite !bind_cols_notin; [done|done|]. rewrite Hk. naive_solver.
    + rewrite restrict_notin by done. rewrite bind_cols_notin by (rewrite Hk; naive_solver). done.
Qed.

(** Predicates over the columns a projection keeps. *)
Lemma preds_kept A B (A' B' cols : gset Z) es :
  forallb (pred_in A B) es = true → cols ⊆ A' → B ∩ cols ⊆ B' → Build.frees es ⊆ cols → forallb (pred_in A' B') es = true.
Proof.
  intros Hes HA HB Hf. rewrite forallb_forall in Hes |- *. intros e He. specialize (Hes e He).
  assert (Expr.free e ⊆ cols) as Hfe by (intros id Hid; apply Hf, elem_of_frees; exists e; split; [by apply list_elem_of_In|done]).
  apply andb_true_iff in Hes as [Hb _]. apply andb_true_iff. split; [|apply bool_decide_eq_true; set_solver].
  apply (boolean_restrict B); [done|]. intros id ? ?. apply HB, elem_of_intersection. auto.
Qed.

Lemma preds_free A B es id : forallb (pred_in A B) es = true → id ∈ Build.frees es → id ∈ A.
Proof.
  intros Hes (e & He & Hid)%elem_of_frees. rewrite forallb_forall in Hes. apply list_elem_of_In, Hes, andb_true_iff in He as [_ Hf].
  apply bool_decide_eq_true in Hf. auto.
Qed.

Lemma restrict_filter es cols new_cols (rows : list row) :
  (∀ id, id ∈ new_cols ↔ id ∈ cols ∨ id ∈ Build.frees es) →
  map (restrict cols) (List.filter (all_true_in es) (map (restrict new_cols) rows)) =
  map (restrict cols) (List.filter (all_true_in es) rows).
Proof.
  intros Hn. assert (Forall (λ e, Expr.free e ⊆ (list_to_set new_cols : gset Z)) es) as Hf.
  { apply Forall_forall. intros e He id Hid. apply elem_of_list_to_set, Hn. right. apply elem_of_frees. by exists e. }
  induction rows as [|ρ rows IH]; [done|]. simpl. rewrite restrict_all_true by done. destruct (all_true_in es ρ); [|done].
  simpl. rewrite IH. f_equal. apply restrict_restrict. intros id Hid. apply Hn. by left.
Qed.

Lemma project_select src preds cols q :
  let new_cols := Build.union_cols (Build.frees preds) cols in
  wf (LSelect src preds) = true → list_to_set cols ⊆ Log.att src → project_spec src new_cols q →
  ∃ q', Build.select rules true q preds = Ret q' ∧ project_spec (LSelect src preds) cols (LProject q' cols).
Proof.
  intros new_cols Hw Hc [Wq Aq Bq _ _ Sq]. pose proof (elem_of_union_cols (Build.frees preds) cols) as Hn. fold new_cols in Hn.
  cbn [wf] in Hw. apply andb_true_iff in Hw as [Hs Hp].
  assert (forallb (pred_ok q) preds = true) as Hpq.
  { apply (preds_kept _ _ _ _ (list_to_set new_cols) _ Hp); [by rewrite Aq|done|].
    intros id Hid. apply elem_of_list_to_set, Hn. by right. }
  destruct (select_ok tbl rules true q preds Wq Hpq) as (q' & E & [W A B S]). exists q'. split; [done|].
  assert (list_to_set cols ⊆ (list_to_set new_cols : gset Z)) as Hsub.
  { intros id Hid%elem_of_list_to_set. apply elem_of_list_to_set, Hn. by left. }
  apply lproject_ok; [done|by rewrite A, Aq|rewrite B; simpl; set_solver|]. intros rows Er.
  assert (∃ rs, lsem tbl src = Some rs) as [rs Es] by (simpl in Er; destruct (lsem tbl src) as [rs|]; [by exists rs|done]).
  pose proof (ss_sem _ _ _ _ (lselect_spec tbl src preds Hs Hp) rs Es) as Er'. rewrite Er in Er'. injection Er' as ->.
  eexists. split; [by apply S, Sq|]. by apply restrict_filter.
Qed.

Lemma restrict_product cl cr cols L R (A B : gset Z) :
  A ## B → Forall (λ ρ : row, dom ρ = A) L → Forall (λ ρ : row, dom ρ = B) R →
  (∀ id, id ∈ cl ↔ id ∈ cols ∧ id ∈ A) → (∀ id, id ∈ cr ↔ id ∈ cols ∧ id ∈ B) →
  sem_product (map (restrict cl) L) (map (restrict cr) R) = map (restrict cols) (sem_product L R).
Proof.
  intros Hd HL HR Hl Hr. unfold sem_product. induction HL as [|ρl L Hρl _ IH]; [done|]. 
  change (map (restrict cl) (ρl :: L)) with (restrict cl ρl :: map (restrict cl) L). rewrite !bind_cons, map_app. apply f_equal2; [|exact IH]. clear IH. induction HR as [|ρr R Hρr _ IH]; [done|].
  rewrite fmap_cons. simpl map. rewrite fmap_cons. apply f_equal2; [|exact IH]. apply restrict_both; rewrite ?Hρl, ?Hρr; done.
Qed.

Lemma project_join jt l r preds cols ql qr :
  let new_cols := Build.union_cols (Build.frees preds) cols in
  wf (LJoin jt l r preds) = true → list_to_set cols ⊆ Log.att l ∪ Log.att r →
  project_spec l (Build.intersect_cols (Log.att l) new_cols) ql → project_spec r (Build.intersect_cols (Log.att r) new_cols) qr →
  ∃ q', Build.join rules true jt ql qr preds = Ret q' ∧ project_spec (LJoin jt l r preds) cols (LProject q' cols).
Proof.
  intros new_cols Hw Hc [Wl Al Bl _ _ Sl] [Wr Ar Br _ _ Sr].
  pose proof (elem_of_union_cols (Build.frees preds) cols) as Hn. fold new_cols in Hn.
  assert (joinable jt = true ∧ wf l = true ∧ wf r = true ∧ Log.att l ## Log.att r ∧ forallb (pred_on l r) preds = true) as (Hj & Hl & Hr & Hd & Hp).
  { cbn [wf] in Hw. destruct jt; try done; by checks. }
  set (cl := Build.intersect_cols (Log.att l) new_cols) in *. set (cr := Build.intersect_cols (Log.att r) new_cols) in *.
  assert (∀ id, id ∈ cl ↔ id ∈ new_cols ∧ id ∈ Log.att l) as Hcl by (intros; apply elem_of_intersect_cols).
  assert (∀ id, id ∈ cr ↔ id ∈ new_cols ∧ id ∈ Log.att r) as Hcr by (intros; apply elem_of_intersect_cols).
  pose proof (wf_bools l Hl) as Hbl. pose proof (wf_bools r Hr) as Hbr.
  assert (∀ id, id ∈ new_cols → id ∈ Log.att l ∪ Log.att r) as Hnew.
  { intros id [Hid|Hid]%Hn; [apply Hc; by apply elem_of_list_to_set|by apply (preds_free _ _ _ _ Hp)]. }
  assert (∀ id, id ∈ bools l ∪ bools r → id ∈ new_cols → id ∈ bools ql ∪ bools qr) as Hb.
  { intros id [Hid|Hid]%elem_of_union Hin; apply elem_of_union; [left; apply Bl|right; apply Br];
      apply elem_of_intersection; (split; [done|]); apply elem_of_list_to_set; [apply Hcl|apply Hcr]; auto. }
  assert (∀ id, id ∈ new_cols → id ∈ Log.att ql ∪ Log.att qr) as Hatt.
  { intros id Hid. rewrite Al, Ar, elem_of_union, !elem_of_list_to_set, Hcl, Hcr. pose proof (Hnew id Hid) as [?|?]%elem_of_union; auto. }
  assert (forallb (pred_on ql qr) preds = true) as Hpq.
  { apply (preds_kept _ _ _ _ (list_to_set new_cols) _ Hp).
    - intros id Hid%elem_of_list_to_set. auto.
    - intros id [? ?%elem_of_list_to_set]%elem_of_intersection. auto.
    - intros id Hid. apply elem_of_list_to_set, Hn. by right. }
  assert (Log.att ql ## Log.att qr) as Hdq.
  { intros id. rewrite Al, Ar, !elem_of_list_to_set, Hcl, Hcr. intros [_ ?] [_ ?]. by apply (Hd id). }
  destruct (join_ok tbl rules true jt ql qr preds Hj Wl Wr Hdq Hpq) as (q' & E & [W A B S]). exists q'. split; [done|].
  apply lproject_ok; [done| | |].
  - rewrite A. intros id Hid%elem_of_list_to_set. apply Hatt, Hn. by left.
  - rewrite B. simpl. intros id [? ?%elem_of_list_to_set]%elem_of_intersection. apply Hb; [done|]. apply Hn. by left.
  - intros rows Er.
    assert (∃ L R, lsem tbl l = Some L ∧ lsem tbl r = Some R) as (L & R & EL & ER).
    { cbn [lsem] in Er. destruct jt; try done; (destruct (lsem tbl l) as [L|]; [|done]; destruct (lsem tbl r) as [R|]; [by exists L, R|done]). }
    pose proof (js_sem _ _ _ _ _ (ljoin_spec tbl jt l r preds Hj Hl Hr Hd Hp) L R EL ER) as Er'. rewrite Er in Er'. injection Er' as ->.
    eexists. split; [by apply S; [apply Sl|apply Sr]|].
    rewrite (restrict_product cl cr new_cols L R (Log.att l) (Log.att r)); try done; [by apply restrict_filter|..].
    + eapply Forall_impl; [exact (lsem_ok tbl l L Hl EL)|]. by intros ρ [].
    + eapply Forall_impl; [exact (lsem_ok tbl r R Hr ER)|]. by intros ρ [].
Qed.

Lemma map_push_plain fuel g q exprs A :
  is_map q = false → Forall (λ x, expr_over A x.2) exprs →
  Build.map_push rules (S fuel) g q exprs = Ret (g, Build.map_plain q exprs).
Proof.
  intros Hq Hex. destruct exprs as [|x exprs]; [done|]. cbn [Build.map_push].
  assert ((if Rules.is_enabled rules Hoist then Build.find_subquery 0 (x :: exprs) else None) = None) as ->.
  { destruct (Rules.is_enabled _ _); [|done]. by eapply find_subquery_none. }
  by destruct q.
Qed.

Lemma elem_of_bools_map q exprs id :
  id ∈ bools (Build.map_plain q exprs) ↔ id ∈ bools q ∨ ∃ e, (id, e) ∈ exprs ∧ boolean_expr (bools q) e = true.
Proof.
  assert (id ∈ bools (LMap q exprs) ↔ id ∈ bools q ∨ ∃ e, (id, e) ∈ exprs ∧ boolean_expr (bools q) e = true) as Hm.
  { simpl. rewrite elem_of_union, elem_of_list_to_set, list_elem_of_fmap. apply or_iff_compat_l. split.
    - intros ([i e] & -> & Hin). apply list_elem_of_In, filter_In in Hin as [Hin%list_elem_of_In ?]. by exists e.
    - intros (e & Hin & ?). exists (id, e). split; [done|]. apply list_elem_of_In, filter_In. split; [by apply list_elem_of_In|done]. }
  destruct exprs as [|x exprs]; [|exact Hm]. rewrite <-Hm. simpl. set_solver.
Qed.

(** The projection of a map: its computed columns that are kept, over the columns they and
    the projection need. *)
Section KeptColumns.
Context (input : LogicalRelExpr) (exprs : list (Z * LExpr)) (cols : list Z).
Context (Hw : wf (LMap input exprs) = true) (Hc : list_to_set cols ⊆ Log.att input ∪ list_to_set exprs.*1).
Let ex := List.filter (λ x : Z * LExpr, bool_decide (x.1 ∈ cols)) exprs.
Let free := Build.frees ex.*2 ∖ Log.free (LMap input exprs).
Let new_cols := List.filter (λ c, negb (bool_decide (c ∈ ex.*1))) (Build.union_cols free cols).

Lemma kept_exprs x : x ∈ ex ↔ x ∈ exprs ∧ x.1 ∈ cols.
Proof. unfold ex. by rewrite list_elem_of_In, filter_In, <-list_elem_of_In, bool_decide_eq_true. Qed.

Lemma kept_ids id : id ∈ ex.*1 ↔ id ∈ exprs.*1 ∧ id ∈ cols.
Proof. rewrite !list_elem_of_fmap. setoid_rewrite kept_exprs. naive_solver. Qed.

Lemma kept_new id : id ∈ new_cols ↔ (id ∈ cols ∨ id ∈ free) ∧ id ∉ ex.*1.
Proof.
  unfold new_cols. by rewrite list_elem_of_In, filter_In, <-list_elem_of_In, elem_of_union_cols, negb_true_iff, bool_decide_eq_false.
Qed.

Lemma kept_over x : x ∈ ex → expr_over (Log.att input) x.2.
Proof. intros [Hx _]%kept_exprs. apply wf_map in Hw as (_ & _ & _ & Hex). rewrite Forall_forall in Hex. by apply Hex. Qed.

Lemma kept_free x : x ∈ ex → Expr.free x.2 ⊆ (list_to_set new_cols : gset Z).
Proof.
  intros Hx id Hid. pose proof (kept_over x Hx) as [_ Hf]. apply Hf in Hid as Ha. apply elem_of_list_to_set, kept_new. split.
  - right. apply elem_of_difference. split; [apply elem_of_frees; exists x.2; split; [|done]; apply list_elem_of_fmap; by exists x|].
    cbn [Log.free]. by intros [_ ?]%elem_of_difference.
  - intros [Hi _]%kept_ids. apply wf_map in Hw as (_ & _ & Hdis & _). apply (Hdis id Ha). by apply elem_of_list_to_set.
Qed.

Lemma kept_NoDup : NoDup ex.*1.
Proof.
  apply wf_map in Hw as (_ & Hnd & _). unfold ex. clear -Hnd. induction exprs as [|x l IH]; [done|].
  rewrite fmap_cons in Hnd. apply NoDup_cons in Hnd as [Hx Hnd]. cbn [List.filter]. destruct (bool_decide _); [|by apply IH].
  rewrite fmap_cons. apply NoDup_cons. split; [|by apply IH]. intros Hin. apply Hx.
  apply list_elem_of_fmap in Hin as (y & -> & Hy). apply list_elem_of_fmap. exists y. split; [done|].
  apply list_elem_of_In, filter_In in Hy as [? _]. by apply list_elem_of_In.
Qed.

Lemma kept_wf q : wf q = true → Log.att q = list_to_set new_cols → wf (LMap q ex) = true.
Proof.
  intros Wq Aq. apply wf_map. split_and!; [done|apply kept_NoDup| |].
  - rewrite Aq. intros id Hid%elem_of_list_to_set Hid'%elem_of_list_to_set. by apply kept_new in Hid as [_ ?].
  - apply Forall_forall. intros x Hin. split; [by apply kept_over|]. rewrite Aq. by apply kept_free.
Qed.

Lemma kept_bools q :
  bools input ∩ list_to_set new_cols ⊆ bools q → bools (LMap input exprs) ∩ list_to_set cols ⊆ bools (Build.map_plain q ex).
Proof.
  intros Hb. pose proof Hw as (Hi & _ & Hdis & _)%wf_map. pose proof (wf_bools input Hi) as Hbi.
  assert (∀ id, id ∈ bools input → id ∈ new_cols → id ∈ bools q) as Hb'.
  { intros id ? ?. apply Hb, elem_of_intersection. split; [done|by apply elem_of_list_to_set]. }
  intros id [Hid Hin%elem_of_list_to_set]%elem_of_intersection. apply elem_of_bools_map. simpl in Hid.
  apply elem_of_union in Hid as [Hid|Hid%elem_of_list_to_set].
  - left. apply Hb'; [done|]. apply kept_new. split; [by left|]. intros [Hi1 _]%kept_ids.
    apply (Hdis id); [by apply Hbi|by apply elem_of_list_to_set].
  - right. apply list_elem_of_fmap in Hid as ([i e] & -> & He). apply list_elem_of_In, filter_In in He as [He%list_elem_of_In Hbe].
    exists e. assert ((i, e) ∈ ex) as Hex by by apply kept_exprs. split; [done|]. apply (boolean_restrict (bools input)); [done|].
    intros id' ? Hf. apply Hb'; [done|]. apply (kept_free _ Hex) in Hf. by apply elem_of_list_to_set in Hf.
Qed.

Lemma kept_rows (rs rows : list row) :
  mapM (map_row exprs) rs = Some rows →
  ∃ qs, mapM (map_row ex) (map (restrict new_cols) rs) = Some qs ∧ map (restrict cols) qs = map (restrict cols) rows.
Proof.
  intros E. apply mapM_Some in E. induction E as [|ρ ρ' rs rows Hρ _ (qs & IH & Em)]; [by exists []|].
  destruct (map_row_restrict exprs cols new_cols ρ ρ') as (ρ2 & E2 & Er); [|apply kept_NoDup|apply kept_free| |done|].
  { by apply wf_map in Hw as (_ & ? & _). } { intros id ? ?. apply kept_new. auto. }
  exists (ρ2 :: qs). fold ex in E2. simpl. rewrite E2. simpl. rewrite IH. simpl. by rewrite Er, Em.
Qed.

Lemma project_map q fuel g :
  project_spec input new_cols q →
  ∃ q', Build.map_push rules (S fuel) g q ex = Ret (g, q') ∧ project_spec (LMap input exprs) cols (LProject q' cols).
Proof.
  intros [Wq Aq Bq _ Mq Sq]. exists (Build.map_plain q ex). split.
  { apply (map_push_plain _ _ _ _ (Log.att input)); [done|]. apply Forall_forall. intros x. apply kept_over. }
  destruct (map_plain_ok tbl q ex (kept_wf q Wq Aq)) as [W A S]. apply lproject_ok; [done| |by apply kept_bools|].
  - rewrite A, Aq. intros id Hid%elem_of_list_to_set. apply elem_of_union. rewrite !elem_of_list_to_set, kept_new.
    destruct (decide (id ∈ ex.*1)); auto.
  - intros rows E. cbn [lsem] in E. destruct (lsem tbl input) as [rs|]; [|done]. destruct (kept_rows rs rows E) as (qs & Eq & Em).
    exists qs. split; [|done]. apply S. cbn [lsem]. by rewrite (Sq rs eq_refl).
Qed.
End KeptColumns.

(** The projection of a renaming: the renamings to kept columns, over their sources. *)
Lemma rename_to_not_map q m : is_map (Build.rename_to q m) = false.
Proof. revert m. induction q; intros; first [reflexivity|simpl; auto]. Qed.

Lemma reverse_Some (l : list (Z * Z)) (acc : gmap Z Z) c a :
  NoDup l.*2 → foldl (λ m '(src, dest), <[dest := src]> m) acc l !! c = Some a ↔ (a, c) ∈ l ∨ (acc !! c = Some a ∧ c ∉ l.*2).
Proof.
  revert acc. induction l as [|[s d] l IH]; intros acc Hnd.
  - simpl. rewrite !elem_of_nil. naive_solver.
  - rewrite fmap_cons in Hnd. apply NoDup_cons in Hnd as [Hd Hnd]. simpl foldl. rewrite IH, lookup_insert_Some by done.
    rewrite fmap_cons, !elem_of_cons. cbn [fst snd] in *. split.
    + intros [?|[[[<- <-]|[? ?]] ?]]; [auto|auto|]. right. split; [done|]. intros [->|?]; done.
    + intros [[[= -> ->]|?]|[? Hn]]; [|by left|]; right; [by split; [left|]|].
      split; [right; split; [intros ->; apply Hn; by left|done]|]. intros ?. apply Hn. by right.
Qed.

Section KeptRenames.
Context (src : LogicalRelExpr) (m : gmap Z Z) (cols : list Z).
Context (Hw : wf (LRename src m) = true) (Hfr : fresh_renames (LRename src m) = true).
Context (Hc : list_to_set cols ⊆ Log.att (LRename src m)).
Let kept := filter (λ x : Z * Z, x.2 ∈ cols) m.
Let rev := foldl (λ m '(src, dest), <[dest := src]> m) (∅ : gmap Z Z) (map_to_list kept).
Let new_cols := renamed rev <$> cols.

Lemma kept_rename a c : kept !! a = Some c ↔ m !! a = Some c ∧ c ∈ cols.
Proof. unfold kept. by rewrite map_lookup_filter_Some. Qed.

Lemma rename_source c : c ∈ cols → ∃ a, a ∈ Log.att src ∧ m !! a = Some c.
Proof.
  intros Hin. pose proof Hw as (_ & Hd & _ & Ha)%wf_rename. assert (c ∈ Log.att (LRename src m)) as Hc' by by apply Hc, elem_of_list_to_set.
  rewrite Ha in Hc'. apply elem_of_renamed in Hc' as (a & Hin' & <-). exists a. split; [done|].
  rewrite <-Hd in Hin'. apply elem_of_dom in Hin' as [b Hb]. unfold renamed. by rewrite Hb.
Qed.

Lemma rename_inj a b c : m !! a = Some c → m !! b = Some c → a = b.
Proof.
  intros Ha Hb. pose proof Hw as (_ & Hd & Hi & _)%wf_rename. apply Hi; [rewrite <-Hd; apply elem_of_dom; by eexists..|].
  unfold renamed. by rewrite Ha, Hb.
Qed.

Lemma reverse_kept a c : m !! a = Some c → c ∈ cols → renamed rev c = a.
Proof.
  intros Ha Hin. assert (rev !! c = Some a) as Hr; [|unfold renamed; by rewrite Hr].
  unfold rev. rewrite reverse_Some; [left; apply elem_of_map_to_list; by apply kept_rename|].
  apply NoDup_fmap_2_strong; [|apply NoDup_map_to_list].
  intros [x y] [x' y'] Hx%elem_of_map_to_list Hx'%elem_of_map_to_list Heq. simpl in Heq. subst y'.
  apply kept_rename in Hx as [Hx _], Hx' as [Hx' _]. by rewrite (rename_inj x x' y Hx Hx').
Qed.

Lemma kept_sources a : a ∈ new_cols ↔ ∃ c, m !! a = Some c ∧ c ∈ cols.
Proof.
  unfold new_cols. rewrite list_elem_of_fmap. split.
  - intros (c & -> & Hin). destruct (rename_source c Hin) as (a & _ & Ha). exists c. by rewrite (reverse_kept a c).
  - intros (c & Ha & Hin). exists c. split; [|done]. symmetry. by apply reverse_kept.
Qed.

Lemma kept_row (ρ : row) : dom ρ = Log.att src → rename_keys kept (restrict new_cols ρ) = restrict cols (rename_keys m ρ).
Proof.
  intros Hρ. pose proof Hw as (_ & Hd & Hi & _)%wf_rename.
  assert (∀ a c, m !! a = Some c → renamed m a = c) as Hm by (intros a c Ha; unfold renamed; by rewrite Ha).
  assert (∀ a, a ∈ new_cols → renamed kept a = renamed m a) as Hk.
  { intros a (c & Ha & Hin)%kept_sources. unfold renamed. rewrite Ha. by rewrite (proj2 (kept_rename a c)). }
  assert (∀ a, a ∈ dom (restrict new_cols ρ) → a ∈ new_cols ∧ a ∈ dom ρ) as Hdom.
  { intros a [v Hv]%elem_of_dom. destruct (decide (a ∈ new_cols)) as [Hin|Hin]; [|by rewrite restrict_notin in Hv].
    rewrite restrict_in in Hv by done. split; [done|]. apply elem_of_dom. by eexists. }
  apply map_eq. intros k. apply option_eq. intros v. rewrite rename_keys_Some.
  - split.
    + intros (a & Ha & <-). assert (a ∈ new_cols) as Hin.
      { apply Hdom. apply elem_of_dom. by eexists. }
      rewrite restrict_in in Ha by done. rewrite Hk by done. apply kept_sources in Hin as (c & Hac & Hin). rewrite (Hm a c Hac).
      rewrite restrict_in by done. apply rename_keys_Some; [by rewrite Hρ|]. exists a. auto.
    + destruct (decide (k ∈ cols)) as [Hin|Hin]; [|by rewrite restrict_notin]. rewrite restrict_in by done.
      rewrite rename_keys_Some by by rewrite Hρ. intros (a & Ha & <-). exists a.
      assert (a ∈ dom m) as [c Hac]%elem_of_dom by (rewrite Hd, <-Hρ; apply elem_of_dom; by eexists).
      assert (a ∈ new_cols) as Hn by (apply kept_sources; exists c; split; [done|]; by rewrite <-(Hm a c Hac)).
      rewrite restrict_in by done. split; [done|by apply Hk].
  - intros a b [Ha Ha']%Hdom [Hb Hb']%Hdom. rewrite !Hk by done. rewrite Hρ in Ha', Hb'. by apply Hi.
Qed.

Lemma project_rename q : project_spec src new_cols q → project_spec (LRename src m) cols (Build.rename_to q kept).
Proof.
  intros [Wq Aq _ Cq _ Sq]. pose proof Hw as (Hs & Hd & Hi & _)%wf_rename.
  assert (∀ a b, m !! a = Some b → b ∉ seen src) as Hfresh.
  { intros a b Hab. simpl in Hfr. apply andb_true_iff in Hfr as [_ Hf]. rewrite forallb_forall in Hf.
    apply (bool_decide_eq_true _), (Hf (a, b)). by apply list_elem_of_In, elem_of_map_to_list. }
  assert (∀ a, a ∈ new_cols → a ∈ Log.att src) as Hsub.
  { intros a (c & Ha & _)%kept_sources. rewrite <-Hd. apply elem_of_dom. by eexists. }
  assert (∀ a, a ∈ new_cols → renamed kept a = renamed m a) as Hk.
  { intros a (c & Ha & Hin)%kept_sources. unfold renamed. rewrite Ha. by rewrite (proj2 (kept_rename a c)). }
  assert (Log.att q ∪ chain q ⊆ seen src) as Hseen.
  { apply union_least; [|done]. rewrite Aq. intros a Ha%elem_of_list_to_set. by apply att_seen, Hsub. }
  destruct (rename_to_ok tbl q kept Wq) as [W A C S].
  - rewrite Aq. apply set_eq. intros a. rewrite elem_of_dom, elem_of_list_to_set, kept_sources. unfold is_Some. by setoid_rewrite kept_rename.
  - rewrite Aq. intros a b Ha%elem_of_list_to_set Hb%elem_of_list_to_set. rewrite !Hk by done. apply Hi; auto.
  - intros a b [Hab _]%kept_rename Hin. by apply (Hfresh a b Hab), Hseen.
  - split; [done| |simpl; set_solver| | |].
    + rewrite A, Aq. apply set_eq. intros c. rewrite elem_of_renamed, elem_of_list_to_set. setoid_rewrite elem_of_list_to_set. split.
      * intros (a & Ha & <-). rewrite Hk by done. apply kept_sources in Ha as (c & Ha & ?). unfold renamed. by rewrite Ha.
      * intros Hin. destruct (rename_source c Hin) as (a & _ & Ha). exists a. assert (a ∈ new_cols) by (apply kept_sources; eauto).
        split; [done|]. rewrite Hk by done. unfold renamed. by rewrite Ha.
    + etrans; [exact C|]. etrans; [exact Hseen|]. simpl. apply union_subseteq_r.
    + apply rename_to_not_map.
    + intros rows E. cbn [lsem] in E. destruct (lsem tbl src) as [rs|] eqn:Es; [|done]. injection E as <-.
      rewrite (S _ (Sq rs eq_refl)). f_equal. rewrite !map_map. apply map_ext_Forall.
      eapply Forall_impl; [exact (lsem_ok tbl src rs Hs Es)|]. intros ρ [Hρ _]. by apply kept_row.
Qed.
End KeptRenames.

Lemma project_push_ok fuel g p cols :
  (height p ≤ fuel)%nat → wf p = true → fresh_renames p = true → list_to_set cols ⊆ Log.att p →
  ∃ p', Build.project_push rules fuel g p cols = Ret (g, p') ∧ project_spec p cols p'.
Proof.
  revert p cols. induction fuel as [|fuel IH]; intros p cols Hh Hw Hf Hc; [destruct p; simpl in Hh; lia|].
  assert (project_spec p cols (LProject p cols)) as Hplain by (apply lproject_ok; try done; [set_solver|eauto]).
  cbn [Build.project_push]. destruct (Rules.is_enabled rules ProjectionPushdown); [|exact (ex_intro _ _ (conj eq_refl Hplain))].
  destruct p as [cid name names| | | |src preds|jt l r preds|src cols0| |src gb aggrs|input exprs| |src m];
    try exact (ex_intro _ _ (conj eq_refl Hplain)); cbn [height] in Hh; cbn [fresh_renames] in Hf.
  - eexists. split; [reflexivity|]. by apply project_scan.
  - assert (list_to_set (Build.union_cols (Build.frees preds) cols) ⊆ Log.att src) as Hn.
    { intros id [?|?]%elem_of_list_to_set%elem_of_union_cols; [by apply Hc, elem_of_list_to_set|].
      cbn [wf] in Hw. apply andb_true_iff in Hw as [_ Hp]. by apply (preds_free _ _ _ _ Hp). }
    destruct (IH src _ ltac:(lia) ltac:(by cbn [wf] in Hw; apply andb_true_iff in Hw as [? _]) Hf Hn) as (q & -> & Hq).
    destruct (project_select src preds cols q Hw Hc Hq) as (q' & E & Hs). exists (LProject q' cols). split; [|done].
    rewrite bind_Ret. cbv beta iota. by rewrite E.
  - apply andb_true_iff in Hf as [Hfl Hfr].
    assert (wf l = true ∧ wf r = true) as [Hl Hr] by (cbn [wf] in Hw; destruct jt; try done; by checks).
    destruct (IH l (Build.intersect_cols (Log.att l) (Build.union_cols (Build.frees preds) cols)) ltac:(lia) Hl Hfl) as (ql & -> & Hql).
    { by intros id [_ ?]%elem_of_list_to_set%elem_of_intersect_cols. }
    rewrite bind_Ret. cbv beta iota.
    destruct (IH r (Build.intersect_cols (Log.att r) (Build.union_cols (Build.frees preds) cols)) ltac:(lia) Hr Hfr) as (qr & -> & Hqr).
    { by intros id [_ ?]%elem_of_list_to_set%elem_of_intersect_cols. }
    destruct (project_join jt l r preds cols ql qr Hw Hc Hql Hqr) as (q' & E & Hs). exists (LProject q' cols). split; [|done].
    rewrite bind_Ret. cbv beta iota. by rewrite E.
  - assert (list_to_set cols0 ⊆ Log.att src ∧ wf src = true) as [Hc0 Hs] by (cbn [wf] in Hw; by checks).
    destruct (IH src cols ltac:(lia) Hs Hf ltac:(simpl in Hc; set_solver)) as (q & E & Hq). exists q. split; [done|].
    by apply project_project.
  - destruct fuel as [|fuel]; [destruct input; simpl in Hh; lia|].
    match goal with |- context [Build.project_push rules (S fuel) g input ?nc] => destruct (IH input nc) as (q & Eq & Hq) end;
      [lia|by apply wf_map in Hw as [? _]|done| |].
    { intros id [[Hid|[Hid _]%elem_of_difference] Hx]%elem_of_list_to_set%kept_new.
      - assert (id ∈ Log.att (LMap input exprs)) as [?|Hi%elem_of_list_to_set]%elem_of_union by (by apply Hc, elem_of_list_to_set); [done|].
        exfalso. apply Hx. by apply kept_ids.
      - apply elem_of_frees in Hid as (e & He & Hid). apply list_elem_of_fmap in He as (x & -> & Hx').
        by apply (kept_over input exprs cols Hw x Hx'). }
    destruct (project_map input exprs cols Hw q fuel g Hq) as (q' & E & Hs). exists (LProject q' cols). split; [|done].
    rewrite Eq, bind_Ret. cbv beta iota. by rewrite E.
  - match goal with |- context [Build.project_push rules fuel g src ?nc] => destruct (IH src nc) as (q & Eq & Hq) end;
      [lia|by apply wf_rename in Hw as [? _]|by apply andb_true_iff in Hf as [? _]| |].
    { intros id (c & Ha & _)%elem_of_list_to_set%(kept_sources src m cols Hw Hc). apply wf_rename in Hw as (_ & <- & _).
      apply elem_of_dom. by eexists. }
    eexists. rewrite Eq, bind_Ret. split; [reflexivity|]. by apply project_rename.
Qed.

Lemma lproject_build_ok fuel optimize g p cols :
  (height p ≤ fuel)%nat → wf p = true → fresh_renames p = true → list_to_set cols ⊆ Log.att p →
  ∃ p', Build.project rules fuel optimize g p cols false = Ret (g, p') ∧ project_spec p cols p'.
Proof.
  intros Hh Hw Hf Hc. destruct optimize; [by apply project_push_ok|]. eexists. split; [reflexivity|].
  apply lproject_ok; try done; [set_solver|eauto].
Qed.

(** C16: Projections are pushed down correctly. On a plan that passes the static check and
    renames only to columns that do not occur below, [project] returns when its bound is at
    least the height of the plan. What it returns passes the check, has exactly the columns
    of the projection, and means the rows of the plan restricted to them, in their order. *)
Theorem project_correct fuel optimize g p cols :
  (height p ≤ fuel)%nat → wf p = true → fresh_renames p = true → list_to_set cols ⊆ Log.att p →
  ∃ p', Build.project rules fuel optimize g p cols false = Ret (g, p') ∧ wf p' = true ∧ Log.att p' = list_to_set cols ∧
    ∀ rows, lsem tbl p = Some rows → lsem tbl p' = Some (map (restrict cols) rows).
Proof.
  intros Hh Hw Hf Hc. destruct (lproject_build_ok fuel optimize g p cols Hh Hw Hf Hc) as (p' & E & [W A _ _ _ S]). by exists p'.
Qed.
End Projects.

(** C35: Pushing a projection into a table loses the order of its columns. A table is a scan
    with its columns renamed; with the rule enabled, [SELECT b, a FROM t] and
    [SELECT a, b FROM t] are the same plan: the renamed scan, without a projection, of some of
    the columns in the order of the table. *)
Theorem projection_order_lost rules fuel g cid name names m cols cols' :
  Rules.is_enabled rules ProjectionPushdown = true → (∀ id, id ∈ cols ↔ id ∈ cols') →
  let table := LRename (LScan cid name names) m in
  Build.project rules (S (S fuel)) true g table cols false = Build.project rules (S (S fuel)) true g table cols' false ∧
  ∃ m' kept, Build.project rules (S (S fuel)) true g table cols false =
    Ret (g, LRename (LScan cid name (List.filter kept names)) m').
Proof.
  intros Hr Hc table. subst table. unfold Build.project. cbn [Build.project_push]. rewrite Hr.
  assert (filter (λ x : Z * Z, x.2 ∈ cols') m = filter (λ x : Z * Z, x.2 ∈ cols) m) as ->.
  { apply map_filter_ext. intros k x _. simpl. symmetry. apply Hc. }
  rewrite !bind_Ret. cbn [Build.rename_to]. split; [|by eexists _, _]. unfold Build.scan. do 4 f_equal. apply filter_ext. intros id.
  apply bool_decide_ext. rewrite !list_elem_of_fmap. naive_solver.
Qed.
