(* ===== verification/SqlSem.v ===== *)
(** * The meaning of SQL queries

    A reference interpreter of [SELECT items FROM tables WHERE condition], by the book: the
    rows of the tables are combined in the order of the FROM clause, the conditions of joins
    and the WHERE clause keep the rows on which they are true, and every item is computed on
    every row. There are no column ids and no plans: a row is a list of values, and a name
    means the one column that goes by it. The interpreter has no answer for a query with an
    unknown or ambiguous name, a condition that is not boolean by its form, a value that
    cannot be computed, or a clause that is not of this form. *)

From stdpp Require Import strings gmap.
From S2P Require Import Prelude Common Field FieldCodec Tuple ByteCode Expr OpIterator.
From S2P Require Import OpAggregate PhysicalPlan.
From S2P Require Import DbCatalog PlanSem Logical SqlAst Translate.

Open Scope Z_scope.

(** ** Names *)

(** The columns of a FROM clause, each with the names it goes by. *)
Abbreviation sql_scope := (list (list (list byte))).

(** A relation: its columns and its rows. *)
Abbreviation sql_rel := (sql_scope * list (list Field))%type.

(** The column that goes by a name, when it is the only one. *)
Definition find_col (scope : sql_scope) (n : list byte) : option nat :=
  match list_find (λ names, n ∈ names) scope with
  | Some (i, _) => if bool_decide (Forall (λ names, n ∉ names) (drop (S i) scope)) then Some i else None
  | None => None
  end.

(** ** Literals *)

Definition sql_literal (v : SqlValue) : option Field :=
  match v with
  | Number num _ => BigInt <$> parse_i64 num
  | SingleQuotedString s | DoubleQuotedString s => Some (FString s)
  | SqlBoolean b => Some (FBool b)
  | SqlNull => Some Null
  | OtherValue => None
  end.

Section Sql.
Context `{Unicode} `{TupleCodec} (parse_date : list byte → option Z).
Context (catalog : Catalog) (tbl : Z → option (list item)).

Definition typed_literal (t : SqlDataType) (v : list byte) : option Field :=
  match t with
  | SqlInt | SqlInteger => BigInt <$> parse_i64 v
  | SqlVarchar | SqlChar => Some (FString v)
  | SqlDate => Date <$> parse_date v
  | _ => None
  end.

(** ** Expressions *)

(** The value of an expression on a row. *)
Fixpoint sql_eval (scope : sql_scope) (r : list Field) (e : SqlExpr) : outcome Field :=
  match e with
  | Identifier n => i ← unwrap (find_col scope n); unwrap (r !! i)
  | CompoundIdentifier parts => i ← unwrap (find_col scope (join_dot parts)); unwrap (r !! i)
  | ExprValue v => unwrap (sql_literal v)
  | TypedString t v => unwrap (typed_literal t v)
  | BinaryOpExpr l op r' =>
      x ← sql_eval scope r l; y ← sql_eval scope r r'; op ← unwrap (binary_op op); apply_binary op x y
  | NestedExpr e => sql_eval scope r e
  | _ => Panic
  end.

(** The names in an expression, other than those of subqueries. *)
Fixpoint sql_names (e : SqlExpr) : list (list byte) :=
  match e with
  | Identifier n => [n]
  | CompoundIdentifier parts => [join_dot parts]
  | BinaryOpExpr l _ r => sql_names l ++ sql_names r
  | NestedExpr e => sql_names e
  | _ => []
  end.

(** Expressions whose names have a meaning. *)
Fixpoint sql_ok (scope : sql_scope) (e : SqlExpr) : bool :=
  match e with
  | Identifier n => bool_decide (is_Some (find_col scope n))
  | CompoundIdentifier parts => bool_decide (is_Some (find_col scope (join_dot parts)))
  | ExprValue v => bool_decide (is_Some (sql_literal v))
  | TypedString t v => bool_decide (is_Some (typed_literal t v))
  | BinaryOpExpr l op r => sql_ok scope l && sql_ok scope r && bool_decide (is_Some (binary_op op))
  | NestedExpr e => sql_ok scope e
  | _ => false
  end.

(** Columns and literals. *)
Fixpoint sql_operand (e : SqlExpr) : bool :=
  match e with
  | Identifier _ | CompoundIdentifier _ | ExprValue _ | TypedString _ _ => true
  | NestedExpr e => sql_operand e
  | _ => false
  end.

(** Comparisons of columns and literals, with AND and OR. *)
Fixpoint sql_condition (e : SqlExpr) : bool :=
  match e with
  | ExprValue (SqlBoolean _) => true
  | BinaryOpExpr l op r =>
      match op with
      | SqlAnd | SqlOr => sql_condition l && sql_condition r
      | SqlEq | SqlNotEq | SqlLt | SqlGt | SqlLtEq | SqlGtEq => sql_operand l && sql_operand r
      | _ => false
      end
  | NestedExpr e => sql_condition e
  | _ => false
  end.

Definition sql_holds (scope : sql_scope) (e : SqlExpr) (r : list Field) : bool :=
  match sql_eval scope r e with Ret (FBool b) => b | _ => false end.

(** ** FROM *)

(** A column of a table goes by its own name, and qualified by the name or alias of the
    table. *)
Definition column_names_of (table_name : list byte) (alias : option TableAlias) (a : Attribute) : list (list byte) :=
  att_name a :: dotted table_name (att_name a) :: ((λ al, dotted (alias_display al) (att_name a)) <$> option_list alias).

(** A stored record, when it has a value for every column. *)
Definition stored_row (n : nat) (x : item) : option (list Field) :=
  t ← to_option (tuple_from_bytes x.1);
  if bool_decide (length (field_vals t) = n) then Some (field_vals t) else None.

Definition sql_table (name : ObjectName) (alias : option TableAlias) : option sql_rel :=
  let table_name := get_table_name name in
  cid ← Cat.get_table_id_if_exists catalog table_name;
  schema ← Cat.get_table_schema catalog cid;
  items ← tbl cid;
  rows ← mapM (stored_row (length (attributes schema))) items;
  Some (column_names_of table_name alias <$> attributes schema, rows).

Definition alias_ok (alias : option TableAlias) : bool :=
  match alias with Some al => is_valid_alias (alias_name al) | None => true end.

Definition sql_factor (t : TableFactor) : option sql_rel :=
  match t with
  | TableRef name alias => if alias_ok alias then sql_table name alias else None
  | _ => None
  end.

(** Every row of the one with every row of the other. *)
Definition sql_product (L R : list (list Field)) : list (list Field) := L ≫= λ l, (λ r, l ++ r) <$> R.

Definition sql_cross (l r : sql_rel) : sql_rel := (l.1 ++ r.1, sql_product l.2 r.2).

Definition sql_filter (e : SqlExpr) (x : sql_rel) : option sql_rel :=
  if sql_ok x.1 e && sql_condition e then Some (x.1, List.filter (sql_holds x.1 e) x.2) else None.

Definition sql_join (l : sql_rel) (j : SqlJoin) : option sql_rel :=
  let '(mkSqlJoin relation op) := j in
  r ← sql_factor relation;
  match op with
  | CrossJoinOp => Some (sql_cross l r)
  | InnerOn cond => sql_filter cond (sql_cross l r)
  | _ => None
  end.

Definition sql_table_with_joins (t : TableWithJoins) : option sql_rel :=
  let '(mkTableWithJoins relation joins) := t in
  r ← sql_factor relation;
  foldl (λ acc j, acc ← acc; sql_join acc j) (Some r) joins.

Definition sql_from (from : list TableWithJoins) : option sql_rel :=
  match from with
  | [] => None
  | t :: from =>
      r ← sql_table_with_joins t;
      rs ← mapM sql_table_with_joins from;
      Some (foldl sql_cross r rs)
  end.

Definition sql_where (selection : option SqlExpr) (x : sql_rel) : option sql_rel :=
  match selection with Some e => sql_filter e x | None => Some x end.

(** ** SELECT *)

Definition item_expr (it : SelectItem) : option SqlExpr :=
  match it with UnnamedExpr e | ExprWithAlias e _ => Some e | _ => None end.
Definition item_alias (it : SelectItem) : option (list byte) :=
  match it with ExprWithAlias _ alias => Some alias | _ => None end.

(** Items whose names have a meaning, which no alias before them takes; [taken] are the
    aliases so far. *)
Fixpoint sql_items (scope : sql_scope) (taken : list (list byte)) (items : list SelectItem) : option (list SqlExpr) :=
  match items with
  | [] => Some []
  | it :: items =>
      e ← item_expr it;
      if sql_ok scope e && bool_decide (Forall (λ n, n ∉ taken) (sql_names e)) && forallb is_valid_alias (option_list (item_alias it))
      then es ← sql_items scope (option_list (item_alias it) ++ taken) items; Some (e :: es)
      else None
  end.

Definition sql_row (scope : sql_scope) (es : list SqlExpr) (r : list Field) : option (list Field) :=
  mapM (λ e, to_option (sql_eval scope r e)) es.

Definition sql_projection (items : list SelectItem) (x : sql_rel) : option (list (list Field)) :=
  match items with
  | [Wildcard] => Some x.2
  | _ => es ← sql_items x.1 [] items; mapM (sql_row x.1 es) x.2
  end.

(** The answer to a query: one list of values per row, in order. ORDER BY, LIMIT, DISTINCT
    and grouping are not of this form. *)
Definition sql_query (q : SqlQuery) : option (list (list Field)) :=
  match q with
  | mkSqlQuery (SelectBody (mkSelect false items from selection (GroupByExpressions []) None)) [] None =>
      x ← sql_from from; x ← sql_where selection x; sql_projection items x
  | _ => None
  end.
End Sql.
