(* ===== verification/TranslateFrom.v ===== *)
(** * The translation of FROM clauses

    The translation of names, expressions and FROM clauses: names resolve to the columns the
    reference interpreter means, expressions have the values it gives them, and the plans of
    tables and joins mean their rows. Constructors of plans that return with some fuel return
    the same with more. *)

From stdpp Require Import strings gmap.
From S2P Require Import Prelude Common Field FieldCodec Tuple ByteCode Expr ExprCorrect.
From S2P Require Import OpIterator OpAggregate.
From S2P Require Import PhysicalPlan DbCatalog PlanSem PlanRel Logical LogicalSem.
From S2P Require Import LogicalCorrect LogicalProject.
From S2P Require Import SqlAst Translate SqlSem.

Open Scope Z_scope.

(** ** More fuel *)

Section Fuel.
Context (rules : RuleSet).

(** What returns with [n] returns the same with [m]. *)
Definition below (n m : nat) : Prop :=
  (∀ g p es r, Build.map_push rules n g p es = Ret r → Build.map_push rules m g p es = Ret r) ∧
  (∀ g p id e r, Build.hoist rules n g p id e = Ret r → Build.hoist rules m g p id e = Ret r) ∧
  (∀ g p q r, Build.flatmap_push rules n g p q = Ret r → Build.flatmap_push rules m g p q = Ret r) ∧
  (∀ g p cols r, Build.project_push rules n g p cols = Ret r → Build.project_push rules m g p cols = Ret r).

(** Uses the hypotheses for the calls of a body, one bind after the other. *)
#[local] Ltac calls IHm IHh IHf IHp :=
  repeat first
    [ done
    | apply IHm | apply IHh | apply IHf | apply IHp
    | match goal with |- (match ?x with _ => _ end) = Ret _ → _ => let E := fresh "E" in destruct x eqn:E end
    | let x := fresh "x" in let E := fresh "E" in let H := fresh "H" in
      intros (x & E & H)%bind_Ret_inv; revert H;
      first [apply IHm in E | apply IHh in E | apply IHf in E | apply IHp in E | idtac];
      try (destruct x as [? ?]); rewrite E; cbn [mbind outcome_bind]; cbv beta iota
    | progress cbv zeta beta ].

Lemma below_S n m : below n m → below (S n) (S m).
Proof.
  intros (IHm & IHh & IHf & IHp). split_and!.
  - intros g p es r. cbn [Build.map_push]. calls IHm IHh IHf IHp.
  - intros g p id e r. cbn [Build.hoist]. calls IHm IHh IHf IHp.
  - intros g p q r. cbn [Build.flatmap_push]. calls IHm IHh IHf IHp.
  - intros g p cols r. cbn [Build.project_push]. calls IHm IHh IHf IHp.
Qed.

Lemma more_fuel n m : (n ≤ m)%nat → below n m.
Proof.
  revert m. induction n as [|n IH]; intros m Hm; [by split_and!|]. destruct m as [|m]; [lia|]. apply below_S, IH. lia.
Qed.
End Fuel.

(** ** Names *)

(** The column [i] goes by [n], and no other does. *)
Definition denotes (scope : sql_scope) (n : list byte) (i : nat) : Prop :=
  (∃ names, scope !! i = Some names ∧ n ∈ names) ∧
  ∀ j names, scope !! j = Some names → n ∈ names → j = i.

Lemma find_col_denotes scope n i : find_col scope n = Some i → denotes scope n i.
Proof.
  unfold find_col. destruct (list_find _ scope) as [[k names]|] eqn:E; [|done]. case_bool_decide as HF; [|done].
  intros [= <-]. apply list_find_Some in E as (Hk & Hin & Hbefore). split; [by exists names|].
  intros j names' Hj Hin'. destruct (Nat.lt_trichotomy j k) as [Hlt|[?|Hgt]]; [by destruct (Hbefore j names')|done|].
  exfalso. rewrite Forall_lookup in HF. apply (HF (j - S k)%nat names'); [|done]. rewrite lookup_drop.
  by replace (S k + (j - S k))%nat with j by lia.
Qed.

(** The innermost scope has the columns of a FROM clause under their names; [taken] are names
    that have got another meaning. *)
Definition env_ok (taken : list (list byte)) (scope : sql_scope) (ids : list Z) (sc : Scope) : Prop :=
  ∀ n i, n ∉ taken → denotes scope n i → ∃ id, ids !! i = Some id ∧ columns sc !! n = Some id.

(** ** Expressions *)

Lemma bind_cols_app_l (ids ids' : list Z) (r r' : list Field) i id :
  NoDup (ids ++ ids') → length r = length ids → ids !! i = Some id →
  bind_cols ∅ (ids ++ ids') (r ++ r') !! id = r !! i.
Proof.
  intros Hnd Hl Hi. destruct (r !! i) as [v|] eqn:Hv.
  - apply (bind_cols_in _ _ _ i); [done|by apply lookup_app_l_Some|by apply lookup_app_l_Some].
  - apply lookup_ge_None in Hv. apply lookup_lt_Some in Hi. lia.
Qed.

Lemma binary_op_condition op o :
  binary_op op = Some o →
  match op with SqlEq | SqlNotEq | SqlLt | SqlGt | SqlLtEq | SqlGtEq => comparison_op o = true
  | SqlAnd => o = OpAnd | SqlOr => o = OpOr | _ => True end.
Proof. by destruct op; intros [= <-]. Qed.

Section Expressions.
Context `{Unicode} (parse_date : list byte → option Z) (rules : RuleSet).
Context (taken : list (list byte)) (scope : sql_scope) (ids : list Z) (sc : Scope) (outer : list Scope) (g : Z).
Context (Henv : env_ok taken scope ids sc) (Hnd : NoDup ids).
Let st := mkTstate (sc :: outer) g.

(** The expression [e] of a query is translated to [le], which has its value on every row. *)
Record translated (e : SqlExpr) (d : option nat) (le : LExpr) : Prop := {
  tr_run fuel sub : Translator.process_expr parse_date rules fuel sub e d st = Ret (st, Ok le);
  tr_over : expr_over (list_to_set ids) le;
  tr_value r : length r = length ids → eval_expr (λ id, bind_cols ∅ ids r !! id) le = sql_eval parse_date scope r e;
  tr_operand : sql_operand e = true → operand le = true;
  tr_condition B : sql_condition e = true → boolean_expr B le = true
}.

Lemma lookup_ok n i d :
  d = Some O ∨ d = None → n ∉ taken → find_col scope n = Some i →
  ∃ id, ids !! i = Some id ∧ Translator.lookup_column n d st = Ret (st, Ok (ColRef id)).
Proof.
  intros Hd Hn Hi. destruct (Henv n i Hn (find_col_denotes _ _ _ Hi)) as (id & Hid & Hc). exists id. split; [done|].
  unfold Translator.lookup_column, ask. unfold mbind, SE_bind. subst st. cbn [env].
  destruct Hd as [-> | ->]; cbn [Env.get_at Env.get]; rewrite Hc; reflexivity.
Qed.

Lemma translated_column n i d e :
  d = Some O ∨ d = None → n ∉ taken → find_col scope n = Some i →
  (∀ fuel sub, Translator.process_expr parse_date rules fuel sub e d = Translator.lookup_column n d) →
  (∀ r, sql_eval parse_date scope r e = (i ← unwrap (find_col scope n); unwrap (r !! i))) → sql_condition e = false →
  ∃ le, translated e d le.
Proof.
  intros Hd Hn Hi Hp Hv Hc. destruct (lookup_ok n i d Hd Hn Hi) as (id & Hid & Hrun). exists (ColRef id). split; [|split| | |].
  - intros. by rewrite Hp.
  - done.
  - simpl. intros x ->%elem_of_singleton. apply elem_of_list_to_set, list_elem_of_lookup. by exists i.
  - intros r Hl. rewrite Hv, Hi. cbn [unwrap mbind outcome_bind eval_expr]. f_equal.
    rewrite <-(app_nil_r ids), <-(app_nil_r r). rewrite (bind_cols_app_l ids [] r [] i id); [by rewrite app_nil_r|by rewrite app_nil_r|done|done].
  - done.
  - by rewrite Hc.
Qed.

Lemma translated_field e d v :
  (∀ fuel sub, Translator.process_expr parse_date rules fuel sub e d st = Ret (st, Ok (EField v))) →
  (∀ r, sql_eval parse_date scope r e = Ret v) → (sql_condition e = true → ∃ b, v = FBool b) → translated e d (EField v).
Proof.
  intros Hp Hv Hc. split; [done|split; [done|simpl; set_solver]|intros; by rewrite Hv|done|].
  intros B Hb. by destruct (Hc Hb) as [b ->].
Qed.

Lemma translated_value v f d :
  sql_literal v = Some f → translated (ExprValue v) d (EField f).
Proof.
  intros Hf. apply translated_field.
  - intros fuel sub. cbn [Translator.process_expr]. destruct v as [num long| | | | |]; simpl in Hf |- *; try done; try by injection Hf as <-.
    destruct (parse_i64 num); [|done]. by injection Hf as <-.
  - intros r. simpl. by rewrite Hf.
  - destruct v; try done. injection Hf as <-. intros _. by eexists.
Qed.

Lemma translated_typed t v f d :
  typed_literal parse_date t v = Some f → translated (TypedString t v) d (EField f).
Proof.
  intros Hf. apply translated_field.
  - intros fuel sub. cbn [Translator.process_expr]. unfold Translator.process_typed_string, Translator.or_invalid.
    destruct t; simpl in Hf; try done; try (injection Hf as <-; reflexivity); cbn.
    1-2: destruct (parse_i64 v); [injection Hf as <-; reflexivity|done].
    unfold from_str_to_date. destruct (parse_date v); [injection Hf as <-; reflexivity|done].
  - intros r. simpl. by rewrite Hf.
  - done.
Qed.

Lemma process_expr_ok e d :
  d = Some O ∨ d = None → sql_ok parse_date scope e = true → Forall (λ n, n ∉ taken) (sql_names e) →
  ∃ le, translated e d le.
Proof.
  intros Hd. induction e as [n|parts|l IHl op r IHr|v| |t v|e IH| |]; intros Hok Hn; try done.
  - apply bool_decide_eq_true in Hok as [i Hi]. apply (translated_column n i); try done. by apply Forall_cons in Hn as [? _].
  - apply bool_decide_eq_true in Hok as [i Hi]. apply (translated_column (join_dot parts) i); try done. by apply Forall_cons in Hn as [? _].
  - cbn [sql_ok] in Hok. apply andb_true_iff in Hok as [[Hl Hr]%andb_true_iff [o Ho]%bool_decide_eq_true].
    cbn [sql_names] in Hn. apply Forall_app in Hn as [Nl Nr].
    destruct (IHl Hl Nl) as [l' [El [Sl Fl] Vl Ol Cl]], (IHr Hr Nr) as [r' [Er [Sr Fr] Vr Or Cr]].
    exists (Binary o l' r'). split; [|split| |done|].
    + intros fuel sub. cbn [Translator.process_expr]. unfold mbind, SE_bind. rewrite El. cbn [mbind outcome_bind]. rewrite Er.
      cbn [mbind outcome_bind]. by rewrite Ho.
    + simpl. by rewrite Sl, Sr.
    + simpl. set_solver.
    + intros x Hx. cbn [eval_expr sql_eval]. rewrite Vl, Vr, Ho by done. done.
    + intros B Hc. pose proof (binary_op_condition op o Ho) as Hcmp. cbn [sql_condition] in Hc.
      destruct op; try done; apply andb_true_iff in Hc as [H1 H2].
      1-6: (cbn [boolean_expr]; rewrite Ol, Or by done; destruct o; try discriminate Hcmp; try discriminate Ho; reflexivity).
      all: subst o; simpl; by rewrite Cl, Cr.
  - apply bool_decide_eq_true in Hok as [f Hf]. exists (EField f). by apply translated_value.
  - apply bool_decide_eq_true in Hok as [f Hf]. exists (EField f). by apply translated_typed.
  - destruct (IH Hok Hn) as [le [R O V P C]]. exists le. by split.
Qed.
End Expressions.

Lemma denotes_lt scope n i : denotes scope n i → (i < length scope)%nat.
Proof. intros [(names & Hi & _) _]. by eapply lookup_lt_Some. Qed.

(** Values are of the columns of the scope. *)
Lemma sql_eval_app parse_date scope r x e :
  (length scope ≤ length r)%nat → sql_eval parse_date scope (r ++ x) e = sql_eval parse_date scope r e.
Proof.
  intros Hl. assert (∀ n, (i ← unwrap (find_col scope n); unwrap ((r ++ x) !! i)) = (i ← unwrap (find_col scope n); unwrap (r !! i))) as Hn.
  { intros n. destruct (find_col scope n) as [i|] eqn:Hi; [|done]. cbn. apply find_col_denotes, denotes_lt in Hi. by rewrite lookup_app_l by lia. }
  induction e as [n|parts|l IHl op r' IHr|v| |t v|e IH| |]; try done; simpl; [apply Hn|apply Hn|by rewrite IHl, IHr].
Qed.

(** ** Renamings stay fresh *)

Section Fresh.
Context (rules : RuleSet).

Lemma select_plain_fresh p es : fresh_renames (Build.select_plain p es) = fresh_renames p.
Proof. by destruct es. Qed.
Lemma join_plain_fresh jt l r es : fresh_renames (Build.join_plain jt l r es) = fresh_renames l && fresh_renames r.
Proof. by destruct es. Qed.
Lemma map_plain_fresh p es : fresh_renames (Build.map_plain p es) = fresh_renames p.
Proof. by destruct es. Qed.

Lemma join_with_fresh sl sr jt l r es p' :
  (∀ ps l', sl ps = Ret l' → fresh_renames l' = fresh_renames l) →
  (∀ ps r', sr ps = Ret r' → fresh_renames r' = fresh_renames r) →
  Build.join_with sl sr jt l r es = Ret p' → fresh_renames p' = fresh_renames l && fresh_renames r.
Proof.
  intros Hl Hr. unfold Build.join_with. destruct es as [|e es]; [by intros [= <-]|]. cbv zeta.
  generalize (Build.split_all (e :: es)). intros ps. cbn [Build.keep_if]. destruct (_ && _).
  { intros (l' & El & (r' & Er & [= <-])%bind_Ret_inv)%bind_Ret_inv. rewrite join_plain_fresh. by rewrite (Hl _ _ El), (Hr _ _ Er). }
  destruct (_ && _).
  { intros (r' & Er & [= <-])%bind_Ret_inv. rewrite join_plain_fresh. by rewrite (Hr _ _ Er). }
  destruct (bool_decide _); [|by intros [= <-]]. intros (? & _ & [= <-])%bind_Ret_inv. apply join_plain_fresh.
Qed.

Lemma select_push_fresh p es p' : Build.select_push rules p es = Ret p' → fresh_renames p' = fresh_renames p.
Proof.
  revert es p'. induction p as [| | | |src IH preds|jt l IHl r IHr preds| | |src IH gb aggrs|input IH exprs| |]; intros es p';
    (destruct es as [|e0 es0]; [by intros [= <-]|]); cbn [Build.select_push]; cbv zeta;
    (destruct (Rules.is_enabled rules SelectionPushdown); [|by intros [= <-]]); try (intros [= <-]; apply select_plain_fresh).
  - apply IH.
  - by apply join_with_fresh.
  - cbn [Build.keep_if]. intros (src' & Es & [= <-])%bind_Ret_inv. rewrite select_plain_fresh. exact (IH _ _ Es).
  - cbn [Build.keep_if]. intros (input' & Ei & [= <-])%bind_Ret_inv. rewrite select_plain_fresh, map_plain_fresh. exact (IH _ _ Ei).
Qed.

Lemma select_fresh p es p' : Build.select rules true p es = Ret p' → fresh_renames p' = fresh_renames p.
Proof. apply select_push_fresh. Qed.

Lemma join_fresh jt l r es p' : Build.join rules true jt l r es = Ret p' → fresh_renames p' = fresh_renames l && fresh_renames r.
Proof. apply join_with_fresh; intros ps q; apply select_push_fresh. Qed.

Lemma map_push_fresh `{TupleCodec} (tbl : Z → option (list item)) fuel g p exprs g' p' :
  wf (LMap p exprs) = true → Build.map_push rules fuel g p exprs = Ret (g', p') → fresh_renames p' = fresh_renames p.
Proof.
  revert p exprs. induction fuel as [|fuel IH]; intros p exprs Hw; [done|].
  assert (Forall (λ x, expr_over (Log.att p) x.2) exprs) as Hex by by apply wf_map in Hw as (_ & _ & _ & ?).
  destruct exprs as [|x exprs]; [by intros [= _ <-]|]. set (xs := x :: exprs) in *.
  assert ((if Rules.is_enabled rules Hoist then Build.find_subquery 0 xs else None) = None) as Hno.
  { destruct (Rules.is_enabled _ _); [|done]. by eapply find_subquery_none. }
  cbn [Build.map_push]. fold xs. rewrite Hno. assert (∀ y z : outcome (Z * LogicalRelExpr), match xs with [] => y | _ :: _ => z end = z) as Hm by done.
  rewrite Hm. clearbody xs. destruct p as [| | | | | | | | |input existing| |]; try (intros [= _ <-]; apply map_plain_fresh).
  intros (? & _ & E)%bind_Ret_inv. destruct (merge_ok tbl input existing xs Hw) as (Hw' & _). by apply (IH input _ Hw' E).
Qed.
End Fresh.

(** ** Eventually *)

(** The code returns [x] and ends in [st'] with any fuel from some on. *)
Definition converges {A} (m : nat → TM A) (st st' : tstate) (x : A) : Prop :=
  ∃ k0, ∀ k, (k0 ≤ k)%nat → m k st = Ret (st', Ok x).

Lemma conv_const {A} (m : TM A) st st' x : m st = Ret (st', Ok x) → converges (λ _, m) st st' x.
Proof. intros E. by exists O. Qed.

Lemma conv_all {A} (m : nat → TM A) st st' x : (∀ k, m k st = Ret (st', Ok x)) → converges m st st' x.
Proof. intros E. by exists O. Qed.

Lemma conv_bind {A B} (m : nat → TM A) (f : nat → A → TM B) st st1 st2 x y :
  converges m st st1 x → converges (λ k, f k x) st1 st2 y → converges (λ k, m k ≫= f k) st st2 y.
Proof.
  intros [k1 H1] [k2 H2]. exists (k1 `max` k2)%nat. intros k Hk. unfold mbind, SE_bind.
  rewrite H1 by lia. cbn [mbind outcome_bind]. by apply H2; lia.
Qed.

Lemma conv_ret {A} (x : A) st : converges (λ _, mret x) st st x.
Proof. by apply conv_const. Qed.

Lemma conv_attempt {A} (m : nat → TM A) st st' x : converges m st st' x → converges (λ k, attempt (m k)) st st' (Ok x).
Proof. intros [k0 Hk]. exists k0. intros k Hle. unfold attempt. by rewrite Hk. Qed.

(** ** Plans and relations *)

Lemma bind_cols_union (ρ : row) cols vs :
  NoDup cols → length vs = length cols → bind_cols ρ cols vs = bind_cols ∅ cols vs ∪ ρ.
Proof.
  intros Hnd Hl. apply map_eq. intros id. destruct (decide (id ∈ cols)) as [[i Hi]%list_elem_of_lookup|Hni].
  - destruct (lookup_lt_is_Some_2 vs i) as [v Hv]; [rewrite Hl; by eapply lookup_lt_Some|].
    rewrite (bind_cols_in ρ cols vs i id v), (lookup_union_Some_l _ _ _ v); try done. by apply (bind_cols_in _ _ _ i).
  - rewrite bind_cols_notin, lookup_union_r by (done || by rewrite bind_cols_notin). done.
Qed.

Lemma both_bind a b x y :
  NoDup b → length x = length a → length y = length b →
  both (bind_cols ∅ a x) (bind_cols ∅ b y) = bind_cols ∅ (a ++ b) (x ++ y).
Proof. intros Hb Hx Hy. unfold both. rewrite bind_cols_app by done. symmetry. by apply bind_cols_union. Qed.

Definition rows_of (ids : list Z) (rows : list (list Field)) : Prop := Forall (λ r, length r = length ids) rows.

Lemma product_bind a b L R :
  NoDup b → rows_of a L → rows_of b R →
  sem_product (bind_cols ∅ a <$> L) (bind_cols ∅ b <$> R) = bind_cols ∅ (a ++ b) <$> sql_product L R.
Proof.
  intros Hb HL HR. unfold sem_product, sql_product. induction HL as [|x L Hx _ IH]; [done|].
  rewrite fmap_cons, !bind_cons, fmap_app, <-IH. f_equal.
  rewrite <-!list_fmap_compose. clear IH. induction HR as [|y R Hy _ IH]; [done|]. rewrite !fmap_cons, IH. f_equal. simpl. by apply both_bind.
Qed.

Lemma sql_product_rows a b L R : rows_of a L → rows_of b R → rows_of (a ++ b) (sql_product L R).
Proof.
  intros HL HR. apply Forall_forall. intros r (x & (y & -> & Hy)%list_elem_of_fmap & Hx)%list_elem_of_bind.
  unfold rows_of in *. rewrite Forall_forall in HL, HR. by rewrite !length_app, HL, HR.
Qed.

Section Relations.
Context `{TupleCodec} (tbl : Z → option (list item)) (rules : RuleSet).

(** The plan has the columns [ids], and means the rows. *)
Record rel_ok (p : LogicalRelExpr) (ids : list Z) (rows : list (list Field)) : Prop := {
  rl_wf : wf p = true;
  rl_fresh : fresh_renames p = true;
  rl_nodup : NoDup ids;
  rl_att : Log.att p = list_to_set ids;
  rl_rows : rows_of ids rows;
  rl_sem : lsem tbl p = Some (bind_cols ∅ ids <$> rows)
}.

(** Conditions over the columns [ids]. *)
Definition conditions_over (ids : list Z) (es : list LExpr) : Prop :=
  Forall (λ e, (∀ B, boolean_expr B e = true) ∧ Expr.free e ⊆ list_to_set ids) es.

Lemma conditions_in ids es A B : conditions_over ids es → A = list_to_set ids → forallb (pred_in A B) es = true.
Proof.
  intros HF ->. apply forallb_forall. intros e Hin%list_elem_of_In. unfold conditions_over in HF. rewrite Forall_forall in HF.
  destruct (HF e Hin) as [Hb Hf]. unfold pred_in. by rewrite Hb, bool_decide_eq_true_2.
Qed.

(** The rows on which the conditions hold. *)
Definition rows_where (ids : list Z) (es : list LExpr) (rows : list (list Field)) : list (list Field) :=
  List.filter (λ r, all_true_in es (bind_cols ∅ ids r)) rows.

Lemma filter_bind ids es rows :
  List.filter (all_true_in es) (bind_cols ∅ ids <$> rows) = bind_cols ∅ ids <$> rows_where ids es rows.
Proof. apply filter_map_comm. by apply Forall_true. Qed.

Lemma rel_select p ids rows es :
  rel_ok p ids rows → conditions_over ids es →
  ∃ p', Build.select rules true p es = Ret p' ∧ rel_ok p' ids (rows_where ids es rows).
Proof.
  intros [W F N A R S] Hes. destruct (select_ok tbl rules true p es W) as (p' & E & [W' A' B' S']); [by apply (conditions_in ids)|].
  exists p'. split; [done|]. split; [done|by rewrite (select_fresh rules p es p' E)|done|congruence|by apply Forall_filter|].
  rewrite (S' _ S). by rewrite filter_bind.
Qed.

Lemma rel_join jt p q ids ids' L R es :
  joinable jt = true → rel_ok p ids L → rel_ok q ids' R → NoDup (ids ++ ids') → conditions_over (ids ++ ids') es →
  ∃ p', Build.join rules true jt p q es = Ret p' ∧ rel_ok p' (ids ++ ids') (rows_where (ids ++ ids') es (sql_product L R)).
Proof.
  intros Hj [W1 F1 N1 A1 R1 S1] [W2 F2 N2 A2 R2 S2] Hnd Hes. pose proof Hnd as (_ & Hdis & _)%NoDup_app.
  assert (Log.att p ∪ Log.att q = list_to_set (ids ++ ids')) as Ha by by rewrite A1, A2, list_to_set_app_L.
  destruct (join_ok tbl rules true jt p q es Hj W1 W2) as (p' & E & [W A B S]).
  { rewrite A1, A2. intros id ?%elem_of_list_to_set ?%elem_of_list_to_set. by apply (Hdis id). }
  { by apply (conditions_in (ids ++ ids')). }
  exists p'. split; [done|]. split; [done|by rewrite (join_fresh rules jt p q es p' E), F1, F2|done|congruence| |].
  - by apply Forall_filter, sql_product_rows.
  - rewrite (S _ _ S1 S2), product_bind by done. by rewrite filter_bind.
Qed.

(** A computed column. *)
Lemma rel_map g p ids rows id le vals :
  rel_ok p ids rows → id ∉ ids → expr_over (list_to_set ids) le →
  Forall2 (λ r v, eval_row (bind_cols ∅ ids r) le = Some v) rows vals →
  ∃ p', (∀ k, (height p ≤ k)%nat → Build.map rules k true g p [(id, le)] = Ret (g, p')) ∧
    rel_ok p' (ids ++ [id]) (zip_with (λ r v, r ++ [v]) rows vals).
Proof.
  intros [W F N A R S] Hid Hle HF. assert (wf (LMap p [(id, le)]) = true) as Hw.
  { apply wf_map. split_and!; [done|by apply NoDup_singleton| |].
    - rewrite A. intros x ?%elem_of_list_to_set Hx%elem_of_list_to_set. apply list_elem_of_singleton in Hx as ->. done.
    - constructor; [by rewrite A|constructor]. }
  destruct (map_ok tbl rules (height p) true g p _ (le_n _) Hw) as (p' & E & [W' A' S']). exists p'. split.
  { intros k Hk. by apply (more_fuel rules (height p) k Hk). }
  assert (NoDup (ids ++ [id])) as Hnd. { apply NoDup_app. split_and!; [done| |by apply NoDup_singleton]. intros x Hx ->%list_elem_of_singleton. done. }
  split; [done|by rewrite (map_push_fresh rules tbl _ _ _ _ _ _ Hw E)|done| | |].
  - rewrite A', A. simpl. by rewrite list_to_set_app_L.
  - unfold rows_of in *. clear S S'. induction HF as [|r v rows vals _ _ IH]; [constructor|]. apply Forall_cons in R as [Hr R].
    constructor; [by rewrite !length_app, Hr|by apply IH].
  - apply S'. cbn [lsem]. rewrite S. cbn [mbind option_bind]. apply mapM_Some_2. clear S S' E.
    induction HF as [|r v rows vals Hv _ IH]; [constructor|]. apply Forall_cons in R as [Hr R].
    constructor; [|by apply IH]. simpl. rewrite Hv. simpl. by rewrite bind_cols_app.
Qed.
End Relations.

(** ** Tables *)

(** The tables of the catalog have at most [MAX_COLUMNS] columns, and there are few enough of
    them (a hundred) for their temporary column ids to be below the generated ones. *)
Record catalog_ok (catalog : Catalog) : Prop := {
  co_below name cid : Cat.get_table_id_if_exists catalog name = Some cid → 0 ≤ cid ∧ (cid + 1) * MAX_COLUMNS ≤ STARTING_COL_ID;
  co_columns cid schema : Cat.get_table_schema catalog cid = Some schema → Schema.size schema ≤ MAX_COLUMNS
}.

Lemma fresh_columns_ok g l :
  NoDup l → 0 ≤ g → g + zlen l < 2 ^ 64 →
  ∃ m, Build.fresh_columns g l = (g + zlen l, m) ∧ dom m = list_to_set l ∧
    ∀ k x, l !! k = Some x → m !! x = Some (g + Z.of_nat k).
Proof.
  revert g. induction l as [|a l IH]; intros g Hnd Hg Hb; [exists ∅; split; [by rewrite Z.add_0_r|split; [set_solver|done]]|].
  apply NoDup_cons in Hnd as [Ha Hnd]. pose proof (zlen_nonneg l). assert (zlen (a :: l) = zlen l + 1) as Hl by len.
  destruct (IH (g + 1) Hnd) as (m & E & Hd & Hm); [lia|lia|]. exists (<[a := g]> m). cbn [Build.fresh_columns ColIdGenerator.next].
  unfold cast. rewrite Z.mod_small by lia. rewrite E. split; [f_equal; lia|]. split; [rewrite dom_insert_L, Hd; set_solver|].
  intros [|k] x Hk; simpl in Hk.
  - injection Hk as ->. by rewrite lookup_insert_eq, Z.add_0_r.
  - rewrite lookup_insert_ne; [|intros ->; by apply Ha, list_elem_of_lookup; exists k]. rewrite (Hm k x Hk). f_equal. lia.
Qed.

Definition temp_id (cid : Z) (k : nat) : Z := cid * MAX_COLUMNS + Z.of_nat k.
(** The columns of a table, with their temporary ids. *)
Definition temp_cols (cid : Z) (atts : list Attribute) : list (list byte * Z) :=
  imap (λ k a, (att_name a, temp_id cid k)) atts.

Lemma cols_from_ok cid i atts :
  0 ≤ cid < 2 ^ 16 → Z.of_nat i + zlen atts ≤ MAX_COLUMNS →
  Cat.cols_from cid (Z.of_nat i) atts = Ret (imap (λ k a, (att_name a, temp_id cid (i + k))) atts).
Proof.
  intros Hc. revert i. induction atts as [|a atts IH]; intros i Hi; [done|].
  assert (zlen (a :: atts) = zlen atts + 1) as Hl by len. pose proof (zlen_nonneg atts). cbn [Cat.cols_from].
  rewrite temp_col_id_eq by (unfold MAX_COLUMNS in *; lia). cbn [mbind outcome_bind].
  replace (Z.of_nat i + 1) with (Z.of_nat (S i)) by lia. rewrite IH by lia. cbn [mbind outcome_bind imap]. do 2 f_equal.
  - unfold temp_id, MAX_COLUMNS. f_equal. rewrite Nat.add_0_r. done.
  - apply imap_ext. intros k b _. simpl. do 2 f_equal. lia.
Qed.

Definition is_base (o : option OriginExpression) : Prop := ∃ cid i, o = Some (BaseCidAndIndex cid i).

(** The column [id] under some names. *)
Definition set_names (id : Z) (names : list (list byte)) (cs : gmap (list byte) Z) : gmap (list byte) Z :=
  foldl (λ cs n, <[n := id]> cs) cs names.

Lemma set_names_lookup id names cs n :
  set_names id names cs !! n = if bool_decide (n ∈ names) then Some id else cs !! n.
Proof.
  revert cs. induction names as [|x names IH]; intros cs; [done|]. unfold set_names in *. simpl. rewrite IH.
  destruct (decide (n ∈ names)) as [Hin|Hni]; [by rewrite !bool_decide_true by set_solver|].
  rewrite bool_decide_false by done. destruct (decide (n = x)) as [->|Hne].
  - by rewrite lookup_insert_eq, bool_decide_true by set_solver.
  - rewrite lookup_insert_ne, bool_decide_false by set_solver. done.
Qed.

Section Table.
Context `{Unicode} (cid : Z) (table_name : list byte) (alias : option TableAlias) (atts : list Attribute).
Context (m : gmap Z Z) (outer : list Scope) (g : Z).
Let scope := column_names_of table_name alias <$> atts.
Let cols := temp_cols cid atts.
Let ids := (λ k, renamed m (temp_id cid k)) <$> seq 0 (length atts).
Context (Hm : dom m = list_to_set cols.*2) (Halias : alias_ok alias = true).

Lemma temp_cols_lookup k : cols.*2 !! k = (λ _, temp_id cid k) <$> atts !! k.
Proof. unfold cols, temp_cols. rewrite list_lookup_fmap, list_lookup_imap. by destruct (atts !! k). Qed.

Lemma temp_cols_elem x : x ∈ cols.*2 ↔ ∃ k a, atts !! k = Some a ∧ x = temp_id cid k.
Proof.
  rewrite list_elem_of_lookup. setoid_rewrite temp_cols_lookup. setoid_rewrite fmap_Some. naive_solver.
Qed.

Lemma temp_cols_NoDup : NoDup cols.*2.
Proof.
  apply NoDup_alt. intros i j x. rewrite !temp_cols_lookup. intros (? & _ & ->)%fmap_Some (? & _ & E)%fmap_Some.
  unfold temp_id, MAX_COLUMNS in E. lia.
Qed.

Lemma temp_cols_find k a : atts !! k = Some a → List.find (λ c : list byte * Z, c.2 =? temp_id cid k) cols = Some (att_name a, temp_id cid k).
Proof.
  intros Ha. assert ((att_name a, temp_id cid k) ∈ cols) as Hin.
  { apply list_elem_of_lookup. exists k. unfold cols, temp_cols. by rewrite list_lookup_imap, Ha. }
  pose proof temp_cols_NoDup as Hnd. clear Hm ids. induction cols as [|c l IH]; [by apply elem_of_nil in Hin|].
  rewrite fmap_cons in Hnd. apply NoDup_cons in Hnd as [Hc Hnd]. simpl. destruct (Z.eqb_spec c.2 (temp_id cid k)) as [E|Hne].
  - apply elem_of_cons in Hin as [<-|Hin]; [done|]. exfalso. apply Hc. rewrite E. apply list_elem_of_fmap. by exists (att_name a, temp_id cid k).
  - apply elem_of_cons in Hin as [<-|Hin]; [done|]. by apply IH.
Qed.

Lemma new_id k a : atts !! k = Some a → m !! temp_id cid k = Some (renamed m (temp_id cid k)) ∧ ids !! k = Some (renamed m (temp_id cid k)).
Proof.
  intros Ha. split.
  - assert (temp_id cid k ∈ dom m) as [x Hx]%elem_of_dom by (rewrite Hm; apply elem_of_list_to_set, temp_cols_elem; eauto).
    unfold renamed. by rewrite Hx.
  - unfold ids. rewrite list_lookup_fmap, lookup_seq_lt by by eapply lookup_lt_Some. done.
Qed.

(** One column: its names, and where it comes from. *)
Lemma name_column_ok sc k a :
  atts !! k = Some a →
  ∃ sc', Translator.name_column cid table_name alias cols m (temp_id cid k) (mkTstate (sc :: outer) g) =
      Ret (mkTstate (sc' :: outer) g, Ok ()) ∧
    (∀ n, columns sc' !! n = if bool_decide (n ∈ column_names_of table_name alias a) then Some (renamed m (temp_id cid k)) else columns sc !! n) ∧
    ∃ i, id_to_origin sc' = <[renamed m (temp_id cid k) := BaseCidAndIndex cid i]> (id_to_origin sc).
Proof.
  intros Ha. destruct (new_id k a Ha) as [Hk _]. unfold Translator.name_column. rewrite Hk, (temp_cols_find k a Ha).
  set (id := renamed m (temp_id cid k)).
  exists (mkScope (set_names id (column_names_of table_name alias a) (columns sc))
                  (<[id := BaseCidAndIndex cid (get_column_index_from_temp_col_id (temp_id cid k))]> (id_to_origin sc))).
  split; [|split; [intros n; apply set_names_lookup|by eexists]].
  unfold column_names_of, Translator.check_alias. destruct alias as [al|]; [cbn in Halias; rewrite Halias|]; reflexivity.
Qed.
(** What the loop over the columns [l] leaves: names of no column of the table as they were,
    names of one column for that column, and where the columns come from. *)
Record named (l : list Z) (sc sc' : Scope) : Prop := {
  nm_other n : (∀ k names, scope !! k = Some names → n ∉ names) → columns sc' !! n = columns sc !! n;
  nm_column n k id : denotes scope n k → ids !! k = Some id → temp_id cid k ∈ l ∨ columns sc !! n = Some id → columns sc' !! n = Some id;
  nm_origin id : is_base (id_to_origin sc !! id) → is_base (id_to_origin sc' !! id);
  nm_new k id : ids !! k = Some id → temp_id cid k ∈ l → is_base (id_to_origin sc' !! id)
}.

Lemma temp_id_inj k k' : temp_id cid k = temp_id cid k' → k = k'.
Proof. unfold temp_id. lia. Qed.

Lemma name_columns_ok l sc :
  l ⊆ cols.*2 →
  ∃ sc', loop (λ _ i, Translator.name_column cid table_name alias cols m i) () l (mkTstate (sc :: outer) g) =
      Ret (mkTstate (sc' :: outer) g, Ok ()) ∧ named l sc sc'.
Proof.
  revert sc. induction l as [|x l IH]; intros sc Hl.
  { exists sc. split; [done|]. split; [done| |done|].
    - intros n k id _ _ [Hin|?]; [by apply elem_of_nil in Hin|done].
    - intros k id _ Hin. by apply elem_of_nil in Hin. }
  assert (x ∈ cols.*2) as (k & a & Ha & ->)%temp_cols_elem by (apply Hl; left).
  destruct (name_column_ok sc k a Ha) as (sc1 & E1 & Hc1 & i & Ho1). destruct (IH sc1) as (sc2 & E2 & [O2 C2 B2 N2]); [set_solver|].
  exists sc2. split; [cbn [loop]; unfold mbind, SE_bind; rewrite E1; cbn [mbind outcome_bind]; exact E2|].
  assert (scope !! k = Some (column_names_of table_name alias a)) as Hk by (unfold scope; by rewrite list_lookup_fmap, Ha).
  destruct (new_id k a Ha) as [_ Hidk].
  assert (∀ id, is_base (id_to_origin sc !! id) ∨ id = renamed m (temp_id cid k) → is_base (id_to_origin sc1 !! id)) as Hb1.
  { intros id Hid. rewrite Ho1, lookup_insert. case_decide; [by eexists _, _|]. naive_solver. }
  split.
  - intros n Hn. rewrite (O2 n Hn), Hc1. by rewrite bool_decide_false by by apply (Hn k).
  - intros n k' id Hden Hid Hor. apply (C2 n k' id Hden Hid). rewrite Hc1. case_bool_decide as Hin.
    + right. assert (k = k') as <- by by apply (proj2 Hden k (column_names_of table_name alias a)). congruence.
    + destruct Hor as [[E|?]%elem_of_cons|?]; [|by left|by right]. apply temp_id_inj in E as ->.
      destruct Hden as [(names & Hs & Hin') _]. rewrite Hk in Hs. injection Hs as <-. done.
  - intros id Hid. apply B2, Hb1. by left.
  - intros k' id Hid [E|?]%elem_of_cons; [|by eapply N2]. apply temp_id_inj in E as ->. apply B2, Hb1. right. congruence.
Qed.
End Table.

Lemma bind_cols_Some cols (vs : list Field) id v :
  NoDup cols → length vs = length cols →
  bind_cols ∅ cols vs !! id = Some v ↔ ∃ i, cols !! i = Some id ∧ vs !! i = Some v.
Proof.
  intros Hnd Hl. split.
  - intros Hb. assert (id ∈ cols) as [i Hi]%list_elem_of_lookup.
    { destruct (decide (id ∈ cols)); [done|]. by rewrite bind_cols_notin, lookup_empty in Hb. }
    exists i. split; [done|]. destruct (lookup_lt_is_Some_2 vs i) as [w Hw]; [rewrite Hl; by eapply lookup_lt_Some|].
    rewrite (bind_cols_in _ _ _ i id w) in Hb by done. congruence.
  - intros (i & Hi & Hv). by apply (bind_cols_in _ _ _ i).
Qed.

Lemma rename_bind m cols (vs : list Field) :
  NoDup cols → inj_on (renamed m) (list_to_set cols) → length vs = length cols →
  rename_keys m (bind_cols ∅ cols vs) = bind_cols ∅ (renamed m <$> cols) vs.
Proof.
  intros Hnd Hinj Hl. assert (NoDup (renamed m <$> cols)) as Hnd'.
  { apply NoDup_fmap_2_strong; [|done]. intros a b Ha Hb. apply Hinj; by apply elem_of_list_to_set. }
  apply map_eq. intros id. apply option_eq. intros v. rewrite rename_keys_Some.
  - setoid_rewrite (bind_cols_Some cols vs _ v Hnd Hl). rewrite bind_cols_Some by (done || by rewrite length_fmap).
    setoid_rewrite list_lookup_fmap. setoid_rewrite fmap_Some. naive_solver.
  - rewrite bind_cols_dom by done. by rewrite dom_empty_L, union_empty_l_L.
Qed.

Section Scan.
Context `{TupleCodec} (tbl : Z → option (list item)) (cid : Z) (table_name : list byte) (atts : list Attribute) (m : gmap Z Z).
Let cols := temp_cols cid atts.
Let ids := (λ k, renamed m (temp_id cid k)) <$> seq 0 (length atts).
Context (Hatts : zlen atts ≤ MAX_COLUMNS).

Lemma ids_temp : ids = renamed m <$> cols.*2.
Proof.
  apply list_eq. intros k. rewrite (list_lookup_fmap (renamed m)). unfold cols. rewrite temp_cols_lookup. unfold ids. rewrite list_lookup_fmap.
  destruct (atts !! k) as [a|] eqn:Ha.
  - rewrite lookup_seq_lt by by eapply lookup_lt_Some. done.
  - rewrite lookup_seq_ge by by apply lookup_ge_None. done.
Qed.

Lemma scan_row_ok x fs : stored_row (length atts) x = Some fs → scan_row cols.*2 x = Some (bind_cols ∅ cols.*2 fs) ∧ length fs = length cols.*2.
Proof.
  unfold stored_row, scan_row. destruct (to_option _) as [t|]; [|done]. simpl. case_bool_decide as Hl; [|done]. intros [= <-].
  assert (length cols.*2 = length atts) as Hc by (unfold cols, temp_cols; by rewrite length_fmap, length_imap).
  split; [|by rewrite Hc]. assert (mapM (λ id, Tup.get_field t (get_column_index_from_temp_col_id id)) cols.*2 = Some (field_vals t)) as ->; [|done].
  apply mapM_Some_2, Forall2_same_length_lookup_2; [by rewrite Hc, Hl|]. intros k id v Hk Hv.
  unfold cols in Hk. rewrite temp_cols_lookup in Hk. apply fmap_Some in Hk as (a & Ha & ->).
  apply lookup_lt_Some in Ha. unfold get_column_index_from_temp_col_id, temp_id, zlen, MAX_COLUMNS in *.
  rewrite Z.add_comm, Z_mod_plus_full, Z.mod_small by lia. unfold Tup.get_field. by rewrite nth_u_nat.
Qed.

Lemma table_rel items rows :
  tbl cid = Some items → mapM (stored_row (length atts)) items = Some rows →
  dom m = list_to_set cols.*2 → inj_on (renamed m) (dom m) → (∀ a b, m !! a = Some b → b ∉ cols.*2) →
  rel_ok tbl (LRename (LScan cid table_name cols.*2) m) ids rows.
Proof.
  intros Hitems Hrows Hdom Hinj Hnew. assert (NoDup cols.*2) as Hnd by apply temp_cols_NoDup.
  destruct (lrename_ok tbl (LScan cid table_name cols.*2) m) as [W A _ S]; [done|done|simpl; by rewrite <-Hdom| |].
  { intros a b Hab. simpl. rewrite union_empty_r_L, elem_of_list_to_set. by apply (Hnew a). }
  assert (Forall2 (λ x fs, scan_row cols.*2 x = Some (bind_cols ∅ cols.*2 fs) ∧ length fs = length cols.*2) items rows) as HF.
  { apply mapM_Some in Hrows. eapply Forall2_impl; [exact Hrows|]. intros x fs. apply scan_row_ok. }
  rewrite ids_temp. split; [done| | | | |].
  - simpl. apply forallb_forall. intros [a b] Hin%list_elem_of_In%elem_of_map_to_list. simpl. apply bool_decide_eq_true.
    rewrite union_empty_r_L, elem_of_list_to_set. by apply (Hnew a).
  - apply NoDup_fmap_2_strong; [|done]. intros a b Ha Hb. apply Hinj; rewrite Hdom; by apply elem_of_list_to_set.
  - rewrite A. apply set_eq. intros x. simpl. rewrite elem_of_renamed, elem_of_list_to_set, list_elem_of_fmap.
    setoid_rewrite elem_of_list_to_set. naive_solver.
  - unfold rows_of. rewrite length_fmap. clear -HF. induction HF as [|x fs items rows [_ ?] _ IH]; by constructor.
  - rewrite (S (bind_cols ∅ cols.*2 <$> rows)).
    + f_equal. change (map (rename_keys m) (bind_cols ∅ cols.*2 <$> rows)) with (rename_keys m <$> (bind_cols ∅ cols.*2 <$> rows)).
      rewrite <-list_fmap_compose. clear S Hrows Hitems. induction HF as [|x fs items rows [_ Hl] _ IH]; [done|]. rewrite !fmap_cons, IH. f_equal.
      simpl. apply rename_bind; [done|by rewrite <-Hdom|done].
    + cbn [lsem]. rewrite Hitems. cbn [mbind option_bind]. apply mapM_Some_2. clear S Hrows Hitems.
      induction HF as [|x fs items rows [E _] _ IH]; by constructor.
Qed.
End Scan.

(** ** FROM *)

(** The scope with the columns of a table added. *)
Record extends (scope : sql_scope) (ids : list Z) (sc sc' : Scope) : Prop := {
  ex_other n : (∀ k names, scope !! k = Some names → n ∉ names) → columns sc' !! n = columns sc !! n;
  ex_column n k id : denotes scope n k → ids !! k = Some id → columns sc' !! n = Some id;
  ex_origin id : is_base (id_to_origin sc !! id) → is_base (id_to_origin sc' !! id);
  ex_new id : id ∈ ids → is_base (id_to_origin sc' !! id)
}.

Lemma denotes_app s s' n i :
  denotes (s ++ s') n i →
  (denotes s n i ∧ ∀ k names, s' !! k = Some names → n ∉ names) ∨
  (length s ≤ i)%nat ∧ denotes s' n (i - length s).
Proof.
  intros [(names & Hi & Hin) Hu]. destruct (decide (i < length s)%nat) as [Hlt|Hge].
  - left. rewrite lookup_app_l in Hi by done. split; [split; [by exists names|]|].
    + intros j names' Hj. apply Hu. by apply lookup_app_l_Some.
    + intros k names' Hk Hn. assert (length s + k = i)%nat; [|lia]. apply (Hu _ names'); [|done].
      rewrite lookup_app_r by lia. by replace (length s + k - length s)%nat with k by lia.
  - right. split; [lia|]. rewrite lookup_app_r in Hi by lia. split; [by exists names|].
    intros j names' Hj Hn. assert (length s + j = i)%nat; [|lia]. apply (Hu _ names'); [|done].
    rewrite lookup_app_r by lia. by replace (length s + j - length s)%nat with j by lia.
Qed.

Lemma extends_env s i s' i' sc sc' :
  env_ok [] s i sc → length s = length i → length s' = length i' → extends s' i' sc sc' → env_ok [] (s ++ s') (i ++ i') sc'.
Proof.
  intros Henv Hl Hl' [O C _ _] n k Hn [[Hd Hno]|[Hge Hd]]%denotes_app.
  - destruct (Henv n k Hn Hd) as (id & Hid & Hc). exists id. split; [by apply lookup_app_l_Some|]. by rewrite O.
  - pose proof (denotes_lt _ _ _ Hd) as Hlt. rewrite Hl' in Hlt. apply lookup_lt_is_Some_2 in Hlt as [id Hid]. exists id.
    split; [rewrite lookup_app_r by lia; by rewrite <-Hl|]. by apply (C n (k - length s)%nat).
Qed.

Lemma extends_trans_origin s i s' i' sc sc1 sc2 id :
  extends s i sc sc1 → extends s' i' sc1 sc2 → id ∈ i ++ i' → is_base (id_to_origin sc2 !! id).
Proof. intros [_ _ _ N1] [_ _ O2 N2] [?|?]%elem_of_app; auto. Qed.

Lemma foldl_fail {A B} (f : A → B → option A) l : foldl (λ acc b, acc ← acc; f acc b) None l = None.
Proof. by induction l. Qed.

Section Froms.
Context `{Unicode} `{TupleCodec} (parse_date : list byte → option Z) (catalog : Catalog) (tbl : Z → option (list item)) (rules : RuleSet).

(** The table at the bottom of the plan of a part of a FROM clause, when that is one table. *)
Definition factor_table (t : TableFactor) : option Z :=
  match t with TableRef name _ => Cat.get_table_id_if_exists catalog (get_table_name name) | _ => None end.
Definition group_table (t : TableWithJoins) : option Z :=
  match t with mkTableWithJoins relation [] => factor_table relation | _ => None end.
Definition single_table (from : list TableWithJoins) : option Z :=
  match from with [t] => group_table t | _ => None end.

Lemma join_scans_nothing jt l r es p : Build.join rules true jt l r es = Ret p → find_scan_cid p = None.
Proof.
  assert (∀ jt l r es, find_scan_cid (Build.join_plain jt l r es) = None) as Hp by by intros ? ? ? [].
  unfold Build.join, Build.join_with. destruct es as [|e es]; [by intros [= <-]|]. cbn zeta. cbn [Build.keep_if].
  destruct (_ && _).
  - intros E. apply bind_Ret_inv in E as (l' & _ & E). apply bind_Ret_inv in E as (r' & _ & [= <-]). apply Hp.
  - destruct (_ && _); [intros E; apply bind_Ret_inv in E as (r' & _ & [= <-]); apply Hp|].
    case_bool_decide; [intros E; apply bind_Ret_inv in E as ([] & _ & [= <-]); apply Hp|by intros [= <-]].
Qed.

Lemma factor_ok t x sc outer g :
  sql_factor catalog tbl t = Some x → catalog_ok catalog → STARTING_COL_ID ≤ g → g + zlen x.1 < 2 ^ 64 →
  ∃ p ids sc', (∀ sub, Translator.process_table_factor catalog sub t (mkTstate (sc :: outer) g) =
      Ret (mkTstate (sc' :: outer) (g + zlen x.1), Ok (p, false))) ∧
    rel_ok tbl p ids x.2 ∧ length x.1 = length ids ∧ Forall (λ id, g ≤ id < g + zlen x.1) ids ∧ extends x.1 ids sc sc' ∧
    find_scan_cid p = factor_table t.
Proof.
  intros Hx [Hbelow Hcols] Hg Hbound. destruct t as [name alias| |]; try done. simpl in Hx.
  destruct (alias_ok alias) eqn:Halias; [|done]. unfold sql_table in Hx. set (table_name := get_table_name name) in *.
  destruct (Cat.get_table_id_if_exists catalog table_name) as [cid|] eqn:Hcid; [|done]. simpl in Hx.
  destruct (Cat.get_table_schema catalog cid) as [schema|] eqn:Hschema; [|done]. simpl in Hx.
  destruct (tbl cid) as [items|] eqn:Hitems; [|done]. simpl in Hx. set (atts := attributes schema) in *.
  destruct (mapM _ items) as [rows|] eqn:Hrows; [|done]. injection Hx as <-. cbn [fst snd] in *.
  destruct (Hbelow _ _ Hcid) as [Hc0 Hcg]. assert (0 ≤ cid < 2 ^ 16) as Hc16 by (unfold STARTING_COL_ID, MAX_COLUMNS in *; lia). pose proof (Hcols _ _ Hschema) as Hn. unfold Schema.size in Hn. fold atts in Hn.
  set (cols := temp_cols cid atts).
  assert (Cat.get_cols catalog table_name = Ret cols) as Eg.
  { unfold Cat.get_cols. rewrite Hcid. cbn [unwrap mbind outcome_bind]. rewrite Hschema. cbn [unwrap mbind outcome_bind].
    exact (cols_from_ok cid 0 atts Hc16 Hn). }
  assert (zlen (column_names_of table_name alias <$> atts) = zlen atts) as Hzl by (unfold zlen; by rewrite length_fmap).
  set (l := elements (Log.att (Build.scan cid table_name cols.*2))).
  assert (l ≡ₚ cols.*2) as Hl by (apply elements_list_to_set, temp_cols_NoDup).
  assert (zlen l = zlen atts) as Hll by (unfold zlen; rewrite Hl; unfold cols, temp_cols; by rewrite length_fmap, length_imap).
  destruct (fresh_columns_ok g l) as (m & Em & Hdm & Hm); [apply NoDup_elements|unfold STARTING_COL_ID in *; lia|lia|].
  assert (dom m = list_to_set cols.*2) as Hdom by (rewrite Hdm; apply set_eq; intros id; by rewrite !elem_of_list_to_set, Hl).
  assert (∀ a b, m !! a = Some b → g ≤ b < g + zlen atts) as Hnew.
  { intros a b Hab. assert (a ∈ dom m) as Ha by (apply elem_of_dom; by eexists). rewrite Hdm in Ha.
    apply elem_of_list_to_set, list_elem_of_lookup in Ha as [k Hk]. pose proof (lookup_lt_Some _ _ _ Hk). rewrite (Hm k a Hk) in Hab.
    injection Hab as <-. rewrite <-Hll. unfold zlen. lia. }
  destruct (name_columns_ok cid table_name alias atts m outer (g + zlen atts) Hdom Halias l sc) as (sc' & Enames & [O C B N]).
  { intros id. by rewrite Hl. }
  exists (LRename (LScan cid table_name cols.*2) m), ((λ k, renamed m (temp_id cid k)) <$> seq 0 (length atts)), sc'. rewrite Hzl.
  split_and!.
  - intros sub. cbn [Translator.process_table_factor]. fold table_name. rewrite Hcid, Eg. unfold lift, with_ids, mbind, SE_bind.
    cbn [mbind outcome_bind]. unfold Build.rename. cbn [col_id_gen env]. fold l. rewrite Em, Hll. cbn [mbind outcome_bind Build.rename_to Build.scan].
    fold cols in Enames. unfold mbind, outcome_bind. cbn [env]. unfold mbind, outcome_bind in Enames. rewrite Enames. done.
  - apply (table_rel tbl cid table_name atts m Hn items rows Hitems Hrows Hdom).
    + intros a b. rewrite Hdm, !elem_of_list_to_set. intros [i Hi]%list_elem_of_lookup [j Hj]%list_elem_of_lookup.
      unfold renamed. rewrite (Hm i a Hi), (Hm j b Hj). simpl. intros E. assert (i = j) as -> by lia. congruence.
    + intros a b Hab (k & x & Hk & ->)%temp_cols_elem. specialize (Hnew _ _ Hab). apply lookup_lt_Some in Hk.
      unfold temp_id, zlen, MAX_COLUMNS in *. lia.
  - by rewrite !length_fmap, length_seq.
  - apply Forall_fmap, Forall_forall. intros k Hk%elem_of_seq. simpl. destruct (lookup_lt_is_Some_2 atts k) as [a Ha]; [lia|].
    destruct (new_id cid atts m Hdom k a Ha) as [Hid _]. by apply Hnew in Hid.
  - split; [done| |done|].
    + intros n k id Hd Hid. apply (C n k id Hd Hid). left. rewrite Hl. apply denotes_lt in Hd. rewrite length_fmap in Hd.
      apply lookup_lt_is_Some_2 in Hd as [a Ha]. apply temp_cols_elem. eauto.
    + intros id [k Hk]%list_elem_of_lookup. apply (N k id Hk). rewrite Hl. pose proof (lookup_lt_Some _ _ _ Hk) as Hlt.
      rewrite length_fmap, length_seq in Hlt. apply lookup_lt_is_Some_2 in Hlt as [a Ha]. apply temp_cols_elem. eauto.
  - cbn [factor_table]. by fold table_name.
Qed.

(** The relation [x] of a part of a FROM clause, translated: the plan, its columns, and the
    scope and counter before and after. *)
Record from_ok (x : sql_rel) (sc0 : Scope) (g0 : Z) (p : LogicalRelExpr) (ids : list Z) (sc : Scope) (g : Z) : Prop := {
  fr_rel : rel_ok tbl p ids x.2;
  fr_len : length x.1 = length ids;
  fr_ids : Forall (λ id, g0 ≤ id < g) ids;
  fr_ext : extends x.1 ids sc0 sc;
  fr_gen : g = g0 + zlen x.1
}.

Lemma from_env x sc0 g0 p ids sc g : from_ok x sc0 g0 p ids sc g → env_ok [] x.1 ids sc.
Proof.
  intros [_ Hl _ He _]. apply (extends_env [] [] x.1 ids sc0 sc); try done. intros n i _ [(names & Hi & _) _]. by rewrite lookup_nil in Hi.
Qed.

Lemma extends_trans s i s' i' sc sc1 sc2 :
  length s = length i → extends s i sc sc1 → extends s' i' sc1 sc2 → extends (s ++ s') (i ++ i') sc sc2.
Proof.
  intros Hl [O1 C1 B1 N1] [O2 C2 B2 N2]. split.
  - intros n Hn. rewrite O2, O1; [done| |]; intros k names Hk.
    + apply (Hn k). by apply lookup_app_l_Some.
    + apply (Hn (length s + k)%nat). rewrite lookup_app_r by lia. by replace (length s + k - length s)%nat with k by lia.
  - intros n k id [[Hd Hno]|[Hge Hd]]%denotes_app Hid.
    + rewrite O2 by done. apply (C1 n k id Hd). apply denotes_lt in Hd. by rewrite lookup_app_l in Hid by lia.
    + apply (C2 n _ id Hd). by rewrite lookup_app_r, <-Hl in Hid by lia.
  - auto.
  - intros id [?|?]%elem_of_app; auto.
Qed.

Lemma rows_where_nil ids rows : rows_where ids [] rows = rows.
Proof. unfold rows_where. induction rows as [|r rows IH]; [done|]. cbn. f_equal. exact IH. Qed.

Lemma from_join jt l r sc0 g0 p1 ids1 sc1 g1 p2 ids2 sc2 g2 es :
  joinable jt = true → from_ok l sc0 g0 p1 ids1 sc1 g1 → from_ok r sc1 g1 p2 ids2 sc2 g2 → conditions_over (ids1 ++ ids2) es →
  ∃ p', Build.join rules true jt p1 p2 es = Ret p' ∧
    from_ok (l.1 ++ r.1, rows_where (ids1 ++ ids2) es (sql_product l.2 r.2)) sc0 g0 p' (ids1 ++ ids2) sc2 g2.
Proof.
  intros Hj [R1 L1 I1 E1 G1] [R2 L2 I2 E2 G2] Hes.
  assert (NoDup (ids1 ++ ids2)) as Hnd.
  { apply NoDup_app. split_and!; [by destruct R1| |by destruct R2]. intros id H1 H2. rewrite Forall_forall in I1, I2.
    specialize (I1 id H1). specialize (I2 id H2). simpl in *. lia. }
  destruct (rel_join tbl rules jt p1 p2 ids1 ids2 l.2 r.2 es Hj R1 R2 Hnd Hes) as (p' & E & R). exists p'. split; [done|].
  pose proof (zlen_nonneg l.1). pose proof (zlen_nonneg r.1). split; cbn [fst snd]; [done|by rewrite !length_app, L1, L2| |by apply (extends_trans _ _ _ _ sc0 sc1 sc2)|].
  - apply Forall_app. split; (eapply Forall_impl; [eassumption|]); simpl; intros; lia.
  - unfold zlen in *. rewrite length_app. lia.
Qed.

(** Conditions select what they mean. *)
Lemma condition_rows e d le scope ids sc outer g rows :
  translated parse_date rules scope ids sc outer g e d le → sql_condition e = true → rows_of ids rows →
  conditions_over ids [le] ∧ rows_where ids [le] rows = List.filter (sql_holds parse_date scope e) rows.
Proof.
  intros [_ [_ Hf] V _ C] Hc Hr. split; [constructor; [by split; [intros B; apply C|]|constructor]|].
  unfold rows_where. induction Hr as [|r rows Hl _ IH]; [done|]. cbn [List.filter]. rewrite IH.
  assert (all_true_in [le] (bind_cols ∅ ids r) = sql_holds parse_date scope e r) as ->; [|done].
  unfold all_true_in, sql_holds, true_in, truth, eval_row. simpl. rewrite (V r Hl), andb_true_r.
  by destruct (sql_eval parse_date scope r e) as [[]|].
Qed.

Lemma factor_from t x sc outer g :
  sql_factor catalog tbl t = Some x → catalog_ok catalog → STARTING_COL_ID ≤ g → g + zlen x.1 < 2 ^ 64 →
  ∃ p ids sc', (∀ sub, Translator.process_table_factor catalog sub t (mkTstate (sc :: outer) g) =
      Ret (mkTstate (sc' :: outer) (g + zlen x.1), Ok (p, false))) ∧ from_ok x sc g p ids sc' (g + zlen x.1) ∧
    find_scan_cid p = factor_table t.
Proof.
  intros Hx Hc Hg Hb. destruct (factor_ok t x sc outer g Hx Hc Hg Hb) as (p & ids & sc' & E & R & L & I & X & T). by exists p, ids, sc'.
Qed.

Lemma sql_join_cols l j y : sql_join parse_date catalog tbl l j = Some y → zlen l.1 ≤ zlen y.1.
Proof.
  destruct j as [t op]. simpl. destruct (sql_factor catalog tbl t) as [r|]; [|done]. simpl.
  destruct op; try done; unfold sql_filter, sql_cross; simpl; [destruct (_ && _); [|done]|]; intros [= <-]; cbn [fst]; len.
Qed.

Lemma process_join_ok l sc0 g0 p ids sc g j y outer :
  from_ok l sc0 g0 p ids sc g → sql_join parse_date catalog tbl l j = Some y →
  catalog_ok catalog → STARTING_COL_ID ≤ g0 → g0 + zlen y.1 < 2 ^ 64 →
  ∃ p' ids' sc' g', (∀ fuel sub, Translator.process_join parse_date catalog rules fuel sub p j (mkTstate (sc :: outer) g) =
      Ret (mkTstate (sc' :: outer) g', Ok p')) ∧ from_ok y sc0 g0 p' ids' sc' g' ∧ find_scan_cid p' = None.
Proof.
  intros Hl Hy Hcat Hg0 Hb. pose proof (sql_join_cols _ _ _ Hy) as Hcols. destruct j as [t op]. simpl in Hy.
  destruct (sql_factor catalog tbl t) as [r|] eqn:Hr; [|done]. simpl in Hy. pose proof (zlen_nonneg l.1).
  pose proof (fr_gen _ _ _ _ _ _ _ Hl) as Hg.
  assert (y.1 = l.1 ++ r.1) as Hy1.
  { destruct op; try done; unfold sql_filter, sql_cross in Hy; simpl in Hy; [destruct (_ && _); [|done]|]; by injection Hy as <-. }
  assert (zlen y.1 = zlen l.1 + zlen r.1) as Hlen by (rewrite Hy1; len).
  destruct (factor_from t r sc outer g Hr) as (p2 & ids2 & sc' & E2 & Hf2 & _); [done|lia|lia|].
  assert (∃ jt es p', joinable jt = true ∧ Build.join rules true jt p p2 es = Ret p' ∧ from_ok y sc0 g0 p' (ids ++ ids2) sc' (g + zlen r.1) ∧
    ∀ fuel sub, (x ← Translator.process_join_operator parse_date rules fuel sub op; mret (x.1, option_list x.2)) (mkTstate (sc' :: outer) (g + zlen r.1)) =
      Ret (mkTstate (sc' :: outer) (g + zlen r.1), Ok (jt, es))) as (jt & es & p' & Hj & Ej & Hf & Eop).
  { assert (∃ p', Build.join rules true CrossType p p2 [] = Ret p' ∧ from_ok (sql_cross l r) sc0 g0 p' (ids ++ ids2) sc' (g + zlen r.1)) as (pc & Ec & Hfc).
    { destruct (from_join CrossType l r sc0 g0 p ids sc g p2 ids2 sc' (g + zlen r.1) [] eq_refl Hl Hf2) as (p' & E & Hf); [constructor|].
      rewrite rows_where_nil in Hf. by exists p'. }
    destruct op as [cond| | | | |]; try done.
    - unfold sql_filter in Hy. destruct (sql_ok _ _ _ && sql_condition cond) eqn:Hok; [|done]. injection Hy as <-.
      apply andb_true_iff in Hok as [Hok Hcond]. cbn [sql_cross fst] in Hok.
      destruct (process_expr_ok parse_date rules [] (l.1 ++ r.1) (ids ++ ids2) sc' outer (g + zlen r.1)) with (e := cond) (d := @None nat) as (le & Hle).
      + exact (from_env _ _ _ _ _ _ _ Hfc).
      + by destruct Hfc as [[] _ _ _ _].
      + by right.
      + done.
      + apply Forall_true. intros n. apply not_elem_of_nil.
      + assert (rows_of (ids ++ ids2) (sql_product l.2 r.2)) as Hrows by by destruct Hfc as [[] _ _ _ _].
        destruct (condition_rows _ _ _ _ _ _ _ _ _ Hle Hcond Hrows) as [Hco Heq].
        destruct (from_join Inner l r sc0 g0 p ids sc g p2 ids2 sc' (g + zlen r.1) [le] eq_refl Hl Hf2 Hco) as (p' & E & Hf).
        rewrite Heq in Hf. exists Inner, [le], p'. split_and!; [done|done|done|]. intros fuel sub.
        unfold Translator.process_join_operator, mbind, SE_bind. by rewrite (tr_run _ _ _ _ _ _ _ _ _ _ Hle).
    - injection Hy as <-. by exists CrossType, [], pc. }
  exists p', (ids ++ ids2), sc', (g + zlen r.1). split; [|split; [done|by eapply join_scans_nothing]]. intros fuel sub. specialize (Eop fuel sub).
  cbn [Translator.process_join]. unfold mbind, SE_bind in *. rewrite E2. cbn [mbind outcome_bind] in *.
  destruct (Translator.process_join_operator _ _ _ _ _ _) as [[st1 [[jt1 c1]|]]|]; cbn [mbind outcome_bind] in *; try done.
  injection Eop as -> -> <-. unfold Translator.plan_join, lift. by rewrite Ej.
Qed.

(** JOIN after JOIN. *)
Lemma process_joins_ok joins l sc0 g0 p ids sc g y outer :
  from_ok l sc0 g0 p ids sc g → foldl (λ acc j, acc ← acc; sql_join parse_date catalog tbl acc j) (Some l) joins = Some y →
  catalog_ok catalog → STARTING_COL_ID ≤ g0 → g0 + zlen y.1 < 2 ^ 64 →
  ∃ p' ids' sc' g', (∀ fuel sub, loop (Translator.process_join parse_date catalog rules fuel sub) p joins (mkTstate (sc :: outer) g) =
      Ret (mkTstate (sc' :: outer) g', Ok p')) ∧ from_ok y sc0 g0 p' ids' sc' g' ∧
    find_scan_cid p' = match joins with [] => find_scan_cid p | _ => None end.
Proof.
  intros Hl Hy Hcat Hg0 Hb.
  assert (∀ joins l y, foldl (λ acc j, acc ← acc; sql_join parse_date catalog tbl acc j) (Some l) joins = Some y → zlen l.1 ≤ zlen y.1) as Hmono.
  { clear. induction joins as [|j joins IH]; intros l y; simpl; [by intros [= ->]|]. destruct (sql_join _ _ _ l j) as [l1|] eqn:E.
    - intros Hy%IH. apply sql_join_cols in E. lia.
    - by rewrite foldl_fail. }
  revert l p ids sc g Hl Hy. induction joins as [|j joins IH]; intros l p ids sc g Hl Hy; simpl in Hy.
  { injection Hy as <-. by exists p, ids, sc, g. }
  destruct (sql_join _ _ _ l j) as [l1|] eqn:E; [|by rewrite foldl_fail in Hy].
  pose proof (Hmono _ _ _ Hy). destruct (process_join_ok l sc0 g0 p ids sc g j l1 outer Hl E Hcat Hg0) as (p1 & ids1 & sc1 & g1 & E1 & Hf1 & Hn1); [lia|].
  destruct (IH l1 p1 ids1 sc1 g1 Hf1 Hy) as (p2 & ids2 & sc2 & g2 & E2 & Hf2 & Hn2). exists p2, ids2, sc2, g2.
  split; [|split; [done|rewrite Hn2; by destruct joins]].
  intros fuel sub. cbn [loop]. unfold mbind, SE_bind. rewrite E1. cbn [mbind outcome_bind]. apply E2.
Qed.

Lemma process_group_ok t x sc outer g :
  sql_table_with_joins parse_date catalog tbl t = Some x → catalog_ok catalog → STARTING_COL_ID ≤ g → g + zlen x.1 < 2 ^ 64 →
  ∃ p ids sc' g', (∀ fuel sub, Translator.process_table_with_joins parse_date catalog rules fuel sub t (mkTstate (sc :: outer) g) =
      Ret (mkTstate (sc' :: outer) g', Ok (p, false))) ∧ from_ok x sc g p ids sc' g' ∧ find_scan_cid p = group_table t.
Proof.
  destruct t as [relation joins]. simpl. intros Hx Hcat Hg Hb. destruct (sql_factor catalog tbl relation) as [r|] eqn:Hr; [|done]. simpl in Hx.
  assert (zlen r.1 ≤ zlen x.1) as Hle.
  { clear -Hx. revert r Hx. induction joins as [|j joins IH]; intros r Hx; simpl in Hx; [by injection Hx as ->|].
    destruct (sql_join _ _ _ r j) as [r1|] eqn:E; [|by rewrite foldl_fail in Hx]. apply IH in Hx. apply sql_join_cols in E. lia. }
  destruct (factor_from relation r sc outer g Hr Hcat Hg ltac:(lia)) as (p & ids & sc1 & E1 & Hf1 & Hn1).
  destruct (process_joins_ok joins r sc g p ids sc1 _ x outer Hf1 Hx Hcat Hg Hb) as (p2 & ids2 & sc2 & g2 & E2 & Hf2 & Hn2).
  exists p2, ids2, sc2, g2. split; [|split; [done|rewrite Hn2, Hn1; by destruct joins]]. intros fuel sub. cbn [Translator.process_table_with_joins]. unfold mbind, SE_bind.
  rewrite E1. cbn [mbind outcome_bind]. by rewrite E2.
Qed.

(** The parts of a FROM clause, one after the other. *)
Inductive parts_ok : list sql_rel → list LogicalRelExpr → Scope → Z → Scope → Z → Prop :=
  | parts_nil sc g : parts_ok [] [] sc g sc g
  | parts_cons x xs p ps ids sc g sc1 g1 sc2 g2 :
      from_ok x sc g p ids sc1 g1 → parts_ok xs ps sc1 g1 sc2 g2 → parts_ok (x :: xs) (p :: ps) sc g sc2 g2.

Definition total_cols (xs : list sql_rel) : Z := foldr (λ x n, zlen x.1 + n) 0 xs.

Lemma total_cols_nonneg xs : 0 ≤ total_cols xs.
Proof. induction xs as [|x xs IH]; [done|]. simpl. pose proof (zlen_nonneg x.1). lia. Qed.

Lemma process_parts_ok from xs acc sc outer g :
  mapM (sql_table_with_joins parse_date catalog tbl) from = Some xs → catalog_ok catalog → STARTING_COL_ID ≤ g → g + total_cols xs < 2 ^ 64 →
  ∃ ps sc' g', (∀ fuel sub, loop (λ l t, j ← Translator.process_table_with_joins parse_date catalog rules fuel sub t; mret (l ++ [j])) acc from
        (mkTstate (sc :: outer) g) = Ret (mkTstate (sc' :: outer) g', Ok (acc ++ ((λ p, (p, false)) <$> ps)))) ∧
    parts_ok xs ps sc g sc' g' ∧ find_scan_cid <$> ps = group_table <$> from.
Proof.
  intros E%mapM_Some. revert acc sc g. induction E as [|t x from xs Ht _ IH]; intros acc sc g Hcat Hg Hb.
  { exists [], sc, g. split; [|split; [constructor|done]]. intros. cbn [loop fmap list_fmap]. by rewrite app_nil_r. }
  cbn [total_cols foldr] in Hb. fold (total_cols xs) in Hb. pose proof (total_cols_nonneg xs). pose proof (zlen_nonneg x.1).
  destruct (process_group_ok t x sc outer g Ht Hcat Hg ltac:(lia)) as (p & ids & sc1 & g1 & E1 & Hf1 & Hn1). pose proof (fr_gen _ _ _ _ _ _ _ Hf1) as ->.
  destruct (IH (acc ++ [(p, false)]) sc1 (g + zlen x.1)) as (ps & sc2 & g2 & E2 & Hps & Hns);
    [done|lia|lia|].
  exists (p :: ps), sc2, g2. split; [|split; [by econstructor|cbn [fmap list_fmap]; by f_equal]]. intros fuel sub.
  erewrite loop_cons by (rewrite (se_bind_Ok _ _ _ _ _ (E1 fuel sub)); reflexivity). rewrite E2. by rewrite <-app_assoc.
Qed.

Lemma join_parts_ok xs ps sc1 g1 sc2 g2 acc sc0 g0 p ids :
  parts_ok xs ps sc1 g1 sc2 g2 → from_ok acc sc0 g0 p ids sc1 g1 →
  ∃ p' ids', (∀ fuel st, loop (λ plan '(join_expr, is_subquery), if is_subquery : bool then Translator.plan_flatmap rules fuel plan join_expr
              else Translator.plan_join rules CrossType plan join_expr []) p ((λ p, (p, false)) <$> ps) st = Ret (st, Ok p')) ∧
    from_ok (foldl sql_cross acc xs) sc0 g0 p' ids' sc2 g2 ∧
    find_scan_cid p' = match ps with [] => find_scan_cid p | _ => None end.
Proof.
  intros Hps. revert acc p ids. induction Hps as [|x xs q ps idsx sc1 g1 sc1' g1' sc2 g2 Hx _ IH]; intros acc p ids Hacc.
  { by exists p, ids. }
  destruct (from_join CrossType acc x sc0 g0 p ids sc1 g1 q idsx sc1' g1' [] eq_refl Hacc Hx) as (p1 & E1 & Hf1); [constructor|].
  rewrite rows_where_nil in Hf1. destruct (IH (sql_cross acc x) p1 (ids ++ idsx) Hf1) as (p2 & ids2 & E2 & Hf2 & Hn2).
  exists p2, ids2. split; [|split; [done|rewrite Hn2; destruct ps; [by eapply join_scans_nothing|done]]]. intros fuel st. cbn [loop fmap list_fmap]. unfold mbind, SE_bind, Translator.plan_join, lift.
  rewrite E1. cbn [mbind outcome_bind]. apply E2.
Qed.

Lemma process_from_ok from x sc outer g :
  sql_from parse_date catalog tbl from = Some x → catalog_ok catalog → STARTING_COL_ID ≤ g → g + zlen x.1 < 2 ^ 64 →
  ∃ p ids sc' g', (∀ fuel sub, Translator.process_from parse_date catalog rules fuel sub from (mkTstate (sc :: outer) g) =
      Ret (mkTstate (sc' :: outer) g', Ok p)) ∧ from_ok x sc g p ids sc' g' ∧ find_scan_cid p = single_table from.
Proof.
  destruct from as [|t from]; [done|]. simpl. intros Hx Hcat Hg Hb.
  destruct (sql_table_with_joins _ _ _ t) as [r|] eqn:Hr; [|done]. simpl in Hx. destruct (mapM _ from) as [xs|] eqn:Hxs; [|done]. injection Hx as <-.
  assert (∀ xs r, zlen (foldl sql_cross r xs).1 = zlen r.1 + total_cols xs) as Hlen.
  { clear. induction xs as [|x xs IH]; intros r; simpl; [lia|]. rewrite IH. simpl. len. }
  rewrite Hlen in Hb.
  destruct (process_parts_ok (t :: from) (r :: xs) [] sc outer g) as (ps & sc' & g' & E & Hps & Hns); [simpl; by rewrite Hr, Hxs|done|done|done|].
  inversion Hps as [|? ? p0 ps0 ids0 ? ? sc1 g1 ? ? Hf0 Hps0]; subst.
  destruct (join_parts_ok xs ps0 sc1 g1 sc' g' r sc g p0 ids0 Hps0 Hf0) as (p & ids & Ej & Hf & Hn).
  exists p, ids, sc', g'. split; [|split; [done|rewrite Hn; injection Hns as -> Hl; by destruct ps0, from]]. intros fuel sub. unfold Translator.process_from. rewrite (se_bind_Ok _ _ _ _ _ (E fuel sub)).
  apply Ej.
Qed.
End Froms.
