(* ===== verification/TranslateCorrect.v ===== *)
(** * The translation of SQL is correct

    For queries the reference interpreter answers, the translator returns a plan, and the
    plan means the answer. *)

From stdpp Require Import strings gmap.
From S2P Require Import Prelude Common Field FieldCodec Tuple ByteCode Expr ExprCorrect.
From S2P Require Import OpIterator OpAggregate.
From S2P Require Import PhysicalPlan DbCatalog PlanSem PlanRel Logical LogicalSem.
From S2P Require Import LogicalCorrect LogicalProject.
From S2P Require Import SqlAst Translate SqlSem TranslateFrom.

Open Scope Z_scope.

Section Clauses.
Context `{Unicode} `{TupleCodec} (parse_date : list byte → option Z) (catalog : Catalog) (tbl : Z → option (list item)) (rules : RuleSet).

(** ** WHERE *)







(** ** SELECT *)



Section Items.
(** The columns and the rows of the FROM clause. *)
Context (scope : sql_scope) (rows0 : list (list Field)).
Context (Hrows0 : Forall (λ r, length r = length scope) rows0).









End Items.







(** ** Queries *)




End Clauses.

(** ** Index scans *)

Section IndexScans.
Context (catalog : Catalog).

Section IndexRewrite.
Context (fuel : nat) (scopes : list Scope) (cid : Z).

Definition is_column (id i : Z) : Prop := Env.get_origin fuel catalog scopes (DerivedColRef id) = Ret (BaseCidAndIndex cid i).

(** The conjunct compares column [i] of the table with the value [v]. *)
Definition compares (e : LExpr) (i : Z) (v : Field) : Prop := ∃ id, Translator.column_literal e = Some (id, v) ∧ is_column id i.

(** The row has the columns of the record [r] of the table. *)
Definition presents (r : list Field) (ρ : row) : Prop := ∀ id i, is_column id i → ρ !! id = nth_u r i.

Lemma compares_true e i v r ρ : compares e i v → presents r ρ → true_in ρ e = true ↔ nth_u r i = Some v.
Proof.
  intros (id & He & Hid) Hρ. unfold true_in, truth, eval_row.
  destruct e as [| |[] [] []| |]; try done; injection He as -> ->; cbn [eval_expr]; rewrite (Hρ id i Hid);
    (destruct (nth_u r i) as [x|]; [|done]); cbn; rewrite bool_decide_eq_true; naive_solver.
Qed.

Lemma resolve_inv conjuncts : ∀ k r0 r, Translator.resolve catalog fuel scopes cid k conjuncts r0 = Ret r →
  (∀ i v n, r !! i = Some (v, n) → r0 !! i = Some (v, n) ∨ ∃ j e, n = (k + j)%nat ∧ conjuncts !! j = Some e ∧ compares e i v) ∧
  (∀ i, is_Some (r0 !! i) ∨ (∃ e v, e ∈ conjuncts ∧ compares e i v) → is_Some (r !! i)).
Proof.
  induction conjuncts as [|e conjuncts IH]; intros k r0 r E; cbn [Translator.resolve] in E.
  { injection E as <-. split; [by left|]. intros i [?|(e & v & He%not_elem_of_nil & _)]; done. }
  apply bind_Ret_inv in E as (r1 & E1 & E). destruct (IH _ _ _ E) as [H1 H2].
  assert ((∀ i v n, r1 !! i = Some (v, n) → r0 !! i = Some (v, n) ∨ n = k ∧ compares e i v) ∧
    ∀ i, is_Some (r0 !! i) ∨ (∃ v, compares e i v) → is_Some (r1 !! i)) as [Hr1 Hr1'].
  { destruct (Translator.column_literal e) as [[id v]|] eqn:He; cycle 1.
    { injection E1 as <-. split; [by left|]. intros i [?|(v & id & Hc & _)]; [done|congruence]. }
    apply bind_Ret_inv in E1 as (o & Eo & E1).
    assert (∀ i v', compares e i v' → o = BaseCidAndIndex cid i) as Hcmp.
    { intros i v' (id' & Hc & Hid). rewrite He in Hc. injection Hc as <- <-. unfold is_column in Hid. congruence. }
    destruct o as [cid' i'| | | |]; try by (injection E1 as <-; split; [by left|]; intros i [?|[v' Hc%Hcmp]]).
    destruct (cid' =? cid) eqn:Hcid; injection E1 as <-; cycle 1.
    { split; [by left|]. intros i [?|[v' Hc%Hcmp]]; [done|]. injection Hc as -> _. by rewrite Z.eqb_refl in Hcid. }
    apply Z.eqb_eq in Hcid as ->. split.
    - intros i v' n [[<- [= <- <-]]|[_ ?]]%lookup_insert_Some; [right|by left]. split; [done|]. by exists id.
    - intros i Hi. destruct (decide (i = i')) as [->|Hne]; [rewrite lookup_insert_eq; by eexists|rewrite lookup_insert_ne by done].
      destruct Hi as [?|[v' Hc%Hcmp]]; [done|congruence]. }
  split.
  - intros i v n Hi. destruct (H1 i v n Hi) as [[?|[-> Hc]]%Hr1|(j & e' & -> & Hj & Hc)]; [by left|right; exists O, e; split_and!; [lia|done..]|].
    right. exists (S j), e'. split_and!; [lia|done..].
  - intros i [Hi|(e' & v & [->|Hin]%elem_of_cons & Hc)]; apply H2; [left; apply Hr1'; by left|left; apply Hr1'; right; by exists v|].
    right. by exists e', v.
Qed.

(** The column that the conjunct compares with a literal, if it is such, has an origin. *)
Definition has_origin (e : LExpr) : Prop :=
  ∀ id v, Translator.column_literal e = Some (id, v) → ∃ o, Env.get_origin fuel catalog scopes (DerivedColRef id) = Ret o.

Lemma resolve_returns conjuncts : Forall has_origin conjuncts →
  ∀ k r0, ∃ r, Translator.resolve catalog fuel scopes cid k conjuncts r0 = Ret r.
Proof.
  induction 1 as [|e conjuncts He _ IH]; intros k r0; cbn [Translator.resolve]; [by exists r0|].
  destruct (Translator.column_literal e) as [[id v]|] eqn:Ec; [|apply IH].
  destruct (He id v Ec) as [[] ->]; cbn [mbind outcome_bind]; apply IH.
Qed.

Definition residual_of (key : list nat) (conjuncts : list LExpr) : list LExpr :=
  (List.filter (λ x : nat * LExpr, negb (bool_decide (x.1 ∈ key))) (imap pair conjuncts)).*2.

Lemma residual_elem key conjuncts e : e ∈ residual_of key conjuncts ↔ ∃ j, conjuncts !! j = Some e ∧ j ∉ key.
Proof.
  unfold residual_of. rewrite list_elem_of_fmap. split.
  - intros ([j e'] & -> & [Hin Hj]%list_elem_of_In%filter_In). apply list_elem_of_In, elem_of_lookup_imap in Hin as (j' & e & [= -> ->] & Hj').
    exists j'. split; [done|]. by apply negb_true_iff, bool_decide_eq_false in Hj.
  - intros (j & Hj & Hk). exists (j, e). split; [done|]. apply list_elem_of_In, filter_In. split.
    + apply list_elem_of_In, elem_of_lookup_imap. by exists j, e.
    + by rewrite bool_decide_eq_false_2.
Qed.

Lemma key_residual_ok conjuncts columns key r ρ :
  Forall2 (λ i (x : Field * nat), ∃ e, conjuncts !! x.2 = Some e ∧ compares e i x.1) columns key → presents r ρ →
  all_true_in conjuncts ρ = bool_decide (mapM (nth_u r) columns = Some key.*1) && all_true_in (residual_of key.*2 conjuncts) ρ.
Proof.
  intros HF Hρ. apply eq_iff_eq_true. rewrite andb_true_iff, bool_decide_eq_true. unfold all_true_in. rewrite !forallb_forall.
  assert (mapM (nth_u r) columns = Some key.*1 ↔ Forall (λ x : Field * nat, ∀ e, conjuncts !! x.2 = Some e → true_in ρ e = true) key) as ->.
  { rewrite mapM_Some, Forall2_fmap_r. induction HF as [|i x columns key (e & He & Hc) _ IH]; [split; constructor|].
    rewrite Forall2_cons, Forall_cons, IH. rewrite <-(compares_true e i x.1 r ρ Hc Hρ).
    split; intros [H1 H2]; (split; [|done]); [intros e'; rewrite He; by intros [= <-]|by apply H1]. }
  split.
  - intros Hall. split.
    + apply Forall_forall. intros x _ e He. apply Hall, list_elem_of_In. by eapply list_elem_of_lookup_2.
    + intros e (j & Hj & _)%list_elem_of_In%residual_elem. apply Hall, list_elem_of_In. by eapply list_elem_of_lookup_2.
  - intros [Hkey Hres] e [j Hj]%list_elem_of_In%list_elem_of_lookup. rewrite Forall_forall in Hkey.
    destruct (decide (j ∈ key.*2)) as [([v j'] & -> & Hx)%list_elem_of_fmap|Hk]; [by apply (Hkey _ Hx)|].
    apply Hres, list_elem_of_In, residual_elem. by exists j.
Qed.

(** The first index of the table with all its columns compared, if there is one. *)
Lemma first_index_ok resolved infos :
  match Translator.first_index resolved infos with
  | Some (info, key) => info ∈ infos ∧ mapM (λ col, resolved !! col) (ii_columns info) = Some key
  | None => ∀ info, info ∈ infos → ∃ i, i ∈ ii_columns info ∧ resolved !! i = None
  end.
Proof.
  induction infos as [|info infos IH]; [by intros ? ?%not_elem_of_nil|]. cbn [Translator.first_index]. unfold Translator.index_key.
  destruct (mapM _ (ii_columns info)) as [key|] eqn:E; [split; [by left|done]|].
  apply mapM_None_1, Exists_exists in E as (i & Hi & E).
  revert IH. destruct (Translator.first_index resolved infos) as [[info' key']|]; [intros [? ?]; split; [by right|done]|].
  intros IH x [->|Hx]%elem_of_cons; [by exists i|by apply IH].
Qed.
End IndexRewrite.

(** C32: The rewriting of a WHERE clause over one table to an index scan is correct. Either the
    plan and the conjuncts stay as they are, and then every index of the table has a column
    that no conjunct compares with a literal; or the scan becomes a scan of one of the indexes
    of the table, with a literal as the key of each of its columns, and a record satisfies the
    conjuncts exactly when its columns of the index are equal to the key and it satisfies the
    remaining conjuncts. The columns of the plan stay the same. The rewriting returns when the
    columns that are compared with literals have an origin in the environment. *)
Theorem index_rewrite_correct fuel scopes cid p conjuncts :
  find_scan_cid p = Some cid → Forall (has_origin fuel scopes) conjuncts →
  ∃ p' residual, Translator.try_index_rewrite catalog fuel scopes p conjuncts = Ret (p', residual) ∧
  ((p' = p ∧ residual = conjuncts ∧
   ∀ info, info ∈ Cat.get_indexes_for_table catalog cid → ii_columns info ≠ [] →
     ∃ i, i ∈ ii_columns info ∧ ∀ e v, e ∈ conjuncts → ¬ compares fuel scopes cid e i v) ∨
   ∃ info vals, info ∈ Cat.get_indexes_for_table catalog cid ∧
    p' = replace_scan_with_index p (ii_index_id info) (EField <$> vals) ∧ Log.att p' = Log.att p ∧
    ∀ r ρ, presents fuel scopes cid r ρ →
      all_true_in conjuncts ρ = bool_decide (mapM (nth_u r) (ii_columns info) = Some vals) && all_true_in residual ρ).
Proof.
  intros Hp Ho. destruct (resolve_returns fuel scopes cid conjuncts Ho 0 ∅) as [resolved Er].
  assert (∃ p' residual, Translator.try_index_rewrite catalog fuel scopes p conjuncts = Ret (p', residual)) as (p' & residual & E).
  { unfold Translator.try_index_rewrite. rewrite Hp, Er. cbn [mbind outcome_bind]. case_bool_decide; [eauto|].
    destruct (Translator.first_index _ _) as [[]|]; eauto. }
  exists p', residual. split; [exact E|]. unfold Translator.try_index_rewrite in E. rewrite Hp, Er in E. cbn [mbind outcome_bind] in E.
  apply resolve_inv in Er as [Hinv Hcomp].
  assert (∀ i, resolved !! i = None → ∀ e v, e ∈ conjuncts → ¬ compares fuel scopes cid e i v) as Hnone.
  { intros i Hi e v He Hc. destruct (Hcomp i) as [x Hx]; [right; by exists e, v|congruence]. }
  case_bool_decide as Hempty.
  { injection E as <- <-. left. split_and!; [done..|]. intros info _ Hne. destruct (ii_columns info) as [|i cols] eqn:Ei; [done|].
    exists i. split; [by left|]. apply Hnone. by rewrite Hempty, lookup_empty. }
  pose proof (first_index_ok resolved (Cat.get_indexes_for_table catalog cid)) as Hfirst.
  destruct (Translator.first_index _ _) as [[info key]|]; injection E as <- <-.
  - right. destruct Hfirst as [Hin Hkey]. exists info, key.*1. split_and!; [done..| |].
    { clear -Hp. induction p; try done. simpl in Hp |- *. by rewrite IHp. }
    intros r ρ Hρ. apply (key_residual_ok fuel scopes cid conjuncts (ii_columns info) key r ρ); [|done].
    apply mapM_Some in Hkey. eapply Forall2_impl; [exact Hkey|]. intros i [v n] Hi. simpl in Hi.
    destruct (Hinv _ _ _ Hi) as [H0|(j & e & -> & Hj & Hc)]; [by rewrite lookup_empty in H0|]. by exists e.
  - left. split_and!; [done..|]. intros info Hin _. destruct (Hfirst info Hin) as (i & Hi & Hn). exists i. split; [done|]. by apply Hnone.
Qed.
End IndexScans.
