(* ===== verification/LogicalPhysical.v ===== *)
(** * Physical plans mean what logical plans mean

    The translation of logical plans to physical plans chooses hash joins for equalities and
    nested loop joins for everything else. The rows of the physical plan are those of the
    logical plan, up to their order. Aggregations are over plans without joins, where the
    order is the same: sums of different orders may differ in where they overflow. *)

From stdpp Require Import strings gmap sorting.
From S2P Require Import Prelude Common Ordering Field FieldContract Tuple ByteCode Expr.
From S2P Require Import ExprCorrect OpIterator OpBasic OpJoin OpAggregate.
From S2P Require Import DbCatalog PhysicalPlan StorageSpec OpMutate OpDyn PlanToOp PlanSem.
From S2P Require Import PlanRel PlanCorrect Executor LogicalSem Optimizer.
From S2P Require Import Logical LogicalCorrect LogicalProject.

Open Scope Z_scope.

Fixpoint join_free (p : LogicalRelExpr) : bool :=
  match p with
  | LJoin _ _ _ _ => false
  | LSelect src _ | LProject src _ | LAggregate src _ _ | LMap src _ | LRename src _ => join_free src
  | _ => true
  end.

Fixpoint aggregates_ordered (p : LogicalRelExpr) : bool :=
  match p with
  | LJoin _ l r _ => aggregates_ordered l && aggregates_ordered r
  | LAggregate src _ _ => join_free src
  | LSelect src _ | LProject src _ | LMap src _ | LRename src _ => aggregates_ordered src
  | _ => true
  end.

(** ** Expressions *)

Lemma eval_physical cols (e : LExpr) : eval_expr cols (pexpr e) = eval_expr cols e.
Proof. induction e as [| |op l IHl r IHr| |]; simpl; try done. by rewrite IHl, IHr. Qed.

Lemma truth_physical ρ (e : LExpr) : truth ρ (pexpr e) = truth ρ e.
Proof. unfold truth, eval_row. by rewrite eval_physical. Qed.

Lemma selects_physical es rows : sem_selects (map pexpr es) rows = sem_selects es rows.
Proof.
  revert rows. induction es as [|e es IH]; intros rows; [done|]. simpl.
  assert (∀ rs, sem_select (pexpr e) rs = sem_select e rs) as ->.
  { induction rs as [|ρ rs IHr]; [done|]. simpl. by rewrite truth_physical, IHr. }
  destruct (sem_select e rows); [apply IH|done].
Qed.

Lemma exprs_physical (exprs : list (Z * LExpr)) :
  (map (λ '(cid, e), (cid, pexpr e)) exprs).*1 = exprs.*1 ∧
  ∀ ρ, mapM (eval_row ρ) (map (λ '(cid, e), (cid, pexpr e)) exprs).*2 = mapM (eval_row ρ) exprs.*2.
Proof.
  induction exprs as [|[id e] exprs [IH1 IH2]]; [done|]. split; [simpl; f_equal; exact IH1|]. intros ρ. simpl.
  rewrite IH2. assert (eval_row ρ (pexpr e) = eval_row ρ e) as -> by (unfold eval_row; by rewrite eval_physical). done.
Qed.

(** ** Permutations *)

Lemma mapM_perm {A B} (f : A → option B) l l' k :
  l ≡ₚ l' → mapM f l = Some k → ∃ k', mapM f l' = Some k' ∧ k' ≡ₚ k.
Proof.
  intros Hp. revert k. induction Hp as [|x l l' _ IH|x y l|l l' l'' _ IH1 _ IH2]; intros k E.
  - by exists k.
  - simpl in E |- *. destruct (f x) as [z|]; [|done]. simpl in E |- *. destruct (mapM f l) as [k0|]; [|done].
    injection E as <-. destruct (IH k0 eq_refl) as (k' & -> & Hk). eexists. split; [done|]. by rewrite Hk.
  - simpl in E |- *. destruct (f x) as [u|], (f y) as [v|]; try done. simpl in *. destruct (mapM f l) as [k0|]; [|done].
    injection E as <-. eexists. split; [done|]. simpl. constructor.
  - destruct (IH1 k E) as (k1 & E1 & H1), (IH2 k1 E1) as (k2 & E2 & H2). exists k2. split; [done|]. by rewrite H2.
Qed.

Lemma product_perm L L' R R' : L ≡ₚ L' → R ≡ₚ R' → sem_product L R ≡ₚ sem_product L' R'.
Proof.
  intros HL HR. unfold sem_product. rewrite HL. clear HL. induction L' as [|ρ L' IH]; [done|]. cbn [mbind list_bind].
  by rewrite IH, HR.
Qed.

(** ** Joins of rows *)

Lemma theta_filter {P} (e : Expression P) (g : row → bool) L R :
  (∀ ρl ρr, ρl ∈ L → ρr ∈ R → truth (both ρl ρr) e = Some (g (both ρl ρr))) →
  sem_theta e L R = Some (List.filter g (sem_product L R)).
Proof.
  unfold sem_product. induction L as [|ρl L IH]; intros Ht; [done|]. cbn [sem_theta mbind list_bind].
  rewrite IH by (intros; apply Ht; [by right|done]).
  assert (theta_row e ρl R = Some (List.filter g (both ρl <$> R))) as ->.
  { assert (∀ ρr, ρr ∈ R → truth (both ρl ρr) e = Some (g (both ρl ρr))) as Hr by (intros; apply Ht; [left|done]).
    clear IH Ht. induction R as [|ρr R IH]; [done|]. cbn [theta_row]. rewrite Hr by left.
    rewrite IH by (intros; apply Hr; by right). rewrite fmap_cons. simpl. done. }
  simpl. by rewrite List.filter_app.
Qed.

(** An equality join by right rows gives the pairs of the product whose keys agree. *)
Lemma equi_filter {P} (x y : Expression P) (kx ky : row → Field) L R :
  Forall (λ ρ, eval_row ρ x = Some (kx ρ)) L → Forall (λ ρ, eval_row ρ y = Some (ky ρ)) R →
  ∃ kl rows, keyed_rows x L = Some kl ∧ equi_rows kl y R = Some rows ∧
    ∀ g, (∀ ρl ρr, ρl ∈ L → ρr ∈ R → g (both ρl ρr) = bool_decide (kx ρl = ky ρr)) →
      rows ≡ₚ List.filter g (sem_product L R).
Proof.
  intros HL HR. exists ((λ ρ, (kx ρ, ρ)) <$> L).
  assert (keyed_rows x L = Some ((λ ρ, (kx ρ, ρ)) <$> L)) as Ek.
  { induction HL as [|ρ L Hρ _ IH]; [done|]. simpl. by rewrite Hρ, IH. }
  assert (∃ rows, equi_rows ((λ ρ, (kx ρ, ρ)) <$> L) y R = Some rows ∧
    rows ≡ₚ R ≫= λ ρr, (λ ρl, both ρl ρr) <$> List.filter (λ ρl, bool_decide (kx ρl = ky ρr)) L) as (rows & Er & Hp).
  { clear Ek. induction HR as [|ρr R Hρ _ (rs & E & Hp)]; [by exists []|]. simpl. rewrite Hρ, E. simpl. eexists. split; [done|].
    rewrite Hp. apply Permutation_app_tail.
    assert ((List.filter (λ p : Field * row, bool_decide (p.1 = ky ρr)) ((λ ρ, (kx ρ, ρ)) <$> L)).*2 =
            List.filter (λ ρl, bool_decide (kx ρl = ky ρr)) L) as ->; [|done].
    clear. induction L as [|ρ L IH]; [done|]. rewrite fmap_cons. cbn [List.filter fst].
    destruct (bool_decide _); [rewrite fmap_cons|]; by rewrite IH. }
  exists rows. split; [done|]. split; [done|]. intros g Hg. rewrite Hp. clear -Hg.
  induction L as [|ρl L IH].
  { simpl. clear. by induction R as [|ρr R IH]. }
  unfold sem_product in *. cbn [mbind list_bind]. rewrite List.filter_app, <-IH by (intros; apply Hg; [by right|done]).
  assert (List.filter g (both ρl <$> R) = R ≫= λ ρr, if bool_decide (kx ρl = ky ρr) then [both ρl ρr] else []) as ->.
  { assert (∀ ρr, ρr ∈ R → g (both ρl ρr) = bool_decide (kx ρl = ky ρr)) as Hr by (intros; apply Hg; [left|done]).
    clear IH Hg. induction R as [|ρr R IH]; [done|]. rewrite fmap_cons. cbn [List.filter mbind list_bind]. rewrite Hr by left.
    rewrite IH by (intros; apply Hr; by right). by destruct (bool_decide _). }
  clear. induction R as [|ρr R IH]; [done|]. cbn [mbind list_bind List.filter].
  destruct (bool_decide (kx ρl = ky ρr)); simpl; rewrite IH; solve_Permutation.
Qed.

(** ** Candidates *)

(** The physical plans the optimizer chooses from: joins on an equality can be hash joins or
    nested loop joins, and index scans can be scans with a selection. *)
Inductive candidate (catalog : Catalog) : LogicalRelExpr → PhysicalRelExpr → Prop :=
  | cand_scan cid name cols : candidate catalog (LScan cid name cols) (PScan cid name cols None)
  | cand_index_scan cid name cols ix kvs :
      candidate catalog (LIndexScan cid name cols ix kvs) (PIndexScan cid name cols ix (map pexpr kvs) None)
  | cand_full_scan cid name cols ix kvs alt :
      Memo.scan_select_alternative catalog cid cols ix kvs = Some alt →
      candidate catalog (LIndexScan cid name cols ix kvs)
        (PSelect (PScan cid name (plan_columns alt) None) (map pexpr (plan_predicates alt)) None)
  | cand_delete table_id src : candidate catalog (LDelete table_id src) (to_physical_plan (LDelete table_id src))
  | cand_update table_id src asgs :
      candidate catalog (LUpdate table_id src asgs) (to_physical_plan (LUpdate table_id src asgs))
  | cand_select src q preds :
      candidate catalog src q → candidate catalog (LSelect src preds) (PSelect q (map pexpr preds) None)
  | cand_nested jt l r ql qr preds :
      candidate catalog l ql → candidate catalog r qr →
      candidate catalog (LJoin jt l r preds) (PNestedLoopJoin jt ql qr [Expr.combine_preds (map pexpr preds)] None)
  | cand_hash l r ql qr preds :
      candidate catalog l ql → candidate catalog r qr → is_eq (Expr.combine_preds (map pexpr preds)) = true →
      candidate catalog (LJoin Inner l r preds) (PHashJoin Inner ql qr [Expr.combine_preds (map pexpr preds)] None)
  | cand_project src q cols : candidate catalog src q → candidate catalog (LProject src cols) (PProject q cols None)
  | cand_order src q cols : candidate catalog src q → candidate catalog (LOrderBy src cols) (PSort q cols None)
  | cand_aggregate src q gb aggrs :
      candidate catalog src q → candidate catalog (LAggregate src gb aggrs) (PHashAggregate q gb aggrs None)
  | cand_map input q exprs :
      candidate catalog input q →
      candidate catalog (LMap input exprs) (PMap q (map (λ '(cid, e), (cid, pexpr e)) exprs) None)
  | cand_flatmap input func qi qf :
      candidate catalog input qi → candidate catalog func qf →
      candidate catalog (LFlatMap input func) (PFlatMap qi qf None)
  | cand_rename src q m : candidate catalog src q → candidate catalog (LRename src m) (PRename q m None).
#[export] Hint Constructors candidate : core.

Lemma map_fst_physical (exprs : list (Z * LExpr)) : (map (λ '(cid, e), (cid, pexpr e)) exprs).*1 = exprs.*1.
Proof. exact (proj1 (exprs_physical exprs)). Qed.

Section Physical.
Context `{TupleCodec} (tbl : Z → option (list item)) (catalog : Catalog).

(** The structural translation is one of them. *)
Lemma physical_candidate p : candidate catalog p (to_physical_plan p).
Proof.
  induction p as [| | | | |jt l IHl r IHr preds| | | | | |]; try (cbn [to_physical_plan]; by constructor).
  cbn [to_physical_plan]. destruct (bool_decide (jt = Inner)) eqn:Ej; [|by constructor].
  apply bool_decide_eq_true in Ej as ->. cbn [andb]. destruct (is_eq _) eqn:Eq; by constructor.
Qed.

Lemma physical_att p : Phys.att (to_physical_plan p) = Log.att p.
Proof.
  induction p as [| | | | |jt l IHl r IHr preds| | | |input IH exprs| |src IH m]; cbn [to_physical_plan Phys.att Log.att]; try done.
  - destruct (_ && _); cbn [Phys.att]; by rewrite IHl, IHr.
  - by rewrite IH, map_fst_physical.
  - by rewrite IHp1, IHp2.
  - by rewrite IH.
Qed.

Lemma candidate_att p q : candidate catalog p q → Phys.att q = Log.att p.
Proof.
  induction 1 as [| |????? alt E| | | | | | | | | | |]; cbn [Phys.att Log.att]; try done; try congruence.
  - unfold Memo.scan_select_alternative in E. destruct (head _); [|done]. simpl in E.
    destruct (Memo.key_predicates _ _ _) as [[]|]; [|done]. by injection E as <-.
  - by rewrite physical_att.
  - by rewrite physical_att.
  - rewrite map_fst_physical. congruence.
Qed.

Lemma candidate_scans p q : wf p = true → candidate catalog p q → scans q = scans (to_physical_plan p).
Proof.
  intros Hw Hc. revert Hw. induction Hc; intros Hw; try done; cbn [to_physical_plan scans]; simpl in Hw;
    repeat match goal with jt : JoinType |- _ => destruct jt end; try done; checks; auto;
    destruct (_ && _); cbn [scans]; rewrite IHHc1, IHHc2; done.
Qed.

(** A join that passes the check of physical plans. *)
Lemma join_cols jt l r preds q c :
  candidate catalog (LJoin jt l r preds) q → cols_of catalog q = Some c →
  jt = Inner ∧ ∃ ql qr op a b cl cr, Expr.combine_preds (map pexpr preds) = Binary op a b ∧
    candidate catalog l ql ∧ candidate catalog r qr ∧
    cols_of catalog ql = Some cl ∧ cols_of catalog qr = Some cr ∧
    condition_ok ql cl cr op a b = true ∧ c = cl ∪ cr ∧
    (q = PNestedLoopJoin Inner ql qr [Binary op a b] None ∨ op = OpEq ∧ q = PHashJoin Inner ql qr [Binary op a b] None).
Proof.
  intros Hq E. inversion Hq as [| | | | | |? ? ? ql qr ? Hl Hr|? ? ql qr ? Hl Hr Heq| | | | | |]; subst.
  - assert (jt = Inner) as -> by (destruct jt; done). split; [done|].
    destruct (Expr.combine_preds (map pexpr preds)) as [| |op a b| |]; try done. cbn [cols_of] in E.
    destruct (cols_of catalog ql) as [cl|] eqn:El; [|done]. destruct (cols_of catalog qr) as [cr|] eqn:Er; [|done].
    simpl in E. destruct (_ && _) eqn:Ec; [|done]. injection E as <-. apply andb_true_iff in Ec as [_ Ec].
    exists ql, qr, op, a, b, cl, cr. split_and!; auto.
  - split; [done|]. destruct (Expr.combine_preds (map pexpr preds)) as [| |[] a b| |]; try done. cbn [cols_of] in E.
    destruct (cols_of catalog ql) as [cl|] eqn:El; [|done]. destruct (cols_of catalog qr) as [cr|] eqn:Er; [|done].
    simpl in E. destruct (condition_ok _ _ _ _ _ _) eqn:Ec; [|done]. injection E as <-.
    exists ql, qr, OpEq, a, b, cl, cr. split_and!; auto.
Qed.

Lemma cols_att p q c : wf p = true → candidate catalog p q → cols_of catalog q = Some c → c = Log.att p.
Proof.
  intros Hw Hc. revert c Hw. induction Hc as [cid name cols| | | | |src q preds Hq IH|jt l r ql qr preds Hl IHl Hr IHr|
      l r ql qr preds Hl IHl Hr IHr He|src q cols Hq IH| |src q gb aggrs Hq IH|input q exprs Hq IH| |src q m Hq IH];
    intros c Hw E; try done.
  - simpl in E. destruct (Cat.get_table_schema catalog cid); [|done]. simpl in E. destruct (forallb _ cols); [|done]. by injection E as <-.
  - simpl in Hw, E. checks. destruct (cols_of catalog q) as [c0|]; [|done]. simpl in E.
    destruct (forallb (expr_ok c0) _); [|done]. injection E as <-. by apply IH.
  - assert (jt = Inner) as -> by (destruct jt; done). destruct (Expr.combine_preds _) as [| |op a b| |]; try done. simpl in Hw, E.
    destruct (cols_of catalog ql) as [cl|]; [|done]. destruct (cols_of catalog qr) as [cr|]; [|done]. simpl in E. destruct (_ && _); [|done].
    injection E as <-. checks. simpl. f_equal; auto.
  - destruct (Expr.combine_preds _) as [| |[] a b| |]; try done. simpl in Hw, E.
    destruct (cols_of catalog ql) as [cl|]; [|done]. destruct (cols_of catalog qr) as [cr|]; [|done]. simpl in E. destruct (condition_ok _ _ _ _ _ _); [|done].
    injection E as <-. checks. simpl. f_equal; auto.
  - simpl in Hw, E. checks. destruct (cols_of catalog q) as [c0|]; [|done]. simpl in E.
    destruct (bool_decide _); [|done]. by injection E as <-.
  - simpl in E. clear Hw. destruct (cols_of catalog q) as [c0|]; [|done]. simpl in E.
    destruct (_ && _); [|done]. injection E as <-. simpl. by rewrite list_to_set_app_L.
  - simpl in Hw, E. apply andb_true_iff in Hw as [[[Hi _]%andb_true_iff _]%andb_true_iff _].
    destruct (cols_of catalog q) as [c0|]; [|done]. simpl in E.
    destruct (forallb (expr_ok c0) _); [|done]. injection E as <-. rewrite map_fst_physical, (IH c0) by done. done.
  - simpl in Hw, E. apply andb_true_iff in Hw as [[[Hs _]%andb_true_iff _]%andb_true_iff Ha%bool_decide_eq_true].
    destruct (cols_of catalog q) as [c0|]; [|done]. simpl in E.
    destruct (_ && _); [|done]. injection E as <-. simpl. by rewrite Ha, (IH c0).
Qed.

(** Without joins the rows come in the same order. *)
Lemma ordered_ok p q rows :
  join_free p = true → candidate catalog p q → lsem tbl p = Some rows → sem tbl q = Some rows.
Proof.
  intros Hj Hc. revert rows Hj. induction Hc as [cid name cols| | | | |src q preds Hq IH| | |src q cols Hq IH| |src q gb aggrs Hq IH|
    input q exprs Hq IH| |src q m Hq IH]; intros rows Hj E; try done; simpl in Hj, E |- *.
  - destruct (lsem tbl src) as [rs|]; [|done]. rewrite (IH rs Hj eq_refl). simpl in *. by rewrite selects_physical.
  - destruct (lsem tbl src) as [rs|]; [|done]. by rewrite (IH rs Hj eq_refl).
  - destruct (lsem tbl src) as [rs|]; [|done]. by rewrite (IH rs Hj eq_refl).
  - destruct (lsem tbl input) as [rs|]; [|done]. rewrite (IH rs Hj eq_refl). simpl in *.
    destruct (exprs_physical exprs) as [E1 E2]. rewrite E1, <-E. apply mapM_ext. intros ρ. by rewrite E2.
  - destruct (lsem tbl src) as [rs|]; [|done]. by rewrite (IH rs Hj eq_refl).
Qed.

(** ** Join conditions *)

Definition simple (e : Expression PhysicalRelExpr) : bool := match e with ColRef _ | EField _ => true | _ => false end.

Lemma simple_value (ρ : row) e : simple e = true → Expr.free e ⊆ dom ρ → eval_row ρ e = Some (default Null (eval_row ρ e)).
Proof.
  destruct e as [id|v| | |]; try done; intros _ Hf.
  assert (id ∈ dom ρ) as [v Hv]%elem_of_dom by (apply Hf; simpl; set_solver).
  unfold eval_row. simpl. by rewrite Hv.
Qed.

(** The condition of the physical join holds where the predicates hold. *)
Lemma condition_truth A B es (ρ : row) :
  forallb (pred_in A B) es = true → A ⊆ dom ρ → bools_in B ρ →
  truth ρ (Expr.combine_preds (map pexpr es)) = Some (all_true_in es ρ).
Proof.
  intros Hes HA HB. unfold truth, eval_row. rewrite (combine_preds_ok _ _ (all_true_in es ρ)); [done|].
  exists (map (true_in ρ) es). split.
  - induction es as [|e es IH]; [constructor|]. simpl in Hes. apply andb_true_iff in Hes as [He Hes]. constructor; [|by apply IH].
    pose proof (pred_truth A B ρ e He HA HB) as Ht. unfold truth, eval_row in Ht. rewrite eval_physical.
    destruct (eval_expr _ e) as [[]|]; try done. simpl in Ht. by injection Ht as ->.
  - unfold all_true_in. clear. induction es as [|e es IH]; [done|]. simpl. by rewrite IH.
Qed.

(** A condition that passes the check compares two columns or literals. *)
Lemma condition_simple A B es op a b :
  forallb (pred_in A B) es = true → Expr.combine_preds (map pexpr es) = Binary op a b → comparison_op op = true →
  simple a = true ∧ simple b = true.
Proof.
  intros Hes E Hop. destruct es as [|e [|e' es]]; simpl in E.
  - by injection E as <- <- <-.
  - simpl in Hes. apply andb_true_iff in Hes as [[Hb _]%andb_true_iff _].
    destruct e as [| |o x y| |]; try done. simpl in E. injection E as -> <- <-.
    assert (operand x && operand y = true) as [Hx Hy]%andb_true_iff by (destruct op; done).
    by destruct x, y.
  - by injection E as <- <- <-.
Qed.

Lemma eval_side (x : Expression PhysicalRelExpr) A (ρ ρ' : row) :
  expr_ok A x = true → (∀ id, id ∈ A → ρ !! id = ρ' !! id) → eval_row ρ x = eval_row ρ' x.
Proof.
  intros [_ Hf%bool_decide_eq_true]%andb_true_iff Hag. unfold eval_row. f_equal. apply eval_expr_free. auto.
Qed.

Lemma truth_eq (ρ : row) (a b : Expression PhysicalRelExpr) va vb :
  eval_row ρ a = Some va → eval_row ρ b = Some vb → truth ρ (Binary OpEq a b) = Some (bool_decide (va = vb)).
Proof. intros Ha Hb. rewrite truth_comparison by done. by rewrite Ha, Hb. Qed.

(** A hash join of permuted inputs gives the pairs of the inputs that satisfy the condition. *)
Lemma hash_rows_ok (lp : PhysicalRelExpr) a b (L R : list row) cl cr (g : row → bool) :
  Forall (λ ρ, dom ρ = cl) L → Forall (λ ρ, dom ρ = cr) R → cl ## cr →
  simple a = true → simple b = true → condition_ok lp cl cr OpEq a b = true →
  (∀ ρl ρr, ρl ∈ L → ρr ∈ R → truth (both ρl ρr) (Binary OpEq a b) = Some (g (both ρl ρr))) →
  let '(x, y) := left_key lp a b in
  ∃ kl rows, keyed_rows x L = Some kl ∧ equi_rows kl y R = Some rows ∧ rows ≡ₚ List.filter g (sem_product L R).
Proof.
  intros HL HR Hd Ha Hb Hc Hg. unfold left_key.
  assert (∃ x y, (if Expr.intersect_with a lp then (a, b) else (b, a)) = (x, y) ∧ simple x = true ∧ simple y = true ∧
    expr_ok cl x = true ∧ expr_ok cr y = true ∧ ((x = a ∧ y = b) ∨ (x = b ∧ y = a))) as (x & y & -> & Hx & Hy & Ox & Oy & Hxy).
  { apply andb_true_iff in Hc as [_ Hc]. destruct (Expr.intersect_with a lp).
    - apply andb_true_iff in Hc as [? ?]. exists a, b. split_and!; auto.
    - apply andb_true_iff in Hc as [? ?]. exists b, a. split_and!; auto. }
  destruct (equi_filter x y (λ ρ, default Null (eval_row ρ x)) (λ ρ, default Null (eval_row ρ y)) L R) as (kl & rows & Ek & Er & Hp).
  { eapply Forall_impl; [exact HL|]. intros ρ Dρ. apply simple_value; [done|]. rewrite Dρ.
    by apply andb_true_iff in Ox as [_ ?%bool_decide_eq_true]. }
  { eapply Forall_impl; [exact HR|]. intros ρ Dρ. apply simple_value; [done|]. rewrite Dρ.
    by apply andb_true_iff in Oy as [_ ?%bool_decide_eq_true]. }
  exists kl, rows. split; [done|]. split; [done|]. apply Hp. intros ρl ρr Hl Hr.
  rewrite Forall_forall in HL, HR. pose proof (HL _ Hl) as Dl. pose proof (HR _ Hr) as Dr.
  assert (eval_row (both ρl ρr) x = Some (default Null (eval_row ρl x))) as Ex.
  { rewrite (eval_side x cl (both ρl ρr) ρl Ox); [|intros id Hid; apply both_left; rewrite Dr; set_solver].
    apply simple_value; [done|]. rewrite Dl. by apply andb_true_iff in Ox as [_ ?%bool_decide_eq_true]. }
  assert (eval_row (both ρl ρr) y = Some (default Null (eval_row ρr y))) as Ey.
  { rewrite (eval_side y cr (both ρl ρr) ρr Oy); [|intros id Hid; apply both_right; by rewrite Dr].
    apply simple_value; [done|]. rewrite Dr. by apply andb_true_iff in Oy as [_ ?%bool_decide_eq_true]. }
  pose proof (Hg ρl ρr Hl Hr) as Ht. destruct Hxy as [[-> ->]|[-> ->]].
  - rewrite (truth_eq _ _ _ _ _ Ex Ey) in Ht. congruence.
  - rewrite (truth_eq _ _ _ _ _ Ey Ex) in Ht. injection Ht as <-. apply bool_decide_ext. naive_solver.
Qed.

Lemma join_physical_ok jt l r preds q c L R :
  wf (LJoin jt l r preds) = true → candidate catalog (LJoin jt l r preds) q → cols_of catalog q = Some c →
  lsem tbl l = Some L → lsem tbl r = Some R →
  (∀ ql cl, candidate catalog l ql → cols_of catalog ql = Some cl → ∃ L', sem tbl ql = Some L' ∧ L' ≡ₚ L) →
  (∀ qr cr, candidate catalog r qr → cols_of catalog qr = Some cr → ∃ R', sem tbl qr = Some R' ∧ R' ≡ₚ R) →
  ∃ rows', sem tbl q = Some rows' ∧ rows' ≡ₚ List.filter (all_true_in preds) (sem_product L R).
Proof.
  intros Hw Hq Hc EL ER HsL HsR.
  apply (join_cols _ _ _ _ _ _ Hq) in Hc as (-> & ql & qr & op & a & b & cl & cr & Ep & Hql & Hqr & El & Er & Hcond & _ & Hshape).
  destruct (HsL ql cl Hql El) as (L' & EL' & HL), (HsR qr cr Hqr Er) as (R' & ER' & HR).
  simpl in Hw. apply andb_true_iff in Hw as [[[Hl Hr]%andb_true_iff Hd%bool_decide_eq_true]%andb_true_iff Hes].
  apply (cols_att l) in El; [|done..]. apply (cols_att r) in Er; [|done..]. subst cl cr.
  pose proof (product_typed tbl l r L R Hl Hr Hd EL ER) as Hty. rewrite <-(product_perm L' L R' R HL HR) in Hty.
  assert (∀ ρl ρr, ρl ∈ L' → ρr ∈ R' → truth (both ρl ρr) (Binary op a b) = Some (all_true_in preds (both ρl ρr))) as Ht.
  { intros ρl ρr Hil Hir. rewrite <-Ep. rewrite Forall_forall in Hty. destruct (Hty (both ρl ρr)) as [? ?]; [|by eapply condition_truth].
    apply list_elem_of_bind. exists ρl. split; [|done]. apply list_elem_of_fmap. by exists ρr. }
  cut (∃ rows', sem tbl q = Some rows' ∧ rows' ≡ₚ List.filter (all_true_in preds) (sem_product L' R')).
  { intros (rows' & ? & Hp). exists rows'. split; [done|]. rewrite Hp. by apply filter_perm, product_perm. }
  destruct Hshape as [->|[-> ->]].
  - exists (List.filter (all_true_in preds) (sem_product L' R')). split; [|done].
    cbn [sem]. rewrite EL', ER'. by apply theta_filter.
  - cbn [sem]. rewrite EL', ER'. simpl mbind.
    pose proof (lsem_ok tbl l L Hl EL) as FL. pose proof (lsem_ok tbl r R Hr ER) as FR. rewrite <-HL in FL. rewrite <-HR in FR.
    destruct (condition_simple _ _ _ _ _ _ Hes Ep) as [Sa Sb]; [done|].
    pose proof (hash_rows_ok ql a b L' R' (Log.att l) (Log.att r) (all_true_in preds)) as Hh.
    destruct (left_key ql a b) as [x y].
    destruct Hh as (kl & rows & Ek & Ee & Hp); try done.
    { eapply Forall_impl; [exact FL|]. by intros ρ []. } { eapply Forall_impl; [exact FR|]. by intros ρ []. }
    exists rows. rewrite Ek. simpl. by rewrite Ee.
Qed.

Lemma condition_candidates l ql ql' cl cr op a b :
  candidate catalog l ql → candidate catalog l ql' → condition_ok ql cl cr op a b = condition_ok ql' cl cr op a b.
Proof.
  intros H1 H2. unfold condition_ok, Expr.intersect_with. cbn [plan_att Phys_plan].
  by rewrite (candidate_att l ql H1), (candidate_att l ql' H2).
Qed.

Lemma join_candidate_cols jt l r preds q c :
  wf (LJoin jt l r preds) = true → candidate catalog (LJoin jt l r preds) q →
  cols_of catalog (to_physical_plan (LJoin jt l r preds)) = Some c →
  (∀ ql cl, candidate catalog l ql → cols_of catalog (to_physical_plan l) = Some cl → cols_of catalog ql = Some cl) →
  (∀ qr cr, candidate catalog r qr → cols_of catalog (to_physical_plan r) = Some cr → cols_of catalog qr = Some cr) →
  cols_of catalog q = Some c.
Proof.
  intros Hw Hq Hc Hl Hr. pose proof (physical_candidate (LJoin jt l r preds)) as Hp.
  destruct (join_cols _ _ _ _ _ _ Hp Hc) as (-> & pl & pr & op & a & b & cl & cr & Ep & Hpl & Hpr & El & Er & Hcond & -> & Hshape).
  assert (pl = to_physical_plan l ∧ pr = to_physical_plan r) as [-> ->].
  { cbn [to_physical_plan] in Hshape. destruct (_ && _); destruct Hshape as [Hs|[_ Hs]]; by simplify_eq. }
  simpl in Hw. apply andb_true_iff in Hw as [[[Wl Wr]%andb_true_iff Hd%bool_decide_eq_true]%andb_true_iff _].
  pose proof (cols_att l _ cl Wl Hpl El) as Al. pose proof (cols_att r _ cr Wr Hpr Er) as Ar.
  inversion Hq as [| | | | | |? ? ? ql qr ? Cl Cr|? ? ql qr ? Cl Cr He| | | | | |]; subst; rewrite Ep in *;
    [|destruct op; try done]; cbn [cols_of]; rewrite (Hl ql _ Cl El), (Hr qr _ Cr Er);
    cbn [mbind option_bind]; rewrite (condition_candidates l ql _ _ _ _ _ _ Cl Hpl), Hcond, ?bool_decide_true by done; done.
Qed.

(** All candidates pass the check if the structural translation does. *)
Lemma candidate_cols p q c :
  wf p = true → candidate catalog p q → cols_of catalog (to_physical_plan p) = Some c → cols_of catalog q = Some c.
Proof.
  revert q c. induction p as [cid name cols| | | |src IH preds|jt l IHl r IHr preds|src IH cols| |src IH gb aggrs|input IH exprs| |src IH m];
    intros q c Hw Hq E; try done.
  3: { assert (wf l = true ∧ wf r = true) as [Wl Wr]. { simpl in Hw. destruct jt; try done; by checks. }
       apply (join_candidate_cols jt l r preds); auto. }
  all: inversion Hq as [| | | | | | | | | | | | |]; subst; try done; rename q0 into q; cbn [to_physical_plan cols_of] in E |- *.
  all: match type of E with context [cols_of catalog (to_physical_plan ?x)] =>
      destruct (cols_of catalog (to_physical_plan x)) as [c0|]; [|done]; rewrite (IH q c0); try done;
      simpl in Hw; repeat (apply andb_true_iff in Hw as [Hw _]); done end.
Qed.

Lemma candidate_ok p q c rows :
  wf p = true → aggregates_ordered p = true → candidate catalog p q → cols_of catalog q = Some c → lsem tbl p = Some rows →
  ∃ rows', sem tbl q = Some rows' ∧ rows' ≡ₚ rows.
Proof.
  revert q c rows. induction p as [cid name cols| | | |src IH preds|jt l IHl r IHr preds|src IH cols| |src IH gb aggrs|input IH exprs| |src IH m];
    intros q c rows Hw Ha Hq Hc E; try done; try (inversion Hq; subst; rename q0 into q).
  - exists rows. by inversion Hq.
  - simpl in Hw, Ha, Hc. apply andb_true_iff in Hw as [Hs Hp].
    destruct (cols_of catalog q) as [c0|] eqn:Ec; [|done].
    assert (∃ rs, lsem tbl src = Some rs) as [rs Er] by (simpl in E; destruct (lsem tbl src) as [rs|]; [by exists rs|done]).
    pose proof (ss_sem _ _ _ _ (lselect_spec tbl src preds Hs Hp) rs Er) as E'. rewrite E in E'. injection E' as ->.
    destruct (IH q c0 rs) as (rs' & E' & Hrs); try done. simpl. rewrite E'. simpl. rewrite selects_physical.
    exists (List.filter (all_true_in preds) rs'). split; [|by apply filter_perm].
    apply (selects_ok _ _ _ _ Hp). rewrite Hrs. apply rows_typed. by apply (lsem_ok tbl).
  - assert (joinable jt && wf l && wf r && bool_decide (Log.att l ## Log.att r) && forallb (pred_on l r) preds = true) as Hw'
      by (simpl in Hw; destruct jt; done).
    apply andb_true_iff in Hw' as [[[[Hj Hl]%andb_true_iff Hr]%andb_true_iff Hd%bool_decide_eq_true]%andb_true_iff Hp].
    simpl in Ha. apply andb_true_iff in Ha as [Hal Har].
    assert (∃ L R, lsem tbl l = Some L ∧ lsem tbl r = Some R) as (L & R & EL & ER).
    { simpl in E. destruct jt; try done; (destruct (lsem tbl l) as [L|]; [|done]; destruct (lsem tbl r) as [R|]; [by exists L, R|done]). }
    pose proof (js_sem _ _ _ _ _ (ljoin_spec tbl jt l r preds Hj Hl Hr Hd Hp) L R EL ER) as E'. rewrite E in E'. injection E' as ->.
    apply (join_physical_ok jt l r preds q c L R); try done; [intros ql cl Hql El; by apply (IHl ql cl)|intros qr cr Hqr Er; by apply (IHr qr cr)].
  - simpl in Hw, Ha, Hc, E. apply andb_true_iff in Hw as [Hs _]. destruct (cols_of catalog q) as [c0|] eqn:Ec; [|done].
    destruct (lsem tbl src) as [rs|] eqn:Er; [|done]. destruct (IH q c0 rs) as (rs' & E' & Hrs); try done.
    simpl. rewrite E'. by apply (mapM_perm _ rs rs').
  - exists rows. split; [|done]. by apply (ordered_ok (LAggregate src gb aggrs)).
  - simpl in Hw, Ha, Hc, E. apply andb_true_iff in Hw as [[[Hi _]%andb_true_iff _]%andb_true_iff _].
    destruct (cols_of catalog q) as [c0|] eqn:Ec; [|done].
    destruct (lsem tbl input) as [rs|] eqn:Er; [|done]. destruct (IH q c0 rs) as (rs' & E' & Hrs); try done.
    simpl. rewrite E'. simpl in E |- *. destruct (mapM_perm _ rs rs' rows (symmetry Hrs) E) as (k & Ek & Hk). exists k. split; [|done].
    rewrite <-Ek. destruct (exprs_physical exprs) as [E1 E2]. rewrite E1. apply mapM_ext. intros ρ. by rewrite E2.
  - simpl in Hw, Ha, Hc, E. apply andb_true_iff in Hw as [[[Hs _]%andb_true_iff _]%andb_true_iff _].
    destruct (cols_of catalog q) as [c0|] eqn:Ec; [|done].
    destruct (lsem tbl src) as [rs|] eqn:Er; [|done]. injection E as <-. destruct (IH q c0 rs) as (rs' & E' & Hrs); try done.
    simpl. rewrite E'. eexists. split; [done|]. by apply Permutation_map.
Qed.
End Physical.

(** ** From logical plans to tuples *)

(** The plan the constructors build means what the plan without rewrites means. *)
Lemma query_plan_ok `{TupleCodec} tbl rules fuel g p es exprs cols p1 p2 p3 rows :
  wf p = true → forallb (pred_ok p) es = true → wf (LMap p exprs) = true → list_to_set cols ⊆ Log.att (LMap p exprs) →
  lsem tbl (LProject (LMap (LSelect p es) exprs) cols) = Some rows →
  Build.select rules true p es = Ret p1 → (height p1 ≤ fuel)%nat →
  Build.map rules fuel true g p1 exprs = Ret (g, p2) → (height p2 ≤ fuel)%nat → fresh_renames p2 = true →
  Build.project rules fuel true g p2 cols false = Ret (g, p3) →
  wf p3 = true ∧ Log.att p3 = list_to_set cols ∧ lsem tbl p3 = Some rows.
Proof.
  intros Hw Hes Hm Hcols Hrows E1 H1 E2 H2 Hf E3.
  destruct (select_ok tbl rules true p es Hw Hes) as (p1' & E1' & [W1 A1 B1 S1]). rewrite E1 in E1'. injection E1' as <-.
  pose proof Hm as (_ & Hnd & Hdis & Hex)%wf_map.
  assert (wf (LMap p1 exprs) = true) as Hm1 by (apply wf_map; rewrite A1; done).
  destruct (map_ok tbl rules fuel true g p1 exprs H1 Hm1) as (p2' & E2' & [W2 A2 S2]). rewrite E2 in E2'. injection E2' as <-.
  assert (Log.att p2 = Log.att (LMap p exprs)) as A2' by (rewrite A2, A1; done).
  destruct (lproject_build_ok tbl rules fuel true g p2 cols H2 W2 Hf) as (p3' & E3' & [W3 A3 _ _ _ S3]); [by rewrite A2'|].
  rewrite E3 in E3'. injection E3' as <-. split_and!; [done|done|].
  assert (∃ rs, lsem tbl p = Some rs) as [rs Ers].
  { cbn [lsem] in Hrows. destruct (lsem tbl p) as [rs|]; [by exists rs|done]. }
  assert (lsem tbl (LSelect p es) = lsem tbl p1) as Esel.
  { rewrite (S1 rs Ers). by apply (ss_sem _ _ _ _ (lselect_spec tbl p es Hw Hes)). }
  assert (∃ rs', lsem tbl (LMap (LSelect p es) exprs) = Some rs') as [rs' Ers'].
  { assert (∀ q, lsem tbl q = None → lsem tbl (LProject q cols) = None) as HN by (intros q Hq; cbn [lsem]; by rewrite Hq).
    destruct (lsem tbl (LMap (LSelect p es) exprs)) as [rs'|] eqn:En; [by exists rs'|]. by rewrite (HN _ En) in Hrows. }
  assert (lsem tbl (LMap p1 exprs) = Some rs') as Emap by (rewrite <-Ers'; cbn [lsem]; by rewrite <-Esel).
  rewrite (S3 rs' (S2 rs' Emap)), <-Hrows. symmetry. apply lproject_sem; [|done|done].
  apply wf_map. split_and!; try done. simpl. by rewrite Hw, Hes.
Qed.
