(* ===== verification/OptimizerCorrect.v ===== *)
(** * The optimizer is correct, and optimal for its cost model

    The memo stores the logical plan it was built from. Resolving its root returns, for any
    cost model that returns, one of the candidates for the plan, so that the chosen plan means
    the rows of the query; and for a cost model that is monotone in the costs of the children
    no candidate is cheaper. *)

From stdpp Require Import strings gmap sorting.
From S2P Require Import Prelude Common Ordering Field FieldContract Tuple ByteCode Expr.
From S2P Require Import ExprCorrect OpIterator OpBasic OpJoin OpAggregate.
From S2P Require Import DbCatalog PhysicalPlan StorageSpec OpMutate OpDyn PlanToOp PlanSem.
From S2P Require Import PlanRel PlanCorrect Executor LogicalSem.
From S2P Require Import Logical Optimizer LogicalCorrect LogicalProject.
From S2P Require Import LogicalPhysical.

Open Scope Z_scope.

(** ** The memo stores the plan *)

Definition index_alternative (catalog : option Catalog) (cid : Z) (cols : list Z) (ix : Z) (kvs : list LExpr) :
  option ScanSelectAlt := catalog ← catalog; Memo.scan_select_alternative catalog cid cols ix kvs.

(** The nodes [ns] have [p] at position [gid], its parts at smaller positions. *)
Fixpoint shows (catalog : option Catalog) (ns : list LogicalNode) (gid : nat) (p : LogicalRelExpr) : Prop :=
  match p with
  | LScan cid name cols => ns !! gid = Some (NScan cid name cols)
  | LIndexScan cid name cols ix kvs =>
      ns !! gid = Some (NIndexScan cid name cols ix kvs (index_alternative catalog cid cols ix kvs))
  | LDelete _ _ | LUpdate _ _ _ => ns !! gid = Some (NOpaque p)
  | LSelect src preds => ∃ i, (i < gid)%nat ∧ ns !! gid = Some (NSelect i preds) ∧ shows catalog ns i src
  | LJoin jt l r preds =>
      ∃ i j, (i < gid)%nat ∧ (j < gid)%nat ∧ ns !! gid = Some (NJoin jt i j preds) ∧
        shows catalog ns i l ∧ shows catalog ns j r
  | LProject src cols => ∃ i, (i < gid)%nat ∧ ns !! gid = Some (NProject i cols) ∧ shows catalog ns i src
  | LOrderBy src cols => ∃ i, (i < gid)%nat ∧ ns !! gid = Some (NOrderBy i cols) ∧ shows catalog ns i src
  | LAggregate src gb aggrs => ∃ i, (i < gid)%nat ∧ ns !! gid = Some (NAggregate i gb aggrs) ∧ shows catalog ns i src
  | LMap input exprs => ∃ i, (i < gid)%nat ∧ ns !! gid = Some (NMap i exprs) ∧ shows catalog ns i input
  | LFlatMap input func =>
      ∃ i j, (i < gid)%nat ∧ (j < gid)%nat ∧ ns !! gid = Some (NFlatMap i j) ∧
        shows catalog ns i input ∧ shows catalog ns j func
  | LRename src m => ∃ i, (i < gid)%nat ∧ ns !! gid = Some (NRename i m) ∧ shows catalog ns i src
  end.

Lemma shows_app catalog ns ns' gid p : shows catalog ns gid p → shows catalog (ns ++ ns') gid p.
Proof.
  assert (∀ i n, ns !! i = Some n → (ns ++ ns') !! i = Some n) as Happ by (intros; by apply lookup_app_l_Some).
  revert gid. induction p; intros gid; simpl; try (by apply Happ).
  all: try (intros (i & Hi & E & Hs); exists i; by auto).
  all: intros (i & j & Hi & Hj & E & Hs & Ht); exists i, j; by auto 6.
Qed.

Section Memo.
Context {C E : Type} `{PlanCostEstimator C E}.
Implicit Type m : MemoGroups C.

Definition unresolved m : Prop := Forall (λ g, winner g = None) m.

(** Adding a plan appends its nodes, unresolved, its root last. *)
Definition added m m' (gid : nat) (catalog : option Catalog) (p : LogicalRelExpr) : Prop :=
  ∃ new, m' = m ++ new ∧ unresolved new ∧ length m' = S gid ∧ shows catalog (node <$> m') gid p.

Lemma new_group_added catalog m m1 n p :
  (∃ new, m1 = m ++ new ∧ unresolved new) →
  (∀ m2, node <$> m2 = (node <$> m1) ++ [n] → shows catalog (node <$> m2) (length m1) p) →
  let '(m', gid) := Memo.new_group m1 n in added m m' gid catalog p.
Proof.
  intros (new & -> & Hnew) Hp. cbn [Memo.new_group]. exists (new ++ [mkGroup n None]). split; [by rewrite app_assoc|]. split.
  - apply Forall_app. by split; [|repeat constructor].
  - split; [rewrite length_app; simpl; lia|]. apply Hp. by rewrite !fmap_app.
Qed.

Lemma node_at (m1 m2 : MemoGroups C) n : node <$> m2 = (node <$> m1) ++ [n] → (node <$> m2) !! length m1 = Some n.
Proof. intros ->. rewrite lookup_app_r by (by rewrite length_fmap). by rewrite length_fmap, Nat.sub_diag. Qed.

Lemma shows_before catalog (m1 m2 : MemoGroups C) n i p :
  node <$> m2 = (node <$> m1) ++ [n] → shows catalog (node <$> m1) i p → shows catalog (node <$> m2) i p.
Proof. intros ->. apply shows_app. Qed.

#[local] Hint Resolve node_at shows_before : core.

Lemma added_refl m m1 i catalog p : added m m1 i catalog p → ∃ new, m1 = m ++ new ∧ unresolved new.
Proof. intros (new & ? & ? & _). by exists new. Qed.

Lemma added_trans m m1 i catalog p m2 j q :
  added m m1 i catalog p → added m1 m2 j catalog q →
  (∃ new, m2 = m ++ new ∧ unresolved new) ∧ (i < length m2)%nat ∧ shows catalog (node <$> m2) i p.
Proof.
  intros (n1 & -> & H1 & Hl & Hs) (n2 & -> & H2 & Hl2 & _). split.
  - exists (n1 ++ n2). split; [by rewrite app_assoc|]. by apply Forall_app.
  - split; [rewrite length_app; lia|]. rewrite fmap_app. by apply shows_app.
Qed.

Lemma add_group_added m p catalog :
  let '(m', gid) := Memo.add_group_inner m p catalog in added m m' gid catalog p.
Proof.
  assert (∀ m : MemoGroups C, ∃ new, m = m ++ new ∧ unresolved new) as Hrefl by (intros; exists []; split; [by rewrite app_nil_r|constructor]).
  revert m. induction p as [| | | |p IH preds|jt p1 IH1 p2 IH2 preds|p IH cols|p IH cols|p IH gb aggrs|p IH exprs|p1 IH1 p2 IH2|p IH r]; intros m;
    cbn [Memo.add_group_inner]; try (apply new_group_added; [done|intros; by apply node_at]).
  2,7: (specialize (IH1 m); destruct (Memo.add_group_inner m p1 catalog) as [m1 i];
    specialize (IH2 m1); destruct (Memo.add_group_inner m1 p2 catalog) as [m2 j];
    destruct (added_trans _ _ _ _ _ _ _ _ IH1 IH2) as (Hnew & Hi & Hs); destruct IH2 as (n2 & E2 & _ & Hl2 & Hs2);
    apply new_group_added; [exact Hnew|intros m3 E3; exists i, j; split_and!; [lia|lia|eauto..]]).
  all: specialize (IH m); destruct (Memo.add_group_inner m p catalog) as [m1 i]; destruct IH as (new & E1 & Hu & Hl & Hs);
    apply new_group_added; [by exists new|intros m3 E3; exists i; split_and!; [lia|eauto..]].
Qed.

(** Reconstruction gives the plan back. *)
Lemma reconstruct_ok catalog m fuel gid p :
  shows catalog (node <$> m) gid p → (gid < fuel)%nat → Memo.reconstruct_logical fuel m gid = Ret p.
Proof.
  assert (∀ i n, (node <$> m) !! i = Some n → ∃ g, m !! i = Some g ∧ node g = n) as Hat.
  { intros i n. rewrite list_lookup_fmap. destruct (m !! i) as [g|]; [|done]. intros [= <-]. by exists g. }
  revert fuel gid. induction p; intros [|fuel] gid Hs Hf; try lia; simpl in Hs;
    repeat match goal with Hx : ∃ _, _ |- _ => destruct Hx | Hx : _ ∧ _ |- _ => destruct Hx end;
    match goal with Hn : (node <$> m) !! _ = Some _ |- _ => destruct (Hat _ _ Hn) as (g & Eg & En) end;
    cbn [Memo.reconstruct_logical]; rewrite Eg; cbn [unwrap mbind outcome_bind]; rewrite En; try done;
    repeat match goal with IHx : ∀ fuel gid, shows _ _ gid ?q → _, Hx : shows _ _ ?i ?q |- _ =>
      rewrite (IHx fuel i Hx) by lia; clear IHx end; done.
Qed.

Lemma shows_functional catalog m gid p p' :
  shows catalog (node <$> m) gid p → shows catalog (node <$> m) gid p' → p = p'.
Proof.
  intros H1 H2. pose proof (reconstruct_ok catalog m (S gid) gid p H1) as E1.
  rewrite (reconstruct_ok catalog m (S gid) gid p' H2) in E1 by lia. by injection (E1 (Nat.lt_succ_diag_r _)).
Qed.
End Memo.

(** ** Priced candidates *)

Section Costs.
Context {C E : Type} `{PlanCostEstimator C E} (catalog : Catalog) (env : E).
Implicit Type m : MemoGroups C.

Abbreviation cexprs := (map (λ '(cid, e), (cid, pexpr e))).

(** [priced p q c]: [q] is a candidate for [p] and [c] what the cost model makes of it, from
    the costs of its parts. *)
Inductive priced : LogicalRelExpr → PhysicalRelExpr → C → Prop :=
  | pr_scan cid name cols c :
      cost_of (PScan cid name cols None) [] env = Ret c → priced (LScan cid name cols) (PScan cid name cols None) c
  | pr_index_only cid name cols ix kvs c :
      Memo.scan_select_alternative catalog cid cols ix kvs = None →
      cost_of (PIndexScan cid name cols ix (map pexpr kvs) None) [] env = Ret c →
      priced (LIndexScan cid name cols ix kvs) (PIndexScan cid name cols ix (map pexpr kvs) None) c
  | pr_index cid name cols ix kvs alt c :
      Memo.scan_select_alternative catalog cid cols ix kvs = Some alt →
      cost_of_index_probe cid (map pexpr (raw_predicates alt)) env = Ret c →
      priced (LIndexScan cid name cols ix kvs) (PIndexScan cid name cols ix (map pexpr kvs) None) c
  | pr_full_scan cid name cols ix kvs alt c :
      Memo.scan_select_alternative catalog cid cols ix kvs = Some alt →
      cost_of_full_scan_with_filter (E := E) cid (map pexpr (raw_predicates alt)) = Ret c →
      priced (LIndexScan cid name cols ix kvs)
        (PSelect (PScan cid name (plan_columns alt) None) (map pexpr (plan_predicates alt)) None) c
  | pr_delete t src c :
      cost_of (to_physical_plan (LDelete t src)) [] env = Ret c →
      priced (LDelete t src) (to_physical_plan (LDelete t src)) c
  | pr_update t src asgs c :
      cost_of (to_physical_plan (LUpdate t src asgs)) [] env = Ret c →
      priced (LUpdate t src asgs) (to_physical_plan (LUpdate t src asgs)) c
  | pr_select src preds q c c' :
      priced src q c → cost_of (PSelect q (map pexpr preds) None) [c] env = Ret c' →
      priced (LSelect src preds) (PSelect q (map pexpr preds) None) c'
  | pr_nested jt l r preds ql qr cl cr c :
      priced l ql cl → priced r qr cr →
      cost_of (PNestedLoopJoin jt ql qr [Expr.combine_preds (map pexpr preds)] None) [cl; cr] env = Ret c →
      priced (LJoin jt l r preds) (PNestedLoopJoin jt ql qr [Expr.combine_preds (map pexpr preds)] None) c
  | pr_hash l r preds ql qr cl cr c :
      priced l ql cl → priced r qr cr → is_eq (Expr.combine_preds (map pexpr preds)) = true →
      cost_of (PHashJoin Inner ql qr [Expr.combine_preds (map pexpr preds)] None) [cl; cr] env = Ret c →
      priced (LJoin Inner l r preds) (PHashJoin Inner ql qr [Expr.combine_preds (map pexpr preds)] None) c
  | pr_project src cols q c c' :
      priced src q c → cost_of (PProject q cols None) [c] env = Ret c' → priced (LProject src cols) (PProject q cols None) c'
  | pr_order src cols q c c' :
      priced src q c → cost_of (PSort q cols None) [c] env = Ret c' → priced (LOrderBy src cols) (PSort q cols None) c'
  | pr_aggregate src gb aggrs q c c' :
      priced src q c → cost_of (PHashAggregate q gb aggrs None) [c] env = Ret c' →
      priced (LAggregate src gb aggrs) (PHashAggregate q gb aggrs None) c'
  | pr_map input exprs q c c' :
      priced input q c → cost_of (PMap q (cexprs exprs) None) [c] env = Ret c' →
      priced (LMap input exprs) (PMap q (cexprs exprs) None) c'
  | pr_flatmap input func qi qf ci cf c :
      priced input qi ci → priced func qf cf → cost_of (PFlatMap qi qf None) [ci; cf] env = Ret c →
      priced (LFlatMap input func) (PFlatMap qi qf None) c
  | pr_rename src r q c c' :
      priced src q c → cost_of (PRename q r None) [c] env = Ret c' → priced (LRename src r) (PRename q r None) c'.

Lemma priced_candidate p q c : priced p q c → candidate catalog p q.
Proof. induction 1; eauto. Qed.

(** The cost model returns on what the optimizer asks it for [p]. *)
Fixpoint costs_return (p : LogicalRelExpr) : Prop :=
  match p with
  | LIndexScan cid name cols ix kvs =>
      match Memo.scan_select_alternative catalog cid cols ix kvs with
      | Some alt =>
          (∃ c, cost_of_index_probe cid (map pexpr (raw_predicates alt)) env = Ret c) ∧
          (∃ c, cost_of_full_scan_with_filter (E := E) cid (map pexpr (raw_predicates alt)) = Ret c)
      | None => ∃ c, cost_of (PIndexScan cid name cols ix (map pexpr kvs) None) [] env = Ret c
      end
  | _ => ∀ q cs, candidate catalog p q → ∃ c, cost_of q cs env = Ret c
  end ∧
  match p with
  | LSelect src _ | LProject src _ | LOrderBy src _ | LAggregate src _ _ | LMap src _ | LRename src _ => costs_return src
  | LJoin _ l r _ | LFlatMap l r => costs_return l ∧ costs_return r
  | _ => True
  end.

Lemma costs_always_return :
  (∀ q cs, ∃ c, cost_of q cs env = Ret c) → (∀ cid es, ∃ c, cost_of_index_probe cid es env = Ret c) →
  (∀ cid es, ∃ c, cost_of_full_scan_with_filter (E := E) cid es = Ret c) → ∀ p, costs_return p.
Proof.
  intros Hc Hi Hs p. induction p; cbn [costs_return]; split; try done; try (by intros; apply Hc).
  destruct (Memo.scan_select_alternative _ _ _ _ _); [by split; [apply Hi|apply Hs]|apply Hc].
Qed.

(** ** Monotone cost models *)

Definition cost_le (a b : C) : Prop := cost_lt b a = false.

Inductive unary_node : (PhysicalRelExpr → PhysicalRelExpr) → Prop :=
  | un_select preds : unary_node (λ q, PSelect q preds None)
  | un_project cols : unary_node (λ q, PProject q cols None)
  | un_sort cols : unary_node (λ q, PSort q cols None)
  | un_aggregate gb aggrs : unary_node (λ q, PHashAggregate q gb aggrs None)
  | un_map exprs : unary_node (λ q, PMap q exprs None)
  | un_rename r : unary_node (λ q, PRename q r None).
Inductive binary_node : (PhysicalRelExpr → PhysicalRelExpr → PhysicalRelExpr) → Prop :=
  | bin_nested jt preds : binary_node (λ l r, PNestedLoopJoin jt l r preds None)
  | bin_hash jt preds : binary_node (λ l r, PHashJoin jt l r preds None)
  | bin_flatmap : binary_node (λ l r, PFlatMap l r None).
#[local] Hint Constructors unary_node binary_node : core.

(** Two candidates for the same plan. *)
Definition variants (q q' : PhysicalRelExpr) : Prop := ∃ p, candidate catalog p q ∧ candidate catalog p q'.

(** Costs are a total preorder, and a node over cheaper variants of its parts is not more
    expensive. *)
Record costs_monotone : Prop := {
  cm_total a b : cost_le a b ∨ cost_le b a;
  cm_trans a b c : cost_le a b → cost_le b c → cost_le a c;
  cm_unary K q q' a a' b b' :
    unary_node K → variants q q' → cost_le a a' →
    cost_of (K q) [a] env = Ret b → cost_of (K q') [a'] env = Ret b' → cost_le b b';
  cm_binary K l l' r r' al al' ar ar' b b' :
    binary_node K → variants l l' → variants r r' → cost_le al al' → cost_le ar ar' →
    cost_of (K l r) [al; ar] env = Ret b → cost_of (K l' r') [al'; ar'] env = Ret b' → cost_le b b'
}.

Lemma cost_le_refl a : costs_monotone → cost_le a a.
Proof. intros Hm. by destruct (cm_total Hm a a). Qed.

(** No candidate for [p] is cheaper than [c]. *)
Definition cheapest (p : LogicalRelExpr) (c : C) : Prop := ∀ q c', priced p q c' → cost_le c c'.

(** What a resolved group promises of the plan it shows. *)
Definition good (p : LogicalRelExpr) (w : PhysicalRelExpr * C) : Prop :=
  priced p w.1 w.2 ∧ (costs_monotone → cheapest p w.2).

(** ** Scoring *)

(** The price of a candidate of a node over its resolved parts. *)
Definition price (child_costs : list C) (x : PhysicalRelExpr * option C) (c : C) : Prop :=
  match x.2 with Some c' => c = c' | None => cost_of x.1 child_costs env = Ret c end.

(** [w] is one of the candidates with its price, and none is cheaper. *)
Definition chosen (child_costs : list C) (cands : list (PhysicalRelExpr * option C)) (w : PhysicalRelExpr * C) : Prop :=
  (∃ x, x ∈ cands ∧ w.1 = x.1 ∧ price child_costs x w.2) ∧
  (costs_monotone → ∀ x c, x ∈ cands → price child_costs x c → cost_le w.2 c).

Lemma price_functional child_costs x c c' : price child_costs x c → price child_costs x c' → c = c'.
Proof. unfold price. destruct x.2; congruence. Qed.

Lemma chosen_step child_costs seen q pre c best :
  price child_costs (q, pre) c → (if best is Some b then chosen child_costs seen b else seen = []) →
  let better := match best with Some (_, best_cost) => cost_lt c best_cost | None => true end in
  ∃ b, (if better then Some (q, c) else best) = Some b ∧ chosen child_costs (seen ++ [(q, pre)]) b.
Proof.
  intros Hc Hbest. destruct best as [[qb cb]|]; simpl.
  - destruct Hbest as [(x & Hx & Ex & Hp) Hmin]. simpl in Ex, Hp. destruct (cost_lt c cb) eqn:Elt.
    + exists (q, c). split; [done|]. split; [exists (q, pre); split; [rewrite elem_of_app; right; by left|done]|].
      intros Hm y d [Hy|Hy%list_elem_of_singleton]%elem_of_app Hd; simpl.
      * apply (cm_trans Hm _ cb); [|by apply (Hmin Hm y)]. destruct (cm_total Hm c cb) as [|Hle]; [done|]. unfold cost_le in Hle. congruence.
      * subst y. rewrite (price_functional _ _ _ _ Hc Hd). by apply cost_le_refl.
    + exists (qb, cb). split; [done|]. split; [exists x; split; [rewrite elem_of_app; by left|done]|].
      intros Hm y d [Hy|Hy%list_elem_of_singleton]%elem_of_app Hd; simpl; [by apply (Hmin Hm y)|].
      subst y. by rewrite <-(price_functional _ _ _ _ Hc Hd).
  - subst seen. exists (q, c). split; [done|]. split; [exists (q, pre); split; [by left|done]|].
    intros Hm y d Hy%list_elem_of_singleton Hd. subst y. rewrite (price_functional _ _ _ _ Hc Hd). by apply cost_le_refl.
Qed.

(** The candidates that have no price yet get one. *)
Definition scored (child_costs : list C) (cands : list (PhysicalRelExpr * option C)) : Prop :=
  ∀ q, (q, None) ∈ cands → ∃ c, cost_of q child_costs env = Ret c.

Lemma best_candidate_ok child_costs cands seen best :
  (if best is Some b then chosen child_costs seen b else seen = []) → seen ++ cands ≠ [] → scored child_costs cands →
  ∃ w, Memo.best_candidate env child_costs best cands = Ret (Some w) ∧ chosen child_costs (seen ++ cands) w.
Proof.
  revert seen best. induction cands as [|[q pre] cands IH]; intros seen best Hbest Hne Hret.
  - rewrite app_nil_r in *. destruct best as [b|]; [|done]. by exists b.
  - assert (∃ c, match pre with Some c => Ret c | None => cost_of q child_costs env end = Ret c ∧ price child_costs (q, pre) c) as (c & Ec & Hc).
    { destruct pre as [c|]; [by exists c|]. destruct (Hret q) as [c Ec]; [by left|]. by exists c. }
    cbn [Memo.best_candidate]. rewrite Ec. cbn [mbind outcome_bind].
    destruct (chosen_step child_costs seen q pre c best Hc Hbest) as (b & -> & Hb).
    destruct (IH (seen ++ [(q, pre)]) (Some b) Hb) as (w & Ew & Hw); [by destruct seen|intros q' Hq'; apply Hret; by right|].
    exists w. split; [done|]. by rewrite <-app_assoc in Hw.
Qed.

(** ** Resolving *)

Definition sound m : Prop :=
  ∀ gid g w p, m !! gid = Some g → winner g = Some w → shows (Some catalog) (node <$> m) gid p → good p w.

Lemma unresolved_sound m : unresolved m → sound m.
Proof. intros Hu gid g w p Eg Ew _. rewrite (Forall_lookup_1 _ _ _ _ Hu Eg) in Ew. done. Qed.

Lemma set_winner_nodes m gid w : node <$> Memo.set_winner m gid w = node <$> m.
Proof.
  apply list_eq. intros i. unfold Memo.set_winner. rewrite !list_lookup_fmap.
  destruct (decide (i = gid)) as [->|Hne]; [rewrite list_lookup_alter_eq|by rewrite list_lookup_alter_ne by done].
  by destruct (m !! gid).
Qed.

Lemma set_winner_sound m gid w p :
  sound m → shows (Some catalog) (node <$> m) gid p → good p w → sound (Memo.set_winner m gid w).
Proof.
  intros Hm Hp Hw i g w' p' Eg Ew Hs. rewrite set_winner_nodes in Hs. unfold Memo.set_winner in Eg.
  destruct (decide (i = gid)) as [->|Hne].
  - rewrite list_lookup_alter_eq in Eg. destruct (m !! gid) as [g0|]; [|done]. injection Eg as <-. injection Ew as <-.
    by rewrite <-(shows_functional _ _ _ _ _ Hp Hs).
  - rewrite list_lookup_alter_ne in Eg by done. by apply (Hm i g).
Qed.

(** The cheapest candidate of a node over good parts is good. *)
Lemma unary_good K src p q c w :
  unary_node K → good src (q, c) →
  (∀ q' c', priced p q' c' ↔ ∃ q0 c0, q' = K q0 ∧ priced src q0 c0 ∧ cost_of (K q0) [c0] env = Ret c') →
  chosen [c] [(K q, None)] w → good p w.
Proof.
  intros HK [Hq Hmin] Hp [(x & ->%list_elem_of_singleton & Ex & Hc) _]. simpl in *. split.
  - apply Hp. exists q, c. by rewrite Ex.
  - intros Hm q' c' (q0 & c0 & -> & H0 & E0)%Hp. eapply (cm_unary Hm K q q0 c c0); try done.
    + exists src. eauto using priced_candidate.
    + by apply (Hmin Hm q0).
Qed.

Lemma binary_good K l r p ql cl qr cr w :
  binary_node K → good l (ql, cl) → good r (qr, cr) →
  (∀ q' c', priced p q' c' ↔ ∃ q1 c1 q2 c2, q' = K q1 q2 ∧ priced l q1 c1 ∧ priced r q2 c2 ∧ cost_of (K q1 q2) [c1; c2] env = Ret c') →
  chosen [cl; cr] [(K ql qr, None)] w → good p w.
Proof.
  intros HK [Hl Hminl] [Hr Hminr] Hp [(x & ->%list_elem_of_singleton & Ex & Hc) _]. simpl in *. split.
  - apply Hp. exists ql, cl, qr, cr. by rewrite Ex.
  - intros Hm q' c' (q1 & c1 & q2 & c2 & -> & H1 & H2 & E0)%Hp. eapply (cm_binary Hm K ql q1 qr q2 cl c1 cr c2); try done.
    + exists l. eauto using priced_candidate. + exists r. eauto using priced_candidate.
    + by apply (Hminl Hm q1). + by apply (Hminr Hm q2).
Qed.

Lemma priced_join jt l r preds q c :
  priced (LJoin jt l r preds) q c ↔
    ∃ K ql cl qr cr, binary_node K ∧ (K ql qr, None) ∈ Memo.join_candidates (C := C) jt ql qr preds ∧ q = K ql qr ∧
      (∀ ql qr, (K ql qr, None) ∈ Memo.join_candidates (C := C) jt ql qr preds) ∧
      priced l ql cl ∧ priced r qr cr ∧ cost_of (K ql qr) [cl; cr] env = Ret c.
Proof.
  split.
  - inversion 1; subst.
    + eexists (λ l r, PNestedLoopJoin jt l r [Expr.combine_preds (map pexpr preds)] None), _, _, _, _. split; [constructor|]. split; [by left|].
      split; [done|]. split; [intros; by left|done].
    + eexists (λ l r, PHashJoin Inner l r [Expr.combine_preds (map pexpr preds)] None), _, _, _, _. split; [constructor|].
      split; [|split; [done|split; [intros|done]]]; unfold Memo.join_candidates; cbn zeta;
        (rewrite bool_decide_true by done); match goal with He : is_eq _ = true |- _ => rewrite He end; right; by left.
  - intros (K & ql & cl & qr & cr & _ & Hin & -> & _ & Hl & Hr & Hc). unfold Memo.join_candidates in Hin. cbn zeta in Hin.
    apply elem_of_cons in Hin as [Ek|Hin].
    + injection Ek as Ek. rewrite Ek in *. by econstructor.
    + destruct (bool_decide (jt = Inner)) eqn:Ej; [|by apply elem_of_nil in Hin]. apply bool_decide_eq_true in Ej as ->.
      simpl in Hin. destruct (is_eq _) eqn:Eq; [|by apply elem_of_nil in Hin]. apply list_elem_of_singleton in Hin.
      injection Hin as Ek. rewrite Ek in *. by econstructor.
Qed.

Lemma join_candidate jt l r preds ql qr q x :
  (q, x) ∈ Memo.join_candidates (C := C) jt ql qr preds → candidate catalog l ql → candidate catalog r qr →
  candidate catalog (LJoin jt l r preds) q.
Proof.
  unfold Memo.join_candidates. cbn zeta. intros [Ek|Hin]%elem_of_cons Hl Hr; [simplify_eq; by constructor|].
  destruct (bool_decide (jt = Inner)) eqn:Ej; [|by apply elem_of_nil in Hin]. apply bool_decide_eq_true in Ej as ->.
  simpl in Hin. destruct (is_eq _) eqn:Eq; [|by apply elem_of_nil in Hin]. apply list_elem_of_singleton in Hin. simplify_eq. by constructor.
Qed.

Lemma join_good jt l r preds ql cl qr cr w :
  good l (ql, cl) → good r (qr, cr) → scored [cl; cr] (Memo.join_candidates jt ql qr preds) →
  chosen [cl; cr] (Memo.join_candidates jt ql qr preds) w → good (LJoin jt l r preds) w.
Proof.
  intros [Hl Hminl] [Hr Hminr] Hret [(x & Hx & Ex & Hc) Hmin]. simpl in *. split.
  - unfold Memo.join_candidates in Hx. cbn zeta in Hx. apply elem_of_cons in Hx as [->|Hx]; [rewrite Ex; simpl in *; by econstructor|].
    destruct (bool_decide (jt = Inner)) eqn:Ej; [|by apply elem_of_nil in Hx]. apply bool_decide_eq_true in Ej as ->.
    simpl in Hx. destruct (is_eq _) eqn:Eq; [|by apply elem_of_nil in Hx]. apply list_elem_of_singleton in Hx as ->.
    rewrite Ex. simpl in *. by econstructor.
  - intros Hm q' c' (K & q1 & c1 & q2 & c2 & HK & _ & -> & Hall & H1 & H2 & E0)%priced_join.
    destruct (Hret (K ql qr)) as [c Ec]; [apply Hall|]. apply (cm_trans Hm _ c).
    + by apply (Hmin Hm (K ql qr, None)); [apply Hall|].
    + eapply (cm_binary Hm K ql q1 qr q2 cl c1 cr c2); try done.
      * exists l. eauto using priced_candidate. * exists r. eauto using priced_candidate.
      * by apply (Hminl Hm q1). * by apply (Hminr Hm q2).
Qed.

Lemma leaf_good p q w :
  (∀ q' c', priced p q' c' ↔ q' = q ∧ cost_of q [] env = Ret c') → chosen [] [(q, None)] w → good p w.
Proof.
  intros Hp [(x & ->%list_elem_of_singleton & Ex & Hc) _]. simpl in *. split; [apply Hp; by rewrite Ex|].
  intros Hm q' c' [_ Hc']%Hp. rewrite Hc in Hc'. injection Hc' as ->. by apply cost_le_refl.
Qed.

Lemma index_good cid name cols ix kvs :
  costs_return (LIndexScan cid name cols ix kvs) →
  ∃ cands, Memo.index_candidates env cid name cols ix kvs (index_alternative (Some catalog) cid cols ix kvs) = Ret cands ∧ cands ≠ [] ∧
    scored [] cands ∧ ∀ w, chosen [] cands w → good (LIndexScan cid name cols ix kvs) w.
Proof.
  intros [Hret _]. cbn [costs_return] in Hret. unfold Memo.index_candidates, index_alternative. simpl.
  destruct (Memo.scan_select_alternative catalog cid cols ix kvs) as [alt|] eqn:Ea.
  - destruct Hret as [[ci Ei] [cs Es]].
    rewrite Ei, Es. cbn [mbind outcome_bind]. eexists. split; [done|]. split; [done|].
    split; [intros q; rewrite !elem_of_cons, elem_of_nil; naive_solver|]. intros w [(x & Hx & Ex & Hc) Hmin].
    split.
    + apply elem_of_cons in Hx as [-> | ->%list_elem_of_singleton]; rewrite Ex; unfold price in Hc; cbn [fst snd] in Hc |- *; rewrite Hc; [by apply (pr_index _ _ _ _ _ alt)|by apply pr_full_scan].
    + intros Hm q c Hp. inversion Hp; subst; rewrite Ea in *; simplify_eq.
      * apply (Hmin Hm (PIndexScan cid name cols ix (map pexpr kvs) None, Some ci)); [by left|]. simpl. congruence.
      * apply (Hmin Hm (PSelect (PScan cid name (plan_columns alt0) None) (map pexpr (plan_predicates alt0)) None, Some cs)); [right; by left|].
        simpl. congruence.
  - eexists. split; [done|]. split; [done|].
    split; [intros q [= ->]%list_elem_of_singleton; exact Hret|]. intros w. apply leaf_good.
    intros q' c'. split; [|intros [-> ?]; by apply pr_index_only]. inversion 1; subst; by simplify_eq.
Qed.

(** Choosing the winner of a group. *)
Lemma choose_winner_ok m m1 gid p child_costs cands :
  node <$> m1 = node <$> m → sound m1 → shows (Some catalog) (node <$> m) gid p → cands ≠ [] → scored child_costs cands →
  (∀ w, chosen child_costs cands w → good p w) →
  ∃ m' w, (best ← Memo.best_candidate env child_costs None cands; w ← unwrap best; Ret (Memo.set_winner m1 gid w, w)) = Ret (m', w) ∧
    node <$> m' = node <$> m ∧ sound m' ∧ good p w.
Proof.
  intros En Hs Hp Hne Hret Hg. destruct (best_candidate_ok child_costs cands [] None eq_refl Hne Hret) as (w & -> & Hw).
  cbn [mbind outcome_bind unwrap]. exists (Memo.set_winner m1 gid w), w. split; [done|]. split; [by rewrite set_winner_nodes|].
  split; [|by apply Hg]. apply (set_winner_sound m1 gid w p); [done|by rewrite En|by apply Hg].
Qed.

#[local] Ltac by_unary K :=
  eapply (unary_good K); [constructor|eassumption|]; intros q' c'; split;
  [inversion 1; subst; eauto 10|intros (? & ? & -> & ? & ?); by econstructor].

Lemma resolve_ok fuel m gid p :
  sound m → shows (Some catalog) (node <$> m) gid p → (gid < fuel)%nat → costs_return p →
  ∃ m' w, Memo.resolve_costed fuel m gid env = Ret (m', w) ∧ node <$> m' = node <$> m ∧ sound m' ∧ good p w.
Proof.
  revert m gid p. induction fuel as [|fuel IH]; intros m gid p Hm Hs Hf Hret; [lia|].
  assert (∃ g, m !! gid = Some g) as [g Eg].
  { destruct (m !! gid) as [g|] eqn:Eg; [by exists g|]. assert ((node <$> m) !! gid = None) as En by (by rewrite list_lookup_fmap, Eg).
    destruct p; simpl in Hs; rewrite En in Hs; naive_solver. }
  cbn [Memo.resolve_costed]. rewrite Eg. cbn [unwrap mbind outcome_bind].
  destruct (winner g) as [w|] eqn:Ew; [exists m, w; split_and!; try done; by apply (Hm gid g)|].
  assert (∀ n, (node <$> m) !! gid = Some n → node g = n) as Hn by (intros n; rewrite list_lookup_fmap, Eg; by intros [= <-]).
  assert (∀ i q, (i < gid)%nat → shows (Some catalog) (node <$> m) i q → costs_return q → ∃ m1 w1, Memo.resolve_costed fuel m i env = Ret (m1, w1) ∧
    node <$> m1 = node <$> m ∧ sound m1 ∧ good q w1) as IH1 by (intros i q Hi Hq Hr; apply IH; [done|done|lia|done]).
  destruct p as [| | | |src preds|jt l r preds|src cols|src cols|src gb aggrs|input exprs|l r|src rn]; pose proof Hs as Hs0; cbn [shows] in Hs.
  6: { destruct Hret as [Hret [Rl Rr]]. destruct Hs as (i & j & Hi & Hj & En & Hl & Hr). rewrite (Hn _ En).
    destruct (IH1 i l Hi Hl Rl) as (m1 & [ql cl] & -> & En1 & Hm1 & Gl). cbn [mbind outcome_bind].
    destruct (IH m1 j r) as (m2 & [qr cr] & -> & En2 & Hm2 & Gr); [done|by rewrite En1|lia|done|]. cbn [mbind outcome_bind].
    assert (scored [cl; cr] (Memo.join_candidates jt ql qr preds)) as Hsc.
    { intros q Hq. apply Hret. eapply join_candidate; [exact Hq|exact (priced_candidate _ _ _ (proj1 Gl))|exact (priced_candidate _ _ _ (proj1 Gr))]. }
    apply (choose_winner_ok m m2 gid (LJoin jt l r preds)); [congruence|done|done|done|done|]. intros w. by apply join_good. }
  10: { destruct Hret as [Hret [Rl Rr]]. destruct Hs as (i & j & Hi & Hj & En & Hl & Hr). rewrite (Hn _ En).
    destruct (IH1 i l Hi Hl Rl) as (m1 & [ql cl] & -> & En1 & Hm1 & Gl). cbn [mbind outcome_bind].
    destruct (IH m1 j r) as (m2 & [qr cr] & -> & En2 & Hm2 & Gr); [done|by rewrite En1|lia|done|]. cbn [mbind outcome_bind].
    assert (scored [cl; cr] [(PFlatMap ql qr None, None)]) as Hsc.
    { intros q [= ->]%list_elem_of_singleton. apply Hret. constructor; [exact (priced_candidate _ _ _ (proj1 Gl))|exact (priced_candidate _ _ _ (proj1 Gr))]. }
    apply (choose_winner_ok m m2 gid (LFlatMap l r)); [congruence|done|done|done|done|]. intros w.
    apply (binary_good (λ l r, PFlatMap l r None) l r); [constructor|done|done|].
    intros q' c'. split; [inversion 1; subst; eauto 10|]. intros (? & ? & ? & ? & -> & ? & ? & ?). by econstructor. }
  2: { rewrite (Hn _ Hs). destruct (index_good cid table_name column_names index_id key_values Hret) as (cands & -> & Hne & Hsc & Hg).
    by apply (choose_winner_ok m m gid (LIndexScan cid table_name column_names index_id key_values)). }
  1-3: destruct Hret as [Hret _]; rewrite (Hn _ Hs); apply (choose_winner_ok m m gid _ [] _ eq_refl Hm Hs0); [done| |];
    [intros q [= ->]%list_elem_of_singleton; apply Hret; constructor|]; intros w; apply leaf_good;
    intros q' c'; (split; [by inversion 1|intros [-> ?]; by constructor]).
  all: destruct Hret as [Hret Rsrc]; destruct Hs as (i & Hi & En & Hsrc); rewrite (Hn _ En);
    destruct (IH1 i _ Hi Hsrc Rsrc) as (m1 & [q c] & -> & En1 & Hm1 & G1); cbn [mbind outcome_bind];
    eapply (choose_winner_ok m m1 gid); [done|done|exact Hs0|done| |];
    [intros q' [= ->]%list_elem_of_singleton; apply Hret; constructor; exact (priced_candidate _ _ _ (proj1 G1))|]; intros w.
  - by_unary (λ q, PSelect q (map pexpr preds) None).
  - by_unary (λ q, PProject q cols None).
  - by_unary (λ q, PSort q cols None).
  - by_unary (λ q, PHashAggregate q gb aggrs None).
  - by_unary (λ q, PMap q (cexprs exprs) None).
  - by_unary (λ q, PRename q rn None).
Qed.

(** The optimizer returns a priced candidate, the cheapest for a monotone cost model. *)
Lemma optimize_ok p :
  costs_return p → ∃ q c, CascadesOptimizer.optimize catalog p env = Ret q ∧ good p (q, c).
Proof.
  intros Hret. unfold CascadesOptimizer.optimize, Memo.add_group_from_plan_with_catalog.
  pose proof (add_group_added (C := C) Memo.new p (Some catalog)) as Ha. destruct (Memo.add_group_inner Memo.new p (Some catalog)) as [m gid].
  destruct Ha as (new & -> & Hu & _ & Hs). destruct (resolve_ok (S gid) (Memo.new ++ new) gid p) as (m' & [q c] & -> & _ & _ & Hg).
  - by apply unresolved_sound.
  - done.
  - lia.
  - done.
  - by exists q, c.
Qed.

(** It panics on a selection whose price the model panics on. *)
Lemma optimize_select_panics src preds :
  costs_return src → (∀ q c, candidate catalog src q → cost_of (PSelect q (map pexpr preds) None) [c] env = Panic) →
  CascadesOptimizer.optimize catalog (LSelect src preds) env = Panic.
Proof.
  intros Hret Hpanic. unfold CascadesOptimizer.optimize, Memo.add_group_from_plan_with_catalog. cbn [Memo.add_group_inner].
  pose proof (add_group_added (C := C) Memo.new src (Some catalog)) as Ha. destruct (Memo.add_group_inner Memo.new src (Some catalog)) as [m i].
  destruct Ha as (new & -> & Hu & Hl & Hs). cbn [Memo.new_group Memo.resolve_costed]. rewrite list_lookup_middle by done.
  cbn [unwrap mbind outcome_bind winner node]. set (m1 := (Memo.new ++ new) ++ [_]).
  destruct (resolve_ok (length (Memo.new ++ new)) m1 i src) as (m' & [q c] & -> & _ & _ & Hg).
  - apply unresolved_sound, Forall_app. split; [done|by repeat constructor].
  - unfold m1. rewrite fmap_app. by apply shows_app.
  - lia.
  - done.
  - cbn [mbind outcome_bind Memo.best_candidate]. by rewrite (Hpanic q c) by exact (priced_candidate _ _ _ (proj1 Hg)).
Qed.
End Costs.

(** C23: The optimizer is optimal for its cost model. When the model returns and is monotone
    (costs are totally preordered, and a node over cheaper variants of its inputs is not more
    expensive), the chosen plan is one of the candidates for the query (join algorithms, and
    index scans against full scans), with its price, and no candidate has a lower price. *)
Theorem optimizer_cheapest `{PlanCostEstimator C E} (catalog : Catalog) (env : E) (p : LogicalRelExpr) :
  costs_return catalog env p → costs_monotone catalog env →
  ∃ q c, CascadesOptimizer.optimize catalog p env = Ret q ∧ priced catalog env p q c ∧
    ∀ q' c', priced catalog env p q' c' → cost_le c c'.
Proof.
  intros Hr Hm. destruct (optimize_ok catalog env p Hr) as (q & c & Hq & Hp & Hmin). exists q, c.
  split; [done|]. split; [done|]. intros q' c' Hq'. by apply (Hmin Hm q').
Qed.

(** A memo stores the plan it was built from, and resolving a group without a cost model
    gives the structural translation. *)
Lemma memo_structural {C E} `{PlanCostEstimator C E} catalog (p : LogicalRelExpr) :
  let '(m, gid) := Memo.add_group_inner (C := C) Memo.new p catalog in
  Memo.reconstruct_logical (S gid) m gid = Ret p ∧
  ∃ m', Memo.logical_to_physical m gid = Ret m' ∧ Memo.get_best_group_binding m' gid = Ret (to_physical_plan p).
Proof.
  pose proof (add_group_added (C := C) Memo.new p catalog) as Ha. destruct (Memo.add_group_inner Memo.new p catalog) as [m gid].
  destruct Ha as (new & E1 & _ & Hl & Hs). pose proof (reconstruct_ok catalog m (S gid) gid p Hs (Nat.lt_succ_diag_r _)) as Er.
  split; [done|]. unfold Memo.logical_to_physical. rewrite Er. cbn [mbind outcome_bind]. eexists. split; [done|].
  unfold Memo.get_best_group_binding, Memo.set_winner. rewrite list_lookup_alter_eq.
  destruct (m !! gid) eqn:Eg; [done|]. apply lookup_ge_None in Eg. lia.
Qed.

(** ** From queries to tuples *)

Section Pipeline.
Context {SM : Type} {scan : ScanTrait SM} {tbl : Z → option (list item)} {scan_laws : ScanLaws SM tbl}.
Context `{StorageTrait SM} `{IndexTrait SM} `{StateTracker SM} {codec : TupleCodec} `{PlanCostEstimator C E}.
Context (format_date : Z → list byte) (print_subquery : PhysicalRelExpr → Z → list byte) (catalog : Catalog).

(** C8: From a query to the tuples of its answer. The translator builds the plan of
    [SELECT ... FROM ... WHERE ...] by adding the selection, the computed columns and the
    projection to the plan of the FROM clause, each optimizing with any rules enabled. The
    optimizer chooses a physical plan with any cost model that returns, which is planned and
    run. The static checks: the plan of the FROM clause, also with the computed columns, is
    well formed, the predicates are boolean whatever the values of the columns, renamings are
    to columns that do not occur below, the projection is of columns of the plan, aggregations
    list their columns in order, the bound of the recursion is at least the height of the
    plans, and the structural physical plan can be planned with the scans the storage manager
    can have at once. When they pass and the query has a meaning, the optimizer returns, and
    the run of the plan it chose ends with the rows the query means, each once, in some order,
    and with no scan left running. *)
Theorem logical_query_correct (env : E) rules fuel g p es exprs cols p1 p2 p3 (c : gset Z) rows (transaction_id : Z) :
  wf p = true → forallb (pred_ok p) es = true → wf (LMap p exprs) = true → list_to_set cols ⊆ Log.att (LMap p exprs) →
  lsem tbl (LProject (LMap (LSelect p es) exprs) cols) = Some rows →
  Build.select rules true p es = Ret p1 → (height p1 ≤ fuel)%nat →
  Build.map rules fuel true g p1 exprs = Ret (g, p2) → (height p2 ≤ fuel)%nat → fresh_renames p2 = true →
  Build.project rules fuel true g p2 cols false = Ret (g, p3) → aggregates_ordered p3 = true →
  cols_of catalog (to_physical_plan p3) = Some c → sc_fits (S (scans (to_physical_plan p3))) → costs_return catalog env p3 →
  ∃ plan k0 m schema ts answer, CascadesOptimizer.optimize catalog p3 env = Ret plan ∧
    dom m = list_to_set cols ∧ answer ≡ₚ rows ∧ Forall2 (represents m (Schema.size schema)) answer ts ∧
    ∀ k s e, (k0 ≤ k)%nat → sc_view s [] →
    ∃ s', run_physical_plan format_date print_subquery catalog k s e (Ok transaction_id) plan =
        Ret (s', mkExecutor None, Ok (Select schema ts None)) ∧ sc_view s' [].
Proof.
  intros Hw Hes Hm Hcols Hrows E1 Hh1 E2 Hh2 Hf E3 Ha Hc Hfit Hcost.
  destruct (query_plan_ok tbl rules fuel g p es exprs cols p1 p2 p3 rows) as (W3 & A3 & S3); try done.
  destruct (optimize_ok catalog env p3 Hcost) as (plan & cost & Hplan & Hcand%priced_candidate & _).
  rewrite <-(candidate_scans catalog p3 plan) in Hfit by done. apply (candidate_cols catalog p3 plan) in Hc; [|done..].
  pose proof (cols_att catalog p3 plan c W3 Hcand Hc) as Ec. rewrite A3 in Ec. subst c.
  destruct (candidate_ok tbl catalog p3 _ _ _ W3 Ha Hcand Hc S3) as (answer & Eans & Hperm).
  destruct (run_plan_ok format_date print_subquery catalog _ _ _ transaction_id Hc Eans Hfit) as (k0 & m & schema & ts & Hd & HF & Hrun).
  by exists plan, k0, m, schema, ts, answer.
Qed.

(** C36: A cross join without predicates cannot be planned: [FROM a, b] becomes a nested loop
    join of type [CrossJoin], the only candidate of the optimizer, on which the planner's
    assertion fails. *)
Theorem cross_join_panics (env : E) rules optimize l r (transaction_id : Z) :
  costs_return catalog env (LJoin CrossType l r []) →
  ∃ p plan, Build.join rules optimize CrossType l r [] = Ret p ∧
    lsem tbl p = (L ← lsem tbl l; R ← lsem tbl r; Some (sem_product L R)) ∧
    CascadesOptimizer.optimize catalog p env = Ret plan ∧
    physical_plan_to_op_iterator_helper (SM := SM) format_date print_subquery catalog transaction_id plan = Panic.
Proof.
  intros Hcost. destruct (optimize_ok catalog env (LJoin CrossType l r []) Hcost) as (plan & c & Hplan & Hp%priced_candidate & _).
  exists (LJoin CrossType l r []), plan. split; [by destruct optimize|]. split; [done|]. split; [done|].
  cbn [fst] in Hp. inversion Hp; subst; reflexivity.
Qed.
End Pipeline.
