(* ===== verification/CostModel.v ===== *)
(** * The cost model

    Models [optimizer/src/cost/cardinality_cost_model.rs], the cost model of the server: the
    cost of a plan is the number of rows it is estimated to handle, from the statistics. The
    columns of a predicate are resolved to columns of tables with the environment of the
    translator.

    [log2] is the function of the platform, and [fuel] bounds the chain of origins of a
    column. Costs are [f64] numbers ([DummyCost]). The theorems say on which plans the model
    returns, so that the theorems of the optimizer apply to it, and on which it panics. *)

From stdpp Require Import strings gmap.
From S2P Require Import Prelude Common Field FieldCodec Tuple ByteCode Expr ExprCorrect.
From S2P Require Import OpAggregate PhysicalPlan DbCatalog.
From S2P Require Import Logical Translate Optimizer LogicalPhysical OptimizerCorrect.
From S2P Require Import Statistics.

Open Scope Z_scope.

(** [Vec::dedup], which removes repetitions that follow each other. *)
Fixpoint dedup (l : list Z) : list Z :=
  match l with
  | [] => []
  | a :: l' => match l' with b :: _ => if a =? b then dedup l' else a :: dedup l' | [] => [a] end
  end.

Module Cardinality.

Definition single_table_cid (node : PhysicalRelExpr) : option Z :=
  match dedup (Phys.get_tables_involved node) with [cid] => Some cid | _ => None end.

Definition RANDOM_ACCESS_PENALTY : f64 := F64.of_usize 4.
Definition zero : f64 := F64.of_usize 0.
Definition one : f64 := F64.of_usize 1.
Definition two : f64 := F64.of_usize 2.

Section Model.
Context (log2 : f64 → f64) (fuel : nat) (catalog : Catalog) (s : ReservoirStatManager).

(** A column that is not one of a table is left as it is. *)
Fixpoint resolve_to_raw (env : list Scope) (e : PExpr) : outcome PExpr :=
  match e with
  | ColRef id =>
      origin ← Env.get_origin fuel catalog env (DerivedColRef id);
      Ret (match origin with BaseCidAndIndex _ index => ColRef index | _ => e end)
  | EField _ | Subquery _ => Ret e
  | Binary op l r => l ← resolve_to_raw env l; r ← resolve_to_raw env r; Ret (Binary op l r)
  | Case ex whens els =>
      ex ← resolve_to_raw env ex;
      ws ← (fix go ws := match ws with
                         | [] => Ret []
                         | (w, t) :: ws => w ← resolve_to_raw env w; t ← resolve_to_raw env t; ws ← go ws; Ret ((w, t) :: ws)
                         end) whens;
      els ← resolve_to_raw env els;
      Ret (Case ex ws els)
  end.

Fixpoint resolve_all (env : list Scope) (es : list PExpr) : outcome (list PExpr) :=
  match es with
  | [] => Ret []
  | e :: es => e ← resolve_to_raw env e; es ← resolve_all env es; Ret (e :: es)
  end.

Definition estimate_rows (cid : Z) : outcome f64 :=
  n ← Reservoir.get_container_record_count s cid; Ret (F64.of_usize n).

(** The estimate of the statistics, or all rows when it is an error. *)
Definition matching_rows (cid : Z) (predicates : list PExpr) : outcome f64 :=
  r ← Reservoir.estimate_count_and_sel s cid predicates;
  match r with Ok (count, _) => Ret (F64.of_usize count) | Err _ => estimate_rows cid end.

Definition estimate_matching_rows (cid : Z) (predicates : list PExpr) (env : list Scope) : outcome f64 :=
  resolved ← resolve_all env predicates;
  matching_rows cid resolved.

Definition index_probe (cid : Z) (predicates : list PExpr) (env : list Scope) : outcome f64 :=
  n ← estimate_rows cid;
  matches ← matching_rows cid predicates;
  Ret (F64.add (log2 (F64.max n two)) (F64.mul matches RANDOM_ACCESS_PENALTY)).

Definition full_scan_with_filter (cid : Z) (raw_predicates : list PExpr) : outcome f64 :=
  n ← estimate_rows cid;
  r ← Reservoir.estimate_count_and_sel s cid raw_predicates;
  let matches := match r with Ok (count, _) => F64.of_usize count | Err _ => n end in
  Ret (F64.add n matches).

(** The rows of one side of a join. *)
Definition side_rows (children_total : f64) (side : PhysicalRelExpr) : outcome f64 :=
  match single_table_cid side with Some cid => estimate_rows cid | None => Ret children_total end.

Definition plan_cost (node : PhysicalRelExpr) (child_costs : list f64) (env : list Scope) : outcome f64 :=
  let children_total := foldl F64.add zero child_costs in
  own ←
    match node with
    | PScan cid _ _ _ => estimate_rows cid
    | PIndexScan cid _ _ _ _ _ =>
        n ← estimate_rows cid;
        Ret (F64.add (log2 (F64.max n two)) RANDOM_ACCESS_PENALTY)
    | PSelect src predicates _ =>
        match single_table_cid src with
        | Some cid => estimate_matching_rows cid predicates env
        | None => Ret children_total
        end
    | PNestedLoopJoin _ l r _ _ =>
        l ← side_rows children_total l; r ← side_rows children_total r;
        Ret (F64.mul l (F64.max r one))
    | PHashJoin _ l r _ _ =>
        l ← side_rows children_total l; r ← side_rows children_total r;
        Ret (F64.add l r)
    | PSortMergeJoin _ l r _ _ =>
        l ← side_rows children_total l; r ← side_rows children_total r;
        Ret (F64.add (F64.mul l (log2 (F64.max l two))) (F64.mul r (log2 (F64.max r two))))
    | _ => Ret children_total
    end;
  Ret (F64.add children_total own).

Definition model : PlanCostEstimator f64 (list Scope) := {|
  cost_lt := F64.lt;
  cost_default := zero;
  cost_of := plan_cost;
  cost_of_index_probe := index_probe;
  cost_of_full_scan_with_filter := full_scan_with_filter
|}.
End Model.
End Cardinality.

(** ** Where the model returns *)

Definition returns {A} (o : outcome A) : bool := match o with Ret _ => true | Panic => false end.

Lemma returns_Ret {A} (o : outcome A) : returns o = true ↔ ∃ x, o = Ret x.
Proof. destruct o; simpl; naive_solver. Qed.

Section Returns.
Context (log2 : f64 → f64) (fuel : nat) (catalog : Catalog) (s : ReservoirStatManager) (env : list Scope).
#[local] Instance live : PlanCostEstimator f64 (list Scope) := Cardinality.model log2 fuel catalog s.

Abbreviation registered cid := (bool_decide (is_Some (st_samples s !! cid))).

(** The tables of [p] have statistics, and the filters on single tables of the query can be
    evaluated on the sampled rows of these. *)
Fixpoint priceable (p : LogicalRelExpr) : bool :=
  match p with
  | LScan cid _ _ => registered cid
  | LIndexScan cid _ cols ix kvs =>
      registered cid &&
      match Memo.scan_select_alternative catalog cid cols ix kvs with
      | Some alt => returns (Reservoir.estimate_count_and_sel s cid (map pexpr (raw_predicates alt)))
      | None => true
      end
  | LSelect src preds =>
      priceable src &&
      match Cardinality.single_table_cid (to_physical_plan src) with
      | Some cid => returns (Cardinality.estimate_matching_rows fuel catalog s cid (map pexpr preds) env)
      | None => true
      end
  | LProject src _ | LOrderBy src _ | LAggregate src _ _ | LMap src _ | LRename src _ => priceable src
  | LJoin _ l r _ | LFlatMap l r => priceable l && priceable r
  | LDelete _ _ | LUpdate _ _ _ => forallb (λ cid, registered cid) (Phys.get_tables_involved (to_physical_plan p))
  end.

(** All candidates of a plan read the same tables. *)
Lemma candidate_tables p q : candidate catalog p q → Phys.get_tables_involved q = Phys.get_tables_involved (to_physical_plan p).
Proof.
  induction 1; try done; cbn [to_physical_plan Phys.get_tables_involved]; try congruence.
  all: destruct (bool_decide _ && _); cbn [Phys.get_tables_involved]; congruence.
Qed.

Lemma candidate_single p q :
  candidate catalog p q → Cardinality.single_table_cid q = Cardinality.single_table_cid (to_physical_plan p).
Proof. intros Hc. unfold Cardinality.single_table_cid. by rewrite (candidate_tables _ _ Hc). Qed.

Lemma registered_rows cid : registered cid = true → ∃ n, Cardinality.estimate_rows s cid = Ret n.
Proof.
  intros [c Hc]%bool_decide_eq_true. unfold Cardinality.estimate_rows, Reservoir.get_container_record_count. rewrite Hc.
  by eexists.
Qed.

Lemma dedup_in cid l : cid ∈ dedup l → cid ∈ l.
Proof.
  induction l as [|a [|b l] IH]; [done|done|]. cbn [dedup]. destruct (a =? b).
  - intros Hin%IH. by right.
  - intros [->|Hin]%elem_of_cons; [by left|right; by apply IH].
Qed.

Lemma priceable_tables p cid : priceable p = true → cid ∈ Phys.get_tables_involved (to_physical_plan p) → registered cid = true.
Proof.
  revert cid. induction p as [| |?? |? ?|p IH preds|jt p1 IH1 p2 IH2 preds|p IH cols|p IH cols|p IH gb aggrs|p IH exprs|p1 IH1 p2 IH2|p IH r];
    intros c Hp; cbn [priceable] in Hp; cbn [to_physical_plan Phys.get_tables_involved].
  1: intros ->%list_elem_of_singleton; done.
  1: apply andb_true_iff in Hp as [Hp _]; intros ->%list_elem_of_singleton; done.
  1-2: intros Hin; apply forallb_forall with (x := c) in Hp; [done|by apply list_elem_of_In].
  all: try (apply andb_true_iff in Hp as [Hp1 Hp2]); try (by apply IH).
  - destruct (bool_decide _ && _); cbn [Phys.get_tables_involved]; intros [?|?]%elem_of_app; auto.
  - intros [?|?]%elem_of_app; auto.
Qed.

Lemma side_returns p q total : priceable p = true → candidate catalog p q → ∃ n, Cardinality.side_rows s total q = Ret n.
Proof.
  intros Hp Hq. unfold Cardinality.side_rows. destruct (Cardinality.single_table_cid q) as [cid|] eqn:E; [|by eexists].
  apply registered_rows, (priceable_tables p); [done|]. rewrite <-(candidate_tables _ _ Hq). apply dedup_in.
  unfold Cardinality.single_table_cid in E. destruct (dedup _) as [|? [|]]; simplify_eq. by left.
Qed.

Lemma estimate_returns cid es :
  registered cid = true → returns (Reservoir.estimate_count_and_sel s cid es) = true → ∃ n, Cardinality.matching_rows s cid es = Ret n.
Proof.
  intros Hr [r Er]%returns_Ret. unfold Cardinality.matching_rows. rewrite Er. cbn [mbind outcome_bind].
  destruct r as [[] |]; [by eexists|by apply registered_rows].
Qed.

Lemma index_returns cid name cols ix kvs :
  priceable (LIndexScan cid name cols ix kvs) = true → costs_return catalog env (LIndexScan cid name cols ix kvs).
Proof.
  cbn [priceable costs_return]. intros [Hr Hp]%andb_true_iff. destruct (registered_rows _ Hr) as [n En]. split; [|done].
  destruct (Memo.scan_select_alternative catalog cid cols ix kvs) as [alt|].
  - destruct (estimate_returns cid _ Hr Hp) as [m Em]. apply returns_Ret in Hp as [r Er].
    cbn [cost_of_index_probe cost_of_full_scan_with_filter live Cardinality.model].
    unfold Cardinality.index_probe, Cardinality.full_scan_with_filter. rewrite En, Em, Er. split; by eexists.
  - cbn [cost_of live Cardinality.model]. unfold Cardinality.plan_cost. rewrite En. by eexists.
Qed.

(** The node of a candidate of a plan is priced when its parts can be. *)
Lemma node_returns p q cs :
  (∀ cid name cols ix kvs, p ≠ LIndexScan cid name cols ix kvs) → priceable p = true → candidate catalog p q → ∃ c, cost_of q cs env = Ret c.
Proof.
  intros Hni Hp Hq. cbn [cost_of live Cardinality.model]. unfold Cardinality.plan_cost.
  set (own := match q with PScan _ _ _ _ => _ | _ => _ end). cut (∃ x, own = Ret x); [intros [x ->]; by eexists|]. unfold own. clear own.
  destruct Hq; try (by eexists); try (exfalso; by eapply Hni); cbn [priceable] in Hp.
  - by apply registered_rows.
  - apply andb_true_iff in Hp as [_ Hp]. rewrite (candidate_single _ _ Hq). destruct (Cardinality.single_table_cid _); [|by eexists].
    by apply returns_Ret.
  - apply andb_true_iff in Hp as [Hl Hr]. destruct (side_returns _ _ (foldl F64.add Cardinality.zero cs) Hl Hq1) as [x ->].
    destruct (side_returns _ _ (foldl F64.add Cardinality.zero cs) Hr Hq2) as [y ->]. by eexists.
  - apply andb_true_iff in Hp as [Hl Hr]. destruct (side_returns _ _ (foldl F64.add Cardinality.zero cs) Hl Hq1) as [x ->].
    destruct (side_returns _ _ (foldl F64.add Cardinality.zero cs) Hr Hq2) as [y ->]. by eexists.
Qed.

(** The model returns on every plan that passes the check. *)
Lemma cardinality_returns p : priceable p = true → costs_return catalog env p.
Proof.
  induction p; intros Hp; try (by apply index_returns);
    (split; [intros q cs; apply node_returns; [done|done]|]); cbn [priceable] in Hp;
    try (apply andb_true_iff in Hp as [Hp1 Hp2]); auto.
Qed.
End Returns.

(** C14: The cost model of the server returns on every plan it is asked to price: when the
    tables of the plan have statistics and the filters of the query on single tables can be
    evaluated on the sampled rows, no candidate of the plan, nor of a part of it, makes the
    model panic. *)
Theorem cost_model_returns log2 fuel catalog s env p :
  priceable fuel catalog s env p = true → costs_return (H := Cardinality.model log2 fuel catalog s) catalog env p.
Proof. apply cardinality_returns. Qed.

(** ** Where it panics *)

(** C40: A filter on a column that is not one of a table panics. Such a column is meant to be
    left as it is, which would make the estimate worse and no more; but resolving the column of
    a derived table panics in the environment of the query, and another computed column is
    evaluated as a position in a sampled row, which is too short. *)
Theorem computed_filter_panics log2 fuel catalog s env src op id v cid :
  priceable fuel catalog s env src = true → Cardinality.single_table_cid (to_physical_plan src) = Some cid →
  match Env.get_origin fuel catalog env (DerivedColRef id) with
  | Panic => True
  | Ret (BaseCidAndIndex _ _) => False
  | Ret _ => ∃ c t ts, st_samples s !! cid = Some c ∧ samples c = t :: ts ∧ zlen (field_vals t) ≤ id
  end →
  CascadesOptimizer.optimize (H := Cardinality.model log2 fuel catalog s) catalog
    (LSelect src [Binary op (ColRef id) (EField v)]) env = Panic.
Proof.
  intros Hp Hsingle Ho. apply optimize_select_panics; [by apply cardinality_returns|]. intros q a Hq.
  cbn [cost_of Cardinality.model]. unfold Cardinality.plan_cost. rewrite (candidate_single _ _ _ Hq), Hsingle.
  unfold Cardinality.estimate_matching_rows. change (map pexpr _) with [Binary op (ColRef id) (EField v) : PExpr].
  cbn [Cardinality.resolve_all Cardinality.resolve_to_raw]. destruct (Env.get_origin _ _ _ _) as [o|]; [|done]. cbn [mbind outcome_bind].
  assert (match o with BaseCidAndIndex _ index => ColRef index | _ => ColRef id end = ColRef (P := PhysicalRelExpr) id) as -> by (by destruct o).
  assert (∃ c t ts, st_samples s !! cid = Some c ∧ samples c = t :: ts ∧ zlen (field_vals t) ≤ id) as (c & t & ts & Hc & Ht & Hid) by (by destruct o).
  unfold Cardinality.matching_rows, Reservoir.estimate_count_and_sel. cbn [Reservoir.compile].
  pose proof (convert_ok (Binary op (ColRef id) (EField v) : PExpr) None) as (bc & -> & Heval); rewrite Hc, Ht.
  cbn [Reservoir.count_matching Reservoir.all_true]. rewrite Heval. unfold eval_expr at 1, bound_cols, nth_u.
  cbn [eval_expr]. by rewrite (proj2 (Z.ltb_ge _ _) Hid), andb_false_r.
Qed.
