(* ===== verification/Server.v ===== *)
(** * The server

    Models the commands of the server ([common/src/commands.rs]): the state of a database
    ([server/src/database_state.rs]), the checks of the SQL parser wrapper
    ([server/src/sql_parser.rs]), the statements ([run_sql] and [import_csv] of
    [server/src/conductor.rs], [import_records_from_reader] of
    [queryexe/src/query/executor.rs], [common/src/util/data_reader.rs]), transactions
    ([txn_manager/src/transactions.rs]), and the dispatch of commands to databases
    ([server/src/handler.rs], [server/src/server_state.rs]).

    A database is a record; the managers, which all databases share, are a storage manager
    with its indexes and the statistics. The parser of SQL, the reader of CSV records and the
    JSON forms are libraries, and parameters; so are the calendar, the tables of Unicode, the
    logarithm and the random numbers. [fuel] bounds the translation and the run of a query,
    and [depth] the chains of origins the cost model follows. Values are left out of the
    messages of errors, which are their formats.

    A command runs to its end before the next; connections are in [Protocol.v]. Not modelled:
    threads and workers (which are given no jobs), and the containers that a database could list but never does. *)

From stdpp Require Import strings gmap.
From S2P Require Import Prelude Common StorageSpec Field FieldCodec SqlAst Tuple ByteCode Expr.
From S2P Require Import OpIterator OpAggregate.
From S2P Require Import PhysicalPlan DbCatalog OpMutate OpDyn PlanToOp Executor Mutator.
From S2P Require Import Logical Translate Optimizer Registrar Statistics CostModel.

Open Scope Z_scope.

(** ** Commands *)

Inductive SystemCommand :=
  | Create | Connect | ResetCommand | ShutdownCommand | CloseConnection | QuietMode | ShowDatabases | TestCommand | Help.

Inductive DBCommand :=
  | ExecuteSQL | RegisterQuery | RunQueryFull | RunQueryPartial | ConvertQuery | ShowTables | ShowQueries | Generate
  | Import | CommitCommand.

Inductive Command := System (c : SystemCommand) | DB (c : DBCommand).

Record CommandWithArgs := mkCommand { command : Command; args : list (list byte) }.

Inductive Response :=
  | OkResponse
  | SystemMsg (msg : list byte)
  | SystemErr (msg : list byte)
  | QueryResponse (r : QueryResult)
  | QueryExecutionError (msg : list byte)
  | ShutdownResponse (from_client : bool)
  | QuietOk
  | QuietErr.

(** The name of a command, the number of its arguments, the command and its description. *)
Definition COMMANDS : list (list byte * nat * Command * list byte) := [
  (str "h", 0%nat, System Help, str "Show this help message");
  (str "r", 1%nat, System Create, str "Create a new database");
  (str "c", 1%nat, System Connect, str "Connect to a database");
  (str "reset", 0%nat, System ResetCommand, str "Reset the server state (clears everything)");
  (str "shutdown", 0%nat, System ShutdownCommand, str "Shuts down the server");
  (str "close", 0%nat, System CloseConnection, str "Disconnect from the current database");
  (str "quiet", 0%nat, System QuietMode, str "Sets the server to quiet mode (for benchmarking)");
  (str "l", 0%nat, System ShowDatabases, str "Show the current databases");
  (str "t", 0%nat, System TestCommand, str "A no-op command for testing");
  (str "sql", 1%nat, DB ExecuteSQL, str "Execute a SQL command (no need for '\sql')");
  (str "dt", 0%nat, DB ShowTables, str "Show all tables in the current database");
  (str "dq", 0%nat, DB ShowQueries, str "Show all registered queries in the current database");
  (str "register", 2%nat, DB RegisterQuery, str "Register a query for future use (name, query)");
  (str "runFull", 1%nat, DB RunQueryFull, str "Run a registered query to a specific timestamp");
  (str "runPartial", 1%nat, DB RunQueryPartial, str "Run a registered query for the diffs of a timestamp range");
  (str "convert", 2%nat, DB ConvertQuery, str "Convert a SQL query to a JSON plan (path, query)");
  (str "generate", 2%nat, DB Generate, str "Generates a CSV file from a specified source (source target)");
  (str "i", 2%nat, DB Import, str "Import a CSV file into a specified table (path, table name)");
  (str "commit", 0%nat, DB CommitCommand, str "Commits the current transaction")].

Definition gen_help_string : list byte :=
  str "Commands:" ++ [Byte.x0a] ++
  mjoin ((λ '(name, args, _, description),
    Byte.x5c :: name ++ str (match args with 0%nat => "" | 1%nat => " <arg>" | _ => " <arg1> <arg2>" end) ++ str ": " ++
    description ++ [Byte.x0a]) <$> COMMANDS).

(** [join]. *)
Fixpoint join_with (sep : list byte) (parts : list (list byte)) : list byte :=
  match parts with
  | [] => []
  | [p] => p
  | p :: parts => p ++ sep ++ join_with sep parts
  end.

(** The text of an error, and of a transaction id for programmers. *)
Definition debug_tid (tid : Z) : list byte := str "TransactionId { id: " ++ show_int tid ++ str " }".
Definition display_error (e : CrustyError) : list byte :=
  match e with
  | ValidationError s => str "Validation Error: " ++ str s
  | ExecutionError s => str "Execution Error: " ++ str s
  | CrustyErr s => str "Crusty Error: " ++ str s
  | IOError s | SerializationError s => str s
  | TransactionNotActive => str "Transaction Not Active Error"
  | InvalidMutationError s => str "InvalidMutationError " ++ str s
  | TransactionRollback tid => str "Transaction Rolledback " ++ debug_tid tid
  | StorageError => str "Storage Error"
  | ContainerDoesNotExist => str "Container Does Not Exist"
  | InvalidOperation => str "Invalid Operation"
  end.

(** ** Transactions *)

Inductive TxnState := TxnActive | PartiallyCommitted | Committed | TxnFailed | Aborted | Terminated.
#[global] Instance TxnState_eq_dec : EqDecision TxnState.
Proof. solve_decision. Defined.

Record Transaction := mkTransaction { txn_tid : Z; txn_state : TxnState }.

Module Txn.
Definition new_from_tid (tid : Z) : Transaction := mkTransaction tid TxnActive.
Definition tid (t : Transaction) : result CrustyError Z :=
  if bool_decide (txn_state t = TxnActive) then Ok (txn_tid t) else Err TransactionNotActive.
(** The condition holds in every state: no state is both of the two. *)
Definition complete (t : Transaction) : Transaction * result CrustyError unit :=
  if negb (bool_decide (txn_state t = PartiallyCommitted)) || negb (bool_decide (txn_state t = TxnFailed))
  then (mkTransaction (txn_tid t) Terminated, Ok tt) else (t, Ok tt).
Definition commit (t : Transaction) : Transaction * result CrustyError unit :=
  complete (mkTransaction (txn_tid t) PartiallyCommitted).
Definition abort (t : Transaction) : Transaction * result CrustyError unit :=
  complete (mkTransaction (txn_tid t) TxnFailed).
End Txn.

(** ** Parsing *)

Inductive ParserResponse :=
  | SQLError
  | SQL (ast : list Statement)
  | SQLConstraintError (msg : string).

Module SQLParser.

(** The loop over the options of all columns. *)
Fixpoint inline_pks (options : list (QuotedIdent * ColumnOption)) (found : option QuotedIdent) :
  result string (option QuotedIdent) :=
  match options with
  | [] => Ok found
  | (name, PrimaryKeyOption) :: options =>
      match found with
      | Some _ => Err "Table cannot have multiple inline primary keys"
      | None => inline_pks options (Some name)
      end
  | _ :: options => inline_pks options found
  end.

Fixpoint external_pks (constraints : list TableConstraint) (has_inline_pk has_external_pk : bool) (res : list QuotedIdent) :
  result string (list QuotedIdent) :=
  match constraints with
  | [] => Ok res
  | PrimaryKeyConstraint pk_columns :: constraints =>
      if has_inline_pk then Err "Table cannot have external and inline primary keys"
      else if has_external_pk then Err "Table cannot have multiple external primary keys"
      else external_pks constraints has_inline_pk true (res ++ pk_columns)
  | _ :: constraints => external_pks constraints has_inline_pk has_external_pk res
  end.

Definition get_pks (columns : list ColumnDef) (constraints : list TableConstraint) : result string (list QuotedIdent) :=
  match inline_pks (c ← columns; (λ o, (cd_name c, o)) <$> cd_options c) None with
  | Err e => Err e
  | Ok found =>
      match external_pks constraints (bool_decide (is_Some found)) false (option_list found) with
      | Err e => Err e
      | Ok [] => Err "Table has no primary key"
      | Ok res => Ok res
      end
  end.

(** [parse] is the parser library. *)
Definition parse_sql (parse : list byte → option (list Statement)) (sql : list byte) : ParserResponse :=
  match parse sql with
  | None => SQLError
  | Some [] => SQLConstraintError "No Statement"
  | Some [SCreateTable name columns constraints] =>
      match get_pks columns constraints with
      | Ok _ => SQL [SCreateTable name columns constraints]
      | Err msg => SQLConstraintError msg
      end
  | Some [statement] => SQL [statement]
  | Some _ => SQLConstraintError "Multiple Statements not supported"
  end.
End SQLParser.

(** ** Managers *)

(** What the server calls of a storage manager and its indexes besides the query operators.
    The transaction of [create_index] is not used. *)
Class Containers (ST : Type) := {
  create_container : ST → Z → list byte → outcome (ST * result CrustyError unit);
  im_create_index : ST → Z → Z → list Z → outcome (ST * result CrustyError unit);
  sm_reset : ST → outcome (ST * result CrustyError unit);
  sm_shutdown : ST → outcome ST
}.

(** [Managers]: a storage manager with its indexes, and the statistics. *)
Record Managers (ST : Type) := mkManagers { mg_sm : ST; mg_stats : ReservoirStatManager }.
Arguments mkManagers {ST} _ _.
Arguments mg_sm {ST} _.
Arguments mg_stats {ST} _.

Section Managers.
Context {ST : Type} (random_range : nat → Z).

Definition on_store {A} (f : ST → outcome (ST * A)) (m : Managers ST) : outcome (Managers ST * A) :=
  '(s, a) ← f (mg_sm m); Ret (mkManagers s (mg_stats m), a).

#[global] Instance mg_scan `{ScanTrait ST} : ScanTrait (Managers ST) := {|
  scan_iter := scan_iter (SM := ST);
  sc_get_iterator m := sc_get_iterator (mg_sm m);
  sc_get_iterator_from m := sc_get_iterator_from (mg_sm m);
  sc_next m it := '(s, it, x) ← sc_next (mg_sm m) it; Ret (mkManagers s (mg_stats m), it, x);
  sc_drop m it := s ← sc_drop (mg_sm m) it; Ret (mkManagers s (mg_stats m))
|}.
#[global] Instance mg_storage `{StorageTrait ST} : StorageTrait (Managers ST) := {|
  st_insert_value m c v := on_store (λ s, st_insert_value s c v) m;
  st_delete_value m id := on_store (λ s, st_delete_value s id) m;
  st_update_value m v id := on_store (λ s, st_update_value s v id) m;
  st_get_value m id := on_store (λ s, st_get_value s id) m;
  st_create_table m c := on_store (λ s, st_create_table s c) m
|}.
#[global] Instance mg_index `{IndexTrait ST} : IndexTrait (Managers ST) := {|
  ix_search m i key := on_store (λ s, ix_search s i key) m;
  ix_insert_entry m i key v := on_store (λ s, ix_insert_entry s i key v) m;
  ix_delete_entry m i key v := on_store (λ s, ix_delete_entry s i key v) m
|}.
#[global] Instance mg_bulk `{BulkInsert ST} : BulkInsert (Managers ST) := {|
  insert_values m c vs := on_store (λ s, insert_values s c vs) m
|}.
#[global] Instance mg_tracker : StateTracker (Managers ST) := {|
  set_ts m c ts := mkManagers (mg_sm m) (Reservoir.set_ts (mg_stats m) c ts)
|}.
Definition mg_records : StatManager (Managers ST) := {|
  new_record m t v := '(st, r) ← Reservoir.new_record random_range (mg_stats m) t v; Ret (mkManagers (mg_sm m) st, r)
|}.

(** [Managers::reset], and [Managers::shutdown] after the statistics are saved. *)
Definition reset_managers `{Containers ST} (m : Managers ST) : outcome (Managers ST * result CrustyError unit) :=
  on_store sm_reset (mkManagers (mg_sm m) (Reservoir.reset (mg_stats m))).
Definition shutdown_managers `{Containers ST} (m : Managers ST) : outcome (Managers ST) :=
  s ← sm_shutdown (mg_sm m); Ret (mkManagers s (mg_stats m)).
End Managers.

(** ** Databases *)

Record DatabaseState := mkDatabase {
  db_id : Z;
  db_name : list byte;
  db_catalog : Catalog;
  db_col_id_gen : Z;
  query_registrar : QueryStateRegistrar;
  client_tids : gmap Z Z
}.

(** A database with what it shares: the managers, the files, the counter of transactions,
    and the executor of the running command. *)
Record World (ST : Type) `{ScanTrait ST} := mkWorld {
  w_db : DatabaseState;
  w_sm : Managers ST;
  w_files : file_system;
  w_txn : Z;
  w_executor : Executor (Managers ST)
}.
Arguments mkWorld {ST _} _ _ _ _ _.
Arguments w_db {ST _} _.
Arguments w_sm {ST _} _.
Arguments w_files {ST _} _.
Arguments w_txn {ST _} _.
Arguments w_executor {ST _} _.

Definition message (parts : list (list byte)) : QueryResult := MessageOnly (mjoin parts).

(** [Display] of the errors of the translator. *)
Definition translator_error (e : TranslatorError) : CrustyError :=
  CrustyErr (match e with
             | ColumnNotFound => "Column not found: {}"
             | TableNotFound => "Table not found: {}"
             | InvalidSQL => "Invalid SQL: {}"
             | UnsupportedSQL => "Unsupported SQL: {}"
             end).

Section Server.
Context {ST : Type} `{ScanTrait ST} `{StorageTrait ST} `{IndexTrait ST} `{BulkInsert ST} `{Containers ST} `{TupleCodec} `{Unicode}.
Context (random_range : nat → Z) (log2 : f64 → f64).
#[local] Instance records : StatManager (Managers ST) := mg_records random_range.
Context (parse : list byte → option (list Statement)).
Context (csv_records : list byte → list (option (list (list byte)))).
Context (to_json : QueryResult → list byte) (from_json : list byte → option QueryResult).
Context (parse_date : list byte → option Z) (format_date : Z → list byte).
Context (print_subquery : PhysicalRelExpr → Z → list byte) (fuel depth : nat).

Abbreviation WM := (SE (World ST) CrustyError).
Abbreviation SM := (Managers ST).

Definition get_db : WM DatabaseState := λ w, Ret (w, Ok (w_db w)).
Definition get_sm : WM SM := λ w, Ret (w, Ok (w_sm w)).
Definition set_db (f : DatabaseState → DatabaseState) : WM unit := λ w,
  Ret (mkWorld (f (w_db w)) (w_sm w) (w_files w) (w_txn w) (w_executor w), Ok tt).
Definition set_catalog (c : Catalog) : WM unit := set_db (λ db,
  mkDatabase (db_id db) (db_name db) c (db_col_id_gen db) (query_registrar db) (client_tids db)).
Definition set_registrar (r : QueryStateRegistrar) : WM unit := set_db (λ db,
  mkDatabase (db_id db) (db_name db) (db_catalog db) (db_col_id_gen db) r (client_tids db)).
(** A call of a manager. *)
Definition on_sm {A} (f : SM → outcome (SM * result CrustyError A)) : WM A := λ w,
  '(s, r) ← f (w_sm w);
  Ret (mkWorld (w_db w) s (w_files w) (w_txn w) (w_executor w), r).
Definition set_files (f : file_system → file_system) : WM unit := λ w,
  Ret (mkWorld (w_db w) (w_sm w) (f (w_files w)) (w_txn w) (w_executor w), Ok tt).
Definition get_files : WM file_system := λ w, Ret (w, Ok (w_files w)).
(** [TransactionId::new]. *)
Definition new_txn : WM Z := λ w,
  let '(n, tid) := next_txn (w_txn w) in
  Ret (mkWorld (w_db w) (w_sm w) (w_files w) n (w_executor w), Ok tid).

(** [Catalog::get_table_id], which gives an unknown name an id. *)
Definition get_table_id (name : list byte) : WM Z :=
  db ← get_db;
  '(c, id) ← lift (Cat.get_table_id (db_catalog db) name);
  _ ← set_catalog c;
  mret id.

Definition attributes_of (pks : list QuotedIdent) (columns : list ColumnDef) : result CrustyError (list Attribute) :=
  foldr (λ col rest,
           match get_attr (cd_data_type col), rest with
           | Ok dtype, Ok atts =>
               Ok (mkAttribute (id_value (cd_name col)) dtype (if bool_decide (cd_name col ∈ pks) then PrimaryKey else CNone) :: atts)
           | Err e, _ => Err e
           | _, Err e => Err e
           end) (Ok []) columns.

Definition create_table (table_name : list byte) (columns : list ColumnDef) (constraints : list TableConstraint) : WM QueryResult :=
  table_id ← get_table_id table_name;
  pks ← try_ (match SQLParser.get_pks columns constraints with Ok pks => Ok pks | Err s => Err (CrustyErr s) end);
  attributes ← try_ (attributes_of pks columns);
  let schema := Schema.new attributes in
  _ ← on_sm (on_store (λ s, create_container s table_id table_name));
  db ← get_db;
  let '(c, res) := Cat.add_table (db_catalog db) (mkTableInfo table_id table_name schema) in
  _ ← set_catalog c;
  _ ← some_or res (CrustyErr "Table {} already exists");
  _ ← on_sm (λ m, Ret (mkManagers (mg_sm m) (Reservoir.register_table (mg_stats m) table_id schema), Ok tt));
  mret (message [str "Table "; table_name; str " created"]).

(** The positions and names of the columns of an index. *)
Fixpoint index_columns (schema : TableSchema) (columns : list SqlExpr) : result CrustyError (list (Z * list byte)) :=
  match columns with
  | [] => Ok []
  | Identifier col_name :: columns =>
      match Schema.get_field_index schema col_name with
      | None => Err (CrustyErr "Column {} not found")
      | Some idx => match index_columns schema columns with Ok rest => Ok ((idx, col_name) :: rest) | Err e => Err e end
      end
  | _ :: _ => Err (CrustyErr "Unsupported index column expression: {:?}")
  end.

Definition create_index (name : option ObjectName) (table_name : ObjectName) (columns : list SqlExpr)
    (unique if_not_exists : bool) : WM QueryResult :=
  r ← lift (get_name table_name);
  table_name ← try_ r;
  db ← get_db;
  table_id ← some_or (Cat.get_table_id_if_exists (db_catalog db) table_name) (CrustyErr "Table {} not found");
  schema ← lift (unwrap (Cat.get_table_schema (db_catalog db) table_id));
  cols ← try_ (index_columns schema columns);
  index_name ←
    match name with
    | Some n => r ← lift (get_name n); try_ r
    | None => mret (str "idx_" ++ table_name ++ str "_" ++ join_with (str "_") cols.*2)
    end;
  if Cat.is_valid_index_name (db_catalog db) index_name then
    if if_not_exists then mret (message [str "Index "; index_name; str " already exists"])
    else throw (CrustyErr "Index {} already exists")
  else
    index_id ← get_table_id index_name;
    _ ← new_txn;
    _ ← on_sm (on_store (λ s, im_create_index s index_id table_id cols.*1));
    db ← get_db;
    _ ← set_catalog (Cat.add_index (db_catalog db) (mkIndexInfo index_id index_name table_id cols.*1 unique)).1;
    mret (message [str "Index "; index_name; str " created"]).

(** The result of an earlier run of the same SQL, when no table it reads has been changed by
    its transaction or a later one. *)
Definition query_result_from_sql (sql : list byte) : WM (option QueryResult) :=
  db ← get_db;
  let r := query_registrar db in
  match Registrar.get_query_name_from_sql r sql with
  | None => mret None
  | Some query_name =>
      match Registrar.get_touched_tables_from_name r query_name with
      | None => mret None
      | Some tables =>
          s ← get_sm;
          latest_tid_val ← lift (unwrap (match (λ cid, (Reservoir.get_ts (mg_stats s) cid).2) <$> tables with [] => None | t :: ts => Some (foldr Z.max t ts) end));
          query_tid ← lift (unwrap (Registrar.get_query_tid_from_name r query_name));
          if query_tid <=? latest_tid_val then
            files ← get_files;
            '(r, files, res) ← lift (Registrar.purge_query_with_name r files query_name);
            _ ← set_registrar r;
            _ ← set_files (λ _, files);
            _ ← try_ res;
            mret None
          else
            match Registrar.get_query_result_path_from_name r query_name with
            | None => mret None
            | Some path =>
                files ← get_files;
                contents ← some_or (files !! path) (IOError "open");
                qr ← lift (unwrap (from_json contents));
                mret (Some qr)
            end
      end
  end.

Definition set_tid (client_id tid : Z) : WM unit := set_db (λ db,
  mkDatabase (db_id db) (db_name db) (db_catalog db) (db_col_id_gen db) (query_registrar db) (<[client_id := tid]> (client_tids db))).

Definition get_or_assign_tid (client_id : Z) : WM Z :=
  db ← get_db;
  match client_tids db !! client_id with
  | Some tid => mret tid
  | None => tid ← new_txn; _ ← set_tid client_id tid; mret tid
  end.

Definition assign_new_tid (client_id : Z) : WM Z :=
  tid ← new_txn; _ ← set_tid client_id tid; mret tid.

(** ** Statements *)

(** A translation draws column ids from the counter of the database. *)
Definition translate (m : Catalog → Z → outcome (Z * result TranslatorError Query)) : WM (result TranslatorError Query) :=
  db ← get_db;
  '(g, r) ← lift (m (db_catalog db) (db_col_id_gen db));
  _ ← set_db (λ db, mkDatabase (db_id db) (db_name db) (db_catalog db) g (query_registrar db) (client_tids db));
  mret r.

Definition optimize (q : Query) : WM PhysicalRelExpr :=
  db ← get_db;
  s ← get_sm;
  lift (CascadesOptimizer.optimize (H := Cardinality.model log2 depth (db_catalog db) (mg_stats s)) (db_catalog db)
          (query_plan q) (query_env q)).

Definition run_plan (active_txn : Transaction) (p : PhysicalRelExpr) : WM QueryResult := λ w,
  '(s, e, r) ← run_physical_plan format_date print_subquery (db_catalog (w_db w)) fuel (w_sm w) (w_executor w) (Txn.tid active_txn) p;
  Ret (mkWorld (w_db w) s (w_files w) (w_txn w) e, r).

Definition count_tuples (r : QueryResult) : Z := match QueryResults.get_tuples r with Some ts => zlen ts | None => 0 end.

Definition run_insert (active_txn : Transaction) (table_name : ObjectName) (columns : list Ident) (source : option SqlQuery) :
  WM QueryResult :=
  source ← some_or source (CrustyErr "No source for insert");
  let '(mkSqlQuery body _ _) := source in
  match body, columns with
  | ValuesBody values, [] =>
      r ← lift (get_name table_name);
      table_name ← try_ r;
      table_id ← get_table_id table_name;
      db ← get_db;
      table_schema ← lift (unwrap (Cat.get_table_schema (db_catalog db) table_id));
      let indexes := Cat.get_indexes_for_table (db_catalog db) table_id in
      tid ← try_ (Txn.tid active_txn);
      count ← on_sm (λ s, Mutator.import_tuples s values table_id table_schema tid indexes);
      mret (QueryResults.new_insert_result count table_name)
  | ValuesBody _, _ =>
      throw (CrustyErr "Inserts with columns specified are not currently supported. Must supply values for the entire table")
  | _, _ => throw (CrustyErr "Inserts via query not currently supported. Must supply values")
  end.

(** A deletion or an update, counted. *)
Definition run_change (active_txn : Transaction) (m : Catalog → Z → outcome (Z * result TranslatorError Query)) (verb : list byte) :
  WM QueryResult :=
  r ← translate m;
  lp ← try_ (match r with Ok q => Ok q | Err e => Err (translator_error e) end);
  pp ← optimize lp;
  result ← run_plan active_txn pp;
  mret (message [verb; str " "; show_int (count_tuples result); str " row(s)"]).

Definition run_sql (active_txn : Transaction) (ast : list Statement) : WM QueryResult :=
  match ast with
  | [] => throw (CrustyErr "Empty SQL command")
  | SCreateTable table_name columns constraints :: _ =>
      r ← lift (get_name table_name);
      table_name ← try_ r;
      create_table table_name columns constraints
  | SQuery q :: _ =>
      r ← translate (λ catalog, Translator.from_sql parse_date catalog Rules.default fuel q);
      lp ← lift (result_unwrap r);
      pp ← optimize lp;
      run_plan active_txn pp
  | SInsert table_name columns source :: _ => run_insert active_txn table_name columns source
  | SCreateIndex name table_name columns unique if_not_exists :: _ =>
      create_index name table_name columns unique if_not_exists
  | SDelete from selection :: _ =>
      run_change active_txn (λ catalog, Translator.from_delete parse_date catalog Rules.default fuel from selection) (str "Deleted")
  | SUpdate table assignments selection :: _ =>
      run_change active_txn (λ catalog, Translator.from_update parse_date catalog Rules.default fuel table assignments selection)
        (str "Updated")
  | OtherStatement :: _ => lift Panic
  end.

Definition run_sql_from_string (active_txn : Transaction) (sql : list byte) : WM QueryResult :=
  match SQLParser.parse_sql parse sql with
  | SQL ast => run_sql active_txn ast
  | SQLError => throw (CrustyErr "SQL error: {}")
  | SQLConstraintError _ => throw (CrustyErr "SQL constraint error: {}")
  end.

Definition to_logical_plan (sql : list byte) : WM Query :=
  match SQLParser.parse_sql parse sql with
  | SQL ast =>
      statement ← lift (unwrap (head ast));
      match statement with
      | SQuery q =>
          r ← translate (λ catalog, Translator.from_sql parse_date catalog Rules.default fuel q);
          try_ (match r with Ok q => Ok q | Err e => Err (translator_error e) end)
      | _ => throw (CrustyErr "Not a query")
      end
  | SQLError => throw (CrustyErr "SQL error: {}")
  | SQLConstraintError _ => throw (CrustyErr "SQL constraint error: {}")
  end.

(** *** CSV files *)

(** [convert_to_tuple]; further fields or columns are left out. *)
Fixpoint convert_to_tuple (fields : list (list byte)) (atts : list Attribute) : outcome (result CrustyError (list Field)) :=
  match fields, atts with
  | str_field :: fields, attr :: atts =>
      r ← from_str parse_date str_field attr;
      match r with
      | Err e => Ret (Err e)
      | Ok f => rest ← convert_to_tuple fields atts; Ret (match rest with Ok fs => Ok (f :: fs) | Err e => Err e end)
      end
  | _, _ => Ret (Ok [])
  end.

(** A chunk of at most [room] records, and the records after it. *)
Fixpoint read_chunk (schema : TableSchema) (room : Z) (records : list (option (list (list byte)))) :
  outcome (result CrustyError (list Tuple * list (option (list (list byte))))) :=
  match records with
  | [] => Ret (Ok ([], []))
  | None :: _ => Ret (Err (IOError "csv"))
  | Some record :: records =>
      r ← convert_to_tuple record (attributes schema);
      match r with
      | Err e => Ret (Err e)
      | Ok fs =>
          if room <=? 1 then Ret (Ok ([Tup.new fs], records))
          else
            rest ← read_chunk schema (room - 1) records;
            Ret (match rest with Ok (ts, records) => Ok (Tup.new fs :: ts, records) | Err e => Err e end)
      end
  end.

Definition max_records_in_mem : Z := 100000.

(** [n] bounds the chunks. *)
Fixpoint import_records (n : nat) (schema : TableSchema) (records : list (option (list (list byte)))) (table_id tid : Z)
    (indexes : list IndexInfo) (total : Z) : WM Z :=
  match n with
  | O => lift Panic
  | S n =>
      r ← lift (read_chunk schema max_records_in_mem records);
      '(converted, records) ← try_ r;
      match converted with
      | [] => mret total
      | _ =>
          insert_count ← on_sm (λ s, Mutator.insert_validated_tuples s table_id converted tid indexes);
          import_records n schema records table_id tid indexes (total + insert_count)
      end
  end.

Definition import_csv (active_txn : Transaction) (table_name path : list byte) : WM QueryResult :=
  table_id ← get_table_id table_name;
  db ← get_db;
  table_schema ← lift (unwrap (Cat.get_table_schema (db_catalog db) table_id));
  let indexes := Cat.get_indexes_for_table (db_catalog db) table_id in
  files ← get_files;
  file ← lift (unwrap (files !! path));
  tid ← try_ (Txn.tid active_txn);
  let records := csv_records file in
  num_inserts ← expect (import_records (S (length records)) table_schema records table_id tid indexes 0);
  mret (QueryResults.new_insert_result num_inserts table_name).

(** ** Commands of a database *)

(** The directory of the results of a database under the directory of the server, and the
    file of a query in it. *)
Context (db_path : list byte).
Definition query_caches : list byte := db_path ++ str "/query_caches".
Definition query_cache_dir (id : Z) : list byte := query_caches ++ str "/" ++ show_int id.
Definition query_cache_path (id : Z) (query_name : list byte) : list byte :=
  query_cache_dir id ++ str "/[" ++ query_name ++ str "]_query_result.json".
(** [fs::remove_dir_all], which removes the files below a directory. *)
Definition remove_dir_all (dir : list byte) (files : file_system) : file_system :=
  filter (λ f : list byte * list byte, ¬ (dir ++ str "/") `prefix_of` f.1) files.

(** A new conductor for the command. *)
Definition with_new_executor : WM unit := λ w,
  Ret (mkWorld (w_db w) (w_sm w) (w_files w) (w_txn w) (mkExecutor None), Ok tt).

Definition register_query (tid : Z) (query_name query : list byte) : WM Response :=
  _ ← with_new_executor;
  maybe_cached ← query_result_from_sql query;
  match maybe_cached with
  | Some _ => mret (SystemMsg (str "Identical query (matching SQL) has already been registered"))
  | None =>
      qr ← run_sql_from_string (Txn.new_from_tid tid) query;
      lp ← to_logical_plan query;
      pp ← optimize lp;
      db ← get_db;
      files ← get_files;
      let file_path := query_cache_path (db_id db) query_name in
      _ ← match files !! file_path with
          | None =>
              _ ← set_registrar (Registrar.register_query_with_result (query_registrar db) query_name query [] pp file_path tid);
              set_files (λ files, <[file_path := to_json qr]> files)
          | Some _ => mret ()
          end;
      mret (QueryResponse qr)
  end.

Definition run_database_command (command : DBCommand) (args : list (list byte)) (tid client_id : Z) : WM Response :=
  match command with
  | ExecuteSQL =>
      sql ← lift (unwrap (head args));
      _ ← with_new_executor;
      cached ← query_result_from_sql sql;
      qr ← (match cached with Some query_result => mret query_result | None => run_sql_from_string (Txn.new_from_tid tid) sql end);
      _ ← assign_new_tid client_id;
      mret (QueryResponse qr)
  | ShowTables =>
      db ← get_db;
      mret (QueryResponse (message [str "Tables: "; join_with (str ", ") (Cat.get_table_names (db_catalog db))]))
  | Import =>
      table_name ← lift (unwrap (args !! 1%nat));
      file_path ← lift (unwrap (head args));
      _ ← with_new_executor;
      qr ← import_csv (Txn.new_from_tid tid) table_name file_path;
      _ ← assign_new_tid client_id;
      match qr with
      | Insert inserted table_name =>
          mret (SystemMsg (str "Imported " ++ show_int inserted ++ str " rows into table " ++ table_name))
      | _ => throw (CrustyErr "Unexpected query result from import")
      end
  | RegisterQuery =>
      query_name ← lift (unwrap (head args));
      query ← lift (unwrap (args !! 1%nat));
      response ← register_query tid query_name query;
      _ ← (match response with QueryResponse _ => _ ← assign_new_tid client_id; mret () | _ => mret () end);
      mret response
  | CommitCommand =>
      new_tid ← assign_new_tid client_id;
      mret (SystemMsg (str "Committed old TID " ++ debug_tid tid ++ str ". New TID is " ++ debug_tid new_tid ++ str "."))
  | ShowQueries | Generate | ConvertQuery | RunQueryFull | RunQueryPartial => lift Panic
  end.

Definition handle_database_command (command : DBCommand) (args : list (list byte)) (tid client_id : Z) : WM Response :=
  r ← attempt (run_database_command command args tid client_id);
  mret (match r with Ok response => response | Err e => QueryExecutionError (display_error e) end).

(** A command of a connected client. *)
Definition database_command (command : DBCommand) (args : list (list byte)) (client_id : Z) : WM Response :=
  tid ← get_or_assign_tid client_id;
  handle_database_command command args tid client_id.

(** ** Databases and connections *)

Record ServerState := mkServer {
  id_to_db : gmap Z DatabaseState;
  active_connections : gmap Z Z;
  sv_sm : SM;
  sv_files : file_system;
  sv_txn : Z
}.

(** [get_database_id] is the hash of the name. The others are the JSON forms of the saved part
    of a database (its id, name, catalog and counter) and of the statistics. *)
Context (get_database_id : list byte → Z).
Context (db_to_json : Z * list byte * Catalog * Z → list byte) (db_from_json : list byte → option (Z * list byte * Catalog * Z)).
Context (stats_to_json : SavedStats → list byte) (stats_from_json : list byte → option SavedStats).

Definition new_from_name (name : list byte) : DatabaseState :=
  mkDatabase (get_database_id name) name Cat.new ColIdGenerator.new Registrar.new ∅.

Definition get_connected_db (sv : ServerState) (client_id : Z) : option DatabaseState :=
  db_id ← active_connections sv !! client_id;
  id_to_db sv !! db_id.

Definition get_db_names (sv : ServerState) : list (list byte) := db_name <$> (map_to_list (id_to_db sv)).*2.

Definition create_new_db (sv : ServerState) (name : list byte) : ServerState * result CrustyError unit :=
  let id := get_database_id name in
  match id_to_db sv !! id with
  | Some _ => (sv, Err (CrustyErr "database with name {:?} already exists"))
  | None =>
      (mkServer (<[id := new_from_name name]> (id_to_db sv)) (active_connections sv) (sv_sm sv) (sv_files sv) (sv_txn sv), Ok tt)
  end.

(** The first database of the name in the order of the hash map. *)
Definition get_db_id_from_name (sv : ServerState) (name : list byte) : result CrustyError Z :=
  match head (filter (λ x : Z * DatabaseState, db_name x.2 = name) (map_to_list (id_to_db sv))) with
  | Some (id, _) => Ok id
  | None => Err (CrustyErr "db_name not found!")
  end.

Definition connect_to_db (sv : ServerState) (name : list byte) (client_id : Z) : ServerState * result CrustyError unit :=
  match get_db_id_from_name sv name with
  | Err e => (sv, Err e)
  | Ok id => (mkServer (id_to_db sv) (<[client_id := id]> (active_connections sv)) (sv_sm sv) (sv_files sv) (sv_txn sv), Ok tt)
  end.

Definition close_connection (sv : ServerState) (client_id : Z) : ServerState :=
  mkServer (id_to_db sv) (delete client_id (active_connections sv)) (sv_sm sv) (sv_files sv) (sv_txn sv).

(** [DatabaseState::reset]: the registrar and the files of the database. *)
Definition db_reset (db : DatabaseState) (files : file_system) : DatabaseState * file_system * result CrustyError unit :=
  let '(r, files, res) := Registrar.reset (query_registrar db) files in
  (mkDatabase (db_id db) (db_name db) (db_catalog db) (db_col_id_gen db) r (client_tids db),
   match res with Ok _ => remove_dir_all (query_cache_dir (db_id db)) files | Err _ => files end, res).

(** An operation on each database in turn, until one fails. *)
Fixpoint each_db (f : DatabaseState → file_system → DatabaseState * file_system * result CrustyError unit)
    (dbs : list (Z * DatabaseState)) (m : gmap Z DatabaseState) (files : file_system) :
  gmap Z DatabaseState * file_system * result CrustyError unit :=
  match dbs with
  | [] => (m, files, Ok tt)
  | (id, db) :: dbs =>
      let '(db, files, res) := f db files in
      match res with
      | Ok _ => each_db f dbs (<[id := db]> m) files
      | Err e => (<[id := db]> m, files, Err e)
      end
  end.

Definition server_state_dir : list byte := db_path ++ str "/server_state".
Definition managers_dir : list byte := db_path ++ str "/managers".
Definition stat_file : list byte := managers_dir ++ str "/reservoir_stat_manager".

Definition sv_reset (sv : ServerState) : outcome (ServerState * result CrustyError unit) :=
  let '(dbs, files, res) := each_db db_reset (map_to_list (id_to_db sv)) (id_to_db sv) (sv_files sv) in
  match res with
  | Err e => Ret (mkServer dbs (active_connections sv) (sv_sm sv) files (sv_txn sv), Err e)
  | Ok _ =>
      let files := remove_dir_all server_state_dir files in
      '(s, res) ← reset_managers (sv_sm sv);
      Ret (mkServer ∅ ∅ s (match res with Ok _ => remove_dir_all managers_dir files | Err _ => files end) (sv_txn sv), res)
  end.

(** A database is saved without its registrar and its clients. *)
Definition db_save (db : DatabaseState) (files : file_system) : DatabaseState * file_system * result CrustyError unit :=
  let '(r, files, res) := Registrar.reset (query_registrar db) files in
  (mkDatabase (db_id db) (db_name db) (db_catalog db) (db_col_id_gen db) r (client_tids db),
   match res with
   | Ok _ =>
       <[server_state_dir ++ str "/" ++ show_int (db_id db) :=
         db_to_json (db_id db, db_name db, db_catalog db, db_col_id_gen db)]> files
   | Err _ => files
   end, res).

Definition sv_shutdown (shutdown_purge : bool) (sv : ServerState) : outcome (ServerState * result CrustyError unit) :=
  '(sv, res) ←
    (if shutdown_purge then '(sv, res) ← sv_reset sv; _ ← result_unwrap res; Ret (sv, Ok tt)
     else
       let '(dbs, files, res) := each_db db_save (map_to_list (id_to_db sv)) (id_to_db sv) (sv_files sv) in
       Ret (mkServer dbs (active_connections sv) (sv_sm sv)
              (match res with Ok _ => remove_dir_all query_caches files | Err _ => files end) (sv_txn sv), res));
  match res with
  | Err e => Ret (sv, Err e)
  | Ok _ =>
      let files := <[stat_file := stats_to_json (Reservoir.get_serializable_stat_manager (mg_stats (sv_sm sv)))]> (sv_files sv) in
      s ← shutdown_managers (sv_sm sv);
      Ret (mkServer (id_to_db sv) (active_connections sv) s files (sv_txn sv), Ok tt)
  end.

(** [DatabaseState::load]. *)
Definition load (contents : list byte) : outcome DatabaseState :=
  '(id, name, catalog, g) ← unwrap (db_from_json contents);
  Ret (mkDatabase id name catalog g Registrar.new ∅).

(** [ServerState::new], over a storage manager: the saved statistics and databases are
    loaded. The counter of transactions starts from one in a new process. *)
Fixpoint load_all (saved : list (list byte)) (dbs : gmap Z DatabaseState) : outcome (gmap Z DatabaseState) :=
  match saved with
  | [] => Ret dbs
  | contents :: saved => db ← load contents; load_all saved (<[db_id db := db]> dbs)
  end.
Definition sv_new (s : ST) (files : file_system) : outcome ServerState :=
  stats ← match files !! stat_file with
          | Some contents => saved ← unwrap (stats_from_json contents); Reservoir.load saved
          | None => Ret Reservoir.new
          end;
  dbs ← load_all (map_to_list (filter (λ f : list byte * list byte, (server_state_dir ++ str "/") `prefix_of` f.1) files)).*2 ∅;
  Ret (mkServer dbs ∅ (mkManagers s stats) files 1).

Definition run_system_command (shutdown_purge : bool) (sv : ServerState) (command : SystemCommand)
    (args : list (list byte)) (client_id : Z) : outcome (ServerState * result CrustyError (bool * Response)) :=
  match command with
  | ShowDatabases => Ret (sv, Ok (false, SystemMsg (str "Databases: " ++ join_with (str ", ") (get_db_names sv))))
  | ResetCommand =>
      '(sv, res) ← sv_reset sv;
      Ret (sv, match res with Ok _ => Ok (false, SystemMsg (str "Reset server.")) | Err e => Err e end)
  | ShutdownCommand =>
      '(sv, res) ← sv_shutdown shutdown_purge sv;
      Ret (sv, match res with Ok _ => Ok (true, ShutdownResponse true) | Err e => Err e end)
  | QuietMode => Ret (sv, Ok (false, QuietOk))
  | TestCommand => Panic
  | Create =>
      name ← unwrap (head args);
      let '(sv, res) := create_new_db sv name in
      Ret (sv, match res with Ok _ => Ok (false, SystemMsg (str "Created database " ++ name)) | Err e => Err e end)
  | Connect =>
      name ← unwrap (head args);
      let '(sv, res) := connect_to_db sv name client_id in
      Ret (sv, match res with Ok _ => Ok (false, SystemMsg (str "Connected to database " ++ name)) | Err e => Err e end)
  | CloseConnection => Ret (close_connection sv client_id, Ok (false, SystemMsg (str "Closing connection")))
  | Help => Ret (sv, Ok (false, SystemMsg gen_help_string))
  end.

Definition handle_system_command (shutdown_purge : bool) (sv : ServerState) (command : SystemCommand)
    (args : list (list byte)) (client_id : Z) : outcome (ServerState * (bool * Response)) :=
  '(sv, r) ← run_system_command shutdown_purge sv command args client_id;
  Ret (sv, match r with Ok response => response | Err e => (false, SystemErr (display_error e)) end).

(** A command of a client to its database. *)
Definition handle_db_command (sv : ServerState) (command : DBCommand) (args : list (list byte)) (client_id : Z) :
  outcome (ServerState * (bool * Response)) :=
  match get_connected_db sv client_id with
  | None => Ret (sv, (false, SystemErr (str "Not connected to a database")))
  | Some db =>
      '(w, r) ← database_command command args client_id (mkWorld db (sv_sm sv) (sv_files sv) (sv_txn sv) (mkExecutor None));
      r ← result_unwrap r;
      Ret (mkServer (<[db_id db := w_db w]> (id_to_db sv)) (active_connections sv) (w_sm w) (w_files w) (w_txn w), (false, r))
  end.

(** [signal] is the shutdown signal, which a shutdown command sets before it runs, and
    [quiet_mode] a flag of the connection. *)
Definition handle_command (shutdown_purge signal quiet_mode : bool) (sv : ServerState) (command : Command)
    (args : list (list byte)) (client_id : Z) : outcome (bool * bool * ServerState * (bool * Response)) :=
  if signal then Ret (signal, quiet_mode, sv, (true, ShutdownResponse false))
  else
    match command with
    | System c =>
        '(sv, r) ← handle_system_command shutdown_purge sv c args client_id;
        Ret (match c with ShutdownCommand => true | _ => false end, match c with QuietMode => true | _ => quiet_mode end, sv, r)
    | DB c => '(sv, r) ← handle_db_command sv c args client_id; Ret (false, quiet_mode, sv, r)
    end.
End Server.
