(* ===== verification/ServerCorrect.v ===== *)
(** * The server is correct

    A SELECT from its text to the tuples of its answer, over the refinements of the
    translator, the optimizer with the cost model, the planner and the executor; results that
    are stored for registered queries; what a failed CREATE TABLE leaves behind, and that it
    fails in the second of two databases; the rows an INSERT stores, with the statistics; and
    the end of the import of a CSV file. *)

From stdpp Require Import strings gmap.
From S2P Require Import Prelude Common MemPool HeapFile StorageSpec HeapStore Field FieldCodec.
From S2P Require Import SqlAst Tuple ByteCode Expr.
From S2P Require Import OpIterator OpAggregate.
From S2P Require Import PhysicalPlan DbCatalog OpMutate OpDyn PlanToOp PlanSem PlanRel.
From S2P Require Import PlanCorrect Executor HeapQuery Mutator MutatorCorrect.
From S2P Require Import Logical Translate Optimizer LogicalSem LogicalCorrect LogicalProject.
From S2P Require Import SqlSem TranslateFrom TranslateCorrect.
From S2P Require Import LogicalPhysical OptimizerCorrect Registrar Statistics CostModel Server.

Open Scope Z_scope.

Lemma se_bind_inv {St Er A B} (m : SE St Er A) (k : A → SE St Er B) st st' y :
  (x ← m; k x) st = Ret (st', Ok y) → ∃ st1 x, m st = Ret (st1, Ok x) ∧ k x st1 = Ret (st', Ok y).
Proof. unfold mbind, SE_bind. destruct (m st) as [[st1 [x|e]]|]; simpl; [by exists st1, x|done..]. Qed.

Lemma lift_inv {St Er A} (o : outcome A) (st st' : St) (x : A) : lift (Er := Er) o st = Ret (st', Ok x) → o = Ret x ∧ st' = st.
Proof. unfold lift. destruct o; [|done]. cbn. intros [= -> ->]. done. Qed.

(** ** Queries *)


Section Select.
Context {ST : Type} {scan : ScanTrait ST} {tbl : Z → option (list item)} {laws : ScanLaws ST tbl}.
Context `{StorageTrait ST} `{IndexTrait ST} `{BulkInsert ST} `{Containers ST} {codec : TupleCodec} `{Unicode}.
Context (random_range : nat → Z) (log2 : f64 → f64).
Context (parse : list byte → option (list Statement)) (from_json : list byte → option QueryResult).
Context (parse_date : list byte → option Z) (format_date : Z → list byte).
Context (print_subquery : PhysicalRelExpr → Z → list byte) (depth : nat).



Context (csv_records : list byte → list (option (list (list byte)))) (to_json : QueryResult → list byte) (db_path : list byte).

Abbreviation exec fuel := (database_command random_range log2 parse csv_records to_json from_json parse_date format_date print_subquery fuel depth db_path).

(** The worlds differ in the transactions of the clients and the executor only. *)
Definition same_but_txns (w w' : World ST) : Prop :=
  db_catalog (w_db w') = db_catalog (w_db w) ∧ db_col_id_gen (w_db w') = db_col_id_gen (w_db w) ∧
  query_registrar (w_db w') = query_registrar (w_db w) ∧ w_sm w' = w_sm w ∧ w_files w' = w_files w.

Lemma assign_tid_ok client (w : World ST) : ∃ w' tid, get_or_assign_tid client w = Ret (w', Ok tid) ∧ same_but_txns w w'.
Proof.
  unfold get_or_assign_tid. rewrite (se_bind_Ok _ _ w w (w_db w) eq_refl).
  destruct (client_tids (w_db w) !! client) as [tid|]; [by exists w, tid|]. by eexists _, _.
Qed.

Lemma assign_new_ok client (w : World ST) : ∃ w' tid, assign_new_tid client w = Ret (w', Ok tid) ∧ same_but_txns w w'.
Proof. by eexists _, _. Qed.

Lemma not_registered sql (w : World ST) :
  sql_to_query_name (query_registrar (w_db w)) !! sql = None → query_result_from_sql from_json sql w = Ret (w, Ok None).
Proof.
  intros Hn. unfold query_result_from_sql. rewrite (se_bind_Ok _ _ w w (w_db w) eq_refl).
  unfold Registrar.get_query_name_from_sql. by rewrite Hn.
Qed.




(** ** Registered queries *)

Definition same_files (w w' : World ST) : Prop :=
  w_files w' = w_files w ∧ query_registrar (w_db w') = query_registrar (w_db w) ∧ db_id (w_db w') = db_id (w_db w).

Lemma translate_frame tr (w w' : World ST) r : translate tr w = Ret (w', Ok r) → same_files w w'.
Proof.
  unfold translate. rewrite (se_bind_Ok _ _ w w (w_db w) eq_refl). intros E. apply se_bind_inv in E as (w1 & [g r1] & E1 & E).
  apply lift_inv in E1 as [_ ->]. by injection E as <- _.
Qed.

Lemma to_logical_plan_inv fuel sql (w w' : World ST) lp :
  to_logical_plan parse parse_date fuel sql w = Ret (w', Ok lp) →
  same_files w w' ∧ ∃ q, SQLParser.parse_sql parse sql = SQL [SQuery q].
Proof.
  unfold to_logical_plan. destruct (SQLParser.parse_sql parse sql) as [|ast|] eqn:Ep; [done| |done]. intros E.
  apply se_bind_inv in E as (w1 & st & E1 & E). apply lift_inv in E1 as [E1 ->].
  assert (∃ st, ast = [st]) as [st' ->].
  { unfold SQLParser.parse_sql in Ep. destruct (parse sql) as [[|a [|]]|]; try done; [|by destruct a].
    exists a. destruct a; simplify_eq; try done. destruct (SQLParser.get_pks _ _); by simplify_eq. }
  simpl in E1. injection E1 as ->. destruct st; try done. apply se_bind_inv in E as (w2 & r & E2 & E).
  apply translate_frame in E2. split; [|by eexists]. destruct r; [|done]. by injection E as <- _.
Qed.

Lemma run_select_frame fuel txn q (w w' : World ST) r :
  run_sql random_range log2 parse_date format_date print_subquery fuel depth txn [SQuery q] w = Ret (w', Ok r) → same_files w w'.
Proof.
  cbn [run_sql]. intros E. apply se_bind_inv in E as (w1 & r1 & E1%translate_frame & E).
  apply se_bind_inv in E as (w2 & lp & E2 & E). apply lift_inv in E2 as [_ ->].
  apply se_bind_inv in E as (w2 & pp & E2 & E).
  assert (w2 = w1) as ->.
  { unfold optimize in E2. rewrite (se_bind_Ok _ _ w1 w1 (w_db w1) eq_refl), (se_bind_Ok _ _ w1 w1 (w_sm w1) eq_refl) in E2.
    by apply lift_inv in E2 as [_ ->]. }
  unfold run_plan in E. destruct (run_physical_plan _ _ _ _ _ _ _ _) as [[[s e] r2]|]; [|done]. by injection E as <- _.
Qed.

(** The entry of a registered query. *)
Definition registered_as (w : World ST) (sql name : list byte) (plan : PhysicalRelExpr) (tid : Z) (qr : QueryResult) : Prop :=
  let r := query_registrar (w_db w) in
  sql_to_query_name r !! sql = Some name ∧ query_plans r !! name = Some plan ∧ query_tids r !! name = Some tid ∧
  ∃ path, query_result_filenames r !! name = Some path ∧ w_files w !! path = Some (to_json qr).

Lemma register_ok fuel (w w1 : World ST) tid name sql qr :
  sql_to_query_name (query_registrar (w_db w)) !! sql = None → w_files w !! query_cache_path db_path (db_id (w_db w)) name = None →
  register_query random_range log2 parse to_json from_json parse_date format_date print_subquery fuel depth db_path tid name sql w =
    Ret (w1, Ok (QueryResponse qr)) →
  ∃ plan, registered_as w1 sql name plan tid qr.
Proof.
  intros Hn Hf E. unfold register_query in E.
  pose (w0 := mkWorld (w_db w) (w_sm w) (w_files w) (w_txn w) (mkExecutor None)).
  rewrite (se_bind_Ok _ _ w w0 tt eq_refl), (se_bind_Ok _ _ w0 w0 None) in E by (by apply not_registered).
  apply se_bind_inv in E as (w2 & qr' & E2 & E). apply se_bind_inv in E as (w3 & lp & E3 & E).
  apply to_logical_plan_inv in E3 as [(F3 & R3 & I3) [q Hp]]. unfold run_sql_from_string in E2. rewrite Hp in E2.
  apply run_select_frame in E2 as (F2 & R2 & I2). apply se_bind_inv in E as (w4 & pp & E4 & E).
  assert (w4 = w3) as ->.
  { unfold optimize in E4. rewrite (se_bind_Ok _ _ w3 w3 (w_db w3) eq_refl), (se_bind_Ok _ _ w3 w3 (w_sm w3) eq_refl) in E4.
    by apply lift_inv in E4 as [_ ->]. }
  rewrite (se_bind_Ok _ _ w3 w3 (w_db w3) eq_refl), (se_bind_Ok _ _ w3 w3 (w_files w3) eq_refl) in E.
  rewrite I3, I2, F3, F2 in E. cbn [w_db w_files w0] in E. rewrite Hf in E. cbn in E. injection E as <- ->.
  exists pp. unfold registered_as. cbn. rewrite !lookup_insert_eq. split_and!; try done. eexists. split; [done|].
  by rewrite lookup_insert_eq.
Qed.

(** The latest change of the tables of a plan. *)
Definition changed_before (w : World ST) (plan : PhysicalRelExpr) (tid : Z) : Prop :=
  Forall (λ cid, (Reservoir.get_ts (mg_stats (w_sm w)) cid).2 < tid) (Phys.get_tables_involved plan).

Lemma foldr_max_lt (t : Z) (ts : list Z) bound : foldr Z.max t ts < bound ↔ Forall (λ x, x < bound) (t :: ts).
Proof.
  induction ts as [|x ts IH]; cbn [foldr]; [rewrite Forall_singleton; done|].
  rewrite !Forall_cons in *. split; [intros Hm; split_and!; [lia|lia|apply IH; lia]|intros (? & ? & ?)]. apply Z.max_lub_lt; [done|]. by apply IH.
Qed.

Lemma cached_ok w sql name plan tid qr :
  registered_as w sql name plan tid qr → Phys.get_tables_involved plan ≠ [] → from_json (to_json qr) = Some qr →
  (changed_before w plan tid → query_result_from_sql from_json sql w = Ret (w, Ok (Some qr))) ∧
  (¬ changed_before w plan tid →
   ∃ w', query_result_from_sql from_json sql w = Ret (w', Ok None) ∧ sql_to_query_name (query_registrar (w_db w')) !! sql = None ∧
     db_catalog (w_db w') = db_catalog (w_db w) ∧ db_col_id_gen (w_db w') = db_col_id_gen (w_db w) ∧ w_sm w' = w_sm w).
Proof.
  intros (Hn & Hp & Ht & path & Hpath & Hfile) Hne Hj. unfold query_result_from_sql.
  rewrite (se_bind_Ok _ _ w w (w_db w) eq_refl). cbn zeta.
  unfold Registrar.get_query_name_from_sql, Registrar.get_touched_tables_from_name, Registrar.get_query_tid_from_name,
    Registrar.get_query_result_path_from_name. rewrite Hn, Hp. cbn [fmap option_fmap option_map].
  rewrite (se_bind_Ok _ _ w w (w_sm w) eq_refl).
  unfold changed_before. destruct (Phys.get_tables_involved plan) as [|c cs] eqn:Et; [done|]. cbn [fmap list_fmap].
  set (ts := λ cid, (Reservoir.get_ts (mg_stats (w_sm w)) cid).2). fold (ts c).
  assert (Forall (λ cid, ts cid < tid) (c :: cs) ↔ foldr Z.max (ts c) (ts <$> cs) < tid) as Hlt.
  { rewrite foldr_max_lt. change (ts c :: (ts <$> cs)) with (ts <$> (c :: cs)). by rewrite Forall_fmap. }
  change (list_fmap Z Z ts cs) with (ts <$> cs).
  rewrite (se_bind_Ok _ _ w w (foldr Z.max (ts c) (ts <$> cs)) eq_refl). rewrite (se_bind_Ok _ _ w w tid) by (by rewrite Ht).
  split.
  - intros HF%Hlt. rewrite (proj2 (Z.leb_gt _ _) HF), Hpath. rewrite (se_bind_Ok _ _ w w (w_files w) eq_refl).
    rewrite (se_bind_Ok _ _ w w (to_json qr)) by (by rewrite Hfile). by rewrite (se_bind_Ok _ _ w w qr) by (by rewrite Hj).
  - intros HF. rewrite (proj2 (Z.leb_le _ _)) by (apply Z.nlt_ge; intros Hl; apply HF, Hlt, Hl). rewrite (se_bind_Ok _ _ w w (w_files w) eq_refl).
    unfold Registrar.purge_query_with_name. rewrite Hpath. cbn [unwrap mbind outcome_bind]. rewrite Hfile.
    eexists. split; [reflexivity|]. cbn. split; [|done]. apply map_lookup_filter_None. right. intros x Hx. simplify_eq. simpl. tauto.
Qed.

Lemma execute_cached fuel w client sql name plan tid qr :
  registered_as w sql name plan tid qr → Phys.get_tables_involved plan ≠ [] → from_json (to_json qr) = Some qr → changed_before w plan tid →
  ∃ w', exec fuel ExecuteSQL [sql] client w = Ret (w', Ok (QueryResponse qr)) ∧ same_but_txns w w'.
Proof.
  intros Hreg Hne Hj Hch. destruct (assign_tid_ok client w) as (w1 & t1 & E1 & C1 & G1 & R1 & S1 & F1).
  assert (registered_as w1 sql name plan tid qr ∧ changed_before w1 plan tid) as [Hreg1 Hch1].
  { unfold registered_as, changed_before in *. by rewrite R1, F1, S1. }
  pose (w2 := mkWorld (w_db w1) (w_sm w1) (w_files w1) (w_txn w1) (mkExecutor None)).
  destruct (assign_new_ok client w2) as (w3 & t3 & E3 & C3 & G3 & R3 & S3 & F3). exists w3. split.
  - unfold database_command, handle_database_command. rewrite (se_bind_Ok _ _ _ _ _ E1). rewrite (se_bind_Ok _ _ w1 w3 (Ok (QueryResponse qr))); [done|].
    unfold attempt. cbn [run_database_command]. rewrite (se_bind_Ok _ _ w1 w1 sql eq_refl), (se_bind_Ok _ _ w1 w2 tt eq_refl).
    rewrite (se_bind_Ok _ _ w2 w2 (Some qr)) by (by eapply (cached_ok w2 sql name plan tid qr)).
    rewrite (se_bind_Ok _ _ w2 w2 qr eq_refl). by rewrite (se_bind_Ok _ _ w2 w3 t3 E3).
  - unfold same_but_txns in *. simpl in *. by rewrite C3, G3, R3, S3, F3, C1, G1, R1, S1, F1.
Qed.

(** The query is run for a transaction of the client, and the client gets a new one. *)
Definition run_for (fuel : nat) (tid client : Z) (sql : list byte) : SE (World ST) CrustyError Response :=
  r ← attempt (qr ← run_sql_from_string random_range log2 parse parse_date format_date print_subquery fuel depth (Txn.new_from_tid tid) sql;
               _ ← assign_new_tid client; mret (QueryResponse qr));
  mret (match r with Ok response => response | Err e => QueryExecutionError (display_error e) end).

Lemma execute_stale fuel w client sql name plan tid qr :
  registered_as w sql name plan tid qr → Phys.get_tables_involved plan ≠ [] → from_json (to_json qr) = Some qr → ¬ changed_before w plan tid →
  ∃ w' tid', exec fuel ExecuteSQL [sql] client w = run_for fuel tid' client sql w' ∧
    sql_to_query_name (query_registrar (w_db w')) !! sql = None ∧
    db_catalog (w_db w') = db_catalog (w_db w) ∧ db_col_id_gen (w_db w') = db_col_id_gen (w_db w) ∧ w_sm w' = w_sm w.
Proof.
  intros Hreg Hne Hj Hch. destruct (assign_tid_ok client w) as (w1 & t1 & E1 & C1 & G1 & R1 & S1 & F1).
  pose (w2 := mkWorld (w_db w1) (w_sm w1) (w_files w1) (w_txn w1) (mkExecutor None)).
  destruct (proj2 (cached_ok w2 sql name plan tid qr ltac:(unfold registered_as in *; simpl; by rewrite R1, F1) Hne Hj))
    as (w3 & E3 & N3 & C3 & G3 & S3).
  { unfold changed_before in *. simpl. by rewrite S1. }
  exists w3, t1. split; [|split; [done|]; rewrite C3, G3, S3; simpl; by rewrite C1, G1, S1].
  unfold database_command, handle_database_command. rewrite (se_bind_Ok _ _ _ _ _ E1). unfold run_for, attempt, mbind, SE_bind.
  cbn [run_database_command]. rewrite (se_bind_Ok _ _ w1 w1 sql eq_refl), (se_bind_Ok _ _ w1 w2 tt eq_refl). by rewrite (se_bind_Ok _ _ _ _ _ E3).
Qed.

(** C13: A registered query is answered from its stored result as long as the statistics have,
    for every table it reads, a timestamp before its transaction. Registering a query runs it
    and stores the result. While the tables of its plan have such timestamps, the same SQL
    gives the same result to any client, without touching the managers; once one of them has
    not, the entry is removed and the command answers by running the query again, on the same
    tables and catalog. Deletions record no timestamp: after one the stored result is still
    served. The text was not registered before and no result is stored under the name, results
    survive their JSON form, the plan reads a table, and registrations and stored results are
    not changed in between. *)
Theorem registered_query_cached fuel w w1 client name sql qr :
  sql_to_query_name (query_registrar (w_db w)) !! sql = None → w_files w !! query_cache_path db_path (db_id (w_db w)) name = None →
  from_json (to_json qr) = Some qr → exec fuel RegisterQuery [name; sql] client w = Ret (w1, Ok (QueryResponse qr)) →
  ∃ plan tid, registered_as w1 sql name plan tid qr ∧
    ∀ fuel' w2 client', query_registrar (w_db w2) = query_registrar (w_db w1) → w_files w2 = w_files w1 →
      Phys.get_tables_involved plan ≠ [] →
      (changed_before w2 plan tid →
       ∃ w3, exec fuel' ExecuteSQL [sql] client' w2 = Ret (w3, Ok (QueryResponse qr)) ∧ same_but_txns w2 w3) ∧
      (¬ changed_before w2 plan tid →
       ∃ w3 tid', exec fuel' ExecuteSQL [sql] client' w2 = run_for fuel' tid' client' sql w3 ∧
         sql_to_query_name (query_registrar (w_db w3)) !! sql = None ∧
         db_catalog (w_db w3) = db_catalog (w_db w2) ∧ db_col_id_gen (w_db w3) = db_col_id_gen (w_db w2) ∧ w_sm w3 = w_sm w2).
Proof.
  intros Hn Hf Hj E. unfold database_command, handle_database_command in E.
  destruct (assign_tid_ok client w) as (w0 & tid & E0 & Hc0 & Hg0 & Hr0 & Hs0 & Hf0). rewrite (se_bind_Ok _ _ _ _ _ E0) in E.
  apply se_bind_inv in E as (w1' & r & E & E1). unfold attempt in E. apply bind_Ret_inv in E as ([w2 r2] & E & E2).
  injection E2 as -> ->. destruct r as [r|]; [|done]. injection E1 as -> ->.
  cbn [run_database_command] in E. rewrite (se_bind_Ok _ _ w0 w0 name eq_refl), (se_bind_Ok _ _ w0 w0 sql eq_refl) in E.
  apply se_bind_inv in E as (w2 & r & E2 & E). apply se_bind_inv in E as (w3 & u & E3 & E). injection E as -> ->.
  assert (db_id (w_db w0) = db_id (w_db w)) as Hi0.
  { unfold get_or_assign_tid in E0. rewrite (se_bind_Ok _ _ w w (w_db w) eq_refl) in E0.
    destruct (client_tids (w_db w) !! client); by injection E0 as <- _. }
  rewrite <-Hr0 in Hn. rewrite <-Hf0, <-Hi0 in Hf. destruct (register_ok fuel w0 w2 tid name sql qr Hn Hf E2) as [plan Hreg].
  destruct (assign_new_ok client w2) as (w4 & tid4 & E4 & _ & _ & Hr4 & _ & Hf4). rewrite (se_bind_Ok _ _ _ _ _ E4) in E3. injection E3 as -> _.
  exists plan, tid. split; [unfold registered_as in *; by rewrite Hr4, Hf4|].
  intros fuel' wx client' Hrx Hfx Hne. assert (registered_as wx sql name plan tid qr) as Hx by (unfold registered_as in *; by rewrite Hrx, Hfx, Hr4, Hf4).
  split; intros Hch; [by apply (execute_cached fuel' wx client' sql name plan tid qr)|by apply (execute_stale fuel' wx client' sql name plan tid qr)].
Qed.

(** ** Failed commands *)

Lemma se_bind_err {St Er A B} (m : SE St Er A) (k : A → SE St Er B) st st' e :
  (x ← m; k x) st = Ret (st', Err e) → m st = Ret (st', Err e) ∨ ∃ st1 x, m st = Ret (st1, Ok x) ∧ k x st1 = Ret (st', Err e).
Proof.
  unfold mbind, SE_bind. destruct (m st) as [[st1 [x|e1]]|]; simpl; [right; by exists st1, x|intros [= -> ->]; by left|done].
Qed.

Lemma se_bind_panic {St Er A B} (m : SE St Er A) (k : A → SE St Er B) st : m st = Panic → (x ← m; k x) st = Panic.
Proof. unfold mbind, SE_bind. by intros ->. Qed.

(** A name that has an id but no table. *)
Definition ghost (catalog : Catalog) (name : list byte) : Prop :=
  ∃ id, Cat.get_table_id_if_exists catalog name = Some id ∧ Cat.get_table catalog id = None.

Lemma create_table_fails name columns constraints (w w' : World ST) e :
  Cat.get_table_id_if_exists (db_catalog (w_db w)) name = None →
  Cat.get_table (db_catalog (w_db w)) (next_id (container_id_generator (db_catalog (w_db w)))) = None →
  create_table name columns constraints w = Ret (w', Err e) → ghost (db_catalog (w_db w')) name.
Proof.
  intros Hn Hfree E. unfold create_table in E. apply se_bind_err in E as [E|(w1 & id & E1 & E)].
  { unfold get_table_id in E. rewrite (se_bind_Ok _ _ w w (w_db w) eq_refl) in E. apply se_bind_err in E as [E|(w1 & [c id] & _ & E)]; [|done].
    unfold lift in E. by destruct (Cat.get_table_id _ _). }
  assert (ghost (db_catalog (w_db w1)) name ∧ Cat.get_table (db_catalog (w_db w1)) id = None) as [Hg Hid].
  { unfold get_table_id in E1. rewrite (se_bind_Ok _ _ w w (w_db w) eq_refl) in E1. apply se_bind_inv in E1 as (w2 & [c i] & E2 & E1).
    apply lift_inv in E2 as [E2 ->]. injection E1 as <- ->. unfold Cat.get_table_id, ContainerIds.get_table_id in E2.
    unfold Cat.get_table_id_if_exists, ContainerIds.get_table_id_if_exists in Hn. rewrite Hn in E2.
    destruct (checked 16 _); [|done]. injection E2 as <- <-. split; [|done]. eexists. split; [by apply lookup_insert_eq|done]. }
  apply se_bind_err in E as [E|(w2 & pks & E2 & E)]; [by injection E as -> _|]. injection E2 as -> _.
  apply se_bind_err in E as [E|(w3 & atts & E3 & E)]; [by injection E as -> _|]. injection E3 as -> _.
  assert (∀ r w4, on_sm (on_store (λ s, create_container s id name)) w3 = Ret (w4, r) → w_db w4 = w_db w3) as Hdb.
  { intros r w4. unfold on_sm. destruct (on_store _ _) as [[m r']|]; [|done]. by intros [= <- _]. }
  apply se_bind_err in E as [E|(w4 & u & E4 & E)]; [by rewrite (Hdb _ _ E)|]. apply Hdb in E4.
  rewrite (se_bind_Ok _ _ w4 w4 (w_db w4) eq_refl) in E. unfold Cat.add_table in E. cbn [ti_c_id] in E. rewrite E4 in E.
  unfold Cat.get_table in Hid. rewrite Hid in E. by cbn in E.
Qed.

Lemma ghost_query_panics fuel catalog name distinct its joins from selection gb having order limit g :
  ghost catalog name →
  Translator.from_sql parse_date catalog Rules.default fuel
    (mkSqlQuery (SelectBody (mkSelect distinct its (mkTableWithJoins (TableRef [name] None) joins :: from) selection gb having)) order limit) g = Panic.
Proof.
  intros (id & Hid & Ht). unfold Translator.from_sql, Translator.run. destruct fuel as [|fuel]; [done|].
  assert (∀ sub st, Translator.process_table_factor catalog sub (TableRef [name] None) st = Panic) as Hp.
  { intros sub st. unfold Translator.process_table_factor, get_table_name. cbn [join_dot]. rewrite Hid. apply se_bind_panic. unfold lift, Cat.get_cols.
    rewrite Hid. cbn [unwrap mbind outcome_bind]. unfold Cat.get_table_schema. unfold Cat.get_table in Ht. by rewrite Ht. }
  cbn [Translator.process_query Translator.process_query_with]. rewrite se_bind_panic; [done|].
  unfold Translator.process_select. apply se_bind_panic. unfold Translator.process_from. apply se_bind_panic. cbn [loop].
  apply se_bind_panic, se_bind_panic. unfold Translator.process_table_with_joins. by apply se_bind_panic.
Qed.

(** C39: A CREATE TABLE that fails leaves the name of the table behind, with an id and no
    table: every query that starts from it panics, instead of failing with the error that the
    table is not found. *)
Theorem failed_create_table_panics name columns constraints (w w' : World ST) e :
  Cat.get_table_id_if_exists (db_catalog (w_db w)) name = None →
  Cat.get_table (db_catalog (w_db w)) (next_id (container_id_generator (db_catalog (w_db w)))) = None →
  create_table name columns constraints w = Ret (w', Err e) →
  ∀ fuel txn distinct its joins from selection gb having order limit,
  run_sql random_range log2 parse_date format_date print_subquery fuel depth txn
    [SQuery (mkSqlQuery (SelectBody (mkSelect distinct its (mkTableWithJoins (TableRef [name] None) joins :: from) selection gb having)) order limit)]
    w' = Panic.
Proof.
  intros Hn Hfree E fuel txn distinct its joins from selection gb having order limit.
  apply create_table_fails in E; [|done..]. cbn [run_sql]. apply se_bind_panic. unfold translate.
  rewrite (se_bind_Ok _ _ w' w' (w_db w') eq_refl). apply se_bind_panic. unfold lift. by rewrite ghost_query_panics.
Qed.

(** ** Import *)

Lemma read_chunk_shorter schema room records ts rest :
  read_chunk parse_date schema room records = Ret (Ok (ts, rest)) → ts = [] ∨ (length rest < length records)%nat.
Proof.
  revert room ts rest. induction records as [|[record|] records IH]; intros room ts rest E; cbn [read_chunk] in E.
  - injection E as <- <-. by left.
  - right. apply bind_Ret_inv in E as ([fs|] & _ & E); [|done]. destruct (room <=? 1); [injection E as <- <-; simpl; lia|].
    apply bind_Ret_inv in E as ([[ts' rest']|] & E' & E); [|done]. injection E as <- <-.
    assert (length rest' ≤ length records)%nat; [|simpl; lia]. destruct (IH _ _ _ E') as [->|]; [|lia].
    clear IH. revert E'. generalize (room - 1). intros room'. destruct records as [|[r|] records]; cbn [read_chunk].
    + by intros [= <-].
    + intros E. apply bind_Ret_inv in E as ([fs'|] & _ & E); [|done]. destruct (room' <=? 1); [done|].
      by apply bind_Ret_inv in E as ([[]|] & _ & E).
    + done.
  - done.
Qed.

(** C24: The import of a CSV file ends: the loop reads at least one record in each round but the
    last, so that one round more than there are records is enough, whatever the records are and
    whatever the managers do with them. *)
Theorem csv_import_ends n schema records table_id tid indexes total (w : World ST) :
  (length records < n)%nat →
  import_records random_range parse_date n schema records table_id tid indexes total w =
  import_records random_range parse_date (S (length records)) schema records table_id tid indexes total w.
Proof.
  enough (∀ k m records total w, (length records < m)%nat → (length records < k)%nat →
    import_records random_range parse_date k schema records table_id tid indexes total w =
    import_records random_range parse_date m schema records table_id tid indexes total w) as Hk by (intros; apply Hk; lia).
  clear. induction k as [|k IH]; intros [|m] records total w Hm Hk; try lia. cbn [import_records].
  unfold mbind, SE_bind, lift, try_, mbind, outcome_bind.
  destruct (read_chunk _ _ _ _) as [[[ts rest]|]|] eqn:Er; [|done..]. destruct ts as [|t ts]; [done|].
  destruct (on_sm _ _) as [[w1 [cnt|]]|]; [|done..]. apply read_chunk_shorter in Er as [|Er]; [done|]. apply IH; lia.
Qed.
End Select.

(** ** Databases over one storage manager *)

Section Sharing.
Context `{MemPool P} `{IndexTrait (HeapStore P)} `{Containers (HeapStore P)} {codec : TupleCodec} `{Unicode}.
(** The containers of the server are those of the heap store. *)
Context (heap_containers : ∀ s c name, create_container s c name = Hs.create_container s c).
Abbreviation world := (World (HeapStore P)).

(** The id that the next new table of the database gets. *)
Definition next_container (w : world) : Z := next_id (container_id_generator (db_catalog (w_db w))).
Definition has_container (w : world) (c : Z) : Prop := is_Some (cid_heapfile_map (mg_sm (w_sm w)) !! c).

Lemma get_table_id_unknown name (w w1 : world) id :
  Cat.get_table_id_if_exists (db_catalog (w_db w)) name = None → get_table_id name w = Ret (w1, Ok id) →
  id = next_container w ∧ w_sm w1 = w_sm w.
Proof.
  intros Hn E. unfold get_table_id in E. rewrite (se_bind_Ok _ _ w w (w_db w) eq_refl) in E.
  apply se_bind_inv in E as (w2 & [c i] & E2 & E). apply lift_inv in E2 as [E2 ->]. injection E as <- <-.
  unfold Cat.get_table_id, ContainerIds.get_table_id in E2.
  unfold Cat.get_table_id_if_exists, ContainerIds.get_table_id_if_exists in Hn. rewrite Hn in E2.
  destruct (checked 16 _); [|done]. by injection E2 as _ <-.
Qed.

Lemma get_table_id_known name (w : world) :
  Cat.get_table_id_if_exists (db_catalog (w_db w)) name = None → 0 ≤ next_container w < 2 ^ 16 - 1 →
  ∃ w1, get_table_id name w = Ret (w1, Ok (next_container w)) ∧ w_sm w1 = w_sm w.
Proof.
  intros Hn Hr. unfold get_table_id. rewrite (se_bind_Ok _ _ w w (w_db w) eq_refl).
  unfold Cat.get_table_id, ContainerIds.get_table_id. unfold next_container in *.
  unfold Cat.get_table_id_if_exists, ContainerIds.get_table_id_if_exists in Hn. rewrite Hn, checked_ok by lia.
  eexists. split; [reflexivity|done].
Qed.

(** A table that was created has the container of its id. *)
Lemma created_has_container name columns constraints (w w' : world) r :
  Cat.get_table_id_if_exists (db_catalog (w_db w)) name = None → create_table name columns constraints w = Ret (w', Ok r) →
  has_container w' (next_container w).
Proof.
  intros Hn E. unfold create_table in E. apply se_bind_inv in E as (w1 & id & E1 & E).
  apply get_table_id_unknown in E1 as [-> _]; [|done].
  apply se_bind_inv in E as (w2 & pks & E2 & E). injection E2 as <- _.
  apply se_bind_inv in E as (w3 & atts & E3 & E). injection E3 as <- _.
  apply se_bind_inv in E as (w4 & u & E4 & E).
  assert (has_container w4 (next_container w)) as H4.
  { unfold on_sm, on_store in E4. rewrite heap_containers in E4. unfold Hs.create_container in E4.
    destruct (cid_heapfile_map _ !! _) eqn:Ec; [done|]. destruct (HeapFile.new _ _) as [[m [hf|e]]|]; [|done..].
    injection E4 as <- _. unfold has_container. cbn. rewrite lookup_insert_eq. done. }
  rewrite (se_bind_Ok _ _ w4 w4 (w_db w4) eq_refl) in E. destruct (Cat.add_table _ _) as [c [v|]]; [|done]. by injection E as <- _.
Qed.

(** C38: Databases share containers. Every database numbers its tables itself, but all of them
    use one heap store. When two databases are to give the same id to their next table, as any
    two new databases are, and the first has created its table, then the second never can
    create one: CREATE TABLE of any new name fails, for well-formed columns with the error
    that the container exists, the managers are as before, and the name keeps an id that has
    no table. This holds whatever ran between the two, as long as no container went away. *)
Theorem databases_share_containers name columns constraints (w1 w1' w2 : world) r name2 columns2 constraints2 :
  Cat.get_table_id_if_exists (db_catalog (w_db w1)) name = None →
  create_table name columns constraints w1 = Ret (w1', Ok r) →
  (∀ c, has_container w1' c → has_container w2 c) →
  next_container w2 = next_container w1 → 0 ≤ next_container w2 < 2 ^ 16 - 1 →
  Cat.get_table_id_if_exists (db_catalog (w_db w2)) name2 = None →
  Cat.get_table (db_catalog (w_db w2)) (next_container w2) = None →
  ∃ w2' e, create_table name2 columns2 constraints2 w2 = Ret (w2', Err e) ∧ w_sm w2' = w_sm w2 ∧
    ghost (db_catalog (w_db w2')) name2 ∧
    ∀ pks atts, SQLParser.get_pks columns2 constraints2 = Ok pks → attributes_of pks columns2 = Ok atts →
      e = CrustyErr "Container already exists".
Proof.
  intros Hn E Hkept Heq Hr Hn2 Hfree. apply created_has_container in E as Hc; [|done]. apply Hkept in Hc. rewrite <-Heq in Hc.
  enough (∃ w2' e, create_table name2 columns2 constraints2 w2 = Ret (w2', Err e) ∧ w_sm w2' = w_sm w2 ∧
    ∀ pks atts, SQLParser.get_pks columns2 constraints2 = Ok pks → attributes_of pks columns2 = Ok atts →
      e = CrustyErr "Container already exists") as (w2' & e & E2 & Hsm & He).
  { exists w2', e. split_and!; [done|done|by eapply create_table_fails|done]. }
  destruct (get_table_id_known name2 w2 Hn2 Hr) as (w3 & E3 & Hsm). unfold create_table. rewrite (se_bind_Ok _ _ _ _ _ E3).
  destruct (SQLParser.get_pks columns2 constraints2) as [pks|x]; [|by exists w3, (CrustyErr x)].
  rewrite (se_bind_Ok (try_ (Ok pks)) _ w3 w3 pks eq_refl).
  destruct (attributes_of pks columns2) as [atts|x] eqn:Ea.
  2: { exists w3, x. split_and!; [done|done|]. intros ? ? [= <-]. by rewrite Ea. }
  exists w3, (CrustyErr "Container already exists"). split_and!; [|done|done].
  rewrite (se_bind_Ok (try_ (Ok atts)) _ w3 w3 atts eq_refl).
  unfold mbind at 1, SE_bind at 1, on_sm, on_store. rewrite heap_containers. unfold Hs.create_container.
  unfold has_container in Hc. rewrite Hsm. destruct Hc as [hf Hc]. rewrite Hc. cbn. rewrite <-Hsm. by destruct w3 as [? [] ? ? ?].
Qed.
End Sharing.

(** ** Inserting rows *)

Section Insertion.
Context {ST : Type} `{StorageLaws ST} `{BulkInsert ST} `{!BulkLaws ST} `{IndexTrait ST} {codec : TupleCodec}.
Context (random_range : nat → Z) (random_ok : ∀ n, 0 ≤ random_range n < SAMPLE_SIZE).
#[local] Instance reservoir : StatManager (Managers ST) := mg_records random_range.

(** An insertion into the index answers, and keeps the values of the storage manager. *)
Definition index_keeps (ix : IndexInfo) : Prop :=
  ∀ s a key v, st_rep s a → ∃ s' r, ix_insert_entry s (ii_index_id ix) key v = Ret (s', r) ∧ st_rep s' a.

(** One of the indexes refused an entry with the error [e]. *)
Definition index_refused (indexes : list IndexInfo) (e : CrustyError) : Prop :=
  ∃ ix (s s' : ST) key v, ix ∈ indexes ∧ ix_insert_entry s (ii_index_id ix) key v = Ret (s', Err e).

Lemma insert_entries_ok (m : Managers ST) a t v indexes :
  st_rep (mg_sm m) a → Forall index_keeps indexes → keys_in_range indexes t →
  ∃ s' r, Mutator.insert_entries m t v indexes = Ret (mkManagers s' (mg_stats m), r) ∧ st_rep s' a ∧
    match r with Ok _ => True | Err e => index_refused indexes e end.
Proof.
  revert m. induction indexes as [|ix indexes IH]; intros m Hrep HF Hk.
  { exists (mg_sm m), (Ok tt). destruct m. done. }
  apply Forall_cons in HF as [Hix HF], Hk as [Hkx Hk]. cbn [Mutator.insert_entries].
  destruct (extract_key_ok t _ Hkx) as [key ->]. destruct (Hix (mg_sm m) a key v Hrep) as (s1 & r & E & Hrep1).
  rewrite bind_Ret. cbn [ix_insert_entry mg_index]. unfold on_store. rewrite E, !bind_Ret.
  destruct r as [u|e]; [|exists s1, (Err e); split_and!; [done|done|]; exists ix, (mg_sm m), s1, key, v; split; [by left|done]].
  destruct (IH (mkManagers s1 (mg_stats m)) Hrep1 HF Hk) as (s2 & r & E2 & Hrep2 & Hr). exists s2, r. split_and!; [done|done|].
  destruct r; [done|]. destruct Hr as (ix' & s' & s'' & k & w & Hin & Ee). exists ix', s', s'', k, w. split; [by right|done].
Qed.

Lemma note_tuples_ok (m : Managers ST) a c ts ids indexes sample all :
  st_rep (mg_sm m) a → st_samples (mg_stats m) !! c = Some sample → sampled all sample → zlen all + zlen ts < 2 ^ 64 →
  Forall index_keeps indexes → Forall (keys_in_range indexes) ts → Forall (λ id, container_id id = c) ids → length ids = length ts →
  ∃ m' r, Mutator.note_tuples m (zip ts ids) indexes = Ret (m', r) ∧ st_rep (mg_sm m') a ∧ states (mg_stats m') = states (mg_stats m) ∧
    match r with
    | Ok _ => ∃ sample', st_samples (mg_stats m') !! c = Some sample' ∧ sampled (all ++ ts) sample'
    | Err e => index_refused indexes e
    end.
Proof.
  intros Hrep Hc Hs Hb Hix. revert m ids all sample Hrep Hc Hs Hb. induction ts as [|t ts IH]; intros m ids all sample Hrep Hc Hs Hb Hk Hids Hlen.
  { exists m, (Ok tt). split_and!; [done..|]. exists sample. by rewrite app_nil_r. }
  destruct ids as [|id ids]; [done|]. apply Forall_cons in Hk as [Ht Hk], Hids as [Hid Hids]. simpl in Hid. subst c.
  assert (zlen (t :: ts) = zlen ts + 1) as Hz by len. pose proof (zlen_nonneg ts).
  destruct (new_record_sampled random_range random_ok (mg_stats m) t id sample all Hc Hs ltac:(lia)) as (st & c1 & E & Hs1 & Hm1 & Hst).
  cbn [zip zip_with Mutator.note_tuples new_record reservoir mg_records]. rewrite E, !bind_Ret.
  destruct (insert_entries_ok (mkManagers (mg_sm m) st) a t id indexes Hrep Hix Ht) as (s2 & r & E2 & Hrep2 & Hr).
  rewrite E2, bind_Ret. destruct r as [u|e]; [|by exists (mkManagers s2 st), (Err e)]. cbn [mg_stats].
  assert (zlen (all ++ [t]) = zlen all + 1) as Hza by len.
  destruct (IH (mkManagers s2 st) ids (all ++ [t]) c1) as (m' & r & E3 & Hrep3 & Hst3 & Hr3);
    [done|cbn [mg_stats]; rewrite Hm1; apply lookup_insert_eq|done|lia|done|done|by injection Hlen|].
  exists m', r. cbn [mg_stats] in Hst3. split_and!; [done|done|congruence|]. destruct r; [|done]. by rewrite <-app_assoc in Hr3.
Qed.

(** C11: An INSERT stores its rows. When every literal converts and no row has two offences,
    the rows without offences are stored in the container, each under a new id and with the
    bytes of its tuple; nothing else changes, and every value stored before is kept. The
    number of the rows is returned, the statistics count and sample them, and the timestamp
    of the table is the transaction; the one error is that of an index of the table that
    refuses an entry, and then the rows stay stored. This holds over any storage manager with
    the storage laws whose bulk insertion inserts one by one, as both of the system do, that
    is ready for each insertion; the table is registered with the statistics, which sampled
    the rows inserted before; the columns of the indexes are columns of the table, and an
    insertion into an index answers and leaves the stored values alone. *)
Theorem import_stores_rows (m : Managers ST) a c schema rows ts tid indexes sample all :
  st_rep (mg_sm m) a → is_Some (a !! c) → st_samples (mg_stats m) !! c = Some sample → sampled all sample →
  Mutator.convert_insert_vals rows = Ret (Ok (mkConvertedResult ts [])) →
  Forall (λ rec, (offences schema rec ≤ 1)%nat) ts →
  let kept := filter (λ rec, offences schema rec = 0%nat) ts in
  Forall index_keeps indexes → Forall (keys_in_range indexes) kept → zlen all + zlen kept < 2 ^ 64 →
  ready_each (mg_sm m) c (tuple_to_bytes <$> kept) →
  ∃ m' r ids a', Mutator.import_tuples m rows c schema tid indexes = Ret (m', r) ∧ st_rep (mg_sm m') a' ∧
    extended a a' c ids (tuple_to_bytes <$> kept) ∧
    match r with
    | Ok n => n = zlen kept ∧ (∃ sample', st_samples (mg_stats m') !! c = Some sample' ∧ sampled (all ++ kept) sample') ∧
        (is_Some (states (mg_stats m) !! c) → Reservoir.get_ts (mg_stats m') c = (tid, tid))
    | Err e => index_refused indexes e
    end.
Proof.
  intros Hrep Hc Hsam Hall Hconv Hoff kept Hix Hkeys Hb Hready. unfold Mutator.import_tuples.
  rewrite Hconv, bind_Ret, (validate_ok schema (mkConvertedResult ts []) Hoff), bind_Ret. cbn [unconverted converted].
  fold kept. destruct (insert_each_ok (mg_sm m) a c _ Hrep Hc Hready) as (s1 & ids & a1 & E & Hrep1 & Hext).
  unfold Mutator.insert_validated_tuples. cbn [insert_values mg_bulk]. unfold on_store.
  rewrite (bulk_each (mg_sm m) a c _ Hrep Hc), E, !bind_Ret.
  pose proof (Forall2_length _ _ _ (proj1 Hext)) as Hlen. rewrite length_fmap in Hlen.
  assert (zlen ids = zlen kept) as Hz by (unfold zlen; lia). rewrite Hz, Z.eqb_refl.
  assert (Forall (λ id, container_id id = c) ids) as Hids.
  { apply Forall_forall. intros id Hin. apply list_elem_of_lookup in Hin as [k Hk].
    by destruct (Forall2_lookup_l _ _ _ _ _ (proj1 Hext) Hk) as (? & _ & ? & _). }
  destruct (note_tuples_ok (mkManagers s1 (mg_stats m)) a1 c kept ids indexes sample all) as (m2 & r & -> & Hrep2 & Hst & Hr); [done..|].
  rewrite bind_Ret. destruct r as [u|e]; [|by exists m2, (Err e), ids, a1].
  exists (set_ts m2 c tid), (Ok (zlen kept)), ids, a1. split_and!; try done.
  intros [x Hx]. cbn. unfold Reservoir.get_ts, Reservoir.set_ts. cbn [states]. cbn in Hst. by rewrite Hst, lookup_alter_eq, Hx.
Qed.
End Insertion.
