(* ===== verification/Protocol.v ===== *)
(** * The protocol of clients and server

    Models the texts of commands ([parse_command] of [common/src/commands.rs]), the
    client ([cli-crusty/src/lib.rs]) and the loop of the server over the commands of a
    connection ([handle_client_request], [read_command] and [send_response] of
    [server/src/server.rs]).

    A connection is two streams of bytes. The side that reads sees a list of pieces, each of
    which is what one [read] finds (or the first part of it, when it is larger than the
    buffer); after the last piece the stream is closed. CBOR is a library, and a parameter.
    Not modelled: failing sockets, the editor of command lines, and the threads of other
    clients, whose shutdown would be seen between two commands. *)

From stdpp Require Import strings gmap.
From coqutil Require Import Byte Word.LittleEndianList.
From S2P Require Import Prelude Common StorageSpec Field FieldCodec SqlAst Tuple ByteCode Expr.
From S2P Require Import OpIterator OpAggregate PhysicalPlan DbCatalog OpMutate OpDyn PlanToOp.
From S2P Require Import Executor Mutator Logical Translate Optimizer Registrar Statistics.
From S2P Require Import CostModel Server.

Open Scope Z_scope.

(** ** Texts *)

(** [char::is_whitespace], by the bytes of the character. *)
Definition white1 (b : byte) : bool := let z := byte.unsigned b in (z =? 32) || ((9 <=? z) && (z <=? 13)).
Definition white2 (b c : byte) : bool :=
  (byte.unsigned b =? 0xC2) && ((byte.unsigned c =? 0x85) || (byte.unsigned c =? 0xA0)).
Definition white3 (b c d : byte) : bool :=
  let '(b, c, d) := (byte.unsigned b, byte.unsigned c, byte.unsigned d) in
  ((b =? 0xE1) && (c =? 0x9A) && (d =? 0x80)) ||
  ((b =? 0xE2) && (c =? 0x80) && (((0x80 <=? d) && (d <=? 0x8A)) || (d =? 0xA8) || (d =? 0xA9) || (d =? 0xAF))) ||
  ((b =? 0xE2) && (c =? 0x81) && (d =? 0x9F)) ||
  ((b =? 0xE3) && (c =? 0x80) && (d =? 0x80)).

(** Removes whitespace from the front of a text, or of a text that is written backwards. *)
Fixpoint trim_front (backwards : bool) (s : list byte) : list byte :=
  match s with
  | [] => []
  | b :: r =>
      if white1 b then trim_front backwards r else
      match r with
      | [] => s
      | c :: r2 =>
          if (if backwards then white2 c b else white2 b c) then trim_front backwards r2 else
          match r2 with
          | [] => s
          | d :: r3 => if (if backwards then white3 d c b else white3 b c d) then trim_front backwards r3 else s
          end
      end
  end.
Definition trim_start : list byte → list byte := trim_front false.
Definition trim (s : list byte) : list byte := reverse (trim_front true (reverse (trim_start s))).

(** [split] at a character. *)
Fixpoint split_at (sep : byte) (s : list byte) : list (list byte) :=
  match s with
  | [] => [[]]
  | b :: s =>
      if bool_decide (b = sep) then [] :: split_at sep s
      else match split_at sep s with p :: ps => (b :: p) :: ps | [] => [[b]] end
  end.

Definition pop_if (c : byte) (s : list byte) : option (list byte) :=
  if bool_decide (last s = Some c) then Some (take (length s - 1) s) else None.

Fixpoint strip_prefix (p s : list byte) : option (list byte) :=
  match p, s with
  | [], _ => Some s
  | b :: p, c :: s => if bool_decide (b = c) then strip_prefix p s else None
  | _ :: _, [] => None
  end.

(** The first [limit] words are arguments, and what is left belongs to the last of them. *)
Definition split_args (limit : nat) (cmd : list byte) : outcome (list (list byte)) :=
  let args := take limit (split_at Byte.x20 cmd) in
  match join_with [Byte.x20] (drop limit (split_at Byte.x20 cmd)) with
  | [] => Ret args
  | remaining =>
      arg ← unwrap (args !! (limit - 1)%nat);
      Ret (<[(limit - 1)%nat := arg ++ [Byte.x20] ++ remaining]> args)
  end.

(** A name of a command is followed by a space, or by nothing. *)
Fixpoint find_command (commands : list (list byte * nat * Command * list byte)) (cmd : list byte) : outcome (option CommandWithArgs) :=
  match commands with
  | [] => Ret None
  | (name, limit, c, _) :: commands =>
      match strip_prefix name cmd with
      | Some ([] as rest) | Some (Byte.x20 :: _ as rest) =>
          match limit with
          | O => Ret (Some (mkCommand c []))
          | _ => args ← split_args limit (trim_start rest); Ret (Some (mkCommand c args))
          end
      | _ => find_command commands cmd
      end
  end.

Definition strip_newline (cmd : list byte) : list byte :=
  match pop_if Byte.x0a cmd with Some cmd => default cmd (pop_if Byte.x0d cmd) | None => cmd end.

Definition parse_command (cmd : list byte) : outcome (option CommandWithArgs) :=
  match strip_newline cmd with
  | Byte.x5c :: cmd => find_command COMMANDS cmd
  | cmd => Ret (Some (mkCommand (DB ExecuteSQL) [cmd]))
  end.

Definition split_into_commands (content : list byte) : list (list byte) :=
  map (λ b, if bool_decide (b = Byte.x0a) then Byte.x20 else b) <$>
  filter (λ cmd, cmd ≠ []) (trim <$> split_at Byte.x3b content).

(** ** Streams *)

Abbreviation stream := (list (list byte)).

Definition read (n : Z) (s : stream) : list byte * stream :=
  match s with
  | [] => ([], [])
  | piece :: s => (take (Z.to_nat n) piece, match drop (Z.to_nat n) piece with [] => s | rest => rest :: s end)
  end.

Definition CHUNK_SIZE : Z := 1024 * 32.

(** Reads until [length] bytes are there, or the stream ends. *)
Fixpoint read_more (fuel : nat) (length : Z) (data : list byte) (s : stream) : outcome (list byte * stream) :=
  if zlen data <? length then
    match fuel with
    | O => Panic
    | S fuel =>
        let '(bytes, s) := read (Z.min CHUNK_SIZE (length - zlen data)) s in
        match bytes with [] => Ret (data, s) | _ => read_more fuel length (data ++ bytes) s end
    end
  else Ret (data, s).

(** Writes from [start], in chunks. *)
Fixpoint write_chunks (fuel : nat) (start : Z) (bytes : list byte) : outcome stream :=
  if start <? zlen bytes then
    match fuel with
    | O => Panic
    | S fuel =>
        let end_ := Z.min (start + CHUNK_SIZE) (zlen bytes) in
        rest ← write_chunks fuel end_ bytes;
        Ret (take (Z.to_nat (end_ - start)) (drop (Z.to_nat start) bytes) :: rest)
    end
  else Ret [].

(** ** The two sides of a connection *)

(** What the server does with a command of a client: it takes and returns the shutdown signal
    and the quiet mode, and tells whether the connection ends. *)
Class Handler (SV : Type) :=
  handle : bool → bool → SV → CommandWithArgs → Z → outcome (bool * bool * SV * (bool * Response)).

(** What is sent in quiet mode. *)
Definition quiet_response (quiet_mode : bool) (response : Response) : Response :=
  if quiet_mode then
    match response with
    | SystemErr _ | QueryExecutionError _ | QuietErr => QuietErr
    | ShutdownResponse from_client => ShutdownResponse from_client
    | _ => QuietOk
    end
  else response.

(** The CBOR forms of commands and responses. *)
Class Cbor := {
  cmd_to_cbor : CommandWithArgs → option (list byte);
  cmd_from_cbor : list byte → option CommandWithArgs;
  resp_to_cbor : Response → option (list byte);
  resp_from_cbor : list byte → option Response
}.

Section Connection.
Context {SV : Type} `{Handler SV} `{Cbor}.

(** The writes of a response: its length, big-endian, and its bytes. *)
Definition send_response (response : Response) (quiet_mode : bool) : outcome (result CrustyError stream) :=
  match resp_to_cbor (quiet_response quiet_mode response) with
  | None => Ret (Err (SerializationError "{}"))
  | Some response_bytes =>
      writes ← write_chunks (length response_bytes) 0 response_bytes;
      Ret (Ok (reverse (le_split 8 (zlen response_bytes)) :: writes))
  end.

Definition read_command (s : stream) : option CommandWithArgs * stream :=
  let '(bytes, s) := read 1024 s in (match bytes with [] => None | _ => cmd_from_cbor bytes end, s).

(** Serves the commands of [s]; returns what is written. *)
Fixpoint handle_client_request (fuel : nat) (client_id : Z) (signal quiet_mode : bool) (sv : SV) (s : stream) :
  outcome (SV * bool * stream) :=
  match fuel with
  | O => Panic
  | S fuel =>
      match read_command s with
      | (None, _) => Ret (sv, signal, [])
      | (Some request_command, s) =>
          '(signal, quiet_mode, sv, (should_break, response)) ← handle signal quiet_mode sv request_command client_id;
          sent ← send_response response quiet_mode;
          match sent with
          | Err _ => Ret (sv, signal, [])
          | Ok writes =>
              if should_break || signal then Ret (sv, signal, writes)
              else '(sv, signal, more) ← handle_client_request fuel client_id signal quiet_mode sv s; Ret (sv, signal, writes ++ more)
          end
      end
  end.

(** Room is reserved for the announced length. *)
Definition receive_response (s : stream) : outcome (result CrustyError (list byte) * stream) :=
  '(length_bytes, s) ← read_more 8 8 [] s;
  if zlen length_bytes =? 8 then
    let response_length := le_combine (reverse length_bytes) in
    _ ← guard_or_panic (response_length <? 2 ^ 63);
    '(response_data, s) ← read_more (Z.to_nat response_length) response_length [] s;
    Ret (if zlen response_data =? response_length then Ok response_data else Err (CrustyErr "Incomplete response received"), s)
  else Ret (Err (IOError "failed to fill whole buffer"), s).

(** The client returns the requests it writes, the response, and what it has not read. *)
Definition send_and_wait (request : CommandWithArgs) (s : stream) : outcome (stream * result CrustyError Response * stream) :=
  match cmd_to_cbor request with
  | None => Ret ([], Err (c_err "Failed to send request"), s)
  | Some bytes =>
      '(r, s) ← receive_response s;
      Ret ([bytes],
           match r with
           | Err e => Err e
           | Ok [] => Ok QuietOk
           | Ok response_data =>
               match resp_from_cbor response_data with Some resp => Ok resp | None => Err (c_err "Failed to deserialize response") end
           end, s)
  end.

Definition client_command (text : list byte) (s : stream) : outcome (stream * result CrustyError Response * stream) :=
  request ← parse_command text;
  match request with
  | Some request => send_and_wait request s
  | None => Ret ([], Err (c_err "Invalid request"), s)
  end.

Fixpoint send_all (commands : list (list byte)) (s : stream) : outcome (stream * result CrustyError (list Response) * stream) :=
  match commands with
  | [] => Ret ([], Ok [], s)
  | text :: commands =>
      '(sent, r, s) ← client_command text s;
      match r with
      | Err e => Ret (sent, Err e, s)
      | Ok response =>
          '(more, rs, s) ← send_all commands s;
          Ret (sent ++ more, match rs with Ok responses => Ok (response :: responses) | Err e => Err e end, s)
      end
  end.
Definition send_requests_from_buffer (content : list byte) : stream → outcome (stream * result CrustyError (list Response) * stream) :=
  send_all (split_into_commands content).

(** Whether the server keeps running. *)
Definition handle_response (response : Response) : bool :=
  match response with ShutdownResponse _ => false | _ => true end.

(** Typed lines; errors are printed, and the next line is read. *)
Fixpoint process_cli_loop (lines : list (list byte)) (s : stream) : outcome (stream * list (result CrustyError Response) * stream) :=
  match lines with
  | [] => Ret ([], [], s)
  | [] :: lines => process_cli_loop lines s
  | line :: lines =>
      '(sent, r, s) ← client_command line s;
      if match r with Ok response => handle_response response | Err _ => true end then
        '(more, rs, s) ← process_cli_loop lines s; Ret (sent ++ more, r :: rs, s)
      else Ret (sent, [r], s)
  end.
End Connection.

(** The handler of the server. *)
Section ServerHandler.
Context {ST : Type} `{ScanTrait ST} `{StorageTrait ST} `{IndexTrait ST} `{BulkInsert ST} `{Containers ST} `{TupleCodec} `{Unicode}.
Context (random_range : nat → Z) (log2 : f64 → f64).
Context (parse : list byte → option (list Statement)).
Context (csv_records : list byte → list (option (list (list byte)))).
Context (to_json : QueryResult → list byte) (from_json : list byte → option QueryResult).
Context (parse_date : list byte → option Z) (format_date : Z → list byte).
Context (print_subquery : PhysicalRelExpr → Z → list byte) (fuel depth : nat) (db_path : list byte).
Context (get_database_id : list byte → Z) (db_to_json : Z * list byte * Catalog * Z → list byte).
Context (stats_to_json : SavedStats → list byte) (shutdown_purge : bool).

Definition server_handler : Handler (ServerState (ST := ST)) := λ signal quiet_mode sv c client_id,
  handle_command random_range log2 parse csv_records to_json from_json parse_date format_date print_subquery fuel depth db_path
    get_database_id db_to_json stats_to_json shutdown_purge signal quiet_mode sv (command c) (args c) client_id.
End ServerHandler.

(** ** Texts of commands *)

Lemma join_cons sep p ps : ps ≠ [] → join_with sep (p :: ps) = p ++ sep ++ join_with sep ps.
Proof. by destruct ps. Qed.

Lemma split_at_not_nil sep s : split_at sep s ≠ [].
Proof. destruct s as [|b s]; [done|]. simpl. case_bool_decide; [done|]. by destruct (split_at sep s). Qed.

Lemma join_split sep s : join_with [sep] (split_at sep s) = s.
Proof.
  induction s as [|b s IH]; [done|]. cbn [split_at]. pose proof (split_at_not_nil sep s) as Hn. case_bool_decide as Hb.
  - subst b. rewrite join_cons by done. by rewrite IH.
  - destruct (split_at sep s) as [|p ps]; [done|]. destruct ps; simpl in *; by rewrite IH.
Qed.

Lemma split_at_app sep p s : sep ∉ p → split_at sep (p ++ sep :: s) = p :: split_at sep s.
Proof.
  induction p as [|b p IH]; intros Hp; cbn [app split_at]; [by rewrite bool_decide_eq_true_2|].
  apply not_elem_of_cons in Hp as [Hb Hp]. rewrite bool_decide_eq_false_2 by congruence. by rewrite (IH Hp).
Qed.

Lemma split_at_nosep sep p : sep ∉ p → split_at sep p = [p].
Proof.
  induction p as [|b p IH]; intros Hp; [done|]. cbn [split_at].
  apply not_elem_of_cons in Hp as [Hb Hp]. rewrite bool_decide_eq_false_2 by congruence. by rewrite (IH Hp).
Qed.

Lemma split_join sep init l : Forall (λ p, sep ∉ p) init → split_at sep (join_with [sep] (init ++ [l])) = init ++ split_at sep l.
Proof.
  induction 1 as [|p init Hp _ IH]; [done|]. cbn [app]. rewrite join_cons by (by destruct init). cbn [app].
  by rewrite split_at_app, IH.
Qed.

(** Arguments as they come out of a text: only the last has spaces, not just one at its end. *)
Definition spaced (l : list byte) : bool := bool_decide (drop 1 (split_at Byte.x20 l) ≠ [[]]).
Lemma split_args_ok init l : Forall (λ p, Byte.x20 ∉ p) init → spaced l = true →
  split_args (S (length init)) (join_with [Byte.x20] (init ++ [l])) = Ret (init ++ [l]).
Proof.
  intros Hi Hl. apply bool_decide_eq_true in Hl. unfold split_args. rewrite split_join by done.
  pose proof (join_split Byte.x20 l) as Hj. pose proof (split_at_not_nil Byte.x20 l) as Hn.
  destruct (split_at Byte.x20 l) as [|w ws]; [done|]. cbn [drop] in Hl.
  rewrite (cons_middle w init ws), (app_assoc init [w]). replace (S (length init)) with (length (init ++ [w])) by (rewrite length_app; simpl; lia).
  rewrite take_app_length, drop_app_length. rewrite length_app; cbn [length]. replace (length init + 1 - 1)%nat with (length init) by lia.
  destruct ws as [|x ws]; [by rewrite <-Hj|]. rewrite join_cons in Hj by done.
  destruct (join_with [Byte.x20] (x :: ws)) as [|b r] eqn:E.
  - destruct x, ws; by try destruct ws.
  - rewrite list_lookup_middle by done. cbn [unwrap mbind outcome_bind]. rewrite insert_app_r_alt by lia.
    rewrite Nat.sub_diag. cbn [list_insert insert]. by rewrite Hj.
Qed.

Lemma strip_prefix_app p s : strip_prefix p (p ++ s) = Some s.
Proof. induction p as [|b p IH]; [by destruct s|]. simpl. by rewrite bool_decide_eq_true_2. Qed.

Lemma strip_prefix_Some p s r : strip_prefix p s = Some r → s = p ++ r.
Proof.
  revert s. induction p as [|b p IH]; intros s E; [by injection E|]. destruct s as [|c s]; [done|]. simpl in E.
  case_bool_decide; [|done]. subst. simpl. by rewrite (IH s E).
Qed.

(** A name is followed by a space, or by nothing. *)
Definition ends_name (rest : list byte) : bool := match rest with [] => true | b :: _ => bool_decide (b = Byte.x20) end.

Definition with_args (c : Command) (limit : nat) (rest : list byte) : outcome (option CommandWithArgs) :=
  match limit with
  | O => Ret (Some (mkCommand c []))
  | _ => args ← split_args limit (trim_start rest); Ret (Some (mkCommand c args))
  end.

Lemma find_command_cons name limit c d commands cmd :
  find_command ((name, limit, c, d) :: commands) cmd =
  match strip_prefix name cmd with
  | Some rest => if ends_name rest then with_args c limit rest else find_command commands cmd
  | None => find_command commands cmd
  end.
Proof. cbn [find_command]. destruct (strip_prefix name cmd) as [[|[] r]|]; reflexivity. Qed.

Lemma same_name p q r rest :
  Byte.x20 ∉ p → Byte.x20 ∉ q → ends_name r = true → ends_name rest = true → p ++ r = q ++ rest → p = q.
Proof.
  revert q. induction p as [|b p IH]; intros [|c q] Hp Hq Hr Hs E; [done| | |].
  - cbn [app] in E. subst r. simpl in Hr. apply bool_decide_eq_true in Hr. set_solver.
  - cbn [app] in E. subst rest. simpl in Hs. apply bool_decide_eq_true in Hs. set_solver.
  - injection E as -> E. f_equal. apply (IH q); set_solver.
Qed.

Abbreviation names commands := ((λ x : list byte * nat * Command * list byte, x.1.1.1) <$> commands).

Lemma find_command_ok commands name limit c d rest :
  NoDup (names commands) → Forall (λ n, Byte.x20 ∉ n) (names commands) → ends_name rest = true →
  (name, limit, c, d) ∈ commands → find_command commands (name ++ rest) = with_args c limit rest.
Proof.
  intros Hd Hf Hr. induction commands as [|[[[n l] c'] d'] commands IH]; intros Hin; [by apply not_elem_of_nil in Hin|].
  rewrite find_command_cons. cbn [fmap list_fmap fst] in Hd, Hf. apply NoDup_cons in Hd as [Hn Hd]. apply Forall_cons in Hf as [Hs Hf].
  apply elem_of_cons in Hin as [[= -> -> -> ->]|Hin]; [by rewrite strip_prefix_app, Hr|].
  destruct (strip_prefix n (name ++ rest)) as [r|] eqn:E; [|by apply IH]. apply strip_prefix_Some in E.
  destruct (ends_name r) eqn:Er; [|by apply IH]. exfalso.
  assert (name ∈ names commands) as Hname by (apply list_elem_of_fmap; by exists (name, limit, c, d)).
  rewrite Forall_forall in Hf. rewrite (same_name n name r rest) in Hn; auto.
Qed.

Lemma find_command_unknown commands name rest :
  Forall (λ n, Byte.x20 ∉ n) (names commands) → Byte.x20 ∉ name → ends_name rest = true → name ∉ names commands →
  find_command commands (name ++ rest) = Ret None.
Proof.
  intros Hf Hname Hr. induction commands as [|[[[n l] c] d] commands IH]; intros Hin; [done|].
  rewrite find_command_cons. cbn [fmap list_fmap fst] in Hf, Hin. apply Forall_cons in Hf as [Hs Hf]. apply not_elem_of_cons in Hin as [Hn Hin].
  destruct (strip_prefix n (name ++ rest)) as [r|] eqn:E; [|by apply IH]. apply strip_prefix_Some in E.
  destruct (ends_name r) eqn:Er; [|by apply IH]. destruct Hn. symmetry. by apply (same_name n name r rest).
Qed.

Lemma COMMANDS_names : NoDup (names COMMANDS) ∧ Forall (λ n, Byte.x20 ∉ n) (names COMMANDS).
Proof. split; apply (bool_decide_unpack _); vm_compute; exact I. Qed.

Lemma strip_newline_ok cmd : last cmd ≠ Some Byte.x0a → strip_newline cmd = cmd.
Proof. intros Hl. unfold strip_newline, pop_if. by rewrite bool_decide_eq_false_2. Qed.

(** The text of a command, and arguments that a text can have. *)
Definition command_text (name : list byte) (args : list (list byte)) : list byte :=
  Byte.x5c :: name ++ mjoin ((λ a, Byte.x20 :: a) <$> args).

Definition args_ok (args : list (list byte)) : bool :=
  match last args with
  | None => true
  | Some l =>
      forallb (λ p, bool_decide (Byte.x20 ∉ p)) (take (length args - 1) args) && spaced l &&
      bool_decide (trim_start (join_with [Byte.x20] args) = join_with [Byte.x20] args)
  end.

Lemma spaced_join args : args ≠ [] → mjoin ((λ a, Byte.x20 :: a) <$> args) = Byte.x20 :: join_with [Byte.x20] args.
Proof.
  induction args as [|a args IH]; intros Hn; [done|]. destruct args as [|b args]; [simpl; by rewrite app_nil_r|].
  rewrite join_cons by done. change ((Byte.x20 :: a) ++ mjoin ((λ a, Byte.x20 :: a) <$> b :: args) = Byte.x20 :: a ++ [Byte.x20] ++ join_with [Byte.x20] (b :: args)).
  by rewrite (IH ltac:(done)).
Qed.

(** C27: Commands are read as they are meant. The text of a command, its name after a
    backslash and its arguments after spaces, is read as this command with these arguments,
    whatever other names begin the same way, when it does not end in a newline, the first
    argument does not begin with whitespace, and only the last argument has spaces (other
    than a single one at its end). A text that does not begin with a backslash, nor ends in a
    newline, is a statement of SQL; a backslash and a word that is not the name of a command
    are no command. *)
Theorem command_roundtrip :
  (∀ name limit c d args, (name, limit, c, d) ∈ COMMANDS → length args = limit → args_ok args = true →
     last (command_text name args) ≠ Some Byte.x0a → parse_command (command_text name args) = Ret (Some (mkCommand c args))) ∧
  (∀ sql, head sql ≠ Some Byte.x5c → last sql ≠ Some Byte.x0a → parse_command sql = Ret (Some (mkCommand (DB ExecuteSQL) [sql]))) ∧
  (∀ word rest, Byte.x20 ∉ word → word ∉ names COMMANDS → ends_name rest = true →
     last (Byte.x5c :: word ++ rest) ≠ Some Byte.x0a → parse_command (Byte.x5c :: word ++ rest) = Ret None).
Proof.
  split_and!; [|intros [|[] sql] Hh Hl; unfold parse_command; rewrite strip_newline_ok by done; done|]; cycle 1.
  { intros word rest Hw Hin Hr Hl. unfold parse_command. rewrite strip_newline_ok by done.
    apply find_command_unknown; [apply COMMANDS_names|done..]. }
  intros name limit c d args Hin Hlen Hok Hnl. unfold parse_command. rewrite strip_newline_ok by done. unfold command_text.
  destruct COMMANDS_names as [Hd Hf]. rewrite (find_command_ok COMMANDS name limit c d); [|done..| |done].
  2: by destruct args; cbn; [|rewrite bool_decide_eq_true_2].
  destruct (decide (args = [])) as [->|Hn]; [by subst limit|]. rewrite spaced_join by done.
  destruct (exists_last Hn) as (init & l & ->). unfold args_ok in Hok. rewrite last_snoc in Hok.
  rewrite length_app, Nat.add_sub, take_app_length in Hok. apply andb_prop in Hok as [Hok Ht]. apply andb_prop in Hok as [Hi Hl].
  apply bool_decide_eq_true in Ht. rewrite length_app, Nat.add_1_r in Hlen. subst limit. unfold with_args.
  change (trim_start (Byte.x20 :: ?x)) with (trim_start x). rewrite Ht, split_args_ok; [done| |done].
  apply Forall_forall. intros p Hp. rewrite forallb_forall in Hi. apply (bool_decide_eq_true_1 _ (Hi p (proj1 (list_elem_of_In _ _) Hp))).
Qed.

(** ** Streams *)

Lemma mjoin_cons {A} (l : list A) ls : mjoin (l :: ls) = l ++ mjoin ls.
Proof. done. Qed.

Lemma read_ok n s x bs : 0 < n → Forall (λ p, p ≠ []) s → mjoin s = x :: bs →
  ∃ got s', read n s = (got, s') ∧ got ≠ [] ∧ zlen got ≤ n ∧ x :: bs = got ++ mjoin s' ∧ Forall (λ p, p ≠ []) s'.
Proof.
  intros Hn Hs E. destruct s as [|p s]; [done|]. apply Forall_cons in Hs as [Hp Hs]. destruct p as [|y p]; [done|].
  eexists _, _. split; [done|]. replace (Z.to_nat n) with (S (Z.to_nat (n - 1))) by lia. split_and!; [done| | |].
  - unfold zlen. rewrite length_take. lia.
  - rewrite <-E. set (q := y :: p). change (mjoin (q :: s)) with (q ++ mjoin s). rewrite <-(take_drop (S (Z.to_nat (n - 1))) q) at 1.
    rewrite <-app_assoc. f_equal. by destruct (drop _ q).
  - destruct (drop _ (y :: p)) eqn:Ed; [done|]. by apply Forall_cons.
Qed.

(** Whatever the pieces are, the bytes that are asked for are read, and no more. *)
Lemma read_more_ok fuel data s bs rest :
  mjoin s = bs ++ rest → Forall (λ p, p ≠ []) s → (length bs ≤ fuel)%nat →
  ∃ s', read_more fuel (zlen data + zlen bs) data s = Ret (data ++ bs, s') ∧ mjoin s' = rest ∧ Forall (λ p, p ≠ []) s'.
Proof.
  revert data s bs. induction fuel as [|fuel IH]; intros data s bs E Hs Hf.
  - destruct bs; [|simpl in Hf; lia]. exists s. cbn [read_more]. replace (zlen data + zlen []) with (zlen data) by (change (zlen []) with 0; lia).
    by rewrite Z.ltb_irrefl, app_nil_r.
  - destruct bs as [|x bs].
    { exists s. cbn [read_more]. replace (zlen data + zlen []) with (zlen data) by (change (zlen []) with 0; lia). by rewrite Z.ltb_irrefl, app_nil_r. }
    cbn [read_more]. assert (0 < zlen (x :: bs)) as Hpos by (unfold zlen; simpl; lia). rewrite (proj2 (Z.ltb_lt _ _)) by lia.
    replace (zlen data + zlen (x :: bs) - zlen data) with (zlen (x :: bs)) by lia.
    destruct (read_ok (Z.min CHUNK_SIZE (zlen (x :: bs))) s x (bs ++ rest)) as (got & s' & -> & Hg & Hl & Ec & Hs'); [unfold CHUNK_SIZE; lia|done..|].
    change (x :: bs ++ rest) with ((x :: bs) ++ rest) in Ec.
    assert (∃ bs', x :: bs = got ++ bs') as (bs' & Eb).
    { exists (drop (length got) (x :: bs)). assert (take (length got) ((x :: bs) ++ rest) = got) as Et by (rewrite Ec; apply take_app_length).
      rewrite take_app_le in Et by (unfold zlen in Hl; lia). rewrite <-Et at 1. by rewrite take_drop. }
    rewrite Eb, <-app_assoc in Ec. apply app_inv_head in Ec. destruct got as [|y got]; [done|].
    destruct (IH (data ++ (y :: got)) s' bs') as (s'' & E' & Ej & Hs''); [done|done| |].
    { apply (f_equal length) in Eb. rewrite length_app in Eb. simpl in *. lia. }
    exists s''. rewrite Eb. rewrite !zlen_app in *. rewrite Z.add_assoc, E', <-app_assoc. done.
Qed.

Lemma write_chunks_ok fuel start bytes : 0 ≤ start → zlen bytes - start ≤ Z.of_nat fuel →
  ∃ out, write_chunks fuel start bytes = Ret out ∧ mjoin out = drop (Z.to_nat start) bytes.
Proof.
  revert start. induction fuel as [|fuel IH]; intros start H0 Hf; cbn [write_chunks]; destruct (start <? zlen bytes) eqn:El.
  1: lia. 1, 3: exists []; split; [done|]; rewrite drop_ge by (unfold zlen in El; lia); done.
  set (e := Z.min (start + CHUNK_SIZE) (zlen bytes)). assert (start < e) as He by (unfold e, CHUNK_SIZE; lia).
  destruct (IH e) as (out & -> & Ej); [lia..|]. eexists. split; [done|]. rewrite mjoin_cons, Ej.
  rewrite <-(take_drop (Z.to_nat (e - start)) (drop (Z.to_nat start) bytes)) at 2. rewrite drop_drop. do 2 f_equal. lia.
Qed.

(** ** Conversations *)

Section Conversation.
Context {SV : Type} `{Handler SV} `{Cbor}.

(** Commands and responses that survive their CBOR form; a request fits the buffer. *)
Definition cmd_fits (c : CommandWithArgs) (bytes : list byte) : Prop :=
  cmd_to_cbor c = Some bytes ∧ cmd_from_cbor bytes = Some c ∧ 0 < zlen bytes ≤ 1024.
Definition resp_fits (r : Response) : Prop :=
  ∃ bytes, resp_to_cbor r = Some bytes ∧ resp_from_cbor bytes = Some r ∧ 0 < zlen bytes < 2 ^ 63.

(** The responses to a list of commands, until the connection ends. *)
Fixpoint responses_to (client_id : Z) (signal quiet_mode : bool) (sv : SV) (cs : list CommandWithArgs) : outcome (SV * list Response) :=
  match cs with
  | [] => Ret (sv, [])
  | c :: cs =>
      '(signal, quiet_mode, sv, (should_break, response)) ← handle signal quiet_mode sv c client_id;
      if should_break || signal then Ret (sv, [quiet_response quiet_mode response])
      else '(sv, rs) ← responses_to client_id signal quiet_mode sv cs; Ret (sv, quiet_response quiet_mode response :: rs)
  end.

Lemma send_response_ok r quiet_mode : resp_fits (quiet_response quiet_mode r) →
  ∃ out, send_response r quiet_mode = Ret (Ok out) ∧
    ∀ s rest, mjoin s = mjoin out ++ rest → Forall (λ p, p ≠ []) s →
    ∃ s', (∀ c bytes, cmd_to_cbor c = Some bytes → send_and_wait c s = Ret ([bytes], Ok (quiet_response quiet_mode r), s')) ∧
      mjoin s' = rest ∧ Forall (λ p, p ≠ []) s'.
Proof.
  intros (bytes & Et & Ef & Hl). unfold send_response. rewrite Et.
  destruct (write_chunks_ok (length bytes) 0 bytes) as (out & -> & Ej); [done|unfold zlen; lia|]. rewrite drop_0 in Ej.
  eexists. split; [done|]. intros s rest Es Hs. rewrite mjoin_cons, Ej, <-app_assoc in Es.
  set (len := reverse (le_split 8 (zlen bytes))) in Es. assert (length len = 8%nat) as Hlen by (unfold len; by rewrite length_reverse, length_le_split).
  destruct (read_more_ok 8 [] s len (bytes ++ rest)) as (s1 & E1 & Ej1 & Hs1); [done|done|lia|].
  destruct (read_more_ok (length bytes) [] s1 bytes rest) as (s2 & E2 & Ej2 & Hs2); [done|done|lia|].
  exists s2. split; [|done]. intros c req Ec. unfold send_and_wait, receive_response. rewrite Ec.
  assert (zlen len = 8) as Hz by (unfold zlen; by rewrite Hlen). rewrite Hz in E1. cbn [app] in E1, E2. change (zlen [] + 8) with 8 in E1.
  rewrite E1. cbn [mbind outcome_bind]. rewrite Hz, Z.eqb_refl. unfold len. rewrite reverse_involutive, le_combine_split.
  rewrite Z.mod_small by (simpl; lia). rewrite (proj2 (Z.ltb_lt _ _)) by lia. cbn [guard_or_panic mbind outcome_bind].
  change (zlen [] + zlen bytes) with (zlen bytes) in E2. replace (Z.to_nat (zlen bytes)) with (length bytes) by (unfold zlen; lia).
  rewrite E2. cbn [mbind outcome_bind]. rewrite Z.eqb_refl. destruct bytes; [unfold zlen in Hl; simpl in Hl; lia|]. by rewrite Ef.
Qed.

Lemma read_command_ok c bytes s : cmd_fits c bytes → read_command (bytes :: s) = (Some c, s).
Proof.
  intros (_ & Ef & Hl). unfold read_command, read. rewrite take_ge, drop_ge by (unfold zlen in Hl; lia).
  destruct bytes; [unfold zlen in Hl; simpl in Hl; lia|]. by rewrite Ef.
Qed.

(** From a stream that begins with what was written, however it is cut, the client that sends
    the commands reads the responses. *)
Definition delivered (cs : list CommandWithArgs) (reqs out : stream) (rs : list Response) : Prop :=
  ∀ texts s rest, Forall2 (λ t c, parse_command t = Ret (Some c)) texts cs → mjoin s = mjoin out ++ rest → Forall (λ p, p ≠ []) s →
  ∃ s', send_all texts s = Ret (reqs, Ok rs, s') ∧ mjoin s' = rest ∧ Forall (λ p, p ≠ []) s'.

Lemma delivered_nil : delivered [] [] [] [].
Proof. intros texts s rest Ht Es Hs. apply Forall2_nil_inv_r in Ht as ->. by exists s. Qed.

Lemma delivered_cons c bytes r q cs reqs more rs : cmd_fits c bytes → resp_fits (quiet_response q r) →
  ∃ out, send_response r q = Ret (Ok out) ∧
    (delivered cs reqs more rs → delivered (c :: cs) (bytes :: reqs) (out ++ more) (quiet_response q r :: rs)).
Proof.
  intros (Et & _) Hr. destruct (send_response_ok r q Hr) as (out & Eo & Hsend). exists out. split; [done|]. intros Hm texts s rest Ht Es Hs.
  apply Forall2_cons_inv_r in Ht as (t & texts' & Ep & Ht & ->). rewrite join_app, <-app_assoc in Es.
  destruct (Hsend s _ Es Hs) as (s1 & Ew & Ej & Hs1). destruct (Hm texts' s1 rest Ht Ej Hs1) as (s2 & Ea2 & Ej2 & Hs2).
  exists s2. split; [|done]. cbn [send_all]. unfold client_command. rewrite Ep. cbn [mbind outcome_bind]. rewrite (Ew c bytes Et).
  cbn [mbind outcome_bind]. by rewrite Ea2.
Qed.

Lemma conversation_ok client cs reqs : Forall2 cmd_fits cs reqs → ∀ signal quiet_mode sv fuel sv' rs, (length cs < fuel)%nat →
  responses_to client signal quiet_mode sv cs = Ret (sv', rs) → length rs = length cs → Forall resp_fits rs →
  ∃ signal' out, handle_client_request fuel client signal quiet_mode sv reqs = Ret (sv', signal', out) ∧ delivered cs reqs out rs.
Proof.
  induction 1 as [|c bytes cs reqs Hc Hcs IH]; intros signal quiet_mode sv [|fuel] sv' rs Hf Ea Hlen Hrs; simpl in Hf; [lia| |lia|].
  { injection Ea as <- <-. exists signal, []. split; [done|apply delivered_nil]. }
  cbn [responses_to handle_client_request] in *. rewrite (read_command_ok c bytes reqs Hc).
  destruct (handle signal quiet_mode sv c client) as [[[[sg q] sv1] [b r]]|]; [|done]. cbn [mbind outcome_bind] in *.
  destruct (b || sg).
  - injection Ea as <- <-. destruct cs; [|simpl in Hlen; lia]. apply Forall2_nil_inv_l in Hcs as ->. apply Forall_cons in Hrs as [Hr _].
    destruct (delivered_cons c bytes r q [] [] [] [] Hc Hr) as (out & -> & Hd). exists sg, out. split; [done|].
    rewrite <-(app_nil_r out). apply Hd, delivered_nil.
  - destruct (responses_to client sg q sv1 cs) as [[sv2 rs2]|] eqn:Ea2; [|done]. injection Ea as <- <-. apply Forall_cons in Hrs as [Hr Hrs].
    destruct (IH sg q sv1 fuel sv2 rs2) as (signal' & more & -> & Hm); [lia|done|simpl in Hlen; lia|done|].
    destruct (delivered_cons c bytes r q cs reqs more rs2 Hc Hr) as (out & -> & Hd). exists signal', (out ++ more). split; [done|by apply Hd].
Qed.

(** C7: A script gets its answers. The client cuts its script into commands, reads each as a
    request and sends its CBOR form; the server reads the requests of the connection, handles
    them one after the other and writes the length and the bytes of each response in chunks.
    However the network cuts these bytes into pieces, the client reads exactly the responses
    the handler gave to the commands, in this order and in quiet mode as quiet ones, and
    nothing is left unread; the server ends in the state the handler left. This is for
    scripts whose texts are all commands, of which only the last may end the connection;
    whose requests take at most the 1024 bytes of the buffer of the server and arrive in one
    read each; and whose requests and responses survive their CBOR forms. *)
Theorem script_answered fuel client sv sv' content cs reqs rs :
  Forall2 (λ t c, parse_command t = Ret (Some c)) (split_into_commands content) cs → Forall2 cmd_fits cs reqs → (length cs < fuel)%nat →
  responses_to client false false sv cs = Ret (sv', rs) → length rs = length cs → Forall resp_fits rs →
  ∃ signal out, handle_client_request fuel client false false sv reqs = Ret (sv', signal, out) ∧
    ∀ s, mjoin s = mjoin out → Forall (λ p, p ≠ []) s → send_requests_from_buffer content s = Ret (reqs, Ok rs, []).
Proof.
  intros Ht Hc Hf Ea Hlen Hrs. destruct (conversation_ok client cs reqs Hc false false sv fuel sv' rs) as (signal & out & E & Hd); [done..|].
  exists signal, out. split; [done|]. intros s Es Hs. destruct (Hd _ s [] Ht) as (s' & E' & Ej & Hs'); [by rewrite app_nil_r|done|].
  unfold send_requests_from_buffer. rewrite E'. destruct s' as [|[] s']; [done|by apply Forall_cons in Hs' as []|done].
Qed.

(** A long command closes the connection. The server reads a request into a buffer of
    1024 bytes and takes it as a whole; a command with a longer form, of which the first part
    does not decode, is not executed, and neither are later ones: the server closes the
    connection without a response, and the client gets the error of a closed stream. *)
Theorem long_request_closes fuel client signal quiet_mode sv c bytes later :
  cmd_to_cbor c = Some bytes → 1024 < zlen bytes → cmd_from_cbor (take 1024 bytes) = None →
  handle_client_request (S fuel) client signal quiet_mode sv (bytes :: later) = Ret (sv, signal, []) ∧
  send_and_wait c [] = Ret ([bytes], Err (IOError "failed to fill whole buffer"), []).
Proof.
  intros Et Hl Ef. split; [|unfold send_and_wait; by rewrite Et]. cbn [handle_client_request]. unfold read_command, read.
  change (Z.to_nat 1024) with 1024%nat. rewrite Ef. by destruct (take 1024 bytes).
Qed.
End Conversation.
