(* ===== verification/QueryExamples.v ===== *)
(** * Queries on concrete databases

    The correctness theorems of the query layer at work: a table of two rows in the
    in-memory storage manager, a table of one row in the heap store over the buffer pool, and
    a join of a table with itself, with a selection that is pushed to one side of it, from
    the logical plan to the answer. *)

From stdpp Require Import strings gmap.
From S2P Require Import Prelude Common HeapPage HeapPageView BaseFile Catalog BufferFrame.
From S2P Require Import MemPool InMemPool.
From S2P Require Import BufferPool BufferPoolLaws Reopen HeapFile HeapFileSpec.
From S2P Require Import HeapFileContract StorageSpec.
From S2P Require Import HeapStore HeapStorePool MemStore MemStoreSpec MemStoreContract Field.
From S2P Require Import Tuple ByteCode.
From S2P Require Import Expr ExprCorrect OpIterator OpBasic OpJoin OpJoinLaws OpSort.
From S2P Require Import OpAggregate.
From S2P Require Import OpAggregateCorrect OpRun PhysicalPlan DbCatalog OpMutate OpDyn.
From S2P Require Import PlanToOp PlanSem.
From S2P Require Import PlanRel PlanCorrect Executor HeapQuery Mutator MutatorCorrect Logical.
From S2P Require Import Optimizer.
From S2P Require Import LogicalSem LogicalCorrect LogicalProject LogicalPhysical.
From S2P Require Import OptimizerCorrect.

Open Scope Z_scope.

(** ** Physical plans *)

Import Quiet.

(** Table 4 has one integer column. *)
Definition example_catalog : DbCatalog.Catalog :=
  mkDbCatalog ContainerIds.new {[ 4 := mkTableInfo 4 (str "t") (one_column CNone) ]} ∅.

Definition scan_t : PhysicalRelExpr := PScan 4 (str "t") [400] None.

(** [SELECT a, count of b FROM t a JOIN t b ON a.x = b.x WHERE a.x > 1], grouped by [a.x]. *)
Definition example_query : PhysicalRelExpr :=
  PHashAggregate
    (PHashJoin Inner
       (PSelect scan_t [Binary OpGt (ColRef 400) (EField (BigInt 1))] None)
       (PRename scan_t {[ 400 := 500 ]} None)
       [Binary OpEq (ColRef 500) (ColRef 400)] None)
    [400] [(501, (500, Count))] None.

Lemma two_sm_slots c : next_slot two_sm c < 2 ^ 16.
Proof.
  destruct (decide (c = 4)) as [->|Hc]; [by vm_compute|].
  unfold next_slot, two_sm. cbn [last_insert]. by rewrite lookup_singleton_ne.
Qed.

Definition no_dates (_ : Z) : list byte := [].
Definition no_subqueries (_ : PhysicalRelExpr) (_ : Z) : list byte := [].

Lemma query_correct_witness :
  ∃ k0 m schema ts, dom m = ({[ 400; 501 ]} : gset Z) ∧
    Forall2 (represents m (Schema.size schema)) [{[ 400 := BigInt 2; 501 := BigInt 1 ]}] ts ∧
    ∀ k e, (k0 ≤ k)%nat →
    ∃ s', run_physical_plan no_dates no_subqueries example_catalog k two_sm e (Ok 1) example_query =
        Ret (s', mkExecutor None, Ok (Select schema ts None)).
Proof.
  pose (laws := Ms_scan_laws two_sm two_sm_inv two_sm_slots).
  destruct (query_correct (scan_laws := laws) no_dates no_subqueries example_catalog example_query {[ 400; 501 ]}
              [{[ 400 := BigInt 2; 501 := BigInt 1 ]}] 1) as (k0 & m & schema & ts & Hd & HF & Hrun).
  - vm_compute. reflexivity.
  - vm_compute. reflexivity.
  - exact I.
  - exists k0, m, schema, ts. split; [exact Hd|]. split; [exact HF|]. intros k e Hk.
    destruct (Hrun k two_sm e Hk) as (s' & E & _); [by split|]. exists s'. exact E.
Defined.

Lemma planner_total_witness :
  ∃ (o : DynOp StorageManager) m,
    physical_plan_to_op_iterator_helper no_dates no_subqueries example_catalog 1 example_query = Ret (Ok o, m) ∧
    dom m = ({[ 400; 501 ]} : gset Z) ∧ ∀ id i, m !! id = Some i → 0 ≤ i < Schema.size (dyn_schema o).
Proof.
  apply (planner_total (tbl := ms_tbl two_sm)). vm_compute. reflexivity.
Defined.

Lemma nested_loop_operands_swapped_witness :
  physical_plan_to_op_iterator_helper (SM := StorageManager) no_dates no_subqueries example_catalog 1
    (PNestedLoopJoin Inner scan_t (PRename scan_t {[ 400 := 500 ]} None) [Binary OpLt (ColRef 500) (ColRef 400)] None) =
  physical_plan_to_op_iterator_helper no_dates no_subqueries example_catalog 1
    (PNestedLoopJoin Inner scan_t (PRename scan_t {[ 400 := 500 ]} None) [Binary OpLt (ColRef 400) (ColRef 500)] None).
Proof. apply nested_loop_operands_swapped; vm_compute; reflexivity. Defined.

Definition both_positive : Expression PhysicalRelExpr :=
  Binary OpAnd (Binary OpGt (ColRef 0) (EField (BigInt 0))) (Binary OpGt (ColRef 1) (EField (BigInt 0))).

Lemma conjunction_roundtrip_witness :
  eval_expr (λ id, Some (BigInt (id + 1)))
    (Expr.combine_preds (Expr.split_conjunction both_positive)) = Ret (FBool true).
Proof. apply (conjunction_roundtrip (λ id, Some (BigInt (id + 1))) both_positive true). vm_compute. reflexivity. Defined.

(** ** Operators *)

#[local] Instance two_sm_scans : ScanLaws StorageManager (ms_tbl two_sm) := Ms_scan_laws two_sm two_sm_inv two_sm_slots.

Lemma two_sm_view : sc_view two_sm [].
Proof. by split. Qed.

(** The first column, and a child with three tuples. *)
Definition column0 : ByteCodeExpr := Bce.colidx_expr 0.
Definition tuples : list Tuple := [Tup.new [BigInt 2]; Tup.new [BigInt 1]; Tup.new [BigInt 2]].
Definition child : TupleIterator := TupleIter.new tuples (one_column CNone).

Lemma tuples_keys : Forall (λ t, is_Some (values [column0] t)) tuples ∧ Forall (λ t, is_Some (value column0 t)) tuples.
Proof. split; repeat constructor; eexists; vm_compute; reflexivity. Qed.

Lemma child_built : built (TupleIterator_contract (SM := StorageManager)) child tuples 0.
Proof. done. Qed.

Lemma sort_sorts_witness :
  ∃ out, out ≡ₚ tuples ∧ ∃ fuel, run_all (Sort_ops _ fuel) fuel two_sm (Sorting.new [(column0, true)] (one_column CNone) child) = Ret (Ok out).
Proof.
  destruct (sort_sorts TupleIterator_contract two_sm child tuples 0 child_built two_sm_view I
              [(column0, true)] (one_column CNone) (proj1 tuples_keys)) as (out & k0 & Hrun & Hp & _).
  exists out. split; [exact Hp|]. exists k0. apply Hrun. reflexivity.
Defined.

Lemma aggregate_groups_witness :
  ∃ o fuel, Agg.new [column0] [column0] [Count] (one_column CNone) child = Ret o ∧
    run_all (Aggregate_ops _ fuel) fuel two_sm o =
      Ret (Ok [Tup.new [BigInt 1; BigInt 1]; Tup.new [BigInt 2; BigInt 2]]).
Proof.
  destruct (aggregate_groups TupleIterator_contract two_sm child tuples 0 child_built two_sm_view I
              [column0] [column0] [Count] (one_column CNone) [Tup.new [BigInt 1; BigInt 1]; Tup.new [BigInt 2; BigInt 2]])
    as ((o & k0 & Ho & Hrun) & _).
  - reflexivity.
  - vm_compute. reflexivity.
  - exists o, k0. split; [exact Ho|]. apply Hrun. reflexivity.
Defined.

Lemma hash_join_equiv_nested_loop_witness :
  ∃ ts us fuel, ts ≡ₚ us ∧
    run_all (HashEqJoin_ops _ _ fuel) fuel two_sm (HashEq.new (one_column CNone) column0 column0 child child) = Ret (Ok ts) ∧
    run_all (NestedLoopJoin_ops _ _ fuel) fuel two_sm (Nested.new OpEq column0 column0 child child (one_column CNone)) =
      Ret (Ok us).
Proof.
  destruct (hash_join_equiv_nested_loop TupleIterator_contract TupleIterator_contract two_sm child child tuples tuples 0 0
              column0 column0 (one_column CNone) child_built child_built two_sm_view I (proj2 tuples_keys) (proj2 tuples_keys))
    as (ts & us & k0 & Hp & Hrun).
  exists ts, us, k0. split; [exact Hp|]. apply Hrun. reflexivity.
Defined.

(** ** A query on the heap store over the buffer pool *)

#[local] Existing Instance Bp_laws.
#[local] Hint Extern 0 (MemPool (BufferPool (list byte))) => exact (Bp_MemPool rng) : typeclass_instances.
Abbreviation heap := (HeapStore (BufferPool (list byte))).

#[local] Instance heap_index : IndexTrait heap := {|
  ix_search s i key := Ret (s, Ok []);
  ix_insert_entry s i key v := Ret (s, Ok tt);
  ix_delete_entry s i key v := Ret (s, Ok tt)
|}.
#[local] Instance heap_tracker : StateTracker heap := {| set_ts s c ts := s |}.

(** Table 4 with the row 7. *)
Definition row_hs : heap :=
  match Hs.insert_value pool_hs 4 [Byte.x07] with Ret (s, _) => s | Panic => pool_hs end.

Lemma row_hs_rep : ∃ a, hs_rep row_hs a.
Proof.
  destruct (hs_refines pool_hs {[ 4 := ∅ ]} (StInsert 4 [Byte.x07]) pool_hs_rep) as (s' & r & a' & E & _ & Hrep).
  - refine (conj (ex_intro _ 4 eq_refl) (conj _ (conj _ (conj _ _)))); by vm_compute.
  - exists a'. unfold row_hs. cbn [run_st st_insert_value Hs_storage] in E.
    destruct (Hs.insert_value pool_hs 4 [Byte.x07]) as [[s id]|]; [|done]. simpl in E. by injection E as -> _.
Qed.

Lemma heap_query_correct_witness :
  ∃ k0 m schema ts, Forall2 (represents m (Schema.size schema)) [{[ 400 := BigInt 7 ]}] ts ∧
    ∀ k e, (k0 ≤ k)%nat →
    ∃ s', run_physical_plan no_dates no_subqueries example_catalog k row_hs e (Ok 1)
        (PSelect scan_t [Binary OpGt (ColRef 400) (EField (BigInt 1))] None) =
      Ret (s', mkExecutor None, Ok (Select schema ts None)).
Proof.
  destruct row_hs_rep as [a Hrep].
  destruct (heap_query_correct no_dates no_subqueries example_catalog row_hs a
              (PSelect scan_t [Binary OpGt (ColRef 400) (EField (BigInt 1))] None) {[ 400 ]} [{[ 400 := BigInt 7 ]}] 1 Hrep)
    as (_ & k0 & m & schema & ts & _ & HF & Hrun).
  - vm_compute. reflexivity.
  - vm_compute. reflexivity.
  - vm_compute. discriminate.
  - exists k0, m, schema, ts. split; [exact HF|]. intros k e Hk. destruct (Hrun k e Hk) as (s' & E & _). exists s'. exact E.
Defined.

(** ** Logical plans *)

Definition lscan_t : LogicalRelExpr := LScan 4 (str "t") [400].
Definition lscan_u : LogicalRelExpr := LRename lscan_t {[ 400 := 500 ]}.

(** [t.x = u.x] and [t.x > 1], on the cross product of [t] and [u]. *)
Definition joined : LogicalRelExpr := LJoin CrossType lscan_t lscan_u [].
Definition conditions : list LExpr :=
  [Binary OpAnd (Binary OpEq (ColRef 400) (ColRef 500)) (Binary OpGt (ColRef 400) (EField (BigInt 1)))].

(** The plan the selection makes: [t.x > 1] is below the join, and the join is an inner
    join on [t.x = u.x]. *)
Definition pushed : LogicalRelExpr :=
  LJoin Inner (LSelect lscan_t [Binary OpGt (ColRef 400) (EField (BigInt 1))]) lscan_u
    [Binary OpEq (ColRef 400) (ColRef 500)].

Definition two_tbl : Z → option (list item) := ms_tbl two_sm.

Definition pairs : list row := default [] (lsem two_tbl joined).

Lemma select_correct_witness :
  Build.select Rules.default true joined conditions = Ret pushed ∧
  lsem two_tbl pushed = Some [{[ 400 := BigInt 2; 500 := BigInt 2 ]}].
Proof.
  destruct (select_correct two_tbl Rules.default true joined conditions) as (p' & E & _ & _ & Hsem).
  - vm_compute. reflexivity.
  - vm_compute. reflexivity.
  - assert (p' = pushed) as -> by (vm_compute in E; injection E as <-; reflexivity). split; [exact E|].
    rewrite (Hsem pairs); [|vm_compute; reflexivity]. vm_compute. reflexivity.
Defined.

Lemma join_correct_witness :
  ∃ p', Build.join Rules.default true Inner lscan_t lscan_u conditions = Ret p' ∧
    lsem two_tbl p' = Some [{[ 400 := BigInt 2; 500 := BigInt 2 ]}].
Proof.
  destruct (join_correct two_tbl Rules.default true Inner lscan_t lscan_u conditions) as (p' & E & _ & _ & Hsem).
  - reflexivity.
  - vm_compute. reflexivity.
  - vm_compute. reflexivity.
  - apply (bool_decide_unpack (Log.att lscan_t ## Log.att lscan_u)). vm_compute. exact I.
  - vm_compute. reflexivity.
  - exists p'. split; [exact E|].
    rewrite (Hsem (default [] (lsem two_tbl lscan_t)) (default [] (lsem two_tbl lscan_u))); vm_compute; reflexivity.
Defined.

Lemma map_correct_witness :
  ∃ p', Build.map Rules.default 3 true 1000 (LMap lscan_t [(600, Binary OpAdd (ColRef 400) (EField (BigInt 1)))])
      [(601, Binary OpMul (ColRef 600) (ColRef 600))] = Ret (1000, p') ∧
    lsem two_tbl p' = Some [{[ 400 := BigInt 1; 600 := BigInt 2; 601 := BigInt 4 ]}; {[ 400 := BigInt 2; 600 := BigInt 3; 601 := BigInt 9 ]}].
Proof.
  destruct (map_correct two_tbl Rules.default 3 true 1000 (LMap lscan_t [(600, Binary OpAdd (ColRef 400) (EField (BigInt 1)))])
              [(601, Binary OpMul (ColRef 600) (ColRef 600))]) as (p' & E & _ & _ & Hsem).
  - simpl. lia.
  - vm_compute. reflexivity.
  - exists p'. split; [exact E|]. apply Hsem. vm_compute. reflexivity.
Defined.

Lemma project_correct_witness :
  ∃ p', Build.project Rules.default 5 true 1000 pushed [500] false = Ret (1000, p') ∧ lsem two_tbl p' = Some [{[ 500 := BigInt 2 ]}].
Proof.
  destruct (project_correct two_tbl Rules.default 5 true 1000 pushed [500]) as (p' & E & _ & _ & Hsem).
  - simpl. lia.
  - vm_compute. reflexivity.
  - vm_compute. reflexivity.
  - apply (bool_decide_unpack (list_to_set [500] ⊆ Log.att pushed)). vm_compute. exact I.
  - exists p'. split; [exact E|]. rewrite (Hsem [{[ 400 := BigInt 2; 500 := BigInt 2 ]}]); vm_compute; reflexivity.
Defined.

Lemma projection_order_lost_witness :
  Build.project Rules.default 2 true 1000 (LRename (LScan 4 (str "t") [400; 401]) {[ 400 := 500; 401 := 501 ]}) [501; 500] false =
  Build.project Rules.default 2 true 1000 (LRename (LScan 4 (str "t") [400; 401]) {[ 400 := 500; 401 := 501 ]}) [500; 501] false.
Proof. apply projection_order_lost; [vm_compute; reflexivity|]. intros id. rewrite !elem_of_cons, elem_of_nil. tauto. Defined.

(** [SELECT u.x + 1 FROM t, u WHERE t.x = u.x AND t.x > 1]. *)
Definition next_x : list (Z * LExpr) := [(600, Binary OpAdd (ColRef 500) (EField (BigInt 1)))].
Definition with_next : LogicalRelExpr := LMap pushed next_x.
Definition answer_plan : LogicalRelExpr :=
  match Build.project Rules.default 5 true 1000 with_next [600] false with Ret (_, p) => p | Panic => with_next end.

(** A cost model that counts nodes, a nested loop join as two. *)
Definition weight (q : PhysicalRelExpr) : Z := match q with PNestedLoopJoin _ _ _ _ _ => 2 | _ => 1 end.
#[local] Instance counting : PlanCostEstimator Z unit := {|
  cost_lt := Z.ltb;
  cost_default := 0;
  cost_of q cs _ := Ret (weight q + foldr Z.add 0 cs);
  cost_of_index_probe _ _ _ := Ret 1;
  cost_of_full_scan_with_filter _ _ := Ret 2
|}.

Lemma counting_returns catalog p : costs_return catalog () p.
Proof. apply costs_always_return; intros; by eexists. Qed.

Lemma counting_monotone : costs_monotone example_catalog ().
Proof.
  split; unfold cost_le; cbn [cost_lt counting].
  - intros a b. rewrite !Z.ltb_ge. lia.
  - intros a b c. rewrite !Z.ltb_ge. lia.
  - intros K q q' a a' b b' HK _ Ha. cbn. intros [= <-] [= <-]. rewrite Z.ltb_ge in *. destruct HK; cbn; lia.
  - intros K l l' r r' al al' ar ar' b b' HK _ _ Hl Hr. cbn. intros [= <-] [= <-]. rewrite Z.ltb_ge in *. destruct HK; cbn; lia.
Qed.

Lemma optimizer_cheapest_witness :
  ∃ q c, CascadesOptimizer.optimize example_catalog joined () = Ret q ∧ priced example_catalog () joined q c ∧
    ∀ q' c', priced example_catalog () joined q' c' → c ≤ c'.
Proof.
  destruct (optimizer_cheapest example_catalog () joined (counting_returns _ _) counting_monotone) as (q & c & E & Hp & Hmin).
  exists q, c. split; [exact E|]. split; [exact Hp|]. intros q' c' Hq. apply Z.ltb_ge. exact (Hmin q' c' Hq).
Defined.

Lemma logical_query_correct_witness :
  ∃ plan k0 m schema ts answer, CascadesOptimizer.optimize example_catalog answer_plan () = Ret plan ∧
    answer ≡ₚ [{[ 600 := BigInt 3 ]}] ∧ Forall2 (represents m (Schema.size schema)) answer ts ∧
    ∀ k e, (k0 ≤ k)%nat →
    ∃ s', run_physical_plan no_dates no_subqueries example_catalog k two_sm e (Ok 1) plan =
        Ret (s', mkExecutor None, Ok (Select schema ts None)).
Proof.
  pose (laws := Ms_scan_laws two_sm two_sm_inv two_sm_slots).
  destruct (logical_query_correct (scan_laws := laws) no_dates no_subqueries example_catalog () Rules.default 5 1000 joined
              conditions next_x [600] pushed with_next answer_plan {[ 600 ]} [{[ 600 := BigInt 3 ]}] 1)
    as (plan & k0 & m & schema & ts & answer & Hplan & _ & Hp & HF & Hrun).
  - vm_compute. reflexivity.
  - vm_compute. reflexivity.
  - vm_compute. reflexivity.
  - apply (bool_decide_unpack (list_to_set [600] ⊆ Log.att (LMap joined next_x))). vm_compute. exact I.
  - vm_compute. reflexivity.
  - vm_compute. reflexivity.
  - simpl. lia.
  - vm_compute. reflexivity.
  - simpl. lia.
  - vm_compute. reflexivity.
  - vm_compute. reflexivity.
  - vm_compute. reflexivity.
  - vm_compute. reflexivity.
  - exact I.
  - apply counting_returns.
  - exists plan, k0, m, schema, ts, answer. split; [exact Hplan|]. split; [exact Hp|split; [exact HF|]].
    intros k e Hk. destruct (Hrun k two_sm e Hk) as (s' & E & _); [by split|]. exists s'. exact E.
Defined.

Lemma cross_join_panics_witness :
  ∃ plan, CascadesOptimizer.optimize example_catalog (LJoin CrossType lscan_t lscan_t []) () = Ret plan ∧
    physical_plan_to_op_iterator_helper (SM := StorageManager) no_dates no_subqueries example_catalog 1 plan = Panic.
Proof.
  destruct (cross_join_panics (SM := StorageManager) (tbl := two_tbl) no_dates no_subqueries example_catalog () Rules.default true lscan_t lscan_t 1 (counting_returns _ _))
    as (p & plan & Ep & _ & Eo & Hpanic). exists plan. injection Ep as <-. split; [exact Eo|exact Hpanic].
Defined.
