(* ===== verification/ServerExamples.v ===== *)
(** * The server on concrete databases

    Sessions of clients, run by the model over the heap store with an in-memory pool, and the
    theorems of the SQL layer and the server at work on them. *)

From stdpp Require Import strings gmap.
From S2P Require Import Prelude Common MemPool InMemPool HeapFileContract StorageSpec.
From S2P Require Import HeapStore MemStore.
From S2P Require Import MemStoreSpec MemStoreContract.
From S2P Require Import Field FieldCodec SqlAst Tuple ByteCode Expr OpIterator OpAggregate.
From S2P Require Import PhysicalPlan DbCatalog Registrar Statistics.
From S2P Require Import OpMutate OpDyn PlanToOp PlanSem PlanRel Executor HeapQuery Mutator.
From S2P Require Import MutatorCorrect QueryExamples.
From S2P Require Import Logical Translate Optimizer LogicalSem SqlSem TranslateFrom.
From S2P Require Import TranslateCorrect LogicalPhysical OptimizerCorrect.
From S2P Require Import CostModel Server ServerCorrect Protocol.

Open Scope Z_scope.

Import Quiet.

#[local] Instance ascii : Unicode := {| is_alphanumeric _ := false; char_to_uppercase c := c |}.

(** The heap store, without indexes, and with nothing kept between runs. *)
Abbreviation heap := (HeapStore InMemPool).
#[local] Instance heap_index : IndexTrait heap := {|
  ix_search s i key := Ret (s, Ok []);
  ix_insert_entry s i key v := Ret (s, Ok tt);
  ix_delete_entry s i key v := Ret (s, Ok tt)
|}.
#[local] Instance heap_containers : Containers heap := {|
  create_container s c name := Hs.create_container s c;
  im_create_index s i t cols := Ret (s, Ok tt);
  sm_reset s := Ret (s, Ok tt);
  sm_shutdown s := Ret s
|}.

(** ** Statements *)

Definition column (name : string) : SqlExpr := Identifier (str name).
Definition number (n : string) : SqlExpr := ExprValue (Number (str n) false).
Definition table (name : string) : TableWithJoins := mkTableWithJoins (TableRef [str name] None) [].
Definition select (items : list SelectItem) (from : list TableWithJoins) (selection : option SqlExpr) : SqlQuery :=
  mkSqlQuery (SelectBody (mkSelect false items from selection (GroupByExpressions []) None)) [] None.
Definition all_of (name : string) : SqlQuery := select [Wildcard] [table name] None.
Definition key (name : string) : ColumnDef := mkColumnDef (mkQuotedIdent (str name) None) SqlInt [PrimaryKeyOption].
Definition values (rows : list (list string)) : option SqlQuery :=
  Some (mkSqlQuery (ValuesBody (fmap (M := list) number <$> rows)) [] None).

(** [SELECT x + 1 AS y FROM t WHERE x > 1]. *)
Definition next_of_large : SqlQuery :=
  select [ExprWithAlias (BinaryOpExpr (column "x") SqlPlus (number "1")) (str "y")] [table "t"]
    (Some (BinaryOpExpr (column "x") SqlGt (number "1"))).

(** The parser, on the texts of these sessions. *)
Definition statements : gmap (list byte) Statement := list_to_map [
  (str "CREATE TABLE t (x INT PRIMARY KEY)", SCreateTable [str "t"] [key "x"] []);
  (str "CREATE TABLE u (y INT PRIMARY KEY)", SCreateTable [str "u"] [key "y"] []);
  (str "INSERT INTO t VALUES (7), (8)", SInsert [str "t"] [] (values [["7"]; ["8"]]%string));
  (str "DELETE FROM t WHERE x = 7", SDelete [table "t"] (Some (BinaryOpExpr (column "x") SqlEq (number "7"))));
  (str "SELECT * FROM t", SQuery (all_of "t"));
  (str "select * from t", SQuery (all_of "t"));
  (str "SELECT * FROM u", SQuery (all_of "u"));
  (str "SELECT x + 1 AS y FROM t WHERE x > 1", SQuery next_of_large)].
Definition parse (sql : list byte) : option (list Statement) := s ← statements !! sql; Some [s].

(** ** Sessions *)

Abbreviation server := (ServerState (ST := heap)).
Definition no_logs (x : f64) : f64 := x.
Definition no_random (_ : nat) : Z := 0.
Definition no_csv (_ : list byte) : list (option (list (list byte))) := [].
Definition parse_no_date (_ : list byte) : option Z := None.

Section Session.
Context (to_json : QueryResult → list byte) (from_json : list byte → option QueryResult).

(** A command of client [client] to its database; [None] is a panic. *)
Definition command (sv : server) (client : Z) (c : DBCommand) (args : list (list byte)) : server * option Response :=
  match handle_db_command no_random no_logs parse no_csv to_json from_json parse_no_date no_dates no_subqueries 40 40 (str "db")
          sv c args client with
  | Ret (sv, (_, r)) => (sv, Some r)
  | Panic => (sv, None)
  end.

Fixpoint session (sv : server) (cs : list (Z * DBCommand * list (list byte))) : list (option Response) :=
  match cs with
  | [] => []
  | (client, c, args) :: cs => let '(sv, r) := command sv client c args in r :: session sv cs
  end.

(** The server after a session. *)
Fixpoint after (sv : server) (cs : list (Z * DBCommand * list (list byte))) : server :=
  match cs with
  | [] => sv
  | (client, c, args) :: cs => after (command sv client c args).1 cs
  end.

Lemma session_app sv cs cs' : session sv (cs ++ cs') = session sv cs ++ session (after sv cs) cs'.
Proof.
  revert sv. induction cs as [|[[client c] args] cs IH]; intros sv; [done|]. cbn [app session after].
  destruct (command sv client c args) as [sv' r]. cbn [fst app]. by rewrite IH.
Qed.

(** What is stored for a text: the name, plan, transaction and result of the query, and the
    timestamps of its tables. *)
Definition stored (sv : server) (client : Z) (sql : list byte) : option (list byte * PhysicalRelExpr * Z * list byte * list Z) :=
  db ← get_connected_db sv client;
  name ← sql_to_query_name (query_registrar db) !! sql;
  plan ← query_plans (query_registrar db) !! name;
  tid ← query_tids (query_registrar db) !! name;
  path ← query_result_filenames (query_registrar db) !! name;
  contents ← sv_files sv !! path;
  Some (name, plan, tid, contents, (λ cid, (Reservoir.get_ts (mg_stats (sv_sm sv)) cid).2) <$> Phys.get_tables_involved plan).

Lemma command_cached sv client sql name plan tid qr t ts :
  stored sv client sql = Some (name, plan, tid, to_json qr, t :: ts) → forallb (λ t, t <? tid) (t :: ts) = true →
  from_json (to_json qr) = Some qr → (command sv client ExecuteSQL [sql]).2 = Some (QueryResponse qr).
Proof.
  intros Hs Hts Hj. unfold stored in Hs.
  apply bind_Some in Hs as (db & Hdb & Hs). apply bind_Some in Hs as (n & Hn & Hs). apply bind_Some in Hs as (p & Hp & Hs).
  apply bind_Some in Hs as (i & Hi & Hs). apply bind_Some in Hs as (path & Hpath & Hs). apply bind_Some in Hs as (file & Hfile & Hs).
  injection Hs as -> -> -> -> Ets. unfold command, handle_db_command. rewrite Hdb.
  set (w := mkWorld db (sv_sm sv) (sv_files sv) (sv_txn sv) (mkExecutor None)).
  destruct (execute_cached no_random no_logs parse from_json parse_no_date no_dates no_subqueries 40 no_csv to_json (str "db") 40 w client
              sql name plan tid qr) as (w' & E & _); [split_and!; [done..|]; by exists path|by intros En; rewrite En in Ets|done| |by rewrite E].
  unfold changed_before. apply Forall_forall. intros cid Hcid. apply forallb_forall with (x := (Reservoir.get_ts (mg_stats (sv_sm sv)) cid).2) in Hts.
  - by apply Z.ltb_lt.
  - rewrite <-Ets. apply list_elem_of_In. apply list_elem_of_fmap. by exists cid.
Qed.
End Session.

(** Databases [a] and [b], to which the clients 1 and 2 are connected, over an empty store. *)
Definition empty_sm : heap := Hs.new_test_sm InMem.new.
Definition by_length (name : list byte) : Z := zlen name.
Definition with_db (sv : server) (name : list byte) (client : Z) : server :=
  (connect_to_db (create_new_db by_length sv name).1 name client).1.
Definition two_databases : server :=
  with_db (with_db (mkServer ∅ ∅ (mkManagers empty_sm Reservoir.new) ∅ 1) (str "a") 1) (str "bb") 2.

Definition row_of (slot x : Z) : Tuple := mkTuple 0 (Some (mkValueId 0 None (Some 1) (Some slot))) [BigInt x].
Definition rows_in (name : string) (ts : list Tuple) : QueryResult := Select (Schema.new [mkAttribute (str name) TBigInt PrimaryKey]) ts None.

Definition before_query : list (Z * DBCommand * list (list byte)) := [
  (1, ExecuteSQL, [str "CREATE TABLE t (x INT PRIMARY KEY)"]);
  (1, ExecuteSQL, [str "INSERT INTO t VALUES (7), (8)"]);
  (1, RegisterQuery, [str "q"; str "SELECT * FROM t"]);
  (1, ExecuteSQL, [str "DELETE FROM t WHERE x = 7"]);
  (1, ExecuteSQL, [str "select * from t"])].

(** C37: Deleted rows are still served. DELETE does not set the timestamp of its table, so that
    the stored result of a registered query counts as up to date after it: the table has the
    rows 7 and 8, the query [SELECT * FROM t] is registered, the row 7 is deleted, and the
    same text still gets both rows, while another text of the same query gets the row that
    is left. *)
Theorem deleted_rows_served (to_json : QueryResult → list byte) (from_json : list byte → option QueryResult) :
  let rows := rows_in "x" [row_of 0 7; row_of 1 8] in
  from_json (to_json rows) = Some rows →
  session to_json from_json two_databases (before_query ++ [(1, ExecuteSQL, [str "SELECT * FROM t"])]) =
  [Some (QueryResponse (MessageOnly (str "Table t created")));
   Some (QueryResponse (Insert 2 (str "t")));
   Some (QueryResponse rows);
   Some (QueryResponse (MessageOnly (str "Deleted 1 row(s)")));
   Some (QueryResponse (rows_in "x" [row_of 1 8]));
   Some (QueryResponse rows)].
Proof.
  intros rows Hj. rewrite session_app.
  assert (∀ l l', l = l' → ∀ k k' : list (option Response), k = k' → l ++ k = l' ++ k') as Happ by (by intros l ? <- k ? <-).
  apply (Happ _ [_; _; _; _; _]); [vm_compute; reflexivity|]. cbn [session].
  destruct (command _ _ _ _ _ _) as [sv r] eqn:E. f_equal. change r with (sv, r).2. rewrite <-E.
  eapply command_cached; [vm_compute; reflexivity|reflexivity|exact Hj].
Qed.

Lemma deleted_rows_served_witness :
  ∃ (to_json : QueryResult → list byte) from_json,
    last (session to_json from_json two_databases (before_query ++ [(1, ExecuteSQL, [str "SELECT * FROM t"])])) =
      Some (Some (QueryResponse (rows_in "x" [row_of 0 7; row_of 1 8]))).
Proof.
  exists (λ _, []), (λ _, Some (rows_in "x" [row_of 0 7; row_of 1 8])). rewrite deleted_rows_served; reflexivity.
Defined.

(** A session in which the second database cannot create a table, and then panics. *)
Example second_database_unusable to_json from_json :
  session to_json from_json two_databases [
    (1, ExecuteSQL, [str "CREATE TABLE t (x INT PRIMARY KEY)"]);
    (2, ExecuteSQL, [str "CREATE TABLE u (y INT PRIMARY KEY)"]);
    (2, ExecuteSQL, [str "SELECT * FROM u"])] =
  [Some (QueryResponse (MessageOnly (str "Table t created")));
   Some (QueryExecutionError (str "Crusty Error: Container already exists"));
   None].
Proof. vm_compute. reflexivity. Qed.

(** Two new databases, the second over what the first left. *)
Definition new_world (name : string) (m : Managers heap) : World heap :=
  mkWorld (new_from_name by_length (str name)) m ∅ 1 (mkExecutor None).
Definition first_world : World heap := new_world "a" (mkManagers empty_sm Reservoir.new).
Definition first_table : outcome (World heap * result CrustyError QueryResult) := create_table (str "t") [key "x"] [] first_world.
Definition first_left : World heap := match first_table with Ret (w, _) => w | Panic => first_world end.
Definition second_world : World heap := new_world "bb" (w_sm first_left).

Lemma first_table_created : ∃ r, first_table = Ret (first_left, Ok r).
Proof.
  assert (match first_table with Ret (_, Ok _) => true | _ => false end = true) as E by (vm_compute; reflexivity).
  unfold first_left. destruct first_table as [[w [r|e]]|]; [exists r; reflexivity|discriminate E..].
Qed.

Lemma databases_share_containers_witness :
  ∃ w e, create_table (str "u") [key "y"] [] second_world = Ret (w, Err e) ∧ w_sm w = w_sm second_world ∧
    ghost (db_catalog (w_db w)) (str "u") ∧ e = CrustyErr "Container already exists".
Proof.
  destruct first_table_created as [r Er].
  destruct (databases_share_containers (H1 := heap_containers) (λ _ _ _, eq_refl) (str "t") [key "x"] [] first_world first_left second_world
              r (str "u") [key "y"] []) as (w & e & E & Hsm & Hg & He).
  - vm_compute. reflexivity.
  - exact Er.
  - unfold has_container, second_world, new_world. cbn [w_sm]. intros c Hc. exact Hc.
  - vm_compute. reflexivity.
  - vm_compute. split; [discriminate|reflexivity].
  - vm_compute. reflexivity.
  - vm_compute. reflexivity.
  - exists w, e. split; [exact E|]. split; [exact Hsm|]. split; [exact Hg|].
    apply (He [mkQuotedIdent (str "y") None] [mkAttribute (str "y") TBigInt PrimaryKey]); vm_compute; reflexivity.
Defined.

(** The rows 7, and a text that is no number, inserted into a table of the heap store. *)
Definition one_table : heap := match Hs.create_table empty_sm 4 with Ret (s, _) => s | Panic => empty_sm end.
Definition one_table_managers : Managers heap :=
  mkManagers one_table (Reservoir.register_table Reservoir.new 4 (one_column NotNull)).

#[local] Instance sampling : StatManager (Managers heap) := mg_records no_random.

Lemma one_table_rep : ∃ a, hs_rep one_table a.
Proof.
  destruct (hs_refines empty_sm ∅ (StCreate 4)) as (s & r & a & E & _ & Hrep).
  - split; [apply new_pool_inv|intros c; by rewrite !lookup_empty, !is_Some_alt|done|reflexivity|done].
  - by split.
  - exists a. cbn [run_st st_create_table Hs_storage] in E. unfold one_table.
    destruct (Hs.create_table empty_sm 4) as [[s1 r1]|]; [|discriminate E]. injection E as -> _. exact Hrep.
Qed.

Lemma import_stores_rows_witness :
  ∃ m ids a a',
    Mutator.import_tuples one_table_managers
      [[ExprValue (Number (str "7") false)]; [ExprValue (SingleQuotedString [])]] 4 (one_column NotNull) 5 [] = Ret (m, Ok 1) ∧
    hs_rep (mg_sm m) a' ∧ extended a a' 4 ids [[Byte.x07]] ∧ Reservoir.get_ts (mg_stats m) 4 = (5, 5).
Proof.
  destruct one_table_rep as [a Hrep].
  destruct (import_stores_rows no_random (λ _, conj (Z.le_refl 0) eq_refl) one_table_managers a 4 (one_column NotNull)
              [[ExprValue (Number (str "7") false)]; [ExprValue (SingleQuotedString [])]]
              [Tup.new [BigInt 7]; Tup.new [FString []]] 5 [] (Samples.new (one_column NotNull)) []) as (m & r & ids & a' & E & Hrep' & Hext & Hr).
  - exact Hrep.
  - apply (hr_dom _ _ Hrep). vm_compute. eauto.
  - vm_compute. reflexivity.
  - apply new_sampled.
  - vm_compute. reflexivity.
  - repeat constructor.
  - constructor.
  - repeat constructor.
  - vm_compute. reflexivity.
  - split; [|intros; exact I]. split; [vm_compute; eauto|]. split; [discriminate|]. split; [reflexivity|]. split; [exact I|reflexivity].
  - destruct r as [n|e]; [|destruct Hr as (ix & _ & _ & _ & _ & Hin & _); destruct (not_elem_of_nil _ Hin)].
    destruct Hr as (-> & _ & Hts). exists m, ids, a, a'. split; [exact E|]. split; [exact Hrep'|]. split; [exact Hext|].
    apply Hts. vm_compute. eauto.
Defined.

(** ** Queries of a table of two rows *)

(** Table [t] is container 4 of the in-memory storage manager, with the rows 1 and 2. *)
Definition one_x : TableSchema := Schema.new [mkAttribute (str "x") TBigInt PrimaryKey].
Definition sql_catalog : Catalog :=
  mkDbCatalog (mkContainerIdGenerator 5 {[ str "t" := 4 ]}) {[ 4 := mkTableInfo 4 (str "t") one_x ]} ∅.



(** The same table with an index on its column: [x = 3] becomes the key, [x > 1] stays. *)
Definition indexed_catalog : Catalog :=
  mkDbCatalog (container_id_generator sql_catalog) (cat_tables sql_catalog) {[ str "i" := mkIndexInfo 7 (str "i") 4 [0] false ]}.
Definition x_scope : Scope := mkScope ∅ {[ 10000 := BaseCidAndIndex 4 0 ]}.
Definition x_scan : LogicalRelExpr := LRename (LScan 4 (str "t") [400]) {[ 400 := 10000 ]}.
Definition x_is_3 : LExpr := Binary OpEq (ColRef 10000) (EField (BigInt 3)).
Definition x_above_1 : LExpr := Binary OpGt (ColRef 10000) (EField (BigInt 1)).

Lemma index_rewrite_correct_witness :
  Translator.try_index_rewrite indexed_catalog 2 [x_scope] x_scan [x_is_3; x_above_1] =
    Ret (LRename (LIndexScan 4 (str "t") [400] 7 [EField (BigInt 3)]) {[ 400 := 10000 ]}, [x_above_1]) ∧
  ∃ info vals, info ∈ Cat.get_indexes_for_table indexed_catalog 4 ∧
    ∀ r ρ, presents indexed_catalog 2 [x_scope] 4 r ρ →
      all_true_in [x_is_3; x_above_1] ρ = bool_decide (mapM (nth_u r) (ii_columns info) = Some vals) && all_true_in [x_above_1] ρ.
Proof.
  assert (Translator.try_index_rewrite indexed_catalog 2 [x_scope] x_scan [x_is_3; x_above_1] =
    Ret (LRename (LIndexScan 4 (str "t") [400] 7 [EField (BigInt 3)]) {[ 400 := 10000 ]}, [x_above_1])) as E by (vm_compute; reflexivity).
  split; [exact E|].
  destruct (index_rewrite_correct indexed_catalog 2 [x_scope] 4 x_scan [x_is_3; x_above_1]) as (p & res & E' & Hr).
  - reflexivity.
  - apply Forall_cons. split; [|apply Forall_cons; split; [|apply Forall_nil; exact I]]; intros id v [= <- _].
    eexists. vm_compute. reflexivity.
  - rewrite E in E'. injection E' as <- <-. destruct Hr as [[Hp _]|(info & vals & Hin & _ & _ & Hrows)]; [discriminate Hp|].
    exists info, vals. split; [exact Hin|exact Hrows].
Defined.

(** The statistics of the table, and the database. *)
Definition two_records : list (Tuple * ValueId) :=
  [(Tup.new [BigInt 1], mkValueId 4 None None (Some 0)); (Tup.new [BigInt 2], mkValueId 4 None None (Some 1))].
Definition two_stats : ReservoirStatManager :=
  match record_all no_random (Reservoir.register_table Reservoir.new 4 one_x) two_records with Ret (s, _) => s | Panic => Reservoir.new end.
#[local] Instance ms_containers : Containers StorageManager := {|
  create_container s c name := Ms.create_container s c (Some (String.string_of_list_byte name)) None;
  im_create_index s i t cols := Ret (s, Ok tt);
  sm_reset s := Ret (s, Ok tt);
  sm_shutdown s := Ret s
|}.
Definition two_world : World StorageManager :=
  mkWorld (mkDatabase 0 (str "a") sql_catalog 10000 Registrar.new ∅) (mkManagers two_sm two_stats) ∅ 1 (mkExecutor None).

Definition json (_ : QueryResult) : list byte := [].


(** The query is registered; its result is stored as the empty text. *)
Definition rows_1_2 : QueryResult :=
  Select one_x [mkTuple 0 (Some (mkValueId 4 None None (Some 1))) [BigInt 1]; mkTuple 0 (Some (mkValueId 4 None None (Some 2))) [BigInt 2]] None.
Definition from_text (_ : list byte) : option QueryResult := Some rows_1_2.
Abbreviation two_command := (database_command no_random no_logs parse no_csv json from_text parse_no_date no_dates no_subqueries 40 10 (str "db")).
Definition registered_world : World StorageManager :=
  match two_command RegisterQuery [str "q"; str "SELECT * FROM t"] 1 two_world with Ret (w, _) => w | Panic => two_world end.

(** A run whose result is [r] is a run to the world it ends in. *)
Lemma ends_in {W A} (d : W) (o : outcome (W * A)) (r : A) :
  (match o with Ret (_, r) => Some r | Panic => None end) = Some r → o = Ret (match o with Ret (w, _) => w | Panic => d end, r).
Proof. destruct o as [[w r']|]; [|done]. by intros [= ->]. Qed.

Lemma registered_query_cached_witness :
  ∃ plan tid, registered_as json registered_world (str "SELECT * FROM t") (str "q") plan tid rows_1_2.
Proof.
  destruct (registered_query_cached no_random no_logs parse from_text parse_no_date no_dates no_subqueries 10 no_csv json (str "db") 40
              two_world registered_world 1 (str "q") (str "SELECT * FROM t") rows_1_2) as (plan & tid & Hreg & _).
  - vm_compute. reflexivity.
  - vm_compute. reflexivity.
  - reflexivity.
  - apply ends_in. vm_compute. reflexivity.
  - exists plan, tid. exact Hreg.
Defined.

(** A table with a column of an unsupported type. *)
Definition bad_column : ColumnDef := mkColumnDef (mkQuotedIdent (str "z") None) OtherDataType [PrimaryKeyOption].
Definition failed_world : World StorageManager :=
  match create_table (str "v") [bad_column] [] two_world with Ret (w, _) => w | Panic => two_world end.

Lemma failed_create_table_panics_witness :
  run_sql no_random no_logs parse_no_date no_dates no_subqueries 40 10 (Txn.new_from_tid 1) [SQuery (all_of "v")] failed_world = Panic.
Proof.
  apply (failed_create_table_panics no_random no_logs parse_no_date no_dates no_subqueries 10 (str "v") [bad_column] [] two_world failed_world
           (CrustyErr "Unsupported data type")).
  - vm_compute. reflexivity.
  - vm_compute. reflexivity.
  - apply ends_in. vm_compute. reflexivity.
Defined.

Lemma csv_import_ends_witness :
  import_records no_random parse_no_date 9 one_x [Some [str "5"]; None] 4 1 [] 0 two_world =
  import_records no_random parse_no_date 3 one_x [Some [str "5"]; None] 4 1 [] 0 two_world.
Proof. apply (csv_import_ends no_random parse_no_date 9 one_x [Some [str "5"]; None] 4 1 [] 0 two_world). simpl. lia. Defined.

(** ** Statistics *)

Lemma reservoir_samples_witness :
  ∃ s' c, record_all no_random (Reservoir.register_table Reservoir.new 4 one_x) two_records = Ret (s', Ok tt) ∧
    st_samples s' !! 4 = Some c ∧ record_count c = 2 ∧ samples c = two_records.*1.
Proof.
  destruct (reservoir_samples no_random (λ _, conj (Z.le_refl 0) eq_refl) (Reservoir.register_table Reservoir.new 4 one_x) 4 one_x two_records)
    as (s' & c & E & Em & _ & Hc & _ & _ & Hall).
  - vm_compute. reflexivity.
  - repeat constructor.
  - vm_compute. reflexivity.
  - exists s', c. split; [exact E|]. split; [rewrite Em; vm_compute; reflexivity|]. split; [exact Hc|]. apply Hall. vm_compute. discriminate.
Defined.

Definition above_one : list (Expression PhysicalRelExpr) := [Binary OpGt (ColRef 0) (EField (BigInt 1))].
Definition is_two (t : Tuple) : bool := bool_decide (field_vals t = [BigInt 2]).

Lemma estimate_small_table_witness :
  ∃ s' sel, record_all no_random (Reservoir.register_table Reservoir.new 4 one_x) two_records = Ret (s', Ok tt) ∧
    Reservoir.estimate_count_and_sel s' 4 above_one = Ret (Ok (1, sel)).
Proof.
  destruct (estimate_small_table no_random (λ _, conj (Z.le_refl 0) eq_refl) (Reservoir.register_table Reservoir.new 4 one_x) 4 one_x two_records
              above_one is_two) as (s' & E & Hsel).
  - vm_compute. reflexivity.
  - repeat constructor.
  - vm_compute. split; [reflexivity|discriminate].
  - reflexivity.
  - repeat constructor.
  - exists s'. eexists. split; [exact E|]. rewrite Hsel. vm_compute. reflexivity.
Defined.

(** The statistics of one row, changed by transaction 7. *)
Definition one_stats : ReservoirStatManager :=
  mkStats {[ 4 := mkSamples [Tup.new [BigInt 1]] 1 one_x {[ mkValueId 4 None (Some 1) (Some 300) := 0 ]} [AttrStats.new 0] ]}
    {[ 4 := mkStateInfo 4 7 7 true ]} 0.

Lemma statistics_reload_witness :
  Reservoir.load (Reservoir.get_serializable_stat_manager one_stats) = Ret (mkStats (st_samples one_stats) {[ 4 := mkStateInfo 4 0 0 true ]} 0).
Proof.
  rewrite (statistics_reload one_stats).
  - reflexivity.
  - intros cid c Hc. cbn [st_samples one_stats] in Hc. apply lookup_singleton_Some in Hc as [<- <-]. split; [lia|].
    intros id i Hid. cbn [id_to_sample] in Hid. apply lookup_singleton_Some in Hid as [<- _]. repeat split; simpl; lia.
  - intros cid st Hst. cbn [states one_stats] in Hst. apply lookup_singleton_Some in Hst as [<- _]. lia.
Defined.

(** ** The cost model *)

(** [SELECT * FROM (SELECT x + 1 AS z FROM t) AS d WHERE z > 1]. *)
Definition filter_computed : SqlQuery :=
  select [Wildcard]
    [mkTableWithJoins (Derived (select [ExprWithAlias (BinaryOpExpr (column "x") SqlPlus (number "1")) (str "z")] [table "t"] None)
       (Some (mkAlias (str "d") (str "d")))) []]
    (Some (BinaryOpExpr (column "z") SqlGt (number "1"))).
Definition translated (q : SqlQuery) : Query :=
  match Translator.from_sql parse_no_date sql_catalog Rules.default 40 q 10000 with Ret (_, Ok q) => q | _ => mkQuery [] (LScan 4 [] []) end.

Lemma cost_model_returns_witness :
  costs_return (H := Cardinality.model no_logs 10 sql_catalog two_stats) sql_catalog (query_env (translated next_of_large))
    (query_plan (translated next_of_large)).
Proof. apply cost_model_returns. vm_compute. reflexivity. Defined.

Definition computed_source : LogicalRelExpr := match query_plan (translated filter_computed) with LSelect src _ => src | p => p end.

Lemma computed_filter_panics_witness :
  query_plan (translated filter_computed) = LSelect computed_source [Binary OpGt (ColRef 10001) (EField (BigInt 1))] ∧
  CascadesOptimizer.optimize (H := Cardinality.model no_logs 10 sql_catalog two_stats) sql_catalog
    (query_plan (translated filter_computed)) (query_env (translated filter_computed)) = Panic.
Proof.
  assert (query_plan (translated filter_computed) = LSelect computed_source [Binary OpGt (ColRef 10001) (EField (BigInt 1))]) as E
    by (vm_compute; reflexivity).
  split; [exact E|]. rewrite E.
  apply (computed_filter_panics no_logs 10 sql_catalog two_stats (query_env (translated filter_computed)) computed_source OpGt 10001 (BigInt 1) 4).
  - vm_compute. reflexivity.
  - vm_compute. reflexivity.
  - vm_compute. exact I.
Defined.

(** ** Conversations *)

Lemma command_roundtrip_witness :
  parse_command (str "\register q SELECT * FROM t") = Ret (Some (mkCommand (DB RegisterQuery) [str "q"; str "SELECT * FROM t"])).
Proof.
  apply (proj1 command_roundtrip (str "register") 2%nat (DB RegisterQuery) (str "Register a query for future use (name, query)")
           [str "q"; str "SELECT * FROM t"]); [|reflexivity|reflexivity|discriminate].
  apply (list_elem_of_lookup_2 _ 12). reflexivity.
Defined.

(** A form for the commands and responses of this script. *)
#[local] Instance tiny_cbor : Cbor := {|
  cmd_to_cbor c := match c with
    | mkCommand (DB ExecuteSQL) [sql] => Some (Byte.x01 :: sql)
    | mkCommand (System Create) [name] => Some (Byte.x02 :: name)
    | mkCommand (System Connect) [name] => Some (Byte.x03 :: name)
    | _ => None
    end;
  cmd_from_cbor bs := match bs with
    | Byte.x01 :: sql => if (zlen sql =? 1023) then None else Some (mkCommand (DB ExecuteSQL) [sql])
    | Byte.x02 :: name => Some (mkCommand (System Create) [name])
    | Byte.x03 :: name => Some (mkCommand (System Connect) [name])
    | _ => None
    end;
  resp_to_cbor r := match r with
    | SystemMsg msg => Some (Byte.x01 :: msg)
    | QueryExecutionError msg => Some (Byte.x02 :: msg)
    | _ => None
    end;
  resp_from_cbor bs := match bs with
    | Byte.x01 :: msg => Some (SystemMsg msg)
    | Byte.x02 :: msg => Some (QueryExecutionError msg)
    | _ => None
    end
|}.

#[local] Instance heap_handler : Handler server :=
  server_handler no_random no_logs parse no_csv (λ _, []) (λ _, None) parse_no_date no_dates no_subqueries 40 40 (str "db") by_length
    (λ _, []) (λ _, []) false.

Lemma script_answered_witness :
  ∃ (sv' : server) signal out,
    handle_client_request 4 3 false false two_databases
      [Byte.x02 :: str "ccc"; Byte.x03 :: str "ccc"; Byte.x01 :: str "SELEKT"] = Ret (sv', signal, out) ∧
    ∀ s, mjoin s = mjoin out → Forall (λ p, p ≠ []) s → send_requests_from_buffer (str "\r ccc; \c ccc; SELEKT;") s =
      Ret ([Byte.x02 :: str "ccc"; Byte.x03 :: str "ccc"; Byte.x01 :: str "SELEKT"],
        Ok [SystemMsg (str "Created database ccc"); SystemMsg (str "Connected to database ccc");
            QueryExecutionError (str "Crusty Error: SQL error: {}")], []).
Proof.
  destruct (script_answered 4 3 two_databases
    (match responses_to 3 false false two_databases [mkCommand (System Create) [str "ccc"]; mkCommand (System Connect) [str "ccc"];
       mkCommand (DB ExecuteSQL) [str "SELEKT"]] with Ret (sv, _) => sv | Panic => two_databases end)
    (str "\r ccc; \c ccc; SELEKT;")
    [mkCommand (System Create) [str "ccc"]; mkCommand (System Connect) [str "ccc"]; mkCommand (DB ExecuteSQL) [str "SELEKT"]]
    [Byte.x02 :: str "ccc"; Byte.x03 :: str "ccc"; Byte.x01 :: str "SELEKT"]
    [SystemMsg (str "Created database ccc"); SystemMsg (str "Connected to database ccc");
     QueryExecutionError (str "Crusty Error: SQL error: {}")]) as (signal & out & E & Hout).
  - replace (split_into_commands _) with [str "\r ccc"; str "\c ccc"; str "SELEKT"] by (vm_compute; reflexivity).
    repeat (apply List.Forall2_cons; [vm_compute; reflexivity|]). apply List.Forall2_nil.
  - repeat constructor; unfold zlen; simpl; lia.
  - simpl; lia.
  - apply ends_in. vm_compute. reflexivity.
  - reflexivity.
  - repeat constructor; (eexists; split_and!; [reflexivity|reflexivity|unfold zlen; simpl; lia|unfold zlen; simpl; lia]).
  - eexists _, signal, out. split; [exact E|exact Hout].
Defined.

Lemma long_request_closes_witness :
  let sql := replicate 1024 Byte.x61 in
  handle_client_request 1 3 false false two_databases [Byte.x01 :: sql] = Ret (two_databases, false, []) ∧
  send_and_wait (mkCommand (DB ExecuteSQL) [sql]) [] = Ret ([Byte.x01 :: sql], Err (IOError "failed to fill whole buffer"), []).
Proof. apply (long_request_closes 0 3 false false two_databases); [reflexivity|reflexivity|vm_compute; reflexivity]. Defined.
